(* ===== verification/_CoqProject ===== *)
-Q . S2P
Prelude.v
Float64.v
Graph.v
BrowserTypes.v
LaneScheduler.v
LaneInvariant.v
LaneSafety.v
LaneTheorems.v
LaneQueries.v
OwnerLease.v
Identity.v
ResourcePolicy.v
ExecTypes.v
ParticipantRouter.v
PlanMaterializer.v
ControlSteps.v
ExecScheduler.v
ExecDispatch.v
ExecProgress.v
ExtDependency.v
ExtTheorems.v
IdmmPolicy.v
IdmmTheorems.v
Utf8.v
OutputBuffer.v
OutputTheorems.v
ProcessFrames.v
SpawnHandshake.v
Bytes.v
ProcStat.v
WatchdogFds.v
SkillIds.v
Text.v
Json.v
LspFrames.v
ReadPaths.v
WorkingSet.v
LoopGuard.v
CodingText.v
CodingGuards.v
CodingHarness.v
CodingTheorems.v
HarnessTheorems.v
Anchors.v
EditOps.v
EditTheorems.v
TolerantEdit.v
AnchorEdits.v
UnixPath.v
FileCache.v
PatchParse.v
PatchFormat.v
PathGuard.v
FileTools.v
FileSafety.v
Conversation.v
SummaryPrompt.v
LlmStream.v
Compaction.v
AutoCompact.v
CompactEngine.v
CompactUndo.v
CompactPairs.v
CompactTheorems.v
GoalState.v
GoalPrompts.v
GoalRuntime.v
GoalJudge.v
Horizon.v
GoalEngine.v
GoalSafety.v
GoalEvidence.v
GoalTheorems.v
GoalEdges.v
GoalBridge.v
GoalOffline.v
ToolGates.v
ToolBatches.v
ToolExecution.v
ToolTheorems.v
