(* ===== verification/Prelude.v ===== *)
(** * Verification of the Flowy execution, browser, process and coding cores

    The repository is a Rust workspace for a desktop agent application.  The
    subsystems that carry its own logic are modelled here: the browser platform
    (crates/backend/nomifun-browser-platform), which shares a bounded number of
    browser lanes between agents; the agent execution service
    (crates/backend/nomifun-agent-execution), which turns a plan into a graph of
    steps and drives it to an end; the process runtime
    (crates/shared/nomi-process-runtime), which starts, watches and records child
    processes; and the coding agent (crates/agent/nomi-coding with parts of
    nomi-tools and nomi-agent), whose harness decides when a turn may end and
    whose tools edit files; and three parts of the agent loop itself
    (crates/agent/nomi-agent): the execution of the tool calls of a turn, behind
    its gate and its approvals; the compaction that keeps a conversation within the
    context window; and the standing goals that keep a session going.  Smaller
    parts are the dependency resolution of
    extensions (crates/backend/nomifun-extension), the policy that supervises
    stalled sessions (crates/backend/nomifun-idmm), and skill identifiers
    (crates/backend/nomifun-api-types).

    ** How the parts interact

    A browser client holds an owner lease; the hub validates the caller against
    the lease, asks the resource policy for an admission decision, and passes the
    decision to the lane scheduler as a promotion policy.  A lane that uses a
    copied login reads it through the identity coordinator.  All four read time
    from one monotonic clock.  An execution starts as a planned step list; the
    materializer validates it, asks the participant router for assignments and
    writes step and dependency rows.  The execution scheduler reloads these rows
    in a loop and decides: skip a step below a failure, evaluate a control step
    (vote, judge, loop), dispatch Agent steps within the limits, wait, or end.
    The supervisor watches a session from outside: it turns its signals into
    calls of the intervention policy, which answers by rule, asks a bypass model,
    halts or stands by.  A shell tool starts its child through a watchdog process:
    host, watchdog and child exchange fixed-size frames, and the child's output
    goes through an incremental decoder into a bounded ring.  The tool calls of a
    turn are gated against the request that produced them, grouped into batches
    whose calls keep apart, confirmed on the terminal or by the host, and run; a
    failure halts what depends on it.  After every tool turn the agent loop hands the results to the coding harness, which feeds the
    progress, read and edit guards and the working set, and asks it at a turn
    without tool calls whether the turn may end; the stagnation guard watches the
    same turns by signature.  Before a request is sent the loop compacts its
    transcript, in layers of growing cost, the last of which asks a provider for a
    summary; a failed turn is rolled back through the undo log of those layers.
    When a turn ends, a session with a goal observes what the turn has changed
    (the Horizon ledger), decides whether continuing is allowed, asks a judge, and
    either sends a continuation or stops; meanwhile the user pauses, resumes,
    changes or clears the goal through a handle of the same state, or, when no
    agent runs, through the persisted row from which the next session restores it.

    ** Files

    - [Prelude]: results, machine integers, byte strings, shared lemmas.
    - [Float64]: f64 as IEEE binary64 ([SpecFloat]); order of finite values.
    - [Graph]: Kahn's algorithm over an interface for the in-degree store (a
      vector or a hash map implement it), worklist search, cycles.
    - [BrowserTypes]: error.rs, model.rs, clock.rs of the browser platform, with
      the bounds and the convergence of [next_monotonic_time].
    - [LaneScheduler]: scheduler.rs.  [SchedulerState] is the Rust struct behind
      the mutex; each public method is one function on it.  [LaneInvariant]
      treats the owner ring, the invariant and selection, [LaneSafety] what each
      call does, that it keeps the invariant, and the simulation behind queue
      positions; [LaneTheorems] and [LaneQueries] hold the
      properties: the invariant, limits, refinement of an abstract permit
      machine, work conservation, fairness, the 4:1 share, truthful positions,
      idempotent admission, order after a cancellation.
    - [OwnerLease]: lease.rs.  Validation is exact, narrowing and expiry are
      final whatever calls follow, the two sweeps agree.
    - [Identity]: identity.rs.  Generations grow, stale payloads are refused.
    - [ResourcePolicy]: resource.rs.  Presets validate; admission and
      concurrency are bounded by the measured headroom.
    - [ExecTypes]: the execution vocabulary of nomifun-common, nomi-types and
      nomifun-api-types: wire enumerations through a type class, status machines,
      delegation requests, model pools, aggregate records.
    - [ParticipantRouter], [PlanMaterializer], [ControlSteps]: the files of the
      same names under nomifun-agent-execution/src.
    - [ExecScheduler]: the decisions of scheduler.rs.  [ExecDispatch] shows the
      ready list, loop resets and dispatch limits correct; [ExecProgress] shows
      that an iteration never gives up on schedulable work, and that executions
      and attempts end as their steps and turns did.
    - [ExtDependency]: dependency.rs of nomifun-extension; [ExtTheorems] proves
      the depth-first search, the load order and the verdict.
    - [IdmmPolicy]: policy.rs, config.rs and signal.rs of nomifun-idmm, its
      configuration types, and what supervisor.rs does with the bypass model's
      outcome.  [PolicyState] is the Rust struct; [IdmmTheorems] shows that a
      closed turn is never restarted, that interventions stay within the budget,
      what the rule tier and the model may answer, and where the veto is bypassed.
    - [Utf8], [OutputBuffer]: io.rs of the process runtime: incremental decoding
      and the bounded ring of output chunks.  [OutputTheorems]: the ring refines
      an unbounded log, a reader that keeps up loses nothing, decoding does not
      depend on how the stream is cut.
    - [ProcessFrames]: unix_protocol.rs, the frame codec, its transports and
      deadlines.  [SpawnHandshake]: the start-up protocol of linux_watchdog.rs and
      unix.rs as a transition system of host, watchdog, child and kernel, in which
      each of the three processes may be killed at any time.
      [ProcStat]: the /proc parsers and the parent monitor.  [WatchdogFds]: the
      descriptor clean-up.  [Bytes]: number parsing and splitting they share.
    - [SkillIds]: skill.rs of nomifun-api-types; identifiers are canonical.
    - [Text], [Json]: [str] functions and serde_json's values.
    - [LspFrames]: framing and columns of nomi-tools/src/lsp.rs.
    - [LoopGuard]: nomi-agent/src/loop_guard.rs.
    - [ReadPaths], [WorkingSet]: path keys (read_repeat.rs) and the working set.
    - [CodingText], [CodingGuards], [CodingHarness]: the rest of nomi-coding: the
      text classifiers, the guards, and harness.rs.  [CodingTheorems] holds the
      properties of single guards, [HarnessTheorems] those of whole requests.
    - [Anchors]: nomi-tools/src/anchors.rs, the line anchors that Read prints and
      Edit accepts.  [EditOps]: the two edit engines of edit.rs.  [EditTheorems]
      gives the exact edits a specification by occurrences and says when an edit
      fails, [TolerantEdit] finds the region of the white-space tolerant fallback
      and puts both into one specification of a batch, [AnchorEdits] shows an
      anchored batch to be one pass over the lines, and which line an anchor
      names.  [UnixPath]: paths of the standard library.
      [FileCache]: file_cache.rs.  [PatchParse]: patch.rs of nomi-coding, with
      [PatchFormat] for what a patch means.  [PathGuard]: path_guard.rs over an
      interface for the file system.  [FileTools]: the tools of write.rs, edit.rs
      and apply_patch.rs, from their JSON inputs to the calls of the file system;
      [FileSafety] shows which paths they can touch, and when: the files a request
      names, their temporary files and parent directories, and an existing file
      only where the cache of reads, if there is one, knows it.
    - [Conversation], [LlmStream]: the messages of nomi-types and the events of a
      provider's stream.  [Compaction]: estimate.rs, emergency.rs, micro.rs, snip.rs
      and state.rs under nomi-agent/src/compact.  [SummaryPrompt]: the texts of
      prompt.rs and archive.rs.  [AutoCompact]: auto.rs, the plan of a fold and the
      summarizer with its retries.  [CompactEngine]: the use of the layers in
      engine/mod.rs, with the undo log.  [CompactUndo] shows that a roll-back
      restores the transcript before the turn, [CompactPairs] that no layer
      separates a tool call from its result; [CompactTheorems] holds which results
      a microcompaction clears, when a fold is adopted, that the summarizer ends,
      and the cases behind the findings.
    - [ToolGates]: what stands before a tool: confirm.rs, the approvals of
      nomi-protocol/src/lib.rs, the part of nomi-tools/src/registry.rs that
      execution uses, and the authority and gate of tool_execution.rs.
      [ToolBatches]: path locks, the error cascade and the batches of that file.
      [ToolExecution]: one invocation and both executors, on a [Turn] that keeps
      results, cascade, hooks and a trace of effects; everything outside answers
      through a [World].  [ToolTheorems]: nothing runs without the gate and the
      consent of the user or the host, given to the registration of this turn and
      not to an older one, every call is answered once, batches keep apart, and
      failures halt what depends on them.
    - [GoalState]: goal/state.rs and the update_goal tool of goal/tool.rs.
      [GoalPrompts]: the templates and their renderers.  [GoalRuntime]:
      goal/runtime.rs, each critical section one function.  [GoalJudge]:
      goal/judge.rs.  [Horizon]: the files under nomi-agent/src/horizon.
      [GoalEngine]: the observation of tools and the natural end of a turn in
      engine/mod.rs, and sessions as sequences of events of the engine and the
      host.  [GoalSafety] relates each event to the moves of a goal,
      [GoalEvidence] keeps the invariants of sessions without evidence and treats
      one judgement; [GoalTheorems] holds the properties:
      completion needs evidence, stopped goals stay stopped, continuations stay
      within the budget, an idle goal wastes one round, and exactly when a natural
      end continues.  [GoalEdges] holds the cases behind the findings.
    - [GoalBridge]: goal_bridge.rs, goal_probe.rs and the goal actions of the
      manager (manager/nomi/agent.rs) and of the conversation service
      (service_ops.rs), over an interface of the repository; sqlite_goal.rs
      implements it; and what a session build takes up: an explicit resume state
      before the row, and nothing where the host policy has goals off.
      [GoalOffline] shows that a row restores its goal and that an action on the
      row does what the live action does.

    ** Conventions

    A method that holds its mutex for its whole body is an atomic function from
    state to state and answer, so concurrent callers are sequences of such steps
    ([LaneSafety.reachable], [OwnerLease.lease_run], [Identity.id_run],
    [IdmmTheorems.idmm_run]).  A method that releases its lock around an await is
    one function per critical section; the engine's and the host's sections
    interleave as lists of events ([GoalEngine.goal_run]).  What a host does to the
    approvals of a turn is a list of its calls before each step of the executor and
    during each wait ([ToolExecution.World]).  A one-shot channel is a number, and
    its receiver sees the first signal on it ([ToolGates.received]).  Clock
    readings and fresh identifiers are arguments.  [Option::expect], an index out
    of range and an underflow are explicit failures, shown unreachable.  A
    [HashMap] is a [gmap]; where its traversal order could show, the order is an
    argument and a theorem quantifies over it ([exec_ready_steps_exact]).
    Counters that only count collections are [nat]; other unsigned integers are
    [N] with saturation at 64 bits written out, signed ones [Z].  Where the source
    adds without saturating and the sum can leave 64 bits, the wrap is written out
    ([GoalRuntime.wait_deadline]).

    ** Fuel

    Loops that are not structural take fuel, and each use is shown to be enough:
    the slot and ring scans run over a fixed number of positions; the position
    simulation removes one request per round and gets the queue length
    ([queue_position_spec]); Kahn's loop and the materializer's get the node
    count ([kahn_spec]); the worklist searches get one more than the number of
    edges ([search_spec]); the cycle search gets one more than the number of
    nodes ([find_cycles_spec]); the reader loop of [LspFrames] gets more than the
    length of its buffer ([drain_spec]), the digit loop of [ProcStat] the twenty
    digits a 64-bit number can have ([reverse_digits_spec]), and the chunking of
    [Utf8] the length of its input ([chunks_of_concat]), and the removal of all
    criteria of a goal one more than their number ([GoalOffline.remove_first_all]);
    the summarizer recurses on its remaining retries.  Theorems about these
    functions state that they return a result.  The validation and decoding loops
    of [Utf8] are defined by well-founded recursion with [Equations].

    ** Parameters

    Third-party code is a parameter: serde_json ([ControlSteps.JsonApi]), the
    default hasher, number formatting, the policy encoders of the materializer,
    and the semver crate ([ExtDependency.SemverApi]).  [str::to_lowercase] is one
    too, for its Unicode tables.  So are the finish function of the hasher, the
    /proc files and kernel answers of the process runtime, the [Debug] form of
    strings, the text of the coding constitution and the lru crate
    ([FileCache.LruLaws]).  The disk is an interface ([PathGuard.FileSystem]) whose
    calls may fail in any way.  A provider is the stream it answers with; the
    archive, the content-reference store and the JSON lengths the engine reads are
    fields of [CompactEngine.Host].  What a tool, its hooks and its deadline do in
    one run is a [ToolExecution.ToolRun]; the JSON schema of a tool is the error
    text it gives an input and the input it repairs it to
    ([ToolGates.ToolInputContract]); the invocation policy of the
    host is a function of the tool's name and input, so it is taken not to change
    its mind within a turn (the one of voice sessions resolves paths on the disk and
    is asked several times per call); redaction and the compaction of outputs are
    functions.  The judge's client, the answers of the wait
    probe, the local time as text, and git and the file system as a fingerprint
    sees them ([Horizon.Workspace]) are arguments; the JSON columns of a goal and its
    repository are interfaces ([GoalBridge.GoalJsonLaws],
    [GoalOffline.RepositoryLaws]).  Witnesses instantiate them.

    ** Not modelled

    Everything that is I/O: the SQL repositories, the HTTP server, model
    providers, the Chromium processes behind the hub, spawned futures, lease
    heartbeats and cleanup batches of the scheduler, the planner's and attempt
    runner's model calls, and the user interface; the Windows code pages of the
    output decoder and the macOS watchdog.  Of the agent loop, only what is named
    above: the turn loop around it (streaming, sessions on disk), the registration
    of tools and their schemas, hook commands, the bodies of the tools other than
    those that edit files, the writing of archives and the extraction of AGENTS.md
    sections during a fold are left out, and so are the tasks that persist a goal
    in the background and the serde form of its state.  The lease and cleanup
    protocol of the execution scheduler, the prompt detector of nomifun-idmm and
    the artifact contract of the execution service have logic of their own that
    could be modelled over the same interfaces and is not.  The application
    server, the channels, and the media, office and knowledge services, the largest
    crates by lines, mostly pass requests between databases, networks and
    third-party formats. *)
From stdpp Require Export base gmap sets list strings sorting relations pretty.
From Stdlib Require Export NArith ZArith Lia.
From Stdlib Require Ascii String.

(** ** Result values *)

Inductive result (A E : Type) : Type :=
| Ok (a : A)
| Err (e : E).
Arguments Ok {A E} a.
Arguments Err {A E} e.

Declare Scope allo_scope.
Delimit Scope allo_scope with allo.

Definition result_bind {A B E} (r : result A E) (k : A → result B E) : result B E :=
  match r with Ok a => k a | Err e => Err e end.

Notation "'let?' x ':=' e 'in' k" := (result_bind e (λ x, k))
  (at level 10, x binder, e at level 100, k at level 200, only parsing) : allo_scope.
Notation "e ';;?' k" := (result_bind e (λ _, k))
  (at level 100, k at level 200, right associativity) : allo_scope.
Open Scope allo_scope.

Definition is_ok {A E} (r : result A E) : bool :=
  match r with Ok _ => true | Err _ => false end.

Lemma result_bind_ok {A B E} (r : result A E) (k : A → result B E) b :
  result_bind r k = Ok b ↔ ∃ a, r = Ok a ∧ k a = Ok b.
Proof. destruct r; naive_solver. Qed.

(** ** Machine integers

    [u64] and [usize] values are [N] (or [nat] where the code only counts
    collection lengths), [i64] values are [Z]; the saturating operations of the
    Rust standard library are written out at their width. *)

Definition u64_max : N := 18446744073709551615.
Definition i64_max : Z := 9223372036854775807.
Definition i64_min : Z := -9223372036854775808.

Definition u64_sat_add (a b : N) : N := N.min (a + b) u64_max.
Definition u64_sat_mul (a b : N) : N := N.min (a * b) u64_max.
Definition i64_sat (z : Z) : Z := Z.max i64_min (Z.min z i64_max).

(** Rust's [Ord::clamp] on unsigned integers. *)
Definition N_clamp (x lo hi : N) : N := N.min (N.max x lo) hi.
Definition Z_clamp (x lo hi : Z) : Z := Z.min (Z.max x lo) hi.

Definition is_u64 (n : N) : Prop := (n <= u64_max)%N.
#[export] Instance is_u64_dec n : Decision (is_u64 n) := _.

Lemma u64_sat_add_le a b : (u64_sat_add a b <= u64_max)%N.
Proof. unfold u64_sat_add. lia. Qed.
Lemma u64_sat_add_ge a b : is_u64 a → (a <= u64_sat_add a b)%N.
Proof. unfold u64_sat_add, is_u64. lia. Qed.
Lemma u64_sat_add_exact a b : is_u64 (a + b) → u64_sat_add a b = (a + b)%N.
Proof. unfold u64_sat_add, is_u64. lia. Qed.

(** ** Strings

    A Rust [String]/[&str] is its UTF-8 byte string.  [trim] removes the
    characters of Unicode's [White_Space] property, found by their UTF-8
    encodings, as [str::trim] does. *)

Definition byte (c : Ascii.ascii) : N := Ascii.N_of_ascii c.

Definition bytes := list Ascii.ascii.
Definition u8 (n : N) : Ascii.ascii := Ascii.ascii_of_N n.
Definition byte_in (lo hi : N) (c : Ascii.ascii) : bool := ((lo <=? byte c) && (byte c <=? hi))%N.
(** [str::as_bytes] *)
Definition as_bytes (s : string) : bytes := String.list_ascii_of_string s.

Lemma byte_lt c : (byte c < 256)%N.
Proof. apply Ascii.N_ascii_bounded. Qed.
Lemma byte_u8 n : (n < 256)%N → byte (u8 n) = n.
Proof. apply Ascii.N_ascii_embedding. Qed.
Lemma u8_byte c : u8 (byte c) = c.
Proof. apply Ascii.ascii_N_embedding. Qed.
Lemma byte_inj a b : byte a = byte b → a = b.
Proof. intros H. by rewrite <-(u8_byte a), H, u8_byte. Qed.
Lemma byte_in_spec lo hi c : byte_in lo hi c = true ↔ (lo <= byte c <= hi)%N.
Proof. unfold byte_in. rewrite andb_true_iff, !N.leb_le. done. Qed.
Lemma byte_in_false lo hi c : byte_in lo hi c = false ↔ (byte c < lo ∨ hi < byte c)%N.
Proof. rewrite <-not_true_iff_false, byte_in_spec. lia. Qed.

Definition ws1 (a : Ascii.ascii) : bool :=
  ((9 <=? byte a) && (byte a <=? 13) || (byte a =? 32))%N.
Definition ws2 (a b : Ascii.ascii) : bool :=
  ((byte a =? 194) && ((byte b =? 133) || (byte b =? 160)))%N.
Definition ws3 (a b c : Ascii.ascii) : bool :=
  (((byte a =? 225) && (byte b =? 154) && (byte c =? 128))
   || ((byte a =? 226) && (byte b =? 128)
       && (((128 <=? byte c) && (byte c <=? 138))
           || (byte c =? 168) || (byte c =? 169) || (byte c =? 175)))
   || ((byte a =? 226) && (byte b =? 129) && (byte c =? 159))
   || ((byte a =? 227) && (byte b =? 128) && (byte c =? 128)))%N.

Fixpoint trim_start (s : string) : string :=
  match s with
  | String a s1 =>
      if ws1 a then trim_start s1 else
      match s1 with
      | String b s2 =>
          if ws2 a b then trim_start s2 else
          match s2 with
          | String c s3 => if ws3 a b c then trim_start s3 else s
          | EmptyString => s
          end
      | EmptyString => s
      end
  | EmptyString => s
  end.

(** The same on a reversed byte string, where the encodings read backwards. *)
Fixpoint trim_start_rev (s : string) : string :=
  match s with
  | String a s1 =>
      if ws1 a then trim_start_rev s1 else
      match s1 with
      | String b s2 =>
          if ws2 b a then trim_start_rev s2 else
          match s2 with
          | String c s3 => if ws3 c b a then trim_start_rev s3 else s
          | EmptyString => s
          end
      | EmptyString => s
      end
  | EmptyString => s
  end.

Definition trim_end (s : string) : string := String.rev (trim_start_rev (String.rev s)).
Definition trim (s : string) : string := trim_end (trim_start s).

(** [s.trim().is_empty()] *)
Definition is_blank (s : string) : bool := bool_decide (trim s = "").

Definition to_ascii_lowercase_char (c : Ascii.ascii) : Ascii.ascii :=
  if ((65 <=? byte c) && (byte c <=? 90))%N then Ascii.ascii_of_N (byte c + 32) else c.
Fixpoint to_ascii_lowercase (s : string) : string :=
  match s with
  | EmptyString => EmptyString
  | String c s => String (to_ascii_lowercase_char c) (to_ascii_lowercase s)
  end.

Definition is_ascii_digit (c : Ascii.ascii) : bool := ((48 <=? byte c) && (byte c <=? 57))%N.
Definition is_ascii_alphabetic (c : Ascii.ascii) : bool :=
  (((65 <=? byte c) && (byte c <=? 90)) || ((97 <=? byte c) && (byte c <=? 122)))%N.
Definition is_ascii_alphanumeric (c : Ascii.ascii) : bool :=
  is_ascii_digit c || is_ascii_alphabetic c.

Definition starts_with (s p : string) : bool := String.prefix p s.
Definition ends_with (s p : string) : bool := String.prefix (String.rev p) (String.rev s).
Fixpoint contains_str (s p : string) : bool :=
  String.prefix p s ||
  match s with EmptyString => false | String _ s' => contains_str s' p end.

Fixpoint string_forallb (f : Ascii.ascii → bool) (s : string) : bool :=
  match s with EmptyString => true | String c s => f c && string_forallb f s end.

(** [strings.join(sep)] *)
Fixpoint join (sep : string) (l : list string) : string :=
  match l with
  | [] => ""
  | [x] => x
  | x :: l => x +:+ sep +:+ join sep l
  end.

(** A map collected from a list ([Iterator::collect] into a [HashMap]) whose
    keys are distinct. *)
Lemma foldl_insert_lookup {A V} (key : A → string) (val : A → V) (l : list A) (m : gmap string V) k y :
  NoDup (key <$> l) →
  foldl (λ m x, <[key x := val x]> m) m l !! k = Some y ↔
  (∃ x, x ∈ l ∧ key x = k ∧ val x = y) ∨ (k ∉ key <$> l) ∧ m !! k = Some y.
Proof.
  revert m. induction l as [|x l IH]; intros m Hnd; simpl; [set_solver|].
  apply NoDup_cons in Hnd as [Hx Hnd]. rewrite IH by done. setoid_rewrite elem_of_cons.
  destruct (decide (key x = k)) as [<-|Hne].
  - rewrite lookup_insert_eq. split.
    + intros [(z&?&?&?)|[_ [= <-]]]; left; [exists z|exists x]; auto.
    + intros [(z&[->|Hz]&Hk&<-)|[Hno _]]; [by right|left; by exists z|].
      destruct Hno. by apply elem_of_cons; left.
  - rewrite lookup_insert_ne by done. naive_solver.
Qed.

Lemma size_list_to_set_le {A} `{Countable A} (l : list A) : size (list_to_set l : gset A) ≤ length l.
Proof.
  induction l as [|x l IH]; [done|]. rewrite list_to_set_cons, size_union_alt, size_singleton.
  pose proof (subseteq_size (list_to_set l ∖ {[x]} : gset A) (list_to_set l) ltac:(set_solver)).
  simpl. lia.
Qed.

(** Byte-wise string order ([Ord] on [str]). *)
Definition string_le (a b : string) : Prop := Is_true (String.leb a b).
#[export] Instance string_le_dec a b : Decision (string_le a b) := _.

Lemma filter_all {A} (P : A → Prop) `{∀ x, Decision (P x)} l : Forall P l → filter P l = l.
Proof. induction 1 as [|x l Hx _ IH]; [done|]. by rewrite filter_cons_True, IH. Qed.
Lemma filter_none {A} (P : A → Prop) `{∀ x, Decision (P x)} l : (∀ x, x ∈ l → ¬ P x) → filter P l = [].
Proof.
  intros Hno. induction l as [|x l IH]; [done|]. rewrite filter_cons, decide_False by (apply Hno; left).
  apply IH. intros y Hy. apply Hno. by right.
Qed.
Lemma string_leb_spec a b : String.leb a b = true ↔ String.compare a b ≠ Gt.
Proof. unfold String.leb. by destruct (String.compare a b). Qed.
Lemma ascii_compare_spec a b :
  Ascii.compare a b = (Ascii.N_of_ascii a ?= Ascii.N_of_ascii b)%N.
Proof. done. Qed.
Lemma string_compare_trans a b c :
  String.compare a b ≠ Gt → String.compare b c ≠ Gt → String.compare a c ≠ Gt.
Proof.
  revert b c. induction a as [|x a IH]; intros [|y b] [|z c]; try done. cbn [String.compare].
  rewrite !ascii_compare_spec.
  destruct (N.compare_spec (Ascii.N_of_ascii x) (Ascii.N_of_ascii y)) as [Hxy|Hxy|Hxy]; [| |done];
  destruct (N.compare_spec (Ascii.N_of_ascii y) (Ascii.N_of_ascii z)) as [Hyz|Hyz|Hyz];
    try done; intros H1 H2.
  - rewrite (proj2 (N.compare_eq_iff _ _)) by lia. eauto.
  - rewrite (proj2 (N.compare_lt_iff _ _)) by lia. done.
  - rewrite (proj2 (N.compare_lt_iff _ _)) by lia. done.
  - rewrite (proj2 (N.compare_lt_iff _ _)) by lia. done.
Qed.
#[export] Instance string_le_trans : Transitive string_le.
Proof.
  intros a b c. unfold string_le. rewrite !Is_true_true, !string_leb_spec.
  apply string_compare_trans.
Qed.
#[export] Instance string_le_total : Total string_le.
Proof. intros a b. unfold string_le. rewrite !Is_true_true. apply String.leb_total. Qed.
#[export] Instance string_le_antisymm : AntiSymm eq string_le.
Proof. intros a b. unfold string_le. rewrite !Is_true_true. apply String.leb_antisym. Qed.

Example trim_example : trim "  a b
 " = "a b".
Proof. reflexivity. Qed.
Example is_blank_example : is_blank "   " = true.
Proof. reflexivity. Qed.
Example is_blank_example_neg : is_blank " x " = false.
Proof. reflexivity. Qed.
