(* ===== verification/Float64.v ===== *)
(** The [f64] arithmetic the code uses, on the standard library's [spec_float]
    at precision 53 and exponent bound 1024 (IEEE 754 binary64, rounding to
    nearest even), with the order lemmas for finite numbers. *)
From S2P Require Import Prelude.
From Stdlib Require Import Floats.SpecFloat.

Definition f64 : Set := spec_float.
Definition f64_zero : f64 := S754_zero false.
Definition f64_neg_infinity : f64 := S754_infinity true.
Definition f64_of_u64 (n : N) : f64 := binary_normalize 53 1024 (Z.of_N n) 0 false.
Definition f64_add : f64 → f64 → f64 := SFadd 53 1024.
Definition f64_sub : f64 → f64 → f64 := SFsub 53 1024.
Definition f64_mul : f64 → f64 → f64 := SFmul 53 1024.
Definition f64_div : f64 → f64 → f64 := SFdiv 53 1024.
(** The literal [num / den], correctly rounded. *)
Definition f64_lit (num den : N) : f64 := f64_div (f64_of_u64 num) (f64_of_u64 den).

(** Comparisons are false on NaN; [partial_cmp] is [None]. *)
Definition f64_le : f64 → f64 → bool := SFleb.
Definition f64_eq : f64 → f64 → bool := SFeqb.
Definition f64_partial_cmp : f64 → f64 → option comparison := SFcompare.
Definition f64_is_finite (x : f64) : bool :=
  match x with S754_zero _ | S754_finite _ _ _ => true | _ => false end.

(** [x as u64]: truncation, saturating, 0 on NaN. *)
Definition u64_of_f64 (x : f64) : N :=
  match x with
  | S754_finite false m e => N.min (Z.to_N (Z.shiftl (Zpos m) e)) u64_max
  | S754_infinity false => u64_max
  | _ => 0%N
  end.

(** ** Order on finite numbers *)

(** A sort key: sign, then exponent, then mantissa. *)
Definition f64_key (x : f64) : Z * Z * Z :=
  match x with
  | S754_finite true m e => (-1, -e, Zneg m)%Z
  | S754_finite false m e => (1, e, Zpos m)%Z
  | S754_infinity s => (if s then -2 else 2, 0, 0)%Z
  | _ => (0, 0, 0)%Z
  end.
Definition key_compare (a b : Z * Z * Z) : comparison :=
  match (a.1.1 ?= b.1.1)%Z with
  | Eq => match (a.1.2 ?= b.1.2)%Z with Eq => (a.2 ?= b.2)%Z | c => c end
  | c => c
  end.

Lemma f64_cmp_key x y :
  f64_is_finite x → f64_is_finite y → f64_partial_cmp x y = Some (key_compare (f64_key x) (f64_key y)).
Proof.
  destruct x as [[]|[]| |[] m1 e1], y as [[]|[]| |[] m2 e2]; try done; intros _ _;
    unfold f64_partial_cmp, key_compare; simpl; try done.
  rewrite Z.compare_opp, (Z.compare_antisym e1 e2). by destruct (Z.compare e1 e2).
Qed.

Lemma key_compare_antisym a b : key_compare b a = CompOpp (key_compare a b).
Proof.
  unfold key_compare. rewrite (Z.compare_antisym a.1.1), (Z.compare_antisym a.1.2),
    (Z.compare_antisym a.2).
  by destruct (Z.compare a.1.1 b.1.1), (Z.compare a.1.2 b.1.2).
Qed.

Lemma key_compare_spec a b :
  key_compare a b ≠ Gt ↔
  (a.1.1 < b.1.1 ∨ a.1.1 = b.1.1 ∧ (a.1.2 < b.1.2 ∨ a.1.2 = b.1.2 ∧ a.2 <= b.2))%Z.
Proof.
  unfold key_compare. destruct (Z.compare_spec a.1.1 b.1.1), (Z.compare_spec a.1.2 b.1.2),
    (Z.compare_spec a.2 b.2); split; intros; (done || lia || idtac).
Qed.

Lemma key_compare_trans a b c :
  key_compare a b ≠ Gt → key_compare b c ≠ Gt → key_compare a c ≠ Gt.
Proof. rewrite !key_compare_spec. lia. Qed.

Lemma f64_cmp_antisym x y :
  default Eq (f64_partial_cmp x y) = CompOpp (default Eq (f64_partial_cmp y x)).
Proof.
  unfold f64_partial_cmp. destruct x as [[]|[]| |[] m1 e1], y as [[]|[]| |[] m2 e2]; try done; simpl.
  all: rewrite (Z.compare_antisym e2 e1); destruct (Z.compare e2 e1); try done; simpl.
  all: change (PosDef.Pos.compare_cont Eq) with Pos.compare; rewrite (Pos.compare_antisym m2 m1).
  all: by destruct (Pos.compare m2 m1).
Qed.

Lemma f64_le_key x y :
  f64_is_finite x → f64_is_finite y → f64_le x y ↔ key_compare (f64_key x) (f64_key y) ≠ Gt.
Proof.
  intros Hx Hy. pose proof (f64_cmp_key x y Hx Hy) as Hc.
  unfold f64_le, SFleb. unfold f64_partial_cmp in Hc. rewrite Hc.
  by destruct (key_compare _ _).
Qed.
