(* ===== verification/Graph.v ===== *)
(** Graph algorithms shared by several components: Kahn's topological sort
    over an abstract store of in-degrees, and the worklist closure of a finite
    relation.  The components write their own loops and show them equal to the
    ones here. *)
From S2P Require Import Prelude.

(** ** Counting *)

Definition count {A} `{EqDecision A} (x : A) (l : list A) : nat := length (filter (λ y, y = x) l).

Section count.
Context {A} `{EqDecision A}.
Implicit Types (l : list A).

Lemma count_cons x y l : count x (y :: l) = (if decide (y = x) then 1 else 0) + count x l.
Proof. unfold count. rewrite filter_cons. by case_decide. Qed.
Lemma count_app x l k : count x (l ++ k) = count x l + count x k.
Proof. unfold count. by rewrite filter_app, length_app. Qed.
Lemma count_pos x l : 0 < count x l ↔ x ∈ l.
Proof.
  induction l as [|y l IH]; [split; [unfold count; simpl; lia|set_solver]|].
  rewrite count_cons, elem_of_cons. case_decide; [naive_solver lia|]. rewrite IH. naive_solver.
Qed.
Lemma count_0 x l : count x l = 0 ↔ x ∉ l.
Proof. rewrite <-count_pos. lia. Qed.
End count.

(** ** Transitive closure *)

Lemma tc_flip {A} (R : relation A) x y : tc (flip R) x y ↔ tc R y x.
Proof.
  split.
  - induction 1 as [x y H|x y z H _ IH]; [by constructor|by eapply tc_r].
  - induction 1 as [x y H|x y z H _ IH]; [by constructor|eapply tc_r; [exact IH|exact H]].
Qed.

Lemma tc_inv_last {A} (R : relation A) x y :
  tc R x y → R x y ∨ ∃ z, tc R x z ∧ R z y.
Proof.
  induction 1 as [x y H|x y z H Ht IH]; [by left|]. right.
  destruct IH as [?|(u&?&?)]; [exists y; split; [by constructor|done]|].
  exists u. split; [by eapply tc_l|done].
Qed.

Lemma tc_mono {A} (R R' : relation A) x y :
  (∀ u v, R u v → R' u v) → tc R x y → tc R' x y.
Proof.
  intros HR. induction 1 as [x y H|x y z H _ IH]; [by apply tc_once, HR|by eapply tc_l; [apply HR|]].
Qed.

Lemma filter_not_in_nil {A} `{EqDecision A} (l : list A) : filter (λ x, x ∉ []) l = l.
Proof.
  induction l as [|x l IH]; [done|]. rewrite filter_cons, decide_True by set_solver. by rewrite IH.
Qed.

(** ** In-degree stores *)

(** What Kahn's loop needs of the collection that holds the in-degrees (a
    vector indexed by position, or a hash map). *)
Class DegreeStore (A S : Type) := {
  deg_get : S → A → option nat;
  deg_set : S → A → nat → S;
}.
Class LawfulDegreeStore (A S : Type) `{EqDecision A, !DegreeStore A S} : Prop := {
  deg_get_set : ∀ (s : S) (v w : A) (d : nat), is_Some (deg_get s v) →
    deg_get (deg_set s v d) w = if decide (w = v) then Some d else deg_get s w;
}.

#[export] Instance list_degrees : DegreeStore nat (list nat) := {
  deg_get s v := s !! v;
  deg_set s v d := <[v := d]> s;
}.
#[export] Instance list_degrees_lawful : LawfulDegreeStore nat (list nat).
Proof.
  split. intros s v w d [x Hx]. simpl. case_decide as Hw.
  - subst. apply list_lookup_insert_eq. by eapply lookup_lt_Some.
  - by apply list_lookup_insert_ne.
Qed.

#[export] Instance map_degrees `{Countable K} : DegreeStore K (gmap K nat) := {
  deg_get s v := s !! v;
  deg_set s v d := <[v := d]> s;
}.
#[export] Instance map_degrees_lawful `{Countable K} : LawfulDegreeStore K (gmap K nat).
Proof.
  split. intros s v w d _. simpl. case_decide as Hw.
  - subst. apply lookup_insert_eq.
  - by apply lookup_insert_ne.
Qed.

(** The number of edges into [v] from the nodes [us]. *)
Definition in_from {A} `{EqDecision A} (out : A → list A) (us : list A) (v : A) : nat :=
  sum_list_with (λ u, count v (out u)) us.

Lemma in_from_0 {A} `{EqDecision A} (out : A → list A) us v :
  in_from out us v = 0 ↔ ∀ u, u ∈ us → v ∉ out u.
Proof.
  unfold in_from. induction us as [|u us IH]; simpl; [set_solver|].
  rewrite Nat.eq_add_0, IH, count_0. set_solver.
Qed.
Lemma in_from_perm {A} `{EqDecision A} (out : A → list A) us us' v :
  us ≡ₚ us' → in_from out us v = in_from out us' v.
Proof. unfold in_from. by intros ->. Qed.

(** ** Kahn's algorithm *)

Section kahn.
Context {A S : Type} `{EqDecision A, !DegreeStore A S, !LawfulDegreeStore A S}.

(** Decrement the degree of every node of [vs] in turn; the nodes that
    reach zero, in that order.  [None] is a missing entry or an underflow. *)
Fixpoint relax (s : S) (vs : list A) : option (S * list A) :=
  match vs with
  | [] => Some (s, [])
  | v :: vs =>
      match deg_get s v with
      | Some (Datatypes.S d) =>
          match relax (deg_set s v d) vs with
          | Some (s, r) => Some (s, if decide (d = 0) then v :: r else r)
          | None => None
          end
      | _ => None
      end
  end.

(** [arrange] is the order in which the released nodes are queued. *)
Context (out : A → list A) (arrange : list A → list A).

Fixpoint kahn (fuel : nat) (s : S) (queue order : list A) : option (list A) :=
  match queue with
  | [] => Some order
  | n :: queue =>
      match fuel with
      | 0 => None
      | Datatypes.S fuel =>
          match relax s (out n) with
          | None => None
          | Some (s, r) => kahn fuel s (queue ++ arrange r) (order ++ [n])
          end
      end
  end.

Lemma relax_spec s vs :
  (∀ v, v ∈ vs → ∃ d, deg_get s v = Some d ∧ count v vs ≤ d) →
  ∃ s' r, relax s vs = Some (s', r) ∧ NoDup r ∧
    (∀ v d, deg_get s v = Some d → deg_get s' v = Some (d - count v vs)) ∧
    (∀ v, v ∈ r ↔ v ∈ vs ∧ deg_get s v = Some (count v vs)).
Proof.
  revert s. induction vs as [|v vs IH]; intros s Hd.
  { exists s, []. split_and!; [done|constructor| |set_solver].
    intros v d ->. unfold count. simpl. by rewrite Nat.sub_0_r. }
  destruct (Hd v) as (d&Hv&Hle); [left|]. rewrite count_cons, decide_True in Hle by done.
  destruct d as [|d]; [lia|]. cbn [relax]. rewrite Hv.
  assert (∀ w, deg_get (deg_set s v d) w = if decide (w = v) then Some d else deg_get s w) as Hset
    by (intros w; apply deg_get_set; eauto).
  destruct (IH (deg_set s v d)) as (s'&r&->&Hnd&Hget&Hr).
  { intros w Hw. rewrite Hset. case_decide as E; [subst; exists d; split; [done|lia]|].
    destruct (Hd w) as (e&He&Hc); [by right|]. exists e. split; [done|].
    rewrite count_cons, decide_False in Hc by done. done. }
  assert (∀ w, w ∈ r ↔ w ∈ vs ∧
            (if decide (w = v) then Some d else deg_get s w) = Some (count w vs)) as Hr'
    by (intros w; by rewrite Hr, Hset).
  eexists s', _. split; [done|]. split_and!.
  - case_decide; [|done]. constructor; [|done]. subst d. rewrite Hr', decide_True by done.
    rewrite <-count_pos. intros [Hp [= Hz]]. lia.
  - intros w e He. rewrite count_cons. destruct (decide (v = w)) as [<-|Hne].
    + rewrite Hv in He. injection He as <-. apply Hget. rewrite Hset. by rewrite decide_True.
    + apply Hget. rewrite Hset. by rewrite decide_False.
  - intros w. rewrite count_cons. destruct (decide (v = w)) as [<-|Hne].
    + assert (v ∈ r ↔ v ∈ vs ∧ d = count v vs) as Hv'
        by (rewrite Hr', decide_True by done; naive_solver).
      rewrite Hv. case_decide; [subst d|].
      * rewrite elem_of_cons. split; [|by left].
        intros _. split; [left|]. f_equal.
        destruct (decide (v ∈ vs)) as [Hin|Hin%count_0]; [|by rewrite Hin].
        apply count_pos in Hin. lia.
      * rewrite Hv', elem_of_cons. split; [intros [? ->]; split; [by left|done]|].
        intros [_ [= ->]]. split; [|done]. apply count_pos. lia.
    + assert (w ∈ (if decide (d = 0) then v :: r else r) ↔ w ∈ r) as ->
        by (case_decide; set_solver).
      rewrite Hr', decide_False by done. set_solver.
Qed.

Lemma relax_subset s vs s' r v : relax s vs = Some (s', r) → v ∈ r → v ∈ vs.
Proof.
  revert s s' r. induction vs as [|w vs IH]; intros s s' r; cbn [relax].
  { intros [= _ <-]. set_solver. }
  destruct (deg_get s w) as [[|d]|]; [done| |done].
  destruct (relax _ vs) as [[s1 r1]|] eqn:Hr; [|done]. intros [= _ <-] Hv.
  rewrite elem_of_cons. case_decide; [apply elem_of_cons in Hv as [?|?]|]; eauto.
Qed.

(** *** The graph *)

Context (nodes : list A) (nodes_nodup : NoDup nodes).
Context (out_nodes : ∀ u v, u ∈ nodes → v ∈ out u → v ∈ nodes).
Context (arrange_perm : ∀ l, arrange l ≡ₚ l).

Definition edge (u v : A) : Prop := u ∈ nodes ∧ v ∈ out u.

(** Edges into [v] from nodes not yet ordered. *)
Definition pending (order : list A) (v : A) : nat :=
  in_from out (filter (λ u, u ∉ order) nodes) v.

Lemma pending_0 order v : pending order v = 0 ↔ ∀ u, edge u v → u ∈ order.
Proof.
  unfold pending. rewrite in_from_0. unfold edge. setoid_rewrite list_elem_of_filter.
  split; [|naive_solver]. intros H u [Hu Hv]. destruct (decide (u ∈ order)); [done|].
  by exfalso; eapply H.
Qed.

Lemma filter_not_ordered order n (us : list A) :
  NoDup us → n ∈ us → n ∉ order →
  filter (λ u, u ∉ order) us ≡ₚ n :: filter (λ u, u ∉ order ++ [n]) us.
Proof.
  intros Hnd Hn Ho. apply list_elem_of_split in Hn as (l1&l2&->).
  apply NoDup_app in Hnd as (_&H1&[H2 _]%NoDup_cons).
  rewrite !filter_app, !filter_cons, decide_True by done.
  rewrite decide_False by set_solver.
  assert (∀ l : list A, n ∉ l → filter (λ u, u ∉ order ++ [n]) l = filter (λ u, u ∉ order) l) as Hf.
  { intros l Hl. induction l as [|x l IH]; [done|]. rewrite !filter_cons, IH by set_solver.
    repeat case_decide; set_solver. }
  rewrite !Hf; [|done|by intros Hn; apply (H1 n Hn); left].
  by rewrite Permutation_middle.
Qed.

Lemma pending_snoc order n v :
  n ∈ nodes → n ∉ order → pending order v = count v (out n) + pending (order ++ [n]) v.
Proof.
  intros Hn Ho. unfold pending at 1.
  by rewrite (in_from_perm _ _ _ _ (filter_not_ordered order n nodes nodes_nodup Hn Ho)).
Qed.

(** Every node comes after its predecessors. *)
Definition topological (order : list A) : Prop :=
  ∀ l1 v l2, order = l1 ++ v :: l2 → ∀ u, edge u v → u ∈ l1.

Record kahn_inv (s : S) (queue order : list A) : Prop := {
  ki_nodup : NoDup (order ++ queue);
  ki_nodes : ∀ v, v ∈ order ++ queue → v ∈ nodes;
  ki_deg : ∀ v, v ∈ nodes → deg_get s v = Some (pending order v);
  ki_zero : ∀ v, v ∈ nodes → v ∈ order ++ queue ↔ pending order v = 0;
  ki_topo : topological order;
}.

Lemma topological_snoc order n :
  topological order → (∀ u, edge u n → u ∈ order) → topological (order ++ [n]).
Proof.
  intros Ht Hn l1 v l2 Heq u Hu.
  destruct l2 as [|y l2 _] using rev_ind.
  - apply app_inj_tail in Heq as [-> ->]. auto.
  - rewrite app_comm_cons, app_assoc in Heq. apply app_inj_tail in Heq as [-> _].
    by eapply Ht.
Qed.

Lemma kahn_step s n queue order :
  kahn_inv s (n :: queue) order →
  ∃ s' r, relax s (out n) = Some (s', r) ∧ kahn_inv s' (queue ++ arrange r) (order ++ [n]).
Proof.
  intros [Hnd Hin Hdeg Hz Ht].
  assert (n ∈ nodes) as Hn by (apply Hin; set_solver).
  assert (n ∉ order) as Hno by (apply NoDup_app in Hnd as (_&Hd&_); intros H; apply (Hd n H); left).
  assert (pending order n = 0) as Hn0 by (apply Hz; set_solver).
  assert (∀ v, pending order v = count v (out n) + pending (order ++ [n]) v) as Hp
    by (intros v; by apply pending_snoc).
  destruct (relax_spec s (out n)) as (s'&r&Hrel&Hrnd&Hget&Hr).
  { intros v Hv. exists (pending order v). split; [apply Hdeg; eauto|]. rewrite Hp. lia. }
  assert (∀ v, v ∈ r ↔ v ∈ out n ∧ pending (order ++ [n]) v = 0) as Hr'.
  { intros v. rewrite Hr. split; intros [Hv H]; (split; [done|]).
    - rewrite Hdeg in H by eauto. injection H as H. rewrite Hp in H. lia.
    - rewrite Hdeg, Hp, H by eauto. f_equal. lia. }
  assert (∀ v, v ∈ r → v ∉ order ++ n :: queue) as Hfresh.
  { intros v [Hv _]%Hr' Hvin. apply Hz in Hvin; [|by eauto].
    apply count_pos in Hv. rewrite Hp in Hvin. lia. }
  exists s', r. split; [done|]. split.
  - rewrite <-app_assoc. simpl. rewrite app_comm_cons, app_assoc. apply NoDup_app.
    split_and!; [done| |by rewrite arrange_perm].
    intros v Hv. rewrite arrange_perm. intros Hvr. by apply (Hfresh v).
  - intros v. rewrite !elem_of_app, arrange_perm, Hr', list_elem_of_singleton.
    intros [[?| ->]|[?|[? _]]]; [apply Hin; set_solver|done|apply Hin; set_solver|by eauto].
  - intros v Hv. rewrite (Hget v (pending order v)) by auto. f_equal. rewrite Hp. lia.
  - intros v Hv. transitivity (v ∈ order ++ n :: queue ∨ v ∈ r).
    { rewrite !elem_of_app, arrange_perm. set_solver. }
    rewrite (Hz v Hv), Hr', Hp. split; [intros [?|[_ ?]]; lia|].
    intros H. rewrite H. destruct (decide (v ∈ out n)); [by right|].
    left. assert (count v (out n) = 0) by by apply count_0. lia.
  - apply topological_snoc; [done|]. by apply pending_0.
Qed.

Lemma kahn_inv_length s queue order :
  kahn_inv s queue order → length order + length queue ≤ length nodes.
Proof.
  intros [Hnd Hin _ _ _]. rewrite <-length_app. by apply submseteq_length, NoDup_submseteq.
Qed.

Lemma kahn_run fuel s queue order :
  kahn_inv s queue order → length nodes ≤ fuel + length order →
  ∃ s' order', kahn fuel s queue order = Some order' ∧ kahn_inv s' [] order'.
Proof.
  revert s queue order. induction fuel as [|fuel IH]; intros s queue order Hi Hf;
    pose proof (kahn_inv_length _ _ _ Hi) as Hl; (destruct queue as [|n queue]; [by exists s, order|]).
  - simpl in Hl. lia.
  - destruct (kahn_step _ _ _ _ Hi) as (s'&r&Hr&Hi'). cbn [kahn]. rewrite Hr.
    apply (IH s'); [done|]. rewrite length_app. simpl. lia.
Qed.

Lemma topological_acc order : topological order → ∀ v, v ∈ order → Acc edge v.
Proof.
  intros Ht v Hv. apply list_elem_of_split in Hv as (l1&l2&Heq). subst order.
  remember (length l1) as k eqn:Hk. revert v l1 l2 Ht Hk.
  induction (lt_wf k) as [k _ IH]. intros v l1 l2 Ht ->. constructor. intros u Hu.
  assert (u ∈ l1) as Hin by by eapply Ht.
  apply list_elem_of_split in Hin as (l3&l4&->).
  eapply (IH (length l3)); [rewrite length_app; simpl; lia| |done].
  instantiate (1 := l4 ++ v :: l2). by rewrite <-app_assoc in Ht.
Qed.

(** What Kahn's algorithm computes, from in-degrees and zero-degree seeds:
    it never fails within [length nodes] steps, and returns, in topological
    order and without repetition, exactly the nodes whose ancestors contain no
    cycle. *)
Lemma kahn_spec fuel s seeds :
  (∀ v, v ∈ nodes → deg_get s v = Some (in_from out nodes v)) →
  NoDup seeds → (∀ v, v ∈ seeds ↔ v ∈ nodes ∧ in_from out nodes v = 0) →
  length nodes ≤ fuel →
  ∃ order, kahn fuel s seeds [] = Some order ∧ NoDup order ∧ topological order ∧
    ∀ v, v ∈ order ↔ v ∈ nodes ∧ Acc edge v.
Proof.
  intros Hdeg Hnd Hseeds Hfuel.
  assert (∀ v, pending [] v = in_from out nodes v) as Hp.
  { intros v. unfold pending. by rewrite filter_not_in_nil. }
  destruct (kahn_run fuel s seeds []) as (s'&order&Hk&[Hnd' Hin _ Hz Ht]).
  { split; simpl; [done|by intros v [? _]%Hseeds|intros v Hv; rewrite Hp; auto| |].
    - intros v Hv. rewrite Hp, Hseeds. tauto.
    - by intros [|??] ???. }
  { simpl. lia. }
  setoid_rewrite app_nil_r in Hz. setoid_rewrite app_nil_r in Hin. rewrite app_nil_r in Hnd'.
  exists order. split_and!; [done..|]. intros v. split.
  - intros Hv. split; [by apply Hin|by eapply topological_acc].
  - intros [Hv Hacc]. induction Hacc as [v _ IH]. apply (Hz v Hv), pending_0.
    intros u Hu. apply IH; [done|]. by destruct Hu.
Qed.

(** On a finite graph, a node none of whose ancestors lies on a cycle is
    accessible. *)
Lemma acyclic_acc : (∀ v, ¬ tc edge v v) ↔ ∀ v, v ∈ nodes → Acc edge v.
Proof.
  split.
  - intros Hirr v _. change (Acc (flip (flip edge)) v). apply tc_finite_sn.
    + intros x Hx. by apply (Hirr x), tc_flip.
    + exists nodes. intros u Hu. apply tc_flip in Hu.
      by destruct Hu as [x y [? _]|x y z [? _] _].
  - intros Hacc v Hv.
    assert (v ∈ nodes) as Hin by (inversion Hv as [? ? [? _]|? ? ? [? _] _]; done).
    specialize (Hacc v Hin). clear Hin. induction Hacc as [v _ IH].
    apply tc_inv_last in Hv as [Hv|(u&Hv&Hu)]; [by eapply IH, tc_once|].
    apply (IH u Hu). by eapply tc_l.
Qed.

(** The same for one node: no cycle leads to it. *)
Lemma acc_no_cycle v : Acc edge v ↔ ¬ ∃ c, tc edge c c ∧ rtc edge c v.
Proof.
  split.
  - intros Hacc (c&Hc&Hr). assert (Acc edge c) as Hac.
    { clear Hc. revert Hacc. induction Hr as [x|x y z Hxy _ IH]; intros Hacc; [exact Hacc|].
      apply IH in Hacc as [Hacc]. by apply Hacc. }
    clear Hr Hacc. induction Hac as [c _ IH].
    apply tc_inv_last in Hc as [Hc|(u&Hc&Hu)]; [by eapply IH, tc_once|].
    apply (IH u Hu). by eapply tc_l.
  - intros Hno. set (R := λ x y, edge x y ∧ rtc edge y v).
    assert (Acc R v) as Hacc.
    { change (Acc (flip (flip R)) v). apply tc_finite_sn.
      - intros x Hx. apply tc_flip in Hx. apply Hno. exists x. split.
        + apply (tc_mono R edge); [|done]. by intros ?? [??].
        + assert (∀ y, tc R x y → rtc edge x v) as H; [|by apply (H x)].
          intros y Hy. by destruct Hy as [x y [He Hr]|x y z [He Hr] _]; apply (rtc_l _ _ _ _ He).
      - exists nodes. intros u Hu. apply tc_flip in Hu.
        by destruct Hu as [x y [[? _] _]|x y z [[? _] _] _]. }
    assert (∀ x, Acc R x → rtc edge x v → Acc edge x) as Hlift; [|by apply Hlift].
    intros x Hx. induction Hx as [x _ IH]. intros Hr. constructor. intros y Hy.
    apply IH; [by split|]. by eapply rtc_l.
Qed.

(** Kahn orders every node exactly when the graph has no cycle. *)
Lemma kahn_complete fuel s seeds order :
  (∀ v, v ∈ nodes → deg_get s v = Some (in_from out nodes v)) →
  NoDup seeds → (∀ v, v ∈ seeds ↔ v ∈ nodes ∧ in_from out nodes v = 0) →
  length nodes ≤ fuel → kahn fuel s seeds [] = Some order →
  length order = length nodes ↔ ∀ v, ¬ tc edge v v.
Proof.
  intros Hdeg Hnd Hseeds Hfuel Hk.
  destruct (kahn_spec fuel s seeds Hdeg Hnd Hseeds Hfuel) as (order'&Hk'&Hndo&_&Hord).
  rewrite Hk in Hk'. injection Hk' as <-. rewrite acyclic_acc.
  assert (order ⊆+ nodes) as Hsub by (apply NoDup_submseteq; [done|]; intros v Hv; by apply Hord).
  split.
  - intros Hlen v Hv. apply Hord. apply submseteq_length_Permutation in Hsub; [|lia].
    by rewrite Hsub.
  - intros Hacc. apply Nat.le_antisymm; [by apply submseteq_length|].
    apply submseteq_length, NoDup_submseteq; [done|]. intros v Hv. apply Hord. auto.
Qed.
End kahn.

(** ** Worklist search

    The closure computed from a frontier: pop a node, insert its unseen
    successors, add them to the frontier.  [push] says where they are added. *)

Section search.
Context {A} `{Countable A} (next : A → list A) (push : list A → list A → list A).

(** The inner loop: [HashSet::insert] on each successor in turn. *)
Fixpoint discover (seen : gset A) (vs : list A) : gset A * list A :=
  match vs with
  | [] => (seen, [])
  | v :: vs =>
      if decide (v ∈ seen) then discover seen vs
      else let r := discover ({[v]} ∪ seen) vs in (r.1, v :: r.2)
  end.
Fixpoint search (fuel : nat) (seen : gset A) (frontier : list A) : option (gset A) :=
  match frontier with
  | [] => Some seen
  | v :: rest =>
      match fuel with
      | 0 => None
      | S fuel => let r := discover seen (next v) in search fuel r.1 (push r.2 rest)
      end
  end.

Lemma discover_spec seen vs :
  let r := discover seen vs in
  r.1 = seen ∪ list_to_set vs ∧ r.1 = seen ∪ list_to_set r.2 ∧ NoDup r.2 ∧
  (∀ v, v ∈ r.2 → v ∈ vs ∧ v ∉ seen).
Proof.
  revert seen. induction vs as [|v vs IH]; intros seen; simpl.
  { split_and!; [set_solver|set_solver|constructor|set_solver]. }
  destruct (decide (v ∈ seen)) as [Hv|Hv].
  - destruct (IH seen) as (H1&H2&H3&H4). split_and!; [set_solver|done|done|set_solver].
  - destruct (IH ({[v]} ∪ seen)) as (H1&H2&H3&H4); simpl.
    split_and!; [set_solver|set_solver|constructor; [set_solver|done]|set_solver].
Qed.

Definition leads_to (u v : A) : Prop := v ∈ next u.

Lemma search_run (U : gset A) fuel seen frontier :
  (∀ fresh rest, push fresh rest ≡ₚ fresh ++ rest) →
  (∀ u v, leads_to u v → v ∈ U) →
  (∀ v, v ∈ seen → v ∈ frontier ∨ ∀ w, leads_to v w → w ∈ seen) →
  size (U ∖ seen) + length frontier ≤ fuel →
  ∃ r, search fuel seen frontier = Some r ∧ seen ⊆ r ∧
    (∀ s w, s ∈ frontier → leads_to s w → w ∈ r) ∧
    (∀ v w, v ∈ r → leads_to v w → w ∈ r) ∧
    (∀ x, x ∈ r → x ∈ seen ∨ ∃ s, s ∈ frontier ∧ tc leads_to s x).
Proof.
  intros Hpush HU. revert seen frontier.
  induction fuel as [|fuel IH]; intros seen [|v rest] Hinv Hfuel; try (simpl in Hfuel; lia).
  1-2: exists seen; split_and!; [done|done|set_solver| |by left];
    intros v w Hv Hw; destruct (Hinv v Hv) as [?|Hc]; [set_solver|auto].
  cbn [search]. destruct (discover_spec seen (next v)) as (H1&H2&H3&H4).
  destruct (discover seen (next v)) as [seen' fresh]. simpl in *.
  destruct (IH seen' (push fresh rest)) as (r&Hr&Hsub&Hfr&Hcl&Hsnd).
  - intros u Hu. rewrite Hpush, elem_of_app. rewrite H2 in Hu. apply elem_of_union in Hu as [Hu|Hu].
    + destruct (Hinv u Hu) as [[->|?]%elem_of_cons|Hc]; [|by auto|].
      * right. intros w Hw. rewrite H1. set_unfold. unfold leads_to in Hw. auto.
      * right. intros w Hw. rewrite H1. set_unfold. auto.
    + set_solver.
  - rewrite (Hpush fresh rest), length_app.
    assert (size (list_to_set fresh : gset A) = length fresh) as Hsz by by apply size_list_to_set.
    assert (U ∖ seen = (U ∖ seen') ∪ list_to_set fresh) as Heq.
    { rewrite H2. apply set_eq. intros x. set_unfold. destruct (decide (x ∈ fresh)) as [Hx|]; [|naive_solver].
      pose proof (H4 x Hx) as [Hn ?]. pose proof (HU v x Hn). naive_solver. }
    rewrite Heq, size_union in Hfuel by (rewrite H2; set_solver). lia.
  - exists r. split_and!; [done|set_solver| |done|].
    + intros s w [->|Hs]%elem_of_cons Hw.
      * apply Hsub. rewrite H1. unfold leads_to in Hw. set_solver.
      * apply (Hfr s); [|done]. rewrite Hpush. set_solver.
    + intros x Hx. destruct (Hsnd x Hx) as [Hx'|(s&Hs&Ht)].
      * rewrite H1 in Hx'. apply elem_of_union in Hx' as [?|?]; [by left|right].
        exists v. split; [left|]. apply tc_once. unfold leads_to. set_solver.
      * right. rewrite Hpush in Hs. apply elem_of_app in Hs as [Hs|Hs]; [|exists s; set_solver].
        exists v. split; [left|]. eapply tc_l; [|done]. apply H4 in Hs as [??]. done.
Qed.

(** The result is exactly what the frontier leads to, with what was seen. *)
Lemma search_spec (U : gset A) fuel seen frontier :
  (∀ fresh rest, push fresh rest ≡ₚ fresh ++ rest) →
  (∀ u v, leads_to u v → v ∈ U) →
  (∀ v, v ∈ seen → v ∈ frontier) →
  size (U ∖ seen) + length frontier ≤ fuel →
  ∃ r, search fuel seen frontier = Some r ∧
    ∀ x, x ∈ r ↔ x ∈ seen ∨ ∃ s, s ∈ frontier ∧ tc leads_to s x.
Proof.
  intros Hpush HU Hinv Hfuel.
  destruct (search_run U fuel seen frontier Hpush HU) as (r&Hr&Hsub&Hfr&Hcl&Hsnd); [auto|done|].
  exists r. split; [done|]. intros x. split; [apply Hsnd|]. intros [Hx|(s&Hs&Ht)]; [by apply Hsub|].
  assert (∀ w, leads_to s w → w ∈ r) as Hstart by (intros w; by apply Hfr).
  clear Hs. induction Ht as [s x Hx|s u x Hu _ IH]; [auto|].
  apply IH. intros w. apply Hcl. auto.
Qed.
End search.
