(* ===== verification/BrowserTypes.v ===== *)
(** Shared vocabulary of the browser platform
    (crates/backend/nomifun-browser-platform): error values (error.rs),
    identifiers, caller identities and lane names (model.rs), and the
    injectable clock (clock.rs). *)
From S2P Require Import Prelude.

(** ** error.rs *)

Inductive BrowserErrorCode :=
| BrowserCapacityQueued | SystemMemoryPressure | LaneClosedByUser | OwnerLeaseExpired
| StaleBrowserEpoch | StaleLaneRef | TargetCrashed | BrowserRestarted
| IdentityReplicaStale | NeedsPrimaryIdentity | LaneNotFound | OperationNotAllowed
| BrowserUnavailable | BrowserShuttingDown | InvalidCallerIdentity | InvalidLaneName.
#[export] Instance BrowserErrorCode_eq_dec : EqDecision BrowserErrorCode.
Proof. solve_decision. Defined.

(** The JSON documents attached to errors; only construction is used. *)
Inductive json :=
| JNull
| JBool (b : bool)
| JNum (n : N)
| JStr (s : string)
| JObj (fields : list (string * json)).

Record BrowserPlatformError := {
  code : BrowserErrorCode;
  message : string;
  retryable : bool;
  next_action : string;
  err_lane_id : option string;
  metadata : json;
}.

Definition new_error (c : BrowserErrorCode) (m : string) (r : bool) (a : string) :
    BrowserPlatformError :=
  {| code := c; message := m; retryable := r; next_action := a;
     err_lane_id := None; metadata := JNull |}.
Definition for_lane (e : BrowserPlatformError) (lane : string) : BrowserPlatformError :=
  {| code := code e; message := message e; retryable := retryable e;
     next_action := next_action e; err_lane_id := Some lane; metadata := metadata e |}.
Definition with_metadata (e : BrowserPlatformError) (m : json) : BrowserPlatformError :=
  {| code := code e; message := message e; retryable := retryable e;
     next_action := next_action e; err_lane_id := err_lane_id e; metadata := m |}.
Definition lane_not_found (lane : string) : BrowserPlatformError :=
  for_lane (new_error LaneNotFound "The browser lane no longer exists." false
    "Refresh the browser inventory or open a new lane.") lane.
Definition shutting_down : BrowserPlatformError :=
  new_error BrowserShuttingDown "The browser platform is shutting down." true
    "Retry after the application is ready.".

(** ** model.rs: identifiers *)

(** [string_id!]'s [parse]: [name] is the identifier type's name.  The
    identifiers themselves are transparent strings. *)
Definition id_parse (name value : string) : result string BrowserPlatformError :=
  if is_blank value || bool_decide (128 < String.length value) then
    Err (new_error InvalidCallerIdentity (name +:+ " is invalid.") false
           "Request a fresh browser capability.")
  else Ok value.

Inductive BrowserSurface := Native | Gateway | Acp | Remote | Cluster | User | System.
#[export] Instance BrowserSurface_eq_dec : EqDecision BrowserSurface.
Proof. solve_decision. Defined.

Inductive BrowserOperationKind :=
| Navigate | Observe | Act | Screenshot | Tabs | Download | Debug_ | Manage | Crawl.
#[export] Instance BrowserOperationKind_eq_dec : EqDecision BrowserOperationKind.
Proof. solve_decision. Defined.

Definition op_index (o : BrowserOperationKind) : nat :=
  match o with
  | Navigate => 0 | Observe => 1 | Act => 2 | Screenshot => 3 | Tabs => 4
  | Download => 5 | Debug_ => 6 | Manage => 7 | Crawl => 8
  end.
Definition op_of_index (n : nat) : option BrowserOperationKind :=
  match n with
  | 0 => Some Navigate | 1 => Some Observe | 2 => Some Act | 3 => Some Screenshot
  | 4 => Some Tabs | 5 => Some Download | 6 => Some Debug_ | 7 => Some Manage
  | 8 => Some Crawl | _ => None
  end.
#[export] Instance BrowserOperationKind_countable : Countable BrowserOperationKind.
Proof. refine (inj_countable op_index op_of_index _). by intros []. Defined.

(** ** model.rs: caller identity *)

Record CallerIdentity := {
  user_id : string;
  conversation_id : option string;
  runtime_instance_id : string;
  agent_id : option string;
  companion_id : option string;
  execution_id : option string;
  step_id : option string;
  attempt_id : option string;
  remote_connection_id : option string;
  surface : BrowserSurface;
  owner_lease_id : string;
  capability_expires_at_ms : N;
  allowed_operations : gset BrowserOperationKind;
}.

Definition validate_caller (c : CallerIdentity) (now_ms : N) :
    result unit BrowserPlatformError :=
  if is_blank (user_id c) || is_blank (runtime_instance_id c)
     || is_blank (owner_lease_id c) then
    Err (new_error InvalidCallerIdentity "The browser caller identity is incomplete." false
           "Request a fresh browser capability from the application.")
  else if (capability_expires_at_ms c <=? now_ms)%N then
    Err (new_error OwnerLeaseExpired "The browser capability has expired." false
           "Request a fresh browser capability.")
  else Ok ().

Definition allows (c : CallerIdentity) (o : BrowserOperationKind) : bool :=
  bool_decide (o ∈ allowed_operations c).

(** ** model.rs: lane names *)

Record LaneKey := { lk_runtime_instance_id : string; lk_lane_name : string }.

Definition lane_name_char (c : Ascii.ascii) : bool :=
  is_ascii_alphanumeric c || (byte c =? 45)%N || (byte c =? 95)%N.

Definition normalize_lane_name (value : string) : result string BrowserPlatformError :=
  let value := to_ascii_lowercase (trim value) in
  if bool_decide (value = "") || bool_decide (32 < String.length value)
     || negb (string_forallb lane_name_char value) then
    Err (new_error InvalidLaneName "Lane names must be 1-32 letters, numbers, '-' or '_'."
           false "Choose a short lane name such as 'default' or 'research-2'.")
  else Ok value.

Definition lane_key_new (runtime : string) (lane_name : option string) :
    result LaneKey BrowserPlatformError :=
  if is_blank runtime then
    Err (new_error InvalidCallerIdentity "The runtime instance is missing." false
           "Request a fresh browser capability.")
  else
    let? name := normalize_lane_name (default "default" lane_name) in
    Ok {| lk_runtime_instance_id := runtime; lk_lane_name := name |}.

Inductive ResourcePressureState := PressureNormal | Pressured | Critical.
#[export] Instance ResourcePressureState_eq_dec : EqDecision ResourcePressureState.
Proof. solve_decision. Defined.

Record QueueMetadata := {
  qm_request_id : string;
  position : nat;
  recommended_concurrency : nat;
  owner_active : nat;
  owner_queued : nat;
  global_active : nat;
  global_queued : nat;
  retry_delay_ms : N;
  qm_reason_code : string;
}.

(** ** clock.rs *)

Definition next_monotonic_time (previous_ms elapsed_ms wall_ms : N) : N :=
  let paced := u64_sat_add previous_ms elapsed_ms in
  if (paced <=? wall_ms)%N then wall_ms else
  let catch_up := N.max (elapsed_ms / 2) (if (0 <? elapsed_ms)%N then 1 else 0) in
  N.max (u64_sat_add previous_ms catch_up) wall_ms.

(** The process-wide state behind [SystemClock]; instants are nanoseconds on
    the monotonic clock. *)
Record SystemClockState := { now_ms_ : N; sampled_at : N }.

Definition millis_between (earlier later : N) : N :=
  N.min ((later - earlier) / 1000000) u64_max.

Definition system_clock_now_ms (st : SystemClockState) (wall_ms instant : N) :
    SystemClockState * N :=
  let elapsed_ms := millis_between (sampled_at st) instant in
  let now := next_monotonic_time (now_ms_ st) elapsed_ms wall_ms in
  ({| now_ms_ := now; sampled_at := instant |}, now).

(** ** The process clock *)

(** One clock reading never goes backwards, never lags the wall clock,
    advances by at most the elapsed time unless the wall clock itself is ahead,
    and makes progress whenever time has passed and the counter is not
    saturated. *)
Theorem clock_step_bounds previous elapsed wall :
  is_u64 previous → is_u64 wall →
  (previous <= next_monotonic_time previous elapsed wall)%N ∧
  (wall <= next_monotonic_time previous elapsed wall)%N ∧
  (next_monotonic_time previous elapsed wall <= N.max (previous + elapsed) wall)%N ∧
  is_u64 (next_monotonic_time previous elapsed wall) ∧
  ((0 < elapsed)%N → (previous < u64_max)%N →
   (previous < next_monotonic_time previous elapsed wall)%N).
Proof.
  unfold is_u64. intros Hp Hw. unfold next_monotonic_time, u64_sat_add.
  assert (elapsed / 2 <= elapsed)%N by (apply N.Div0.div_le_upper_bound; lia).
  destruct (N.leb_spec (N.min (previous + elapsed) u64_max) wall);
    destruct (N.ltb_spec 0 elapsed); split_and!; lia.
Qed.

Lemma clock_step_bounds_witness :
  is_u64 10000 ∧ is_u64 9000 ∧ (10000 < next_monotonic_time 10000 25 9000)%N.
Proof.
  assert (is_u64 10000) as H1 by (unfold is_u64, u64_max; lia).
  assert (is_u64 9000) as H2 by (unfold is_u64, u64_max; lia).
  split; [exact H1|]. split; [exact H2|].
  destruct (clock_step_bounds 10000 25 9000 H1 H2) as (_&_&_&_&H).
  apply H; [lia|unfold u64_max; lia].
Defined.

(** Samples taken after delays [es], while the wall clock runs at the same
    rate: the final clock and wall readings. *)
Fixpoint clock_run (now wall : N) (es : list N) : N * N :=
  match es with
  | [] => (now, wall)
  | e :: es => clock_run (next_monotonic_time now e (wall + e)) (wall + e) es
  end.
Definition total (es : list N) : N := foldr N.add 0%N es.

Lemma clock_run_wall now wall es : (clock_run now wall es).2 = (wall + total es)%N.
Proof.
  revert now wall. induction es as [|e es IH]; intros now wall; simpl; [lia|].
  rewrite IH. unfold total. simpl. lia.
Qed.

(** The lead over the wall clock after one sample. *)
Lemma lead_step now wall e :
  is_u64 (now + e) → (wall <= now)%N →
  next_monotonic_time now e (wall + e)
  = N.max (wall + e) (now + (if (e =? 1)%N then 1 else e / 2)).
Proof.
  intros Hu Hw. unfold next_monotonic_time.
  assert (e / 2 <= e)%N by (apply N.Div0.div_le_upper_bound; lia).
  unfold is_u64 in Hu.
  rewrite !u64_sat_add_exact by (unfold is_u64; destruct (N.ltb_spec 0 e); lia).
  destruct (N.eqb_spec e 1) as [->|He].
  - destruct (N.leb_spec (now + 1) (wall + 1)); simpl; lia.
  - destruct (N.ltb_spec 0 e) as [Hpos|Hz].
    + assert (1 <= e / 2)%N by (apply N.div_le_lower_bound; lia).
      destruct (N.leb_spec (now + e) (wall + e)); lia.
    + assert (e = 0%N) as -> by lia. change (0 / 2)%N with 0%N. destruct (N.leb_spec (now + 0) (wall + 0)); lia.
Qed.

Lemma clock_run_synced now es :
  is_u64 (now + total es) → (clock_run now now es).1 = (now + total es)%N.
Proof.
  revert now. induction es as [|e es IH]; intros now Hu; simpl; [unfold total; simpl; lia|].
  unfold total, is_u64 in *. simpl in Hu.
  rewrite lead_step by (unfold is_u64; lia).
  assert (e / 2 <= e)%N by (apply N.Div0.div_le_upper_bound; lia).
  rewrite N.max_l by (destruct (N.eqb_spec e 1); lia).
  rewrite IH by (unfold is_u64; lia). simpl. lia.
Qed.

(** After the wall clock steps back, sampling at most every second
    millisecond re-converges: each sample shrinks the lead, so after as many
    samples as the lead has milliseconds the clock shows wall time again. *)
Theorem clock_reconverges now wall es :
  (wall <= now)%N → is_u64 (now + total es) →
  Forall (λ e, (2 <= e)%N) es → (now - wall <= N.of_nat (length es))%N →
  (clock_run now wall es).1 = (clock_run now wall es).2.
Proof.
  rewrite clock_run_wall. revert now wall. induction es as [|e es IH]; intros now wall Hw Hu Hes Hl.
  { simpl in *. unfold total. simpl. lia. }
  apply Forall_cons in Hes as [He Hes]. unfold total, is_u64 in *. simpl in Hu, Hl |- *.
  rewrite lead_step by (unfold is_u64; lia).
  assert (e / 2 < e)%N by (apply N.div_lt; lia).
  rewrite (proj2 (N.eqb_neq e 1)) by lia.
  destruct (N.max_spec (wall + e) (now + e / 2)) as [[Hlt ->]|[Hge ->]].
  - rewrite IH; [lia|lia|lia|done|lia].
  - rewrite clock_run_synced by (unfold is_u64, total; lia). unfold total. lia.
Qed.

Lemma clock_reconverges_witness :
  (clock_run 10 7 [2; 5; 3]%N).1 = (clock_run 10 7 [2; 5; 3]%N).2.
Proof.
  apply (clock_reconverges 10 7 [2; 5; 3]%N);
    [lia|unfold is_u64, total, u64_max; simpl; lia| |simpl; lia].
  repeat constructor; lia.
Defined.

(** Sampled every millisecond, the clock advances at full rate while it
    is ahead, so a lead over the wall clock never shrinks; the half-rate
    catch-up of the comment in [next_monotonic_time] does not happen. *)
Theorem clock_millisecond_sampling_keeps_lead now wall n :
  (wall <= now)%N → is_u64 (now + N.of_nat n) →
  clock_run now wall (replicate n 1%N) = ((now + N.of_nat n)%N, (wall + N.of_nat n)%N).
Proof.
  unfold is_u64. revert now wall. induction n as [|n IH]; intros now wall Hw Hu.
  { simpl. f_equal; lia. }
  cbn [replicate clock_run]. rewrite lead_step by (unfold is_u64; lia). simpl (1 =? 1)%N. cbv iota.
  rewrite N.max_r by lia. rewrite IH by lia. f_equal; lia.
Qed.

Lemma clock_millisecond_sampling_keeps_lead_witness :
  clock_run 10000 9000 (replicate 1000 1%N) = (11000%N, 10000%N).
Proof.
  apply (clock_millisecond_sampling_keeps_lead 10000 9000 1000); unfold is_u64, u64_max; lia.
Defined.
