(* ===== verification/LaneScheduler.v ===== *)
(** The browser lane scheduler
    (crates/backend/nomifun-browser-platform/src/scheduler.rs): open-lane
    permits, the visible queue, the 4:1 weighted deficit round-robin between
    first and expansion lanes, per-owner round-robin inside each class, aging,
    and the queue metadata.  Every method takes the mutex for its whole body,
    so a method is one atomic function on [SchedulerState]; the clock reading
    is an argument [now_ms]. *)
From S2P Require Import Prelude BrowserTypes.

Definition DEFAULT_REASON_CODE : string := "browser_capacity_queued".
Definition FIRST_LANE_WEIGHT : nat := 4.
Definition EXPANSION_LANE_WEIGHT : nat := 1.
Definition PRIORITY_CYCLE_LEN : nat := FIRST_LANE_WEIGHT + EXPANSION_LANE_WEIGHT.

Inductive LanePriority := First | Expansion.
#[export] Instance LanePriority_eq_dec : EqDecision LanePriority.
Proof. solve_decision. Defined.

Definition weight (p : LanePriority) : nat :=
  match p with First => FIRST_LANE_WEIGHT | Expansion => EXPANSION_LANE_WEIGHT end.

Definition normalize_reason_code (reason_code : string) : string :=
  let reason_code := trim reason_code in
  if bool_decide (reason_code = "") then DEFAULT_REASON_CODE else reason_code.

(** ** Requests and policies *)

Record QueueRequest := mkRequest {
  request_id : string;
  lane_id : string;
  owner_id : string;
  first_lane : bool;
  enqueued_at_ms : N;
  reason_code : string;
}.
#[export] Instance QueueRequest_eq_dec : EqDecision QueueRequest.
Proof. solve_decision. Defined.

(** [QueueRequest::new]; the fresh UUID is the argument [fresh]. *)
Definition request_new (fresh lane owner : string) (first : bool) (at_ms : N) : QueueRequest :=
  mkRequest fresh lane owner first at_ms DEFAULT_REASON_CODE.
Definition pending (fresh lane owner : string) (first : bool) : QueueRequest :=
  request_new fresh lane owner first 0.
Definition set_reason (r : QueueRequest) (c : string) : QueueRequest :=
  mkRequest (request_id r) (lane_id r) (owner_id r) (first_lane r) (enqueued_at_ms r) c.
Definition with_reason_code (r : QueueRequest) (c : string) : QueueRequest :=
  set_reason r (normalize_reason_code c).
Definition set_enqueued (r : QueueRequest) (t : N) : QueueRequest :=
  mkRequest (request_id r) (lane_id r) (owner_id r) (first_lane r) t (reason_code r).
Definition priority (r : QueueRequest) : LanePriority :=
  if first_lane r then First else Expansion.

Inductive Admission := Ready | Queued (r : QueueRequest).
Definition is_ready (a : Admission) : bool :=
  match a with Ready => true | Queued _ => false end.

Record PromotionPolicy := mkPolicy {
  admit_first_lane : bool;
  admit_expansion_lane : bool;
  first_lane_denied_reason : string;
  expansion_lane_denied_reason : string;
}.
Definition allow_all : PromotionPolicy :=
  mkPolicy true true DEFAULT_REASON_CODE DEFAULT_REASON_CODE.
Definition policy_new (f e : bool) (fr er : string) : PromotionPolicy :=
  mkPolicy f e (normalize_reason_code fr) (normalize_reason_code er).
Definition admits (pol : PromotionPolicy) (r : QueueRequest) : bool :=
  if first_lane r then admit_first_lane pol else admit_expansion_lane pol.
Definition denied_reason (pol : PromotionPolicy) (r : QueueRequest) : string :=
  if first_lane r then first_lane_denied_reason pol else expansion_lane_denied_reason pol.

Record SchedulerConfig := mkConfig {
  max_open_lanes : nat;
  max_global_queue : nat;
  max_owner_queue : nat;
  cfg_recommended_concurrency : nat;
  cfg_retry_delay_ms : N;
  aging_interval_ms : N;
}.
Definition default_config : SchedulerConfig := mkConfig 128 256 32 4 1000 30000.

(** ** State *)

Record SchedulerState := mkState {
  config : SchedulerConfig;
  active : gmap string QueueRequest;
  queued : list QueueRequest;
  promotion_policy : PromotionPolicy;
  owner_ring : list string;
  priority_slot : nat;
  last_first_owner : option string;
  last_expansion_owner : option string;
}.

Definition set_config (s : SchedulerState) c :=
  mkState c (active s) (queued s) (promotion_policy s) (owner_ring s) (priority_slot s)
    (last_first_owner s) (last_expansion_owner s).
Definition set_active (s : SchedulerState) a :=
  mkState (config s) a (queued s) (promotion_policy s) (owner_ring s) (priority_slot s)
    (last_first_owner s) (last_expansion_owner s).
Definition set_queued (s : SchedulerState) q :=
  mkState (config s) (active s) q (promotion_policy s) (owner_ring s) (priority_slot s)
    (last_first_owner s) (last_expansion_owner s).
Definition set_policy (s : SchedulerState) p :=
  mkState (config s) (active s) (queued s) p (owner_ring s) (priority_slot s)
    (last_first_owner s) (last_expansion_owner s).
Definition set_ring (s : SchedulerState) r f e :=
  mkState (config s) (active s) (queued s) (promotion_policy s) r (priority_slot s) f e.
Definition set_slot (s : SchedulerState) n :=
  mkState (config s) (active s) (queued s) (promotion_policy s) (owner_ring s) n
    (last_first_owner s) (last_expansion_owner s).
Definition set_last_owner (s : SchedulerState) (p : LanePriority) (o : string) :=
  match p with
  | First => set_ring s (owner_ring s) (Some o) (last_expansion_owner s)
  | Expansion => set_ring s (owner_ring s) (last_first_owner s) (Some o)
  end.

Definition scheduler_new (c : SchedulerConfig) : SchedulerState :=
  let c := mkConfig (max_open_lanes c) (max_global_queue c) (max_owner_queue c)
             (cfg_recommended_concurrency c) (cfg_retry_delay_ms c)
             (N.max (aging_interval_ms c) 1) in
  mkState c ∅ [] allow_all [] 0 None None.

Definition active_count (s : SchedulerState) : nat := size (active s).
Definition queued_count (s : SchedulerState) : nat := length (queued s).

Definition owner_active_count (s : SchedulerState) (owner : string) : nat :=
  length (filter (λ r, owner_id r = owner) (map_to_list (active s)).*2).
Definition owner_queued_count (s : SchedulerState) (owner : string) : nat :=
  length (filter (λ r, owner_id r = owner) (queued s)).

(** ** Owner ring *)

Definition push_queued (s : SchedulerState) (r : QueueRequest) : SchedulerState :=
  let s := if bool_decide (owner_id r ∈ owner_ring s) then s
           else set_ring s (owner_ring s ++ [owner_id r])
                  (last_first_owner s) (last_expansion_owner s) in
  set_queued s (queued s ++ [r]).

(** First position of an element ([Iterator::position]). *)
Definition position_of (o : string) (l : list string) : option nat :=
  fst <$> list_find (λ x, x = o) l.

(** The loop of [repair_owner_cursor] over the steps [step, step+1, ...]. *)
Fixpoint nearest_predecessor (prev cur : list string) (pos step fuel : nat) : option string :=
  match fuel with
  | 0 => None
  | S fuel =>
      match prev !! ((pos + length prev - step) mod length prev) with
      | Some o => if bool_decide (o ∈ cur) then Some o
                  else nearest_predecessor prev cur pos (S step) fuel
      | None => None
      end
  end.

Definition repair_owner_cursor (prev cur : list string) (cursor : option string) :
    option string :=
  match cursor with
  | None => None
  | Some last_owner =>
      if bool_decide (last_owner ∈ cur) then Some last_owner else
      match position_of last_owner prev with
      | None => None
      | Some pos => nearest_predecessor prev cur pos 1 (length prev)
      end
  end.

Definition prune_owner_ring (s : SchedulerState) : SchedulerState :=
  let prev := owner_ring s in
  let cur := filter (λ o, Exists (λ r, owner_id r = o) (queued s)) prev in
  set_ring s cur (repair_owner_cursor prev cur (last_first_owner s))
    (repair_owner_cursor prev cur (last_expansion_owner s)).

(** ** Selection *)

Definition effective_priority (r : QueueRequest) (now_ms aging : N) : LanePriority :=
  if first_lane r then First else
  let age_steps := ((now_ms - enqueued_at_ms r) / N.max aging 1)%N in
  if (N.of_nat (FIRST_LANE_WEIGHT - EXPANSION_LANE_WEIGHT) <=? age_steps)%N
  then First else Expansion.

Definition priority_for_slot (slot : nat) : LanePriority :=
  if bool_decide (slot mod PRIORITY_CYCLE_LEN < FIRST_LANE_WEIGHT) then First else Expansion.

(** The closure passed to [position] in [select_owner_fair_index]. *)
Definition selectable (s : SchedulerState) (p : LanePriority) (now_ms : N)
    (pol : PromotionPolicy) (owner : string) (r : QueueRequest) : bool :=
  let effective := effective_priority r now_ms (aging_interval_ms (config s)) in
  let aged_expansion_fallback :=
    bool_decide (p = Expansion) && negb (first_lane r) && bool_decide (effective = First)
    && negb (admit_first_lane pol) && admit_expansion_lane pol in
  bool_decide (owner_id r = owner) && admits pol r
  && (bool_decide (effective = p) || aged_expansion_fallback).

Definition last_owner (s : SchedulerState) (p : LanePriority) : option string :=
  match p with First => last_first_owner s | Expansion => last_expansion_owner s end.

Definition ring_start (s : SchedulerState) (p : LanePriority) : nat :=
  match last_owner s p ≫= λ o, position_of o (owner_ring s) with
  | Some position => position + 1
  | None => 0
  end.

(** The loop over [offset] in [select_owner_fair_index]. *)
Fixpoint scan_owners (s : SchedulerState) (p : LanePriority) (now_ms : N)
    (pol : PromotionPolicy) (start offset fuel : nat) : option (nat * string) :=
  match fuel with
  | 0 => None
  | S fuel =>
      match owner_ring s !! ((start + offset) mod length (owner_ring s)) with
      | Some owner =>
          match list_find (λ r, selectable s p now_ms pol owner r) (queued s) with
          | Some (index, _) => Some (index, owner)
          | None => scan_owners s p now_ms pol start (S offset) fuel
          end
      | None => None
      end
  end.

Definition select_owner_fair_index (s : SchedulerState) (p : LanePriority) (now_ms : N)
    (pol : PromotionPolicy) : option (nat * SchedulerState) :=
  match scan_owners s p now_ms pol (ring_start s p) 0 (length (owner_ring s)) with
  | Some (index, owner) => Some (index, set_last_owner s p owner)
  | None => None
  end.

(** The loop over [offset] in [select_next_index_with_policy]. *)
Fixpoint scan_slots (s : SchedulerState) (now_ms : N) (pol : PromotionPolicy)
    (offset fuel : nat) : option (nat * SchedulerState) :=
  match fuel with
  | 0 => None
  | S fuel =>
      let slot := (priority_slot s + offset) mod PRIORITY_CYCLE_LEN in
      match select_owner_fair_index s (priority_for_slot slot) now_ms pol with
      | Some (index, s') => Some (index, set_slot s' ((slot + 1) mod PRIORITY_CYCLE_LEN))
      | None => scan_slots s now_ms pol (S offset) fuel
      end
  end.

Definition select_next_index_with_policy (s : SchedulerState) (now_ms : N)
    (pol : PromotionPolicy) : option (nat * SchedulerState) :=
  match queued s with
  | [] => None
  | _ => scan_slots s now_ms pol 0 PRIORITY_CYCLE_LEN
  end.

(** ** Promotion *)

Definition refresh_reason (pol : PromotionPolicy) (r : QueueRequest) : QueueRequest :=
  set_reason r (if admits pol r then DEFAULT_REASON_CODE else denied_reason pol r).

(** [promote_one_locked]; [None] in the first component is the early
    return, and [Vec::remove] out of range (a panic) is the outer [None]. *)
Definition promote_one_locked (s : SchedulerState) (now_ms : N) (pol : PromotionPolicy) :
    option (SchedulerState * option QueueRequest) :=
  let s := set_queued s (refresh_reason pol <$> queued s) in
  if bool_decide (max_open_lanes (config s) ≤ size (active s)) then Some (s, None) else
  match select_next_index_with_policy s now_ms pol with
  | None => Some (s, None)
  | Some (index, s) =>
      match queued s !! index with
      | None => None
      | Some request =>
          let s := set_queued s (delete index (queued s)) in
          let s := set_active s (<[lane_id request := request]> (active s)) in
          Some (prune_owner_ring s, Some request)
      end
  end.

Definition promote_one_with_policy (s : SchedulerState) (now_ms : N) (pol : PromotionPolicy) :
    option (SchedulerState * option QueueRequest) :=
  promote_one_locked (set_policy s pol) now_ms pol.

(** ** Admission *)

Definition validate_request (r : QueueRequest) : result unit BrowserPlatformError :=
  if is_blank (owner_id r) then
    Err (new_error InvalidCallerIdentity "The browser queue owner is missing." false
           "Request a fresh browser capability.")
  else Ok ().

Definition ensure_same_owner (existing incoming : QueueRequest) :
    result unit BrowserPlatformError :=
  if bool_decide (owner_id existing ≠ owner_id incoming) then
    Err (for_lane (new_error OperationNotAllowed
      "The browser lane is owned by another runtime." false
      "Use the lane handle issued to this runtime.") (lane_id incoming))
  else Ok ().

Definition ensure_queue_capacity (s : SchedulerState) (r : QueueRequest) :
    result unit BrowserPlatformError :=
  let owner_active := owner_active_count s (owner_id r) in
  let owner_queued := owner_queued_count s (owner_id r) in
  let limit_reason :=
    if bool_decide (max_global_queue (config s) ≤ length (queued s))
    then Some "global_queue_limit"
    else if bool_decide (max_owner_queue (config s) ≤ owner_queued)
    then Some "owner_queue_limit" else None in
  match limit_reason with
  | Some limit_reason =>
      Err (with_metadata (for_lane (new_error BrowserCapacityQueued
        "The browser queue has reached its safety limit." true
        "Reuse an existing lane, reduce concurrency, or retry after capacity is released.")
        (lane_id r))
        (JObj [("reason_code", JStr limit_reason);
               ("recommended_concurrency", JNum (N.of_nat (cfg_recommended_concurrency (config s))));
               ("owner_active", JNum (N.of_nat owner_active));
               ("owner_queued", JNum (N.of_nat owner_queued));
               ("global_active", JNum (N.of_nat (size (active s))));
               ("global_queued", JNum (N.of_nat (length (queued s))));
               ("retry_delay_ms", JNum (cfg_retry_delay_ms (config s)))]))
  | None => Ok ()
  end.

Definition admit_request_with_policy (s : SchedulerState) (now_ms : N) (request : QueueRequest)
    (allow_immediate : bool) (reason : string) :
    SchedulerState * result Admission BrowserPlatformError :=
  let reason := normalize_reason_code reason in
  match validate_request request with Err e => (s, Err e) | Ok _ =>
  match active s !! lane_id request with
  | Some existing =>
      (s, let? _ := ensure_same_owner existing request in Ok Ready)
  | None =>
  match list_find (λ r, lane_id r = lane_id request) (queued s) with
  | Some (_, existing) =>
      (s, let? _ := ensure_same_owner existing request in Ok (Queued existing))
  | None =>
  if bool_decide (Exists (λ r, request_id r = request_id request)
                    ((map_to_list (active s)).*2 ++ queued s)) then
    (s, Err (new_error InvalidCallerIdentity
      "The browser queue request identifier is already in use." false
      "Request a fresh browser lane capability."))
  else
  let request := set_reason (set_enqueued request now_ms) reason in
  if allow_immediate && bool_decide (queued s = [])
     && bool_decide (size (active s) < max_open_lanes (config s)) then
    (set_active s (<[lane_id request := request]> (active s)), Ok Ready)
  else
  match ensure_queue_capacity s request with
  | Err e => (s, Err e)
  | Ok _ => (push_queued s request, Ok (Queued request))
  end end end end.

Definition admit_lane (s : SchedulerState) (now_ms : N) (fresh owner lane : string)
    (p : LanePriority) (allow_immediate : bool) (reason : string) :
    SchedulerState * result Admission BrowserPlatformError :=
  admit_request_with_policy s now_ms
    (pending fresh lane owner (bool_decide (p = First))) allow_immediate reason.

(** ** Release, cancellation and limits *)

Definition release_without_promotion (s : SchedulerState) (lane : string) :
    SchedulerState * bool :=
  (set_active s (delete lane (active s)), bool_decide (is_Some (active s !! lane))).

Definition cancel_lane (s : SchedulerState) (lane : string) :
    SchedulerState * option QueueRequest :=
  match list_find (λ r, lane_id r = lane) (queued s) with
  | None => (s, None)
  | Some (index, removed) =>
      (prune_owner_ring (set_queued s (delete index (queued s))), Some removed)
  end.

Definition update_policy_limits_without_promotion (s : SchedulerState)
    (open global owner recommended : nat) : SchedulerState :=
  let c := config s in
  set_config s (mkConfig open global owner recommended (cfg_retry_delay_ms c)
    (aging_interval_ms c)).

Definition update_recommended_concurrency (s : SchedulerState) (n : nat) : SchedulerState :=
  let c := config s in
  set_config s (mkConfig (max_open_lanes c) (max_global_queue c) (max_owner_queue c) n
    (cfg_retry_delay_ms c) (aging_interval_ms c)).

(** ** Queue metadata *)

(** What a drain loop ends with. *)
Inductive drained :=
| Found (position : nat)
| Exhausted (s : SchedulerState) (position : nat)
| Panicked.

(** One simulated promotion: [None] when nothing is selected. *)
Definition drain_one (s : SchedulerState) (now_ms : N) (pol : PromotionPolicy) :
    option (option QueueRequest * SchedulerState) :=
  match select_next_index_with_policy s now_ms pol with
  | None => None
  | Some (index, s) => Some (queued s !! index, set_queued s (delete index (queued s)))
  end.

(** The first [while let] loop: drain until the request is found or nothing
    is eligible. *)
Fixpoint drain_eligible (fuel : nat) (s : SchedulerState) (now_ms : N) (pol : PromotionPolicy)
    (rid : string) (position : nat) : drained :=
  match drain_one s now_ms pol with
  | None => Exhausted s position
  | Some (None, _) => Panicked
  | Some (Some r, s) =>
      if bool_decide (request_id r = rid) then Found (position + 1) else
      match fuel with
      | 0 => Panicked
      | S fuel => drain_eligible fuel (prune_owner_ring s) now_ms pol rid (position + 1)
      end
  end.

(** The second loop, over the deferred requests; its [expect] panics when
    the allow-all policy selects nothing. *)
Fixpoint drain_deferred (fuel : nat) (s : SchedulerState) (now_ms : N) (rid : string)
    (position : nat) : drained :=
  match queued s with
  | [] => Exhausted s position
  | _ =>
      match drain_one s now_ms allow_all with
      | None | Some (None, _) => Panicked
      | Some (Some r, s) =>
          if bool_decide (request_id r = rid) then Found (position + 1) else
          match fuel with
          | 0 => Panicked
          | S fuel => drain_deferred fuel (prune_owner_ring s) now_ms rid (position + 1)
          end
      end
  end.

Definition queue_position (s : SchedulerState) (rid : string) (now_ms : N)
    (pol : PromotionPolicy) : option nat :=
  let fuel := length (queued s) in
  match drain_eligible fuel s now_ms pol rid 0 with
  | Found p => Some p
  | Panicked => None
  | Exhausted s p =>
      match drain_deferred fuel s now_ms rid p with
      | Found p | Exhausted _ p => Some p
      | Panicked => None
      end
  end.

(** [queue_metadata_locked]: [Ok None] when the request is not queued,
    [Err] on a panic. *)
Definition queue_metadata_locked (s : SchedulerState) (rid : string) (now_ms : N)
    (pol : PromotionPolicy) : result (option QueueMetadata) unit :=
  match list_find (λ r, request_id r = rid) (queued s) with
  | None => Ok None
  | Some (_, request) =>
      match queue_position s rid now_ms pol with
      | None => Err ()
      | Some position => Ok (Some {|
          qm_request_id := request_id request;
          BrowserTypes.position := position;
          recommended_concurrency := cfg_recommended_concurrency (config s);
          owner_active := owner_active_count s (owner_id request);
          owner_queued := owner_queued_count s (owner_id request);
          global_active := size (active s);
          global_queued := length (queued s);
          retry_delay_ms := cfg_retry_delay_ms (config s);
          qm_reason_code := reason_code request |})
      end
  end.

Definition queue_metadata (s : SchedulerState) (rid : string) (now_ms : N) :
    result (option QueueMetadata) unit :=
  queue_metadata_locked s rid now_ms (promotion_policy s).

(** [metadata]: the panic of the simulation stays in the outer result. *)
Definition metadata_or_missing (s : SchedulerState) (rid : string) (now_ms : N) :
    result (result QueueMetadata BrowserPlatformError) unit :=
  let? m := queue_metadata s rid now_ms in
  Ok match m with
     | Some m => Ok m
     | None => Err (new_error LaneNotFound "The browser queue request no longer exists." false
                      "Refresh the browser inventory.")
     end.

(** [BTreeMap::values]: the requests in lane-id order. *)
Definition active_requests (s : SchedulerState) : list QueueRequest :=
  (merge_sort (λ a b : string * QueueRequest, Is_true (String.leb a.1 b.1))
     (map_to_list (active s))).*2.
Definition queued_requests_unordered (s : SchedulerState) : list QueueRequest := queued s.
