(* ===== verification/LaneInvariant.v ===== *)
(** The owner ring of the lane scheduler, the scheduler's invariant, and the selection
    lemmas: what the ring and the slot scans find. *)
From S2P Require Import Prelude BrowserTypes LaneScheduler.

(** The first owner of [l] with a selectable request, and that request. *)
Fixpoint find_hit (s : SchedulerState) (p : LanePriority) (now_ms : N)
    (pol : PromotionPolicy) (l : list string) : option (nat * string) :=
  match l with
  | [] => None
  | owner :: l =>
      match list_find (λ r, selectable s p now_ms pol owner r) (queued s) with
      | Some (index, _) => Some (index, owner)
      | None => find_hit s p now_ms pol l
      end
  end.

Lemma rotate_lookup {A} (l : list A) n i :
  i < length l → rotate n l !! i = l !! ((n + i) mod length l).
Proof.
  intros Hi. rewrite lookup_rotate_r by done. f_equal. unfold rotate_nat_add.
  rewrite <-Nat2Z.inj_add, <-Nat2Z.inj_mod. lia.
Qed.

Lemma scan_owners_drop s p now pol start offset fuel :
  offset + fuel = length (owner_ring s) →
  scan_owners s p now pol start offset fuel
  = find_hit s p now pol (drop offset (rotate start (owner_ring s))).
Proof.
  revert offset. induction fuel as [|fuel IH]; intros offset Hlen; simpl.
  { rewrite drop_ge; [done|]. rewrite length_rotate. lia. }
  rewrite <-rotate_lookup by lia.
  destruct (lookup_lt_is_Some_2 (rotate start (owner_ring s)) offset) as [o Ho];
    [rewrite length_rotate; lia|].
  rewrite Ho, (drop_S _ o) by done. simpl.
  destruct (list_find _ _) as [[??]|]; [done|]. apply IH. lia.
Qed.

Lemma scan_owners_rotate s p now pol :
  scan_owners s p now pol (ring_start s p) 0 (length (owner_ring s))
  = find_hit s p now pol (rotate (ring_start s p) (owner_ring s)).
Proof. by rewrite scan_owners_drop, drop_0. Qed.

Lemma find_hit_None s p now pol l :
  find_hit s p now pol l = None ↔
  ∀ o r, o ∈ l → r ∈ queued s → ¬ selectable s p now pol o r.
Proof.
  induction l as [|o l IH]; simpl; [set_solver|].
  destruct (list_find _ _) as [[i r]|] eqn:E.
  - split; [done|]. intros H. apply list_find_Some in E as (Hi&Hs&_).
    exfalso. eapply (H o r); [left|by eapply list_elem_of_lookup_2|done].
  - apply list_find_None in E. rewrite Forall_forall in E. rewrite IH. split.
    + intros H o' r [->|Ho]%elem_of_cons Hr; [by apply E|by eapply H].
    + intros H o' r Ho Hr. apply H; [by right|done].
Qed.

(** The hit is the first selectable request of the first owner, along the
    list, that has one. *)
Lemma find_hit_Some s p now pol l i o :
  find_hit s p now pol l = Some (i, o) →
  ∃ before after r, l = before ++ o :: after ∧
    queued s !! i = Some r ∧ selectable s p now pol o r ∧
    (∀ j r', queued s !! j = Some r' → j < i → ¬ selectable s p now pol o r') ∧
    (∀ o' r', o' ∈ before → r' ∈ queued s → ¬ selectable s p now pol o' r').
Proof.
  induction l as [|o' l IH]; simpl; [done|].
  destruct (list_find _ _) as [[i' r]|] eqn:E; intros H.
  - simplify_eq. apply list_find_Some in E as (Hi&Hs&Hmin).
    exists [], l, r. set_solver.
  - apply IH in H as (b&a&r&->&?&?&?&Hb). apply list_find_None in E.
    rewrite Forall_forall in E. exists (o' :: b), a, r. split_and!; [done..|].
    intros o'' r' [->|?]%elem_of_cons Hr; eauto.
Qed.

(** ** Cursor repair *)

Section cursor.
Context (K : string → Prop) `{!∀ o, Decision (K o)}.

Lemma position_of_split l1 o l2 :
  o ∉ l1 → position_of o (l1 ++ o :: l2) = Some (length l1).
Proof.
  intros Hn. unfold position_of.
  rewrite (proj2 (list_find_Some _ _ (length l1) o)); [done|].
  split_and!; [by apply list_lookup_middle|done|].
  intros j y Hj Hlt ->. rewrite lookup_app_l in Hj by done.
  by apply list_elem_of_lookup_2 in Hj.
Qed.

Lemma position_of_None o l : o ∉ l → position_of o l = None.
Proof.
  intros Hn. unfold position_of. rewrite (proj2 (list_find_None _ _)); [done|].
  apply Forall_forall. intros x Hx ->. done.
Qed.

(** The ring read from the successor of [cursor] on, as
    [select_owner_fair_index] scans it. *)
Definition rotation (cursor : option string) (ring : list string) : list string :=
  rotate (match cursor ≫= λ o, position_of o ring with
          | Some position => position + 1 | None => 0 end) ring.

Lemma rotation_split l1 o l2 :
  o ∉ l1 → rotation (Some o) (l1 ++ o :: l2) = l2 ++ l1 ++ [o].
Proof.
  intros Hn. unfold rotation. simpl. rewrite position_of_split by done. unfold rotate.
  destruct l2 as [|x l2].
  - rewrite length_app; simpl. rewrite Nat.Div0.mod_same. by rewrite drop_0, take_0, app_nil_r.
  - rewrite Nat.mod_small by (rewrite length_app; simpl; lia).
    replace (l1 ++ o :: x :: l2) with ((l1 ++ [o]) ++ x :: l2) by (by rewrite <-app_assoc).
    replace (length l1 + 1) with (length (l1 ++ [o])) by (rewrite length_app; done).
    by rewrite drop_app_length, take_app_length.
Qed.

Lemma rotation_None l : rotation None l = l.
Proof.
  unfold rotation, rotate. simpl. destruct l; [done|].
  rewrite Nat.mod_small by (simpl; lia). by rewrite drop_0, take_0, app_nil_r.
Qed.

(** The backward walk finds the last kept owner of the ring read from the
    cursor's position. *)
Lemma nearest_predecessor_last prev cur pos step fuel :
  step + fuel = S (length prev) → 1 ≤ step →
  nearest_predecessor prev cur pos step fuel
  = last (filter (λ o, o ∈ cur) (take fuel (rotate pos prev))).
Proof.
  revert step. induction fuel as [|fuel IH]; intros step Hlen Hstep; [done|]. simpl.
  assert (length prev - step = fuel) as Hf by lia.
  replace (pos + length prev - step) with (pos + fuel) by lia.
  rewrite <-rotate_lookup by lia.
  destruct (lookup_lt_is_Some_2 (rotate pos prev) fuel) as [o Ho];
    [rewrite length_rotate; lia|].
  rewrite Ho. erewrite take_S_r by done. rewrite filter_app, filter_cons, filter_nil.
  case_bool_decide; [rewrite decide_True by done; by rewrite last_snoc|].
  rewrite decide_False, app_nil_r by done. apply IH; lia.
Qed.

Lemma filter_elem_of_filter (l l' : list string) :
  (∀ x, x ∈ l' → x ∈ l) → filter (λ o, o ∈ filter K l) l' = filter K l'.
Proof.
  induction l' as [|x l' IH]; intros Hsub; [done|].
  rewrite !filter_cons, IH by set_solver.
  assert (x ∈ filter K l ↔ K x) as Hx by (rewrite list_elem_of_filter; set_solver).
  by repeat case_decide; naive_solver.
Qed.

Lemma repair_owner_cursor_removed l1 o l2 :
  NoDup (l1 ++ o :: l2) → ¬ K o →
  repair_owner_cursor (l1 ++ o :: l2) (filter K (l1 ++ o :: l2)) (Some o)
  = last (filter K (l2 ++ l1)).
Proof.
  intros Hnd HK. apply NoDup_app in Hnd as Hnd'. destruct Hnd' as (_&Hd&_).
  assert (o ∉ l1) as Hn by (intros Ho; apply (Hd _ Ho); left).
  unfold repair_owner_cursor. rewrite bool_decide_eq_false_2
    by (rewrite list_elem_of_filter; naive_solver).
  rewrite position_of_split by done.
  rewrite nearest_predecessor_last by lia.
  rewrite take_ge by (rewrite length_rotate; done).
  assert (rotate (length l1) (l1 ++ o :: l2) = (o :: l2) ++ l1) as ->.
  { unfold rotate. rewrite Nat.mod_small by (rewrite length_app; simpl; lia).
    by rewrite drop_app_length, take_app_length. }
  rewrite filter_elem_of_filter by set_solver. simpl. by rewrite filter_cons_False.
Qed.

(** Serving resumes at the owner that followed the removed one: rotating
    the shrunken ring after the repaired cursor gives what is left of the old
    ring rotated after the old cursor. *)
Lemma repair_preserves_rotation prev cursor :
  NoDup prev → (∀ o, cursor = Some o → o ∈ prev) →
  rotation (repair_owner_cursor prev (filter K prev) cursor) (filter K prev)
  = filter K (rotation cursor prev).
Proof.
  intros Hnd Hin. destruct cursor as [o|]; [|by rewrite !rotation_None].
  destruct (list_elem_of_split prev o (Hin _ eq_refl)) as (l1&l2&->).
  apply NoDup_app in Hnd as Hnd'. destruct Hnd' as (_&Hd&[Hn2 _]%NoDup_cons).
  assert (o ∉ l1) as Hn by (intros Ho; apply (Hd _ Ho); left).
  rewrite rotation_split by done.
  destruct (decide (K o)) as [HK|HK].
  - unfold repair_owner_cursor. rewrite bool_decide_eq_true_2
      by (apply list_elem_of_filter; set_solver).
    rewrite filter_app, filter_cons_True, rotation_split by
      first [done|rewrite list_elem_of_filter; naive_solver].
    by rewrite !filter_app, filter_cons_True.
  - rewrite repair_owner_cursor_removed by done.
    rewrite !filter_app, (filter_cons_False _ o), (filter_cons_False _ o [])
      by done. rewrite filter_nil, app_nil_r.
    assert (NoDup (filter K l1 ++ filter K l2)) as Hnf.
    { rewrite <-filter_app. apply NoDup_filter. revert Hnd.
      rewrite !NoDup_app, NoDup_cons. set_solver. }
    destruct (filter K l1) as [|a f1 _] eqn:E1 using rev_ind.
    + rewrite app_nil_r. simpl. destruct (filter K l2) as [|a f2 _] using rev_ind; [done|].
      rewrite last_snoc. simpl in Hnf. apply NoDup_app in Hnf as (_&Hnf&_).
      rewrite rotation_split by set_solver. by simpl.
    + rewrite app_assoc, last_snoc, <-app_assoc. simpl.
      rewrite rotation_split; [by rewrite app_assoc|].
      apply NoDup_app in Hnf as (Hnf&_&_). apply NoDup_app in Hnf as (_&Hnf&_).
      intros Ha. by apply (Hnf a); [|left].
Qed.

Lemma repair_in_ring prev cursor :
  NoDup prev → (∀ o, cursor = Some o → o ∈ prev) →
  ∀ o, repair_owner_cursor prev (filter K prev) cursor = Some o → o ∈ filter K prev.
Proof.
  intros Hnd Hin o. destruct cursor as [c|]; [|done].
  destruct (decide (K c)) as [HK|HK].
  - unfold repair_owner_cursor. rewrite bool_decide_eq_true_2
      by (apply list_elem_of_filter; auto). intros [= ->].
    apply list_elem_of_filter; auto.
  - destruct (list_elem_of_split prev c (Hin _ eq_refl)) as (l1&l2&->).
    rewrite repair_owner_cursor_removed by done.
    intros (f&Hf)%last_Some. rewrite filter_app, filter_cons_False by done.
    assert (o ∈ filter K (l2 ++ l1)) as Ho by (rewrite Hf; set_solver).
    rewrite filter_app in Ho. set_solver.
Qed.
End cursor.

(** The ring lists exactly the owners with queued work, once each, and the
    round-robin cursors point into it. *)
Record ring_ok (s : SchedulerState) : Prop := {
  ring_nodup : NoDup (owner_ring s);
  ring_owners : ∀ o, o ∈ owner_ring s ↔ ∃ r, r ∈ queued s ∧ owner_id r = o;
  ring_cursor : ∀ p o, last_owner s p = Some o → o ∈ owner_ring s;
  ring_slot : priority_slot s < PRIORITY_CYCLE_LEN;
}.

(** A lane has at most one request, active or queued, stored under its own
    key, and request identifiers are unique. *)
Record core_ok (a : gmap string QueueRequest) (q : list QueueRequest) : Prop := {
  core_lanes : NoDup (lane_id <$> q);
  core_keys : ∀ l r, a !! l = Some r → lane_id r = l;
  core_disjoint : ∀ r, r ∈ q → a !! lane_id r = None;
  core_requests : NoDup (request_id <$> ((map_to_list a).*2 ++ q));
}.

(** The whole invariant. *)
Record wf (s : SchedulerState) : Prop := {
  wf_ring : ring_ok s;
  wf_core : core_ok (active s) (queued s);
}.

Create HintDb lane.
#[export] Hint Resolve ring_nodup ring_slot wf_ring wf_core : lane.

Lemma scheduler_new_wf c : wf (scheduler_new c).
Proof.
  split; split; simpl; rewrite ?map_to_list_empty; try apply NoDup_nil_2; try set_solver.
  - by intros [].
  - unfold PRIORITY_CYCLE_LEN. simpl. lia.
Qed.

(** ** The core invariant under the primitive updates *)

Lemma NoDup_perm_fmap {A B} (f : A → B) (l k : list A) :
  l ≡ₚ k → NoDup (f <$> l) → NoDup (f <$> k).
Proof. by intros ->. Qed.

Lemma core_insert a q r :
  core_ok a q → a !! lane_id r = None → lane_id r ∉ lane_id <$> q →
  request_id r ∉ request_id <$> ((map_to_list a).*2 ++ q) →
  core_ok (<[lane_id r := r]> a) q.
Proof.
  intros [Hl Hk Hd Hr] Ha Hq Hf. split; [done| | |].
  - intros l r'. rewrite lookup_insert_Some. naive_solver.
  - intros r' Hr'. rewrite lookup_insert_ne; [by apply Hd|].
    intros Heq. apply Hq. rewrite Heq. by apply list_elem_of_fmap_2.
  - rewrite map_to_list_insert by done. simpl. by constructor.
Qed.

Lemma core_push a q r :
  core_ok a q → a !! lane_id r = None → lane_id r ∉ lane_id <$> q →
  request_id r ∉ request_id <$> ((map_to_list a).*2 ++ q) →
  core_ok a (q ++ [r]).
Proof.
  intros [Hl Hk Hd Hr] Ha Hq Hf. split; [|done| |].
  - rewrite fmap_app. apply NoDup_app. split_and!; [done|set_solver|apply NoDup_singleton].
  - set_solver.
  - rewrite app_assoc. eapply NoDup_perm_fmap; [apply Permutation_cons_append|].
    by constructor.
Qed.

Lemma core_delete_active a q l : core_ok a q → core_ok (delete l a) q.
Proof.
  intros [Hl Hk Hd Hr]. split; [done| | |].
  - intros l' r. rewrite lookup_delete_Some. naive_solver.
  - intros r Hq. rewrite lookup_delete_None. auto.
  - destruct (a !! l) as [r|] eqn:E; [|by rewrite delete_id].
    rewrite <-(map_to_list_delete a l r) in Hr by done. by apply NoDup_cons in Hr as [_ ?].
Qed.

Lemma elem_of_delete {A} (l : list A) i x : x ∈ delete i l → x ∈ l.
Proof.
  intros Hx. destruct (l !! i) as [y|] eqn:E.
  - rewrite (delete_Permutation l i y) by done. by right.
  - rewrite delete_take_drop, elem_of_app in Hx.
    apply lookup_ge_None in E. rewrite take_ge, drop_ge in Hx by lia. set_solver.
Qed.

Lemma core_delete_queued a q i r :
  core_ok a q → q !! i = Some r → core_ok a (delete i q).
Proof.
  intros [Hl Hk Hd Hr] Hi. pose proof (delete_Permutation q i r Hi) as Hp. split; [|done| |].
  - rewrite Hp in Hl. by apply NoDup_cons in Hl as [_ ?].
  - intros r' Hr'. apply Hd. by eapply elem_of_delete.
  - rewrite Hp, <-Permutation_middle in Hr. by apply NoDup_cons in Hr as [_ ?].
Qed.

Lemma core_promote a q i r :
  core_ok a q → q !! i = Some r → core_ok (<[lane_id r := r]> a) (delete i q).
Proof.
  intros Hok Hi. pose proof (delete_Permutation q i r Hi) as Hp.
  pose proof Hok as [Hl Hk Hd Hr]. apply core_insert.
  - by eapply core_delete_queued.
  - apply Hd. by eapply list_elem_of_lookup_2.
  - rewrite Hp in Hl. by apply NoDup_cons in Hl as [? _].
  - rewrite Hp, <-Permutation_middle in Hr. by apply NoDup_cons in Hr as [? _].
Qed.

Lemma core_map a q f :
  core_ok a q → (∀ r, lane_id (f r) = lane_id r) → (∀ r, request_id (f r) = request_id r) →
  core_ok a (f <$> q).
Proof.
  intros [Hl Hk Hd Hr] Hfl Hfr. split; [|done| |].
  - rewrite <-list_fmap_compose. erewrite list_fmap_ext; [exact Hl|]. intros; apply Hfl.
  - intros r (r'&->&Hr')%list_elem_of_fmap. rewrite Hfl. by apply Hd.
  - rewrite fmap_app in Hr |- *. rewrite <-(list_fmap_compose f request_id).
    erewrite (list_fmap_ext _ _ q); [exact Hr|]. intros; apply Hfr.
Qed.

(** ** Selection *)

Definition same_frame (s s' : SchedulerState) : Prop :=
  config s' = config s ∧ active s' = active s ∧ queued s' = queued s ∧
  promotion_policy s' = promotion_policy s ∧ owner_ring s' = owner_ring s.

Lemma set_last_owner_frame s p o : same_frame s (set_last_owner s p o).
Proof. by destruct p. Qed.
Lemma set_last_owner_last s p o : last_owner (set_last_owner s p o) p = Some o.
Proof. by destruct p. Qed.
Lemma set_last_owner_other s p q o :
  p ≠ q → last_owner (set_last_owner s p o) q = last_owner s q.
Proof. by destruct p, q. Qed.

Lemma select_owner_fair_index_hit s p now pol :
  select_owner_fair_index s p now pol
  = (λ '(i, o), (i, set_last_owner s p o)) <$>
    find_hit s p now pol (rotation (last_owner s p) (owner_ring s)).
Proof.
  unfold select_owner_fair_index. rewrite scan_owners_rotate.
  change (rotate (ring_start s p) (owner_ring s)) with (rotation (last_owner s p) (owner_ring s)).
  by destruct (find_hit _ _ _ _ _) as [[]|].
Qed.

Lemma elem_of_rotation c l x : x ∈ rotation c l ↔ x ∈ l.
Proof. apply elem_of_rotate. Qed.

(** Which request [select_owner_fair_index] picks: the first selectable one
    of the first owner, in rotation order after the last served owner, that has
    one. *)
Definition fair_pick (s : SchedulerState) (p : LanePriority) (now : N)
    (pol : PromotionPolicy) (i : nat) (r : QueueRequest) : Prop :=
  queued s !! i = Some r ∧ selectable s p now pol (owner_id r) r ∧
  (∀ j r', queued s !! j = Some r' → j < i → ¬ selectable s p now pol (owner_id r) r') ∧
  ∃ before after, rotation (last_owner s p) (owner_ring s) = before ++ owner_id r :: after ∧
    ∀ o' r', o' ∈ before → r' ∈ queued s → ¬ selectable s p now pol o' r'.

Lemma selectable_owner s p now pol o r : selectable s p now pol o r → owner_id r = o.
Proof. unfold selectable. rewrite !andb_True, bool_decide_spec. naive_solver. Qed.
Lemma selectable_admits s p now pol o r : selectable s p now pol o r → admits pol r.
Proof. unfold selectable. rewrite !andb_True. naive_solver. Qed.

Lemma select_owner_fair_index_Some s p now pol i s' :
  select_owner_fair_index s p now pol = Some (i, s') →
  ∃ r, fair_pick s p now pol i r ∧ s' = set_last_owner s p (owner_id r).
Proof.
  rewrite select_owner_fair_index_hit. intros ([i' o]&Hhit&?)%fmap_Some. simplify_eq.
  apply find_hit_Some in Hhit as (b&a&r&Hrot&Hi&Hs&Hmin&Hb).
  assert (owner_id r = o) as <- by eauto using selectable_owner.
  exists r. split; [|done]. unfold fair_pick. eauto 10.
Qed.

Lemma select_owner_fair_index_None s p now pol :
  select_owner_fair_index s p now pol = None ↔
  ∀ o r, o ∈ owner_ring s → r ∈ queued s → ¬ selectable s p now pol o r.
Proof.
  rewrite select_owner_fair_index_hit, fmap_None, find_hit_None.
  by setoid_rewrite elem_of_rotation.
Qed.

Lemma slot_lt n : n mod PRIORITY_CYCLE_LEN < PRIORITY_CYCLE_LEN.
Proof. apply Nat.mod_upper_bound. done. Qed.

(** The slot scan stops at the first slot, cyclically from [priority_slot],
    whose class has a candidate. *)
Lemma scan_slots_Some s now pol offset fuel i s' :
  scan_slots s now pol offset fuel = Some (i, s') →
  ∃ k r, offset ≤ k < offset + fuel ∧
    let slot := (priority_slot s + k) mod PRIORITY_CYCLE_LEN in
    let p := priority_for_slot slot in
    fair_pick s p now pol i r ∧
    s' = set_slot (set_last_owner s p (owner_id r)) ((slot + 1) mod PRIORITY_CYCLE_LEN) ∧
    ∀ k', offset ≤ k' < k →
      select_owner_fair_index s
        (priority_for_slot ((priority_slot s + k') mod PRIORITY_CYCLE_LEN)) now pol = None.
Proof.
  revert offset. induction fuel as [|fuel IH]; intros offset H; [done|].
  cbn [scan_slots] in H. destruct (select_owner_fair_index _ _ _ _) as [[i' s1]|] eqn:E.
  - simplify_eq. apply select_owner_fair_index_Some in E as (r&Hp&->).
    exists offset, r. split; [lia|]. split_and!; [done..|]. intros; lia.
  - apply IH in H as (k&r&?&Hp&->&Hn). exists k, r. split; [lia|].
    split_and!; [done..|]. intros k' ?. destruct (decide (k' = offset)) as [->|]; [done|].
    apply Hn. lia.
Qed.

Lemma scan_slots_None s now pol offset fuel :
  scan_slots s now pol offset fuel = None →
  ∀ k, offset ≤ k < offset + fuel →
    select_owner_fair_index s
      (priority_for_slot ((priority_slot s + k) mod PRIORITY_CYCLE_LEN)) now pol = None.
Proof.
  revert offset. induction fuel as [|fuel IH]; intros offset H k ?; [lia|].
  cbn [scan_slots] in H. destruct (select_owner_fair_index _ _ _ _) as [[i' s1]|] eqn:E; [done|].
  destruct (decide (k = offset)) as [->|]; [done|]. apply (IH (S offset)); [done|lia].
Qed.

(** Every class owns a slot of the cycle. *)
Lemma slot_of_priority slot p :
  slot < PRIORITY_CYCLE_LEN →
  ∃ k, k < PRIORITY_CYCLE_LEN ∧ priority_for_slot ((slot + k) mod PRIORITY_CYCLE_LEN) = p.
Proof.
  unfold PRIORITY_CYCLE_LEN, FIRST_LANE_WEIGHT, EXPANSION_LANE_WEIGHT. simpl. intros Hs.
  destruct p.
  - destruct (decide (slot = 4)) as [->|].
    + exists 1. split; [lia|done].
    + exists 0. split; [lia|]. assert (slot = 0 ∨ slot = 1 ∨ slot = 2 ∨ slot = 3) as H by lia.
      by destruct H as [->|[->|[->| ->]]].
  - exists (4 - slot). split; [lia|].
    replace (slot + (4 - slot)) with 4 by lia. done.
Qed.

Lemma admitted_selectable s now pol r :
  admits pol r →
  selectable s (effective_priority r now (aging_interval_ms (config s))) now pol (owner_id r) r.
Proof.
  unfold selectable. rewrite !bool_decide_eq_true_2 by done. by destruct (admits pol r).
Qed.

Lemma select_next_Some s now pol i s' :
  select_next_index_with_policy s now pol = Some (i, s') →
  ∃ k r, k < PRIORITY_CYCLE_LEN ∧
    let slot := (priority_slot s + k) mod PRIORITY_CYCLE_LEN in
    let p := priority_for_slot slot in
    fair_pick s p now pol i r ∧
    s' = set_slot (set_last_owner s p (owner_id r)) ((slot + 1) mod PRIORITY_CYCLE_LEN) ∧
    ∀ k', k' < k →
      select_owner_fair_index s
        (priority_for_slot ((priority_slot s + k') mod PRIORITY_CYCLE_LEN)) now pol = None.
Proof.
  unfold select_next_index_with_policy. destruct (queued s) eqn:E; [done|].
  intros (k&r&?&?&?&Hn)%scan_slots_Some. exists k, r. split; [lia|]. split_and!; [done..|].
  intros. apply Hn. lia.
Qed.

(** Selection is work conserving: it fails exactly when no queued request is
    admitted by the policy. *)
Lemma select_next_None s now pol :
  ring_ok s →
  select_next_index_with_policy s now pol = None ↔ ∀ r, r ∈ queued s → ¬ admits pol r.
Proof.
  intros Hok. split.
  - intros H r Hr Ha. unfold select_next_index_with_policy in H.
    destruct (queued s) eqn:Eq; [set_solver|]. rewrite <-Eq in Hr. clear Eq.
    destruct (slot_of_priority (priority_slot s)
      (effective_priority r now (aging_interval_ms (config s))) (ring_slot _ Hok)) as (k&Hk&Hp).
    pose proof (scan_slots_None _ _ _ _ _ H k ltac:(lia)) as Hn. rewrite Hp in Hn.
    rewrite select_owner_fair_index_None in Hn.
    apply (Hn (owner_id r) r); [|done|by apply admitted_selectable].
    apply (ring_owners _ Hok). eauto.
  - intros H. destruct (select_next_index_with_policy _ _ _) as [[i s']|] eqn:E; [|done].
    apply select_next_Some in E as (k&r&_&(Hi&Hs&_)&_).
    exfalso. apply (H r); [by eapply list_elem_of_lookup_2|by eapply selectable_admits].
Qed.

Lemma select_next_frame s now pol i s' :
  select_next_index_with_policy s now pol = Some (i, s') → same_frame s s'.
Proof.
  intros (k&r&_&_&->&_)%select_next_Some.
  destruct (priority_for_slot _); by split_and!.
Qed.

Lemma fair_pick_in_ring s p now pol i r :
  fair_pick s p now pol i r → owner_id r ∈ owner_ring s.
Proof.
  intros (_&_&_&b&a&Hr&_). rewrite <-(elem_of_rotation (last_owner s p)), Hr. set_solver.
Qed.

Lemma select_next_ring_ok s now pol i s' :
  ring_ok s → select_next_index_with_policy s now pol = Some (i, s') → ring_ok s'.
Proof.
  intros Hok Hsel. pose proof (select_next_frame _ _ _ _ _ Hsel) as (_&_&Hq&_&Hr).
  apply select_next_Some in Hsel as (k&r&_&Hp&->&_).
  split.
  - rewrite Hr. apply Hok.
  - rewrite Hr, Hq. apply Hok.
  - rewrite Hr. intros q o Hq'. set (p := priority_for_slot _) in *.
    destruct (decide (p = q)) as [<-|Hne].
    + change (last_owner (set_last_owner s p (owner_id r)) p = Some o) in Hq'.
      rewrite set_last_owner_last in Hq'. simplify_eq. by eapply fair_pick_in_ring.
    + change (last_owner (set_last_owner s p (owner_id r)) q = Some o) in Hq'.
      rewrite set_last_owner_other in Hq' by done. by eapply (ring_cursor _ Hok).
  - apply slot_lt.
Qed.

Lemma select_next_lookup s now pol i s' :
  select_next_index_with_policy s now pol = Some (i, s') →
  ∃ r, queued s !! i = Some r ∧ admits pol r.
Proof.
  intros (k&r&_&(?&?&_)&_)%select_next_Some. eauto using selectable_admits.
Qed.

(** ** Pruning *)

(** The owner ring before a removal: everything but the reverse inclusion. *)
Record ring_pre (s : SchedulerState) : Prop := {
  pre_nodup : NoDup (owner_ring s);
  pre_owners : ∀ r, r ∈ queued s → owner_id r ∈ owner_ring s;
  pre_cursor : ∀ p o, last_owner s p = Some o → o ∈ owner_ring s;
  pre_slot : priority_slot s < PRIORITY_CYCLE_LEN;
}.

Lemma ring_ok_pre s : ring_ok s → ring_pre s.
Proof. intros [? Ho ? ?]. split; [done| |done|done]. intros r Hr. apply Ho. eauto. Qed.

Lemma ring_pre_sub s s' :
  ring_pre s → owner_ring s' = owner_ring s → last_first_owner s' = last_first_owner s →
  last_expansion_owner s' = last_expansion_owner s → priority_slot s' = priority_slot s →
  (∀ r, r ∈ queued s' → r ∈ queued s) → ring_pre s'.
Proof.
  intros [? ? Hc ?] Hr Hf He Hp Hsub. split; rewrite ?Hr, ?Hp; [done|eauto| |done].
  intros [] o; simpl; rewrite ?Hf, ?He; intros Ho; [apply (Hc First)|apply (Hc Expansion)]; done.
Qed.

Lemma last_owner_prune s p :
  last_owner (prune_owner_ring s) p
  = repair_owner_cursor (owner_ring s) (owner_ring (prune_owner_ring s)) (last_owner s p).
Proof. by destruct p. Qed.

Lemma prune_ring_ok s : ring_pre s → ring_ok (prune_owner_ring s).
Proof.
  intros [Hnd Ho Hc Hs]. split.
  - by apply NoDup_filter.
  - intros o. simpl. rewrite list_elem_of_filter, Exists_exists. split; [naive_solver|].
    intros (r&Hr&<-). split; [by eauto|by apply Ho].
  - intros p o. rewrite last_owner_prune. apply repair_in_ring; eauto.
  - done.
Qed.
