(* ===== verification/LaneSafety.v ===== *)
(** Every operation of the lane scheduler keeps the invariant, never panics
    and implements the abstract permit machine.  The last part simulates the draining of the queue, behind queue positions. *)
From S2P Require Import Prelude BrowserTypes LaneScheduler LaneInvariant.

(** ** Operations and their transition relation *)

Inductive event := EvAdmit | EvRelease | EvPromote | EvCancel | EvLimits | EvRecommend.

(** One public call on the scheduler. *)
Inductive step : event → SchedulerState → SchedulerState → Prop :=
| step_admit s now r imm reason :
    step EvAdmit s (admit_request_with_policy s now r imm reason).1
| step_release s lane : step EvRelease s (release_without_promotion s lane).1
| step_promote s s' now pol o :
    promote_one_with_policy s now pol = Some (s', o) → step EvPromote s s'
| step_cancel s lane : step EvCancel s (cancel_lane s lane).1
| step_limits s o g w n :
    step EvLimits s (update_policy_limits_without_promotion s o g w n)
| step_recommend s n : step EvRecommend s (update_recommended_concurrency s n).

Definition any_step (s s' : SchedulerState) : Prop := ∃ ev, step ev s s'.
Definition reachable (c : SchedulerConfig) (s : SchedulerState) : Prop :=
  rtc any_step (scheduler_new c) s.
(** Runs in which the limits are never changed. *)
Definition fixed_step (s s' : SchedulerState) : Prop := ∃ ev, ev ≠ EvLimits ∧ step ev s s'.

(** ** What each operation does *)

Lemma owner_ring_push s r o :
  o ∈ owner_ring (push_queued s r) ↔ o ∈ owner_ring s ∨ o = owner_id r.
Proof. unfold push_queued. case_bool_decide; simpl; set_solver. Qed.

Lemma push_queued_ring_ok s r : ring_ok s → ring_ok (push_queued s r).
Proof.
  intros [Hnd Ho Hc Hs]. split.
  - unfold push_queued. case_bool_decide; [done|]. simpl.
    apply NoDup_app. split_and!; [done|set_solver|apply NoDup_singleton].
  - intros o. rewrite owner_ring_push, Ho.
    assert (queued (push_queued s r) = queued s ++ [r]) as ->
      by (unfold push_queued; by case_bool_decide).
    set_solver.
  - intros p o Hl. rewrite owner_ring_push. left. apply (Hc p).
    revert Hl. unfold push_queued. by case_bool_decide; destruct p.
  - unfold push_queued. by case_bool_decide.
Qed.

Lemma push_queued_fields s r :
  config (push_queued s r) = config s ∧ active (push_queued s r) = active s ∧
  queued (push_queued s r) = queued s ++ [r].
Proof. unfold push_queued. by case_bool_decide. Qed.

Lemma list_find_lane_None s l :
  list_find (λ r, lane_id r = l) (queued s) = None → l ∉ lane_id <$> queued s.
Proof.
  rewrite list_find_None, Forall_forall. intros H (r&->&Hr)%list_elem_of_fmap. by eapply H.
Qed.

(** The outcomes of an admission: nothing changes, an immediate grant, or a
    new entry at the back of the queue. *)
Inductive admit_outcome (s : SchedulerState) (now : N) (r : QueueRequest) :
    SchedulerState → result Admission BrowserPlatformError → Prop :=
| admit_unchanged res : admit_outcome s now r s res
| admit_granted r' :
    lane_id r' = lane_id r → request_id r' = request_id r → owner_id r' = owner_id r →
    queued s = [] → size (active s) < max_open_lanes (config s) →
    active s !! lane_id r' = None →
    request_id r' ∉ request_id <$> ((map_to_list (active s)).*2 ++ queued s) →
    admit_outcome s now r (set_active s (<[lane_id r' := r']> (active s))) (Ok Ready)
| admit_queued r' :
    lane_id r' = lane_id r → request_id r' = request_id r → owner_id r' = owner_id r →
    length (queued s) < max_global_queue (config s) →
    owner_queued_count s (owner_id r') < max_owner_queue (config s) →
    active s !! lane_id r' = None → lane_id r' ∉ lane_id <$> queued s →
    request_id r' ∉ request_id <$> ((map_to_list (active s)).*2 ++ queued s) →
    enqueued_at_ms r' = now →
    admit_outcome s now r (push_queued s r') (Ok (Queued r')).

Lemma ensure_queue_capacity_ok s r :
  ensure_queue_capacity s r = Ok () →
  length (queued s) < max_global_queue (config s) ∧
  owner_queued_count s (owner_id r) < max_owner_queue (config s).
Proof.
  unfold ensure_queue_capacity. case_bool_decide; [done|]. case_bool_decide; [done|]. lia.
Qed.

Lemma admit_request_outcome s now r imm reason :
  admit_outcome s now r (admit_request_with_policy s now r imm reason).1
    (admit_request_with_policy s now r imm reason).2.
Proof.
  unfold admit_request_with_policy.
  destruct (validate_request r) as [[]|]; [|constructor].
  destruct (active s !! lane_id r) eqn:Ha; [constructor|].
  destruct (list_find _ _) as [[??]|] eqn:Hf; [constructor|].
  apply list_find_lane_None in Hf. case_bool_decide as Hr; [constructor|].
  rewrite Exists_exists in Hr.
  assert (request_id r ∉ request_id <$> ((map_to_list (active s)).*2 ++ queued s)) as Hfresh.
  { intros (r'&?&?)%list_elem_of_fmap. apply Hr. eauto. }
  destruct (imm && _ && _) eqn:Himm.
  - rewrite !andb_true_iff, !bool_decide_eq_true in Himm. destruct Himm as [[_ ?] ?].
    by constructor.
  - destruct (ensure_queue_capacity _ _) as [[]|] eqn:Hcap; [|constructor].
    apply ensure_queue_capacity_ok in Hcap as [??]. by constructor.
Qed.

Lemma admit_wf s now r imm reason :
  wf s → wf (admit_request_with_policy s now r imm reason).1.
Proof.
  intros [Hr Hc]. destruct (admit_request_outcome s now r imm reason); [done| |].
  - split; [by destruct Hr|]. simpl in *. apply core_insert; auto.
    by replace (queued s) with (@nil QueueRequest); apply not_elem_of_nil.
  - split; [by apply push_queued_ring_ok|].
    destruct (push_queued_fields s r') as (_&->&->). by apply core_push.
Qed.

Lemma release_wf s lane : wf s → wf (release_without_promotion s lane).1.
Proof. intros [Hr Hc]. split; [by destruct Hr|by apply core_delete_active]. Qed.

Lemma cancel_outcome s lane :
  (cancel_lane s lane = (s, None) ∧ ∀ r, r ∈ queued s → lane_id r ≠ lane) ∨
  ∃ i r, queued s !! i = Some r ∧ lane_id r = lane ∧
    cancel_lane s lane = (prune_owner_ring (set_queued s (delete i (queued s))), Some r).
Proof.
  unfold cancel_lane. destruct (list_find _ _) as [[i r]|] eqn:E.
  - apply list_find_Some in E as (?&?&_). right. eauto.
  - left. split; [done|]. apply list_find_None in E. by rewrite Forall_forall in E.
Qed.

(** Removing a queued request and pruning restores the ring invariant. *)
Lemma remove_prune_ring_ok s i :
  ring_ok s → ring_ok (prune_owner_ring (set_queued s (delete i (queued s)))).
Proof.
  intros Hok. apply prune_ring_ok. eapply ring_pre_sub; [by apply ring_ok_pre|done..|].
  intros r. apply elem_of_delete.
Qed.

Lemma cancel_wf s lane : wf s → wf (cancel_lane s lane).1.
Proof.
  intros [Hr Hc]. destruct (cancel_outcome s lane) as [[-> _]|(i&r&Hi&_&->)]; [done|].
  split; [by apply remove_prune_ring_ok|]. by eapply core_delete_queued.
Qed.

(** ** Promotion *)

Definition refreshed (s : SchedulerState) (pol : PromotionPolicy) : SchedulerState :=
  set_queued s (refresh_reason pol <$> queued s).

Lemma refreshed_ring_ok s pol : ring_ok s → ring_ok (refreshed s pol).
Proof.
  intros [Hnd Ho Hc Hs]. split; [done| |by intros []; [apply (Hc First)|apply (Hc Expansion)]|done].
  intros o. simpl. rewrite Ho. setoid_rewrite list_elem_of_fmap. split.
  - intros (r&Hr&<-). exists (refresh_reason pol r). eauto.
  - intros (r&(r'&->&?)&<-). eauto.
Qed.

Lemma refreshed_wf s pol : wf s → wf (refreshed s pol).
Proof. intros [Hr Hc]. split; [by apply refreshed_ring_ok|by apply core_map]. Qed.

(** Promotion never panics; it either leaves every request where it is, at
    full capacity or with nothing admitted, or moves the selected request. *)
Inductive promote_outcome (s : SchedulerState) (now : N) (pol : PromotionPolicy) :
    SchedulerState → option QueueRequest → Prop :=
| promote_none :
    (max_open_lanes (config s) ≤ size (active s) ∨ ∀ r, r ∈ queued s → ¬ admits pol r) →
    promote_outcome s now pol (refreshed s pol) None
| promote_some i r s1 :
    size (active s) < max_open_lanes (config s) →
    select_next_index_with_policy (refreshed s pol) now pol = Some (i, s1) →
    queued (refreshed s pol) !! i = Some r → admits pol r →
    promote_outcome s now pol
      (prune_owner_ring (set_active (set_queued s1 (delete i (queued s1)))
                           (<[lane_id r := r]> (active s1)))) (Some r).

Lemma admits_refresh pol r : admits pol (refresh_reason pol r) = admits pol r.
Proof. done. Qed.

Lemma promote_one_locked_outcome s now pol :
  ring_ok s →
  ∃ s' o, promote_one_locked s now pol = Some (s', o) ∧ promote_outcome s now pol s' o.
Proof.
  intros Hok. unfold promote_one_locked. fold (refreshed s pol).
  case_bool_decide as Hcap; [eexists _, _; split; [done|]; constructor; auto|].
  destruct (select_next_index_with_policy _ _ _) as [[i s1]|] eqn:Hsel.
  - pose proof (select_next_frame _ _ _ _ _ Hsel) as (Hc1&Ha1&Hq1&_).
    destruct (select_next_lookup _ _ _ _ _ Hsel) as (r&Hr&Hadm).
    assert (queued s1 !! i = Some r) as -> by by rewrite Hq1.
    eexists _, _. split; [|apply (promote_some s now pol i r s1); simpl in Hcap; auto with lia].
    done.
  - eexists _, _. split; [done|]. constructor. right. intros r Hr.
    rewrite select_next_None in Hsel by by apply refreshed_ring_ok.
    rewrite <-admits_refresh. apply Hsel. simpl. by apply list_elem_of_fmap_2.
Qed.

Lemma promote_outcome_wf s now pol s' o : promote_outcome s now pol s' o → wf s → wf s'.
Proof.
  intros Hout Hwf. destruct Hout as [|i r s1 Hcap Hsel Hr Hadm]; [by apply refreshed_wf|].
  pose proof (select_next_frame _ _ _ _ _ Hsel) as (Hc1&Ha1&Hq1&_).
  destruct (refreshed_wf _ pol Hwf) as [Hring Hcore].
  pose proof (select_next_ring_ok _ _ _ _ _ Hring Hsel) as Hring1. split.
  - apply prune_ring_ok. eapply ring_pre_sub; [by apply ring_ok_pre|done..|].
    intros x. apply elem_of_delete.
  - simpl. rewrite Ha1, Hq1. by apply core_promote.
Qed.

Lemma set_policy_wf s pol : wf s → wf (set_policy s pol).
Proof. intros [[] Hc]. split; [split; auto|done]. Qed.
Lemma set_config_wf s c : wf s → wf (set_config s c).
Proof. intros [[] Hc]. split; [split; auto|done]. Qed.

Lemma promote_outcome_frame s now pol s' o :
  promote_outcome s now pol s' o → config s' = config s.
Proof.
  intros [|i r s1 Hcap Hsel Hr Hadm]; [done|].
  by destruct (select_next_frame _ _ _ _ _ Hsel) as (?&_).
Qed.

Lemma step_wf ev s s' : step ev s s' → wf s → wf s'.
Proof.
  intros [?? r imm reason|? lane|s0 s1' now pol o H|? lane| |] Hwf;
    [by apply admit_wf|by apply release_wf| |by apply cancel_wf|by apply set_config_wf..].
  - unfold promote_one_with_policy in H.
    destruct (promote_one_locked_outcome (set_policy s0 pol) now pol) as (s2&o2&H1&Hout);
      [by apply wf_ring, set_policy_wf|].
    rewrite H1 in H. simplify_eq. eapply promote_outcome_wf; [done|by apply set_policy_wf].
Qed.

Lemma any_step_wf s s' : any_step s s' → wf s → wf s'.
Proof. intros [ev ?]. by eapply step_wf. Qed.

(** ** Draining for the queue metadata *)

Lemma drain_one_spec s now pol :
  ring_ok s →
  (drain_one s now pol = None ∧ ∀ r, r ∈ queued s → ¬ admits pol r) ∨
  ∃ r i s', drain_one s now pol = Some (Some r, s') ∧ queued s !! i = Some r ∧
    admits pol r ∧ queued s' = delete i (queued s) ∧ ring_ok (prune_owner_ring s').
Proof.
  intros Hok. unfold drain_one.
  destruct (select_next_index_with_policy s now pol) as [[i s1]|] eqn:E; [right|left].
  - destruct (select_next_lookup _ _ _ _ _ E) as (r&Hr&Hadm).
    pose proof (select_next_frame _ _ _ _ _ E) as (_&_&Hq&_).
    exists r, i, (set_queued s1 (delete i (queued s1))). rewrite Hq, Hr.
    split_and!; [done..|]. rewrite <-Hq. apply remove_prune_ring_ok.
    by eapply select_next_ring_ok.
  - split; [done|]. by rewrite select_next_None in E.
Qed.

Lemma length_delete_S {A} (l : list A) i x :
  l !! i = Some x → length l = S (length (delete i l)).
Proof. intros H. by rewrite (delete_Permutation l i x H) at 1. Qed.

(** The eligible drain stops within its fuel: at the request, or with
    nothing eligible left and the request still queued. *)
Lemma drain_eligible_spec fuel s now pol rid pos :
  ring_ok s → length (queued s) ≤ fuel →
  rid ∈ request_id <$> queued s →
  (∃ k, drain_eligible fuel s now pol rid pos = Found k ∧ pos < k ≤ pos + length (queued s)) ∨
  (∃ s' k, drain_eligible fuel s now pol rid pos = Exhausted s' k ∧ ring_ok s' ∧
     rid ∈ request_id <$> queued s' ∧ pos ≤ k ∧
     k + length (queued s') = pos + length (queued s)).
Proof.
  revert s pos. induction fuel as [|fuel IH]; intros s pos Hok Hlen Hin.
  { destruct (queued s); simpl in *; [set_solver|lia]. }
  cbn [drain_eligible].
  destruct (drain_one_spec s now pol Hok) as [[-> _]|(r&i&s'&->&Hr&_&Hq&Hok')]; [right; eauto 10|].
  pose proof (length_delete_S _ _ _ Hr) as Hl.
  case_bool_decide as Hrid; [left; eexists; split; [done|lia]|].
  assert (rid ∈ request_id <$> queued s') as Hin'.
  { rewrite Hq. rewrite (delete_Permutation _ _ _ Hr) in Hin. simpl in Hin.
    apply elem_of_cons in Hin as [->|?]; done. }
  destruct (IH (prune_owner_ring s') (pos + 1)) as [(k&->&?)|(s2&k&->&?&?&?&?)];
    [done|simpl; rewrite Hq; lia|done|left|right]; simpl in *; rewrite Hq in *.
  - eexists; split; [done|lia].
  - exists s2, k. split_and!; try done; lia.
Qed.

Lemma drain_deferred_spec fuel s now rid pos :
  ring_ok s → length (queued s) ≤ fuel → rid ∈ request_id <$> queued s →
  ∃ k, drain_deferred fuel s now rid pos = Found k ∧ pos < k ≤ pos + length (queued s).
Proof.
  revert s pos. induction fuel as [|fuel IH]; intros s pos Hok Hlen Hin.
  { destruct (queued s); simpl in *; [set_solver|lia]. }
  cbn [drain_deferred]. destruct (queued s) as [|r0 q] eqn:Eq; [set_solver|]. rewrite <-Eq in *.
  destruct (drain_one_spec s now allow_all Hok) as [[-> Hnone]|(r&i&s'&->&Hr&_&Hq&Hok')].
  { exfalso. apply (Hnone r0); [rewrite Eq; left|]. unfold admits. by destruct (first_lane r0). }
  pose proof (length_delete_S _ _ _ Hr) as Hl.
  case_bool_decide as Hrid; [eexists; split; [done|lia]|].
  destruct (IH (prune_owner_ring s') (pos + 1)) as (k&->&?);
    [done|simpl; rewrite Hq; lia| |eexists; split; [done|simpl in *; rewrite Hq in *; lia]].
  simpl. rewrite Hq. rewrite (delete_Permutation _ _ _ Hr) in Hin. simpl in Hin.
  apply elem_of_cons in Hin as [->|?]; done.
Qed.

Lemma queue_position_spec s rid now pol :
  ring_ok s → rid ∈ request_id <$> queued s →
  ∃ k, queue_position s rid now pol = Some k ∧ 1 ≤ k ≤ length (queued s).
Proof.
  intros Hok Hin. unfold queue_position.
  destruct (drain_eligible_spec (length (queued s)) s now pol rid 0)
    as [(k&->&?)|(s'&k&->&?&?&?&?)]; [done|lia|done|eexists; split; [done|lia]|].
  destruct (drain_deferred_spec (length (queued s)) s' now rid k) as (k'&->&?);
    [done|lia|done|]. eexists; split; [done|lia].
Qed.

Definition same_request (r1 r2 : QueueRequest) : Prop :=
  r2 = set_reason r1 (reason_code r2).

Record same_view (s1 s2 : SchedulerState) : Prop := {
  sv_aging : aging_interval_ms (config s1) = aging_interval_ms (config s2);
  sv_ring : owner_ring s1 = owner_ring s2;
  sv_slot : priority_slot s1 = priority_slot s2;
  sv_first : last_first_owner s1 = last_first_owner s2;
  sv_expansion : last_expansion_owner s1 = last_expansion_owner s2;
  sv_queued : Forall2 same_request (queued s1) (queued s2);
}.

Lemma same_view_refl s : same_view s s.
Proof. split; try done. apply Forall_Forall2_diag, Forall_forall. by intros [] _. Qed.

Lemma list_find_Forall2 {A} (P Q : A → Prop) `{!∀ x, Decision (P x), !∀ x, Decision (Q x)} R l1 l2 :
  Forall2 R l1 l2 → (∀ x y, R x y → P x ↔ Q y) →
  fst <$> list_find P l1 = fst <$> list_find Q l2.
Proof.
  intros HR HPQ. induction HR as [|x y l1 l2 Hxy _ IH]; [done|]. simpl.
  destruct (decide (P x)) as [HP|HP].
  - by rewrite (decide_True (P:=Q y)) by (by apply (HPQ _ _ Hxy)).
  - rewrite (decide_False (P:=Q y)) by (by rewrite <-(HPQ _ _ Hxy)).
    by destruct (list_find P l1) as [[]|], (list_find Q l2) as [[]|]; simplify_eq/=.
Qed.

Lemma selectable_view s1 s2 p now pol o r1 r2 :
  same_view s1 s2 → same_request r1 r2 →
  selectable s1 p now pol o r1 = selectable s2 p now pol o r2.
Proof. intros [Ha _ _ _ _ _] ->. unfold selectable. by rewrite Ha. Qed.

Lemma find_hit_view s1 s2 p now pol l :
  same_view s1 s2 → find_hit s1 p now pol l = find_hit s2 p now pol l.
Proof.
  intros Hv. induction l as [|o l IH]; [done|]. simpl.
  assert (fst <$> list_find (λ r, selectable s1 p now pol o r) (queued s1)
          = fst <$> list_find (λ r, selectable s2 p now pol o r) (queued s2)) as Heq.
  { eapply list_find_Forall2; [apply Hv|]. intros x y Hxy.
    by rewrite (selectable_view s1 s2 p now pol o x y). }
  by destruct (list_find _ (queued s1)) as [[]|], (list_find _ (queued s2)) as [[]|]; simplify_eq/=.
Qed.

Definition option_view (o1 o2 : option (nat * SchedulerState)) : Prop :=
  match o1, o2 with
  | None, None => True
  | Some (i1, s1), Some (i2, s2) => i1 = i2 ∧ same_view s1 s2
  | _, _ => False
  end.

Lemma select_owner_view s1 s2 p now pol :
  same_view s1 s2 →
  option_view (select_owner_fair_index s1 p now pol) (select_owner_fair_index s2 p now pol).
Proof.
  intros Hv. rewrite !select_owner_fair_index_hit.
  assert (last_owner s1 p = last_owner s2 p) as ->.
  { destruct p; [apply Hv|apply (sv_expansion _ _ Hv)]. }
  rewrite (sv_ring _ _ Hv), (find_hit_view s1 s2) by done.
  destruct (find_hit _ _ _ _ _) as [[i o]|]; simpl; [|done]. split; [done|].
  destruct Hv. by destruct p; split.
Qed.

Lemma scan_slots_view s1 s2 now pol offset fuel :
  same_view s1 s2 →
  option_view (scan_slots s1 now pol offset fuel) (scan_slots s2 now pol offset fuel).
Proof.
  intros Hv. revert offset. induction fuel as [|fuel IH]; intros offset; [done|].
  cbn [scan_slots]. rewrite (sv_slot _ _ Hv).
  pose proof (select_owner_view s1 s2
    (priority_for_slot ((priority_slot s2 + offset) mod PRIORITY_CYCLE_LEN)) now pol Hv) as H.
  destruct (select_owner_fair_index s1 _ _ _) as [[i1 t1]|],
    (select_owner_fair_index s2 _ _ _) as [[i2 t2]|]; try done.
  destruct H as [-> []]. by repeat split.
Qed.

Lemma select_next_view s1 s2 now pol :
  same_view s1 s2 →
  option_view (select_next_index_with_policy s1 now pol)
    (select_next_index_with_policy s2 now pol).
Proof.
  intros Hv. unfold select_next_index_with_policy.
  pose proof (sv_queued _ _ Hv) as Hq. destruct Hq; [done|]. by apply scan_slots_view.
Qed.

Lemma refreshed_view s pol : same_view s (refreshed (set_policy s pol) pol).
Proof.
  split; try done. simpl. apply Forall2_fmap_r, Forall_Forall2_diag, Forall_forall.
  intros r _. done.
Qed.

Lemma delete_view s1 s2 i :
  same_view s1 s2 →
  Forall2 same_request (delete i (queued s1)) (delete i (queued s2)).
Proof. intros Hv. apply Forall2_delete, Hv. Qed.

Lemma filter_Exists_view (l1 l2 : list QueueRequest) (ring : list string) :
  Forall2 same_request l1 l2 →
  filter (λ o, Exists (λ r, owner_id r = o) l1) ring
  = filter (λ o, Exists (λ r, owner_id r = o) l2) ring.
Proof.
  intros HF. apply list_filter_iff. intros o.
  induction HF as [|r1 r2 l1 l2 Hr HF IH]; [done|].
  rewrite !Exists_cons, IH. rewrite Hr. done.
Qed.

Lemma prune_view s1 s2 : same_view s1 s2 → same_view (prune_owner_ring s1) (prune_owner_ring s2).
Proof.
  intros [Ha Hr Hs Hf He Hq]. unfold prune_owner_ring.
  rewrite (filter_Exists_view _ _ (owner_ring s1) Hq), Hr, Hf, He.
  by split.
Qed.

(** The identifiers granted by [n] successive promotions at a fixed time and
    policy. *)
Fixpoint promotions (n : nat) (s : SchedulerState) (now : N) (pol : PromotionPolicy) :
    list string :=
  match n with
  | 0 => []
  | S n =>
      match promote_one_with_policy s now pol with
      | Some (s', Some r) => request_id r :: promotions n s' now pol
      | _ => []
      end
  end.

(** One drained request is one promotion, while capacity lasts. *)
Lemma drain_one_promote s t now pol r s' :
  ring_ok s → ring_ok t → same_view s t → size (active t) < max_open_lanes (config t) →
  drain_one s now pol = Some (Some r, s') →
  ∃ t' r', promote_one_with_policy t now pol = Some (t', Some r') ∧ same_request r r' ∧
    same_view (prune_owner_ring s') t' ∧ config t' = config t ∧
    size (active t') ≤ S (size (active t)).
Proof.
  intros Hs Ht Hv Hcap Hdr. unfold drain_one in Hdr.
  destruct (select_next_index_with_policy s now pol) as [[i s1]|] eqn:E; [|done].
  injection Hdr as Hi <-.
  assert (same_view s (refreshed (set_policy t pol) pol)) as Hv'.
  { destruct (refreshed_view t pol) as [? ? ? ? ? Hq], Hv as [? ? ? ? ? Hq0].
    split; try congruence. simpl. apply Forall2_fmap_r.
    eapply Forall2_impl; [exact Hq0|]. by intros ?? ->. }
  pose proof (select_next_view _ _ now pol Hv') as Hsel. rewrite E in Hsel.
  destruct (select_next_index_with_policy (refreshed _ _) now pol) as [[j t1]|] eqn:E2; [|done].
  destruct Hsel as [<- Hv1].
  pose proof (select_next_frame _ _ _ _ _ E2) as (Hc&Ha&_).
  destruct (Forall2_lookup_l _ _ _ _ _ (sv_queued _ _ Hv1) Hi) as (r'&Hr'&Hrr).
  unfold promote_one_with_policy, promote_one_locked. fold (refreshed (set_policy t pol) pol).
  rewrite bool_decide_eq_false_2 by (simpl; lia). rewrite E2, Hr'.
  eexists _, r'. split_and!; [done|done| |by simpl; rewrite Hc|].
  - apply prune_view. destruct Hv1 as [? ? ? ? ? Hq1]. split; try done. simpl.
    by apply Forall2_delete.
  - simpl. rewrite Ha. simpl. rewrite map_size_insert. case_match; cbn; lia.
Qed.

Lemma promotions_found fuel s t now pol rid pos k :
  ring_ok s → wf t → same_view s t →
  size (active t) + length (queued s) ≤ max_open_lanes (config t) →
  drain_eligible fuel s now pol rid pos = Found k →
  promotions (k - pos) t now pol !! (k - pos - 1) = Some rid ∧ pos < k.
Proof.
  revert s t pos. induction fuel as [|fuel IH]; intros s t pos Hs Ht Hv Hcap Hd;
    cbn [drain_eligible] in Hd;
    (destruct (drain_one_spec s now pol Hs) as [[Hn _]|(r&i&s'&Hr&Hi&_&Hq&Hok)];
      [by rewrite Hn in Hd|]);
    rewrite Hr in Hd; pose proof (length_delete_S _ _ _ Hi) as Hl;
    destruct (drain_one_promote s t now pol r s') as (t'&r'&Hp&Hrr&Hv'&Hc&Ha);
      eauto using wf_ring; try lia;
    case_bool_decide as Hrid; simplify_eq.
  - replace (pos + 1 - pos) with 1 by lia. simpl. rewrite Hp. simpl. rewrite Hrr. split; [done|lia].
  - replace (pos + 1 - pos) with 1 by lia. simpl. rewrite Hp. simpl. rewrite Hrr. split; [done|lia].
  - assert (wf t') as Ht' by (eapply (step_wf EvPromote); [by econstructor|done]).
    destruct (IH (prune_owner_ring s') t' (pos + 1)) as [Hl' Hk]; [done|done|done| |done|].
    { simpl. rewrite Hq, Hc. lia. }
    split; [|lia]. replace (k - pos) with (S (k - (pos + 1))) by lia.
    cbn [promotions]. rewrite Hp.
    replace (S (k - (pos + 1)) - 1) with (S (k - (pos + 1) - 1)) by lia. done.
Qed.

(** What is left when the eligible drain is exhausted is not eligible. *)
Lemma drain_eligible_rest fuel s now pol rid pos s' k :
  ring_ok s → drain_eligible fuel s now pol rid pos = Exhausted s' k →
  ∀ r, r ∈ queued s' → r ∈ queued s ∧ ¬ admits pol r.
Proof.
  revert s pos. induction fuel as [|fuel IH]; intros s pos Hs Hd;
    cbn [drain_eligible] in Hd;
    destruct (drain_one_spec s now pol Hs) as [[Hn Hna]|(r&i&s1&Hr&Hi&_&Hq&Hok)].
  1,3: rewrite Hn in Hd; simplify_eq; eauto.
  - rewrite Hr in Hd. by case_bool_decide.
  - rewrite Hr in Hd. case_bool_decide; [done|]. intros r0 Hr0.
    destruct (IH _ _ Hok Hd r0 Hr0) as [Hin ?]. split; [|done].
    simpl in Hin. rewrite Hq in Hin. by eapply elem_of_delete.
Qed.
