(* ===== verification/LaneTheorems.v ===== *)
(** The properties of the browser lane scheduler. *)
From S2P Require Import Prelude BrowserTypes LaneScheduler LaneInvariant LaneSafety.

(** ** A concrete scheduler for the witnesses *)

Definition demo_limits (n : nat) (s : SchedulerState) : SchedulerState :=
  update_policy_limits_without_promotion s n 256 32 4.
Definition demo_admit (at_ms : N) (rid owner : string) (p : LanePriority)
    (s : SchedulerState) : SchedulerState :=
  (admit_lane s at_ms rid owner rid p false "").1.
(** Three queued owners: [A] with two first lanes and an expansion, [B] and
    [C] with one first lane each. *)
Definition demo_state : SchedulerState :=
  demo_admit 5 "a3" "A" Expansion (demo_admit 4 "c1" "C" First (demo_admit 3 "b1" "B" First
    (demo_admit 2 "a2" "A" First (demo_admit 1 "a1" "A" First
      (scheduler_new default_config))))).

Lemma demo_admit_step at_ms rid owner p s : any_step s (demo_admit at_ms rid owner p s).
Proof. eexists. apply step_admit. Qed.
Lemma demo_limits_step n s : any_step s (demo_limits n s).
Proof. eexists. apply step_limits. Qed.
Lemma demo_reachable : reachable default_config demo_state.
Proof. do 5 (eapply rtc_r; [|apply demo_admit_step]). apply rtc_refl. Qed.

Lemma reachable_is_wf c s : reachable c s → wf s.
Proof.
  intros H. pose proof (scheduler_new_wf c) as Hw. revert Hw.
  induction H as [|s1 s2 s3 H12 _ IH]; [done|]. intros Hw. by eapply IH, any_step_wf.
Qed.
Lemma demo_wf : wf demo_state.
Proof. exact (reachable_is_wf _ _ demo_reachable). Qed.

(** ** Invariant *)

(** C1. In every state the scheduler can reach, a lane holds at most one
    permit or queue entry (never both), request identifiers are unique, and the
    owner ring lists exactly the owners with queued work, once each, with both
    round-robin cursors inside it. *)
Theorem lane_reachable_invariant c s :
  reachable c s →
  NoDup (lane_id <$> queued s) ∧
  (∀ r, r ∈ queued s → active s !! lane_id r = None) ∧
  (∀ l r, active s !! l = Some r → lane_id r = l) ∧
  NoDup (request_id <$> ((map_to_list (active s)).*2 ++ queued s)) ∧
  NoDup (owner_ring s) ∧
  (∀ o, o ∈ owner_ring s ↔ ∃ r, r ∈ queued s ∧ owner_id r = o) ∧
  (∀ p o, last_owner s p = Some o → o ∈ owner_ring s).
Proof. intros [[] []]%reachable_is_wf. by split_and!. Qed.

Lemma lane_reachable_invariant_witness :
  reachable default_config demo_state ∧ NoDup (lane_id <$> queued demo_state).
Proof.
  split; [apply demo_reachable|].
  apply (lane_reachable_invariant default_config demo_state demo_reachable).
Defined.

(** ** Bounds *)

Definition within_limits (s : SchedulerState) : Prop :=
  size (active s) ≤ max_open_lanes (config s) ∧
  length (queued s) ≤ max_global_queue (config s) ∧
  ∀ o, owner_queued_count s o ≤ max_owner_queue (config s).

Lemma owner_queued_count_app s o q r :
  owner_queued_count (set_queued s (q ++ [r])) o
  = owner_queued_count (set_queued s q) o + (if decide (owner_id r = o) then 1 else 0).
Proof.
  unfold owner_queued_count. simpl. rewrite filter_app, length_app. f_equal.
  rewrite filter_cons. by case_decide.
Qed.

Lemma filter_delete_le {A} (P : A → Prop) `{!∀ x, Decision (P x)} i (l : list A) :
  length (filter P (delete i l)) ≤ length (filter P l).
Proof.
  destruct (l !! i) as [x|] eqn:E.
  - rewrite (delete_Permutation l i x E) at 2. rewrite filter_cons. case_decide; simpl; lia.
  - rewrite delete_take_drop, filter_app, length_app. apply lookup_ge_None in E.
    rewrite take_ge, (drop_ge _ (S i)) by lia. simpl. lia.
Qed.

Lemma length_filter_refresh pol o (q : list QueueRequest) :
  length (filter (λ r, owner_id r = o) (refresh_reason pol <$> q))
  = length (filter (λ r, owner_id r = o) q).
Proof.
  induction q as [|r q IH]; [done|]. rewrite fmap_cons, !filter_cons.
  change (owner_id (refresh_reason pol r)) with (owner_id r). case_decide; simpl; lia.
Qed.

Lemma promote_outcome_limits s now pol s' o :
  promote_outcome s now pol s' o → within_limits s → within_limits s'.
Proof.
  intros Hout (Ha&Hg&Ho). pose proof (promote_outcome_frame _ _ _ _ _ Hout) as Hc.
  unfold within_limits. rewrite Hc. destruct Hout as [|i r s1 Hcap Hsel Hr Hadm].
  - split_and!; [done|simpl; by rewrite length_fmap|]. intros o. etransitivity; [|apply (Ho o)].
    unfold owner_queued_count. simpl. by rewrite length_filter_refresh.
  - pose proof (select_next_frame _ _ _ _ _ Hsel) as (_&Ha1&Hq1&_).
    rewrite <-Hq1 in Hr. split_and!; simpl.
    + rewrite Ha1. simpl. rewrite map_size_insert. case_match; cbn; lia.
    + pose proof (length_delete_S _ _ _ Hr) as Hl. rewrite Hq1 in Hl at 1. simpl in Hl.
      rewrite length_fmap in Hl. lia.
    + intros o. etransitivity; [|apply (Ho o)]. unfold owner_queued_count. simpl.
      etransitivity; [apply filter_delete_le|]. rewrite Hq1. simpl.
      by rewrite length_filter_refresh.
Qed.

Lemma admit_outcome_limits s now r s' res :
  admit_outcome s now r s' res → within_limits s → within_limits s'.
Proof.
  intros Hout (Ha&Hg&Ho). destruct Hout as [|r' ??? ? Hcap|r' ??? Hgq Hoq]; [done| |].
  - split_and!; [|done|done]. simpl. rewrite map_size_insert. case_match; cbn; lia.
  - destruct (push_queued_fields s r') as (Hc&Hac&Hqu). unfold within_limits.
    rewrite Hc, Hac, Hqu, length_app. split_and!; [done|simpl; lia|]. intros o.
    assert (owner_queued_count (push_queued s r') o
            = owner_queued_count (set_queued s (queued s ++ [r'])) o) as ->
      by (unfold owner_queued_count; by rewrite Hqu).
    rewrite owner_queued_count_app. pose proof (Ho o) as Ho'.
    change (owner_queued_count (set_queued s (queued s)) o) with (owner_queued_count s o).
    case_decide as Heq; [rewrite <-Heq in *; lia|lia].
Qed.

Lemma fixed_step_limits s s' : wf s → fixed_step s s' → within_limits s → within_limits s'.
Proof.
  intros Hwf (ev&Hev&Hst) Hl.
  destruct Hst as [s now r imm reason|s lane|s s' now pol o H|s lane| |]; [..|done|done].
  - eapply admit_outcome_limits, Hl. apply admit_request_outcome.
  - destruct Hl as (Ha&?&?). split_and!; [|done|done]. simpl.
    etransitivity; [|exact Ha]. rewrite map_size_delete. case_match; cbn; lia.
  - destruct (promote_one_locked_outcome (set_policy s pol) now pol) as (s2&o2&H1&Hout);
      [by apply wf_ring, set_policy_wf|].
    unfold promote_one_with_policy in H. rewrite H1 in H. simplify_eq.
    eapply promote_outcome_limits; [exact Hout|exact Hl].
  - destruct (cancel_outcome s lane) as [[-> _]|(i&r&Hi&_&->)]; [done|].
    destruct Hl as (?&Hg&Ho). pose proof (length_delete_S _ _ _ Hi). split_and!; simpl;
      [done|lia|]. intros o. etransitivity; [apply filter_delete_le|apply (Ho o)].
Qed.

(** C2. While the limits are not changed, the number of active lanes never
    exceeds [max_open_lanes], the queue never exceeds [max_global_queue], and no
    owner holds more than [max_owner_queue] queue entries. *)
Theorem lane_limits_respected c s :
  rtc fixed_step (scheduler_new c) s →
  size (active s) ≤ max_open_lanes (config s) ∧
  length (queued s) ≤ max_global_queue (config s) ∧
  ∀ o, owner_queued_count s o ≤ max_owner_queue (config s).
Proof.
  intros H. assert (within_limits (scheduler_new c)) as Hl
    by (split_and!; [simpl; rewrite map_size_empty; lia|simpl; lia|intros o; cbn; lia]).
  pose proof (scheduler_new_wf c) as Hw. revert Hw Hl.
  induction H as [s|s1 s2 s3 H12 _ IH]; [done|]. intros Hw Hl. apply IH.
  - destruct H12 as (ev&_&?). by eapply step_wf.
  - by eapply fixed_step_limits.
Qed.

Lemma lane_limits_respected_witness :
  rtc fixed_step (scheduler_new default_config) demo_state ∧
  length (queued demo_state) ≤ max_global_queue (config demo_state).
Proof.
  assert (rtc fixed_step (scheduler_new default_config) demo_state) as H.
  { do 5 (eapply rtc_r; [|exists EvAdmit; split; [done|apply step_admit]]). apply rtc_refl. }
  split; [exact H|]. destruct (lane_limits_respected _ _ H) as (_&Hq&_). exact Hq.
Defined.

(** ** Refinement of the permit machine *)

(** The contract the session hub relies on: permits are granted up to a
    limit, lanes wait, and a waiting lane is promoted or cancelled. *)
Record PermitState := mkPermit {
  granted : gset string;
  waiting : gset string;
  limit : nat;
}.

Inductive permit_step : PermitState → PermitState → Prop :=
| ps_stutter a : permit_step a a
| ps_grant a l : l ∉ granted a → l ∉ waiting a → size (granted a) < limit a →
    permit_step a (mkPermit ({[l]} ∪ granted a) (waiting a) (limit a))
| ps_wait a l : l ∉ granted a → l ∉ waiting a →
    permit_step a (mkPermit (granted a) ({[l]} ∪ waiting a) (limit a))
| ps_promote a l : l ∈ waiting a → size (granted a) < limit a →
    permit_step a (mkPermit ({[l]} ∪ granted a) (waiting a ∖ {[l]}) (limit a))
| ps_release a l : permit_step a (mkPermit (granted a ∖ {[l]}) (waiting a) (limit a))
| ps_cancel a l : l ∈ waiting a →
    permit_step a (mkPermit (granted a) (waiting a ∖ {[l]}) (limit a))
| ps_limit a n : permit_step a (mkPermit (granted a) (waiting a) n).

Definition abs (s : SchedulerState) : PermitState :=
  mkPermit (dom (active s)) (list_to_set (lane_id <$> queued s)) (max_open_lanes (config s)).

Lemma lanes_delete (q : list QueueRequest) i r :
  NoDup (lane_id <$> q) → q !! i = Some r →
  (list_to_set (lane_id <$> delete i q) : gset string)
  = list_to_set (lane_id <$> q) ∖ {[lane_id r]}.
Proof.
  intros Hnd Hi. pose proof (delete_Permutation q i r Hi) as Hp.
  assert (Hp' := Hp). apply (fmap_Permutation lane_id) in Hp'. simpl in Hp'.
  rewrite Hp' in Hnd. apply NoDup_cons in Hnd as [Hnin _].
  apply set_eq. intros x. rewrite elem_of_difference, !elem_of_list_to_set, Hp'. set_solver.
Qed.

Lemma abs_queue_lanes s (q : list QueueRequest) :
  lane_id <$> q = lane_id <$> queued s →
  abs (set_queued s q) = abs s.
Proof. intros Hq. unfold abs. simpl. by rewrite Hq. Qed.

Lemma refreshed_lanes pol (q : list QueueRequest) :
  lane_id <$> (refresh_reason pol <$> q) = lane_id <$> q.
Proof. by rewrite <-list_fmap_compose. Qed.

Lemma promote_outcome_abs s now pol s' o :
  wf s → promote_outcome s now pol s' o → permit_step (abs s) (abs s').
Proof.
  intros Hwf [|i r s1 Hcap Hsel Hr Hadm].
  - unfold refreshed. rewrite abs_queue_lanes by apply refreshed_lanes. constructor.
  - pose proof (select_next_frame _ _ _ _ _ Hsel) as (Hc1&Ha1&Hq1&_).
    destruct (refreshed_wf _ pol Hwf) as [_ Hcore].
    assert (lane_id r ∈ (list_to_set (lane_id <$> queued s) : gset string)) as Hin.
    { rewrite elem_of_list_to_set, <-(refreshed_lanes pol).
      apply list_elem_of_fmap_2. by eapply list_elem_of_lookup_2. }
    pose proof (ps_promote (abs s) (lane_id r) Hin) as Hstep. unfold abs in *. simpl in *.
    rewrite Hc1, Ha1, Hq1, dom_insert_L. simpl.
    rewrite (lanes_delete _ i r (core_lanes _ _ Hcore) Hr). simpl.
    rewrite refreshed_lanes. apply Hstep. by rewrite size_dom.
Qed.

Lemma admit_outcome_abs s now r s' res :
  admit_outcome s now r s' res → permit_step (abs s) (abs s').
Proof.
  intros [|r' ??? Hq Hcap Hna _|r' ??? ?? Hna Hnq _ _]; [constructor| |].
  - unfold abs. simpl. rewrite dom_insert_L.
    apply (ps_grant (abs s)); simpl; [by rewrite not_elem_of_dom|rewrite Hq; set_solver|].
    by rewrite size_dom.
  - destruct (push_queued_fields s r') as (Hc&Ha&Hqu).
    assert (abs (push_queued s r') = mkPermit (granted (abs s))
              ({[lane_id r']} ∪ waiting (abs s)) (limit (abs s))) as ->.
    { unfold abs. rewrite Hc, Ha, Hqu. simpl. f_equal.
      rewrite fmap_app, list_to_set_app_L. set_solver. }
    apply ps_wait; simpl; [by rewrite not_elem_of_dom|by rewrite elem_of_list_to_set].
Qed.

(** C3. The scheduler implements the permit machine: every call on a
    reachable state (admission, release, promotion, cancellation, a change of
    limits) is one abstract step or leaves the abstract state alone; in
    particular a permit is only granted below the limit, and only to a lane
    that holds none. *)
Theorem lane_scheduler_refines_permits c s ev s' :
  reachable c s → step ev s s' → permit_step (abs s) (abs s').
Proof.
  intros Hwf%reachable_is_wf Hst.
  destruct Hst as [s now r imm reason|s lane|s s' now pol o H|s lane| |];
    [| | | |apply ps_limit|apply ps_stutter].
  - eapply admit_outcome_abs, admit_request_outcome.
  - unfold abs. simpl. rewrite dom_delete_L. apply (ps_release (abs s)).
  - destruct (promote_one_locked_outcome (set_policy s pol) now pol) as (s2&o2&H1&Hout);
      [by apply wf_ring, set_policy_wf|].
    unfold promote_one_with_policy in H. rewrite H1 in H. simplify_eq.
    apply (promote_outcome_abs (set_policy s pol) now pol s' o); [by apply set_policy_wf|done].
  - destruct (cancel_outcome s lane) as [[-> _]|(i&r&Hi&<-&->)]; [constructor|].
    unfold abs. simpl. rewrite (lanes_delete _ _ _ (core_lanes _ _ (wf_core _ Hwf)) Hi).
    apply (ps_cancel (abs s)). simpl.
    rewrite elem_of_list_to_set. apply list_elem_of_fmap_2. by eapply list_elem_of_lookup_2.
Qed.

Lemma lane_scheduler_refines_permits_witness :
  reachable default_config demo_state ∧
  permit_step (abs demo_state) (abs (cancel_lane demo_state "b1").1).
Proof.
  split; [apply demo_reachable|].
  apply (lane_scheduler_refines_permits default_config demo_state EvCancel);
    [apply demo_reachable|apply step_cancel].
Defined.

(** ** Promotion *)

(** Promotion never panics and is work conserving: it promotes a lane
    exactly when there is capacity and the policy admits some queued request,
    whatever the slot, the aging and the cursors. *)
Theorem lane_promotion_work_conserving c s now pol :
  reachable c s →
  ∃ s' o, promote_one_with_policy s now pol = Some (s', o) ∧
    (is_Some o ↔
       size (active s) < max_open_lanes (config s) ∧ ∃ r, r ∈ queued s ∧ admits pol r).
Proof.
  intros Hwf%reachable_is_wf.
  destruct (promote_one_locked_outcome (set_policy s pol) now pol) as (s'&o&H1&Hout);
    [by apply wf_ring, set_policy_wf|].
  exists s', o. split; [done|]. destruct Hout as [Hno|i r s1 Hcap Hsel Hr Hadm].
  - split; [by intros []|]. intros (Hlt&r&Hr&Ha). exfalso.
    destruct Hno as [Hge|Hno]; [simpl in Hge; lia|]. by eapply Hno.
  - split; [|done]. intros _. split; [done|].
    simpl in Hr. rewrite list_lookup_fmap in Hr. apply fmap_Some in Hr as (r0&Hr0&->).
    exists r0. split; [by eapply list_elem_of_lookup_2|done].
Qed.

Lemma lane_promotion_work_conserving_witness :
  reachable default_config demo_state ∧
  ∃ s' o, promote_one_with_policy demo_state 10 allow_all = Some (s', o) ∧
    (is_Some o ↔ size (active demo_state) < max_open_lanes (config demo_state) ∧
       ∃ r, r ∈ queued demo_state ∧ admits allow_all r).
Proof.
  split; [apply demo_reachable|].
  apply (lane_promotion_work_conserving default_config), demo_reachable.
Defined.

(** Whether a class has an eligible request right now. *)
Definition class_backlogged (s : SchedulerState) (p : LanePriority) (now : N)
    (pol : PromotionPolicy) : bool :=
  match select_owner_fair_index s p now pol with Some _ => true | None => false end.

(** The class whose slot the last promotion used: the slot before
    [priority_slot]. *)
Definition served_class (s : SchedulerState) : LanePriority :=
  priority_for_slot ((priority_slot s + 4) mod PRIORITY_CYCLE_LEN).

Lemma refreshed_policy_view s pol :
  same_view (refreshed (set_policy s pol) pol) (refreshed s pol).
Proof.
  split; try done. simpl. apply Forall_Forall2_diag, Forall_forall. by intros [] _.
Qed.

Lemma served_class_slot s slot :
  slot < PRIORITY_CYCLE_LEN → priority_slot s = (slot + 1) mod PRIORITY_CYCLE_LEN →
  served_class s = priority_for_slot slot.
Proof.
  unfold served_class. intros Hs ->. revert Hs.
  unfold PRIORITY_CYCLE_LEN, FIRST_LANE_WEIGHT, EXPANSION_LANE_WEIGHT. simpl.
  intros Hs. do 5 (destruct slot as [|slot]; [done|]). lia.
Qed.

(** The request [r] is the fair choice of class [p]: the oldest selectable
    request of its owner, which is the first owner of the rotation with one. *)
Definition fair_choice (s : SchedulerState) (now : N) (pol : PromotionPolicy)
    (p : LanePriority) (r : QueueRequest) : Prop :=
  ∃ i r0, queued s !! i = Some r0 ∧ r = refresh_reason pol r0 ∧
    selectable s p now pol (owner_id r0) r0 ∧
    (∀ j r', queued s !! j = Some r' → j < i → ¬ selectable s p now pol (owner_id r0) r') ∧
    ∃ before after, rotation (last_owner s p) (owner_ring s) = before ++ owner_id r0 :: after ∧
      ∀ o r', o ∈ before → r' ∈ queued s → ¬ selectable s p now pol o r'.

Lemma fair_choice_refreshed s now pol i p r :
  let t := refreshed (set_policy s pol) pol in
  fair_pick t p now pol i r → fair_choice s now pol p r.
Proof.
  intros t (Hr&Hs&Hmin&b&a&Hrot&Hb). simpl in Hr. rewrite list_lookup_fmap in Hr.
  apply fmap_Some in Hr as (r0&Hr0&->). exists i, r0. split_and!; [done..| |].
  - intros j r' Hj Hlt. apply (Hmin j (refresh_reason pol r')); [|done].
    simpl. by rewrite list_lookup_fmap, Hj.
  - exists b, a. split; [by destruct p|].
    intros o r' Ho Hr'. apply (Hb o (refresh_reason pol r')); [done|].
    by apply list_elem_of_fmap_2.
Qed.

(** The slot a promotion used, and why the slots before it were skipped. *)
Lemma promoted_slot s now pol s' r :
  wf s → promote_one_with_policy s now pol = Some (s', Some r) →
  ∃ k, k < PRIORITY_CYCLE_LEN ∧
    served_class s' = priority_for_slot ((priority_slot s + k) mod PRIORITY_CYCLE_LEN) ∧
    priority_slot s' = (priority_slot s + k + 1) mod PRIORITY_CYCLE_LEN ∧
    fair_choice s now pol (served_class s') r ∧
    ∀ k', k' < k →
      class_backlogged (refreshed s pol)
        (priority_for_slot ((priority_slot s + k') mod PRIORITY_CYCLE_LEN)) now pol = false.
Proof.
  intros Hwf Hp. unfold promote_one_with_policy in Hp.
  destruct (promote_one_locked_outcome (set_policy s pol) now pol) as (s2&o&H1&Hout);
    [by apply wf_ring, set_policy_wf|].
  rewrite H1 in Hp. simplify_eq. inversion Hout as [|i r' s1 Hcap Hsel Hr Hadm]; subst.
  pose proof (select_next_frame _ _ _ _ _ Hsel) as (_&_&Hq1&_).
  destruct (select_next_Some _ _ _ _ _ Hsel) as (k&r''&Hk&(Hr''&Hs&Hmin&Hrot)&Hs1&Hnone).
  rewrite Hr in Hr''. injection Hr'' as <-.
  change (priority_slot (refreshed (set_policy s pol) pol)) with (priority_slot s) in *.
  set (s' := prune_owner_ring _). exists k.
  assert (served_class s' = priority_for_slot ((priority_slot s + k) mod PRIORITY_CYCLE_LEN))
    as Hpk by (apply served_class_slot; [apply slot_lt|by subst s'; rewrite Hs1]).
  rewrite <-Hpk in Hs, Hmin, Hrot. split_and!; [done|done| | |].
  - change (priority_slot s1 = (priority_slot s + k + 1) mod PRIORITY_CYCLE_LEN).
    rewrite Hs1. cbn [set_slot priority_slot]. by rewrite Nat.Div0.add_mod_idemp_l.
  - by apply (fair_choice_refreshed s now pol i).
  - intros k' Hk'. unfold class_backlogged. specialize (Hnone k' Hk').
    pose proof (select_owner_view (refreshed (set_policy s pol) pol) (refreshed s pol)
      (priority_for_slot ((priority_slot s + k') mod PRIORITY_CYCLE_LEN)) now pol
      (refreshed_policy_view s pol)) as Hv.
    rewrite Hnone in Hv. by destruct (select_owner_fair_index (refreshed s pol) _ _ _) as [[]|].
Qed.

(** A promotion picks fairly: the promoted request is the oldest eligible
    request of its owner in the class served; every owner that the ring visits
    before it, starting after the owner that class served last, has no eligible
    request; and the class is the first one of the slot cycle with an eligible
    request. *)
Theorem lane_promotion_fair c s now pol s' r :
  reachable c s →
  promote_one_with_policy s now pol = Some (s', Some r) →
  let p := served_class s' in
  (∃ i r0, queued s !! i = Some r0 ∧ r = refresh_reason pol r0 ∧
     selectable s p now pol (owner_id r0) r0 ∧
     (∀ j r', queued s !! j = Some r' → j < i → ¬ selectable s p now pol (owner_id r0) r') ∧
     ∃ before after, rotation (last_owner s p) (owner_ring s) = before ++ owner_id r0 :: after ∧
       ∀ o r', o ∈ before → r' ∈ queued s → ¬ selectable s p now pol o r') ∧
  ∃ k, k < PRIORITY_CYCLE_LEN ∧
    p = priority_for_slot ((priority_slot s + k) mod PRIORITY_CYCLE_LEN) ∧
    priority_slot s' = (priority_slot s + k + 1) mod PRIORITY_CYCLE_LEN ∧
    ∀ k', k' < k →
      class_backlogged (refreshed s pol)
        (priority_for_slot ((priority_slot s + k') mod PRIORITY_CYCLE_LEN)) now pol = false.
Proof.
  intros Hwf%reachable_is_wf Hp p.
  destruct (promoted_slot _ _ _ _ _ Hwf Hp) as (k&?&?&?&?&?). eauto 10.
Qed.

Lemma lane_promotion_fair_witness :
  reachable default_config demo_state ∧
  ∃ s' r, promote_one_with_policy demo_state 10 allow_all = Some (s', Some r) ∧
    request_id r = "a1" ∧ served_class s' = First ∧
    ∃ k, k < PRIORITY_CYCLE_LEN ∧
      priority_slot s' = (priority_slot demo_state + k + 1) mod PRIORITY_CYCLE_LEN.
Proof.
  split; [apply demo_reachable|]. eexists _, _. split; [vm_compute; reflexivity|].
  split; [reflexivity|]. split; [reflexivity|].
  edestruct (lane_promotion_fair default_config demo_state 10 allow_all) as [_ (k&Hk&_&Hs&_)];
    [apply demo_reachable|vm_compute; reflexivity|].
  exists k. split; [exact Hk|exact Hs].
Defined.
