(* ===== verification/LaneQueries.v ===== *)
(** Properties of the lane scheduler's client-visible answers: queue
    positions, the weighted share of the two classes, idempotent admission and
    the service order after a cancellation. *)
From S2P Require Import Prelude BrowserTypes LaneScheduler LaneInvariant LaneSafety LaneTheorems.

(** ** Queue positions *)

Lemma request_unique s r r' :
  wf s → r ∈ queued s → r' ∈ queued s → request_id r = request_id r' → r = r'.
Proof.
  intros [_ [_ _ _ Hnd]] Hr Hr' Heq. rewrite fmap_app in Hnd.
  apply NoDup_app in Hnd as (_&_&Hnd).
  apply list_elem_of_lookup in Hr as [i Hi], Hr' as [j Hj].
  assert (i = j) as <-; [|congruence].
  eapply NoDup_lookup; [exact Hnd| |]; rewrite list_lookup_fmap.
  - by rewrite Hi.
  - rewrite Hj. simpl. by rewrite Heq.
Qed.

Lemma metadata_found s r now pol :
  wf s → r ∈ queued s →
  ∃ m k, queue_metadata_locked s (request_id r) now pol = Ok (Some m) ∧
    position m = k ∧ queue_position s (request_id r) now pol = Some k ∧
    1 ≤ k ≤ length (queued s) ∧ qm_reason_code m = reason_code r ∧
    global_queued m = length (queued s).
Proof.
  intros Hwf Hr. unfold queue_metadata_locked.
  destruct (list_find _ _) as [[i r']|] eqn:Hf.
  - apply list_find_Some in Hf as (Hi&Hid&_). apply list_elem_of_lookup_2 in Hi.
    assert (r' = r) as -> by eauto using request_unique.
    destruct (queue_position_spec s (request_id r) now pol) as (k&->&?);
      [by apply wf_ring|by apply list_elem_of_fmap_2|]. eexists _, k. split_and!; try done; lia.
  - exfalso. apply list_find_None in Hf. rewrite Forall_forall in Hf. by apply (Hf r).
Qed.

Lemma eligible_position_found s r now pol k :
  wf s → r ∈ queued s → admits pol r → queue_position s (request_id r) now pol = Some k →
  drain_eligible (length (queued s)) s now pol (request_id r) 0 = Found k.
Proof.
  intros Hwf Hr Ha Hk. unfold queue_position in Hk.
  destruct (drain_eligible_spec (length (queued s)) s now pol (request_id r) 0)
    as [(k'&Hd&?)|(s'&k'&Hd&_&Hin&_)];
    [by apply wf_ring|lia|by apply list_elem_of_fmap_2|rewrite Hd in Hk |- *; congruence|].
  exfalso. apply list_elem_of_fmap in Hin as (r'&Hid&Hr').
  destruct (drain_eligible_rest _ _ _ _ _ _ _ _ (wf_ring _ Hwf) Hd r' Hr') as [Hq Hna].
  apply Hna. by rewrite <-(request_unique s r r').
Qed.

(** The queue metadata simulation is total and truthful.  It never hits
    its [expect], every queued request gets a position between 1 and the queue
    length, and when the policy admits the request and the queue fits the free
    capacity, that position is the number of promotions after which the request
    is granted, in the order the real promotion grants. *)
Theorem lane_queue_position_exact c s now pol :
  reachable c s →
  (∀ rid, rid ∉ request_id <$> queued s → queue_metadata_locked s rid now pol = Ok None) ∧
  (∀ r, r ∈ queued s →
     ∃ m, queue_metadata_locked s (request_id r) now pol = Ok (Some m) ∧
       1 ≤ position m ≤ length (queued s) ∧ qm_reason_code m = reason_code r ∧
       (admits pol r → size (active s) + length (queued s) ≤ max_open_lanes (config s) →
        promotions (position m) s now pol !! (position m - 1) = Some (request_id r))).
Proof.
  intros Hwf%reachable_is_wf. split.
  - intros rid Hrid. unfold queue_metadata_locked.
    destruct (list_find _ _) as [[i r]|] eqn:Hf; [|done]. exfalso.
    apply list_find_Some in Hf as (Hi&<-&_). apply Hrid.
    by eapply list_elem_of_fmap_2, list_elem_of_lookup_2.
  - intros r Hr. destruct (metadata_found s r now pol Hwf Hr) as (m&k&->&<-&Hk&Hb&Hc&_).
    exists m. split_and!; try done; try lia. intros Ha Hcap.
    apply eligible_position_found in Hk; [|done..].
    destruct (promotions_found _ s s now pol _ _ _ (wf_ring _ Hwf) Hwf (same_view_refl s) Hcap Hk)
      as [Hp _]. by rewrite !Nat.sub_0_r in Hp.
Qed.

Definition demo_c1 : QueueRequest := mkRequest "c1" "c1" "C" true 4 DEFAULT_REASON_CODE.

Lemma lane_queue_position_exact_witness :
  reachable default_config demo_state ∧
  ∃ m, queue_metadata_locked demo_state "c1" 10 allow_all = Ok (Some m) ∧ position m = 3 ∧
    promotions 3 demo_state 10 allow_all !! 2 = Some "c1".
Proof.
  split; [apply demo_reachable|].
  destruct (lane_queue_position_exact default_config demo_state 10 allow_all demo_reachable)
    as [_ H].
  destruct (H demo_c1) as (m&Hm&_&_&Hp); [vm_compute; do 4 constructor|].
  assert (position m = 3) as Hpos.
  { assert (queue_metadata_locked demo_state "c1" 10 allow_all = Ok (Some m)) as Hm' by exact Hm.
    vm_compute in Hm'. injection Hm' as <-. reflexivity. }
  exists m. split; [exact Hm|]. split; [exact Hpos|]. rewrite Hpos in Hp.
  apply Hp; vm_compute; [exact I|lia].
Defined.

(** ** Weighted share *)

(** Consecutive promotions, each at its own time and policy, with both
    classes backlogged before each; the list records the class served. *)
Inductive backlogged_run : SchedulerState → list LanePriority → SchedulerState → Prop :=
| run_nil s : backlogged_run s [] s
| run_cons s now pol s' r l s'' :
    promote_one_with_policy s now pol = Some (s', Some r) →
    (∀ p, class_backlogged (refreshed s pol) p now pol = true) →
    backlogged_run s' l s'' → backlogged_run s (served_class s' :: l) s''.

Lemma backlogged_step s now pol s' r :
  wf s → promote_one_with_policy s now pol = Some (s', Some r) →
  (∀ p, class_backlogged (refreshed s pol) p now pol = true) →
  wf s' ∧ served_class s' = priority_for_slot (priority_slot s) ∧
  priority_slot s' = (priority_slot s + 1) mod PRIORITY_CYCLE_LEN.
Proof.
  intros Hwf Hp Hb. split; [eapply (step_wf EvPromote); [by econstructor|done]|].
  destruct (promoted_slot _ _ _ _ _ Hwf Hp) as (k&_&Hc&Hs&_&Hn).
  destruct k as [|k].
  - rewrite Nat.add_0_r, Nat.mod_small in Hc by by apply ring_slot, wf_ring.
    by rewrite Nat.add_0_r in Hs.
  - specialize (Hn 0 ltac:(lia)). by rewrite Hb in Hn.
Qed.

Lemma backlogged_classes s l s' :
  wf s → backlogged_run s l s' →
  l = (λ i, priority_for_slot ((priority_slot s + i) mod PRIORITY_CYCLE_LEN)) <$> seq 0 (length l).
Proof.
  intros Hwf Hrun. induction Hrun as [|s now pol s1 r l s2 Hp Hb _ IH]; [done|].
  destruct (backlogged_step _ _ _ _ _ Hwf Hp Hb) as (Hwf'&Hc&Hs).
  simpl length. cbn [seq]. rewrite fmap_cons. f_equal.
  - by rewrite Hc, Nat.add_0_r, Nat.mod_small by by apply ring_slot, wf_ring.
  - rewrite IH by done. rewrite length_fmap, length_seq, <-fmap_S_seq, <-list_fmap_compose.
    apply list_fmap_ext. intros i x _. unfold compose.
    rewrite Hs, Nat.Div0.add_mod_idemp_l. do 2 f_equal. lia.
Qed.

(** Weighted share: while both classes stay backlogged, every window of
    five consecutive promotions grants exactly four first lanes and one
    expansion lane, wherever in the cycle the window starts. *)
Theorem lane_weighted_share c s l s' :
  reachable c s → backlogged_run s l s' → length l = PRIORITY_CYCLE_LEN →
  length (filter (λ p, p = First) l) = FIRST_LANE_WEIGHT ∧
  length (filter (λ p, p = Expansion) l) = EXPANSION_LANE_WEIGHT.
Proof.
  intros Hwf%reachable_is_wf Hrun Hlen. rewrite (backlogged_classes _ _ _ Hwf Hrun), Hlen.
  pose proof (ring_slot _ (wf_ring _ Hwf)) as Hs.
  unfold PRIORITY_CYCLE_LEN, FIRST_LANE_WEIGHT, EXPANSION_LANE_WEIGHT in *. simpl in Hs.
  destruct (priority_slot s) as [|[|[|[|[|n]]]]]; [by vm_compute..|lia].
Qed.

Definition demo_loaded : SchedulerState :=
  demo_admit 9 "x5" "E" Expansion (demo_admit 8 "d1" "D" First
    (demo_admit 7 "b2" "B" Expansion (demo_admit 6 "c2" "C" First demo_state))).
Definition demo_promote (s : SchedulerState) : SchedulerState :=
  match promote_one_with_policy s 10 allow_all with Some (s', _) => s' | None => s end.

Lemma demo_loaded_reachable : reachable default_config demo_loaded.
Proof. do 4 (eapply rtc_r; [|apply demo_admit_step]). apply demo_reachable. Qed.

Lemma lane_weighted_share_witness :
  ∃ l s', backlogged_run demo_loaded l s' ∧ length l = 5 ∧
    length (filter (λ p, p = First) l) = 4.
Proof.
  assert (∃ l s', backlogged_run demo_loaded l s' ∧ length l = 5) as (l&s'&Hrun&Hl).
  { eexists _, _. split.
    - do 5 (eapply run_cons with (now := 10%N) (pol := allow_all);
        [vm_compute; reflexivity|by intros []; vm_compute|]).
      apply run_nil.
    - reflexivity. }
  exists l, s'. split; [exact Hrun|]. split; [exact Hl|].
  apply (lane_weighted_share default_config demo_loaded l s'); [|exact Hrun|exact Hl].
  apply demo_loaded_reachable.
Defined.

(** ** Aging *)

(** Aging: a request competes as a first lane exactly when it is one, or
    when it has waited three aging intervals since it was enqueued (the
    interval counts as at least one millisecond). *)
Theorem lane_aging_threshold r now aging :
  effective_priority r now aging = First ↔
  first_lane r = true ∨ (enqueued_at_ms r + 3 * N.max aging 1 <= now)%N.
Proof.
  unfold effective_priority. destruct (first_lane r); [naive_solver|].
  assert (N.of_nat (FIRST_LANE_WEIGHT - EXPANSION_LANE_WEIGHT) = 3%N) as -> by done.
  set (a := N.max aging 1). assert (0 < a)%N by lia.
  pose proof (N.div_mod (now - enqueued_at_ms r) a ltac:(lia)) as Hd.
  pose proof (N.mod_lt (now - enqueued_at_ms r) a ltac:(lia)) as Hm.
  revert Hd Hm. generalize ((now - enqueued_at_ms r) / a)%N, ((now - enqueued_at_ms r) mod a)%N.
  intros q m Hd Hm. destruct (N.leb_spec 3 q) as [H3|H3].
  - split; [|done]. intros _. right. assert (a * 3 <= a * q)%N by (apply N.mul_le_mono_l; lia). unfold a in *. lia.
  - split; [done|]. intros [|H']; [done|].
    assert (a * q <= a * 2)%N by (apply N.mul_le_mono_l; lia). unfold a in *. lia.
Qed.

(** ** Admission *)

Lemma find_lane_queued s r :
  wf s → r ∈ queued s →
  ∃ i, list_find (λ r', lane_id r' = lane_id r) (queued s) = Some (i, r).
Proof.
  intros [_ [Hnd _ _ _]] Hr.
  destruct (list_find (λ r', lane_id r' = lane_id r) (queued s)) as [[i r']|] eqn:Hf.
  - apply list_find_Some in Hf as (Hi&Hl&_). exists i.
    apply list_elem_of_lookup in Hr as [j Hj].
    assert (i = j) as <-; [|congruence].
    eapply NoDup_lookup; [exact Hnd| |]; rewrite list_lookup_fmap; [by rewrite Hi|].
    rewrite Hj. simpl. by rewrite Hl.
  - apply list_find_None in Hf. rewrite Forall_forall in Hf. by destruct (Hf r Hr).
Qed.

(** The admission a lane already holds. *)
Inductive holds (s : SchedulerState) (lane owner : string) : Admission → Prop :=
| holds_ready r : active s !! lane = Some r → owner_id r = owner → holds s lane owner Ready
| holds_queued r : r ∈ queued s → lane_id r = lane → owner_id r = owner →
    holds s lane owner (Queued r).

Lemma ensure_same_owner_ok r r' : owner_id r = owner_id r' ↔ ensure_same_owner r r' = Ok ().
Proof. unfold ensure_same_owner. case_bool_decide; naive_solver. Qed.

Lemma admit_holding s now r imm reason a :
  wf s → holds s (lane_id r) (owner_id r) a → is_blank (owner_id r) = false →
  admit_request_with_policy s now r imm reason = (s, Ok a).
Proof.
  intros Hwf Hh Hb. unfold admit_request_with_policy, validate_request. rewrite Hb.
  destruct Hh as [r0 Ha Ho|r0 Hq Hl Ho].
  - rewrite Ha, (proj1 (ensure_same_owner_ok r0 r)); done.
  - rewrite <-Hl, (core_disjoint _ _ (wf_core _ Hwf) _ Hq).
    destruct (find_lane_queued _ _ Hwf Hq) as [i ->].
    by rewrite (proj1 (ensure_same_owner_ok r0 r)).
Qed.

Lemma admit_ok_holds s now r imm reason s' a :
  admit_request_with_policy s now r imm reason = (s', Ok a) →
  is_blank (owner_id r) = false ∧ holds s' (lane_id r) (owner_id r) a.
Proof.
  unfold admit_request_with_policy, validate_request.
  destruct (is_blank (owner_id r)); [done|]. split; [done|]. revert H.
  destruct (active s !! lane_id r) as [e|] eqn:Ha.
  { intros [= <- (()&He%ensure_same_owner_ok&[= <-])%result_bind_ok]. by econstructor. }
  destruct (list_find _ _) as [[i e]|] eqn:Hf.
  { apply list_find_Some in Hf as (Hi&Hl&_).
    intros [= <- (()&He%ensure_same_owner_ok&[= <-])%result_bind_ok].
    constructor; [by eapply list_elem_of_lookup_2|done..]. }
  case_bool_decide; [done|].
  case_match; [intros [= <- <-]; econstructor; [simpl; apply lookup_insert_eq|done]|].
  case_match; [|done]. intros [= <- <-]. constructor; [|done..].
  destruct (push_queued_fields s (set_reason (set_enqueued r now) (normalize_reason_code reason)))
    as (_&_&->). set_solver.
Qed.

(** Admission is idempotent: once a lane has been admitted, asking again
    for the same lane and owner, at any time, under any policy and request
    identifier, returns the same admission and changes nothing; an owner that
    does not match gets an error naming the lane, and changes nothing. *)
Theorem lane_admission_idempotent c s now r imm reason s' a :
  reachable c s → admit_request_with_policy s now r imm reason = (s', Ok a) →
  ∀ now' r' imm' reason', lane_id r' = lane_id r →
    (owner_id r' = owner_id r →
       admit_request_with_policy s' now' r' imm' reason' = (s', Ok a)) ∧
    (owner_id r' ≠ owner_id r → ∃ e,
       admit_request_with_policy s' now' r' imm' reason' = (s', Err e) ∧
       (code e = OperationNotAllowed ∧ err_lane_id e = Some (lane_id r) ∨
        code e = InvalidCallerIdentity)).
Proof.
  intros Hwf%reachable_is_wf Had now' r' imm' reason' Hl.
  assert (wf s') as Hwf'.
  { pose proof (admit_wf s now r imm reason Hwf) as H. by rewrite Had in H. }
  apply admit_ok_holds in Had as [Hb Hh]. rewrite <-Hl in Hh. split.
  - intros Ho. apply admit_holding; [done| |]; by rewrite Ho.
  - intros Ho. unfold admit_request_with_policy, validate_request.
    destruct (is_blank (owner_id r')); [by eexists; split; [|right]|].
    destruct Hh as [r0 Ha Ho'|r0 Hq Hl' Ho'].
    + rewrite Ha. unfold ensure_same_owner. rewrite bool_decide_eq_true_2 by congruence.
      eexists. split; [done|]. left. by rewrite <-Hl.
    + rewrite <-Hl', (core_disjoint _ _ (wf_core _ Hwf') _ Hq).
      destruct (find_lane_queued _ _ Hwf' Hq) as [i ->].
      unfold ensure_same_owner. rewrite bool_decide_eq_true_2 by congruence.
      eexists. split; [done|]. left. by rewrite <-Hl.
Qed.

Lemma lane_admission_idempotent_witness :
  reachable default_config demo_state ∧
  (admit_lane demo_state 7 "zz" "B" "b1" Expansion true "x").1 = demo_state.
Proof.
  split; [apply demo_reachable|].
  pose proof (lane_admission_idempotent default_config demo_state 6
    (pending "fresh" "b1" "B" true) false "" demo_state
    (Queued (mkRequest "b1" "b1" "B" true 3 DEFAULT_REASON_CODE)) demo_reachable eq_refl
    7 (pending "zz" "b1" "B" false) true "x" eq_refl) as [H _].
  specialize (H eq_refl). unfold admit_lane.
  change (bool_decide (Expansion = First)) with false. rewrite H. reflexivity.
Defined.

(** ** Cancellation *)

(** Cancelling a queued lane removes exactly that request and keeps the
    service order: each class resumes at the owner it would have served next,
    skipping only the owner that has no work left. *)
Theorem lane_cancel_keeps_order c s lane s' r p :
  reachable c s → cancel_lane s lane = (s', Some r) →
  lane_id r = lane ∧ r :: queued s' ≡ₚ queued s ∧ active s' = active s ∧
  rotation (last_owner s' p) (owner_ring s')
  = filter (λ o, o ∈ owner_id <$> queued s')
      (rotation (last_owner s p) (owner_ring s)).
Proof.
  intros Hwf%reachable_is_wf Hc.
  destruct (cancel_outcome s lane) as [[Hn _]|(i&r0&Hi&Hl&Hs)]; [by rewrite Hn in Hc|].
  rewrite Hs in Hc. injection Hc as <- ->. split_and!; [done| |done|].
  - simpl. symmetry. by apply delete_Permutation.
  - rewrite last_owner_prune. set (t := set_queued s (delete i (queued s))).
    assert (last_owner t p = last_owner s p) as -> by by destruct p.
    change (owner_ring t) with (owner_ring s).
    change (owner_ring (prune_owner_ring t))
      with (filter (λ o, Exists (λ r, owner_id r = o) (queued t)) (owner_ring s)).
    rewrite repair_preserves_rotation;
      [|apply Hwf|intros o Ho; by eapply ring_cursor; [apply Hwf|]].
    apply list_filter_iff. intros o. rewrite Exists_exists, list_elem_of_fmap. simpl. naive_solver.
Qed.

Lemma lane_cancel_keeps_order_witness :
  reachable default_config demo_loaded ∧
  queued (cancel_lane demo_loaded "c1").1 ⊆ queued demo_loaded.
Proof.
  split; [apply demo_loaded_reachable|].
  destruct (lane_cancel_keeps_order default_config demo_loaded "c1"
    (cancel_lane demo_loaded "c1").1 demo_c1 First demo_loaded_reachable) as (_&Hp&_);
    [vm_compute; reflexivity|].
  intros x Hx. rewrite <-Hp. by right.
Defined.
