(* ===== verification/OwnerLease.v ===== *)
(** Owner leases (crates/backend/nomifun-browser-platform/src/lease.rs): the
    in-memory authority that decides whether a caller may still act, and with
    which operations.  Each method holds the mutex for its whole body, so a
    method is one atomic function on [LeaseService]; the clock reading and the
    fresh lease identifier are arguments. *)
From S2P Require Import Prelude BrowserTypes.

Definition MINIMUM_TTL_MS : N := 1.

Record OwnerLease := mkLease {
  lease_id : string;
  l_user_id : string;
  l_conversation_id : option string;
  l_runtime_instance_id : string;
  l_surface : option BrowserSurface;
  l_allowed_operations : option (gset BrowserOperationKind);
  issued_at_ms : N;
  renewed_at_ms : N;
  expires_at_ms : N;
}.

(** [poisoned] is the mutex's poison flag. *)
Record LeaseService := mkService {
  ttl_ms : N;
  poisoned : bool;
  leases : gmap string OwnerLease;
}.

Definition set_leases (s : LeaseService) (m : gmap string OwnerLease) : LeaseService :=
  mkService (ttl_ms s) (poisoned s) m.

Definition service_new (ttl : N) : LeaseService := mkService (N.max ttl MINIMUM_TTL_MS) false ∅.

(** ** Errors *)

Definition validate_owner_fields (user runtime : string) : result unit BrowserPlatformError :=
  if is_blank user || is_blank runtime then
    Err (new_error InvalidCallerIdentity "An owner lease requires a user and runtime instance."
           false "Request a fresh browser capability from the application.")
  else Ok ().
Definition owner_lease_expired : BrowserPlatformError :=
  new_error OwnerLeaseExpired "The browser owner lease has expired or was revoked." false
    "Request a fresh browser capability.".
Definition incomplete_policy_error : BrowserPlatformError :=
  new_error InvalidCallerIdentity "The browser owner policy is incomplete." false
    "Bind a fresh browser capability before using this owner lease.".
Definition empty_policy_scope_error : BrowserPlatformError :=
  new_error InvalidCallerIdentity "The browser owner policy must allow at least one operation."
    false "Request a fresh capability with an explicit browser operation scope.".
Definition policy_narrowing_error : BrowserPlatformError :=
  new_error InvalidCallerIdentity
    "The browser capability is broader than the current owner policy." false
    "Request a fresh capability with the current browser operation scope.".
Definition lease_mismatch_error : BrowserPlatformError :=
  new_error InvalidCallerIdentity "The browser capability does not match its owner lease." false
    "Request a fresh browser capability from the application.".
Definition lease_state_unavailable : BrowserPlatformError :=
  new_error BrowserUnavailable "Browser lease authority is temporarily unavailable." true
    "Retry after the browser platform has restarted its lease authority.".

Definition lock_authority (s : LeaseService) : result (gmap string OwnerLease) BrowserPlatformError :=
  if poisoned s then Err lease_state_unavailable else Ok (leases s).
Definition lock_unpoisoned (s : LeaseService) : gmap string OwnerLease := leases s.

(** ** Operations *)

Definition issue (s : LeaseService) (now_ms : N) (fresh user : string)
    (conversation : option string) (runtime : string) :
    LeaseService * result OwnerLease BrowserPlatformError :=
  match validate_owner_fields user runtime with Err e => (s, Err e) | Ok _ =>
  let lease := mkLease fresh user conversation runtime None None now_ms now_ms
                 (u64_sat_add now_ms (ttl_ms s)) in
  match lock_authority s with
  | Err e => (s, Err e)
  | Ok m => (set_leases s (<[lease_id lease := lease]> m), Ok lease)
  end end.

Definition renew (s : LeaseService) (now_ms : N) (id : string) :
    LeaseService * result OwnerLease BrowserPlatformError :=
  match lock_authority s with Err e => (s, Err e) | Ok m =>
  match m !! id with None => (s, Err owner_lease_expired) | Some l =>
  if (expires_at_ms l <=? now_ms)%N then (set_leases s (delete id m), Err owner_lease_expired)
  else
    let l := mkLease (lease_id l) (l_user_id l) (l_conversation_id l) (l_runtime_instance_id l)
               (l_surface l) (l_allowed_operations l) (issued_at_ms l) now_ms
               (u64_sat_add now_ms (ttl_ms s)) in
    (set_leases s (<[id := l]> m), Ok l)
  end end.

Definition revoke (s : LeaseService) (id : string) : LeaseService * bool :=
  let m := lock_unpoisoned s in
  (set_leases s (delete id m), bool_decide (is_Some (m !! id))).

Definition owner_matches (l : OwnerLease) (c : CallerIdentity) : bool :=
  bool_decide (l_user_id l = user_id c)
  && bool_decide (l_runtime_instance_id l = runtime_instance_id c)
  && bool_decide (l_conversation_id l = conversation_id c).

Definition validate_policy_binding (l : OwnerLease) (c : CallerIdentity) :
    result unit BrowserPlatformError :=
  match l_surface l, l_allowed_operations l with
  | Some surf, Some allowed =>
      if bool_decide (allowed = ∅) || bool_decide (allowed_operations c = ∅) then
        Err empty_policy_scope_error
      else if bool_decide (surf ≠ surface c) || negb (bool_decide (allowed_operations c ⊆ allowed))
      then Err policy_narrowing_error
      else Ok ()
  | _, _ => Err incomplete_policy_error
  end.

Definition validate (s : LeaseService) (now_ms : N) (c : CallerIdentity) :
    LeaseService * result OwnerLease BrowserPlatformError :=
  match validate_caller c now_ms with Err e => (s, Err e) | Ok _ =>
  match lock_authority s with Err e => (s, Err e) | Ok m =>
  match m !! owner_lease_id c with None => (s, Err owner_lease_expired) | Some l =>
  if (expires_at_ms l <=? now_ms)%N
  then (set_leases s (delete (owner_lease_id c) m), Err owner_lease_expired)
  else if negb (owner_matches l c) then (s, Err lease_mismatch_error)
  else (s, let? _ := validate_policy_binding l c in Ok l)
  end end end.

Definition set_binding (l : OwnerLease) (surf : option BrowserSurface)
    (ops : option (gset BrowserOperationKind)) : OwnerLease :=
  mkLease (lease_id l) (l_user_id l) (l_conversation_id l) (l_runtime_instance_id l)
    surf ops (issued_at_ms l) (renewed_at_ms l) (expires_at_ms l).

(** The [match] of [bind_policy]. *)
Definition narrow_policy (l : OwnerLease) (c : CallerIdentity) :
    result OwnerLease BrowserPlatformError :=
  match l_surface l, l_allowed_operations l with
  | None, None => Ok (set_binding l (Some (surface c)) (Some (allowed_operations c)))
  | Some surf, Some allowed =>
      if bool_decide (surf ≠ surface c) || negb (bool_decide (allowed_operations c ⊆ allowed))
      then Err policy_narrowing_error
      else if bool_decide (size (allowed_operations c) < size allowed)
      then Ok (set_binding l (l_surface l) (Some (allowed_operations c)))
      else Ok l
  | _, _ => Err incomplete_policy_error
  end.

Definition bind_policy (s : LeaseService) (now_ms : N) (c : CallerIdentity) :
    LeaseService * result OwnerLease BrowserPlatformError :=
  match validate_caller c now_ms with Err e => (s, Err e) | Ok _ =>
  match lock_authority s with Err e => (s, Err e) | Ok m =>
  match m !! owner_lease_id c with None => (s, Err owner_lease_expired) | Some l =>
  if (expires_at_ms l <=? now_ms)%N
  then (set_leases s (delete (owner_lease_id c) m), Err owner_lease_expired)
  else if negb (owner_matches l c) then (s, Err lease_mismatch_error)
  else if bool_decide (allowed_operations c = ∅) then (s, Err empty_policy_scope_error)
  else match narrow_policy l c with
       | Err e => (s, Err e)
       | Ok l => (set_leases s (<[owner_lease_id c := l]> m), Ok l)
       end
  end end end.

Definition sweep (s : LeaseService) (now_ms : N) : LeaseService * nat :=
  let m := lock_unpoisoned s in
  let kept := filter (λ p, (now_ms < expires_at_ms p.2)%N) m in
  (set_leases s kept, size m - size kept).

(** The iteration order of the hash map is unspecified; [map_to_list] is one. *)
Definition sweep_expired_ids (s : LeaseService) (now_ms : N) : LeaseService * list string :=
  let m := lock_unpoisoned s in
  let expired := (filter (λ p, (expires_at_ms p.2 <= now_ms)%N) (map_to_list m)).*1 in
  (set_leases s (foldl (λ m id, delete id m) m expired), expired).

(** ** Calls and runs *)

Inductive lease_call :=
| CIssue (now_ms : N) (fresh user : string) (conversation : option string) (runtime : string)
| CRenew (now_ms : N) (id : string)
| CRevoke (id : string)
| CValidate (now_ms : N) (c : CallerIdentity)
| CBind (now_ms : N) (c : CallerIdentity)
| CSweep (now_ms : N)
| CSweepIds (now_ms : N).

Definition lease_step (s : LeaseService) (k : lease_call) : LeaseService :=
  match k with
  | CIssue now fresh user conv runtime => (issue s now fresh user conv runtime).1
  | CRenew now id => (renew s now id).1
  | CRevoke id => (revoke s id).1
  | CValidate now c => (validate s now c).1
  | CBind now c => (bind_policy s now c).1
  | CSweep now => (sweep s now).1
  | CSweepIds now => (sweep_expired_ids s now).1
  end.
Definition lease_run (s : LeaseService) (ks : list lease_call) : LeaseService :=
  foldl lease_step s ks.

(** The identifiers [OwnerLeaseId::new] produced. *)
Definition issued_id (k : lease_call) : option string :=
  match k with CIssue _ fresh _ _ _ => Some fresh | _ => None end.
(** The clock reading of a call. *)
Definition call_time (k : lease_call) : option N :=
  match k with
  | CIssue now _ _ _ _ | CRenew now _ | CValidate now _ | CBind now _
  | CSweep now | CSweepIds now => Some now
  | CRevoke _ => None
  end.

(** ** What a call does to one lease *)

(** The identity a lease carries for its whole life. *)
Definition same_owner (l l' : OwnerLease) : Prop :=
  l_user_id l' = l_user_id l ∧ l_conversation_id l' = l_conversation_id l ∧
  l_runtime_instance_id l' = l_runtime_instance_id l.

(** The policy ceiling is absent, or only shrinks. *)
Definition narrows (l l' : OwnerLease) : Prop :=
  same_owner l l' ∧
  ∀ ops, l_allowed_operations l = Some ops →
    l_surface l' = l_surface l ∧ ∃ ops', l_allowed_operations l' = Some ops' ∧ ops' ⊆ ops.

#[export] Instance narrows_refl : Reflexive narrows.
Proof. intros l. unfold narrows, same_owner. split; [done|]. intros ops ->. eauto. Qed.
#[export] Instance narrows_trans : Transitive narrows.
Proof.
  unfold narrows, same_owner. intros l1 l2 l3 [(Hu&Hc&Hr) H1] [(Hu2&Hc2&Hr2) H2].
  split; [split_and!; congruence|]. intros ops Ho.
  destruct (H1 ops Ho) as (Hs1&ops1&Ho1&?), (H2 ops1 Ho1) as (Hs2&ops2&?&?).
  split; [congruence|]. exists ops2. split; [done|set_solver].
Qed.

Lemma foldl_delete_lookup (ids : list string) (m : gmap string OwnerLease) id :
  foldl (λ m id, delete id m) m ids !! id = if decide (id ∈ ids) then None else m !! id.
Proof.
  revert m. induction ids as [|i ids IH]; intros m; [done|]. cbn [foldl].
  rewrite IH. destruct (decide (i = id)) as [->|].
  - rewrite (decide_True (P := id ∈ id :: ids)) by set_solver.
    case_decide; [done|apply lookup_delete_eq].
  - rewrite lookup_delete_ne by done. repeat case_decide; set_solver.
Qed.

Lemma elem_of_expired (m : gmap string OwnerLease) now id :
  id ∈ (filter (λ p, (expires_at_ms p.2 <= now)%N) (map_to_list m)).*1 ↔
  ∃ l, m !! id = Some l ∧ (expires_at_ms l <= now)%N.
Proof.
  rewrite list_elem_of_fmap. split.
  - intros ([i l]&->&[Hl Hi]%list_elem_of_filter). apply elem_of_map_to_list in Hi. eauto.
  - intros (l&Hi&Hl). exists (id, l). split; [done|].
    rewrite list_elem_of_filter. split; [done|]. by apply elem_of_map_to_list.
Qed.

Lemma sweep_lookup s now id :
  leases (sweep s now).1 !! id
  = match leases s !! id with
    | Some l => if decide (now < expires_at_ms l)%N then Some l else None
    | None => None
    end.
Proof.
  simpl. rewrite map_lookup_filter. unfold lock_unpoisoned. destruct (leases s !! id) as [l|]; [|done].
  simpl. case_guard; try case_match; done || lia.
Qed.

Lemma sweep_ids_same s now : (sweep_expired_ids s now).1 = (sweep s now).1.
Proof.
  unfold sweep_expired_ids, sweep, set_leases. simpl. f_equal. apply map_eq. intros id.
  rewrite foldl_delete_lookup, map_lookup_filter. unfold lock_unpoisoned.
  destruct (leases s !! id) as [l|] eqn:Hl; simpl.
  - case_decide as Hin.
    + apply elem_of_expired in Hin as (l'&Hl'&?). simplify_eq.
      case_guard; [lia|done].
    + case_guard; [done|]. exfalso. apply Hin, elem_of_expired. exists l. split; [done|lia].
  - by destruct (decide _).
Qed.

Lemma narrow_policy_narrows l c l' :
  narrow_policy l c = Ok l' →
  narrows l l' ∧ expires_at_ms l' = expires_at_ms l ∧
  ∃ ops, l_allowed_operations l' = Some ops ∧ ops ⊆ allowed_operations c.
Proof.
  unfold narrow_policy. destruct (l_surface l) as [sf|] eqn:Es, (l_allowed_operations l) as [al|] eqn:Ea;
    try done.
  - destruct (bool_decide (sf ≠ surface c) || _) eqn:Hc; [done|].
    apply orb_false_iff in Hc as [Hsf Hsub]. rewrite negb_false_iff in Hsub.
    apply bool_decide_eq_true in Hsub.
    clear Hsf. case_bool_decide as Hsz; intros [= <-]; (split; [|split; [done|]]).
    + split; [done|]. rewrite Ea. intros ops [= <-]. simpl. rewrite Es. eauto.
    + simpl. eauto.
    + done.
    + exists al. split; [done|]. intros x Hx. destruct (decide (x ∈ allowed_operations c)); [done|].
      pose proof (subset_size (allowed_operations c) al ltac:(set_solver)). lia.
  - intros [= <-]. split; [split; [done|by rewrite Ea]|]. split; [done|]. simpl. eauto.
Qed.

(** A call keeps a lease, narrows its policy, extends it when it is still
    live at the call's time, or removes it; only [issue] creates one. *)
Lemma lease_step_lookup s k id l' :
  leases (lease_step s k) !! id = Some l' → issued_id k ≠ Some id →
  ∃ l, leases s !! id = Some l ∧ narrows l l' ∧
    ((expires_at_ms l' = expires_at_ms l) ∨
     (∃ now, call_time k = Some now ∧ (now < expires_at_ms l)%N)).
Proof.
  intros Hl Hfresh.
  destruct k as [now fresh user conv rt|now i|i|now c|now c|now|now]; simpl in Hl, Hfresh.
  - unfold issue, lock_authority in Hl.
    destruct (validate_owner_fields _ _); [|simpl in Hl; eauto using narrows_refl].
    destruct (poisoned s); simpl in Hl; [eauto using narrows_refl|].
    rewrite lookup_insert_ne in Hl by congruence. eauto using narrows_refl.
  - unfold renew, lock_authority in Hl. destruct (poisoned s); [simpl in Hl; eauto using narrows_refl|].
    destruct (leases s !! i) as [l|] eqn:Ei; [|simpl in Hl; eauto using narrows_refl].
    destruct (N.leb_spec (expires_at_ms l) now); simpl in Hl.
    + apply lookup_delete_Some in Hl as [_ ?]. eauto using narrows_refl.
    + apply lookup_insert_Some in Hl as [[-> <-]|[_ ?]]; [|eauto using narrows_refl].
      exists l. split_and!; [done| |right; eauto].
      split; [done|]. intros ops ->. simpl. eauto.
  - apply lookup_delete_Some in Hl as [_ ?]. eauto using narrows_refl.
  - unfold validate, lock_authority in Hl.
    destruct (validate_caller _ _); [|simpl in Hl; eauto using narrows_refl].
    destruct (poisoned s); [simpl in Hl; eauto using narrows_refl|].
    destruct (leases s !! owner_lease_id c) as [l|] eqn:Ei; [|simpl in Hl; eauto using narrows_refl].
    destruct (_ <=? _)%N eqn:El; simpl in Hl; [|destruct (negb _); simpl in Hl; eauto using narrows_refl].
    apply lookup_delete_Some in Hl as [_ ?]. eauto using narrows_refl.
  - unfold bind_policy, lock_authority in Hl.
    destruct (validate_caller _ _); [|simpl in Hl; eauto using narrows_refl].
    destruct (poisoned s); [simpl in Hl; eauto using narrows_refl|].
    destruct (leases s !! owner_lease_id c) as [l|] eqn:Ei; [|simpl in Hl; eauto using narrows_refl].
    destruct (_ <=? _)%N eqn:El.
    { simpl in Hl. apply lookup_delete_Some in Hl as [_ ?]. eauto using narrows_refl. }
    destruct (negb _); [simpl in Hl; eauto using narrows_refl|].
    case_bool_decide; [simpl in Hl; eauto using narrows_refl|].
    destruct (narrow_policy l c) as [l1|] eqn:En; [|simpl in Hl; eauto using narrows_refl].
    simpl in Hl. apply narrow_policy_narrows in En as (?&?&_).
    apply lookup_insert_Some in Hl as [[<- <-]|[_ ?]]; eauto using narrows_refl.
  - change (leases (sweep s now).1 !! id = Some l') in Hl. rewrite sweep_lookup in Hl.
    destruct (leases s !! id) as [l|]; [|done]. case_decide; simplify_eq; eauto using narrows_refl.
  - change (leases (sweep_expired_ids s now).1 !! id = Some l') in Hl.
    rewrite sweep_ids_same, sweep_lookup in Hl.
    destruct (leases s !! id) as [l|]; [|done]. case_decide; simplify_eq; eauto using narrows_refl.
Qed.

Lemma lease_run_narrows s ks id l' :
  leases (lease_run s ks) !! id = Some l' → Forall (λ k, issued_id k ≠ Some id) ks →
  ∃ l, leases s !! id = Some l ∧ narrows l l'.
Proof.
  revert s. induction ks as [|k ks IH]; intros s Hl Hf; simpl in Hl; [eauto using narrows_refl|].
  apply Forall_cons in Hf as [Hk Hf]. destruct (IH _ Hl Hf) as (l1&Hl1&Hn).
  destruct (lease_step_lookup _ _ _ _ Hl1 Hk) as (l&?&?&_).
  exists l. split; [done|]. by etransitivity.
Qed.

Lemma owner_matches_spec l c :
  owner_matches l c = true ↔
  l_user_id l = user_id c ∧ l_runtime_instance_id l = runtime_instance_id c ∧
  l_conversation_id l = conversation_id c.
Proof. unfold owner_matches. rewrite !andb_true_iff, !bool_decide_eq_true. naive_solver. Qed.

Lemma binding_ok l c (l' : OwnerLease) :
  (let? _ := validate_policy_binding l c in Ok l) = Ok l' ↔
  l' = l ∧ ∃ allowed, l_surface l = Some (surface c) ∧ l_allowed_operations l = Some allowed ∧
    allowed_operations c ≠ ∅ ∧ allowed_operations c ⊆ allowed.
Proof.
  unfold validate_policy_binding.
  destruct (l_surface l) as [sf|], (l_allowed_operations l) as [al|]; try naive_solver.
  destruct (decide (allowed_operations c = ∅)) as [He|He].
  { rewrite (bool_decide_eq_true_2 (allowed_operations c = ∅)), orb_true_r by done. naive_solver. }
  rewrite (bool_decide_eq_false_2 (allowed_operations c = ∅)), orb_false_r by done.
  case_bool_decide as Hal.
  { split; [done|]. intros (_&al'&_&[= <-]&_&Hsub). exfalso. apply He.
    apply set_eq. set_solver. }
  destruct (decide (sf = surface c)) as [->|];
    [|rewrite (bool_decide_eq_true_2 (sf ≠ surface c)) by done; naive_solver].
  rewrite (bool_decide_eq_false_2 (surface c ≠ surface c)) by naive_solver. simpl.
  case_bool_decide; simpl; naive_solver.
Qed.

(** ** Properties *)

(** [validate] accepts exactly a live, matching caller within the policy
    ceiling: it returns the stored lease, unchanged, if and only if the caller
    is complete and unexpired, the lease is stored and unexpired, user, runtime
    and conversation agree, and the caller's operations are a non-empty subset
    of the lease's on the same surface. *)
Theorem lease_validate_exact s now c s' l :
  validate s now c = (s', Ok l) ↔
  s' = s ∧ poisoned s = false ∧
  validate_caller c now = Ok () ∧
  leases s !! owner_lease_id c = Some l ∧ (now < expires_at_ms l)%N ∧
  (l_user_id l = user_id c ∧ l_runtime_instance_id l = runtime_instance_id c ∧
   l_conversation_id l = conversation_id c) ∧
  ∃ allowed, l_surface l = Some (surface c) ∧ l_allowed_operations l = Some allowed ∧
    allowed_operations c ≠ ∅ ∧ allowed_operations c ⊆ allowed.
Proof.
  unfold validate, lock_authority. destruct (validate_caller c now) as [[]|]; [|naive_solver].
  destruct (poisoned s); [naive_solver|].
  destruct (leases s !! owner_lease_id c) as [l0|]; [|naive_solver].
  destruct (N.leb_spec (expires_at_ms l0) now) as [Hx|Hx].
  { split; [done|]. intros (_&_&_&[= ->]&?&_). lia. }
  destruct (owner_matches l0 c) eqn:Hm; cbn [negb].
  2: { split; [done|]. intros (_&_&_&[= ->]&_&Hid&_).
       apply owner_matches_spec in Hid. congruence. }
  apply owner_matches_spec in Hm. split.
  - intros [= <- (->&Hb)%binding_ok]. split_and!; try apply Hm; done.
  - intros (->&_&_&[= ->]&_&_&Hb). f_equal. by apply binding_ok.
Qed.

Lemma lease_validate_inv s now c s' l :
  validate s now c = (s', Ok l) →
  leases s !! owner_lease_id c = Some l ∧
  ∃ allowed, l_allowed_operations l = Some allowed ∧ allowed_operations c ⊆ allowed.
Proof.
  unfold validate, lock_authority. destruct (validate_caller c now); [|done].
  destruct (poisoned s); [done|]. destruct (leases s !! _) as [l0|]; [|done].
  destruct (_ <=? _)%N; [done|]. destruct (negb _); [done|].
  intros [= _ (->&al&_&?&_&?)%binding_ok]. eauto.
Qed.

Lemma expired_count (m : gmap string OwnerLease) now :
  length (filter (λ p : string * OwnerLease, (expires_at_ms p.2 <= now)%N) (map_to_list m))
  = size m - size (filter (λ p, (now < expires_at_ms p.2)%N) m).
Proof.
  induction m as [|i x m Hi IH] using map_ind; [done|].
  rewrite map_to_list_insert, filter_cons by done. simpl.
  rewrite map_size_insert_None by done.
  destruct (decide (expires_at_ms x <= now)%N) as [Hx|Hx].
  - rewrite map_filter_insert_False, delete_id by (done || (simpl; lia)). simpl. rewrite IH.
    pose proof (map_size_filter (λ p : string * OwnerLease, (now < expires_at_ms p.2)%N) m).
    lia.
  - rewrite map_filter_insert_True by (simpl; lia).
    rewrite map_size_insert_None by (apply map_lookup_filter_None; auto). rewrite IH. lia.
Qed.

Lemma bind_policy_stored s now c s' l :
  bind_policy s now c = (s', Ok l) →
  leases s' !! owner_lease_id c = Some l ∧
  ∃ ops, l_allowed_operations l = Some ops ∧ ops ⊆ allowed_operations c.
Proof.
  unfold bind_policy, lock_authority. destruct (validate_caller c now); [|done].
  destruct (poisoned s); [done|]. destruct (leases s !! _) as [l0|]; [|done].
  destruct (_ <=? _)%N; [done|]. destruct (negb _); [done|].
  case_bool_decide; [done|]. destruct (narrow_policy l0 c) as [l1|] eqn:En; [|done].
  intros [= <- <-]. apply narrow_policy_narrows in En as (_&_&?).
  split; [apply lookup_insert_eq|done].
Qed.

(** A narrowed capability fails closed.  After a caller has bound its
    operations to a lease, no later sequence of calls (renewals, further
    binds, revocations, sweeps, other leases being issued) ever lets a caller
    with an operation outside that set validate against the lease again. *)
Theorem lease_narrowing_fails_closed s now c s1 l ks c' now' op s2 l2 :
  bind_policy s now c = (s1, Ok l) →
  Forall (λ k, issued_id k ≠ Some (owner_lease_id c)) ks →
  owner_lease_id c' = owner_lease_id c →
  op ∈ allowed_operations c' → op ∉ allowed_operations c →
  validate (lease_run s1 ks) now' c' ≠ (s2, Ok l2).
Proof.
  intros Hb Hks Hid Hin Hout Hv. apply bind_policy_stored in Hb as (Hl&ops&Hops&Hsub).
  apply lease_validate_inv in Hv as (Hl2&allowed&Ha&Hsub2). rewrite Hid in Hl2.
  destruct (lease_run_narrows _ _ _ _ Hl2 Hks) as (l'&Hl'&_&Hn). simplify_eq.
  destruct (Hn ops Hops) as (_&ops'&?&?). simplify_eq. set_solver.
Qed.

Definition demo_caller (ops : gset BrowserOperationKind) : CallerIdentity :=
  Build_CallerIdentity "u" None "rt" None None None None None None Native "L" 1000 ops.
Definition demo_leases : LeaseService :=
  (issue (service_new 100) 10 "L" "u" None "rt").1.

Lemma lease_narrowing_fails_closed_witness :
  ∃ s1 l, bind_policy demo_leases 11 (demo_caller {[Observe]}) = (s1, Ok l) ∧
    (validate s1 11 (demo_caller {[Observe]})).2 = Ok l ∧
    validate (lease_run s1 [CRenew 12 "L"]) 13 (demo_caller {[Observe; Act]}) ≠ (s1, Ok l).
Proof.
  eexists _, _. split; [vm_compute; reflexivity|]. split; [vm_compute; reflexivity|].
  eapply (lease_narrowing_fails_closed demo_leases 11 (demo_caller {[Observe]}) _ _ _ _ _ Act);
    [vm_compute; reflexivity|by constructor|done| |]; simpl; set_solver.
Defined.

Lemma lease_run_expired s ks id l t :
  leases s !! id = Some l → (expires_at_ms l <= t)%N →
  Forall (λ k, issued_id k ≠ Some id ∧ ∀ now, call_time k = Some now → (t <= now)%N) ks →
  ∀ l', leases (lease_run s ks) !! id = Some l' → (expires_at_ms l' <= t)%N.
Proof.
  revert s l. induction ks as [|k ks IH]; intros s l Hl Hx Hks l' Hl'; simpl in Hl'.
  { congruence. }
  apply Forall_cons in Hks as [[Hk Ht] Hks].
  destruct (leases (lease_step s k) !! id) as [l1|] eqn:H1.
  - eapply (IH _ l1); [done| |done|done].
    destruct (lease_step_lookup _ _ _ _ H1 Hk) as (l0&Hl0&_&[He|(now&Hn&?)]); simplify_eq; [lia|].
    specialize (Ht now Hn). lia.
  - destruct (lease_run_narrows _ _ _ _ Hl') as (l1&?&_); [|congruence].
    eapply Forall_impl; [exact Hks|]. by intros k' [? _].
Qed.

(** Expiry is final.  Once the clock has reached a lease's expiry, no
    sequence of calls made at or after that time (a renewal included) brings
    the lease back: renewing, validating and binding all fail, unless the
    identifier is issued again. *)
Theorem lease_expiry_final s id l t ks now c :
  leases s !! id = Some l → (expires_at_ms l <= t)%N → (t <= now)%N →
  Forall (λ k, issued_id k ≠ Some id ∧ ∀ n, call_time k = Some n → (t <= n)%N) ks →
  owner_lease_id c = id →
  ∃ e1 e2 e3, (renew (lease_run s ks) now id).2 = Err e1 ∧
    (validate (lease_run s ks) now c).2 = Err e2 ∧
    (bind_policy (lease_run s ks) now c).2 = Err e3.
Proof.
  intros Hl Hx Hnow Hks <-. pose proof (lease_run_expired _ _ _ _ _ Hl Hx Hks) as Hexp.
  set (s' := lease_run s ks) in *. unfold renew, validate, bind_policy, lock_authority.
  destruct (poisoned s'), (validate_caller c now); eauto 6;
    (destruct (leases s' !! owner_lease_id c) as [l'|]; [|eauto 6]);
    specialize (Hexp l' eq_refl);
    rewrite (proj2 (N.leb_le (expires_at_ms l') now)) by lia; simpl; eauto 6.
Qed.

Lemma lease_expiry_final_witness :
  ∃ l, leases demo_leases !! "L" = Some l ∧ expires_at_ms l = 110%N ∧
    ∃ e, (renew (lease_run demo_leases [CSweep 120; CRenew 125 "M"]) 130 "L").2 = Err e.
Proof.
  eexists. split; [vm_compute; reflexivity|]. split; [reflexivity|].
  edestruct (lease_expiry_final demo_leases "L"
    (mkLease "L" "u" None "rt" None None 10 10 110) 110 [CSweep 120; CRenew 125 "M"] 130
    (demo_caller {[Observe]})) as (e&_&_&H&_);
    [vm_compute; reflexivity|cbn; lia|lia| |reflexivity|exists e; exact H].
  constructor; [|constructor; [|constructor]]; (split; [done|]);
    intros n Hn; injection Hn as <-; lia.
Defined.

(** The two sweeps agree: both keep exactly the unexpired leases, and the
    identifiers [sweep_expired_ids] returns are, without repetition, those of
    the leases [sweep] counts. *)
Theorem lease_sweeps_agree s now :
  (sweep_expired_ids s now).1 = (sweep s now).1 ∧
  (∀ id l, leases (sweep s now).1 !! id = Some l ↔
     leases s !! id = Some l ∧ (now < expires_at_ms l)%N) ∧
  NoDup (sweep_expired_ids s now).2 ∧
  (∀ id, id ∈ (sweep_expired_ids s now).2 ↔
     ∃ l, leases s !! id = Some l ∧ (expires_at_ms l <= now)%N) ∧
  length (sweep_expired_ids s now).2 = (sweep s now).2.
Proof.
  split_and!.
  - apply sweep_ids_same.
  - intros id l. rewrite sweep_lookup. destruct (leases s !! id); [|naive_solver].
    case_decide; naive_solver.
  - simpl. eapply sublist_NoDup; [apply (NoDup_fst_map_to_list (leases s))|].
    apply fmap_sublist, sublist_filter.
  - intros id. apply elem_of_expired.
  - simpl. unfold lock_unpoisoned. rewrite length_fmap. apply expired_count.
Qed.
