(* ===== verification/Identity.v ===== *)
(** The identity generation coordinator
    (crates/backend/nomifun-browser-platform/src/identity.rs): which canonical
    snapshot of the authenticated browser identity a replica may use.  Every
    method holds the mutex for its whole body. *)
From S2P Require Import Prelude BrowserTypes.

Inductive SnapshotComponentCoverage := AllOrigins | CurrentOrigin | NotIncluded.

Record SnapshotCoverage := {
  sc_current_origin : option string;
  cookies : SnapshotComponentCoverage;
  local_storage : SnapshotComponentCoverage;
  indexed_db : SnapshotComponentCoverage;
  cache : SnapshotComponentCoverage;
  service_workers : SnapshotComponentCoverage;
  session_storage : SnapshotComponentCoverage;
  passkeys : SnapshotComponentCoverage;
  device_bound_credentials : SnapshotComponentCoverage;
}.
Definition current_origin (origin : string) : SnapshotCoverage :=
  Build_SnapshotCoverage (Some origin) AllOrigins CurrentOrigin CurrentOrigin
    NotIncluded NotIncluded NotIncluded NotIncluded NotIncluded.
Definition cookies_only : SnapshotCoverage :=
  Build_SnapshotCoverage None AllOrigins NotIncluded NotIncluded
    NotIncluded NotIncluded NotIncluded NotIncluded NotIncluded.

Record CanonicalIdentitySnapshot := {
  generation : N;
  snap_issued_at_ms : N;
  coverage : SnapshotCoverage;
}.

(** ** Errors *)

Definition identity_generation_exhausted : BrowserPlatformError :=
  new_error BrowserUnavailable "The browser identity generation cannot be advanced." false
    "Restart the application before publishing another identity snapshot.".
Definition identity_lock_error : BrowserPlatformError :=
  new_error BrowserUnavailable "Browser identity coordination is temporarily unavailable." true
    "Retry after the browser platform is ready.".
Definition no_snapshot_error (requested : option N) : BrowserPlatformError :=
  with_metadata (new_error NeedsPrimaryIdentity
    "No authenticated browser identity snapshot is available." true
    "Open the Primary browser identity and publish a fresh snapshot.")
    (JObj (match requested with Some r => [("requested_generation", JNum r)] | None => [] end ++
      [("current_generation", JNull); ("snapshot_available", JBool false);
       ("refresh_required", JBool true)])).
Definition stale_identity_error (requested : N) (current : CanonicalIdentitySnapshot) :
    BrowserPlatformError :=
  let relation := if (requested <? generation current)%N then "older" else "newer" in
  with_metadata (new_error IdentityReplicaStale
    "The authenticated browser identity generation is not current." true
    "Reopen the replica from the browser session hub.")
    (JObj [("requested_generation", JNum requested);
           ("current_generation", JNum (generation current));
           ("snapshot_available", JBool true);
           ("snapshot_issued_at_ms", JNum (snap_issued_at_ms current));
           ("generation_relation", JStr relation); ("refresh_required", JBool true)]).
Definition invalidated_identity_error (requested : N) (current : CanonicalIdentitySnapshot) :
    BrowserPlatformError :=
  with_metadata (new_error IdentityReplicaStale
    "The authenticated browser identity generation was invalidated after Primary refresh failed."
    true "Capture and publish the Primary browser identity again.")
    (JObj [("requested_generation", JNum requested);
           ("current_generation", JNum (generation current));
           ("snapshot_available", JBool true);
           ("snapshot_issued_at_ms", JNum (snap_issued_at_ms current));
           ("snapshot_stale", JBool true); ("generation_relation", JStr "invalidated");
           ("refresh_required", JBool true)]).
Definition stale_snapshot_requires_primary_error (current : CanonicalIdentitySnapshot) :
    BrowserPlatformError :=
  with_metadata (new_error NeedsPrimaryIdentity
    "The authenticated browser identity snapshot requires a fresh Primary capture." true
    "Capture and publish the Primary browser identity again.")
    (JObj [("current_generation", JNum (generation current));
           ("snapshot_available", JBool true);
           ("snapshot_issued_at_ms", JNum (snap_issued_at_ms current));
           ("snapshot_stale", JBool true); ("refresh_required", JBool true)]).
Definition payload_unavailable_error (requested : N) (current : CanonicalIdentitySnapshot) :
    BrowserPlatformError :=
  with_metadata (new_error NeedsPrimaryIdentity
    "The authenticated browser identity payload is unavailable." true
    "Capture and publish the Primary browser identity again.")
    (JObj [("requested_generation", JNum requested);
           ("current_generation", JNum (generation current));
           ("snapshot_available", JBool false); ("refresh_required", JBool true)]).

(** ** Coordinator *)

Section coordinator.
  (** The opaque JSON payload of the host vault. *)
  Context {Payload : Type}.

Record IdentityGenerationState := mkIdentity {
  id_poisoned : bool;
  current : option CanonicalIdentitySnapshot;
  current_payload : option Payload;
  last_issued_at_ms : N;
  replica_admission_open : bool;
}.

Definition identity_new : IdentityGenerationState := mkIdentity false None None 0 false.

Definition lock_state (s : IdentityGenerationState) :
    result IdentityGenerationState BrowserPlatformError :=
  if id_poisoned s then Err identity_lock_error else Ok s.

(** [map_or(Ok(1), |snapshot| checked_add)] *)
Definition next_generation (s : IdentityGenerationState) : result N BrowserPlatformError :=
  match current s with
  | None => Ok 1%N
  | Some c => if (generation c =? u64_max)%N then Err identity_generation_exhausted
              else Ok (generation c + 1)%N
  end.

Definition publish_snapshot (s : IdentityGenerationState) (now_ms : N)
    (cov : SnapshotCoverage) (payload : Payload) :
    IdentityGenerationState * result CanonicalIdentitySnapshot BrowserPlatformError :=
  match (let? s := lock_state s in next_generation s) with
  | Err e => (s, Err e)
  | Ok g =>
      let issued := N.max now_ms (last_issued_at_ms s) in
      let snapshot := Build_CanonicalIdentitySnapshot g issued cov in
      (mkIdentity (id_poisoned s) (Some snapshot) (Some payload) issued true, Ok snapshot)
  end.

Definition invalidate_current_snapshot (s : IdentityGenerationState) :
    IdentityGenerationState * result (option CanonicalIdentitySnapshot) BrowserPlatformError :=
  match lock_state s with
  | Err e => (s, Err e)
  | Ok s =>
      (mkIdentity (id_poisoned s) (current s) None (last_issued_at_ms s) false, Ok (current s))
  end.

Definition current_snapshot (s : IdentityGenerationState) :
    result (option CanonicalIdentitySnapshot) BrowserPlatformError :=
  let? s := lock_state s in Ok (current s).

Definition require_published_snapshot (s : IdentityGenerationState) :
    result CanonicalIdentitySnapshot BrowserPlatformError :=
  let? s := lock_state s in
  match current s with
  | None => Err (no_snapshot_error None)
  | Some c => if negb (replica_admission_open s)
              then Err (stale_snapshot_requires_primary_error c) else Ok c
  end.

Definition require_current_snapshot (s : IdentityGenerationState) (requested : N) :
    result CanonicalIdentitySnapshot BrowserPlatformError :=
  let? s := lock_state s in
  match current s with
  | None => Err (no_snapshot_error (Some requested))
  | Some c =>
      if negb (replica_admission_open s) then Err (invalidated_identity_error requested c)
      else if (generation c =? requested)%N then Ok c
      else Err (stale_identity_error requested c)
  end.

Definition require_current_payload (s : IdentityGenerationState) (requested : N) :
    result Payload BrowserPlatformError :=
  let? s := lock_state s in
  match current s with
  | None => Err (no_snapshot_error (Some requested))
  | Some c =>
      if negb (replica_admission_open s) then Err (invalidated_identity_error requested c)
      else if negb (generation c =? requested)%N then Err (stale_identity_error requested c)
      else match current_payload s with
           | Some p => Ok p
           | None => Err (payload_unavailable_error requested c)
           end
  end.

Inductive id_call :=
| Publish (now_ms : N) (cov : SnapshotCoverage) (p : Payload)
| Invalidate.
Definition id_step (s : IdentityGenerationState) (k : id_call) : IdentityGenerationState :=
  match k with
  | Publish now cov p => (publish_snapshot s now cov p).1
  | Invalidate => (invalidate_current_snapshot s).1
  end.
Definition id_run (s : IdentityGenerationState) (ks : list id_call) : IdentityGenerationState :=
  foldl id_step s ks.

(** ** Lemmas *)

(** Admission is open exactly while a payload is held, and a payload belongs
    to a published snapshot issued no later than the watermark. *)
Record id_ok (s : IdentityGenerationState) : Prop := {
  id_open : replica_admission_open s = bool_decide (is_Some (current_payload s));
  id_payload : is_Some (current_payload s) → is_Some (current s);
  id_issued : ∀ c, current s = Some c → (snap_issued_at_ms c <= last_issued_at_ms s)%N;
}.

(** How far a snapshot has advanced. *)
Definition advanced (c c' : CanonicalIdentitySnapshot) : Prop :=
  c' = c ∨ (generation c < generation c')%N ∧ (snap_issued_at_ms c <= snap_issued_at_ms c')%N.

Lemma id_new_ok : id_ok identity_new.
Proof. split; simpl; [done|by intros []|done]. Qed.

Lemma publish_cases s now cov p :
  (∃ e, publish_snapshot s now cov p = (s, Err e)) ∨
  ∃ g, next_generation s = Ok g ∧ id_poisoned s = false ∧
    let c := Build_CanonicalIdentitySnapshot g (N.max now (last_issued_at_ms s)) cov in
    publish_snapshot s now cov p
    = (mkIdentity (id_poisoned s) (Some c) (Some p) (N.max now (last_issued_at_ms s)) true, Ok c).
Proof.
  unfold publish_snapshot, lock_state. destruct (id_poisoned s) eqn:Hp; [by left; eexists|].
  simpl. destruct (next_generation s) as [g|e]; [right|left]; eauto.
Qed.

Lemma next_generation_gt s g c :
  next_generation s = Ok g → current s = Some c → (generation c < g)%N.
Proof.
  unfold next_generation. intros H Hc. rewrite Hc in H. case_match; simplify_eq. lia.
Qed.

Lemma id_step_ok s k : id_ok s → id_ok (id_step s k).
Proof.
  intros [Ho Hp Hi]. destruct k as [now cov p|]; simpl.
  - destruct (publish_cases s now cov p) as [[e ->]|(g&Hg&_&->)]; [done|].
    split; simpl; [done|by eexists|]. intros c [= <-]. simpl. lia.
  - unfold invalidate_current_snapshot, lock_state. destruct (id_poisoned s); [done|].
    split; simpl; [done|by intros []|done].
Qed.

Lemma id_step_advanced s k c :
  id_ok s → current s = Some c →
  ∃ c', current (id_step s k) = Some c' ∧ advanced c c'.
Proof.
  intros [_ _ Hi] Hc. destruct k as [now cov p|]; simpl.
  - destruct (publish_cases s now cov p) as [[e ->]|(g&Hg&_&->)]; [unfold advanced; eauto|].
    eexists. split; [done|]. right. simpl. specialize (Hi c Hc).
    split; [by eapply next_generation_gt|lia].
  - unfold invalidate_current_snapshot, lock_state, advanced. destruct (id_poisoned s); simpl; eauto.
Qed.

Lemma id_run_ok s ks : id_ok s → id_ok (id_run s ks).
Proof. revert s. induction ks; intros s Hs; [done|]. simpl. auto using id_step_ok. Qed.

Lemma advanced_trans c1 c2 c3 : advanced c1 c2 → advanced c2 c3 → advanced c1 c3.
Proof. unfold advanced. intros [->|[]] [->|[]]; auto; right; lia. Qed.

Lemma id_run_advanced s ks c :
  id_ok s → current s = Some c →
  ∃ c', current (id_run s ks) = Some c' ∧ advanced c c'.
Proof.
  revert s c. induction ks as [|k ks IH]; intros s c Hs Hc; simpl; [unfold advanced; eauto|].
  destruct (id_step_advanced s k c Hs Hc) as (c1&Hc1&?).
  destruct (IH _ _ (id_step_ok s k Hs) Hc1) as (c2&?&?). eauto using advanced_trans.
Qed.

Lemma id_step_cases s k :
  id_step s k = s ∨
  (∃ now cov p g, k = Publish now cov p ∧ next_generation s = Ok g ∧
     current (id_step s k)
     = Some (Build_CanonicalIdentitySnapshot g (N.max now (last_issued_at_ms s)) cov)) ∨
  current (id_step s k) = current s ∧ replica_admission_open (id_step s k) = false.
Proof.
  destruct k as [now cov p|]; simpl.
  - destruct (publish_cases s now cov p) as [[e ->]|(g&Hg&_&->)]; [by left|].
    right. left. eauto 10.
  - unfold invalidate_current_snapshot, lock_state. destruct (id_poisoned s); [by left|]. auto.
Qed.

(** Once closed, the admission only reopens with a newer generation. *)
Lemma id_closed_run s ks c c' :
  id_ok s → current s = Some c → replica_admission_open s = false →
  current (id_run s ks) = Some c' → generation c' = generation c →
  replica_admission_open (id_run s ks) = false.
Proof.
  revert s c. induction ks as [|k ks IH]; intros s c Hs Hc Ho Hc' Hg; [done|]. simpl in *.
  destruct (id_step_cases s k) as [Heq|[(now&cov&p&g&->&Hn&Hcur)|[Hcur Hop]]].
  - rewrite Heq in *. eauto.
  - destruct (id_run_advanced _ ks _ (id_step_ok s (Publish now cov p) Hs) Hcur) as (c2&Hc2&Ha).
    simplify_eq. pose proof (next_generation_gt _ _ _ Hn Hc).
    destruct Ha as [->|[]]; simpl in *; lia.
  - eapply IH; [by apply id_step_ok|by rewrite Hcur|done|done|done].
Qed.

Lemma id_run_same_generation s ks c c' :
  id_ok s → current s = Some c → replica_admission_open s = true →
  current (id_run s ks) = Some c' → generation c' = generation c →
  replica_admission_open (id_run s ks) = true → id_run s ks = s.
Proof.
  revert s. induction ks as [|k ks IH]; intros s Hs Hc Ho Hc' Hg Hop; [done|]. simpl in *.
  destruct (id_step_cases s k) as [Heq|[(now&cov&p&g&->&Hn&Hcur)|[Hcur Hcl]]].
  - rewrite Heq in *. eauto.
  - destruct (id_run_advanced _ ks _ (id_step_ok s (Publish now cov p) Hs) Hcur) as (c2&Hc2&Ha).
    simplify_eq. pose proof (next_generation_gt _ _ _ Hn Hc).
    destruct Ha as [->|[]]; simpl in *; lia.
  - rewrite Hc in Hcur.
    pose proof (id_closed_run _ ks _ _ (id_step_ok s k Hs) Hcur Hcl Hc' Hg). congruence.
Qed.

Lemma require_payload_ok s g p :
  require_current_payload s g = Ok p ↔
  id_poisoned s = false ∧ replica_admission_open s = true ∧ current_payload s = Some p ∧
  ∃ c, current s = Some c ∧ generation c = g.
Proof.
  unfold require_current_payload, lock_state.
  destruct (id_poisoned s); simpl; [naive_solver|].
  destruct (current s) as [c|]; [|naive_solver].
  destruct (replica_admission_open s); simpl; [|naive_solver].
  destruct (N.eqb_spec (generation c) g); simpl; [|naive_solver].
  destruct (current_payload s); naive_solver.
Qed.

(** ** Properties *)

(** A replica never sees another identity than the one it was opened
    with: after a publication, whatever is published or invalidated later, the
    payload is served for that generation exactly when nothing has changed
    since, and then it is the published payload. *)
Theorem identity_payload_exact ks0 now cov p s1 snap ks p' :
  publish_snapshot (id_run identity_new ks0) now cov p = (s1, Ok snap) →
  require_current_payload (id_run s1 ks) (generation snap) = Ok p' ↔
  id_run s1 ks = s1 ∧ p' = p.
Proof.
  intros Hp. pose proof (id_run_ok _ ks0 id_new_ok) as Hs. set (s := id_run identity_new ks0) in *.
  assert (id_ok s1) as Hs1.
  { pose proof (id_step_ok s (Publish now cov p) Hs) as H. simpl in H. by rewrite Hp in H. }
  destruct (publish_cases s now cov p) as [[e He]|(g&Hg&Hpo&He)]; rewrite He in Hp; simplify_eq.
  rewrite require_payload_ok. set (s1 := mkIdentity _ _ _ _ _) in *. split.
  - intros (_&Ho&Hpl&c&Hc&Hgc).
    assert (id_run s1 ks = s1) as Heq by by eapply id_run_same_generation.
    split; [done|]. rewrite Heq in Hpl. by simplify_eq/=.
  - intros [-> ->]. split_and!; [done|done|done|by eexists].
Qed.

(** Generations and publication times only move forward, whatever the
    wall clock does: along any sequence of publications and invalidations the
    current snapshot is either the same one, or one with a strictly larger
    generation and a publication time that is no earlier; invalidation keeps
    the generation watermark but no payload. *)
Theorem identity_generation_monotone ks0 ks c :
  current (id_run identity_new ks0) = Some c →
  (∃ c', current (id_run identity_new (ks0 ++ ks)) = Some c' ∧
     (c' = c ∨ (generation c < generation c')%N ∧
               (snap_issued_at_ms c <= snap_issued_at_ms c')%N)) ∧
  (∀ g, id_poisoned (id_run identity_new ks0) = false →
     current (id_run identity_new (ks0 ++ [Invalidate])) = Some c ∧
     require_current_payload (id_run identity_new (ks0 ++ [Invalidate])) g
     = Err (invalidated_identity_error g c)).
Proof.
  intros Hc. unfold id_run in *. rewrite !foldl_app. split.
  - apply (id_run_advanced (id_run identity_new ks0) ks c); [apply id_run_ok, id_new_ok|done].
  - intros g Hp. simpl. unfold invalidate_current_snapshot, lock_state. rewrite Hp. simpl.
    split; [done|]. unfold require_current_payload, lock_state. simpl. by rewrite Hp, Hc.
Qed.
End coordinator.
Arguments id_call Payload : clear implicits.
Arguments IdentityGenerationState Payload : clear implicits.

Definition demo_publications : list (id_call string) :=
  [Publish 50 cookies_only "a"; Publish 40 (current_origin "https://x") "b"].

Lemma identity_payload_exact_witness :
  ∃ s1 snap, publish_snapshot (id_run identity_new demo_publications) 60 cookies_only "c"
             = (s1, Ok snap) ∧ generation snap = 3%N ∧
    require_current_payload (id_run s1 []) 3 = Ok "c" ∧
    require_current_payload (id_run s1 [Invalidate]) 3 ≠ Ok "c".
Proof.
  eexists _, _. split; [vm_compute; reflexivity|]. split; [reflexivity|]. split.
  - destruct (identity_payload_exact demo_publications 60 cookies_only "c" _ _ [] "c" eq_refl)
      as [_ H]. apply H. split; reflexivity.
  - destruct (identity_payload_exact demo_publications 60 cookies_only "c" _ _ [Invalidate] "c"
      eq_refl) as [H _]. intros Hr. destruct (H Hr) as [Heq _]. discriminate Heq.
Defined.

Lemma identity_generation_monotone_witness :
  ∃ c c', current (id_run identity_new [Publish 50 cookies_only "a"]) = Some c ∧
    current (id_run identity_new demo_publications) = Some c' ∧
    snap_issued_at_ms c' = 50%N ∧ (c' = c ∨ (generation c < generation c')%N).
Proof.
  eexists _, _. split; [reflexivity|]. split; [reflexivity|]. split; [reflexivity|].
  edestruct (identity_generation_monotone [Publish 50 cookies_only "a"]
    [Publish 40 (current_origin "https://x") "b"]) as [(c'&Hc'&H) _]; [reflexivity|].
  right. reflexivity.
Defined.
