(* ===== verification/ResourcePolicy.v ===== *)
(** The adaptive browser resource policy
    (crates/backend/nomifun-browser-platform/src/resource.rs): presets, policy
    validation, the lane-memory EWMA, and the admission decision.  [u64] and
    [usize] (64 bits) are [N]; [f64] is the standard library's [spec_float] at
    precision 53 and exponent bound 1024. *)
From S2P Require Import Prelude Float64 BrowserTypes.
From Stdlib Require Import Floats.SpecFloat.

Open Scope N_scope.

Definition MIB : N := 1024 * 1024.
Definition GIB : N := 1024 * MIB.
Definition MAX_ACTIVE_OPERATIONS : N := 64.
Definition MAX_OPEN_LANES : N := 128.
Definition MAX_GLOBAL_QUEUE : N := 256.
Definition MAX_OWNER_QUEUE : N := 32.
Definition MIN_BROWSER_MEMORY_RATIO : f64 := f64_lit 1 10.
Definition MAX_BROWSER_MEMORY_RATIO : f64 := f64_lit 8 10.
Definition MIN_RESERVED_MEMORY_BYTES : N := 256 * MIB.
Definition MAX_RESERVED_MEMORY_BYTES : N := 512 * GIB.

Record ResourcePolicyValidationError := mkPolicyError { pe_field : string; pe_reason : string }.

Inductive ResourcePolicyPreset := Automatic | ResourceSaving | HighConcurrency | Custom.
#[export] Instance ResourcePolicyPreset_eq_dec : EqDecision ResourcePolicyPreset.
Proof. solve_decision. Defined.

Record ResourcePolicy := mkResourcePolicy {
  rp_preset : ResourcePolicyPreset;
  reserved_memory_bytes : N;
  max_browser_memory_ratio : f64;
  lane_cold_start_bytes : N;
  lane_ewma_min_bytes : N;
  lane_ewma_max_bytes : N;
  max_active_operations : N;
  rp_max_open_lanes : N;
  rp_max_global_queue : N;
  rp_max_owner_queue : N;
  sample_period_ms : N;
  lifecycle_sweep_period_ms : N;
  idle_expiry_ms : N;
  pressured_idle_expiry_ms : N;
  host_warm_ms : N;
}.

(** ** Presets *)

Definition automatic (total_memory_bytes logical_cpus : N) : ResourcePolicy :=
  let reserved := N_clamp (total_memory_bytes / 5) (2 * GIB) MAX_RESERVED_MEMORY_BYTES in
  let browser_budget := u64_of_f64 (f64_mul (f64_of_u64 total_memory_bytes) (f64_lit 4 10)) in
  let memory_permits := (browser_budget - N.min reserved browser_budget) / (256 * MIB) in
  let active := N_clamp (N.min memory_permits (u64_sat_mul logical_cpus 2))
                  1 MAX_ACTIVE_OPERATIONS in
  mkResourcePolicy Automatic reserved (f64_lit 4 10) (256 * MIB) (128 * MIB) GIB active
    (N.min (u64_sat_mul active 4) MAX_OPEN_LANES) MAX_GLOBAL_QUEUE MAX_OWNER_QUEUE
    5000 30000 (10 * 60000) (2 * 60000) 60000.

Definition with_concurrency (p : ResourcePolicy) (preset : ResourcePolicyPreset)
    (ratio : f64) (active lanes : N) : ResourcePolicy :=
  mkResourcePolicy preset (reserved_memory_bytes p) ratio (lane_cold_start_bytes p)
    (lane_ewma_min_bytes p) (lane_ewma_max_bytes p) active lanes (rp_max_global_queue p)
    (rp_max_owner_queue p) (sample_period_ms p) (lifecycle_sweep_period_ms p)
    (idle_expiry_ms p) (pressured_idle_expiry_ms p) (host_warm_ms p).

Definition preset (p : ResourcePolicyPreset) (total_memory_bytes logical_cpus : N) :
    ResourcePolicy :=
  let policy := automatic total_memory_bytes logical_cpus in
  match p with
  | Automatic | Custom =>
      with_concurrency policy p (max_browser_memory_ratio policy)
        (max_active_operations policy) (rp_max_open_lanes policy)
  | ResourceSaving =>
      let active := N.max (max_active_operations policy / 2) 1 in
      with_concurrency policy p (f64_lit 3 10) active (N.min (u64_sat_mul active 3) 96)
  | HighConcurrency =>
      let active := N.min (u64_sat_mul (max_active_operations policy) 2) MAX_ACTIVE_OPERATIONS in
      with_concurrency policy p (f64_lit 5 10) active
        (N.min (u64_sat_mul active 4) MAX_OPEN_LANES)
  end.

Definition default_policy : ResourcePolicy := automatic (8 * GIB) 4.

(** ** Validation *)

Definition in_range (lo x hi : N) : bool := (lo <=? x) && (x <=? hi).
Definition policy_check (ok : bool) (field reason : string) :
    result unit ResourcePolicyValidationError :=
  if ok then Ok () else Err (mkPolicyError field reason).

(** The [for] loop over the period fields. *)
Fixpoint check_positive (fields : list (string * N)) :
    result unit ResourcePolicyValidationError :=
  match fields with
  | [] => Ok ()
  | (f, v) :: fields =>
      policy_check (negb (v =? 0)) f "must be greater than zero" ;;? check_positive fields
  end.

Definition validate_policy (p : ResourcePolicy) : result unit ResourcePolicyValidationError :=
  policy_check (f64_is_finite (max_browser_memory_ratio p)
                && (f64_le MIN_BROWSER_MEMORY_RATIO (max_browser_memory_ratio p)
                    && f64_le (max_browser_memory_ratio p) MAX_BROWSER_MEMORY_RATIO))
    "max_browser_memory_ratio" "must be finite and between 0.1 and 0.8" ;;?
  policy_check (in_range MIN_RESERVED_MEMORY_BYTES (reserved_memory_bytes p)
                  MAX_RESERVED_MEMORY_BYTES)
    "reserved_memory_bytes" "is outside the supported range" ;;?
  policy_check (negb (lane_cold_start_bytes p =? 0))
    "lane_cold_start_bytes" "must be greater than zero" ;;?
  policy_check (negb (lane_ewma_min_bytes p =? 0))
    "lane_ewma_min_bytes" "must be greater than zero" ;;?
  policy_check (negb (lane_ewma_max_bytes p =? 0))
    "lane_ewma_max_bytes" "must be greater than zero" ;;?
  policy_check (lane_ewma_min_bytes p <=? lane_ewma_max_bytes p)
    "lane_ewma_min_bytes" "cannot exceed lane_ewma_max_bytes" ;;?
  policy_check (in_range 1 (max_active_operations p) MAX_ACTIVE_OPERATIONS)
    "max_active_operations" "must be between 1 and 64" ;;?
  policy_check (in_range 1 (rp_max_open_lanes p) MAX_OPEN_LANES)
    "max_open_lanes" "must be between 1 and 128" ;;?
  policy_check (in_range 1 (rp_max_global_queue p) MAX_GLOBAL_QUEUE)
    "max_global_queue" "must be between 1 and 256" ;;?
  policy_check (in_range 1 (rp_max_owner_queue p) MAX_OWNER_QUEUE)
    "max_owner_queue" "must be between 1 and 32" ;;?
  policy_check (rp_max_owner_queue p <=? rp_max_global_queue p)
    "max_owner_queue" "cannot exceed max_global_queue" ;;?
  check_positive [("sample_period_ms", sample_period_ms p);
                  ("lifecycle_sweep_period_ms", lifecycle_sweep_period_ms p);
                  ("idle_expiry_ms", idle_expiry_ms p);
                  ("pressured_idle_expiry_ms", pressured_idle_expiry_ms p);
                  ("host_warm_ms", host_warm_ms p)] ;;?
  policy_check (pressured_idle_expiry_ms p <=? idle_expiry_ms p)
    "pressured_idle_expiry_ms" "cannot exceed idle_expiry_ms".

(** ** EWMA *)

Definition next_lane_resource_ewma (current_bytes sample_bytes min_bytes max_bytes : N) : N :=
  let min_bytes := N.min min_bytes max_bytes in
  let current := N_clamp current_bytes min_bytes max_bytes in
  let sample := N_clamp sample_bytes min_bytes max_bytes in
  N_clamp (u64_sat_add (u64_sat_mul current 3) sample / 4) min_bytes max_bytes.

(** ** Decisions *)

Record ResourceTelemetry := mkTelemetry {
  total_memory_bytes : N;
  available_memory_bytes : N;
  chromium_rss_bytes : N;
  logical_cpus : N;
  cpu_pressure : f64;
  gpu_pressure : option f64;
  host_rss_by_process_id : gmap N N;
}.

Record ResourceWorkload := mkWorkload {
  active_lanes : N;
  queued_lanes : N;
  queued_first_lanes : N;
  frozen_lanes : N;
  primary_lanes : N;
  active_operation_permits : N;
  active_heavy_operation_permits : N;
  active_lane_ewma_bytes : N;
  queued_lane_estimate_bytes : N;
}.
Definition default_workload : ResourceWorkload := mkWorkload 0 0 0 0 0 0 0 0 0.

Record ResourceDecision := mkDecision {
  state : ResourcePressureState;
  rd_admit_first_lane : bool;
  rd_admit_expansion_lane : bool;
  operation_weight_limit : N;
  rd_recommended_concurrency : N;
  effective_reserved_memory_bytes : N;
  rd_reason_code : option string;
  first_lane_reason_code : option string;
  expansion_lane_reason_code : option string;
}.

Definition available_operation_concurrency (operation_limit : N) (w : ResourceWorkload) : N :=
  N.max (operation_limit - active_operation_permits w
         - u64_sat_mul (active_heavy_operation_permits w) 2
         - (if 0 <? primary_lanes w then 1 else 0)) 1.

Definition predicted_lane_cost (p : ResourcePolicy) (w : ResourceWorkload) : N :=
  let estimated_lanes := u64_sat_add (active_lanes w) (queued_lanes w) in
  let aggregate := u64_sat_add (active_lane_ewma_bytes w) (queued_lane_estimate_bytes w) in
  let measured_average :=
    if (estimated_lanes =? 0) || (aggregate =? 0) then lane_cold_start_bytes p
    else u64_sat_add aggregate (estimated_lanes - 1) / N.max estimated_lanes 1 in
  N_clamp (N.max measured_average (lane_cold_start_bytes p))
    (N.min (lane_ewma_min_bytes p) (lane_ewma_max_bytes p)) (lane_ewma_max_bytes p).

Definition initial_sample_missing (t : ResourceTelemetry) : bool :=
  (total_memory_bytes t =? 0) && (available_memory_bytes t =? 0)
  && (chromium_rss_bytes t =? 0) && (logical_cpus t =? 0)
  && f64_eq (cpu_pressure t) (S754_zero false)
  && match gpu_pressure t with None => true | Some _ => false end
  && bool_decide (host_rss_by_process_id t = ∅).

(** The reserve a decision enforces. *)
Definition effective_reserve (p : ResourcePolicy) (t : ResourceTelemetry) : N :=
  let total := N.max (total_memory_bytes t) 1 in
  if bool_decide (rp_preset p = Custom) then reserved_memory_bytes p
  else N.max (reserved_memory_bytes p) (u64_of_f64 (f64_mul (f64_of_u64 total) (f64_lit 2 10))).
Definition browser_limit (p : ResourcePolicy) (t : ResourceTelemetry) : N :=
  u64_of_f64 (f64_mul (f64_of_u64 (N.max (total_memory_bytes t) 1)) (max_browser_memory_ratio p)).
Definition operation_limit (p : ResourcePolicy) (t : ResourceTelemetry) : N :=
  let logical_cpu_limit := if logical_cpus t =? 0 then max_active_operations p
                           else N.min (u64_sat_mul (logical_cpus t) 2) 64 in
  N.max (N.min (max_active_operations p) logical_cpu_limit) 1.
Definition gpu_pressured (t : ResourceTelemetry) : bool :=
  match gpu_pressure t with
  | Some x => f64_is_finite x && f64_le (f64_lit 9 10) x
  | None => false
  end.

(** The budgets a new lane must fit. *)
Definition first_lane_budget (p : ResourcePolicy) (w : ResourceWorkload) : N :=
  let predicted := predicted_lane_cost p w in
  u64_sat_add predicted (u64_sat_mul predicted (active_heavy_operation_permits w) / 2).
Definition expansion_lane_budget (p : ResourcePolicy) (w : ResourceWorkload) : N :=
  let predicted := predicted_lane_cost p w in
  let reserve := u64_sat_add (u64_sat_mul predicted (N.min (queued_first_lanes w) 1))
                   (if 0 <? primary_lanes w then predicted / 4 else 0) in
  u64_sat_add (first_lane_budget p w) reserve.

Definition decide_with_workload (p : ResourcePolicy) (t : ResourceTelemetry)
    (w : ResourceWorkload) : ResourceDecision :=
  if initial_sample_missing t then
    mkDecision PressureNormal true true (N.max (max_active_operations p) 1)
      (available_operation_concurrency (max_active_operations p) w)
      (reserved_memory_bytes p) None None None
  else
  let operation_limit := operation_limit p t in
  let static_recommendation := available_operation_concurrency operation_limit w in
  let reserved := effective_reserve p t in
  let browser_limit := browser_limit p t in
  let predicted := predicted_lane_cost p w in
  let system_headroom := available_memory_bytes t - reserved in
  let first_lane_system_headroom :=
    if active_lanes w =? 0 then available_memory_bytes t - reserved / 2 else system_headroom in
  let browser_headroom := browser_limit - chromium_rss_bytes t in
  let first_headroom := N.min first_lane_system_headroom browser_headroom in
  let expansion_headroom := N.min system_headroom browser_headroom in
  let critical := (available_memory_bytes t <? reserved / 2)
                  || (browser_limit <? chromium_rss_bytes t) in
  let operation_load := u64_sat_add (active_operation_permits w)
                          (u64_sat_mul (active_heavy_operation_permits w) 2) in
  let permit_saturated := operation_limit <=? operation_load in
  let first_budget_available := first_lane_budget p w <=? first_headroom in
  let expansion_budget_available := expansion_lane_budget p w <=? expansion_headroom in
  let pressured := negb critical
    && ((available_memory_bytes t <? reserved)
        || (u64_sat_mul browser_limit 85 / 100 <? chromium_rss_bytes t)
        || f64_le (f64_lit 9 10) (cpu_pressure t)
        || gpu_pressured t || permit_saturated
        || negb first_budget_available || negb expansion_budget_available) in
  let '(critical, pressured) :=
    if browser_limit =? 0 then (true, false) else (critical, pressured) in
  let st := if critical then Critical else if pressured then Pressured else PressureNormal in
  let safe_total := N.min browser_limit (u64_sat_add (chromium_rss_bytes t) system_headroom) in
  let lane_capacity := safe_total / N.max predicted 1 - frozen_lanes w in
  let pressure_cap := match st with
    | PressureNormal => operation_limit
    | Pressured => N.max (operation_limit / 2) 1
    | Critical => 1
    end in
  let admit_first := negb critical && first_budget_available in
  let admit_expansion := bool_decide (st = PressureNormal) && expansion_budget_available in
  let first_reason := if admit_first then None else Some "system_memory_pressure"%string in
  let expansion_reason :=
    if admit_expansion then None
    else if negb admit_first || bool_decide (st = Critical) then Some "system_memory_pressure"%string
    else Some "browser_resource_pressure"%string in
  mkDecision st admit_first admit_expansion
    (N.max (N.min pressure_cap (N.max lane_capacity 1)) 1)
    (N.max (N.min (N.min pressure_cap (N.max lane_capacity 1)) static_recommendation) 1)
    reserved (match first_reason with Some r => Some r | None => expansion_reason end)
    first_reason expansion_reason.

Definition decide_telemetry (p : ResourcePolicy) (t : ResourceTelemetry) : ResourceDecision :=
  decide_with_workload p t default_workload.

(** ** Properties *)

Lemma in_range_spec lo x hi : in_range lo x hi = true ↔ lo <= x ∧ x <= hi.
Proof. unfold in_range. rewrite andb_true_iff, !N.leb_le. done. Qed.

Lemma N_clamp_spec x lo hi : lo <= hi → lo <= N_clamp x lo hi ∧ N_clamp x lo hi <= hi.
Proof. unfold N_clamp. lia. Qed.

Lemma policy_check_ok b f r : b = true → policy_check b f r = Ok ().
Proof. by intros ->. Qed.

Lemma automatic_bounds total cpus :
  MIN_RESERVED_MEMORY_BYTES <= reserved_memory_bytes (automatic total cpus) ∧
  reserved_memory_bytes (automatic total cpus) <= MAX_RESERVED_MEMORY_BYTES ∧
  1 <= max_active_operations (automatic total cpus) ∧
  max_active_operations (automatic total cpus) <= 64.
Proof.
  unfold automatic, reserved_memory_bytes, max_active_operations.
  match goal with |- context [N_clamp ?x (2 * GIB) ?h] =>
    destruct (N_clamp_spec x (2 * GIB) h ltac:(done)) as [H1 H2] end.
  match goal with |- context [N_clamp ?x 1 ?h] =>
    destruct (N_clamp_spec x 1 h ltac:(done)) as [H3 H4] end.
  split_and!; [|done..]. etransitivity; [|exact H1]. done.
Qed.

Lemma with_concurrency_valid total cpus p ratio active lanes :
  f64_is_finite ratio && (f64_le MIN_BROWSER_MEMORY_RATIO ratio
    && f64_le ratio MAX_BROWSER_MEMORY_RATIO) = true →
  1 <= active ∧ active <= 64 → 1 <= lanes ∧ lanes <= 128 →
  validate_policy (with_concurrency (automatic total cpus) p ratio active lanes) = Ok ().
Proof.
  intros Hr Ha Hl. destruct (automatic_bounds total cpus) as (H1&H2&_&_).
  unfold validate_policy, with_concurrency.
  rewrite (policy_check_ok (f64_is_finite _ && _)) by exact Hr.
  rewrite (policy_check_ok (in_range MIN_RESERVED_MEMORY_BYTES _ _)) by (by apply in_range_spec).
  rewrite (policy_check_ok (in_range 1 active _)) by (by apply in_range_spec).
  by rewrite (policy_check_ok (in_range 1 lanes _)) by (by apply in_range_spec).
Qed.

(** Every preset, on every machine (any memory size, any number of CPUs),
    is a policy that the validation accepts. *)
Theorem resource_presets_valid p total cpus :
  validate_policy (preset p total cpus) = Ok ().
Proof.
  destruct (automatic_bounds total cpus) as (_&_&H1&H2).
  assert (∀ a k c, 1 <= a ∧ a <= 64 → 1 <= k ∧ k <= 4 → 1 <= c ∧ c <= 128 →
            1 <= N.min (u64_sat_mul a k) c ∧ N.min (u64_sat_mul a k) c <= 128) as Hmul
    by (unfold u64_sat_mul, u64_max; nia).
  unfold preset.
  change (max_browser_memory_ratio (automatic total cpus)) with (f64_lit 4 10).
  change (rp_max_open_lanes (automatic total cpus))
    with (N.min (u64_sat_mul (max_active_operations (automatic total cpus)) 4) MAX_OPEN_LANES).
  generalize dependent (max_active_operations (automatic total cpus)). intros a H1 H2.
  assert (a / 2 <= 64) by (apply N.Div0.div_le_upper_bound; lia).
  destruct p; (apply with_concurrency_valid; [reflexivity| |apply Hmul; try done]);
    unfold u64_sat_mul, MAX_ACTIVE_OPERATIONS, u64_max; lia.
Qed.

(** The lane-memory EWMA stays within its bounds for any inputs (even
    swapped bounds), and for bounds below a quarter of the word size it is a
    true average: the new estimate lies between the clamped old estimate and
    the clamped sample, and an equal sample leaves it alone. *)
Theorem resource_ewma_bounds cur sample lo hi :
  let lo' := N.min lo hi in
  let c := N_clamp cur lo' hi in
  let s := N_clamp sample lo' hi in
  let r := next_lane_resource_ewma cur sample lo hi in
  lo' <= r ∧ r <= hi ∧
  (4 * hi <= u64_max → (3 * c + s) / 4 = r ∧ N.min c s <= r ∧ r <= N.max c s).
Proof.
  intros lo' c s r.
  assert (lo' <= r ∧ r <= hi) as [H1 H2] by (apply N_clamp_spec; lia).
  split_and!; [done|done|]. intros Hhi.
  assert (lo' <= c ∧ c <= hi) as [Hc1 Hc2] by (apply N_clamp_spec; lia).
  assert (lo' <= s ∧ s <= hi) as [Hs1 Hs2] by (apply N_clamp_spec; lia).
  assert ((3 * c + s) / 4 = r) as Hr.
  { unfold r, next_lane_resource_ewma. fold lo'. fold c. fold s.
    assert (u64_sat_mul c 3 = c * 3) as -> by (unfold u64_sat_mul; lia).
    rewrite u64_sat_add_exact by (unfold is_u64; lia). rewrite (N.mul_comm c 3).
    assert (lo' <= (3 * c + s) / 4) by (apply N.div_le_lower_bound; lia).
    assert ((3 * c + s) / 4 <= hi) by (apply N.Div0.div_le_upper_bound; lia).
    unfold N_clamp. lia. }
  split; [done|]. rewrite <-Hr. split.
  - apply N.div_le_lower_bound; lia.
  - apply N.Div0.div_le_upper_bound; lia.
Qed.

Lemma resource_ewma_bounds_witness :
  next_lane_resource_ewma 100 500 64 400 = 175 ∧ N.min 100 400 <= 175.
Proof.
  split; [reflexivity|].
  destruct (resource_ewma_bounds 100 500 64 400) as (_&_&H).
  destruct H as (_&H&_); [unfold u64_max; lia|exact H].
Defined.

(** Admission is safe.  An expansion lane is only admitted under normal
    pressure, and then a first lane is admitted as well; on a real sample,
    memory below half the reserve, Chromium above the browser limit, and a
    zero limit are each critical and admit nothing; an admitted first lane
    fits the browser headroom and the system headroom that applies to it, and
    an admitted expansion lane fits both above the full reserve. *)
Theorem resource_admission_safe p t w :
  let d := decide_with_workload p t w in
  (rd_admit_expansion_lane d = true →
     state d = PressureNormal ∧ rd_admit_first_lane d = true) ∧
  (initial_sample_missing t = false →
     (state d = Critical ↔
        available_memory_bytes t < effective_reserve p t / 2 ∨
        browser_limit p t < chromium_rss_bytes t ∨ browser_limit p t = 0) ∧
     (state d = Critical →
        rd_admit_first_lane d = false ∧ rd_admit_expansion_lane d = false) ∧
     (rd_admit_first_lane d = true →
        first_lane_budget p w <= browser_limit p t - chromium_rss_bytes t ∧
        first_lane_budget p w <=
          available_memory_bytes t
          - (if active_lanes w =? 0 then effective_reserve p t / 2 else effective_reserve p t)) ∧
     (rd_admit_expansion_lane d = true →
        expansion_lane_budget p w <= browser_limit p t - chromium_rss_bytes t ∧
        expansion_lane_budget p w <= available_memory_bytes t - effective_reserve p t)).
Proof.
  intros d. unfold d, decide_with_workload. clear d.
  destruct (initial_sample_missing t); [by split|].
  set (L := browser_limit p t). set (R := effective_reserve p t).
  set (A := available_memory_bytes t). set (C := chromium_rss_bytes t).
  set (F := first_lane_budget p w). set (E := expansion_lane_budget p w).
  match goal with |- context [if L =? 0 then _ else (_, negb ?c && (?x || negb ?f || negb ?e))] =>
    set (crit := c); set (other := x); set (fb := f); set (eb := e) end.
  assert (crit = true ↔ A < R / 2 ∨ L < C) as Hcrit.
  { unfold crit. rewrite orb_true_iff, !N.ltb_lt. done. }
  assert (eb = true → E <= L - C ∧ E <= A - R) as He by (unfold eb; rewrite N.leb_le; lia).
  assert (fb = true → F <= L - C ∧
    F <= A - (if active_lanes w =? 0 then R / 2 else R)) as Hf
    by (unfold fb; rewrite N.leb_le; destruct (_ =? 0); lia).
  clearbody L R A C F E crit other fb eb.
  destruct (N.eqb_spec L 0) as [HL|HL], crit, other, fb, eb; simpl;
    (split; [by auto|]); intros _;
    split_and!; auto; try (split; [intros _; intuition|done]); try (by intros; intuition);
    split; try done; intros [?|[?|?]]; exfalso; intuition.
Qed.

Lemma resource_admission_safe_witness :
  let t := mkTelemetry (16 * GIB) (1 * GIB) (1 * GIB) 8 (S754_zero false) None ∅ in
  initial_sample_missing t = false ∧
  state (decide_with_workload (automatic (16 * GIB) 8) t default_workload) = Critical ∧
  rd_admit_first_lane (decide_with_workload (automatic (16 * GIB) 8) t default_workload) = false.
Proof.
  intros t. split; [reflexivity|]. assert (initial_sample_missing t = false) as Hi by reflexivity.
  destruct (resource_admission_safe (automatic (16 * GIB) 8) t default_workload) as [_ H].
  destruct (H Hi) as ([_ Hc]&Hn&_).
  assert (state (decide_with_workload (automatic (16 * GIB) 8) t default_workload) = Critical)
    as Hs by (apply Hc; left; vm_compute; reflexivity).
  split; [exact Hs|]. apply Hn, Hs.
Defined.

(** The concurrency a decision grants is bounded: at least one operation
    may always run, the recommendation never exceeds the hard weight limit,
    which never exceeds the policy's cap; under pressure it is at most half
    the operation limit, and at critical pressure it is one. *)
Theorem resource_concurrency_bounds p t w :
  let d := decide_with_workload p t w in
  1 <= rd_recommended_concurrency d ∧
  rd_recommended_concurrency d <= operation_weight_limit d ∧
  operation_weight_limit d <= N.max (max_active_operations p) 1 ∧
  (initial_sample_missing t = false → operation_weight_limit d <= operation_limit p t) ∧
  (state d = Pressured → operation_weight_limit d <= N.max (operation_limit p t / 2) 1) ∧
  (state d = Critical → operation_weight_limit d = 1).
Proof.
  intros d. unfold d, decide_with_workload. clear d.
  assert (operation_limit p t <= N.max (max_active_operations p) 1) as Hol.
  { unfold operation_limit. lia. }
  assert (1 <= operation_limit p t) as Hol1 by (unfold operation_limit; lia).
  assert (operation_limit p t / 2 <= operation_limit p t)
    by (apply N.Div0.div_le_upper_bound; lia).
  assert (∀ l, available_operation_concurrency l w <= N.max l 1) as Hav
    by (intros l; unfold available_operation_concurrency; lia).
  assert (∀ l, 1 <= available_operation_concurrency l w) as Hav1
    by (intros l; unfold available_operation_concurrency; lia).
  destruct (initial_sample_missing t).
  { cbn [operation_weight_limit rd_recommended_concurrency state].
    pose proof (Hav (max_active_operations p)). pose proof (Hav1 (max_active_operations p)).
    split_and!; try done; lia. }
  match goal with |- context [if browser_limit p t =? 0 then _ else ?x] => destruct x as [cr pr] end.
  set (ol := operation_limit p t) in *. clearbody ol.
  destruct (browser_limit p t =? 0); [|destruct cr; [|destruct pr]];
    cbn [operation_weight_limit rd_recommended_concurrency state];
    split_and!; try done; lia.
Qed.

Lemma resource_concurrency_bounds_witness :
  let t := mkTelemetry (16 * GIB) (1 * GIB) (1 * GIB) 8 (S754_zero false) None ∅ in
  operation_weight_limit (decide_with_workload (automatic (16 * GIB) 8) t default_workload) = 1.
Proof.
  intros t.
  destruct (resource_concurrency_bounds (automatic (16 * GIB) 8) t default_workload)
    as (_&_&_&_&_&H).
  apply H. vm_compute. reflexivity.
Defined.
