(* ===== verification/ExecTypes.v ===== *)
(** Vocabulary of the agent-execution domain: the wire enumerations and status
    machines (crates/backend/nomifun-common/src/agent_execution.rs and
    crates/agent/nomi-types/src/agent.rs), the records of the execution
    aggregate (crates/backend/nomifun-api-types/src/agent_execution.rs) and the
    application error (crates/backend/nomifun-common/src/error.rs). *)
From S2P Require Import Prelude Float64.

(** ** Wire enumerations

    [string_enum!] generates, for every enumeration, [as_str] and a [from_str]
    that tries the wire names in order. *)

Record UnknownAgentExecutionValue := mkUnknown { uv_kind : string; uv_value : string }.

Record UnknownAgentExecutionStatus := mkUnknownStatus { us_value : string }.

Class WireEnum (A : Type) := {
  wire_error : Type;
  unknown_value : string → wire_error;
  variants : list A;
  as_str : A → string;
}.
Definition from_str {A} `{WireEnum A} (value : string) : result A wire_error :=
  match list_find (λ v, as_str v = value) variants with
  | Some (_, v) => Ok v
  | None => Err (unknown_value value)
  end.

(** What the macro's [match] relies on: every variant is listed, and no two
    wire names are equal. *)
Class LawfulWireEnum (A : Type) `{WireEnum A} : Prop := {
  variants_complete : ∀ v : A, v ∈ variants;
  variants_distinct : NoDup (as_str <$> variants);
}.
Ltac solve_wire_enum :=
  split; [intros []; vm_compute; repeat (apply list_elem_of_here || apply list_elem_of_further)
         |apply (bool_decide_unpack _); vm_compute; exact I].

Inductive AgentExecutionActorType :=
| ActorSystem | ActorUser | ActorAgent.
#[export] Instance AgentExecutionActorType_eq_dec : EqDecision AgentExecutionActorType.
Proof. solve_decision. Defined.
Definition AgentExecutionActorType_str (v : AgentExecutionActorType) : string :=
  match v with
  | ActorSystem => "system" | ActorUser => "user" | ActorAgent => "agent"
  end.
#[export] Instance AgentExecutionActorType_wire : WireEnum AgentExecutionActorType := {
  wire_error := UnknownAgentExecutionValue;
  unknown_value := mkUnknown "AgentExecutionActorType";
  variants := [ActorSystem; ActorUser; ActorAgent];
  as_str := AgentExecutionActorType_str;
}.
#[export] Instance AgentExecutionActorType_lawful : LawfulWireEnum AgentExecutionActorType.
Proof. solve_wire_enum. Qed.

Inductive DelegationPolicy :=
| DelegationDisabled | DelegationAutomatic | DelegationPreferParallel.
#[export] Instance DelegationPolicy_eq_dec : EqDecision DelegationPolicy.
Proof. solve_decision. Defined.
Definition DelegationPolicy_str (v : DelegationPolicy) : string :=
  match v with
  | DelegationDisabled => "disabled" | DelegationAutomatic => "automatic"
  | DelegationPreferParallel => "prefer_parallel"
  end.
#[export] Instance DelegationPolicy_wire : WireEnum DelegationPolicy := {
  wire_error := UnknownAgentExecutionValue;
  unknown_value := mkUnknown "DelegationPolicy";
  variants := [DelegationDisabled; DelegationAutomatic; DelegationPreferParallel];
  as_str := DelegationPolicy_str;
}.
#[export] Instance DelegationPolicy_lawful : LawfulWireEnum DelegationPolicy.
Proof. solve_wire_enum. Qed.

Inductive PlanGate :=
| GateAutomatic | GateRequireApproval.
#[export] Instance PlanGate_eq_dec : EqDecision PlanGate.
Proof. solve_decision. Defined.
Definition PlanGate_str (v : PlanGate) : string :=
  match v with
  | GateAutomatic => "automatic" | GateRequireApproval => "require_approval"
  end.
#[export] Instance PlanGate_wire : WireEnum PlanGate := {
  wire_error := UnknownAgentExecutionValue;
  unknown_value := mkUnknown "PlanGate";
  variants := [GateAutomatic; GateRequireApproval];
  as_str := PlanGate_str;
}.
#[export] Instance PlanGate_lawful : LawfulWireEnum PlanGate.
Proof. solve_wire_enum. Qed.

Inductive AdaptationPolicy :=
| AdaptationFixed | AdaptationAdaptive.
#[export] Instance AdaptationPolicy_eq_dec : EqDecision AdaptationPolicy.
Proof. solve_decision. Defined.
Definition AdaptationPolicy_str (v : AdaptationPolicy) : string :=
  match v with
  | AdaptationFixed => "fixed" | AdaptationAdaptive => "adaptive"
  end.
#[export] Instance AdaptationPolicy_wire : WireEnum AdaptationPolicy := {
  wire_error := UnknownAgentExecutionValue;
  unknown_value := mkUnknown "AdaptationPolicy";
  variants := [AdaptationFixed; AdaptationAdaptive];
  as_str := AdaptationPolicy_str;
}.
#[export] Instance AdaptationPolicy_lawful : LawfulWireEnum AdaptationPolicy.
Proof. solve_wire_enum. Qed.

Inductive DecisionPolicy :=
| DecisionAutomatic | DecisionAskUser.
#[export] Instance DecisionPolicy_eq_dec : EqDecision DecisionPolicy.
Proof. solve_decision. Defined.
Definition DecisionPolicy_str (v : DecisionPolicy) : string :=
  match v with
  | DecisionAutomatic => "automatic" | DecisionAskUser => "ask_user"
  end.
#[export] Instance DecisionPolicy_wire : WireEnum DecisionPolicy := {
  wire_error := UnknownAgentExecutionValue;
  unknown_value := mkUnknown "DecisionPolicy";
  variants := [DecisionAutomatic; DecisionAskUser];
  as_str := DecisionPolicy_str;
}.
#[export] Instance DecisionPolicy_lawful : LawfulWireEnum DecisionPolicy.
Proof. solve_wire_enum. Qed.

Inductive ExecutionStepKind :=
| KindAgent | KindVerify | KindJudge | KindLoop.
#[export] Instance ExecutionStepKind_eq_dec : EqDecision ExecutionStepKind.
Proof. solve_decision. Defined.
Definition ExecutionStepKind_str (v : ExecutionStepKind) : string :=
  match v with
  | KindAgent => "agent" | KindVerify => "verify" | KindJudge => "judge" | KindLoop => "loop"
  end.
#[export] Instance ExecutionStepKind_wire : WireEnum ExecutionStepKind := {
  wire_error := UnknownAgentExecutionValue;
  unknown_value := mkUnknown "ExecutionStepKind";
  variants := [KindAgent; KindVerify; KindJudge; KindLoop];
  as_str := ExecutionStepKind_str;
}.
#[export] Instance ExecutionStepKind_lawful : LawfulWireEnum ExecutionStepKind.
Proof. solve_wire_enum. Qed.

Inductive AgentStepMode :=
| ModeNormal | ModeSynthesis.
#[export] Instance AgentStepMode_eq_dec : EqDecision AgentStepMode.
Proof. solve_decision. Defined.
Definition AgentStepMode_str (v : AgentStepMode) : string :=
  match v with
  | ModeNormal => "normal" | ModeSynthesis => "synthesis"
  end.
#[export] Instance AgentStepMode_wire : WireEnum AgentStepMode := {
  wire_error := UnknownAgentExecutionValue;
  unknown_value := mkUnknown "AgentStepMode";
  variants := [ModeNormal; ModeSynthesis];
  as_str := AgentStepMode_str;
}.
#[export] Instance AgentStepMode_lawful : LawfulWireEnum AgentStepMode.
Proof. solve_wire_enum. Qed.

Inductive ExecutionStepStatus :=
| StepPending | StepRunning | StepWaitingInput | StepCompleted | StepFailed | StepSkipped
| StepCancelled.
#[export] Instance ExecutionStepStatus_eq_dec : EqDecision ExecutionStepStatus.
Proof. solve_decision. Defined.
Definition ExecutionStepStatus_str (v : ExecutionStepStatus) : string :=
  match v with
  | StepPending => "pending" | StepRunning => "running" | StepWaitingInput => "waiting_input"
  | StepCompleted => "completed" | StepFailed => "failed" | StepSkipped => "skipped"
  | StepCancelled => "cancelled"
  end.
#[export] Instance ExecutionStepStatus_wire : WireEnum ExecutionStepStatus := {
  wire_error := UnknownAgentExecutionValue;
  unknown_value := mkUnknown "ExecutionStepStatus";
  variants := [StepPending; StepRunning; StepWaitingInput; StepCompleted; StepFailed;
    StepSkipped; StepCancelled];
  as_str := ExecutionStepStatus_str;
}.
#[export] Instance ExecutionStepStatus_lawful : LawfulWireEnum ExecutionStepStatus.
Proof. solve_wire_enum. Qed.

Inductive ExecutionAttemptStatus :=
| AttemptQueued | AttemptRunning | AttemptWaitingInput | AttemptCompleted | AttemptFailed
| AttemptCancelled | AttemptInterrupted.
#[export] Instance ExecutionAttemptStatus_eq_dec : EqDecision ExecutionAttemptStatus.
Proof. solve_decision. Defined.
Definition ExecutionAttemptStatus_str (v : ExecutionAttemptStatus) : string :=
  match v with
  | AttemptQueued => "queued" | AttemptRunning => "running"
  | AttemptWaitingInput => "waiting_input" | AttemptCompleted => "completed"
  | AttemptFailed => "failed" | AttemptCancelled => "cancelled"
  | AttemptInterrupted => "interrupted"
  end.
#[export] Instance ExecutionAttemptStatus_wire : WireEnum ExecutionAttemptStatus := {
  wire_error := UnknownAgentExecutionValue;
  unknown_value := mkUnknown "ExecutionAttemptStatus";
  variants := [AttemptQueued; AttemptRunning; AttemptWaitingInput; AttemptCompleted;
    AttemptFailed; AttemptCancelled; AttemptInterrupted];
  as_str := ExecutionAttemptStatus_str;
}.
#[export] Instance ExecutionAttemptStatus_lawful : LawfulWireEnum ExecutionAttemptStatus.
Proof. solve_wire_enum. Qed.

Inductive ConversationExecutionRelation :=
| RelationLead | RelationAttempt.
#[export] Instance ConversationExecutionRelation_eq_dec : EqDecision ConversationExecutionRelation.
Proof. solve_decision. Defined.
Definition ConversationExecutionRelation_str (v : ConversationExecutionRelation) : string :=
  match v with
  | RelationLead => "lead" | RelationAttempt => "attempt"
  end.
#[export] Instance ConversationExecutionRelation_wire : WireEnum ConversationExecutionRelation := {
  wire_error := UnknownAgentExecutionValue;
  unknown_value := mkUnknown "ConversationExecutionRelation";
  variants := [RelationLead; RelationAttempt];
  as_str := ConversationExecutionRelation_str;
}.
#[export] Instance ConversationExecutionRelation_lawful : LawfulWireEnum ConversationExecutionRelation.
Proof. solve_wire_enum. Qed.

Inductive StepFailurePolicy :=
| FailExecution | SkipDependents.
#[export] Instance StepFailurePolicy_eq_dec : EqDecision StepFailurePolicy.
Proof. solve_decision. Defined.
Definition StepFailurePolicy_str (v : StepFailurePolicy) : string :=
  match v with
  | FailExecution => "fail_execution" | SkipDependents => "skip_dependents"
  end.
#[export] Instance StepFailurePolicy_wire : WireEnum StepFailurePolicy := {
  wire_error := UnknownAgentExecutionValue;
  unknown_value := mkUnknown "StepFailurePolicy";
  variants := [FailExecution; SkipDependents];
  as_str := StepFailurePolicy_str;
}.
#[export] Instance StepFailurePolicy_lawful : LawfulWireEnum StepFailurePolicy.
Proof. solve_wire_enum. Qed.

Inductive ParticipantAssignmentSource :=
| AssignedPlanner | AssignedAutomatic | AssignedManual.
#[export] Instance ParticipantAssignmentSource_eq_dec : EqDecision ParticipantAssignmentSource.
Proof. solve_decision. Defined.
Definition ParticipantAssignmentSource_str (v : ParticipantAssignmentSource) : string :=
  match v with
  | AssignedPlanner => "planner" | AssignedAutomatic => "automatic"
  | AssignedManual => "manual"
  end.
#[export] Instance ParticipantAssignmentSource_wire : WireEnum ParticipantAssignmentSource := {
  wire_error := UnknownAgentExecutionValue;
  unknown_value := mkUnknown "ParticipantAssignmentSource";
  variants := [AssignedPlanner; AssignedAutomatic; AssignedManual];
  as_str := ParticipantAssignmentSource_str;
}.
#[export] Instance ParticipantAssignmentSource_lawful : LawfulWireEnum ParticipantAssignmentSource.
Proof. solve_wire_enum. Qed.

Inductive AgentExecutionEventKind :=
| EventCreated | EventStatusChanged | EventPlanChanged | EventStepChanged
| EventAttemptChanged | EventDecisionRequested | EventDecisionAnswered | EventDeleted.
#[export] Instance AgentExecutionEventKind_eq_dec : EqDecision AgentExecutionEventKind.
Proof. solve_decision. Defined.
Definition AgentExecutionEventKind_str (v : AgentExecutionEventKind) : string :=
  match v with
  | EventCreated => "created" | EventStatusChanged => "status_changed"
  | EventPlanChanged => "plan_changed" | EventStepChanged => "step_changed"
  | EventAttemptChanged => "attempt_changed" | EventDecisionRequested => "decision_requested"
  | EventDecisionAnswered => "decision_answered" | EventDeleted => "deleted"
  end.
#[export] Instance AgentExecutionEventKind_wire : WireEnum AgentExecutionEventKind := {
  wire_error := UnknownAgentExecutionValue;
  unknown_value := mkUnknown "AgentExecutionEventKind";
  variants := [EventCreated; EventStatusChanged; EventPlanChanged; EventStepChanged;
    EventAttemptChanged; EventDecisionRequested; EventDecisionAnswered; EventDeleted];
  as_str := AgentExecutionEventKind_str;
}.
#[export] Instance AgentExecutionEventKind_lawful : LawfulWireEnum AgentExecutionEventKind.
Proof. solve_wire_enum. Qed.

Inductive AgentExecutionStatus :=
| ExecutionPlanning | ExecutionAwaitingApproval | ExecutionRunning | ExecutionPaused
| ExecutionWaitingInput | ExecutionCompleted | ExecutionCompletedWithFailures
| ExecutionFailed | ExecutionCancelled.
#[export] Instance AgentExecutionStatus_eq_dec : EqDecision AgentExecutionStatus.
Proof. solve_decision. Defined.
Definition AgentExecutionStatus_str (v : AgentExecutionStatus) : string :=
  match v with
  | ExecutionPlanning => "planning" | ExecutionAwaitingApproval => "awaiting_approval"
  | ExecutionRunning => "running" | ExecutionPaused => "paused"
  | ExecutionWaitingInput => "waiting_input" | ExecutionCompleted => "completed"
  | ExecutionCompletedWithFailures => "completed_with_failures" | ExecutionFailed => "failed"
  | ExecutionCancelled => "cancelled"
  end.
#[export] Instance AgentExecutionStatus_wire : WireEnum AgentExecutionStatus := {
  wire_error := UnknownAgentExecutionStatus;
  unknown_value := mkUnknownStatus;
  variants := [ExecutionPlanning; ExecutionAwaitingApproval; ExecutionRunning; ExecutionPaused;
    ExecutionWaitingInput; ExecutionCompleted; ExecutionCompletedWithFailures; ExecutionFailed;
    ExecutionCancelled];
  as_str := AgentExecutionStatus_str;
}.
#[export] Instance AgentExecutionStatus_lawful : LawfulWireEnum AgentExecutionStatus.
Proof. solve_wire_enum. Qed.

Inductive AgentToolPolicy :=
| ToolsFull | ToolsFilesShell | ToolsReadOnly | ToolsReadShell.
#[export] Instance AgentToolPolicy_eq_dec : EqDecision AgentToolPolicy.
Proof. solve_decision. Defined.
Definition AgentToolPolicy_str (v : AgentToolPolicy) : string :=
  match v with
  | ToolsFull => "full" | ToolsFilesShell => "files_shell" | ToolsReadOnly => "read_only"
  | ToolsReadShell => "read_shell"
  end.
#[export] Instance AgentToolPolicy_wire : WireEnum AgentToolPolicy := {
  wire_error := string;
  unknown_value v := "unknown Agent tool policy '" +:+ v +:+ "'";
  variants := [ToolsFull; ToolsFilesShell; ToolsReadOnly; ToolsReadShell];
  as_str := AgentToolPolicy_str;
}.
#[export] Instance AgentToolPolicy_lawful : LawfulWireEnum AgentToolPolicy.
Proof. solve_wire_enum. Qed.

(** ** Status machines *)

Definition attempt_is_terminal (s : ExecutionAttemptStatus) : bool :=
  match s with
  | AttemptCompleted | AttemptFailed | AttemptCancelled | AttemptInterrupted => true
  | _ => false
  end.
Definition attempt_can_transition_to (s next : ExecutionAttemptStatus) : bool :=
  bool_decide (s = next) ||
  match s with
  | AttemptQueued => match next with AttemptRunning | AttemptCancelled => true | _ => false end
  | AttemptRunning =>
      match next with
      | AttemptWaitingInput | AttemptCompleted | AttemptFailed | AttemptCancelled
      | AttemptInterrupted => true
      | _ => false
      end
  | AttemptWaitingInput =>
      match next with
      | AttemptRunning | AttemptCompleted | AttemptFailed | AttemptCancelled
      | AttemptInterrupted => true
      | _ => false
      end
  | AttemptCompleted | AttemptFailed | AttemptCancelled | AttemptInterrupted => false
  end.

Definition step_is_terminal (s : ExecutionStepStatus) : bool :=
  match s with
  | StepCompleted | StepFailed | StepSkipped | StepCancelled => true
  | _ => false
  end.
Definition step_can_transition_to (s next : ExecutionStepStatus) : bool :=
  bool_decide (s = next) ||
  match s with
  | StepPending =>
      match next with
      | StepRunning | StepCompleted | StepFailed | StepSkipped | StepCancelled => true
      | _ => false
      end
  | StepRunning =>
      match next with
      | StepPending | StepWaitingInput | StepCompleted | StepFailed | StepCancelled => true
      | _ => false
      end
  | StepWaitingInput =>
      match next with
      | StepPending | StepRunning | StepCompleted | StepFailed | StepCancelled => true
      | _ => false
      end
  | StepCompleted => match next with StepPending => true | _ => false end
  | StepFailed | StepSkipped =>
      match next with StepPending | StepCompleted => true | _ => false end
  | StepCancelled => false
  end.

Definition execution_is_terminal (s : AgentExecutionStatus) : bool :=
  match s with
  | ExecutionCompleted | ExecutionCompletedWithFailures | ExecutionFailed
  | ExecutionCancelled => true
  | _ => false
  end.
Definition execution_can_transition_to (s next : AgentExecutionStatus) : bool :=
  bool_decide (s = next) ||
  match s with
  | ExecutionPlanning =>
      match next with
      | ExecutionAwaitingApproval | ExecutionRunning | ExecutionFailed | ExecutionCancelled => true
      | _ => false
      end
  | ExecutionAwaitingApproval =>
      match next with
      | ExecutionRunning | ExecutionFailed | ExecutionCancelled => true
      | _ => false
      end
  | ExecutionRunning =>
      match next with
      | ExecutionAwaitingApproval | ExecutionPaused | ExecutionWaitingInput | ExecutionCompleted
      | ExecutionCompletedWithFailures | ExecutionFailed | ExecutionCancelled => true
      | _ => false
      end
  | ExecutionPaused =>
      match next with
      | ExecutionAwaitingApproval | ExecutionRunning | ExecutionWaitingInput | ExecutionFailed
      | ExecutionCancelled => true
      | _ => false
      end
  | ExecutionWaitingInput =>
      match next with
      | ExecutionAwaitingApproval | ExecutionRunning | ExecutionPaused | ExecutionFailed
      | ExecutionCancelled => true
      | _ => false
      end
  | ExecutionCompleted | ExecutionCompletedWithFailures | ExecutionFailed =>
      match next with ExecutionRunning => true | _ => false end
  | ExecutionCancelled => false
  end.

(** ** Actors and planning gates *)

Inductive AgentExecutionActor :=
| ActingSystem
| ActingUser (user : string)
| ActingAgent (agent : string) (conversation attempt : option string).
Definition actor_agent (conversation : string) (attempt : option string) : AgentExecutionActor :=
  ActingAgent conversation (Some conversation) attempt.
Definition external_agent (agent : string) : AgentExecutionActor := ActingAgent agent None None.
Definition actor_type (a : AgentExecutionActor) : AgentExecutionActorType :=
  match a with
  | ActingSystem => ActorSystem | ActingUser _ => ActorUser | ActingAgent _ _ _ => ActorAgent
  end.
Definition actor_id (a : AgentExecutionActor) : option string :=
  match a with
  | ActingSystem => None | ActingUser u => Some u | ActingAgent agent _ _ => Some agent
  end.
Definition actor_conversation_id (a : AgentExecutionActor) : option string :=
  match a with ActingAgent _ conversation _ => conversation | _ => None end.
Definition actor_attempt_id (a : AgentExecutionActor) : option string :=
  match a with ActingAgent _ _ attempt => attempt | _ => None end.

Definition plan_gate_for_lead_session_mode (lead_mode : option string) : PlanGate :=
  match lead_mode with
  | Some m => if bool_decide (m = "default") || bool_decide (m = "auto_edit")
              then GateRequireApproval else GateAutomatic
  | None => GateAutomatic
  end.
Definition strictest_plan_gate (floor requested : PlanGate) : PlanGate :=
  match floor, requested with
  | GateAutomatic, GateAutomatic => GateAutomatic
  | _, _ => GateRequireApproval
  end.

Definition MAX_AGENT_EXECUTION_PARALLELISM : Z := 64.
Definition MAX_AGENT_EXECUTION_MODELS : nat := 16.
Definition MAX_AGENT_EXECUTION_PARTICIPANTS : nat := 64.
Definition MAX_AGENT_EXECUTION_STEPS : nat := 128.
Definition MAX_AGENT_DELEGATION_DEPTH : Z := 4.

(** ** Delegation requests *)

Record AgentDelegationModel := mkDelegationModel { dm_provider_id : string; dm_model : string }.
Record AgentDelegationTask := mkDelegationTask {
  dt_name : string;
  dt_prompt : string;
  dt_role : option string;
  dt_tool_policy : AgentToolPolicy;
  dt_model : option AgentDelegationModel;
  dt_model_reason : option string;
}.
Record ParallelDelegationRequest := mkParallel {
  pd_tasks : list AgentDelegationTask;
  pd_synthesize : bool;
}.
Definition MAX_TASKS : nat := 16.

(** [Option::is_some_and(|value| value.trim().is_empty())] *)
Definition some_blank (o : option string) : bool :=
  match o with Some v => is_blank v | None => false end.

Definition validate_task (t : AgentDelegationTask) : result unit string :=
  if is_blank (dt_name t) then Err "Agent delegation task name must not be blank"
  else if is_blank (dt_prompt t) then Err "Agent delegation task prompt must not be blank"
  else if some_blank (dt_role t)
  then Err "Agent delegation task role must not be blank when provided"
  else
    let? _ :=
      match dt_model t with
      | None => Ok ()
      | Some m =>
          if is_blank (dm_provider_id m) || bool_decide (trim (dm_provider_id m) ≠ dm_provider_id m)
          then Err "Agent delegation task model.provider_id must not be blank"
          else if is_blank (dm_model m) || bool_decide (trim (dm_model m) ≠ dm_model m)
          then Err "Agent delegation task model.model must not be blank"
          else Ok ()
      end in
    if some_blank (dt_model_reason t)
    then Err "Agent delegation task model_reason must not be blank when provided"
    else Ok ().

(** The [for] loop of [ParallelDelegationRequest::validate], from [index]. *)
Fixpoint validate_tasks (index : nat) (tasks : list AgentDelegationTask) : result unit string :=
  match tasks with
  | [] => Ok ()
  | t :: tasks =>
      match validate_task t with
      | Err e => Err ("parallel task " +:+ pretty index +:+ ": " +:+ e)
      | Ok _ => validate_tasks (S index) tasks
      end
  end.
Definition validate_parallel (r : ParallelDelegationRequest) : result unit string :=
  if bool_decide (pd_tasks r = []) || bool_decide (MAX_TASKS < length (pd_tasks r))
  then Err ("parallel delegation requires 1-" +:+ pretty MAX_TASKS +:+ " tasks")
  else validate_tasks 0 (pd_tasks r).

Definition apply_agent_role_context (prompt : string) (role : option string) : string :=
  match role with
  | None => prompt
  | Some role =>
      let role := trim role in
      if bool_decide (role = "") then prompt else
      "DELEGATED ROLE CONTEXT: " +:+ role +:+ "
This role describes the focus for this invocation and does not grant or widen tool permissions.

" +:+ prompt
  end.

(** ** Application errors *)

Inductive ConversationDeleteErrorKind := AttemptRetained | RunningOrphan | DeletePending.
Inductive ProviderUsageFeature :=
| UseConversation | UseDesktopCompanion | UseCustomerService | UseSmartDecision
| UseAgentExecution.
Record ProviderUsage := mkUsage {
  pu_feature : ProviderUsageFeature;
  pu_label : string;
  pu_target_id : option string;
}.
Inductive AppError :=
| NotFound (m : string) | BadRequest (m : string) | Unauthorized (m : string)
| Forbidden (m : string) | Conflict (m : string) | ConversationTurnAdmissionConflict
| ConversationDelete (k : ConversationDeleteErrorKind) | ProviderInUse (usages : list ProviderUsage)
| ProviderUnavailable (m : string) | ManagedFreeModelsDisabled (m : string) | RateLimited
| CloudOtpInvalidCode | Internal (m : string) | BadGateway (m : string) | Timeout_ (m : string)
| UnprocessableEntity (m : string) | WorkspacePathEdgeWhitespace (m : string)
| WorkspacePathEdgeWhitespaceRuntimeUnsupported (m : string).

(** ** The execution aggregate *)

Record ExecutionModelRef := mkModelRef { mr_provider_id : string; mr_model : string }.
#[export] Instance ExecutionModelRef_eq_dec : EqDecision ExecutionModelRef.
Proof. solve_decision. Defined.

Inductive ExecutionModelPool :=
| PoolSingle (m : ExecutionModelRef)
| PoolAutomatic
| PoolRange (ms : list ExecutionModelRef).
(** [ExecutionModelPool::validate]; [provider_ok] is [ProviderId::try_from]
    succeeding. *)
Fixpoint validate_models (provider_ok : string → bool) (seen : list (string * string))
    (ms : list ExecutionModelRef) : result unit string :=
  match ms with
  | [] => Ok ()
  | m :: ms =>
      if negb (provider_ok (mr_provider_id m)) || is_blank (mr_model m)
         || bool_decide (trim (mr_model m) ≠ mr_model m) then
        Err "execution model references require a canonical provider_id and trimmed model"
      else if bool_decide ((mr_provider_id m, mr_model m) ∈ seen) then
        Err "execution model pool contains a duplicate model"
      else validate_models provider_ok ((mr_provider_id m, mr_model m) :: seen) ms
  end.
Definition validate_pool (provider_ok : string → bool) (p : ExecutionModelPool) :
    result unit string :=
  match p with
  | PoolAutomatic => Ok ()
  | PoolSingle m => validate_models provider_ok [] [m]
  | PoolRange ms =>
      if bool_decide (ms = []) then Err "execution model range requires at least one model"
      else if bool_decide (MAX_AGENT_EXECUTION_MODELS < length ms)
      then Err ("execution model range exceeds " +:+ pretty MAX_AGENT_EXECUTION_MODELS +:+ " models")
      else validate_models provider_ok [] ms
  end.
Definition pool_contains (p : ExecutionModelPool) (candidate : ExecutionModelRef) : bool :=
  match p with
  | PoolAutomatic => true
  | PoolSingle m => bool_decide (m = candidate)
  | PoolRange ms => bool_decide (candidate ∈ ms)
  end.

Record ParticipantCapability := mkCapability {
  strengths : list string;
  modalities : list string;
  tools : bool;
  reasoning : string;
  cost_tier : string;
  speed_tier : string;
}.
Record ParticipantConstraints := mkConstraints {
  max_concurrency : option Z;
  allowed_profile_kinds : option (list string);
}.
Definition validate_constraints (c : ParticipantConstraints) : result unit string :=
  match max_concurrency c with
  | Some v =>
      if negb ((1 <=? v) && (v <=? MAX_AGENT_EXECUTION_PARALLELISM))%Z then
        Err ("participant max_concurrency must be between 1 and "
             +:+ pretty MAX_AGENT_EXECUTION_PARALLELISM)
      else Ok ()
  | None => Ok ()
  end.

(** Without [preset_snapshot], which the modelled code never reads. *)
Record ExecutionParticipant := mkParticipant {
  participant_id : string;
  p_execution_id : string;
  source_agent_id : string;
  preset_id : option string;
  preset_revision : option Z;
  p_provider_id : option string;
  p_model : option string;
  p_role : option string;
  capability : option ParticipantCapability;
  constraints : option ParticipantConstraints;
  description : option string;
  system_prompt : option string;
  enabled_skills : list string;
  disabled_builtin_skills : list string;
  sort_order : Z;
  p_introduced_in_revision : Z;
  retired_in_revision : option Z;
  p_created_at : Z;
}.

Record AgentExecution := mkExecution {
  execution_id : string;
  goal : string;
  lead_conversation_id : option string;
  work_dir : option string;
  delegation_policy : DelegationPolicy;
  plan_gate : PlanGate;
  adaptation_policy : AdaptationPolicy;
  decision_policy : DecisionPolicy;
  max_parallel : Z;
  ex_status : AgentExecutionStatus;
  summary : option string;
  total_tokens : option Z;
  ex_version : Z;
  plan_revision : Z;
  event_sequence : Z;
  ex_created_at : Z;
  ex_updated_at : Z;
}.

Inductive VerificationPolicy := Majority | Unanimous | AtLeast (count : nat).
Inductive JudgeAggregation := Mean | Borda.
#[export] Instance JudgeAggregation_eq_dec : EqDecision JudgeAggregation.
Proof. solve_decision. Defined.
Inductive LoopStopPolicy :=
| MaxIterations | Predicate (done_marker : string) | Stable (quiet_rounds : nat) | Approved.
Inductive StepControlPolicy :=
| VerifyPolicy (vote : VerificationPolicy)
| JudgePolicy (aggregation : JudgeAggregation) (candidate_count : option nat)
| LoopPolicy (max_iterations : nat) (stop : LoopStopPolicy).

Record ExecutionStepProfile := mkProfile {
  profile_kind : string;
  needs_vision : bool;
  needs_long_context : bool;
  needs_high_reasoning : bool;
  bulk : bool;
}.

Record ExecutionStep := mkStep {
  step_id : string;
  s_execution_id : string;
  title : string;
  spec : string;
  profile : option ExecutionStepProfile;
  kind : ExecutionStepKind;
  agent_mode : option AgentStepMode;
  status : ExecutionStepStatus;
  tool_policy : AgentToolPolicy;
  role : option string;
  fanout_group : option string;
  control_policy : option StepControlPolicy;
  failure_policy : StepFailurePolicy;
  assigned_participant_id : option string;
  assignment_source : option ParticipantAssignmentSource;
  assignment_score : option f64;
  assignment_rationale : option string;
  assignment_locked : bool;
  preset_prompt : option string;
  graph_x : option f64;
  graph_y : option f64;
  dispatch_after : option Z;
  introduced_in_revision : Z;
  superseded_in_revision : option Z;
  version : Z;
  created_at : Z;
  updated_at : Z;
}.

Record ExecutionStepDependency := mkDependency {
  d_execution_id : string;
  blocker_step_id : string;
  blocked_step_id : string;
  d_introduced_in_revision : Z;
  d_superseded_in_revision : option Z;
}.

(** [runtime_state] is a JSON value of the host's JSON library. *)
Record ExecutionAttempt (Value : Type) := mkAttempt {
  attempt_id : string;
  a_execution_id : string;
  a_step_id : string;
  attempt_no : Z;
  a_participant_id : option string;
  a_conversation_id : option string;
  a_status : ExecutionAttemptStatus;
  trigger_reason : string;
  effective_config : Value;
  question : option string;
  a_error : option string;
  output_summary : option string;
  output_files : list string;
  tokens : option Z;
  retry_after : option Z;
  runtime_state : option Value;
  started_at : option Z;
  finished_at : option Z;
  a_version : Z;
  a_created_at : Z;
  a_updated_at : Z;
}.
Arguments mkAttempt {Value}.
Arguments attempt_id {Value}.
Arguments a_execution_id {Value}.
Arguments a_step_id {Value}.
Arguments attempt_no {Value}.
Arguments a_participant_id {Value}.
Arguments a_conversation_id {Value}.
Arguments a_status {Value}.
Arguments trigger_reason {Value}.
Arguments effective_config {Value}.
Arguments question {Value}.
Arguments a_error {Value}.
Arguments output_summary {Value}.
Arguments output_files {Value}.
Arguments tokens {Value}.
Arguments retry_after {Value}.
Arguments runtime_state {Value}.
Arguments started_at {Value}.
Arguments finished_at {Value}.
Arguments a_version {Value}.
Arguments a_created_at {Value}.
Arguments a_updated_at {Value}.

Record AgentExecutionDetail (Value : Type) := mkDetail {
  execution : AgentExecution;
  participants : list ExecutionParticipant;
  steps : list ExecutionStep;
  dependencies : list ExecutionStepDependency;
  attempts : list (ExecutionAttempt Value);
}.
Arguments mkDetail {Value}.
Arguments execution {Value}.
Arguments participants {Value}.
Arguments steps {Value}.
Arguments dependencies {Value}.
Arguments attempts {Value}.

Record PlannedExecutionStep := mkPlanned {
  pl_title : string;
  pl_spec : string;
  pl_profile : option ExecutionStepProfile;
  pl_kind : ExecutionStepKind;
  pl_agent_mode : option AgentStepMode;
  depends_on : list nat;
  participant_index : option nat;
  requested_model : option ExecutionModelRef;
  pl_assignment_rationale : option string;
  pl_role : option string;
  pl_tool_policy : AgentToolPolicy;
  pl_fanout_group : option string;
  pl_control_policy : option StepControlPolicy;
  pl_failure_policy : StepFailurePolicy;
}.

(** ** Properties *)

(** Wire names round-trip without fallbacks, for every enumeration of the
    execution domain: parsing a printed variant gives it back, and anything
    that parses is exactly the printed form of the result, so unknown text is
    rejected with an error that carries it. *)
Theorem exec_wire_roundtrip A `{LawfulWireEnum A} :
  (∀ v : A, from_str (as_str v) = Ok v) ∧
  (∀ (text : string) (v : A), from_str text = Ok v → text = as_str v) ∧
  (∀ text : string, (∀ v : A, as_str v ≠ text) → from_str (A := A) text = Err (unknown_value text)).
Proof.
  unfold from_str. split_and!.
  - intros v. destruct (list_find _ variants) as [[i v']|] eqn:Hf.
    + apply list_find_Some in Hf as (Hi&Hs&_). f_equal.
      pose proof (variants_complete v) as [j Hj]%list_elem_of_lookup.
      assert (i = j) as <-; [|congruence].
      eapply NoDup_lookup; [apply variants_distinct| |]; rewrite list_lookup_fmap;
        [by rewrite Hi|rewrite Hj; simpl; by rewrite Hs].
    + apply list_find_None in Hf. rewrite Forall_forall in Hf.
      by destruct (Hf v (variants_complete v)).
  - intros text v. destruct (list_find _ variants) as [[i v']|] eqn:Hf; [|done].
    apply list_find_Some in Hf as (_&<-&_). by intros [= ->].
  - intros text Hno. rewrite (proj2 (list_find_None _ _)); [done|].
    apply Forall_forall. intros v _. apply Hno.
Qed.

Lemma exec_wire_roundtrip_witness :
  from_str "waiting_input" = Ok StepWaitingInput ∧
  from_str (A := AgentToolPolicy) "admin" = Err "unknown Agent tool policy 'admin'".
Proof.
  destruct (exec_wire_roundtrip ExecutionStepStatus) as (H&_).
  destruct (exec_wire_roundtrip AgentToolPolicy) as (_&_&Hno).
  split; [exact (H StepWaitingInput)|]. apply Hno. intros []; discriminate.
Defined.

(** Legal transitions, as relations. *)
Definition attempt_moves (a b : ExecutionAttemptStatus) : Prop := attempt_can_transition_to a b.
Definition step_moves (a b : ExecutionStepStatus) : Prop := step_can_transition_to a b.
Definition execution_moves (a b : AgentExecutionStatus) : Prop := execution_can_transition_to a b.

Lemma rtc_invariant {A} (R : relation A) (P : A → Prop) a b :
  (∀ x y, P x → R x y → P y) → rtc R a b → P a → P b.
Proof. intros Hstep Hab. induction Hab; eauto. Qed.

(** The status machines keep history honest along any sequence of legal
    transitions: a settled attempt never changes again and a started one never
    becomes queued; cancelling a step or an execution is final; planning is
    never re-entered; and a settled step or execution only leaves its result
    through the explicit commands (a step to pending, or failed/skipped to
    completed; an execution to running). *)
Theorem exec_status_lifecycles :
  (∀ a b, attempt_is_terminal a → rtc attempt_moves a b → b = a) ∧
  (∀ a b, a ≠ AttemptQueued → rtc attempt_moves a b → b ≠ AttemptQueued) ∧
  (∀ b, rtc step_moves StepCancelled b → b = StepCancelled) ∧
  (∀ a b, step_is_terminal a → step_moves a b →
     b = a ∨ b = StepPending ∨ b = StepCompleted ∧ (a = StepFailed ∨ a = StepSkipped)) ∧
  (∀ b, rtc execution_moves ExecutionCancelled b → b = ExecutionCancelled) ∧
  (∀ a b, a ≠ ExecutionPlanning → rtc execution_moves a b → b ≠ ExecutionPlanning) ∧
  (∀ a b, execution_is_terminal a → execution_moves a b → b = a ∨ b = ExecutionRunning) ∧
  (∀ a, a ≠ StepCancelled → rtc step_moves a StepPending).
Proof.
  split_and!.
  - intros a b Ht Hr. apply (rtc_invariant attempt_moves (λ x, x = a) a b); [|done|done].
    intros x y -> Hm. by destruct a, y.
  - intros a b Ha Hr. apply (rtc_invariant attempt_moves (λ x, x ≠ AttemptQueued) a b); [|done|done].
    intros x y Hx Hm. by destruct x, y.
  - intros b Hr. apply (rtc_invariant step_moves (λ x, x = StepCancelled) _ b) in Hr; [done| |done].
    intros x y -> Hm. by destruct y.
  - intros [] []; try done; auto.
  - intros b Hr. apply (rtc_invariant execution_moves (λ x, x = ExecutionCancelled) _ b) in Hr; [done| |done].
    intros x y -> Hm. by destruct y.
  - intros a b Ha Hr. apply (rtc_invariant execution_moves (λ x, x ≠ ExecutionPlanning) a b); [|done|done].
    intros x y Hx Hm. by destruct x, y.
  - intros [] []; try done; auto.
  - intros [] Ha; try done; apply rtc_once; done.
Qed.

Lemma exec_status_lifecycles_witness :
  attempt_is_terminal AttemptFailed ∧ ¬ attempt_moves AttemptFailed AttemptRunning.
Proof.
  split; [exact I|]. destruct exec_status_lifecycles as (H&_).
  intros Hm. assert (AttemptRunning = AttemptFailed) as Hx by (apply H; [exact I|by apply rtc_once]).
  discriminate Hx.
Defined.
