(* ===== verification/ParticipantRouter.v ===== *)
(** The capability router
    (crates/backend/nomifun-agent-execution/src/participant_router.rs): hard
    filters and a soft score of execution participants against a step profile,
    and the deterministic ranking. *)
From S2P Require Import Prelude Float64 ExecTypes.

Record ScoredCandidate := mkCandidate {
  sc_participant_index : nat;
  score : f64;
  rationale : string;
}.

Definition baseline_profile : ParticipantCapability :=
  mkCapability [] [] false "medium" "standard" "standard".

Definition member_capability (m : ExecutionParticipant) : ParticipantCapability :=
  default baseline_profile (capability m).

(** The first filter: the declared allow-list of profile kinds. *)
Definition kind_allowed (m : ExecutionParticipant) (p : ExecutionStepProfile) : bool :=
  match constraints m ≫= allowed_profile_kinds with
  | Some allowed => bool_decide (profile_kind p ∈ allowed)
  | None => true
  end.

Definition has_vision (cap : ParticipantCapability) : bool :=
  bool_decide ("vision" ∈ modalities cap).

(** The accumulation of the soft score, in the order of the code; each part
    contributes to the score and to the list of factors. *)
Definition strength_part (cap : ParticipantCapability) (p : ExecutionStepProfile)
    (acc : f64 * list string) : f64 * list string :=
  if negb (bool_decide (profile_kind p = "")) && bool_decide (profile_kind p ∈ strengths cap)
  then (f64_add acc.1 (f64_lit 2 1), acc.2 ++ ["强项匹配[" +:+ profile_kind p +:+ "]"])
  else acc.
Definition reasoning_part (cap : ParticipantCapability) (p : ExecutionStepProfile)
    (acc : f64 * list string) : f64 * list string :=
  if needs_high_reasoning p then
    if bool_decide (reasoning cap = "high") then (f64_add acc.1 (f64_lit 2 1), acc.2 ++ ["高推理"])
    else if bool_decide (reasoning cap = "low")
    then (f64_sub acc.1 (f64_lit 1 1), acc.2 ++ ["低推理(扣分)"])
    else acc
  else acc.
Definition cost_part (cap : ParticipantCapability) (p : ExecutionStepProfile)
    (acc : f64 * list string) : f64 * list string :=
  if bulk p && bool_decide (cost_tier cap = "economy")
  then (f64_add acc.1 (f64_lit 1 1), acc.2 ++ ["经济档(批量)"])
  else if negb (bulk p) && bool_decide (cost_tier cap = "premium")
  then (f64_add acc.1 (f64_lit 1 2), acc.2 ++ ["高质档"])
  else acc.
Definition vision_part (cap : ParticipantCapability) (p : ExecutionStepProfile)
    (acc : f64 * list string) : f64 * list string :=
  if needs_vision p && has_vision cap
  then (f64_add acc.1 (f64_lit 1 2), acc.2 ++ ["视觉就绪"])
  else acc.

Definition score_participant (m : ExecutionParticipant) (p : ExecutionStepProfile) :
    option (f64 * string) :=
  if negb (kind_allowed m p) then None else
  let cap := member_capability m in
  if needs_vision p && negb (has_vision cap) then None
  else if bool_decide (profile_kind p = "tool") && negb (tools cap) then None
  else
    let '(score, factors) :=
      vision_part cap p (cost_part cap p (reasoning_part cap p (strength_part cap p (f64_zero, [])))) in
    Some (score, if bool_decide (factors = []) then "基础能力可用" else join "; " factors).

(** The comparator of [sort_by]. *)
Definition compare_candidates (a b : ScoredCandidate) : comparison :=
  match default Eq (f64_partial_cmp (score b) (score a)) with
  | Eq => Nat.compare (sc_participant_index a) (sc_participant_index b)
  | c => c
  end.
Definition ranks_before (a b : ScoredCandidate) : Prop := compare_candidates a b ≠ Gt.
#[export] Instance comparison_eq_dec : EqDecision comparison.
Proof. solve_decision. Defined.
#[export] Instance ranks_before_dec a b : Decision (ranks_before a b) := _.

Definition scored_candidates (members : list ExecutionParticipant) (p : ExecutionStepProfile) :
    list ScoredCandidate :=
  omap (λ '(i, m), (λ '(s, r), mkCandidate i s r) <$> score_participant m p)
    (imap pair members).
Definition rank_participants (members : list ExecutionParticipant) (p : ExecutionStepProfile) :
    list ScoredCandidate :=
  merge_sort ranks_before (scored_candidates members p).

(** ** Lemmas *)

(** The scores the parts can produce. *)
Definition scores1 : list f64 := [f64_zero; f64_add f64_zero (f64_lit 2 1)].
Definition scores2 : list f64 :=
  scores1 ++ ((λ x, f64_add x (f64_lit 2 1)) <$> scores1)
  ++ ((λ x, f64_sub x (f64_lit 1 1)) <$> scores1).
Definition scores3 : list f64 :=
  scores2 ++ ((λ x, f64_add x (f64_lit 1 1)) <$> scores2)
  ++ ((λ x, f64_add x (f64_lit 1 2)) <$> scores2).
Definition scores4 : list f64 := scores3 ++ ((λ x, f64_add x (f64_lit 1 2)) <$> scores3).

Lemma parts_scores cap p :
  (vision_part cap p (cost_part cap p (reasoning_part cap p
     (strength_part cap p (f64_zero, []))))).1 ∈ scores4.
Proof.
  assert ((strength_part cap p (f64_zero, [])).1 ∈ scores1) as H1.
  { unfold strength_part, scores1. case_match; simpl; set_solver. }
  generalize dependent (strength_part cap p (f64_zero, [])). intros a1 H1.
  assert ((reasoning_part cap p a1).1 ∈ scores2) as H2.
  { unfold reasoning_part, scores2. repeat case_match; cbn [fst]; rewrite !elem_of_app; auto;
      right; [left|right]; apply list_elem_of_fmap; exists a1.1; done. }
  generalize dependent (reasoning_part cap p a1). intros a2 H2.
  assert ((cost_part cap p a2).1 ∈ scores3) as H3.
  { unfold cost_part, scores3. repeat case_match; cbn [fst]; rewrite !elem_of_app; auto;
      right; [left|right]; apply list_elem_of_fmap; exists a2.1; done. }
  generalize dependent (cost_part cap p a2). intros a3 H3.
  unfold vision_part, scores4. case_match; cbn [fst]; rewrite elem_of_app; auto.
  right. apply list_elem_of_fmap. by exists a3.1.
Qed.

Lemma score_finite m p s r : score_participant m p = Some (s, r) → f64_is_finite s.
Proof.
  unfold score_participant. case_match; [done|]. case_match; [done|]. case_match; [done|].
  pose proof (parts_scores (member_capability m) p) as Hs.
  destruct (vision_part _ _ _) as [s' f]. intros [= <- <-]. simpl in Hs.
  assert (Forall (λ x, f64_is_finite x) scores4) as Hf.
  { apply Forall_forall. intros x Hx. vm_compute in Hx.
    repeat (apply elem_of_cons in Hx as [->|Hx]; [exact I|]). by apply not_elem_of_nil in Hx. }
  rewrite Forall_forall in Hf. auto.
Qed.

Lemma elem_of_scored members p c :
  c ∈ scored_candidates members p ↔
  ∃ m, members !! sc_participant_index c = Some m ∧
    score_participant m p = Some (score c, rationale c).
Proof.
  unfold scored_candidates. rewrite list_elem_of_omap. split.
  - intros ([i m]&Him&Hc). apply fmap_Some in Hc as ([s r]&Hs&->).
    apply elem_of_lookup_imap in Him as (j&x&[= -> ->]&Hm). simpl. eauto.
  - intros (m&Hm&Hs). exists (sc_participant_index c, m). split.
    + apply elem_of_lookup_imap. eauto.
    + simpl. rewrite Hs. by destruct c.
Qed.

Lemma scored_indices members p :
  NoDup (sc_participant_index <$> scored_candidates members p).
Proof.
  unfold scored_candidates.
  assert (∀ l : list (nat * ExecutionParticipant), NoDup l.*1 →
    NoDup (sc_participant_index <$> omap (λ '(i, m), (λ '(s, r), mkCandidate i s r) <$>
      score_participant m p) l)) as H.
  { induction l as [|[i m] l IH]; intros Hnd; [constructor|]. simpl in Hnd |- *.
    apply NoDup_cons in Hnd as [Hi Hnd].
    destruct (score_participant m p) as [[s r]|]; simpl; [|auto].
    constructor; [|auto]. intros (c&Hci&Hc)%list_elem_of_fmap. apply Hi.
    apply list_elem_of_omap in Hc as ([j m']&Hj&Hs). apply fmap_Some in Hs as ([s' r']&_&->).
    simpl in Hci. subst. by apply list_elem_of_fmap_2 with (f := fst) in Hj. }
  apply H. assert ((imap pair members).*1 = seq 0 (length members)) as ->; [|apply NoDup_seq].
  rewrite fmap_imap. simpl. apply list_eq. intros i. rewrite list_lookup_imap.
  destruct (members !! i) as [m|] eqn:Hm; simpl.
  - symmetry. apply lookup_seq. split; [done|]. by eapply lookup_lt_Some.
  - symmetry. apply lookup_ge_None. rewrite length_seq. by apply lookup_ge_None.
Qed.

(** The comparator on candidates with finite scores, as an order on keys. *)
Lemma ranks_before_key a b :
  f64_is_finite (score a) → f64_is_finite (score b) →
  ranks_before a b ↔
  key_compare (f64_key (score b)) (f64_key (score a)) = Lt ∨
  key_compare (f64_key (score b)) (f64_key (score a)) = Eq ∧
    sc_participant_index a ≤ sc_participant_index b.
Proof.
  intros Ha Hb. unfold ranks_before, compare_candidates. rewrite f64_cmp_key by done. simpl.
  destruct (key_compare _ _); [|naive_solver..].
  rewrite Nat.compare_le_iff. naive_solver.
Qed.

Lemma ranks_before_trans a b c :
  f64_is_finite (score a) → f64_is_finite (score b) → f64_is_finite (score c) →
  ranks_before a b → ranks_before b c → ranks_before a c.
Proof.
  intros Ha Hb Hc. rewrite !ranks_before_key by done.
  set (ka := f64_key (score a)). set (kb := f64_key (score b)). set (kc := f64_key (score c)).
  intros Hab Hbc.
  assert (key_compare kc ka ≠ Gt) as Hca.
  { apply key_compare_trans with kb; naive_solver congruence. }
  destruct (key_compare kc ka) eqn:E; [|by left|done]. right. split; [done|].
  assert (key_compare ka kc ≠ Gt) as Hac by (rewrite key_compare_antisym, E; done).
  destruct Hab as [Hab|[Hab ?]], Hbc as [Hbc|[Hbc ?]]; [exfalso..|lia].
  - pose proof (key_compare_trans ka kc kb Hac ltac:(congruence)) as Hx.
    rewrite key_compare_antisym, Hab in Hx. done.
  - pose proof (key_compare_trans ka kc kb Hac ltac:(congruence)) as Hx.
    rewrite key_compare_antisym, Hab in Hx. done.
  - assert (key_compare kb ka ≠ Gt) as Hba by congruence.
    pose proof (key_compare_trans kb ka kc Hba Hac) as Hx.
    rewrite key_compare_antisym, Hbc in Hx. done.
Qed.

#[export] Instance ranks_before_total : Total ranks_before.
Proof.
  intros a b. unfold ranks_before, compare_candidates.
  rewrite (f64_cmp_antisym (score a) (score b)).
  destruct (default Eq (f64_partial_cmp (score b) (score a))); simpl; [|by left|by right].
  destruct (Nat.le_ge_cases (sc_participant_index a) (sc_participant_index b));
    [left|right]; by rewrite Nat.compare_le_iff.
Qed.

Lemma Sorted_StronglySorted_on {A} (R : relation A) (P : A → Prop) l :
  (∀ x y z, P x → P y → P z → R x y → R y z → R x z) →
  Forall P l → Sorted R l → StronglySorted R l.
Proof.
  intros Htr HP Hs. induction Hs as [|x l Hs IH Hhd]; [constructor|].
  apply Forall_cons in HP as [Hx HP]. constructor; [by apply IH|].
  specialize (IH HP). destruct Hhd as [|y l Hxy]; [done|].
  apply Forall_cons in HP as [Hy HP]. constructor; [done|].
  inversion IH as [|? ? _ Hall]; subst. rewrite Forall_forall in Hall, HP |- *. eauto.
Qed.

Lemma rank_sorted members p : StronglySorted ranks_before (rank_participants members p).
Proof.
  apply (Sorted_StronglySorted_on _ (λ c, f64_is_finite (score c))).
  - apply ranks_before_trans.
  - apply Forall_forall. intros c Hc. unfold rank_participants in Hc.
    rewrite merge_sort_Permutation in Hc. apply elem_of_scored in Hc as (m&_&Hs).
    by eapply score_finite.
  - apply Sorted_merge_sort, _.
Qed.

Lemma elem_of_ranked members p c :
  c ∈ rank_participants members p ↔
  ∃ m, members !! sc_participant_index c = Some m ∧
    score_participant m p = Some (score c, rationale c).
Proof. unfold rank_participants. by rewrite merge_sort_Permutation, elem_of_scored. Qed.

Lemma ranked_finite members p c : c ∈ rank_participants members p → f64_is_finite (score c).
Proof. intros (m&_&Hs)%elem_of_ranked. by eapply score_finite. Qed.

Lemma StronglySorted_lookup {A} (R : relation A) l i j x y :
  StronglySorted R l → l !! i = Some x → l !! j = Some y → i < j → R x y.
Proof.
  intros Hs. revert i j. induction Hs as [|z l Hs IH Hall]; intros i j Hi Hj Hlt; [done|].
  destruct j as [|j]; [lia|]. destruct i as [|i]; simpl in *.
  - simplify_eq. rewrite Forall_forall in Hall. by eapply Hall, list_elem_of_lookup_2.
  - eapply IH; eauto with lia.
Qed.

Lemma score_participant_filters m p s r :
  score_participant m p = Some (s, r) →
  (∀ allowed, constraints m ≫= allowed_profile_kinds = Some allowed → profile_kind p ∈ allowed) ∧
  (needs_vision p = true → "vision" ∈ modalities (member_capability m)) ∧
  (profile_kind p = "tool" → tools (member_capability m) = true).
Proof.
  unfold score_participant, kind_allowed, has_vision.
  destruct (negb _) eqn:H1; [done|]. destruct (needs_vision p && _) eqn:H2; [done|].
  destruct (bool_decide (profile_kind p = "tool") && _) eqn:H3; [done|]. intros _.
  rewrite negb_false_iff in H1. split_and!.
  - intros allowed Ha. rewrite Ha in H1. by apply bool_decide_eq_true in H1.
  - intros Hv. rewrite Hv in H2. simpl in H2. rewrite negb_false_iff in H2.
    by apply bool_decide_eq_true in H2.
  - intros Ht. rewrite (bool_decide_eq_true_2 _ Ht) in H3. simpl in H3.
    by rewrite negb_false_iff in H3.
Qed.

(** Routing is exact and deterministic: the ranking lists exactly the
    members that pass the hard filters (allowed profile kind, vision, tools),
    each once and with its own score; an earlier candidate never scores below
    a later one, and ties are broken by the smaller participant index. *)
Theorem router_ranking_exact members p :
  let ranked := rank_participants members p in
  (∀ c, c ∈ ranked ↔ ∃ m, members !! sc_participant_index c = Some m ∧
     score_participant m p = Some (score c, rationale c)) ∧
  NoDup (sc_participant_index <$> ranked) ∧
  (∀ i j a b, ranked !! i = Some a → ranked !! j = Some b → i < j →
     f64_le (score b) (score a) ∧
     (f64_le (score a) (score b) → sc_participant_index a < sc_participant_index b)) ∧
  (∀ c m, c ∈ ranked → members !! sc_participant_index c = Some m →
     (∀ allowed, constraints m ≫= allowed_profile_kinds = Some allowed →
        profile_kind p ∈ allowed) ∧
     (needs_vision p = true → "vision" ∈ modalities (member_capability m)) ∧
     (profile_kind p = "tool" → tools (member_capability m) = true)).
Proof.
  intros ranked.
  assert (NoDup (sc_participant_index <$> ranked)) as Hnd.
  { unfold ranked, rank_participants. rewrite merge_sort_Permutation. apply scored_indices. }
  split_and!; [intros; apply elem_of_ranked|done| |].
  - intros i j a b Hi Hj Hlt.
    assert (sc_participant_index a ≠ sc_participant_index b) as Hne.
    { intros Heq. assert (i = j); [|lia]. eapply NoDup_lookup; [exact Hnd| |];
        rewrite list_lookup_fmap; [by rewrite Hi|by rewrite Hj, Heq]. }
    pose proof (ranked_finite _ _ _ (list_elem_of_lookup_2 _ _ _ Hi)) as Ha.
    pose proof (ranked_finite _ _ _ (list_elem_of_lookup_2 _ _ _ Hj)) as Hb.
    pose proof (StronglySorted_lookup _ _ _ _ _ _ (rank_sorted members p) Hi Hj Hlt) as Hr.
    apply (ranks_before_key a b Ha Hb) in Hr.
    rewrite (f64_le_key _ _ Hb Ha), (f64_le_key _ _ Ha Hb), (key_compare_antisym (f64_key (score b))).
    destruct Hr as [->|[-> ?]]; simpl; [by split|split; [done|]]. intros _. lia.
  - intros c m Hc Hm. apply elem_of_ranked in Hc as (m'&Hm'&Hs). simplify_eq.
    by eapply score_participant_filters.
Qed.

Definition demo_member (id : string) (cap : ParticipantCapability) : ExecutionParticipant :=
  mkParticipant id "ex" "agent" None None (Some "prov") (Some id) None (Some cap) None None None
    [] [] 0 1 None 0.
Definition demo_members : list ExecutionParticipant :=
  [demo_member "weak" (mkCapability [] [] true "low" "economy" "standard");
   demo_member "blind" (mkCapability ["coding"] [] false "high" "premium" "standard");
   demo_member "strong" (mkCapability ["coding"] ["vision"] true "high" "premium" "standard")].
Definition demo_profile : ExecutionStepProfile := mkProfile "coding" true false true false.

Lemma router_ranking_exact_witness :
  rank_participants demo_members demo_profile ≠ [] ∧
  ∀ c, c ∈ rank_participants demo_members demo_profile → sc_participant_index c = 2.
Proof.
  split; [vm_compute; discriminate|].
  destruct (router_ranking_exact demo_members demo_profile) as (He&_&_&Hf).
  intros c Hc. pose proof (proj1 (He c) Hc) as (m&Hm&_).
  destruct (Hf c m Hc Hm) as (_&Hv&_). specialize (Hv eq_refl).
  destruct (sc_participant_index c) as [|[|[|n]]]; simpl in Hm; simplify_eq; [| |reflexivity];
    vm_compute in Hv; by apply not_elem_of_nil in Hv.
Defined.
