(* ===== verification/PlanMaterializer.v ===== *)
(** The plan materializer
    (crates/backend/nomifun-agent-execution/src/plan_materializer.rs): a
    planner's index-based plan is validated (step shape, dependency DAG),
    routed to participants and turned into step and dependency rows. *)
From S2P Require Import Prelude Float64 Graph ExecTypes ParticipantRouter.

(** An application error, or a panic (an index out of range, an arithmetic
    underflow in a checked build). *)
Inductive failure := Failed (e : AppError) | Panic.

Record NewAgentExecutionStep := mkNewStep {
  ns_step_id : string;
  ns_title : string;
  ns_spec : string;
  ns_role : option string;
  ns_tool_policy : AgentToolPolicy;
  ns_kind : ExecutionStepKind;
  ns_agent_mode : option AgentStepMode;
  ns_profile : option string;
  ns_fanout_group : option string;
  ns_control_policy : option string;
  ns_status : ExecutionStepStatus;
  ns_assigned_participant_id : option string;
  ns_assignment_score : option f64;
  ns_assignment_rationale : option string;
  ns_assignment_source : option ParticipantAssignmentSource;
  ns_assignment_locked : bool;
  ns_failure_policy : StepFailurePolicy;
  ns_preset_prompt : option string;
  ns_graph_x : option f64;
  ns_graph_y : option f64;
}.
Record NewAgentExecutionStepDependency := mkNewDependency {
  nd_blocker_step_id : string;
  nd_blocked_step_id : string;
}.
Record MaterializedPlan := mkMaterialized {
  mp_steps : list NewAgentExecutionStep;
  mp_dependencies : list NewAgentExecutionStepDependency;
}.

(** ** Tool policy *)

Definition marker_char (c : option Ascii.ascii) : bool :=
  match c with Some c => is_ascii_alphanumeric c || (byte c =? 95)%N | None => false end.

(** [match_indices] yields the non-overlapping matches from the left; [skip]
    counts the bytes of the last match still to pass, [before] is the byte before
    [haystack]. *)
Fixpoint scan_marker (marker : string) (skip : nat) (before : option Ascii.ascii)
    (haystack : string) : bool :=
  match haystack with
  | EmptyString => false
  | String c rest =>
      match skip with
      | S skip => scan_marker marker skip (Some c) rest
      | 0 =>
          if String.prefix marker haystack then
            (negb (marker_char before)
             && negb (marker_char (String.get (String.length marker) haystack)))
            || scan_marker marker (String.length marker - 1) (Some c) rest
          else scan_marker marker 0 (Some c) rest
      end
  end.
Definition contains_tool_marker (haystack marker : string) : bool :=
  scan_marker marker 0 None haystack.

Definition MARKERS : list string :=
  ["briefing_create"; "briefing_status"; "news-briefing"; "news_briefing"; "art-motion";
   "art_motion"; "nomi_delegate"; "computer_use"].
Definition spec_requires_host_pipeline (spec : string) : bool :=
  let lower := to_ascii_lowercase spec in existsb (contains_tool_marker lower) MARKERS.

Definition normalized_tool_policy (step : PlannedExecutionStep) : AgentToolPolicy :=
  if bool_decide (pl_kind step ≠ KindAgent) then ToolsFull
  else if spec_requires_host_pipeline (pl_spec step) then ToolsFull
  else match pl_tool_policy step with
       | ToolsFull | ToolsFilesShell => ToolsFilesShell
       | ToolsReadShell => ToolsReadShell
       | ToolsReadOnly => ToolsReadOnly
       end.

(** ** Failure policy *)

Definition SAFETY_MARKERS : list string :=
  ["safety"; "destructive"; "irreversible"; "生产环境"; "不可逆"; "安全闸"; "安全门"].
Definition spec_is_safety_gate (spec : string) : bool :=
  let lower := to_ascii_lowercase spec in existsb (contains_str lower) SAFETY_MARKERS.

(** [None]: the index is out of range. *)
Definition normalized_failure_policy (steps : list PlannedExecutionStep) (index : nat) :
    option StepFailurePolicy :=
  match steps !! index with
  | None => None
  | Some step =>
      Some (if spec_is_safety_gate (pl_spec step) then FailExecution else
      let is_sink :=
        negb (existsb (λ '(other, candidate),
                bool_decide (other ≠ index) && bool_decide (index ∈ depends_on candidate))
              (imap pair steps)) in
      let is_synthesis := bool_decide (pl_agent_mode step = Some ModeSynthesis) in
      let is_last := bool_decide (index + 1 = length steps) in
      if is_sink && (is_synthesis || is_last) then FailExecution else SkipDependents)
  end.

(** ** Routing *)

Definition viable (p : ExecutionParticipant) (step : PlannedExecutionStep) : bool :=
  match pl_profile step with
  | None => true
  | Some profile => bool_decide (is_Some (score_participant p profile))
  end.

Definition assignment : Type :=
  option string * option ParticipantAssignmentSource * option f64 * option string.

Definition quoted (s : string) : string := "'" +:+ s +:+ "'".
Definition bad_request {A} (m : string) : result A failure := Err (Failed (BadRequest m)).

(** The tail shared by the two explicit selections. *)
Definition assign_planned (step : PlannedExecutionStep) (p : ExecutionParticipant) :
    result assignment failure :=
  if negb (viable p step) then
    bad_request ("step " +:+ quoted (pl_title step)
                 +:+ " selects a participant that does not satisfy its profile")
  else Ok (Some (participant_id p), Some AssignedPlanner, None, pl_assignment_rationale step).

Definition route (step : PlannedExecutionStep) (participants : list ExecutionParticipant) :
    result assignment failure :=
  match requested_model step with
  | Some requested =>
      match list_find (λ p, p_provider_id p = Some (mr_provider_id requested)
                            ∧ p_model p = Some (mr_model requested)) participants with
      | None =>
          bad_request ("step " +:+ quoted (pl_title step) +:+ " model " +:+ mr_provider_id requested
                       +:+ "/" +:+ mr_model requested +:+ " is outside the execution model pool")
      | Some (_, p) => assign_planned step p
      end
  | None =>
  match participant_index step with
  | Some index =>
      match participants !! index with
      | None =>
          bad_request ("step " +:+ quoted (pl_title step) +:+ " references participant index "
                       +:+ pretty index +:+ " outside the active snapshot")
      | Some p => assign_planned step p
      end
  | None =>
  match pl_profile step with
  | Some profile =>
      match rank_participants participants profile with
      | candidate :: _ =>
          match participants !! sc_participant_index candidate with
          | Some p => Ok (Some (participant_id p), Some AssignedAutomatic, Some (score candidate),
                          Some (rationale candidate))
          | None => Err Panic
          end
      | [] => bad_request ("no participant satisfies the profile for step "
                           +:+ quoted (pl_title step))
      end
  | None =>
      match participants with
      | p :: _ => Ok (Some (participant_id p), Some AssignedAutomatic, None,
                      Some "default active participant")
      | [] => bad_request "no participant can execute this step"
      end
  end end end.

(** ** Step validation *)

Definition vote_ok (vote : VerificationPolicy) (dependencies : nat) : bool :=
  match vote with
  | AtLeast count => bool_decide (0 < count) && bool_decide (count ≤ dependencies)
  | Majority | Unanimous => true
  end.
Definition stop_ok (stop : LoopStopPolicy) : bool :=
  match stop with
  | Predicate done_marker => negb (is_blank done_marker)
  | Stable quiet_rounds => bool_decide (0 < quiet_rounds)
  | MaxIterations | Approved => true
  end.
(** The arms of the [match] on kind, mode and control policy. *)
Definition shape_ok (step : PlannedExecutionStep) : bool :=
  match pl_kind step, pl_agent_mode step, pl_control_policy step with
  | KindAgent, _, None => true
  | KindVerify, None, Some (VerifyPolicy vote) =>
      negb (bool_decide (depends_on step = [])) && vote_ok vote (length (depends_on step))
  | KindJudge, None, Some (JudgePolicy _ candidate_count) =>
      negb (bool_decide (depends_on step = []))
      && match candidate_count with None => true | Some count => bool_decide (0 < count) end
  | KindLoop, None, Some (LoopPolicy max_iterations stop) =>
      bool_decide (length (depends_on step) = 1) && bool_decide (0 < max_iterations) && stop_ok stop
  | _, _, _ => false
  end.

Definition validate_step (step : PlannedExecutionStep) : result unit failure :=
  if is_blank (pl_title step) then bad_request "step title must not be empty"
  else if is_blank (pl_spec step)
  then bad_request ("step " +:+ quoted (pl_title step) +:+ " spec must not be empty")
  else if some_blank (pl_role step)
  then bad_request ("step " +:+ quoted (pl_title step) +:+ " role must not be blank when present")
  else if some_blank (pl_fanout_group step)
  then bad_request ("step " +:+ quoted (pl_title step)
                    +:+ " fanout_group must not be empty when present")
  else if negb (shape_ok step)
  then bad_request ("step " +:+ quoted (pl_title step) +:+ " has a kind/mode/control-policy mismatch")
  else if bool_decide (pl_kind step ≠ KindAgent)
          && (bool_decide (is_Some (participant_index step))
              || bool_decide (is_Some (pl_fanout_group step))
              || bool_decide (is_Some (pl_profile step))
              || bool_decide (is_Some (pl_assignment_rationale step))
              || bool_decide (pl_tool_policy step ≠ ToolsFull))
  then bad_request ("control step " +:+ quoted (pl_title step)
                    +:+ " cannot declare Agent routing fields")
  else Ok ().

(** ** The dependency DAG *)

(** The two vectors of [validate_dag]. *)
Record dag := mkDag { outgoing : list (list nat); indegree : list nat }.

(** The inner loop over [step.depends_on]; [unique] is the hash set. *)
Fixpoint add_blockers (n blocked : nat) (unique : list nat) (blockers : list nat) (g : dag) :
    result dag failure :=
  match blockers with
  | [] => Ok g
  | blocker :: blockers =>
      if bool_decide (n ≤ blocker) || bool_decide (blocker = blocked) then
        bad_request ("step " +:+ pretty blocked +:+ " has an invalid dependency index "
                     +:+ pretty blocker)
      else if bool_decide (blocker ∈ unique) then
        bad_request ("step " +:+ pretty blocked +:+ " repeats dependency index " +:+ pretty blocker)
      else
        match outgoing g !! blocker, indegree g !! blocked with
        | Some out, Some degree =>
            add_blockers n blocked (blocker :: unique) blockers
              (mkDag (<[blocker := out ++ [blocked]]> (outgoing g))
                 (<[blocked := degree + 1]> (indegree g)))
        | _, _ => Err Panic
        end
  end.
Fixpoint add_steps (n blocked : nat) (steps : list PlannedExecutionStep) (g : dag) :
    result dag failure :=
  match steps with
  | [] => Ok g
  | step :: steps =>
      let? g := add_blockers n blocked [] (depends_on step) g in
      add_steps n (S blocked) steps g
  end.

(** The inner [for] of the drain: [None] is an underflow or a missing entry. *)
Fixpoint release (blocked : list nat) (indegree ready : list nat) : option (list nat * list nat) :=
  match blocked with
  | [] => Some (indegree, ready)
  | b :: blocked =>
      match indegree !! b with
      | Some (S degree) =>
          release blocked (<[b := degree]> indegree)
            (if bool_decide (degree = 0) then ready ++ [b] else ready)
      | _ => None
      end
  end.
(** The [while let] loop; [None] is a panic or no fuel. *)
Fixpoint drain_ready (fuel : nat) (outgoing : list (list nat)) (indegree ready : list nat)
    (visited : nat) : option nat :=
  match ready with
  | [] => Some visited
  | index :: ready =>
      match fuel, outgoing !! index with
      | S fuel, Some blocked =>
          match release blocked indegree ready with
          | Some (indegree, ready) => drain_ready fuel outgoing indegree ready (visited + 1)
          | None => None
          end
      | _, _ => None
      end
  end.

Definition zero_degree (indegree : list nat) : list nat :=
  omap (λ '(index, degree), if bool_decide (degree = 0) then Some index else None)
    (imap pair indegree).

Definition validate_dag (steps : list PlannedExecutionStep) : result unit failure :=
  let n := length steps in
  let? g := add_steps n 0 steps (mkDag (replicate n []) (replicate n 0)) in
  match drain_ready n (outgoing g) (indegree g) (zero_degree (indegree g)) 0 with
  | None => Err Panic
  | Some visited =>
      if bool_decide (visited ≠ n) then bad_request "execution plan contains a cycle" else Ok ()
  end.

(** ** Materialization *)

Section materialize.
  (** [serde_json::to_string] on the two policy documents, and the
      identifiers [AgentExecutionStepId::new] generates, by position. *)
  Context (encode_profile : ExecutionStepProfile → result string string).
  Context (encode_policy : StepControlPolicy → result string string).
  Context (fresh : nat → string).

Definition encode {A} (label : string) (f : A → result string string) (o : option A) :
    result (option string) failure :=
  match o with
  | None => Ok None
  | Some a => match f a with
              | Ok s => Ok (Some s)
              | Err e => Err (Failed (Internal (label +:+ ": " +:+ e)))
              end
  end.

(** The inner [for] over [depends_on]. *)
Fixpoint dependency_rows (step_ids : list string) (blocked : string) (blockers : list nat) :
    result (list NewAgentExecutionStepDependency) failure :=
  match blockers with
  | [] => Ok []
  | b :: blockers =>
      match step_ids !! b with
      | None => Err Panic
      | Some id =>
          let? rows := dependency_rows step_ids blocked blockers in
          Ok (mkNewDependency id blocked :: rows)
      end
  end.

(** One iteration of the main loop. *)
Definition materialize_step (steps : list PlannedExecutionStep) (active : list ExecutionParticipant)
    (step_ids : list string) (index : nat) (planned : PlannedExecutionStep) :
    result (NewAgentExecutionStep * list NewAgentExecutionStepDependency) failure :=
  let? _ := validate_step planned in
  let? a := (if bool_decide (pl_kind planned = KindAgent) then route planned active
             else Ok (None, None, None, None)) in
  match step_ids !! index, normalized_failure_policy steps index with
  | Some id, Some failure_policy =>
      let? rows := dependency_rows step_ids id (depends_on planned) in
      let? profile := encode "encode step profile" encode_profile (pl_profile planned) in
      let? control := encode "encode control policy" encode_policy (pl_control_policy planned) in
      let '(participant, source, score, rationale) := a : assignment in
      Ok (mkNewStep id (trim (pl_title planned)) (trim (pl_spec planned)) (trim <$> pl_role planned)
            (normalized_tool_policy planned) (pl_kind planned)
            (if bool_decide (pl_kind planned = KindAgent)
             then Some (default ModeNormal (pl_agent_mode planned)) else None)
            profile (trim <$> pl_fanout_group planned) control StepPending participant score
            rationale source false failure_policy None None None, rows)
  | _, _ => Err Panic
  end.

Fixpoint materialize_steps (steps : list PlannedExecutionStep)
    (active : list ExecutionParticipant) (step_ids : list string) (index : nat)
    (todo : list PlannedExecutionStep) : result MaterializedPlan failure :=
  match todo with
  | [] => Ok (mkMaterialized [] [])
  | planned :: todo =>
      let? row := materialize_step steps active step_ids index planned in
      let? rest := materialize_steps steps active step_ids (S index) todo in
      Ok (mkMaterialized (row.1 :: mp_steps rest) (row.2 ++ mp_dependencies rest))
  end.

Definition active_participants (ps : list ExecutionParticipant) : list ExecutionParticipant :=
  filter (λ p, retired_in_revision p = None) ps.

Definition materialize (plan : list PlannedExecutionStep) (ps : list ExecutionParticipant) :
    result MaterializedPlan failure :=
  if bool_decide (plan = []) then bad_request "execution plan must contain a step"
  else if bool_decide (MAX_AGENT_EXECUTION_STEPS < length plan)
  then bad_request ("execution plan exceeds " +:+ pretty MAX_AGENT_EXECUTION_STEPS +:+ " steps")
  else
    let? _ := validate_dag plan in
    let active := active_participants ps in
    if bool_decide (active = []) && existsb (λ s, bool_decide (pl_kind s = KindAgent)) plan
    then bad_request "an Agent step requires an active execution participant"
    else materialize_steps plan active (fresh <$> seq 0 (length plan)) 0 plan.
End materialize.

(** ** The graph of a plan *)

(** [plan_edge steps b i]: step [i] depends on step [b]. *)
Definition plan_edge (steps : list PlannedExecutionStep) (b i : nat) : Prop :=
  ∃ step, steps !! i = Some step ∧ b ∈ depends_on step.

(** Dependencies in range, not on the step itself, and without repetition. *)
Definition plan_indices_ok (steps : list PlannedExecutionStep) : Prop :=
  ∀ i step, steps !! i = Some step →
    NoDup (depends_on step) ∧ ∀ b, b ∈ depends_on step → b < length steps ∧ b ≠ i.

Definition out_of (outgoing : list (list nat)) (u : nat) : list nat := default [] (outgoing !! u).

(** The two vectors describe the edges [E] over [n] nodes. *)
Record dag_ok (n : nat) (E : nat → nat → Prop) (g : dag) : Prop := {
  do_outgoing : length (outgoing g) = n;
  do_indegree : length (indegree g) = n;
  do_count : ∀ v, v < n → indegree g !! v = Some (in_from (out_of (outgoing g)) (seq 0 n) v);
  do_edges : ∀ u v, v ∈ out_of (outgoing g) u ↔ E u v;
}.

Lemma out_of_insert g u x w :
  u < length g → out_of (<[u := x]> g) w = if decide (w = u) then x else out_of g w.
Proof.
  intros Hu. unfold out_of. case_decide; subst.
  - by rewrite list_lookup_insert_eq.
  - by rewrite list_lookup_insert_ne.
Qed.

Lemma in_from_push g u b us v :
  u < length g →
  in_from (out_of (<[u := out_of g u ++ [b]]> g)) us v
  = in_from (out_of g) us v + if decide (v = b) then count u us else 0.
Proof.
  intros Hu. induction us as [|w us IH]; unfold in_from in *; simpl.
  { unfold count. simpl. by case_decide. }
  rewrite IH, out_of_insert, count_cons by done. repeat case_decide; subst; try done;
    rewrite ?count_app, ?count_cons, ?decide_True by done; unfold count; simpl; try lia.
  rewrite decide_False by done. lia.
Qed.

Lemma count_NoDup {A} `{EqDecision A} (x : A) l : NoDup l → x ∈ l → count x l = 1.
Proof.
  intros Hnd Hx. apply list_elem_of_split in Hx as (l1&l2&->).
  apply NoDup_app in Hnd as (_&H1&[H2 _]%NoDup_cons).
  rewrite count_app, count_cons, decide_True by done.
  rewrite (proj2 (count_0 x l1)), (proj2 (count_0 x l2)); [done|done|].
  intros Hx. apply (H1 x Hx). left.
Qed.

Lemma dag_ok_push n E g u b out d :
  dag_ok n E g → outgoing g !! u = Some out → indegree g !! b = Some d →
  dag_ok n (λ x y, E x y ∨ x = u ∧ y = b)
    (mkDag (<[u := out ++ [b]]> (outgoing g)) (<[b := d + 1]> (indegree g))).
Proof.
  intros [Ho Hi Hc He] Hu Hb.
  assert (u < length (outgoing g)) as Hul by by eapply lookup_lt_Some.
  assert (b < length (indegree g)) as Hbl by by eapply lookup_lt_Some.
  assert (out = out_of (outgoing g) u) as -> by (unfold out_of; by rewrite Hu).
  split; simpl; [by rewrite length_insert|by rewrite length_insert| |].
  - intros v Hv. rewrite in_from_push by done. destruct (decide (v = b)) as [->|Hne].
    + rewrite list_lookup_insert_eq by done. f_equal.
      rewrite Hc in Hb by lia. injection Hb as <-. f_equal. symmetry.
      apply count_NoDup; [apply NoDup_seq|]. apply elem_of_seq. lia.
    + rewrite list_lookup_insert_ne by done. rewrite Hc by done. f_equal. lia.
  - intros x y. rewrite out_of_insert by done. case_decide; subst.
    + rewrite elem_of_app, list_elem_of_singleton, He. naive_solver.
    + rewrite He. naive_solver.
Qed.

Lemma dag_ok_ext n E E' g : dag_ok n E g → (∀ u v, E u v ↔ E' u v) → dag_ok n E' g.
Proof. intros [] Hext. split; try done. intros. by rewrite <-Hext. Qed.

(** The blockers of step [i] are acceptable, given those already seen. *)
Definition blockers_ok (n i : nat) (unique blockers : list nat) : Prop :=
  NoDup blockers ∧ ∀ b, b ∈ blockers → b < n ∧ b ≠ i ∧ b ∉ unique.

Lemma add_blockers_spec n i unique blockers E g :
  dag_ok n E g → i < n →
  (∃ g', add_blockers n i unique blockers g = Ok g' ∧ blockers_ok n i unique blockers ∧
     dag_ok n (λ u v, E u v ∨ u ∈ blockers ∧ v = i) g') ∨
  (∃ e, add_blockers n i unique blockers g = Err (Failed e) ∧ ¬ blockers_ok n i unique blockers).
Proof.
  revert unique E g. induction blockers as [|b bs IH]; intros unique E g Hg Hi; simpl.
  { left. exists g. split; [done|]. split; [split; [constructor|set_solver]|].
    eapply dag_ok_ext; [exact Hg|]. set_solver. }
  case_bool_decide as Hb; simpl.
  { right. eexists. split; [done|]. intros [_ Hall]. destruct (Hall b) as (?&_&_); [left|lia]. }
  case_bool_decide as Hbi; simpl.
  { right. eexists. split; [done|]. intros [_ Hall]. by destruct (Hall b) as (_&?&_); [left|]. }
  case_bool_decide as Hun; simpl.
  { right. eexists. split; [done|]. intros [_ Hall]. by destruct (Hall b) as (_&_&?); [left|]. }
  pose proof Hg as [Ho Hd _ _].
  destruct (lookup_lt_is_Some_2 (outgoing g) b) as [out Hout]; [lia|].
  destruct (lookup_lt_is_Some_2 (indegree g) i) as [d Hdeg]; [lia|]. rewrite Hout, Hdeg.
  destruct (IH (b :: unique) _ _ (dag_ok_push n E g b i out d Hg Hout Hdeg) Hi)
    as [(g'&Hok&[Hnd Hall]&Hg')|(e&He&Hno)]; [left|right].
  - exists g'. split; [done|]. split.
    + split; [constructor; [|done]; intros Hin; apply Hall in Hin; set_solver|].
      intros b' [->|Hb']%elem_of_cons; [by split; [lia|]|]. apply Hall in Hb'. set_solver.
    + eapply dag_ok_ext; [exact Hg'|]. intros u v. rewrite elem_of_cons. naive_solver.
  - exists e. split; [done|]. intros [[Hnb Hnd]%NoDup_cons Hall]. apply Hno. split; [done|].
    intros b' Hb'. destruct (Hall b') as (?&?&?); [by right|]. split_and!; [done|done|].
    intros [->|?]%elem_of_cons; done.
Qed.

(** The same for the steps from position [k] on. *)
Definition steps_ok (n k : nat) (todo : list PlannedExecutionStep) : Prop :=
  ∀ i step, todo !! i = Some step → blockers_ok n (k + i) [] (depends_on step).

Lemma steps_ok_cons n k step todo :
  steps_ok n k (step :: todo) ↔ blockers_ok n k [] (depends_on step) ∧ steps_ok n (S k) todo.
Proof.
  unfold steps_ok. split.
  - intros H. split; [specialize (H 0 step eq_refl); by rewrite Nat.add_0_r in H|].
    intros i s Hi. replace (S k + i) with (k + S i) by lia. by apply H.
  - intros [H0 H] [|i] s Hi; simpl in Hi; [simplify_eq; by rewrite Nat.add_0_r|].
    replace (k + S i) with (S k + i) by lia. by apply H.
Qed.

Lemma add_steps_spec n k todo E g :
  dag_ok n E g → k + length todo = n →
  (∃ g', add_steps n k todo g = Ok g' ∧ steps_ok n k todo ∧
     dag_ok n (λ u v, E u v ∨ ∃ i step, todo !! i = Some step ∧ u ∈ depends_on step ∧ v = k + i) g') ∨
  (∃ e, add_steps n k todo g = Err (Failed e) ∧ ¬ steps_ok n k todo).
Proof.
  revert k E g. induction todo as [|step todo IH]; intros k E g Hg Hn; simpl in *.
  { left. exists g. split; [done|]. split; [by intros i s Hi|].
    eapply dag_ok_ext; [exact Hg|]. intros u v. split; [by left|].
    by intros [?|(i&s&Hi&_)]. }
  destruct (add_blockers_spec n k [] (depends_on step) E g Hg ltac:(lia))
    as [(g1&->&Hb&Hg1)|(e&->&Hb)]; simpl.
  - destruct (IH (S k) _ g1 Hg1 ltac:(lia)) as [(g2&->&Hs&Hg2)|(e&->&Hs)]; [left|right].
    + exists g2. split; [done|]. split; [by apply steps_ok_cons|].
      eapply dag_ok_ext; [exact Hg2|]. intros u v. split.
      * intros [[?|[? ->]]|(i&s&?&?&->)]; [by left|right|right].
        -- exists 0, step. rewrite Nat.add_0_r. done.
        -- exists (S i), s. split_and!; [done|done|lia].
      * intros [?|([|i]&s&Hi&?&->)]; [by left; left| |]; simpl in Hi.
        -- left. right. simplify_eq. by rewrite Nat.add_0_r.
        -- right. exists i, s. split_and!; [done|done|lia].
    + exists e. split; [done|]. rewrite steps_ok_cons. tauto.
  - right. exists e. split; [done|]. rewrite steps_ok_cons. tauto.
Qed.

Lemma add_blockers_bad n i unique blockers g e :
  add_blockers n i unique blockers g = Err (Failed e) → ∃ m, e = BadRequest m.
Proof.
  revert unique g. induction blockers as [|b bs IH]; intros unique g; simpl; [done|].
  case_match; [intros [= <-]; eauto|]. case_match; [intros [= <-]; eauto|].
  repeat case_match; try done. apply IH.
Qed.
Lemma add_steps_bad n k todo g e :
  add_steps n k todo g = Err (Failed e) → ∃ m, e = BadRequest m.
Proof.
  revert k g. induction todo as [|st todo IH]; intros k g; simpl; [done|].
  destruct (add_blockers _ _ _ _ _) as [g'|e'] eqn:Hb; simpl; [apply IH|].
  intros [= ->]. by eapply add_blockers_bad.
Qed.

Lemma empty_dag_ok n : dag_ok n (λ _ _, False) (mkDag (replicate n []) (replicate n 0)).
Proof.
  split; simpl; [by rewrite length_replicate..| |].
  - intros v Hv. rewrite lookup_replicate_2 by done. f_equal. symmetry. apply in_from_0.
    intros u _. unfold out_of. destruct (replicate n [] !! u) eqn:E; [|set_solver].
    apply lookup_replicate in E as [-> _]. set_solver.
  - intros u v. unfold out_of. destruct (replicate n [] !! u) eqn:E; [|simpl; set_solver].
    apply lookup_replicate in E as [-> _]. simpl. set_solver.
Qed.

(** ** The drain is Kahn's algorithm *)

Lemma release_relax blocked indegree ready :
  release blocked indegree ready
  = (λ '(s, r), (s, ready ++ r)) <$> relax (S := list nat) indegree blocked.
Proof.
  revert indegree ready. induction blocked as [|b bs IH]; intros indegree ready; simpl.
  { by rewrite app_nil_r. }
  destruct (indegree !! b) as [[|d]|]; [done| |done]. rewrite IH.
  destruct (relax _ bs) as [[s r]|]; simpl; [|done]. f_equal. f_equal.
  case_bool_decide; case_decide; try done; by rewrite <-?app_assoc.
Qed.

Lemma drain_kahn fuel out indegree ready order :
  (∀ u, u ∈ ready → u < length out) →
  (∀ u v, v ∈ out_of out u → v < length out) →
  drain_ready fuel out indegree ready (length order)
  = length <$> kahn (S := list nat) (out_of out) id fuel indegree ready order.
Proof.
  intros Hready Hout. revert indegree ready order Hready.
  induction fuel as [|fuel IH]; intros indegree ready order Hready; (destruct ready as [|u ready]; [done|]).
  { done. }
  cbn [drain_ready kahn].
  destruct (lookup_lt_is_Some_2 out u) as [bs Hbs]; [apply Hready; left|].
  assert (out_of out u = bs) as Hu by (unfold out_of; by rewrite Hbs).
  rewrite Hbs, Hu, release_relax.
  destruct (relax _ bs) as [[s r]|] eqn:Hr; simpl; [|done].
  replace (length order + 1) with (length (order ++ [u])) by (rewrite length_app; done).
  apply IH. intros w [Hw|Hw]%elem_of_app; [apply Hready; by right|].
  apply (Hout u). rewrite Hu. eapply (relax_subset (S := list nat)); [exact Hr|exact Hw].
Qed.

Lemma elem_of_zero_degree indegree v :
  v ∈ zero_degree indegree ↔ indegree !! v = Some 0.
Proof.
  unfold zero_degree. rewrite list_elem_of_omap. split.
  - intros ([i d]&Hi&Hd). apply elem_of_lookup_imap in Hi as (j&x&[= -> ->]&Hx).
    case_bool_decide; naive_solver.
  - intros Hv. exists (v, 0). split; [apply elem_of_lookup_imap; eauto|done].
Qed.

Lemma zero_degree_nodup indegree : NoDup (zero_degree indegree).
Proof.
  unfold zero_degree. assert (∀ k (l : list nat),
    NoDup (omap (λ '(i, d), if bool_decide (d = 0) then Some i else None) (imap (λ i, pair (k + i)) l))
    ∧ ∀ i, i ∈ omap (λ '(i, d), if bool_decide (d = 0) then Some i else None)
             (imap (λ i, pair (k + i)) l) → k ≤ i) as H.
  { intros k l. revert k. induction l as [|d l IH]; intros k; [split; [constructor|set_solver]|].
    rewrite imap_cons, Nat.add_0_r. simpl.
    erewrite (imap_ext _ (λ i, pair (S k + i))) by (intros; simpl; do 2 f_equal; lia).
    destruct (IH (S k)) as [Hnd Hge]. case_bool_decide; simpl.
    - split; [constructor; [intros Hk%Hge; lia|done]|].
      intros i [->|Hi%Hge]%elem_of_cons; lia.
    - split; [done|]. intros i Hi%Hge. lia. }
  apply (H 0 indegree).
Qed.

Lemma plan_indices_steps_ok steps :
  plan_indices_ok steps ↔ steps_ok (length steps) 0 steps.
Proof.
  unfold plan_indices_ok, steps_ok, blockers_ok. simpl. split; intros H i step Hi;
    destruct (H i step Hi) as [Hnd Hall]; (split; [done|]); intros b Hb.
  - destruct (Hall b Hb). split_and!; [done|done|set_solver].
  - by destruct (Hall b Hb) as (?&?&_).
Qed.

(** The outcome of [validate_dag], in terms of the plan's graph. *)
Lemma validate_dag_spec steps :
  (validate_dag steps = Ok () ∧ plan_indices_ok steps ∧ ∀ i, ¬ tc (plan_edge steps) i i) ∨
  (∃ e, validate_dag steps = Err (Failed e) ∧
     ¬ (plan_indices_ok steps ∧ ∀ i, ¬ tc (plan_edge steps) i i)).
Proof.
  unfold validate_dag. pose proof (plan_indices_steps_ok steps) as Hidx.
  destruct (add_steps_spec (length steps) 0 steps _ _ (empty_dag_ok _) eq_refl)
    as [(g&->&Hok&Hg)|(e&->&Hno)]; simpl; [|right; exists e; split; [done|tauto]].
  set (n := length steps) in *.
  assert (dag_ok n (plan_edge steps) g) as [Ho Hi Hc He].
  { eapply dag_ok_ext; [exact Hg|]. intros u v. unfold plan_edge. naive_solver. }
  assert (∀ u v, v ∈ out_of (outgoing g) u → u ∈ seq 0 n ∧ v ∈ seq 0 n) as Hin.
  { intros u v (step&Hv&Hu)%He. rewrite !elem_of_seq.
    apply lookup_lt_Some in Hv as Hvn. destruct (Hok v step Hv) as [_ Hall].
    destruct (Hall u Hu) as (?&_&_). lia. }
  assert (∀ u v, edge (out_of (outgoing g)) (seq 0 n) u v ↔ plan_edge steps u v) as Hedge.
  { intros u v. unfold edge. rewrite <-He. split; [by intros []|]. intros Hv. by destruct (Hin u v Hv). }
  assert (∀ v, v ∈ seq 0 n → deg_get (indegree g) v = Some (in_from (out_of (outgoing g)) (seq 0 n) v))
    as Hdeg by (intros v Hv%elem_of_seq; apply Hc; lia).
  assert (∀ v, v ∈ zero_degree (indegree g) ↔
            v ∈ seq 0 n ∧ in_from (out_of (outgoing g)) (seq 0 n) v = 0) as Hseeds.
  { intros v. rewrite elem_of_zero_degree. split.
    - intros Hv. apply lookup_lt_Some in Hv as Hvn. rewrite Hi in Hvn.
      rewrite Hc in Hv by done. split; [apply elem_of_seq; lia|congruence].
    - intros [Hv%elem_of_seq Hz]. rewrite Hc, Hz by lia. done. }
  destruct (kahn_spec (S := list nat) (out_of (outgoing g)) id (seq 0 n) (NoDup_seq 0 n)
    (λ u v _ Hv, proj2 (Hin u v Hv)) (λ l, reflexivity l) n (indegree g)
    (zero_degree (indegree g)) Hdeg (zero_degree_nodup _) Hseeds) as (order&Hk&_&_&_);
    [by rewrite length_seq|].
  assert (drain_ready n (outgoing g) (indegree g) (zero_degree (indegree g)) 0 = Some (length order))
    as ->.
  { change 0 with (length (@nil nat)) at 1. rewrite drain_kahn; [by rewrite Hk| |].
    - intros u Hu. apply Hseeds in Hu as [Hu%elem_of_seq _]. lia.
    - intros u v Hv. apply Hin in Hv as [_ Hv%elem_of_seq]. lia. }
  pose proof (kahn_complete (S := list nat) (out_of (outgoing g)) id (seq 0 n) (NoDup_seq 0 n)
    (λ u v _ Hv, proj2 (Hin u v Hv)) (λ l, reflexivity l) n (indegree g)
    (zero_degree (indegree g)) order Hdeg (zero_degree_nodup _) Hseeds
    ltac:(by rewrite length_seq) Hk) as Hcomp.
  rewrite length_seq in Hcomp.
  assert ((∀ v, ¬ tc (edge (out_of (outgoing g)) (seq 0 n)) v v) ↔ ∀ v, ¬ tc (plan_edge steps) v v)
    as Htc.
  { split; intros H v Hv; apply (H v); (eapply tc_mono; [|exact Hv]);
      intros; by apply Hedge. }
  rewrite Htc in Hcomp. case_bool_decide as Hlen; [right; eexists|left; tauto].
  split; [done|]. intros [_ Hno]. apply Hlen. tauto.
Qed.

(** ** What the routing and the main loop produce *)

(** A participant that may run the step. *)
Definition assignable (ps : list ExecutionParticipant) (step : PlannedExecutionStep)
    (p : ExecutionParticipant) : Prop :=
  p ∈ ps ∧ viable p step = true ∧
  ∀ r, requested_model step = Some r →
    p_provider_id p = Some (mr_provider_id r) ∧ p_model p = Some (mr_model r).

Lemma assign_planned_spec step p :
  assign_planned step p ≠ Err Panic ∧
  ∀ a, assign_planned step p = Ok a → a.1.1.1 = Some (participant_id p) ∧ viable p step = true.
Proof. unfold assign_planned. destruct (viable p step); simpl; split; naive_solver. Qed.

Lemma route_spec step ps :
  route step ps ≠ Err Panic ∧
  ∀ a, route step ps = Ok a → ∃ p, assignable ps step p ∧ a.1.1.1 = Some (participant_id p).
Proof.
  unfold route, assignable. destruct (requested_model step) as [r|].
  { destruct (list_find _ ps) as [[i p]|] eqn:Hf; [|by split].
    apply list_find_Some in Hf as (Hi&Hp&_). destruct (assign_planned_spec step p) as [Hn Hok].
    split; [done|]. intros a Ha. destruct (Hok a Ha). exists p.
    split_and!; [by eapply list_elem_of_lookup_2|done|by intros ? [= <-]|done]. }
  destruct (participant_index step) as [i|].
  { destruct (ps !! i) as [p|] eqn:Hi; [|by split].
    destruct (assign_planned_spec step p) as [Hn Hok].
    split; [done|]. intros a Ha. destruct (Hok a Ha). exists p.
    split_and!; [by eapply list_elem_of_lookup_2|done..]. }
  unfold viable. destruct (pl_profile step) as [pr|].
  - destruct (rank_participants ps pr) as [|c l] eqn:Hr; [by split|].
    assert (c ∈ rank_participants ps pr) as (p&Hp&Hs)%elem_of_ranked by (rewrite Hr; left).
    rewrite Hp. split; [done|]. intros a [= <-]. exists p. rewrite Hs. simpl.
    split_and!; [by eapply list_elem_of_lookup_2|done..].
  - destruct ps as [|p ps]; [by split|]. split; [done|]. intros a [= <-]. exists p.
    split_and!; [left|done..].
Qed.

Lemma bind_not_panic {A B} (r : result A failure) (k : A → result B failure) :
  r ≠ Err Panic → (∀ a, r = Ok a → k a ≠ Err Panic) → result_bind r k ≠ Err Panic.
Proof. destruct r; simpl; naive_solver. Qed.

Section materialize_lemmas.
Context (encode_profile : ExecutionStepProfile → result string string).
Context (encode_policy : StepControlPolicy → result string string).
Context (fresh : nat → string).
Abbreviation row := (materialize_step encode_profile encode_policy).
Abbreviation rows := (materialize_steps encode_profile encode_policy).

Lemma dependency_rows_ok n blocked bs :
  (∀ b, b ∈ bs → b < n) →
  dependency_rows (fresh <$> seq 0 n) blocked bs
  = Ok ((λ b, mkNewDependency (fresh b) blocked) <$> bs).
Proof.
  induction bs as [|b bs IH]; intros Hb; [done|]. simpl.
  rewrite list_lookup_fmap, lookup_seq_lt by (apply Hb; left). simpl.
  rewrite IH by (intros; apply Hb; by right). done.
Qed.

Lemma encode_not_panic {A} label (f : A → result string string) o : encode label f o ≠ Err Panic.
Proof. destruct o as [a|]; simpl; [by destruct (f a)|done]. Qed.

Lemma validate_step_not_panic pl : validate_step pl ≠ Err Panic.
Proof. unfold validate_step. by repeat case_match. Qed.

(** What holds of one materialized row. *)
Definition row_ok (active : list ExecutionParticipant) (index : nat)
    (pl : PlannedExecutionStep) (st : NewAgentExecutionStep) : Prop :=
  validate_step pl = Ok () ∧
  ns_step_id st = fresh index ∧ ns_kind st = pl_kind pl ∧ ns_status st = StepPending ∧
  ns_tool_policy st = normalized_tool_policy pl ∧
  (pl_kind pl = KindAgent → ∃ p, assignable active pl p ∧
     ns_assigned_participant_id st = Some (participant_id p)) ∧
  (pl_kind pl ≠ KindAgent → ns_assigned_participant_id st = None).

Lemma row_spec steps active index pl :
  steps !! index = Some pl → (∀ b, b ∈ depends_on pl → b < length steps) →
  row steps active (fresh <$> seq 0 (length steps)) index pl ≠ Err Panic ∧
  ∀ st deps, row steps active (fresh <$> seq 0 (length steps)) index pl = Ok (st, deps) →
    row_ok active index pl st ∧ Some (ns_failure_policy st) = normalized_failure_policy steps index ∧
    deps = (λ b, mkNewDependency (fresh b) (fresh index)) <$> depends_on pl.
Proof.
  intros Hi Hb. assert (index < length steps) as Hlt by by eapply lookup_lt_Some.
  unfold materialize_step. destruct (route_spec pl active) as [Hrn Hrok].
  rewrite list_lookup_fmap, lookup_seq_lt by done. simpl (fresh <$> Some _).
  destruct (normalized_failure_policy steps index) as [fp|] eqn:Hfp;
    [|unfold normalized_failure_policy in Hfp; by rewrite Hi in Hfp].
  rewrite dependency_rows_ok by done. split.
  - apply bind_not_panic; [apply validate_step_not_panic|]. intros _ _.
    apply bind_not_panic; [by case_bool_decide|]. intros [[[pid src] sc] rat] _. simpl.
    apply bind_not_panic; [apply encode_not_panic|]. intros prof _.
    apply bind_not_panic; [apply encode_not_panic|]. done.
  - intros st deps (()&Hv&([[[pid src] sc] rat]&Ha&H)%result_bind_ok)%result_bind_ok.
    simpl in H. apply result_bind_ok in H as (prof&_&(ctl&_&[= <- <-])%result_bind_ok).
    split; [|done]. split_and!; try done; simpl.
    + intros Hk. rewrite bool_decide_eq_true_2 in Ha by done.
      destruct (Hrok _ Ha) as (p&?&?). eauto.
    + intros Hk. rewrite bool_decide_eq_false_2 in Ha by done. by injection Ha.
Qed.

Lemma rows_spec steps active index todo :
  drop index steps = todo → index + length todo = length steps →
  (∀ i pl b, steps !! i = Some pl → b ∈ depends_on pl → b < length steps) →
  rows steps active (fresh <$> seq 0 (length steps)) index todo ≠ Err Panic ∧
  ∀ m, rows steps active (fresh <$> seq 0 (length steps)) index todo = Ok m →
    length (mp_steps m) = length todo ∧
    (∀ i pl, todo !! i = Some pl → ∃ st, mp_steps m !! i = Some st ∧ row_ok active (index + i) pl st ∧
       Some (ns_failure_policy st) = normalized_failure_policy steps (index + i)) ∧
    mp_dependencies m = concat (imap (λ i pl,
      (λ b, mkNewDependency (fresh b) (fresh (index + i))) <$> depends_on pl) todo).
Proof.
  revert index. induction todo as [|pl todo IH]; intros index Hd Hlen Hb.
  { split; [done|]. intros m [= <-]. done. }
  assert (steps !! index = Some pl) as Hi.
  { rewrite <-(Nat.add_0_r index), <-lookup_drop, Hd. done. }
  destruct (row_spec steps active index pl Hi (λ b Hbb, Hb index pl b Hi Hbb)) as [Hn Hok].
  destruct (IH (S index)) as [Hn' Hok'];
    [by rewrite <-Nat.add_1_r, <-drop_drop, Hd|simpl in Hlen; lia|done|].
  cbn [materialize_steps]. split.
  - apply bind_not_panic; [done|]. intros r _. by apply bind_not_panic.
  - intros m ([st deps]&Hr&(rest&Hrest&[= <-])%result_bind_ok)%result_bind_ok. simpl.
    destruct (Hok _ _ Hr) as (?&Hf&->). destruct (Hok' _ Hrest) as (Hl&Hall&->).
    split_and!; [by rewrite Hl| |].
    + intros [|i] pl' Hpl; simpl in *.
      * simplify_eq. exists st. by rewrite Nat.add_0_r.
      * destruct (Hall i pl' Hpl) as (st'&?&?&?). exists st'.
        replace (index + S i) with (S index + i) by lia. done.
    + rewrite Nat.add_0_r. f_equal. f_equal. apply imap_ext. intros i x _. simpl.
      by replace (index + S i) with (S (index + i)) by lia.
Qed.
End materialize_lemmas.

(** ** Properties *)

(** The DAG check is exact: a plan passes if and only if every dependency
    index is in range, not the step itself and not repeated, and the dependency
    relation has no cycle; and the check never panics (no index out of range, no
    in-degree underflow) and always terminates, on any input. *)
Theorem plan_validate_dag_exact steps :
  (validate_dag steps = Ok () ↔ plan_indices_ok steps ∧ ∀ i, ¬ tc (plan_edge steps) i i) ∧
  (validate_dag steps ≠ Ok () → ∃ m, validate_dag steps = Err (Failed (BadRequest m))).
Proof.
  assert (∀ e, validate_dag steps = Err (Failed e) → ∃ m, e = BadRequest m) as Hbad.
  { intros e. unfold validate_dag. intros He.
    destruct (add_steps _ _ _ _) as [g|e'] eqn:Ha; simpl in He.
    - destruct (drain_ready _ _ _ _ _); [|done]. case_bool_decide; [|done].
      injection He as <-. eauto.
    - injection He as ->. by eapply add_steps_bad. }
  destruct (validate_dag_spec steps) as [(->&?&?)|(e&He&Hno)].
  - split; [naive_solver|done].
  - split; [rewrite He; naive_solver|]. intros _. destruct (Hbad e He) as [m ->]. eauto.
Qed.

Definition demo_step (name : string) (deps : list nat) : PlannedExecutionStep :=
  mkPlanned name name None KindAgent (Some ModeNormal) deps None None None None ToolsFull None None
    SkipDependents.
Definition demo_plan : list PlannedExecutionStep :=
  [demo_step "gather" [2]; demo_step "write" [0; 2]; demo_step "scope" []].

Lemma plan_validate_dag_exact_witness :
  (∀ i, ¬ tc (plan_edge demo_plan) i i) ∧
  ∃ m, validate_dag [demo_step "a" [1]; demo_step "b" [0]] = Err (Failed (BadRequest m)).
Proof.
  split.
  - destruct (plan_validate_dag_exact demo_plan) as [[H _] _].
    apply H. vm_compute. reflexivity.
  - destruct (plan_validate_dag_exact [demo_step "a" [1]; demo_step "b" [0]]) as [_ H].
    apply H. vm_compute. discriminate.
Defined.

(** C37. A materialized plan is the plan: it has between one and 128 steps and
    no cycle, one row per step in order with its generated identifier, and
    exactly one dependency row per planned dependency; every row is pending;
    every Agent step runs on an active participant that satisfies its profile
    and, when a model was named, has that model; control steps have none.
    Materialization never panics. *)
Theorem plan_materialize_sound encode_profile encode_policy fresh plan ps :
  materialize encode_profile encode_policy fresh plan ps ≠ Err Panic ∧
  ∀ m, materialize encode_profile encode_policy fresh plan ps = Ok m →
    1 ≤ length plan ≤ MAX_AGENT_EXECUTION_STEPS ∧ (∀ i, ¬ tc (plan_edge plan) i i) ∧
    length (mp_steps m) = length plan ∧
    mp_dependencies m = concat (imap (λ i pl,
      (λ b, mkNewDependency (fresh b) (fresh i)) <$> depends_on pl) plan) ∧
    ∀ i pl, plan !! i = Some pl → ∃ st, mp_steps m !! i = Some st ∧
      ns_step_id st = fresh i ∧ ns_kind st = pl_kind pl ∧ ns_status st = StepPending ∧
      ns_tool_policy st = normalized_tool_policy pl ∧
      (pl_kind pl ≠ KindAgent → ns_assigned_participant_id st = None) ∧
      (pl_kind pl = KindAgent → ∃ p, p ∈ ps ∧ retired_in_revision p = None ∧
         ns_assigned_participant_id st = Some (participant_id p) ∧
         (∀ profile, pl_profile pl = Some profile → is_Some (score_participant p profile)) ∧
         (∀ r, requested_model pl = Some r →
            p_provider_id p = Some (mr_provider_id r) ∧ p_model p = Some (mr_model r))).
Proof.
  unfold materialize. case_bool_decide as Hne; [by split|]. case_bool_decide as Hmax; [by split|].
  destruct (validate_dag_spec plan) as [(->&Hidx&Hacyc)|(e&->&_)]; simpl; [|by split].
  case_match; [by split|].
  destruct (rows_spec encode_profile encode_policy fresh plan (active_participants ps) 0 plan
    eq_refl eq_refl) as [Hn Hok].
  { intros i pl b Hi Hb. destruct (Hidx i pl Hi) as [_ Hall]. by destruct (Hall b Hb). }
  split; [done|]. intros m Hm. destruct (Hok m Hm) as (Hl&Hall&Hdeps). split_and!; try done; try lia.
  - destruct plan; [done|simpl; lia].
  - intros i pl Hpl. destruct (Hall i pl Hpl) as (st&Hst&(_&?&?&?&?&Hag&Hctl)&_).
    exists st. split_and!; try done. intros Hk. destruct (Hag Hk) as (p&(Hp&Hv&Hr)&Has).
    apply list_elem_of_filter in Hp as [? ?]. exists p. split_and!; try done.
    intros pr Hpr. unfold viable in Hv. rewrite Hpr in Hv. by apply bool_decide_eq_true in Hv.
Qed.

Definition demo_fresh (i : nat) : string := pretty i.
Lemma plan_materialize_sound_witness :
  ∃ m, materialize (λ _, Ok "") (λ _, Ok "") demo_fresh demo_plan demo_members = Ok m ∧
    length (mp_steps m) = 3 ∧
    mkNewDependency "2" "1" ∈ mp_dependencies m.
Proof.
  destruct (plan_materialize_sound (λ _, Ok "") (λ _, Ok "") demo_fresh demo_plan demo_members)
    as [_ H].
  eexists. split; [vm_compute; reflexivity|].
  destruct (H _ ltac:(vm_compute; reflexivity)) as (_&_&Hl&Hd&_). split; [exact Hl|].
  rewrite Hd. vm_compute. do 2 apply list_elem_of_further. apply list_elem_of_here.
Defined.

(** The tool policy of a step that reaches no host pipeline is never
    widened: the full policy is narrowed to files and shell, every other policy
    is kept. A step whose text names a host pipeline gets the full policy
    whatever was declared, read-only included; control steps are always full. *)
Theorem plan_tool_policy_exact step :
  (pl_kind step = KindAgent → spec_requires_host_pipeline (pl_spec step) = false →
     normalized_tool_policy step
     = (if decide (pl_tool_policy step = ToolsFull) then ToolsFilesShell else pl_tool_policy step)) ∧
  (spec_requires_host_pipeline (pl_spec step) = true → normalized_tool_policy step = ToolsFull) ∧
  (pl_kind step ≠ KindAgent → normalized_tool_policy step = ToolsFull).
Proof.
  unfold normalized_tool_policy. split_and!.
  - intros -> ->. rewrite bool_decide_eq_false_2 by naive_solver. by destruct (pl_tool_policy step).
  - intros ->. by case_bool_decide.
  - intros Hk. by rewrite bool_decide_eq_true_2.
Qed.

Definition demo_read_only (spec : string) : PlannedExecutionStep :=
  mkPlanned "review" spec None KindAgent None [] None None None None ToolsReadOnly None None
    SkipDependents.
Lemma plan_tool_policy_exact_witness :
  normalized_tool_policy (demo_read_only "Review the notes") = ToolsReadOnly ∧
  normalized_tool_policy (demo_read_only "Review the notes; never call nomi_delegate.") = ToolsFull.
Proof.
  destruct (plan_tool_policy_exact (demo_read_only "Review the notes")) as (H1&_).
  destruct (plan_tool_policy_exact (demo_read_only "Review the notes; never call nomi_delegate."))
    as (_&H2&_).
  split; [apply H1; vm_compute; reflexivity|apply H2; vm_compute; reflexivity].
Defined.

(** Some step of every plan whose dependencies point backwards is fatal:
    its last step always carries the fail-execution policy, so the execution
    cannot settle as completed when its final deliverable failed; and a step
    that a later step depends on is only fatal when it is a safety gate. *)
Theorem plan_last_step_fatal plan i step :
  plan !! i = Some step →
  ((∀ j b, plan_edge plan b j → b < j) → i + 1 = length plan →
     normalized_failure_policy plan i = Some FailExecution) ∧
  ((∃ j, j ≠ i ∧ plan_edge plan i j) → spec_is_safety_gate (pl_spec step) = false →
     normalized_failure_policy plan i = Some SkipDependents).
Proof.
  intros Hi. unfold normalized_failure_policy. rewrite Hi.
  set (used := existsb _ (imap pair plan)).
  assert (used = true ↔ ∃ j, j ≠ i ∧ plan_edge plan i j) as Hused.
  { unfold used. rewrite existsb_exists. setoid_rewrite <-list_elem_of_In. split.
    - intros ([j c]&(k&x&[= -> ->]&Hx)%elem_of_lookup_imap&[Hne Hd]%andb_true_iff).
      apply bool_decide_eq_true in Hne, Hd. exists k. split; [done|]. by exists x.
    - intros (j&Hne&c&Hj&Hd). exists (j, c). split; [apply elem_of_lookup_imap; eauto|].
      by rewrite !bool_decide_eq_true_2. }
  split.
  - intros Hback Hlast. case_match; [done|]. rewrite (bool_decide_eq_true_2 (i + 1 = _)) by done.
    destruct used; [|by rewrite orb_true_r].
    destruct (proj1 Hused eq_refl) as (j&_&He). pose proof (Hback j i He).
    destruct He as (s&Hj&_). apply lookup_lt_Some in Hj. lia.
  - intros Hex Hs. rewrite Hs. by rewrite (proj2 Hused Hex).
Qed.

Lemma plan_last_step_fatal_witness :
  normalized_failure_policy [demo_step "a" []; demo_step "b" [0]] 1 = Some FailExecution ∧
  normalized_failure_policy [demo_step "a" []; demo_step "b" [0]] 0 = Some SkipDependents.
Proof.
  split.
  - eapply (plan_last_step_fatal _ 1); [reflexivity| |reflexivity].
    intros [|[|j]] b (s&Hs&Hb); simpl in Hs; simplify_eq.
    + by apply not_elem_of_nil in Hb.
    + apply list_elem_of_singleton in Hb as ->. lia.
  - eapply (plan_last_step_fatal _ 0); [reflexivity| |vm_compute; reflexivity].
    exists 1. split; [done|]. exists (demo_step "b" [0]). split; [reflexivity|apply list_elem_of_here].
Defined.
