(* ===== verification/ControlSteps.v ===== *)
(** Evaluation of the non-Agent control steps
    (crates/backend/nomifun-agent-execution/src/control_steps.rs): verification
    votes, judge ballots and loop controllers, reduced from the dependency
    outputs. *)
From S2P Require Import Prelude Float64 ExecTypes.

(** ** The JSON library

    The code parses model output with serde_json; the parser, the lookup and
    the scalar projections are parameters of the model. *)

Class JsonApi (Value : Type) := {
  json_from_str : string → option Value;
  json_get : Value → string → option Value;
  json_as_bool : Value → option bool;
  json_as_f64 : Value → option f64;
  json_as_array : Value → option (list Value);
  json_as_object : Value → option (list (string * Value));
}.

(** ** Extraction of the first JSON object *)

Definition is_char (c : Ascii.ascii) (code : N) : bool := (byte c =? code)%N.

(** The loop of [first_json_object] from the first opening brace on; the
    result is the number of bytes up to and including the matching brace. *)
Fixpoint object_end (depth : nat) (in_string escaped : bool) (s : string) : option nat :=
  match s with
  | EmptyString => None
  | String c s =>
      if in_string then
        if escaped then S <$> object_end depth true false s
        else if is_char c 92 then S <$> object_end depth true true s
        else if is_char c 34 then S <$> object_end depth false false s
        else S <$> object_end depth true false s
      else if is_char c 34 then S <$> object_end depth true escaped s
      else if is_char c 123 then S <$> object_end (S depth) false escaped s
      else if is_char c 125 then
        if bool_decide (depth = 1) then Some 1
        else S <$> object_end (depth - 1) false escaped s
      else S <$> object_end depth false escaped s
  end.
(** [raw.find] of the opening brace: the rest of [raw] from it on. *)
Fixpoint from_brace (raw : string) : option string :=
  match raw with
  | EmptyString => None
  | String c s => if is_char c 123 then Some raw else from_brace s
  end.
Definition first_json_object (raw : string) : option string :=
  match from_brace raw with
  | None => None
  | Some tail => (λ n, String.substring 0 n tail) <$> object_end 0 false false tail
  end.

(** ** Outcomes *)

Record LoopRuntimeState := mkLoopState { iteration : nat; output_hashes : list N }.
Definition default_loop_state : LoopRuntimeState := mkLoopState 0 [].

(** What a resolution stores as runtime state. *)
Inductive ControlState :=
| JudgeState (winner_index : nat) (scores : list f64) (ballot_count : nat)
| LoopState (s : LoopRuntimeState).
Inductive ControlResolution :=
| Complete (summary : string) (runtime : option ControlState)
| Fail_ (summary error : string)
| Repeat (body_step_id : string) (runtime : ControlState).

(** [Iterator::max_by_key]: the last of the maximal elements. *)
Fixpoint max_by_key {A} (key : A → Z) (best : A) (l : list A) : A :=
  match l with
  | [] => best
  | x :: l => max_by_key key (if (key best <=? key x)%Z then x else best) l
  end.
Definition max_by_key_opt {A} (key : A → Z) (l : list A) : option A :=
  match l with [] => None | x :: l => Some (max_by_key key x l) end.

Section control.
  Context {Value : Type} `{!JsonApi Value}.
  (** [DefaultHasher] on the trimmed output, the stored state's decoder, and
      the [{score:.4}] formatting. *)
  Context (hash_str : string → N) (decode_loop_state : Value → option LoopRuntimeState).
  Context (format_score : f64 → string).

Definition latest_attempt (id : string) (l : list (ExecutionAttempt Value)) :
    option (ExecutionAttempt Value) :=
  max_by_key_opt attempt_no (filter (λ a, a_step_id a = id) l).
Definition latest_output (id : string) (l : list (ExecutionAttempt Value)) : option string :=
  latest_attempt id l ≫= output_summary.

(** *** Verification *)

(** A field of the first JSON object of the output. *)
Definition json_field (output field : string) : option Value :=
  match first_json_object output with
  | None => None
  | Some object =>
      match json_from_str object with None => None | Some value => json_get value field end
  end.
Definition json_field_bool (output field : string) : option bool :=
  match json_field output field with None => None | Some value => json_as_bool value end.

Definition parse_pass (output : string) : option bool :=
  match json_field_bool output "pass" with
  | Some b => Some b
  | None =>
      let normalized := to_ascii_lowercase (trim output) in
      if ends_with normalized "pass" then Some true
      else if ends_with normalized "fail" then Some false else None
  end.

(** The loop collecting the verdicts: the first step without one, or all. *)
Fixpoint collect {A} (parse : string → option A) (l : list (ExecutionAttempt Value))
    (dependencies : list ExecutionStep) : result (list A) ExecutionStep :=
  match dependencies with
  | [] => Ok []
  | step :: dependencies =>
      match latest_output (step_id step) l ≫= parse with
      | None => Err step
      | Some v => let? vs := collect parse l dependencies in Ok (v :: vs)
      end
  end.

Definition required_votes (policy : VerificationPolicy) (votes : nat) : nat :=
  match policy with
  | Majority => votes / 2 + 1
  | Unanimous => votes
  | AtLeast count => count
  end.

Definition evaluate_verify (policy : VerificationPolicy) (dependencies : list ExecutionStep)
    (l : list (ExecutionAttempt Value)) : ControlResolution :=
  match collect parse_pass l dependencies with
  | Err step =>
      Fail_ ("验证失败：依赖步骤 '" +:+ title step +:+ "' 没有有效 PASS/FAIL 结果")
        ("missing or invalid verification verdict for step " +:+ step_id step)
  | Ok verdicts =>
      let passed := length (filter (λ v, v = true) verdicts) in
      let required := required_votes policy (length verdicts) in
      let ok := negb (bool_decide (verdicts = [])) && bool_decide (required ≤ passed) in
      let summary := "验证结果：" +:+ (if ok then "PASS" else "FAIL") +:+ "（通过 " +:+ pretty passed
                     +:+ "/" +:+ pretty (length verdicts) +:+ "，要求 " +:+ pretty required +:+ "）" in
      if ok then Complete summary None else Fail_ summary "verification gate failed"
  end.

(** *** Judging *)

(** [str::parse::<usize>] on an object key: an optional plus sign, decimal
    digits, no overflow. *)
Fixpoint parse_digits (acc : N) (s : string) : option N :=
  match s with
  | EmptyString => Some acc
  | String c s =>
      if is_ascii_digit c then
        let acc := (acc * 10 + (byte c - 48))%N in
        if (acc <=? u64_max)%N then parse_digits acc s else None
      else None
  end.
Definition parse_usize (s : string) : option N :=
  let digits := match s with
                | String c rest => if is_char c 43 then rest else s
                | EmptyString => s
                end in
  if bool_decide (digits = "") then None else parse_digits 0 digits.

Definition parse_ballot (output : string) : option (list (option f64)) :=
  match json_field output "scores" with None => None | Some scores =>
  match json_as_array scores with
  | Some values => Some (json_as_f64 <$> values)
  | None =>
      match json_as_object scores with
      | Some fields =>
          match max_by_key_opt Z.of_N (omap (λ kv, parse_usize kv.1) fields) with
          | None => None
          | Some max_index =>
              Some (foldl (λ ballot kv,
                      match parse_usize kv.1 with
                      | Some index => <[N.to_nat index := json_as_f64 kv.2]> ballot
                      | None => ballot
                      end) (replicate (N.to_nat max_index + 1) None) fields)
          end
      | None => None
      end
  end end.

Definition finite_score (score : option f64) : option f64 :=
  match score with Some x => if f64_is_finite x then Some x else None | None => None end.

(** One ballot of the mean: add each finite score to its candidate. *)
Fixpoint add_ballot (totals : list f64) (counts : list N) (ballot : list (option f64)) :
    list f64 * list N :=
  match totals, counts, ballot with
  | t :: totals, c :: counts, score :: ballot =>
      let r := add_ballot totals counts ballot in
      match finite_score score with
      | Some x => (f64_add t x :: r.1, (c + 1)%N :: r.2)
      | None => (t :: r.1, c :: r.2)
      end
  | _, _, _ => (totals, counts)
  end.
Definition mean_totals (n : nat) (ballots : list (list (option f64))) : list f64 :=
  let '(totals, counts) :=
    foldl (λ acc ballot, add_ballot acc.1 acc.2 ballot) (replicate n f64_zero, replicate n 0%N)
      ballots in
  zip_with (λ t c, if (0 <? c)%N then f64_div t (f64_of_u64 c) else f64_neg_infinity) totals counts.

(** The ranking of one ballot, best first. *)
Definition ballot_entries (n : nat) (ballot : list (option f64)) : list (nat * f64) :=
  omap (λ '(index, score), pair index <$> finite_score score) (imap pair (take n ballot)).
Definition compare_entries (left right : nat * f64) : comparison :=
  match default Eq (f64_partial_cmp right.2 left.2) with
  | Eq => Nat.compare left.1 right.1
  | c => c
  end.
Definition entry_before (a b : nat * f64) : Prop := compare_entries a b ≠ Gt.
#[export] Instance entry_comparison_eq_dec : EqDecision comparison.
Proof. solve_decision. Defined.
#[export] Instance entry_before_dec a b : Decision (entry_before a b) := _.

(** Award [ranked_len - rank - 1] points down the ranking. *)
Fixpoint award (totals : list f64) (points : nat) (ranked : list (nat * f64)) : list f64 :=
  match ranked with
  | [] => totals
  | (index, _) :: ranked =>
      award (alter (λ t, f64_add t (f64_of_u64 (N.of_nat points))) index totals) (points - 1) ranked
  end.
Definition borda_totals (n : nat) (ballots : list (list (option f64))) : list f64 :=
  foldl (λ totals ballot,
           let ranked := merge_sort entry_before (ballot_entries n ballot) in
           award totals (length ranked - 1) ranked)
    (replicate n f64_zero) ballots.

(** [max_by] with the comparator of the winner: score, then smaller index; a
    later element replaces the best one when it does not compare smaller. *)
Definition compare_winners (left right : nat * f64) : comparison :=
  match default Eq (f64_partial_cmp left.2 right.2) with
  | Eq => Nat.compare right.1 left.1
  | c => c
  end.
Fixpoint max_winner (best : nat * f64) (l : list (nat * f64)) : nat * f64 :=
  match l with
  | [] => best
  | x :: l => max_winner (if bool_decide (compare_winners best x = Gt) then best else x) l
  end.
Definition finite_totals (totals : list f64) : list (nat * f64) :=
  filter (λ e, f64_is_finite e.2) (imap pair totals).
Definition pick_winner (totals : list f64) : option (nat * f64) :=
  match finite_totals totals with [] => None | x :: l => Some (max_winner x l) end.

Definition judge_totals (aggregation : JudgeAggregation) (n : nat)
    (ballots : list (list (option f64))) : list f64 :=
  match aggregation with Mean => mean_totals n ballots | Borda => borda_totals n ballots end.

Definition candidate_total (configured : option nat) (ballots : list (list (option f64))) : nat :=
  default (foldr (λ b m, length b `max` m) 0 ballots) configured.

Definition evaluate_judge (aggregation : JudgeAggregation) (configured : option nat)
    (dependencies : list ExecutionStep) (l : list (ExecutionAttempt Value)) : ControlResolution :=
  match collect parse_ballot l dependencies with
  | Err step =>
      Fail_ ("裁决失败：依赖步骤 '" +:+ title step +:+ "' 没有有效选票")
        ("missing or invalid judge ballot for step " +:+ step_id step)
  | Ok ballots =>
      let n := candidate_total configured ballots in
      if bool_decide (n = 0) || bool_decide (ballots = []) then
        Fail_ "裁决失败：没有有效选票" "no valid judge ballots"
      else
        let totals := judge_totals aggregation n ballots in
        match pick_winner totals with
        | None => Fail_ "裁决失败：选票没有有效分数" "judge ballots contain no scores"
        | Some (winner, score) =>
            Complete ("裁决结果：候选 #" +:+ pretty winner +:+ " 胜出（"
                      +:+ match aggregation with Mean => "mean" | Borda => "borda" end
                      +:+ "=" +:+ format_score score +:+ "，有效选票 "
                      +:+ pretty (length ballots) +:+ "）")
              (Some (JudgeState winner totals (length ballots)))
        end
  end.

(** *** Loops *)

Definition output_hash (output : string) : N := hash_str (trim output).

(** [windows(2).all(equal)] on the last [required] hashes. *)
Fixpoint all_equal (l : list N) : bool :=
  match l with
  | x :: ((y :: _) as l') => bool_decide (x = y) && all_equal l'
  | _ => true
  end.
Definition stop_reached (stop : LoopStopPolicy) (output : string) (hashes : list N) : bool :=
  match stop with
  | MaxIterations => false
  | Predicate done_marker =>
      contains_str output done_marker
      || bool_decide (json_field_bool output "done" = Some true)
  | Stable quiet_rounds =>
      let required := Nat.max quiet_rounds 1 + 1 in
      bool_decide (required ≤ length hashes) && all_equal (drop (length hashes - required) hashes)
  | Approved => bool_decide (parse_pass output = Some true)
  end.

(** The state the latest controller attempt stored. *)
Definition stored_state (controller : ExecutionStep) (l : list (ExecutionAttempt Value)) :
    LoopRuntimeState :=
  default default_loop_state
    match latest_attempt (step_id controller) l with
    | None => None
    | Some a => match runtime_state a with None => None | Some v => decode_loop_state v end
    end.

Definition evaluate_loop (max_iterations : nat) (stop : LoopStopPolicy)
    (dependencies : list ExecutionStep) (l : list (ExecutionAttempt Value))
    (controller : ExecutionStep) : ControlResolution :=
  match dependencies with
  | [body] =>
      let output := default "" (latest_output (step_id body) l) in
      let state := stored_state controller l in
      let state := mkLoopState (iteration state + 1)
                     (output_hashes state ++ [output_hash output]) in
      if bool_decide (Nat.max max_iterations 1 ≤ iteration state)
         || stop_reached stop output (output_hashes state)
      then Complete ("循环在第 " +:+ pretty (iteration state) +:+ " 轮结束。

" +:+ trim output) (Some (LoopState state))
      else Repeat (step_id body) (LoopState state)
  | _ => Fail_ "循环控制器必须且只能有一个主体步骤" "loop requires exactly one body dependency"
  end.

Definition evaluate (step : ExecutionStep) (dependencies : list ExecutionStep)
    (l : list (ExecutionAttempt Value)) : ControlResolution :=
  match control_policy step with
  | Some (VerifyPolicy vote) => evaluate_verify vote dependencies l
  | Some (JudgePolicy aggregation candidate_count) =>
      evaluate_judge aggregation candidate_count dependencies l
  | Some (LoopPolicy max_iterations stop) =>
      evaluate_loop max_iterations stop dependencies l step
  | None => Fail_ "控制步骤缺少策略" "missing control policy"
  end.
End control.

(** ** Lemmas *)

Lemma elem_of_take_in {A} n (l : list A) x : x ∈ take n l → x ∈ l.
Proof. intros Hx. rewrite <-(take_drop n l). apply elem_of_app. by left. Qed.

Lemma length_add_ballot ts cs b :
  length (add_ballot ts cs b).1 = length ts ∧ length (add_ballot ts cs b).2 = length cs.
Proof.
  revert cs b. induction ts as [|t ts IH]; intros [|c cs] [|x b]; try done. simpl.
  destruct (IH cs b). destruct (finite_score x); simpl; lia.
Qed.
Lemma length_add_ballot_1 ts cs b : length (add_ballot ts cs b).1 = length ts.
Proof. apply length_add_ballot. Qed.
Lemma length_add_ballot_2 ts cs b : length (add_ballot ts cs b).2 = length cs.
Proof. apply length_add_ballot. Qed.

Section control_lemmas.
Context {Value : Type} `{!JsonApi Value}.
Implicit Types (l : list (ExecutionAttempt Value)) (deps : list ExecutionStep).

(** The value a dependency contributes. *)
Definition contributes {A} (parse : string → option A) l (d : ExecutionStep) (v : A) : Prop :=
  ∃ out, latest_output (step_id d) l = Some out ∧ parse out = Some v.

Lemma collect_spec {A} (parse : string → option A) l deps :
  (∃ vs, collect parse l deps = Ok vs ∧ Forall2 (contributes parse l) deps vs) ∨
  (∃ d, collect parse l deps = Err d ∧ d ∈ deps ∧ ∀ v, ¬ contributes parse l d v).
Proof.
  induction deps as [|d deps IH]; simpl; [left; by exists []|].
  destruct (latest_output (step_id d) l ≫= parse) as [v|] eqn:Hv.
  - apply bind_Some in Hv as (out&?&?).
    destruct IH as [(vs&->&?)|(d'&->&?&?)]; [left|right]; simpl.
    + exists (v :: vs). split; [done|]. constructor; [by exists out|done].
    + exists d'. split_and!; [done|by right|done].
  - right. exists d. split_and!; [done|left|]. intros v (out&Ho&Hp).
    by rewrite Ho in Hv; simpl in Hv; rewrite Hp in Hv.
Qed.

Lemma contributes_functional {A} (parse : string → option A) l deps vs vs' :
  Forall2 (contributes parse l) deps vs → Forall2 (contributes parse l) deps vs' → vs = vs'.
Proof.
  intros H. revert vs'. induction H as [|d v deps vs (o&Ho&Hv) _ IH]; intros vs' H';
    inversion H' as [|? ? ? ? (o'&Ho'&Hv') H'']; subst; [done|].
  f_equal; [congruence|by apply IH].
Qed.

(** Whether the verdicts pass, as the policy names say. *)
Definition count_true (verdicts : list bool) : nat := length (filter (λ v, v = true) verdicts).
Definition quorum (policy : VerificationPolicy) (verdicts : list bool) : Prop :=
  verdicts ≠ [] ∧
  match policy with
  | Majority => length verdicts < 2 * count_true verdicts
  | Unanimous => Forall (λ v, v = true) verdicts
  | AtLeast n => n ≤ count_true verdicts
  end.

Lemma count_true_all verdicts :
  length verdicts ≤ count_true verdicts ↔ Forall (λ v, v = true) verdicts.
Proof.
  assert (∀ vs : list bool, length (filter (λ v, v = true) vs) ≤ length vs) as Hle
    by (intros; apply length_filter).
  unfold count_true. induction verdicts as [|v vs IH]; [by split; [constructor|]|].
  rewrite filter_cons, Forall_cons. case_decide; simpl.
  - rewrite <-IH. split; [intros; split; [done|lia]|intros [_ ?]; lia].
  - pose proof (Hle vs). split; [intros; lia|naive_solver].
Qed.

Lemma quorum_spec policy verdicts :
  quorum policy verdicts ↔
  negb (bool_decide (verdicts = [])) && bool_decide
    (required_votes policy (length verdicts) ≤ length (filter (λ v, v = true) verdicts)) = true.
Proof.
  unfold quorum. rewrite andb_true_iff, negb_true_iff, bool_decide_eq_false, bool_decide_eq_true.
  destruct policy; cbn [required_votes]; [|by rewrite <-count_true_all|done].
  unfold count_true. set (n := length verdicts). set (p := length (filter _ _)).
  pose proof (Nat.div_mod n 2 ltac:(lia)). pose proof (Nat.mod_upper_bound n 2 ltac:(lia)).
  split; intros [? ?]; (split; [done|lia]).
Qed.

Lemma fold_max_ge (ballots : list (list (option f64))) b :
  b ∈ ballots → length b ≤ foldr (λ b m, length b `max` m) 0 ballots.
Proof. induction 1; simpl; lia. Qed.

(** *** The winner *)

(** [b] is as good a winner as [a]: a higher score, or the same score and
    no larger index. *)
Definition beats (b a : nat * f64) : Prop :=
  f64_le a.2 b.2 ∧ (f64_le b.2 a.2 → b.1 ≤ a.1).

Lemma beats_trans a b c :
  f64_is_finite a.2 → f64_is_finite b.2 → f64_is_finite c.2 → beats c b → beats b a → beats c a.
Proof.
  intros Ha Hb Hc [H1 H2] [H3 H4]. unfold beats in *.
  rewrite !f64_le_key in * by done. split; [by eapply key_compare_trans|]. intros Hca.
  assert (key_compare (f64_key c.2) (f64_key b.2) ≠ Gt) by by eapply key_compare_trans.
  assert (key_compare (f64_key b.2) (f64_key a.2) ≠ Gt) by by eapply key_compare_trans.
  transitivity b.1; auto.
Qed.
Lemma beats_refl a : f64_is_finite a.2 → beats a a.
Proof.
  intros Ha. split; [|done]. rewrite f64_le_key by done.
  pose proof (key_compare_antisym (f64_key a.2) (f64_key a.2)).
  by destruct (key_compare _ _).
Qed.

Lemma compare_winners_beats a b :
  f64_is_finite a.2 → f64_is_finite b.2 →
  if bool_decide (compare_winners a b = Gt) then beats a b else beats b a.
Proof.
  intros Ha Hb. unfold compare_winners, beats. rewrite f64_cmp_key by done. simpl.
  pose proof (f64_le_key _ _ Ha Hb) as Hab. pose proof (f64_le_key _ _ Hb Ha) as Hba.
  rewrite (key_compare_antisym (f64_key a.2) (f64_key b.2)) in Hba.
  destruct (key_compare (f64_key a.2) (f64_key b.2)); simpl in *.
  - destruct (Nat.compare_spec b.1 a.1); case_bool_decide; try done; split; naive_solver lia.
  - naive_solver.
  - naive_solver.
Qed.

Lemma max_winner_spec best es :
  Forall (λ e, f64_is_finite e.2) (best :: es) →
  max_winner best es ∈ best :: es ∧ ∀ e, e ∈ best :: es → beats (max_winner best es) e.
Proof.
  revert best. induction es as [|x es IH]; intros best Hf; simpl.
  { split; [left|]. intros e ->%list_elem_of_singleton. apply beats_refl.
    by apply Forall_cons in Hf as [? _]. }
  apply Forall_cons in Hf as [Hb [Hx Hes]%Forall_cons].
  pose proof (compare_winners_beats best x Hb Hx) as Hc.
  set (w := if bool_decide (compare_winners best x = Gt) then best else x) in *.
  assert (f64_is_finite w.2 ∧ (w = best ∨ w = x) ∧ beats w best ∧ beats w x) as (Hw&Hor&H1&H2).
  { unfold w. case_bool_decide; split_and!; auto using beats_refl. }
  destruct (IH w) as [Hin Hall]; [by constructor|].
  assert (f64_is_finite (max_winner w es).2) as Hm.
  { assert (Forall (λ e, f64_is_finite e.2) (w :: es)) as Hfw by by constructor.
    rewrite Forall_forall in Hfw. by apply Hfw. }
  split.
  - apply elem_of_cons in Hin as [->|?]; [|by do 2 right].
    destruct Hor as [->| ->]; [left|right; left].
  - intros e [->|[->|He]%elem_of_cons]%elem_of_cons; [| |apply Hall; by right];
      (eapply beats_trans; [..|apply Hall; left|]); done.
Qed.

Lemma elem_of_finite_totals totals i x :
  (i, x) ∈ finite_totals totals ↔ totals !! i = Some x ∧ f64_is_finite x.
Proof.
  unfold finite_totals. rewrite list_elem_of_filter, elem_of_lookup_imap. naive_solver.
Qed.

Lemma pick_winner_spec totals w x :
  pick_winner totals = Some (w, x) →
  totals !! w = Some x ∧ f64_is_finite x ∧
  ∀ j y, totals !! j = Some y → f64_is_finite y →
    f64_le y x ∧ (f64_le x y → w ≤ j).
Proof.
  unfold pick_winner. destruct (finite_totals totals) as [|e es] eqn:He; [done|]. intros [= Hw].
  assert (Forall (λ e, f64_is_finite e.2) (e :: es)) as Hf.
  { rewrite <-He. apply Forall_forall. intros [i y] Hi. by apply elem_of_finite_totals in Hi as [_ ?]. }
  destruct (max_winner_spec e es Hf) as [Hin Hall]. rewrite Hw in Hin, Hall.
  rewrite <-He in Hin, Hall. apply elem_of_finite_totals in Hin as [??].
  split_and!; [done|done|]. intros j y Hj Hy.
  apply (Hall (j, y)). by apply elem_of_finite_totals.
Qed.

Lemma pick_winner_None totals :
  pick_winner totals = None ↔ ∀ i x, totals !! i = Some x → ¬ f64_is_finite x.
Proof.
  unfold pick_winner. destruct (finite_totals totals) as [|[i x] es] eqn:He.
  - split; [|done]. intros _ i x Hi Hx.
    assert ((i, x) ∈ finite_totals totals) as H by by apply elem_of_finite_totals.
    rewrite He in H. by apply not_elem_of_nil in H.
  - split; [done|]. intros Hno. exfalso.
    assert ((i, x) ∈ finite_totals totals) as [??]%elem_of_finite_totals by (rewrite He; left).
    by eapply Hno.
Qed.

Lemma ballot_none n (b : list (option f64)) :
  Forall (λ score, finite_score score = None) b → ballot_entries n b = [].
Proof.
  intros Hb. unfold ballot_entries.
  destruct (omap _ _) as [|e es] eqn:He; [done|]. exfalso.
  assert (e ∈ omap (λ '(i, s), pair i <$> finite_score s) (imap pair (take n b))) as Hin
    by (rewrite He; left).
  apply list_elem_of_omap in Hin as ([i s]&Hs&Hf).
  apply elem_of_lookup_imap in Hs as (j&s'&[= -> ->]&Hs').
  rewrite Forall_forall in Hb. rewrite Hb in Hf; [done|].
  apply list_elem_of_lookup_2 in Hs'. by eapply elem_of_take_in.
Qed.
Lemma borda_totals_none n ballots :
  Forall (Forall (λ score, finite_score score = None)) ballots →
  borda_totals n ballots = replicate n f64_zero.
Proof.
  unfold borda_totals. generalize (replicate n f64_zero).
  induction ballots as [|b bs IH]; intros ts Hf; [done|].
  apply Forall_cons in Hf as [Hb Hf]. simpl. rewrite ballot_none by done. by apply IH.
Qed.
Lemma add_ballot_none ts cs b :
  Forall (λ score, finite_score score = None) b → add_ballot ts cs b = (ts, cs).
Proof.
  revert cs b. induction ts as [|t ts IH]; intros [|c cs] [|x b] Hf; try done. simpl.
  apply Forall_cons in Hf as [-> Hf]. by rewrite IH.
Qed.
Lemma mean_totals_none n ballots :
  Forall (Forall (λ score, finite_score score = None)) ballots →
  mean_totals n ballots = replicate n f64_neg_infinity.
Proof.
  intros Hf. unfold mean_totals.
  assert (∀ tc, foldl (λ acc (b : list (option f64)), add_ballot acc.1 acc.2 b) tc ballots = tc) as ->.
  { induction Hf as [|b bs Hb _ IH]; intros tc; [done|]. simpl.
    rewrite add_ballot_none by done. rewrite IH. by destruct tc. }
  induction n as [|n IH]; [done|]. simpl. by f_equal.
Qed.

Lemma length_award totals p r : length (award totals p r) = length totals.
Proof.
  revert totals p. induction r as [|[i x] r IH]; intros totals p; [done|].
  simpl. by rewrite IH, length_alter.
Qed.
Lemma length_judge_totals agg n ballots : length (judge_totals agg n ballots) = n.
Proof.
  destruct agg; simpl.
  - unfold mean_totals.
    assert (∀ bs (tc : list f64 * list N), length tc.1 = n → length tc.2 = n →
      let r := foldl (λ acc (b : list (option f64)), add_ballot acc.1 acc.2 b) tc bs in
      length r.1 = n ∧ length r.2 = n) as H.
    { induction bs as [|b bs IH]; intros tc H1 H2; [done|]. simpl. apply IH;
        by rewrite ?length_add_ballot_1, ?length_add_ballot_2. }
    specialize (H ballots (replicate n f64_zero, replicate n 0%N)). simpl in H.
    rewrite !length_replicate in H. specialize (H eq_refl eq_refl).
    destruct (foldl _ _ ballots) as [t c]. simpl in H. rewrite length_zip_with. lia.
  - unfold borda_totals.
    assert (∀ bs ts, length ts = n → length (foldl (λ totals ballot,
         let ranked := merge_sort entry_before (ballot_entries n ballot) in
         award totals (length ranked - 1) ranked) ts bs) = n) as H.
    { induction bs as [|b bs IH]; intros ts Hl; [done|]. simpl. apply IH. by rewrite length_award. }
    apply H. by rewrite length_replicate.
Qed.
End control_lemmas.

(** ** Properties *)

Section control_properties.
  Context {Value : Type} `{!JsonApi Value}.
  Context (hash_str : string → N) (decode_loop_state : Value → option LoopRuntimeState).
  Context (format_score : f64 → string).

(** A verification gate opens exactly on a quorum: it completes if and
    only if every dependency has a readable verdict and the verdicts meet the
    policy (more than half for a majority, all of them for unanimity, the
    configured number otherwise); with no dependency it never opens. *)
Theorem control_verify_exact policy deps (l : list (ExecutionAttempt Value)) :
  (∃ summary, evaluate_verify policy deps l = Complete summary None) ↔
  ∃ verdicts, Forall2 (contributes parse_pass l) deps verdicts ∧ verdicts ≠ [] ∧
    match policy with
    | Majority => length verdicts < 2 * count_true verdicts
    | Unanimous => Forall (λ v, v = true) verdicts
    | AtLeast n => n ≤ count_true verdicts
    end.
Proof.
  unfold evaluate_verify.
  destruct (collect_spec parse_pass l deps) as [(vs&->&Hvs)|(d&->&Hd&Hno)].
  - pose proof (quorum_spec policy vs) as Hq.
    destruct (negb (bool_decide (vs = [])) && _).
    + split; [intros _|by eexists]. exists vs. split; [done|]. by apply Hq.
    + split; [by intros []|]. intros (vs'&Hvs'&Hok).
      rewrite (contributes_functional _ _ _ _ _ Hvs Hvs') in Hq. by apply Hq in Hok.
  - split; [by intros []|]. intros (vs'&Hvs'&_). exfalso.
    apply list_elem_of_lookup in Hd as [i Hi].
    destruct (Forall2_lookup_l _ _ _ _ _ Hvs' Hi) as (v&_&Hv). by eapply Hno.
Qed.

(** A judge elects a best candidate: a completed judgement names an index
    among the candidates whose total is finite and maximal, the smallest such
    index on a tie, and reports the totals it was chosen from and one ballot per
    dependency. *)
Theorem control_judge_winner agg configured deps (l : list (ExecutionAttempt Value)) summary st :
  evaluate_judge format_score agg configured deps l = Complete summary st →
  ∃ ballots w x totals, st = Some (JudgeState w totals (length deps)) ∧
    Forall2 (contributes parse_ballot l) deps ballots ∧
    totals = judge_totals agg (candidate_total configured ballots) ballots ∧
    w < candidate_total configured ballots ∧ totals !! w = Some x ∧ f64_is_finite x ∧
    ∀ j y, totals !! j = Some y → f64_is_finite y → f64_le y x ∧ (f64_le x y → w ≤ j).
Proof.
  unfold evaluate_judge.
  destruct (collect_spec parse_ballot l deps) as [(bs&->&Hbs)|(d&->&_)]; [|done].
  destruct (bool_decide _ || _); [done|].
  destruct (pick_winner _) as [[w x]|] eqn:Hw; [|done]. intros [= _ <-].
  apply pick_winner_spec in Hw as (Hl&Hx&Hmax).
  exists bs, w, x, (judge_totals agg (candidate_total configured bs) bs).
  rewrite (Forall2_length _ _ _ Hbs).
  assert (w < candidate_total configured bs)
    by (apply lookup_lt_Some in Hl; by rewrite length_judge_totals in Hl).
  eauto 10.
Qed.

(** Ballots without a single score: the mean refuses to judge, but the
    Borda count still completes and elects candidate 0, although nobody voted
    for it, because unranked candidates keep the finite total 0 and the
    per-candidate counts are never consulted. *)
Theorem control_judge_empty_ballots n deps (l : list (ExecutionAttempt Value)) ballots :
  0 < n → deps ≠ [] → Forall2 (contributes parse_ballot l) deps ballots →
  Forall (Forall (λ score, finite_score score = None)) ballots →
  (evaluate_judge format_score Mean (Some n) deps l
   = Fail_ "裁决失败：选票没有有效分数" "judge ballots contain no scores") ∧
  ∃ summary, evaluate_judge format_score Borda (Some n) deps l
   = Complete summary (Some (JudgeState 0 (replicate n f64_zero) (length deps))).
Proof.
  intros Hn Hd Hbs Hnone. unfold evaluate_judge.
  destruct (collect_spec parse_ballot l deps) as [(bs&->&Hbs')|(d&_&Hin&Hno)].
  2: { exfalso. apply list_elem_of_lookup in Hin as [i Hi].
       destruct (Forall2_lookup_l _ _ _ _ _ Hbs Hi) as (v&_&Hv). by eapply Hno. }
  rewrite <-(contributes_functional _ _ _ _ _ Hbs Hbs') in *. simpl (candidate_total _ _).
  rewrite bool_decide_eq_false_2 by lia.
  rewrite bool_decide_eq_false_2 by (intros ->; by inversion Hbs).
  cbn [orb judge_totals]. rewrite (mean_totals_none n ballots Hnone), (borda_totals_none n ballots Hnone).
  split.
  - rewrite (proj2 (pick_winner_None _)); [done|]. intros i x [-> _]%lookup_replicate. by intros [].
  - destruct (pick_winner (replicate n f64_zero)) as [[w x]|] eqn:Hw.
    + apply pick_winner_spec in Hw as (Hw&_&Hmax). apply lookup_replicate in Hw as [-> Hlt].
      destruct (Hmax 0 f64_zero) as [_ Hle]; [by apply lookup_replicate_2|done|].
      assert (w = 0) as -> by (specialize (Hle I); lia).
      rewrite <-(Forall2_length _ _ _ Hbs). eauto.
    + rewrite pick_winner_None in Hw.
      exfalso. by eapply (Hw 0); [apply lookup_replicate_2|].
Qed.

(** Consecutive evaluations of a loop controller that ask for another round:
    each starts from the state the previous one stored. *)
Inductive loop_rounds (max_iterations : nat) (stop : LoopStopPolicy) (body controller : ExecutionStep) :
    LoopRuntimeState → list (list (ExecutionAttempt Value)) → LoopRuntimeState → Prop :=
| rounds_nil st : loop_rounds max_iterations stop body controller st [] st
| rounds_cons st (l : list (ExecutionAttempt Value)) st' ls st'' :
    stored_state decode_loop_state controller l = st →
    evaluate_loop hash_str decode_loop_state max_iterations stop [body] l controller
    = Repeat (step_id body) (LoopState st') →
    loop_rounds max_iterations stop body controller st' ls st'' →
    loop_rounds max_iterations stop body controller st (l :: ls) st''.

(** Loops terminate: a controller that starts without stored state asks
    for fewer than [max_iterations] repetitions (at least one round always
    runs), whatever the stop policy and the outputs; its state counts the rounds
    and records one output hash per round. *)
Theorem control_loop_terminates max_iterations stop body controller ls st :
  loop_rounds max_iterations stop body controller default_loop_state ls st →
  length ls < Nat.max max_iterations 1 ∧ iteration st = length ls ∧
  length (output_hashes st) = length ls.
Proof.
  intros Hr. assert (∀ st0, loop_rounds max_iterations stop body controller st0 ls st →
    iteration st0 < Nat.max max_iterations 1 →
    iteration st0 + length ls < Nat.max max_iterations 1 ∧
    iteration st = iteration st0 + length ls ∧
    length (output_hashes st) = length (output_hashes st0) + length ls) as H.
  { clear Hr. intros st0 Hr. induction Hr as [st0|st0 l st1 ls st2 Hst He _ IH]; intros Hlt; simpl.
    { rewrite !Nat.add_0_r. done. }
    unfold evaluate_loop in He. rewrite Hst in He. cbn [iteration output_hashes] in He.
    destruct (bool_decide _ || _) eqn:Hstop; [done|]. injection He as <-.
    apply orb_false_iff in Hstop as [Hstop%bool_decide_eq_false _].
    destruct IH as (?&?&Hh); simpl in *; [lia|]. rewrite length_app in Hh. simpl in Hh.
    split_and!; lia. }
  destruct (H default_loop_state Hr) as (?&?&?); simpl in *; [lia|]. split_and!; lia.
Qed.
End control_properties.

(** ** Witnesses *)

(** A small JSON library: numbers, arrays and objects, and a reader of the
    two documents the witnesses use. *)
Inductive demo_json :=
| JNum (x : f64)
| JArr (l : list demo_json)
| JObj (fields : list (string * demo_json)).
Definition demo_lookup (v : demo_json) (key : string) : option demo_json :=
  match v with
  | JObj fields => snd <$> find (λ kv, bool_decide (kv.1 = key)) fields
  | _ => None
  end.
#[export] Instance demo_api : JsonApi demo_json := {|
  json_from_str s :=
    if bool_decide (s = "{scores 1 3}")
    then Some (JObj [("scores", JArr [JNum (f64_of_u64 1); JNum (f64_of_u64 3)])])
    else if bool_decide (s = "{scores}") then Some (JObj [("scores", JArr [])]) else None;
  json_get := demo_lookup;
  json_as_bool _ := None;
  json_as_f64 v := match v with JNum x => Some x | _ => None end;
  json_as_array v := match v with JArr l => Some l | _ => None end;
  json_as_object v := match v with JObj fields => Some fields | _ => None end;
|}.

Definition demo_step (id : string) (control : option StepControlPolicy) : ExecutionStep :=
  mkStep id "exec" id "" None KindAgent None StepPending ToolsFull None None control
    FailExecution None None None None false None None None None 1 None 1 0 0.
Definition demo_attempt (id : string) (no : Z) (out : string) : ExecutionAttempt demo_json :=
  mkAttempt "attempt" "exec" id no None None AttemptCompleted "" (JArr []) None None (Some out)
    [] None None None None None 1 0 0.
Definition demo_deps : list ExecutionStep := [demo_step "a" None; demo_step "b" None].
Definition demo_votes : list (ExecutionAttempt demo_json) :=
  [demo_attempt "a" 1 "{scores}"; demo_attempt "a" 2 "my ballot {scores 1 3} done";
   demo_attempt "b" 1 "{scores 1 3}"].
Definition demo_blank : list (ExecutionAttempt demo_json) :=
  [demo_attempt "a" 1 "{scores}"; demo_attempt "b" 1 "{scores}"].

Lemma demo_votes_contribute :
  Forall2 (contributes parse_ballot demo_votes) demo_deps
    [[Some (f64_of_u64 1); Some (f64_of_u64 3)]; [Some (f64_of_u64 1); Some (f64_of_u64 3)]].
Proof.
  constructor; [|constructor; [|constructor]]; (eexists; split; [reflexivity|reflexivity]).
Qed.
Lemma demo_blank_contribute : Forall2 (contributes parse_ballot demo_blank) demo_deps [[]; []].
Proof.
  constructor; [|constructor; [|constructor]]; (eexists; split; [reflexivity|reflexivity]).
Qed.

Lemma control_judge_winner_witness :
  ∃ summary st, evaluate_judge (λ _, "3.0000") Mean (Some 2) demo_deps demo_votes
                = Complete summary st ∧
    ∃ ballots w x totals, st = Some (JudgeState w totals 2) ∧
      Forall2 (contributes parse_ballot demo_votes) demo_deps ballots ∧
      totals = judge_totals Mean (candidate_total (Some 2) ballots) ballots ∧
      w < candidate_total (Some 2) ballots ∧ totals !! w = Some x ∧ f64_is_finite x ∧
      ∀ j y, totals !! j = Some y → f64_is_finite y → f64_le y x ∧ (f64_le x y → w ≤ j).
Proof.
  eexists _, _. split; [vm_compute; reflexivity|].
  eapply (control_judge_winner (λ _, "3.0000") Mean (Some 2) demo_deps demo_votes).
  vm_compute. reflexivity.
Defined.

Lemma control_judge_empty_ballots_witness :
  ∃ summary, evaluate_judge (λ _, "0.0000") Borda (Some 3) demo_deps demo_blank
   = Complete summary (Some (JudgeState 0 (replicate 3 f64_zero) 2)).
Proof.
  apply (control_judge_empty_ballots (λ _, "0.0000") 3 demo_deps demo_blank [[]; []]).
  - lia.
  - done.
  - apply demo_blank_contribute.
  - repeat constructor.
Defined.

(** Two rounds of a loop bounded by three iterations. *)
Definition demo_decode (v : demo_json) : option LoopRuntimeState :=
  match v with
  | JArr l => Some (mkLoopState (length l) (replicate (length l) 7%N))
  | _ => None
  end.
Definition demo_round (n : nat) : list (ExecutionAttempt demo_json) :=
  [demo_attempt "a" 1 "work";
   mkAttempt "attempt" "exec" "loop" (Z.of_nat n) None None AttemptCompleted "" (JArr []) None None
     None [] None None (Some (JArr (replicate n (JArr [])))) None None 1 0 0].
Lemma control_loop_terminates_witness :
  length [demo_round 0; demo_round 1] < 3 ∧
  iteration (mkLoopState 2 [7; 7]%N) = 2.
Proof.
  destruct (control_loop_terminates (λ _, 7%N) demo_decode 3 MaxIterations (demo_step "a" None)
    (demo_step "loop" None) [demo_round 0; demo_round 1] (mkLoopState 2 [7; 7]%N)) as (?&?&_);
    [|split; [lia|done]].
  eapply rounds_cons; [vm_compute; reflexivity|vm_compute; reflexivity|].
  eapply rounds_cons; [vm_compute; reflexivity|vm_compute; reflexivity|].
  apply rounds_nil.
Defined.
