(* ===== verification/ExecScheduler.v ===== *)
(** The decisions of the execution scheduler
    (crates/backend/nomifun-agent-execution/src/scheduler.rs): which step runs
    next, within which limits, when a loop iteration resets its body, what a
    finished attempt does to its step, and when and how an execution ends.  The
    surrounding I/O (repository calls, spawned futures, lease heartbeats) is
    not modelled; clock readings are arguments, and the traversal order of a
    [HashMap] or [HashSet] is an argument or is shown not to matter. *)
From S2P Require Import Prelude Graph ExecTypes ControlSteps.

Definition MAX_PROVIDER_RETRIES : Z := 2.
Definition MAX_TIMEOUT_RETRIES : Z := 1.
(** Durations, in milliseconds. *)
Definition LEASE_ACQUIRE_RETRY_MAX : Z := 1000.
Definition LEASE_CAS_RETRY : Z := 50.
Definition EFFECT_RETRY_MAX : Z := 60000.

Definition lease_retry_delay (owner : option string) (expires_at : option Z) (now : Z) : Z :=
  match owner, expires_at with
  | Some _, Some expires_at =>
      if (now <? expires_at)%Z
      then Z_clamp (expires_at - now + 25) LEASE_CAS_RETRY LEASE_ACQUIRE_RETRY_MAX
      else LEASE_CAS_RETRY
  | _, _ => LEASE_CAS_RETRY
  end.
Definition next_effect_retry_delay (current : Z) : Z := Z.min (current * 2) EFFECT_RETRY_MAX.

Definition scheduler_error_is_recoverable (e : AppError) : bool :=
  match e with
  | Conflict _ | NotFound _ => true
  | RateLimited | BadGateway _ | Timeout_ _ => true
  | Internal message =>
      starts_with message "Database error:" || starts_with message "Database init error:"
  | _ => false
  end.

Definition status_is_active_for_scheduler_failure (s : AgentExecutionStatus) : bool :=
  match s with ExecutionRunning | ExecutionWaitingInput => true | _ => false end.

(** ** Settling an attempt *)

Definition attempt_error_transition (status : ExecutionAttemptStatus)
    (adaptation : AdaptationPolicy) (attempt_no : Z) :
    ExecutionAttemptStatus * ExecutionStepStatus * bool :=
  if decide (status = AttemptQueued) then
    let can_retry := (attempt_no <=? MAX_PROVIDER_RETRIES)%Z in
    (AttemptCancelled, if can_retry then StepPending else StepFailed, can_retry)
  else
    let can_retry := bool_decide (adaptation = AdaptationAdaptive)
                     && (attempt_no <=? MAX_PROVIDER_RETRIES)%Z in
    (AttemptFailed, if can_retry then StepPending else StepFailed, can_retry).

(** What [settle_agent_outcome] is told about a turn: it delivered, it failed
    (whether the recorded error is retryable, and whether there is one), or it
    ended in an application error. *)
Inductive TurnOutcome :=
| Delivered
| TurnFailed (retryable has_marker : bool)
| TurnError.
Definition settle_transition (outcome : TurnOutcome) (status : ExecutionAttemptStatus)
    (adaptation : AdaptationPolicy) (attempt_no : Z) :
    ExecutionAttemptStatus * ExecutionStepStatus * bool :=
  match outcome with
  | Delivered => (AttemptCompleted, StepCompleted, false)
  | TurnFailed retryable has_marker =>
      let can_retry :=
        bool_decide (adaptation = AdaptationAdaptive)
        && ((retryable && (attempt_no <=? MAX_PROVIDER_RETRIES)%Z)
            || (negb has_marker && (attempt_no <=? MAX_TIMEOUT_RETRIES)%Z)) in
      (AttemptFailed, if can_retry then StepPending else StepFailed, can_retry)
  | TurnError => attempt_error_transition status adaptation attempt_no
  end.

Definition retry_backoff_ms (attempt_no : Z) : Z :=
  i64_sat (1000 * Z.shiftl 1 (Z_clamp attempt_no 0 6)).

(** The versions a model turn started with, and the check that a late
    callback still owns them: [None] drops the settlement. *)
Record AttemptSettlementFence := mkFence { step_version : Z; attempt_version : Z }.
Definition repin_fence {Value} (fence : AttemptSettlementFence) (step : ExecutionStep)
    (attempt : ExecutionAttempt Value) : option AttemptSettlementFence :=
  if negb (version step =? step_version fence)%Z
     || negb (a_version attempt =? attempt_version fence)%Z then
    let same_generation :=
      bool_decide (a_status attempt = AttemptRunning)
      && (attempt_version fence <? a_version attempt)%Z
      && (step_version fence <=? version step)%Z in
    if same_generation then Some (mkFence (version step) (a_version attempt)) else None
  else Some fence.

(** ** Ready steps *)

Section detail.
Context {Value : Type}.
Implicit Types (d : AgentExecutionDetail Value).

Definition step_is_active (s : ExecutionStep) : bool := bool_decide (superseded_in_revision s = None).
Definition edge_is_active (e : ExecutionStepDependency) : bool :=
  bool_decide (d_superseded_in_revision e = None).
Definition current_steps d : list ExecutionStep := filter step_is_active (steps d).
Definition current_edges d : list ExecutionStepDependency := filter edge_is_active (dependencies d).

(** [collect] into a [HashMap] keyed by the step identifier. *)
Definition active_map d : gmap string ExecutionStep :=
  foldl (λ m s, <[step_id s := s]> m) ∅ (current_steps d).

Definition has_status (st : ExecutionStepStatus) (b : option ExecutionStep) : bool :=
  match b with Some s => bool_decide (status s = st) | None => false end.
(** The active edges into a step. *)
Definition blocking_edges d (s : ExecutionStep) : list ExecutionStepDependency :=
  filter (λ e, blocked_step_id e = step_id s) (current_edges d).

Definition step_is_ready d (now : Z) (s : ExecutionStep) : bool :=
  bool_decide (status s = StepPending)
  && match dispatch_after s with None => true | Some ready_at => (ready_at <=? now)%Z end
  && forallb (λ e, has_status StepCompleted (active_map d !! blocker_step_id e))
       (blocking_edges d s).

Definition creation_order (left right : ExecutionStep) : comparison :=
  match (created_at left ?= created_at right)%Z with
  | Eq => String.compare (step_id left) (step_id right)
  | c => c
  end.
Definition created_before (left right : ExecutionStep) : Prop := creation_order left right ≠ Gt.
#[export] Instance created_before_dec a b : Decision (created_before a b) := _.

(** [values] is [active.values()], in the map's traversal order. *)
Definition ready_steps d (now : Z) (values : list ExecutionStep) : list ExecutionStep :=
  merge_sort created_before (filter (λ s, step_is_ready d now s) values).

(** The step [skip_one_blocked_step] skips. *)
Definition step_is_blocked d (s : ExecutionStep) : bool :=
  bool_decide (status s = StepPending)
  && existsb (λ e,
       let blocker := active_map d !! blocker_step_id e in
       has_status StepFailed blocker || has_status StepSkipped blocker
       || has_status StepCancelled blocker) (blocking_edges d s).
Definition skip_one_blocked_step d (values : list ExecutionStep) : option ExecutionStep :=
  find (step_is_blocked d) values.

(** ** Loop resets *)

Record RetryAgentExecutionStep := mkRetry { r_step_id : string; expected_step_version : Z }.
Record LoopRepeatResetParams := mkReset {
  body_step_id : string;
  expected_steps : list RetryAgentExecutionStep;
}.

(** [outgoing.get(id)], flattened. *)
Definition outgoing d (id : string) : list string :=
  blocked_step_id <$> filter (λ e, blocker_step_id e = id) (current_edges d).

(** The breadth-first loop of [build_loop_repeat_reset]. *)
Definition reset_closure d (body : string) : option (gset string) :=
  search (outgoing d) (λ fresh rest, rest ++ fresh) (S (length (dependencies d))) {[body]} [body].

(** The fallible [collect]: the first inactive step is the error. *)
Fixpoint expected_of (active : gmap string ExecutionStep) (ids : list string) :
    result (list RetryAgentExecutionStep) AppError :=
  match ids with
  | [] => Ok []
  | id :: ids =>
      match active !! id with
      | None => Err (Internal ("Loop reset closure references inactive step " +:+ id))
      | Some s => let? rs := expected_of active ids in Ok (mkRetry (step_id s) (version s) :: rs)
      end
  end.
Definition retry_before (a b : RetryAgentExecutionStep) : Prop :=
  string_le (r_step_id a) (r_step_id b).
#[export] Instance retry_before_dec a b : Decision (retry_before a b) := _.

(** [None] only stands for fuel. *)
Definition build_loop_repeat_reset d (controller body : string) :
    option (result LoopRepeatResetParams AppError) :=
  let active := active_map d in
  match active !! body with
  | None => Some (Err (Internal ("Loop controller " +:+ controller +:+ " references missing body " +:+ body)))
  | Some _ =>
      if bool_decide (controller ∈ outgoing d body) then
        match reset_closure d body with
        | None => None
        | Some closure =>
            Some (let? rs := expected_of active (elements (closure ∖ {[controller]})) in
                  Ok (mkReset body (merge_sort retry_before rs)))
        end
      else Some (Err (Internal ("Loop body " +:+ body +:+ " is not a dependency of controller "
                                +:+ controller)))
  end.

(** ** Dispatch within the limits *)

(** One reservation: the running total and the total per participant. *)
Definition reserve (p : string) (acc : nat * gmap string Z) : nat * gmap string Z :=
  (S acc.1, <[p := (default 0 (acc.2 !! p) + 1)%Z]> acc.2).
Definition assigned_to d (id : string) : option string :=
  active_map d !! id ≫= assigned_participant_id.
Definition attempt_is_active (a : ExecutionAttempt Value) : bool :=
  match a_status a with AttemptQueued | AttemptRunning => true | _ => false end.

(** The loop over the active attempts. *)
Fixpoint count_attempts d (ids : gset string) (acc : nat * gmap string Z)
    (l : list (ExecutionAttempt Value)) : gset string * (nat * gmap string Z) :=
  match l with
  | [] => (ids, acc)
  | a :: l =>
      if attempt_is_active a then
        match assigned_to d (a_step_id a) with
        | None => count_attempts d ids acc l
        | Some p =>
            if decide (a_step_id a ∈ ids) then count_attempts d ids acc l
            else count_attempts d ({[a_step_id a]} ∪ ids) (reserve p acc) l
        end
      else count_attempts d ids acc l
  end.
(** The loop over the process-local reservations. *)
Fixpoint count_in_flight d (ids : gset string) (acc : nat * gmap string Z) (l : list string) :
    nat * gmap string Z :=
  match l with
  | [] => acc
  | id :: l =>
      if decide (id ∈ ids) then count_in_flight d ids acc l
      else match assigned_to d id with
           | None => count_in_flight d ids acc l
           | Some p => count_in_flight d ids (reserve p acc) l
           end
  end.
Definition reservations d (in_flight : gset string) : nat * gmap string Z :=
  let r := count_attempts d ∅ (0, ∅) (attempts d) in
  count_in_flight d r.1 r.2 (elements in_flight).

Definition participant_map d : gmap string ExecutionParticipant :=
  foldl (λ m p, <[participant_id p := p]> m) ∅
    (filter (λ p, retired_in_revision p = None) (participants d)).
Definition concurrency_limit (p : ExecutionParticipant) : Z :=
  default i64_max (constraints p ≫= max_concurrency).

(** The participant a step would take a slot of, when the loop considers it. *)
Definition candidate_slot d (in_flight : gset string) (s : ExecutionStep) :
    option (string * ExecutionParticipant) :=
  if bool_decide (kind s = KindAgent) && negb (bool_decide (step_id s ∈ in_flight)) then
    match assigned_participant_id s with
    | None => None
    | Some pid => (λ p, (pid, p)) <$> participant_map d !! pid
    end
  else None.
(** The loop over the ready steps; [available] slots are left (at least one). *)
Fixpoint take_slots d (in_flight : gset string) (available : Z) (counts : gmap string Z)
    (ready : list ExecutionStep) : list ExecutionStep :=
  match ready with
  | [] => []
  | s :: ready =>
      match candidate_slot d in_flight s with
      | None => take_slots d in_flight available counts ready
      | Some (pid, p) =>
          let count := default 0%Z (counts !! pid) in
          if (concurrency_limit p <=? count)%Z
          then take_slots d in_flight available counts ready
          else if (available =? 1)%Z then [s]
          else s :: take_slots d in_flight (available - 1) (<[pid := (count + 1)%Z]> counts) ready
      end
  end.
(** [max_parallel as usize]: two's complement at 64 bits. *)
Definition global_limit d : Z := max_parallel (execution d) mod 18446744073709551616.
Definition select_agent_steps d (ready : list ExecutionStep) (in_flight : gset string) :
    list ExecutionStep :=
  let r := reservations d in_flight in
  let available := Z.max 0 (global_limit d - Z.of_nat r.1) in
  if (available =? 0)%Z then [] else take_slots d in_flight available r.2 ready.

(** [None] when no deferred step is due after [now]. *)
Definition min_list (l : list Z) : option Z :=
  match l with [] => None | x :: l => Some (foldl Z.min x l) end.
Definition next_retry_at d (now : Z) : option Z :=
  min_list (filter (λ t, (now < t)%Z)
    (omap dispatch_after (filter (λ s, status s = StepPending) (current_steps d)))).

(** ** Ending an execution *)

Definition finalize_status d : option AgentExecutionStatus :=
  let active := current_steps d in
  if bool_decide (active = []) || existsb (λ s, negb (step_is_terminal (status s))) active
  then None
  else if existsb (λ s, bool_decide (status s = StepFailed)
                        && bool_decide (failure_policy s = FailExecution)) active
  then Some ExecutionFailed
  else if existsb (λ s, match status s with
                        | StepFailed | StepSkipped | StepCancelled => true | _ => false end) active
  then Some ExecutionCompletedWithFailures
  else Some ExecutionCompleted.

(** The token total; the sum of an [i64] iterator may overflow, which the
    [Z] of the model does not. *)
Definition total_tokens_of d : option Z :=
  match omap tokens (attempts d) with [] => None | ts => Some (foldr Z.add 0%Z ts) end.

(** ** Summaries *)

(** [output.chars().take(n)]: a character starts at every byte that is not a
    UTF-8 continuation byte. *)
Fixpoint take_chars (n : nat) (s : string) : string :=
  match s with
  | EmptyString => EmptyString
  | String c s' =>
      if ((128 <=? byte c) && (byte c <? 192))%N then String c (take_chars n s')
      else match n with 0 => EmptyString | S n => String c (take_chars n s') end
  end.
Definition aggregate_line d (s : ExecutionStep) : string :=
  let output :=
    default "-" (latest_attempt (step_id s) (attempts d) ≫= λ a,
      match output_summary a with Some out => Some out | None => a_error a end) in
  title s +:+ " | " +:+ as_str (status s) +:+ " | " +:+ take_chars 800 output.
Definition aggregate_summary d : string :=
  join "
" (aggregate_line d <$> current_steps d).

(** The closure of [dependency_ancestors_cover]; the top of the stack is the
    head of the list. *)
Definition blockers_of (edges : list (string * string)) (id : string) : list string :=
  (filter (λ e, e.2 = id) edges).*1.
Definition ancestors (edges : list (string * string)) (sink : string) : option (gset string) :=
  search (blockers_of edges) (λ fresh rest, rev fresh ++ rest) (S (length edges)) ∅ [sink].
Definition dependency_ancestors_cover (sink : string) (required : list string)
    (edges : list (string * string)) : bool :=
  match ancestors edges sink with
  | None => false
  | Some found => forallb (λ id, bool_decide (id ∈ found)) required
  end.

Definition nonblank_output d (s : ExecutionStep) : option string :=
  match latest_output (step_id s) (attempts d) with
  | None => None
  | Some out => let out := trim out in if bool_decide (out = "") then None else Some out
  end.
Definition is_business (s : ExecutionStep) : bool :=
  bool_decide (kind s = KindAgent) && negb (bool_decide (agent_mode s = Some ModeSynthesis)).
Definition active_edges d : list (string * string) :=
  (λ e, (blocker_step_id e, blocked_step_id e)) <$> current_edges d.
Definition owns_final_answer d (s : ExecutionStep) : bool :=
  bool_decide (status s = StepCompleted) && bool_decide (agent_mode s = Some ModeSynthesis)
  && dependency_ancestors_cover (step_id s)
       (step_id <$> filter is_business (current_steps d)) (active_edges d).
Definition terminal_summary d : string :=
  match find (owns_final_answer d) (rev (current_steps d)) ≫= nonblank_output d with
  | Some summary => summary
  | None =>
      match filter is_business (current_steps d) with
      | [s] => default (aggregate_summary d) (nonblank_output d s)
      | _ => aggregate_summary d
      end
  end.

Fixpoint dedup (l : list string) : list string :=
  match l with
  | x :: ((y :: _) as l') => if decide (x = y) then dedup l' else x :: dedup l'
  | _ => l
  end.
Definition upstream_line d (blocker : string) : string :=
  "- " +:+ default "unknown step" (title <$> find (λ s, bool_decide (step_id s = blocker)) (steps d))
  +:+ ": " +:+ default "(no output)" (latest_output blocker (attempts d)) +:+ "
".
Definition compose_brief d (s : ExecutionStep) : string :=
  let blockers := dedup (merge_sort string_le (blocker_step_id <$> blocking_edges d s)) in
  apply_agent_role_context
    ("You are an Agent participating in a shared execution.
GOAL: " +:+ goal (execution d) +:+ "
YOUR STEP: " +:+ title s +:+ "
"
     +:+ (if bool_decide (blockers = []) then "" else
          "
UPSTREAM RESULTS:
" +:+ join "" (upstream_line d <$> blockers))
     +:+ match latest_output (step_id s) (attempts d) with
         | None => ""
         | Some previous => "
YOUR PREVIOUS ITERATION:
" +:+ previous +:+ "
"
         end
     +:+ (if bool_decide (agent_mode s = Some ModeSynthesis) then "
Synthesize the upstream results into one coherent deliverable.
" else "")
     +:+ match preset_prompt s with
         | None => ""
         | Some prompt => "
STEP-SPECIFIC RULES:
" +:+ prompt +:+ "
"
         end)
    (role s).

(** The models of the active participants, without repetition. *)
Definition participant_model (p : ExecutionParticipant) : option ExecutionModelRef :=
  match p_provider_id p, p_model p with
  | Some provider, Some model => Some (mkModelRef provider model)
  | _, _ => None
  end.
Fixpoint first_occurrences (seen l : list ExecutionModelRef) : list ExecutionModelRef :=
  match l with
  | [] => []
  | m :: l => if decide (m ∈ seen) then first_occurrences seen l
              else m :: first_occurrences (m :: seen) l
  end.
Definition execution_model_pool (ps : list ExecutionParticipant) : list ExecutionModelRef :=
  first_occurrences [] (omap participant_model (filter (λ p, retired_in_revision p = None) ps)).

(** ** One iteration of the scheduling loop

    [execute_loop]'s loop body from the reload of the aggregate on, as the
    decision it takes.  [jobs] says whether spawned jobs are running, [traverse]
    is the traversal order of the active map, and the two clock readings are
    those of [ready_steps] and [next_retry_at]. *)
Inductive Decision :=
| Exit_
| AllocateWorkDir
| SkipStep (id : string)
| RunControl (s : ExecutionStep)
| Dispatch (selected : list ExecutionStep)
| Finalize (st : AgentExecutionStatus) (summary : string) (total : option Z)
| SleepFor (delay : Z)
| ReleaseForInput
| FailExecution_ (reason : string).
Definition decide_iteration d (jobs : bool) (in_flight : gset string)
    (traverse : list ExecutionStep) (now_ready now_retry now_sleep : Z) : Decision :=
  match ex_status (execution d) with
  | ExecutionRunning | ExecutionWaitingInput =>
      if bool_decide (work_dir (execution d) = None) then AllocateWorkDir else
      match skip_one_blocked_step d traverse with
      | Some s => SkipStep (step_id s)
      | None =>
          let ready := ready_steps d now_ready traverse in
          match find (λ s, negb (bool_decide (kind s = KindAgent))) ready with
          | Some control => RunControl control
          | None =>
              let selected := select_agent_steps d ready in_flight in
              if jobs || negb (bool_decide (selected = [])) then Dispatch selected else
              match finalize_status d with
              | Some st => Finalize st (terminal_summary d) (total_tokens_of d)
              | None =>
                  match next_retry_at d now_retry with
                  | Some wake_at => SleepFor (Z_clamp (wake_at - now_sleep) 1 1000)
                  | None =>
                      if existsb (λ a, bool_decide (a_status a = AttemptWaitingInput)) (attempts d)
                      then ReleaseForInput
                      else FailExecution_ "no schedulable active step"
                  end
              end
          end
      end
  | _ => Exit_
  end.
End detail.
