(* ===== verification/ExecDispatch.v ===== *)
(** Properties of the scheduler's step selection: determinism of the ready
    list, exactness of loop resets and of the synthesis coverage test, and the
    concurrency limits of a dispatch. *)
From S2P Require Import Prelude Graph ExecTypes ControlSteps ExecScheduler.

Section dispatch_lemmas.
Context {Value : Type}.
Implicit Types (d : AgentExecutionDetail Value).

(** ** The active map *)

Lemma foldl_insert_key {A} (key : A → string) (l : list A) (m : gmap string A) id x :
  (∀ i y, m !! i = Some y → key y = i) →
  foldl (λ m y, <[key y := y]> m) m l !! id = Some x → key x = id ∧ (x ∈ l ∨ m !! id = Some x).
Proof.
  revert m. induction l as [|y l IH]; intros m Hm Hx; simpl in *; [by eauto|].
  apply IH in Hx as [Hk [Hx|Hx]].
  - split; [done|left; by right].
  - split; [done|]. apply lookup_insert_Some in Hx as [[? ->]|[? ?]]; [left; left|by right].
  - intros i z [[<- <-]|[? ?]]%lookup_insert_Some; eauto.
Qed.
Lemma foldl_insert_dom {A} (key : A → string) (l : list A) (m : gmap string A) id :
  is_Some (foldl (λ m y, <[key y := y]> m) m l !! id) ↔ is_Some (m !! id) ∨ id ∈ key <$> l.
Proof.
  revert m. induction l as [|y l IH]; intros m; simpl; [set_solver|].
  rewrite IH, lookup_insert_is_Some', elem_of_cons. naive_solver.
Qed.

Lemma active_map_Some d id s :
  active_map d !! id = Some s → step_id s = id ∧ s ∈ current_steps d.
Proof.
  intros Hs. apply foldl_insert_key in Hs as [Hk [Hs|Hs]]; [done| |set_solver].
  by rewrite lookup_empty in Hs.
Qed.
Lemma active_map_is_Some d id :
  is_Some (active_map d !! id) ↔ ∃ s, s ∈ current_steps d ∧ step_id s = id.
Proof.
  unfold active_map. rewrite foldl_insert_dom, lookup_empty, list_elem_of_fmap.
  split; [intros [[? ?]|(s&->&?)]; [done|eauto]|intros (s&?&<-); right; eauto].
Qed.

(** ** Creation order *)

Lemma created_before_spec a b :
  created_before a b ↔
  (created_at a < created_at b)%Z ∨ created_at a = created_at b ∧ string_le (step_id a) (step_id b).
Proof.
  unfold created_before, creation_order, string_le. rewrite Is_true_true, string_leb_spec.
  destruct (Z.compare_spec (created_at a) (created_at b)); intuition (try done; try lia).
Qed.
#[export] Instance created_before_trans : Transitive created_before.
Proof.
  intros a b c. rewrite !created_before_spec. intros [?|[? H1]] [?|[? H2]]; try (left; lia).
  right. split; [lia|]. by transitivity (step_id b).
Qed.
#[export] Instance created_before_total : Total created_before.
Proof.
  intros a b. rewrite !created_before_spec.
  destruct (Z.lt_trichotomy (created_at a) (created_at b)) as [?|[?|?]]; [by auto| |by auto].
  destruct (total string_le (step_id a) (step_id b)); auto.
Qed.

Lemma elem_of_map_values {A} (m : gmap string A) x : x ∈ (map_to_list m).*2 ↔ ∃ i, m !! i = Some x.
Proof.
  rewrite list_elem_of_fmap. split.
  - intros ([i y]&->&Hi). exists i. by apply elem_of_map_to_list.
  - intros [i Hi]. exists (i, x). split; [done|]. by apply elem_of_map_to_list.
Qed.

Lemma elem_of_traversal d values s :
  values ≡ₚ (map_to_list (active_map d)).*2 → s ∈ values ↔ active_map d !! step_id s = Some s.
Proof.
  intros ->. rewrite elem_of_map_values. split; [|eauto].
  intros [i Hi]. pose proof (active_map_Some _ _ _ Hi) as [-> _]. done.
Qed.

(** ** Ready steps *)

Lemma has_status_true st b : has_status st b = true ↔ ∃ s, b = Some s ∧ status s = st.
Proof. destruct b; simpl; [rewrite bool_decide_eq_true|]; naive_solver. Qed.

Lemma elem_of_blocking_edges d s e :
  e ∈ blocking_edges d s ↔ e ∈ current_edges d ∧ blocked_step_id e = step_id s.
Proof. unfold blocking_edges. rewrite list_elem_of_filter. naive_solver. Qed.

(** What [step_is_ready] decides. *)
Definition ready_spec d (now : Z) (s : ExecutionStep) : Prop :=
  status s = StepPending ∧ (∀ t, dispatch_after s = Some t → (t <= now)%Z) ∧
  ∀ e, e ∈ current_edges d → blocked_step_id e = step_id s →
    ∃ b, active_map d !! blocker_step_id e = Some b ∧ status b = StepCompleted.
Lemma step_is_ready_spec d now s : step_is_ready d now s = true ↔ ready_spec d now s.
Proof.
  unfold step_is_ready, ready_spec. rewrite !andb_true_iff, bool_decide_eq_true, forallb_forall.
  assert (match dispatch_after s with None => true | Some t => (t <=? now)%Z end = true ↔
          ∀ t, dispatch_after s = Some t → (t <= now)%Z) as ->.
  { destruct (dispatch_after s); [rewrite Z.leb_le|]; naive_solver. }
  setoid_rewrite <-list_elem_of_In. setoid_rewrite elem_of_blocking_edges.
  setoid_rewrite has_status_true. naive_solver.
Qed.

Lemma elem_of_ready d now values s :
  s ∈ ready_steps d now values ↔ s ∈ values ∧ ready_spec d now s.
Proof.
  unfold ready_steps. rewrite (merge_sort_Permutation created_before), list_elem_of_filter.
  rewrite <-step_is_ready_spec, Is_true_true. naive_solver.
Qed.

Lemma step_ids_of_map d : step_id <$> (map_to_list (active_map d)).*2 = (map_to_list (active_map d)).*1.
Proof.
  rewrite <-list_fmap_compose. apply list_fmap_ext. intros j [i s] Hj. simpl.
  apply list_elem_of_lookup_2, elem_of_map_to_list in Hj. by destruct (active_map_Some _ _ _ Hj).
Qed.
Lemma NoDup_traversal d values :
  values ≡ₚ (map_to_list (active_map d)).*2 → NoDup (step_id <$> values).
Proof. intros ->. rewrite step_ids_of_map. apply NoDup_fst_map_to_list. Qed.

Lemma ready_steps_perm d now values : ready_steps d now values ≡ₚ filter (λ s, step_is_ready d now s) values.
Proof. apply merge_sort_Permutation. Qed.
Lemma NoDup_ready d now values :
  values ≡ₚ (map_to_list (active_map d)).*2 → NoDup (step_id <$> ready_steps d now values).
Proof.
  intros Hv. rewrite ready_steps_perm.
  eapply sublist_NoDup; [by eapply NoDup_traversal|].
  apply fmap_sublist. apply sublist_filter.
Qed.

(** ** Loop resets *)

(** An active dependency edge. *)
Definition active_edge d (u v : string) : Prop :=
  ∃ e, e ∈ current_edges d ∧ blocker_step_id e = u ∧ blocked_step_id e = v.

Lemma elem_of_outgoing d u v : v ∈ outgoing d u ↔ active_edge d u v.
Proof.
  unfold outgoing, active_edge. rewrite list_elem_of_fmap. split.
  - intros (e&->&[? ?]%list_elem_of_filter). by exists e.
  - intros (e&?&?&<-). exists e. by rewrite list_elem_of_filter.
Qed.

Lemma reset_closure_spec d body :
  ∃ r, reset_closure d body = Some r ∧ ∀ x, x ∈ r ↔ rtc (active_edge d) body x.
Proof.
  destruct (search_spec (outgoing d) (λ fresh rest, rest ++ fresh)
    (list_to_set (blocked_step_id <$> current_edges d)) (S (length (dependencies d))) {[body]} [body])
    as (r&Hr&Hx).
  - intros fresh rest. apply Permutation_app_comm.
  - unfold leads_to. intros u v (e&?&?&<-)%elem_of_outgoing. set_solver.
  - set_solver.
  - simpl. rewrite Nat.add_1_r. apply le_n_S.
    etransitivity; [apply subseteq_size, subseteq_difference_l; reflexivity|].
    etransitivity; [apply size_list_to_set_le|]. rewrite length_fmap. apply length_filter.
  - exists r. split; [done|]. intros x. rewrite Hx. setoid_rewrite list_elem_of_singleton.
    rewrite elem_of_singleton. split.
    + intros [->|(?&->&Ht)]; [done|]. apply tc_rtc. eapply tc_mono; [|exact Ht].
      intros u v. apply elem_of_outgoing.
    + intros Hr'. apply rtc_tc in Hr' as [->|Ht]; [by left|right]. exists body. split; [done|].
      eapply tc_mono; [|exact Ht]. intros u v ?. by apply elem_of_outgoing.
Qed.

Lemma expected_of_spec d ids rs :
  expected_of (active_map d) ids = Ok rs →
  r_step_id <$> rs = ids ∧
  ∀ x, x ∈ rs ↔ ∃ s, active_map d !! r_step_id x = Some s ∧ expected_step_version x = version s ∧
                     r_step_id x ∈ ids.
Proof.
  revert rs. induction ids as [|id ids IH]; intros rs; simpl.
  { intros [= <-]. split; [done|]. set_solver. }
  destruct (active_map d !! id) as [s|] eqn:Hs; [|done].
  intros (rs'&Hrs&[= <-])%result_bind_ok. destruct (IH _ Hrs) as [<- Hx].
  pose proof (active_map_Some _ _ _ Hs) as [<- _]. split; [done|].
  intros [x v]. rewrite elem_of_cons, Hx. setoid_rewrite elem_of_cons. simpl.
  split; [intros [[= -> ->]|(s'&?&?&?)]; eauto 10|].
  intros (s'&Hs'&->&[->|?]); [left|right; eauto]. congruence.
Qed.
Lemma expected_of_err d ids :
  (∃ rs, expected_of (active_map d) ids = Ok rs) ↔ ∀ id, id ∈ ids → is_Some (active_map d !! id).
Proof.
  induction ids as [|id ids IH]; simpl; [split; [set_solver|eauto]|].
  setoid_rewrite elem_of_cons. destruct (active_map d !! id) as [s|] eqn:Hs.
  - split.
    + intros (rs&(rs'&Hrs&_)%result_bind_ok) i [->|Hi]; [by rewrite Hs|]. apply IH; eauto.
    + intros H. destruct (proj2 IH) as [rs Hrs]; [by auto|]. exists (mkRetry (step_id s) (version s) :: rs).
      by rewrite Hrs.
  - split; [intros [? [=]]|]. intros H. destruct (H id) as [? ?]; [by left|]. congruence.
Qed.

Lemma elem_of_remove_controller d body controller r id :
  (∀ x, x ∈ r ↔ rtc (active_edge d) body x) →
  id ∈ elements (r ∖ {[controller]} : gset string) ↔ id ≠ controller ∧ rtc (active_edge d) body id.
Proof. intros Hr. rewrite elem_of_elements, elem_of_difference, Hr, elem_of_singleton. naive_solver. Qed.

(** ** Reservations *)

(** [acc] counts the steps [ids], in total and per assigned participant. *)
Definition counted d (ids : gset string) (acc : nat * gmap string Z) : Prop :=
  acc.1 = size ids ∧
  ∀ p, default 0%Z (acc.2 !! p) = Z.of_nat (size (filter (λ id, assigned_to d id = Some p) ids)).

Lemma counted_empty d : counted d ∅ (0, ∅).
Proof.
  split; [done|]. intros p.
  assert (filter (λ id, assigned_to d id = Some p) (∅ : gset string) = ∅) as -> by set_solver.
  by rewrite size_empty.
Qed.
Lemma counted_reserve d ids acc id p :
  counted d ids acc → id ∉ ids → assigned_to d id = Some p →
  counted d ({[id]} ∪ ids) (reserve p acc).
Proof.
  intros [Hn Hp] Hid Ha. split; simpl.
  { rewrite size_union, size_singleton by set_solver. lia. }
  intros q. destruct (decide (p = q)) as [->|Hq].
  - assert (filter (λ i, assigned_to d i = Some q) ({[id]} ∪ ids)
            = {[id]} ∪ filter (λ i, assigned_to d i = Some q) ids) as -> by set_solver.
    rewrite lookup_insert_eq, size_union, size_singleton by set_solver.
    simpl (default _ (Some _)). rewrite Hp. lia.
  - assert (filter (λ i, assigned_to d i = Some q) ({[id]} ∪ ids)
            = filter (λ i, assigned_to d i = Some q) ids) as -> by set_solver.
    by rewrite lookup_insert_ne.
Qed.

(** The steps with an active attempt and a participant. *)
Definition attempt_holds d (l : list (ExecutionAttempt Value)) (id : string) : Prop :=
  is_Some (assigned_to d id) ∧ ∃ a, a ∈ l ∧ attempt_is_active a = true ∧ a_step_id a = id.

Lemma count_attempts_spec d ids acc l :
  counted d ids acc →
  let r := count_attempts d ids acc l in
  counted d r.1 r.2 ∧ ∀ id, id ∈ r.1 ↔ id ∈ ids ∨ attempt_holds d l id.
Proof.
  revert ids acc. induction l as [|a l IH]; intros ids acc Hc; cbn [count_attempts].
  { split; [done|]. unfold attempt_holds. set_solver. }
  assert (∀ id, attempt_holds d (a :: l) id ↔
    attempt_holds d l id ∨ is_Some (assigned_to d id) ∧ attempt_is_active a = true ∧ a_step_id a = id) as Hh.
  { intros id. unfold attempt_holds. setoid_rewrite elem_of_cons. naive_solver. }
  setoid_rewrite Hh.
  destruct (attempt_is_active a) eqn:Ha.
  2: { destruct (IH ids acc Hc) as [? Hi]. split; [done|]. intros id. rewrite Hi. naive_solver. }
  destruct (assigned_to d (a_step_id a)) as [p|] eqn:Hp.
  2: { destruct (IH ids acc Hc) as [? Hi]. split; [done|]. intros id. rewrite Hi.
       split; [naive_solver|]. intros [?|[?|([? ?]&_&<-)]]; [by auto|by auto|congruence]. }
  destruct (decide (a_step_id a ∈ ids)) as [Hin|Hin].
  - destruct (IH ids acc Hc) as [? Hi]. split; [done|]. intros id. rewrite Hi. naive_solver.
  - destruct (IH _ _ (counted_reserve _ _ _ _ _ Hc Hin Hp)) as [? Hi]. split; [done|].
    intros id. rewrite Hi, elem_of_union, elem_of_singleton. naive_solver.
Qed.

Lemma count_in_flight_spec d ids C acc l :
  counted d C acc → ids ⊆ C → (∀ id, id ∈ l → id ∈ C → id ∈ ids) → NoDup l →
  ∃ C', counted d C' (count_in_flight d ids acc l) ∧
    ∀ id, id ∈ C' ↔ id ∈ C ∨ id ∈ l ∧ is_Some (assigned_to d id).
Proof.
  revert C acc. induction l as [|i l IH]; intros C acc Hc Hsub Hl Hnd; cbn [count_in_flight].
  { exists C. split; [done|]. set_solver. }
  apply NoDup_cons in Hnd as [Hi Hnd].
  assert (∀ id, id ∈ l → id ∈ C → id ∈ ids) as Hl' by (intros; apply Hl; [by right|done]).
  destruct (decide (i ∈ ids)) as [Hin|Hin].
  { destruct (IH C acc) as (C'&?&HC); [done..|]. exists C'. split; [done|].
    intros id. rewrite HC, elem_of_cons. set_solver. }
  destruct (assigned_to d i) as [p|] eqn:Hp.
  - destruct (IH ({[i]} ∪ C) (reserve p acc)) as (C'&?&HC).
    + apply counted_reserve; [done| |done]. intros HiC. apply Hin, Hl; [left|done].
    + set_solver.
    + intros id Hid [->%elem_of_singleton|?]%elem_of_union; [done|auto].
    + done.
    + exists C'. split; [done|]. intros id. rewrite HC, elem_of_cons, elem_of_union, elem_of_singleton.
      naive_solver.
  - destruct (IH C acc) as (C'&?&HC); [done..|]. exists C'. split; [done|].
    intros id. rewrite HC, elem_of_cons. split; [naive_solver|].
    intros [?|[[->|?] Hs]]; [by left| |by right]. rewrite Hp in Hs. by destruct Hs.
Qed.

(** The steps that hold a slot: an active attempt or a local reservation. *)
Definition holds_slot d (in_flight : gset string) (id : string) : Prop :=
  is_Some (assigned_to d id) ∧
  (id ∈ in_flight ∨ ∃ a, a ∈ attempts d ∧ attempt_is_active a = true ∧ a_step_id a = id).

Lemma reservations_spec d in_flight :
  ∃ ids, counted d ids (reservations d in_flight) ∧ ∀ id, id ∈ ids ↔ holds_slot d in_flight id.
Proof.
  unfold reservations. destruct (count_attempts_spec d ∅ (0, ∅) (attempts d) (counted_empty d)) as [Hc Hi].
  set (r := count_attempts _ _ _ _) in *.
  destruct (count_in_flight_spec d r.1 r.1 r.2 (elements in_flight) Hc) as (C&?&HC);
    [done|done|apply NoDup_elements|].
  exists C. split; [done|]. intros id. rewrite HC, Hi, elem_of_elements.
  unfold attempt_holds, holds_slot. set_solver.
Qed.

(** ** Slots *)

Definition assigned_count (pid : string) (l : list ExecutionStep) : Z :=
  Z.of_nat (length (filter (λ s, assigned_participant_id s = Some pid) l)).
Lemma assigned_count_cons pid s l :
  assigned_count pid (s :: l)
  = ((if decide (assigned_participant_id s = Some pid) then 1 else 0) + assigned_count pid l)%Z.
Proof. unfold assigned_count. rewrite filter_cons. case_decide; simpl; lia. Qed.
Lemma assigned_count_nonneg pid l : (0 <= assigned_count pid l)%Z.
Proof. unfold assigned_count. lia. Qed.

Lemma candidate_slot_Some d in_flight s pid p :
  candidate_slot d in_flight s = Some (pid, p) ↔
  kind s = KindAgent ∧ (step_id s ∉ in_flight) ∧ assigned_participant_id s = Some pid ∧
  participant_map d !! pid = Some p.
Proof.
  unfold candidate_slot. case_bool_decide; [|naive_solver]. case_bool_decide; [naive_solver|]. simpl.
  destruct (assigned_participant_id s) as [q|]; [|naive_solver].
  rewrite fmap_Some. naive_solver.
Qed.

Definition limit_ok d (counts : gmap string Z) (sel : list ExecutionStep) : Prop :=
  ∀ pid p, participant_map d !! pid = Some p → (0 < assigned_count pid sel)%Z →
    (default 0 (counts !! pid) + assigned_count pid sel <= concurrency_limit p)%Z.
Definition exhausted d in_flight (counts : gmap string Z) (ready sel : list ExecutionStep) : Prop :=
  ∀ s pid p, s ∈ ready → candidate_slot d in_flight s = Some (pid, p) →
    s ∈ sel ∨ (concurrency_limit p <= default 0 (counts !! pid) + assigned_count pid sel)%Z.

Lemma limit_ok_cons d in_flight counts s pid p sel :
  candidate_slot d in_flight s = Some (pid, p) →
  (default 0 (counts !! pid) < concurrency_limit p)%Z →
  limit_ok d (<[pid := (default 0 (counts !! pid) + 1)%Z]> counts) sel → limit_ok d counts (s :: sel).
Proof.
  intros (_&_&Ha&Hp)%candidate_slot_Some Hlt Hok q p' Hq. rewrite assigned_count_cons, Ha.
  pose proof (assigned_count_nonneg q sel). specialize (Hok q p' Hq). case_decide as Heq.
  - injection Heq as <-. assert (p' = p) as -> by congruence.
    rewrite lookup_insert_eq in Hok. simpl in Hok.
    destruct (decide (assigned_count pid sel = 0)%Z); intros; [lia|]. specialize (Hok ltac:(lia)). lia.
  - rewrite lookup_insert_ne in Hok by congruence. intros. specialize (Hok ltac:(lia)). lia.
Qed.

Lemma take_slots_spec d in_flight available counts ready :
  (1 <= available)%Z →
  let sel := take_slots d in_flight available counts ready in
  sublist sel ready ∧ (Z.of_nat (length sel) <= available)%Z ∧
  (∀ s, s ∈ sel → ∃ pid p, candidate_slot d in_flight s = Some (pid, p)) ∧
  limit_ok d counts sel ∧
  ((Z.of_nat (length sel) < available)%Z → exhausted d in_flight counts ready sel).
Proof.
  revert available counts. induction ready as [|s ready IH]; intros available counts Hav; cbn [take_slots].
  { split_and!; [done|simpl; lia|set_solver|unfold limit_ok, assigned_count; simpl; lia|].
    intros _ ??? Hs. by apply not_elem_of_nil in Hs. }
  destruct (candidate_slot d in_flight s) as [[pid p]|] eqn:Hs.
  2: { destruct (IH available counts Hav) as (H1&H2&H3&H4&H5). split_and!; [by apply sublist_cons|done..|].
       intros Hlt s' q p' [->|Hin]%elem_of_cons Hs'; [congruence|by eapply H5]. }
  destruct (concurrency_limit p <=? default 0 (counts !! pid))%Z eqn:Hfull.
  { destruct (IH available counts Hav) as (H1&H2&H3&H4&H5). split_and!; [by apply sublist_cons|done..|].
    intros Hlt s' q p' [->|Hin]%elem_of_cons Hs'; [|by eapply H5]. right.
    rewrite Hs in Hs'. injection Hs' as <- <-. pose proof (assigned_count_nonneg pid
      (take_slots d in_flight available counts ready)). lia. }
  apply Z.leb_gt in Hfull. destruct (available =? 1)%Z eqn:Hone.
  { apply Z.eqb_eq in Hone as ->. split_and!; [apply sublist_skip, sublist_nil_l|done| | |simpl; lia].
    - intros s' ->%list_elem_of_singleton. eauto.
    - eapply limit_ok_cons; [done|done|]. unfold limit_ok, assigned_count. simpl. lia. }
  apply Z.eqb_neq in Hone.
  destruct (IH (available - 1)%Z (<[pid := (default 0 (counts !! pid) + 1)%Z]> counts)) as (H1&H2&H3&H4&H5);
    [lia|]. split_and!; [by apply sublist_skip|simpl; lia| |by eapply limit_ok_cons|].
  - intros s' [->|?]%elem_of_cons; eauto.
  - simpl. intros Hlt s' q p' Hin Hs'. rewrite assigned_count_cons.
    apply elem_of_cons in Hin as [->|Hin]; [left; left|].
    destruct (H5 ltac:(lia) s' q p' Hin Hs') as [?|Hle]; [left; by right|right].
    apply candidate_slot_Some in Hs as (_&_&Ha&_). rewrite Ha.
    destruct (decide (pid = q)) as [->|?].
    + rewrite lookup_insert_eq in Hle. rewrite decide_True by done. simpl in Hle. lia.
    + rewrite lookup_insert_ne in Hle by done. rewrite decide_False by congruence. lia.
Qed.

End dispatch_lemmas.

(** ** Properties *)

(** The ready list is exact and deterministic: it holds, once each and in
    creation order, exactly the active pending steps that are due and whose
    active dependencies are all on completed active steps; the traversal order
    of the hash map never decides which step comes first. *)
Theorem exec_ready_steps_exact {Value} (d : AgentExecutionDetail Value) now values :
  values ≡ₚ (map_to_list (active_map d)).*2 →
  (∀ s, s ∈ ready_steps d now values ↔ active_map d !! step_id s = Some s ∧ ready_spec d now s) ∧
  NoDup (step_id <$> ready_steps d now values) ∧
  StronglySorted created_before (ready_steps d now values) ∧
  ∀ values', values' ≡ₚ values → ready_steps d now values' = ready_steps d now values.
Proof.
  intros Hv. split_and!.
  - intros s. by rewrite elem_of_ready, (elem_of_traversal _ _ _ Hv).
  - by apply NoDup_ready.
  - apply StronglySorted_merge_sort; apply _.
  - intros values' Hv'. eapply (StronglySorted_unique_strong created_before).
    + intros a b [Ha _]%elem_of_ready [Hb _]%elem_of_ready Hab Hba. rewrite Hv' in Ha.
      apply (elem_of_traversal _ _ _ Hv) in Ha, Hb. rewrite created_before_spec in Hab, Hba.
      assert (step_id a = step_id b) as Heq; [|congruence].
      destruct Hab as [?|[? ?]], Hba as [?|[? ?]]; try lia. by apply (anti_symm string_le).
    + apply StronglySorted_merge_sort; apply _.
    + apply StronglySorted_merge_sort; apply _.
    + rewrite !ready_steps_perm. by rewrite Hv'.
Qed.

(** A loop reset covers exactly the body's downstream closure: it is
    computed for every input, and it succeeds if and only if the body is active,
    the controller depends on it, and every step the body leads to through active
    dependencies, the controller aside, is active; then it lists each of those
    steps once, with its current version, in identifier order. *)
Theorem exec_loop_reset_exact {Value} (d : AgentExecutionDetail Value) controller body :
  ∃ res, build_loop_repeat_reset d controller body = Some res ∧
  ((∃ p, res = Ok p) ↔
     is_Some (active_map d !! body) ∧ active_edge d body controller ∧
     ∀ id, id ≠ controller → rtc (active_edge d) body id → is_Some (active_map d !! id)) ∧
  ∀ p, res = Ok p →
    body_step_id p = body ∧ NoDup (r_step_id <$> expected_steps p) ∧
    StronglySorted retry_before (expected_steps p) ∧
    ∀ x, x ∈ expected_steps p ↔
      r_step_id x ≠ controller ∧ rtc (active_edge d) body (r_step_id x) ∧
      ∃ s, active_map d !! r_step_id x = Some s ∧ expected_step_version x = version s.
Proof.
  unfold build_loop_repeat_reset. destruct (active_map d !! body) as [b|] eqn:Hb.
  2: { eexists. split; [done|]. split; [|done]. split; [intros [? ?]; done|intros [[? ?] _]; done]. }
  case_bool_decide as Ho; rewrite elem_of_outgoing in Ho.
  2: { eexists. split; [done|]. split; [|done]. split; [intros [? ?]; done|intros (_&?&_); done]. }
  destruct (reset_closure_spec d body) as (r&->&Hr). eexists. split; [done|].
  pose proof (elem_of_remove_controller d body controller r) as Hel.
  set (ids := elements (r ∖ {[controller]})) in *. split.
  - transitivity (∃ rs, expected_of (active_map d) ids = Ok rs).
    + split; [intros (p&(rs&?&_)%result_bind_ok); eauto|intros [rs ->]; by eexists].
    + rewrite expected_of_err. setoid_rewrite Hel; [|done..]. naive_solver.
  - intros p (rs&Hrs&[= <-])%result_bind_ok. simpl. destruct (expected_of_spec _ _ _ Hrs) as [Hids Hx].
    pose proof (merge_sort_Permutation retry_before rs) as Hp. split_and!; [done| | |].
    + rewrite Hp, Hids. apply NoDup_elements.
    + apply StronglySorted_merge_sort.
      * intros x y z. unfold retry_before. apply string_le_trans.
      * intros x y. apply string_le_total.
    + intros x. rewrite Hp, Hx. setoid_rewrite Hel; [|done]. naive_solver.
Qed.

(** C38. Dispatch respects every limit and wastes no slot: a slot is held by
    each assigned step with a queued or running attempt or a local reservation;
    the selected steps are ready Agent steps, in order, without a reservation,
    on active participants; with the slots already held they stay within
    [max_parallel] and within each chosen participant's [max_concurrency]; and
    when slots remain free, every ready step left out belongs to a participant
    that is at its limit. *)
Theorem exec_dispatch_limits {Value} (d : AgentExecutionDetail Value) ready in_flight :
  (0 <= max_parallel (execution d) <= i64_max)%Z →
  ∃ held : gset string, (∀ id, id ∈ held ↔ holds_slot d in_flight id) ∧
  let held_by pid := Z.of_nat (size (filter (λ id, assigned_to d id = Some pid) held)) in
  let sel := select_agent_steps d ready in_flight in
  sublist sel ready ∧
  (∀ s, s ∈ sel → kind s = KindAgent ∧ (step_id s ∉ in_flight) ∧
     ∃ pid, assigned_participant_id s = Some pid ∧ is_Some (participant_map d !! pid)) ∧
  (sel ≠ [] → (Z.of_nat (size held + length sel) <= max_parallel (execution d))%Z) ∧
  (∀ pid p, participant_map d !! pid = Some p → (0 < assigned_count pid sel)%Z →
     (held_by pid + assigned_count pid sel <= concurrency_limit p)%Z) ∧
  ((Z.of_nat (size held + length sel) < max_parallel (execution d))%Z →
   ∀ s pid p, s ∈ ready → candidate_slot d in_flight s = Some (pid, p) →
     s ∈ sel ∨ (concurrency_limit p <= held_by pid + assigned_count pid sel)%Z).
Proof.
  intros Hmax. destruct (reservations_spec d in_flight) as (held&[Hn Hp]&Hheld).
  exists held. split; [done|]. simpl. unfold select_agent_steps. rewrite Hn.
  assert (global_limit d = max_parallel (execution d)) as ->.
  { unfold global_limit. apply Z.mod_small. unfold i64_max in Hmax. lia. }
  setoid_rewrite <-Hp. case_bool_decide as Hz || destruct (Z.max 0 _ =? 0)%Z eqn:Hz.
  - apply Z.eqb_eq in Hz. split_and!; [apply sublist_nil_l|set_solver|done| |simpl; lia].
    unfold assigned_count. simpl. lia.
  - apply Z.eqb_neq in Hz.
    destruct (take_slots_spec d in_flight (Z.max 0 (max_parallel (execution d) - Z.of_nat (size held)))
      (reservations d in_flight).2 ready) as (H1&H2&H3&H4&H5); [lia|].
    split_and!; [done| | |exact H4|].
    + intros s Hs. destruct (H3 s Hs) as (pid&p&(?&?&?&?)%candidate_slot_Some). eauto 10.
    + intros _. lia.
    + intros Hlt. apply H5. lia.
Qed.

(** ** Witnesses *)

Definition two_steps : AgentExecutionDetail unit :=
  mkDetail
    (mkExecution "exec" "ship" None None DelegationAutomatic GateAutomatic AdaptationFixed
       DecisionAutomatic 1 ExecutionRunning None None 1 1 1 0 0)
    [mkParticipant "p1" "exec" "agent" None None None None None None None None None [] [] 0 1 None 0]
    ((λ id, mkStep id "exec" id "work" None KindAgent None StepPending ToolsFull None None None
       FailExecution (Some "p1") None None None false None None None None 1 None 1 0 0) <$> ["b"; "a"])
    [] [].
Definition two_values : list ExecutionStep := (map_to_list (active_map two_steps)).*2.

Lemma exec_ready_steps_exact_witness :
  ready_steps two_steps 0 (reverse two_values) = ready_steps two_steps 0 two_values ∧
  step_id <$> ready_steps two_steps 0 two_values = ["a"; "b"].
Proof.
  split; [|vm_compute; reflexivity].
  apply (exec_ready_steps_exact two_steps 0 two_values); [reflexivity|]. apply reverse_Permutation.
Defined.

Lemma exec_dispatch_limits_witness :
  step_id <$> select_agent_steps two_steps (ready_steps two_steps 0 two_values) ∅ = ["a"] ∧
  sublist (select_agent_steps two_steps (ready_steps two_steps 0 two_values) ∅)
    (ready_steps two_steps 0 two_values).
Proof.
  split; [vm_compute; reflexivity|].
  destruct (exec_dispatch_limits two_steps (ready_steps two_steps 0 two_values) ∅) as (held&_&Hsub&_).
  - simpl. unfold i64_max. lia.
  - exact Hsub.
Defined.
