(* ===== verification/ExecProgress.v ===== *)
(** Progress and termination of the execution scheduler: an iteration never
    gives up on schedulable work (one clock race aside), executions end with
    the right status and answer, and settlements obey the status machines. *)
From S2P Require Import Prelude Graph ExecTypes ControlSteps ExecScheduler ExecDispatch.

Section progress.
Context {Value : Type}.
Implicit Types (d : AgentExecutionDetail Value).

(** An execution between jobs: active steps are pending or settled and have
    unique identifiers, active edges join active steps without a cycle, Agent
    steps are assigned to active participants that may run something, and no
    attempt or reservation is outstanding. *)
Record quiescent d (in_flight : gset string) : Prop := {
  q_status : ex_status (execution d) = ExecutionRunning ∨ ex_status (execution d) = ExecutionWaitingInput;
  q_work_dir : work_dir (execution d) ≠ None;
  q_parallel : (1 <= max_parallel (execution d) <= MAX_AGENT_EXECUTION_PARALLELISM)%Z;
  q_steps : current_steps d ≠ [];
  q_ids : NoDup (step_id <$> current_steps d);
  q_settled : ∀ s, s ∈ current_steps d → status s = StepPending ∨ step_is_terminal (status s);
  q_edges : ∀ u v, active_edge d u v → is_Some (active_map d !! u);
  q_acyclic : ∀ u, ¬ tc (active_edge d) u u;
  q_agents : ∀ s, s ∈ current_steps d → kind s = KindAgent →
    ∃ pid p, assigned_participant_id s = Some pid ∧ participant_map d !! pid = Some p ∧
             (1 <= concurrency_limit p)%Z;
  q_attempts : ∀ a, a ∈ attempts d → attempt_is_active a = false;
  q_in_flight : in_flight = ∅;
}.

Lemma step_in_map d s :
  NoDup (step_id <$> current_steps d) → s ∈ current_steps d → active_map d !! step_id s = Some s.
Proof.
  intros Hnd Hs. destruct (proj2 (active_map_is_Some d (step_id s))) as [s' Hs']; [by exists s|].
  rewrite Hs'. f_equal. destruct (active_map_Some _ _ _ Hs') as [Heq Hin].
  apply list_elem_of_lookup in Hs as [i Hi], Hin as [j Hj].
  assert (j = i) as ->; [|congruence].
  eapply (NoDup_lookup (step_id <$> current_steps d)); [done| |]; rewrite list_lookup_fmap.
  - by rewrite Hj.
  - by rewrite Hi, Heq.
Qed.

(** A pending step of an acyclic graph has a pending step below it whose
    blockers are all settled. *)
Lemma minimal_pending d in_flight :
  quiescent d in_flight → (∃ s, s ∈ current_steps d ∧ status s = StepPending) →
  ∃ s, s ∈ current_steps d ∧ status s = StepPending ∧
    ∀ u, active_edge d u (step_id s) →
      ∃ b, active_map d !! u = Some b ∧ step_is_terminal (status b).
Proof.
  intros Hq (s&Hs&Hp).
  assert (Acc (active_edge d) (step_id s)) as Hacc.
  { change (Acc (flip (flip (active_edge d))) (step_id s)). apply tc_finite_sn.
    - intros x Hx. by apply (q_acyclic _ _ Hq x), tc_flip.
    - exists (step_id <$> current_steps d). intros u Hu. apply tc_flip in Hu.
      assert (∃ w, active_edge d u w) as [w Hw] by (destruct Hu; eauto).
      apply (q_edges _ _ Hq) in Hw. apply active_map_is_Some in Hw as (s'&?&<-).
      by apply list_elem_of_fmap_2. }
  remember (step_id s) as id eqn:Hid. revert s Hs Hp Hid.
  induction Hacc as [id _ IH]. intros s Hs Hp ->.
  destruct (decide (Exists (λ u, has_status StepPending (active_map d !! u))
    (blocker_step_id <$> blocking_edges d s))) as [He|He].
  - apply Exists_exists in He as (u&(e&->&Hin)%list_elem_of_fmap&(b&Hb&Hbp)%Is_true_true%has_status_true).
    apply elem_of_blocking_edges in Hin as [Hin Hblk].
    destruct (active_map_Some _ _ _ Hb) as [Hbid Hbin].
    apply (IH (blocker_step_id e)) with b; [by exists e|done|done|done].
  - exists s. split_and!; [done|done|]. intros u (e&Hin&<-&Hv).
    destruct (q_edges _ _ Hq (blocker_step_id e) (step_id s)) as [b Hb]; [by exists e|].
    exists b. split; [done|]. destruct (active_map_Some _ _ _ Hb) as [_ Hbin].
    destruct (q_settled _ _ Hq b Hbin) as [Hbp|?]; [|done]. exfalso. apply He, Exists_exists.
    exists (blocker_step_id e). split; [|apply Is_true_true, has_status_true; eauto].
    apply list_elem_of_fmap_2. by apply elem_of_blocking_edges.
Qed.

Lemma elem_of_current d values s :
  NoDup (step_id <$> current_steps d) → values ≡ₚ (map_to_list (active_map d)).*2 →
  s ∈ values ↔ s ∈ current_steps d.
Proof.
  intros Hnd Hv. rewrite (elem_of_traversal _ _ _ Hv). split; [|by apply step_in_map].
  intros Hs. by apply active_map_Some in Hs as [_ ?].
Qed.

Lemma step_is_blocked_spec d s :
  step_is_blocked d s = true ↔ status s = StepPending ∧
    ∃ e b, e ∈ current_edges d ∧ blocked_step_id e = step_id s ∧
      active_map d !! blocker_step_id e = Some b ∧
      (status b = StepFailed ∨ status b = StepSkipped ∨ status b = StepCancelled).
Proof.
  unfold step_is_blocked. rewrite andb_true_iff, bool_decide_eq_true, existsb_exists.
  setoid_rewrite <-list_elem_of_In. setoid_rewrite elem_of_blocking_edges.
  setoid_rewrite orb_true_iff. setoid_rewrite orb_true_iff. setoid_rewrite has_status_true.
  naive_solver.
Qed.

Lemma skip_None d values :
  skip_one_blocked_step d values = None ↔ ∀ s, s ∈ values → step_is_blocked d s = false.
Proof.
  unfold skip_one_blocked_step. induction values as [|x l IH]; simpl; [set_solver|].
  setoid_rewrite elem_of_cons. destruct (step_is_blocked d x) eqn:Hx; [naive_solver congruence|].
  rewrite IH. naive_solver.
Qed.

(** A minimal pending step that is not blocked only waits for its deadline. *)
Lemma minimal_ready d in_flight now s :
  quiescent d in_flight → status s = StepPending → step_is_blocked d s = false →
  (∀ u, active_edge d u (step_id s) → ∃ b, active_map d !! u = Some b ∧ step_is_terminal (status b)) →
  (∀ t, dispatch_after s = Some t → (t <= now)%Z) → ready_spec d now s.
Proof.
  intros Hq Hp Hnb Hmin Hdue. split_and!; [done|done|]. intros e He Hv.
  destruct (Hmin (blocker_step_id e)) as (b&Hb&Ht); [by exists e|]. exists b. split; [done|].
  assert (¬ (status b = StepFailed ∨ status b = StepSkipped ∨ status b = StepCancelled)) as Hno.
  { intros Hbad. apply not_true_iff_false in Hnb. apply Hnb, step_is_blocked_spec. eauto 10. }
  destruct (status b); naive_solver.
Qed.

Lemma quiescent_selects d in_flight ready s :
  quiescent d in_flight → s ∈ ready → s ∈ current_steps d → kind s = KindAgent →
  select_agent_steps d ready in_flight ≠ [].
Proof.
  intros Hq Hs Hcur Hk. destruct (reservations_spec d in_flight) as (held&[Hn Hp]&Hheld).
  assert (held = ∅) as ->.
  { apply set_eq. intros id. rewrite Hheld, (q_in_flight _ _ Hq). split; [|set_solver].
    intros [_ [?|(a&Ha&Hact&_)]]; [set_solver|]. by rewrite (q_attempts _ _ Hq a Ha) in Hact. }
  destruct (q_agents _ _ Hq s Hcur Hk) as (pid&p&Ha&Hpm&Hlim). pose proof (q_parallel _ _ Hq) as Hpar.
  unfold select_agent_steps, global_limit. rewrite Hn, size_empty.
  unfold MAX_AGENT_EXECUTION_PARALLELISM in Hpar. rewrite Z.mod_small by lia.
  destruct (Z.eqb_spec (Z.max 0 (max_parallel (execution d) - Z.of_nat 0)) 0) as [Hz|Hz]; [lia|].
  destruct (take_slots_spec d in_flight (Z.max 0 (max_parallel (execution d) - Z.of_nat 0))
    (reservations d in_flight).2 ready) as (_&_&_&_&Hex); [lia|].
  intros Hnil. rewrite Hnil in Hex. destruct (Hex ltac:(simpl; lia) s pid p Hs) as [?|Hle].
  - apply candidate_slot_Some. rewrite (q_in_flight _ _ Hq). split_and!; [done|set_solver|done|done].
  - set_solver.
  - rewrite Hp in Hle. unfold assigned_count in Hle. simpl in Hle.
    assert (filter (λ id, assigned_to d id = Some pid) (∅ : gset string) = ∅) as He by set_solver.
    rewrite He, size_empty in Hle. lia.
Qed.

Lemma min_list_cons x l : is_Some (min_list (x :: l)).
Proof. by eexists. Qed.
Lemma next_retry_Some d now s t :
  s ∈ current_steps d → status s = StepPending → dispatch_after s = Some t → (now < t)%Z →
  is_Some (next_retry_at d now).
Proof.
  intros Hs Hp Ht Hlt. unfold next_retry_at.
  assert (t ∈ filter (λ t, (now < t)%Z)
    (omap dispatch_after (filter (λ s, status s = StepPending) (current_steps d)))) as Hin.
  { apply list_elem_of_filter. split; [done|]. apply list_elem_of_omap. exists s.
    by rewrite list_elem_of_filter. }
  destruct (filter _ _); [by apply not_elem_of_nil in Hin|apply min_list_cons].
Qed.
Lemma next_retry_None d now :
  (∀ s t, s ∈ current_steps d → status s = StepPending → dispatch_after s = Some t → (t <= now)%Z) →
  next_retry_at d now = None.
Proof.
  intros Hno. unfold next_retry_at. destruct (filter _ _) as [|t l] eqn:Hf; [done|]. exfalso.
  assert (t ∈ t :: l) as Hin by left. rewrite <-Hf in Hin.
  apply list_elem_of_filter in Hin as [Hlt (s&[? ?]%list_elem_of_filter&Ht)%list_elem_of_omap].
  specialize (Hno s t). naive_solver lia.
Qed.

Lemma finalize_all_settled d :
  current_steps d ≠ [] → (∀ s, s ∈ current_steps d → step_is_terminal (status s)) →
  is_Some (finalize_status d).
Proof.
  intros Hne Hall. unfold finalize_status. rewrite bool_decide_eq_false_2 by done. simpl.
  replace (existsb _ _) with false; [by repeat case_match|]. symmetry. apply not_true_iff_false.
  rewrite existsb_exists. intros (s&Hs&Hn). apply list_elem_of_In in Hs.
  specialize (Hall s Hs). by destruct (step_is_terminal (status s)).
Qed.
Lemma find_control ready :
  find (λ s, negb (bool_decide (kind s = KindAgent))) ready = None →
  ∀ s, s ∈ ready → kind s = KindAgent.
Proof.
  intros Hf s Hs. apply list_elem_of_In in Hs. pose proof (find_none _ _ Hf s Hs) as Hk. simpl in Hk.
  by apply negb_false_iff, bool_decide_eq_true in Hk.
Qed.
Lemma finalize_terminal d st : finalize_status d = Some st → execution_is_terminal st = true.
Proof. unfold finalize_status. repeat case_match; intros [= <-]; done. Qed.
Lemma finalize_pending d s :
  s ∈ current_steps d → status s = StepPending → finalize_status d = None.
Proof.
  intros Hs Hp. unfold finalize_status.
  replace (existsb (λ s, negb _) _) with true; [by rewrite orb_true_r|]. symmetry.
  apply existsb_exists. exists s. by rewrite <-list_elem_of_In, Hp.
Qed.

(** What is left to do when no step is blocked: nothing, a ready step, or a
    step whose deadline is ahead. *)
Lemma pending_cases d in_flight now traverse :
  quiescent d in_flight → traverse ≡ₚ (map_to_list (active_map d)).*2 →
  skip_one_blocked_step d traverse = None →
  (∀ s, s ∈ current_steps d → step_is_terminal (status s)) ∨
  (∃ s, s ∈ ready_steps d now traverse ∧ s ∈ current_steps d) ∨
  (∃ s t, s ∈ current_steps d ∧ status s = StepPending ∧ dispatch_after s = Some t ∧ (now < t)%Z).
Proof.
  intros Hq Hv Hskip. destruct (decide (Exists (λ s, status s = StepPending) (current_steps d))) as [He|He].
  2: { left. intros s Hs. destruct (q_settled _ _ Hq s Hs) as [Hp|?]; [|done].
       exfalso. apply He, Exists_exists. eauto. }
  apply Exists_exists in He. right.
  destruct (minimal_pending d in_flight Hq He) as (s&Hs&Hp&Hmin).
  assert (s ∈ traverse) as Hin by by apply (elem_of_current _ _ _ (q_ids _ _ Hq) Hv).
  assert (step_is_blocked d s = false) as Hnb by (rewrite skip_None in Hskip; auto).
  destruct (dispatch_after s) as [t|] eqn:Ht.
  - destruct (Z.lt_ge_cases now t) as [Hlt|Hge]; [right; eauto 10|left].
    exists s. split; [|done]. apply elem_of_ready. split; [done|].
    eapply minimal_ready; [done..|]. intros t'. rewrite Ht. naive_solver lia.
  - left. exists s. split; [|done]. apply elem_of_ready. split; [done|].
    eapply minimal_ready; [done..|]. intros t'. by rewrite Ht.
Qed.
End progress.

(** ** Properties *)

(** C7. The scheduler never gives up on schedulable work: with one clock
    reading per iteration, a quiescent execution (pending or settled steps, an
    acyclic dependency graph, assignable Agent steps, nothing outstanding)
    always skips a blocked step, runs a control step, dispatches at least one
    Agent step, ends with a terminal status, or sleeps at most a second for a
    deferred step; it is never failed for having no schedulable step. *)
Theorem exec_scheduler_progress {Value} (d : AgentExecutionDetail Value) in_flight traverse now now_sleep :
  quiescent d in_flight → traverse ≡ₚ (map_to_list (active_map d)).*2 →
  match decide_iteration d false in_flight traverse now now now_sleep with
  | SkipStep _ | RunControl _ => True
  | Dispatch selected => selected ≠ []
  | Finalize st _ _ => execution_is_terminal st = true
  | SleepFor delay => (1 <= delay <= 1000)%Z ∧
      ∃ s t, s ∈ current_steps d ∧ status s = StepPending ∧ dispatch_after s = Some t ∧ (now < t)%Z
  | _ => False
  end.
Proof.
  intros Hq Hv. unfold decide_iteration.
  pose proof (q_status _ _ Hq) as Hst. pose proof (q_work_dir _ _ Hq) as Hwd.
  assert (∀ x : Decision, match ex_status (execution d) with
    | ExecutionRunning | ExecutionWaitingInput => x | _ => Exit_ end = x) as -> by by destruct Hst as [->| ->].
  rewrite bool_decide_eq_false_2 by done.
  destruct (skip_one_blocked_step d traverse) as [?|] eqn:Hskip; [done|].
  destruct (find _ (ready_steps d now traverse)) as [?|] eqn:Hctl; [done|]. simpl.
  case_bool_decide as Hsel; simpl; [|done].
  destruct (finalize_status d) as [st|] eqn:Hfin; [by eapply finalize_terminal|].
  destruct (pending_cases d in_flight now traverse Hq Hv Hskip) as [Hall|[(s&Hs&Hcur)|(s&t&?&?&?&?)]].
  - destruct (finalize_all_settled d) as [? ?]; [by apply q_steps in Hq|done|congruence].
  - exfalso. eapply (quiescent_selects d in_flight); [done|exact Hs|done| |done].
    by eapply find_control.
  - destruct (next_retry_Some d now s t) as [wake ->]; [done..|].
    split; [unfold Z_clamp; lia|eauto 10].
Qed.

(** A deadline that passes between the two clock readings of one iteration
    fails the execution: when nothing is blocked and every pending step's retry
    deadline lies after the reading of [ready_steps] but not after the reading of
    [next_retry_at], the step is neither ready nor awaited, and the scheduler
    reports that there is no schedulable active step. *)
Theorem exec_scheduler_deadline_race {Value} (d : AgentExecutionDetail Value) in_flight traverse
    now_ready now_retry now_sleep :
  quiescent d in_flight → traverse ≡ₚ (map_to_list (active_map d)).*2 →
  skip_one_blocked_step d traverse = None →
  (∃ s, s ∈ current_steps d ∧ status s = StepPending) →
  (∀ s, s ∈ current_steps d → status s = StepPending →
     ∃ t, dispatch_after s = Some t ∧ (now_ready < t <= now_retry)%Z) →
  (∀ a, a ∈ attempts d → a_status a ≠ AttemptWaitingInput) →
  decide_iteration d false in_flight traverse now_ready now_retry now_sleep
  = FailExecution_ "no schedulable active step".
Proof.
  intros Hq Hv Hskip (s0&Hs0&Hp0) Hdl Hno. unfold decide_iteration.
  pose proof (q_status _ _ Hq) as Hst. pose proof (q_work_dir _ _ Hq) as Hwd.
  assert (∀ x : Decision, match ex_status (execution d) with
    | ExecutionRunning | ExecutionWaitingInput => x | _ => Exit_ end = x) as -> by by destruct Hst as [->| ->].
  rewrite bool_decide_eq_false_2, Hskip by done.
  assert (ready_steps d now_ready traverse = []) as ->.
  { destruct (ready_steps d now_ready traverse) as [|s l] eqn:Hr; [done|]. exfalso.
    assert (s ∈ s :: l) as Hin by left. rewrite <-Hr in Hin.
    apply elem_of_ready in Hin as [Hin (Hp&Hdue&_)].
    apply (elem_of_current _ _ _ (q_ids _ _ Hq) Hv) in Hin.
    destruct (Hdl s Hin Hp) as (t&Ht&?). specialize (Hdue t Ht). lia. }
  assert (select_agent_steps d [] in_flight = []) as -> by (unfold select_agent_steps; by case_match).
  simpl. rewrite (finalize_pending d s0) by done.
  rewrite (next_retry_None d now_retry).
  - replace (existsb _ _) with false; [done|]. symmetry. apply not_true_iff_false.
    rewrite existsb_exists. intros (a&Ha&Hw%bool_decide_eq_true). apply list_elem_of_In in Ha. by eapply Hno.
  - intros s t Hs Hp Ht. destruct (Hdl s Hs Hp) as (t'&Ht'&?). naive_solver lia.
Qed.

(** Executions end when, and as, their steps did: the scheduler finalizes
    exactly when there is an active step and all of them are settled; the
    execution has failed if some failed step was fatal, it completed with
    failures if another step failed, was skipped or cancelled, and completed
    otherwise; and the status change is legal from a running execution. *)
Theorem exec_finalize_exact {Value} (d : AgentExecutionDetail Value) st :
  finalize_status d = Some st ↔
  current_steps d ≠ [] ∧ (∀ s, s ∈ current_steps d → step_is_terminal (status s) = true) ∧
  let fatal := ∃ s, s ∈ current_steps d ∧ status s = StepFailed ∧ failure_policy s = FailExecution in
  let unfinished := ∃ s, s ∈ current_steps d ∧ status s ≠ StepCompleted in
  execution_can_transition_to ExecutionRunning st = true ∧
  (st = ExecutionFailed ∧ fatal ∨ st = ExecutionCompletedWithFailures ∧ unfinished ∧ ¬ fatal ∨
   st = ExecutionCompleted ∧ ¬ unfinished).
Proof.
  unfold finalize_status.
  destruct (bool_decide (current_steps d = [])) eqn:Hnil; simpl.
  { apply bool_decide_eq_true in Hnil. split; [done|]. by intros [? _]. }
  apply bool_decide_eq_false in Hnil.
  destruct (existsb (λ s, negb _) _) eqn:Hopen.
  { split; [done|]. intros (_&Hall&_). apply existsb_exists in Hopen as (s&Hs%list_elem_of_In&Hn).
    by rewrite (Hall s Hs) in Hn. }
  assert (∀ s, s ∈ current_steps d → step_is_terminal (status s) = true) as Hall.
  { intros s Hs. apply not_true_iff_false in Hopen. destruct (step_is_terminal _) eqn:Ht; [done|].
    exfalso. apply Hopen, existsb_exists. exists s. rewrite <-list_elem_of_In, Ht. done. }
  destruct (existsb (λ s, bool_decide _ && _) _) eqn:Hfatal.
  - apply existsb_exists in Hfatal as (s&Hs%list_elem_of_In&[?%bool_decide_eq_true ?%bool_decide_eq_true]%andb_true_iff).
    split; [intros [= <-]; eauto 10|]. intros (_&_&_&[[-> _]|[(_&_&Hno)|(_&Hno)]]); [done| |].
    + exfalso. apply Hno. eauto.
    + exfalso. apply Hno. exists s. split; [done|congruence].
  - assert (¬ ∃ s, s ∈ current_steps d ∧ status s = StepFailed ∧ failure_policy s = FailExecution) as Hnf.
    { intros (s&Hs&Hs1&Hs2). apply not_true_iff_false in Hfatal. apply Hfatal, existsb_exists.
      exists s. rewrite <-list_elem_of_In, Hs1, Hs2. done. }
    destruct (existsb (λ s, match status s with StepFailed => _ | _ => _ end) _) eqn:Hun.
    + apply existsb_exists in Hun as (s&Hs%list_elem_of_In&Hn).
      assert (status s ≠ StepCompleted) as Hsc by by destruct (status s).
      split; [intros [= <-]; split_and!; eauto 10|].
      intros (_&_&_&[[_ ?]|[[-> _]|(_&Hno)]]); [done|done|]. exfalso. eauto.
    + assert (¬ ∃ s, s ∈ current_steps d ∧ status s ≠ StepCompleted) as Hnu.
      { intros (s&Hs&Hn). apply not_true_iff_false in Hun. apply Hun, existsb_exists.
        exists s. rewrite <-list_elem_of_In. split; [done|]. specialize (Hall s Hs). by destruct (status s). }
      split; [intros [= <-]; split_and!; eauto 10|].
      intros (_&_&_&[[_ ?]|[(_&?&_)|[-> _]]]); done.
Qed.

(** Settlements are legal, bounded and fenced: a finished turn moves its
    attempt to a terminal status and its step to completed, failed or back to
    pending, along the status machines; a step is retried only after one of its
    first two attempts, and only in an adaptive execution unless the attempt had
    not started; the delay before the retry is between one and four seconds; and a
    late callback settles only the current versions, its own or those of a
    steered but still running attempt. *)
Theorem exec_settlement_bounded {Value} outcome adaptation (step : ExecutionStep)
    (attempt : ExecutionAttempt Value) no a s retry :
  a_status attempt = AttemptRunning ∨ a_status attempt = AttemptQueued ∧ outcome = TurnError →
  (1 <= no)%Z →
  settle_transition outcome (a_status attempt) adaptation no = (a, s, retry) →
  attempt_is_terminal a = true ∧ attempt_can_transition_to (a_status attempt) a = true ∧
  step_can_transition_to StepRunning s = true ∧ (s = StepPending ↔ retry = true) ∧
  (retry = true → (no <= 2)%Z ∧ (2000 <= retry_backoff_ms no <= 4000)%Z ∧
     (adaptation = AdaptationAdaptive ∨ a_status attempt = AttemptQueued)) ∧
  ∀ fence f, repin_fence fence step attempt = Some f →
    f = mkFence (version step) (a_version attempt) ∧
    (f = fence ∨ a_status attempt = AttemptRunning ∧ (attempt_version fence < attempt_version f)%Z).
Proof.
  intros Hst Hno Hset.
  assert (∀ fence f, repin_fence fence step attempt = Some f →
    f = mkFence (version step) (a_version attempt) ∧
    (f = fence ∨ a_status attempt = AttemptRunning ∧ (attempt_version fence < attempt_version f)%Z)) as Hfence.
  { intros [sv av] f. unfold repin_fence. simpl.
    destruct (Z.eqb_spec (version step) sv) as [<-|]; destruct (Z.eqb_spec (a_version attempt) av) as [<-|];
      simpl; [by intros [= <-]; auto|..];
      (destruct (bool_decide _ && _ && _) eqn:Hg; [|done]; intros [= <-]; split; [done|right]);
      apply andb_true_iff in Hg as [[?%bool_decide_eq_true ?%Z.ltb_lt]%andb_true_iff _]; done. }
  assert ((no <= 2)%Z → (2000 <= retry_backoff_ms no <= 4000)%Z) as Hback.
  { intros Hle. assert (no = 1 ∨ no = 2)%Z as [->| ->] by lia; vm_compute; by split. }
  assert (retry = true → (no <= 2)%Z ∧ (adaptation = AdaptationAdaptive ∨ a_status attempt = AttemptQueued))
    as Hretry.
  { intros ->. destruct outcome as [|re mk|]; cbn [settle_transition] in Hset; [done| |].
    - injection Hset as _ _ Hr. apply andb_true_iff in Hr as [?%bool_decide_eq_true Hr].
      unfold MAX_PROVIDER_RETRIES, MAX_TIMEOUT_RETRIES in Hr.
      apply orb_true_iff in Hr as [[_ ?%Z.leb_le]%andb_true_iff|[_ ?%Z.leb_le]%andb_true_iff]; auto with lia.
    - unfold attempt_error_transition, MAX_PROVIDER_RETRIES in Hset. cbv zeta in Hset.
      destruct (decide (a_status attempt = AttemptQueued)); injection Hset as _ _ Hr.
      + apply Z.leb_le in Hr. auto.
      + apply andb_true_iff in Hr as [?%bool_decide_eq_true ?%Z.leb_le]. auto. }
  assert (attempt_is_terminal a = true ∧ attempt_can_transition_to (a_status attempt) a = true ∧
    step_can_transition_to StepRunning s = true ∧ (s = StepPending ↔ retry = true)) as (?&?&?&?).
  { unfold settle_transition, attempt_error_transition in Hset. cbv zeta in Hset.
    destruct Hst as [Heq|[Heq ->]]; rewrite Heq in *;
      [destruct outcome; try rewrite decide_False in Hset by done|rewrite decide_True in Hset by done];
      injection Hset as <- <- Hr;
      split_and!; try done; rewrite <-?Hr; by repeat case_match. }
  split_and!; [done..| |done]. intros Hr. destruct (Hretry Hr). auto.
Qed.

(** Membership in the closure of [dependency_ancestors_cover]. *)
Definition listed (edges : list (string * string)) (u v : string) : Prop := (u, v) ∈ edges.
Lemma elem_of_blockers edges u v : u ∈ blockers_of edges v ↔ listed edges u v.
Proof.
  unfold blockers_of, listed. rewrite list_elem_of_fmap. setoid_rewrite list_elem_of_filter.
  split; [intros ([? ?]&->&<-&?); done|intros ?; by exists (u, v)].
Qed.
Lemma ancestors_spec edges sink :
  ∃ r, ancestors edges sink = Some r ∧ ∀ x, x ∈ r ↔ tc (listed edges) x sink.
Proof.
  destruct (search_spec (blockers_of edges) (λ fresh rest, rev fresh ++ rest)
    (list_to_set edges.*1) (S (length edges)) ∅ [sink]) as (r&Hr&Hx).
  - intros fresh rest. by rewrite <-Permutation_rev.
  - intros u v Huv. apply elem_of_blockers in Huv. apply elem_of_list_to_set, list_elem_of_fmap.
    by exists (v, u).
  - set_solver.
  - simpl. rewrite Nat.add_1_r. apply le_n_S.
    etransitivity; [apply subseteq_size, subseteq_difference_l; reflexivity|].
    etransitivity; [apply size_list_to_set_le|]. by rewrite length_fmap.
  - exists r. split; [done|]. intros x. rewrite Hx, <-tc_flip. setoid_rewrite list_elem_of_singleton.
    assert (∀ u v, leads_to (blockers_of edges) u v ↔ flip (listed edges) u v) as Heq
      by (intros; apply elem_of_blockers).
    split; [intros [?|(?&->&Ht)]; [set_solver|]|intros Ht; right; exists sink; split; [done|]];
      (eapply tc_mono; [|exact Ht]); intros u v; apply Heq.
Qed.

(** The final answer belongs to a synthesis of everything: the coverage
    test accepts a step exactly when every required step leads to it through the
    dependencies; the summary is the output of the last completed synthesis that
    covers all current business steps, if it wrote something; and without such a
    synthesis, a single business step's output. *)
Theorem exec_final_answer {Value} (d : AgentExecutionDetail Value) :
  (∀ sink required edges, dependency_ancestors_cover sink required edges = true ↔
     ∀ id, id ∈ required → tc (listed edges) id sink) ∧
  (∀ pre s post out, current_steps d = pre ++ s :: post →
     owns_final_answer d s = true → (∀ s', s' ∈ post → owns_final_answer d s' = false) →
     nonblank_output d s = Some out → terminal_summary d = out) ∧
  (∀ s out, (∀ s', s' ∈ current_steps d → owns_final_answer d s' = false) →
     filter is_business (current_steps d) = [s] →
     nonblank_output d s = Some out → terminal_summary d = out).
Proof.
  split_and!.
  - intros sink required edges. unfold dependency_ancestors_cover.
    destruct (ancestors_spec edges sink) as (r&->&Hr). rewrite forallb_forall.
    setoid_rewrite <-list_elem_of_In. setoid_rewrite bool_decide_eq_true. by setoid_rewrite Hr.
  - intros pre s post out Hcur Hown Hlater Hout. unfold terminal_summary. rewrite Hcur.
    rewrite rev_app_distr. simpl. rewrite <-app_assoc. simpl.
    assert (∀ l k, (∀ s', s' ∈ l → owns_final_answer d s' = false) →
      find (owns_final_answer d) (l ++ s :: k) = Some s) as Hfind.
    { intros l k Hl. induction l as [|x l IH]; simpl; [by rewrite Hown|].
      rewrite (Hl x) by left. apply IH. intros s' ?. apply Hl. by right. }
    rewrite Hfind; [simpl; by rewrite Hout|]. intros s' Hs'. apply Hlater.
    apply list_elem_of_In. rewrite in_rev. by apply list_elem_of_In.
  - intros s out Hno Hone Hout. unfold terminal_summary.
    destruct (find _ _) as [s'|] eqn:Hf.
    + apply find_some in Hf as [Hin Ho]. rewrite <-in_rev in Hin. apply list_elem_of_In in Hin.
      by rewrite (Hno s' Hin) in Ho.
    + simpl. by rewrite Hone, Hout.
Qed.

(** ** Witnesses *)

(** Two Agent steps, [a] before [b], on one participant, two at a time. *)
Definition demo_execution : AgentExecution :=
  mkExecution "exec" "ship" None (Some "/work") DelegationAutomatic GateAutomatic AdaptationAdaptive
    DecisionAutomatic 2 ExecutionRunning None None 1 1 1 0 0.
Definition demo_worker : ExecutionParticipant :=
  mkParticipant "p1" "exec" "agent" None None (Some "openai") (Some "m") None None None None None
    [] [] 0 1 None 0.
Definition agent_step (id : string) (st : ExecutionStepStatus) (due : option Z) (at_ms : Z) : ExecutionStep :=
  mkStep id "exec" id "work" None KindAgent None st ToolsFull None None None FailExecution
    (Some "p1") None None None false None None None due 1 None 1 at_ms 0.
Definition demo_edge (u v : string) : ExecutionStepDependency := mkDependency "exec" u v 1 None.
Definition demo_detail (ss : list ExecutionStep) (es : list ExecutionStepDependency) :
    AgentExecutionDetail unit :=
  mkDetail demo_execution [demo_worker] ss es [].

Definition demo_start : AgentExecutionDetail unit :=
  demo_detail [agent_step "a" StepPending None 1; agent_step "b" StepPending None 2] [demo_edge "a" "b"].
Definition demo_deferred : AgentExecutionDetail unit :=
  demo_detail [agent_step "a" StepPending (Some 1000%Z) 1] [].
Definition demo_values (d : AgentExecutionDetail unit) : list ExecutionStep :=
  (map_to_list (active_map d)).*2.

Lemma demo_start_edges u v : active_edge demo_start u v → u = "a" ∧ v = "b".
Proof. intros (e&He&<-&<-). apply list_elem_of_singleton in He as ->. done. Qed.
Lemma demo_deferred_edges u v : ¬ active_edge demo_deferred u v.
Proof. intros (e&He&_). by apply not_elem_of_nil in He. Qed.

Lemma demo_start_quiescent : quiescent demo_start ∅.
Proof.
  split; try done.
  - by left.
  - apply (bool_decide_unpack _). vm_compute. exact I.
  - intros s [->| ->%list_elem_of_singleton]%elem_of_cons; by left.
  - intros u v [-> ->]%demo_start_edges. by eexists.
  - intros u Hu. assert (∀ x y, tc (active_edge demo_start) x y → x = "a" ∧ y = "b") as H.
    { induction 1 as [x y Hxy|x y z Hxy _ IH]; [by apply demo_start_edges|].
      apply demo_start_edges in Hxy as [-> ->]. by destruct IH. }
    apply H in Hu as [-> ?]. done.
  - intros s [->| ->%list_elem_of_singleton]%elem_of_cons _; (exists "p1", demo_worker; by split_and!).
  - intros a Ha. by apply not_elem_of_nil in Ha.
Qed.
Lemma demo_deferred_quiescent : quiescent demo_deferred ∅.
Proof.
  split; try done.
  - by left.
  - apply (bool_decide_unpack _). vm_compute. exact I.
  - intros s ->%list_elem_of_singleton. by left.
  - intros u v []%demo_deferred_edges.
  - intros u Hu. destruct Hu as [? ? He|? ? ? He _]; by apply demo_deferred_edges in He.
  - intros s ->%list_elem_of_singleton _; (exists "p1", demo_worker; by split_and!).
  - intros a Ha. by apply not_elem_of_nil in Ha.
Qed.

Lemma exec_scheduler_progress_witness :
  ∃ sel, decide_iteration demo_start false ∅ (demo_values demo_start) 10 10 10 = Dispatch sel ∧ sel ≠ [].
Proof.
  eexists. split; [vm_compute; reflexivity|].
  exact (exec_scheduler_progress demo_start ∅ (demo_values demo_start) 10 10 demo_start_quiescent (reflexivity _)).
Defined.

Lemma exec_scheduler_deadline_race_witness :
  decide_iteration demo_deferred false ∅ (demo_values demo_deferred) 999 1000 1000
  = FailExecution_ "no schedulable active step".
Proof.
  apply (exec_scheduler_deadline_race demo_deferred ∅ (demo_values demo_deferred) 999 1000 1000).
  - apply demo_deferred_quiescent.
  - reflexivity.
  - vm_compute. reflexivity.
  - eexists. split; [left|done].
  - intros s ->%list_elem_of_singleton _. exists 1000%Z. split; [done|lia].
  - intros a Ha. by apply not_elem_of_nil in Ha.
Defined.

Lemma exec_settlement_bounded_witness :
  settle_transition (TurnFailed true true) AttemptRunning AdaptationAdaptive 2
  = (AttemptFailed, StepPending, true) ∧ (2000 <= retry_backoff_ms 2 <= 4000)%Z.
Proof.
  split; [reflexivity|].
  apply (exec_settlement_bounded (TurnFailed true true) AdaptationAdaptive (agent_step "a" StepRunning None 1)
    (mkAttempt "t" "exec" "a" 2 None None AttemptRunning "" () None None None [] None None None None None
       1 0 0) 2 AttemptFailed StepPending true); [by left|lia|reflexivity|reflexivity].
Defined.
