(* ===== verification/ExtDependency.v ===== *)
(** Dependencies between extensions
    (crates/backend/nomifun-extension/src/dependency.rs): missing and
    mismatched dependencies, the load order by Kahn's algorithm, and the cycles
    found by depth-first search.  The [semver] crate is a parameter; a [HashMap]
    is a [gmap], whose traversal order stands for the map's. *)
From S2P Require Import Prelude Graph.

Record ExtensionManifest := mkManifest {
  name : string;
  ext_version : string;
  manifest_dependencies : gmap string string;
}.
(** The fields of [LoadedExtension] and [ExtensionManifest] that the module
    reads. *)
Record LoadedExtension := mkExtension { manifest : ExtensionManifest }.
Definition ext_name (e : LoadedExtension) : string := name (manifest e).
Definition ext_deps (e : LoadedExtension) : gmap string string := manifest_dependencies (manifest e).

Inductive DependencyIssue :=
| Missing (extension dependency required : string)
| VersionMismatch (extension dependency required actual : string)
| Circular (cycle : list string).
Record DependencyValidationResult := mkValidation {
  valid : bool;
  issues : list DependencyIssue;
  load_order : list string;
}.

(** ** Version matching *)

Class SemverApi (Version VersionReq : Type) := {
  version_parse : string → option Version;
  version_req_parse : string → option VersionReq;
  req_matches : VersionReq → Version → bool;
}.
Definition starts_with_digit (s : string) : bool :=
  match s with String c _ => is_ascii_digit c | EmptyString => false end.
Definition version_matches `{SemverApi Version VersionReq} (requirement actual : string) : bool :=
  match version_parse actual with
  | None => false
  | Some version =>
      let req_str := if starts_with_digit requirement then "=" +:+ requirement else requirement in
      match version_req_parse req_str with
      | None => false
      | Some req => req_matches req version
      end
  end.

(** ** Load order *)

Definition known (exts : list LoadedExtension) : gset string := list_to_set (ext_name <$> exts).
Definition dep_keys (e : LoadedExtension) : list string := (map_to_list (ext_deps e)).*1.

(** [adj.get(dep)]: the dependents, in the order of the extensions. *)
Definition dependents (exts : list LoadedExtension) (dep : string) : list string :=
  ext_name <$> filter (λ e, dep ∈ dep_keys e) exts.
(** The loop filling [in_degree]. *)
Definition add_in_degree (k : gset string) (m : gmap string nat) (e : LoadedExtension) : gmap string nat :=
  <[ext_name e := default 0 (m !! ext_name e) + length (filter (λ d, d ∈ k) (dep_keys e))]> m.
Definition in_degrees (exts : list LoadedExtension) : gmap string nat :=
  foldl (add_in_degree (known exts)) ∅ exts.
Definition sort_names (l : list string) : list string := merge_sort string_le l.
Definition zero_degree_names (m : gmap string nat) : list string :=
  sort_names (filter (λ kd, kd.2 = 0) (map_to_list m)).*1.

(** *** Cycles *)

Record dfs_state := mkDfs {
  visited : gset string;
  on_stack : gset string;
  path : list string;
  cycles : list (list string);
}.
(** [path[position(next)..]], closed with [next]. *)
Definition extract_cycle (p : list string) (next : string) : option (list string) :=
  match list_find (λ n, n = next) p with
  | Some (start, _) => Some (drop start p ++ [next])
  | None => None
  end.

Section dfs.
Context (adj : string → list string).

(** The loop over the neighbours, given the recursive call. *)
Fixpoint visit_neighbors (call : string → dfs_state → option dfs_state) (ns : list string)
    (st : dfs_state) : option dfs_state :=
  match ns with
  | [] => Some st
  | next :: ns =>
      if decide (next ∈ visited st) then
        let st := if decide (next ∈ on_stack st) then
                    match extract_cycle (path st) next with
                    | Some c => mkDfs (visited st) (on_stack st) (path st) (cycles st ++ [c])
                    | None => st
                    end
                  else st in
        visit_neighbors call ns st
      else match call next st with
           | None => None
           | Some st => visit_neighbors call ns st
           end
  end.
(** [None] only stands for fuel. *)
Fixpoint dfs_find_cycles (fuel : nat) (node : string) (st : dfs_state) : option dfs_state :=
  match fuel with
  | 0 => None
  | S fuel =>
      let st := mkDfs ({[node]} ∪ visited st) ({[node]} ∪ on_stack st) (path st ++ [node]) (cycles st) in
      match visit_neighbors (dfs_find_cycles fuel) (adj node) st with
      | None => None
      | Some st =>
          Some (mkDfs (visited st) (on_stack st ∖ {[node]})
                  (take (length (path st) - 1) (path st)) (cycles st))
      end
  end.
(** The loop over the sorted nodes. *)
Fixpoint dfs_all (fuel : nat) (nodes : list string) (st : dfs_state) : option dfs_state :=
  match nodes with
  | [] => Some st
  | node :: nodes =>
      if decide (node ∈ visited st) then dfs_all fuel nodes st
      else match dfs_find_cycles fuel node st with
           | None => None
           | Some st => dfs_all fuel nodes st
           end
  end.
End dfs.

(** The adjacency of [find_cycles]: the last extension of a name counts. *)
Definition involved_deps (exts : list LoadedExtension) (involved : gset string) (node : string) :
    list string :=
  match last (filter (λ e, ext_name e = node) exts) with
  | Some e => if decide (node ∈ involved)
              then sort_names (filter (λ d, d ∈ involved) (dep_keys e)) else []
  | None => []
  end.
Definition find_cycles (exts : list LoadedExtension) (involved : gset string) :
    option (list (list string)) :=
  cycles <$> dfs_all (involved_deps exts involved) (S (size involved))
    (sort_names (elements involved)) (mkDfs ∅ ∅ [] []).

(** [None] stands for a panic (a missing in-degree entry, an underflow) or
    for fuel. *)
Definition compute_topological_order (exts : list LoadedExtension) :
    option (list string * list (list string)) :=
  let degrees := in_degrees exts in
  match kahn (dependents exts) sort_names (S (length exts)) degrees (zero_degree_names degrees) [] with
  | None => None
  | Some order =>
      let remaining := known exts ∖ list_to_set order in
      match (if decide (remaining = ∅) then Some [] else find_cycles exts remaining) with
      | None => None
      | Some cycles => Some (order ++ sort_names (elements remaining), cycles)
      end
  end.

(** ** Validation *)

Definition installed_versions (exts : list LoadedExtension) : gmap string string :=
  foldl (λ m e, <[ext_name e := ext_version (manifest e)]> m) ∅ exts.
Definition dependency_issue `{SemverApi Version VersionReq} (versions : gmap string string)
    (e : LoadedExtension) (d : string * string) : option DependencyIssue :=
  match versions !! d.1 with
  | None => Some (Missing (ext_name e) d.1 d.2)
  | Some actual =>
      if version_matches d.2 actual then None
      else Some (VersionMismatch (ext_name e) d.1 d.2 actual)
  end.
Definition declared_issues `{SemverApi Version VersionReq} (exts : list LoadedExtension) :
    list DependencyIssue :=
  mjoin ((λ e, omap (dependency_issue (installed_versions exts) e) (map_to_list (ext_deps e))) <$> exts).
Definition validate_dependencies `{SemverApi Version VersionReq} (exts : list LoadedExtension) :
    option DependencyValidationResult :=
  match compute_topological_order exts with
  | None => None
  | Some (order, cycles) =>
      let issues := declared_issues exts ++ (Circular <$> cycles) in
      Some (mkValidation (bool_decide (issues = [])) issues order)
  end.
