(* ===== verification/ExtTheorems.v ===== *)
(** Correctness of the extension dependency validation: the depth-first search for
    cycles, the load order, the cycles found and the verdict. *)
From S2P Require Import Prelude Graph ExtDependency.

(** Consecutive elements of a walk are joined by an edge of [adj]. *)
Definition walk (adj : string → list string) (l : list string) : Prop :=
  ∀ i u v, l !! i = Some u → l !! S i = Some v → v ∈ adj u.
Definition closed_walk (adj : string → list string) (c : list string) : Prop :=
  ∃ x l, c = x :: l ++ [x] ∧ walk adj c.

Lemma walk_snoc adj l u v : walk adj (l ++ [u]) → v ∈ adj u → walk adj (l ++ [u] ++ [v]).
Proof.
  intros Hw Hv i a b Ha Hb. rewrite app_assoc in Ha, Hb.
  destruct (decide (S i < length (l ++ [u]))) as [Hlt|Hge].
  - rewrite lookup_app_l in Ha, Hb by lia. by eapply Hw.
  - assert (S i = length (l ++ [u])) as Heq.
    { apply lookup_lt_Some in Hb. rewrite length_app in Hb. simpl in Hb. lia. }
    rewrite Heq, lookup_app_r, Nat.sub_diag in Hb by lia. injection Hb as <-.
    rewrite length_app in Heq. simpl in Heq. assert (i = length l) as -> by lia.
    rewrite <-app_assoc, lookup_app_r, Nat.sub_diag in Ha by lia. by injection Ha as <-.
Qed.
Lemma walk_drop adj l n : walk adj l → walk adj (drop n l).
Proof.
  intros Hw i u v. rewrite !lookup_drop. replace (n + S i) with (S (n + i)) by lia. apply Hw.
Qed.

Section search.
Context (adj : string → list string) (U : gset string).
Context (closed : ∀ u v, u ∈ U → v ∈ adj u → v ∈ U).

Definition needs (v u : string) : Prop := v ∈ adj u.

Record dfs_inv (st : dfs_state) : Prop := {
  di_stack : on_stack st = list_to_set (path st);
  di_nodup : NoDup (path st);
  di_visited : on_stack st ⊆ visited st;
  di_walk : walk adj (path st);
  di_cycles : Forall (closed_walk adj) (cycles st);
  di_acc : cycles st = [] → ∀ v, v ∈ visited st → v ∉ on_stack st → Acc needs v;
}.
(** What the search below a node leaves unchanged. *)
Record extends (st st' : dfs_state) : Prop := {
  ex_path : path st' = path st;
  ex_stack : on_stack st' = on_stack st;
  ex_visited : visited st ⊆ visited st';
  ex_cycles : ∃ k, cycles st' = cycles st ++ k;
}.
#[local] Instance extends_refl : Reflexive extends.
Proof. intros st. split; try done. exists []. by rewrite app_nil_r. Qed.
#[local] Instance extends_trans : Transitive extends.
Proof.
  intros a b c [H1 H2 H3 [k Hk]] [H4 H5 H6 [k' Hk']]. split; [congruence|congruence|set_solver|].
  exists (k ++ k'). by rewrite Hk', Hk, app_assoc.
Qed.

(** The contract of the recursive call. *)
Definition call_ok (call : string → dfs_state → option dfs_state) (n : nat) : Prop :=
  ∀ node st, dfs_inv st → node ∈ U → node ∉ visited st → walk adj (path st ++ [node]) →
    size (U ∖ visited st) ≤ n →
    ∃ st', call node st = Some st' ∧ dfs_inv st' ∧ extends st st' ∧ node ∈ visited st'.

Lemma extract_cycle_spec p node next :
  NoDup (p ++ [node]) → walk adj (p ++ [node]) → next ∈ p ++ [node] → next ∈ adj node →
  ∃ c, extract_cycle (p ++ [node]) next = Some c ∧ closed_walk adj c.
Proof.
  intros Hnd Hw Hin Hadj. unfold extract_cycle.
  destruct (list_find_elem_of (λ n, n = next) (p ++ [node]) next Hin eq_refl) as [[i x] Hf].
  rewrite Hf. eexists. split; [done|]. apply list_find_Some in Hf as (Hi&->&_).
  assert (walk adj (drop i (p ++ [node]) ++ [next])) as Hwd.
  { assert (i ≤ length p) as Hle.
    { apply lookup_lt_Some in Hi. rewrite length_app in Hi. simpl in Hi. lia. }
    rewrite drop_app_le, <-app_assoc by done. apply walk_snoc; [|done].
    rewrite <-drop_app_le by done. by apply walk_drop. }
  rewrite (drop_S _ next) by done. rewrite (drop_S _ next) in Hwd by done.
  by exists next, (drop (S i) (p ++ [node])).
Qed.

(** Reporting a back edge. *)
Lemma back_edge_ok st p node next :
  dfs_inv st → path st = p ++ [node] → next ∈ on_stack st → next ∈ adj node →
  ∃ c, extract_cycle (path st) next = Some c ∧
    let st' := mkDfs (visited st) (on_stack st) (path st) (cycles st ++ [c]) in
    dfs_inv st' ∧ extends st st'.
Proof.
  intros Hi Hp Hin Hadj. pose proof Hi as [Hs Hnd Hv Hw Hc Ha].
  rewrite Hs, elem_of_list_to_set, Hp in Hin.
  destruct (extract_cycle_spec p node next) as (c&Hf&Hcw); [by rewrite <-Hp..|done|done|].
  exists c. rewrite Hp. split; [exact Hf|]. rewrite <-Hp. split; split; simpl.
  - exact Hs.
  - exact Hnd.
  - exact Hv.
  - exact Hw.
  - apply Forall_app. split; [exact Hc|]. by constructor.
  - intros Hnil. by apply app_nil in Hnil as [_ ?].
  - reflexivity.
  - reflexivity.
  - reflexivity.
  - by exists [c].
Qed.

Lemma visit_neighbors_ok call n st p node ns :
  call_ok call n → dfs_inv st → path st = p ++ [node] → node ∈ U →
  (∀ x, x ∈ ns → x ∈ adj node) → size (U ∖ visited st) ≤ n →
  ∃ st', visit_neighbors call ns st = Some st' ∧ dfs_inv st' ∧ extends st st' ∧
    (∀ x, x ∈ ns → x ∈ visited st') ∧ (cycles st' = [] → ∀ x, x ∈ ns → x ∉ on_stack st).
Proof.
  intros Hcall. revert st. induction ns as [|x ns IH]; intros st Hi Hp Hu Hns Hsz; cbn [visit_neighbors].
  { exists st. split_and!; [done|done|done|set_solver|set_solver]. }
  assert (x ∈ adj node) as Hx by (apply Hns; left).
  assert (∀ st1, dfs_inv st1 → extends st st1 → x ∈ visited st1 →
    (cycles st1 = [] → x ∉ on_stack st) →
    ∃ st', visit_neighbors call ns st1 = Some st' ∧ dfs_inv st' ∧ extends st st' ∧
      (∀ y, y ∈ x :: ns → y ∈ visited st') ∧
      (cycles st' = [] → ∀ y, y ∈ x :: ns → y ∉ on_stack st)) as Hgo.
  { intros st1 Hi1 He1 Hx1 Hs1. pose proof He1 as [Hpe Hse Hve _].
    destruct (IH st1) as (st'&Hr&Hi'&He'&Hv'&Hs').
    - done.
    - by rewrite Hpe.
    - done.
    - intros y Hy. apply Hns. by right.
    - etransitivity; [|exact Hsz]. apply subseteq_size. set_solver.
    - exists st'. pose proof He' as [_ _ Hve' [k Hk]]. split_and!; [done|done|by etransitivity| |].
      + intros y [->|Hy]%elem_of_cons; [by apply Hve'|auto].
      + intros Hnil y [->|Hy]%elem_of_cons.
        * apply Hs1. rewrite Hk in Hnil. by apply app_nil in Hnil as [? _].
        * rewrite <-Hse. auto. }
  destruct (decide (x ∈ visited st)) as [Hxv|Hxv].
  - destruct (decide (x ∈ on_stack st)) as [Hxs|Hxs].
    + destruct (back_edge_ok st p node x Hi Hp Hxs Hx) as (c&->&Hi1&He1).
      apply Hgo; [done|done|done|]. simpl. by intros []%app_nil.
    + apply Hgo; [done|done|done|done].
  - destruct (Hcall x st Hi) as (st1&->&Hi1&He1&Hx1); [by eapply closed|done| |done|].
    + rewrite Hp, <-app_assoc. apply walk_snoc; [|done]. rewrite <-Hp. by apply di_walk.
    + apply Hgo; [done|done|done|]. intros _ Hxs. by apply Hxv, (di_visited _ Hi).
Qed.

(** Leaving a node whose neighbours are all done. *)
Lemma leave_inv st p node :
  dfs_inv st → path st = p ++ [node] → (∀ x, x ∈ adj node → x ∈ visited st) →
  (cycles st = [] → ∀ x, x ∈ adj node → x ∉ on_stack st) →
  dfs_inv (mkDfs (visited st) (on_stack st ∖ {[node]}) p (cycles st)).
Proof.
  intros [Hs Hnd Hv Hw Hc Ha] Hp Hns Hback. rewrite Hp in Hs, Hnd, Hw.
  apply NoDup_app in Hnd as (Hndp&Hdis&_).
  assert (node ∉ p) as Hnp by (intros Hin; apply (Hdis node Hin); left).
  split; simpl; [|done|set_solver| |done|].
  - rewrite Hs, list_to_set_app_L. set_solver.
  - intros i u v Hu Hv'. apply (Hw i); by apply lookup_app_l_Some.
  - intros Hnil v Hv1 Hv2. destruct (decide (v = node)) as [->|Hne].
    + constructor. intros x Hx. apply Ha; [done|by apply Hns|by apply Hback].
    + apply Ha; [done|done|]. set_solver.
Qed.

Lemma dfs_ok n : call_ok (dfs_find_cycles adj n) n.
Proof.
  induction n as [|n IH]; intros node st Hi Hu Hnv Hw Hsz.
  { exfalso. assert (node ∈ U ∖ visited st) as Hin by set_solver.
    assert (U ∖ visited st = ∅) as He by (apply leibniz_equiv, size_empty_inv; lia).
    rewrite He in Hin. by apply not_elem_of_empty in Hin. }
  cbn [dfs_find_cycles].
  set (st1 := mkDfs _ _ _ _). pose proof Hi as [Hs Hnd Hv Hwp Hc Ha].
  assert (node ∉ path st) as Hnp.
  { intros Hin. apply Hnv, Hv. rewrite Hs. by apply elem_of_list_to_set. }
  assert (dfs_inv st1) as Hi1.
  { unfold st1. split; simpl.
    - rewrite Hs, list_to_set_app_L. set_solver.
    - apply NoDup_app. split_and!; [done|set_solver|apply NoDup_singleton].
    - set_solver.
    - done.
    - done.
    - intros Hnil v Hv1 Hv2. apply Ha; set_solver. }
  assert (size (U ∖ visited st1) ≤ n) as Hsz1.
  { assert (U ∖ visited st = {[node]} ∪ U ∖ visited st1) as Heq.
    { unfold st1. simpl. apply set_eq. intros x. destruct (decide (x = node)); set_solver. }
    rewrite Heq, size_union, size_singleton in Hsz by (unfold st1; simpl; set_solver). lia. }
  destruct (visit_neighbors_ok (dfs_find_cycles adj n) n st1 (path st) node (adj node))
    as (st2&->&Hi2&[Hp2 Hs2 Hv2 [k Hk]]&Hns&Hback); [done..|].
  unfold st1 in Hp2, Hs2, Hv2, Hk, Hback. simpl in Hp2, Hs2, Hv2, Hk, Hback.
  eexists. split; [done|]. rewrite Hp2, length_app. simpl.
  replace (length (path st) + 1 - 1) with (length (path st)) by lia.
  rewrite take_app_length. split_and!.
  - apply leave_inv; [done|done|done|]. by rewrite Hs2.
  - split; simpl; [done| |set_solver|by exists k]. rewrite Hs2. rewrite Hs.
    apply set_eq. intros x. set_unfold. destruct (decide (x = node)); naive_solver.
  - simpl. set_solver.
Qed.
Lemma dfs_all_ok n nodes st :
  dfs_inv st → path st = [] → (∀ x, x ∈ nodes → x ∈ U) → size U ≤ n →
  ∃ st', dfs_all adj n nodes st = Some st' ∧ dfs_inv st' ∧ path st' = [] ∧
    visited st ⊆ visited st' ∧ ∀ x, x ∈ nodes → x ∈ visited st'.
Proof.
  intros Hi Hp Hn Hsz. revert st Hi Hp. induction nodes as [|x nodes IH]; intros st Hi Hp; cbn [dfs_all].
  { exists st. set_solver. }
  assert (∀ y, y ∈ nodes → y ∈ U) as Hn' by (intros; apply Hn; by right).
  destruct (decide (x ∈ visited st)) as [Hx|Hx].
  - destruct (IH Hn' st Hi Hp) as (st'&?&?&?&Hv&?). exists st'. split_and!; [done..|].
    intros y [->|?]%elem_of_cons; [by apply Hv|auto].
  - destruct (dfs_ok n x st Hi) as (st1&->&Hi1&[Hp1 _ Hv1 _]&Hx1);
      [apply Hn; left|done|rewrite Hp; by intros [|i] u v [=]| |].
    { etransitivity; [apply subseteq_size, subseteq_difference_l; reflexivity|done]. }
    destruct (IH Hn' st1 Hi1) as (st'&?&?&?&Hv&?); [by rewrite Hp1|].
    exists st'. split_and!; [done..|set_solver|].
    intros y [->|?]%elem_of_cons; [by apply Hv|auto].
Qed.
End search.

Lemma elem_of_sort_names x l : x ∈ sort_names l ↔ x ∈ l.
Proof. unfold sort_names. by rewrite merge_sort_Permutation. Qed.

(** What [find_cycles] promises. *)
Lemma find_cycles_spec exts involved :
  ∃ cs, find_cycles exts involved = Some cs ∧
    Forall (closed_walk (involved_deps exts involved)) cs ∧
    (cs = [] → ∀ v, v ∈ involved → Acc (needs (involved_deps exts involved)) v).
Proof.
  set (adj := involved_deps exts involved).
  assert (∀ u v, u ∈ involved → v ∈ adj u → v ∈ involved) as Hclosed.
  { intros u v _. unfold adj, involved_deps. destruct (last _) as [e|]; [|set_solver].
    case_decide; [|set_solver]. rewrite elem_of_sort_names, list_elem_of_filter. by intros [? _]. }
  destruct (dfs_all_ok adj involved Hclosed (S (size involved)) (sort_names (elements involved))
    (mkDfs ∅ ∅ [] [])) as (st&Hst&[Hs Hnd Hv Hw Hc Ha]&Hp&_&Hall).
  - split; simpl; [done|constructor|done|by intros [] ?? [=]|constructor|set_solver].
  - done.
  - intros x. by rewrite elem_of_sort_names, elem_of_elements.
  - lia.
  - exists (cycles st). unfold find_cycles. fold adj. rewrite Hst. split_and!; [done|done|].
    intros Hnil v Hin. apply (Ha Hnil); [apply Hall; by rewrite elem_of_sort_names, elem_of_elements|].
    rewrite Hs, Hp. set_solver.
Qed.

Section order.
Context (exts : list LoadedExtension).

(** [u] declares a dependency on the installed extension [v]. *)
Definition depends (u v : string) : Prop :=
  v ∈ known exts ∧ ∃ e, e ∈ exts ∧ ext_name e = u ∧ v ∈ dep_keys e.

Lemma elem_of_known v : v ∈ known exts ↔ v ∈ ext_name <$> exts.
Proof. unfold known. by rewrite elem_of_list_to_set. Qed.
Lemma depends_known u v : depends u v → u ∈ known exts ∧ v ∈ known exts.
Proof.
  intros (Hv&e&He&<-&_). split; [|done]. apply elem_of_known. by apply list_elem_of_fmap_2.
Qed.
Lemma elem_of_dependents u v : v ∈ dependents exts u ↔ ∃ e, e ∈ exts ∧ ext_name e = v ∧ u ∈ dep_keys e.
Proof.
  unfold dependents. rewrite list_elem_of_fmap. split.
  - intros (e&->&[? ?]%list_elem_of_filter). eauto.
  - intros (e&?&<-&?). exists e. by rewrite list_elem_of_filter.
Qed.

Abbreviation nodes := (elements (known exts)).
Abbreviation dep_edge := (edge (dependents exts) nodes).
Lemma dep_edge_depends u v : dep_edge u v ↔ depends v u.
Proof. unfold edge, depends. rewrite elem_of_elements, elem_of_dependents. naive_solver. Qed.

Lemma tc_dep_edge x y : tc dep_edge x y ↔ tc depends y x.
Proof.
  rewrite <-(tc_flip depends). split; intros Ht.
  - apply (tc_mono dep_edge (flip depends)); [|done]. intros u v. apply dep_edge_depends.
  - apply (tc_mono (flip depends) dep_edge); [|done]. intros u v. apply dep_edge_depends.
Qed.
Lemma rtc_dep_edge x y : rtc dep_edge x y ↔ rtc depends y x.
Proof.
  split; intros [->|Ht]%rtc_tc; [done| |done|]; apply tc_rtc; by apply tc_dep_edge.
Qed.

(** ** In-degrees *)

Definition degree_in (k : gset string) (v : string) (l : list LoadedExtension) : nat :=
  sum_list_with (λ e, if decide (ext_name e = v) then length (filter (λ d, d ∈ k) (dep_keys e)) else 0) l.

Lemma in_degrees_fold k l m v :
  foldl (add_in_degree k) m l !! v
  = if decide (v ∈ ext_name <$> l) then Some (default 0 (m !! v) + degree_in k v l) else m !! v.
Proof.
  revert m. induction l as [|e l IH]; intros m; [done|]. simpl. rewrite IH. unfold add_in_degree.
  destruct (decide (ext_name e = v)) as [->|Hne].
  - rewrite lookup_insert_eq, (decide_True (P := v ∈ v :: _)) by left. simpl.
    case_decide as Hl; [f_equal; simpl; lia|].
    assert (degree_in k v l = 0) as ->; [|f_equal; lia].
    clear IH. induction l as [|x l IH]; [done|]. simpl in *. rewrite decide_False by set_solver.
    apply IH. set_solver.
  - rewrite lookup_insert_ne by done. simpl. repeat case_decide; try done; set_solver.
Qed.

Lemma filter_keys_length (e : LoadedExtension) :
  length (filter (λ d, d ∈ known exts) (dep_keys e)) = length (filter (λ u, u ∈ dep_keys e) nodes).
Proof.
  apply Permutation_length, NoDup_Permutation.
  - apply NoDup_filter, NoDup_fst_map_to_list.
  - apply NoDup_filter, NoDup_elements.
  - intros x. rewrite !list_elem_of_filter, elem_of_elements. tauto.
Qed.

Lemma in_from_dependents l ns v :
  in_from (dependents l) ns v
  = sum_list_with (λ e, if decide (ext_name e = v) then length (filter (λ u, u ∈ dep_keys e) ns) else 0) l.
Proof.
  unfold in_from, dependents. induction l as [|e l IH]; simpl.
  { induction ns as [|u ns IH]; [done|]. simpl. by rewrite IH. }
  rewrite <-IH. clear IH. induction ns as [|u ns IH]; simpl; [by case_decide|].
  rewrite IH, !filter_cons. destruct (decide (u ∈ dep_keys e)); cbn [fmap list_fmap];
    rewrite ?count_cons; destruct (decide (ext_name e = v)); cbn [length]; lia.
Qed.

Lemma in_degrees_lookup v :
  in_degrees exts !! v
  = if decide (v ∈ known exts) then Some (in_from (dependents exts) nodes v) else None.
Proof.
  unfold in_degrees. rewrite in_degrees_fold, in_from_dependents. unfold degree_in.
  assert (∀ l, sum_list_with (λ e, if decide (ext_name e = v)
      then length (filter (λ d, d ∈ known exts) (dep_keys e)) else 0) l
    = sum_list_with (λ e, if decide (ext_name e = v)
      then length (filter (λ u, u ∈ dep_keys e) nodes) else 0) l) as Hsum.
  { induction l as [|e l IH]; [done|]. simpl. rewrite IH. case_decide; [|done].
    by rewrite filter_keys_length. }
  destruct (decide (v ∈ known exts)) as [Hk|Hk].
  - rewrite decide_True by by apply elem_of_known. by rewrite lookup_empty, <-Hsum.
  - rewrite decide_False by by rewrite <-elem_of_known. apply lookup_empty.
Qed.

Lemma zero_names_spec v :
  v ∈ zero_degree_names (in_degrees exts) ↔ v ∈ nodes ∧ in_from (dependents exts) nodes v = 0.
Proof.
  unfold zero_degree_names. rewrite elem_of_sort_names, list_elem_of_fmap, elem_of_elements. split.
  - intros ([u n]&->&[Hn Hu%elem_of_map_to_list]%list_elem_of_filter). simpl in *.
    rewrite in_degrees_lookup in Hu. case_decide; [|done]. split; [done|congruence].
  - intros [Hv H0]. exists (v, 0). split; [done|]. rewrite list_elem_of_filter, elem_of_map_to_list.
    by rewrite in_degrees_lookup, decide_True, H0.
Qed.
Lemma zero_names_nodup : NoDup (zero_degree_names (in_degrees exts)).
Proof.
  unfold zero_degree_names, sort_names. rewrite merge_sort_Permutation.
  eapply sublist_NoDup; [apply (NoDup_fst_map_to_list (in_degrees exts))|]. apply fmap_sublist, sublist_filter.
Qed.

(** Kahn's loop never panics; it emits, dependencies first, the extensions
    that lead to no cycle. *)
Lemma emitted_spec :
  ∃ order, kahn (dependents exts) sort_names (S (length exts)) (in_degrees exts)
      (zero_degree_names (in_degrees exts)) [] = Some order ∧
    NoDup order ∧ topological (dependents exts) nodes order ∧
    ∀ v, v ∈ order ↔ v ∈ nodes ∧ Acc dep_edge v.
Proof.
  apply (kahn_spec (S := gmap string nat) (dependents exts) sort_names nodes).
  - apply NoDup_elements.
  - intros u v _ (e&He&<-&_)%elem_of_dependents. apply elem_of_elements, elem_of_known.
    by apply list_elem_of_fmap_2.
  - intros l. apply merge_sort_Permutation.
  - intros v Hv%elem_of_elements. simpl. by rewrite in_degrees_lookup, decide_True.
  - apply zero_names_nodup.
  - apply zero_names_spec.
  - change (length nodes) with (size (known exts)). unfold known.
    etransitivity; [apply size_list_to_set_le|]. rewrite length_fmap. lia.
Qed.
(** ** Cycles *)

(** A closed walk along declared dependencies. *)
Definition dependency_cycle (c : list string) : Prop :=
  ∃ x l, c = x :: l ++ [x] ∧ ∀ i u v, c !! i = Some u → c !! S i = Some v → depends u v.

Lemma involved_deps_depends involved u v :
  involved ⊆ known exts → v ∈ involved_deps exts involved u → u ∈ involved ∧ v ∈ involved ∧ depends u v.
Proof.
  intros Hsub. unfold involved_deps. destruct (last _) as [e|] eqn:Hl; [|set_solver].
  case_decide; [|set_solver]. rewrite elem_of_sort_names, list_elem_of_filter. intros [Hv Hd].
  split_and!; [done|done|]. split; [by apply Hsub|].
  apply last_Some_elem_of, list_elem_of_filter in Hl as [? ?]. eauto.
Qed.

Lemma unique_extension e e' :
  NoDup (ext_name <$> exts) → e ∈ exts → e' ∈ exts → ext_name e = ext_name e' → e = e'.
Proof.
  intros Hnd [i Hi]%list_elem_of_lookup [j Hj]%list_elem_of_lookup Heq.
  assert (i = j) as <-; [|congruence].
  eapply (NoDup_lookup (ext_name <$> exts)); [done|by rewrite list_lookup_fmap, Hi|].
  by rewrite list_lookup_fmap, Hj, Heq.
Qed.
Lemma depends_involved involved u v :
  NoDup (ext_name <$> exts) → u ∈ involved → v ∈ involved → depends u v →
  v ∈ involved_deps exts involved u.
Proof.
  intros Hnd Hu Hv (_&e&He&Hn&Hd). unfold involved_deps.
  assert (e ∈ filter (λ e, ext_name e = u) exts) as Hin by by apply list_elem_of_filter.
  destruct (last (filter (λ e, ext_name e = u) exts)) as [e'|] eqn:Hl.
  - apply last_Some_elem_of, list_elem_of_filter in Hl as [Hn' He'].
    assert (e' = e) as -> by (apply unique_extension; congruence).
    rewrite decide_True, elem_of_sort_names, list_elem_of_filter by done. done.
  - apply last_None in Hl. rewrite Hl in Hin. by apply not_elem_of_nil in Hin.
Qed.

(** What [compute_topological_order] promises. *)
Lemma compute_spec :
  ∃ order cs, compute_topological_order exts
      = Some (order ++ sort_names (elements (known exts ∖ list_to_set order)), cs) ∧
    NoDup order ∧ topological (dependents exts) nodes order ∧
    (∀ v, v ∈ order ↔ v ∈ nodes ∧ Acc dep_edge v) ∧ Forall dependency_cycle cs ∧
    (NoDup (ext_name <$> exts) → cs = [] ↔ ∀ v, ¬ tc depends v v).
Proof.
  destruct emitted_spec as (order&Hk&Hnd&Htopo&Hin).
  unfold compute_topological_order. rewrite Hk.
  set (remaining := known exts ∖ list_to_set order).
  assert (∀ v, v ∈ remaining ↔ v ∈ known exts ∧ ¬ Acc dep_edge v) as Hrem.
  { intros v. unfold remaining. rewrite elem_of_difference, elem_of_list_to_set, Hin, elem_of_elements.
    tauto. }
  assert (remaining = ∅ ↔ ∀ v, ¬ tc depends v v) as Hempty.
  { transitivity (∀ v, v ∈ nodes → Acc dep_edge v).
    - split; [|intros Hacc; apply set_eq; intros v; rewrite Hrem, <-elem_of_elements; set_solver].
      intros He v Hv%elem_of_elements. destruct (decide (v ∈ order)) as [Ho|Ho]; [by apply Hin in Ho as [_ ?]|].
      assert (v ∈ remaining) as Hr by (unfold remaining; set_solver). rewrite He in Hr. set_solver.
    - rewrite <-acyclic_acc. split; intros H v Hv; apply (H v).
      + by apply tc_dep_edge.
      + by apply tc_dep_edge in Hv. }
  destruct (decide (remaining = ∅)) as [He|He].
  { exists order, []. split_and!; [done..|constructor|]. intros _. by rewrite <-Hempty. }
  destruct (find_cycles_spec exts remaining) as (cs&->&Hcw&Hacc).
  exists order, cs. split_and!; [done..| |].
  - eapply Forall_impl; [exact Hcw|]. intros c (x&l&->&Hw). exists x, l. split; [done|].
    intros i u v Hu Hv. eapply (involved_deps_depends remaining); [unfold remaining; set_solver|by eapply Hw].
  - intros Hndn. rewrite <-Hempty. split; [|done]. intros Hnil. exfalso. apply He, set_eq. intros v.
    split; [|set_solver]. intros Hv. exfalso. specialize (Hacc Hnil v Hv).
    assert (∀ v, Acc (needs (involved_deps exts remaining)) v → v ∈ remaining → False) as H; [|by eapply H].
    clear v Hv Hacc. intros v Hacc. induction Hacc as [v _ IH]. intros Hv.
    apply Hrem in Hv as Hv'. destruct Hv' as [Hkv Hno]. apply Hno. constructor. intros u Hu.
    destruct (decide (u ∈ order)) as [Ho|Ho]; [by apply Hin in Ho as [_ ?]|exfalso].
    apply dep_edge_depends in Hu. apply depends_known in Hu as Hku. destruct Hku as [_ Hku].
    assert (u ∈ remaining) as Hur by (unfold remaining; set_solver).
    apply (IH u); [|done]. by apply depends_involved.
Qed.
End order.

(** ** Properties *)

Section properties.
Context `{SemverApi Version VersionReq}.

(** The load order is total and respects dependencies wherever it can: for
    distinct extension names the validation always answers, its load order lists
    every extension exactly once, first those that lead to no cycle, each after
    all the extensions it depends on, and then the others in name order. *)
Theorem ext_load_order_exact exts :
  NoDup (ext_name <$> exts) →
  ∃ r, validate_dependencies exts = Some r ∧ load_order r ≡ₚ (ext_name <$> exts) ∧
  ∃ emitted rest, load_order r = emitted ++ rest ∧ StronglySorted string_le rest ∧
    (∀ v, v ∈ emitted ↔ (v ∈ ext_name <$> exts) ∧
       ¬ ∃ c, tc (depends exts) c c ∧ rtc (depends exts) v c) ∧
    ∀ l1 v l2 d, emitted = l1 ++ v :: l2 → depends exts v d → d ∈ l1.
Proof.
  intros Hnd. destruct (compute_spec exts) as (order&cs&Hc&Hndo&Htopo&Hin&_&_).
  unfold validate_dependencies. rewrite Hc. eexists. split; [done|]. cbn [load_order].
  assert (∀ v, v ∈ order → v ∈ known exts) as Hsub by (intros v [Hv _]%Hin; by apply elem_of_elements).
  split.
  - transitivity (elements (known exts)).
    + unfold sort_names. rewrite merge_sort_Permutation.
      rewrite <-(elements_list_to_set (C := gset string) order) at 1 by done.
      rewrite <-elements_disj_union by set_solver.
      apply NoDup_Permutation; [apply NoDup_elements..|]. intros v. rewrite !elem_of_elements.
      destruct (decide (v ∈ order)); set_solver.
    + unfold known. by apply elements_list_to_set.
  - exists order, (sort_names (elements (known exts ∖ list_to_set order))). split_and!; [done| | |].
    + apply StronglySorted_merge_sort; apply _.
    + intros v. rewrite Hin, elem_of_elements, elem_of_known. rewrite acc_no_cycle.
      setoid_rewrite tc_dep_edge. by setoid_rewrite rtc_dep_edge.
    + intros l1 v l2 d Heq Hd. apply (Htopo l1 v l2 Heq). by apply dep_edge_depends.
Qed.

(** The verdict is exact and the reported cycles are genuine: for distinct
    extension names the set is valid if and only if every declared dependency is
    installed in a matching version and no extension depends on itself through
    others, and every reported cycle is a closed walk along declared dependencies. *)
Theorem ext_validation_exact exts :
  NoDup (ext_name <$> exts) →
  ∃ r, validate_dependencies exts = Some r ∧
  (valid r = true ↔
     (∀ e d req, e ∈ exts → ext_deps e !! d = Some req →
        ∃ e', e' ∈ exts ∧ ext_name e' = d ∧ version_matches req (ext_version (manifest e')) = true) ∧
     ∀ v, ¬ tc (depends exts) v v) ∧
  ∀ c, Circular c ∈ issues r → dependency_cycle exts c.
Proof.
  intros Hnd. destruct (compute_spec exts) as (order&cs&Hc&_&_&_&Hcs&Hnil). specialize (Hnil Hnd).
  unfold validate_dependencies. rewrite Hc. eexists. split; [done|]. cbn [valid issues].
  assert (∀ i, i ∈ declared_issues exts ↔ ∃ e d req, e ∈ exts ∧ ext_deps e !! d = Some req ∧
    dependency_issue (installed_versions exts) e (d, req) = Some i) as Hdecl.
  { intros i. unfold declared_issues. rewrite list_elem_of_join. setoid_rewrite list_elem_of_fmap. split.
    - intros (l&Hi&e&->&He). apply list_elem_of_omap in Hi as ([d req]&Hd%elem_of_map_to_list&Hi). eauto 10.
    - intros (e&d&req&He&Hd&Hi). eexists. split; [|by exists e]. apply list_elem_of_omap.
      exists (d, req). by rewrite elem_of_map_to_list. }
  split.
  - rewrite bool_decide_eq_true, app_nil.
    assert (Circular <$> cs = [] ↔ cs = []) as -> by (destruct cs; done). rewrite Hnil.
    apply and_iff_compat_r. split.
    + intros Hno e d req He Hd. 
      destruct (dependency_issue (installed_versions exts) e (d, req)) as [i|] eqn:Hi.
      { assert (i ∈ declared_issues exts) as Hin by (apply Hdecl; eauto 10).
        rewrite Hno in Hin. by apply not_elem_of_nil in Hin. }
      unfold dependency_issue in Hi. cbn [fst snd] in Hi.
      destruct (installed_versions exts !! d) as [actual|] eqn:Ha; [|done].
      destruct (version_matches req actual) eqn:Hm; [|done].
      apply foldl_insert_lookup in Ha as [(e'&?&?&<-)|[_ Ha]]; [eauto| |done].
      by rewrite lookup_empty in Ha.
    + intros Hall. destruct (declared_issues exts) as [|i l] eqn:Hi; [done|]. exfalso.
      assert (i ∈ i :: l) as Hin by left. apply Hdecl in Hin as (e&d&req&He&Hd&Hi').
      destruct (Hall e d req He Hd) as (e'&He'&Hn&Hm). unfold dependency_issue in Hi'. cbn [fst snd] in Hi'.
      assert (installed_versions exts !! d = Some (ext_version (manifest e'))) as Ha
        by (apply foldl_insert_lookup; [done|left; eauto]).
      by rewrite Ha, Hm in Hi'.
  - intros c [Hin|(c'&[= <-]&Hc')%list_elem_of_fmap]%elem_of_app.
    + apply Hdecl in Hin as (e&d&req&_&_&Hi). unfold dependency_issue in Hi. by repeat case_match.
    + rewrite Forall_forall in Hcs. auto.
Qed.
End properties.

(** ** Witnesses *)

(** A version library with exact versions only. *)
#[export] Instance exact_versions : SemverApi string string := {
  version_parse v := Some v;
  version_req_parse r := Some r;
  req_matches r v := bool_decide (r = "=" +:+ v);
}.
Definition demo_ext (id : string) (deps : list (string * string)) : LoadedExtension :=
  mkExtension (mkManifest id "1.0.0" (list_to_map deps)).
Definition demo_chain : list LoadedExtension :=
  [demo_ext "app" [("ui", "1.0.0"); ("core", "1.0.0")]; demo_ext "ui" [("core", "1.0.0")];
   demo_ext "core" []].
Definition demo_tangle : list LoadedExtension :=
  [demo_ext "a" [("b", "1.0.0")]; demo_ext "b" [("x", "1.0.0")]; demo_ext "x" [("y", "1.0.0")];
   demo_ext "y" [("x", "1.0.0")]].

Lemma ext_load_order_exact_witness :
  load_order <$> validate_dependencies demo_chain = Some ["core"; "ui"; "app"] ∧
  ∃ r, validate_dependencies demo_chain = Some r ∧ load_order r ≡ₚ ["app"; "ui"; "core"].
Proof.
  split; [vm_compute; reflexivity|].
  destruct (ext_load_order_exact demo_chain) as (r&Hr&Hp&_); [|exists r; split; [exact Hr|exact Hp]].
  apply (bool_decide_unpack _). vm_compute. exact I.
Defined.

Lemma ext_validation_exact_witness :
  valid <$> validate_dependencies demo_tangle = Some false ∧
  ∃ r, validate_dependencies demo_tangle = Some r ∧
    ∀ c, Circular c ∈ issues r → dependency_cycle demo_tangle c.
Proof.
  split; [vm_compute; reflexivity|].
  destruct (ext_validation_exact demo_tangle) as (r&Hr&_&Hc); [|exists r; split; [exact Hr|exact Hc]].
  apply (bool_decide_unpack _). vm_compute. exact I.
Defined.

(** An extension that merely leads to a cycle is loaded in name order with
    the cyclic ones, here before the extension it depends on, although neither
    of the two is on a cycle. *)
Example ext_order_below_cycle :
  load_order <$> validate_dependencies demo_tangle = Some ["a"; "b"; "x"; "y"] ∧
  depends demo_tangle "a" "b" ∧
  (issues <$> validate_dependencies demo_tangle) = Some [Circular ["x"; "y"; "x"]].
Proof.
  split_and!; [vm_compute; reflexivity| |vm_compute; reflexivity]. split.
  - apply (bool_decide_unpack _). vm_compute. exact I.
  - exists (demo_ext "a" [("b", "1.0.0")]). split_and!; [left|done|].
    apply (bool_decide_unpack _). vm_compute. exact I.
Qed.
