(* ===== verification/IdmmPolicy.v ===== *)
(** The intervention policy of the supervisor of stalled sessions
    (crates/backend/nomifun-idmm/src/policy.rs, with signal.rs, config.rs and
    the configuration of nomifun-api-types/src/idmm.rs): routing to two watches,
    per-watch budgets, the escalation ladder, and the turn boundaries.  Instants
    and durations are nanoseconds. *)
From S2P Require Import Prelude.
From Stdlib Require Import Floats.SpecFloat.

(** ** Configuration *)

Inductive IdmmTargetKind := TargetConversation | TargetTerminal.
Inductive WatchTier := RuleOnly | RulePlusModel.
#[export] Instance WatchTier_eq_dec : EqDecision WatchTier.
Proof. solve_decision. Defined.
Inductive ScanScope := LastTurn | LastMessages | FullSession.
Inductive WakeStrategy := WakeRetry | WakeFailover | WakeFailoverThenRetry.
Inductive Tendency := Conservative | Balanced | Aggressive.
#[export] Instance Tendency_eq_dec : EqDecision Tendency.
Proof. solve_decision. Defined.
Inductive BlockedBehavior := PreferContinue | PreferPause | MustAsk.
Inductive CategoryMode := ModeAuto | ModeAskFirst | ModeOff.
#[export] Instance CategoryMode_eq_dec : EqDecision CategoryMode.
Proof. solve_decision. Defined.

Record BudgetConfig := mkBudget { max_interventions_per_hour : N; min_interval_secs : N }.
Record BypassModelRef := mkBypass { bm_provider_id : option string; bm_model : option string }.
Record WatchBase := mkWatch {
  enabled : bool;
  tier : WatchTier;
  scan_interval_secs : N;
  max_retries : N;
  scan_scope : ScanScope;
  max_context_chars : N;
  bypass_model : BypassModelRef;
  budget : BudgetConfig;
}.
Record FaultWatchConfig := mkFaultWatch {
  fw_base : WatchBase;
  wake_action : WakeStrategy;
  use_failover_queue : bool;
}.
Record OptionRule := mkOptionRule {
  or_mode : CategoryMode;
  prefer_recommended : bool;
  allow_unmarked_pick : bool;
  never_destructive : bool;
}.
Record OpenQuestionRule := mkOpenQuestionRule { oq_mode : CategoryMode; max_answer_chars : N }.
Record PermissionRule := mkPermissionRule {
  pr_mode : CategoryMode;
  only_safe_value : bool;
  escalate_risky : bool;
}.
Record CategoryRules := mkCategoryRules {
  option_decision : OptionRule;
  open_question : OpenQuestionRule;
  permission_rule : PermissionRule;
}.
Record DecisionStrategy := mkStrategy {
  tendency : Tendency;
  on_blocked : BlockedBehavior;
  categories : CategoryRules;
  freeform_policy : option string;
}.
Record DecisionWatchConfig := mkDecisionWatch {
  dw_base : WatchBase;
  strategy : DecisionStrategy;
  answer_open_questions : bool;
}.
Record IdmmConfig := mkIdmmConfig {
  fault_watch : FaultWatchConfig;
  decision_watch : DecisionWatchConfig;
}.

(** The defaults. *)
Definition BudgetConfig_default : BudgetConfig := mkBudget 30 20.
Definition WatchBase_default : WatchBase :=
  mkWatch false RuleOnly 60 5 LastTurn 8000 (mkBypass None None) BudgetConfig_default.
Definition OptionRule_default : OptionRule := mkOptionRule ModeAuto true true true.
Definition OpenQuestionRule_default : OpenQuestionRule := mkOpenQuestionRule ModeAuto 600.
Definition PermissionRule_default : PermissionRule := mkPermissionRule ModeAuto true true.
Definition DecisionStrategy_default : DecisionStrategy :=
  mkStrategy Balanced PreferContinue
    (mkCategoryRules OptionRule_default OpenQuestionRule_default PermissionRule_default) None.
Definition IdmmConfig_default : IdmmConfig :=
  mkIdmmConfig (mkFaultWatch WatchBase_default WakeRetry false)
    (mkDecisionWatch WatchBase_default DecisionStrategy_default true).

(** ** Signals and actions *)

Inductive DecisionSource := TerminalScan | TextScan | PermissionEvent.
Inductive DecisionKind := Options_ | OpenQuestion_.
#[export] Instance DecisionKind_eq_dec : EqDecision DecisionKind.
Proof. solve_decision. Defined.
Record PermissionConfirm := mkPermission {
  call_id : string;
  perm_options : list (string * string);
  safe_value : option string;
}.
Record DecisionPrompt := mkPrompt {
  dp_text : string;
  dp_options : list string;
  recommended : option string;
  dp_source : DecisionSource;
  dp_kind : DecisionKind;
  permission : option PermissionConfirm;
}.
(** The provider error's code is left out: the policy never reads it. *)
Inductive SessionSignal :=
| Working
| ProviderError (retryable : option bool) (message : string)
| AgentError (retryable : option bool) (message : string)
| Idle
| Decision_ (dp : DecisionPrompt)
| Done
| Cancelled
| Exited.
Inductive StallClass := StallProviderError | StallIdle | StallDecision | StallOpenQuestion.
Definition class_str (c : StallClass) : string :=
  match c with
  | StallProviderError => "provider_error" | StallIdle => "idle"
  | StallDecision => "decision" | StallOpenQuestion => "open_question"
  end.
Inductive WakeAction :=
| Retry
| SendText (text : string)
| AnswerChoice (text : string)
| Confirm (confirm_call_id value : string) (always_allow : bool)
| Failover
| Wait (delay : N)
| Stop (reason : string).

Inductive WatchLane := LaneFault | LaneDecision.
#[export] Instance WatchLane_eq_dec : EqDecision WatchLane.
Proof. solve_decision. Defined.
Inductive PolicyStep :=
| Rule (a : WakeAction)
| Sidecar (class : StallClass) (detail : string)
| Halt (reason : string)
| Standby.
Inductive SidecarStep :=
| Apply (a : WakeAction)
| SidecarHalt (reason : string)
| Fallback.

(** ** State *)

Definition secs (n : N) : N := (n * 1000000000)%N.
Definition BACKOFF_LADDER : list N := [secs 10; secs 30; secs 120; secs 300].

Record WatchRuntime := mkRuntime { window : list N; last_intervention : option N }.
Record PolicyState := mkPolicyState {
  cfg : IdmmConfig;
  target : IdmmTargetKind;
  fault_rt : WatchRuntime;
  decision_rt : WatchRuntime;
  retries : gmap string N;
  backoff_step : nat;
  work_in_progress : bool;
  suppressed_after_done : bool;
  suppressed_after_cancel : bool;
}.
Definition with_kind (c : IdmmConfig) (k : IdmmTargetKind) : PolicyState :=
  mkPolicyState c k (mkRuntime [] None) (mkRuntime [] None) ∅ 0 false false false.

Definition lane_for (sig : SessionSignal) : WatchLane :=
  match sig with ProviderError _ _ | AgentError _ _ => LaneFault | _ => LaneDecision end.
Definition base_for (s : PolicyState) (lane : WatchLane) : WatchBase :=
  match lane with
  | LaneFault => fw_base (fault_watch (cfg s))
  | LaneDecision => dw_base (decision_watch (cfg s))
  end.
Definition watch_enabled (s : PolicyState) (sig : SessionSignal) : bool :=
  enabled (base_for s (lane_for sig)).
Definition has_sidecar (s : PolicyState) (lane : WatchLane) : bool :=
  bool_decide (tier (base_for s lane) = RulePlusModel).
Definition runtime (s : PolicyState) (lane : WatchLane) : WatchRuntime :=
  match lane with LaneFault => fault_rt s | LaneDecision => decision_rt s end.
Definition set_runtime (s : PolicyState) (lane : WatchLane) (rt : WatchRuntime) : PolicyState :=
  match lane with
  | LaneFault => mkPolicyState (cfg s) (target s) rt (decision_rt s) (retries s) (backoff_step s)
      (work_in_progress s) (suppressed_after_done s) (suppressed_after_cancel s)
  | LaneDecision => mkPolicyState (cfg s) (target s) (fault_rt s) rt (retries s) (backoff_step s)
      (work_in_progress s) (suppressed_after_done s) (suppressed_after_cancel s)
  end.
Definition set_retries (s : PolicyState) (r : gmap string N) : PolicyState :=
  mkPolicyState (cfg s) (target s) (fault_rt s) (decision_rt s) r (backoff_step s)
    (work_in_progress s) (suppressed_after_done s) (suppressed_after_cancel s).
Definition set_backoff (s : PolicyState) (n : nat) : PolicyState :=
  mkPolicyState (cfg s) (target s) (fault_rt s) (decision_rt s) (retries s) n
    (work_in_progress s) (suppressed_after_done s) (suppressed_after_cancel s).
Definition set_turn (s : PolicyState) (work after_done after_cancel : bool) : PolicyState :=
  mkPolicyState (cfg s) (target s) (fault_rt s) (decision_rt s) (retries s) (backoff_step s)
    work after_done after_cancel.

Definition next_delay (s : PolicyState) : N :=
  default 0%N (BACKOFF_LADDER !! Nat.min (backoff_step s) (length BACKOFF_LADDER - 1)).

(** ** Budget *)

(** [Instant::duration_since] saturates at zero, as [N]'s subtraction. *)
Fixpoint prune (w : list N) (now : N) : list N :=
  match w with
  | [] => []
  | front :: w' => if (secs 3600 <? now - front)%N then prune w' now else w
  end.
Definition prune_window (rt : WatchRuntime) (now : N) : WatchRuntime :=
  mkRuntime (prune (window rt) now) (last_intervention rt).

Definition budget_ok (s : PolicyState) (lane : WatchLane) (now : N) (is_blocking_decision : bool) :
    PolicyState * result unit string :=
  let b := budget (base_for s lane) in
  let rt := prune_window (runtime s lane) now in
  let s := set_runtime s lane rt in
  (s,
   if (max_interventions_per_hour b <=? N.of_nat (length (window rt)) mod 4294967296)%N
   then Err "budget_exhausted"
   else if negb is_blocking_decision
           && match last_intervention rt with
              | Some last => (now - last <? secs (min_interval_secs b))%N
              | None => false
              end
   then Err "min_interval" else Ok ()).

(** The [u32] counter is left unbounded: it counts stalls since the last finish. *)
Definition bump_retry (s : PolicyState) (c : StallClass) : PolicyState * N :=
  let n := (default 0 (retries s !! class_str c) + 1)%N in
  (set_retries s (<[class_str c := n]> (retries s)), n).

(** ** Text guards *)

Section guards.
(** [str::to_lowercase] uses the Unicode case tables. *)
Context (to_lowercase : string → string).

Definition DESTRUCTIVE_SIGS : list string :=
  ["rm -rf"; "rm -fr"; "drop table"; "drop database"; "truncate"; "delete from"; "force push";
   "push --force"; "push -f"; "reset --hard"; "git clean -"; "mkfs"; "dd if="; "> /dev/"].
Definition is_destructive (text : string) : bool :=
  existsb (contains_str (to_lowercase text)) DESTRUCTIVE_SIGS.
Definition CANCEL_SIGS : list string :=
  ["取消"; "放弃"; "跳过"; "稍后"; "暂不"; "退出"; "以后再"; "什么都不"; "都不选"; "不需要"; "cancel";
   "skip"; "abort"; "quit"; "go back"; "none of"; "do nothing"; "nevermind"; "never mind"].
Definition is_cancel_option (text : string) : bool :=
  existsb (contains_str (to_lowercase text)) CANCEL_SIGS.
Definition first_safe_option (options : list string) (allow_destructive : bool) : option string :=
  find (λ o, negb (is_cancel_option o) && (allow_destructive || negb (is_destructive o))) options.
Definition decision_detail (dp : DecisionPrompt) : string :=
  match dp_options dp with
  | [] => "decision prompt: " +:+ dp_text dp
  | options => "decision prompt: " +:+ dp_text dp +:+ " | options: " +:+ join " || " options
  end.

(** ** The ladder *)

Definition on_fault (s : PolicyState) (lane : WatchLane) (class : StallClass)
    (retryable : option bool) : PolicyState * PolicyStep :=
  match retryable with
  | Some false =>
      (s, if has_sidecar s lane then Sidecar class "non-retryable provider/agent error"
          else Halt "non_retryable_provider_error")
  | _ =>
      let '(s, n) := bump_retry s class in
      (s, if (n <=? max_retries (base_for s lane))%N
          then Rule (if use_failover_queue (fault_watch (cfg s)) then Failover else Retry)
          else if has_sidecar s lane
          then Sidecar class "provider/agent error persisted after rule retries"
          else Halt "provider_error_retries_exhausted")
  end.

Definition permission_step (s : PolicyState) (lane : WatchLane) (dp : DecisionPrompt)
    (perm : PermissionConfirm) : PolicyStep :=
  let rule := permission_rule (categories (strategy (decision_watch (cfg s)))) in
  if negb (bool_decide (pr_mode rule = ModeAuto)) then Halt "permission_mode_not_auto" else
  match (if only_safe_value rule then safe_value perm else None) with
  | Some value => Rule (Confirm (call_id perm) value false)
  | None =>
      if escalate_risky rule && has_sidecar s lane then
        Sidecar StallDecision
          ("tool permission: " +:+ dp_text dp +:+ " | options (label => value): "
           +:+ join " || " ((λ lv, lv.1 +:+ " => " +:+ lv.2) <$> perm_options perm))
      else Halt "permission_decision_no_sidecar"
  end.

Definition option_step (s : PolicyState) (lane : WatchLane) (dp : DecisionPrompt) : PolicyStep :=
  let strat := strategy (decision_watch (cfg s)) in
  let opt := option_decision (categories strat) in
  if negb (bool_decide (or_mode opt = ModeAuto)) then
    if has_sidecar s lane then Sidecar StallDecision (decision_detail dp)
    else Halt "option_mode_not_auto"
  else
  let allow_destructive := negb (never_destructive opt) in
  let accept := match recommended dp with
                | Some rec => if prefer_recommended opt && (allow_destructive || negb (is_destructive rec))
                              then Some rec else None
                | None => None
                end in
  match accept with
  | Some rec => Rule (AnswerChoice rec)
  | None =>
      let dares_unmarked_pick :=
        allow_unmarked_pick opt && negb (bool_decide (tendency strat = Conservative)) in
      match (if dares_unmarked_pick then first_safe_option (dp_options dp) allow_destructive else None) with
      | Some pick => Rule (AnswerChoice pick)
      | None =>
          if has_sidecar s lane then Sidecar StallDecision (decision_detail dp)
          else Halt (match on_blocked strat with
                     | MustAsk => "ambiguous_decision_must_ask"
                     | _ => "ambiguous_decision_no_sidecar"
                     end)
      end
  end.
Definition on_decision (s : PolicyState) (lane : WatchLane) (dp : DecisionPrompt) : PolicyStep :=
  match permission dp with
  | Some perm => permission_step s lane dp perm
  | None => option_step s lane dp
  end.

Definition on_open_question (s : PolicyState) (lane : WatchLane) (dp : DecisionPrompt) : PolicyStep :=
  let dw := decision_watch (cfg s) in
  if has_sidecar s lane && answer_open_questions dw
     && bool_decide (oq_mode (open_question (categories (strategy dw))) = ModeAuto)
  then Sidecar StallOpenQuestion ("open question: " +:+ dp_text dp)
  else Halt "open_question_not_answerable_by_rule".

Definition idle_is_standby (s : PolicyState) : bool := negb (work_in_progress s).

(** The final [match] of [on_stall]. *)
Definition stall_step (s : PolicyState) (sig : SessionSignal) : PolicyState * PolicyStep :=
  let lane := lane_for sig in
  match sig with
  | ProviderError retryable _ => on_fault s lane StallProviderError retryable
  | AgentError retryable _ => on_fault s lane StallProviderError retryable
  | Idle =>
      if idle_is_standby s then (s, Standby) else
      let '(s, n) := bump_retry s StallIdle in
      (s, if (n <=? max_retries (base_for s lane))%N then Rule (SendText "continue")
          else if has_sidecar s lane then Sidecar StallIdle "session idle after nudges"
          else Halt "idle_nudges_exhausted")
  | Decision_ dp =>
      (s, if bool_decide (dp_kind dp = OpenQuestion_) then on_open_question s lane dp
          else on_decision s lane dp)
  | Working | Done | Cancelled | Exited => (s, Rule (Wait 0))
  end.
Definition on_stall (s : PolicyState) (now : N) (sig : SessionSignal) : PolicyState * PolicyStep :=
  if suppressed_after_cancel s || suppressed_after_done s then (s, Standby) else
  if negb (watch_enabled s sig) then (s, Standby) else
  let is_blocking_decision := match sig with Decision_ _ => true | _ => false end in
  let '(s, ok) := budget_ok s (lane_for sig) now is_blocking_decision in
  match ok with
  | Err reason =>
      (s, if bool_decide (reason = "budget_exhausted") then Halt "budget_exhausted"
          else Rule (Wait (next_delay s)))
  | Ok _ => stall_step s sig
  end.

(** ** The bypass model's answer *)

(** [f32]: IEEE binary32; the floor is [0.4f32]. *)
Definition CONFIDENCE_FLOOR : spec_float := S754_finite false 13421773 (-25).
Record SidecarDecision := mkSidecar {
  action : string;
  text : string;
  wait_secs : N;
  confidence : spec_float;
  reason : string;
}.
Definition sidecar_action (dec : SidecarDecision) : result WakeAction string :=
  if bool_decide (action dec = "retry") then Ok Retry
  else if bool_decide (action dec = "send_text") then Ok (SendText (text dec))
  else if bool_decide (action dec = "answer_choice") then Ok (AnswerChoice (text dec))
  else if bool_decide (action dec = "answer_text") then Ok (SendText (text dec))
  else if bool_decide (action dec = "wait") then Ok (Wait (secs (wait_secs dec)))
  else if bool_decide (action dec = "stop")
  then Err (if bool_decide (reason dec = "") then "sidecar_requested_stop" else reason dec)
  else Err ("unknown_sidecar_action:" +:+ action dec).
Definition on_sidecar (s : PolicyState) (dec : SidecarDecision) : SidecarStep :=
  match sidecar_action dec with
  | Err why => SidecarHalt why
  | Ok a =>
      let veto := never_destructive (option_decision (categories (strategy (decision_watch (cfg s))))) in
      if veto && match a with SendText t | AnswerChoice t => is_destructive t | _ => false end
      then SidecarHalt "destructive_withheld"
      else if SFltb (confidence dec) CONFIDENCE_FLOOR then Fallback
      else Apply a
  end.

Definition conservative_fallback (sig : SessionSignal) : WakeAction :=
  match sig with
  | Decision_ dp =>
      if bool_decide (dp_kind dp = OpenQuestion_) then Stop "open_question_unanswerable_fallback" else
      match permission dp with
      | Some perm =>
          match safe_value perm with
          | Some v => Confirm (call_id perm) v false
          | None => Stop "permission_unanswerable_fallback"
          end
      | None =>
          match recommended dp with
          | Some rec => AnswerChoice rec
          | None =>
              match first_safe_option (dp_options dp) false with
              | Some pick => AnswerChoice pick
              | None => Stop "decision_unanswerable_fallback"
              end
          end
      end
  | _ => Retry
  end.

(** [finalize_action] and [run_sidecar] of supervisor.rs: what is done with the
    bypass model's outcome, [None] for a failed provider or an answer that does
    not parse. *)
Definition finalize_action (sig : SessionSignal) (a : WakeAction) : WakeAction :=
  match sig with
  | Decision_ dp =>
      match permission dp with
      | Some perm =>
          match a with
          | AnswerChoice t | SendText t =>
              let matched := snd <$> find (λ lv, bool_decide (lv.2 = t) || bool_decide (lv.1 = t))
                                          (perm_options perm) in
              match (match matched with Some v => Some v | None => safe_value perm end) with
              | Some v => Confirm (call_id perm) v false
              | None => Stop "sidecar_permission_unmatched"
              end
          | other => other
          end
      | None => a
      end
  | _ => a
  end.
Inductive SidecarEffect :=
| BySidecar (a : WakeAction)
| ByRuleFallback (a : WakeAction) (why : string)
| SidecarHalted (why : string).
Definition run_sidecar (s : PolicyState) (sig : SessionSignal) (provider_failed : bool)
    (decision : option SidecarDecision) : SidecarEffect :=
  match decision with
  | Some dec =>
      if provider_failed
      then ByRuleFallback (conservative_fallback sig) "sidecar_provider_unavailable" else
      match on_sidecar s dec with
      | Apply a => BySidecar (finalize_action sig a)
      | SidecarHalt why => SidecarHalted why
      | Fallback => ByRuleFallback (conservative_fallback sig) "low_confidence_rulefallback"
      end
  | None =>
      ByRuleFallback (conservative_fallback sig)
        (if provider_failed then "sidecar_provider_unavailable" else "sidecar_unparseable_response")
  end.
End guards.

(** ** Progress *)

Definition record_for (s : PolicyState) (now : N) (sig : SessionSignal) : PolicyState :=
  let lane := lane_for sig in
  let rt := runtime s lane in
  let s := set_runtime s lane (mkRuntime (window rt ++ [now]) (Some now)) in
  set_backoff s (Nat.min (backoff_step s + 1) (length BACKOFF_LADDER - 1)).
Definition on_progress (s : PolicyState) (sig : SessionSignal) : PolicyState :=
  let s := set_backoff s 0 in
  match sig with
  | Working => set_turn s true false false
  | Done => set_turn (set_retries s ∅) false true (suppressed_after_cancel s)
  | _ => s
  end.
Definition on_user_cancel (s : PolicyState) : PolicyState :=
  set_backoff (set_retries (set_turn s false (suppressed_after_done s) true) ∅) 0.
Definition peek_standby (s : PolicyState) (sig : SessionSignal) : bool :=
  suppressed_after_cancel s || suppressed_after_done s || negb (watch_enabled s sig)
  || (match sig with Idle => true | _ => false end && idle_is_standby s).
