(* ===== verification/IdmmTheorems.v ===== *)
(** Properties of the intervention policy: the turn boundary, the hourly
    budget and minimum interval, and what the rule tier and the bypass model may
    do. *)
From S2P Require Import Prelude IdmmPolicy.
From Stdlib Require Import Floats.SpecFloat.

Section runs.
Context (to_lowercase : string → string).

(** The supervisor's calls on one policy state. *)
Inductive idmm_call :=
| CallStall (now : N) (sig : SessionSignal)
| CallRecord (now : N) (sig : SessionSignal)
| CallProgress (sig : SessionSignal)
| CallCancel.
Definition idmm_step (s : PolicyState) (k : idmm_call) : PolicyState :=
  match k with
  | CallStall now sig => (on_stall to_lowercase s now sig).1
  | CallRecord now sig => record_for s now sig
  | CallProgress sig => on_progress s sig
  | CallCancel => on_user_cancel s
  end.
Definition idmm_run (s : PolicyState) (ks : list idmm_call) : PolicyState := foldl idmm_step s ks.

(** ** Turn boundaries *)

Definition closed_turn (s : PolicyState) : Prop :=
  suppressed_after_done s = true ∨ suppressed_after_cancel s = true.

Lemma on_stall_closed s now sig : closed_turn s → on_stall to_lowercase s now sig = (s, Standby).
Proof. intros [H|H]; unfold on_stall; rewrite H; [by rewrite orb_true_r|done]. Qed.

Lemma closed_step s k : closed_turn s → k ≠ CallProgress Working → closed_turn (idmm_step s k).
Proof.
  intros Hc Hk. destruct k as [now sig|now sig|sig|]; simpl.
  - by rewrite on_stall_closed.
  - unfold record_for, set_backoff, set_runtime. by destruct (lane_for sig).
  - destruct sig; try exact Hc; [done|by left].
  - by right.
Qed.
Lemma closed_run s ks :
  closed_turn s → Forall (λ k, k ≠ CallProgress Working) ks → closed_turn (idmm_run s ks).
Proof.
  intros Hc Hks. revert s Hc. induction Hks as [|k ks Hk _ IH]; intros s Hc; [done|].
  simpl. by apply IH, closed_step.
Qed.

(** ** The budget window *)

Definition call_time (k : idmm_call) : option N :=
  match k with CallStall now _ | CallRecord now _ => Some now | _ => None end.
(** The times of the interventions recorded for a lane. *)
Definition recorded (lane : WatchLane) (ks : list idmm_call) : list N :=
  omap (λ k, match k with
             | CallRecord now sig => if decide (lane_for sig = lane) then Some now else None
             | _ => None
             end) ks.
Lemma recorded_snoc lane ks k :
  recorded lane (ks ++ [k]) = recorded lane ks ++ recorded lane [k].
Proof. unfold recorded. by rewrite omap_app. Qed.
(** The clock never runs backwards. *)
Definition clock_ok (ks : list idmm_call) : Prop := StronglySorted N.le (omap call_time ks).

Lemma prune_split w now : ∃ old, w = old ++ prune w now ∧ ∀ t, t ∈ old → (secs 3600 < now - t)%N.
Proof.
  induction w as [|t w (old&Heq&Hold)]; cbn [prune]; [exists []; split; [done|set_solver]|].
  destruct (secs 3600 <? now - t)%N eqn:Ht; [|exists []; split; [done|set_solver]].
  apply N.ltb_lt in Ht. exists (t :: old). split; [simpl; f_equal; exact Heq|].
  intros x [->|Hx]%elem_of_cons; auto.
Qed.

(** A lane's runtime holds the recent suffix of what was recorded. *)
Definition rt_ok (T : N) (l : list N) (rt : WatchRuntime) : Prop :=
  last_intervention rt = last l ∧
  ∃ old, l = old ++ window rt ∧ ∀ t, t ∈ old → (secs 3600 < T - t)%N.

Lemma rt_ok_later T T' l rt : (T <= T')%N → rt_ok T l rt → rt_ok T' l rt.
Proof. intros HT (Hl&old&->&Ho). split; [done|]. exists old. split; [done|]. intros t Ht. specialize (Ho t Ht). lia. Qed.
Lemma rt_ok_prune T l rt : rt_ok T l rt → rt_ok T l (prune_window rt T).
Proof.
  intros (Hl&old&->&Ho). split; [done|]. destruct (prune_split (window rt) T) as (o2&Heq&Ho2).
  exists (old ++ o2). split; [by rewrite <-app_assoc; simpl; rewrite <-Heq|].
  intros t [?|?]%elem_of_app; auto.
Qed.
Lemma rt_ok_record T l rt : rt_ok T l rt → rt_ok T (l ++ [T]) (mkRuntime (window rt ++ [T]) (Some T)).
Proof.
  intros (Hl&old&->&Ho). split; [by rewrite last_snoc|]. exists old. split; [|done].
  simpl. by rewrite <-app_assoc.
Qed.

Definition windows_ok (T : N) (ks : list idmm_call) (s : PolicyState) : Prop :=
  ∀ lane, rt_ok T (recorded lane ks) (runtime s lane).

Lemma runtime_set s lane rt lane' :
  runtime (set_runtime s lane rt) lane' = if decide (lane = lane') then rt else runtime s lane'.
Proof. by destruct lane, lane'. Qed.
Lemma bump_runtime s c lane : runtime (bump_retry s c).1 lane = runtime s lane.
Proof. by destruct lane. Qed.
Lemma stall_step_runtime s sig lane : runtime (stall_step to_lowercase s sig).1 lane = runtime s lane.
Proof.
  unfold stall_step, on_fault, idle_is_standby.
  destruct sig as [|[[]|] ?|[[]|] ?| | | | |]; try done; cbn [fst bump_retry]; [by destruct lane..|].
  destruct (negb (work_in_progress s)); by destruct lane.
Qed.
Lemma budget_windows T ks s lane b :
  windows_ok T ks s → windows_ok T ks (budget_ok s lane T b).1.
Proof.
  intros H lane'. unfold budget_ok. simpl. rewrite runtime_set. case_decide; subst;
    [apply rt_ok_prune|]; apply H.
Qed.
Lemma on_stall_windows T ks s sig :
  windows_ok T ks s → windows_ok T ks (on_stall to_lowercase s T sig).1.
Proof.
  intros H. unfold on_stall. destruct (_ || _); [done|]. destruct (negb _); [done|].
  pose proof (budget_windows T ks s (lane_for sig)) as Hb.
  destruct (budget_ok _ _ _ _) as [s1 [[]|e]] eqn:He.
  - intros lane. rewrite stall_step_runtime. specialize (Hb (match sig with Decision_ _ => true | _ => false end) H lane).
    by rewrite He in Hb.
  - specialize (Hb (match sig with Decision_ _ => true | _ => false end) H). by rewrite He in Hb.
Qed.

Lemma idmm_step_windows T T' ks s k :
  windows_ok T ks s → (T <= T')%N → (∀ n, call_time k = Some n → n = T') →
  windows_ok T' (ks ++ [k]) (idmm_step s k).
Proof.
  intros H HT Hk. assert (windows_ok T' ks s) as H' by (intros lane; by eapply rt_ok_later).
  destruct k as [now sig|now sig|sig|]; simpl in *.
  - rewrite (Hk now eq_refl). intros lane. rewrite recorded_snoc, app_nil_r. by apply on_stall_windows.
  - rewrite (Hk now eq_refl). intros lane. rewrite recorded_snoc. unfold recorded at 2. simpl.
    assert (runtime (record_for s T' sig) lane
      = if decide (lane_for sig = lane) then mkRuntime (window (runtime s lane) ++ [T']) (Some T')
        else runtime s lane) as ->.
    { unfold record_for. by destruct (lane_for sig), lane. }
    case_decide; simpl; [by apply rt_ok_record|]. by rewrite app_nil_r.
  - intros lane. rewrite recorded_snoc, app_nil_r. specialize (H' lane). by destruct sig, lane.
  - intros lane. rewrite recorded_snoc, app_nil_r. specialize (H' lane). by destruct lane.
Qed.

Lemma windows_run c kind ks now sig :
  clock_ok (ks ++ [CallStall now sig]) →
  windows_ok now ks (idmm_run (with_kind c kind) ks).
Proof.
  intros Hk. assert (∃ T, (T <= now)%N ∧ (T = 0%N ∨ T ∈ omap call_time ks) ∧
    windows_ok T ks (idmm_run (with_kind c kind) ks)) as (T&HT&_&Hw).
  2: { intros lane. by eapply rt_ok_later. }
  unfold clock_ok in Hk. rewrite omap_app in Hk. simpl in Hk.
  apply StronglySorted_app in Hk as (Hcross&Hs&_).
  assert (∀ n, n ∈ omap call_time ks → (n <= now)%N) as Hle by (intros n Hn; apply Hcross; [done|left]).
  clear Hcross. induction ks as [|k ks IH] using rev_ind.
  { exists 0%N. split_and!; [lia|by left|]. intros []; split; try done; exists []; set_solver. }
  rewrite omap_app in Hs, Hle. apply StronglySorted_app in Hs as (Hcross&Hs&_).
  destruct IH as (T&HT&HTk&Hw); [done|set_solver|].
  unfold idmm_run in *. rewrite foldl_app. simpl.
  destruct (call_time k) as [n|] eqn:Hkn; simpl in *; rewrite ?Hkn in *.
  - exists n. split_and!; [apply Hle; set_solver| |].
    + right. rewrite omap_app. simpl. rewrite Hkn. set_solver.
    + eapply idmm_step_windows; [done| |intros m; congruence].
      destruct HTk as [->|HTk]; [lia|]. apply Hcross; [done|left].
  - exists T. split_and!; [done| |].
    + rewrite omap_app. simpl. rewrite Hkn, app_nil_r. done.
    + eapply idmm_step_windows; [done|done|]. intros m. congruence.
Qed.
End runs.

Section helpers.
Context (to_lowercase : string → string).

Lemma on_stall_cfg s now sig : cfg (on_stall to_lowercase s now sig).1 = cfg s.
Proof.
  unfold on_stall. destruct (_ || _); [done|]. destruct (negb _); [done|].
  assert (∀ b, cfg (budget_ok s (lane_for sig) now b).1 = cfg s) as Hb by (intros b; by destruct (lane_for sig)).
  specialize (Hb (match sig with Decision_ _ => true | _ => false end)).
  destruct (budget_ok _ _ _ _) as [s1 [[]|e]]; simpl in Hb; [|done]. rewrite <-Hb.
  unfold stall_step, on_fault, idle_is_standby.
  destruct sig as [|[[]|] ?|[[]|] ?| | | | |]; try done. by destruct (negb _).
Qed.
Lemma run_cfg c kind ks : cfg (idmm_run to_lowercase (with_kind c kind) ks) = c.
Proof.
  induction ks as [|k ks IH] using rev_ind; [done|]. unfold idmm_run in *. rewrite foldl_app. simpl.
  set (s := foldl _ _ ks) in *. rewrite <-IH.
  destruct k as [now sig|now sig|sig|]; simpl; [apply on_stall_cfg| |by destruct sig|done].
  unfold record_for. by destruct (lane_for sig).
Qed.

(** What an intervening answer of [on_stall] says about the budget. *)
Lemma on_stall_acts s now sig s' p :
  on_stall to_lowercase s now sig = (s', p) →
  match p with Rule (Wait _) => False | Rule _ | Sidecar _ _ => True | _ => False end →
  let b := budget (base_for s (lane_for sig)) in
  let rt := runtime s (lane_for sig) in
  (N.of_nat (length (prune (window rt) now)) mod 4294967296 < max_interventions_per_hour b)%N ∧
  ((∀ dp, sig ≠ Decision_ dp) → ∀ l, last_intervention rt = Some l →
     (secs (min_interval_secs b) <= now - l)%N).
Proof.
  unfold on_stall. destruct (_ || _); [by intros [= <- <-]|]. destruct (negb _); [by intros [= <- <-]|].
  unfold budget_ok. cbn [prune_window window last_intervention].
  destruct (_ <=? _)%N eqn:Hmax; [by intros [= <- <-]|]. apply N.leb_gt in Hmax.
  destruct (_ && _) eqn:Hmin; [by intros [= <- <-]|]. intros _ _. split; [done|].
  intros Hnd l Hl. rewrite Hl in Hmin.
  assert (negb (match sig with Decision_ _ => true | _ => false end) = true) as Hb
    by (destruct sig; try done; by edestruct Hnd).
  rewrite Hb in Hmin. simpl in Hmin. by apply N.ltb_ge in Hmin.
Qed.

Lemma StronglySorted_recorded ks now sig :
  clock_ok (ks ++ [CallStall now sig]) → ∀ lane, StronglySorted N.le (recorded lane ks).
Proof.
  intros Hk lane. unfold clock_ok in Hk. rewrite omap_app in Hk.
  apply StronglySorted_app in Hk as (_&Hk&_).
  induction ks as [|k ks IH]; [constructor|]. unfold recorded in *. simpl in *.
  destruct k as [n ?|n sg|?|]; simpl in *; try (apply IH; by inversion Hk); [|by apply IH..].
  apply StronglySorted_inv in Hk as [Hk Hf].
  case_decide; simpl; [|by apply IH]. constructor; [by apply IH|].
  rewrite Forall_forall in Hf |- *. intros t Ht. apply Hf.
  apply list_elem_of_omap in Ht as (k'&Hk'&Hc). apply list_elem_of_omap. exists k'. split; [done|].
  destruct k'; try done. simpl. case_decide; congruence.
Qed.
Lemma sorted_le_last l t x : StronglySorted N.le l → t ∈ l → last l = Some x → (t <= x)%N.
Proof.
  intros Hs Ht (l'&->)%last_Some. apply StronglySorted_app in Hs as (Hcross&_&_).
  apply elem_of_app in Ht as [Ht|Ht%list_elem_of_singleton]; [|by subst].
  apply Hcross; [done|left].
Qed.
(** After fresh activity an enabled watch answers every stall. *)
Lemma working_rearms s now sig s' :
  on_stall to_lowercase (on_progress s Working) now sig = (s', Standby) →
  watch_enabled s sig = true → False.
Proof.
  unfold on_stall. intros Hst Hen.
  replace (watch_enabled (on_progress s Working) sig) with true in Hst by by rewrite <-Hen.
  cbn [suppressed_after_cancel suppressed_after_done on_progress set_turn orb negb] in Hst.
  assert (work_in_progress (budget_ok (on_progress s Working) (lane_for sig) now
    (match sig with Decision_ _ => true | _ => false end)).1 = true) as Hw by by destruct (lane_for sig).
  destruct (budget_ok _ _ _ _) as [s1 [[]|e]]; simpl in Hw; [|by destruct (bool_decide _)].
  unfold stall_step, on_fault, idle_is_standby, bump_retry in Hst. rewrite Hw in Hst.
  destruct sig as [|[[]|] ?|[[]|] ?| |dp| | |]; simpl in Hst; try done;
    try (injection Hst as _ Hst; by repeat case_match).
  injection Hst as _ Hst. unfold on_open_question, on_decision, permission_step, option_step in Hst.
  by repeat case_match.
Qed.

(** The rule tier's guards, on the state after the budget gate. *)
Lemma first_safe_option_spec opts allow t :
  first_safe_option to_lowercase opts allow = Some t →
  t ∈ opts ∧ is_cancel_option to_lowercase t = false ∧
  (allow = false → is_destructive to_lowercase t = false).
Proof.
  unfold first_safe_option. intros [Hin Hp]%find_some. apply andb_true_iff in Hp as [Hc Hd].
  apply negb_true_iff in Hc. split_and!; [by apply list_elem_of_In|done|].
  intros ->. by apply negb_true_iff in Hd.
Qed.
Lemma option_step_answer s lane dp a :
  option_step to_lowercase s lane dp = Rule a →
  let strat := strategy (decision_watch (cfg s)) in
  let opt := option_decision (categories strat) in
  ∃ t, a = AnswerChoice t ∧ or_mode opt = ModeAuto ∧
    (recommended dp = Some t ∨
     t ∈ dp_options dp ∧ is_cancel_option to_lowercase t = false ∧ tendency strat ≠ Conservative) ∧
    (never_destructive opt = true → is_destructive to_lowercase t = false).
Proof.
  unfold option_step. cbv zeta. set (opt := option_decision _).
  destruct (bool_decide (or_mode opt = ModeAuto)) eqn:Hm; simpl; [|by case_match].
  apply bool_decide_eq_true in Hm. intros Hst.
  destruct (match recommended dp with Some _ => _ | None => _ end) as [rec|] eqn:Hrec.
  { injection Hst as <-. destruct (recommended dp) as [r|]; [|done].
    destruct (prefer_recommended opt); simpl in Hrec; [|done].
    destruct (never_destructive opt), (is_destructive to_lowercase r) eqn:Hd; simplify_eq/=;
      exists rec; split_and!; try done; by left. }
  destruct (allow_unmarked_pick opt && _) eqn:Hdare; [|by repeat case_match].
  apply andb_true_iff in Hdare as [_ Ht%negb_true_iff%bool_decide_eq_false].
  destruct (first_safe_option _ _ _) as [pick|] eqn:Hpick; [|by repeat case_match].
  injection Hst as <-. apply first_safe_option_spec in Hpick as (Hin&Hc&Hd).
  exists pick. split_and!; [done..|by right|]. intros Hn. apply Hd. by rewrite Hn.
Qed.
Lemma permission_step_confirm s lane dp perm a :
  permission_step s lane dp perm = Rule a →
  pr_mode (permission_rule (categories (strategy (decision_watch (cfg s))))) = ModeAuto ∧
  ∃ v, a = Confirm (call_id perm) v false ∧ safe_value perm = Some v.
Proof.
  unfold permission_step. case_bool_decide as Hm; simpl; [|done].
  destruct (only_safe_value _); [|by case_match].
  destruct (safe_value perm) as [v|] eqn:Hv; [|by case_match]. intros [= <-]. eauto.
Qed.
Lemma on_open_question_never_answers s lane dp a : on_open_question s lane dp ≠ Rule a.
Proof. unfold on_open_question. by case_match. Qed.

Lemma bump_below s c : ((bump_retry s c).2 = default 0 (retries s !! class_str c) + 1)%N.
Proof. done. Qed.

Lemma on_fault_guards s retryable s' a :
  on_fault s LaneFault StallProviderError retryable = (s', Rule a) →
  retryable ≠ Some false ∧ (a = Retry ∨ a = Failover) ∧
  (default 0 (retries s !! "provider_error") < max_retries (fw_base (fault_watch (cfg s))))%N.
Proof.
  unfold on_fault. intros Hst. assert (retryable ≠ Some false) as Hr by (intros ->; by case_match).
  split; [done|]. unfold bump_retry in Hst.
  destruct retryable as [[]|]; [|done|]; injection Hst as _ Hst;
    (destruct (_ <=? _)%N eqn:Hle; [|by case_match]); apply N.leb_le in Hle; simpl in Hle;
    (split; [case_match; simplify_eq; auto|lia]).
Qed.

(** What the rule tier may answer, read off the state it decides on. *)
Definition rule_licence (s : PolicyState) (sig : SessionSignal) (a : WakeAction) : Prop :=
  let strat := strategy (decision_watch (cfg s)) in
  let rules := categories strat in
  match a with
  | AnswerChoice t =>
      ∃ dp, sig = Decision_ dp ∧ dp_kind dp ≠ OpenQuestion_ ∧ permission dp = None ∧
        or_mode (option_decision rules) = ModeAuto ∧
        (recommended dp = Some t ∨
         t ∈ dp_options dp ∧ is_cancel_option to_lowercase t = false ∧ tendency strat ≠ Conservative) ∧
        (never_destructive (option_decision rules) = true → is_destructive to_lowercase t = false)
  | Confirm cid v always =>
      always = false ∧ ∃ dp perm, sig = Decision_ dp ∧ permission dp = Some perm ∧
        call_id perm = cid ∧ safe_value perm = Some v ∧ pr_mode (permission_rule rules) = ModeAuto
  | SendText t =>
      t = "continue" ∧ sig = Idle ∧ work_in_progress s = true ∧
      (default 0 (retries s !! "idle") < max_retries (dw_base (decision_watch (cfg s))))%N
  | Retry | Failover =>
      (∃ r m, (sig = ProviderError r m ∨ sig = AgentError r m) ∧ r ≠ Some false) ∧
      (default 0 (retries s !! "provider_error") < max_retries (fw_base (fault_watch (cfg s))))%N
  | Wait _ => True
  | Stop _ => False
  end.
Lemma stall_step_guards s sig s' a :
  stall_step to_lowercase s sig = (s', Rule a) → rule_licence s sig a.
Proof.
  unfold stall_step. intros Hst. destruct sig as [|r m|r m| |dp| | |]; try by injection Hst as _ <-.
  - apply on_fault_guards in Hst as (Hr&[->| ->]&Hn); (split; [|done]); eauto 6.
  - apply on_fault_guards in Hst as (Hr&[->| ->]&Hn); (split; [|done]); eauto 6.
  - unfold idle_is_standby, bump_retry in Hst. destruct (work_in_progress s) eqn:Hw; [|done].
    injection Hst as _ Hst. destruct (_ <=? _)%N eqn:Hle; [|by case_match].
    injection Hst as <-. apply N.leb_le in Hle. simpl in Hle. unfold rule_licence. split_and!; try done. lia.
  - injection Hst as _ Hst. case_bool_decide as Hk; [destruct (on_open_question_never_answers _ _ _ _ Hst)|].
    unfold on_decision in Hst. destruct (permission dp) as [perm|] eqn:Hp.
    + apply permission_step_confirm in Hst as (Hm&v&->&Hv). unfold rule_licence. eauto 8.
    + apply option_step_answer in Hst as (t&->&Hm&Ht&Hd). exists dp. by split_and!.
Qed.
Lemma on_stall_licence s now sig s' a :
  on_stall to_lowercase s now sig = (s', Rule a) → rule_licence s sig a.
Proof.
  intros Hst. unfold on_stall in Hst. destruct (_ || _); [done|]. destruct (negb _); [done|].
  assert (∀ b, let s1 := (budget_ok s (lane_for sig) now b).1 in
    cfg s1 = cfg s ∧ retries s1 = retries s ∧ work_in_progress s1 = work_in_progress s) as Hb
    by (intros b; by destruct (lane_for sig)).
  specialize (Hb (match sig with Decision_ _ => true | _ => false end)).
  destruct (budget_ok _ _ _ _) as [s1 [[]|e]]; [|by case_bool_decide; simplify_eq].
  simpl in Hb. destruct Hb as (Hc&Hr&Hw). apply stall_step_guards in Hst.
  unfold rule_licence in *. by rewrite <-Hc, <-Hr, <-Hw.
Qed.

Lemma on_sidecar_apply s dec a :
  on_sidecar to_lowercase s dec = Apply a →
  action dec ∈ ["retry"; "send_text"; "answer_choice"; "answer_text"; "wait"] ∧
  SFltb (confidence dec) CONFIDENCE_FLOOR = false ∧
  (never_destructive (option_decision (categories (strategy (decision_watch (cfg s))))) = true →
   ∀ t, a = SendText t ∨ a = AnswerChoice t → is_destructive to_lowercase t = false) ∧
  match a with Retry | SendText _ | AnswerChoice _ | Wait _ => True | _ => False end.
Proof.
  unfold on_sidecar. destruct (sidecar_action dec) as [b|e] eqn:Ha; [|done].
  destruct (_ && _) eqn:Hveto; [done|]. destruct (SFltb _ _) eqn:Hc; [done|]. intros [= ->].
  unfold sidecar_action in Ha.
  split_and!; [|done| |].
  - repeat case_bool_decide; try done; set_solver.
  - intros Hn t Ht. rewrite Hn in Hveto. by destruct Ht as [-> | ->].
  - by repeat case_bool_decide; simplify_eq.
Qed.
Lemma finalize_text sig a t :
  finalize_action sig a = SendText t ∨ finalize_action sig a = AnswerChoice t →
  a = SendText t ∨ a = AnswerChoice t.
Proof. unfold finalize_action. destruct a; intros [H|H]; repeat case_match; simplify_eq; auto. Qed.
Lemma finalize_permission dp perm a :
  permission dp = Some perm →
  match a with Retry | SendText _ | AnswerChoice _ | Wait _ => True | _ => False end →
  match finalize_action (Decision_ dp) a with
  | Confirm cid v always =>
      cid = call_id perm ∧ always = false ∧ (v ∈ (perm_options perm).*2 ∨ safe_value perm = Some v)
  | SendText _ | AnswerChoice _ | Failover => False
  | _ => True
  end.
Proof.
  intros Hp Ha. unfold finalize_action. rewrite Hp. destruct a as [|t|t| | | |]; try done;
    (destruct (find _ _) as [[l v]|] eqn:Hf; simpl;
      [apply find_some in Hf as [Hf%list_elem_of_In _]; split_and!; [done..|left];
       apply list_elem_of_fmap; by exists (l, v)
      |destruct (safe_value perm); simpl; auto]).
Qed.
End helpers.

(** ** Properties *)

Section properties.
Context (to_lowercase : string → string).

(** A closed turn is never restarted by the policy: after a clean finish or
    a user cancellation, whatever late signals, recorded interventions, further
    finishes and cancellations follow, every stall is met by standing by and
    changes nothing; only fresh activity re-arms the policy. *)
Theorem idmm_turn_boundary s ks s1 :
  s1 = on_progress s Done ∨ s1 = on_user_cancel s →
  Forall (λ k, k ≠ CallProgress Working) ks →
  let s2 := idmm_run to_lowercase s1 ks in
  (∀ now sig, on_stall to_lowercase s2 now sig = (s2, Standby) ∧ peek_standby s2 sig = true) ∧
  (∀ sig now s' p, on_stall to_lowercase (on_progress s2 Working) now sig = (s', p) →
     watch_enabled s2 sig = true → p = Standby → False).
Proof.
  intros Hs1 Hks s2. assert (closed_turn s2) as Hc.
  { apply closed_run; [|done]. destruct Hs1 as [->| ->]; [by left|by right]. }
  split.
  - intros now sig. split; [by apply on_stall_closed|].
    unfold peek_standby. destruct Hc as [-> | ->]; by rewrite ?orb_true_r.
  - intros sig now s' p Hst Hen ->. by eapply working_rearms.
Qed.

(** A step that acts on the session: a rule action other than waiting, or a
    call of the bypass model. *)
Definition intervenes (p : PolicyStep) : Prop :=
  match p with Rule (Wait _) => False | Rule _ | Sidecar _ _ => True | _ => False end.

(** C39. Interventions stay within the budget: along any sequence of calls with
    a monotone clock, the policy only acts on a stall, or calls the bypass model,
    when fewer than [max_interventions_per_hour] interventions of that watch were
    recorded within the last hour, and, unless a decision blocks the session, when
    every recorded one lies at least [min_interval_secs] back. *)
Theorem idmm_budget_respected c kind ks now sig s' p :
  clock_ok (ks ++ [CallStall now sig]) →
  (N.of_nat (length (recorded (lane_for sig) ks)) < 4294967296)%N →
  on_stall to_lowercase (idmm_run to_lowercase (with_kind c kind) ks) now sig = (s', p) →
  intervenes p →
  let b := budget (base_for (with_kind c kind) (lane_for sig)) in
  let past := recorded (lane_for sig) ks in
  (N.of_nat (length (filter (λ t, now - t <= secs 3600)%N past)) < max_interventions_per_hour b)%N ∧
  ((∀ dp, sig ≠ Decision_ dp) → ∀ t, t ∈ past → (secs (min_interval_secs b) <= now - t)%N).
Proof.
  intros Hck Hlen Hst Hact. cbv zeta. set (s := idmm_run to_lowercase (with_kind c kind) ks) in *.
  destruct (windows_run to_lowercase c kind ks now sig Hck (lane_for sig)) as (Hlast&old&Hrec&Hold).
  fold s in Hlast, Hrec.
  assert (cfg s = c) as Hcfg by apply run_cfg.
  destruct (on_stall_acts to_lowercase s now sig s' p Hst Hact) as [Hmax Hmin]. cbv zeta in Hmax, Hmin.
  assert (base_for (with_kind c kind) (lane_for sig) = base_for s (lane_for sig)) as ->
    by (unfold base_for; by rewrite Hcfg).
  pose proof (StronglySorted_recorded ks now sig Hck) as Hsorted.
  destruct (prune_split (window (runtime s (lane_for sig))) now) as (o2&Heq&Ho2).
  rewrite Heq, app_assoc in Hrec. remember (prune (window (runtime s (lane_for sig))) now) as recent.
  split.
  - rewrite N.mod_small in Hmax.
    2: { eapply N.le_lt_trans; [|exact Hlen]. rewrite Hrec, !length_app. lia. }
    eapply N.le_lt_trans; [|exact Hmax].
    rewrite Hrec, filter_app, length_app, (filter_none _ (old ++ o2)).
    + pose proof (length_filter (λ t, now - t <= secs 3600)%N recent). simpl. lia.
    + intros t [Ht|Ht]%elem_of_app; [specialize (Hold t Ht)|specialize (Ho2 t Ht)]; lia.
  - intros Hnd t Ht. specialize (Hmin Hnd).
    destruct (last (recorded (lane_for sig) ks)) as [l|] eqn:Hl.
    + rewrite Hlast in Hmin. specialize (Hmin l eq_refl).
      assert (t <= l)%N; [|lia]. exact (sorted_le_last _ _ _ (Hsorted _) Ht Hl).
    + apply last_None in Hl. rewrite Hl in Ht. by apply not_elem_of_nil in Ht.
Qed.

(** The rule tier's licence: an automatic answer is given only to an option
    decision in auto mode, is one of the offered or the recommended choice, and is
    not destructive when the strategy forbids it; a permission is confirmed only
    with its safe value, once, in auto mode; text is only ever the nudge sent to a
    session that went silent in the middle of work; a turn is only re-driven for a
    fault not marked non-retryable, within [max_retries]; the tier never stops a
    session by itself, and never answers an open question. *)
Theorem idmm_rule_guards s now sig s' a :
  on_stall to_lowercase s now sig = (s', Rule a) → rule_licence to_lowercase s sig a.
Proof. apply on_stall_licence. Qed.

(** The bypass model's licence: its answer is only carried out at or above the
    confidence floor, carries no destructive text when the strategy forbids it, and
    on a permission prompt is never chat text: it confirms, once, one of the
    offered values or the safe one; an unknown or stopping answer halts. *)
Theorem idmm_sidecar_guards s sig failed dec a :
  run_sidecar to_lowercase s sig failed (Some dec) = BySidecar a →
  failed = false ∧ SFltb (confidence dec) CONFIDENCE_FLOOR = false ∧
  action dec ∈ ["retry"; "send_text"; "answer_choice"; "answer_text"; "wait"] ∧
  (never_destructive (option_decision (categories (strategy (decision_watch (cfg s))))) = true →
   ∀ t, a = SendText t ∨ a = AnswerChoice t → is_destructive to_lowercase t = false) ∧
  (∀ dp perm, sig = Decision_ dp → permission dp = Some perm →
     match a with
     | Confirm cid v always =>
         cid = call_id perm ∧ always = false ∧ (v ∈ (perm_options perm).*2 ∨ safe_value perm = Some v)
     | SendText _ | AnswerChoice _ | Failover => False
     | _ => True
     end).
Proof.
  unfold run_sidecar. destruct failed; [done|]. destruct (on_sidecar _ _ _) as [b| |] eqn:Hon; [|done..].
  intros [= <-]. destruct (on_sidecar_apply _ _ _ _ Hon) as (Hact&Hconf&Hsafe&Hshape).
  split_and!; [done..| |].
  - intros Hnd t Ht. apply (Hsafe Hnd). by eapply finalize_text.
  - intros dp perm -> Hp. by apply finalize_permission.
Qed.

(** The veto has a hole: the fallback taken when the bypass model fails, does
    not parse or is unsure answers the recommended option of a prompt even when
    the strategy forbids destructive answers and the option is destructive, an
    answer the rule tier withholds and a confident model answer is halted for. *)
Theorem idmm_fallback_bypasses_veto s dp rec dec :
  dp_kind dp = Options_ → permission dp = None → recommended dp = Some rec →
  is_destructive to_lowercase rec = true →
  never_destructive (option_decision (categories (strategy (decision_watch (cfg s))))) = true →
  action dec = "answer_choice" → text dec = rec →
  run_sidecar to_lowercase s (Decision_ dp) true None
    = ByRuleFallback (AnswerChoice rec) "sidecar_provider_unavailable" ∧
  (∀ now s', on_stall to_lowercase s now (Decision_ dp) ≠ (s', Rule (AnswerChoice rec))) ∧
  run_sidecar to_lowercase s (Decision_ dp) false (Some dec) = SidecarHalted "destructive_withheld".
Proof.
  intros Hk Hp Hr Hd Hn Ha Ht. split_and!.
  - simpl. by rewrite Hk, Hp, Hr.
  - intros now s' Hst. apply on_stall_licence in Hst as (?&[= <-]&_&_&_&_&Hnd).
    rewrite (Hnd Hn) in Hd. done.
  - unfold run_sidecar, on_sidecar, sidecar_action. rewrite Ha. simpl. by rewrite Hn, Ht, Hd.
Qed.
End properties.

(** ** Witnesses *)

(** The default configuration with both watches on, the bypass model available. *)
Definition demo_cfg : IdmmConfig :=
  let base := mkWatch true RulePlusModel 60 5 LastTurn 8000 (mkBypass None None) BudgetConfig_default in
  mkIdmmConfig (mkFaultWatch base WakeRetry false) (mkDecisionWatch base DecisionStrategy_default true).
Definition demo : PolicyState := with_kind demo_cfg TargetConversation.
Definition demo_prompt (rec : string) : DecisionPrompt :=
  mkPrompt "Which one?" [rec; "2) keep the data"] (Some rec) TextScan Options_ None.
Definition demo_error : SessionSignal := ProviderError (Some true) "503".

Definition demo_late : list idmm_call := [CallRecord 5 demo_error; CallStall 6 Idle; CallCancel].
Lemma idmm_turn_boundary_witness :
  on_stall to_ascii_lowercase (idmm_run to_ascii_lowercase (on_progress demo Done) demo_late) 9 demo_error
  = (idmm_run to_ascii_lowercase (on_progress demo Done) demo_late, Standby).
Proof.
  refine (proj1 (proj1 (idmm_turn_boundary to_ascii_lowercase demo demo_late (on_progress demo Done) _ _)
    9%N demo_error)).
  - by left.
  - repeat constructor; discriminate.
Defined.

Definition demo_calls : list idmm_call :=
  [CallProgress Working; CallStall (secs 1) demo_error; CallRecord (secs 1) demo_error].
Lemma idmm_budget_respected_witness :
  (N.of_nat (length (filter (λ t, secs 30 - t <= secs 3600)%N (recorded LaneFault demo_calls))) < 30)%N.
Proof.
  refine (proj1 (idmm_budget_respected to_ascii_lowercase demo_cfg TargetConversation demo_calls (secs 30)
    demo_error (on_stall to_ascii_lowercase (idmm_run to_ascii_lowercase (with_kind demo_cfg TargetConversation)
      demo_calls) (secs 30) demo_error).1 (Rule Retry) _ _ _ _)).
  - repeat constructor; vm_compute; discriminate.
  - reflexivity.
  - vm_compute. reflexivity.
  - exact I.
Defined.

Lemma idmm_rule_guards_witness :
  rule_licence to_ascii_lowercase (on_progress demo Working) (Decision_ (demo_prompt "1) run the tests"))
    (AnswerChoice "1) run the tests").
Proof.
  apply (idmm_rule_guards to_ascii_lowercase (on_progress demo Working) 7
    (Decision_ (demo_prompt "1) run the tests")) (on_progress demo Working)).
  vm_compute. reflexivity.
Defined.

Definition demo_perm : DecisionPrompt :=
  mkPrompt "allow edit?" [] None PermissionEvent Options_
    (Some (mkPermission "call-1" [("Allow once", "proceed_once"); ("Deny", "cancel")] None)).
Definition demo_answer (a t : string) (c : spec_float) : SidecarDecision := mkSidecar a t 0 c "".
(** One half. *)
Definition half : spec_float := S754_finite false 8388608 (-24).

Lemma idmm_sidecar_guards_witness :
  SFltb half CONFIDENCE_FLOOR = false.
Proof.
  apply (idmm_sidecar_guards to_ascii_lowercase demo (Decision_ demo_perm) false
    (demo_answer "answer_choice" "Deny" half) (Confirm "call-1" "cancel" false)).
  vm_compute. reflexivity.
Defined.

Lemma idmm_fallback_bypasses_veto_witness :
  run_sidecar to_ascii_lowercase demo (Decision_ (demo_prompt "1) DROP TABLE users")) true None
    = ByRuleFallback (AnswerChoice "1) DROP TABLE users") "sidecar_provider_unavailable".
Proof.
  apply (idmm_fallback_bypasses_veto to_ascii_lowercase demo (demo_prompt "1) DROP TABLE users")
    "1) DROP TABLE users" (demo_answer "answer_choice" "1) DROP TABLE users" half));
    vm_compute; reflexivity.
Defined.
