(* ===== verification/Utf8.v ===== *)
(** UTF-8 as the Rust standard library reads it ([str::from_utf8],
    [String::from_utf8_lossy]), and the incremental decoder of
    shared/nomi-process-runtime/src/io.rs, whose text does not depend on how the
    input is cut into chunks. *)
From Equations Require Import Equations.
From S2P Require Import Prelude.

(** ** Decoding one character

    [utf8_step a l] reads the character whose first byte is [a]: it needs [k] more
    bytes of [l], or is broken after [k] more, or [l] ends too early. *)
Definition is_cont (b : Ascii.ascii) : bool := byte_in 128 191 b.
Inductive utf8_step_result := Utf8Char (k : nat) | Utf8Bad (k : nat) | Utf8More.

Definition utf8_char_width (a : Ascii.ascii) : nat :=
  if byte_in 0 127 a then 1 else if byte_in 194 223 a then 2
  else if byte_in 224 239 a then 3 else if byte_in 240 244 a then 4 else 0.
(** Overlong forms, surrogates and code points above U+10FFFF are excluded by the
    second byte. *)
Definition second_ok (a b : Ascii.ascii) : bool :=
  if byte_in 224 224 a then byte_in 160 191 b
  else if byte_in 237 237 a then byte_in 128 159 b
  else if byte_in 240 240 a then byte_in 144 191 b
  else if byte_in 244 244 a then byte_in 128 143 b
  else is_cont b.
Definition utf8_step (a : Ascii.ascii) (l : bytes) : utf8_step_result :=
  match utf8_char_width a with
  | 0 => Utf8Bad 0
  | 1 => Utf8Char 0
  | S (S w) =>
      match l with
      | [] => Utf8More
      | b :: l =>
          if negb (second_ok a b) then Utf8Bad 0 else
          match w with
          | 0 => Utf8Char 1
          | S w =>
              match l with
              | [] => Utf8More
              | c :: l =>
                  if negb (is_cont c) then Utf8Bad 1 else
                  match w with
                  | 0 => Utf8Char 2
                  | S _ =>
                      match l with
                      | [] => Utf8More
                      | d :: _ => if is_cont d then Utf8Char 3 else Utf8Bad 2
                      end
                  end
              end
          end
      end
  end.

(** [str::from_utf8]: the length of the valid prefix and, after it, the length of
    the broken sequence, [None] at an unexpected end. *)
Record Utf8Error := mkUtf8Error { valid_up_to : nat; error_len : option nat }.
Definition shift_error (n : nat) (r : option Utf8Error) : option Utf8Error :=
  (λ e, mkUtf8Error (n + valid_up_to e) (error_len e)) <$> r.
Equations? from_utf8 (l : bytes) : option Utf8Error by wf (length l) lt :=
  from_utf8 [] := None;
  from_utf8 (a :: l) with utf8_step a l => {
    | Utf8Char k := shift_error (S k) (from_utf8 (drop k l));
    | Utf8Bad k := Some (mkUtf8Error 0 (Some (S k)));
    | Utf8More := Some (mkUtf8Error 0 None) }.
Proof. rewrite length_drop. simpl. lia. Qed.

(** U+FFFD *)
Definition replacement : bytes := [u8 239; u8 191; u8 189].

(** Character by character: the text, the number of broken sequences, whether a
    character was not ASCII, and the unfinished rest. *)
Record lossy_result := mkLossy {
  l_text : bytes;
  l_errors : N;
  l_non_ascii : bool;
  l_pending : bytes;
}.
Definition lossy_cons (r : lossy_result) (t : bytes) (e : N) (w : bool) : lossy_result :=
  mkLossy (t ++ l_text r) (e + l_errors r) (w || l_non_ascii r) (l_pending r).
Equations? lossy (l : bytes) : lossy_result by wf (length l) lt :=
  lossy [] := mkLossy [] 0 false [];
  lossy (a :: l) with utf8_step a l => {
    | Utf8Char k := lossy_cons (lossy (drop k l)) (a :: take k l) 0 (negb (byte_in 0 127 a));
    | Utf8Bad k := lossy_cons (lossy (drop k l)) replacement 1 false;
    | Utf8More := mkLossy [] 0 false (a :: l) }.
Proof. all: rewrite length_drop; simpl; lia. Qed.

(** [String::from_utf8_lossy] *)
Definition from_utf8_lossy (l : bytes) : bytes :=
  l_text (lossy l) ++ match l_pending (lossy l) with [] => [] | _ => replacement end.
(** [String::from_utf8] *)
Definition string_from_utf8 (l : bytes) : option bytes :=
  match from_utf8 l with None => Some l | Some _ => None end.

(** ** Computation *)

Example from_utf8_ex : from_utf8 (as_bytes "hé") = None.
Proof. vm_compute. reflexivity. Qed.
Example from_utf8_cut : from_utf8 [u8 104; u8 240; u8 159; u8 152] = Some (mkUtf8Error 1 None).
Proof. vm_compute. reflexivity. Qed.
Example lossy_bad : from_utf8_lossy [u8 104; u8 240; u8 159; u8 104] = u8 104 :: replacement ++ [u8 104].
Proof. vm_compute. reflexivity. Qed.

(** ** Maximal valid prefixes and single characters agree *)

Lemma utf8_step_app a l y :
  utf8_step a l ≠ Utf8More → utf8_step a (l ++ y) = utf8_step a l.
Proof.
  unfold utf8_step. destruct (utf8_char_width a) as [|[|w]]; [done..|].
  destruct l as [|b l]; [done|]. simpl. destruct (negb (second_ok a b)); [done|].
  destruct w as [|w]; [done|]. destruct l as [|c l]; [done|]. simpl.
  destruct (negb (is_cont c)); [done|]. destruct w; [done|]. by destruct l.
Qed.
Lemma utf8_step_len a l k :
  utf8_step a l = Utf8Char k ∨ utf8_step a l = Utf8Bad k → k ≤ length l.
Proof.
  unfold utf8_step. intros H. repeat case_match; destruct H as [H|H];
    try discriminate; injection H as <-; simpl; lia.
Qed.
Lemma utf8_step_ascii a l k : utf8_step a l = Utf8Char k → byte_in 0 127 a = true → k = 0.
Proof.
  unfold utf8_step, utf8_char_width. intros Hs Ha. rewrite Ha in Hs. by injection Hs.
Qed.
Lemma utf8_step_more a l : utf8_step a l = Utf8More → length l < 3 ∧ byte_in 0 127 a = false.
Proof.
  unfold utf8_step. intros H. split; [repeat case_match; try discriminate; simpl; lia|].
  unfold utf8_char_width in H. by destruct (byte_in 0 127 a).
Qed.

(** [!valid.is_ascii()] *)
Definition non_ascii (l : bytes) : bool := existsb (λ a, negb (byte_in 0 127 a)) l.
Lemma non_ascii_app l1 l2 : non_ascii (l1 ++ l2) = non_ascii l1 || non_ascii l2.
Proof. apply existsb_app. Qed.
Lemma non_ascii_char a l k :
  utf8_step a l = Utf8Char k → non_ascii (a :: take k l) = negb (byte_in 0 127 a).
Proof.
  intros H. simpl. destruct (byte_in 0 127 a) eqn:Ha; [|done].
  by rewrite (utf8_step_ascii _ _ _ H Ha).
Qed.

Lemma lossy_cons_cons r t1 e1 w1 t2 e2 w2 :
  lossy_cons (lossy_cons r t2 e2 w2) t1 e1 w1 = lossy_cons r (t1 ++ t2) (e1 + e2) (w1 || w2).
Proof. unfold lossy_cons. simpl. by rewrite app_assoc, N.add_assoc, orb_assoc. Qed.

(** Strong induction on the length. *)
Lemma bytes_ind (P : bytes → Prop) : (∀ l, (∀ l', length l' < length l → P l') → P l) → ∀ l, P l.
Proof. intros H l. apply (induction_ltof1 _ (@length _) P). exact H. Qed.

Lemma from_utf8_lossy_spec l :
  match from_utf8 l with
  | None => lossy l = mkLossy l 0 (non_ascii l) []
  | Some (mkUtf8Error v None) =>
      lossy l = mkLossy (take v l) 0 (non_ascii (take v l)) (drop v l)
  | Some (mkUtf8Error v (Some k)) =>
      0 < k ∧ v + k ≤ length l ∧
      lossy l = lossy_cons (lossy (drop (v + k) l)) (take v l ++ replacement) 1 (non_ascii (take v l))
  end.
Proof.
  induction l as [l IH] using bytes_ind. destruct l as [|a l]; [by simp from_utf8 lossy|].
  simp from_utf8 lossy. destruct (utf8_step a l) as [k|k|] eqn:Hs; simp from_utf8 lossy.
  - pose proof (utf8_step_len a l k (or_introl Hs)) as Hk.
    rewrite <-(non_ascii_char a l k Hs).
    assert (∀ v, a :: take (k + v) l = (a :: take k l) ++ take v (drop k l)) as Hcut
      by (intros v; simpl; by rewrite take_take_drop).
    specialize (IH (drop k l)). rewrite length_drop in IH. specialize (IH ltac:(simpl; lia)).
    destruct (from_utf8 (drop k l)) as [[v [n|]]|]; cbn [shift_error fmap option_fmap option_map
      valid_up_to error_len Nat.add take drop length].
    + destruct IH as (Hn&Hv&->). split_and!; [done|lia|].
      by rewrite lossy_cons_cons, drop_drop, Hcut, non_ascii_app, app_assoc, Nat.add_assoc.
    + rewrite IH, Hcut, non_ascii_app. unfold lossy_cons. simpl. by rewrite drop_drop.
    + rewrite IH. unfold lossy_cons. cbn [l_text l_errors l_non_ascii l_pending].
      by rewrite <-non_ascii_app, <-app_comm_cons, take_drop.
  - split_and!; [lia| |done]. pose proof (utf8_step_len a l k (or_intror Hs)). simpl. lia.
  - done.
Qed.

(** ** Cutting the input

    Reading [x ++ y] is reading [x], then [y] behind what [x] left unfinished. *)
Lemma lossy_app (x y : bytes) :
  lossy (x ++ y)
  = lossy_cons (lossy (l_pending (lossy x) ++ y)) (l_text (lossy x)) (l_errors (lossy x)) (l_non_ascii (lossy x)).
Proof.
  induction x as [x IH] using bytes_ind. destruct x as [|a l].
  - simp lossy. unfold lossy_cons. simpl. by destruct (lossy y).
  - simpl app. simp lossy. destruct (utf8_step a l) as [k|k|] eqn:Hs.
    + pose proof (utf8_step_len a l k (or_introl Hs)) as Hk.
      rewrite utf8_step_app, Hs by by rewrite Hs. simp lossy.
      rewrite drop_app_le, take_app_le by lia. rewrite IH by (simpl; rewrite length_drop; lia).
      by rewrite lossy_cons_cons.
    + pose proof (utf8_step_len a l k (or_intror Hs)) as Hk.
      rewrite utf8_step_app, Hs by by rewrite Hs. simp lossy.
      rewrite drop_app_le by lia. rewrite IH by (simpl; rewrite length_drop; lia).
      by rewrite lossy_cons_cons.
    + simp lossy. unfold lossy_cons. simpl. simp lossy. by destruct (utf8_step a (l ++ y)).
Qed.
(** What is left unfinished is the beginning of a single character. *)
Lemma lossy_pending (l : bytes) :
  lossy (l_pending (lossy l)) = mkLossy [] 0 false (l_pending (lossy l)) ∧ length (l_pending (lossy l)) ≤ 3.
Proof.
  induction l as [l IH] using bytes_ind. destruct l as [|a l]; [simp lossy; cbn [l_pending]; simp lossy; split; [done|simpl; lia]|].
  simp lossy. destruct (utf8_step a l) as [k|k|] eqn:Hs; simp lossy.
  - simpl. apply IH. simpl. rewrite length_drop. lia.
  - simpl. apply IH. simpl. rewrite length_drop. lia.
  - cbn [l_pending]. simp lossy. rewrite Hs. split; [done|].
    apply utf8_step_more in Hs as [Hl _]. simpl. lia.
Qed.
Lemma lossy_valid l : from_utf8 l = None → lossy l = mkLossy l 0 (non_ascii l) [].
Proof. intros H. pose proof (from_utf8_lossy_spec l) as Hl. by rewrite H in Hl. Qed.
Lemma from_utf8_lossy_valid l : from_utf8 l = None → from_utf8_lossy l = l.
Proof. intros H. unfold from_utf8_lossy. rewrite lossy_valid by done. apply app_nil_r. Qed.

(** ** The incremental decoder (on systems other than Windows) *)

Record IncrementalDecoder := mkDecoder {
  utf8_pending : bytes;
  decode_errors : N;
  source_encoding : string;
  observed_bytes : bool;
  saw_non_ascii_utf8 : bool;
}.
Definition UTF8_LABEL : string := "utf-8".
Definition decoder_new : IncrementalDecoder := mkDecoder [] 0 UTF8_LABEL false false.
Definition set_pending (d : IncrementalDecoder) (p : bytes) : IncrementalDecoder :=
  mkDecoder p (decode_errors d) (source_encoding d) (observed_bytes d) (saw_non_ascii_utf8 d).
Definition saw_valid (d : IncrementalDecoder) (valid : bytes) : IncrementalDecoder :=
  mkDecoder (utf8_pending d) (decode_errors d) (source_encoding d) (observed_bytes d)
    (saw_non_ascii_utf8 d || non_ascii valid).
Definition count_error (d : IncrementalDecoder) : IncrementalDecoder :=
  mkDecoder (utf8_pending d) (u64_sat_add (decode_errors d) 1) (source_encoding d) (observed_bytes d)
    (saw_non_ascii_utf8 d).

Lemma from_utf8_error_len l e k : from_utf8 l = Some e → error_len e = Some k → 0 < k.
Proof.
  intros H Hk. pose proof (from_utf8_lossy_spec l) as Hl. rewrite H in Hl. destruct e as [v [n|]]; [|done].
  simpl in Hk. simplify_eq. by destruct Hl.
Qed.
(** A value with the equation that defines it. *)
Definition inspect {A} (x : A) : {y | x = y} := exist _ x eq_refl.
(** The [while] loop of [decode_text]; [rest] is the input from [index] on. *)
Equations? decode_loop (d : IncrementalDecoder) (txt rest : bytes) : bytes * IncrementalDecoder
    by wf (length rest) lt :=
  decode_loop d txt [] := (txt, d);
  decode_loop d txt (a :: l) with inspect (from_utf8 (a :: l)) => {
    | exist _ None _ := (txt ++ a :: l, saw_valid d (a :: l));
    | exist _ (Some e) He with inspect (error_len e) => {
        | exist _ None _ :=
            let valid := take (valid_up_to e) (a :: l) in
            (txt ++ valid, set_pending (saw_valid d valid) (utf8_pending d ++ drop (valid_up_to e) (a :: l)));
        | exist _ (Some k) Hk :=
            let valid := take (valid_up_to e) (a :: l) in
            decode_loop (count_error (saw_valid d valid)) ((txt ++ valid) ++ replacement)
              (drop (valid_up_to e + k) (a :: l)) } }.
Proof.
  rewrite length_drop. pose proof (from_utf8_error_len _ _ _ He Hk). simpl. lia.
Qed.
Definition decode_text (d : IncrementalDecoder) (bs : bytes) : bytes * IncrementalDecoder :=
  decode_loop (set_pending d []) [] (utf8_pending d ++ bs).
Definition decode (d : IncrementalDecoder) (bs : bytes) : bytes * IncrementalDecoder :=
  let d := mkDecoder (utf8_pending d) (decode_errors d) (source_encoding d)
             (observed_bytes d || negb (bool_decide (bs = []))) (saw_non_ascii_utf8 d) in
  decode_text d bs.
Definition DECODE_SCRATCH_BYTES : nat := 4 * 1024.
(** [bytes.chunks(n)]; the fuel is the length. *)
Fixpoint chunks_of (n fuel : nat) (bs : bytes) : list bytes :=
  match fuel, bs with
  | S fuel, _ :: _ => take n bs :: chunks_of n fuel (drop n bs)
  | _, _ => []
  end.
Definition discard_bounded (d : IncrementalDecoder) (bs : bytes) : IncrementalDecoder :=
  foldl (λ d c, (decode d c).2) d (chunks_of DECODE_SCRATCH_BYTES (length bs) bs).
Definition finish (d : IncrementalDecoder) : bytes * IncrementalDecoder :=
  match utf8_pending d with
  | [] => ([], d)
  | _ => (replacement, set_pending (count_error d) [])
  end.

Example decode_ex :
  (decode (decode decoder_new [u8 195]).2 [u8 169; u8 255]).1 = [u8 195; u8 169] ++ replacement.
Proof. vm_compute. reflexivity. Qed.

(** ** What decoding computes *)

Definition advance (d : IncrementalDecoder) (r : lossy_result) (p : bytes) : IncrementalDecoder :=
  mkDecoder p (u64_sat_add (decode_errors d) (l_errors r)) (source_encoding d) (observed_bytes d)
    (saw_non_ascii_utf8 d || l_non_ascii r).
Lemma u64_sat_add_assoc a b c : u64_sat_add (u64_sat_add a b) c = u64_sat_add a (b + c).
Proof. unfold u64_sat_add. lia. Qed.

Lemma decode_loop_lossy d txt (l : bytes) :
  utf8_pending d = [] → is_u64 (decode_errors d) →
  decode_loop d txt l = (txt ++ l_text (lossy l), advance d (lossy l) (l_pending (lossy l))).
Proof.
  revert d txt. induction l as [l IH] using bytes_ind. intros d txt Hp Hu. destruct l as [|a l].
  - simp decode_loop lossy. unfold advance. destruct d; simpl in *; subst.
    rewrite app_nil_r, u64_sat_add_exact, N.add_0_r, orb_false_r; [done|]. by rewrite N.add_0_r.
  - rewrite decode_loop_equation_2. pose proof (from_utf8_lossy_spec (a :: l)) as Hl.
    destruct (inspect (from_utf8 (a :: l))) as [[e|] He]; rewrite He in Hl.
    + destruct e as [v n]. simpl. destruct (inspect n) as [[k|] Hk]; subst n; simpl.
      * destruct Hl as (Hk&Hv&->). rewrite IH; [|rewrite length_drop; simpl in *; lia|done|apply u64_sat_add_le].
        unfold advance, lossy_cons. simpl. rewrite u64_sat_add_assoc, orb_assoc, !app_assoc. done.
      * rewrite Hl. unfold advance, set_pending, saw_valid. simpl. rewrite Hp.
        by rewrite u64_sat_add_exact, N.add_0_r by by rewrite N.add_0_r.
    + rewrite Hl. unfold advance. simpl. unfold saw_valid. rewrite Hp. simpl.
      by rewrite u64_sat_add_exact, N.add_0_r by by rewrite N.add_0_r.
Qed.

(** The decoder that has read [l] in all, in whatever pieces. *)
Definition decoder_after (l : bytes) : IncrementalDecoder :=
  mkDecoder (l_pending (lossy l)) (N.min (l_errors (lossy l)) u64_max) UTF8_LABEL
    (negb (bool_decide (l = []))) (l_non_ascii (lossy l)).
(** The text that reading [bs] adds behind [l]. *)
Definition text_behind (l bs : bytes) : bytes := l_text (lossy (l_pending (lossy l) ++ bs)).

Lemma text_behind_app l b1 b2 : text_behind l (b1 ++ b2) = text_behind l b1 ++ text_behind (l ++ b1) b2.
Proof.
  unfold text_behind. rewrite app_assoc, lossy_app. simpl. do 2 f_equal.
  by rewrite (lossy_app l b1).
Qed.
Lemma text_behind_nil bs : text_behind [] bs = l_text (lossy bs).
Proof. unfold text_behind. by simp lossy. Qed.
Lemma text_behind_empty l : text_behind l [] = [].
Proof. unfold text_behind. rewrite app_nil_r. by rewrite (proj1 (lossy_pending l)). Qed.
Lemma text_of_app l bs : l_text (lossy (l ++ bs)) = l_text (lossy l) ++ text_behind l bs.
Proof. by rewrite lossy_app. Qed.

Lemma decoder_new_after : decoder_new = decoder_after [].
Proof. unfold decoder_after. by simp lossy. Qed.
Lemma decode_after l bs : decode (decoder_after l) bs = (text_behind l bs, decoder_after (l ++ bs)).
Proof.
  unfold decode, decode_text. cbn [utf8_pending].
  rewrite decode_loop_lossy; [|done|unfold is_u64; simpl; lia].
  unfold advance, set_pending, decoder_after. cbn -[N.min u64_max].
  rewrite (lossy_app l bs). unfold lossy_cons, text_behind. cbn -[N.min u64_max]. f_equal. f_equal.
  - unfold u64_sat_add. lia.
  - by destruct l, bs.
Qed.
Lemma chunks_of_concat n fuel bs : 0 < n → length bs ≤ fuel → concat (chunks_of n fuel bs) = bs.
Proof.
  intros Hn. revert bs. induction fuel as [|fuel IH]; intros [|b bs] Hf; simpl in *; try done; [lia|].
  rewrite IH; [by rewrite (take_drop n (b :: bs))|].
  rewrite length_drop. simpl. lia.
Qed.
Lemma decode_chunks_after l css :
  foldl (λ d c, (decode d c).2) (decoder_after l) css = decoder_after (l ++ concat css).
Proof.
  revert l. induction css as [|c css IH]; intros l; simpl; [by rewrite app_nil_r|].
  rewrite decode_after. simpl. by rewrite IH, app_assoc.
Qed.
Lemma discard_after l bs : discard_bounded (decoder_after l) bs = decoder_after (l ++ bs).
Proof.
  unfold discard_bounded. rewrite decode_chunks_after, chunks_of_concat; [done|unfold DECODE_SCRATCH_BYTES; lia|done].
Qed.
Lemma finish_after l : l_text (lossy l) ++ (finish (decoder_after l)).1 = from_utf8_lossy l.
Proof. unfold finish, from_utf8_lossy. simpl. by destruct (l_pending (lossy l)). Qed.

(** Everything the decoder outputs is well-formed. *)
Lemma from_utf8_app x y : from_utf8 x = None → from_utf8 (x ++ y) = shift_error (length x) (from_utf8 y).
Proof.
  induction x as [x IH] using bytes_ind. destruct x as [|a l]; intros H.
  - simpl. unfold shift_error. by destruct (from_utf8 y) as [[]|].
  - simpl app. simp from_utf8 in *. destruct (utf8_step a l) as [k|k|] eqn:Hs; simp from_utf8 in *; [|done..].
    pose proof (utf8_step_len a l k (or_introl Hs)) as Hk. rewrite utf8_step_app, Hs by by rewrite Hs.
    simp from_utf8. rewrite drop_app_le by done. rewrite IH; [|simpl; rewrite length_drop; lia|].
    + unfold shift_error. destruct (from_utf8 y) as [[]|]; [|done]. simpl. rewrite length_drop. do 2 f_equal. lia.
    + by destruct (from_utf8 (drop k l)).
Qed.
Lemma from_utf8_char a l k : utf8_step a l = Utf8Char k → from_utf8 (a :: take k l) = None.
Proof.
  intros Hs. pose proof (utf8_step_len a l k (or_introl Hs)) as Hk. simp from_utf8.
  assert (utf8_step a (take k l) = Utf8Char k) as ->.
  { revert Hs. unfold utf8_step.
    destruct (utf8_char_width a) as [|[|[|[|w]]]], l as [|b [|c [|d l]]]; intros Hs; try discriminate;
      try (injection Hs as <-; done); simpl in Hs;
      repeat (match type of Hs with (if ?b then _ else _) = _ => destruct b eqn:? end; try discriminate);
      injection Hs as <-; simpl;
      repeat match goal with H : _ = _ |- _ => rewrite H end; done. }
  simp from_utf8. rewrite drop_ge by (rewrite length_take; lia). by simp from_utf8.
Qed.
Lemma lossy_text_valid (l : bytes) : from_utf8 (l_text (lossy l)) = None.
Proof.
  induction l as [l IH] using bytes_ind. destruct l as [|a l]; [by simp lossy from_utf8|].
  simp lossy. destruct (utf8_step a l) as [k|k|] eqn:Hs; simp lossy; cbn [lossy_cons l_text];
    [| |by simp from_utf8]; rewrite from_utf8_app, IH;
    try (simpl; rewrite length_drop; lia); try done. by eapply from_utf8_char.
Qed.
