(* ===== verification/OutputBuffer.v ===== *)
(** The bounded replay buffer of process output
    (shared/nomi-process-runtime/src/io.rs and outcome.rs, systems other than
    Windows).  A panic of [expect] is [None]; offsets and sizes are 64-bit. *)
From S2P Require Import Prelude Utf8.

Inductive OutputStream := Stdout | Stderr | Pty.
#[export] Instance OutputStream_eq_dec : EqDecision OutputStream.
Proof. solve_decision. Defined.

Record StoredChunk := mkStored {
  st_seq : N;
  st_start : N;
  st_stream : OutputStream;
  st_bytes : bytes;
}.
Record StreamDecoders := mkDecoders {
  stdout : IncrementalDecoder;
  stderr : IncrementalDecoder;
  pty : IncrementalDecoder;
}.
Definition decoders_new : StreamDecoders := mkDecoders decoder_new decoder_new decoder_new.
Definition for_stream (ds : StreamDecoders) (s : OutputStream) : IncrementalDecoder :=
  match s with Stdout => stdout ds | Stderr => stderr ds | Pty => pty ds end.
Definition set_stream (ds : StreamDecoders) (s : OutputStream) (d : IncrementalDecoder) : StreamDecoders :=
  match s with
  | Stdout => mkDecoders d (stderr ds) (pty ds)
  | Stderr => mkDecoders (stdout ds) d (pty ds)
  | Pty => mkDecoders (stdout ds) (stderr ds) d
  end.
(** [decoders.for_stream_mut(stream).decode(bytes)] *)
Definition decode_stream (ds : StreamDecoders) (s : OutputStream) (bs : bytes) : bytes * StreamDecoders :=
  let '(t, d) := decode (for_stream ds s) bs in (t, set_stream ds s d).
Definition discard_stream (ds : StreamDecoders) (s : OutputStream) (bs : bytes) : StreamDecoders :=
  set_stream ds s (discard_bounded (for_stream ds s) bs).
(** [StreamDecoders::finish] *)
Definition finish_streams (ds : StreamDecoders) : list (OutputStream * bytes) * StreamDecoders :=
  let '(t1, d1) := finish (stdout ds) in
  let '(t2, d2) := finish (stderr ds) in
  let '(t3, d3) := finish (pty ds) in
  ([(Stdout, t1); (Stderr, t2); (Pty, t3)], mkDecoders d1 d2 d3).

Record EncodingMetadata := mkEncoding { em_source_encoding : string; em_decode_errors : N }.
Definition metadata (ds : StreamDecoders) : EncodingMetadata :=
  let decoders := [stdout ds; stderr ds; pty ds] in
  let errors := foldl (λ total d, u64_sat_add total (decode_errors d)) 0%N decoders in
  let sources := source_encoding <$> filter (λ d, observed_bytes d = true) decoders in
  mkEncoding
    (match reverse sources with
     | [] => UTF8_LABEL
     | source :: others => if forallb (λ o, bool_decide (o = source)) (reverse others) then source else "mixed"
     end) errors.

Record OutputState := mkOutput {
  next_seq : N;
  next_offset : N;
  base_offset : N;
  retained : N;
  dropped_bytes : N;
  chunks : list StoredChunk;
  decoders : StreamDecoders;
  base_decoders : StreamDecoders;
  finalized : bool;
}.
Inductive OutputBufferState := Live (s : OutputState) | Frozen (s : OutputState).
(** [changed] is the wrapping generation of the watch channel. *)
Record OutputBuffer := mkBuffer { limit : N; inner : OutputBufferState; changed : N }.
Definition output_new : OutputState := mkOutput 0 0 0 0 0 [] decoders_new decoders_new false.
Definition buffer_new (limit_bytes : N) : OutputBuffer := mkBuffer limit_bytes (Live output_new) 0.

Definition checked_add (a b : N) : option N := if (a + b <=? u64_max)%N then Some (a + b)%N else None.
Definition checked_sub (a b : N) : option N := if (b <=? a)%N then Some (a - b)%N else None.
Definition byte_count (bs : bytes) : N := N.of_nat (length bs).
Definition u64_wrapping_add (a b : N) : N := ((a + b) mod 18446744073709551616)%N.

(** [drop_oldest] on the chunk queue, the decoders below it and the retained size. *)
Fixpoint drop_oldest_loop (cs : list StoredChunk) (ds : StreamDecoders) (kept count : N) :
    option (list StoredChunk * StreamDecoders * N) :=
  if (count =? 0)%N then Some (cs, ds, kept) else
  match cs with
  | [] => None
  | c :: cs' =>
      let drop_now := N.min count (byte_count (st_bytes c)) in
      let ds := (decode_stream ds (st_stream c) (take (N.to_nat drop_now) (st_bytes c))).2 in
      if (drop_now =? byte_count (st_bytes c))%N then
        kept ← checked_sub kept drop_now;
        drop_oldest_loop cs' ds kept (count - drop_now)
      else
        start ← checked_add (st_start c) drop_now;
        kept ← checked_sub kept drop_now;
        Some (mkStored (st_seq c) start (st_stream c) (drop (N.to_nat drop_now) (st_bytes c)) :: cs', ds, kept)
  end.
Definition drop_oldest (s : OutputState) (count : N) : option OutputState :=
  '(cs, ds, kept) ← drop_oldest_loop (chunks s) (base_decoders s) (retained s) count;
  Some (mkOutput (next_seq s) (next_offset s) (base_offset s) kept (dropped_bytes s) cs (decoders s) ds (finalized s)).

(** [OutputState::retain] *)
Definition retain (s : OutputState) (limit seq start : N) (stream : OutputStream) (bs : bytes) :
    option (OutputState * N) :=
  match bs with
  | [] => Some (s, 0%N)
  | _ =>
      let keep := N.min (byte_count bs) limit in
      let dropped_from_new := (byte_count bs - keep)%N in
      total ← checked_add (retained s) keep;
      let dropped_from_old := (total - limit)%N in
      s ← drop_oldest s dropped_from_old;
      let base_ds :=
        if (0 <? dropped_from_new)%N
        then discard_stream (base_decoders s) stream (take (N.to_nat dropped_from_new) bs)
        else base_decoders s in
      '(cs, kept) ←
        (if (0 <? keep)%N then
           kept_start ← checked_add start dropped_from_new;
           kept ← checked_add (retained s) keep;
           Some (chunks s ++ [mkStored seq kept_start stream (drop (N.to_nat dropped_from_new) bs)], kept)
         else Some (chunks s, retained s));
      dropped ← checked_add dropped_from_old dropped_from_new;
      base ← checked_add (base_offset s) dropped;
      total_dropped ← checked_add (dropped_bytes s) dropped;
      Some (mkOutput (next_seq s) (next_offset s) base kept total_dropped cs (decoders s) base_ds (finalized s),
            dropped)
  end.

(** [push] on a live state. *)
Definition push_state (s : OutputState) (limit : N) (stream : OutputStream) (bs : bytes) :
    option (OutputState * N) :=
  let start := next_offset s in
  offset ← checked_add (next_offset s) (byte_count bs);
  let seq := next_seq s in
  seq' ← checked_add (next_seq s) 1;
  retain (mkOutput seq' offset (base_offset s) (retained s) (dropped_bytes s) (chunks s)
            (discard_stream (decoders s) stream bs) (base_decoders s) (finalized s))
    limit seq start stream bs.
(** [OutputBuffer::push]: the buffer, the bytes dropped and what the observer saw. *)
Definition push (b : OutputBuffer) (stream : OutputStream) (bs : bytes) :
    option (OutputBuffer * N * list (OutputStream * bytes)) :=
  match inner b with
  | Frozen _ => Some (b, 0%N, [])
  | Live s =>
      '(s, dropped) ← push_state s (limit b) stream bs;
      Some (match bs with
            | [] => (mkBuffer (limit b) (Live s) (changed b), dropped, [])
            | _ => (mkBuffer (limit b) (Live s) (u64_wrapping_add (changed b) 1), dropped, [(stream, bs)])
            end)
  end.

(** ** Snapshots *)

Record OutputChunk := mkChunk {
  oc_seq : N;
  oc_start : N;
  oc_stream : OutputStream;
  oc_bytes : bytes;
  oc_text : bytes;
}.
Record OutputSnapshot := mkSnapshot {
  snap_chunks : list OutputChunk;
  next_cursor : N;
  retained_bytes : N;
  snap_dropped_bytes : N;
  encoding : EncodingMetadata;
}.
Definition snapshot_text (s : OutputSnapshot) : bytes := concat (oc_text <$> snap_chunks s).
Definition raw_bytes (s : OutputSnapshot) : bytes := concat (oc_bytes <$> snap_chunks s).

(** The loop over the stored chunks. *)
Fixpoint snapshot_chunks (start : N) (ds : StreamDecoders) (cs : list StoredChunk) :
    option (list OutputChunk * StreamDecoders) :=
  match cs with
  | [] => Some ([], ds)
  | c :: cs =>
      stop ← checked_add (st_start c) (byte_count (st_bytes c));
      if (stop <=? start)%N then
        snapshot_chunks start (decode_stream ds (st_stream c) (st_bytes c)).2 cs
      else
        let slice_start := N.to_nat (start - st_start c) in
        let ds := if bool_decide (0 < slice_start)
                  then (decode_stream ds (st_stream c) (take slice_start (st_bytes c))).2 else ds in
        let bs := drop slice_start (st_bytes c) in
        chunk_start ← checked_add (st_start c) (N.of_nat slice_start);
        let '(t, ds) := decode_stream ds (st_stream c) bs in
        '(rest, ds) ← snapshot_chunks start ds cs;
        Some (mkChunk (st_seq c) chunk_start (st_stream c) bs t :: rest, ds)
  end.
(** [chunks.iter_mut().rev().find(..)] and [push_str] *)
Fixpoint append_last (stream : OutputStream) (t : bytes) (cs : list OutputChunk) : option (list OutputChunk) :=
  match cs with
  | [] => None
  | c :: cs =>
      match append_last stream t cs with
      | Some cs => Some (c :: cs)
      | None =>
          if bool_decide (oc_stream c = stream)
          then Some (mkChunk (oc_seq c) (oc_start c) (oc_stream c) (oc_bytes c) (oc_text c ++ t) :: cs)
          else None
      end
  end.
(** The final replacement characters of the streams, in turn. *)
Fixpoint append_finished (s : OutputState) (ordinal : N) (finished : list (OutputStream * bytes))
    (cs : list OutputChunk) : option (list OutputChunk) :=
  match finished with
  | [] => Some cs
  | (stream, t) :: finished =>
      cs ← match t with
           | [] => Some cs
           | _ =>
               match append_last stream t cs with
               | Some cs => Some cs
               | None =>
                   if existsb (λ c, bool_decide (st_stream c = stream)) (chunks s) then
                     seq ← checked_add (next_seq s) ordinal;
                     Some (cs ++ [mkChunk seq (next_offset s) stream [] t])
                   else Some cs
               end
           end;
      append_finished s (ordinal + 1) finished cs
  end.
Definition snapshot_from_state (s : OutputState) (cursor : N) : option OutputSnapshot :=
  let start := N.min (N.max cursor (base_offset s)) (next_offset s) in
  '(cs, ds) ← snapshot_chunks start (base_decoders s) (chunks s);
  cs ← (if finalized s then append_finished s 0 (finish_streams ds).1 cs else Some cs);
  Some (mkSnapshot cs (next_offset s) (retained s) (dropped_bytes s) (metadata (decoders s))).
Definition snapshot_from (b : OutputBuffer) (cursor : N) : option OutputSnapshot :=
  match inner b with Live s | Frozen s => snapshot_from_state s cursor end.

(** ** Freezing *)

Definition finalize (s : OutputState) : OutputState :=
  if finalized s then s else
  mkOutput (next_seq s) (next_offset s) (base_offset s) (retained s) (dropped_bytes s) (chunks s)
    (finish_streams (decoders s)).2 (base_decoders s) true.
Definition freeze (b : OutputBuffer) : OutputBuffer :=
  match inner b with
  | Frozen _ => b
  | Live s => mkBuffer (limit b) (Frozen (finalize s)) (u64_wrapping_add (changed b) 1)
  end.

Fixpoint push_all (b : OutputBuffer) (log : list (OutputStream * bytes)) : option OutputBuffer :=
  match log with
  | [] => Some b
  | (stream, bs) :: log => r ← push b stream bs; push_all r.1.1 log
  end.
Example output_ex :
  (b ← push_all (buffer_new 4) [(Stdout, as_bytes "ab"); (Stderr, as_bytes "xyz")];
   s ← snapshot_from b 0; Some (next_cursor s, raw_bytes s))
  = Some (5%N, as_bytes "bxyz").
Proof. vm_compute. reflexivity. Qed.
