(* ===== verification/OutputTheorems.v ===== *)
(** The replay buffer keeps exactly the newest bytes, never panics, and a reader
    that keeps up sees the same text as one uninterrupted decoding. *)
From S2P Require Import Prelude Utf8 OutputBuffer.

(** ** The abstract log: every byte with its stream *)

Definition tag (σ : OutputStream) (bs : bytes) : list (OutputStream * Ascii.ascii) := (σ,.) <$> bs.
Definition tagged (log : list (OutputStream * bytes)) : list (OutputStream * Ascii.ascii) :=
  concat ((λ p, tag p.1 p.2) <$> log).
Definition tagged_chunks (cs : list StoredChunk) : list (OutputStream * Ascii.ascii) :=
  concat ((λ c, tag (st_stream c) (st_bytes c)) <$> cs).
Definition stream_of (σ : OutputStream) (tl : list (OutputStream * Ascii.ascii)) : bytes :=
  omap (λ p, if decide (p.1 = σ) then Some p.2 else None) tl.

Lemma length_tag σ bs : length (tag σ bs) = length bs.
Proof. apply length_fmap. Qed.
Lemma tag_take σ n bs : tag σ (take n bs) = take n (tag σ bs).
Proof. apply fmap_take. Qed.
Lemma tag_drop σ n bs : tag σ (drop n bs) = drop n (tag σ bs).
Proof. apply fmap_drop. Qed.
Lemma tagged_snoc log σ bs : tagged (log ++ [(σ, bs)]) = tagged log ++ tag σ bs.
Proof. unfold tagged. by rewrite fmap_app, concat_app; simpl; rewrite app_nil_r. Qed.
Lemma tagged_chunks_cons c cs : tagged_chunks (c :: cs) = tag (st_stream c) (st_bytes c) ++ tagged_chunks cs.
Proof. done. Qed.
#[global] Arguments tagged_chunks : simpl never.
Lemma tagged_chunks_app c1 c2 : tagged_chunks (c1 ++ c2) = tagged_chunks c1 ++ tagged_chunks c2.
Proof. unfold tagged_chunks. by rewrite fmap_app, concat_app. Qed.
Lemma stream_of_app σ t1 t2 : stream_of σ (t1 ++ t2) = stream_of σ t1 ++ stream_of σ t2.
Proof. apply omap_app. Qed.
Lemma stream_of_tag σ τ bs : stream_of σ (tag τ bs) = if decide (τ = σ) then bs else [].
Proof.
  unfold stream_of, tag. destruct (decide (τ = σ)) as [He|He]; induction bs as [|b bs IH]; try done; simpl;
    [rewrite (decide_True _ _ He); by f_equal|by rewrite (decide_False _ _ He)].
Qed.

(** ** Decoders *)

Definition decoders_after (tl : list (OutputStream * Ascii.ascii)) : StreamDecoders :=
  mkDecoders (decoder_after (stream_of Stdout tl)) (decoder_after (stream_of Stderr tl))
    (decoder_after (stream_of Pty tl)).
Lemma for_stream_after tl σ : for_stream (decoders_after tl) σ = decoder_after (stream_of σ tl).
Proof. by destruct σ. Qed.
Lemma set_stream_after tl σ bs :
  set_stream (decoders_after tl) σ (decoder_after (stream_of σ tl ++ bs)) = decoders_after (tl ++ tag σ bs).
Proof. unfold decoders_after. rewrite !stream_of_app, !stream_of_tag. by destruct σ; simpl; rewrite ?app_nil_r. Qed.
Lemma decode_stream_after tl σ bs :
  decode_stream (decoders_after tl) σ bs = (text_behind (stream_of σ tl) bs, decoders_after (tl ++ tag σ bs)).
Proof. unfold decode_stream. by rewrite for_stream_after, decode_after, set_stream_after. Qed.
Lemma discard_stream_after tl σ bs :
  discard_stream (decoders_after tl) σ bs = decoders_after (tl ++ tag σ bs).
Proof. unfold discard_stream. by rewrite for_stream_after, discard_after, set_stream_after. Qed.

(** ** Chunks lie end to end *)

Fixpoint contiguous (o : N) (cs : list StoredChunk) : Prop :=
  match cs with
  | [] => True
  | c :: cs => st_start c = o ∧ st_bytes c ≠ [] ∧ contiguous (o + byte_count (st_bytes c)) cs
  end.
Lemma contiguous_snoc o cs c :
  contiguous o cs → st_start c = (o + N.of_nat (length (tagged_chunks cs)))%N → st_bytes c ≠ [] →
  contiguous o (cs ++ [c]).
Proof.
  revert o. induction cs as [|c' cs IH]; intros o; simpl.
  - intros _ -> ?. rewrite N.add_0_r. done.
  - intros (?&?&Hc) Hs ?. split_and!; [done..|]. apply IH; [done| |done].
    rewrite Hs, tagged_chunks_cons, length_app, length_tag. unfold byte_count. lia.
Qed.

Lemma contiguous_nil o cs : contiguous o cs → tagged_chunks cs = [] → cs = [].
Proof.
  destruct cs as [|c cs]; [done|]. intros (_&Hne&_). rewrite tagged_chunks_cons.
  by destruct (st_bytes c).
Qed.

Lemma checked_add_ok a b : is_u64 (a + b) → checked_add a b = Some (a + b)%N.
Proof. unfold checked_add, is_u64. intros H. by rewrite (proj2 (N.leb_le _ _) H). Qed.
Lemma checked_sub_ok a b : (b <= a)%N → checked_sub a b = Some (a - b)%N.
Proof. unfold checked_sub. intros H. by rewrite (proj2 (N.leb_le _ _) H). Qed.

Lemma drop_oldest_loop_spec cs pre o kept count :
  contiguous o cs → (count <= N.of_nat (length (tagged_chunks cs)))%N → (count <= kept)%N →
  is_u64 (o + N.of_nat (length (tagged_chunks cs))) →
  ∃ cs', drop_oldest_loop cs (decoders_after pre) kept count
           = Some (cs', decoders_after (pre ++ take (N.to_nat count) (tagged_chunks cs)), (kept - count)%N) ∧
    tagged_chunks cs' = drop (N.to_nat count) (tagged_chunks cs) ∧ contiguous (o + count) cs'.
Proof.
  revert pre o kept count. induction cs as [|c cs IH]; intros pre o kept count Hc Hlen Hk Hu; simpl.
  - simpl in Hlen. replace count with 0%N by lia. simpl. exists [].
    by rewrite app_nil_r, N.sub_0_r.
  - destruct (N.eqb_spec count 0) as [->|Hcount].
    { exists (c :: cs). rewrite take_0, app_nil_r, N.sub_0_r, N.add_0_r. done. }
    destruct Hc as (Hs&Hne&Hc). rewrite tagged_chunks_cons in *.
    rewrite length_app, length_tag in Hlen, Hu. unfold byte_count in *.
    rewrite decode_stream_after. cbn [snd].
    destruct (N.eqb_spec (N.min count (N.of_nat (length (st_bytes c)))) (N.of_nat (length (st_bytes c)))) as [Hd|Hd].
    + rewrite Hd, Nat2N.id, checked_sub_ok by lia. cbn [mbind option_bind].
      rewrite firstn_all.
      destruct (IH (pre ++ tag (st_stream c) (st_bytes c)) (o + N.of_nat (length (st_bytes c)))%N
        (kept - N.of_nat (length (st_bytes c)))%N (count - N.of_nat (length (st_bytes c)))%N)
        as (cs'&->&Ht&Hc'); [done|lia|lia|unfold is_u64 in *; lia|].
      exists cs'. split_and!.
      * rewrite (take_app_ge (tag _ _)), length_tag, app_assoc by (rewrite length_tag; lia).
        f_equal; f_equal; [do 4 f_equal; lia|lia].
      * rewrite Ht, drop_app_ge, length_tag by (rewrite length_tag; lia). f_equal. lia.
      * by replace (o + count)%N with
          (o + N.of_nat (length (st_bytes c)) + (count - N.of_nat (length (st_bytes c))))%N by lia.
    + assert (count < N.of_nat (length (st_bytes c)))%N as Hlt by lia.
      replace (N.min count (N.of_nat (length (st_bytes c)))) with count by lia.
      rewrite checked_add_ok, checked_sub_ok by (unfold is_u64 in *; lia). cbn [mbind option_bind].
      rewrite take_app_le, <-tag_take by (rewrite length_tag; lia).
      eexists. split_and!; [reflexivity| |].
      * rewrite tagged_chunks_cons. simpl. rewrite tag_drop, drop_app_le by (rewrite length_tag; lia). done.
      * simpl. rewrite Hs. split_and!; [done| |].
        -- intros H%(f_equal length). rewrite length_drop in H. simpl in H. lia.
        -- unfold byte_count. rewrite length_drop.
           by replace (o + count + N.of_nat (length (st_bytes c) - N.to_nat count))%N
             with (o + N.of_nat (length (st_bytes c)))%N by lia.
Qed.

(** ** The refinement *)

(** The newest [lim] bytes of [tl] are retained, and the base decoders have read
    exactly what was evicted. *)
Record window_ok (lim : N) (tl : list (OutputStream * Ascii.ascii)) (s : OutputState) : Prop := {
  win_retained : retained s = N.min lim (N.of_nat (length tl));
  win_base : base_offset s = (N.of_nat (length tl) - lim)%N;
  win_dropped : dropped_bytes s = (N.of_nat (length tl) - lim)%N;
  win_chunks : tagged_chunks (chunks s) = drop (N.to_nat (base_offset s)) tl;
  win_contiguous : contiguous (base_offset s) (chunks s);
  win_base_decoders : base_decoders s = decoders_after (take (N.to_nat (base_offset s)) tl);
  win_live : finalized s = false;
}.
(** The state after the pushes [log]; the decoders have read everything. *)
Record ring_ok (lim : N) (log : list (OutputStream * bytes)) (s : OutputState) : Prop := {
  ring_seq : next_seq s = N.of_nat (length log);
  ring_offset : next_offset s = N.of_nat (length (tagged log));
  ring_decoders : decoders s = decoders_after (tagged log);
  ring_window : window_ok lim (tagged log) s;
}.

Lemma ring_ok_new lim : ring_ok lim [] output_new.
Proof.
  assert (decoders_after [] = decoders_new) as Hd
    by (unfold decoders_after, decoders_new; simpl; by rewrite decoder_new_after).
  split; try done. split; try done; simpl; lia.
Qed.
Lemma window_length lim tl s :
  window_ok lim tl s → N.of_nat (length (tagged_chunks (chunks s))) = retained s.
Proof.
  intros H. rewrite (win_chunks _ _ _ H), length_drop, (win_base _ _ _ H), (win_retained _ _ _ H). lia.
Qed.

(** The new window: what remains of the old one, and the end of the new bytes. *)
Lemma window_snoc {A} (tl new : list A) (lim : nat) :
  drop (length tl + length new - lim) (tl ++ new)
  = drop (length tl + length new - lim) tl ++ drop (length new - lim) new.
Proof.
  rewrite drop_app. f_equal. destruct (decide (length new ≤ lim)).
  - replace (length tl + length new - lim - length tl) with 0 by lia.
    by replace (length new - lim) with 0 by lia.
  - f_equal. lia.
Qed.
Lemma evicted_snoc {A} (tl new : list A) (lim : nat) :
  take (length tl + length new - lim) (tl ++ new)
  = take (length tl + length new - lim) tl ++ take (length new - lim) new.
Proof.
  rewrite take_app. f_equal. destruct (decide (length new ≤ lim)).
  - replace (length tl + length new - lim - length tl) with 0 by lia.
    by replace (length new - lim) with 0 by lia.
  - f_equal. lia.
Qed.

Lemma drop_oldest_spec lim tl s count :
  window_ok lim tl s → is_u64 (N.of_nat (length tl)) → (count <= retained s)%N →
  ∃ cs, drop_oldest s count
      = Some (mkOutput (next_seq s) (next_offset s) (base_offset s) (retained s - count) (dropped_bytes s) cs
               (decoders s) (decoders_after (take (N.to_nat (base_offset s + count)) tl)) false) ∧
    tagged_chunks cs = drop (N.to_nat (base_offset s + count)) tl ∧
    contiguous (base_offset s + count) cs.
Proof.
  intros H Hu Hcount. pose proof (window_length _ _ _ H) as Hlen.
  destruct (drop_oldest_loop_spec (chunks s) (take (N.to_nat (base_offset s)) tl) (base_offset s)
    (retained s) count) as (cs&Hloop&Ht&Hc); [apply H|lia|lia| |].
  { rewrite Hlen, (win_base _ _ _ H), (win_retained _ _ _ H). unfold is_u64 in *. lia. }
  exists cs. unfold drop_oldest. rewrite (win_base_decoders _ _ _ H), Hloop. cbn [mbind option_bind].
  rewrite Ht, (win_chunks _ _ _ H), drop_drop, take_take_drop, N2Nat.inj_add, (win_live _ _ _ H). done.
Qed.

(** Cutting two lists at once, the second one only behind the end of the first *)
Lemma cut_app {A} (l r : list A) a b :
  (b = 0 ∧ a ≤ length l) ∨ a = length l →
  take a l ++ take b r = take (a + b) (l ++ r) ∧ drop a l ++ drop b r = drop (a + b) (l ++ r).
Proof.
  rewrite take_app, drop_app. intros [[-> Ha]| ->].
  - rewrite !Nat.add_0_r. by replace (a - length l) with 0 by lia.
  - rewrite (take_ge l), (drop_ge l), (take_ge l (_ + _)), (drop_ge l (_ + _)) by lia.
    by replace (length l + b - length l) with b by lia.
Qed.
(** What [retain] computes: it keeps [keep] bytes of the new ones, drops [old] retained
    ones and the first [fresh] new ones. *)
Lemma retain_result lim tl s seq σ bs (keep fresh old : N) cs :
  window_ok lim tl s → is_u64 (N.of_nat (length tl + length bs)) → bs ≠ [] →
  keep = N.min (byte_count bs) lim → fresh = (byte_count bs - keep)%N → old = (retained s + keep - lim)%N →
  drop_oldest s old = Some (mkOutput (next_seq s) (next_offset s) (base_offset s) (retained s - old) (dropped_bytes s)
    cs (decoders s) (decoders_after (take (N.to_nat (base_offset s + old)) tl)) false) →
  retain s lim seq (N.of_nat (length tl)) σ bs =
  Some (mkOutput (next_seq s) (next_offset s) (base_offset s + (old + fresh))
      (N.min lim (N.of_nat (length (tl ++ tag σ bs)))) (base_offset s + (old + fresh))
      (if (0 <? keep)%N then cs ++ [mkStored seq (N.of_nat (length tl) + fresh) σ (drop (N.to_nat fresh) bs)] else cs)
      (decoders s)
      (decoders_after (take (N.to_nat (base_offset s + old)) tl ++ tag σ (take (N.to_nat fresh) bs))) false,
    (old + fresh)%N).
Proof.
  intros H Hu Hne Hk Hfresh Holdc Hold.
  assert (0 < length bs) as Hpos by (destruct bs; [done|simpl; lia]).
  pose proof (win_base _ _ _ H) as Hbase. pose proof (win_retained _ _ _ H) as Hret.
  pose proof (win_dropped _ _ _ H) as Hdrop. unfold is_u64 in Hu.
  assert (Hbc : byte_count bs = N.of_nat (length bs)) by done.
  assert (Hlen : N.of_nat (length (tl ++ tag σ bs)) = (N.of_nat (length tl) + byte_count bs)%N)
    by (unfold byte_count; rewrite length_app, length_tag; lia).
  unfold retain. destruct bs as [|b bs0] eqn:Hbs; [done|]. rewrite <-Hbs in *.
  rewrite <-Hk, <-Hfresh, (checked_add_ok (retained s) keep) by (unfold is_u64; lia). cbn [mbind option_bind].
  rewrite <-Holdc, Hold. cbn [mbind option_bind base_decoders retained chunks next_seq next_offset
    base_offset dropped_bytes decoders finalized].
  replace (if (0 <? fresh)%N then _ else _) with
    (decoders_after (take (N.to_nat (base_offset s + old)) tl ++ tag σ (take (N.to_nat fresh) bs))).
  2: { destruct (N.ltb_spec 0 fresh); [by rewrite discard_stream_after|].
       replace fresh with 0%N by lia. simpl. by rewrite app_nil_r. }
  rewrite Hdrop. destruct (N.ltb_spec 0 keep).
  - repeat (rewrite checked_add_ok by (unfold is_u64; lia); cbn [mbind option_bind]).
    rewrite Hbase. apply f_equal, f_equal2; [f_equal; lia|lia].
  - cbn [mbind option_bind].
    repeat (rewrite checked_add_ok by (unfold is_u64; lia); cbn [mbind option_bind]).
    rewrite Hbase. apply f_equal, f_equal2; [f_equal; lia|lia].
Qed.
Lemma retain_spec lim tl s seq σ bs :
  window_ok lim tl s → is_u64 (N.of_nat (length tl + length bs)) →
  ∃ s', retain s lim seq (N.of_nat (length tl)) σ bs = Some (s', base_offset s' - base_offset s)%N ∧
    window_ok lim (tl ++ tag σ bs) s' ∧
    next_seq s' = next_seq s ∧ next_offset s' = next_offset s ∧ decoders s' = decoders s.
Proof.
  intros H Hu. destruct (decide (bs = [])) as [->|Hne].
  { exists s. cbn [retain tag fmap list_fmap]. by rewrite N.sub_diag, app_nil_r. }
  assert (0 < length bs) as Hpos by (destruct bs; [done|simpl; lia]).
  pose proof (win_base _ _ _ H) as Hbase. pose proof (win_retained _ _ _ H) as Hret.
  pose proof (win_dropped _ _ _ H) as Hdrop.
  remember (N.min (byte_count bs) lim) as keep eqn:Hk.
  remember (byte_count bs - keep)%N as fresh eqn:Hfresh.
  remember (retained s + keep - lim)%N as old eqn:Holdc.
  assert (Hbc : byte_count bs = N.of_nat (length bs)) by done.
  destruct (drop_oldest_spec lim tl s old) as (cs&Hold&Hcs&Hcont); [done|unfold is_u64 in *; lia|lia|].
  pose proof (retain_result lim tl s seq σ bs keep fresh old cs H Hu Hne Hk Hfresh Holdc Hold) as Hret'.
  unfold is_u64 in Hu. set (tl' := tl ++ tag σ bs) in *.
  assert (Hlen : N.of_nat (length tl') = (N.of_nat (length tl) + byte_count bs)%N)
    by (unfold tl', byte_count; rewrite length_app, length_tag; lia).
  assert (Hnew : (base_offset s + (old + fresh) = N.of_nat (length tl') - lim)%N) by lia.
  destruct (cut_app tl (tag σ bs) (N.to_nat (base_offset s + old)) (N.to_nat fresh)) as [Hev Hre]; [lia|].
  rewrite <-tag_take in Hev. rewrite <-tag_drop, <-Hcs in Hre. fold tl' in Hev, Hre. rewrite Hev in Hret'.
  rewrite <-!N2Nat.inj_add, <-!N.add_assoc in Hev, Hre, Hret'.
  eexists. rewrite Hret'. split_and!; [do 2 f_equal; simpl; lia| |done..].
  split; cbn [base_offset retained dropped_bytes chunks base_decoders finalized]; [done|lia|lia| | |done|done].
  - rewrite <-Hre. destruct (N.ltb_spec 0 keep).
    + by rewrite tagged_chunks_app, tagged_chunks_cons, app_nil_r.
    + rewrite drop_ge by lia. simpl. by rewrite app_nil_r.
  - destruct (decide (fresh = 0%N)) as [Hf|Hf].
    + rewrite Hf, N.add_0_r. destruct (N.ltb_spec 0 keep); [|done]. apply contiguous_snoc; [done| |].
      * simpl. rewrite Hcs, length_drop. lia.
      * simpl. by rewrite drop_0.
    + assert (cs = []) as ->.
      { eapply contiguous_nil; [done|]. rewrite Hcs. apply drop_ge. lia. }
      destruct (N.ltb_spec 0 keep); [|done]. simpl. split_and!; [lia| |done].
      intros Hd%(f_equal length). rewrite length_drop in Hd. simpl in Hd. lia.
Qed.

Lemma push_spec lim log s σ bs :
  ring_ok lim log s → is_u64 (N.of_nat (length (tagged log) + length bs)) → is_u64 (N.of_nat (S (length log))) →
  ∃ s', push_state s lim σ bs = Some (s', base_offset s' - base_offset s)%N ∧
    ring_ok lim (log ++ [(σ, bs)]) s'.
Proof.
  intros H Hu Hq. unfold push_state, byte_count.
  rewrite (ring_offset _ _ _ H), (ring_seq _ _ _ H), (ring_decoders _ _ _ H), discard_stream_after.
  repeat (rewrite checked_add_ok by (unfold is_u64 in *; lia); cbn [mbind option_bind]).
  set (s1 := mkOutput _ _ _ _ _ _ _ _ _).
  destruct (retain_spec lim (tagged log) s1 (N.of_nat (length log)) σ bs) as (s'&Hr&Hw&Hs&Ho&Hd); [|done|].
  { by destruct H as [_ _ _ []]. }
  exists s'. split; [done|]. split; rewrite ?tagged_snoc, ?length_app, ?Hs, ?Ho, ?Hd;
    [simpl; lia|simpl; rewrite length_tag; lia|done|done].
Qed.

(** ** Snapshots *)

Definition out_tags (cs : list OutputChunk) : list (OutputStream * Ascii.ascii) :=
  concat ((λ c, tag (oc_stream c) (oc_bytes c)) <$> cs).
Definition out_text (σ : OutputStream) (cs : list OutputChunk) : bytes :=
  concat ((λ c, if decide (oc_stream c = σ) then oc_text c else []) <$> cs).
Fixpoint out_contiguous (o : N) (cs : list OutputChunk) : Prop :=
  match cs with
  | [] => True
  | c :: cs => oc_start c = o ∧ oc_bytes c ≠ [] ∧ out_contiguous (o + byte_count (oc_bytes c)) cs
  end.

Lemma snapshot_chunks_spec cs pre o start :
  contiguous o cs → is_u64 (o + N.of_nat (length (tagged_chunks cs))) →
  let n := N.to_nat (start - o) in
  ∃ ocs, snapshot_chunks start (decoders_after pre) cs = Some (ocs, decoders_after (pre ++ tagged_chunks cs)) ∧
    out_tags ocs = drop n (tagged_chunks cs) ∧ out_contiguous (N.max start o) ocs ∧
    ∀ σ, out_text σ ocs
         = text_behind (stream_of σ (pre ++ take n (tagged_chunks cs))) (stream_of σ (drop n (tagged_chunks cs))).
Proof.
  revert pre o. induction cs as [|c cs IH]; intros pre o Hc Hu n;
    (assert (Hnd : n = N.to_nat (start - o)) by done); clearbody n; simpl.
  - exists []. rewrite app_nil_r. split_and!; try done.
    + by destruct n.
    + intros σ. replace (drop n (tagged_chunks [])) with (@nil (OutputStream * Ascii.ascii)) by by destruct n.
      by rewrite text_behind_empty.
  - destruct Hc as (Hs&Hne&Hc). rewrite tagged_chunks_cons, length_app, length_tag in *. unfold byte_count in *.
    specialize (IH (pre ++ tag (st_stream c) (st_bytes c)) (o + N.of_nat (length (st_bytes c)))%N Hc
      ltac:(unfold is_u64 in *; lia)) as (ocs&Heq&Htags&Hcont&Htext).
    rewrite Hs, (checked_add_ok o (N.of_nat (length (st_bytes c)))) by (unfold is_u64 in *; lia). cbn [mbind option_bind].
    destruct (N.leb_spec (o + N.of_nat (length (st_bytes c))) start) as [Hle|Hlt].
    + rewrite decode_stream_after. cbn [snd]. exists ocs. rewrite Heq.
      assert (N.to_nat (start - (o + N.of_nat (length (st_bytes c)))) = n - length (st_bytes c)) as Hn by lia.
      rewrite Hn in *.
      split_and!.
      * by rewrite app_assoc.
      * by rewrite drop_app_ge, length_tag by (rewrite length_tag; lia).
      * by replace (N.max start o) with (N.max start (o + N.of_nat (length (st_bytes c)))) by lia.
      * intros σ. rewrite Htext, take_app_ge, drop_app_ge, length_tag by (rewrite length_tag; lia).
        by rewrite app_assoc.
    + rewrite <-Hnd. assert (N.to_nat (start - (o + N.of_nat (length (st_bytes c)))) = 0) as Hz by lia.
      rewrite Hz, take_0, drop_0, app_nil_r in *.
      assert (Hn : n < length (st_bytes c)) by (destruct (st_bytes c); [done|simpl in *; lia]).
      assert (Hsub : (o + N.of_nat n = N.max start o)%N) by lia.
      replace (if bool_decide (0 < n) then _ else _)
        with (decoders_after (pre ++ tag (st_stream c) (take n (st_bytes c)))).
      2: { case_bool_decide; [by rewrite decode_stream_after|]. replace n with 0 by lia. by rewrite take_0, app_nil_r. }
      rewrite checked_add_ok by (unfold is_u64 in *; lia). cbn [mbind option_bind].
      rewrite decode_stream_after, <-app_assoc.
      replace (tag (st_stream c) (take n (st_bytes c)) ++ tag (st_stream c) (drop n (st_bytes c)))
        with (tag (st_stream c) (st_bytes c)).
      2: { by rewrite tag_take, tag_drop, take_drop. }
      rewrite Heq. cbn [mbind option_bind]. eexists. split_and!; [by rewrite <-app_assoc| | |].
      * rewrite drop_app_le, <-tag_drop, <-Htags by (rewrite length_tag; lia). done.
      * simpl. split_and!; [done| |].
        -- intros H%(f_equal length). rewrite length_drop in H. simpl in H. lia.
        -- unfold byte_count. rewrite length_drop.
           by replace (N.max start o + N.of_nat (length (st_bytes c) - n))%N
             with (N.max start (o + N.of_nat (length (st_bytes c)))) by lia.
      * intros σ. rewrite take_app_le, drop_app_le, <-tag_take, <-tag_drop by (rewrite length_tag; lia).
        rewrite (stream_of_app σ (tag _ _)), text_behind_app, <-stream_of_app, <-app_assoc.
        rewrite tag_take, tag_drop, take_drop. unfold out_text in *. simpl. rewrite Htext. f_equal.
        rewrite !stream_of_app, <-tag_drop, <-tag_take, !stream_of_tag.
        destruct (decide (st_stream c = σ)) as [<-|Hne']; [by rewrite decide_True by done|by rewrite text_behind_empty].
Qed.

Lemma out_text_app σ c1 c2 : out_text σ (c1 ++ c2) = out_text σ c1 ++ out_text σ c2.
Proof. unfold out_text. by rewrite fmap_app, concat_app. Qed.
Lemma out_text_cons σ c cs : out_text σ (c :: cs) = (if decide (oc_stream c = σ) then oc_text c else []) ++ out_text σ cs.
Proof. done. Qed.
Lemma out_tags_cons c cs : out_tags (c :: cs) = tag (oc_stream c) (oc_bytes c) ++ out_tags cs.
Proof. done. Qed.
Lemma out_tags_app c1 c2 : out_tags (c1 ++ c2) = out_tags c1 ++ out_tags c2.
Proof. unfold out_tags. by rewrite fmap_app, concat_app. Qed.

Lemma append_last_spec σ t cs :
  match append_last σ t cs with
  | Some cs' =>
      (∃ c, c ∈ cs ∧ oc_stream c = σ) ∧ oc_stream <$> cs' = oc_stream <$> cs ∧ out_tags cs' = out_tags cs ∧
      ∀ τ, out_text τ cs' = out_text τ cs ++ (if decide (σ = τ) then t else [])
  | None => ∀ c, c ∈ cs → oc_stream c ≠ σ
  end.
Proof.
  induction cs as [|c cs IH]; simpl; [set_solver|]. destruct (append_last σ t cs) as [cs'|].
  - destruct IH as ((c'&Hin&Hc')&Hs&Ht&Hx). split_and!; [|by rewrite !fmap_cons, Hs| |].
    + exists c'. split; [by right|done].
    + by rewrite !out_tags_cons, Ht.
    + intros τ. rewrite !out_text_cons, Hx. by rewrite app_assoc.
  - assert (∀ τ, σ = τ → out_text τ cs = []) as Hnone.
    { intros τ <-. clear -IH. induction cs as [|c cs IHcs]; [done|]. rewrite out_text_cons, decide_False by (apply IH; left).
      apply IHcs. intros c' Hc'. apply IH. by right. }
    case_bool_decide as Hc.
    + split_and!; [exists c; split; [left|done]|done|done|]. intros τ. rewrite !out_text_cons. simpl.
      destruct (decide (σ = τ)) as [<-|Hne].
      * rewrite !(decide_True (P := oc_stream c = σ)) by done. by rewrite Hnone, !app_nil_r.
      * by rewrite !(decide_False (P := oc_stream c = τ)), app_nil_r by congruence.
    + intros c' [->|Hin]%elem_of_cons; [done|by apply IH].
Qed.

(** What [finish] adds to the text of a stream that has a retained chunk. *)
Definition tail_of (σ : OutputStream) (finished : list (OutputStream * bytes)) : bytes :=
  concat ((λ p, if decide (p.1 = σ) then p.2 else []) <$> finished).
Definition has_chunk (s : OutputState) (σ : OutputStream) : bool :=
  existsb (λ c, bool_decide (st_stream c = σ)) (chunks s).

Lemma append_finished_spec s ordinal finished cs :
  is_u64 (next_seq s + ordinal + N.of_nat (length finished)) →
  (∀ c, c ∈ cs → has_chunk s (oc_stream c) = true) →
  ∃ cs', append_finished s ordinal finished cs = Some cs' ∧ out_tags cs' = out_tags cs ∧
    ∀ σ, out_text σ cs' = out_text σ cs ++ (if has_chunk s σ then tail_of σ finished else []).
Proof.
  revert ordinal cs. induction finished as [|[τ t] finished IH]; intros ordinal cs Hu Hcs; simpl.
  - exists cs. split_and!; [done..|]. intros σ. by destruct (has_chunk s σ); rewrite app_nil_r.
  - assert (∃ cs1, (match t with
      | [] => Some cs
      | _ => match append_last τ t cs with
             | Some cs => Some cs
             | None => if has_chunk s τ then
                 seq ← checked_add (next_seq s) ordinal;
                 Some (cs ++ [mkChunk seq (next_offset s) τ [] t]) else Some cs
             end end) = Some cs1 ∧ out_tags cs1 = out_tags cs ∧ (∀ c, c ∈ cs1 → has_chunk s (oc_stream c) = true) ∧
      ∀ σ, out_text σ cs1 = out_text σ cs ++ (if has_chunk s σ then if decide (τ = σ) then t else [] else []))
      as (cs1&Hstep&Htags&Hcs1&Htext).
    { destruct t as [|b t0] eqn:Ht.
      - exists cs. split_and!; [done..|]. intros σ.
        destruct (has_chunk s σ), (decide (τ = σ)); by rewrite app_nil_r.
      - rewrite <-Ht. pose proof (append_last_spec τ t cs) as Hl. destruct (append_last τ t cs) as [cs1|].
        + destruct Hl as ((c&Hc&Hcτ)&Hs&Htags&Htext). exists cs1. split_and!; [done..| |].
          * intros c' Hc'. apply (list_elem_of_fmap_2 oc_stream) in Hc'. rewrite Hs in Hc'.
            apply list_elem_of_fmap in Hc' as (c''&->&Hc''). auto.
          * intros σ. rewrite Htext. destruct (decide (τ = σ)) as [<-|]; [|by destruct (has_chunk s σ)].
            by rewrite <-Hcτ, Hcs.
        + destruct (has_chunk s τ) eqn:Hh.
          * simpl in Hu. rewrite checked_add_ok by (unfold is_u64 in *; lia). cbn [mbind option_bind].
            eexists. split_and!; [done| | |].
            -- rewrite out_tags_app. by rewrite app_nil_r.
            -- intros c [Hc| ->%list_elem_of_singleton]%elem_of_app; [auto|done].
            -- intros σ. rewrite out_text_app, out_text_cons. simpl.
               destruct (decide (τ = σ)) as [<-|]; [by rewrite Hh, app_nil_r|by destruct (has_chunk s σ)].
          * exists cs. split_and!; [done..|]. intros σ.
            destruct (decide (τ = σ)) as [<-|]; [by rewrite Hh, app_nil_r|by destruct (has_chunk s σ); rewrite app_nil_r]. }
    unfold has_chunk in Hstep at 1. rewrite Hstep. cbn [mbind option_bind].
    destruct (IH (ordinal + 1)%N cs1) as (cs'&->&Htags'&Htext'); [simpl in Hu; unfold is_u64 in *; lia|done|].
    exists cs'. split_and!; [done|congruence|]. intros σ. rewrite Htext', Htext, <-app_assoc.
    by destruct (has_chunk s σ).
Qed.

Definition total (log : list (OutputStream * bytes)) : N := N.of_nat (length (tagged log)).

Lemma has_chunk_spec o s σ :
  contiguous o (chunks s) → has_chunk s σ = negb (bool_decide (stream_of σ (tagged_chunks (chunks s)) = [])).
Proof.
  unfold has_chunk. revert o. induction (chunks s) as [|c cs IH]; intros o Hc; [done|].
  destruct Hc as (_&Hne&Hc). simpl. rewrite tagged_chunks_cons, stream_of_app, stream_of_tag, (IH _ Hc).
  destruct (decide (st_stream c = σ)) as [Hσ|Hσ]; [|by rewrite (bool_decide_eq_false_2 _ Hσ)].
  rewrite (bool_decide_eq_true_2 _ Hσ). by destruct (st_bytes c).
Qed.
Lemma out_tags_stream cs o c : out_contiguous o cs → c ∈ cs → stream_of (oc_stream c) (out_tags cs) ≠ [].
Proof.
  revert o. induction cs as [|c' cs IH]; intros o Hc Hin; [by apply not_elem_of_nil in Hin|].
  destruct Hc as (_&Hne&Hc). rewrite out_tags_cons, stream_of_app, stream_of_tag.
  apply elem_of_cons in Hin as [<-|Hin].
  - rewrite decide_True by done. by destruct (oc_bytes c).
  - specialize (IH _ Hc Hin). destruct (decide _); [|done]. by destruct (oc_bytes c').
Qed.
Lemma stream_of_drop_nil σ n tl : stream_of σ tl = [] → stream_of σ (drop n tl) = [].
Proof.
  intros H. rewrite <-(take_drop n tl), stream_of_app in H. by apply app_eq_nil in H as [_ ->].
Qed.

(** The chunks that a snapshot at [cursor] is made of. *)
Lemma snapshot_window lim log s cursor :
  ring_ok lim log s → is_u64 (total log) →
  let st := N.to_nat (N.min (N.max cursor (base_offset s)) (next_offset s)) in
  ∃ ocs, snapshot_chunks (N.min (N.max cursor (base_offset s)) (next_offset s)) (base_decoders s) (chunks s)
           = Some (ocs, decoders_after (tagged log)) ∧
    out_tags ocs = drop st (tagged log) ∧ out_contiguous (N.of_nat st) ocs ∧
    (∀ σ, out_text σ ocs = text_behind (stream_of σ (take st (tagged log))) (stream_of σ (drop st (tagged log)))) ∧
    (∀ c, c ∈ ocs → has_chunk s (oc_stream c) = true).
Proof.
  intros [_ Ho _ H] Hu st. pose proof (window_length _ _ _ H) as Hlen. destruct H as [Hr Hb Hd Hc Hcont Hbd _].
  unfold total in Hu. unfold is_u64 in Hu.
  destruct (snapshot_chunks_spec (chunks s) (take (N.to_nat (base_offset s)) (tagged log)) (base_offset s)
    (N.of_nat st) Hcont) as (ocs&Heq&Htags&Hoc&Htext); [unfold is_u64; rewrite Hlen; lia|].
  assert (N.of_nat st = N.min (N.max cursor (base_offset s)) (next_offset s)) as Hst by lia.
  assert (N.to_nat (base_offset s) + N.to_nat (N.of_nat st - base_offset s) = st) as Hsum by lia.
  exists ocs. rewrite Hbd, <-Hst, Heq, Hc, take_drop. rewrite Hc, drop_drop, Hsum in Htags.
  assert (out_contiguous (N.of_nat st) ocs) as Hoc'
    by by replace (N.of_nat st) with (N.max (N.of_nat st) (base_offset s)) by lia.
  split_and!; [done..| |].
  - intros σ. by rewrite Htext, Hc, take_take_drop, drop_drop, Hsum.
  - intros c Hin. rewrite (has_chunk_spec (base_offset s)) by done.
    pose proof (out_tags_stream _ _ _ Hoc' Hin) as Hne. rewrite Htags in Hne.
    case_bool_decide as Hnil; [|done]. destruct Hne. rewrite Hc in Hnil.
    replace st with (N.to_nat (base_offset s) + (st - N.to_nat (base_offset s))) by lia.
    rewrite <-drop_drop. by apply stream_of_drop_nil.
Qed.

Lemma snapshot_live lim log s cursor :
  ring_ok lim log s → is_u64 (total log) →
  let st := N.to_nat (N.min (N.max cursor (total log - lim)) (total log)) in
  ∃ snap, snapshot_from_state s cursor = Some snap ∧ next_cursor snap = total log ∧
    retained_bytes snap = N.min lim (total log) ∧ snap_dropped_bytes snap = (total log - lim)%N ∧
    out_tags (snap_chunks snap) = drop st (tagged log) ∧ out_contiguous (N.of_nat st) (snap_chunks snap) ∧
    ∀ σ, out_text σ (snap_chunks snap)
         = text_behind (stream_of σ (take st (tagged log))) (stream_of σ (drop st (tagged log))).
Proof.
  intros H Hu st. destruct (snapshot_window lim log s cursor H Hu) as (ocs&Heq&Htags&Hc&Htext&_).
  destruct H as [_ Ho _ [Hr Hb Hd _ _ _ Hl]].
  replace (N.to_nat (N.min (N.max cursor (base_offset s)) (next_offset s))) with st in *
    by (unfold st, total; rewrite Hb, Ho; done).
  eexists. unfold snapshot_from_state. rewrite Heq, Hl. cbn [mbind option_bind]. split_and!; done.
Qed.

Lemma tail_of_after tl σ :
  tail_of σ (finish_streams (decoders_after tl)).1 = (finish (decoder_after (stream_of σ tl))).1.
Proof.
  unfold finish_streams, decoders_after. cbn [stdout stderr pty].
  unfold tail_of. destruct σ; destruct (finish (decoder_after (stream_of Stdout tl))),
    (finish (decoder_after (stream_of Stderr tl))), (finish (decoder_after (stream_of Pty tl))); simpl;
    by rewrite ?app_nil_r.
Qed.

Lemma snapshot_frozen lim log s cursor :
  ring_ok lim log s → is_u64 (total log) → is_u64 (N.of_nat (length log + 3)) →
  let st := N.to_nat (N.min (N.max cursor (total log - lim)) (total log)) in
  ∃ snap, snapshot_from_state (finalize s) cursor = Some snap ∧
    out_tags (snap_chunks snap) = drop st (tagged log) ∧
    ∀ σ, out_text σ (snap_chunks snap)
         = text_behind (stream_of σ (take st (tagged log))) (stream_of σ (drop st (tagged log)))
           ++ (if bool_decide (stream_of σ (drop (N.to_nat (total log - lim)) (tagged log)) = []) then []
               else (finish (decoder_after (stream_of σ (tagged log)))).1).
Proof.
  intros H Hu Hq st. destruct (snapshot_window lim log s cursor H Hu) as (ocs&Heq&Htags&Hc&Htext&Hhas).
  destruct H as [Hs Ho _ [Hr Hb Hd Hch Hcont _ Hl]].
  replace (N.to_nat (N.min (N.max cursor (base_offset s)) (next_offset s))) with st in *
    by (unfold st, total; rewrite Hb, Ho; done).
  unfold finalize. rewrite Hl. set (s' := mkOutput _ _ _ _ _ _ _ _ _).
  destruct (append_finished_spec s' 0 (finish_streams (decoders_after (tagged log))).1 ocs)
    as (cs'&Happ&Htags'&Htext'); [|exact Hhas|].
  { unfold s'. cbn [next_seq]. rewrite Hs. unfold finish_streams.
    destruct (finish (stdout _)), (finish (stderr _)), (finish (pty _)). simpl. unfold is_u64 in *. lia. }
  eexists. unfold snapshot_from_state. cbn [next_offset base_offset base_decoders chunks s'] in *.
  rewrite Heq. cbn [mbind option_bind finalized s']. fold s'. rewrite Happ. cbn [mbind option_bind snap_chunks].
  split; [reflexivity|]. cbn [snap_chunks]. split; [by rewrite Htags', Htags|]. intros σ.
  rewrite Htext', Htext, tail_of_after. f_equal.
  unfold has_chunk. cbn [chunks s']. fold (has_chunk s σ).
  rewrite (has_chunk_spec (base_offset s)), Hch, Hb by done. fold (total log).
  by case_bool_decide.
Qed.

(** ** A reader that follows the cursor *)

Inductive reader_op := RPush (stream : OutputStream) (bs : bytes) | RRead.
Record reader := mkReader { cursor : N; read_text : OutputStream → bytes }.
Definition do_op (st : OutputBuffer * reader) (op : reader_op) : option (OutputBuffer * reader) :=
  let '(b, r) := st in
  match op with
  | RPush stream bs => p ← push b stream bs; Some (p.1.1, r)
  | RRead =>
      snap ← snapshot_from b (cursor r);
      Some (b, mkReader (next_cursor snap) (λ σ, read_text r σ ++ out_text σ (snap_chunks snap)))
  end.
Fixpoint run_ops (st : OutputBuffer * reader) (ops : list reader_op) : option (OutputBuffer * reader) :=
  match ops with [] => Some st | op :: ops => st ← do_op st op; run_ops st ops end.
Definition pushes (ops : list reader_op) : list (OutputStream * bytes) :=
  omap (λ op, match op with RPush σ bs => Some (σ, bs) | RRead => None end) ops.
(** Every read, and the end, comes before more than [lim] bytes are unread. *)
Fixpoint keeps_up (lim unread : N) (ops : list reader_op) : Prop :=
  match ops with
  | [] => (unread <= lim)%N
  | RPush _ bs :: ops => keeps_up lim (unread + byte_count bs) ops
  | RRead :: ops => (unread <= lim)%N ∧ keeps_up lim 0 ops
  end.

Definition reader_ok (lim : N) (log : list (OutputStream * bytes)) (unread : N) (st : OutputBuffer * reader) : Prop :=
  ∃ s g, st.1 = mkBuffer lim (Live s) g ∧ ring_ok lim log s ∧ (cursor st.2 + unread = total log)%N ∧
    ∀ σ, read_text st.2 σ = l_text (lossy (stream_of σ (take (N.to_nat (cursor st.2)) (tagged log)))).

Lemma total_snoc log σ bs : total (log ++ [(σ, bs)]) = (total log + byte_count bs)%N.
Proof. unfold total, byte_count. rewrite tagged_snoc, length_app, length_tag. lia. Qed.
Lemma do_push_ok lim log unread st σ bs :
  reader_ok lim log unread st → is_u64 (total (log ++ [(σ, bs)])) → is_u64 (N.of_nat (S (length log))) →
  ∃ st', do_op st (RPush σ bs) = Some st' ∧ reader_ok lim (log ++ [(σ, bs)]) (unread + byte_count bs) st'.
Proof.
  destruct st as [b r]. intros (s&g&Hb&Hring&Hcur&Htext) Hu Hq. simpl in Hb, Hcur, Htext. subst b.
  destruct (push_spec lim log s σ bs Hring) as (s'&Hpush&Hring'); [|done|].
  { rewrite total_snoc in Hu. unfold total, byte_count in Hu. by rewrite Nat2N.inj_add. }
  assert (∃ g', push (mkBuffer lim (Live s) g) σ bs
    = Some (mkBuffer lim (Live s') g', (base_offset s' - base_offset s)%N, match bs with [] => [] | _ => [(σ, bs)] end))
    as (g'&Hp) by (unfold push; cbn [inner limit]; rewrite Hpush; destruct bs; eauto).
  eexists. unfold do_op. rewrite Hp. cbn [mbind option_bind fst]. split; [done|].
  exists s', g'. split_and!; [done..| |]; cbn [snd].
  - rewrite total_snoc. lia.
  - intros τ. rewrite tagged_snoc, take_app_le; [apply Htext|]. unfold total in Hcur. lia.
Qed.
Lemma do_read_ok lim log unread st :
  reader_ok lim log unread st → is_u64 (total log) → (unread <= lim)%N →
  ∃ st', do_op st RRead = Some st' ∧ reader_ok lim log 0 st'.
Proof.
  destruct st as [b r]. intros (s&g&Hb&Hring&Hcur&Htext) Hu Hle. simpl in Hb, Hcur, Htext. subst b.
  destruct (snapshot_live lim log s (cursor r) Hring Hu) as (snap&Hsnap&Hnext&_&_&_&_&Hout).
  replace (N.to_nat (N.min (N.max (cursor r) (total log - lim)) (total log))) with (N.to_nat (cursor r)) in Hout by lia.
  eexists. unfold do_op, snapshot_from. cbn [inner]. rewrite Hsnap. cbn [mbind option_bind]. split; [done|].
  exists s, g. split_and!; [done..| |]; cbn [cursor snd read_text].
  - rewrite Hnext. lia.
  - intros σ. rewrite Hnext, Htext, Hout, <-text_of_app, <-stream_of_app, take_drop.
    rewrite take_ge; [done|]. unfold total. lia.
Qed.
Lemma run_ops_ok lim log unread st ops :
  reader_ok lim log unread st → keeps_up lim unread ops → is_u64 (total (log ++ pushes ops)) →
  is_u64 (N.of_nat (length (log ++ pushes ops))) →
  ∃ st' unread', run_ops st ops = Some st' ∧ reader_ok lim (log ++ pushes ops) unread' st' ∧ (unread' <= lim)%N.
Proof.
  revert log unread st. induction ops as [|[σ bs|] ops IH]; intros log unread st Hok Hk Hu Hq; simpl in *.
  - rewrite app_nil_r in *. eauto.
  - assert (log ++ (σ, bs) :: pushes ops = (log ++ [(σ, bs)]) ++ pushes ops) as Heq by by rewrite <-app_assoc.
    rewrite Heq in *. destruct (do_push_ok lim log unread st σ bs Hok) as (st'&->&Hok').
    { unfold is_u64, total in *. unfold tagged in *. rewrite fmap_app, concat_app, length_app in Hu. lia. }
    { unfold is_u64 in *. rewrite !length_app in Hq. simpl in Hq. lia. }
    cbn [mbind option_bind]. eauto.
  - destruct Hk as [Hle Hk]. destruct (do_read_ok lim log unread st Hok) as (st'&->&Hok'); [|done|].
    { unfold is_u64, total, tagged in *. rewrite fmap_app, concat_app, length_app in Hu. lia. }
    cbn [mbind option_bind]. eauto.
Qed.

Lemma push_all_ok lim log g s log' :
  ring_ok lim log s → is_u64 (total (log ++ log')) → is_u64 (N.of_nat (length (log ++ log'))) →
  ∃ s' g', push_all (mkBuffer lim (Live s) g) log' = Some (mkBuffer lim (Live s') g') ∧ ring_ok lim (log ++ log') s'.
Proof.
  revert log g s. induction log' as [|[σ bs] log' IH]; intros log g s H Hu Hq.
  - rewrite app_nil_r in *. eauto.
  - replace (log ++ (σ, bs) :: log') with ((log ++ [(σ, bs)]) ++ log') in * by by rewrite <-app_assoc.
    destruct (push_spec lim log s σ bs H) as (s'&Hpush&H').
    { unfold is_u64, total, tagged in *. rewrite !fmap_app, !concat_app, !length_app in Hu. simpl in Hu.
      rewrite app_nil_r, length_tag in Hu. lia. }
    { unfold is_u64 in *. rewrite !length_app in Hq. simpl in Hq. lia. }
    assert (∃ g', push (mkBuffer lim (Live s) g) σ bs
      = Some (mkBuffer lim (Live s') g', (base_offset s' - base_offset s)%N, match bs with [] => [] | _ => [(σ, bs)] end))
      as (g'&Hp) by (unfold push; cbn [inner limit]; rewrite Hpush; destruct bs; eauto).
    simpl. rewrite Hp. cbn [mbind option_bind fst]. eauto.
Qed.

(** ** Properties *)

(** One stream read piece by piece: the text so far and the decoder. *)
Definition decode_piece (td : bytes * IncrementalDecoder) (p : bytes) : bytes * IncrementalDecoder :=
  let '(t, d) := decode td.2 p in (td.1 ++ t, d).
Definition decode_pieces (pieces : list bytes) : bytes * IncrementalDecoder :=
  foldl decode_piece ([], decoder_new) pieces.
Lemma decode_pieces_after l pieces :
  foldl decode_piece (l_text (lossy l), decoder_after l) pieces
  = (l_text (lossy (l ++ concat pieces)), decoder_after (l ++ concat pieces)).
Proof.
  revert l. induction pieces as [|p pieces IH]; intros l; simpl; [by rewrite app_nil_r|].
  unfold decode_piece at 2. cbn [fst snd]. by rewrite decode_after, <-text_of_app, IH, <-app_assoc.
Qed.

(** C8. The incremental decoder is independent of chunk boundaries: whatever pieces
    a byte stream arrives in, the texts of the pieces followed by the final flush
    are exactly [String::from_utf8_lossy] of the whole, each piece's text is valid
    UTF-8, at most three bytes are ever held back, and valid input is output
    unchanged. *)
Theorem utf8_decoder_chunking (pieces : list bytes) :
  let run := decode_pieces pieces in
  run.1 ++ (finish run.2).1 = from_utf8_lossy (concat pieces) ∧
  from_utf8 run.1 = None ∧ length (utf8_pending run.2) ≤ 3 ∧
  (from_utf8 (concat pieces) = None → run.1 = concat pieces ∧ utf8_pending run.2 = []) ∧
  ∀ piece, from_utf8 (decode run.2 piece).1 = None.
Proof.
  assert (decode_pieces pieces = (l_text (lossy (concat pieces)), decoder_after (concat pieces))) as Hrun.
  { unfold decode_pieces. rewrite decoder_new_after. change (@nil Ascii.ascii) with (l_text (lossy [])) at 1.
    apply decode_pieces_after. }
  cbv zeta. rewrite Hrun. cbn [fst snd app]. split_and!.
  - apply finish_after.
  - apply lossy_text_valid.
  - apply (lossy_pending (concat pieces)).
  - intros Hv. simpl. by rewrite lossy_valid.
  - intros p. rewrite decode_after. apply lossy_text_valid.
Qed.

(** C4. The replay buffer refines an unbounded log: after any pushes (within the
    64-bit offsets) it has not panicked and holds exactly the newest [limit] bytes
    of the log, and a snapshot taken from any cursor returns exactly the bytes of
    the log from the cursor on that are still retained, in order, each at its
    offset and under its stream, with the next cursor at the end of the log. *)
Theorem output_ring_refines lim log cursor :
  is_u64 (total log) → is_u64 (N.of_nat (length log)) →
  let oldest := (total log - lim)%N in
  let st := N.to_nat (N.min (N.max cursor oldest) (total log)) in
  ∃ b s snap, push_all (buffer_new lim) log = Some b ∧ inner b = Live s ∧
    retained s = N.min lim (total log) ∧ dropped_bytes s = oldest ∧ base_offset s = oldest ∧
    tagged_chunks (chunks s) = drop (N.to_nat oldest) (tagged log) ∧
    snapshot_from b cursor = Some snap ∧ next_cursor snap = total log ∧
    out_tags (snap_chunks snap) = drop st (tagged log) ∧ out_contiguous (N.of_nat st) (snap_chunks snap).
Proof.
  intros Hu Hq oldest st.
  destruct (push_all_ok lim [] 0 output_new log (ring_ok_new lim) Hu Hq) as (s&g&Hpush&Hring).
  destruct (snapshot_live lim log s cursor Hring Hu) as (snap&Hsnap&Hnext&_&_&Htags&Hc&_).
  pose proof (ring_window _ _ _ Hring) as [Hr Hb Hd Hch _ _ _]. simpl in *.
  exists (mkBuffer lim (Live s) g), s, snap. rewrite Hb in Hch. by split_and!.
Qed.

(** C6. A reader that follows the cursor loses nothing: if it reads before more
    than [limit] bytes are unread, then the texts of its snapshots, up to one
    taken after the buffer is frozen, add up per stream to the lossy decoding of
    everything the stream was sent, although the buffer evicted most of it and
    characters were cut by pushes, evictions and reads.  Only the final mark of an
    unfinished character is missing when no byte of that stream is retained. *)
Theorem output_reader_lossless lim ops :
  keeps_up lim 0 ops → is_u64 (total (pushes ops)) → is_u64 (N.of_nat (length (pushes ops) + 3)) →
  ∃ b r snap, run_ops (buffer_new lim, mkReader 0 (λ _, [])) ops = Some (b, r) ∧
    snapshot_from (freeze b) (cursor r) = Some snap ∧
    ∀ σ, let sent := stream_of σ (tagged (pushes ops)) in
      let kept := stream_of σ (drop (N.to_nat (total (pushes ops) - lim)) (tagged (pushes ops))) in
      read_text r σ ++ out_text σ (snap_chunks snap)
      = if bool_decide (kept = []) then l_text (lossy sent) else from_utf8_lossy sent.
Proof.
  intros Hk Hu Hq. destruct (run_ops_ok lim [] 0 (buffer_new lim, mkReader 0 (λ _, [])) ops)
    as ([b r]&unread&Hrun&(s&g&Hb&Hring&Hcur&Htext)&Hle); [|done|done|unfold is_u64 in *; simpl; lia|].
  { exists output_new, 0%N. split_and!; [done|apply ring_ok_new|done|]. intros σ. simpl. by rewrite lossy_equation_1. }
  simpl in Hb, Hcur, Htext, Hring. subst b.
  destruct (snapshot_frozen lim (pushes ops) s (cursor r) Hring Hu Hq) as (snap&Hsnap&_&Hout).
  exists (mkBuffer lim (Live s) g), r, snap. split_and!; [done|done|]. intros σ. cbv zeta.
  replace (N.to_nat (N.min (N.max (cursor r) (total (pushes ops) - lim)) (total (pushes ops))))
    with (N.to_nat (cursor r)) in Hout by lia.
  rewrite Htext, Hout, app_assoc, <-text_of_app, <-stream_of_app, take_drop.
  case_bool_decide; [by rewrite app_nil_r|apply finish_after].
Qed.

(** ** Witnesses *)

Lemma utf8_decoder_chunking_example :
  (decode_pieces [[u8 226; u8 130]; [u8 172]]).1
  = [u8 226; u8 130; u8 172].
Proof. vm_compute. reflexivity. Qed.

Definition demo_log : list (OutputStream * bytes) := [(Stdout, as_bytes "hello"); (Stderr, as_bytes "!!")].
Lemma output_ring_refines_witness :
  ∃ b s snap, push_all (buffer_new 4) demo_log = Some b ∧ inner b = Live s ∧ retained s = 4%N ∧
    snapshot_from b 1 = Some snap ∧ next_cursor snap = 7%N.
Proof.
  destruct (output_ring_refines 4 demo_log 1) as (b&s&snap&Hp&Hi&Hr&_&_&_&Hs&Hn&_);
    [vm_compute; discriminate|vm_compute; discriminate|].
  exists b, s, snap. exact (conj Hp (conj Hi (conj Hr (conj Hs Hn)))).
Defined.
Definition demo_ops : list reader_op :=
  [RPush Stdout [u8 104; u8 195]; RRead; RPush Stdout [u8 169]; RPush Stderr (as_bytes "x")].
Lemma output_reader_lossless_witness :
  ∃ b r snap, run_ops (buffer_new 2, mkReader 0 (λ _, [])) demo_ops = Some (b, r) ∧
    snapshot_from (freeze b) (cursor r) = Some snap ∧
    read_text r Stdout ++ out_text Stdout (snap_chunks snap) = [u8 104; u8 195; u8 169].
Proof.
  destruct (output_reader_lossless 2 demo_ops) as (b&r&snap&Hr&Hs&Ht);
    [vm_compute; repeat split; discriminate|vm_compute; discriminate|vm_compute; discriminate|].
  exists b, r, snap. split; [exact Hr|]. split; [exact Hs|]. rewrite (Ht Stdout). vm_compute. reflexivity.
Defined.
