(* ===== verification/ProcessFrames.v ===== *)
(** The supervision frames between host, watchdog and child
    (shared/nomi-process-runtime/src/platform/unix_protocol.rs): the 32-byte
    encoding, sending and receiving it over a packet socket (Linux) or a byte
    stream (macOS), and deadlines.  Bytes are [u8] values; [pid_t] is a signed
    32-bit integer. *)
From S2P Require Import Prelude.

(** ** Big-endian integers *)

(** [to_be_bytes] of an unsigned integer of [n] bytes. *)
Fixpoint to_be_bytes (n : nat) (x : N) : bytes :=
  match n with 0 => [] | S n => to_be_bytes n (x / 256) ++ [u8 (x mod 256)] end.
(** [from_be_bytes] *)
Definition from_be_bytes (l : bytes) : N := foldl (λ acc c, (acc * 256 + byte c)%N) 0%N l.
Lemma from_be_bytes_snoc l c : from_be_bytes (l ++ [c]) = (from_be_bytes l * 256 + byte c)%N.
Proof. unfold from_be_bytes. by rewrite foldl_app. Qed.
Lemma length_to_be_bytes n x : length (to_be_bytes n x) = n.
Proof. revert x. induction n as [|n IH]; intros x; simpl; [done|]. rewrite length_app, IH. simpl. lia. Qed.
Lemma from_to_be_bytes n x : (x < 256 ^ N.of_nat n)%N → from_be_bytes (to_be_bytes n x) = x.
Proof.
  revert x. induction n as [|n IH]; intros x Hx; simpl to_be_bytes; [simpl in Hx; cbn; lia|].
  rewrite Nat2N.inj_succ, N.pow_succ_r' in Hx.
  rewrite from_be_bytes_snoc, IH, byte_u8; [|apply N.mod_lt; lia|apply N.Div0.div_lt_upper_bound; lia].
  pose proof (N.div_mod x 256). lia.
Qed.
Lemma from_be_bytes_lt l : (from_be_bytes l < 256 ^ N.of_nat (length l))%N.
Proof.
  induction l as [|c l IH] using rev_ind; [done|].
  rewrite from_be_bytes_snoc, length_app, Nat.add_1_r, Nat2N.inj_succ, N.pow_succ_r'.
  pose proof (byte_lt c). lia.
Qed.
Lemma to_from_be_bytes l : to_be_bytes (length l) (from_be_bytes l) = l.
Proof.
  induction l as [|c l IH] using rev_ind; [done|].
  rewrite length_app, Nat.add_1_r. simpl. rewrite from_be_bytes_snoc.
  pose proof (byte_lt c) as Hc.
  replace ((from_be_bytes l * 256 + byte c) / 256)%N with (from_be_bytes l).
  2: { rewrite N.add_comm, N.div_add, N.div_small by lia. lia. }
  replace ((from_be_bytes l * 256 + byte c) mod 256)%N with (byte c).
  2: { rewrite N.add_comm, N.Div0.mod_add, N.mod_small by lia. done. }
  by rewrite IH, u8_byte.
Qed.

(** [pid_t], an [i32]. *)
Definition is_i32 (z : Z) : Prop := (-2147483648 <= z < 2147483648)%Z.
#[export] Instance is_i32_dec z : Decision (is_i32 z) := _.
Definition i32_to_be_bytes (z : Z) : bytes := to_be_bytes 4 (Z.to_N (z mod 4294967296)).
Definition i32_from_be_bytes (l : bytes) : Z :=
  let n := Z.of_N (from_be_bytes l) in if (2147483648 <=? n)%Z then (n - 4294967296)%Z else n.
Lemma i32_from_to z : is_i32 z → i32_from_be_bytes (i32_to_be_bytes z) = z.
Proof.
  unfold is_i32, i32_from_be_bytes, i32_to_be_bytes. intros Hz.
  pose proof (Z.mod_pos_bound z 4294967296). rewrite from_to_be_bytes by (simpl; lia).
  rewrite Z2N.id by lia. destruct (decide (0 <= z)%Z).
  - rewrite Z.mod_small by lia. destruct (Z.leb_spec 2147483648 z); lia.
  - rewrite <-(Z_mod_plus_full z 1), Z.mod_small by lia. destruct (Z.leb_spec 2147483648 (z + 1 * 4294967296)); lia.
Qed.
Lemma i32_range l : length l = 4 → is_i32 (i32_from_be_bytes l).
Proof.
  intros Hl. pose proof (from_be_bytes_lt l) as H. rewrite Hl in H. simpl in H.
  unfold is_i32, i32_from_be_bytes. destruct (Z.leb_spec 2147483648 (Z.of_N (from_be_bytes l))); lia.
Qed.
Lemma i32_to_from l : length l = 4 → i32_to_be_bytes (i32_from_be_bytes l) = l.
Proof.
  intros Hl. pose proof (from_be_bytes_lt l) as H. rewrite Hl in H. simpl in H.
  unfold i32_to_be_bytes. replace (Z.to_N (i32_from_be_bytes l mod 4294967296)) with (from_be_bytes l).
  { pose proof (to_from_be_bytes l) as Ht. by rewrite Hl in Ht. }
  unfold i32_from_be_bytes. destruct (Z.leb_spec 2147483648 (Z.of_N (from_be_bytes l))).
  - rewrite <-(Z_mod_plus_full _ 1), Z.mod_small by lia. lia.
  - rewrite Z.mod_small by lia. lia.
Qed.

(** ** Frames *)

Definition MAGIC : bytes := as_bytes "NFXP".
Definition VERSION : N := 1.
Definition FRAME_BYTES : nat := 32.
Definition STREAM_PREFIX_BYTES : nat := 2.

(** A [Nonce] is 16 bytes. *)
Definition Nonce := bytes.
Definition nonce_ok (n : Nonce) : Prop := length n = 16.

Inductive FrameKind :=
| BootReady | Register_ | Ack | Commit | Abort_ | Committed | Quiescing | Failure | Registered.
#[export] Instance FrameKind_eq_dec : EqDecision FrameKind.
Proof. solve_decision. Defined.
Definition kind_wire (k : FrameKind) : N :=
  match k with
  | BootReady => 1 | Register_ => 2 | Ack => 3 | Commit => 4 | Abort_ => 5 | Committed => 6
  | Quiescing => 7 | Failure => 8 | Registered => 9
  end.
Definition from_wire (value : N) : option FrameKind :=
  match value with
  | 1 => Some BootReady | 2 => Some Register_ | 3 => Some Ack | 4 => Some Commit | 5 => Some Abort_
  | 6 => Some Committed | 7 => Some Quiescing | 8 => Some Failure | 9 => Some Registered
  | _ => None
  end%N.
Record Frame := mkFrame { kind : FrameKind; nonce : Nonce; pid : Z; pgid : Z }.
Definition frame_ok (f : Frame) : Prop := nonce_ok (nonce f) ∧ is_i32 (pid f) ∧ is_i32 (pgid f).

Inductive ProtocolOperation :=
| SocketPair | ConfigureFd | SetNoSigpipe | ClockGettime | Poll | Send | Receive.
Inductive ProtocolError :=
| Syscall (operation : ProtocolOperation) (errno : Z)
| DeadlineOverflow
| DeadlineExceeded
| PeerClosed
| ShortFrame (received : nat)
| MalformedFrame
| WrongNonce
| UnexpectedKind (expected received : FrameKind).

Definition encode (f : Frame) : bytes :=
  MAGIC ++ to_be_bytes 2 VERSION ++ to_be_bytes 2 (kind_wire (kind f)) ++ nonce f
  ++ i32_to_be_bytes (pid f) ++ i32_to_be_bytes (pgid f).
Definition slice (i n : nat) (l : bytes) : bytes := take n (drop i l).
Definition decode (bs : bytes) (expected_nonce : Nonce) : result Frame ProtocolError :=
  if negb (bool_decide (take 4 bs = MAGIC)) || negb (from_be_bytes (slice 4 2 bs) =? VERSION)%N
  then Err MalformedFrame else
  match from_wire (from_be_bytes (slice 6 2 bs)) with
  | None => Err MalformedFrame
  | Some kind =>
      let nonce := slice 8 16 bs in
      if negb (bool_decide (nonce = expected_nonce)) then Err WrongNonce else
      Ok (mkFrame kind nonce (i32_from_be_bytes (slice 24 4 bs)) (i32_from_be_bytes (slice 28 4 bs)))
  end.

(** ** Deadlines: [timespec] with a 64-bit [time_t]; the clock reading is an argument *)

Record timespec := mkTime { tv_sec : Z; tv_nsec : Z }.
Definition try_time_t (secs : N) : option Z :=
  if (Z.of_N secs <=? i64_max)%Z then Some (Z.of_N secs) else None.
Definition i64_checked_add (a b : Z) : option Z :=
  if ((i64_min <=? a + b) && (a + b <=? i64_max))%Z then Some (a + b)%Z else None.
Definition of_option {A E} (e : E) (o : option A) : result A E :=
  match o with Some a => Ok a | None => Err e end.
(** [Deadline::after], for a duration of [secs] seconds and [nanos] nanoseconds. *)
Definition deadline_after (now : timespec) (secs nanos : N) : result timespec ProtocolError :=
  let? added_seconds := of_option DeadlineOverflow (try_time_t secs) in
  let? seconds := of_option DeadlineOverflow (i64_checked_add (tv_sec now) added_seconds) in
  let nanoseconds := (tv_nsec now + Z.of_N nanos)%Z in
  if (1000000000 <=? nanoseconds)%Z then
    let? seconds := of_option DeadlineOverflow (i64_checked_add seconds 1) in
    Ok (mkTime seconds (nanoseconds - 1000000000))
  else Ok (mkTime seconds nanoseconds).
Definition remaining_nanoseconds (deadline now : timespec) : Z :=
  ((tv_sec deadline - tv_sec now) * 1000000000 + (tv_nsec deadline - tv_nsec now))%Z.
Definition is_expired (deadline now : timespec) : bool := (remaining_nanoseconds deadline now <=? 0)%Z.
Definition poll_timeout_ms (deadline now : timespec) : Z :=
  let remaining := remaining_nanoseconds deadline now in
  if (remaining <=? 0)%Z then 0%Z
  else Z.min ((remaining + 999999) / 1000000) 2147483647.

(** ** The socket loops

    What one iteration meets: the expired deadline, a failing clock, transferred
    bytes (none when the peer closed), an interruption (with the check after it), a
    wait for readiness, or another error. *)
Inductive attempt (A : Type) :=
| Expired
| ClockError (errno : Z)
| Transferred (a : A)
| Interrupted (expired : bool)
| WouldBlock (poll_ready : result () ProtocolError)
| Failed (errno : Z).
Arguments Expired {A}.
Arguments ClockError {A} errno.
Arguments Transferred {A} a.
Arguments Interrupted {A} expired.
Arguments WouldBlock {A} poll_ready.
Arguments Failed {A} errno.

(** The branches the loops share; [None] goes around again. *)
Definition retry_branch {A} (op : ProtocolOperation) (a : attempt A) : option ProtocolError :=
  match a with
  | Expired | Interrupted true | WouldBlock (Err DeadlineExceeded) => Some DeadlineExceeded
  | ClockError errno => Some (Syscall ClockGettime errno)
  | Transferred _ | Interrupted false | WouldBlock (Ok _) => None
  | WouldBlock (Err e) => Some e
  | Failed errno => Some (Syscall op errno)
  end.

(** [recv_frame] over a packet socket: [None] while it still waits. *)
Fixpoint recv_frame_packet (expected_nonce : Nonce) (env : list (attempt bytes)) :
    option (result Frame ProtocolError) :=
  match env with
  | [] => None
  | Transferred bs :: _ =>
      Some (if bool_decide (length bs = 0) then Err PeerClosed
            else if bool_decide (length bs = FRAME_BYTES) then decode bs expected_nonce
            else if bool_decide (FRAME_BYTES < length bs) then Err MalformedFrame
            else Err (ShortFrame (length bs)))
  | a :: env =>
      match retry_branch Receive a with
      | Some e => Some (Err e)
      | None => recv_frame_packet expected_nonce env
      end
  end.
(** Over a byte stream, with the bytes received so far; the kernel gives at most
    what the buffer can still hold. *)
Fixpoint recv_frame_stream (expected_nonce : Nonce) (got : bytes) (env : list (attempt bytes)) :
    option (result Frame ProtocolError) :=
  match env with
  | [] => None
  | Transferred bs :: env =>
      if bool_decide (length bs = 0) then
        Some (Err (if bool_decide (length got = 0) then PeerClosed
                   else ShortFrame (length got - STREAM_PREFIX_BYTES)))
      else
        let got := got ++ bs in
        if bool_decide (STREAM_PREFIX_BYTES ≤ length got)
           && negb (from_be_bytes (take 2 got) =? N.of_nat FRAME_BYTES)%N
        then Some (Err MalformedFrame)
        else if bool_decide (length got = STREAM_PREFIX_BYTES + FRAME_BYTES)
        then Some (decode (drop STREAM_PREFIX_BYTES got) expected_nonce)
        else recv_frame_stream expected_nonce got env
  | a :: env =>
      match retry_branch Receive a with
      | Some e => Some (Err e)
      | None => recv_frame_stream expected_nonce got env
      end
  end.
Definition recv_expected (expected_kind : FrameKind) (r : result Frame ProtocolError) :
    result Frame ProtocolError :=
  let? frame := r in
  if bool_decide (kind frame = expected_kind) then Ok frame
  else Err (UnexpectedKind expected_kind (kind frame)).

(** [send_frame]: [send] takes the first [n] bytes; the bytes written and the
    result. *)
Fixpoint send_frame_packet (frame : Frame) (env : list (attempt nat)) :
    option (bytes * result () ProtocolError) :=
  match env with
  | [] => None
  | Transferred n :: _ =>
      Some (take n (encode frame),
            if bool_decide (n = FRAME_BYTES) then Ok () else Err (ShortFrame n))
  | a :: env =>
      match retry_branch Send a with
      | Some e => Some ([], Err e)
      | None => send_frame_packet frame env
      end
  end.
Definition stream_frame (frame : Frame) : bytes := to_be_bytes 2 (N.of_nat FRAME_BYTES) ++ encode frame.
Fixpoint send_frame_stream (frame : Frame) (offset : nat) (env : list (attempt nat)) :
    option (bytes * result () ProtocolError) :=
  match env with
  | [] => None
  | Transferred n :: env =>
      if bool_decide (n = 0) then Some ([], Err (ShortFrame offset)) else
      let written := take n (drop offset (stream_frame frame)) in
      if bool_decide (offset + n = length (stream_frame frame)) then Some (written, Ok ())
      else '(rest, r) ← send_frame_stream frame (offset + n) env; Some (written ++ rest, r)
  | a :: env =>
      match retry_branch Send a with
      | Some e => Some ([], Err e)
      | None => send_frame_stream frame offset env
      end
  end.

Example frame_ex :
  decode (encode (mkFrame Commit (replicate 16 (u8 7)) 12345 (-2))) (replicate 16 (u8 7))
  = Ok (mkFrame Commit (replicate 16 (u8 7)) 12345 (-2)).
Proof. vm_compute. reflexivity. Qed.

(** ** Encoding and decoding *)

Lemma length_i32_to_be_bytes z : length (i32_to_be_bytes z) = 4.
Proof. apply length_to_be_bytes. Qed.
Lemma length_encode f : nonce_ok (nonce f) → length (encode f) = FRAME_BYTES.
Proof.
  unfold encode, nonce_ok. rewrite !length_app, !length_to_be_bytes, !length_i32_to_be_bytes. intros ->. done.
Qed.
Lemma kind_wire_roundtrip k : from_wire (from_be_bytes (to_be_bytes 2 (kind_wire k))) = Some k.
Proof. by destruct k. Qed.
Lemma from_wire_inj n k : from_wire n = Some k → n = kind_wire k.
Proof.
  intros H. destruct n as [|p]; [done|].
  do 4 (destruct p as [p|p|]; try (by simplify_eq/=)).
Qed.

(** Cutting a concatenation at its seams. *)
Lemma slice_app_skip i n (l1 l2 : bytes) : length l1 ≤ i → slice i n (l1 ++ l2) = slice (i - length l1) n l2.
Proof. intros H. unfold slice. by rewrite drop_app_ge. Qed.
Lemma slice_app_head n (l1 l2 : bytes) : length l1 = n → slice 0 n (l1 ++ l2) = l1.
Proof. intros <-. unfold slice. rewrite drop_0. by rewrite take_app_length. Qed.
Lemma slice_all n (l : bytes) : length l = n → slice 0 n l = l.
Proof. intros <-. unfold slice. by rewrite drop_0, firstn_all. Qed.

Lemma decode_encode f : frame_ok f → decode (encode f) (nonce f) = Ok f.
Proof.
  intros (Hn&Hp&Hg). unfold decode. change (take 4 (encode f)) with MAGIC.
  assert (slice 4 2 (encode f) = to_be_bytes 2 VERSION) as -> by done.
  assert (slice 6 2 (encode f) = to_be_bytes 2 (kind_wire (kind f))) as -> by done.
  assert (slice 8 16 (encode f) = nonce f) as ->.
  { unfold encode. rewrite !(slice_app_skip 8), !(slice_app_skip 4), !(slice_app_skip 2) by (simpl; lia).
    by apply slice_app_head. }
  assert (drop 24 (encode f) = i32_to_be_bytes (pid f) ++ i32_to_be_bytes (pgid f)) as Hd.
  { replace (encode f) with ((MAGIC ++ to_be_bytes 2 VERSION ++ to_be_bytes 2 (kind_wire (kind f)) ++ nonce f)
      ++ i32_to_be_bytes (pid f) ++ i32_to_be_bytes (pgid f)) by (unfold encode; by rewrite <-!app_assoc).
    apply drop_app_length'. by rewrite !length_app, Hn. }
  assert (slice 24 4 (encode f) = i32_to_be_bytes (pid f)) as ->.
  { unfold slice. rewrite Hd. by rewrite take_app_length' by (symmetry; apply length_i32_to_be_bytes). }
  assert (slice 28 4 (encode f) = i32_to_be_bytes (pgid f)) as ->.
  { unfold slice. replace 28 with (24 + 4) by done. rewrite <-drop_drop, Hd.
    rewrite drop_app_length' by (symmetry; apply length_i32_to_be_bytes). by rewrite firstn_all2 by by rewrite length_i32_to_be_bytes. }
  rewrite kind_wire_roundtrip, !i32_from_to by done. simpl. rewrite !bool_decide_eq_true_2 by done. simpl.
  by destruct f.
Qed.

Lemma length_slice i n (l : bytes) : i + n ≤ length l → length (slice i n l) = n.
Proof. intros H. unfold slice. rewrite length_take, length_drop. lia. Qed.
Lemma slice_join i n m (l : bytes) : slice i n l ++ slice (i + n) m l = slice i (n + m) l.
Proof. unfold slice. rewrite <-drop_drop. apply take_take_drop. Qed.
Lemma to_be_bytes_slice i n l v :
  i + n ≤ length l → from_be_bytes (slice i n l) = v → to_be_bytes n v = slice i n l.
Proof.
  intros Hl <-. pose proof (to_from_be_bytes (slice i n l)) as H. by rewrite length_slice in H.
Qed.
Lemma decode_canonical bs n f :
  length bs = FRAME_BYTES → decode bs n = Ok f → bs = encode f ∧ nonce f = n ∧ frame_ok f.
Proof.
  unfold FRAME_BYTES, decode. intros Hl Hd.
  destruct (bool_decide (take 4 bs = MAGIC)) eqn:Hm; simpl in Hd; [|done]. apply bool_decide_eq_true in Hm.
  destruct (N.eqb_spec (from_be_bytes (slice 4 2 bs)) VERSION) as [Hv|]; simpl in Hd; [|done].
  destruct (from_wire _) as [k|] eqn:Hk; [|done]. apply from_wire_inj in Hk.
  destruct (bool_decide (slice 8 16 bs = n)) eqn:Hn; simpl in Hd; [|done]. apply bool_decide_eq_true in Hn.
  injection Hd as <-. split_and!.
  - unfold encode. cbn [kind nonce pid pgid]. rewrite <-Hm.
    rewrite (to_be_bytes_slice 4 2 bs), (to_be_bytes_slice 6 2 bs) by (done || lia).
    rewrite !i32_to_from by (apply length_slice; lia).
    change (take 4 bs) with (slice 0 4 bs). rewrite (slice_join 24 4 4), (slice_join 8 16 8), (slice_join 6 2 24),
      (slice_join 4 2 26), (slice_join 0 4 28). by rewrite slice_all.
  - done.
  - unfold frame_ok, nonce_ok. cbn [nonce pid pgid]. split_and!; [apply length_slice; lia|..];
      apply i32_range, length_slice; lia.
Qed.

(** ** Transport over a byte stream *)

Definition received (env : list (attempt bytes)) : bytes :=
  concat (omap (λ a, match a with Transferred bs => Some bs | _ => None end) env).
Lemma received_transfer bs env : received (Transferred bs :: env) = bs ++ received env.
Proof. done. Qed.
(** The kernel never hands over more than the buffer still holds. *)
Fixpoint fits (room : nat) (env : list (attempt bytes)) : Prop :=
  match env with
  | [] => True
  | Transferred bs :: env => length bs ≤ room ∧ fits (room - length bs) env
  | _ :: env => fits room env
  end.
(** No failure, no expiry and no close. *)
Definition smooth {A} (nonzero : A → Prop) (a : attempt A) : Prop :=
  match a with Transferred x => nonzero x | _ => retry_branch Receive a = None end.
Lemma retry_smooth {A} op (a : attempt A) :
  retry_branch Receive a = None → retry_branch op a = None.
Proof. by destruct a as [| | |[]|[|[]]|]. Qed.

Definition is_transfer {A} (a : attempt A) : option A :=
  match a with Transferred x => Some x | _ => None end.
Lemma recv_stream_retry n got a env :
  is_transfer a = None → retry_branch Receive a = None →
  recv_frame_stream n got (a :: env) = recv_frame_stream n got env.
Proof. intros Ht Hr. destruct a; simpl in Ht; [| |done| | |]; cbn [recv_frame_stream]; by rewrite Hr. Qed.

Lemma recv_stream_complete f got env :
  frame_ok f → Forall (smooth (λ bs, bs ≠ [])) env → length got < 34 → got ++ received env = stream_frame f →
  recv_frame_stream (nonce f) got env = Some (Ok f).
Proof.
  intros Hf Hs. assert (Hlen : length (stream_frame f) = 34).
  { unfold stream_frame. rewrite length_app, length_encode by apply Hf. done. }
  revert got. induction Hs as [|a env Ha Hs IH]; intros got Hg Heq.
  { unfold received in Heq. simpl in Heq. rewrite app_nil_r in Heq. subst. lia. }
  destruct (is_transfer a) as [bs|] eqn:Ht.
  2: { destruct a; simpl in Ht; try done; (rewrite recv_stream_retry; [by apply IH|done|exact Ha]). }
  destruct a as [| |bs'| | |]; try discriminate Ht. injection Ht as ->.
  cbn [recv_frame_stream]. simpl in Ha. rewrite bool_decide_eq_false_2 by by destruct bs.
  rewrite received_transfer, app_assoc in Heq.
  assert (Hpre : STREAM_PREFIX_BYTES ≤ length (got ++ bs) → take 2 (got ++ bs) = to_be_bytes 2 (N.of_nat FRAME_BYTES)).
  { unfold STREAM_PREFIX_BYTES. intros Hle. rewrite <-(take_app_le _ (received env)) by done. by rewrite Heq. }
  replace (bool_decide (STREAM_PREFIX_BYTES ≤ length (got ++ bs)) && _) with false.
  2: { symmetry. case_bool_decide as Hle; [|done]. by rewrite Hpre. }
  assert (length (got ++ bs) + length (received env) = 34) as Hsum by by rewrite <-length_app, Heq.
  case_bool_decide as Hfull.
  - unfold STREAM_PREFIX_BYTES, FRAME_BYTES in Hfull. assert (received env = []) as Hnil
      by (destruct (received env); [done|simpl in Hsum; lia]).
    rewrite Hnil, app_nil_r in Heq. rewrite Heq. f_equal. by apply decode_encode.
  - apply IH; [|done]. unfold STREAM_PREFIX_BYTES, FRAME_BYTES in Hfull. lia.
Qed.
Lemma recv_stream_sound n got env f :
  fits (34 - length got) env → length got < 34 → recv_frame_stream n got env = Some (Ok f) →
  ∃ rest, got ++ received env = stream_frame f ++ rest ∧ nonce f = n ∧ frame_ok f.
Proof.
  revert got. induction env as [|a env IH]; intros got Hfit Hg Hr; [done|].
  destruct a as [|?|bs|[]|[|[]]|]; try done; try (by apply IH in Hr).
  destruct Hfit as [Hle Hfit]. cbn [recv_frame_stream] in Hr.
  case_bool_decide as Hz; [by case_bool_decide|].
  rewrite received_transfer, app_assoc.
  destruct (bool_decide (STREAM_PREFIX_BYTES ≤ length (got ++ bs))) eqn:Hpre; simpl in Hr;
    [destruct (N.eqb_spec (from_be_bytes (take 2 (got ++ bs))) (N.of_nat FRAME_BYTES)) as [Hsz|]; simpl in Hr; [|done]|];
    (case_bool_decide as Hfull;
      [|apply IH; [by rewrite length_app, Nat.sub_add_distr| |done];
        rewrite length_app in *; unfold STREAM_PREFIX_BYTES, FRAME_BYTES in Hfull; lia]).
  - injection Hr as Hr. unfold STREAM_PREFIX_BYTES, FRAME_BYTES in Hfull.
    apply decode_canonical in Hr as (Hd&Hn&Hf); [|rewrite length_drop; unfold FRAME_BYTES, STREAM_PREFIX_BYTES; lia].
    exists (received env). split; [|done]. f_equal. unfold stream_frame. rewrite <-Hd.
    rewrite <-Hsz. pose proof (to_from_be_bytes (take 2 (got ++ bs))) as Hto.
    rewrite length_take, Hfull in Hto. simpl in Hto. etransitivity; [symmetry; apply (take_drop 2)|].
    f_equal. by rewrite <-Hto at 1.
  - apply bool_decide_eq_false in Hpre. unfold STREAM_PREFIX_BYTES, FRAME_BYTES in *. lia.
Qed.

Fixpoint sends_fit (room : nat) (env : list (attempt nat)) : Prop :=
  match env with
  | [] => True
  | Transferred n :: env => n ≤ room ∧ sends_fit (room - n) env
  | _ :: env => sends_fit room env
  end.
Lemma send_stream_spec f offset env w r :
  sends_fit (length (stream_frame f) - offset) env → offset < length (stream_frame f) →
  send_frame_stream f offset env = Some (w, r) →
  w `prefix_of` drop offset (stream_frame f) ∧ (r = Ok () ↔ w = drop offset (stream_frame f)).
Proof.
  revert offset w. induction env as [|a env IH]; intros offset w Hfit Ho Hs; [done|].
  assert (Hd : drop offset (stream_frame f) ≠ []).
  { intros H%(f_equal length). rewrite length_drop in H. cbn [length] in H. lia. }
  destruct a as [|?|n|[]|[|[]]|]; try (simpl in Hs; simplify_eq; split; [apply prefix_nil|done || by split]);
    try (by apply IH in Hs).
  destruct Hfit as [Hle Hfit]. cbn [send_frame_stream] in Hs.
  case_bool_decide as Hz; [simplify_eq; split; [apply prefix_nil|by split]|].
  case_bool_decide as Hend.
  - injection Hs as <- <-. rewrite take_ge by (rewrite length_drop; lia). by split.
  - destruct (send_frame_stream f (offset + n) env) as [[rest r']|] eqn:Hrest; [|done].
    simpl in Hs. injection Hs as <- <-. apply IH in Hrest as [Hp Hr];
      [|by rewrite Nat.sub_add_distr|lia]. rewrite <-drop_drop in Hp, Hr.
    set (d := drop offset (stream_frame f)) in *. split.
    + rewrite <-(take_drop n d) at 2. by apply prefix_app.
    + rewrite Hr. split; [intros ->; apply take_drop|].
      intros H. rewrite <-(take_drop n d) in H at 2. by apply app_inv_head in H.
Qed.

(** ** Properties *)

(** The frame encoding is a bijection with exactly the well-formed 32-byte
    frames: every frame decodes to itself under its own nonce and to [WrongNonce]
    under any other; whatever 32 bytes decode to a frame are that frame's encoding;
    so distinct frames never share an encoding. *)
Theorem frame_codec_bijective f :
  frame_ok f →
  length (encode f) = FRAME_BYTES ∧ decode (encode f) (nonce f) = Ok f ∧
  (∀ n, n ≠ nonce f → decode (encode f) n = Err WrongNonce) ∧
  (∀ bs n, length bs = FRAME_BYTES → (decode bs n = Ok f ↔ bs = encode f ∧ n = nonce f)).
Proof.
  intros Hf. pose proof (decode_encode f Hf) as Hd. split_and!; [by apply length_encode, Hf|done| |].
  - intros n Hn. revert Hd. unfold decode. destruct (_ || _); [done|]. destruct (from_wire _); [|done].
    destruct (bool_decide (slice 8 16 (encode f) = nonce f)) eqn:Hsl; [|done]. intros _.
    apply bool_decide_eq_true in Hsl. rewrite Hsl. by rewrite bool_decide_eq_false_2.
  - intros bs n Hl. split; [|by intros [-> ->]]. intros H. by apply decode_canonical in H as (->&->&_).
Qed.

(** C10. The stream transport is lossless and authentic however the kernel cuts the
    bytes: a send that reports success wrote exactly the prefixed frame, and one
    that fails wrote a proper prefix of it; whoever receives these bytes, in any
    nonempty pieces and with any interruptions and waits between them, gets the
    frame; and any frame ever returned was received byte for byte with the expected
    nonce. *)
Theorem frame_stream_transport f sends w r :
  frame_ok f → sends_fit (length (stream_frame f)) sends → send_frame_stream f 0 sends = Some (w, r) →
  w `prefix_of` stream_frame f ∧ (r = Ok () ↔ w = stream_frame f) ∧
  (r = Ok () → ∀ env, Forall (smooth (λ bs, bs ≠ [])) env → received env = w →
     recv_frame_stream (nonce f) [] env = Some (Ok f)) ∧
  ∀ n env g, fits 34 env → recv_frame_stream n [] env = Some (Ok g) →
    ∃ rest, received env = stream_frame g ++ rest ∧ nonce g = n.
Proof.
  intros Hf Hfit Hs.
  assert (0 < length (stream_frame f)) as Hpos
    by (unfold stream_frame; rewrite length_app, length_to_be_bytes; lia).
  apply send_stream_spec in Hs as [Hp Hr]; [|by rewrite Nat.sub_0_r|done]. rewrite drop_0 in Hp, Hr.
  split_and!; [done|done| |].
  - intros Hok env Henv Hrec. apply recv_stream_complete; [done|done|simpl; lia|]. simpl. rewrite Hrec. by apply Hr.
  - intros n env g Henv Hg. apply recv_stream_sound in Hg as (rest&Heq&Hn&_); [eauto|done|simpl; lia].
Qed.

(** Deadlines are exact and never wrap: with a normalized, non-negative clock, a deadline is
    normalized and exactly [secs] seconds and [nanos] nanoseconds away, or the
    addition overflows a 64-bit [time_t]; the poll timeout is zero exactly when the
    deadline has expired, rounds the rest up to milliseconds, and fits a C [int]. *)
Theorem deadline_exact now secs nanos :
  (0 <= tv_nsec now < 1000000000)%Z → (0 <= tv_sec now <= i64_max)%Z → (nanos < 1000000000)%N →
  match deadline_after now secs nanos with
  | Ok d =>
      (0 <= tv_nsec d < 1000000000)%Z ∧ (i64_min <= tv_sec d <= i64_max)%Z ∧
      remaining_nanoseconds d now = (Z.of_N secs * 1000000000 + Z.of_N nanos)%Z
  | Err e => e = DeadlineOverflow ∧ (i64_max <= tv_sec now + Z.of_N secs)%Z
  end ∧
  ∀ d t, (is_expired d t = true ↔ poll_timeout_ms d t = 0%Z) ∧
    (0 <= poll_timeout_ms d t <= 2147483647)%Z ∧
    (is_expired d t = false → (poll_timeout_ms d t < 2147483647)%Z →
       (remaining_nanoseconds d t <= poll_timeout_ms d t * 1000000 < remaining_nanoseconds d t + 1000000)%Z).
Proof.
  intros Hn Hs Hnanos. split.
  - unfold deadline_after, try_time_t, i64_checked_add, of_option, remaining_nanoseconds, i64_max, i64_min in *.
    repeat (case_match; simplify_eq/=); rewrite ?andb_true_iff, ?andb_false_iff, ?Z.leb_le, ?Z.leb_gt in *;
      split_and?; try done; lia.
  - intros d t. unfold is_expired, poll_timeout_ms. destruct (Z.leb_spec (remaining_nanoseconds d t) 0) as [Hr|Hr].
    + split_and!; done || lia.
    + pose proof (Z.div_mod (remaining_nanoseconds d t + 999999) 1000000).
      pose proof (Z.mod_pos_bound (remaining_nanoseconds d t + 999999) 1000000). split_and!; [split; [done|]|..]; lia.
Qed.

(** ** Witnesses *)

Definition demo_frame : Frame := mkFrame Register_ (replicate 16 (u8 7)) 4242 4242.
Lemma demo_frame_ok : frame_ok demo_frame.
Proof. unfold frame_ok, nonce_ok, is_i32. simpl. lia. Qed.
Lemma frame_codec_bijective_witness :
  decode (encode demo_frame) (replicate 16 (u8 8)) = Err WrongNonce.
Proof. apply (frame_codec_bijective demo_frame demo_frame_ok). discriminate. Defined.
Lemma frame_stream_transport_witness :
  recv_frame_stream (nonce demo_frame) []
    [Transferred (take 1 (stream_frame demo_frame)); Interrupted false; WouldBlock (Ok ());
     Transferred (drop 1 (stream_frame demo_frame))] = Some (Ok demo_frame).
Proof.
  destruct (frame_stream_transport demo_frame [Transferred 30; Interrupted false; Transferred 4]
    (stream_frame demo_frame) (Ok ())) as (_&_&H&_);
    [exact demo_frame_ok|vm_compute; repeat (split || constructor)|vm_compute; reflexivity|].
  apply H; [reflexivity| |vm_compute; reflexivity].
  repeat constructor; vm_compute; discriminate.
Defined.
Lemma deadline_exact_witness : (0 <= tv_nsec (mkTime 3 100000000) < 1000000000)%Z.
Proof.
  destruct (deadline_exact (mkTime 1 900000000) 1 200000000) as [H _]; [simpl; lia|vm_compute; split; discriminate|lia|].
  exact (proj1 H).
Defined.
