(* ===== verification/SpawnHandshake.v ===== *)
(** How a supervised process comes to life on Linux: the host forks a watchdog,
    then the child; the child registers with the watchdog and runs the program
    only after its acknowledgement; the host commits
    (shared/nomi-process-runtime/src/platform/linux_watchdog.rs and unix.rs).
    Each party is a state machine over the frames of [ProcessFrames]; the system
    interleaves their steps with failures of every system call, and with the death
    of the host, of the child and of the watchdog itself (by a signal from outside,
    or for want of memory) at any time.  Test-only faults are left out. *)
From S2P Require Import Prelude ProcessFrames.

(** ** Checks on frames *)

Definition validate_frame_identity (frame : Frame) (expected_pid expected_pgid : Z) :
    result Frame ProtocolError :=
  if bool_decide (pid frame = expected_pid) && bool_decide (pgid frame = expected_pgid)
  then Ok frame else Err MalformedFrame.
Definition decision_frame_is_valid (frame : Frame) (leader : Z) : bool :=
  match kind frame with
  | Commit => bool_decide (pid frame = leader) && bool_decide (pgid frame = leader)
  | Abort_ => bool_decide (pid frame = 0%Z) && bool_decide (pgid frame = 0%Z)
  | _ => false
  end.
(** [recv_expected] followed by [validate_frame_identity]. *)
Definition expect_identity (expected_kind : FrameKind) (p : Z) (r : result Frame ProtocolError) :
    result Frame ProtocolError :=
  let? frame := recv_expected expected_kind r in validate_frame_identity frame p p.

(** ** The watchdog: [run_watchdog] *)

Inductive wstate :=
| WBoot
| WAwaitRegister
| WSendRegistered (leader : Z)
| WSendAck (leader : Z)
| WAwaitDecision (leader : Z)
| WSendCommitted (leader : Z)
| WMonitor (leader : Z)
| WKill (leader : Z)
| WKillRetry (leader : Z)
| WSealed (leader : Z)
| WExit (code : Z)
| WLost.                                 (* killed from outside *)
(** Where a frame goes: to the host on the control socket, or to the child on the
    registration socket. *)
Inductive woutput := ToHost (f : Frame) | ToChild (f : Frame).
(** What the system calls of one step answer. *)
Record wenv := mkWenv {
  prepared : bool;                     (* prepare_watchdog *)
  signals_ok : bool;                   (* ignore_graceful_signals *)
  parent_alive : bool;                 (* monitor_alive(parent_monitor) *)
  child_alive : bool;                  (* open_monitor / monitor_alive(child_monitor) *)
  leads_group : bool;                  (* getpgid(leader) == leader *)
  leads_session : bool;                (* getsid(leader) == leader *)
  own_group_is_leader : bool;          (* getpgrp() == leader *)
  anchored : bool;                     (* ignore_graceful_and_anchor(leader) *)
  send_ok : bool;                      (* send_frame *)
  send_failure_ok : bool;              (* the second send of quiesce_and_kill *)
  received_frame : result Frame ProtocolError;  (* recv_frame *)
  poll_result : comparison;            (* poll: Lt error, Eq timeout, Gt ready *)
  poll_interrupted : bool;             (* errno == EINTR *)
  kill_ok : bool;                      (* kill(-leader, SIGKILL) == 0 *)
}.

Section watchdog.
Context (external_session : bool) (the_nonce : Nonce).

Definition frame_of (k : FrameKind) (p : Z) : Frame := mkFrame k the_nonce p p.
Definition sent (ok : bool) (o : woutput) : list woutput := if ok then [o] else [].

(** The registration of a child is acceptable. *)
Definition registration_ok (e : wenv) (f : Frame) : bool :=
  let leader := pid f in
  negb ((leader <=? 1)%Z || negb (bool_decide (pgid f = leader)) || negb (leads_group e))
  && (if external_session then leads_session e && negb (own_group_is_leader e)
      else anchored e && own_group_is_leader e).

(** [quiesce_and_kill]: announce, kill the group, and retry until the kill succeeds. *)
Definition kill_step (leader : Z) (e : wenv) : wstate * list woutput :=
  (if kill_ok e then WSealed leader else WKillRetry leader,
   sent (send_ok e) (ToHost (frame_of Quiescing leader))
   ++ (if kill_ok e then [] else sent (send_failure_ok e) (ToHost (frame_of Failure leader)))).

Definition watchdog_step (w : wstate) (e : wenv) : wstate * list woutput :=
  match w with
  | WBoot =>
      if negb (prepared e) then (WExit 70, [])
      else if negb (signals_ok e) then (WExit 71, [])
      else if negb (parent_alive e) then (WExit 72, [])
      else (if send_ok e then WAwaitRegister else WExit 73, sent (send_ok e) (ToHost (frame_of BootReady 0)))
  | WAwaitRegister =>
      match recv_expected Register_ (received_frame e) with
      | Err _ => (WExit 75, [])
      | Ok f =>
          if negb (registration_ok e f) then (WExit 76, [])
          else if negb (child_alive e) then (WExit 77, [])
          else (WSendRegistered (pid f), [])
      end
  | WSendRegistered leader =>
      (if send_ok e && parent_alive e then WSendAck leader else WKill leader,
       sent (send_ok e) (ToHost (frame_of Registered leader)))
  | WSendAck leader =>
      (if send_ok e then WAwaitDecision leader else WExit 79, sent (send_ok e) (ToChild (frame_of Ack leader)))
  | WAwaitDecision leader =>
      match received_frame e with
      | Err _ => (WKill leader, [])
      | Ok f =>
          if negb (parent_alive e) then (WKill leader, [])
          else if negb (decision_frame_is_valid f leader) then (WKill leader, [])
          else match kind f with
               | Abort_ => (WExit 0, [])
               | Commit => (WSendCommitted leader, [])
               | _ => (WKill leader, [])
               end
      end
  | WSendCommitted leader =>
      (if send_ok e then WMonitor leader else WKill leader, sent (send_ok e) (ToHost (frame_of Committed leader)))
  | WMonitor leader =>
      (if negb (parent_alive e) || negb (child_alive e) then WKill leader
       else match poll_result e with
            | Lt => if poll_interrupted e then WMonitor leader else WKill leader
            | Gt => WKill leader
            | Eq => WMonitor leader
            end, [])
  | WKill leader => kill_step leader e
  | WKillRetry leader => (if kill_ok e then WSealed leader else WKillRetry leader, [])
  | WSealed leader => (WSealed leader, [])
  | WExit code => (WExit code, [])
  | WLost => (WLost, [])
  end.
End watchdog.

(** ** The child: [child_bootstrap], then [exec] *)

(** A child that fails before [exec] reports the error to [Command::spawn] ([CFailed]);
    one that is killed before it, by its watchdog ([CKilled]) or from outside
    ([CLost]), reports nothing. *)
Inductive cstate := CUnborn | CBoot | CAwaitAck | CRunning | CFailed | CKilled | CLost | CEnded.
Record cenv := mkCenv {
  group_ok : bool;                       (* setsid / setpgid *)
  c_send_ok : bool;
  c_received : result Frame ProtocolError;
  exec_ok : bool;
}.
Definition child_step (own_pid : Z) (n : Nonce) (c : cstate) (e : cenv) : cstate * list Frame :=
  match c with
  | CBoot =>
      if negb (group_ok e) then (CFailed, [])
      else if c_send_ok e then (CAwaitAck, [mkFrame Register_ n own_pid own_pid]) else (CFailed, [])
  | CAwaitAck =>
      match recv_expected Ack (c_received e) with
      | Err _ => (CFailed, [])
      | Ok ack =>
          if negb (bool_decide (pid ack = own_pid)) || negb (bool_decide (pgid ack = own_pid))
             || negb (bool_decide (nonce ack = n)) then (CFailed, [])
          else if exec_ok e then (CRunning, []) else (CFailed, [])
      end
  | CRunning => (CEnded, [])
  | c => (c, [])
  end.

(** ** The host: the spawn transaction *)

Inductive hstate :=
| HAwaitBoot | HSpawn | HSpawning | HAwaitRegistered | HSendCommit | HAwaitCommitted | HReady | HFailed_ | HDead.
#[export] Instance hstate_eq_dec : EqDecision hstate.
Proof. solve_decision. Defined.
Record henv := mkHenv {
  h_received : result Frame ProtocolError;
  h_send_ok : bool;
  setup_active : bool;                   (* ensure_setup_active, building the command *)
  fork_ok : bool;                        (* the fork of Command::spawn *)
}.
(** [Command::spawn] waits for the end of the pipe on which the child reports an error
    before [exec]: it fails on a report, and succeeds when the pipe closes without one,
    because the child runs the program or because it has been killed.  A failing fork is
    a child that has failed before it did anything. *)
Definition host_step (child_pid : Z) (n : Nonce) (h : hstate) (c : cstate) (e : henv) : hstate * list Frame :=
  match h with
  | HAwaitBoot =>
      match expect_identity BootReady 0 (h_received e) with
      | Err _ => (HFailed_, [])
      | Ok _ => (if setup_active e then HSpawn else HFailed_, [])
      end
  | HSpawn => (if setup_active e then HSpawning else HFailed_, [])
  | HSpawning =>
      match c with
      | CRunning | CEnded | CKilled | CLost => (HAwaitRegistered, [])
      | CFailed => (HFailed_, if h_send_ok e then [mkFrame Abort_ n 0 0] else [])
      | _ => (HSpawning, [])
      end
  | HAwaitRegistered =>
      match expect_identity Registered child_pid (h_received e) with
      | Err _ => (HFailed_, [])
      | Ok _ => (HSendCommit, [])
      end
  | HSendCommit =>
      if h_send_ok e then (HAwaitCommitted, [mkFrame Commit n child_pid child_pid]) else (HFailed_, [])
  | HAwaitCommitted =>
      match expect_identity Committed child_pid (h_received e) with
      | Err _ => (HFailed_, [])
      | Ok _ => (HReady, [])
      end
  | h => (h, [])
  end.

(** ** The system *)

Record system := mkSystem {
  host : hstate;
  watchdog : wstate;
  child : cstate;
  host_to_watchdog : list Frame;
  watchdog_to_host : list Frame;
  child_to_watchdog : list Frame;
  watchdog_to_child : list Frame;
}.
Definition system_init : system := mkSystem HAwaitBoot WBoot CUnborn [] [] [] [].

(** A receive on a packet socket: the next frame, or any failure. *)
Inductive receives (q : list Frame) : result Frame ProtocolError → list Frame → Prop :=
| receives_frame f q' : q = f :: q' → receives q (Ok f) q'
| receives_error e : receives q (Err e) q.
(** Only these states read a socket. *)
Definition w_reads_child (w : wstate) : bool := match w with WAwaitRegister => true | _ => false end.
Definition w_reads_host (w : wstate) : bool := match w with WAwaitDecision _ => true | _ => false end.
Definition c_reads (c : cstate) : bool := match c with CAwaitAck => true | _ => false end.
Definition h_reads (h : hstate) : bool :=
  match h with HAwaitBoot | HAwaitRegistered | HAwaitCommitted => true | _ => false end.
Definition read_if (b : bool) (q : list Frame) (r : result Frame ProtocolError) (q' : list Frame) : Prop :=
  if b then receives q r q' else q' = q.
(** A successful group kill ends the child. *)
Definition killed (w' : wstate) (c : cstate) : cstate :=
  match w', c with
  | WSealed _, CRunning => CEnded
  | WSealed _, (CBoot | CAwaitAck) => CKilled
  | _, c => c
  end.
(** A kill of the child from outside *)
Definition child_dies (c : cstate) : cstate :=
  match c with CBoot | CAwaitAck => CLost | CRunning => CEnded | c => c end.
Definition to_host (o : list woutput) : list Frame := omap (λ o, match o with ToHost f => Some f | _ => None end) o.
Definition to_child (o : list woutput) : list Frame := omap (λ o, match o with ToChild f => Some f | _ => None end) o.

Section system.
Context (external_session : bool) (n : Nonce) (child_pid : Z).

Inductive step : system → system → Prop :=
| step_host s e h' out q' :
    host s ≠ HDead → read_if (h_reads (host s)) (watchdog_to_host s) (h_received e) q' →
    host_step child_pid n (host s) (child s) e = (h', out) →
    step s (mkSystem h' (watchdog s)
              (if bool_decide (host s = HSpawn ∧ h' = HSpawning)
               then (if fork_ok e then CBoot else CFailed) else child s)
              (host_to_watchdog s ++ out) q' (child_to_watchdog s) (watchdog_to_child s))
| step_host_dies s :
    step s (mkSystem HDead (watchdog s) (child s) (host_to_watchdog s) (watchdog_to_host s)
              (child_to_watchdog s) (watchdog_to_child s))
| step_child_dies s :
    step s (mkSystem (host s) (watchdog s) (child_dies (child s)) (host_to_watchdog s) (watchdog_to_host s)
              (child_to_watchdog s) (watchdog_to_child s))
| step_watchdog_dies s :
    step s (mkSystem (host s) WLost (child s) (host_to_watchdog s) (watchdog_to_host s)
              (child_to_watchdog s) (watchdog_to_child s))
| step_child s e c' out q' :
    child s ≠ CUnborn → read_if (c_reads (child s)) (watchdog_to_child s) (c_received e) q' →
    child_step child_pid n (child s) e = (c', out) →
    step s (mkSystem (host s) (watchdog s) c' (host_to_watchdog s) (watchdog_to_host s)
              (child_to_watchdog s ++ out) q')
| step_watchdog s e w' out qc qh :
    parent_alive e = negb (bool_decide (host s = HDead)) →
    read_if (w_reads_child (watchdog s)) (child_to_watchdog s) (received_frame e) qc →
    read_if (w_reads_host (watchdog s)) (host_to_watchdog s) (received_frame e) qh →
    watchdog_step external_session n (watchdog s) e = (w', out) →
    step s (mkSystem (host s) w' (killed w' (child s)) qh (watchdog_to_host s ++ to_host out)
              qc (watchdog_to_child s ++ to_child out)).

Inductive reachable : system → Prop :=
| reachable_init : reachable system_init
| reachable_step s s' : reachable s → step s s' → reachable s'.
End system.

(** ** The invariant *)

Definition leader_of (w : wstate) : option Z :=
  match w with
  | WSendRegistered l | WSendAck l | WAwaitDecision l | WSendCommitted l | WMonitor l | WKill l
  | WKillRetry l | WSealed l => Some l
  | _ => None
  end.
(** After the acknowledgement: the watchdog owns the group of [p]. *)
Definition guards (p : Z) (w : wstate) : Prop :=
  w ∈ [WAwaitDecision p; WSendCommitted p; WMonitor p; WKill p; WKillRetry p; WSealed p].
Definition committed (p : Z) (w : wstate) : Prop := w ∈ [WMonitor p; WKill p; WKillRetry p; WSealed p].
Definition owned (p : Z) (w : wstate) : Prop := guards p w ∨ w = WLost.
(** The child has run the program, or was killed from outside before it could. *)
Definition has_run (c : cstate) : Prop := c = CRunning ∨ c = CEnded.
Definition ran_or_lost (c : cstate) : Prop := has_run c ∨ c = CLost.
(** What [Command::spawn] takes for a success *)
Definition settled (c : cstate) : Prop := ran_or_lost c ∨ c = CKilled.

(** The host has had [Command::spawn] succeed. *)
Definition after_spawn (h : hstate) : bool :=
  match h with HAwaitRegistered | HSendCommit | HAwaitCommitted | HReady => true | _ => false end.

Section invariant.
Context (external_session : bool) (n : Nonce) (child_pid : Z).
#[local] Abbreviation step := (step external_session n child_pid).
#[local] Abbreviation reachable := (reachable external_session n child_pid).

Record inv (s : system) : Prop := {
  inv_registrations : ∀ f, f ∈ child_to_watchdog s → f = mkFrame Register_ n child_pid child_pid;
  inv_leader : ∀ l, leader_of (watchdog s) = Some l → l = child_pid;
  inv_decisions : ∀ f, f ∈ host_to_watchdog s →
    kind f = Commit ∧ settled (child s) ∨ kind f = Abort_ ∧ child s = CFailed;
  inv_ack : ∀ f, f ∈ watchdog_to_child s → owned child_pid (watchdog s) ∨ child s = CFailed;
  inv_running : child s = CRunning → owned child_pid (watchdog s);
  inv_sealed : watchdog s = WSealed child_pid → child s ≠ CRunning ∧ child s ≠ CBoot ∧ child s ≠ CAwaitAck;
  inv_killed : child s = CKilled → watchdog s = WSealed child_pid ∨ watchdog s = WLost;
  inv_decided : watchdog s = WSendCommitted child_pid → settled (child s);
  inv_unborn : host s = HAwaitBoot ∨ host s = HSpawn → child s = CUnborn;
  inv_before_birth : child s = CUnborn → leader_of (watchdog s) = None ∧ child_to_watchdog s = [];
  inv_host_ran : after_spawn (host s) = true → settled (child s);
  inv_committed : host s = HReady ∨ (∃ f, f ∈ watchdog_to_host s ∧ kind f = Committed) →
    (committed child_pid (watchdog s) ∨ watchdog s = WLost) ∧ ran_or_lost (child s);
}.

Lemma inv_init : inv system_init.
Proof. split; simpl; try set_solver; try done; naive_solver. Qed.

Lemma receives_in q r q' f : receives q r q' → f ∈ q' → f ∈ q.
Proof. intros [? ? ->|]; [by right|done]. Qed.
Lemma read_if_in b q r q' f : read_if b q r q' → f ∈ q' → f ∈ q.
Proof. destruct b; simpl; [apply receives_in|by intros ->]. Qed.
Lemma receives_ok q f q' : receives q (Ok f) q' → f ∈ q.
Proof. inversion 1; subst. left. Qed.
Lemma recv_expected_ok k r f : recv_expected k r = Ok f → r = Ok f ∧ kind f = k.
Proof.
  unfold recv_expected. intros (g&->&Hg)%result_bind_ok. case_bool_decide; by simplify_eq.
Qed.
Lemma expect_identity_ok k p r f : expect_identity k p r = Ok f → r = Ok f ∧ kind f = k ∧ pid f = p ∧ pgid f = p.
Proof.
  unfold expect_identity. intros (g&Hr&Hv)%result_bind_ok. apply recv_expected_ok in Hr as [-> Hk].
  unfold validate_frame_identity in Hv. case_match eqn:Hb; simplify_eq.
  apply andb_true_iff in Hb as [?%bool_decide_eq_true ?%bool_decide_eq_true]. done.
Qed.

Lemma guards_leader p w : guards p w → leader_of w = Some p.
Proof. unfold guards. rewrite !elem_of_cons, elem_of_nil. by intros [->|[->|[->|[->|[->|[->|[]]]]]]]. Qed.
Lemma committed_guards p w : committed p w → guards p w.
Proof. unfold committed, guards. set_solver. Qed.

Lemma inv_child s e c' out q' :
  inv s → child s ≠ CUnborn → read_if (c_reads (child s)) (watchdog_to_child s) (c_received e) q' →
  child_step child_pid n (child s) e = (c', out) →
  inv (mkSystem (host s) (watchdog s) c' (host_to_watchdog s) (watchdog_to_host s) (child_to_watchdog s ++ out) q').
Proof.
  intros H Hborn Hread Hstep.
  assert (Hout : ∀ f, f ∈ out → f = mkFrame Register_ n child_pid child_pid).
  { unfold child_step in Hstep. repeat case_match; simplify_eq; set_solver. }
  assert (Hfail : child s = CFailed → c' = CFailed) by (intros Hc; rewrite Hc in Hstep; by simplify_eq/=).
  assert (Hrun : c' = CRunning → owned child_pid (watchdog s) ∧ watchdog s ≠ WSealed child_pid).
  { intros ->. unfold child_step in Hstep. destruct (child s) eqn:Hc; try by (repeat case_match; simplify_eq).
    destruct (recv_expected Ack (c_received e)) as [ack|] eqn:Hack; [|by simplify_eq].
    apply recv_expected_ok in Hack as [Hr _]. simpl in Hread. rewrite Hr in Hread. apply receives_ok in Hread.
    destruct (inv_ack _ H _ Hread) as [Hg|]; [|congruence]. split; [done|].
    intros Hs. apply (inv_sealed _ H) in Hs. naive_solver. }
  assert (Hdone : settled (child s) → settled c').
  { unfold child_step in Hstep. unfold settled, ran_or_lost, has_run.
    intros [[[Hc|Hc]|Hc]|Hc]; rewrite Hc in Hstep; simplify_eq/=; auto. }
  assert (Hnokill : c' = CKilled → child s = CKilled).
  { unfold child_step in Hstep. intros ->. destruct (child s); repeat case_match; simplify_eq; done. }
  assert (Hstuck : c' = CBoot ∨ c' = CAwaitAck → child s = CBoot ∨ child s = CAwaitAck).
  { unfold child_step in Hstep. destruct (child s); repeat case_match; simplify_eq; naive_solver. }
  split; simpl.
  - intros f [Hf|Hf]%elem_of_app; [by apply (inv_registrations _ H)|by apply Hout].
  - apply (inv_leader _ H).
  - intros f Hf. destruct (inv_decisions _ H _ Hf) as [[? ?]|[? ?]]; auto.
  - intros f Hf. eapply read_if_in in Hf; [|done]. destruct (inv_ack _ H _ Hf); auto.
  - intros Hc. by apply Hrun.
  - intros Hs. pose proof (inv_sealed _ H Hs) as (?&?&?). split_and!; [|naive_solver..].
    intros Hc. by apply Hrun in Hc as [_ Hc].
  - intros Hc. by apply (inv_killed _ H), Hnokill.
  - intros Hw. by apply Hdone, (inv_decided _ H).
  - intros Hh. by apply (inv_unborn _ H) in Hh.
  - intros ->. unfold child_step in Hstep. destruct (child s); repeat case_match; simplify_eq; done.
  - intros Hh. by apply Hdone, (inv_host_ran _ H).
  - intros Hh. destruct (inv_committed _ H Hh) as [Hw Hc]. split; [done|].
    destruct (Hdone (or_introl Hc)) as [|Hk]; [done|]. apply Hnokill in Hk. rewrite Hk in Hc.
    by destruct Hc as [[?|?]|?].
Qed.

Lemma host_out h c e h' out f :
  host_step child_pid n h c e = (h', out) → f ∈ out →
  kind f = Commit ∧ h = HSendCommit ∨ kind f = Abort_ ∧ c = CFailed.
Proof.
  intros Hstep Hf. destruct h; simpl in Hstep; repeat case_match; simplify_eq; try (by apply elem_of_nil in Hf);
    apply list_elem_of_singleton in Hf as ->; [by right|by left].
Qed.
Lemma host_after h c e h' out :
  host_step child_pid n h c e = (h', out) → after_spawn h' = true → after_spawn h = true ∨ settled c.
Proof.
  unfold settled, ran_or_lost, has_run. intros Hstep Hh. destruct h; simpl in Hstep; repeat case_match; simplify_eq/=; auto.
Qed.
Lemma inv_host s e h' out q' :
  inv s → host s ≠ HDead → read_if (h_reads (host s)) (watchdog_to_host s) (h_received e) q' →
  host_step child_pid n (host s) (child s) e = (h', out) →
  inv (mkSystem h' (watchdog s) (if bool_decide (host s = HSpawn ∧ h' = HSpawning)
               then (if fork_ok e then CBoot else CFailed) else child s)
         (host_to_watchdog s ++ out) q' (child_to_watchdog s) (watchdog_to_child s)).
Proof.
  intros H _ Hread Hstep.
  assert (Hout : ∀ f, f ∈ out → kind f = Commit ∧ settled (child s) ∨ kind f = Abort_ ∧ child s = CFailed).
  { intros f Hf. destruct (host_out _ _ _ _ _ _ Hstep Hf) as [[Hk Hh]|]; [left|by right].
    split; [done|]. apply (inv_host_ran _ H). by rewrite Hh. }
  assert (Hready : h' = HReady →
    (committed child_pid (watchdog s) ∨ watchdog s = WLost) ∧ ran_or_lost (child s)).
  { intros ->. unfold host_step in Hstep. destruct (host s) eqn:Hh; try by (repeat case_match; simplify_eq).
    - destruct (expect_identity Committed child_pid (h_received e)) as [f|] eqn:Hf; [|by simplify_eq].
      apply expect_identity_ok in Hf as (Hr&Hk&_). simpl in Hread. rewrite Hr in Hread. apply receives_ok in Hread.
      apply (inv_committed _ H). right. eauto.
    - apply (inv_committed _ H). by left. }
  assert (Hran : after_spawn h' = true → settled (child s)).
  { intros Hh. destruct (host_after _ _ _ _ _ Hstep Hh); [by apply (inv_host_ran _ H)|done]. }
  destruct (decide (host s = HSpawn ∧ h' = HSpawning)) as [[Hs ->]|Hns].
  - rewrite bool_decide_eq_true_2 by done.
    pose proof (inv_unborn _ H (or_intror Hs)) as Hu. destruct (inv_before_birth _ H Hu) as [Hl Hq].
    split; simpl.
    + apply (inv_registrations _ H).
    + apply (inv_leader _ H).
    + intros f [Hf|Hf]%elem_of_app; [apply (inv_decisions _ H) in Hf|apply Hout in Hf];
        (destruct Hf as [[_ Hc]|[_ ?]]; [|congruence]; rewrite Hu in Hc; by destruct Hc as [[[?|?]|?]|?]).
    + intros f Hf. destruct (inv_ack _ H _ Hf); [by left|congruence].
    + by destruct (fork_ok e).
    + intros Hw. by rewrite Hw in Hl.
    + by destruct (fork_ok e).
    + intros Hw. by rewrite Hw in Hl.
    + by intros [?|?].
    + by destruct (fork_ok e).
    + done.
    + intros [?|(f&Hf&Hk)]; [done|]. destruct (inv_committed _ H) as [_ Hc].
      { right. exists f. split; [by eapply read_if_in|done]. }
      rewrite Hu in Hc. by destruct Hc as [[?|?]|?].
  - rewrite bool_decide_eq_false_2 by done. split; simpl.
    + apply (inv_registrations _ H).
    + apply (inv_leader _ H).
    + intros f [Hf|Hf]%elem_of_app; [by apply (inv_decisions _ H)|by apply Hout].
    + apply (inv_ack _ H).
    + apply (inv_running _ H).
    + apply (inv_sealed _ H).
    + apply (inv_killed _ H).
    + apply (inv_decided _ H).
    + intros Hh. apply (inv_unborn _ H). unfold host_step in Hstep.
      destruct (host s); repeat case_match; simplify_eq; naive_solver.
    + apply (inv_before_birth _ H).
    + apply Hran.
    + intros [Hh|(f&Hf&Hk)]; [by apply Hready|]. apply (inv_committed _ H). right. exists f.
      split; [by eapply read_if_in|done].
Qed.

(** How one step moves the watchdog. *)
Lemma watchdog_leader w e w' out :
  watchdog_step external_session n w e = (w', out) → (∀ l, leader_of w = Some l → l = child_pid) →
  (w = WAwaitRegister → ∀ f, received_frame e = Ok f → pid f = child_pid) →
  ∀ l, leader_of w' = Some l → l = child_pid.
Proof.
  intros Hstep Hl Hreg l. destruct w; simpl in Hstep, Hl; unfold kill_step in Hstep; repeat case_match; simplify_eq/=; intros ?; simplify_eq; auto.
  match goal with Hr : recv_expected _ _ = Ok _ |- _ => apply recv_expected_ok in Hr as [Hr _] end. eauto.
Qed.
Lemma watchdog_guards w e w' out :
  watchdog_step external_session n w e = (w', out) → guards child_pid w →
  guards child_pid w' ∨ w' = WExit 0 ∧ ∃ f, w_reads_host w = true ∧ received_frame e = Ok f ∧ kind f = Abort_.
Proof.
  unfold guards. intros Hstep Hg. repeat (apply elem_of_cons in Hg as [->|Hg]); [..|by apply elem_of_nil in Hg];
    simpl in Hstep; unfold kill_step in *; repeat case_match; simplify_eq/=; try (left; set_solver); right; eauto 6.
Qed.
Lemma watchdog_ack w e w' out f :
  watchdog_step external_session n w e = (w', out) → f ∈ to_child out → ∃ l, w = WSendAck l ∧ w' = WAwaitDecision l.
Proof.
  intros Hstep Hf. destruct w; simpl in Hstep; unfold kill_step in *; repeat case_match; simplify_eq/=;
    unfold to_child, sent in Hf; repeat case_match; simpl in Hf; try (by apply elem_of_nil in Hf); eauto.
Qed.
Lemma watchdog_committed w e w' out :
  watchdog_step external_session n w e = (w', out) → committed child_pid w → committed child_pid w'.
Proof.
  unfold committed. intros Hstep Hg. repeat (apply elem_of_cons in Hg as [->|Hg]); [..|by apply elem_of_nil in Hg];
    simpl in Hstep; unfold kill_step in *; repeat case_match; simplify_eq/=; set_solver.
Qed.
Lemma watchdog_sends_committed w e w' out f :
  watchdog_step external_session n w e = (w', out) → f ∈ to_host out → kind f = Committed →
  ∃ l, w = WSendCommitted l ∧ w' = WMonitor l.
Proof.
  intros Hstep Hf Hk. destruct w; simpl in Hstep; unfold kill_step in *; repeat case_match; simplify_eq/=;
    unfold to_host, sent in Hf; repeat case_match; simpl in Hf;
    repeat (apply elem_of_cons in Hf as [->|Hf]); try (by apply elem_of_nil in Hf); simplify_eq/=; eauto.
Qed.
Lemma watchdog_decides w e w' out l :
  watchdog_step external_session n w e = (w', out) → w' = WSendCommitted l →
  ∃ f, w_reads_host w = true ∧ received_frame e = Ok f ∧ kind f = Commit.
Proof.
  intros Hstep ->. destruct w; simpl in Hstep; unfold kill_step in *; repeat case_match; simplify_eq/=; eauto.
Qed.
Lemma watchdog_stays w e w' out l :
  watchdog_step external_session n w e = (w', out) → (w = WSealed l ∨ w = WLost) → w' = w.
Proof. by intros Hstep [->| ->]; simpl in Hstep; simplify_eq. Qed.
Lemma killed_failed w c : c = CFailed → killed w c = CFailed.
Proof. intros ->. by destruct w. Qed.
Lemma killed_settled w c : settled c → settled (killed w c).
Proof. unfold settled, ran_or_lost, has_run. destruct w, c; naive_solver. Qed.
Lemma killed_ran w c : ran_or_lost c → ran_or_lost (killed w c).
Proof. unfold ran_or_lost, has_run. destruct w, c; naive_solver. Qed.
Lemma killed_killed w c : killed w c = CKilled → c = CKilled ∨ ∃ l, w = WSealed l.
Proof. destruct w, c; naive_solver. Qed.
Lemma killed_running w c : killed w c = CRunning → c = CRunning ∧ ∀ l, w ≠ WSealed l.
Proof. destruct w, c; naive_solver. Qed.

Lemma inv_watchdog_committed s e w' out :
  inv s → watchdog_step external_session n (watchdog s) e = (w', out) →
  (∀ l, leader_of w' = Some l → l = child_pid) →
  host s = HReady ∨ (∃ f, f ∈ watchdog_to_host s ++ to_host out ∧ kind f = Committed) →
  (committed child_pid w' ∨ w' = WLost) ∧ ran_or_lost (killed w' (child s)).
Proof.
  intros H Hstep Hlead Hh.
  assert (Hold : host s = HReady ∨ (∃ f, f ∈ watchdog_to_host s ∧ kind f = Committed) →
    (committed child_pid w' ∨ w' = WLost) ∧ ran_or_lost (killed w' (child s))).
  { intros Hx. destruct (inv_committed _ H Hx) as [[Hw|Hw] Hc]; (split; [|by apply killed_ran]).
    - left. by eapply watchdog_committed.
    - right. rewrite <-Hw. eapply (watchdog_stays _ _ _ _ 0); eauto. }
  destruct Hh as [Hh|(f&[Hf|Hf]%elem_of_app&Hk)]; [by apply Hold; left|by apply Hold; right; eauto|].
  destruct (watchdog_sends_committed _ _ _ _ _ Hstep Hf Hk) as (l&Hw&->). specialize (Hlead l eq_refl). subst l.
  split; [left; unfold committed; set_solver|]. simpl. destruct (inv_decided _ H Hw) as [|Hc]; [done|].
  destruct (inv_killed _ H Hc); congruence.
Qed.
Lemma inv_watchdog s e w' out qc qh :
  inv s → read_if (w_reads_child (watchdog s)) (child_to_watchdog s) (received_frame e) qc →
  read_if (w_reads_host (watchdog s)) (host_to_watchdog s) (received_frame e) qh →
  watchdog_step external_session n (watchdog s) e = (w', out) →
  inv (mkSystem (host s) w' (killed w' (child s)) qh (watchdog_to_host s ++ to_host out)
         qc (watchdog_to_child s ++ to_child out)).
Proof.
  intros H Hrc Hrh Hstep.
  assert (Hlead : ∀ l, leader_of w' = Some l → l = child_pid).
  { eapply watchdog_leader; [done|apply (inv_leader _ H)|]. intros Hw f Hf.
    rewrite Hw in Hrc. simpl in Hrc. rewrite Hf in Hrc. apply receives_ok, (inv_registrations _ H) in Hrc. by subst. }
  assert (Hguard : owned child_pid (watchdog s) → owned child_pid w' ∨ child s = CFailed).
  { intros [Hg|Hw]; [|left; right; rewrite <-Hw; eapply (watchdog_stays _ _ _ _ 0); eauto].
    destruct (watchdog_guards _ _ _ _ Hstep Hg) as [|(->&f&Hh&Hf&Hk)]; [by left; left|right].
    rewrite Hh in Hrh. simpl in Hrh. rewrite Hf in Hrh. apply receives_ok, (inv_decisions _ H) in Hrh as [[? _]|[_ ?]];
      [congruence|done]. }
  split; simpl.
  - intros f Hf. apply (inv_registrations _ H). by eapply read_if_in.
  - exact Hlead.
  - intros f Hf. eapply read_if_in, (inv_decisions _ H) in Hf as [[? Hc]|[? Hc]]; [..|done].
    + left. split; [done|by apply killed_settled].
    + right. by rewrite (killed_failed _ _ Hc).
  - intros f [Hf|Hf]%elem_of_app.
    + destruct (inv_ack _ H _ Hf) as [Hg|Hc]; [|right; by apply killed_failed].
      destruct (Hguard Hg); [by left|right; by apply killed_failed].
    + destruct (watchdog_ack _ _ _ _ _ Hstep Hf) as (l&Hw&->). left; left. rewrite (Hlead l eq_refl). unfold guards. set_solver.
  - intros [Hc _]%killed_running. destruct (Hguard (inv_running _ H Hc)); [done|congruence].
  - intros ->. simpl. by destruct (child s).
  - intros [Hc|[l ->]]%killed_killed; [|left; by rewrite (Hlead l eq_refl)].
    destruct (inv_killed _ H Hc) as [Hw|Hw]; rewrite (watchdog_stays _ _ _ _ child_pid Hstep); auto.
  - intros Hw. destruct (watchdog_decides _ _ _ _ _ Hstep Hw) as (f&Hh&Hf&Hk). rewrite Hh in Hrh. simpl in Hrh.
    rewrite Hf in Hrh. apply receives_ok, (inv_decisions _ H) in Hrh as [[_ Hc]|[? _]]; [by apply killed_settled|congruence].
  - intros Hh. rewrite (inv_unborn _ H Hh). by destruct w'.
  - intros Hc. assert (child s = CUnborn) as Hu by (destruct w', (child s); done).
    destruct (inv_before_birth _ H Hu) as [Hl Hq]. rewrite Hq in Hrc. split.
    + destruct (watchdog s) eqn:Hw; simpl in Hstep, Hl, Hrc; try done; repeat case_match; simplify_eq/=; try done.
      match goal with Hr : recv_expected _ _ = Ok _ |- _ => apply recv_expected_ok in Hr as [Hr _]; rewrite Hr in Hrc end.
      apply receives_ok in Hrc. by apply elem_of_nil in Hrc.
    + destruct (w_reads_child _); simpl in Hrc; [by inversion Hrc|done].
  - intros Hh. by apply killed_settled, (inv_host_ran _ H).
  - by eapply inv_watchdog_committed.
Qed.

Lemma dies_settled c : settled c → settled (child_dies c).
Proof. unfold settled, ran_or_lost, has_run. destruct c; naive_solver. Qed.
Lemma dies_ran c : ran_or_lost c → ran_or_lost (child_dies c).
Proof. unfold ran_or_lost, has_run. destruct c; naive_solver. Qed.
Lemma dies_failed c : c = CFailed → child_dies c = CFailed.
Proof. by intros ->. Qed.
Lemma inv_child_dies s :
  inv s → inv (mkSystem (host s) (watchdog s) (child_dies (child s)) (host_to_watchdog s) (watchdog_to_host s)
                 (child_to_watchdog s) (watchdog_to_child s)).
Proof.
  intros H. split; simpl.
  - apply (inv_registrations _ H).
  - apply (inv_leader _ H).
  - intros f Hf. destruct (inv_decisions _ H f Hf) as [[? ?]|[? ?]]; [left|right]; (split; [done|]).
    + by apply dies_settled.
    + by apply dies_failed.
  - intros f Hf. destruct (inv_ack _ H f Hf); [by left|right; by apply dies_failed].
  - by destruct (child s).
  - by destruct (child s).
  - intros Hc. apply (inv_killed _ H). by destruct (child s).
  - intros Hw. by apply dies_settled, (inv_decided _ H).
  - intros Hh. by rewrite (inv_unborn _ H Hh).
  - intros Hc. apply (inv_before_birth _ H). by destruct (child s).
  - intros Hh. by apply dies_settled, (inv_host_ran _ H).
  - intros Hh. destruct (inv_committed _ H Hh) as [Hw Hc]. split; [done|by apply dies_ran].
Qed.
Lemma inv_watchdog_dies s :
  inv s → inv (mkSystem (host s) WLost (child s) (host_to_watchdog s) (watchdog_to_host s)
                 (child_to_watchdog s) (watchdog_to_child s)).
Proof.
  intros H. split; simpl; try done; unfold owned; auto.
  - apply (inv_registrations _ H).
  - apply (inv_decisions _ H).
  - apply (inv_unborn _ H).
  - intros Hc. by destruct (inv_before_birth _ H Hc).
  - apply (inv_host_ran _ H).
  - intros Hh. destruct (inv_committed _ H Hh). auto.
Qed.
Lemma reachable_inv s : reachable s → inv s.
Proof.
  induction 1 as [|s s' _ IH Hstep]; [apply inv_init|]. destruct Hstep.
  - by eapply inv_host.
  - destruct IH. split; simpl; try done; [by intros [?|?]|].
    intros [?|?]; [done|]. auto.
  - by apply inv_child_dies.
  - by apply inv_watchdog_dies.
  - by eapply inv_child.
  - by eapply inv_watchdog.
Qed.
End invariant.

(** ** Properties *)

Definition watchdog_run (external_session : bool) (n : Nonce) (w : wstate) (es : list wenv) : wstate :=
  foldl (λ w e, (watchdog_step external_session n w e).1) w es.

(** C5. No orphan is created as long as the watchdog is not itself killed from outside:
    in every reachable state of host, watchdog and child, under any interleaving, any
    failures of system calls, and the death of any of the three at any time, a child
    that runs the program is owned by its watchdog, which has recorded exactly this
    child and has neither exited nor sealed the group; and a host that reports success
    has a committed watchdog and a child that ran the program, or that was killed from
    outside between its registration and the program. *)
Theorem spawn_no_orphan external n child_pid s :
  reachable external n child_pid s →
  (child s = CRunning → watchdog s ≠ WLost → guards child_pid (watchdog s) ∧ watchdog s ≠ WSealed child_pid) ∧
  (∀ code, watchdog s = WExit code → child s ≠ CRunning) ∧
  (host s = HReady → watchdog s ≠ WLost → committed child_pid (watchdog s)) ∧
  (host s = HReady → child s = CRunning ∨ child s = CEnded ∨ child s = CLost).
Proof.
  intros H%reachable_inv. split_and!.
  - intros Hc Hl. destruct (inv_running _ _ _ H Hc) as [Hg|]; [|done]. split; [done|].
    intros Hs. by apply (inv_sealed _ _ _ H) in Hs as [? _].
  - intros code Hw Hc. destruct (inv_running _ _ _ H Hc) as [Hg|Hg]; rewrite Hw in Hg; [|done].
    by apply guards_leader in Hg.
  - intros Hh Hl. by destruct (inv_committed _ _ _ H (or_introl Hh)) as [[?|?] _].
  - intros Hh. destruct (inv_committed _ _ _ H (or_introl Hh)) as [_ [[?|?]|?]]; auto.
Qed.

Definition killing (p : Z) (w : wstate) : Prop := w ∈ [WKill p; WKillRetry p; WSealed p].
Lemma two_steps external n p w a b :
  guards p w → parent_alive a = false → parent_alive b = false → killing p (watchdog_run external n w [a; b]).
Proof.
  unfold guards, killing, watchdog_run. intros Hg Ha Hb.
  repeat (apply elem_of_cons in Hg as [->|Hg]); [..|by apply elem_of_nil in Hg];
    simpl; rewrite ?Ha; simpl; repeat (case_match; simplify_eq/=; rewrite ?Ha, ?Hb; simpl);
    rewrite !elem_of_cons; auto 6.
Qed.

(** Orphans are killed: if the host dies while the child runs, at any point of
    the handshake or after it, then whatever the system calls answer (the monitor
    reporting the host dead), the watchdog is killing the group after at most two
    of its steps, keeps trying, and seals the group with the first kill that
    succeeds. *)
Theorem spawn_orphan_killed external n child_pid s es1 e1 es2 :
  reachable external n child_pid s → child s = CRunning → watchdog s ≠ WLost →
  Forall (λ e, parent_alive e = false) (es1 ++ e1 :: es2) → 2 ≤ length es1 → kill_ok e1 = true →
  killing child_pid (watchdog_run external n (watchdog s) es1) ∧
  watchdog_run external n (watchdog s) (es1 ++ e1 :: es2) = WSealed child_pid.
Proof.
  intros H Hc Hlost Hdead Hlen Hk. apply reachable_inv in H.
  destruct (inv_running _ _ _ H Hc) as [Hg|]; [|done].
  assert (Hstay : ∀ es w, killing child_pid w → killing child_pid (watchdog_run external n w es)).
  { unfold watchdog_run, killing. induction es as [|e es IH]; intros w Hw; [done|]. simpl. apply IH.
    repeat (apply elem_of_cons in Hw as [->|Hw]); [..|by apply elem_of_nil in Hw]; simpl; try case_match; set_solver. }
  assert (Hsealed : ∀ es, watchdog_run external n (WSealed child_pid) es = WSealed child_pid)
    by (unfold watchdog_run; by induction es).
  assert (Hkilling : killing child_pid (watchdog_run external n (watchdog s) es1)).
  { destruct es1 as [|a [|b es1]]; simpl in Hlen; [lia..|].
    apply Forall_app in Hdead as [Hdead _]. apply Forall_cons in Hdead as [Ha [Hb _]%Forall_cons].
    change (watchdog_run external n (watchdog s) (a :: b :: es1)) with (watchdog_run external n
      (watchdog_run external n (watchdog s) [a; b]) es1). apply Hstay. by apply two_steps. }
  split; [done|]. unfold watchdog_run in *. rewrite foldl_app. cbn [foldl].
  assert (Hnow : (watchdog_step external n (foldl (λ w e, (watchdog_step external n w e).1) (watchdog s) es1) e1).1
    = WSealed child_pid).
  { revert Hkilling. generalize (foldl (λ w e, (watchdog_step external n w e).1) (watchdog s) es1). unfold killing. intros w Hw.
    repeat (apply elem_of_cons in Hw as [->|Hw]); [..|by apply elem_of_nil in Hw]; simpl; by rewrite ?Hk. }
  rewrite Hnow. apply Hsealed.
Qed.

(** ** Witnesses: a pipe child with pid 42 *)

Definition demo_nonce : Nonce := replicate 16 (u8 7).
Definition demo_env (r : result Frame ProtocolError) (alive : bool) : wenv :=
  mkWenv true true alive true true true true true true true r Eq false alive.
Definition frame42 (k : FrameKind) : Frame := mkFrame k demo_nonce 42 42.
(** The child has just executed the program. *)
Definition demo_running : system :=
  mkSystem HSpawning (WAwaitDecision 42) CRunning [] [frame42 Registered] [] [].
Lemma demo_running_reachable : reachable false demo_nonce 42 demo_running.
Proof.
  eapply reachable_step; [|apply (step_child _ _ _
    (mkSystem HSpawning (WAwaitDecision 42) CAwaitAck [] [frame42 Registered] [] [frame42 Ack])
    (mkCenv true true (Ok (frame42 Ack)) true) CRunning [] []); [done|by apply receives_frame|reflexivity]].
  eapply reachable_step; [|apply (step_watchdog _ _ _
    (mkSystem HSpawning (WSendAck 42) CAwaitAck [] [frame42 Registered] [] [])
    (demo_env (Err PeerClosed) true) (WAwaitDecision 42) [ToChild (frame42 Ack)] [] []); done].
  eapply reachable_step; [|apply (step_watchdog _ _ _
    (mkSystem HSpawning (WSendRegistered 42) CAwaitAck [] [] [] [])
    (demo_env (Err PeerClosed) true) (WSendAck 42) [ToHost (frame42 Registered)] [] []); done].
  eapply reachable_step; [|apply (step_watchdog _ _ _
    (mkSystem HSpawning WAwaitRegister CAwaitAck [] [] [frame42 Register_] [])
    (demo_env (Ok (frame42 Register_)) true) (WSendRegistered 42) [] [] []); [done|by apply receives_frame|done|reflexivity]].
  eapply reachable_step; [|apply (step_child _ _ _ (mkSystem HSpawning WAwaitRegister CBoot [] [] [] [])
    (mkCenv true true (Err PeerClosed) true) CAwaitAck [frame42 Register_] []); done].
  eapply reachable_step; [|apply (step_host _ _ _ (mkSystem HSpawn WAwaitRegister CUnborn [] [] [] [])
    (mkHenv (Err PeerClosed) true true true) HSpawning [] []); done].
  eapply reachable_step; [|apply (step_host _ _ _
    (mkSystem HAwaitBoot WAwaitRegister CUnborn [] [mkFrame BootReady demo_nonce 0 0] [] [])
    (mkHenv (Ok (mkFrame BootReady demo_nonce 0 0)) true true true) HSpawn [] []); [done|by apply receives_frame|reflexivity]].
  eapply reachable_step; [|apply (step_watchdog _ _ _ system_init
    (demo_env (Err PeerClosed) true) WAwaitRegister [ToHost (mkFrame BootReady demo_nonce 0 0)] [] []); done].
  apply reachable_init.
Qed.
Lemma spawn_no_orphan_witness : guards 42 (watchdog demo_running).
Proof. exact (proj1 (proj1 (spawn_no_orphan false demo_nonce 42 demo_running demo_running_reachable) eq_refl
  ltac:(discriminate))). Defined.
Lemma spawn_orphan_killed_witness :
  watchdog_run false demo_nonce (WAwaitDecision 42)
    [demo_env (Err DeadlineExceeded) false; demo_env (Err DeadlineExceeded) false;
     mkWenv true true false true true true true true true true (Err PeerClosed) Eq false true] = WSealed 42.
Proof.
  apply (spawn_orphan_killed false demo_nonce 42 demo_running
    [demo_env (Err DeadlineExceeded) false; demo_env (Err DeadlineExceeded) false]
    (mkWenv true true false true true true true true true true (Err PeerClosed) Eq false true) []);
    [exact demo_running_reachable|reflexivity|discriminate|repeat constructor|repeat constructor|reflexivity].
Defined.
