(* ===== verification/Bytes.v ===== *)
(** Byte strings as the standard library handles them: searching and splitting
    slices, numbers in decimal ([str::parse], [Display]), ASCII and UTF-8. *)
From S2P Require Import Prelude Utf8.

(** ** Numbers *)

Definition u64_checked (n : N) : option N := if (n <=? u64_max)%N then Some n else None.
Fixpoint parse_u64_loop (value : N) (l : bytes) : option N :=
  match l with
  | [] => Some value
  | b :: l =>
      if negb (is_ascii_digit b) then None else
      value ← u64_checked (value * 10);
      value ← u64_checked (value + (byte b - 48));
      parse_u64_loop value l
  end.
Definition parse_u64_raw (l : bytes) : option N :=
  match l with [] => None | _ => parse_u64_loop 0 l end.
(** [str::parse] of the standard library for [u64] and [i32]: an optional sign,
    then digits. *)
Definition str_parse_u64 (l : bytes) : option N :=
  match l with
  | b :: (_ :: _) as digits => if (byte b =? 43)%N then parse_u64_raw digits else parse_u64_raw l
  | _ => parse_u64_raw l
  end.
Definition str_parse_i32 (l : bytes) : option Z :=
  let in_range z := if ((-2147483648 <=? z) && (z <=? 2147483647))%Z then Some z else None in
  match l with
  | b :: (_ :: _) as digits =>
      if (byte b =? 45)%N then n ← parse_u64_raw digits; in_range (- Z.of_N n)%Z
      else if (byte b =? 43)%N then n ← parse_u64_raw digits; in_range (Z.of_N n)
      else n ← parse_u64_raw l; in_range (Z.of_N n)
  | _ => n ← parse_u64_raw l; in_range (Z.of_N n)
  end.

(** ** Slices *)

Fixpoint position (f : Ascii.ascii → bool) (l : bytes) : option nat :=
  match l with
  | [] => None
  | b :: l => if f b then Some 0 else S <$> position f l
  end.
Definition rposition (f : Ascii.ascii → bool) (l : bytes) : option nat :=
  (λ i, length l - 1 - i) <$> position f (rev l).
(** [slice.get(n..)] *)
Definition get_from (n : nat) (l : bytes) : option bytes :=
  if bool_decide (n ≤ length l) then Some (drop n l) else None.
(** [slice::split]: one piece more than there are separators. *)
Fixpoint split_on (f : Ascii.ascii → bool) (l : bytes) : list bytes :=
  match l with
  | [] => [[]]
  | b :: l =>
      if f b then [] :: split_on f l
      else match split_on f l with
           | piece :: pieces => (b :: piece) :: pieces
           | [] => [[b]]
           end
  end.

(** [str::trim] and [eq_ignore_ascii_case] *)
Definition bytes_trim (l : bytes) : bytes := as_bytes (trim (String.string_of_list_ascii l)).
Definition eq_ignore_ascii_case (a b : bytes) : bool :=
  bool_decide (to_ascii_lowercase_char <$> a = to_ascii_lowercase_char <$> b).

(** [Ord] on byte strings *)
Fixpoint bytes_leb (a b : bytes) : bool :=
  match a, b with
  | [], _ => true
  | _ :: _, [] => false
  | x :: a, y :: b => if (byte x =? byte y)%N then bytes_leb a b else (byte x <? byte y)%N
  end.

Definition is_byte (n : N) (b : Ascii.ascii) : bool := (byte b =? n)%N.

(** ** Decimal numbers *)

Definition decimal (n : N) : bytes := as_bytes (pretty n).
Definition pretty_digit (n : N) : Ascii.ascii := pretty_N_char (n mod 10).

Lemma pretty_digit_spec n : byte (pretty_digit n) = (48 + n mod 10)%N.
Proof.
  unfold pretty_digit. pose proof (N.mod_lt n 10 ltac:(done)) as H. revert H. generalize (n mod 10)%N. intros d Hd.
  assert (d = 0 ∨ d = 1 ∨ d = 2 ∨ d = 3 ∨ d = 4 ∨ d = 5 ∨ d = 6 ∨ d = 7 ∨ d = 8 ∨ d = 9)%N as Hc by lia.
  repeat destruct Hc as [->|Hc]; try subst; reflexivity.
Qed.
Lemma as_bytes_go_step n s :
  (0 < n)%N → as_bytes (pretty_N_go n s) = as_bytes (pretty_N_go (n / 10) (String (pretty_digit n) s)).
Proof. intros ?. by rewrite pretty_N_go_step. Qed.
Lemma N_div10_lt n : (0 < n)%N → (n / 10 < n)%N.
Proof. intros. by apply N.div_lt. Qed.
Lemma N_div10_step n : n = (n / 10 * 10 + n mod 10)%N.
Proof. pose proof (N.div_mod n 10 ltac:(done)). lia. Qed.
Lemma is_ascii_digit_pretty n : is_ascii_digit (pretty_digit n) = true.
Proof.
  unfold is_ascii_digit. rewrite pretty_digit_spec. pose proof (N.mod_lt n 10 ltac:(done)) as H.
  rewrite andb_true_iff, !N.leb_le. revert H. generalize (n mod 10)%N. intros. lia.
Qed.

Lemma parse_u64_loop_go n s :
  (n <= u64_max)%N → parse_u64_loop 0 (as_bytes (pretty_N_go n s)) = parse_u64_loop n (as_bytes s).
Proof.
  revert s. induction (N.lt_wf_0 n) as [n _ IH]; intros s Hn.
  destruct (decide (n = 0)%N) as [->|Hpos]; [done|].
  rewrite as_bytes_go_step by lia. rewrite IH; [|apply N_div10_lt; lia|pose proof (N_div10_lt n ltac:(lia)); lia].
  simpl. rewrite is_ascii_digit_pretty, pretty_digit_spec. simpl. pose proof (N_div10_step n) as H.
  revert H. generalize (n / 10)%N (n mod 10)%N. intros q r ->.
  unfold u64_checked. rewrite (proj2 (N.leb_le _ _)) by lia. simpl.
  replace (q * 10 + (48 + r - 48))%N with (q * 10 + r)%N by lia.
  by rewrite (proj2 (N.leb_le _ _)).
Qed.
Lemma decimal_go_nonempty n s : s ≠ "" → pretty_N_go n s ≠ "".
Proof.
  revert s. induction (N.lt_wf_0 n) as [n _ IH]; intros s Hs.
  destruct (decide (n = 0)%N) as [->|Hpos]; [done|].
  rewrite pretty_N_go_step by lia. apply IH; [apply N_div10_lt; lia|done].
Qed.
Lemma decimal_pos n : (0 < n)%N → decimal n = as_bytes (pretty_N_go n "").
Proof. intros. unfold decimal, pretty, pretty_N. by rewrite decide_False by lia. Qed.
Lemma as_bytes_nil s : as_bytes s = [] → s = "".
Proof. by destruct s. Qed.
Lemma decimal_nonempty n : decimal n ≠ [].
Proof.
  destruct (decide (n = 0)%N) as [->|]; [done|]. rewrite decimal_pos by lia. rewrite as_bytes_go_step by lia.
  intros ?%as_bytes_nil. by apply (decimal_go_nonempty (n / 10) (String (pretty_digit n) "")).
Qed.
Lemma parse_u64_decimal n : is_u64 n → parse_u64_raw (decimal n) = Some n.
Proof.
  intros Hn. unfold parse_u64_raw. destruct (decimal n) eqn:E; [by apply decimal_nonempty in E|].
  rewrite <-E. destruct (decide (n = 0)%N) as [->|]; [done|].
  rewrite decimal_pos by lia. by rewrite parse_u64_loop_go.
Qed.
Lemma decimal_digits n : Forall (λ b, is_ascii_digit b = true) (decimal n).
Proof.
  destruct (decide (n = 0)%N) as [->|Hn]; [by repeat constructor|]. rewrite decimal_pos by lia. clear Hn.
  cut (∀ s, Forall (λ b, is_ascii_digit b = true) (as_bytes s) →
    Forall (λ b, is_ascii_digit b = true) (as_bytes (pretty_N_go n s))); [intros H; by apply H|].
  induction (N.lt_wf_0 n) as [m _ IH]; intros s Hs.
  destruct (decide (m = 0)%N) as [->|]; [done|]. rewrite as_bytes_go_step by lia.
  apply IH; [apply N_div10_lt; lia|]. constructor; [apply is_ascii_digit_pretty|done].
Qed.

(** ** Slices and numbers *)

Lemma as_bytes_of l : as_bytes (String.string_of_list_ascii l) = l.
Proof. apply String.list_ascii_of_string_of_list_ascii. Qed.
Lemma of_as_bytes s : String.string_of_list_ascii (as_bytes s) = s.
Proof. apply String.string_of_list_ascii_of_string. Qed.
Lemma split_on_none f t : Forall (λ b, f b = false) t → split_on f t = [t].
Proof. induction 1 as [|b t Hb Ht IH]; simpl; [done|]. by rewrite Hb, IH. Qed.
Lemma split_on_app f t b l :
  Forall (λ c, f c = false) t → f b = true → split_on f (t ++ b :: l) = t :: split_on f l.
Proof. intros Ht Hb. induction Ht as [|c t Hc Ht IH]; simpl; [by rewrite Hb|]. by rewrite Hc, IH. Qed.
Lemma split_on_pieces f l : Forall (Forall (λ b, f b = false)) (split_on f l).
Proof.
  induction l as [|b l IH]; simpl; [by repeat constructor|]. destruct (f b) eqn:Hb; [by constructor|].
  destruct (split_on f l) as [|p ps]; [by repeat constructor|]. apply Forall_cons in IH as [Hp Hps].
  constructor; [by constructor|done].
Qed.
Lemma position_app f l b l' :
  Forall (λ c, f c = false) l → f b = true → position f (l ++ b :: l') = Some (length l).
Proof. induction 1 as [|c l Hc Hl IH]; intros Hb; simpl; [by rewrite Hb|]. by rewrite Hc, IH. Qed.
Lemma rposition_app f l b l' :
  Forall (λ c, f c = false) l' → f b = true → rposition f (l ++ b :: l') = Some (length l).
Proof.
  intros Hl Hb. unfold rposition. rewrite rev_app_distr. cbn [rev]. rewrite <-app_assoc. cbn [app].
  rewrite position_app; [|by apply Forall_rev|done]. simpl. f_equal.
  rewrite length_app, length_rev. simpl. lia.
Qed.
Lemma get_from_app l a b l' : get_from (length l + 2) (l ++ a :: b :: l') = Some l'.
Proof.
  unfold get_from. rewrite bool_decide_eq_true_2 by (rewrite length_app; simpl; lia). f_equal.
  change (a :: b :: l') with ([a; b] ++ l'). rewrite app_assoc. apply drop_app_length'. rewrite length_app. done.
Qed.
Lemma ascii_utf8 l : Forall (λ b, (byte b < 128)%N) l → from_utf8 l = None.
Proof.
  induction 1 as [|b l Hb _ IH]; [done|]. rewrite from_utf8_equation_2. unfold from_utf8_clause_2.
  assert (Hstep : utf8_step b l = Utf8Char 0).
  { unfold utf8_step, utf8_char_width. replace (byte_in 0 127 b) with true; [done|].
    symmetry. apply byte_in_spec. lia. }
  rewrite Hstep. simpl. by rewrite drop_0, IH.
Qed.
Lemma digit_not_sign b : is_ascii_digit b = true → (byte b =? 43)%N = false ∧ (byte b =? 45)%N = false.
Proof. unfold is_ascii_digit. rewrite andb_true_iff, !N.leb_le, !N.eqb_neq. lia. Qed.
Lemma str_parse_u64_decimal n : is_u64 n → str_parse_u64 (decimal n) = Some n.
Proof.
  intros Hn. pose proof (parse_u64_decimal n Hn) as Hp. pose proof (decimal_digits n) as Hd.
  unfold str_parse_u64. revert Hp. destruct Hd as [|b l Hb Hl]; [done|]. intros Hp. apply digit_not_sign in Hb as [Hb _].
  destruct l; [done|]. by rewrite Hb.
Qed.
Lemma str_parse_i32_decimal n : (n <= 2147483647)%N → str_parse_i32 (decimal n) = Some (Z.of_N n).
Proof.
  intros Hn. assert (Hu : is_u64 n) by (unfold is_u64, u64_max; lia).
  pose proof (parse_u64_decimal n Hu) as Hp. pose proof (decimal_digits n) as Hd.
  assert (Hr : ((-2147483648 <=? Z.of_N n) && (Z.of_N n <=? 2147483647))%Z = true)
    by (apply andb_true_iff; rewrite !Z.leb_le; lia).
  unfold str_parse_i32. revert Hp. destruct Hd as [|b l Hb Hl]; [done|]. intros Hp. apply digit_not_sign in Hb as [Hb Hb'].
  destruct l; rewrite ?Hb, ?Hb', Hp; simpl; by rewrite Hr.
Qed.
Lemma as_bytes_inj a b : as_bytes a = as_bytes b → a = b.
Proof. intros H. rewrite <-(String.string_of_list_ascii_of_string a), <-(String.string_of_list_ascii_of_string b). unfold as_bytes in H. by rewrite H. Qed.
Lemma decimal_inj a b : decimal a = decimal b → a = b.
Proof. intros H%as_bytes_inj. by apply (inj pretty). Qed.

(** A list is determined by what precedes the first, or follows the last, separator. *)
Lemma split_unique {A} (x : A) a a' s s' : x ∉ a → x ∉ a' → a ++ x :: s = a' ++ x :: s' → a = a' ∧ s = s'.
Proof.
  revert a'. induction a as [|y a IH]; intros [|y' a']; simpl; intros Ha Ha' H; simplify_eq; try done;
    rewrite ?not_elem_of_cons in *; try naive_solver.
Qed.
Lemma split_unique_last {A} (x : A) a a' s s' : x ∉ s → x ∉ s' → a ++ x :: s = a' ++ x :: s' → a = a' ∧ s = s'.
Proof.
  intros Hs Hs' H. apply (f_equal reverse) in H. rewrite !reverse_app, !reverse_cons, <-!app_assoc in H. cbn [app] in H.
  apply split_unique in H as [H1%(inj reverse) H2%(inj reverse)]; [done|by rewrite elem_of_reverse..].
Qed.
Lemma digit_no_sep n b : is_ascii_digit b = false → b ∉ decimal n.
Proof. intros Hb Hin. pose proof (decimal_digits n) as Hd. rewrite Forall_forall in Hd. by rewrite (Hd _ Hin) in Hb. Qed.
