(* ===== verification/ProcStat.v ===== *)
(** Process identities on Linux (shared/nomi-process-runtime/src/platform/linux_watchdog.rs):
    the two parsers of /proc/<pid>/stat, one for the host and one that allocates
    nothing for the forked watchdog, and the liveness monitor built on them. *)
From S2P Require Import Prelude Utf8 Bytes.

(** ** Numbers *)

Definition parse_pid (l : bytes) : option Z :=
  n ← parse_u64_raw l; if (n <=? 2147483647)%N then Some (Z.of_N n) else None.

(** [decimal_pid]: the digits are produced in reverse; 20 places are more than a
    positive [i32] needs. *)
Fixpoint reverse_digits (fuel : nat) (p : Z) : bytes :=
  match fuel with
  | 0 => []
  | S fuel => if (0 <? p)%Z then u8 (48 + Z.to_N (p mod 10)) :: reverse_digits fuel (p / 10) else []
  end.
Definition decimal_pid (p : Z) : option bytes :=
  if (p <=? 0)%Z then None else Some (rev (reverse_digits 20 p)).

Definition is_space : Ascii.ascii → bool := is_byte 32.
Definition is_close_paren : Ascii.ascii → bool := is_byte 41.
Definition ends_token (b : Ascii.ascii) : bool := is_space b || is_byte 10 b.

(** ** The two parsers *)

Record ProcIdentity := mkIdentity {
  id_pid : Z;
  ppid : Z;
  pgrp : Z;
  state : Ascii.ascii;
  starttime : N;
}.
Definition utf8_ok (l : bytes) : option bytes := match from_utf8 l with None => Some l | Some _ => None end.
Definition parse_proc_stat (bs : bytes) (p : Z) : option ProcIdentity :=
  close ← rposition is_close_paren bs;
  rest ← get_from (close + 2) bs;
  let values := filter (λ v, v ≠ []) (split_on is_space rest) in
  if bool_decide (length values < 20) then None else
  v0 ← values !! 0; v1 ← values !! 1; v2 ← values !! 2; v19 ← values !! 19;
  st ← head v0;
  pp ← (utf8_ok v1 ≫= str_parse_i32);
  pg ← (utf8_ok v2 ≫= str_parse_i32);
  start ← (utf8_ok v19 ≫= str_parse_u64);
  Some (mkIdentity p pp pg st start).

Fixpoint skip_spaces (l : bytes) : bytes :=
  match l with
  | b :: l' => if is_space b then skip_spaces l' else l
  | [] => []
  end.
(** What a token of the line sets. *)
Definition set_field (i : ProcIdentity) (token : bytes) (field : nat) : option ProcIdentity :=
  match field with
  | 0 => st ← head token; Some (mkIdentity (id_pid i) (ppid i) (pgrp i) st (starttime i))
  | 1 => pp ← parse_pid token; Some (mkIdentity (id_pid i) pp (pgrp i) (state i) (starttime i))
  | 2 => pg ← parse_pid token; Some (mkIdentity (id_pid i) (ppid i) pg (state i) (starttime i))
  | 19 => start ← parse_u64_raw token; Some (mkIdentity (id_pid i) (ppid i) (pgrp i) (state i) start)
  | _ => Some i
  end.
(** One turn of the loop over the fields. *)
Definition noalloc_field (i : ProcIdentity) (input : bytes) (field : nat) : option (ProcIdentity * bytes) :=
  let input := skip_spaces input in
  let end_ := default (length input) (position ends_token input) in
  let token := take end_ input in
  i ← set_field i token field;
  Some (i, drop end_ input).
Fixpoint noalloc_fields (i : ProcIdentity) (input : bytes) (fields : list nat) : option ProcIdentity :=
  match fields with
  | [] => Some i
  | field :: fields => '(i, input) ← noalloc_field i input field; noalloc_fields i input fields
  end.
Definition parse_proc_stat_noalloc (bs : bytes) (p : Z) : option ProcIdentity :=
  close ← rposition is_close_paren bs;
  input ← get_from (close + 2) bs;
  noalloc_fields (mkIdentity p 0 0 (u8 0) 0) input (seq 0 20).

(** ** Identities and monitors *)

Inductive IdentityObservation := Alive | Stale | Exited.
Definition compare_identity (expected : ProcIdentity) (current : option ProcIdentity) : IdentityObservation :=
  match current with
  | None => Exited
  | Some value =>
      if is_byte 90 (state value) || is_byte 88 (state value) then Exited
      else if bool_decide (id_pid value = id_pid expected) && (starttime value =? starttime expected)%N
      then Alive else Stale
  end.
Inductive PidfdErrorAction := ProcFallback | IdentityExited | Fatal (errno : Z).
Definition classify_pidfd_error (errno : Z) : PidfdErrorAction :=
  match errno with
  | 38 | 22 | 1 | 13 => ProcFallback     (* ENOSYS, EINVAL, EPERM, EACCES *)
  | 3 => IdentityExited                  (* ESRCH *)
  | other => Fatal other
  end%Z.

(** A file read at a path: what the first [read] returns, if the file opens. *)
Definition file_system := bytes → option bytes.
Definition stat_path (digits : bytes) : bytes := as_bytes "/proc/" ++ digits ++ as_bytes "/stat".
Definition read_proc_identity_raw (fs : file_system) (p : Z) : option ProcIdentity :=
  digits ← decimal_pid p;
  content ← fs (stat_path digits);
  let content := take 4096 content in
  match content with
  | [] => None
  | _ => parse_proc_stat_noalloc content p
  end.
Definition ESRCH : Z := 3.
Definition ESTALE : Z := 116.
Definition open_proc_monitor (fs : file_system) (p : Z) (expected_starttime : N) : result ProcIdentity Z :=
  match read_proc_identity_raw fs p with
  | None => Err ESRCH
  | Some identity =>
      if negb (expected_starttime =? 0)%N && negb (starttime identity =? expected_starttime)%N
      then Err ESTALE else Ok identity
  end.
Inductive ProcessMonitor := Pidfd (descriptor : Z) | Proc (identity : ProcIdentity).
(** [pidfd_open] answers a descriptor or an error number. *)
Definition open_monitor (pidfd_open : result Z Z) (fs : file_system) (p : Z) (expected_starttime : N) :
    result ProcessMonitor Z :=
  match pidfd_open with
  | Ok descriptor => Ok (Pidfd descriptor)
  | Err errno =>
      match classify_pidfd_error errno with
      | ProcFallback => let? i := open_proc_monitor fs p expected_starttime in Ok (Proc i)
      | IdentityExited => Err ESRCH
      | Fatal errno => Err errno
      end
  end.
(** [poll] on a process descriptor answers 0 while the process runs. *)
Definition monitor_alive (poll : Z → Z) (fs : file_system) (monitor : ProcessMonitor) : bool :=
  match monitor with
  | Pidfd descriptor => (poll descriptor =? 0)%Z
  | Proc expected =>
      match compare_identity expected (read_proc_identity_raw fs (id_pid expected)) with
      | Alive => true
      | _ => false
      end
  end.

Lemma reverse_digits_spec fuel p s :
  (p < 10 ^ Z.of_nat fuel)%Z →
  rev (reverse_digits fuel p) ++ as_bytes s = as_bytes (pretty_N_go (Z.to_N p) s).
Proof.
  revert p s. induction fuel as [|fuel IH]; intros p s Hp.
  { simpl in Hp. replace (Z.to_N p) with 0%N by lia. done. }
  simpl. destruct (Z.ltb_spec 0 p) as [Hpos|]; [|by replace (Z.to_N p) with 0%N by lia].
  rewrite as_bytes_go_step by lia. simpl. rewrite <-app_assoc.
  assert (Hd : Z.to_N (p / 10) = (Z.to_N p / 10)%N) by (by rewrite Z2N.inj_div by lia).
  assert (Hm : Z.to_N (p mod 10) = (Z.to_N p mod 10)%N) by (by rewrite Z2N.inj_mod by lia).
  rewrite <-Hd, <-IH.
  - f_equal. simpl. f_equal. apply byte_inj. rewrite byte_u8, pretty_digit_spec, Hm; [done|].
    rewrite Hm. pose proof (N.mod_lt (Z.to_N p) 10 ltac:(done)) as Hl. revert Hl.
    generalize (Z.to_N p mod 10)%N. intros. lia.
  - apply Z.div_lt_upper_bound; [lia|]. rewrite Nat2Z.inj_succ, Z.pow_succ_r in Hp by lia. lia.
Qed.
Lemma decimal_pid_spec p : (0 < p <= 2147483647)%Z → decimal_pid p = Some (decimal (Z.to_N p)).
Proof.
  intros Hp. unfold decimal_pid. rewrite (proj2 (Z.leb_gt _ _)) by lia. f_equal.
  rewrite decimal_pos by lia. rewrite <-(reverse_digits_spec 20) by (simpl; lia). apply eq_sym, app_nil_r.
Qed.

(** ** The line the kernel writes *)

#[local] Arguments u8 : simpl never.

Record process := mkProcess {
  comm : bytes;                       (* any bytes, parentheses and spaces included *)
  p_state : Ascii.ascii;
  p_ppid : N;
  p_pgrp : N;
  p_middle : list bytes;              (* fields 6 to 21 *)
  p_start : N;
  p_rest : bytes;                     (* fields 23 on and the line feed *)
}.
Definition fields_line (fields : list bytes) (rest : bytes) : bytes :=
  foldr (λ t l, t ++ u8 32 :: l) rest fields.
Definition stat_fields (q : process) : list bytes :=
  [p_state q] :: decimal (p_ppid q) :: decimal (p_pgrp q) :: p_middle q ++ [decimal (p_start q)].
Definition stat_line (p : Z) (q : process) : bytes :=
  decimal (Z.to_N p) ++ as_bytes " (" ++ comm q ++ u8 41 :: u8 32 :: fields_line (stat_fields q) (p_rest q).

(** A field is not empty and has no space, line feed or closing parenthesis. *)
Definition plain (b : Ascii.ascii) : bool := negb (ends_token b) && negb (is_close_paren b).
Definition token_ok (t : bytes) : Prop := t ≠ [] ∧ Forall (λ b, plain b = true) t.
Definition process_ok (q : process) : Prop :=
  plain (p_state q) = true ∧ (p_ppid q <= 2147483647)%N ∧ (p_pgrp q <= 2147483647)%N ∧
  length (p_middle q) = 16 ∧ Forall token_ok (p_middle q) ∧ is_u64 (p_start q) ∧
  Forall (λ b, is_close_paren b = false) (p_rest q).
Definition identity_of (p : Z) (q : process) : ProcIdentity :=
  mkIdentity p (Z.of_N (p_ppid q)) (Z.of_N (p_pgrp q)) (p_state q) (p_start q).

Lemma plain_spec b : plain b = true ↔ is_space b = false ∧ ends_token b = false ∧ is_close_paren b = false.
Proof. unfold plain, ends_token. destruct (is_space b), (is_byte 10 b), (is_close_paren b); simpl; naive_solver. Qed.
Lemma digit_plain b : is_ascii_digit b = true → plain b = true.
Proof.
  unfold is_ascii_digit, plain, ends_token, is_space, is_close_paren, is_byte.
  rewrite !andb_true_iff, !negb_true_iff, orb_false_iff, !N.leb_le, !N.eqb_neq. lia.
Qed.
Lemma decimal_token n : token_ok (decimal n).
Proof.
  split; [apply decimal_nonempty|]. eapply Forall_impl; [apply decimal_digits|]. intros; by apply digit_plain.
Qed.
Lemma stat_fields_ok q : process_ok q → Forall token_ok (stat_fields q).
Proof.
  intros (?&?&?&?&?&?&?). unfold stat_fields. constructor; [by split; [|constructor]|].
  do 2 (constructor; [apply decimal_token|]). apply Forall_app. split; [done|].
  constructor; [apply decimal_token|constructor].
Qed.

Lemma fields_line_close fields rest :
  Forall token_ok fields → Forall (λ b, is_close_paren b = false) rest →
  Forall (λ b, is_close_paren b = false) (fields_line fields rest).
Proof.
  intros Hf Hr. induction Hf as [|t fields [_ Ht] _ IH]; [done|]. simpl. apply Forall_app. split.
  - eapply Forall_impl; [exact Ht|]. intros b Hb. by apply plain_spec in Hb as (_&_&?).
  - by constructor.
Qed.
Lemma fields_line_cons t fields rest : fields_line (t :: fields) rest = t ++ u8 32 :: fields_line fields rest.
Proof. done. Qed.
Lemma fields_line_app a b rest : fields_line (a ++ b) rest = fields_line a (fields_line b rest).
Proof. apply foldr_app. Qed.
(** Both parsers see the fields after the last closing parenthesis. *)
Lemma stat_line_fields p q :
  process_ok q →
  ∃ close, rposition is_close_paren (stat_line p q) = Some close ∧
    get_from (close + 2) (stat_line p q) = Some (fields_line (stat_fields q) (p_rest q)).
Proof.
  intros Hq. exists (length (decimal (Z.to_N p) ++ as_bytes " (" ++ comm q)).
  replace (stat_line p q) with ((decimal (Z.to_N p) ++ as_bytes " (" ++ comm q) ++ u8 41 :: u8 32
    :: fields_line (stat_fields q) (p_rest q)) by (unfold stat_line; by rewrite <-!app_assoc).
  split; [|apply get_from_app]. apply rposition_app; [|done]. constructor; [done|].
  apply fields_line_close; [by apply stat_fields_ok|]. by destruct Hq as (?&?&?&?&?&?&?).
Qed.

(** The allocating parser. *)
Lemma split_on_token t l :
  Forall (λ b, plain b = true) t → split_on is_space (t ++ u8 32 :: l) = t :: split_on is_space l.
Proof.
  intros Ht. apply split_on_app; [|done]. eapply Forall_impl; [exact Ht|]. intros b Hb. by apply plain_spec in Hb as (?&_).
Qed.
Lemma split_on_fields fields rest :
  Forall token_ok fields → split_on is_space (fields_line fields rest) = fields ++ split_on is_space rest.
Proof.
  induction 1 as [|t fields [_ Ht] _ IH]; [done|]. simpl. by rewrite split_on_token, IH.
Qed.
Lemma filter_tokens fields : Forall token_ok fields → filter (λ v : bytes, v ≠ []) fields = fields.
Proof.
  induction 1 as [|t fields [Hne _] _ IH]; [done|]. rewrite filter_cons, decide_True by done. by rewrite IH.
Qed.
Lemma utf8_ok_decimal n : utf8_ok (decimal n) = Some (decimal n).
Proof.
  unfold utf8_ok. rewrite ascii_utf8; [done|]. eapply Forall_impl; [apply decimal_digits|].
  intros b. unfold is_ascii_digit. rewrite andb_true_iff, !N.leb_le. lia.
Qed.
Lemma parse_proc_stat_line p p' q : process_ok q → parse_proc_stat (stat_line p q) p' = Some (identity_of p' q).
Proof.
  intros Hq. unfold parse_proc_stat. destruct (stat_line_fields p q Hq) as (close&->&Hg).
  cbn [mbind option_bind]. rewrite Hg. cbn [mbind option_bind]. pose proof (stat_fields_ok _ Hq) as Hf.
  rewrite split_on_fields, filter_app, filter_tokens by done. destruct Hq as (Hs&Hpp&Hpg&Hm&_&Hst&_).
  rewrite bool_decide_eq_false_2 by (rewrite length_app; simpl; rewrite length_app; simpl; lia).
  unfold stat_fields. cbn [app lookup list_lookup]. rewrite <-app_assoc.
  rewrite (lookup_app_r (p_middle q)), Hm by lia. simpl. cbn [utf8_ok].
  rewrite !utf8_ok_decimal. simpl. by rewrite !str_parse_i32_decimal, str_parse_u64_decimal.
Qed.

(** The parser that allocates nothing. *)
Lemma parse_pid_decimal n : (n <= 2147483647)%N → parse_pid (decimal n) = Some (Z.of_N n).
Proof.
  intros Hn. unfold parse_pid. rewrite parse_u64_decimal by (unfold is_u64, u64_max; lia). simpl.
  by rewrite (proj2 (N.leb_le _ _)).
Qed.
Lemma noalloc_space i l fields : noalloc_fields i (u8 32 :: l) fields = noalloc_fields i l fields.
Proof. by destruct fields. Qed.
Lemma noalloc_token i t l field fields :
  token_ok t →
  noalloc_fields i (t ++ u8 32 :: l) (field :: fields)
  = (i ← set_field i t field; noalloc_fields i l fields).
Proof.
  intros [Hne Ht]. cbn [noalloc_fields]. unfold noalloc_field.
  assert (Hskip : skip_spaces (t ++ u8 32 :: l) = t ++ u8 32 :: l).
  { destruct Ht as [|b t Hb Ht]; [done|]. simpl. by apply plain_spec in Hb as [-> _]. }
  rewrite Hskip, position_app; [|eapply Forall_impl; [exact Ht|]; intros b Hb; by apply plain_spec in Hb as (_&?&_)|done].
  simpl. rewrite take_app_length, drop_app_length. destruct (set_field i t field); simpl; [apply noalloc_space|done].
Qed.
Lemma noalloc_middle i ts l first fields :
  Forall token_ok ts → 3 ≤ first → first + length ts ≤ 19 →
  noalloc_fields i (fields_line ts l) (seq first (length ts) ++ fields) = noalloc_fields i l fields.
Proof.
  intros Hts. revert first. induction Hts as [|t ts Ht _ IH]; intros first H3 H19; [done|].
  cbn [length] in *. rewrite fields_line_cons. cbn [seq app]. rewrite noalloc_token by done.
  replace (set_field i t first) with (Some i); [apply IH; lia|].
  do 3 (destruct first as [|first]; [lia|]). do 16 (destruct first as [|first]; [done|]). lia.
Qed.
Lemma parse_proc_stat_noalloc_line p p' q :
  process_ok q → parse_proc_stat_noalloc (stat_line p q) p' = Some (identity_of p' q).
Proof.
  intros Hq. unfold parse_proc_stat_noalloc. destruct (stat_line_fields p q Hq) as (close&->&Hg).
  cbn [mbind option_bind]. rewrite Hg. cbn [mbind option_bind]. destruct Hq as (Hs&Hpp&Hpg&Hm&Hts&Hst&_).
  change (seq 0 20) with (0 :: 1 :: 2 :: seq 3 16 ++ [19]).
  replace (seq 3 16) with (seq 3 (length (p_middle q))) by (by rewrite Hm). unfold stat_fields. rewrite !fields_line_cons, fields_line_app.
  rewrite noalloc_token by (by split; [|constructor]). cbn [set_field head mbind option_bind].
  rewrite noalloc_token by apply decimal_token. cbn [set_field]. rewrite parse_pid_decimal by done.
  cbn [mbind option_bind]. rewrite noalloc_token by apply decimal_token. cbn [set_field].
  rewrite parse_pid_decimal by done. cbn [mbind option_bind].
  rewrite noalloc_middle by (done || lia). rewrite fields_line_cons, noalloc_token by apply decimal_token.
  cbn [set_field].
  by rewrite parse_u64_decimal.
Qed.

(** ** Properties *)

(** Both parsers of /proc/<pid>/stat, the host's and the allocation-free one of
    the watchdog, return exactly the identity the kernel wrote, for any command
    name (closing parentheses, spaces and line feeds included), so a start time
    captured by one compares correctly with one read by the other. *)
Theorem proc_stat_parsers_exact p p' q :
  process_ok q →
  parse_proc_stat (stat_line p q) p' = Some (identity_of p' q) ∧
  parse_proc_stat_noalloc (stat_line p q) p' = Some (identity_of p' q).
Proof. intros Hq. split; [by apply parse_proc_stat_line|by apply parse_proc_stat_noalloc_line]. Qed.

(** A file system that shows a process table, each line within one read. *)
Definition pid_ok (p : Z) : Prop := (0 < p <= 2147483647)%Z.
Record shows (fs : file_system) (t : gmap Z process) : Prop := {
  shows_files p : pid_ok p → fs (stat_path (decimal (Z.to_N p))) = stat_line p <$> t !! p;
  shows_ok p q : t !! p = Some q → process_ok q ∧ length (stat_line p q) ≤ 4096;
}.
Lemma read_proc_identity_shows fs t p :
  shows fs t → pid_ok p → read_proc_identity_raw fs p = identity_of p <$> t !! p.
Proof.
  intros Hfs Hp. unfold read_proc_identity_raw. rewrite decimal_pid_spec by done. cbn [mbind option_bind].
  rewrite (shows_files _ _ Hfs) by done. destruct (t !! p) as [q|] eqn:Hq; [|done]. cbn [mbind option_bind fmap option_fmap option_map].
  destruct (shows_ok _ _ Hfs p q Hq) as [Hok Hlen]. rewrite take_ge by done.
  destruct (stat_line p q) eqn:E; [|rewrite <-E; by apply parse_proc_stat_noalloc_line].
  unfold stat_line in E. by apply app_eq_nil in E as [?%decimal_nonempty _].
Qed.

Definition has_exited (q : process) : bool := is_byte 90 (p_state q) || is_byte 88 (p_state q).
(** The /proc fallback of the liveness monitor is exact and never follows a
    reused pid: opening it succeeds just for a process that exists with the
    expected start time (any, when none is expected), with ESRCH and ESTALE
    otherwise; and whatever the process table becomes, the monitor reports alive
    just while the pid belongs to a process with the start time it was opened
    with that is neither a zombie nor dead. *)
Theorem proc_monitor_exact fs1 t1 fs2 t2 poll p expected :
  shows fs1 t1 → shows fs2 t2 → pid_ok p →
  match open_proc_monitor fs1 p expected with
  | Ok i => ∃ q, t1 !! p = Some q ∧ (expected = 0%N ∨ p_start q = expected) ∧
      (monitor_alive poll fs2 (Proc i) = true ↔
       ∃ q', t2 !! p = Some q' ∧ p_start q' = p_start q ∧ has_exited q' = false)
  | Err e => match t1 !! p with
             | None => e = ESRCH
             | Some q => e = ESTALE ∧ expected ≠ 0%N ∧ p_start q ≠ expected
             end
  end.
Proof.
  intros H1 H2 Hp. unfold open_proc_monitor. rewrite (read_proc_identity_shows _ _ _ H1) by done.
  destruct (t1 !! p) as [q|] eqn:Hq; [|done]. cbn [fmap option_fmap option_map].
  destruct (negb (expected =? 0)%N && negb (starttime (identity_of p q) =? expected)%N) eqn:E; simpl in E.
  - apply andb_true_iff in E as [?%negb_true_iff%N.eqb_neq ?%negb_true_iff%N.eqb_neq]. done.
  - exists q. split_and!; [done| |].
    { apply andb_false_iff in E. rewrite !negb_false_iff, !N.eqb_eq in E. done. }
    unfold monitor_alive. cbn [id_pid identity_of]. rewrite (read_proc_identity_shows _ _ _ H2) by done.
    destruct (t2 !! p) as [q'|]; cbn [fmap option_fmap option_map]; [|naive_solver].
    unfold compare_identity. cbn [state id_pid starttime identity_of]. fold (has_exited q').
    rewrite bool_decide_eq_true_2 by done. simpl.
    destruct (has_exited q') eqn:Hx; [naive_solver congruence|].
    destruct (N.eqb_spec (p_start q') (p_start q)); naive_solver.
Qed.

(** ** Witnesses: a process named ") Z 1" *)

Definition demo_process (start : N) (st : Ascii.ascii) : process :=
  mkProcess (as_bytes ") Z 1") st 1 42 (replicate 16 (as_bytes "0")) start (as_bytes "18446744073709551615 -1" ++ [u8 10]).
Lemma demo_process_ok : process_ok (demo_process 777 (u8 83)).
Proof. unfold process_ok. split_and!; try done; repeat constructor; try done. Qed.
Lemma proc_stat_parsers_exact_witness :
  parse_proc_stat_noalloc (stat_line 42 (demo_process 777 (u8 83))) 42 = Some (mkIdentity 42 1 42 (u8 83) 777).
Proof. exact (proj2 (proc_stat_parsers_exact 42 42 (demo_process 777 (u8 83)) demo_process_ok)). Defined.

(** The pid is reused: same pid, later start. *)
Definition demo_table (start : N) : gmap Z process := {[42%Z := demo_process start (u8 83)]}.
Definition demo_fs (start : N) : file_system :=
  λ path, if bool_decide (path = stat_path (decimal 42)) then Some (stat_line 42 (demo_process start (u8 83))) else None.
Lemma stat_path_inj a b : stat_path a = stat_path b → a = b.
Proof. unfold stat_path. intros H%app_inv_head. by apply app_inv_tail in H. Qed.
Lemma demo_shows start : is_u64 start → start = 777%N ∨ start = 888%N → shows (demo_fs start) (demo_table start).
Proof.
  intros Hu Hs. split.
  - intros p Hp. unfold demo_fs, demo_table. destruct (decide (p = 42%Z)) as [->|Hne].
    + rewrite lookup_singleton_eq. by rewrite bool_decide_eq_true_2.
    + rewrite lookup_singleton_ne by done. rewrite bool_decide_eq_false_2; [done|].
      intros H%stat_path_inj%decimal_inj. unfold pid_ok in Hp. lia.
  - intros p q Hq. unfold demo_table in Hq. apply lookup_singleton_Some in Hq as [<- <-].
    destruct Hs as [->| ->]; (split; [|vm_compute; lia]);
      unfold process_ok; split_and!; try done; repeat constructor; try done.
Qed.
Lemma proc_monitor_exact_witness :
  match open_proc_monitor (demo_fs 777) 42 777 with
  | Ok i => monitor_alive (λ _, 0%Z) (demo_fs 888) (Proc i) = false
  | Err _ => False
  end.
Proof.
  pose proof (proc_monitor_exact (demo_fs 777) (demo_table 777) (demo_fs 888) (demo_table 888) (λ _, 0%Z) 42 777
    (demo_shows 777 ltac:(done) (or_introl eq_refl)) (demo_shows 888 ltac:(done) (or_intror eq_refl)) ltac:(done)) as H.
  destruct (open_proc_monitor (demo_fs 777) 42 777) as [i|e].
  - destruct H as (q&Hq&_&H). apply not_true_iff_false. rewrite H. intros (q'&Hq'&Hs&_).
    vm_compute in Hq, Hq'. by simplify_eq.
  - change (demo_table 777 !! 42%Z) with (Some (demo_process 777 (u8 83))) in H. destruct H as (_&_&H). by destruct H.
Defined.
