(* ===== verification/WatchdogFds.v ===== *)
(** What a watchdog keeps open (shared/nomi-process-runtime/src/platform/linux_watchdog.rs):
    the bound on open descriptors the host captures before it forks, the plan of
    [close_range] calls with its fallback, and [prepare_watchdog] over a table of
    open descriptors. *)
From S2P Require Import Prelude Bytes.

Definition FIRST_NON_STDIO_FD : Z := 3.
Definition EBADF : Z := 9.
Definition EINVAL : Z := 22.
Definition EOVERFLOW : Z := 75.
Definition i32_max : Z := 2147483647.

(** ** The plan *)

Record FdRange := mkRange { first : Z; upper_exclusive : Z }.
Record CloseRangeAttempt := mkAttempt {
  syscall_first : Z;
  syscall_last : Z;
  fallback : option FdRange;
}.
Definition optional_fd_range (first upper_exclusive : Z) : option FdRange :=
  if (first <? upper_exclusive)%Z then Some (mkRange first upper_exclusive) else None.

Definition planned_close_ranges (control_fd registration_fd close_upper_exclusive : Z) :
    result (list (option FdRange)) Z :=
  if (control_fd <? FIRST_NON_STDIO_FD)%Z || (registration_fd <? FIRST_NON_STDIO_FD)%Z
     || bool_decide (control_fd = registration_fd)
     || (close_upper_exclusive <=? control_fd)%Z || (close_upper_exclusive <=? registration_fd)%Z
  then Err EINVAL
  else
    let '(lower, upper) :=
      if (control_fd <? registration_fd)%Z then (control_fd, registration_fd)
      else (registration_fd, control_fd) in
    Ok [optional_fd_range FIRST_NON_STDIO_FD lower;
        optional_fd_range (lower + 1) upper;
        optional_fd_range (upper + 1) close_upper_exclusive].

(** [u32::MAX] *)
Definition u32_max : Z := 4294967295.
Definition attempt_of (range : FdRange) : CloseRangeAttempt :=
  mkAttempt (first range) (upper_exclusive range - 1) (Some range).
Definition planned_close_range_attempts (control_fd registration_fd close_upper_exclusive : Z) :
    result (list (option CloseRangeAttempt)) Z :=
  let? ranges := planned_close_ranges control_fd registration_fd close_upper_exclusive in
  let upper_kept_fd := Z.max control_fd registration_fd in
  match ranges with
  | [r0; r1; r2] =>
      Ok [attempt_of <$> r0; attempt_of <$> r1; Some (mkAttempt (upper_kept_fd + 1) u32_max r2)]
  | _ => Err EINVAL
  end.

(** ** The bound: [capture_close_upper_exclusive] *)

Definition RLIM_INFINITY : N := u64_max.
Definition select_close_upper_exclusive
    (soft_limit hard_limit observed_upper_exclusive kernel_upper_exclusive : N) : result Z Z :=
  let effective_soft_limit :=
    if (soft_limit =? RLIM_INFINITY)%N then kernel_upper_exclusive else soft_limit in
  let effective_hard_limit :=
    if (hard_limit =? RLIM_INFINITY)%N then kernel_upper_exclusive else hard_limit in
  let bound := Z.of_N (N.max (N.max (N.max effective_soft_limit effective_hard_limit)
                         observed_upper_exclusive) (Z.to_N FIRST_NON_STDIO_FD)) in
  if (bound <=? i32_max)%Z then Ok bound else Err EOVERFLOW.

(** [u8::is_ascii_whitespace]: space, tab, line feed, form feed, carriage return. *)
Definition is_ascii_whitespace (c : Ascii.ascii) : bool :=
  let b := byte c in ((b =? 32) || (b =? 9) || (b =? 10) || (b =? 12) || (b =? 13))%N.
Fixpoint trim_ascii_start (l : bytes) : bytes :=
  match l with
  | b :: l' => if is_ascii_whitespace b then trim_ascii_start l' else l
  | [] => []
  end.
Definition trim_ascii_whitespace (l : bytes) : bytes :=
  rev (trim_ascii_start (rev (trim_ascii_start l))).

Inductive bound_error := InvalidData | Errno (errno : Z).
(** The entries of /proc/self/fd: the largest descriptor plus one. *)
Fixpoint observe_fds (observed : N) (entries : list bytes) : result N bound_error :=
  match entries with
  | [] => Ok observed
  | name :: entries =>
      match parse_u64_raw name with
      | None => Err InvalidData
      | Some descriptor =>
          if (descriptor + 1 <=? u64_max)%N then observe_fds (N.max observed (descriptor + 1)) entries
          else Err (Errno EOVERFLOW)
      end
  end.
Definition capture_close_upper_exclusive (soft_limit hard_limit : N) (entries : list bytes) (nr_open : bytes) :
    result Z bound_error :=
  let? observed_upper_exclusive := observe_fds (Z.to_N FIRST_NON_STDIO_FD) entries in
  let? kernel_upper_exclusive :=
    (if (hard_limit =? RLIM_INFINITY)%N then
       match parse_u64_raw (trim_ascii_whitespace nr_open) with
       | Some n => Ok n
       | None => Err InvalidData
       end
     else Ok 0%N) in
  match select_close_upper_exclusive soft_limit hard_limit observed_upper_exclusive kernel_upper_exclusive with
  | Ok bound => Ok bound
  | Err errno => Err (Errno errno)
  end.

(** ** The descriptor table

    A table maps the open descriptors to open files.  [close_range] closes its
    range or fails; [close] releases a descriptor even when it reports an error;
    an interrupted call is repeated and leaves no trace. *)
Abbreviation table := (gmap Z nat).
Record kernel := mkKernel {
  close_range_ok : Z → Z → bool;
  close_error : Z → option Z;
  dup2_error : Z → option Z;
}.

Section kernel.
Context (k : kernel).

Definition sys_close_range (first last : Z) (t : table) : table :=
  filter (λ p, ¬ (first ≤ p.1 ≤ last)%Z) t.
Definition close_one (st : Z * table) (descriptor : Z) : Z * table :=
  let '(first_error, t) := st in
  let errno := match t !! descriptor with
               | None => Some EBADF
               | Some _ => close_error k descriptor
               end in
  (match errno with
   | Some errno => if negb (errno =? EBADF)%Z && (first_error =? 0)%Z then errno else first_error
   | None => first_error
   end, delete descriptor t).
(** The first error (0 when there is none) and the table left. *)
Definition close_fd_range_fallback (range : FdRange) (t : table) : Z * table :=
  foldl close_one (0%Z, t) (seqZ (first range) (upper_exclusive range - first range)).
Definition require_open_fd (descriptor : Z) (t : table) : result () Z :=
  if t !! descriptor is Some _ then Ok () else Err EBADF.
Definition keep_first (first_error errno : Z) : Z := if (first_error =? 0)%Z then errno else first_error.
Definition run_attempt (st : Z * table) (attempt : CloseRangeAttempt) : Z * table :=
  let '(first_error, t) := st in
  if close_range_ok k (syscall_first attempt) (syscall_last attempt)
  then (first_error, sys_close_range (syscall_first attempt) (syscall_last attempt) t)
  else match fallback attempt with
       | Some range =>
           let '(errno, t) := close_fd_range_fallback range t in
           (if (errno =? 0)%Z then first_error else keep_first first_error errno, t)
       | None => (first_error, t)
       end.
Definition check_open (t : table) (first_error descriptor : Z) : Z :=
  match require_open_fd descriptor t with
  | Err errno => keep_first first_error errno
  | Ok _ => first_error
  end.
Definition close_unknown_fds (attempts : list (option CloseRangeAttempt)) (control_fd registration_fd : Z)
    (t : table) : result () Z * table :=
  let '(first_error, t) := foldl run_attempt (0%Z, t) (omap id attempts) in
  let first_error := check_open t (check_open t first_error control_fd) registration_fd in
  (if (first_error =? 0)%Z then Ok () else Err first_error, t).

Definition duplicate_to (source target : Z) (t : table) : result table Z :=
  match t !! source with
  | None => Err EBADF
  | Some file =>
      match dup2_error k target with
      | Some errno => Err errno
      | None => Ok (<[target := file]> t)
      end
  end.
Definition prepare_watchdog (control_fd registration_fd null_fd close_upper_exclusive : Z) (t : table) :
    result table Z :=
  let? attempts := planned_close_range_attempts control_fd registration_fd close_upper_exclusive in
  if (null_fd <? 0)%Z || (close_upper_exclusive <=? null_fd)%Z
     || bool_decide (null_fd = control_fd) || bool_decide (null_fd = registration_fd)
  then Err EINVAL
  else
    let? _ := require_open_fd null_fd t in
    let? _ := require_open_fd control_fd t in
    let? _ := require_open_fd registration_fd t in
    let? t := duplicate_to null_fd 0 t in
    let? t := duplicate_to null_fd 1 t in
    let? t := duplicate_to null_fd 2 t in
    let '(r, t) := close_unknown_fds attempts control_fd registration_fd t in
    let? _ := r in Ok t.
End kernel.

(** ** What the bound covers *)

Lemma observe_fds_spec observed entries n :
  observe_fds observed entries = Ok n →
  (observed <= n)%N ∧ ∀ name d, name ∈ entries → parse_u64_raw name = Some d → (d < n)%N.
Proof.
  revert observed. induction entries as [|e entries IH]; intros observed H; simpl in H.
  { simplify_eq. split; [lia|]. intros ? ? Hin. by apply elem_of_nil in Hin. }
  destruct (parse_u64_raw e) as [d|] eqn:Hd; [|done]. case_match; [|done].
  apply IH in H as [Hle H]. split; [lia|]. intros name d' [->|Hin]%elem_of_cons Hp; [|by eapply H].
  simplify_eq. lia.
Qed.
Lemma select_close_upper_spec soft hard observed kernel u :
  select_close_upper_exclusive soft hard observed kernel = Ok u →
  (3 <= u <= i32_max)%Z ∧ (Z.of_N observed <= u)%Z ∧
  (Z.of_N (if (soft =? RLIM_INFINITY)%N then kernel else soft) <= u)%Z.
Proof.
  unfold select_close_upper_exclusive, FIRST_NON_STDIO_FD. intros H. case_match eqn:Hle; [|done].
  apply Z.leb_le in Hle. simplify_eq. repeat case_match; lia.
Qed.

(** A descriptor the capture accounts for: listed in /proc/self/fd, or opened later
    and so below the soft limit. *)
Definition soft_bound (soft_limit : N) (nr_open : bytes) : N :=
  if (soft_limit =? RLIM_INFINITY)%N then default 0%N (parse_u64_raw (trim_ascii_whitespace nr_open))
  else soft_limit.
Definition accounted (soft_limit : N) (entries : list bytes) (nr_open : bytes) (fd : Z) : Prop :=
  (0 <= fd <= i32_max)%Z ∧
  (decimal (Z.to_N fd) ∈ entries ∨ (Z.to_N fd < soft_bound soft_limit nr_open)%N).

Lemma capture_covers soft hard entries nr_open u fd :
  capture_close_upper_exclusive soft hard entries nr_open = Ok u →
  (soft <= hard)%N → is_u64 hard → accounted soft entries nr_open fd → (fd < u)%Z.
Proof.
  unfold capture_close_upper_exclusive. intros (observed&Hobs&H)%result_bind_ok Hsh Hhard [Hfd Hacc].
  apply result_bind_ok in H as (kernel&Hk&H). case_match eqn:Hsel; [|done]. simplify_eq.
  apply observe_fds_spec in Hobs as [_ Hobs]. apply select_close_upper_spec in Hsel as (_&Ho&Hs).
  destruct Hacc as [Hin|Hlt].
  - apply (Hobs _ (Z.to_N fd)) in Hin; [lia|]. apply parse_u64_decimal. unfold is_u64, u64_max, i32_max in *. lia.
  - revert Hlt Hs. unfold soft_bound. destruct (N.eqb_spec soft RLIM_INFINITY) as [->|]; [|lia].
    assert (hard = RLIM_INFINITY) as -> by (unfold is_u64, RLIM_INFINITY in *; lia).
    rewrite N.eqb_refl in Hk. case_match; simplify_eq; simpl; lia.
Qed.

(** ** What is closed *)

Section closing.
Context (k : kernel).

Lemma close_one_table st fd : (close_one k st fd).2 = delete fd st.2.
Proof. by destruct st. Qed.
Lemma close_all_table st l fd : fd ∈ l → (foldl (close_one k) st l).2 !! fd = None.
Proof.
  revert st. induction l as [|d l IH]; intros st Hin; simpl; [by apply elem_of_nil in Hin|].
  destruct (decide (fd ∈ l)) as [Hl|Hl]; [by apply IH|]. apply elem_of_cons in Hin as [->|]; [|done].
  assert (Hkeep : ∀ st l, d ∉ l → (foldl (close_one k) st l).2 !! d = st.2 !! d).
  { clear. intros st l. revert st. induction l as [|e l IH]; intros st Hl; simpl; [done|].
    rewrite not_elem_of_cons in Hl. rewrite IH by naive_solver. rewrite close_one_table, lookup_delete_ne; naive_solver. }
  rewrite Hkeep by done. by rewrite close_one_table, lookup_delete_eq.
Qed.
Lemma close_none_table st l fd : fd ∉ l → (foldl (close_one k) st l).2 !! fd = st.2 !! fd.
Proof.
  revert st. induction l as [|e l IH]; intros st Hl; simpl; [done|]. rewrite not_elem_of_cons in Hl.
  rewrite IH by naive_solver. rewrite close_one_table, lookup_delete_ne; naive_solver.
Qed.
Lemma elem_of_range range fd :
  fd ∈ seqZ (first range) (upper_exclusive range - first range) ↔ (first range ≤ fd < upper_exclusive range)%Z.
Proof. rewrite elem_of_seqZ. lia. Qed.

(** The descriptors an attempt closes. *)
Definition closes (a : CloseRangeAttempt) (fd : Z) : bool :=
  if close_range_ok k (syscall_first a) (syscall_last a)
  then (syscall_first a <=? fd)%Z && (fd <=? syscall_last a)%Z
  else match fallback a with
       | Some range => (first range <=? fd)%Z && (fd <? upper_exclusive range)%Z
       | None => false
       end.

Lemma run_attempt_table st a fd :
  (run_attempt k st a).2 !! fd = if closes a fd then None else st.2 !! fd.
Proof.
  destruct st as [e t]. unfold run_attempt, closes. destruct (close_range_ok k _ _).
  - simpl. unfold sys_close_range. destruct (_ && _) eqn:Hb; rewrite <-?not_true_iff_false, andb_true_iff, !Z.leb_le in Hb.
    + apply map_lookup_filter_None. right. intros x _. simpl. tauto.
    + destruct (t !! fd) eqn:Ht; [by apply map_lookup_filter_Some|]. apply map_lookup_filter_None. by left.
  - destruct (fallback a) as [range|]; [|done].
    unfold close_fd_range_fallback.
    destruct (foldl (close_one k) (0%Z, t) _) as [errno t'] eqn:E. simpl. apply (f_equal snd) in E. simpl in E. subst.
    destruct (_ && _) eqn:Hb; rewrite <-?not_true_iff_false, andb_true_iff, Z.leb_le, Z.ltb_lt, <-elem_of_range in Hb;
      [by apply close_all_table|by apply close_none_table].
Qed.
Lemma run_attempts_table st l fd :
  (foldl (run_attempt k) st l).2 !! fd = if existsb (λ a, closes a fd) l then None else st.2 !! fd.
Proof.
  revert st. induction l as [|a l IH]; intros st; simpl; [done|].
  rewrite IH, run_attempt_table. by destruct (closes a fd), (existsb _ l).
Qed.

(** Every plan closes all of [3, bound) but the two protocol sockets, whichever
    [close_range] calls fail. *)
Lemma planned_ranges c r u ranges :
  planned_close_ranges c r u = Ok ranges →
  ∃ lower upper, (3 ≤ lower < upper)%Z ∧ (upper < u)%Z ∧ Z.max c r = upper ∧
    (c = lower ∧ r = upper ∨ c = upper ∧ r = lower) ∧
    ranges = [optional_fd_range 3 lower; optional_fd_range (lower + 1) upper; optional_fd_range (upper + 1) u].
Proof.
  unfold planned_close_ranges, FIRST_NON_STDIO_FD. intros Hr. case_match eqn:Hb; [done|].
  rewrite !orb_false_iff in Hb. destruct Hb as ((((Hc&Hrg)&Hne)&Hcu)&Hru).
  apply Z.ltb_ge in Hc, Hrg. apply Z.leb_gt in Hcu, Hru. apply bool_decide_eq_false in Hne.
  destruct (Z.ltb_spec c r); simplify_eq; [exists c, r|exists r, c]; (split_and!; [lia..|naive_solver|done]).
Qed.
Lemma closes_optional a b fd :
  existsb (λ a, closes a fd) (omap id [attempt_of <$> optional_fd_range a b]) = (a <=? fd)%Z && (fd <? b)%Z.
Proof.
  unfold optional_fd_range. destruct (Z.ltb_spec a b); simpl.
  - unfold closes, attempt_of. simpl. rewrite orb_false_r. case_match; [|done]. f_equal. lia.
  - lia.
Qed.
Lemma planned_closes c r u l fd :
  planned_close_range_attempts c r u = Ok l → (u ≤ i32_max)%Z → (fd < u)%Z →
  existsb (λ a, closes a fd) (omap id l) = true ↔ (3 ≤ fd)%Z ∧ fd ≠ c ∧ fd ≠ r.
Proof.
  unfold planned_close_range_attempts. intros (ranges&Hr&Hl)%result_bind_ok Hu Hfd.
  apply planned_ranges in Hr as (lower&upper&Hlu&Huu&Hmax&Hset&->). injection Hl as <-. rewrite Hmax.
  pose proof (closes_optional 3 lower fd) as H1. pose proof (closes_optional (lower + 1) upper fd) as H2.
  assert (H3 : closes (mkAttempt (upper + 1) u32_max (optional_fd_range (upper + 1) u)) fd = (upper <? fd)%Z).
  { unfold closes, optional_fd_range, u32_max, i32_max in *. simpl.
    destruct (Z.ltb_spec (upper + 1) u); repeat case_match; simpl; lia. }
  transitivity (((3 <=? fd) && (fd <? lower) || ((lower + 1 <=? fd) && (fd <? upper)) || (upper <? fd))%Z = true);
    [|lia].
  rewrite <-H1, <-H2, <-H3. simpl. clear.
  destruct (optional_fd_range 3 lower), (optional_fd_range (lower + 1) upper); simpl;
    rewrite ?orb_false_r, ?orb_true_iff; tauto.
Qed.
End closing.

(** ** When closing fails *)

Definition faultless (k : kernel) : Prop := (∀ fd, close_error k fd = None) ∧ (∀ fd, dup2_error k fd = None).

Lemma close_all_faultless k st l : faultless k → (foldl (close_one k) st l).1 = st.1.
Proof.
  intros [Hc _]. revert st. induction l as [|fd l IH]; intros [e t]; [done|]. simpl. rewrite IH. simpl.
  rewrite Hc. by destruct (t !! fd).
Qed.
Lemma run_attempts_faultless k st l : faultless k → (foldl (run_attempt k) st l).1 = st.1.
Proof.
  intros Hk. revert st. induction l as [|a l IH]; intros [e t]; [done|]. simpl. rewrite IH. simpl.
  case_match; [done|]. destruct (fallback a) as [range|]; [|done]. unfold close_fd_range_fallback.
  destruct (foldl _ _ _) as [errno t'] eqn:E. apply (f_equal fst) in E. rewrite close_all_faultless in E by done.
  simpl in E. by subst.
Qed.
(** What is left open, and that the two sockets are. *)
Lemma close_unknown_fds_table k l c r t :
  (close_unknown_fds k l c r t).2 = (foldl (run_attempt k) (0%Z, t) (omap id l)).2.
Proof. unfold close_unknown_fds. by destruct (foldl _ _ _). Qed.
Lemma keep_first_zero e errno : errno ≠ 0%Z → keep_first e errno ≠ 0%Z.
Proof. unfold keep_first. destruct (Z.eqb_spec e 0); lia. Qed.
Lemma check_open_zero t e fd : check_open t e fd = 0%Z ↔ e = 0%Z ∧ is_Some (t !! fd).
Proof.
  unfold check_open, require_open_fd. destruct (t !! fd); simpl; [naive_solver|]. split.
  - intros H. by apply keep_first_zero in H.
  - by intros [_ []].
Qed.
Lemma close_unknown_fds_ok k l c r t :
  (close_unknown_fds k l c r t).1 = Ok () ↔
  (foldl (run_attempt k) (0%Z, t) (omap id l)).1 = 0%Z ∧
  is_Some ((close_unknown_fds k l c r t).2 !! c) ∧ is_Some ((close_unknown_fds k l c r t).2 !! r).
Proof.
  rewrite close_unknown_fds_table. unfold close_unknown_fds. destruct (foldl _ _ _) as [e t']. simpl.
  transitivity (check_open t' (check_open t' e c) r = 0%Z).
  - destruct (Z.eqb_spec (check_open t' (check_open t' e c) r) 0); naive_solver.
  - rewrite !check_open_zero. naive_solver.
Qed.

(** The state [prepare_watchdog] asks for. *)
Record startable (c r null u : Z) (t : table) : Prop := {
  st_control : (3 ≤ c < u)%Z;
  st_registration : (3 ≤ r < u)%Z;
  st_distinct : c ≠ r ∧ null ≠ c ∧ null ≠ r;
  st_null : (0 ≤ null < u)%Z;
  st_open : is_Some (t !! null) ∧ is_Some (t !! c) ∧ is_Some (t !! r);
}.
Lemma planned_attempts_ok c r u :
  is_ok (planned_close_range_attempts c r u) = true ↔ ((3 ≤ c < u) ∧ (3 ≤ r < u) ∧ c ≠ r)%Z.
Proof.
  unfold planned_close_range_attempts, planned_close_ranges, FIRST_NON_STDIO_FD.
  destruct (_ || _) eqn:Hb; simpl.
  - split; [done|]. rewrite !orb_true_iff, bool_decide_eq_true, !Z.ltb_lt, !Z.leb_le in Hb. lia.
  - rewrite !orb_false_iff, bool_decide_eq_false, !Z.ltb_ge, !Z.leb_gt in Hb.
    destruct (c <? r)%Z; simpl; split; intros; (done || lia).
Qed.

(** Standard input, output and error on the null device, and the two sockets. *)
Definition watchdog_table (c r : Z) (fn fc fr : nat) : table :=
  <[c := fc]> (<[r := fr]> (<[2%Z := fn]> (<[1%Z := fn]> {[0%Z := fn]}))).
Lemma closed_table k c r u l (t : table) fn fc fr :
  planned_close_range_attempts c r u = Ok l → (u ≤ i32_max)%Z → (∀ fd, is_Some (t !! fd) → (0 ≤ fd < u)%Z) →
  t !! 0%Z = Some fn → t !! 1%Z = Some fn → t !! 2%Z = Some fn → t !! c = Some fc → t !! r = Some fr →
  (close_unknown_fds k l c r t).2 = watchdog_table c r fn fc fr.
Proof.
  intros Hl Hu Hopen H0 H1 H2 Hc Hr. apply map_eq. intros fd.
  assert (Hargs : ((3 ≤ c < u) ∧ (3 ≤ r < u) ∧ c ≠ r)%Z) by (apply planned_attempts_ok; by rewrite Hl).
  rewrite close_unknown_fds_table, run_attempts_table. unfold watchdog_table. simpl.
  destruct (decide (is_Some (t !! fd))) as [Hsome|Hnone].
  - pose proof (Hopen _ Hsome) as Hfd. pose proof (planned_closes k _ _ _ _ fd Hl Hu (proj2 Hfd)) as Hcl.
    destruct (existsb _ _).
    + destruct Hcl as [Hcl _]. destruct (Hcl eq_refl) as (?&?&?). rewrite !lookup_insert_ne by lia.
      by rewrite lookup_singleton_ne by lia.
    + assert (fd = c ∨ fd = r ∨ fd = 0 ∨ fd = 1 ∨ fd = 2)%Z as Hcase.
      { destruct Hcl as [_ Hcl]. assert (¬ (3 ≤ fd ∧ fd ≠ c ∧ fd ≠ r)%Z) by (intros ?%Hcl; done). lia. }
      destruct Hcase as [->|[->|Hlow]]; [by rewrite lookup_insert_eq|by rewrite lookup_insert_ne, lookup_insert_eq by lia|].
      rewrite (lookup_insert_ne _ c), (lookup_insert_ne _ r) by lia.
      destruct Hlow as [->|[->| ->]]; simplify_map_eq; done.
  - apply eq_None_not_Some in Hnone. rewrite Hnone.
    destruct (decide (fd = c)) as [->|]; [congruence|]. destruct (decide (fd = r)) as [->|]; [congruence|].
    rewrite !lookup_insert_ne, lookup_singleton_ne by congruence. by case_match.
Qed.

Lemma duplicate_to_spec k null target t fn :
  t !! null = Some fn →
  (∀ t', duplicate_to k null target t = Ok t' → t' = <[target := fn]> t) ∧
  (faultless k → duplicate_to k null target t = Ok (<[target := fn]> t)) ∧
  (<[target := fn]> t : table) !! null = Some fn.
Proof.
  intros Hn. unfold duplicate_to. rewrite Hn. split_and!.
  - intros t' H. case_match; by simplify_eq.
  - intros [_ Hk]. by rewrite Hk.
  - destruct (decide (null = target)) as [->|]; [apply lookup_insert_eq|by rewrite lookup_insert_ne].
Qed.
Lemma require_open_fd_ok fd t : require_open_fd fd t = Ok () ↔ is_Some (t !! fd).
Proof. unfold require_open_fd. destruct (t !! fd); naive_solver. Qed.

(** The part of [prepare_watchdog] before anything is closed, and the rest. *)
Definition stdio_table (fn : nat) (t : table) : table := <[2%Z := fn]> (<[1%Z := fn]> (<[0%Z := fn]> t)).
Lemma stdio_table_above fn t fd : (3 ≤ fd)%Z → stdio_table fn t !! fd = t !! fd.
Proof. intros. unfold stdio_table. by rewrite !lookup_insert_ne by lia. Qed.
Lemma stdio_table_below fn t fd : (0 ≤ fd < 3)%Z → stdio_table fn t !! fd = Some fn.
Proof. intros. unfold stdio_table. assert (fd = 0 ∨ fd = 1 ∨ fd = 2)%Z as [->|[->| ->]] by lia; by simplify_map_eq. Qed.
Lemma stdio_table_open c r null u fn t fd :
  (∀ fd, is_Some (t !! fd) → (0 ≤ fd < u)%Z) → startable c r null u t →
  is_Some (stdio_table fn t !! fd) → (0 ≤ fd < u)%Z.
Proof.
  intros Hopen Hs. pose proof (st_control _ _ _ _ _ Hs). unfold stdio_table.
  rewrite !lookup_insert_is_Some. intros [<-|[_ [<-|[_ [<-|[_ ?]]]]]]; [lia..|by apply Hopen].
Qed.
Lemma prepare_watchdog_ok k c r null u t t' :
  prepare_watchdog k c r null u t = Ok t' →
  startable c r null u t ∧ ∃ l fn, planned_close_range_attempts c r u = Ok l ∧ t !! null = Some fn ∧
    t' = (close_unknown_fds k l c r (stdio_table fn t)).2.
Proof.
  unfold prepare_watchdog. intros (l&Hl&H)%result_bind_ok.
  assert (Hargs : ((3 ≤ c < u) ∧ (3 ≤ r < u) ∧ c ≠ r)%Z) by (apply planned_attempts_ok; by rewrite Hl).
  destruct (_ || _) eqn:Hb; [done|].
  rewrite !orb_false_iff, !bool_decide_eq_false, Z.ltb_ge, Z.leb_gt in Hb.
  apply result_bind_ok in H as ([]&[fn Hn]%require_open_fd_ok&H).
  apply result_bind_ok in H as ([]&Hc%require_open_fd_ok&H).
  apply result_bind_ok in H as ([]&Hr%require_open_fd_ok&H).
  split; [by split; [tauto|tauto|tauto|lia|eauto]|]. exists l, fn. split_and!; [done..|].
  destruct (duplicate_to_spec k null 0 t fn Hn) as (H0&_&Hn0).
  destruct (duplicate_to_spec k null 1 _ fn Hn0) as (H1&_&Hn1).
  destruct (duplicate_to_spec k null 2 _ fn Hn1) as (H2&_&_).
  apply result_bind_ok in H as (t0&->%H0&H). apply result_bind_ok in H as (t1&->%H1&H).
  apply result_bind_ok in H as (t2&->%H2&H). fold (stdio_table fn t) in H.
  destruct (close_unknown_fds _ _ _ _ _) as [res t3]. by apply result_bind_ok in H as (_&_&[= ->]).
Qed.
Lemma prepare_watchdog_succeeds k c r null u t :
  faultless k → startable c r null u t → (u ≤ i32_max)%Z → (∀ fd, is_Some (t !! fd) → (0 ≤ fd < u)%Z) →
  is_ok (prepare_watchdog k c r null u t) = true.
Proof.
  intros Hk Hs Hu Hopen. assert (Hstdio : ∀ fn fd, is_Some (stdio_table fn t !! fd) → (0 ≤ fd < u)%Z)
    by (intros fn fd; by apply (stdio_table_open c r null u fn t fd)). destruct Hs as [Hc Hr Hne Hnull (HO&HC&HR)].
  unfold prepare_watchdog. assert (Hargs : is_ok (planned_close_range_attempts c r u) = true)
    by (apply planned_attempts_ok; destruct Hne; tauto).
  destruct (planned_close_range_attempts c r u) as [l|] eqn:Hl; [|done]. simpl.
  replace (_ || _) with false; [|symmetry; rewrite !orb_false_iff, !bool_decide_eq_false, Z.ltb_ge, Z.leb_gt; naive_solver lia].
  rewrite (proj2 (require_open_fd_ok _ _) HO), (proj2 (require_open_fd_ok _ _) HC), (proj2 (require_open_fd_ok _ _) HR).
  destruct HO as [fn Hn]. destruct HC as [fc HC]. destruct HR as [fr HR].
  destruct (duplicate_to_spec k null 0 t fn Hn) as (_&H0&Hn0).
  destruct (duplicate_to_spec k null 1 _ fn Hn0) as (_&H1&Hn1).
  destruct (duplicate_to_spec k null 2 _ fn Hn1) as (_&H2&_).
  simpl. rewrite H0 by done. simpl. rewrite H1 by done. simpl. rewrite H2 by done. simpl. fold (stdio_table fn t).
  assert (Hok : (close_unknown_fds k l c r (stdio_table fn t)).1 = Ok ()).
  { apply close_unknown_fds_ok. split; [by apply run_attempts_faultless|].
    rewrite (closed_table k c r u l _ fn fc fr Hl Hu (Hstdio fn));
      rewrite ?stdio_table_above, ?stdio_table_below by lia; try done.
    unfold watchdog_table. rewrite lookup_insert_eq, lookup_insert_ne, lookup_insert_eq by naive_solver. eauto. }
  destruct (close_unknown_fds _ _ _ _ _) as [res t3]. simpl in Hok. by rewrite Hok.
Qed.

(** ** Property *)

(** C9. A watchdog inherits nothing: with a bound captured when every open
    descriptor is listed in /proc/self/fd or lies below the soft limit, a prepared
    watchdog has exactly five open descriptors, the null device on 0, 1 and 2 and
    the two protocol sockets on their own numbers, whichever [close_range] calls
    the kernel refuses; and preparation fails only when an argument is out of
    range, a needed descriptor is closed, or [close] or [dup2] reports an error. *)
Theorem watchdog_descriptors_exact k soft hard entries nr_open u c r null t :
  capture_close_upper_exclusive soft hard entries nr_open = Ok u →
  (soft <= hard)%N → is_u64 hard →
  (∀ fd, is_Some (t !! fd) → accounted soft entries nr_open fd) →
  match prepare_watchdog k c r null u t with
  | Ok t' => ∃ fn fc fr, t !! null = Some fn ∧ t !! c = Some fc ∧ t !! r = Some fr ∧
      t' = watchdog_table c r fn fc fr
  | Err _ => ¬ (startable c r null u t ∧ faultless k)
  end.
Proof.
  intros Hcap Hsh Hhard Hacc.
  assert (Hopen : ∀ fd, is_Some (t !! fd) → (0 ≤ fd < u)%Z).
  { intros fd Hfd%Hacc. split; [apply Hfd|by eapply capture_covers]. }
  assert (Hu : (u ≤ i32_max)%Z).
  { unfold capture_close_upper_exclusive in Hcap. apply result_bind_ok in Hcap as (o&_&Hcap).
    apply result_bind_ok in Hcap as (n&_&Hcap). case_match eqn:Hsel; [|done]. simplify_eq.
    by apply select_close_upper_spec in Hsel as [[_ ?] _]. }
  destruct (prepare_watchdog k c r null u t) as [t'|e] eqn:Hp.
  - apply prepare_watchdog_ok in Hp as (Hs&l&fn&Hl&Hn&->). pose proof (st_open _ _ _ _ _ Hs) as (_&[fc Hc]&[fr Hr]).
    exists fn, fc, fr. split_and!; [done..|]. pose proof (st_control _ _ _ _ _ Hs). pose proof (st_registration _ _ _ _ _ Hs).
    apply (closed_table k c r u); rewrite ?stdio_table_above, ?stdio_table_below by lia; try done.
    intros fd. by apply (stdio_table_open c r null u fn t fd).
  - intros [Hs Hk]. pose proof (prepare_watchdog_succeeds k c r null u t Hk Hs Hu Hopen) as H. by rewrite Hp in H.
Qed.

(** ** Witness: descriptors 0 to 9, the second [close_range] call refused *)

Definition demo_table : table := list_to_map ((λ n, (Z.of_nat n, n)) <$> seq 0 10).
Definition demo_kernel : kernel := mkKernel (λ first _, bool_decide (first ≠ 6)%Z) (λ _, None) (λ _, None).
Definition demo_entries : list bytes := (λ n, decimal (N.of_nat n)) <$> seq 0 10.
Lemma watchdog_descriptors_exact_witness :
  match prepare_watchdog demo_kernel 8 5 3 1024 demo_table with
  | Ok t' => t' = watchdog_table 8 5 3 8 5
  | Err _ => False
  end.
Proof.
  assert (Hopen : ∀ fd, is_Some (demo_table !! fd) → (0 ≤ fd < 10)%Z).
  { intros fd [x Hx]. apply elem_of_list_to_map_2, list_elem_of_fmap in Hx as (n&[= -> ->]&Hn%elem_of_seq). lia. }
  pose proof (watchdog_descriptors_exact demo_kernel 1024 4096 demo_entries [] 4096 8 5 3 demo_table
    ltac:(vm_compute; reflexivity) ltac:(done) ltac:(done)) as H.
  assert (Hacc : ∀ fd, is_Some (demo_table !! fd) → accounted 1024 demo_entries [] fd).
  { intros fd Hfd%Hopen. unfold accounted, i32_max. split; [lia|]. right. unfold soft_bound. simpl. lia. }
  specialize (H Hacc). destruct (prepare_watchdog _ _ _ _ _ _) as [t'|e].
  - destruct H as (fn&fc&fr&Hn&Hc&Hr&->). vm_compute in Hn, Hc, Hr. by simplify_eq.
  - apply H. split; [|done]. by split; try lia.
Defined.
