(* ===== verification/SkillIds.v ===== *)
(** Source-qualified skill identifiers
    (backend/nomifun-api-types/src/skill.rs): percent encoding of components,
    construction, the canonical parser and the accessors.  A Rust [str] is its
    UTF-8 byte string. *)
From S2P Require Import Prelude Utf8 Bytes.

(** ** Sources *)

Inductive SkillCatalogSource := Builtin | User | Project | Extension | Mcp | Legacy | Capability.
#[export] Instance SkillCatalogSource_eq_dec : EqDecision SkillCatalogSource.
Proof. solve_decision. Defined.
Definition source_str (s : SkillCatalogSource) : bytes :=
  as_bytes match s with
           | Builtin => "builtin" | User => "user" | Project => "project" | Extension => "extension"
           | Mcp => "mcp" | Legacy => "legacy" | Capability => "capability"
           end.
Definition str_of (l : bytes) : string := String.string_of_list_ascii l.
Definition parse_skill_catalog_source (value : bytes) : result SkillCatalogSource string :=
  if bool_decide (value = as_bytes "builtin") then Ok Builtin
  else if bool_decide (value = as_bytes "user") then Ok User
  else if bool_decide (value = as_bytes "project") then Ok Project
  else if bool_decide (value = as_bytes "extension") then Ok Extension
  else if bool_decide (value = as_bytes "mcp") then Ok Mcp
  else if bool_decide (value = as_bytes "legacy") then Ok Legacy
  else if bool_decide (value = as_bytes "capability") then Ok Capability
  else Err ("unknown skill catalog source '" +:+ str_of value +:+ "'").

(** ** Percent encoding *)

Definition is_colon : Ascii.ascii → bool := is_byte 58.
Definition is_percent : Ascii.ascii → bool := is_byte 37.
Definition component_char (b : Ascii.ascii) : bool :=
  is_ascii_alphanumeric b || is_byte 45 b || is_byte 95 b || is_byte 46 b.
(** One upper-case hexadecimal digit of [{:02X}]. *)
Definition hex_digit (n : N) : Ascii.ascii := u8 (if (n <? 10)%N then 48 + n else 55 + n).
Definition encode_byte (b : Ascii.ascii) : bytes :=
  if component_char b then [b] else [u8 37; hex_digit (byte b / 16); hex_digit (byte b mod 16)].
Definition encode_skill_id_component (value : bytes) : bytes := flat_map encode_byte value.

(** [u8::from_str_radix(_, 16)] on two bytes: digits of either case, or a plus sign
    and one digit. *)
Definition hex_value (b : Ascii.ascii) : option N :=
  if is_ascii_digit b then Some (byte b - 48)%N
  else if byte_in 65 70 b then Some (byte b - 55)%N
  else if byte_in 97 102 b then Some (byte b - 87)%N
  else None.
Definition from_str_radix_16 (a b : Ascii.ascii) : option N :=
  if is_byte 43 a then hex_value b else h ← hex_value a; l ← hex_value b; Some (h * 16 + l)%N.
Definition invalid_escape : string := "invalid percent escape in skill_id".
Fixpoint decode_loop (decoded l : bytes) : result bytes string :=
  match l with
  | [] => Ok decoded
  | b :: l =>
      if is_percent b then
        match l with
        | a :: c :: l =>
            match from_utf8 [a; c] with
            | Some _ => Err invalid_escape
            | None =>
                match from_str_radix_16 a c with
                | None => Err invalid_escape
                | Some n => decode_loop (decoded ++ [u8 n]) l
                end
            end
        | _ => Err "truncated percent escape in skill_id"
        end
      else if component_char b then decode_loop (decoded ++ [b]) l
      else Err "skill_id contains an unescaped component character"
  end.
Definition decode_skill_id_component (value : bytes) : result bytes string :=
  let? decoded := decode_loop [] value in
  match from_utf8 decoded with
  | None => Ok decoded
  | Some _ => Err "skill_id component is not valid UTF-8"
  end.

(** ** Identifiers *)

Definition SkillId := bytes.
Definition skill_id_new (source : SkillCatalogSource) (source_key : option bytes) (local_key : bytes) : SkillId :=
  let value := source_str source in
  let value :=
    match source_key with
    | Some ((_ :: _) as key) => value ++ [u8 58] ++ encode_skill_id_component key
    | _ => value
    end in
  value ++ [u8 58] ++ encode_skill_id_component local_key.
(** [None] is a panic of [expect]. *)
Definition skill_source (id : SkillId) : option SkillCatalogSource :=
  segment ← head (split_on is_colon id);
  match parse_skill_catalog_source segment with Ok s => Some s | Err _ => None end.
Definition ok_option {A E} (r : result A E) : option A := match r with Ok a => Some a | Err _ => None end.
Definition skill_local_key (id : SkillId) : option bytes :=
  value ← last (split_on is_colon id); ok_option (decode_skill_id_component value).
Definition skill_id_parse (value : bytes) : result SkillId string :=
  let? parts :=
    match split_on is_colon value with
    | [source; local_key] => let? s := parse_skill_catalog_source source in Ok (s, None, local_key)
    | [source; source_key; local_key] =>
        let? s := parse_skill_catalog_source source in Ok (s, Some source_key, local_key)
    | _ => Err "skill_id must be '<source>:<local_key>' or '<source>:<source_key>:<local_key>'"
    end in
  let '(source, source_key, local_key) := parts in
  let? source_key :=
    match source_key with
    | None => Ok None
    | Some key => let? key := decode_skill_id_component key in Ok (Some key)
    end in
  let? local_key := decode_skill_id_component local_key in
  let parsed := skill_id_new source source_key local_key in
  if bool_decide (parsed = value) then Ok parsed
  else Err "skill_id must use canonical percent encoding".
Definition skill_id_legacy (name : bytes) : SkillId := skill_id_new Legacy None name.
Definition legacy_name (id : SkillId) : option bytes :=
  match split_on is_colon id with
  | [source; local_key] =>
      if bool_decide (source = source_str Legacy) then ok_option (decode_skill_id_component local_key) else None
  | _ => None
  end.

Example skill_id_ex :
  skill_id_parse (skill_id_new Mcp (Some (as_bytes "a:b")) (as_bytes "x y")) = Ok (as_bytes "mcp:a%3Ab:x%20y").
Proof. vm_compute. reflexivity. Qed.

(** ** Encoding *)

Lemma hex_digit_value n : (n < 16)%N → hex_value (hex_digit n) = Some n ∧ is_byte 43 (hex_digit n) = false
  ∧ (byte (hex_digit n) < 128)%N ∧ is_colon (hex_digit n) = false.
Proof.
  intros Hn.
  assert (n = 0 ∨ n = 1 ∨ n = 2 ∨ n = 3 ∨ n = 4 ∨ n = 5 ∨ n = 6 ∨ n = 7 ∨ n = 8 ∨ n = 9 ∨ n = 10 ∨ n = 11
    ∨ n = 12 ∨ n = 13 ∨ n = 14 ∨ n = 15)%N as Hc by lia.
  repeat destruct Hc as [->|Hc]; try subst; done.
Qed.
Lemma component_char_plain b : component_char b = true → is_percent b = false ∧ is_colon b = false.
Proof.
  unfold component_char, is_ascii_alphanumeric, is_ascii_alphabetic, is_ascii_digit, is_percent, is_colon, is_byte.
  rewrite !orb_true_iff, !andb_true_iff, !N.leb_le, !N.eqb_eq, !N.eqb_neq. lia.
Qed.
Lemma byte_halves b : (byte b / 16 < 16 ∧ byte b mod 16 < 16 ∧ byte b / 16 * 16 + byte b mod 16 = byte b)%N.
Proof.
  pose proof (byte_lt b). pose proof (N.div_mod (byte b) 16 ltac:(done)) as Hd.
  split_and!; [by apply N.Div0.div_lt_upper_bound|by apply N.mod_lt|]. rewrite Hd at 3. by rewrite (N.mul_comm 16).
Qed.
Lemma decode_encode_loop decoded l : decode_loop decoded (encode_skill_id_component l) = Ok (decoded ++ l).
Proof.
  revert decoded. induction l as [|b l IH]; intros decoded; simpl; [by rewrite app_nil_r|].
  replace (decoded ++ b :: l) with ((decoded ++ [b]) ++ l) by by rewrite <-app_assoc.
  unfold encode_byte. destruct (component_char b) eqn:Hc.
  - cbn [app decode_loop]. apply component_char_plain in Hc as Hp. destruct Hp as [-> _]. rewrite Hc. apply IH.
  - destruct (byte_halves b) as (Hh&Hl&Hb). cbn [app decode_loop].
    change (is_percent (u8 37)) with true. cbn match.
    destruct (hex_digit_value _ Hh) as (Hvh&Hsh&Hah&_), (hex_digit_value _ Hl) as (Hvl&_&Hal&_).
    rewrite ascii_utf8 by (by repeat constructor).
    unfold from_str_radix_16. rewrite Hsh, Hvh, Hvl. cbn [mbind option_bind]. rewrite Hb, u8_byte. apply IH.
Qed.
Lemma component_decode_encode l : from_utf8 l = None → decode_skill_id_component (encode_skill_id_component l) = Ok l.
Proof. intros Hl. unfold decode_skill_id_component. rewrite decode_encode_loop. simpl. by rewrite Hl. Qed.
Lemma decode_utf8 v l : decode_skill_id_component v = Ok l → from_utf8 l = None.
Proof. unfold decode_skill_id_component. intros (d&_&H)%result_bind_ok. case_match; by simplify_eq. Qed.
Lemma encode_no_colon l : Forall (λ b, is_colon b = false) (encode_skill_id_component l).
Proof.
  induction l as [|b l IH]; simpl; [constructor|]. apply Forall_app. split; [|done]. unfold encode_byte.
  destruct (component_char b) eqn:Hc.
  - constructor; [by apply component_char_plain|constructor].
  - destruct (byte_halves b) as (Hh&Hl&_). repeat constructor; by apply hex_digit_value.
Qed.
Lemma source_no_colon s : Forall (λ b, is_colon b = false) (source_str s).
Proof. destruct s; by repeat constructor. Qed.
Lemma parse_source_str s : parse_skill_catalog_source (source_str s) = Ok s.
Proof. by destruct s. Qed.
Lemma parse_source_ok v s : parse_skill_catalog_source v = Ok s → v = source_str s.
Proof. unfold parse_skill_catalog_source. intros H. repeat case_bool_decide; by simplify_eq. Qed.

(** ** Identifiers *)

Definition some_key (source_key : option bytes) : option bytes :=
  match source_key with Some (_ :: _) => source_key | _ => None end.
Lemma split_skill_id s key lk :
  split_on is_colon (skill_id_new s key lk)
  = source_str s :: match some_key key with Some k => [encode_skill_id_component k] | None => [] end
      ++ [encode_skill_id_component lk].
Proof.
  assert (Hlast : split_on is_colon (encode_skill_id_component lk) = [encode_skill_id_component lk])
    by apply split_on_none, encode_no_colon.
  unfold skill_id_new. destruct key as [[|a k]|]; cbn [some_key]; rewrite <-?app_assoc; cbn [app];
    rewrite split_on_app by (apply source_no_colon || done); [by rewrite Hlast| |by rewrite Hlast].
  rewrite split_on_app by (apply encode_no_colon || done). by rewrite Hlast.
Qed.
Lemma skill_id_new_key s key lk : skill_id_new s (some_key key) lk = skill_id_new s key lk.
Proof. by destruct key as [[|]|]. Qed.
Lemma skill_id_parse_new s key lk :
  (∀ k, key = Some k → from_utf8 k = None) → from_utf8 lk = None →
  skill_id_parse (skill_id_new s key lk) = Ok (skill_id_new s key lk).
Proof.
  intros Hk Hl. rewrite <-(skill_id_new_key s key). unfold skill_id_parse. rewrite split_skill_id.
  destruct (some_key (some_key key)) as [k|] eqn:Es; cbn [app]; rewrite parse_source_str; cbn [result_bind].
  - rewrite component_decode_encode by (apply Hk; by destruct key as [[|]|]). cbn [result_bind].
    rewrite component_decode_encode by done. cbn [result_bind].
    assert (some_key key = Some k) as -> by (by destruct key as [[|]|]). by rewrite bool_decide_eq_true_2.
  - rewrite component_decode_encode by done. cbn [result_bind].
    assert (some_key key = None) as -> by (by destruct key as [[|]|]). by rewrite bool_decide_eq_true_2.
Qed.
Lemma skill_id_parse_inv v id :
  skill_id_parse v = Ok id →
  ∃ s key lk, id = v ∧ v = skill_id_new s key lk ∧ (∀ k, key = Some k → from_utf8 k = None) ∧ from_utf8 lk = None.
Proof.
  unfold skill_id_parse. intros ([[s key] lk]&_&H)%result_bind_ok.
  apply result_bind_ok in H as (key'&Hkey&H). apply result_bind_ok in H as (lk'&Hlk&H).
  case_bool_decide; simplify_eq. exists s, key', lk'. split_and!; [done..| |by eapply decode_utf8].
  intros k ->. destruct key as [key|]; [|done]. apply result_bind_ok in Hkey as (k'&Hk&[= ->]).
  by eapply decode_utf8.
Qed.

(** ** Property *)

(** Skill identifiers are unambiguous and canonical.  For valid UTF-8
    components, an identifier gives back its source and its local key, tells
    identities apart (an empty source key counts as none), and yields a legacy name
    just when it is a legacy binding without a source key; and the parser accepts a
    string exactly when it is the identifier of some components, unchanged. *)
Theorem skill_id_canonical s key lk :
  (∀ k, key = Some k → from_utf8 k = None) → from_utf8 lk = None →
  let id := skill_id_new s key lk in
  skill_source id = Some s ∧ skill_local_key id = Some lk ∧
  legacy_name id = (if bool_decide (s = Legacy ∧ some_key key = None) then Some lk else None) ∧
  (∀ s' key' lk', (∀ k, key' = Some k → from_utf8 k = None) → from_utf8 lk' = None →
     skill_id_new s' key' lk' = id → s' = s ∧ some_key key' = some_key key ∧ lk' = lk) ∧
  (∀ v, skill_id_parse v = Ok id ↔ v = id) ∧
  (∀ v r, skill_id_parse v = Ok r → ∃ s' key' lk', r = v ∧ v = skill_id_new s' key' lk' ∧
     (∀ k, key' = Some k → from_utf8 k = None) ∧ from_utf8 lk' = None).
Proof.
  intros Hk Hl id. pose proof (split_skill_id s key lk : split_on is_colon id = _) as Hsplit.
  assert (Hsome : ∀ k, some_key key = Some k → from_utf8 k = None) by (intros k Hs; apply Hk; by destruct key as [[|]|]).
  split_and!.
  - unfold skill_source. rewrite Hsplit. simpl. by rewrite parse_source_str.
  - unfold skill_local_key. rewrite Hsplit, app_comm_cons, last_snoc. simpl. by rewrite component_decode_encode.
  - unfold legacy_name. rewrite Hsplit. destruct (some_key key); cbn [app].
    + rewrite bool_decide_eq_false_2; [done|]. by intros [_ ?].
    + rewrite component_decode_encode by done. repeat case_bool_decide; destruct s; naive_solver.
  - intros s' key' lk' Hk' Hl' Heq. pose proof (split_skill_id s' key' lk') as H'. rewrite Heq, Hsplit in H'.
    injection H' as Hs Hrest.
    assert (s' = s) as ->.
    { pose proof (parse_source_str s) as E. rewrite Hs, parse_source_str in E. by simplify_eq. }
    assert (Hsome' : ∀ k, some_key key' = Some k → from_utf8 k = None) by (intros k Hs'; apply Hk'; by destruct key' as [[|]|]).
    assert (Hinj : ∀ a b, from_utf8 a = None → from_utf8 b = None →
      encode_skill_id_component a = encode_skill_id_component b → a = b).
    { intros a b Ha Hb E. apply (f_equal decode_skill_id_component) in E. rewrite !component_decode_encode in E by done. by simplify_eq. }
    split; [done|]. destruct (some_key key) as [k|], (some_key key') as [k'|]; simplify_list_eq.
    + match goal with E1 : encode_skill_id_component k = _, E2 : encode_skill_id_component lk = _ |- _ =>
        apply Hinj in E1; [|auto..]; apply Hinj in E2; [|auto..]; by subst end.
    + match goal with E2 : encode_skill_id_component lk = _ |- _ => apply Hinj in E2; [|auto..]; by subst end.
  - intros v. split; [by intros (?&?&?&->&_)%skill_id_parse_inv|]. intros ->. by apply skill_id_parse_new.
  - apply skill_id_parse_inv.
Qed.
Lemma skill_id_canonical_witness :
  skill_local_key (skill_id_new Mcp (Some (as_bytes "a:b")) (as_bytes "x%y")) = Some (as_bytes "x%y").
Proof.
  refine (proj1 (proj2 (skill_id_canonical Mcp (Some (as_bytes "a:b")) (as_bytes "x%y") _ _))).
  - intros k [= <-]. vm_compute. reflexivity.
  - vm_compute. reflexivity.
Defined.
