(* ===== verification/Text.v ===== *)
(** Text as [str] treats it, on UTF-8 byte strings: searching, prefixes, lines,
    trimming, and comparison with literals. *)
From S2P Require Import Prelude Utf8 Bytes.

(** [Option::or] *)
Definition option_or {A} (a b : option A) : option A := match a with Some _ => a | None => b end.

(** ** Searching

    The first position where the needle occurs: [windows(..).position(..)] of the
    source, [str::find] of the standard library. *)
Fixpoint find_subsequence (needle haystack : bytes) : option nat :=
  if bool_decide (take (length needle) haystack = needle) then Some 0
  else match haystack with
       | [] => None
       | _ :: haystack => S <$> find_subsequence needle haystack
       end.
Definition str_contains (l needle : bytes) : bool :=
  match find_subsequence needle l with Some _ => true | None => false end.
(** The pieces before and behind the first occurrence ([splitn(2, ..)]). *)
Definition split_at_first (needle l : bytes) : option (bytes * bytes) :=
  i ← find_subsequence needle l; Some (take i l, drop (i + length needle) l).
(** [str::rfind] *)
Definition rfind (needle l : bytes) : option nat :=
  (λ i, length l - i - length needle) <$> find_subsequence (rev needle) (rev l).

(** ** Prefixes and suffixes *)

Definition strip_prefix (p l : bytes) : option bytes :=
  if bool_decide (take (length p) l = p) then Some (drop (length p) l) else None.
Definition str_starts_with (p l : bytes) : bool := bool_decide (take (length p) l = p).
Definition str_ends_with (p l : bytes) : bool := str_starts_with (rev p) (rev l).

(** [chars().take(n).collect()]: a character starts at a byte that does not continue
    another. *)
Fixpoint take_chars (n : nat) (l : bytes) : bytes :=
  match l with
  | [] => []
  | b :: l =>
      if is_cont b then b :: take_chars n l
      else match n with 0 => [] | S n => b :: take_chars n l end
  end.

(** [str::chars]: the bytes of each character. *)
Definition chars_step (b : Ascii.ascii) (cs : list bytes) : list bytes :=
  match cs with
  | (c :: cont) :: cs' => if is_cont c then (b :: c :: cont) :: cs' else [b] :: cs
  | _ => [b] :: cs
  end.
Definition chars (l : bytes) : list bytes := foldr chars_step [] l.
(** [chars().filter(|c| !c.is_whitespace()).collect()] *)
Fixpoint remove_whitespace (l : bytes) : bytes :=
  match l with
  | a :: l1 =>
      if ws1 a then remove_whitespace l1 else
      match l1 with
      | b :: l2 =>
          if ws2 a b then remove_whitespace l2 else
          match l2 with
          | c :: l3 => if ws3 a b c then remove_whitespace l3 else a :: remove_whitespace l1
          | [] => a :: remove_whitespace l1
          end
      | [] => a :: remove_whitespace l1
      end
  | [] => []
  end.

(** ** Replacing

    The pieces between the occurrences of a needle, found from the left and not
    overlapping; [skip] counts the bytes of the current occurrence still to pass.
    An empty needle occurs at every boundary of a character. *)
Fixpoint split_scan (needle : bytes) (skip : nat) (l : bytes) : list bytes :=
  match l with
  | [] => [[]]
  | b :: l' =>
      match skip with
      | S skip => split_scan needle skip l'
      | 0 =>
          if str_starts_with needle l then [] :: split_scan needle (length needle - 1) l'
          else match split_scan needle 0 l' with
               | piece :: pieces => (b :: piece) :: pieces
               | [] => [[b]]
               end
      end
  end.
Definition str_split (needle l : bytes) : list bytes :=
  match needle with [] => [] :: chars l ++ [[]] | _ => split_scan needle 0 l end.
(** [matches(needle).count()] *)
Definition count_matches (needle l : bytes) : nat := length (str_split needle l) - 1.

(** ** Lines *)

Definition is_lf : Ascii.ascii → bool := is_byte 10.
Definition strip_cr (l : bytes) : bytes :=
  match last l with Some b => if is_byte 13 b then removelast l else l | None => l end.
(** [str::lines]: a carriage return is part of the line end only before a line
    feed; an empty last line is dropped. *)
Definition lines (l : bytes) : list bytes :=
  match rev (split_on is_lf l) with
  | [] => []
  | last_line :: others => rev (strip_cr <$> others) ++ (match last_line with [] => [] | _ => [last_line] end)
  end.
(** [strings.join(sep)] *)
Fixpoint bytes_join (sep : bytes) (l : list bytes) : bytes :=
  match l with [] => [] | [x] => x | x :: l => x ++ sep ++ bytes_join sep l end.

(** [str::replace], [str::replacen(.., 1)], and the positions of [match_indices] for
    a needle that is not empty *)
Definition str_replace (needle new l : bytes) : bytes := bytes_join new (str_split needle l).
Definition str_replace_first (needle new l : bytes) : bytes :=
  match find_subsequence needle l with
  | Some i => take i l ++ new ++ drop (i + length needle) l
  | None => l
  end.
Fixpoint match_offsets (needle : bytes) (at_ : nat) (pieces : list bytes) : list nat :=
  match pieces with
  | [] => []
  | piece :: pieces =>
      match pieces with
      | [] => []
      | _ => (at_ + length piece) :: match_offsets needle (at_ + length piece + length needle) pieces
      end
  end.
Definition match_indices (needle l : bytes) : list nat := match_offsets needle 0 (str_split needle l).

(** ** Case, white space, literals *)

(** [str::to_ascii_lowercase] *)
Definition str_lower (l : bytes) : bytes := to_ascii_lowercase_char <$> l.
(** [str::trim_end] *)
Definition str_trim_end (l : bytes) : bytes := as_bytes (trim_end (String.string_of_list_ascii l)).
(** [s.trim().is_empty()] *)
Definition str_is_blank (l : bytes) : bool := bool_decide (bytes_trim l = []).
(** Comparison with one literal, [matches!] over literals, and
    [literals.any(|n| s.contains(n))]. *)
Definition is_lit (s : bytes) (literal : string) : bool := bool_decide (s = as_bytes literal).
Definition one_of (s : bytes) (literals : list string) : bool := existsb (is_lit s) literals.
Definition contains_lit (s : bytes) (needle : string) : bool := str_contains s (as_bytes needle).
Definition contains_any (s : bytes) (needles : list string) : bool := existsb (contains_lit s) needles.
Fixpoint drop_while {A} (f : A → bool) (l : list A) : list A :=
  match l with [] => [] | b :: l' => if f b then drop_while f l' else l end.
Definition drop_while_end {A} (f : A → bool) (l : list A) : list A := rev (drop_while f (rev l)).
(** [str::trim_matches] with a predicate on single-byte characters *)
Definition trim_matches (f : Ascii.ascii → bool) (l : bytes) : bytes := drop_while_end f (drop_while f l).
(** A long literal in pieces. *)
Definition text (pieces : list string) : bytes := concat (as_bytes <$> pieces).
(** The double quote, which a literal of the prover cannot hold. *)
Definition DQUOTE : bytes := [u8 34].

(** ** Lemmas *)

Lemma find_subsequence_some needle l i :
  find_subsequence needle l = Some i → take (length needle) (drop i l) = needle.
Proof.
  revert i. induction l as [|b l IH]; intros i; simpl; case_bool_decide as Hb; intros H; simplify_eq; try done.
  destruct (find_subsequence needle l) as [j|]; [|done]. simplify_eq/=. by apply IH.
Qed.
Lemma find_subsequence_head needle a t l :
  needle = a :: t → a ∉ l → ∀ rest, find_subsequence needle (l ++ needle ++ rest) = Some (length l).
Proof.
  intros Hneedle Ha rest. induction l as [|b l IH]; simpl.
  - pose proof (take_app_length needle rest) as Ht. clear Hneedle.
    destruct (needle ++ rest); simpl; by rewrite bool_decide_eq_true_2.
  - rewrite not_elem_of_cons in Ha. rewrite IH by naive_solver.
    rewrite bool_decide_eq_false_2; [done|]. rewrite Hneedle. simpl. intros [= ->]. naive_solver.
Qed.
(** A cut before the end of the separator hides it. *)
Lemma find_subsequence_cut needle a t l rest k :
  needle = a :: t → a ∉ l → k < length l + length needle → find_subsequence needle (take k (l ++ needle ++ rest)) = None.
Proof.
  intros Hn Ha Hk. destruct (find_subsequence _ _) as [i|] eqn:Hf; [|done]. exfalso.
  apply find_subsequence_some in Hf.
  assert (Hlen : length needle ≤ k - i).
  { rewrite <-Hf at 1. rewrite length_take, length_drop, length_take. lia. }
  assert (Hi : take k (l ++ needle ++ rest) !! i = Some a).
  { assert (H0 : take (length needle) (drop i (take k (l ++ needle ++ rest))) !! 0 = Some a) by (rewrite Hf; by rewrite Hn).
    rewrite lookup_take_lt in H0 by (rewrite Hn; simpl; lia). by rewrite lookup_drop, Nat.add_0_r in H0. }
  assert (0 < length needle) by (rewrite Hn; simpl; lia).
  rewrite lookup_take_lt in Hi by lia. rewrite lookup_app_l in Hi by lia. apply Ha. by eapply list_elem_of_lookup_2.
Qed.

(** ** Trimming text without white space *)

Lemma as_bytes_rev s : as_bytes (String.rev s) = rev (as_bytes s).
Proof.
  assert (H : ∀ t, as_bytes (String.rev_app s t) = rev (as_bytes s) ++ as_bytes t).
  { induction s as [|a s IH]; intros t; simpl; [done|]. rewrite IH. by rewrite <-app_assoc. }
  unfold String.rev. by rewrite H, app_nil_r.
Qed.
(** A visible ASCII character, where trimming stops. *)
Definition solid (b : Ascii.ascii) : bool := byte_in 33 127 b.
Lemma solid_ws a b c :
  solid a = true → ws1 a = false ∧ ws2 a b = false ∧ ws2 b a = false ∧ ws3 a b c = false ∧ ws3 c b a = false.
Proof.
  unfold solid. rewrite byte_in_spec. intros Ha. unfold ws1, ws2, ws3.
  split_and!; apply not_true_iff_false;
    rewrite ?orb_true_iff, ?andb_true_iff, ?orb_true_iff, ?andb_true_iff, ?N.leb_le, ?N.eqb_eq; lia.
Qed.
Lemma trim_start_solid a s : solid a = true → trim_start (String a s) = String a s.
Proof.
  intros Ha. destruct s as [|b [|c s]]; cbn [trim_start].
  - by destruct (solid_ws a a a Ha) as (->&_).
  - by destruct (solid_ws a b a Ha) as (->&->&_).
  - by destruct (solid_ws a b c Ha) as (->&->&_&->&_).
Qed.
Lemma trim_start_rev_solid a s : solid a = true → trim_start_rev (String a s) = String a s.
Proof.
  intros Ha. destruct s as [|b [|c s]]; cbn [trim_start_rev].
  - by destruct (solid_ws a a a Ha) as (->&_).
  - by destruct (solid_ws a b a Ha) as (->&_&->&_).
  - by destruct (solid_ws a b c Ha) as (->&_&->&_&->).
Qed.
Lemma of_bytes_rev l : String.rev (String.string_of_list_ascii l) = String.string_of_list_ascii (rev l).
Proof. by rewrite <-(of_as_bytes (String.rev _)), as_bytes_rev, as_bytes_of. Qed.
(** Text between two visible characters is not trimmed. *)
Definition tight (l : bytes) : Prop :=
  (∀ b, head l = Some b → solid b = true) ∧ (∀ b, last l = Some b → solid b = true).
Lemma bytes_trim_tight l : tight l → bytes_trim l = l.
Proof.
  intros [Hh Hl]. unfold bytes_trim, trim.
  assert (Hs : trim_start (String.string_of_list_ascii l) = String.string_of_list_ascii l).
  { destruct l as [|a l]; [done|]. exact (trim_start_solid a (String.string_of_list_ascii l) (Hh a eq_refl)). }
  rewrite Hs. unfold trim_end. rewrite of_bytes_rev.
  assert (Hd : trim_start_rev (String.string_of_list_ascii (rev l)) = String.string_of_list_ascii (rev l)).
  { revert Hl. rewrite <-head_reverse. change (reverse l) with (rev_append l []). rewrite rev_append_rev, app_nil_r.
    destruct (rev l) as [|a l']; [done|]. intros Hl. exact (trim_start_rev_solid a _ (Hl a eq_refl)). }
  rewrite Hd, as_bytes_rev, as_bytes_of. apply rev_involutive.
Qed.
Lemma solid_tight l : Forall (λ b, solid b = true) l → tight l.
Proof.
  rewrite Forall_forall. intros H. split; intros b Hb; apply H.
  - by apply head_Some_elem_of.
  - by apply last_Some_elem_of.
Qed.
Lemma bytes_trim_solid l : Forall (λ b, solid b = true) l → bytes_trim l = l.
Proof. intros H. by apply bytes_trim_tight, solid_tight. Qed.
Lemma bytes_trim_space l : tight l → bytes_trim (u8 32 :: l) = l.
Proof. intros H. by rewrite <-(bytes_trim_tight l H) at 2. Qed.
Lemma digit_solid b : is_ascii_digit b = true → solid b = true.
Proof. unfold is_ascii_digit, solid. rewrite andb_true_iff, !N.leb_le, byte_in_spec. lia. Qed.
Lemma decimal_solid n : Forall (λ b, solid b = true) (decimal n).
Proof. eapply Forall_impl; [apply decimal_digits|]. intros b. apply digit_solid. Qed.
Lemma split_at_first_head needle a t l rest :
  needle = a :: t → a ∉ l → split_at_first needle (l ++ needle ++ rest) = Some (l, rest).
Proof.
  intros Hn Ha. unfold split_at_first. rewrite (find_subsequence_head _ _ _ _ Hn Ha). cbn. f_equal. f_equal.
  - apply take_app_length.
  - rewrite <-length_app, app_assoc. apply drop_app_length.
Qed.
Lemma find_subsequence_none needle a t l : needle = a :: t → a ∉ l → find_subsequence needle l = None.
Proof.
  intros -> Ha. induction l as [|b l IH]; [done|]. cbn [find_subsequence]. rewrite not_elem_of_cons in Ha.
  rewrite bool_decide_eq_false_2; [by rewrite IH by naive_solver|]. cbn. naive_solver.
Qed.
Lemma split_at_first_none needle a t l : needle = a :: t → a ∉ l → split_at_first needle l = None.
Proof. intros Hn Ha. unfold split_at_first. by rewrite (find_subsequence_none _ _ _ _ Hn Ha). Qed.
(** A visible first character keeps a text from being blank. *)
Lemma trim_start_rev_ends_solid a n l :
  solid a = true → length l ≤ n → trim_start_rev (String.string_of_list_ascii (l ++ [a])) ≠ "".
Proof.
  intros Ha. revert l. induction n as [|n IH]; intros [|x l] Hn; cbn [length] in Hn; try lia;
    cbn [app String.string_of_list_ascii].
  1,2: by rewrite trim_start_rev_solid.
  destruct l as [|y [|z l]]; cbn [app String.string_of_list_ascii trim_start_rev].
  - destruct (ws1 x); [by apply (IH []); cbn; lia|]. by destruct (solid_ws a x x Ha) as (_&->&_).
  - destruct (ws1 x); [apply (IH [y]); cbn in *; lia|].
    destruct (ws2 y x); [apply (IH []); cbn in *; lia|]. by destruct (solid_ws a y x Ha) as (_&_&_&->&_).
  - destruct (ws1 x); [apply (IH (y :: z :: l)); cbn in *; lia|].
    destruct (ws2 y x); [apply (IH (z :: l)); cbn in *; lia|]. destruct (ws3 z y x); [apply (IH l); cbn in *; lia|done].
Qed.
Lemma solid_not_blank a l : solid a = true → str_is_blank (a :: l) = false.
Proof.
  intros Ha. unfold str_is_blank. apply bool_decide_eq_false_2. unfold bytes_trim, trim.
  assert (Hs : trim_start (String.string_of_list_ascii (a :: l)) = String.string_of_list_ascii (a :: l))
    by exact (trim_start_solid a (String.string_of_list_ascii l) Ha).
  rewrite Hs. unfold trim_end. rewrite of_bytes_rev, as_bytes_rev. cbn [rev]. intros H.
  apply (trim_start_rev_ends_solid a (length (rev l)) (rev l) Ha); [done|]. apply as_bytes_nil.
  by rewrite <-(rev_involutive (as_bytes _)), H.
Qed.
Lemma bytes_trim_space_end l : l ≠ [] → tight l → bytes_trim (l ++ [u8 32]) = l.
Proof.
  intros Hne H. rewrite <-(bytes_trim_tight l H) at 2. unfold bytes_trim, trim.
  destruct l as [|a l]; [done|]. destruct H as [Hh _]. specialize (Hh a eq_refl).
  assert (Hs : ∀ l, trim_start (String.string_of_list_ascii (a :: l)) = String.string_of_list_ascii (a :: l)).
  { intros l'. exact (trim_start_solid a (String.string_of_list_ascii l') Hh). }
  cbn [app]. rewrite !Hs. unfold trim_end. by rewrite !of_bytes_rev, app_comm_cons, rev_app_distr.
Qed.

(** ** Lines and suffixes *)

Lemma str_ends_with_last b l : str_ends_with [b] l = bool_decide (last l = Some b).
Proof.
  unfold str_ends_with, str_starts_with. apply bool_decide_ext. cbn [rev app length].
  destruct l as [|x l _] using rev_ind; [done|]. rewrite rev_app_distr, last_snoc. cbn. naive_solver.
Qed.
Lemma last_app_ne {A} (l l' : list A) : l' ≠ [] → last (l ++ l') = last l'.
Proof. intros H. rewrite last_app. destruct (last l') eqn:E; [done|]. by apply last_None in E. Qed.
Lemma bytes_join_cons sep x y l : bytes_join sep (x :: y :: l) = x ++ sep ++ bytes_join sep (y :: l).
Proof. done. Qed.
Lemma bytes_join_ne sep l x : last l = Some x → x ≠ [] → bytes_join sep l ≠ [].
Proof.
  intros Hl Hx. induction l as [|y [|z l] IH]; [done|by simplify_eq/=|]. rewrite bytes_join_cons.
  intros H. apply app_eq_nil in H as [_ [_ H]%app_eq_nil]. by apply IH.
Qed.
Lemma bytes_join_last sep l x : last l = Some x → x ≠ [] → last (bytes_join sep l) = last x.
Proof.
  intros Hl Hx. induction l as [|y [|z l] IH]; [done|by simplify_eq/=|]. rewrite bytes_join_cons, app_assoc.
  rewrite last_app_ne; [by apply IH|]. by eapply bytes_join_ne.
Qed.
Definition no_lf (l : bytes) : Prop := u8 10 ∉ l.
Lemma solid_not_in l b : solid b = false → Forall (λ b, solid b = true) l → b ∉ l.
Proof. rewrite Forall_forall. intros Hb H Hin. by rewrite (H _ Hin) in Hb. Qed.
Lemma no_lf_forall l : no_lf l → Forall (λ b, is_lf b = false) l.
Proof.
  intros H. apply Forall_forall. intros b Hb. unfold is_lf, is_byte. apply N.eqb_neq. intros E. apply H.
  by rewrite <-(u8_byte b), E in Hb.
Qed.
Lemma split_on_join ls : ls ≠ [] → Forall no_lf ls → split_on is_lf (bytes_join [u8 10] ls) = ls.
Proof.
  intros Hne H. induction ls as [|x ls IH]; [done|]. apply Forall_cons in H as [Hx H]. apply no_lf_forall in Hx.
  destruct ls as [|y ls]; [by apply split_on_none|]. rewrite bytes_join_cons. cbn [app].
  rewrite split_on_app; [|done|done]. f_equal. by apply IH.
Qed.
(** The lines of joined lines are these lines, when none ends with a carriage
    return and the last is not empty. *)
Lemma lines_join ls :
  Forall no_lf ls → Forall (λ l, last l ≠ Some (u8 13)) ls → last ls ≠ Some [] → lines (bytes_join [u8 10] ls) = ls.
Proof.
  intros H Hcr Hl. destruct (decide (ls = [])) as [->|Hne]; [done|]. unfold lines. rewrite split_on_join by done.
  destruct ls as [|x ls _] using rev_ind; [done|]. rewrite rev_app_distr. cbn [rev app].
  apply Forall_app in Hcr as [Hcr _]. rewrite last_snoc in Hl. f_equal; [|by destruct x].
  rewrite <-(rev_involutive ls) at 2. f_equal. rewrite <-(list_fmap_id (rev ls)) at 2. apply list_fmap_ext.
  intros i l Hi%list_elem_of_lookup_2. rewrite list_elem_of_In, <-in_rev, <-list_elem_of_In in Hi. rewrite Forall_forall in Hcr. specialize (Hcr _ Hi).
  unfold strip_cr. destruct (last l) as [b|]; [|done]. case_match eqn:E; [|done].
  unfold is_byte in E. apply N.eqb_eq in E. destruct Hcr. by rewrite <-(u8_byte b), E.
Qed.

(** ** Trimming behind an ASCII character *)

Lemma ws_ascii a b c : (byte a < 128)%N → ws2 a b = false ∧ ws3 a b c = false.
Proof. intros H. unfold ws2, ws3. rewrite !(proj2 (N.eqb_neq (byte a) _)) by lia. done. Qed.
Lemma trim_start_rev_snoc a n l :
  (byte a < 128)%N → length l ≤ n →
  trim_start_rev (String.string_of_list_ascii (l ++ [a])) =
    (if bool_decide (trim_start_rev (String.string_of_list_ascii l) = "") then (if ws1 a then "" else String a "")
     else String.string_of_list_ascii (as_bytes (trim_start_rev (String.string_of_list_ascii l)) ++ [a])).
Proof.
  intros Ha. revert l. induction n as [|n IH]; intros [|x l] Hn; cbn [length] in Hn; try lia; [done..|].
  cbn [app String.string_of_list_ascii trim_start_rev]. destruct (ws1 x) eqn:E1; [apply IH; lia|].
  destruct l as [|y l]; cbn [app String.string_of_list_ascii].
  { rewrite (proj1 (ws_ascii a x x Ha)). by rewrite bool_decide_eq_false_2. }
  destruct (ws2 y x) eqn:E2; [apply IH; cbn in Hn; lia|].
  destruct l as [|z l]; cbn [app String.string_of_list_ascii].
  { rewrite (proj2 (ws_ascii a y x Ha)). by rewrite bool_decide_eq_false_2. }
  destruct (ws3 z y x) eqn:E3; [apply IH; cbn in Hn; lia|].
  rewrite bool_decide_eq_false_2 by done. cbn. by rewrite as_bytes_of.
Qed.
Lemma str_trim_end_cons a l :
  (byte a < 128)%N →
  str_trim_end (a :: l) = if bool_decide (str_trim_end l = []) then (if ws1 a then [] else [a]) else a :: str_trim_end l.
Proof.
  intros Ha. unfold str_trim_end, trim_end. rewrite !of_bytes_rev. cbn [rev].
  rewrite (trim_start_rev_snoc a (length (rev l))) by done. rewrite !as_bytes_rev.
  set (t := trim_start_rev (String.string_of_list_ascii (rev l))). destruct (decide (t = "")) as [->|Hne].
  - rewrite !bool_decide_eq_true_2 by done. by destruct (ws1 a).
  - rewrite bool_decide_eq_false_2 by done. rewrite as_bytes_of, rev_app_distr. cbn [rev app].
    rewrite bool_decide_eq_false_2; [done|]. intros E. apply Hne. apply as_bytes_nil.
    by rewrite <-(rev_involutive (as_bytes t)), E.
Qed.
Lemma str_trim_end_solid_cons a l : solid a = true → str_trim_end (a :: l) = a :: str_trim_end l.
Proof.
  intros Ha. rewrite str_trim_end_cons by (unfold solid in Ha; apply byte_in_spec in Ha; lia).
  destruct (solid_ws a a a Ha) as (->&_). case_bool_decide as E; [by rewrite E|done].
Qed.
Lemma str_trim_end_snoc b l : ws1 b = true → str_trim_end (l ++ [b]) = str_trim_end l.
Proof.
  intros Hb. unfold str_trim_end, trim_end. rewrite !of_bytes_rev, rev_app_distr. cbn [rev app String.string_of_list_ascii trim_start_rev].
  by rewrite Hb.
Qed.
Lemma bytes_trim_snoc a l b : solid a = true → ws1 b = true → bytes_trim (a :: l ++ [b]) = bytes_trim (a :: l).
Proof.
  intros Ha Hb.
  assert (H : ∀ l, bytes_trim (a :: l) = str_trim_end (a :: l)).
  { intros l'. unfold bytes_trim, trim, str_trim_end. do 2 f_equal. exact (trim_start_solid a (String.string_of_list_ascii l') Ha). }
  rewrite !H. exact (str_trim_end_snoc b (a :: l) Hb).
Qed.
Lemma bytes_trim_solid_cons a l : solid a = true → bytes_trim (a :: l) = a :: str_trim_end l.
Proof.
  intros Ha. rewrite <-str_trim_end_solid_cons by done. unfold bytes_trim, trim, str_trim_end. do 2 f_equal.
  exact (trim_start_solid a (String.string_of_list_ascii l) Ha).
Qed.
Lemma str_trim_end_tight l : tight l → str_trim_end l = l.
Proof.
  intros [_ H]. destruct l as [|x l _] using rev_ind; [done|]. specialize (H x). rewrite last_snoc in H.
  unfold str_trim_end, trim_end. rewrite of_bytes_rev, rev_app_distr. cbn [rev app String.string_of_list_ascii].
  rewrite trim_start_rev_solid by auto. rewrite as_bytes_rev. cbn [as_bytes String.list_ascii_of_string]. rewrite as_bytes_of.
  cbn [rev]. by rewrite rev_involutive.
Qed.

Lemma trim_start_rev_length n s : String.length s ≤ n → String.length (trim_start_rev s) ≤ String.length s.
Proof.
  revert s. induction n as [|n IH]; intros [|a s] Hn; cbn [String.length] in Hn; try (cbn; lia).
  cbn [trim_start_rev]. destruct (ws1 a); [etrans; [apply IH; lia|cbn; lia]|].
  destruct s as [|b s]; [done|]. cbn [String.length] in Hn. destruct (ws2 b a); [etrans; [apply IH; lia|cbn; lia]|].
  destruct s as [|c s]; [done|]. cbn [String.length] in Hn. destruct (ws3 c b a); [etrans; [apply IH; lia|cbn; lia]|done].
Qed.
Lemma as_bytes_size s : length (as_bytes s) = String.length s.
Proof. induction s as [|a s IH]; cbn; [done|]. f_equal. exact IH. Qed.
Lemma str_trim_end_length l : length (str_trim_end l) ≤ length l.
Proof.
  unfold str_trim_end, trim_end. rewrite of_bytes_rev, as_bytes_rev, length_rev, as_bytes_size.
  etrans; [by apply (trim_start_rev_length (String.length (String.string_of_list_ascii (rev l))))|].
  by rewrite <-as_bytes_size, as_bytes_of, length_rev.
Qed.

(** ** Prefixes *)

Lemma str_starts_with_app p l : str_starts_with p (p ++ l) = true.
Proof. unfold str_starts_with. apply bool_decide_eq_true_2. apply take_app_length. Qed.
Lemma strip_prefix_app p l : strip_prefix p (p ++ l) = Some l.
Proof. unfold strip_prefix. rewrite take_app_length, bool_decide_eq_true_2 by done. by rewrite drop_app_length. Qed.
Lemma str_starts_with_ne i p l : i < length p → l !! i ≠ p !! i → str_starts_with p l = false.
Proof. intros Hi Hne. unfold str_starts_with. apply bool_decide_eq_false_2. intros E. apply Hne. by rewrite <-E, lookup_take_lt. Qed.
Lemma strip_prefix_ne i p l : i < length p → l !! i ≠ p !! i → strip_prefix p l = None.
Proof. intros Hi Hne. unfold strip_prefix. pose proof (str_starts_with_ne i p l Hi Hne) as H. unfold str_starts_with in H. by rewrite H. Qed.
