(* ===== verification/Json.v ===== *)
(** JSON values as serde_json holds them.  Strings are UTF-8 byte strings; an object
    is its entries in the order of the map. *)
From S2P Require Import Prelude Bytes.

(** ** JSON values

    serde_json's numbers are abstract, with their three accessors. *)
Inductive Value (Num : Type) :=
| Null
| Bool (flag : bool)
| Number (number : Num)
| Str (text : bytes)
| Array (items : list (Value Num))
| Object (map : list (bytes * Value Num)).
Arguments Null {Num}.
Arguments Bool {Num} flag.
Arguments Number {Num} number.
Arguments Str {Num} text.
Arguments Array {Num} items.
Arguments Object {Num} map.

Section Value_ind.
Context {Num : Type} (P : Value Num → Prop).
Context (HNull : P Null) (HBool : ∀ b, P (Bool b)) (HNumber : ∀ n, P (Number n)) (HStr : ∀ s, P (Str s))
  (HArray : ∀ l, Forall P l → P (Array l)) (HObject : ∀ m, Forall (λ kv, P kv.2) m → P (Object m)).
Fixpoint Value_rect' (v : Value Num) : P v :=
  match v with
  | Null => HNull
  | Bool b => HBool b
  | Number n => HNumber n
  | Str s => HStr s
  | Array l =>
      HArray l ((fix go l : Forall P l :=
        match l with [] => Forall_nil_2 _ | v :: l => Forall_cons_2 _ _ _ (Value_rect' v) (go l) end) l)
  | Object m =>
      HObject m ((fix go m : Forall (λ kv, P kv.2) m :=
        match m with [] => Forall_nil_2 _ | kv :: m => Forall_cons_2 _ _ _ (Value_rect' kv.2) (go m) end) m)
  end.
End Value_ind.


(** [Value::get] with a key, [as_str], [as_bool], [as_array] *)
Definition get {Num} (key : bytes) (v : Value Num) : option (Value Num) :=
  match v with Object map => snd <$> head (filter (λ e, e.1 = key) map) | _ => None end.
Definition as_str {Num} (v : Value Num) : option bytes := match v with Str text => Some text | _ => None end.
Definition as_bool {Num} (v : Value Num) : option bool := match v with Bool flag => Some flag | _ => None end.
Definition as_array {Num} (v : Value Num) : option (list (Value Num)) :=
  match v with Array items => Some items | _ => None end.
