(* ===== verification/LspFrames.v ===== *)
(** The language-server client of the code navigation tool
    (agent/nomi-tools/src/lsp.rs): [Content-Length] framing, the loop that waits for
    a response, and the conversion between character columns and UTF-16 offsets. *)
From S2P Require Import Prelude Utf8 Bytes Text.

(** ** Module [codec] *)

Definition CRLF2 : bytes := [u8 13; u8 10; u8 13; u8 10].
Definition CONTENT_LENGTH : bytes := as_bytes "Content-Length".
(** [encode_message] *)
Definition encode_message (json : bytes) : bytes :=
  CONTENT_LENGTH ++ as_bytes ": " ++ decimal (N.of_nat (length json)) ++ CRLF2 ++ json.

(** [str::split_once(':')] *)
Definition split_colon (l : bytes) : option (bytes * bytes) :=
  i ← position (is_byte 58) l; Some (take i l, drop (S i) l).
Definition header_line (line : bytes) : option N :=
  '(k, v) ← split_colon line;
  if eq_ignore_ascii_case (bytes_trim k) CONTENT_LENGTH then str_parse_u64 (bytes_trim v) else None.
(** [Iterator::find_map] *)
Definition content_length (header_str : bytes) : option N := head (omap header_line (lines header_str)).

(** The message, if any, and the buffer left; [None] is a panic: the end of the body
    overflows [usize] (with wrapping arithmetic the slice then starts behind its
    end). *)
Definition try_decode (buf : bytes) : option (option bytes * bytes) :=
  match find_subsequence CRLF2 buf with
  | None => Some (None, buf)
  | Some sep =>
      let body_start := sep + 4 in
      match content_length (from_utf8_lossy (take sep buf)) with
      | None => Some (None, drop body_start buf)
      | Some content_len =>
          let body_end := (N.of_nat body_start + content_len)%N in
          if (u64_max <? body_end)%N then None
          else if (N.of_nat (length buf) <? body_end)%N then Some (None, buf)
          else
            let body := take (N.to_nat content_len) (drop body_start buf) in
            Some (Some (from_utf8_lossy body), drop (N.to_nat body_end) buf)
      end
  end.

(** ** Module [client]: [read_until_id]

    serde_json is a parameter: parsing a text, the integer under ["id"], the value
    under ["error"], and the value under ["result"], [Null] when there is none. *)
Section client.
Context {Value : Type} (from_str : bytes → option Value) (id_of : Value → option Z)
  (error_of : Value → option Value) (result_of : Value → Value).

Inductive LspError := ResponseParseError | ServerError (err : Value) | TimedOutError | ClosedConnection | ReadError.
Definition response (v : Value) : result Value LspError :=
  match error_of v with Some err => Err (ServerError err) | None => Ok (result_of v) end.

(** The inner loop over what is buffered; the fuel is more than the buffer length. *)
Inductive drained :=
| Panics
| Drained (buf : bytes)
| Answered (r : result Value LspError) (buf : bytes)
| OutOfFuel.
Fixpoint drain (id : Z) (fuel : nat) (buf : bytes) : drained :=
  match fuel with
  | 0 => OutOfFuel
  | S fuel =>
      match try_decode buf with
      | None => Panics
      | Some (None, buf) => Drained buf
      | Some (Some body, buf) =>
          match from_str body with
          | None => Answered (Err ResponseParseError) buf
          | Some v => if bool_decide (id_of v = Some id) then Answered (response v) buf else drain id fuel buf
          end
      end
  end.
(** What a read answers; [TimedOut] covers both tests of the deadline. *)
Inductive read_event := Chunk (bs : bytes) | Closed | ReadFailed | TimedOut.
Inductive outcome :=
| ClientPanics
| Returned (r : result Value LspError) (buf : bytes) (unread : list read_event)
| Waiting (buf : bytes).
Fixpoint read_until_id (id : Z) (buf : bytes) (env : list read_event) : outcome :=
  match drain id (S (length buf)) buf with
  | Panics | OutOfFuel => ClientPanics
  | Answered r buf => Returned r buf env
  | Drained buf =>
      match env with
      | [] => Waiting buf
      | Chunk [] :: env | Closed :: env => Returned (Err ClosedConnection) buf env
      | Chunk bs :: env => read_until_id id (buf ++ bs) env
      | ReadFailed :: env => Returned (Err ReadError) buf env
      | TimedOut :: env => Returned (Err TimedOutError) buf env
      end
  end.
End client.

(** ** Module [position]: a line is its Unicode scalar values *)

Definition len_utf16 (c : N) : N := if (c <? 65536)%N then 1 else 2.
(** [u32] sums: the offsets of a line of fewer than 2^31 characters do not overflow. *)
Definition char_col_to_utf16 (line_text : list N) (char_col_1based : nat) : N :=
  foldr N.add 0%N (len_utf16 <$> take (char_col_1based - 1) line_text).
Fixpoint utf16_loop (line_text : list N) (remaining : N) (chars : nat) : nat :=
  match line_text with
  | [] => chars
  | c :: line_text =>
      let w := len_utf16 c in
      if (remaining <? w)%N then chars else utf16_loop line_text (remaining - w) (chars + 1)
  end.
Definition utf16_to_char_col (line_text : list N) (utf16_offset : N) : nat :=
  utf16_loop line_text utf16_offset 0 + 1.

Example encode_ex : try_decode (encode_message (as_bytes "{}") ++ as_bytes "rest") = Some (Some (as_bytes "{}"), as_bytes "rest").
Proof. vm_compute. reflexivity. Qed.
Example bad_header_ex :
  try_decode (as_bytes "X: 1" ++ CRLF2 ++ encode_message (as_bytes "{}")) = Some (None, encode_message (as_bytes "{}")).
Proof. vm_compute. reflexivity. Qed.
Example emoji_ex : (char_col_to_utf16 [97; 128512; 98]%N 3, utf16_to_char_col [97; 128512; 98]%N 2) = (3%N, 2).
Proof. reflexivity. Qed.

(** ** Headers *)

Definition header (n : nat) : bytes := CONTENT_LENGTH ++ as_bytes ": " ++ decimal (N.of_nat n).
Lemma encode_message_header json : encode_message json = header (length json) ++ CRLF2 ++ json.
Proof. unfold encode_message, header. by rewrite <-!app_assoc. Qed.
Lemma header_plain n : Forall (λ b, (32 <= byte b < 128)%N) (header n).
Proof.
  unfold header. apply Forall_app. split; [|apply Forall_app; split].
  - by repeat constructor.
  - by repeat constructor.
  - eapply Forall_impl; [apply decimal_digits|]. intros b. unfold is_ascii_digit.
    rewrite andb_true_iff, !N.leb_le. lia.
Qed.
Lemma header_no b n : (byte b < 32)%N → b ∉ header n.
Proof. intros Hb Hin. pose proof (proj1 (Forall_forall _ _) (header_plain n) _ Hin). simpl in *. lia. Qed.
Lemma content_length_header n : is_u64 (N.of_nat n) → content_length (from_utf8_lossy (header n)) = Some (N.of_nat n).
Proof.
  intros Hn. rewrite from_utf8_lossy_valid.
  2:{ apply ascii_utf8. eapply Forall_impl; [apply header_plain|]. simpl. intros. lia. }
  unfold content_length, lines. rewrite split_on_none.
  2:{ eapply Forall_impl; [apply header_plain|]. simpl. intros b ?. unfold is_lf, is_byte. apply N.eqb_neq. lia. }
  assert (Hline : header_line (header n) = Some (N.of_nat n)).
  { unfold header_line, split_colon. change (header n) with (CONTENT_LENGTH ++ u8 58 :: u8 32 :: decimal (N.of_nat n)).
    rewrite position_app by (done || by repeat constructor). cbn [mbind option_bind].
    rewrite take_app_length, (drop_app_ge _ _ (S _)), Nat.sub_succ_l, Nat.sub_diag by lia. cbn [drop]. change (eq_ignore_ascii_case (bytes_trim CONTENT_LENGTH) CONTENT_LENGTH) with true.
    cbn match. rewrite (bytes_trim_space _ (solid_tight _ (decimal_solid _))). by apply str_parse_u64_decimal. }
  assert (header n ≠ []) as Hne by done. revert Hline Hne. destruct (header n) as [|b l]; [done|]. intros Hline _.
  simpl. by rewrite Hline.
Qed.

(** ** Searching the separator *)


(** ** Decoding *)

(** A message that is valid UTF-8 and whose frame has a [usize] length. *)
Definition json_ok (json : bytes) : Prop :=
  from_utf8 json = None ∧ is_u64 (N.of_nat (length (encode_message json))).
Lemma length_encode_message json : length (encode_message json) = length (header (length json)) + 4 + length json.
Proof. rewrite encode_message_header, !length_app. simpl. lia. Qed.
Lemma json_ok_length json : json_ok json → is_u64 (N.of_nat (length json)).
Proof. intros [_ H]. rewrite length_encode_message in H. unfold is_u64 in *. lia. Qed.

Lemma try_decode_whole json rest : json_ok json → try_decode (encode_message json ++ rest) = Some (Some json, rest).
Proof.
  intros Hok. pose proof (json_ok_length _ Hok) as Hlen. destruct Hok as [Hutf Hframe].
  rewrite length_encode_message in Hframe. unfold try_decode.
  rewrite encode_message_header, <-!app_assoc.
  rewrite (find_subsequence_head CRLF2 (u8 13) [u8 10; u8 13; u8 10]); [|done|by apply header_no].
  rewrite take_app_length, content_length_header by done.
  unfold is_u64 in Hframe. rewrite (proj2 (N.ltb_ge _ _)) by lia.
  rewrite (proj2 (N.ltb_ge _ _)) by (rewrite !length_app; change (length CRLF2) with 4; lia).
  assert (Hdrop : drop (length (header (length json)) + 4) (header (length json) ++ CRLF2 ++ json ++ rest) = json ++ rest).
  { rewrite app_assoc. apply drop_app_length'. rewrite length_app. done. }
  rewrite Hdrop, Nat2N.id, take_app_length, from_utf8_lossy_valid by done. do 2 f_equal.
  replace (N.to_nat _) with (length ((header (length json) ++ CRLF2) ++ json)) by (rewrite !length_app; change (length CRLF2) with 4; lia).
  rewrite !app_assoc. apply drop_app_length.
Qed.
Lemma try_decode_cut json k :
  json_ok json → k < length (encode_message json) →
  try_decode (take k (encode_message json)) = Some (None, take k (encode_message json)).
Proof.
  intros Hok Hk. pose proof (json_ok_length _ Hok) as Hlen. destruct Hok as [Hutf Hframe].
  unfold try_decode. destruct (decide (k < length (header (length json)) + length CRLF2)) as [Hsmall|Hbig];
    [|change (length CRLF2) with 4 in Hbig].
  { rewrite encode_message_header. rewrite (find_subsequence_cut CRLF2 (u8 13) [u8 10; u8 13; u8 10]);
      [done|done|by apply header_no|done]. }
  assert (Hbuf : take k (encode_message json)
    = header (length json) ++ CRLF2 ++ take (k - length (header (length json)) - 4) json).
  { rewrite encode_message_header. rewrite take_app_ge by lia. f_equal.
    rewrite take_app_ge by (change (length CRLF2) with 4; lia). done. }
  rewrite Hbuf. rewrite (find_subsequence_head CRLF2 (u8 13) [u8 10; u8 13; u8 10]); [|done|by apply header_no].
  rewrite take_app_length, content_length_header by done.
  rewrite length_encode_message in Hk, Hframe. unfold is_u64 in Hframe.
  rewrite (proj2 (N.ltb_ge _ _)) by lia.
  rewrite (proj2 (N.ltb_lt _ _)); [done|]. rewrite !length_app, length_take. change (length CRLF2) with 4. lia.
Qed.
Lemma try_decode_partial json buf :
  json_ok json → buf = take (length buf) (encode_message json) → length buf < length (encode_message json) →
  try_decode buf = Some (None, buf).
Proof. intros Hok Hbuf Hlt. rewrite Hbuf. by apply try_decode_cut. Qed.

(** ** The client *)

Section client.
Context {Value : Type} (from_str : bytes → option Value) (id_of : Value → option Z)
  (error_of : Value → option Value) (result_of : Value → Value).
#[local] Abbreviation drain := (drain from_str id_of error_of result_of).
#[local] Abbreviation read_until_id := (read_until_id from_str id_of error_of result_of).

(** A message the client passes over while it waits for [id], and the response. *)
Definition unrelated (id : Z) (json : bytes) : Prop :=
  json_ok json ∧ ∃ v, from_str json = Some v ∧ id_of v ≠ Some id.
Definition answers (id : Z) (json : bytes) (v : Value) : Prop :=
  json_ok json ∧ from_str json = Some v ∧ id_of v = Some id.

Lemma frame_prefix (buf more frame tail : bytes) :
  buf ++ more = frame ++ tail →
  (∃ b, buf = frame ++ b ∧ b ++ more = tail) ∨
  (buf = take (length buf) frame ∧ length buf < length frame ∧ more ≠ []).
Proof.
  intros H. destruct (decide (length buf < length frame)) as [Hlt|Hge]; [right|left].
  - split_and!; [|done|].
    + apply (f_equal (take (length buf))) in H. rewrite take_app_length, take_app_le in H by lia. done.
    + intros ->. apply (f_equal length) in H. rewrite app_nil_r, length_app in H. lia.
  - exists (drop (length frame) buf).
    assert (Hf : take (length frame) buf = frame).
    { apply (f_equal (take (length frame))) in H. rewrite take_app_length, take_app_le in H by lia. done. }
    split; [rewrite <-Hf at 1; by rewrite take_drop|].
    apply (f_equal (drop (length frame))) in H. rewrite drop_app_length, drop_app_le in H by lia. done.
Qed.

Lemma drain_spec id fuel buf more ms target v rest :
  length buf < fuel → Forall (unrelated id) ms → answers id target v →
  buf ++ more = flat_map encode_message ms ++ encode_message target ++ rest →
  (∃ buf', drain id fuel buf = Answered (response error_of result_of v) buf' ∧ buf' ++ more = rest) ∨
  (∃ ms' buf', drain id fuel buf = Drained buf' ∧ Forall (unrelated id) ms' ∧ more ≠ [] ∧
     buf' ++ more = flat_map encode_message ms' ++ encode_message target ++ rest).
Proof.
  intros Hfuel Hms (Hok&Hv&Hid). revert buf fuel Hfuel. induction Hms as [|m ms (Hm&vm&Hvm&Hne) Hms IH]; intros buf fuel Hfuel H;
    (destruct fuel as [|fuel]; [lia|]); cbn [flat_map app] in H; rewrite <-?app_assoc in H.
  - destruct (frame_prefix _ _ _ _ H) as [(b&->&Hb)|(Hbuf&Hlt&Hmore)].
    + left. exists b. cbn [LspFrames.drain]. rewrite try_decode_whole, Hv by exact Hok.
      rewrite bool_decide_eq_true_2 by exact Hid. split; [reflexivity|exact Hb].
    + right. exists [], buf. cbn [LspFrames.drain]. rewrite (try_decode_partial target) by assumption.
      split_and!; [reflexivity|constructor|exact Hmore|exact H].
  - destruct (frame_prefix _ _ _ _ H) as [(b&->&Hb)|(Hbuf&Hlt&Hmore)].
    + cbn [LspFrames.drain]. rewrite try_decode_whole, Hvm by exact Hm. rewrite bool_decide_eq_false_2 by exact Hne.
      apply IH; [|exact Hb]. rewrite length_app, length_encode_message in Hfuel. lia.
    + right. exists (m :: ms), buf. cbn [LspFrames.drain]. rewrite (try_decode_partial m) by assumption.
      split_and!; [reflexivity| |exact Hmore|cbn [flat_map app]; rewrite <-app_assoc; exact H].
      constructor; [|exact Hms]. split; [exact Hm|]. by exists vm.
Qed.

(** A response is found however the server's bytes arrive: when the bytes
    buffered and read spell any number of unrelated messages, the response and
    anything after it, cut into chunks in any way, the client returns exactly the
    response, and what it leaves (buffered or unread) is exactly what came after
    it. *)
Theorem lsp_response_chunking id buf chunks env ms target v rest :
  Forall (unrelated id) ms → answers id target v → Forall (λ c, c ≠ []) chunks →
  buf ++ concat chunks = flat_map encode_message ms ++ encode_message target ++ rest →
  ∃ buf' unread, read_until_id id buf ((Chunk <$> chunks) ++ env)
    = Returned (response error_of result_of v) buf' ((Chunk <$> unread) ++ env) ∧ buf' ++ concat unread = rest.
Proof.
  intros Hms Hans Hchunks. revert buf ms Hms. induction Hchunks as [|c chunks Hc Hchunks IH]; intros buf ms Hms H.
  - destruct (drain_spec id (S (length buf)) buf [] ms target v rest) as [(b&Hd&Hb)|(?&?&_&_&?&_)]; [lia|done..| |done].
    exists b, []. simpl in *. destruct env; simpl; rewrite Hd; done.
  - destruct (drain_spec id (S (length buf)) buf (concat (c :: chunks)) ms target v rest)
      as [(b&Hd&Hb)|(ms'&b&Hd&Hms'&_&Hb)]; [lia|done..| |].
    + exists b, (c :: chunks). split; [|done]. change ((Chunk <$> c :: chunks) ++ env) with (Chunk c :: (Chunk <$> chunks) ++ env). cbn [LspFrames.read_until_id]. by rewrite Hd.
    + destruct (IH (b ++ c) ms' Hms') as (b'&unread&Hr&Hrest); [by rewrite <-app_assoc|].
      exists b', unread. split; [|done]. rewrite <-Hr. cbn [LspFrames.read_until_id fmap list_fmap app]. rewrite Hd.
      by destruct c.
Qed.
End client.

(** Two malformed headers.  A header without a usable Content-Length is dropped,
    but the drop ends the inner loop, so a complete response already buffered behind
    it is not looked at: if the server sends nothing more, the request times out
    with the response in its buffer.  And a Content-Length near the maximum of
    [usize] panics the client. *)
Theorem lsp_malformed_headers {Value} (from_str : bytes → option Value) id_of error_of result_of id h target v :
  u8 13 ∉ h → content_length (from_utf8_lossy h) = None → answers from_str id_of id target v →
  read_until_id from_str id_of error_of result_of id (h ++ CRLF2 ++ encode_message target) [TimedOut]
    = Returned (Err TimedOutError) (encode_message target) [] ∧
  read_until_id from_str id_of error_of result_of id
    (CONTENT_LENGTH ++ as_bytes ": 18446744073709551615" ++ CRLF2) [] = ClientPanics.
Proof.
  intros Hh Hc _. split.
  - assert (Hd : try_decode (h ++ CRLF2 ++ encode_message target) = Some (None, encode_message target)).
    { unfold try_decode. rewrite (find_subsequence_head CRLF2 (u8 13) [u8 10; u8 13; u8 10]) by done.
      rewrite take_app_length, Hc. rewrite app_assoc, drop_app_length'; [done|]. rewrite length_app. done. }
    cbn [read_until_id drain]. by rewrite Hd.
  - assert (Hd : try_decode (CONTENT_LENGTH ++ as_bytes ": 18446744073709551615" ++ CRLF2) = None)
      by (vm_compute; reflexivity).
    cbn [read_until_id drain]. by rewrite Hd.
Qed.

(** ** Positions *)

Definition utf16_len (l : list N) : N := foldr N.add 0%N (len_utf16 <$> l).
Lemma utf16_loop_chars l r n : utf16_loop l r n = n + utf16_loop l r 0.
Proof.
  revert r n. induction l as [|c l IH]; intros r n; simpl; [lia|]. case_match; [lia|].
  rewrite IH, (IH _ 1). lia.
Qed.
Lemma len_utf16_pos c : (0 < len_utf16 c)%N.
Proof. unfold len_utf16. case_match; lia. Qed.
Lemma utf16_loop_spec l r k : k ≤ utf16_loop l r 0 ↔ k ≤ length l ∧ (utf16_len (take k l) <= r)%N.
Proof.
  revert r k. induction l as [|c l IH]; intros r k; simpl.
  - rewrite take_nil. unfold utf16_len. simpl. lia.
  - destruct k as [|k]; [unfold utf16_len; simpl; case_match; lia|]. rewrite firstn_cons.
    unfold utf16_len. cbn [fmap list_fmap foldr]. fold (utf16_len (take k l)).
    destruct (N.ltb_spec r (len_utf16 c)) as [Hlt|Hge]; [lia|].
    rewrite utf16_loop_chars. change (1 + ?x) with (S x).
    transitivity (k ≤ utf16_loop l (r - len_utf16 c) 0); [lia|]. rewrite IH. lia.
Qed.

(** The two position conversions are adjoint: a column's UTF-16 offset is at
    most a given offset just when the column is at most the one computed for that
    offset, so an offset inside a surrogate pair maps to the character it belongs
    to, an offset past the end to the column after the last, and converting a
    column there and back returns it. *)
Theorem lsp_positions_adjoint line_text col offset :
  1 ≤ col ≤ length line_text + 1 →
  (col ≤ utf16_to_char_col line_text offset ↔ (char_col_to_utf16 line_text col <= offset)%N) ∧
  1 ≤ utf16_to_char_col line_text offset ≤ length line_text + 1 ∧
  utf16_to_char_col line_text (char_col_to_utf16 line_text col) = col.
Proof.
  intros Hcol. assert (Hadj : ∀ col offset, 1 ≤ col ≤ length line_text + 1 →
    col ≤ utf16_to_char_col line_text offset ↔ (char_col_to_utf16 line_text col <= offset)%N).
  { clear. intros col offset Hcol. unfold utf16_to_char_col, char_col_to_utf16. fold (utf16_len (take (col - 1) line_text)).
    transitivity (col - 1 ≤ utf16_loop line_text offset 0); [lia|]. rewrite utf16_loop_spec. lia. }
  assert (Hle : ∀ offset, utf16_to_char_col line_text offset ≤ length line_text + 1).
  { intros o. unfold utf16_to_char_col. pose proof (proj1 (utf16_loop_spec line_text o _) (le_n _)). lia. }
  split; [by apply Hadj|]. split; [split; [unfold utf16_to_char_col; lia|apply Hle]|].
  apply Nat.le_antisymm; [|apply Hadj; lia].
  destruct (decide (col = length line_text + 1)) as [->|Hne]; [apply Hle|].
  destruct (decide (utf16_to_char_col line_text (char_col_to_utf16 line_text col) ≤ col)) as [|Hgt]; [done|exfalso].
  assert (Hnext : col + 1 ≤ utf16_to_char_col line_text (char_col_to_utf16 line_text col)) by lia.
  apply Hadj in Hnext; [|lia]. unfold char_col_to_utf16 in Hnext.
  destruct (lookup_lt_is_Some_2 line_text (col - 1)) as [c Hc]; [lia|].
  replace (col + 1 - 1) with (S (col - 1)) in Hnext by lia. rewrite (take_S_r _ _ c) in Hnext by done.
  rewrite fmap_app, foldr_app in Hnext. simpl in Hnext.
  assert (Hfold : ∀ l z, foldr N.add z l = (foldr N.add 0 l + z)%N).
  { clear. intros l z. induction l; simpl; [done|]. lia. }
  rewrite Hfold in Hnext. pose proof (len_utf16_pos c). lia.
Qed.

(** ** Witnesses: a text is its own value, its length is its id *)

Definition demo_stream : bytes := encode_message (as_bytes "{}") ++ encode_message (as_bytes "[1]") ++ as_bytes "Con".
Definition demo_id (v : bytes) : option Z := Some (Z.of_nat (length v)).
Lemma demo_answers : answers Some demo_id 3 (as_bytes "[1]") (as_bytes "[1]").
Proof. split_and!; done. Qed.
Lemma lsp_response_chunking_witness :
  ∃ buf unread, read_until_id Some demo_id (λ _, None) id 3 []
    [Chunk (take 7 demo_stream); Chunk (drop 7 demo_stream); TimedOut]
  = Returned (Ok (as_bytes "[1]")) buf ((Chunk <$> unread) ++ [TimedOut]) ∧ buf ++ concat unread = as_bytes "Con".
Proof.
  apply (lsp_response_chunking Some demo_id (λ _, None) id 3 [] [take 7 demo_stream; drop 7 demo_stream] [TimedOut]
    [as_bytes "{}"] (as_bytes "[1]") (as_bytes "[1]") (as_bytes "Con")).
  - repeat constructor; [done|]. by exists (as_bytes "{}").
  - apply demo_answers.
  - by repeat constructor.
  - vm_compute. reflexivity.
Defined.
Lemma lsp_malformed_headers_witness :
  read_until_id Some demo_id (λ _, None) id 3 (as_bytes "X: 1" ++ CRLF2 ++ encode_message (as_bytes "[1]")) [TimedOut]
  = Returned (Err TimedOutError) (encode_message (as_bytes "[1]")) [].
Proof.
  refine (proj1 (lsp_malformed_headers Some demo_id (λ _, None) id 3 (as_bytes "X: 1") (as_bytes "[1]") (as_bytes "[1]") _ _ demo_answers)).
  - vm_compute. set_solver.
  - vm_compute. reflexivity.
Defined.
Lemma lsp_positions_adjoint_witness : utf16_to_char_col [97; 128512; 98]%N (char_col_to_utf16 [97; 128512; 98]%N 3) = 3.
Proof. apply (lsp_positions_adjoint [97; 128512; 98]%N 3 0%N). simpl. lia. Defined.
