(* ===== verification/ReadPaths.v ===== *)
(** Comparison keys for file paths (agent/nomi-coding/src/read_repeat.rs):
    [canonical_path] unifies separators, splits off a drive, UNC or POSIX root and
    resolves dot segments without touching the disk. *)
From S2P Require Import Prelude Utf8 Bytes Text.

(** ** The source *)

Definition slash : Ascii.ascii := u8 47.
Definition is_slash : Ascii.ascii → bool := is_byte 47.
Definition DOT : bytes := as_bytes ".".
Definition DOTDOT : bytes := as_bytes "..".
(** [raw.trim().replace('\\', "/")] *)
Definition unify (raw : bytes) : bytes := (λ b, if is_byte 92 b then slash else b) <$> bytes_trim raw.
(** [splitn(3, '/')] with its defaults *)
Definition unc_root (after_slashes : bytes) : bytes * bytes :=
  let '(host, share, rest) :=
    match position is_slash after_slashes with
    | None => (after_slashes, [], [])
    | Some i =>
        let tail := drop (S i) after_slashes in
        match position is_slash tail with
        | None => (take i after_slashes, tail, [])
        | Some j => (take i after_slashes, take j tail, drop (S j) tail)
        end
    end in
  match share with
  | [] => ([slash; slash] ++ host ++ [slash], rest)
  | _ => ([slash; slash] ++ host ++ [slash] ++ share ++ [slash], rest)
  end.
Definition plain_root (path : bytes) : bytes * bytes :=
  match path with
  | a :: c :: rest =>
      if is_ascii_alphabetic a && is_byte 58 c then
        match strip_prefix [slash] rest with
        | Some rest => ([a; c; slash], rest)
        | None => ([a; c], rest)
        end
      else match strip_prefix [slash] path with Some rest => ([slash], rest) | None => ([], path) end
  | _ => match strip_prefix [slash] path with Some rest => ([slash], rest) | None => ([], path) end
  end.
Definition verbatim_prefix (path : bytes) : option bytes :=
  match strip_prefix (as_bytes "//?/") path with
  | Some rest => Some rest
  | None => strip_prefix (as_bytes "//./") path
  end.
Definition split_root (unified : bytes) : bytes * bytes :=
  match verbatim_prefix unified with
  | Some path =>
      if bool_decide (4 ≤ length path) && eq_ignore_ascii_case (take 4 path) (as_bytes "unc/")
      then unc_root (drop 4 path) else plain_root path
  | None =>
      match strip_prefix [slash; slash] unified with
      | Some unc =>
          match strip_prefix [slash] unc with
          | None => unc_root unc
          | Some _ => plain_root unified
          end
      | None => plain_root unified
      end
  end.

Definition push_segment (anchored : bool) (parts : list bytes) (segment : bytes) : list bytes :=
  if bool_decide (segment = [] ∨ segment = DOT) then parts
  else if bool_decide (segment = DOTDOT) then
    match last parts with
    | Some l => if bool_decide (l ≠ DOTDOT) then removelast parts
                else if anchored then parts else parts ++ [DOTDOT]
    | None => if anchored then parts else parts ++ [DOTDOT]
    end
  else parts ++ [segment].
Definition resolve (anchored : bool) (segments : list bytes) : list bytes :=
  foldl (push_segment anchored) [] segments.
Fixpoint join_slash (parts : list bytes) : bytes :=
  match parts with
  | [] => []
  | [p] => p
  | p :: parts => p ++ slash :: join_slash parts
  end.
Definition ends_with_slash (l : bytes) : bool := match last l with Some b => is_slash b | None => false end.
Definition canonical_path (raw : bytes) (fold_case : bool) : bytes :=
  let unified := unify raw in
  let '(root, rest) := split_root unified in
  let anchored := ends_with_slash root in
  let parts := resolve anchored (split_on is_slash rest) in
  let joined := root ++ join_slash parts in
  let canonical := match joined with [] => unified | _ => joined end in
  if fold_case then to_ascii_lowercase_char <$> canonical else canonical.
Definition normalize_read_path (raw : bytes) : bytes := canonical_path raw true.
Definition display_read_path (raw : bytes) : bytes := canonical_path raw false.

Definition path_ex (s : string) : string := String.string_of_list_ascii (normalize_read_path (as_bytes s)).
Example path_ex1 : path_ex "  C:\Users\.\Docs\sub\..\README.md " = "c:/users/docs/readme.md"%string.
Proof. vm_compute. reflexivity. Qed.
Example path_ex2 : path_ex "\\?\UNC\srv\share\a.rs" = "//srv/share/a.rs"%string.
Proof. vm_compute. reflexivity. Qed.
Example path_ex3 : path_ex "C:/../a.rs" = "c:/a.rs"%string ∧ path_ex "a/../../b.rs" = "../b.rs"%string.
Proof. vm_compute. done. Qed.
Example path_ex4 : path_ex "a/.." = "a/.."%string ∧ path_ex "." = "."%string.
Proof. vm_compute. done. Qed.

(** ** What a path denotes

    A location is the list of directory names from the innermost outwards; the
    parent of the root is the root.  A rooted path starts at its root. *)
Definition location := list bytes.
Definition enter (loc : location) (segment : bytes) : location :=
  if bool_decide (segment = [] ∨ segment = DOT) then loc
  else if bool_decide (segment = DOTDOT) then tail loc
  else segment :: loc.
Definition walk (loc : location) (segments : list bytes) : location := foldl enter loc segments.

Definition name_ok (s : bytes) : Prop := s ≠ [] ∧ s ≠ DOT ∧ s ≠ DOTDOT ∧ Forall (λ b, is_slash b = false) s.
(** Normal forms: parents first, none under a root, then names. *)
Definition normal (anchored : bool) (parts : list bytes) (n : nat) (names : list bytes) : Prop :=
  parts = replicate n DOTDOT ++ names ∧ Forall name_ok names ∧ (anchored = true → n = 0).
Definition starts_at (anchored : bool) (loc : location) : Prop := anchored = true → loc = [].

Lemma walk_names loc names : Forall name_ok names → walk loc names = rev names ++ loc.
Proof.
  intros H. revert loc. induction H as [|s names (H1&H2&H3&_) _ IH]; intros loc; simpl; [done|].
  rewrite IH. unfold enter. rewrite !bool_decide_eq_false_2 by naive_solver. by rewrite <-app_assoc.
Qed.
Lemma enter_parent loc : enter loc DOTDOT = tail loc.
Proof. reflexivity. Qed.
Lemma walk_parents loc n : walk loc (replicate n DOTDOT) = drop n loc.
Proof.
  revert loc. induction n as [|n IH]; intros loc; cbn [replicate walk foldl]; [done|].
  rewrite enter_parent. unfold walk in IH. rewrite IH. destruct loc; simpl; by rewrite ?drop_nil.
Qed.
Lemma walk_normal anchored parts n names loc :
  normal anchored parts n names → walk loc parts = rev names ++ drop n loc.
Proof. intros (->&Hn&_). unfold walk. rewrite foldl_app. change (foldl enter) with walk. by rewrite walk_parents, walk_names. Qed.

Lemma tail_drop {A} k (l : list A) : tail (drop k l) = drop (S k) l.
Proof. revert l. induction k as [|k IH]; intros [|a l]; done || apply IH. Qed.
Lemma push_segment_normal anchored parts n names segment :
  normal anchored parts n names → Forall (λ b, is_slash b = false) segment →
  ∃ n' names', normal anchored (push_segment anchored parts segment) n' names' ∧
    ∀ loc, starts_at anchored loc → rev names' ++ drop n' loc = enter (rev names ++ drop n loc) segment.
Proof.
  intros (->&Hnames&Hanch) Hseg. unfold push_segment, enter.
  case_bool_decide as Hdot; [by exists n, names|]. case_bool_decide as Hdd.
  - destruct names as [|x names _] using rev_ind.
    + rewrite app_nil_r. destruct n as [|n].
      * simpl. destruct anchored.
        -- exists 0, []. split; [by split_and!|]. intros loc Hloc. by rewrite Hloc.
        -- exists 1, []. split; [by split_and!|]. intros loc _. by destruct loc.
      * assert (Hlast : last (replicate (S n) DOTDOT) = Some DOTDOT)
          by (rewrite replicate_S_end; apply last_snoc).
        rewrite Hlast, bool_decide_eq_false_2 by naive_solver.
        destruct anchored; [by specialize (Hanch eq_refl)|]. exists (S (S n)), [].
        rewrite <-replicate_S_end. split; [split_and!; [by rewrite app_nil_r|done|done]|].
        intros loc _. cbn [rev app]. by rewrite tail_drop.
    + apply Forall_app in Hnames as [Hnames (Hx&_)%Forall_cons]. rewrite app_assoc, last_snoc.
      rewrite bool_decide_eq_true_2 by apply Hx. rewrite removelast_last. exists n, names.
      split; [by split_and!|]. intros loc _. by rewrite rev_app_distr.
  - exists n, (names ++ [segment]). split; [|intros loc _; by rewrite rev_app_distr].
    split_and!; [by rewrite app_assoc| |done]. apply Forall_app. split; [done|]. constructor; [|done].
    split_and!; naive_solver.
Qed.
(** Resolving dot segments keeps the location. *)
Lemma resolve_normal anchored segments :
  Forall (Forall (λ b, is_slash b = false)) segments →
  ∃ n names, normal anchored (resolve anchored segments) n names ∧
    ∀ loc, starts_at anchored loc → rev names ++ drop n loc = walk loc segments.
Proof.
  induction segments as [|s segments IH] using rev_ind; intros Hs.
  { exists 0, []. by split; [split_and!|]. }
  apply Forall_app in Hs as [Hss [Hs _]%Forall_cons]. destruct (IH Hss) as (n&names&Hn&Hw).
  unfold resolve, walk. rewrite foldl_app. fold (resolve anchored segments).
  destruct (push_segment_normal _ _ _ _ s Hn Hs) as (n'&names'&Hn'&Hw'). exists n', names'.
  split; [done|]. intros loc Hloc. rewrite foldl_app. cbn [foldl]. change (foldl enter loc segments) with (walk loc segments).
  by rewrite Hw', Hw.
Qed.
(** A normal form is determined by the locations it leads to. *)
Lemma normal_determined anchored p1 n1 names1 p2 n2 names2 :
  normal anchored p1 n1 names1 → normal anchored p2 n2 names2 →
  (∀ loc, starts_at anchored loc → rev names1 ++ drop n1 loc = rev names2 ++ drop n2 loc) → p1 = p2.
Proof.
  intros (->&_&H1) (->&_&H2) H. assert (names1 = names2) as ->.
  { specialize (H [] (λ _, eq_refl)). rewrite !drop_nil, !app_nil_r in H. by rewrite <-(rev_involutive names1), H, rev_involutive. }
  destruct anchored; [by rewrite H1, H2|]. specialize (H (replicate (n1 + n2) []) ltac:(done)).
  apply app_inv_head, (f_equal length) in H. rewrite !length_drop, length_replicate in H.
  by replace n1 with n2 by lia.
Qed.

(** Joining is injective. *)
Lemma split_join parts :
  parts ≠ [] → Forall (Forall (λ b, is_slash b = false)) parts → split_on is_slash (join_slash parts) = parts.
Proof.
  intros Hne H. induction H as [|p parts Hp Hparts IH]; [done|]. destruct parts as [|q parts].
  - by apply split_on_none.
  - change (join_slash (p :: q :: parts)) with (p ++ slash :: join_slash (q :: parts)).
    rewrite split_on_app by done. by rewrite IH.
Qed.
Lemma normal_slash_free anchored parts n names :
  normal anchored parts n names → Forall (Forall (λ b, is_slash b = false)) parts ∧ Forall (λ p, p ≠ []) parts.
Proof.
  intros (->&Hnames&_). rewrite !Forall_app. split_and!.
  - apply Forall_replicate. by repeat constructor.
  - eapply Forall_impl; [exact Hnames|]. intros s (_&_&_&?). done.
  - by apply Forall_replicate.
  - eapply Forall_impl; [exact Hnames|]. intros s (?&_). done.
Qed.
Lemma join_slash_inj a p1 n1 names1 p2 n2 names2 :
  normal a p1 n1 names1 → normal a p2 n2 names2 → join_slash p1 = join_slash p2 → p1 = p2.
Proof.
  intros [H1 H1']%normal_slash_free [H2 H2']%normal_slash_free H.
  assert (Hnil : ∀ p, Forall (λ q : bytes, q ≠ []) p → join_slash p = [] → p = []).
  { intros [|q [|r p]] Hp Hj; [done| |]; apply Forall_cons in Hp as [Hq _]; simpl in Hj; [done|].
    by apply app_eq_nil in Hj as [? _]. }
  destruct (decide (p1 = [])) as [->|Hne1]; [symmetry; by apply Hnil|].
  destruct (decide (p2 = [])) as [->|Hne2]; [by apply Hnil|].
  by rewrite <-(split_join p1), H, split_join.
Qed.

(** ** Property *)

(** The comparison key of a path is exact.  Among paths with the same root,
    two display forms are equal just when the paths lead to the same location from
    every directory (a rooted path starts at its root and never escapes it), unless
    a path without a root resolves to nothing: such a path keeps its spelling, so
    [a/..] and [.] differ although both denote the current directory.  The key is
    the display form with ASCII case folded. *)
Theorem read_path_key_exact p q root rest1 rest2 :
  split_root (unify p) = (root, rest1) → split_root (unify q) = (root, rest2) →
  let anchored := ends_with_slash root in
  let segments1 := split_on is_slash rest1 in
  let segments2 := split_on is_slash rest2 in
  normalize_read_path p = to_ascii_lowercase_char <$> display_read_path p ∧
  (root ≠ [] ∨ resolve anchored segments1 ≠ [] ∧ resolve anchored segments2 ≠ [] →
   display_read_path p = display_read_path q ↔
   ∀ loc, starts_at anchored loc → walk loc segments1 = walk loc segments2) ∧
  (root = [] → resolve anchored segments1 = [] → display_read_path p = unify p).
Proof.
  intros Hp Hq anchored segments1 segments2. unfold normalize_read_path, display_read_path, canonical_path.
  rewrite Hp, Hq. split; [done|]. fold anchored segments1 segments2.
  destruct (resolve_normal anchored segments1 (split_on_pieces _ _)) as (n1&names1&Hn1&Hw1).
  destruct (resolve_normal anchored segments2 (split_on_pieces _ _)) as (n2&names2&Hn2&Hw2).
  split; [|by intros -> ->]. intros Hne.
  assert (Hj : ∀ parts, root ≠ [] ∨ parts ≠ [] ∧ Forall (λ s : bytes, s ≠ []) parts → root ++ join_slash parts ≠ []).
  { intros parts Hor [-> Hnil]%app_eq_nil. destruct Hor as [|[Hparts Hall]]; [done|].
    destruct parts as [|s [|t parts]]; [done| |]; apply Forall_cons in Hall as [Hs _]; simpl in Hnil; [done|].
    by apply app_eq_nil in Hnil as [? _]. }
  pose proof (normal_slash_free _ _ _ _ Hn1) as [_ Hs1]. pose proof (normal_slash_free _ _ _ _ Hn2) as [_ Hs2].
  assert (Hk1 : root ++ join_slash (resolve anchored segments1) ≠ []) by (apply Hj; naive_solver).
  assert (Hk2 : root ++ join_slash (resolve anchored segments2) ≠ []) by (apply Hj; naive_solver).
  transitivity (resolve anchored segments1 = resolve anchored segments2).
  - destruct (root ++ join_slash (resolve anchored segments1)) eqn:E1; [done|].
    destruct (root ++ join_slash (resolve anchored segments2)) eqn:E2; [done|]. rewrite <-E1, <-E2. split.
    + intros H%app_inv_head. by eapply join_slash_inj.
    + by intros ->.
  - split.
    + intros Heq loc Hloc. rewrite <-Hw1, <-Hw2 by done.
      rewrite <-(walk_normal _ _ _ _ loc Hn1), <-(walk_normal _ _ _ _ loc Hn2). by rewrite Heq.
    + intros H. eapply normal_determined; [done..|]. intros loc Hloc. rewrite Hw1, Hw2 by done. by apply H.
Qed.
Lemma read_path_key_exact_witness :
  display_read_path (as_bytes "C:\Work\sub\..\A.md") = display_read_path (as_bytes "C:/Work/./A.md").
Proof.
  refine (proj2 (proj1 (proj2 (read_path_key_exact (as_bytes "C:\Work\sub\..\A.md") (as_bytes "C:/Work/./A.md")
    (as_bytes "C:/") (as_bytes "Work/sub/../A.md") (as_bytes "Work/./A.md") _ _)) _) _).
  - vm_compute. reflexivity.
  - vm_compute. reflexivity.
  - left. done.
  - intros loc H. rewrite (H ltac:(vm_compute; reflexivity)). vm_compute. reflexivity.
Defined.
