(* ===== verification/WorkingSet.v ===== *)
(** The session working set (agent/nomi-coding/src/working_set.rs): which line
    ranges of which files the model has read, per normalized path.  Spans are
    half-open and 0-based, as [from_offset_limit] makes them. *)
From S2P Require Import Prelude Bytes Text ReadPaths.

(** ** Spans *)

Record LineSpan := mkSpan { start : N; end_ : N }.
#[export] Instance LineSpan_eq_dec : EqDecision LineSpan.
Proof. solve_decision. Defined.
Definition from_offset_limit (offset limit total_lines : N) : LineSpan :=
  let start := N.min offset total_lines in
  mkSpan start (N.min (u64_sat_add start limit) total_lines).
Definition contains (a b : LineSpan) : bool := ((start a <=? start b) && (end_ b <=? end_ a))%N.

(** [sort_by_key(|s| (s.start, s.end))]; the key is the whole span. *)
Definition span_le (a b : LineSpan) : Prop := (start a < start b ∨ start a = start b ∧ end_ a <= end_ b)%N.
#[export] Instance span_le_dec a b : Decision (span_le a b).
Proof. unfold span_le. apply _. Defined.
(** One turn of the merging loop, [merged] in the order of the vector. *)
Definition merge_step (merged : list LineSpan) (span : LineSpan) : list LineSpan :=
  match last merged with
  | Some l =>
      if (start span <=? end_ l)%N then removelast merged ++ [mkSpan (start l) (N.max (end_ l) (end_ span))]
      else merged ++ [span]
  | None => merged ++ [span]
  end.
Definition merge_spans (covered : list LineSpan) (span : LineSpan) : list LineSpan :=
  if (end_ span <=? start span)%N then covered
  else foldl merge_step [] (merge_sort span_le (covered ++ [span])).

(** ** Entries *)

Record WorkingSetEntry := mkEntry {
  path : bytes;
  mtime_ms : option N;
  covered : list LineSpan;
  last_anchor : option bytes;
  edited_this_request : bool;
  total_lines : option N;
}.
Definition merge_span (e : WorkingSetEntry) (span : LineSpan) : WorkingSetEntry :=
  mkEntry (path e) (mtime_ms e) (merge_spans (covered e) span) (last_anchor e) (edited_this_request e) (total_lines e).
Definition covers (e : WorkingSetEntry) (span : LineSpan) (mtime : option N) : bool :=
  match mtime_ms e, mtime with
  | Some have, Some now => if negb (have =? now)%N then false else existsb (λ have, contains have span) (covered e)
  | _, _ => existsb (λ have, contains have span) (covered e)
  end.
Fixpoint unread_loop (cursor : N) (spans : list LineSpan) (total : N) : list LineSpan :=
  match spans with
  | [] => if (cursor <? total)%N then [mkSpan cursor total] else []
  | span :: spans =>
      (if (cursor <? start span)%N then [mkSpan cursor (start span)] else [])
      ++ unread_loop (N.max cursor (end_ span)) spans total
  end.
Definition unread_ranges (e : WorkingSetEntry) : list LineSpan :=
  match total_lines e with
  | Some total => if (0 <? total)%N then unread_loop 0 (covered e) total else []
  | None => []
  end.

(** ** The set *)

Abbreviation WorkingSet := (gmap bytes WorkingSetEntry).
Definition ws_reset (_ : WorkingSet) : WorkingSet := ∅.
Definition forget_reads (ws : WorkingSet) (p : bytes) : WorkingSet :=
  let key := normalize_read_path p in
  match ws !! key with
  | None => ws
  | Some e =>
      let e := mkEntry (path e) (mtime_ms e) [] (last_anchor e) (edited_this_request e) None in
      if negb (edited_this_request e) && bool_decide (last_anchor e = None)
      then delete key ws else <[key := e]> ws
  end.
Definition record_read (ws : WorkingSet) (p : bytes) (offset limit total : N) (mtime : option N) : WorkingSet :=
  let key := normalize_read_path p in
  let span := from_offset_limit offset limit total in
  let e := default (mkEntry (display_read_path p) mtime [] None false (Some total)) (ws !! key) in
  let e := mkEntry (path e) (option_or mtime (mtime_ms e)) (covered e) (last_anchor e) (edited_this_request e)
             (Some (N.max total (default 0%N (total_lines e)))) in
  <[key := merge_span e span]> ws.
Definition record_edit (ws : WorkingSet) (p : bytes) (anchor : option bytes) : WorkingSet :=
  let key := normalize_read_path p in
  let e := default (mkEntry (display_read_path p) None [] None false None) (ws !! key) in
  let anchor := match anchor with Some (_ :: _) => anchor | _ => last_anchor e end in
  <[key := mkEntry (path e) (mtime_ms e) (covered e) anchor true (total_lines e)]> ws.
Definition covers_range (ws : WorkingSet) (p : bytes) (offset limit total : N) (mtime : option N) : bool :=
  match ws !! normalize_read_path p with
  | None => false
  | Some e => covers e (from_offset_limit offset limit total) mtime
  end.

(** ** Text for the model; a [BTreeMap] lists its keys in byte order *)

Definition key_le (a b : bytes * WorkingSetEntry) : Prop := Is_true (bytes_leb a.1 b.1).
Definition ws_values (ws : WorkingSet) : list WorkingSetEntry := (merge_sort key_le (map_to_list ws)).*2.
Definition edited_paths (ws : WorkingSet) : list bytes := path <$> filter (λ e, edited_this_request e = true) (ws_values ws).
Definition span_text (s : LineSpan) : bytes := decimal (start s) ++ as_bytes "-" ++ decimal (end_ s).
Definition spans_text (l : list LineSpan) : bytes := bytes_join (as_bytes ",") (span_text <$> l).
Definition index_line (e : WorkingSetEntry) : bytes :=
  let unread := spans_text (unread_ranges e) in
  as_bytes "- " ++ path e ++ as_bytes " covered=[" ++ spans_text (covered e) ++ as_bytes "]"
  ++ (match unread with [] => [] | _ => as_bytes " unread=" ++ unread end)
  ++ (if edited_this_request e then as_bytes " edited" else [])
  ++ (match last_anchor e with Some a => as_bytes " last_anchor=" ++ a | None => [] end).
Definition index_block (ws : WorkingSet) : bytes :=
  if bool_decide (ws = ∅) then
    as_bytes "[WorkingSet]" ++ [u8 10]
    ++ as_bytes "No files recorded this request. Prefer Grep/Glob/explore_code before a tour."
  else
    bytes_join [u8 10]
      (as_bytes "[WorkingSet] Files already in context — do not re-Read covered ranges; use returned Edit anchors."
       :: (index_line <$> ws_values ws)).

Definition a_rs : bytes := as_bytes "src/A.rs".
Example ws_ex1 :
  let ws := record_read (record_read ∅ a_rs 0 10 40 (Some 1%N)) (as_bytes "./SRC\a.rs") 10 10 40 (Some 1%N) in
  (covers_range ws a_rs 0 20 40 (Some 1%N), covers_range ws a_rs 0 21 40 None, unread_ranges <$> ws_values ws)
  = (true, false, [[mkSpan 20 40]]).
Proof. vm_compute. reflexivity. Qed.

(** ** Sets of lines *)

Definition in_span (s : LineSpan) (x : N) : Prop := (start s <= x < end_ s)%N.
Definition line_in (c : list LineSpan) (x : N) : Prop := Exists (λ s, in_span s x) c.
Definition nonempty (s : LineSpan) : Prop := (start s < end_ s)%N.
(** Sorted, not empty, and not touching: the one representation of a set of lines. *)
Fixpoint gapped (lo : N) (c : list LineSpan) : Prop :=
  match c with
  | [] => True
  | s :: c => (lo <= start s)%N ∧ nonempty s ∧ gapped (end_ s + 1) c
  end.

Lemma line_in_app a b x : line_in (a ++ b) x ↔ line_in a x ∨ line_in b x.
Proof. apply Exists_app. Qed.
Lemma line_in_cons s c x : line_in (s :: c) x ↔ in_span s x ∨ line_in c x.
Proof. apply Exists_cons. Qed.
Lemma line_in_nil x : ¬ line_in [] x.
Proof. inversion 1. Qed.
Lemma gapped_nonempty lo c : gapped lo c → Forall nonempty c.
Proof. revert lo. induction c as [|s c IH]; intros lo; [done|]. intros (_&?&?). constructor; eauto. Qed.
Lemma gapped_replace_last lo pre l l' :
  gapped lo (pre ++ [l]) → start l' = start l → nonempty l' → gapped lo (pre ++ [l']).
Proof. revert lo. induction pre as [|s pre IH]; intros lo; simpl; [intros (?&_&_) ->; done|]. naive_solver. Qed.
Lemma gapped_append lo pre l s :
  gapped lo (pre ++ [l]) → (end_ l < start s)%N → nonempty s → gapped lo ((pre ++ [l]) ++ [s]).
Proof. revert lo. induction pre as [|t pre IH]; intros lo; simpl; [intros (?&?&_) ??; split_and!; try done; lia|]. naive_solver. Qed.

Lemma merge_fold rest pre l lo :
  gapped lo (pre ++ [l]) → Forall nonempty rest → StronglySorted span_le (l :: rest) →
  let r := foldl merge_step (pre ++ [l]) rest in
  gapped lo r ∧ ∀ x, line_in r x ↔ line_in (pre ++ [l]) x ∨ line_in rest x.
Proof.
  revert pre l. induction rest as [|s rest IH]; intros pre l Hg Hne Hs; cbn zeta.
  { simpl. split; [done|]. intros x. pose proof (line_in_nil x). tauto. }
  cbn [foldl]. unfold merge_step at 2 4. rewrite last_snoc, removelast_last.
  apply Forall_cons in Hne as [Hn Hne]. apply StronglySorted_inv in Hs as [Hs Hl].
  pose proof (Forall_inv Hl) as Hls. apply Forall_inv_tail in Hl.
  pose proof Hs as Hs'. apply StronglySorted_inv in Hs' as [Hrest Hsr].
  assert (Hnl : nonempty l) by (apply gapped_nonempty, Forall_app in Hg as [_ Hg]; by apply Forall_inv in Hg).
  unfold nonempty, span_le in *. destruct (N.leb_spec (start s) (end_ l)) as [Hle|Hgt].
  - set (m := mkSpan (start l) (N.max (end_ l) (end_ s))).
    destruct (IH pre m) as [Hr Hin]; [|done| |].
    + eapply gapped_replace_last; [exact Hg|done|]. unfold nonempty. simpl. lia.
    + constructor; [done|]. rewrite Forall_forall in *. intros t Ht. specialize (Hl t Ht). specialize (Hsr t Ht).
      simpl in *. lia.
    + split; [done|]. intros x. rewrite Hin, !line_in_app, !line_in_cons. unfold in_span. simpl.
      pose proof (line_in_nil x). destruct (N.le_gt_cases (start s) x), (N.le_gt_cases (end_ l) x); intuition lia.
  - rewrite <-app_assoc. cbn [app]. change (pre ++ [l; s]) with (pre ++ ([l] ++ [s])). rewrite app_assoc.
    destruct (IH (pre ++ [l]) s) as [Hr Hin]; [by apply gapped_append|done|done|].
    split; [done|]. intros x. rewrite Hin, !line_in_app, !line_in_cons. pose proof (line_in_nil x). tauto.
Qed.

#[export] Instance span_le_trans : Transitive span_le.
Proof. intros a b c. unfold span_le. lia. Qed.
#[export] Instance span_le_total : Total span_le.
Proof. intros a b. unfold span_le. lia. Qed.
Lemma line_in_permutation a b x : a ≡ₚ b → line_in a x ↔ line_in b x.
Proof. intros H. unfold line_in. by rewrite H. Qed.

(** Merging a span adds exactly its lines. *)
Lemma merge_spans_spec c s :
  gapped 0 c → gapped 0 (merge_spans c s) ∧ ∀ x, line_in (merge_spans c s) x ↔ line_in c x ∨ in_span s x.
Proof.
  intros Hc. unfold merge_spans. destruct (N.leb_spec (end_ s) (start s)) as [Hle|Hlt].
  { split; [done|]. intros x. unfold in_span. split; [tauto|]. intros [?|?]; [done|lia]. }
  pose proof (merge_sort_Permutation span_le (c ++ [s])) as Hperm.
  assert (Hsort : StronglySorted span_le (merge_sort span_le (c ++ [s]))) by (apply StronglySorted_merge_sort; apply _).
  assert (Hne : Forall nonempty (merge_sort span_le (c ++ [s]))).
  { rewrite Hperm. apply Forall_app. split; [by eapply gapped_nonempty|]. by constructor. }
  assert (Hx : ∀ x, line_in (merge_sort span_le (c ++ [s])) x ↔ line_in c x ∨ in_span s x).
  { intros x. rewrite (line_in_permutation _ _ x Hperm), line_in_app, line_in_cons. pose proof (line_in_nil x). tauto. }
  destruct (merge_sort span_le (c ++ [s])) as [|a rest].
  { apply Permutation_nil in Hperm. by apply app_eq_nil in Hperm as [_ ?]. }
  apply Forall_cons in Hne as [Ha Hne]. cbn [foldl]. change (merge_step [] a) with ([] ++ [a]).
  destruct (merge_fold rest [] a 0) as [Hg Hin]; [|done|done|].
  { simpl. split_and!; [lia|done|done]. }
  split; [done|]. intros x. rewrite Hin, <-Hx, line_in_app, !line_in_cons. pose proof (line_in_nil x). tauto.
Qed.

Lemma gapped_mono lo lo' c : (lo <= lo')%N → gapped lo' c → gapped lo c.
Proof. destruct c as [|s c]; intros Hle; simpl; [done|]. intros (?&?&?). split_and!; try done. lia. Qed.
Lemma gapped_after lo c x : gapped lo c → line_in c x → (lo <= x)%N.
Proof.
  revert lo. induction c as [|s c IH]; intros lo Hg Hx; [by apply line_in_nil in Hx|].
  destruct Hg as (?&Hs&Hg). apply line_in_cons in Hx as [[? _]|Hx]; [lia|]. specialize (IH _ Hg Hx).
  unfold nonempty in Hs. lia.
Qed.
(** Two spans of a gapped list are equal or apart. *)
Lemma gapped_apart lo c a b :
  gapped lo c → a ∈ c → b ∈ c → a = b ∨ (end_ a < start b)%N ∨ (end_ b < start a)%N.
Proof.
  revert lo. induction c as [|s c IH]; intros lo; [intros _ Hin; by apply elem_of_nil in Hin|].
  intros (_&_&Hg). assert (Hafter : ∀ t, t ∈ c → (end_ s < start t)%N).
  { intros t Ht. assert (Hx : line_in c (start t)).
    { apply Exists_exists. exists t. split; [done|]. pose proof (proj1 (Forall_forall _ _) (gapped_nonempty _ _ Hg) t Ht).
      unfold in_span, nonempty in *. simpl in *. lia. }
    apply (gapped_after _ _ _ Hg) in Hx. lia. }
  intros [->|Ha]%elem_of_cons [->|Hb]%elem_of_cons; [by left| | |by eapply IH]; right; auto.
Qed.
Lemma existsb_contains lo c s :
  gapped lo c → nonempty s → existsb (λ have, contains have s) c = true ↔ ∀ x, in_span s x → line_in c x.
Proof.
  intros Hg Hs. rewrite existsb_exists. setoid_rewrite <-list_elem_of_In. unfold contains.
  setoid_rewrite andb_true_iff. setoid_rewrite N.leb_le. unfold nonempty, in_span in *. split.
  - intros (h&Hh&?&?) x Hx. apply Exists_exists. exists h. unfold in_span. split; [done|lia].
  - intros H. pose proof (H (start s) ltac:(lia)) as Hstart. apply Exists_exists in Hstart as (h&Hh&Hs1&Hs2).
    exists h. split_and!; [done|done|]. destruct (N.le_gt_cases (end_ s) (end_ h)) as [|Hgt]; [done|exfalso].
    pose proof (H (end_ h) ltac:(lia)) as Hend. apply Exists_exists in Hend as (h2&Hh2&He1&He2).
    destruct (gapped_apart _ _ _ _ Hg Hh Hh2) as [->|[?|?]]; lia.
Qed.

(** The unread ranges are the other lines. *)
Lemma unread_loop_spec c cursor total :
  gapped cursor c → Forall (λ s, (end_ s <= total)%N) c →
  gapped cursor (unread_loop cursor c total) ∧
  ∀ x, line_in (unread_loop cursor c total) x ↔ (cursor <= x < total)%N ∧ ¬ line_in c x.
Proof.
  revert cursor. induction c as [|s c IH]; intros cursor Hg Hle; cbn [unread_loop].
  - destruct (N.ltb_spec cursor total).
    + split; [by simpl; unfold nonempty|]. intros x. rewrite line_in_cons. unfold in_span. simpl.
      pose proof (line_in_nil x). tauto.
    + split; [done|]. intros x. pose proof (line_in_nil x). split; [done|]. intros [? _]. lia.
  - apply Forall_cons in Hle as [Hs Hle]. destruct Hg as (Hcur&Hne&Hg). unfold nonempty in Hne.
    rewrite N.max_r by lia. destruct (IH (end_ s)) as [Hr Hin]; [by eapply gapped_mono, Hg; lia|done|]. split.
    + destruct (N.ltb_spec cursor (start s)); [|by eapply gapped_mono, Hr; lia].
      simpl. split_and!; [lia|done|]. eapply gapped_mono, Hr. simpl. lia.
    + intros x. rewrite line_in_app, Hin, line_in_cons. unfold in_span.
      assert (Hafter : line_in c x → (end_ s < x)%N) by (intros Hx; apply (gapped_after _ _ _ Hg) in Hx; lia).
      assert (Hpiece : line_in (if (cursor <? start s)%N then [mkSpan cursor (start s)] else []) x
        ↔ (cursor <= x < start s)%N).
      { destruct (N.ltb_spec cursor (start s)); rewrite ?line_in_cons; unfold in_span; simpl;
          pose proof (line_in_nil x); [tauto|]. split; [done|lia]. }
      rewrite Hpiece. destruct (N.lt_ge_cases x (end_ s)) as [Hlt|Hge].
      * assert (¬ line_in c x) by (intros Hx; specialize (Hafter Hx); lia).
        destruct (N.lt_ge_cases x (start s)); intuition lia.
      * intuition lia.
Qed.

(** ** The set *)

Definition entry_ok (e : WorkingSetEntry) : Prop :=
  gapped 0 (covered e) ∧
  match total_lines e with
  | Some total => Forall (λ s, (end_ s <= total)%N) (covered e)
  | None => covered e = []
  end.
Definition ws_ok (ws : WorkingSet) : Prop := map_Forall (λ _, entry_ok) ws.

Inductive ws_op :=
| OpReset
| OpForget (p : bytes)
| OpRead (p : bytes) (offset limit total : N) (mtime : option N)
| OpEdit (p : bytes) (anchor : option bytes).
Definition ws_apply (ws : WorkingSet) (op : ws_op) : WorkingSet :=
  match op with
  | OpReset => ws_reset ws
  | OpForget p => forget_reads ws p
  | OpRead p offset limit total mtime => record_read ws p offset limit total mtime
  | OpEdit p anchor => record_edit ws p anchor
  end.
Definition ws_run (ops : list ws_op) : WorkingSet := foldl ws_apply ∅ ops.

(** The lines known of a file, and what one operation makes of them. *)
Definition knows (ws : WorkingSet) (key : bytes) (x : N) : Prop :=
  ∃ e, ws !! key = Some e ∧ line_in (covered e) x.
Definition knows_after (ws : WorkingSet) (op : ws_op) (key : bytes) (x : N) : Prop :=
  match op with
  | OpReset => False
  | OpForget p => knows ws key x ∧ key ≠ normalize_read_path p
  | OpRead p offset limit total _ =>
      knows ws key x ∨ key = normalize_read_path p ∧ in_span (from_offset_limit offset limit total) x
  | OpEdit _ _ => knows ws key x
  end.

Lemma from_offset_limit_end offset limit total : (end_ (from_offset_limit offset limit total) <= total)%N.
Proof. simpl. lia. Qed.
Lemma forall_end_lines c t : gapped 0 c → Forall (λ s, (end_ s <= t)%N) c ↔ ∀ x, line_in c x → (x < t)%N.
Proof.
  intros Hg%gapped_nonempty. rewrite Forall_forall. split.
  - intros H x Hx. apply Exists_exists in Hx as (s&Hs&_&?). specialize (H s Hs). simpl in H. lia.
  - intros H s Hs. rewrite Forall_forall in Hg. specialize (Hg s Hs). unfold nonempty in Hg.
    assert (line_in c (end_ s - 1)%N) as Hx%H by (apply Exists_exists; exists s; unfold in_span; split; [done|lia]). lia.
Qed.
Lemma entry_default e0 ws key : entry_ok e0 → ws_ok ws → entry_ok (default e0 (ws !! key)).
Proof. intros H0 Hws. destruct (ws !! key) as [e|] eqn:He; [|done]. exact (Hws _ _ He). Qed.
Lemma ws_apply_ok ws op : ws_ok ws → ws_ok (ws_apply ws op).
Proof.
  intros Hws. destruct op as [|p|p offset limit total mtime|p anchor]; simpl.
  - apply map_Forall_empty.
  - unfold forget_reads. destruct (ws !! normalize_read_path p) as [e|] eqn:He; [|done]. case_match.
    + by apply map_Forall_delete.
    + apply map_Forall_insert_2; [|done]. by split.
  - unfold record_read. apply map_Forall_insert_2; [|done].
    set (e := default _ _). assert (entry_ok e) as [Hg Ht] by (apply entry_default; [by split; [|constructor]|done]).
    pose proof (merge_spans_spec (covered e) (from_offset_limit offset limit total) Hg) as [Hg' Hin].
    split; [exact Hg'|]. cbn [total_lines merge_span]. apply forall_end_lines; [exact Hg'|]. intros x Hx%Hin.
    pose proof (from_offset_limit_end offset limit total).
    destruct Hx as [Hx|[_ ?]]; [|lia]. destruct (total_lines e) as [t|]; simpl.
    + pose proof (proj1 (forall_end_lines _ t Hg) Ht x Hx). lia.
    + rewrite Ht in Hx. by apply line_in_nil in Hx.
  - unfold record_edit. apply map_Forall_insert_2; [|done].
    set (e := default _ _). assert (entry_ok e) as [Hg Ht] by (apply entry_default; [by split|done]). by split.
Qed.
Lemma ws_run_ok ops : ws_ok (ws_run ops).
Proof.
  unfold ws_run. assert (H : ∀ ws, ws_ok ws → ws_ok (foldl ws_apply ws ops)).
  { induction ops as [|op ops IH]; intros ws Hws; [done|]. simpl. by apply IH, ws_apply_ok. }
  apply H, map_Forall_empty.
Qed.
Lemma knows_insert ws k e key x :
  knows (<[k := e]> ws) key x ↔ (key = k ∧ line_in (covered e) x) ∨ (key ≠ k ∧ knows ws key x).
Proof.
  unfold knows. destruct (decide (key = k)) as [->|Hne].
  - rewrite lookup_insert_eq. naive_solver.
  - rewrite lookup_insert_ne by done. naive_solver.
Qed.
Lemma knows_delete ws k key x : knows (delete k ws) key x ↔ key ≠ k ∧ knows ws key x.
Proof.
  unfold knows. destruct (decide (key = k)) as [->|Hne].
  - rewrite lookup_delete_eq. naive_solver.
  - rewrite lookup_delete_ne by done. naive_solver.
Qed.
Lemma line_in_default e0 ws key x : covered e0 = [] → line_in (covered (default e0 (ws !! key))) x ↔ knows ws key x.
Proof.
  intros H0. unfold knows. destruct (ws !! key) as [e|]; simpl; [naive_solver|]. rewrite H0.
  pose proof (line_in_nil x). naive_solver.
Qed.
Lemma ws_apply_knows ws op key x : ws_ok ws → knows (ws_apply ws op) key x ↔ knows_after ws op key x.
Proof.
  intros Hws. destruct op as [|p|p offset limit total mtime|p anchor]; simpl.
  - unfold knows. setoid_rewrite lookup_empty. naive_solver.
  - unfold forget_reads. destruct (ws !! normalize_read_path p) as [e|] eqn:He.
    + case_match; [rewrite knows_delete; tauto|]. rewrite knows_insert. cbn [covered]. pose proof (line_in_nil x). tauto.
    + split; [|tauto]. intros Hk. split; [done|]. intros ->. destruct Hk as (e&He'&_). congruence.
  - unfold record_read. rewrite knows_insert. set (e := default _ _).
    assert (entry_ok e) as [Hg _] by (apply entry_default; [by split; [|constructor]|done]).
    cbn [covered merge_span]. rewrite (proj2 (merge_spans_spec _ _ Hg)). unfold e. rewrite line_in_default by done.
    destruct (decide (key = normalize_read_path p)); naive_solver.
  - unfold record_edit. rewrite knows_insert. cbn [covered]. rewrite line_in_default by done.
    destruct (decide (key = normalize_read_path p)); naive_solver.
Qed.

(** ** Properties *)

Definition mtime_agrees (ws : WorkingSet) (key : bytes) (mtime : option N) : Prop :=
  ∀ e have now, ws !! key = Some e → mtime_ms e = Some have → mtime = Some now → have = now.
(** The working set is exact.  After any operations, each operation changes
    the set of known lines of each file just as it should; a range that is not
    empty is reported covered exactly when every line of it is known (through any
    merging of spans) and the modification times do not disagree; and the unread
    ranges of a file are exactly its other lines, in sorted, separate spans like
    the covered ones. *)
Theorem working_set_exact ops op key :
  let ws := ws_run ops in
  (∀ x, knows (ws_run (ops ++ [op])) key x ↔ knows_after ws op key x) ∧
  (∀ p offset limit total mtime,
     let span := from_offset_limit offset limit total in
     nonempty span →
     covers_range ws p offset limit total mtime = true ↔
     mtime_agrees ws (normalize_read_path p) mtime ∧ ∀ x, in_span span x → knows ws (normalize_read_path p) x) ∧
  (∀ e total, ws !! key = Some e → total_lines e = Some total →
     gapped 0 (covered e) ∧ gapped 0 (unread_ranges e) ∧
     ∀ x, line_in (unread_ranges e) x ↔ (x < total)%N ∧ ¬ knows ws key x).
Proof.
  intros ws. pose proof (ws_run_ok ops : ws_ok ws) as Hws. split_and!.
  - intros x. unfold ws_run. rewrite foldl_app. by apply ws_apply_knows.
  - intros p offset limit total mtime span Hspan. unfold covers_range, mtime_agrees, knows.
    destruct (ws !! normalize_read_path p) as [e|] eqn:He.
    2:{ split; [done|]. intros [_ H]. destruct (H (start span)) as (?&?&_); [unfold in_span, nonempty in *; lia|done]. }
    destruct (Hws _ _ He) as [Hg _]. fold span.
    assert (Hc : existsb (λ have, contains have span) (covered e) = true ↔
      ∀ x, in_span span x → ∃ e', Some e = Some e' ∧ line_in (covered e') x).
    { rewrite existsb_contains by done. split; intros H x Hx; [exists e; auto|]. by destruct (H x Hx) as (?&[= <-]&?). }
    unfold covers. destruct (mtime_ms e) as [have|] eqn:Hh, mtime as [now|]; rewrite ?Hc;
      [|split; [|tauto]; intros; split; [naive_solver|done]..].
    destruct (N.eqb_spec have now) as [->|Hne]; simpl.
    + rewrite Hc. split; [|tauto]. intros; split; [|done]. intros; by simplify_eq.
    + split; [done|]. intros [H _]. by specialize (H _ _ _ eq_refl Hh eq_refl).
  - intros e total He Ht. destruct (Hws _ _ He) as [Hg Hle]. rewrite Ht in Hle.
    assert (Hk : ∀ x, knows ws key x ↔ line_in (covered e) x) by (intros x; unfold knows; naive_solver).
    destruct (unread_loop_spec (covered e) 0 total Hg Hle) as [Hu Hin]. unfold unread_ranges. rewrite Ht.
    destruct (N.ltb_spec 0 total) as [|H0].
    + split_and!; [done..|]. intros x. rewrite Hin, Hk. intuition lia.
    + split_and!; [done..|]. intros x. pose proof (line_in_nil x). split; [done|]. lia.
Qed.

(** Coverage outlives a change of the file.  When the modification time differs
    from the recorded one, a covered range is rightly reported as not covered; but
    any later read at the new time, even of no line at all, adopts the new time for
    the whole entry, and lines seen only in the old version count as covered
    again. *)
Theorem working_set_stale_coverage ws p offset limit total e old new q offset' total' :
  ws !! normalize_read_path p = Some e → mtime_ms e = Some old → old ≠ new →
  covers_range ws p offset limit total (Some old) = true →
  normalize_read_path q = normalize_read_path p →
  covers_range ws p offset limit total (Some new) = false ∧
  covers_range (record_read ws q offset' 0 total' (Some new)) p offset limit total (Some new) = true.
Proof.
  intros He Hold Hne Hcov Hq. unfold covers_range, record_read in *. rewrite Hq, lookup_insert_eq. rewrite He in *.
  unfold covers in *. rewrite Hold in *. cbn [mtime_ms merge_span option_or covered default]. rewrite !N.eqb_refl in *.
  simpl in Hcov. cbn [negb]. split; [by rewrite (proj2 (N.eqb_neq _ _) Hne)|].
  unfold merge_spans. rewrite (proj2 (N.leb_le _ _)); [done|]. simpl. unfold u64_sat_add. lia.
Qed.

(** ** Witnesses *)

Definition demo_ws : WorkingSet := ws_run [OpRead (as_bytes "a.rs") 0 20 40 (Some 1%N)].
Lemma working_set_exact_witness : knows demo_ws (as_bytes "a.rs") 7.
Proof.
  assert (H : covers_range demo_ws (as_bytes "A.rs") 0 20 40 (Some 1%N) = true) by (vm_compute; reflexivity).
  exact (proj2 (proj1 (proj1 (proj2 (working_set_exact [OpRead (as_bytes "a.rs") 0 20 40 (Some 1%N)] OpReset []))
    (as_bytes "A.rs") 0%N 20%N 40%N (Some 1%N) ltac:(reflexivity)) H) 7%N ltac:(done)).
Defined.
Lemma working_set_stale_coverage_witness :
  covers_range (record_read demo_ws (as_bytes "./a.rs") 39 0 40 (Some 2%N)) (as_bytes "A.rs") 0 20 40 (Some 2%N) = true.
Proof.
  refine (proj2 (working_set_stale_coverage demo_ws (as_bytes "A.rs") 0 20 40
    (mkEntry (as_bytes "a.rs") (Some 1%N) [mkSpan 0 20] None false (Some 40%N)) 1 2 (as_bytes "./a.rs") 39 40 _ _ _ _ _)).
  - vm_compute. reflexivity.
  - reflexivity.
  - done.
  - vm_compute. reflexivity.
  - vm_compute. reflexivity.
Defined.
