(* ===== verification/LoopGuard.v ===== *)
(** The stagnation guard of the agent loop (agent/nomi-agent/src/loop_guard.rs):
    structural hashes of JSON values, signatures of tool turns, and the counters that
    nudge and then abort a session that makes no progress.  The standard hasher is a
    function [finish] of the bytes written to it. *)
From S2P Require Import Prelude Utf8 Bytes Json ProcessFrames.

(** Sorting entries by key; the keys of a map are distinct, so any sort agrees. *)
Fixpoint insert_entry {A} (e : bytes * A) (l : list (bytes * A)) : list (bytes * A) :=
  match l with
  | [] => [e]
  | e' :: l' => if bytes_leb e.1 e'.1 then e :: l else e' :: insert_entry e l'
  end.
Definition sort_entries {A} (l : list (bytes * A)) : list (bytes * A) := foldr insert_entry [] l.

(** ** What is written to the hasher *)

Definition le_bytes (n : nat) (x : N) : bytes := rev (to_be_bytes n x).
Definition write_u64 (x : N) : bytes := le_bytes 8 x.
Definition write_i64 (z : Z) : bytes := le_bytes 8 (Z.to_N (z mod 18446744073709551616)).
Definition write_len {A} (l : list A) : bytes := write_u64 (N.of_nat (length l)).
Definition write_bool (b : bool) : bytes := [u8 (if b then 1 else 0)].
(** [str]: its bytes, then 0xFF. *)
Definition write_str (s : bytes) : bytes := s ++ [u8 255].

Section hashing.
Context {Num : Type} (as_i64 : Num → option Z) (as_u64 : Num → option N) (f64_bits : Num → option N).
Context (finish : bytes → N).

Definition hash_number (n : Num) : bytes :=
  match as_i64 n with
  | Some integer => u8 0 :: write_i64 integer
  | None =>
      match as_u64 n with
      | Some unsigned => u8 1 :: write_u64 unsigned
      | None => match f64_bits n with Some bits => u8 2 :: write_u64 bits | None => [] end
      end
  end.
(** The entries are hashed before they are sorted by key, which commutes. *)
Fixpoint hash_json (v : Value Num) : bytes :=
  match v with
  | Null => [u8 0]
  | Bool flag => u8 1 :: write_bool flag
  | Number number => u8 2 :: hash_number number
  | Str text => u8 3 :: write_str text
  | Array items => u8 4 :: write_len items ++ concat (hash_json <$> items)
  | Object map =>
      u8 5 :: write_len map
      ++ concat ((λ kh, write_str kh.1 ++ kh.2) <$> sort_entries ((λ kv, (kv.1, hash_json kv.2)) <$> map))
  end.
Definition call_signature (name : bytes) (input : Value Num) : N := finish (write_str name ++ hash_json input).
Definition fold_signatures (signatures : list N) : N :=
  finish (write_len signatures ++ concat (write_u64 <$> signatures)).
Definition sort_unstable (l : list N) : list N := merge_sort N.le l.

(** ** Turns *)

Inductive ContentBlock :=
| ToolUse (id name : bytes) (input : Value Num)
| ToolResult (tool_use_id content : bytes) (is_error : bool) (images : list (bytes * bytes))
| OtherBlock.
Definition tool_calls_signature (tool_calls : list ContentBlock) : option N :=
  let signatures :=
    omap (λ c, match c with ToolUse _ name input => Some (call_signature name input) | _ => None end) tool_calls in
  match signatures with
  | [] => None
  | _ => Some (fold_signatures (sort_unstable signatures))
  end.
Definition result_hash (content : bytes) (is_error : bool) (images : list (bytes * bytes)) : N :=
  finish (write_bool is_error ++ write_str content
          ++ concat ((λ i, write_str i.1 ++ write_str i.2) <$> images)).
Definition collect_result (m : gmap bytes (list N)) (block : ContentBlock) : gmap bytes (list N) :=
  match block with
  | ToolResult id content is_error images =>
      <[id := default [] (m !! id) ++ [result_hash content is_error images]]> m
  | _ => m
  end.
Definition paired_signature (m : gmap bytes (list N)) (tracked : bytes * N) : N :=
  finish (write_u64 tracked.2
          ++ match m !! tracked.1 with
             | Some hashes => write_bool true ++ write_len hashes ++ concat (write_u64 <$> hashes)
             | None => write_bool false
             end).
Definition tracked_call (should_track : bytes → bytes → Value Num → bool) (c : ContentBlock) : option (bytes * N) :=
  match c with
  | ToolUse id name input => if should_track id name input then Some (id, call_signature name input) else None
  | _ => None
  end.
Definition tool_outcome_signature_filtered (should_track : bytes → bytes → Value Num → bool)
    (tool_calls tool_results : list ContentBlock) : option N :=
  match omap (tracked_call should_track) tool_calls with
  | [] => None
  | tracked_calls =>
      let result_hashes_by_id := sort_unstable <$> foldl collect_result ∅ tool_results in
      Some (fold_signatures (sort_unstable (paired_signature result_hashes_by_id <$> tracked_calls)))
  end.
Definition tool_outcome_signature (tool_calls tool_results : list ContentBlock) : option N :=
  tool_outcome_signature_filtered (λ _ _ _, true) tool_calls tool_results.
Fixpoint all_failed_loop (saw_result : bool) (tool_results : list ContentBlock) : bool :=
  match tool_results with
  | [] => saw_result
  | ToolResult _ _ is_error _ :: rest => if negb is_error then false else all_failed_loop true rest
  | _ :: rest => all_failed_loop saw_result rest
  end.
Definition all_tool_results_failed (tool_results : list ContentBlock) : bool := all_failed_loop false tool_results.
End hashing.

(** ** The guard *)

Inductive StagnationAction := Continue | Nudge | AbortLoop.
#[export] Instance StagnationAction_eq_dec : EqDecision StagnationAction.
Proof. solve_decision. Defined.
Record StagnationGuard := mkGuard {
  nudge_threshold : N;
  abort_threshold : N;
  last_sig : option N;
  repeats : N;
  consecutive_failures : N;
}.
Definition guard_new (nudge : N) : StagnationGuard :=
  let nudge := N.max nudge 2 in mkGuard nudge (u64_sat_mul nudge 2) None 0 0.
Definition guard_reset (g : StagnationGuard) : StagnationGuard :=
  mkGuard (nudge_threshold g) (abort_threshold g) None 0 0.
Definition action_for (g : StagnationGuard) (count : N) : StagnationAction :=
  if (abort_threshold g <=? count)%N then AbortLoop
  else if (count =? nudge_threshold g)%N then Nudge else Continue.
Definition observe (g : StagnationGuard) (signature : option N) (all_failed : bool) :
    StagnationGuard * StagnationAction :=
  let '(last_sig, repeats, repeated_outcome_action) :=
    match signature with
    | Some sig =>
        let repeats := if bool_decide (last_sig g = Some sig) then (repeats g + 1)%N else 1%N in
        (Some sig, repeats, action_for g repeats)
    | None => (None, 0%N, Continue)
    end in
  let '(failures, failed_outcome_action) :=
    if all_failed then ((consecutive_failures g + 1)%N, action_for g (consecutive_failures g + 1))
    else (0%N, Continue) in
  (mkGuard (nudge_threshold g) (abort_threshold g) last_sig repeats failures,
   if all_failed then failed_outcome_action else repeated_outcome_action).

(** ** Sorting entries *)

Lemma insert_entry_fmap {A B} (f : A → B) e l :
  insert_entry (e.1, f e.2) ((λ kv, (kv.1, f kv.2)) <$> l) = (λ kv, (kv.1, f kv.2)) <$> insert_entry e l.
Proof.
  induction l as [|e' l IH]; simpl; [done|]. destruct (bytes_leb e.1 e'.1); [done|].
  rewrite fmap_cons. f_equal. apply IH.
Qed.
Lemma sort_entries_fmap {A B} (f : A → B) l :
  sort_entries ((λ kv, (kv.1, f kv.2)) <$> l) = (λ kv, (kv.1, f kv.2)) <$> sort_entries l.
Proof.
  induction l as [|e l IH]; [done|]. rewrite fmap_cons. unfold sort_entries in *. cbn [foldr]. rewrite IH.
  apply insert_entry_fmap.
Qed.
Lemma insert_entry_Permutation {A} (e : bytes * A) l : insert_entry e l ≡ₚ e :: l.
Proof. induction l as [|e' l IH]; simpl; [done|]. case_match; [done|]. rewrite IH. apply Permutation_swap. Qed.
Lemma sort_entries_Permutation {A} (l : list (bytes * A)) : sort_entries l ≡ₚ l.
Proof. induction l as [|e l IH]; simpl; [done|]. by rewrite insert_entry_Permutation, IH. Qed.
Lemma bytes_leb_total a b : bytes_leb a b = true ∨ bytes_leb b a = true.
Proof.
  revert b. induction a as [|x a IH]; intros [|y b]; cbn [bytes_leb]; auto.
  rewrite (N.eqb_sym (byte y)). destruct (N.eqb_spec (byte x) (byte y)); [apply IH|]. rewrite !N.ltb_lt. lia.
Qed.
Lemma bytes_leb_trans a b c : bytes_leb a b = true → bytes_leb b c = true → bytes_leb a c = true.
Proof.
  revert b c. induction a as [|x a IH]; intros [|y b] [|z c]; cbn [bytes_leb]; try done.
  destruct (N.eqb_spec (byte x) (byte y)), (N.eqb_spec (byte y) (byte z)), (N.eqb_spec (byte x) (byte z));
    rewrite ?N.ltb_lt; intros H1 H2; try (by eapply IH); lia.
Qed.
Lemma bytes_leb_antisym a b : bytes_leb a b = true → bytes_leb b a = true → a = b.
Proof.
  revert b. induction a as [|x a IH]; intros [|y b]; cbn [bytes_leb]; try done. rewrite (N.eqb_sym (byte y)).
  destruct (N.eqb_spec (byte x) (byte y)) as [E%byte_inj|]; [subst; intros; f_equal; auto|]. rewrite !N.ltb_lt. lia.
Qed.
(** The order of entries with distinct keys does not matter. *)
Lemma insert_entry_comm {A} (a b : bytes * A) l :
  a.1 ≠ b.1 → insert_entry a (insert_entry b l) = insert_entry b (insert_entry a l).
Proof.
  intros Hne. induction l as [|e l IH]; simpl.
  - destruct (bytes_leb a.1 b.1) eqn:Hab, (bytes_leb b.1 a.1) eqn:Hba; try done.
    + by destruct Hne; apply bytes_leb_antisym.
    + destruct (bytes_leb_total a.1 b.1); congruence.
  - destruct (bytes_leb b.1 e.1) eqn:Hbe, (bytes_leb a.1 e.1) eqn:Hae; simpl; rewrite ?Hbe, ?Hae.
    + destruct (bytes_leb a.1 b.1) eqn:Hab, (bytes_leb b.1 a.1) eqn:Hba; simpl; rewrite ?Hbe, ?Hae; try done.
      * by destruct Hne; apply bytes_leb_antisym.
      * destruct (bytes_leb_total a.1 b.1); congruence.
    + destruct (bytes_leb a.1 b.1) eqn:Hab; [|done].
      rewrite (bytes_leb_trans _ _ _ Hab Hbe) in Hae. done.
    + destruct (bytes_leb b.1 a.1) eqn:Hba; [|done].
      rewrite (bytes_leb_trans _ _ _ Hba Hae) in Hbe. done.
    + by rewrite IH.
Qed.
Lemma sort_entries_perm {A} (l l' : list (bytes * A)) :
  NoDup l.*1 → l ≡ₚ l' → sort_entries l = sort_entries l'.
Proof.
  intros Hnd H. induction H as [|e l l' Hl IH|a b l|l l' l'' H1 IH1 H2 IH2]; simpl in *; [done| | |].
  - apply NoDup_cons in Hnd as [_ Hnd]. by rewrite IH.
  - apply insert_entry_comm. apply NoDup_cons in Hnd as [Hb _]. set_solver.
  - rewrite IH1 by done. apply IH2. by rewrite <-H1.
Qed.

(** ** Framing *)

Lemma le_bytes_inj n x y : (x < 256 ^ N.of_nat n)%N → (y < 256 ^ N.of_nat n)%N → le_bytes n x = le_bytes n y → x = y.
Proof.
  unfold le_bytes. intros Hx Hy H. apply (f_equal (@rev _)) in H. rewrite !rev_involutive in H.
  apply (f_equal from_be_bytes) in H. by rewrite !from_to_be_bytes in H.
Qed.
Lemma length_le_bytes n x : length (le_bytes n x) = n.
Proof. unfold le_bytes. by rewrite length_rev, length_to_be_bytes. Qed.
Lemma app_inj_same {A} (a b r s : list A) : length a = length b → a ++ r = b ++ s → a = b ∧ r = s.
Proof. intros Hl H. by apply app_inj_1 in H. Qed.
Lemma write_u64_inj x y r s : is_u64 x → is_u64 y → write_u64 x ++ r = write_u64 y ++ s → x = y ∧ r = s.
Proof.
  intros Hx Hy H. apply app_inj_same in H as [H ->]; [|by unfold write_u64; rewrite !length_le_bytes]. split; [|done].
  unfold is_u64, u64_max in *. apply (le_bytes_inj 8); [simpl; lia..|done].
Qed.
Definition is_i64 (z : Z) : Prop := (i64_min <= z <= i64_max)%Z.
Lemma write_i64_inj x y r s : is_i64 x → is_i64 y → write_i64 x ++ r = write_i64 y ++ s → x = y ∧ r = s.
Proof.
  intros Hx Hy H. unfold write_i64 in H.
  pose proof (Z.mod_pos_bound x 18446744073709551616 ltac:(lia)) as Hmx.
  pose proof (Z.mod_pos_bound y 18446744073709551616 ltac:(lia)) as Hmy.
  apply (write_u64_inj _ _ r s) in H as [H ->]; [|unfold is_u64, u64_max; lia..].
  split; [|done]. apply Z2N.inj in H; [|lia..]. unfold is_i64, i64_min, i64_max in *.
  pose proof (Z.div_mod x 18446744073709551616 ltac:(lia)) as Hdx.
  pose proof (Z.div_mod y 18446744073709551616 ltac:(lia)) as Hdy. rewrite H in Hdx.
  revert Hdx Hdy Hmy. clear H Hmx.
  generalize (x / 18446744073709551616)%Z (y / 18446744073709551616)%Z (y mod 18446744073709551616)%Z. intros. lia.
Qed.
(** UTF-8 has no byte 0xFF, so the mark ends the string. *)
Definition no_ff (s : bytes) : Prop := Forall (λ b, (byte b < 255)%N) s.
Lemma write_str_inj a b r s : no_ff a → no_ff b → write_str a ++ r = write_str b ++ s → a = b ∧ r = s.
Proof.
  unfold write_str. intros Ha Hb H. rewrite <-!app_assoc in H. revert b Hb H.
  induction Ha as [|x a Hx Ha IH]; intros b Hb H; destruct Hb as [|y b Hy Hb]; simpl in H; simplify_eq; try done.
  destruct (IH b Hb) as [-> ->]; done.
Qed.
Lemma utf8_char_no_ff a l k : utf8_step a l = Utf8Char k → (byte a < 255)%N ∧ no_ff (take k l).
Proof.
  unfold utf8_step, utf8_char_width, no_ff. intros H.
  assert (Hc : ∀ b, is_cont b = true → (byte b < 255)%N) by (intros b Hb; apply byte_in_spec in Hb; lia).
  assert (Hs : ∀ b, second_ok a b = true → (byte b < 255)%N).
  { intros b. unfold second_ok. intros Hb. repeat case_match; try (apply byte_in_spec in Hb; lia); by apply Hc. }
  assert (Ha : (byte a < 255)%N).
  { repeat match type of H with context [byte_in ?x ?y a] => destruct (byte_in x y a) eqn:? end;
      try (match goal with Hi : byte_in _ _ a = true |- _ => apply byte_in_spec in Hi; lia end); done. }
  split; [done|]. repeat case_match; simplify_eq; cbn [take firstn]; rewrite ?negb_false_iff in *;
    repeat constructor; auto.
Qed.
Lemma utf8_no_ff l : from_utf8 l = None → no_ff l.
Proof.
  remember (length l) as n eqn:Hn. revert l Hn. induction (lt_wf n) as [n _ IH]. intros l -> H.
  destruct l as [|a l]; [constructor|]. rewrite from_utf8_equation_2 in H. unfold from_utf8_clause_2 in H.
  destruct (utf8_step a l) as [k| |] eqn:Hs; [|done..]. apply utf8_char_no_ff in Hs as [Ha Hk].
  constructor; [done|]. rewrite <-(take_drop k l). apply Forall_app. split; [done|].
  apply (IH (length (drop k l))); [rewrite length_drop; simpl; lia|done|]. simpl in H. unfold shift_error in H.
  by destruct (from_utf8 (drop k l)).
Qed.

(** ** Hashing is injective up to the order of object keys *)

Inductive NumView := ViewI64 (z : Z) | ViewU64 (n : N) | ViewF64 (bits : N).

Section injective.
Context {Num : Type} (as_i64 : Num → option Z) (as_u64 : Num → option N) (f64_bits : Num → option N).
#[local] Abbreviation hash_json := (hash_json as_i64 as_u64 f64_bits).
#[local] Abbreviation hash_number := (hash_number as_i64 as_u64 f64_bits).

(** What serde_json documents of a number: 64-bit accessors, one of which answers. *)
Definition num_ok (n : Num) : Prop :=
  (∀ z, as_i64 n = Some z → is_i64 z) ∧ (∀ u, as_u64 n = Some u → is_u64 u) ∧
  (∀ b, f64_bits n = Some b → is_u64 b) ∧ is_Some (f64_bits n).
Definition num_view (n : Num) : option NumView :=
  match as_i64 n with
  | Some z => Some (ViewI64 z)
  | None => match as_u64 n with Some u => Some (ViewU64 u) | None => ViewF64 <$> f64_bits n end
  end.
(** A value whose strings are UTF-8, whose sizes are machine sizes, and whose objects
    have distinct keys. *)
Fixpoint value_ok (v : Value Num) : Prop :=
  match v with
  | Null | Bool _ => True
  | Number n => num_ok n
  | Str s => no_ff s
  | Array l => is_u64 (N.of_nat (length l)) ∧
      (fix go l := match l with [] => True | v :: l => value_ok v ∧ go l end) l
  | Object m => is_u64 (N.of_nat (length m)) ∧ NoDup m.*1 ∧ Forall no_ff m.*1 ∧
      (fix go m := match m with [] => True | kv :: m => value_ok kv.2 ∧ go m end) m
  end.
Lemma value_ok_array l : value_ok (Array l) ↔ is_u64 (N.of_nat (length l)) ∧ Forall value_ok l.
Proof. simpl. apply and_iff_compat_l. induction l as [|v l IH]; [by split|]. rewrite Forall_cons. tauto. Qed.
Lemma value_ok_object m :
  value_ok (Object m) ↔ is_u64 (N.of_nat (length m)) ∧ NoDup m.*1 ∧ Forall no_ff m.*1 ∧ Forall (λ kv, value_ok kv.2) m.
Proof.
  simpl. do 3 apply and_iff_compat_l. induction m as [|v m IH]; [by split|]. rewrite Forall_cons. tauto.
Qed.

(** A value as JSON means it: numbers by their view, objects in key order. *)
Fixpoint norm (v : Value Num) : Value (option NumView) :=
  match v with
  | Null => Null
  | Bool b => Bool b
  | Number n => Number (num_view n)
  | Str s => Str s
  | Array l => Array (norm <$> l)
  | Object m => Object (sort_entries ((λ kv, (kv.1, norm kv.2)) <$> m))
  end.

Lemma cons_eq (a b : Ascii.ascii) (l k : bytes) : a :: l = b :: k → a = b ∧ l = k.
Proof. by intros [= -> ->]. Qed.
Lemma hash_number_inj n n' r s :
  num_ok n → num_ok n' → hash_number n ++ r = hash_number n' ++ s → num_view n = num_view n' ∧ r = s.
Proof.
  intros (Hi&Hu&Hf&Hs) (Hi'&Hu'&Hf'&Hs'). unfold LoopGuard.hash_number, num_view.
  destruct (as_i64 n) as [z|]; [|destruct (as_u64 n) as [u|]; [|destruct Hs as [b Hb]; rewrite Hb]];
  (destruct (as_i64 n') as [z'|]; [|destruct (as_u64 n') as [u'|]; [|destruct Hs' as [b' Hb']; rewrite Hb']]);
    cbn [app]; intros [Htag H]%cons_eq; try discriminate Htag.
  - apply write_i64_inj in H as [-> ->]; auto.
  - apply write_u64_inj in H as [-> ->]; auto.
  - apply write_u64_inj in H as [-> ->]; auto.
Qed.
(** Elements written one after the other can be told apart. *)
Lemma concat_inj {A B C} (enc : A → bytes) (enc' : B → bytes) (dec : A → C) (dec' : B → C) l l' r s :
  length l = length l' →
  Forall (λ x, ∀ y r s, y ∈ l' → enc x ++ r = enc' y ++ s → dec x = dec' y ∧ r = s) l →
  concat (enc <$> l) ++ r = concat (enc' <$> l') ++ s → dec <$> l = dec' <$> l' ∧ r = s.
Proof.
  intros Hlen Hl. revert l' Hlen Hl. induction l as [|x l IH]; intros [|y l'] Hlen Hl H; try done.
  apply Forall_cons in Hl as [Hx Hl]. rewrite !fmap_cons in *. cbn [concat] in H. rewrite <-!app_assoc in H.
  apply Hx in H as [Hxy H]; [|by left]. rewrite Hxy.
  apply IH in H as [-> ->]; [done|by injection Hlen|]. eapply Forall_impl; [exact Hl|].
  intros z Hz y' r' s' Hy'. apply Hz. by right.
Qed.
Lemma hash_object m :
  hash_json (Object m) = u8 5 :: write_len m
    ++ concat ((λ kv, write_str kv.1 ++ hash_json kv.2) <$> sort_entries m).
Proof. cbn [LoopGuard.hash_json]. rewrite sort_entries_fmap. by rewrite <-list_fmap_compose. Qed.

Lemma hash_json_inj v w r s :
  value_ok v → value_ok w → hash_json v ++ r = hash_json w ++ s → norm v = norm w ∧ r = s.
Proof.
  revert w r s. induction v as [|b|n|t|l IH|m IH] using Value_rect'; intros w r s Hv Hw H.
  - destruct w; cbn in H; try discriminate. by simplify_eq.
  - destruct w as [|b'| | | |]; cbn in H; try discriminate. injection H as H1 H2. by destruct b, b'.
  - destruct w as [| |n'| | |]; try discriminate H. cbn [LoopGuard.hash_json app] in H. apply cons_eq in H as [_ H].
    apply hash_number_inj in H as [Hn ->]; [|done..]. simpl. by rewrite Hn.
  - destruct w as [| | |t'| |]; try discriminate H. cbn [LoopGuard.hash_json app] in H. apply cons_eq in H as [_ H].
    apply write_str_inj in H as [-> ->]; done.
  - destruct w as [| | | |l'|]; try discriminate H. cbn [LoopGuard.hash_json app] in H. apply cons_eq in H as [_ H].
    rewrite <-!app_assoc in H. apply value_ok_array in Hv as [Hlen Hv], Hw as [Hlen' Hw].
    apply write_u64_inj in H as [Hl%Nat2N.inj H]; [|done..].
    apply (concat_inj _ _ norm norm) in H as [Hn ->]; [simpl; by rewrite Hn|done|].
    rewrite Forall_forall in *. intros x Hx y r' s' Hy. apply IH; auto.
  - destruct w as [| | | | |m']; try discriminate H. rewrite !hash_object in H. cbn [app] in H. apply cons_eq in H as [_ H].
    rewrite <-!app_assoc in H. apply value_ok_object in Hv as (Hlen&_&Hk&Hv), Hw as (Hlen'&_&Hk'&Hw).
    apply write_u64_inj in H as [Hl%Nat2N.inj H]; [|done..].
    apply (concat_inj _ _ (λ kv, (kv.1, norm kv.2)) (λ kv, (kv.1, norm kv.2))) in H as [Hn ->].
    + split; [|done]. cbn [norm]. by rewrite !sort_entries_fmap, Hn.
    + rewrite (Permutation_length (sort_entries_Permutation m)), (Permutation_length (sort_entries_Permutation m')). done.
    + rewrite Forall_fmap in Hk, Hk'. rewrite Forall_forall in *.
      intros x Hx y r' s' Hy E. rewrite (sort_entries_Permutation m) in Hx. rewrite (sort_entries_Permutation m') in Hy. rewrite <-!app_assoc in E.
      apply write_str_inj in E as [E1 E2]; [|by apply Hk|by apply Hk'].
      apply IH in E2 as [E2 ->]; [|auto..]. by rewrite E1, E2.
Qed.
(** Equal values hash alike. *)
Lemma hash_json_norm v w : value_ok v → value_ok w → norm v = norm w → hash_json v = hash_json w.
Proof.
  revert w. induction v as [|b|n|t|l IH|m IH] using Value_rect'; intros w Hv Hw H; destruct w as [|b'|n'|t'|l'|m']; try discriminate H.
  - done.
  - by injection H as ->.
  - injection H as H. cbn [LoopGuard.hash_json]. f_equal. unfold num_view, LoopGuard.hash_number in *.
    destruct (as_i64 n), (as_i64 n'), (as_u64 n), (as_u64 n'), (f64_bits n), (f64_bits n'); simplify_eq/=; done.
  - by injection H as ->.
  - injection H as H. apply value_ok_array in Hv as [_ Hv], Hw as [_ Hw]. cbn [LoopGuard.hash_json].
    pose proof (f_equal length H) as Hl. rewrite !length_fmap in Hl. unfold write_len. rewrite Hl. do 3 f_equal.
    clear Hl. revert l' Hw H. induction IH as [|v l Hvl _ IH']; intros [|w l'] Hw H; try discriminate H; [done|].
    apply Forall_cons in Hv as [Hv1 Hv], Hw as [Hw1 Hw]. injection H as H1 H. rewrite !fmap_cons.
    by rewrite (Hvl w Hv1 Hw1 H1), (IH' Hv l' Hw H).
  - cbn [norm] in H. rewrite !sort_entries_fmap in H. injection H as H.
    apply value_ok_object in Hv as (_&_&_&Hv), Hw as (_&_&_&Hw). rewrite !hash_object.
    pose proof (f_equal length H) as Hl. rewrite !length_fmap in Hl.
    rewrite (Permutation_length (sort_entries_Permutation m)), (Permutation_length (sort_entries_Permutation m')) in Hl.
    unfold write_len. rewrite Hl. do 3 f_equal. clear Hl.
    rewrite <-(sort_entries_Permutation m) in Hv, IH. rewrite <-(sort_entries_Permutation m') in Hw. revert H Hv IH Hw.
    generalize (sort_entries m) (sort_entries m'). clear. intros m m' H Hv IH. revert m' H Hv.
    induction IH as [|v m Hvl _ IH']; intros [|w m'] H Hv Hw; try discriminate H; [done|].
    apply Forall_cons in Hv as [Hv1 Hv], Hw as [Hw1 Hw]. rewrite !fmap_cons in *. injection H as H0 H1 H.
    by rewrite H0, (Hvl w.2 Hv1 Hw1 H1), (IH' m' H Hv Hw).
Qed.

(** The structural hash of a call is exact: two calls write the same bytes to
    the hasher precisely when they have the same name and the same arguments, where
    numbers count by value and the keys of objects in any order; so no two different
    shapes alias, and reordering keys never changes a signature. *)
Theorem loop_signature_exact name input name' input' :
  value_ok input → value_ok input' → no_ff name → no_ff name' →
  (write_str name ++ hash_json input = write_str name' ++ hash_json input' ↔
   name = name' ∧ norm input = norm input') ∧
  (∀ m m', input = Object m → m ≡ₚ m' → norm (Object m) = norm (Object m')).
Proof.
  intros Hv Hv' Hn Hn'. split.
  - split.
    + intros H. apply write_str_inj in H as [-> H]; [|done..]. split; [done|].
      rewrite <-(app_nil_r (hash_json input)), <-(app_nil_r (hash_json input')) in H. by apply hash_json_inj in H as [? _].
    + intros [-> H]. by rewrite (hash_json_norm _ _ Hv Hv' H).
  - intros m m' -> Hm. apply value_ok_object in Hv as (_&Hnd&_). cbn [norm]. f_equal. apply sort_entries_perm.
    + rewrite <-list_fmap_compose. exact Hnd.
    + by rewrite Hm.
Qed.
End injective.

(** ** Signatures of turns *)

#[export] Instance N_le_total : Total N.le.
Proof. intros a b. lia. Qed.
#[export] Instance N_le_trans : Transitive N.le.
Proof. intros a b c. lia. Qed.
#[export] Instance N_le_antisymm : AntiSymm eq N.le.
Proof. intros a b. lia. Qed.
Lemma sort_unstable_perm l l' : l ≡ₚ l' → sort_unstable l = sort_unstable l'.
Proof.
  intros H. apply (StronglySorted_unique N.le); [apply (StronglySorted_merge_sort N.le); apply _..|].
  unfold sort_unstable. etrans; [apply merge_sort_Permutation|]. etrans; [exact H|].
  symmetry. apply merge_sort_Permutation.
Qed.

Section turns.
Context {Num : Type} (as_i64 : Num → option Z) (as_u64 : Num → option N) (f64_bits : Num → option N).
Context (finish : bytes → N).
#[local] Abbreviation ContentBlock := (@ContentBlock Num).
#[local] Abbreviation outcome_signature := (tool_outcome_signature_filtered as_i64 as_u64 f64_bits finish).
#[local] Abbreviation calls_signature := (tool_calls_signature as_i64 as_u64 f64_bits finish).

(** Providers give fresh ids every turn. *)
Definition rename (f : bytes → bytes) (b : ContentBlock) : ContentBlock :=
  match b with
  | ToolUse id name input => ToolUse (f id) name input
  | ToolResult id content is_error images => ToolResult (f id) content is_error images
  | OtherBlock => OtherBlock
  end.
Definition hashes_of (id : bytes) (blocks : list ContentBlock) : list N :=
  omap (λ b, match b with
             | ToolResult id' content is_error images =>
                 if bool_decide (id' = id) then Some (result_hash finish content is_error images) else None
             | _ => None
             end) blocks.
Lemma collect_lookup blocks m id :
  foldl (collect_result finish) m blocks !! id
  = match hashes_of id blocks with [] => m !! id | hs => Some (default [] (m !! id) ++ hs) end.
Proof.
  revert m. induction blocks as [|b blocks IH]; intros m; [done|]. cbn [foldl]. rewrite IH.
  destruct b as [|id' content e i|]; [done| |done]. cbn [collect_result]. unfold hashes_of. cbn [omap list_omap].
  case_bool_decide as Hid.
  - subst. rewrite lookup_insert_eq. simpl. fold (hashes_of id blocks). destruct (hashes_of id blocks); [done|].
    by rewrite <-app_assoc.
  - by rewrite lookup_insert_ne.
Qed.
Lemma hashes_of_rename f `{Inj _ _ (=) (=) f} id blocks : hashes_of (f id) (rename f <$> blocks) = hashes_of id blocks.
Proof.
  unfold hashes_of. induction blocks as [|b blocks IH]; [done|]. cbn [fmap list_fmap omap list_omap].
  destruct b as [|id' content e i|]; cbn [rename]; rewrite IH; try done.
  destruct (decide (id' = id)) as [->|Hne]; [by rewrite !bool_decide_eq_true_2|].
  rewrite !bool_decide_eq_false_2; [done|done|]. by intros ?%(inj f).
Qed.
Lemma hashes_of_perm id blocks blocks' : blocks ≡ₚ blocks' → hashes_of id blocks ≡ₚ hashes_of id blocks'.
Proof. intros H. unfold hashes_of. by rewrite H. Qed.

Lemma omap_rename {B} (T : ContentBlock → option B) (g : B → B) f (l : list ContentBlock) :
  (∀ c, T (rename f c) = g <$> T c) → omap T (rename f <$> l) = g <$> omap T l.
Proof.
  intros H. induction l as [|c l IH]; [done|]. cbn [fmap list_fmap omap list_omap]. rewrite H.
  destruct (T c); cbn [fmap option_fmap option_map]; [by rewrite fmap_cons, <-IH|exact IH].
Qed.

(** The signature of a completed turn depends on what was called and what came
    back, not on incidental order or ids: permuting the calls and the results and
    renaming the tool ids of both (without merging any) leaves it unchanged, for
    the outcome signature with any filter that does not look at the id and for the
    signature of the calls alone. *)
Theorem turn_signature_invariant f track calls calls' results results' :
  Inj (=) (=) f → (∀ i j name input, track i name input = track j name input) →
  calls' ≡ₚ rename f <$> calls → results' ≡ₚ rename f <$> results →
  outcome_signature track calls' results' = outcome_signature track calls results ∧
  calls_signature calls' = calls_signature calls.
Proof.
  intros Hf Htrack Hcalls Hresults. split.
  - unfold tool_outcome_signature_filtered.
    set (T := tracked_call as_i64 as_u64 f64_bits finish track).
    assert (Ht : omap T calls' ≡ₚ prod_map f id <$> omap T calls).
    { rewrite Hcalls, (omap_rename T (prod_map f id)); [done|]. intros [i name input| |]; [|done..].
      unfold T, tracked_call. cbn [rename]. rewrite (Htrack (f i) i). by destruct (track i name input). }
    assert (Hpair : ∀ c, paired_signature finish (sort_unstable <$> foldl (collect_result finish) ∅ results') (prod_map f id c)
      = paired_signature finish (sort_unstable <$> foldl (collect_result finish) ∅ results) c).
    { intros [i h]. unfold paired_signature. cbn [prod_map fst snd]. rewrite !lookup_fmap, !collect_lookup, !lookup_empty.
      pose proof (hashes_of_perm (f i) _ _ Hresults) as Hp. rewrite hashes_of_rename in Hp by done.
      destruct (hashes_of (f i) results') as [|x l], (hashes_of i results) as [|y k]; try done.
      - by apply Permutation_nil_cons in Hp.
      - symmetry in Hp. by apply Permutation_nil_cons in Hp.
      - cbn [fmap option_fmap option_map default app]. by rewrite (sort_unstable_perm _ _ Hp). }
    assert (Hsigs : paired_signature finish (sort_unstable <$> foldl (collect_result finish) ∅ results') <$> omap T calls'
      ≡ₚ paired_signature finish (sort_unstable <$> foldl (collect_result finish) ∅ results) <$> omap T calls).
    { rewrite Ht, <-list_fmap_compose. apply reflexive_eq, list_fmap_ext. intros ? c _. apply Hpair. }
    destruct (omap T calls') as [|c l] eqn:E1, (omap T calls) as [|c' l'] eqn:E2; try done.
    + by apply Permutation_nil_cons in Ht.
    + symmetry in Ht. by apply Permutation_nil_cons in Ht.
    + by rewrite (sort_unstable_perm _ _ Hsigs).
  - unfold tool_calls_signature.
    set (S := λ c : ContentBlock, match c with ToolUse _ name input => Some (call_signature as_i64 as_u64 f64_bits finish name input) | _ => None end).
    assert (Hs : omap S calls' ≡ₚ omap S calls).
    { rewrite Hcalls, (omap_rename S id), list_fmap_id; [done|]. by intros []. }
    destruct (omap S calls') as [|c l] eqn:E1, (omap S calls) as [|c' l'] eqn:E2; try done.
    + by apply Permutation_nil_cons in Hs.
    + symmetry in Hs. by apply Permutation_nil_cons in Hs.
    + by rewrite (sort_unstable_perm _ _ Hs).
Qed.
End turns.

(** ** The guard *)

(** The history of a progress window, newest turn first: the length of the streak of
    its newest signature, and of failed turns. *)
Fixpoint streak (sig : N) (h : list (option N * bool)) : N :=
  match h with
  | (Some s, _) :: h => if (s =? sig)%N then (streak sig h + 1)%N else 0%N
  | _ => 0%N
  end.
Fixpoint failures (h : list (option N * bool)) : N :=
  match h with (_, true) :: h => (failures h + 1)%N | _ => 0%N end.
Definition guard_run (n : N) (h : list (option N * bool)) : StagnationGuard :=
  foldr (λ o g, (observe g o.1 o.2).1) (guard_new n) h.
Definition reference_action (n : N) (h : list (option N * bool)) (o : option N * bool) : StagnationAction :=
  let act count := if (N.max n 2 * 2 <=? count)%N then AbortLoop else if (count =? N.max n 2)%N then Nudge else Continue in
  match o with
  | (_, true) => act (failures (o :: h))
  | (Some sig, false) => act (streak sig (o :: h))
  | (None, false) => Continue
  end.
Lemma guard_run_state n h :
  nudge_threshold (guard_run n h) = N.max n 2 ∧ abort_threshold (guard_run n h) = u64_sat_mul (N.max n 2) 2 ∧
  last_sig (guard_run n h) = (o ← head h; o.1) ∧
  repeats (guard_run n h) = (match h with (Some sig, _) :: _ => streak sig h | _ => 0%N end) ∧
  consecutive_failures (guard_run n h) = failures h.
Proof.
  induction h as [|[sig failed] h (Hn&Ha&Hl&Hr&Hf)]; [done|]. cbn [guard_run foldr]. fold (guard_run n h).
  unfold observe. cbn [fst snd]. rewrite Hf, Hl, Hr, Hn, Ha.
  destruct sig as [sig|], failed; cbn [nudge_threshold abort_threshold last_sig repeats consecutive_failures failures streak
    head mbind option_bind fst]; split_and!; try done; rewrite ?N.eqb_refl.
  all: destruct h as [|[[s|] b] h]; cbn [head mbind option_bind fst streak]; try done;
    try (case_bool_decide; simplify_eq; rewrite ?N.eqb_refl; try done);
    destruct (N.eqb_spec s sig) as [->|]; done.
Qed.

(** The stagnation guard is exact.  After any history of turns since its window
    began, its verdict on the next turn is what the history says: a failed turn is
    judged by the length of the run of failed turns, another by the length of the
    run of its own signature; a run nudges once, when it reaches the threshold, and
    aborts from twice the threshold on. *)
Theorem stagnation_guard_exact n h o :
  (N.max n 2 * 2 <= u64_max)%N →
  (observe (guard_run n h) o.1 o.2).2 = reference_action n h o.
Proof.
  intros Hn. pose proof (guard_run_state n h) as (Hnt&Hat&_&_&Hf).
  pose proof (guard_run_state n (o :: h)) as (_&_&_&Hr&_).
  assert (Hact : ∀ c, action_for (guard_run n h) c
    = if (N.max n 2 * 2 <=? c)%N then AbortLoop else if (c =? N.max n 2)%N then Nudge else Continue).
  { intros c. unfold action_for. rewrite Hnt, Hat. unfold u64_sat_mul. by rewrite N.min_l. }
  destruct o as [sig failed]. unfold observe, reference_action. cbn [fst snd guard_run foldr] in *. fold (guard_run n h) in Hr.
  unfold observe in Hr. destruct sig as [sig|], failed; cbn [fst snd repeats] in *; rewrite ?Hact, ?Hf; cbn [failures]; try done.
  by rewrite Hr.
Qed.

(** ** Witnesses *)

Lemma demo_value_ok k k' s (z : Z) :
  is_i64 z → no_ff k → no_ff k' → k ≠ k' → no_ff s →
  value_ok Some (λ _, None) (λ _, Some 0%N) (Object [(k, Number z); (k', Str s)]) ∧
  value_ok Some (λ _, None) (λ _, Some 0%N) (Object [(k', Str s); (k, Number z)]).
Proof.
  intros Hi Hk Hk' Hne Hs. assert (Hz : num_ok Some (λ _, None) (λ _, Some 0%N) z).
  { split_and!; [by intros ? [= <-]|done|by intros ? [= <-]|done]. }
  rewrite !value_ok_object. cbn [fmap list_fmap fst]. split.
  all: split; [done|]; split; [apply NoDup_cons; split; [by rewrite list_elem_of_singleton|apply NoDup_singleton]|].
  all: split; (apply Forall_cons_2; [|apply Forall_singleton]); done.
Qed.
Lemma loop_signature_exact_witness :
  hash_json Some (λ _, None) (λ _, Some 0%N) (Object [(as_bytes "y", Str (as_bytes "1")); (as_bytes "x", Number 1%Z)])
  = hash_json Some (λ _, None) (λ _, Some 0%N) (Object [(as_bytes "x", Number 1%Z); (as_bytes "y", Str (as_bytes "1"))]).
Proof.
  destruct (demo_value_ok (as_bytes "x") (as_bytes "y") (as_bytes "1") 1%Z) as [Hv Hv'];
    [done|by repeat constructor..|done|by repeat constructor|].
  destruct (loop_signature_exact Some (λ _, None) (λ _, Some 0%N) [] _ [] _ Hv Hv' ltac:(by constructor) ltac:(by constructor)) as [H _].
  symmetry. apply (app_inv_head (write_str [])). apply H. done.
Defined.
Definition demo_signature : list (@ContentBlock Z) → list (@ContentBlock Z) → option N :=
  tool_outcome_signature Some (λ _, None) (λ _, Some 0%N) from_be_bytes.
Lemma turn_signature_invariant_witness :
  demo_signature [ToolUse (as_bytes "b") (as_bytes "ls") Null; ToolUse (as_bytes "a") (as_bytes "cat") Null]
      [ToolResult (as_bytes "a") (as_bytes "1") false []; ToolResult (as_bytes "b") (as_bytes "2") true []]
  = demo_signature [ToolUse (as_bytes "a") (as_bytes "cat") Null; ToolUse (as_bytes "b") (as_bytes "ls") Null]
        [ToolResult (as_bytes "b") (as_bytes "2") true []; ToolResult (as_bytes "a") (as_bytes "1") false []].
Proof.
  apply (turn_signature_invariant Some (λ _, None) (λ _, Some 0%N) from_be_bytes id (λ _ _ _, true)).
  - intros ? ? H. exact H.
  - done.
  - apply Permutation_swap.
  - apply Permutation_swap.
Defined.
Lemma stagnation_guard_exact_witness :
  (observe (guard_run 2 [(Some 7%N, false); (Some 7%N, false); (Some 7%N, false)]) (Some 7%N) false).2 = AbortLoop.
Proof. exact (stagnation_guard_exact 2 [(Some 7%N, false); (Some 7%N, false); (Some 7%N, false)] (Some 7%N, false) ltac:(done)). Defined.
