(* ===== verification/CodingText.v ===== *)
(** Text heuristics of the coding agent (agent/nomi-coding/src): which tools and
    commands count as recon, progress or verification (verify.rs, tools.rs,
    profile.rs), classes of tool failures and the hints they get (edit_hints.rs,
    failure.rs, bash_hints.rs), the environment block (env.rs) and the plan artifact
    (plan_artifact.rs). *)
From S2P Require Import Prelude Utf8 Bytes Text Json.

(** ** verify.rs *)

Definition is_mutating_tool (name : bytes) : bool :=
  one_of name ["Edit"; "Write"; "ApplyPatch"; "Bash"; "exec_command"; "write_stdin"].
Definition is_side_effect_tool (name : bytes) : bool :=
  is_mutating_tool name || one_of name ["Browser"; "Computer"; "LaunchApp"; "computer"; "browser"].
Definition is_isolated_subagent_tool (name : bytes) : bool :=
  one_of name ["explore_code"; "verify_change"; "research"].
(** Non-blank text under the first key that has one. *)
Definition shell_text {Num} (input : Value Num) (key : string) : option bytes :=
  text ← get (as_bytes key) input ≫= as_str;
  match bytes_trim text with [] => None | trimmed => Some trimmed end.
Definition shell_command_from_input {Num} (input : Value Num) : option bytes :=
  head (omap (shell_text input) ["command"; "cmd"; "script"]).
Definition PROGRESS_NEEDLES : list string :=
  ["pnpm install"; "npm install"; "yarn install"; "bun install"; "pnpm i "; "npm i "; "pnpm --filter";
   "pnpm dev"; "npm run dev"; "npm start"; "bun run dev"; "go run"; "cargo run"; "set-content";
   "out-file"; "add-content"; "invoke-webrequest"; "invoke-restmethod"; "curl "; "wget ";
   "start-process"; "docker compose up"; "docker-compose up"].
Definition looks_like_progress_command (command : bytes) : bool :=
  contains_any (str_lower command) PROGRESS_NEEDLES.
Definition VERIFICATION_NEEDLES : list string :=
  ["test"; "pytest"; "cargo test"; "cargo check"; "cargo build"; "npm test"; "npm run test";
   "pnpm test"; "bun test"; "go test"; "go build"; "go vet"; "mvn test"; "gradle test"; "make test";
   "make check"; "lint"; "eslint"; "tsc"; "typecheck"; "check:quick"; "check:guards"; "bun run check";
   "biome"; "vitest"; "jest"; "rspec"; "phpunit"].
Definition looks_like_verification_command (command : bytes) : bool :=
  contains_any (str_lower command) VERIFICATION_NEEDLES.

(** ** edit_hints.rs *)

Inductive EditFailureKind :=
| OldStringNotFound | MultipleMatches | MustReadFirst | StaleAfterRead | OutsideWriteRoot | OtherEditFailure.
#[export] Instance EditFailureKind_eq_dec : EqDecision EditFailureKind.
Proof. solve_decision. Defined.
Definition infer_edit_failure_kind (content : bytes) : EditFailureKind :=
  let has := contains_lit (str_lower content) in
  if has "must read" || has "use the read tool first" then MustReadFirst
  else if has "modified externally" || has "stale" then StaleAfterRead
  else if has "multiple matches" || has "occurs multiple times" then MultipleMatches
  else if has "write root" || has "coding_boundary" then OutsideWriteRoot
  else if has "old_string" && has "not found" then OldStringNotFound
  else if has "not found" then OldStringNotFound
  else OtherEditFailure.
Definition recovery_hint (kind : EditFailureKind) : bytes :=
  match kind with
  | OldStringNotFound =>
      text ["Next: re-Read the file and prefer anchor-mode Edit with fresh `line:hash` anchors, or copy a ";
        "smaller unique old_string. Do not retry the identical Edit."]
  | MultipleMatches =>
      text ["Next: add surrounding context to old_string until unique, or set replace_all=true if every ";
        "occurrence should change; or switch to anchor-mode Edit."]
  | MustReadFirst =>
      as_bytes "Next: call Read on this path, then Edit with anchors (or exact text) from that Read."
  | StaleAfterRead =>
      as_bytes "Next: Read/Grep again for fresh `line:hash` anchors, then retry the full Edit batch."
  | OutsideWriteRoot =>
      as_bytes "Next: use a path under the session write root / working directory."
  | OtherEditFailure =>
      as_bytes "Next: inspect the error, adjust path or hunk size, then retry once with a new plan."
  end.
Definition append_edit_recovery_hint (base : bytes) (kind : EditFailureKind) : bytes :=
  let hint := recovery_hint kind in
  if str_contains base hint then base else base ++ [u8 10] ++ hint.

(** ** failure.rs *)

Inductive ToolFailureClass := Schema | NotFound | Timeout | Permission | StaleAnchor | VerifyFail | OtherFailure.
#[export] Instance ToolFailureClass_eq_dec : EqDecision ToolFailureClass.
Proof. solve_decision. Defined.
Definition looks_like_schema_error (lower : bytes) : bool :=
  contains_any lower
    ["missing required parameter"; "invalid argument"; "json schema"; "schema validation"; "failed json-schema"].
Definition looks_like_not_found (name lower : bytes) : bool :=
  contains_any lower
    ["no such file"; "cannot find the path"; "file not found"; "directory not found"; "not an existing directory"]
  || one_of name ["Read"; "Glob"; "Grep"; "DirTree"; "Write"; "Edit"]
     && contains_any lower ["not found"; "does not exist"].
Definition looks_like_timeout (lower : bytes) : bool :=
  if contains_lit lower "skipped because a previous tool" then false
  else contains_any lower ["timed out"; "command timed out"].
Definition from_tool (name error : bytes) : ToolFailureClass :=
  let lower := str_lower error in
  if looks_like_schema_error lower then Schema
  else if looks_like_not_found name lower then NotFound
  else if looks_like_timeout lower then Timeout
  else if contains_any lower ["permission"; "eacces"; "access is denied"] then Permission
  else if one_of name ["Edit"; "Write"; "ApplyPatch"]
       && (match infer_edit_failure_kind error with
           | StaleAfterRead | OldStringNotFound | MustReadFirst => true
           | _ => false
           end) then StaleAnchor
  else if one_of name ["Bash"; "exec_command"] && contains_any lower ["failed"; "error"] then VerifyFail
  else OtherFailure.
Definition failure_label (c : ToolFailureClass) : bytes :=
  match c with
  | Schema => as_bytes "schema"
  | NotFound => as_bytes "not_found"
  | Timeout => as_bytes "timeout"
  | Permission => as_bytes "permission"
  | StaleAnchor => as_bytes "stale_anchor"
  | VerifyFail => as_bytes "verify_fail"
  | OtherFailure => as_bytes "other"
  end.
(** The derived [Debug] name *)
Definition class_debug (c : ToolFailureClass) : bytes :=
  match c with
  | Schema => as_bytes "Schema"
  | NotFound => as_bytes "NotFound"
  | Timeout => as_bytes "Timeout"
  | Permission => as_bytes "Permission"
  | StaleAnchor => as_bytes "StaleAnchor"
  | VerifyFail => as_bytes "VerifyFail"
  | OtherFailure => as_bytes "Other"
  end.
Definition recommended_action (c : ToolFailureClass) : bytes :=
  match c with
  | Schema =>
      as_bytes "Fix the tool arguments against the schema. Do not re-Read the same file range."
  | NotFound =>
      as_bytes "Check the path with Glob/Grep. Do not retry the identical Read."
  | Timeout =>
      as_bytes "Retry with a longer timeout or exec_command polling. Do not re-Read the whole file."
  | Permission =>
      as_bytes "Stay inside the write root / cwd. Ask the user if a wider path is required."
  | StaleAnchor =>
      text ["Retry Edit with the fresh line:hash anchors from the failed result. Do not re-Read the whole ";
        "file."]
  | VerifyFail =>
      text ["Inspect the failing command output, fix the code, and rerun the same narrow verify command. Cap ";
        "retries at 3."]
  | OtherFailure =>
      as_bytes "Inspect the error, change strategy, and do not repeat the identical call."
  end.
Definition stdout_section (error : bytes) : bytes :=
  match split_at_first (as_bytes "STDOUT:") error with
  | None => []
  | Some (_, rest) =>
      match split_at_first (as_bytes "STDERR:") rest with Some (out, _) => out | None => rest end
  end.
Definition stderr_section (error : bytes) : bytes :=
  match split_at_first (as_bytes "STDERR:") error with Some (_, rest) => rest | None => [] end.
(** [chars().all(..)]: only [+], [~], [^] and white space *)
Fixpoint only_marks (l : bytes) : bool :=
  match l with
  | [] => true
  | a :: l1 =>
      if is_byte 43 a || is_byte 126 a || is_byte 94 a || ws1 a then only_marks l1
      else match l1 with
           | b :: l2 =>
               if ws2 a b then only_marks l2
               else match l2 with c :: l3 => if ws3 a b c then only_marks l3 else false | [] => false end
           | [] => false
           end
  end.
Definition stderr_has_meaningful_text (stderr : bytes) : bool :=
  existsb (λ line, let trimmed := bytes_trim line in negb (bool_decide (trimmed = [])) && negb (only_marks trimmed))
    (lines stderr).
Definition nonzero_exit_with_success_stdout (error : bytes) : bool :=
  if negb (contains_any error ["Exit code: 1"; "exit_code=1"]) then false
  else negb (str_is_blank (stdout_section error)) && negb (stderr_has_meaningful_text (stderr_section error)).
Definition skip_failure_nudge (name error : bytes) : bool :=
  eq_ignore_ascii_case name (as_bytes "write_stdin") && contains_lit error "unknown or finished session_id"
  || one_of name ["Glob"; "Grep"; "DirTree"] && bool_decide (from_tool name error = NotFound)
  || one_of name ["Bash"; "exec_command"] && nonzero_exit_with_success_stdout error.
Definition failure_nudge (name error : bytes) : bytes :=
  let class := from_tool name error in
  as_bytes "Coding tool-failure (" ++ name ++ as_bytes ", " ++ class_debug class ++ as_bytes "): "
  ++ take_chars 240 error ++ as_bytes ". " ++ recommended_action class.
Definition failure_nudge_if_useful (name error : bytes) : option bytes :=
  if skip_failure_nudge name error then None else Some (failure_nudge name error).

(** ** profile.rs, tools.rs *)

Inductive TaskProfile := Office | Coding.
Definition profile_as_str (p : TaskProfile) : bytes :=
  match p with Office => as_bytes "office" | Coding => as_bytes "coding" end.
Definition profile_parse (raw : option bytes) : TaskProfile :=
  match raw with
  | Some s => if one_of (str_lower (bytes_trim s)) ["coding"; "code"; "dev"; "development"] then Coding else Office
  | None => Office
  end.
Definition is_coding (p : TaskProfile) : bool := match p with Coding => true | Office => false end.
Definition CODING_CORE_TOOLS : list string :=
  ["Read"; "ReadContentRef"; "Write"; "Edit"; "Bash"; "exec_command"; "write_stdin"; "Grep"; "Glob";
   "DirTree"; "dir_tree"; "Skill"; "update_plan"; "EnterPlanMode"; "ExitPlanMode"; "web_search";
   "web_extract"; "Lsp"; "explore_code"; "verify_change"; "research"].
Definition CODING_HIDDEN_TOOLS : list string :=
  ["Browser"; "Computer"; "computer"; "browser"; "ApplyPatch"; "apply_patch"].
Definition advertise_tool (profile : TaskProfile) (tool_name : bytes) : bool :=
  let among := existsb (λ name, eq_ignore_ascii_case (as_bytes name) tool_name) in
  if negb (is_coding profile) then true
  else if among CODING_HIDDEN_TOOLS then false
  else among CODING_CORE_TOOLS.

(** ** bash_hints.rs

    The [Debug] form of a string is a parameter, for its Unicode tables. *)

Definition BOUNDARY_PREFIX : bytes := as_bytes "CODING_BOUNDARY:".
Definition format_write_root_rejection (file_path root_display : bytes) : bytes :=
    BOUNDARY_PREFIX ++
    as_bytes " Write rejected: " ++
    file_path ++
    as_bytes " is outside the allowed write root " ++
    root_display ++
    text [". Recovery: use a path under that root (relative to the session working directory). Prefer ";
      "Write/Edit/ApplyPatch for file changes; use Grep with a subdirectory `path` instead of scanning ";
      "the whole disk."].
Definition wrap_boundary_error (detail : bytes) : bytes :=
  let trimmed := bytes_trim detail in
  if str_starts_with BOUNDARY_PREFIX trimmed then trimmed
  else
    BOUNDARY_PREFIX ++
    as_bytes " " ++
    trimmed ++
    text [" Recovery: stay inside the working directory / write root; prefer Grep/Read/Glob with a narrow ";
      "path for discovery; use Bash for build/test/git only."].
Definition DANGEROUS_NEEDLES : list string :=
  ["rm -rf /"; "rm -rf /*"; "find / "; "find / -"; "grep -r / "; "rg / "; "del /s /q c:\";
   "remove-item -recurse -force c:\"].
Definition looks_like_broad_or_dangerous_scan (command : bytes) : bool :=
  contains_any (str_lower command) DANGEROUS_NEEDLES.
Definition format_broad_scan_rejection (debug_str : bytes → bytes) (command_preview : bytes) : bytes :=
  let preview := take_chars 120 command_preview in
    BOUNDARY_PREFIX ++
    as_bytes " Refused broad or dangerous command in coding mode: " ++
    debug_str preview ++
    text [". Recovery: scope discovery with Grep/Glob (`path` = subdirectory) or a narrower shell cwd; do ";
      "not scan or mutate the whole filesystem."].

(** ** env.rs: paths as they are displayed *)

Record CodingEnvContext := mkEnv { cwd : bytes; write_root : option bytes }.
Definition format_env_context (env : CodingEnvContext) : option bytes :=
  if str_is_blank (cwd env) then None
  else Some (bytes_join [u8 10]
    ([as_bytes "# Coding environment"; as_bytes "- Working directory (cwd): " ++ cwd env]
     ++ match write_root env with
        | Some root =>
            [as_bytes "- Write root (Edit/Write/ApplyPatch must stay inside): " ++ root;
             as_bytes "- Prefer Grep/Glob with `path` under this root; avoid scanning outside it."]
        | None =>
            [as_bytes "- No write_root configured; still prefer staying inside the working directory."]
        end)).

(** ** plan_artifact.rs *)

Record PlanArtifact := mkArtifact {
  version : N;
  goal : bytes;
  scope : list bytes;
  verify_commands : list bytes;
  body : bytes;
}.
Definition CURRENT_VERSION : N := 1.
(** [trim_start_matches] with a set of characters *)
Definition heading_mark (b : Ascii.ascii) : bool := is_byte 35 b || is_byte 45 b || is_byte 42 b || is_byte 32 b.
Definition is_verify_line (line : bytes) : bool := contains_any (str_lower line) ["test"; "lint"; "cargo "; "npm "].
Definition is_scope_line (line : bytes) : bool :=
  str_contains line [u8 47] || str_ends_with (as_bytes ".rs") line || str_ends_with (as_bytes ".ts") line.
Definition from_exit_content (content : bytes) : PlanArtifact :=
  let body := bytes_trim content in
  let all := lines body in
  mkArtifact CURRENT_VERSION
    (drop_while heading_mark
      (default (as_bytes "implementation plan") (head (filter (λ line, str_is_blank line = false) all))))
    (take 16 (bytes_trim <$> filter (λ line, is_scope_line line = true) all))
    (take 8 (bytes_trim <$> filter (λ line, is_verify_line line = true) all))
    body.
Definition bullets (title : string) (items : list bytes) : bytes :=
  match items with
  | [] => []
  | _ => as_bytes title ++ [u8 10] ++ concat ((λ item, as_bytes "- " ++ item ++ [u8 10]) <$> items)
  end.
Definition summary_block (p : PlanArtifact) : bytes :=
  as_bytes "[PlanArtifact v" ++ decimal (version p) ++ as_bytes "]" ++ [u8 10]
  ++ as_bytes "Goal: " ++ goal p ++ [u8 10]
  ++ bullets "Scope:" (scope p) ++ bullets "Verify:" (verify_commands p).

Example failure_ex :
  from_tool (as_bytes "Edit") (as_bytes "old_string NOT FOUND in a.rs") = NotFound.
Proof. vm_compute. reflexivity. Qed.
Example probe_ex :
  skip_failure_nudge (as_bytes "Bash") (as_bytes "Exit code: 1 STDOUT: 3 hits STDERR: ~~ ^") = true.
Proof. vm_compute. reflexivity. Qed.
Example advertise_ex : advertise_tool Coding (as_bytes "bash") = true ∧ advertise_tool Coding (as_bytes "applypatch") = false.
Proof. vm_compute. done. Qed.
