(* ===== verification/CodingGuards.v ===== *)
(** Guards of the coding agent (agent/nomi-coding/src): the progress guard
    (progress.rs), the trackers of failing edits (edit_converge.rs) and repeated reads
    (read_repeat.rs), the continuation budget (continuation.rs), plan continuation
    (todo_continuation.rs) and the counters of metrics.rs.  Each [&mut self] method is
    a function from the state to the new state and the answer; [usize] counters
    saturate as in the source. *)
From Stdlib Require Import SpecFloat.
From S2P Require Import Prelude Utf8 Bytes Text Json ReadPaths CodingText.

Definition sat_succ (n : N) : N := u64_sat_add n 1.

(** ** progress.rs *)

Definition is_explore_tool (name : bytes) : bool :=
  one_of name ["Read"; "ReadContentRef"; "Grep"; "Glob"; "DirTree"; "dir_tree"; "ToolSearch"; "LS"; "Lsp";
    "SemanticSearch"; "web_search"; "web_extract"].
Definition is_recon_tool (name : bytes) (command : option bytes) : bool :=
  if is_isolated_subagent_tool name then false
  else if is_explore_tool name then true
  else if one_of name ["Bash"; "exec_command"] then
    match command with
    | None => true
    | Some command => negb (looks_like_verification_command command || looks_like_progress_command command)
    end
  else false.

Inductive ExploreBudgetKind := ConsecutiveTour | SerialRoundTrip | LifetimeRecon.
#[export] Instance ExploreBudgetKind_eq_dec : EqDecision ExploreBudgetKind.
Proof. solve_decision. Defined.
Record CodingProgressGuard := mkProgress {
  failed_turns : N;
  explore_only_turns : N;
  recon_turns_total : N;
  serial_recon_turns : N;
  mutated_files : bool;
  verified_after_mutation : bool;
  verification_nudge_sent : bool;
  explore_budget_nudge_sent : bool;
  explore_hard_stop_sent : bool;
  serial_nudge_sent : bool;
  serial_hard_stop_sent : bool;
  lifetime_nudge_sent : bool;
  lifetime_hard_stop_sent : bool;
  plan_mode_turns : N;
  plan_budget_nudge_sent : bool;
  force_allow_finish : bool;
}.
Definition progress_default : CodingProgressGuard :=
  mkProgress 0 0 0 0 false false false false false false false false false 0 false false.
Inductive CodingProgressAction :=
| ContinueTurn
| NudgeExplore
| NudgeExploreBudget (kind : ExploreBudgetKind)
| HardStopExplore (kind : ExploreBudgetKind)
| NudgePlanTimeout
| HardStopPlanTimeout
| NudgeVerify.
#[export] Instance CodingProgressAction_eq_dec : EqDecision CodingProgressAction.
Proof. solve_decision. Defined.
Record ProgressObserveParams := mkParams {
  failed_nudge_threshold : N;
  p_explore_budget : N;
  p_explore_hard_stop : N;
  p_recon_lifetime_budget : N;
  p_recon_lifetime_hard_stop : N;
  p_serial_recon_budget : N;
  p_serial_recon_hard_stop : N;
}.
Definition FAILED_NUDGE_THRESHOLD : N := 8.
Definition DEFAULT_EXPLORE_BUDGET : N := 6.
Definition DEFAULT_EXPLORE_HARD_STOP : N := 10.
Definition DEFAULT_RECON_LIFETIME_BUDGET : N := 10.
Definition DEFAULT_RECON_LIFETIME_HARD_STOP : N := 16.
Definition DEFAULT_SERIAL_RECON_BUDGET : N := 3.
Definition DEFAULT_SERIAL_RECON_HARD_STOP : N := 6.
Definition DEFAULT_PLAN_MODE_BUDGET : N := 10.
Definition DEFAULT_PLAN_MODE_HARD_STOP : N := 14.
Definition params_default : ProgressObserveParams :=
  mkParams FAILED_NUDGE_THRESHOLD DEFAULT_EXPLORE_BUDGET DEFAULT_EXPLORE_HARD_STOP DEFAULT_RECON_LIFETIME_BUDGET
    DEFAULT_RECON_LIFETIME_HARD_STOP DEFAULT_SERIAL_RECON_BUDGET DEFAULT_SERIAL_RECON_HARD_STOP.

(** Assignments to one field or to a group that is always set together *)
Definition set_force_allow_finish (v : bool) (g : CodingProgressGuard) : CodingProgressGuard :=
  mkProgress (failed_turns g) (explore_only_turns g) (recon_turns_total g) (serial_recon_turns g)
    (mutated_files g) (verified_after_mutation g) (verification_nudge_sent g) (explore_budget_nudge_sent g)
    (explore_hard_stop_sent g) (serial_nudge_sent g) (serial_hard_stop_sent g) (lifetime_nudge_sent g)
    (lifetime_hard_stop_sent g) (plan_mode_turns g) (plan_budget_nudge_sent g) v.
Definition set_failed_turns (v : N) (g : CodingProgressGuard) : CodingProgressGuard :=
  mkProgress v (explore_only_turns g) (recon_turns_total g) (serial_recon_turns g) (mutated_files g)
    (verified_after_mutation g) (verification_nudge_sent g) (explore_budget_nudge_sent g)
    (explore_hard_stop_sent g) (serial_nudge_sent g) (serial_hard_stop_sent g) (lifetime_nudge_sent g)
    (lifetime_hard_stop_sent g) (plan_mode_turns g) (plan_budget_nudge_sent g) (force_allow_finish g).
Definition set_verification (mutated verified sent : bool) (g : CodingProgressGuard) : CodingProgressGuard :=
  mkProgress (failed_turns g) (explore_only_turns g) (recon_turns_total g) (serial_recon_turns g) mutated
    verified sent (explore_budget_nudge_sent g) (explore_hard_stop_sent g) (serial_nudge_sent g)
    (serial_hard_stop_sent g) (lifetime_nudge_sent g) (lifetime_hard_stop_sent g) (plan_mode_turns g)
    (plan_budget_nudge_sent g) (force_allow_finish g).
Definition set_plan_mode (turns : N) (sent : bool) (g : CodingProgressGuard) : CodingProgressGuard :=
  mkProgress (failed_turns g) (explore_only_turns g) (recon_turns_total g) (serial_recon_turns g)
    (mutated_files g) (verified_after_mutation g) (verification_nudge_sent g) (explore_budget_nudge_sent g)
    (explore_hard_stop_sent g) (serial_nudge_sent g) (serial_hard_stop_sent g) (lifetime_nudge_sent g)
    (lifetime_hard_stop_sent g) turns sent (force_allow_finish g).
Definition set_recon (explore total serial : N) (g : CodingProgressGuard) : CodingProgressGuard :=
  mkProgress (failed_turns g) explore total serial (mutated_files g) (verified_after_mutation g)
    (verification_nudge_sent g) (explore_budget_nudge_sent g) (explore_hard_stop_sent g) (serial_nudge_sent
    g) (serial_hard_stop_sent g) (lifetime_nudge_sent g) (lifetime_hard_stop_sent g) (plan_mode_turns g)
    (plan_budget_nudge_sent g) (force_allow_finish g).
Definition set_serial_sent (nudge hard : bool) (g : CodingProgressGuard) : CodingProgressGuard :=
  mkProgress (failed_turns g) (explore_only_turns g) (recon_turns_total g) (serial_recon_turns g)
    (mutated_files g) (verified_after_mutation g) (verification_nudge_sent g) (explore_budget_nudge_sent g)
    (explore_hard_stop_sent g) nudge hard (lifetime_nudge_sent g) (lifetime_hard_stop_sent g)
    (plan_mode_turns g) (plan_budget_nudge_sent g) (force_allow_finish g).
Definition set_explore_sent (nudge hard : bool) (g : CodingProgressGuard) : CodingProgressGuard :=
  mkProgress (failed_turns g) (explore_only_turns g) (recon_turns_total g) (serial_recon_turns g)
    (mutated_files g) (verified_after_mutation g) (verification_nudge_sent g) nudge hard (serial_nudge_sent
    g) (serial_hard_stop_sent g) (lifetime_nudge_sent g) (lifetime_hard_stop_sent g) (plan_mode_turns g)
    (plan_budget_nudge_sent g) (force_allow_finish g).
Definition set_lifetime_sent (nudge hard : bool) (g : CodingProgressGuard) : CodingProgressGuard :=
  mkProgress (failed_turns g) (explore_only_turns g) (recon_turns_total g) (serial_recon_turns g)
    (mutated_files g) (verified_after_mutation g) (verification_nudge_sent g) (explore_budget_nudge_sent g)
    (explore_hard_stop_sent g) (serial_nudge_sent g) (serial_hard_stop_sent g) nudge hard (plan_mode_turns
    g) (plan_budget_nudge_sent g) (force_allow_finish g).

Definition observe_plan_mode_turn (active : bool) (soft_budget hard_stop : N) (g : CodingProgressGuard) :
    CodingProgressGuard * CodingProgressAction :=
  if negb active then (set_plan_mode 0 false g, ContinueTurn)
  else
    let g := set_plan_mode (sat_succ (plan_mode_turns g)) (plan_budget_nudge_sent g) g in
    let soft := N.max soft_budget 1 in
    let hard := N.max hard_stop soft in
    if (hard <=? plan_mode_turns g)%N then (set_force_allow_finish true g, HardStopPlanTimeout)
    else if (soft <=? plan_mode_turns g)%N && negb (plan_budget_nudge_sent g) then
      (set_plan_mode (plan_mode_turns g) true g, NudgePlanTimeout)
    else (g, ContinueTurn).
Definition clear_consecutive_recon_streak (g : CodingProgressGuard) : CodingProgressGuard :=
  set_explore_sent false false (set_serial_sent false false (set_recon 0 (recon_turns_total g) 0 g)).
Definition observe_recon_only_turn (tool_count : N) (params : ProgressObserveParams) (g : CodingProgressGuard) :
    CodingProgressGuard * CodingProgressAction :=
  let serial := if (tool_count =? 1)%N then sat_succ (serial_recon_turns g) else 0%N in
  let g := set_recon (sat_succ (explore_only_turns g)) (sat_succ (recon_turns_total g)) serial g in
  let g := if (tool_count =? 1)%N then g else set_serial_sent false false g in
  let consecutive_soft := N.max (p_explore_budget params) 1 in
  let consecutive_hard := N.max (p_explore_hard_stop params) consecutive_soft in
  let lifetime_soft := N.max (p_recon_lifetime_budget params) 1 in
  let lifetime_hard := N.max (p_recon_lifetime_hard_stop params) lifetime_soft in
  let serial_soft := N.max (p_serial_recon_budget params) 1 in
  let serial_hard := N.max (p_serial_recon_hard_stop params) serial_soft in
  if (serial_hard <=? serial_recon_turns g)%N && negb (serial_hard_stop_sent g) then
    (set_force_allow_finish true (set_serial_sent (serial_nudge_sent g) true g), HardStopExplore SerialRoundTrip)
  else if (consecutive_hard <=? explore_only_turns g)%N && negb (explore_hard_stop_sent g) then
    (set_force_allow_finish true (set_explore_sent (explore_budget_nudge_sent g) true g), HardStopExplore ConsecutiveTour)
  else if negb (mutated_files g) && (lifetime_hard <=? recon_turns_total g)%N && negb (lifetime_hard_stop_sent g) then
    (set_force_allow_finish true (set_lifetime_sent (lifetime_nudge_sent g) true g), HardStopExplore LifetimeRecon)
  else if (serial_soft <=? serial_recon_turns g)%N && negb (serial_nudge_sent g) then
    (set_serial_sent true (serial_hard_stop_sent g) g, NudgeExploreBudget SerialRoundTrip)
  else if (consecutive_soft <=? explore_only_turns g)%N && negb (explore_budget_nudge_sent g) then
    (set_explore_sent true (explore_hard_stop_sent g) g, NudgeExploreBudget ConsecutiveTour)
  else if negb (mutated_files g) && (lifetime_soft <=? recon_turns_total g)%N && negb (lifetime_nudge_sent g) then
    (set_lifetime_sent true (lifetime_hard_stop_sent g) g, NudgeExploreBudget LifetimeRecon)
  else (g, ContinueTurn).

(** The arguments of [observe_tool_turn] but the tunables *)
Record ToolTurn := mkTurn {
  tool_names : gset bytes;
  had_successful_verification : bool;
  had_file_mutation : bool;
  had_any_successful_result : bool;
  recon_only : bool;
  tool_count : N;
}.
Definition observe_tool_turn (t : ToolTurn) (params : ProgressObserveParams) (g : CodingProgressGuard) :
    CodingProgressGuard * CodingProgressAction :=
  let g := if had_file_mutation t
           then set_force_allow_finish false (clear_consecutive_recon_streak (set_verification true false false g))
           else g in
  if had_successful_verification t then
    (set_force_allow_finish false
       (clear_consecutive_recon_streak (set_failed_turns 0 (set_verification (mutated_files g) true false g))),
     ContinueTurn)
  else if had_any_successful_result t then
    let g := set_failed_turns 0 g in
    if negb (bool_decide (tool_names t = ∅))
       && bool_decide (set_Forall (λ n, is_isolated_subagent_tool n = true) (tool_names t)) then (g, ContinueTurn)
    else if recon_only t then observe_recon_only_turn (tool_count t) params g
    else (clear_consecutive_recon_streak g, ContinueTurn)
  else
    let g := set_failed_turns (sat_succ (failed_turns g)) g in
    (g, if (N.max (failed_nudge_threshold params) 1 <=? failed_turns g)%N then NudgeExplore else ContinueTurn).
Definition needs_verification_before_finish (g : CodingProgressGuard) : bool :=
  mutated_files g && negb (verified_after_mutation g) && negb (verification_nudge_sent g).
Definition mark_verification_nudge_sent (g : CodingProgressGuard) : CodingProgressGuard :=
  set_verification (mutated_files g) (verified_after_mutation g) true g.
Definition mark_verified (g : CodingProgressGuard) : CodingProgressGuard :=
  clear_consecutive_recon_streak (set_failed_turns 0 (set_verification (mutated_files g) true false g)).

Definition explore_budget_kind_label (kind : ExploreBudgetKind) : bytes :=
  match kind with
  | ConsecutiveTour => as_bytes "consecutive_tour"
  | SerialRoundTrip => as_bytes "serial_round_trip"
  | LifetimeRecon => as_bytes "lifetime_recon"
  end.
Definition progress_action_label (action : CodingProgressAction) : bytes :=
  match action with
  | ContinueTurn => as_bytes "continue"
  | NudgeExplore => as_bytes "nudge_explore"
  | NudgeExploreBudget ConsecutiveTour => as_bytes "nudge_explore_budget_consecutive_tour"
  | NudgeExploreBudget SerialRoundTrip => as_bytes "nudge_explore_budget_serial_round_trip"
  | NudgeExploreBudget LifetimeRecon => as_bytes "nudge_explore_budget_lifetime_recon"
  | HardStopExplore ConsecutiveTour => as_bytes "hard_stop_explore_consecutive_tour"
  | HardStopExplore SerialRoundTrip => as_bytes "hard_stop_explore_serial_round_trip"
  | HardStopExplore LifetimeRecon => as_bytes "hard_stop_explore_lifetime_recon"
  | NudgePlanTimeout => as_bytes "nudge_plan_timeout"
  | HardStopPlanTimeout => as_bytes "hard_stop_plan_timeout"
  | NudgeVerify => as_bytes "nudge_verify"
  end.
Definition CODING_EXPLORE_NUDGE : bytes :=
    text ["Coding progress guard: several recent tool turns failed without a successful result. Inspect ";
      "the errors, change strategy (different path, query, or tool), or stop and report what is ";
      "blocking you. Successful Read/Grep/Glob exploration is fine — keep going when those succeed."].
Definition CODING_EXPLORE_BUDGET_NUDGE : bytes :=
    text ["Coding explore budget: you have spent many turns only reading/searching without changing files. ";
      "Either make the smallest Edit/Write that solves the task now, or stop with a short status. Do ";
      "not continue an open-ended file tour — and do not re-Read files you already have in context."].
Definition CODING_EXPLORE_HARD_STOP : bytes :=
    text ["Coding explore hard-stop: exploration budget exhausted with no file changes. Stop now. ";
      "Summarize findings and the blocker (or the smallest next edit). Do not call more ";
      "Read/Grep/Glob/DirTree on this request unless the user asks again."].
Definition CODING_SERIAL_RECON_NUDGE : bytes :=
    text ["Coding round-trip tax: several consecutive assistant messages issued only one recon tool ";
      "(Read/Grep/Glob/DirTree or non-verify Bash). Independent lookups belong in the **same** ";
      "assistant message. Batch the remaining reads now, or Edit, or stop. Do not keep paying a full ";
      "model round-trip per file."].
Definition CODING_SERIAL_RECON_HARD_STOP : bytes :=
    text ["Coding round-trip hard-stop: too many consecutive one-tool recon turns. Stop now. Summarize ";
      "what you already know. If more files are needed, the user can ask again — do not continue a ";
      "serial Read/Grep/Bash tour."].
Definition CODING_LIFETIME_RECON_NUDGE : bytes :=
    text ["Coding recon lifetime: this user request has already spent many provider rounds only ";
      "reading/searching before any file change. Make the smallest Edit/Write that solves the task ";
      "now, or stop with a short status. Do not continue an open-ended tour."].
Definition CODING_LIFETIME_RECON_HARD_STOP : bytes :=
    text ["Coding recon lifetime hard-stop: exploration before any file change is exhausted. Stop now. ";
      "Summarize findings and the smallest next edit (or the blocker). Do not call more ";
      "Read/Grep/Glob/DirTree unless the user asks again."].
Definition CODING_VERIFY_NUDGE : bytes :=
    text ["Coding verification gate: you changed files but have not yet run a build/test/lint command that ";
      "exercises those changes. Run the narrowest verification now before claiming the task is done. ";
      "If verification is impossible, say why and stop."].
Definition CODING_STALE_PLAN_NUDGE : bytes :=
    text ["Coding plan snapshot is stale: you have made file changes since the last `update_plan`, but the ";
      "user-visible checklist still shows the previous milestone. Submit one full snapshot that marks ";
      "finished milestones completed and the current milestone in_progress, then continue the actual ";
      "work. Do not send an unchanged snapshot, and do not turn this into a plan-only loop."].
Definition CODING_PLAN_TIMEOUT_NUDGE : bytes :=
    text ["Coding plan-mode budget: you have spent many turns exploring in plan mode. Finish the plan text ";
      "and call ExitPlanMode now, or stop and ask the user a clarifying question. Do not keep touring ";
      "the tree."].
Definition CODING_PLAN_HARD_STOP : bytes :=
    text ["Coding plan-mode hard-stop: plan mode ran too long without ExitPlanMode. Stop exploring. Either ";
      "call ExitPlanMode with the best plan you have, or end with questions for the user. Do not ";
      "continue a read-only tour."].
Definition PLAN_STALE_MUTATION_THRESHOLD : N := 4.
Definition explore_budget_nudge_text (kind : ExploreBudgetKind) : bytes :=
  match kind with
  | ConsecutiveTour => CODING_EXPLORE_BUDGET_NUDGE
  | SerialRoundTrip => CODING_SERIAL_RECON_NUDGE
  | LifetimeRecon => CODING_LIFETIME_RECON_NUDGE
  end.
Definition explore_hard_stop_text (kind : ExploreBudgetKind) : bytes :=
  match kind with
  | ConsecutiveTour => CODING_EXPLORE_HARD_STOP
  | SerialRoundTrip => CODING_SERIAL_RECON_HARD_STOP
  | LifetimeRecon => CODING_LIFETIME_RECON_HARD_STOP
  end.

(** ** edit_converge.rs *)

Definition CODING_EDIT_CONVERGE_NUDGE : bytes :=
    text ["Coding edit converge: the same file failed Edit several times in a row. Do not keep retrying ";
      "near-identical hunks. Either (1) re-Read once and use fresh `line:hash` anchors (or a smaller ";
      "unique old_string), or (2) stop and report the blocker. Claiming success without a successful ";
      "edit is not allowed."].
Definition CODING_EDIT_HARD_STOP : bytes :=
    text ["Coding edit hard-stop: repeated Edit failures on the same path after a converge warning. Stop ";
      "now. Summarize the blocker and the last error. Do not retry the same Edit again on this request."].
Record EditFailureTracker := mkEditTracker {
  ef_path : option bytes;
  ef_streak : N;
  ef_last_kind : option EditFailureKind;
  ef_soft_nudge_sent : bool;
  ef_hard_stop_sent : bool;
}.
Definition edit_default : EditFailureTracker := mkEditTracker None 0 None false false.
Inductive EditConvergeAction := EditNone | EditSoftNudge | EditHardStop.
#[export] Instance EditConvergeAction_eq_dec : EqDecision EditConvergeAction.
Proof. solve_decision. Defined.
Definition action_for_streak (soft_threshold hard_at : N) (t : EditFailureTracker) :
    EditFailureTracker * EditConvergeAction :=
  if (hard_at <=? ef_streak t)%N && negb (ef_hard_stop_sent t) then
    (mkEditTracker (ef_path t) (ef_streak t) (ef_last_kind t) (ef_soft_nudge_sent t) true, EditHardStop)
  else if (soft_threshold <=? ef_streak t)%N && negb (ef_soft_nudge_sent t) then
    (mkEditTracker (ef_path t) (ef_streak t) (ef_last_kind t) true (ef_hard_stop_sent t), EditSoftNudge)
  else (t, EditNone).
(** A path that is present and not empty *)
Definition some_path (path : option bytes) : option bytes :=
  match path with Some [] => None | _ => path end.
Definition observe_edit_call (path : option bytes) (success : bool) (kind : option EditFailureKind)
    (soft_threshold hard_extra : N) (t : EditFailureTracker) : EditFailureTracker * EditConvergeAction :=
  let soft_threshold := N.max soft_threshold 1 in
  let hard_at := u64_sat_add soft_threshold (N.max hard_extra 1) in
  if success then (edit_default, EditNone)
  else
    let last_kind := option_or kind (ef_last_kind t) in
    let t :=
      match some_path path with
      | None => mkEditTracker None (sat_succ (ef_streak t)) last_kind (ef_soft_nudge_sent t) (ef_hard_stop_sent t)
      | Some path =>
          if bool_decide (ef_path t = Some path)
          then mkEditTracker (ef_path t) (sat_succ (ef_streak t)) last_kind (ef_soft_nudge_sent t) (ef_hard_stop_sent t)
          else mkEditTracker (Some path) 1 last_kind false false
      end in
    action_for_streak soft_threshold hard_at t.

(** ** read_repeat.rs: the tracker *)

Definition DEFAULT_READ_REPEAT_SOFT : N := 2.
Definition DEFAULT_READ_REPEAT_HARD : N := 3.
Definition CODING_READ_REPEAT_NUDGE : bytes :=
    text ["Coding read-repeat: you already Read this file **range** earlier in this request. Do **not** ";
      "Read the same offset/limit again. Unread ranges are listed in the Read footer and WorkingSet. ";
      "Use earlier line:hash anchors. Either Edit/Write now, or Read only an uncovered range."].
Definition CODING_READ_REPEAT_HARD_STOP : bytes :=
    text ["Coding read-repeat hard-stop: the same file was Read repeatedly without a file mutation. Stop ";
      "now. Summarize what you already know and either apply the edit or report the blocker. Do not ";
      "call Read again on this request."].
Definition CODING_UNCHANGED_STUB_NUDGE : bytes :=
    as_bytes "Coding: a Read returned " ++
    DQUOTE ++
    as_bytes "File unchanged since last read" ++
    DQUOTE ++
    text [". That means the earlier tool_result is still authoritative — do **not** Read again. Edit with ";
      "the anchors/text you already have, or stop."].
Definition is_unchanged_stub (content : bytes) : bool := contains_lit content "File unchanged since last read".
Inductive ReadRepeatAction := ReadNone | ReadSoftNudge | ReadHardStop | UnchangedStubNudge.
#[export] Instance ReadRepeatAction_eq_dec : EqDecision ReadRepeatAction.
Proof. solve_decision. Defined.
Definition range_key (path : bytes) (offset limit : option N) : bytes :=
  normalize_read_path path ++ as_bytes "#" ++ decimal (default 0%N offset) ++ as_bytes ":"
  ++ match limit with Some n => decimal n | None => as_bytes "end" end.
Record ReadRepeatTracker := mkReads {
  counts : gmap bytes N;
  rr_soft_nudge_sent : gmap bytes bool;
  rr_hard_stop_sent : bool;
  unchanged_nudge_sent : bool;
}.
Definition reads_default : ReadRepeatTracker := mkReads ∅ ∅ false false.
Definition observe_read_range (path result_content : option bytes) (offset limit : option N)
    (soft_threshold hard_threshold : N) (t : ReadRepeatTracker) : ReadRepeatTracker * ReadRepeatAction :=
  let soft_threshold := N.max soft_threshold 2 in
  let hard_threshold := N.max hard_threshold soft_threshold in
  let counted key := <[key := sat_succ (default 0%N (counts t !! key))]> (counts t) in
  if (match result_content with Some c => is_unchanged_stub c | None => false end) && negb (unchanged_nudge_sent t) then
    let counts :=
      match some_path path with
      | Some p => let key := range_key p offset limit in <[key := (default 0 (counts t !! key) + 1)%N]> (counts t)
      | None => counts t
      end in
    (mkReads counts (rr_soft_nudge_sent t) (rr_hard_stop_sent t) true, UnchangedStubNudge)
  else
    match some_path path with
    | None => (t, ReadNone)
    | Some path =>
        let key := range_key path offset limit in
        let counts := counted key in
        let count := default 0%N (counts !! key) in
        if (hard_threshold <=? count)%N && negb (rr_hard_stop_sent t) then
          (mkReads counts (rr_soft_nudge_sent t) true (unchanged_nudge_sent t), ReadHardStop)
        else if (soft_threshold <=? count)%N && negb (default false (rr_soft_nudge_sent t !! key)) then
          (mkReads counts (<[key := true]> (rr_soft_nudge_sent t)) (rr_hard_stop_sent t) (unchanged_nudge_sent t),
           ReadSoftNudge)
        else (mkReads counts (rr_soft_nudge_sent t) (rr_hard_stop_sent t) (unchanged_nudge_sent t), ReadNone)
    end.
Definition count_for_range (t : ReadRepeatTracker) (path : bytes) (offset limit : option N) : N :=
  default 0%N (counts t !! range_key path offset limit).

(** ** continuation.rs *)

Definition DEFAULT_MAX_SYSTEM_CONTINUATIONS : N := 8.
Record ContinuationBudget := mkBudget { used : N; max : N }.
Definition budget_new (max : N) : ContinuationBudget := mkBudget 0 (N.max max 1).
Definition budget_reset (b : ContinuationBudget) : ContinuationBudget := mkBudget 0 (max b).
Definition remaining (b : ContinuationBudget) : N := max b - used b.
Definition can_continue (b : ContinuationBudget) : bool := (used b <? max b)%N.
Definition try_consume (b : ContinuationBudget) : ContinuationBudget * bool :=
  if can_continue b then (mkBudget (sat_succ (used b)) (max b), true) else (b, false).

(** ** todo_continuation.rs *)

Inductive TodoContinuationMode := TodoUnlocked | TodoLocked | TodoOff.
Record PlanStepView := mkStepView { content : bytes; status : bytes }.
Definition PlanSnapshot : Type := list PlanStepView.
Definition is_completed_status (status : bytes) : bool :=
  one_of (str_lower status) ["completed"; "done"; "complete"].
Definition pending (steps : PlanSnapshot) : list PlanStepView :=
  filter (λ s, is_completed_status (status s) = false) steps.
Definition plan_is_empty (steps : PlanSnapshot) : bool := match steps with [] => true | _ => false end.
Definition all_completed (steps : PlanSnapshot) : bool := negb (plan_is_empty steps) && plan_is_empty (pending steps).
Definition pending_signature (steps : PlanSnapshot) : bytes :=
  bytes_join [u8 10] ((λ s, content s ++ as_bytes ":" ++ status s) <$> pending steps).
(** One entry of the plan; an entry without content is skipped. *)
Definition plan_step {Num} (e : Value Num) : option PlanStepView :=
  let content := default [] (option_or (get (as_bytes "content") e) (get (as_bytes "step") e) ≫= as_str) in
  let status := default (as_bytes "pending") (get (as_bytes "status") e ≫= as_str) in
  match content with [] => None | _ => Some (mkStepView content status) end.
(** [serde_json::from_str] is a parameter. *)
Definition parse_plan_update_content {Num} (from_str : bytes → option (Value Num)) (content : bytes) :
    option PlanSnapshot :=
  json_start ← find_subsequence (as_bytes "{") content;
  value ← from_str (bytes_trim (drop json_start content));
  if bool_decide (get (as_bytes "kind") value ≫= as_str = Some (as_bytes "plan_update")) then
    entries ← get (as_bytes "entries") value ≫= as_array;
    match omap plan_step entries with [] => None | steps => Some steps end
  else None.
Record TodoContinuationTracker := mkTodo {
  mode : TodoContinuationMode;
  latest : PlanSnapshot;
  last_nudge_signature : option bytes;
}.
Definition todo_new (mode : TodoContinuationMode) : TodoContinuationTracker := mkTodo mode [] None.
Definition todo_reset (t : TodoContinuationTracker) : TodoContinuationTracker := mkTodo (mode t) [] None.
Definition set_mode (m : TodoContinuationMode) (t : TodoContinuationTracker) : TodoContinuationTracker :=
  mkTodo m (latest t) (last_nudge_signature t).
Definition observe_plan (snapshot : PlanSnapshot) (t : TodoContinuationTracker) : TodoContinuationTracker :=
  mkTodo (mode t) snapshot
    (match last_nudge_signature t with
     | Some prev => if bool_decide (prev = pending_signature snapshot) then Some prev else None
     | None => None
     end).
(** The numbered list of remaining steps *)
Definition remaining_list (steps : list PlanStepView) : bytes :=
  bytes_join [u8 10]
    (imap (λ i s, as_bytes "  " ++ decimal (N.of_nat (i + 1)) ++ as_bytes ". [" ++ status s ++ as_bytes "] " ++ content s)
       steps).
Definition locked_nudge (steps : PlanSnapshot) (next : PlanStepView) : bytes :=
    as_bytes "[ephemeral:todo] You have " ++
    decimal (N.of_nat (length (pending steps))) ++
    as_bytes " uncompleted plan steps (" ++
    decimal (N.of_nat (length steps - length (pending steps))) ++
    as_bytes "/" ++
    decimal (N.of_nat (length steps)) ++
    as_bytes " done). You MUST continue before stopping." ++
    [u8 10] ++
    [u8 10] ++
    as_bytes "Remaining:" ++
    [u8 10] ++
    remaining_list (pending steps) ++
    [u8 10] ++
    [u8 10] ++
    as_bytes "Work on the first pending step next: " ++
    DQUOTE ++
    content next ++
    DQUOTE ++
    as_bytes ". Update `update_plan` when the milestone changes. Do not stop with incomplete plan steps.".
Definition unlocked_nudge (steps : PlanSnapshot) (next : PlanStepView) : bytes :=
    as_bytes "[ephemeral:todo] You still have " ++
    decimal (N.of_nat (length (pending steps))) ++
    as_bytes " uncompleted plan steps (" ++
    decimal (N.of_nat (length steps - length (pending steps))) ++
    as_bytes "/" ++
    decimal (N.of_nat (length steps)) ++
    as_bytes " done):" ++
    [u8 10] ++
    remaining_list (pending steps) ++
    [u8 10] ++
    [u8 10] ++
    as_bytes "If this plan still applies, keep going — work on " ++
    DQUOTE ++
    content next ++
    DQUOTE ++
    text [" next and call `update_plan` when status changes. If the user's latest request superseded this ";
      "plan, submit an `update_plan` with a completed/abandoned snapshot that matches what they ";
      "actually want, then proceed."].
Definition continuation_nudge (t : TodoContinuationTracker) : TodoContinuationTracker * option bytes :=
  match mode t with
  | TodoOff => (t, None)
  | _ =>
      if plan_is_empty (latest t) || all_completed (latest t) then (t, None)
      else
        match pending (latest t) with
        | [] => (t, None)
        | next :: _ =>
            let signature := pending_signature (latest t) in
            match mode t with
            | TodoOff => (t, None)
            | TodoLocked => (t, Some (locked_nudge (latest t) next))
            | TodoUnlocked =>
                if bool_decide (last_nudge_signature t = Some signature)
                then (mkTodo (mode t) (latest t) None, None)
                else (mkTodo (mode t) (latest t) (Some signature), Some (unlocked_nudge (latest t) next))
            end
        end
  end.

(** ** metrics.rs

    Readings of the clock, in milliseconds, are arguments. *)

Record HarnessKpi := mkKpi {
  tools_this_assistant_turn : N;
  assistant_turns_with_tools : N;
  total_tool_calls : N;
  recon_only_turns : N;
  kpi_serial_recon_turns : N;
  unique_read_keys : gset bytes;
  reread_keys : gset bytes;
  time_to_first_edit_ms : option N;
  first_edit_recorded : bool;
  verify_before_end : bool;
  contributor_ms : N;
  checkpoint_ms : N;
  ttft_ms : option N;
  tool_wall_ms : N;
  failure_nudges_suppressed : N;
  request_started : N;
}.
Definition kpi_default (now : N) : HarnessKpi := mkKpi 0 0 0 0 0 ∅ ∅ None false false 0 0 None 0 0 now.
Definition observe_assistant_tools (n : N) (k : HarnessKpi) : HarnessKpi :=
  let k := mkKpi n (assistant_turns_with_tools k) (total_tool_calls k) (recon_only_turns k)
    (kpi_serial_recon_turns k) (unique_read_keys k) (reread_keys k) (time_to_first_edit_ms k)
    (first_edit_recorded k) (verify_before_end k) (contributor_ms k) (checkpoint_ms k) (ttft_ms k)
    (tool_wall_ms k) (failure_nudges_suppressed k) (request_started k) in
  if (0 <? n)%N then
    mkKpi (tools_this_assistant_turn k) (sat_succ (assistant_turns_with_tools k))
    (u64_sat_add (total_tool_calls k) n) (recon_only_turns k) (kpi_serial_recon_turns k)
    (unique_read_keys k) (reread_keys k) (time_to_first_edit_ms k) (first_edit_recorded k)
    (verify_before_end k) (contributor_ms k) (checkpoint_ms k) (ttft_ms k) (tool_wall_ms k)
    (failure_nudges_suppressed k) (request_started k)
  else k.
Definition observe_recon_turn (serial : bool) (k : HarnessKpi) : HarnessKpi :=
  mkKpi (tools_this_assistant_turn k) (assistant_turns_with_tools k) (total_tool_calls k)
    (sat_succ (recon_only_turns k))
    (if serial then sat_succ (kpi_serial_recon_turns k) else kpi_serial_recon_turns k) (unique_read_keys k)
    (reread_keys k) (time_to_first_edit_ms k) (first_edit_recorded k) (verify_before_end k)
    (contributor_ms k) (checkpoint_ms k) (ttft_ms k) (tool_wall_ms k) (failure_nudges_suppressed k)
    (request_started k).
Definition observe_read_key (key : bytes) (k : HarnessKpi) : HarnessKpi :=
  if bool_decide (key = []) then k
  else if bool_decide (key ∈ unique_read_keys k) then
    mkKpi (tools_this_assistant_turn k) (assistant_turns_with_tools k) (total_tool_calls k)
    (recon_only_turns k) (kpi_serial_recon_turns k) (unique_read_keys k) ({[key]} ∪ reread_keys k)
    (time_to_first_edit_ms k) (first_edit_recorded k) (verify_before_end k) (contributor_ms k)
    (checkpoint_ms k) (ttft_ms k) (tool_wall_ms k) (failure_nudges_suppressed k) (request_started k)
  else
    mkKpi (tools_this_assistant_turn k) (assistant_turns_with_tools k) (total_tool_calls k)
    (recon_only_turns k) (kpi_serial_recon_turns k) ({[key]} ∪ unique_read_keys k) (reread_keys k)
    (time_to_first_edit_ms k) (first_edit_recorded k) (verify_before_end k) (contributor_ms k)
    (checkpoint_ms k) (ttft_ms k) (tool_wall_ms k) (failure_nudges_suppressed k) (request_started k).
Definition observe_edit (now : N) (k : HarnessKpi) : HarnessKpi :=
  if first_edit_recorded k then k
  else
    mkKpi (tools_this_assistant_turn k) (assistant_turns_with_tools k) (total_tool_calls k)
    (recon_only_turns k) (kpi_serial_recon_turns k) (unique_read_keys k) (reread_keys k)
    (Some ((now - request_started k) mod 18446744073709551616)%N) true (verify_before_end k)
    (contributor_ms k) (checkpoint_ms k) (ttft_ms k) (tool_wall_ms k) (failure_nudges_suppressed k)
    (request_started k).
Definition observe_failure_nudge_suppressed (k : HarnessKpi) : HarnessKpi :=
  mkKpi (tools_this_assistant_turn k) (assistant_turns_with_tools k) (total_tool_calls k)
    (recon_only_turns k) (kpi_serial_recon_turns k) (unique_read_keys k) (reread_keys k)
    (time_to_first_edit_ms k) (first_edit_recorded k) (verify_before_end k) (contributor_ms k)
    (checkpoint_ms k) (ttft_ms k) (tool_wall_ms k) (sat_succ (failure_nudges_suppressed k))
    (request_started k).
Definition set_verify_before_end (v : bool) (k : HarnessKpi) : HarnessKpi :=
  mkKpi (tools_this_assistant_turn k) (assistant_turns_with_tools k) (total_tool_calls k)
    (recon_only_turns k) (kpi_serial_recon_turns k) (unique_read_keys k) (reread_keys k)
    (time_to_first_edit_ms k) (first_edit_recorded k) v (contributor_ms k) (checkpoint_ms k) (ttft_ms k)
    (tool_wall_ms k) (failure_nudges_suppressed k) (request_started k).
Definition add_contributor_ms (ms : N) (k : HarnessKpi) : HarnessKpi :=
  mkKpi (tools_this_assistant_turn k) (assistant_turns_with_tools k) (total_tool_calls k)
    (recon_only_turns k) (kpi_serial_recon_turns k) (unique_read_keys k) (reread_keys k)
    (time_to_first_edit_ms k) (first_edit_recorded k) (verify_before_end k)
    (u64_sat_add (contributor_ms k) ms) (checkpoint_ms k) (ttft_ms k) (tool_wall_ms k)
    (failure_nudges_suppressed k) (request_started k).
Definition add_checkpoint_ms (ms : N) (k : HarnessKpi) : HarnessKpi :=
  mkKpi (tools_this_assistant_turn k) (assistant_turns_with_tools k) (total_tool_calls k)
    (recon_only_turns k) (kpi_serial_recon_turns k) (unique_read_keys k) (reread_keys k)
    (time_to_first_edit_ms k) (first_edit_recorded k) (verify_before_end k) (contributor_ms k)
    (u64_sat_add (checkpoint_ms k) ms) (ttft_ms k) (tool_wall_ms k) (failure_nudges_suppressed k)
    (request_started k).
Definition add_tool_wall_ms (ms : N) (k : HarnessKpi) : HarnessKpi :=
  mkKpi (tools_this_assistant_turn k) (assistant_turns_with_tools k) (total_tool_calls k)
    (recon_only_turns k) (kpi_serial_recon_turns k) (unique_read_keys k) (reread_keys k)
    (time_to_first_edit_ms k) (first_edit_recorded k) (verify_before_end k) (contributor_ms k)
    (checkpoint_ms k) (ttft_ms k) (u64_sat_add (tool_wall_ms k) ms) (failure_nudges_suppressed k)
    (request_started k).
Definition note_ttft_ms (ms : N) (k : HarnessKpi) : HarnessKpi :=
  match ttft_ms k with
  | Some _ => k
  | None => mkKpi (tools_this_assistant_turn k) (assistant_turns_with_tools k) (total_tool_calls k)
    (recon_only_turns k) (kpi_serial_recon_turns k) (unique_read_keys k) (reread_keys k)
    (time_to_first_edit_ms k) (first_edit_recorded k) (verify_before_end k) (contributor_ms k)
    (checkpoint_ms k) (Some ms) (tool_wall_ms k) (failure_nudges_suppressed k) (request_started k)
  end.
(** [as f32] and the division of binary32 *)
Definition f32_of_usize (n : N) : spec_float := binary_normalize 24 128 (Z.of_N n) 0 false.
Definition unique_path_reread_rate (k : HarnessKpi) : spec_float :=
  let n := N.of_nat (size (unique_read_keys k)) in
  if (n =? 0)%N then S754_zero false
  else SFdiv 24 128 (f32_of_usize (N.of_nat (size (reread_keys k)))) (f32_of_usize n).
Record HarnessKpiCounters := mkKpiCounters {
  kc_tools_this_assistant_turn : N;
  kc_assistant_turns_with_tools : N;
  kc_total_tool_calls : N;
  kc_recon_only_turns : N;
  kc_serial_recon_turns : N;
  kc_unique_read_keys : N;
  kc_reread_keys : N;
  kc_unique_path_reread_rate : spec_float;
  kc_time_to_first_edit_ms : option N;
  kc_verify_before_end : bool;
  kc_contributor_ms : N;
  kc_checkpoint_ms : N;
  kc_ttft_ms : option N;
  kc_tool_wall_ms : N;
  kc_failure_nudges_suppressed : N;
}.
Definition kpi_snapshot_counters (k : HarnessKpi) : HarnessKpiCounters :=
  mkKpiCounters (tools_this_assistant_turn k) (assistant_turns_with_tools k) (total_tool_calls k)
    (recon_only_turns k) (kpi_serial_recon_turns k) (N.of_nat (size (unique_read_keys k)))
    (N.of_nat (size (reread_keys k))) (unique_path_reread_rate k) (time_to_first_edit_ms k) (verify_before_end k)
    (contributor_ms k) (checkpoint_ms k) (ttft_ms k) (tool_wall_ms k) (failure_nudges_suppressed k).
Record HarnessProgressCounters := mkProgressCounters {
  pc_explore_only_turns : N;
  pc_recon_turns_total : N;
  pc_serial_recon_turns : N;
  pc_failed_turns : N;
  pc_mutated_files : bool;
  pc_verified_after_mutation : bool;
  pc_force_allow_finish : bool;
  pc_plan_mode_turns : N;
  pc_needs_verification_before_finish : bool;
}.
(** [CodingProgressGuard::snapshot_counters] *)
Definition snapshot_counters (g : CodingProgressGuard) : HarnessProgressCounters :=
  mkProgressCounters (explore_only_turns g) (recon_turns_total g) (serial_recon_turns g) (failed_turns g)
    (mutated_files g) (verified_after_mutation g) (force_allow_finish g) (plan_mode_turns g)
    (needs_verification_before_finish g).
Record HarnessProfilerSnapshot := mkProfiler {
  ps_progress : HarnessProgressCounters;
  ps_kpi : HarnessKpiCounters;
  ps_verify_fail_streak : N;
}.

Example todo_ex :
  let t := observe_plan [mkStepView (as_bytes "a") (as_bytes "Done"); mkStepView (as_bytes "b") (as_bytes "pending")]
             (todo_new TodoUnlocked) in
  let '(t, first_nudge) := continuation_nudge t in
  (bool_decide (is_Some first_nudge), (continuation_nudge t).2) = (true, None).
Proof. vm_compute. reflexivity. Qed.
