(* ===== verification/CodingHarness.v ===== *)
(** The coding harness (agent/nomi-coding/src/harness.rs), which composes the guards:
    it classifies the results of a tool turn, feeds every guard, collects nudges and
    hard stops, and decides whether a turn without tool calls may end.  serde_json's
    parser, the clock and the text of the constitution are arguments. *)
From S2P Require Import Prelude Utf8 Bytes Text Json ReadPaths WorkingSet CodingText CodingGuards.

(** ** Configuration *)

Inductive VerificationMode := SoftHint | HardGate | VerificationOff.
#[export] Instance VerificationMode_eq_dec : EqDecision VerificationMode.
Proof. solve_decision. Defined.
Definition mode_label (m : VerificationMode) : bytes :=
  match m with SoftHint => as_bytes "soft_hint" | HardGate => as_bytes "hard_gate" | VerificationOff => as_bytes "off" end.
Definition mode_parse (raw : option bytes) : VerificationMode :=
  match raw with
  | None => SoftHint
  | Some s =>
      let s := str_lower (bytes_trim s) in
      if one_of s ["hard_gate"; "hard"; "evidence"] then HardGate
      else if one_of s ["off"; "none"; "disabled"] then VerificationOff
      else SoftHint
  end.
Record CodingConfig := mkConfig {
  verification : VerificationMode;
  soft_verify_hint : bool;
  micro_keep_recent : N;
  protect_read_results : bool;
  constitution_every_tool_turn : bool;
  explore_budget : N;
  explore_hard_stop : N;
  recon_lifetime_budget : N;
  recon_lifetime_hard_stop : N;
  serial_recon_budget : N;
  serial_recon_hard_stop : N;
  edit_fail_converge : N;
  edit_fail_hard_extra : N;
  max_system_continuations : N;
  disable_goal_auto_continue : bool;
  todo_continuation : TodoContinuationMode;
  plan_mode_budget : N;
  plan_mode_hard_stop : N;
  read_repeat_soft : N;
  read_repeat_hard : N;
  verify_retry_cap : N;
}.
Definition config_default : CodingConfig :=
  mkConfig HardGate false 16 true false DEFAULT_EXPLORE_BUDGET DEFAULT_EXPLORE_HARD_STOP
    DEFAULT_RECON_LIFETIME_BUDGET DEFAULT_RECON_LIFETIME_HARD_STOP DEFAULT_SERIAL_RECON_BUDGET
    DEFAULT_SERIAL_RECON_HARD_STOP 3 2 DEFAULT_MAX_SYSTEM_CONTINUATIONS true TodoUnlocked
    DEFAULT_PLAN_MODE_BUDGET DEFAULT_PLAN_MODE_HARD_STOP DEFAULT_READ_REPEAT_SOFT DEFAULT_READ_REPEAT_HARD 3.
Definition from_host_extra (v : option bytes) (keep : option N) (protect constitution : option bool) : CodingConfig :=
  let c := config_default in
  mkConfig (match v with Some _ => mode_parse v | None => verification c end) (soft_verify_hint c)
    (match keep with Some n => if (0 <? n)%N then n else micro_keep_recent c | None => micro_keep_recent c end)
    (default (protect_read_results c) protect) (default (constitution_every_tool_turn c) constitution)
    (explore_budget c) (explore_hard_stop c) (recon_lifetime_budget c) (recon_lifetime_hard_stop c)
    (serial_recon_budget c) (serial_recon_hard_stop c) (edit_fail_converge c) (edit_fail_hard_extra c)
    (max_system_continuations c) (disable_goal_auto_continue c) (todo_continuation c) (plan_mode_budget c)
    (plan_mode_hard_stop c) (read_repeat_soft c) (read_repeat_hard c) (verify_retry_cap c).
Definition observe_params (c : CodingConfig) : ProgressObserveParams :=
  mkParams FAILED_NUDGE_THRESHOLD (explore_budget c) (explore_hard_stop c) (recon_lifetime_budget c)
    (recon_lifetime_hard_stop c) (serial_recon_budget c) (serial_recon_hard_stop c).

(** ** What the harness answers *)

Inductive ForcedFinalize := SyncPlan (reason : bytes) | Reply (reason : bytes).
Definition reason (f : ForcedFinalize) : bytes := match f with SyncPlan reason | Reply reason => reason end.
Inductive FinishDecision := Allow | ContinueWithNudge (nudge : bytes).
Definition finish_decision_label (d : FinishDecision) : bytes :=
  match d with Allow => as_bytes "allow" | ContinueWithNudge _ => as_bytes "continue_with_nudge" end.
Inductive FinishReason :=
| Clean | UnverifiedEnd | ForcedAllow | TrivialMutation | VerifyGate | VerifyBudgetExhausted | TodoContinuation
| TodoBudgetExhausted.
#[export] Instance FinishReason_eq_dec : EqDecision FinishReason.
Proof. solve_decision. Defined.
Definition reason_label (r : FinishReason) : bytes :=
  match r with
  | Clean => as_bytes "clean"
  | UnverifiedEnd => as_bytes "unverified_end"
  | ForcedAllow => as_bytes "forced_allow"
  | TrivialMutation => as_bytes "trivial_mutation"
  | VerifyGate => as_bytes "verify_gate"
  | VerifyBudgetExhausted => as_bytes "verify_budget_exhausted"
  | TodoContinuation => as_bytes "todo_continuation"
  | TodoBudgetExhausted => as_bytes "todo_budget_exhausted"
  end.
Record FinishGateFacts := mkFacts {
  gate_reason : bytes;
  gate_verification_mode : bytes;
  gate_needs_verification : bool;
  gate_mutated_files : bool;
  gate_verified_after_mutation : bool;
  gate_trivial_mutation : bool;
  gate_trivial_mutation_ext : option bytes;
}.
Record NudgeMeta := mkMeta { meta_kind : bytes; detail : option bytes; tool : option bytes }.
Definition kind_meta (k : string) : NudgeMeta := mkMeta (as_bytes k) None None.
Definition detailed (k : string) (d : bytes) : NudgeMeta := mkMeta (as_bytes k) (Some d) None.
Record NudgeBatch := mkNudges { texts : list bytes; metas : list NudgeMeta }.
Definition push (meta : NudgeMeta) (text : bytes) (b : NudgeBatch) : NudgeBatch :=
  mkNudges (texts b ++ [text]) (metas b ++ [meta]).
Record ToolTurnNudge := mkToolTurnNudge {
  nudge_texts : list bytes;
  nudge_metas : list NudgeMeta;
  hard_stop : option bytes;
  hard_stop_meta : option NudgeMeta;
  progress_action : CodingProgressAction;
  profiler : HarnessProfilerSnapshot;
  nudge_recon_only : bool;
  parent_tool_count : N;
}.
Record ToolCallOutcome := mkOutcome {
  name : bytes;
  success : bool;
  command : option bytes;
  file_path : option bytes;
  error_content : option bytes;
  result_content : option bytes;
  offset : option N;
  limit : option N;
}.
Record ToolSuccessFlags := mkFlags {
  any : bool;
  mutating : bool;
  file_mutation : bool;
  flag_verification : bool;
}.
Definition classify_tool_success (name : bytes) (command : option bytes) (success : bool) : ToolSuccessFlags :=
  if negb success then mkFlags false false false false
  else
    mkFlags true
      (is_mutating_tool name && negb (one_of name ["Bash"; "exec_command"]))
      (one_of name ["Edit"; "Write"; "ApplyPatch"])
      (one_of name ["Bash"; "exec_command"] && default false (looks_like_verification_command <$> command)
       || eq_ignore_ascii_case name (as_bytes "verify_change")).
Definition recon_turn_facts (outcomes : list ToolCallOutcome) : bool * N :=
  let parent := filter (λ o, is_isolated_subagent_tool (name o) = false) outcomes in
  match parent with
  | [] => (false, 0%N)
  | _ => (forallb (λ o, is_recon_tool (name o) (command o)) parent, N.of_nat (length parent))
  end.
Fixpoint edited_loop (edited : list bytes) (outcomes : list ToolCallOutcome) : option (list bytes) :=
  match outcomes with
  | [] => Some edited
  | o :: outcomes =>
      let edited :=
        if success o && one_of (name o) ["Edit"; "Write"]
        then match file_path o with Some path => edited ++ [path] | None => edited end
        else edited in
      if success o && is_lit (name o) "ApplyPatch" then None else edited_loop edited outcomes
  end.
Definition trivial_mutation_ext_of (outcomes : list ToolCallOutcome) : option bytes :=
  edited ← edited_loop [] outcomes;
  match edited with
  | [p] =>
      let path := str_lower p in
      i ← rposition (is_byte 46) path;
      let ext := drop (S i) path in
      if one_of ext ["md"; "txt"; "json"; "toml"; "yml"; "yaml"; "lock"; "svg"; "css"; "html"; "xml"]
      then Some ext else None
  | _ => None
  end.

(** ** The harness *)

Record CodingHarness := mkHarness {
  config : CodingConfig;
  env : option CodingEnvContext;
  progress : CodingProgressGuard;
  edit_failures : EditFailureTracker;
  todo : TodoContinuationTracker;
  continuations : ContinuationBudget;
  read_repeat : ReadRepeatTracker;
  working_set : WorkingSet;
  kpi : HarnessKpi;
  plan_artifact : option PlanArtifact;
  verify_fail_streak : N;
  trivial_mutation_ext : option bytes;
  last_finish_gate : option FinishGateFacts;
  constitution_sent_this_request : bool;
  forced_finalize : option ForcedFinalize;
  mutations_since_plan : N;
  stale_plan_nudge_sent : bool;
}.
Definition harness_new (now : N) (env : option CodingEnvContext) (config : CodingConfig) : CodingHarness :=
  mkHarness config env progress_default edit_default (todo_new (todo_continuation config))
    (budget_new (max_system_continuations config)) reads_default ∅ (kpi_default now) None 0 None None false None 0 false.
(** Assignments to the fields *)
Definition set_env (v : option CodingEnvContext) (h : CodingHarness) : CodingHarness :=
  mkHarness (config h) v (progress h) (edit_failures h) (todo h) (continuations h) (read_repeat h)
    (working_set h) (kpi h) (plan_artifact h) (verify_fail_streak h) (trivial_mutation_ext h)
    (last_finish_gate h) (constitution_sent_this_request h) (forced_finalize h) (mutations_since_plan h)
    (stale_plan_nudge_sent h).
Definition set_progress (v : CodingProgressGuard) (h : CodingHarness) : CodingHarness :=
  mkHarness (config h) (env h) v (edit_failures h) (todo h) (continuations h) (read_repeat h)
    (working_set h) (kpi h) (plan_artifact h) (verify_fail_streak h) (trivial_mutation_ext h)
    (last_finish_gate h) (constitution_sent_this_request h) (forced_finalize h) (mutations_since_plan h)
    (stale_plan_nudge_sent h).
Definition set_edit_failures (v : EditFailureTracker) (h : CodingHarness) : CodingHarness :=
  mkHarness (config h) (env h) (progress h) v (todo h) (continuations h) (read_repeat h) (working_set h)
    (kpi h) (plan_artifact h) (verify_fail_streak h) (trivial_mutation_ext h) (last_finish_gate h)
    (constitution_sent_this_request h) (forced_finalize h) (mutations_since_plan h)
    (stale_plan_nudge_sent h).
Definition set_todo (v : TodoContinuationTracker) (h : CodingHarness) : CodingHarness :=
  mkHarness (config h) (env h) (progress h) (edit_failures h) v (continuations h) (read_repeat h)
    (working_set h) (kpi h) (plan_artifact h) (verify_fail_streak h) (trivial_mutation_ext h)
    (last_finish_gate h) (constitution_sent_this_request h) (forced_finalize h) (mutations_since_plan h)
    (stale_plan_nudge_sent h).
Definition set_continuations (v : ContinuationBudget) (h : CodingHarness) : CodingHarness :=
  mkHarness (config h) (env h) (progress h) (edit_failures h) (todo h) v (read_repeat h) (working_set h)
    (kpi h) (plan_artifact h) (verify_fail_streak h) (trivial_mutation_ext h) (last_finish_gate h)
    (constitution_sent_this_request h) (forced_finalize h) (mutations_since_plan h)
    (stale_plan_nudge_sent h).
Definition set_read_repeat (v : ReadRepeatTracker) (h : CodingHarness) : CodingHarness :=
  mkHarness (config h) (env h) (progress h) (edit_failures h) (todo h) (continuations h) v (working_set h)
    (kpi h) (plan_artifact h) (verify_fail_streak h) (trivial_mutation_ext h) (last_finish_gate h)
    (constitution_sent_this_request h) (forced_finalize h) (mutations_since_plan h)
    (stale_plan_nudge_sent h).
Definition set_working_set (v : WorkingSet) (h : CodingHarness) : CodingHarness :=
  mkHarness (config h) (env h) (progress h) (edit_failures h) (todo h) (continuations h) (read_repeat h) v
    (kpi h) (plan_artifact h) (verify_fail_streak h) (trivial_mutation_ext h) (last_finish_gate h)
    (constitution_sent_this_request h) (forced_finalize h) (mutations_since_plan h)
    (stale_plan_nudge_sent h).
Definition set_kpi (v : HarnessKpi) (h : CodingHarness) : CodingHarness :=
  mkHarness (config h) (env h) (progress h) (edit_failures h) (todo h) (continuations h) (read_repeat h)
    (working_set h) v (plan_artifact h) (verify_fail_streak h) (trivial_mutation_ext h) (last_finish_gate h)
    (constitution_sent_this_request h) (forced_finalize h) (mutations_since_plan h)
    (stale_plan_nudge_sent h).
Definition set_plan_artifact (v : option PlanArtifact) (h : CodingHarness) : CodingHarness :=
  mkHarness (config h) (env h) (progress h) (edit_failures h) (todo h) (continuations h) (read_repeat h)
    (working_set h) (kpi h) v (verify_fail_streak h) (trivial_mutation_ext h) (last_finish_gate h)
    (constitution_sent_this_request h) (forced_finalize h) (mutations_since_plan h)
    (stale_plan_nudge_sent h).
Definition set_verify_fail_streak (v : N) (h : CodingHarness) : CodingHarness :=
  mkHarness (config h) (env h) (progress h) (edit_failures h) (todo h) (continuations h) (read_repeat h)
    (working_set h) (kpi h) (plan_artifact h) v (trivial_mutation_ext h) (last_finish_gate h)
    (constitution_sent_this_request h) (forced_finalize h) (mutations_since_plan h)
    (stale_plan_nudge_sent h).
Definition set_trivial_mutation_ext (v : option bytes) (h : CodingHarness) : CodingHarness :=
  mkHarness (config h) (env h) (progress h) (edit_failures h) (todo h) (continuations h) (read_repeat h)
    (working_set h) (kpi h) (plan_artifact h) (verify_fail_streak h) v (last_finish_gate h)
    (constitution_sent_this_request h) (forced_finalize h) (mutations_since_plan h)
    (stale_plan_nudge_sent h).
Definition set_last_finish_gate (v : option FinishGateFacts) (h : CodingHarness) : CodingHarness :=
  mkHarness (config h) (env h) (progress h) (edit_failures h) (todo h) (continuations h) (read_repeat h)
    (working_set h) (kpi h) (plan_artifact h) (verify_fail_streak h) (trivial_mutation_ext h) v
    (constitution_sent_this_request h) (forced_finalize h) (mutations_since_plan h)
    (stale_plan_nudge_sent h).
Definition set_constitution_sent (v : bool) (h : CodingHarness) : CodingHarness :=
  mkHarness (config h) (env h) (progress h) (edit_failures h) (todo h) (continuations h) (read_repeat h)
    (working_set h) (kpi h) (plan_artifact h) (verify_fail_streak h) (trivial_mutation_ext h)
    (last_finish_gate h) v (forced_finalize h) (mutations_since_plan h) (stale_plan_nudge_sent h).
Definition set_forced_finalize (v : option ForcedFinalize) (h : CodingHarness) : CodingHarness :=
  mkHarness (config h) (env h) (progress h) (edit_failures h) (todo h) (continuations h) (read_repeat h)
    (working_set h) (kpi h) (plan_artifact h) (verify_fail_streak h) (trivial_mutation_ext h)
    (last_finish_gate h) (constitution_sent_this_request h) v (mutations_since_plan h)
    (stale_plan_nudge_sent h).
Definition set_plan_staleness (mutations : N) (sent : bool) (h : CodingHarness) : CodingHarness :=
  mkHarness (config h) (env h) (progress h) (edit_failures h) (todo h) (continuations h) (read_repeat h)
    (working_set h) (kpi h) (plan_artifact h) (verify_fail_streak h) (trivial_mutation_ext h)
    (last_finish_gate h) (constitution_sent_this_request h) (forced_finalize h) mutations sent.

Definition reset_for_user_request (now : N) (h : CodingHarness) : CodingHarness :=
  mkHarness (config h) (env h) progress_default edit_default (todo_reset (todo h))
    (budget_new (max_system_continuations (config h))) reads_default (ws_reset (working_set h)) (kpi_default now) None 0
    None None false None 0 false.
Definition reset_progress (h : CodingHarness) : CodingHarness :=
  set_trivial_mutation_ext None (set_verify_fail_streak 0 (set_working_set (ws_reset (working_set h))
    (set_read_repeat reads_default (set_edit_failures edit_default (set_progress progress_default h))))).
Definition remaining_plan (h : CodingHarness) : option PlanSnapshot :=
  let latest := latest (todo h) in
  if plan_is_empty latest || all_completed latest then None else Some latest.
Definition begin_forced_finalize (reason : bytes) (h : CodingHarness) : CodingHarness :=
  match forced_finalize h with
  | Some _ => h
  | None => set_forced_finalize (Some (match remaining_plan h with Some _ => SyncPlan reason | None => Reply reason end)) h
  end.
Definition is_forced_finalize (h : CodingHarness) : bool := bool_decide (is_Some (forced_finalize h)).
Definition allows_update_plan_on_finalize (h : CodingHarness) : bool :=
  match forced_finalize h with Some (SyncPlan _) => true | _ => false end.
Definition ignores_finalize_tool (h : CodingHarness) (name : bytes) : bool :=
  match forced_finalize h with
  | None => false
  | Some (Reply _) => true
  | Some (SyncPlan _) => negb (eq_ignore_ascii_case name (as_bytes "update_plan"))
  end.
(** [take] empties the field; only the plan-sync pass puts something back. *)
Definition advance_after_plan_sync (h : CodingHarness) : CodingHarness :=
  set_forced_finalize (match forced_finalize h with Some (SyncPlan reason) => Some (Reply reason) | _ => None end) h.
Definition forced_finalize_reason (h : CodingHarness) : option bytes := reason <$> forced_finalize h.
Definition take_forced_finalize (h : CodingHarness) : CodingHarness * option bytes :=
  match forced_finalize h with
  | Some (Reply reason) => (set_forced_finalize None h, Some reason)
  | other => (set_forced_finalize other h, None)
  end.
Definition compact_overrides (h : CodingHarness) : N := N.max (micro_keep_recent (config h)) 1.
Definition env_block (h : CodingHarness) : option bytes := env h ≫= format_env_context.
Definition post_compact_reinject (h : CodingHarness) : bytes :=
  as_bytes "[Coding context restored after compaction]" ++
    [u8 10] ++
    text ["Prior tool transcripts were summarized. Prefer facts already in the summary and the WorkingSet. ";
      "Re-Read **only uncovered ranges** when about to Edit. Do not restart a workspace-wide tour."] ++
    [u8 10] ++
    [u8 10]
  ++ index_block (working_set h) ++ [u8 10]
  ++ match plan_artifact h with Some plan => [u8 10] ++ summary_block plan | None => [] end
  ++ match env_block h with Some block => [u8 10; u8 10] ++ block | None => [] end.
Definition turn_tail (overlay : bytes) (last_user_has_text : bool) (h : CodingHarness) : CodingHarness * option bytes :=
  let parts :=
    (if constitution_every_tool_turn (config h) then [overlay] else [])
    ++ option_list (env_block h)
    ++ (if bool_decide (working_set h = ∅) then [] else [index_block (working_set h)]) in
  (if last_user_has_text && negb (constitution_sent_this_request h) then set_constitution_sent true h else h,
   match parts with [] => None | _ => Some (bytes_join [u8 10; u8 10] parts) end).
Definition before_provider_turn (plan_mode_active : bool) (h : CodingHarness) : CodingHarness * option bytes :=
  let '(g, action) :=
    observe_plan_mode_turn plan_mode_active (plan_mode_budget (config h)) (plan_mode_hard_stop (config h)) (progress h) in
  (set_progress g h,
   match action with
   | NudgePlanTimeout => Some CODING_PLAN_TIMEOUT_NUDGE
   | HardStopPlanTimeout => Some CODING_PLAN_HARD_STOP
   | _ => None
   end).
Definition abort_before_provider (h : CodingHarness) : option bytes :=
  if force_allow_finish (progress h) && (0 <? plan_mode_turns (progress h))%N
     && (plan_mode_hard_stop (config h) <=? plan_mode_turns (progress h))%N
  then Some CODING_PLAN_HARD_STOP else None.
Definition profiler_snapshot (h : CodingHarness) : HarnessProfilerSnapshot :=
  mkProfiler (snapshot_counters (progress h)) (kpi_snapshot_counters (kpi h)) (verify_fail_streak h).

(** ** The natural end of a turn *)

Definition finish_gate_inputs (h : CodingHarness) (r : FinishReason) : FinishGateFacts :=
  let progress := snapshot_counters (progress h) in
  mkFacts (reason_label r) (mode_label (verification (config h))) (pc_needs_verification_before_finish progress)
    (pc_mutated_files progress) (pc_verified_after_mutation progress) (bool_decide (is_Some (trivial_mutation_ext h)))
    (trivial_mutation_ext h).
Definition decide_natural_end (h : CodingHarness) : CodingHarness * (FinishDecision * FinishReason) :=
  let needs := needs_verification_before_finish (progress h) in
  if force_allow_finish (progress h) then
    (set_progress (set_force_allow_finish false (progress h)) h, (Allow, ForcedAllow))
  else if bool_decide (is_Some (trivial_mutation_ext h)) && needs then
    (set_kpi (set_verify_before_end false (kpi h)) h, (Allow, TrivialMutation))
  else if bool_decide (verification (config h) = HardGate) && needs then
    let '(budget, granted) := try_consume (continuations h) in
    let h := set_continuations budget h in
    if granted then
      (set_progress (mark_verification_nudge_sent (progress h)) h, (ContinueWithNudge CODING_VERIFY_NUDGE, VerifyGate))
    else (set_kpi (set_verify_before_end false (kpi h)) h, (Allow, VerifyBudgetExhausted))
  else
    let '(todo, nudge) := continuation_nudge (todo h) in
    let h := set_todo todo h in
    match nudge with
    | Some nudge =>
        let '(budget, granted) := try_consume (continuations h) in
        let h := set_continuations budget h in
        if granted then (h, (ContinueWithNudge nudge, TodoContinuation)) else (h, (Allow, TodoBudgetExhausted))
    | None =>
        let progress := snapshot_counters (progress h) in
        if pc_mutated_files progress && negb (pc_verified_after_mutation progress)
        then (h, (Allow, UnverifiedEnd)) else (h, (Allow, Clean))
    end.
Definition on_natural_end (h : CodingHarness) : CodingHarness * FinishDecision :=
  let inputs := finish_gate_inputs h Clean in
  let '(h, (decision, r)) := decide_natural_end h in
  (set_last_finish_gate
     (Some (mkFacts (reason_label r) (gate_verification_mode inputs) (gate_needs_verification inputs)
              (gate_mutated_files inputs) (gate_verified_after_mutation inputs) (gate_trivial_mutation inputs)
              (gate_trivial_mutation_ext inputs))) h, decision).
Definition finish_gate_facts (h : CodingHarness) : FinishGateFacts :=
  default (finish_gate_inputs h Clean) (last_finish_gate h).

(** ** A completed tool batch *)

(** The locals of the loop over the outcomes *)
Record Batch := mkBatch {
  b_harness : CodingHarness;
  b_tool_names : gset bytes;
  b_verification : bool;
  b_file_mutation : bool;
  b_any : bool;
  b_plan_update : bool;
  b_mutation_count : N;
  b_edit_action : EditConvergeAction;
  b_hard_stop : option (bytes * NudgeMeta);
  b_nudges : NudgeBatch;
}.
Definition batch_new (h : CodingHarness) : Batch := mkBatch h ∅ false false false false 0 EditNone None (mkNudges [] []).
Definition map_harness (f : CodingHarness → CodingHarness) (b : Batch) : Batch :=
  mkBatch (f (b_harness b)) (b_tool_names b) (b_verification b) (b_file_mutation b) (b_any b)
    (b_plan_update b) (b_mutation_count b) (b_edit_action b) (b_hard_stop b) (b_nudges b).
Definition add_nudge (meta : NudgeMeta) (text : bytes) (b : Batch) : Batch :=
  mkBatch (b_harness b) (b_tool_names b) (b_verification b) (b_file_mutation b) (b_any b)
    (b_plan_update b) (b_mutation_count b) (b_edit_action b) (b_hard_stop b) (push meta text (b_nudges b)).
Definition set_hard_stop (text : bytes) (meta : NudgeMeta) (b : Batch) : Batch :=
  mkBatch (b_harness b) (b_tool_names b) (b_verification b) (b_file_mutation b) (b_any b)
    (b_plan_update b) (b_mutation_count b) (b_edit_action b) (Some (text, meta)) (b_nudges b).
Definition set_edit_action (a : EditConvergeAction) (b : Batch) : Batch :=
  mkBatch (b_harness b) (b_tool_names b) (b_verification b) (b_file_mutation b) (b_any b)
    (b_plan_update b) (b_mutation_count b) a (b_hard_stop b) (b_nudges b).
Definition mark_plan_update (b : Batch) : Batch :=
  mkBatch (b_harness b) (b_tool_names b) (b_verification b) (b_file_mutation b) (b_any b) true
    (b_mutation_count b) (b_edit_action b) (b_hard_stop b) (b_nudges b).
Definition force_finish (h : CodingHarness) : CodingHarness := set_progress (set_force_allow_finish true (progress h)) h.

Section batch.
Context {Num : Type} (from_str : bytes → option (Value Num)) (now : N).

(** The flags of one outcome *)
Definition note_flags (o : ToolCallOutcome) (b : Batch) : Batch :=
  let flags := classify_tool_success (name o) (command o) (success o) in
  mkBatch (b_harness b) ({[name o]} ∪ b_tool_names b) (b_verification b || flag_verification flags)
    (b_file_mutation b || file_mutation flags) (b_any b || any flags) (b_plan_update b)
    (if file_mutation flags then sat_succ (b_mutation_count b) else b_mutation_count b)
    (b_edit_action b) (b_hard_stop b) (b_nudges b).
Definition note_plan_update (o : ToolCallOutcome) (b : Batch) : Batch :=
  if eq_ignore_ascii_case (name o) (as_bytes "update_plan") && success o then
    match result_content o ≫= parse_plan_update_content from_str with
    | Some snap => mark_plan_update (map_harness (λ h, set_todo (observe_plan snap (todo h)) h) b)
    | None => b
    end
  else b.
Definition note_plan_artifact (o : ToolCallOutcome) (b : Batch) : Batch :=
  if eq_ignore_ascii_case (name o) (as_bytes "ExitPlanMode") && success o then
    match result_content o with
    | Some content => map_harness (set_plan_artifact (Some (from_exit_content content))) b
    | None => b
    end
  else b.
Definition verify_cap_text (cap : N) : bytes :=
  as_bytes "Coding verify-retry cap (" ++ decimal cap
  ++ as_bytes "): stop retrying the same test/format command. Report the failure.".
(** The recovery nudge of a failed result *)
Definition note_error (o : ToolCallOutcome) (b : Batch) : Batch :=
  match error_content o with
  | None => b
  | Some err =>
      match failure_nudge_if_useful (name o) err with
      | Some nudge =>
          add_nudge (mkMeta (as_bytes "tool_failure") (Some (failure_label (from_tool (name o) err))) (Some (name o)))
            nudge b
      | None => map_harness (λ h, set_kpi (observe_failure_nudge_suppressed (kpi h)) h) b
      end
  end.
Definition note_failure (o : ToolCallOutcome) (b : Batch) : Batch :=
  if success o then b
  else
    let b := note_error o b in
    if one_of (name o) ["Bash"; "exec_command"] && default false (looks_like_verification_command <$> command o) then
      let b := map_harness (λ h, set_verify_fail_streak (sat_succ (verify_fail_streak h)) h) b in
      let cap := verify_retry_cap (config (b_harness b)) in
      if (cap <=? verify_fail_streak (b_harness b))%N
      then map_harness force_finish (set_hard_stop (verify_cap_text cap) (kind_meta "verify_retry_cap") b)
      else b
    else b.
(** [usize::MAX / 4] *)
Definition READ_LIMIT : N := 4611686018427387903.
Definition note_read_range (o : ToolCallOutcome) (path : bytes) (h : CodingHarness) : CodingHarness :=
  let offset := default 0%N (offset o) in
  let h := set_working_set
             (record_read (working_set h) path offset (N.min (default READ_LIMIT (limit o)) 10000) 10000 None) h in
  set_kpi (observe_read_key
             (normalize_read_path path ++ as_bytes "#" ++ decimal offset ++ as_bytes ":"
              ++ match limit o with Some n => decimal n | None => as_bytes "end" end) (kpi h)) h.
Definition note_read_path (o : ToolCallOutcome) (b : Batch) : Batch :=
  match file_path o with Some path => map_harness (note_read_range o path) b | None => b end.
Definition note_read (o : ToolCallOutcome) (b : Batch) : Batch :=
  if eq_ignore_ascii_case (name o) (as_bytes "Read") && success o then
    let b := note_read_path o b in
    let h := b_harness b in
    let '(reads, action) :=
      observe_read_range (file_path o) (result_content o) (offset o) (limit o) (read_repeat_soft (config h))
        (read_repeat_hard (config h)) (read_repeat h) in
    let b := map_harness (set_read_repeat reads) b in
    match action with
    | ReadNone => b
    | ReadSoftNudge => add_nudge (detailed "read_repeat" (as_bytes "soft")) CODING_READ_REPEAT_NUDGE b
    | UnchangedStubNudge => add_nudge (kind_meta "read_unchanged_stub") CODING_UNCHANGED_STUB_NUDGE b
    | ReadHardStop =>
        let meta := detailed "read_repeat" (as_bytes "hard") in
        map_harness force_finish
          (set_hard_stop CODING_READ_REPEAT_HARD_STOP meta (add_nudge meta CODING_READ_REPEAT_HARD_STOP b))
    end
  else b.
Definition note_edit_action (a : EditConvergeAction) (b : Batch) : Batch :=
  if bool_decide (a = EditNone) then b else set_edit_action a b.
Definition note_edit (o : ToolCallOutcome) (b : Batch) : Batch :=
  if one_of (name o) ["Edit"; "Write"; "ApplyPatch"] then
    let h := b_harness b in
    let kind := if success o then None else infer_edit_failure_kind <$> error_content o in
    let '(tracker, action) :=
      observe_edit_call (file_path o) (success o) kind (edit_fail_converge (config h)) (edit_fail_hard_extra (config h))
        (edit_failures h) in
    let b := map_harness (set_edit_failures tracker) b in
    let b := note_edit_action action b in
    if success o then
      map_harness (λ h,
        let h := set_kpi (observe_edit now (kpi h)) h in
        match file_path o with
        | Some path => set_working_set (record_edit (working_set h) path None) h
        | None => h
        end) b
    else b
  else b.
Definition note_outcome (b : Batch) (o : ToolCallOutcome) : Batch :=
  note_edit o (note_read o (note_failure o (note_plan_artifact o (note_plan_update o (note_flags o b))))).

(** Counters after the loop *)
Definition settle_batch (outcomes : list ToolCallOutcome) (b : Batch) : Batch :=
  let '(recon_only, parent_tool_count) := recon_turn_facts outcomes in
  map_harness (λ h,
    let k := observe_assistant_tools (N.of_nat (length outcomes)) (kpi h) in
    let k := if recon_only then observe_recon_turn (parent_tool_count =? 1)%N k else k in
    let h := if b_verification b then set_verify_fail_streak 0 h else h in
    let h := set_kpi (if b_verification b then set_verify_before_end true k else k) h in
    let h := set_trivial_mutation_ext (if b_file_mutation b then trivial_mutation_ext_of outcomes else None) h in
    if b_file_mutation b then set_read_repeat reads_default h else h) b.
Definition tool_turn (outcomes : list ToolCallOutcome) (b : Batch) : ToolTurn :=
  mkTurn (b_tool_names b) (b_verification b) (b_file_mutation b) (b_any b) (recon_turn_facts outcomes).1
    (recon_turn_facts outcomes).2.
Definition apply_progress_action (action : CodingProgressAction) (b : Batch) : Batch :=
  match action with
  | ContinueTurn | NudgeVerify => b
  | NudgeExplore => add_nudge (kind_meta "explore") CODING_EXPLORE_NUDGE b
  | NudgeExploreBudget kind =>
      add_nudge (detailed "explore_budget" (explore_budget_kind_label kind)) (explore_budget_nudge_text kind) b
  | HardStopExplore kind =>
      let text := explore_hard_stop_text kind in
      let meta := detailed "explore_hard_stop" (explore_budget_kind_label kind) in
      set_hard_stop text meta (add_nudge meta text b)
  | NudgePlanTimeout => add_nudge (kind_meta "plan_timeout") CODING_PLAN_TIMEOUT_NUDGE b
  | HardStopPlanTimeout =>
      set_hard_stop CODING_PLAN_HARD_STOP (kind_meta "plan_hard_stop")
        (add_nudge (kind_meta "plan_hard_stop") CODING_PLAN_HARD_STOP b)
  end.
Definition apply_edit_action (b : Batch) : Batch :=
  match b_edit_action b with
  | EditNone => b
  | EditSoftNudge => add_nudge (kind_meta "edit_converge") CODING_EDIT_CONVERGE_NUDGE b
  | EditHardStop =>
      map_harness force_finish
        (set_hard_stop CODING_EDIT_HARD_STOP (kind_meta "edit_hard_stop")
           (add_nudge (kind_meta "edit_hard_stop") CODING_EDIT_HARD_STOP b))
  end.
Definition apply_verify_hint (b : Batch) : Batch :=
  let h := b_harness b in
  if bool_decide (verification (config h) = SoftHint) && soft_verify_hint (config h) && b_file_mutation b
     && negb (b_verification b) && needs_verification_before_finish (progress h) then
    add_nudge (kind_meta "verify_hint") CODING_VERIFY_NUDGE
      (map_harness (set_progress (mark_verification_nudge_sent (progress h))) b)
  else b.
Definition apply_stale_plan (b : Batch) : Batch :=
  let h := b_harness b in
  if b_plan_update b then map_harness (set_plan_staleness 0 false) b
  else if (0 <? b_mutation_count b)%N then
    let mutations := u64_sat_add (mutations_since_plan h) (b_mutation_count b) in
    let latest := latest (todo h) in
    if negb (stale_plan_nudge_sent h) && negb (plan_is_empty latest) && negb (all_completed latest)
       && (PLAN_STALE_MUTATION_THRESHOLD <=? mutations)%N
    then add_nudge (kind_meta "stale_plan") CODING_STALE_PLAN_NUDGE (map_harness (set_plan_staleness mutations true) b)
    else map_harness (set_plan_staleness mutations (stale_plan_nudge_sent h)) b
  else b.
Definition after_tool_turn (outcomes : list ToolCallOutcome) (h : CodingHarness) : CodingHarness * ToolTurnNudge :=
  let b := settle_batch outcomes (foldl note_outcome (batch_new h) outcomes) in
  let h := b_harness b in
  let '(g, action) := observe_tool_turn (tool_turn outcomes b) (observe_params (config h)) (progress h) in
  let b := apply_progress_action action (map_harness (set_progress g) b) in
  let b := apply_stale_plan (apply_verify_hint (apply_edit_action b)) in
  (b_harness b,
   mkToolTurnNudge (texts (b_nudges b)) (metas (b_nudges b)) (fst <$> b_hard_stop b) (snd <$> b_hard_stop b) action
     (profiler_snapshot (b_harness b)) (recon_turn_facts outcomes).1 (recon_turn_facts outcomes).2).
End batch.

