(* ===== verification/CodingTheorems.v ===== *)
(** Properties of the coding guards: exploration tours are bounded, repeated reads and
    failing edits are counted as intended, and which failures of an edit are told
    apart. *)
From S2P Require Import Prelude Utf8 Bytes Text ReadPaths CodingText CodingGuards.

(** ** Tours

    A trace lists turns and answers, newest first.  A turn clears the tour when it
    changed files, verified, or ran something that is neither recon nor isolated; a
    recon turn counts; any other turn (failed, or isolated subagents only) does
    neither. *)
Section tour.
Context (params : ProgressObserveParams).

Definition isolated (t : ToolTurn) : bool :=
  negb (bool_decide (tool_names t = ∅))
  && bool_decide (set_Forall (λ n, is_isolated_subagent_tool n = true) (tool_names t)).
Definition is_recon (t : ToolTurn) : bool :=
  negb (had_successful_verification t) && had_any_successful_result t && negb (isolated t) && recon_only t.
Definition clears (t : ToolTurn) : bool :=
  had_file_mutation t || had_successful_verification t
  || had_any_successful_result t && negb (isolated t) && negb (recon_only t).

Abbreviation trace := (list (ToolTurn * CodingProgressAction)).
Fixpoint guard_run (turns : list ToolTurn) : CodingProgressGuard * trace :=
  match turns with
  | [] => (progress_default, [])
  | t :: turns =>
      let '(g, h) := guard_run turns in
      let '(g, action) := observe_tool_turn t params g in (g, (t, action) :: h)
  end.
(** The part of a trace since the last clearing turn *)
Fixpoint tour (h : trace) : trace :=
  match h with
  | [] => []
  | (t, a) :: h => if clears t then (if is_recon t then [(t, a)] else []) else (t, a) :: tour h
  end.
Definition recons (h : trace) : list ToolTurn := filter (λ t, is_recon t = true) h.*1.
Fixpoint singles (ts : list ToolTurn) : nat :=
  match ts with t :: ts => if (tool_count t =? 1)%N then S (singles ts) else 0 | [] => 0 end.
Definition consecutive (h : trace) : N := N.of_nat (length (recons (tour h))).
Definition serial (h : trace) : N := N.of_nat (singles (recons (tour h))).
Definition total (h : trace) : N := N.of_nat (length (recons h)).
Definition mutated (h : trace) : bool := existsb (λ ta, had_file_mutation ta.1) h.
Definition answered (a : CodingProgressAction) (h : trace) : bool := existsb (λ ta, bool_decide (ta.2 = a)) h.
Definition times (a : CodingProgressAction) (h : trace) : nat := length (filter (λ ta, ta.2 = a) h).
Definition hard_limit (soft hard : N) : N := N.max hard (N.max soft 1).
Definition consecutive_hard : N := hard_limit (p_explore_budget params) (p_explore_hard_stop params).
Definition lifetime_hard : N := hard_limit (p_recon_lifetime_budget params) (p_recon_lifetime_hard_stop params).
Definition serial_hard : N := hard_limit (p_serial_recon_budget params) (p_serial_recon_hard_stop params).
Definition is_hard_stop (a : CodingProgressAction) : bool := match a with HardStopExplore _ => true | _ => false end.
Definition stopped (h : trace) : bool := existsb (λ ta, is_hard_stop ta.2) h.

(** What the guard's fields count *)
Record tour_inv (h : trace) (g : CodingProgressGuard) : Prop := {
  inv_consecutive : explore_only_turns g = N.min (consecutive h) u64_max;
  inv_total : recon_turns_total g = N.min (total h) u64_max;
  inv_serial : serial_recon_turns g = N.min (serial h) u64_max;
  inv_mutated : mutated_files g = mutated h;
  inv_hard : explore_hard_stop_sent g = answered (HardStopExplore ConsecutiveTour) (tour h);
  inv_lifetime : lifetime_hard_stop_sent g = answered (HardStopExplore LifetimeRecon) h;
  inv_stopped : (consecutive_hard <= consecutive h)%N → stopped (tour h) = true;
  inv_stopped_lifetime : (lifetime_hard <= total h)%N → mutated h = false → stopped h = true;
}.

Lemma sat_succ_count n : sat_succ (N.min (N.of_nat n) u64_max) = N.min (N.of_nat (S n)) u64_max.
Proof. unfold sat_succ, u64_sat_add. lia. Qed.
Lemma sent_below x y sent : (x <=? y)%N && negb sent = false → (x <= y)%N → sent = true.
Proof. rewrite andb_false_iff, N.leb_gt, negb_false_iff. intros [?|?]; [lia|done]. Qed.
Lemma sent_unmutated m x y sent :
  negb m && (x <=? y)%N && negb sent = false → (x <= y)%N → m = false → sent = true.
Proof. intros H Hle ->. exact (sent_below _ _ _ H Hle). Qed.

Lemma recon_turn_spec n g g' a :
  observe_recon_only_turn n params g = (g', a) →
  explore_only_turns g' = sat_succ (explore_only_turns g) ∧
  recon_turns_total g' = sat_succ (recon_turns_total g) ∧
  serial_recon_turns g' = (if (n =? 1)%N then sat_succ (serial_recon_turns g) else 0%N) ∧
  mutated_files g' = mutated_files g ∧
  explore_hard_stop_sent g' = explore_hard_stop_sent g || bool_decide (a = HardStopExplore ConsecutiveTour) ∧
  lifetime_hard_stop_sent g' = lifetime_hard_stop_sent g || bool_decide (a = HardStopExplore LifetimeRecon) ∧
  match a with
  | HardStopExplore SerialRoundTrip => (serial_hard <= serial_recon_turns g')%N
  | HardStopExplore ConsecutiveTour => (consecutive_hard <= explore_only_turns g')%N ∧ explore_hard_stop_sent g = false
  | HardStopExplore LifetimeRecon =>
      (lifetime_hard <= recon_turns_total g')%N ∧ mutated_files g = false ∧ lifetime_hard_stop_sent g = false
  | _ =>
      ((consecutive_hard <= explore_only_turns g')%N → explore_hard_stop_sent g = true) ∧
      ((lifetime_hard <= recon_turns_total g')%N → mutated_files g = false → lifetime_hard_stop_sent g = true)
  end.
Proof.
  unfold observe_recon_only_turn. fold consecutive_hard lifetime_hard serial_hard.
  destruct (n =? 1)%N; cbn [set_recon set_serial_sent explore_only_turns recon_turns_total serial_recon_turns mutated_files
    explore_hard_stop_sent lifetime_hard_stop_sent serial_hard_stop_sent serial_nudge_sent lifetime_nudge_sent
    explore_budget_nudge_sent].
  all: repeat case_match; intros; simplify_eq; cbn.
  all: repeat match goal with H : _ && _ = true |- _ => apply andb_true_iff in H as [? ?] end.
  all: repeat match goal with H : negb _ = true |- _ => apply negb_true_iff in H end.
  all: repeat match goal with H : (_ <=? _)%N = true |- _ => apply N.leb_le in H end.
  all: rewrite ?orb_false_r, ?orb_true_r; split_and!; first [done|eapply sent_below; eassumption|eapply sent_unmutated; eassumption].
Qed.

Lemma recons_cons t a h : recons ((t, a) :: h) = if is_recon t then t :: recons h else recons h.
Proof. unfold recons. cbn [fmap list_fmap fst]. rewrite filter_cons. case_decide as Hr; by destruct (is_recon t). Qed.
Lemma recons_tour_cons t a h :
  recons (tour ((t, a) :: h)) =
    (if is_recon t then [t] else []) ++ (if clears t then [] else recons (tour h)).
Proof. cbn [tour]. destruct (clears t), (is_recon t) eqn:Hr; rewrite ?recons_cons, ?Hr; done. Qed.
Lemma consecutive_cons t a h :
  consecutive ((t, a) :: h) = ((if clears t then 0 else consecutive h) + (if is_recon t then 1 else 0))%N.
Proof.
  unfold consecutive. rewrite recons_tour_cons. destruct (clears t), (is_recon t); cbn [app length]; lia.
Qed.
Lemma total_cons t a h : total ((t, a) :: h) = (total h + (if is_recon t then 1 else 0))%N.
Proof. unfold total. rewrite recons_cons. destruct (is_recon t); cbn [length]; lia. Qed.
Lemma serial_cons t a h :
  serial ((t, a) :: h) =
    let base := if clears t then 0%N else serial h in
    if is_recon t then (if (tool_count t =? 1)%N then (base + 1)%N else 0%N) else base.
Proof.
  unfold serial. rewrite recons_tour_cons. destruct (clears t), (is_recon t); cbn [app singles]; try done;
    destruct (tool_count t =? 1)%N; cbn [singles]; lia.
Qed.
Lemma answered_tour_cons b t a h :
  answered b (tour ((t, a) :: h)) =
    (if clears t then is_recon t && bool_decide (a = b) else bool_decide (a = b) || answered b (tour h)).
Proof. cbn [tour]. destruct (clears t), (is_recon t); cbn; rewrite ?orb_false_r; done. Qed.
Lemma stopped_tour_cons t a h :
  stopped (tour ((t, a) :: h)) = (if clears t then is_recon t && is_hard_stop a else is_hard_stop a || stopped (tour h)).
Proof. cbn [tour]. destruct (clears t), (is_recon t); cbn; rewrite ?orb_false_r; done. Qed.
Lemma answered_stopped k h : answered (HardStopExplore k) h = true → stopped h = true.
Proof.
  unfold answered, stopped. rewrite !existsb_exists. intros (ta&Hin&Ha%bool_decide_eq_true_1). exists ta. by rewrite Ha.
Qed.
Lemma hard_limit_pos soft hard : (1 <= hard_limit soft hard)%N.
Proof. unfold hard_limit. lia. Qed.

(** What a turn does to the guard before its recon is counted *)
Definition entered (t : ToolTurn) (g : CodingProgressGuard) : CodingProgressGuard :=
  if had_file_mutation t
  then set_force_allow_finish false (clear_consecutive_recon_streak (set_verification true false false g)) else g.
Lemma observe_cases t g g' a :
  observe_tool_turn t params g = (g', a) →
  if is_recon t then
    observe_recon_only_turn (tool_count t) params (set_failed_turns 0 (entered t g)) = (g', a) ∧
    clears t = had_file_mutation t
  else
    is_hard_stop a = false ∧
    explore_only_turns g' = (if clears t then 0 else explore_only_turns g)%N ∧
    serial_recon_turns g' = (if clears t then 0 else serial_recon_turns g)%N ∧
    recon_turns_total g' = recon_turns_total g ∧
    mutated_files g' = had_file_mutation t || mutated_files g ∧
    explore_hard_stop_sent g' = (if clears t then false else explore_hard_stop_sent g) ∧
    lifetime_hard_stop_sent g' = lifetime_hard_stop_sent g.
Proof.
  unfold observe_tool_turn, is_recon, clears, entered, isolated.
  destruct (negb (bool_decide (tool_names t = ∅)) && _) eqn:Hi;
    destruct (had_file_mutation t), (had_successful_verification t), (had_any_successful_result t), (recon_only t);
    cbn [orb andb negb]; intros H; simplify_eq; try case_match; done.
Qed.
(** What an answer of the guard says about the turns so far *)
Definition answer_ok h t a : Prop :=
  match a with
  | HardStopExplore SerialRoundTrip => (serial_hard <= serial ((t, a) :: h))%N
  | HardStopExplore ConsecutiveTour =>
      (consecutive_hard <= consecutive ((t, a) :: h))%N ∧ (clears t = false → answered a (tour h) = false)
  | HardStopExplore LifetimeRecon =>
      (lifetime_hard <= total ((t, a) :: h))%N ∧ mutated ((t, a) :: h) = false ∧ answered a h = false
  | _ => True
  end.
Lemma recon_step h g t g' a :
  (consecutive_hard <= u64_max)%N → (lifetime_hard <= u64_max)%N → (serial_hard <= u64_max)%N →
  tour_inv h g → is_recon t = true → observe_tool_turn t params g = (g', a) →
  tour_inv ((t, a) :: h) g' ∧ answer_ok h t a.
Proof.
  intros Hc Hl Hs [Ic It Is Im Ih Il Ist Isl] Hr Hobs. apply observe_cases in Hobs. rewrite Hr in Hobs.
  pose proof (hard_limit_pos (p_explore_budget params) (p_explore_hard_stop params)) as Hc1.
  fold consecutive_hard in Hc1.
  destruct Hobs as [Hobs Hclears]. apply recon_turn_spec in Hobs as (Ec&Et&Es&Em&Eh&El&Hcase).
  set (g0 := set_failed_turns 0 (entered t g)) in *.
  assert (H0 : explore_only_turns g0 = (if clears t then 0 else explore_only_turns g)%N ∧
    serial_recon_turns g0 = (if clears t then 0 else serial_recon_turns g)%N ∧
    recon_turns_total g0 = recon_turns_total g ∧ mutated_files g0 = had_file_mutation t || mutated_files g ∧
    explore_hard_stop_sent g0 = (if clears t then false else explore_hard_stop_sent g) ∧
    lifetime_hard_stop_sent g0 = lifetime_hard_stop_sent g).
  { rewrite Hclears. unfold g0, entered. by destruct (had_file_mutation t). }
  destruct H0 as (E1&E2&E3&E4&E5&E6). clearbody g0.
  assert (Ec' : explore_only_turns g' = N.min (consecutive ((t, a) :: h)) u64_max).
  { rewrite Ec, E1, consecutive_cons, Hr, Ic. unfold sat_succ, u64_sat_add. destruct (clears t); lia. }
  assert (Et' : recon_turns_total g' = N.min (total ((t, a) :: h)) u64_max).
  { rewrite Et, E3, total_cons, Hr, It. unfold sat_succ, u64_sat_add. lia. }
  assert (Es' : serial_recon_turns g' = N.min (serial ((t, a) :: h)) u64_max).
  { rewrite Es, E2, serial_cons, Hr, Is. cbn zeta. unfold sat_succ, u64_sat_add.
    destruct (clears t), (tool_count t =? 1)%N; lia. }
  assert (Em' : mutated_files g' = mutated ((t, a) :: h)) by (by rewrite Em, E4, Im).
  split; [constructor; [done..| | | |]|].
  - rewrite Eh, E5, Ih, answered_tour_cons, Hr. destruct (clears t); [done|apply orb_comm].
  - rewrite El, E6, Il. apply orb_comm.
  - rewrite stopped_tour_cons, Hr. intros Hle. destruct (is_hard_stop a) eqn:Ha; [by destruct (clears t)|].
    assert (Hsent : explore_hard_stop_sent g0 = true) by (destruct a; try done; apply Hcase; lia).
    rewrite E5 in Hsent. destruct (clears t); [done|]. rewrite Ih in Hsent. by apply answered_stopped in Hsent.
  - cbn [stopped existsb snd]. intros Hle Hmut. destruct (is_hard_stop a) eqn:Ha; [done|].
    assert (Hsent : lifetime_hard_stop_sent g0 = true).
    { destruct a; try done; apply Hcase; try lia; by rewrite E4, Im. }
    rewrite E6, Il in Hsent. by apply answered_stopped in Hsent.
  - unfold answer_ok. destruct a as [| | |[]| | |]; try done.
    + split; [lia|]. intros Hcl. destruct Hcase as [_ Hcase]. by rewrite E5, Hcl, Ih in Hcase.
    + lia.
    + destruct Hcase as (Hle&Hmut&Hsent). rewrite E6, Il in Hsent. rewrite E4, Im in Hmut. split_and!; [lia|done..].
Qed.
Lemma other_step h g t g' a :
  (consecutive_hard <= u64_max)%N → (lifetime_hard <= u64_max)%N → (serial_hard <= u64_max)%N →
  tour_inv h g → is_recon t = false → observe_tool_turn t params g = (g', a) →
  tour_inv ((t, a) :: h) g' ∧ answer_ok h t a.
Proof.
  intros Hc Hl Hs [Ic It Is Im Ih Il Ist Isl] Hr Hobs. apply observe_cases in Hobs. rewrite Hr in Hobs.
  pose proof (hard_limit_pos (p_explore_budget params) (p_explore_hard_stop params)) as Hc1.
  fold consecutive_hard in Hc1.
  destruct Hobs as (Ha&Ec&Es&Et&Em&Eh&El).
  assert (Hne : ∀ k, bool_decide (a = HardStopExplore k) = false) by (intros k; apply bool_decide_eq_false_2; by intros ->).
  split; [constructor|by destruct a as [| | |[]| | |]].
  - rewrite Ec, consecutive_cons, Hr, Ic. destruct (clears t); lia.
  - rewrite Et, total_cons, Hr, It. lia.
  - rewrite Es, serial_cons, Hr, Is. cbn zeta. by destruct (clears t).
  - by rewrite Em, Im.
  - rewrite Eh, Ih, answered_tour_cons, Hr, Hne. by destruct (clears t).
  - rewrite El, Il. unfold answered. cbn [existsb snd]. by rewrite Hne.
  - rewrite consecutive_cons, stopped_tour_cons, Hr, Ha. destruct (clears t); [lia|]. intros ?. apply Ist. lia.
  - rewrite total_cons, Hr. intros ? Hm. cbn [mutated existsb fst] in Hm. apply orb_false_iff in Hm as [_ Hm].
    cbn [stopped existsb snd]. rewrite Ha. apply Isl; [lia|done].
Qed.
Lemma turn_step h g t g' a :
  (consecutive_hard <= u64_max)%N → (lifetime_hard <= u64_max)%N → (serial_hard <= u64_max)%N →
  tour_inv h g → observe_tool_turn t params g = (g', a) →
  tour_inv ((t, a) :: h) g' ∧ answer_ok h t a.
Proof.
  intros Hc Hl Hs Hi Ho. destruct (is_recon t) eqn:Hr; [by apply (recon_step h g)|by apply (other_step h g)].
Qed.

Lemma guard_run_inv turns :
  (consecutive_hard <= u64_max)%N → (lifetime_hard <= u64_max)%N → (serial_hard <= u64_max)%N →
  tour_inv (guard_run turns).2 (guard_run turns).1.
Proof.
  intros Hc Hl Hs. induction turns as [|t turns IH]; cbn [guard_run].
  - pose proof (hard_limit_pos (p_explore_budget params) (p_explore_hard_stop params)).
    pose proof (hard_limit_pos (p_recon_lifetime_budget params) (p_recon_lifetime_hard_stop params)).
    constructor; try done; unfold consecutive_hard, lifetime_hard, consecutive, total; simpl; lia.
  - destruct (guard_run turns) as [g h]. destruct (observe_tool_turn t params g) as [g' a] eqn:Ho.
    by apply (turn_step h) in Ho as [? _].
Qed.

(** Exploration is bounded, and stopped only when due.  Whatever the turns of a
    request were, a tour (the turns since the last change, verification or other
    productive work) that has reached the consecutive limit contains a hard stop, and
    so does a request that has reached the lifetime limit before its first change;
    conversely a hard stop is answered only when its own count has reached its limit,
    the consecutive one at most once per tour, and the lifetime one once per request
    and only before the first change. *)
Theorem coding_tour_bounded turns :
  (consecutive_hard <= u64_max)%N → (lifetime_hard <= u64_max)%N → (serial_hard <= u64_max)%N →
  let h := (guard_run turns).2 in
  ((consecutive_hard <= consecutive h)%N → stopped (tour h) = true) ∧
  ((lifetime_hard <= total h)%N → mutated h = false → stopped h = true) ∧
  ∀ later t k earlier, h = later ++ (t, HardStopExplore k) :: earlier →
    let upto := (t, HardStopExplore k) :: earlier in
    match k with
    | SerialRoundTrip => (serial_hard <= serial upto)%N
    | ConsecutiveTour =>
        (consecutive_hard <= consecutive upto)%N ∧ (clears t = false → answered (HardStopExplore k) (tour earlier) = false)
    | LifetimeRecon =>
        (lifetime_hard <= total upto)%N ∧ mutated upto = false ∧ answered (HardStopExplore k) earlier = false
    end.
Proof.
  intros Hc Hl Hs h. destruct (guard_run_inv turns Hc Hl Hs) as [_ _ _ _ _ _ Hst Hsl]. split; [done|]. split; [done|].
  clear Hst Hsl. unfold h. clear h. induction turns as [|t0 turns IH]; intros later t k earlier; [by destruct later|].
  cbn [guard_run]. pose proof (guard_run_inv turns Hc Hl Hs) as Hinv. destruct (guard_run turns) as [g h].
  destruct (observe_tool_turn t0 params g) as [g' a] eqn:Ho. apply (turn_step h) in Ho as [_ Ha]; [|done..].
  destruct later as [|ta later]; intros H; simplify_eq/=; [by destruct k|]. by eapply IH.
Qed.
End tour.

Definition grep_turn : ToolTurn := mkTurn {[as_bytes "Grep"]} false false true true 2.
Lemma coding_tour_bounded_witness :
  stopped (tour (guard_run params_default (replicate 12 grep_turn)).2) = true.
Proof.
  refine (proj1 (coding_tour_bounded params_default (replicate 12 grep_turn) _ _ _) _); vm_compute; discriminate.
Defined.

(** ** Repeated reads *)

Record ReadCall := mkRead { r_path : bytes; r_content : option bytes; r_offset : option N; r_limit : option N }.
Definition same_range (a b : ReadCall) : Prop :=
  normalize_read_path (r_path a) = normalize_read_path (r_path b) ∧
  default 0%N (r_offset a) = default 0%N (r_offset b) ∧ r_limit a = r_limit b.
#[export] Instance same_range_dec a b : Decision (same_range a b) := _.
Lemma range_key_inj a b :
  range_key (r_path a) (r_offset a) (r_limit a) = range_key (r_path b) (r_offset b) (r_limit b) ↔ same_range a b.
Proof.
  unfold range_key, same_range. split; [|by intros (->&->&->)].
  set (tail l := decimal (default 0%N (r_offset l)) ++ as_bytes ":"
    ++ match r_limit l with Some n => decimal n | None => as_bytes "end" end).
  assert (Htail : ∀ l, u8 35 ∉ tail l).
  { intros l. unfold tail. rewrite !elem_of_app. intros [H|[H|H]].
    - by apply digit_no_sep in H.
    - revert H. vm_compute. set_solver.
    - destruct (r_limit l); [by apply digit_no_sep in H|]. revert H. vm_compute. set_solver. }
  intros H. apply (split_unique_last (u8 35)) in H as [Hp Ht]; [|apply Htail..]. split; [done|].
  apply (split_unique (u8 58)) in Ht as [Ho Hl]; [|by apply digit_no_sep..]. apply decimal_inj in Ho. split; [done|].
  destruct (r_limit a) as [n|], (r_limit b) as [m|]; [by apply decimal_inj in Hl as ->| | |done].
  - exfalso. apply (digit_no_sep n (u8 101)); [done|]. rewrite Hl. by left.
  - exfalso. apply (digit_no_sep m (u8 101)); [done|]. rewrite <-Hl. by left.
Qed.

Section reads.
Context (soft hard : N).

Abbreviation trace := (list (ReadCall * ReadRepeatAction)).
Definition observe_call (r : ReadCall) (t : ReadRepeatTracker) : ReadRepeatTracker * ReadRepeatAction :=
  observe_read_range (Some (r_path r)) (r_content r) (r_offset r) (r_limit r) soft hard t.
Fixpoint reads_run (reads : list ReadCall) : ReadRepeatTracker * trace :=
  match reads with
  | [] => (reads_default, [])
  | r :: reads =>
      let '(t, h) := reads_run reads in
      let '(t, action) := observe_call r t in (t, (r, action) :: h)
  end.
Definition is_stub (r : ReadCall) : bool := match r_content r with Some c => is_unchanged_stub c | None => false end.
Definition count (h : trace) (r : ReadCall) : nat :=
  length (filter (λ x, r_path x.1 ≠ [] ∧ same_range x.1 r) h).
Definition given (a : ReadRepeatAction) (h : trace) : bool := existsb (λ x, bool_decide (x.2 = a)) h.
Definition softened (h : trace) (r : ReadCall) : bool :=
  existsb (λ x, bool_decide (x.2 = ReadSoftNudge ∧ same_range x.1 r)) h.
Definition reference_read (h : trace) (r : ReadCall) : ReadRepeatAction :=
  let n := (N.of_nat (count h r) + 1)%N in
  if is_stub r && negb (given UnchangedStubNudge h) then UnchangedStubNudge
  else if bool_decide (r_path r = []) then ReadNone
  else if (N.max hard (N.max soft 2) <=? n)%N && negb (given ReadHardStop h) then ReadHardStop
  else if (N.max soft 2 <=? n)%N && negb (softened h r) then ReadSoftNudge
  else ReadNone.

Record reads_inv (h : trace) (t : ReadRepeatTracker) : Prop := {
  inv_counts : ∀ r, default 0%N (counts t !! range_key (r_path r) (r_offset r) (r_limit r)) = N.of_nat (count h r);
  inv_soft : ∀ r, default false (rr_soft_nudge_sent t !! range_key (r_path r) (r_offset r) (r_limit r)) = softened h r;
  inv_read_hard : rr_hard_stop_sent t = given ReadHardStop h;
  inv_stub : unchanged_nudge_sent t = given UnchangedStubNudge h;
}.
Lemma lookup_range {V} (m : gmap bytes V) (d v : V) a b :
  default d (<[range_key (r_path a) (r_offset a) (r_limit a) := v]> m
             !! range_key (r_path b) (r_offset b) (r_limit b))
  = if decide (same_range a b) then v else default d (m !! range_key (r_path b) (r_offset b) (r_limit b)).
Proof.
  case_decide as H; apply range_key_inj in H || rewrite <-range_key_inj in H.
  - by rewrite H, lookup_insert_eq.
  - by rewrite lookup_insert_ne.
Qed.
Lemma read_count_cons r a h x : count ((r, a) :: h) x = (if decide (r_path r ≠ [] ∧ same_range r x) then 1 else 0) + count h x.
Proof. unfold count. rewrite filter_cons. simpl. by repeat case_decide. Qed.
Lemma softened_cons r a h x : softened ((r, a) :: h) x = bool_decide (a = ReadSoftNudge ∧ same_range r x) || softened h x.
Proof. done. Qed.

Lemma counted (r : ReadCall) (a : ReadRepeatAction) (h : trace) (m : gmap bytes N) :
  r_path r ≠ [] → (N.of_nat (length h) < u64_max)%N →
  (∀ x, default 0%N (m !! range_key (r_path x) (r_offset x) (r_limit x)) = N.of_nat (count h x)) →
  let key := range_key (r_path r) (r_offset r) (r_limit r) in
  sat_succ (default 0%N (m !! key)) = (N.of_nat (count h r) + 1)%N ∧
  ∀ x, default 0%N (<[key := (N.of_nat (count h r) + 1)%N]> m !! range_key (r_path x) (r_offset x) (r_limit x))
       = N.of_nat (count ((r, a) :: h) x).
Proof.
  intros Hr Hlen Hm key. unfold key. rewrite Hm. split.
  - unfold sat_succ, u64_sat_add. assert (count h r ≤ length h) by apply length_filter. lia.
  - intros x. rewrite lookup_range, read_count_cons. case_decide as Hs; case_decide; try naive_solver.
    pose proof (Hm r) as H1. rewrite (proj2 (range_key_inj r x) Hs), Hm in H1. lia.
Qed.
Lemma observe_call_spec r t h t' a :
  (N.of_nat (length h) < u64_max)%N → reads_inv h t → observe_call r t = (t', a) →
  a = reference_read h r ∧ reads_inv ((r, a) :: h) t'.
Proof.
  intros Hlen [Ic Is Ih Iu]. unfold observe_call, observe_read_range, reference_read. fold (is_stub r). rewrite Iu.
  destruct (is_stub r && negb (given UnchangedStubNudge h)) eqn:Hstub.
  { intros [= <- <-]. split; [done|]. apply andb_true_iff in Hstub as [Hstub Hno%negb_true_iff].
    constructor; cbn [counts rr_soft_nudge_sent rr_hard_stop_sent unchanged_nudge_sent]; [|exact Is|exact Ih|done].
    intros x. destruct (r_path r) as [|b p] eqn:Hp; cbn [some_path].
    - rewrite read_count_cons, decide_False by naive_solver. apply Ic.
    - rewrite <-Hp. rewrite Ic. by apply counted; [rewrite Hp|..]. }
  destruct (r_path r) as [|b p] eqn:Hp; cbn [some_path].
  { intros [= <- <-]. split; [done|]. constructor; try done. intros x. rewrite read_count_cons, decide_False by naive_solver. apply Ic. }
  rewrite <-Hp. destruct (counted r ReadNone h (counts t)) as [Hn _]; [by rewrite Hp|done..|]. rewrite Hn, lookup_insert_eq.
  rewrite Ih, Is, bool_decide_eq_false_2 by (by rewrite Hp). cbn [from_option id].
  assert (Hc : ∀ a, ∀ x, default 0%N (<[range_key (r_path r) (r_offset r) (r_limit r) := (N.of_nat (count h r) + 1)%N]>
    (counts t) !! range_key (r_path x) (r_offset x) (r_limit x)) = N.of_nat (count ((r, a) :: h) x)).
  { intros a0. by apply counted; [rewrite Hp|..]. }
  repeat case_match; intros; simplify_eq; (split; [done|]); constructor;
    cbn [counts rr_soft_nudge_sent rr_hard_stop_sent unchanged_nudge_sent]; try done.
  intros x. rewrite softened_cons, lookup_range. case_decide as Hs.
  - by rewrite bool_decide_eq_true_2.
  - by rewrite bool_decide_eq_false_2 by naive_solver.
Qed.

(** Repeated reads are counted as intended.  After any reads, the answer to the
    next one is what the reads and answers before it say: the first unchanged stub
    gets its own nudge; otherwise the number of reads of the same range (same file up
    to spelling, same offset and limit) decides, with one hard stop for all files and
    one soft nudge per range; different ranges never share a count. *)
Theorem read_repeat_exact reads r :
  (N.of_nat (length reads) < u64_max)%N →
  (observe_call r (reads_run reads).1).2 = reference_read (reads_run reads).2 r.
Proof.
  assert (Hrun : (N.of_nat (length reads) < u64_max)%N →
    reads_inv (reads_run reads).2 (reads_run reads).1 ∧ length (reads_run reads).2 = length reads).
  { induction reads as [|x reads IH]; intros Hlen; cbn [reads_run]; [by split; [constructor|]|].
    simpl in Hlen. destruct IH as [Hinv Hl]; [lia|]. destruct (reads_run reads) as [t h].
    destruct (observe_call x t) as [t' a] eqn:Ho. apply (observe_call_spec x t h) in Ho as [_ Ho]; simpl in *; [|lia|done].
    split; [done|lia]. }
  intros Hlen. destruct (Hrun Hlen) as [Hinv Hl]. destruct (observe_call r (reads_run reads).1) as [t a] eqn:Ho.
  apply (observe_call_spec r _ (reads_run reads).2) in Ho as [-> _]; [done|lia|done].
Qed.
End reads.

Definition demo_read (path : string) : ReadCall := mkRead (as_bytes path) (Some (as_bytes "content")) None None.
Lemma read_repeat_exact_witness :
  (observe_call 2 3 (demo_read "SRC\a.rs") (reads_run 2 3 [demo_read "./src/a.rs"; demo_read "src/a.rs"]).1).2 = ReadHardStop.
Proof. exact (read_repeat_exact 2 3 [demo_read "./src/a.rs"; demo_read "src/a.rs"] (demo_read "SRC\a.rs") ltac:(done)). Defined.

(** ** Failing edits *)

Section edits.
Context (soft extra : N) (p : bytes).

Fixpoint failing_edits (t : EditFailureTracker) (kinds : list (option EditFailureKind)) : list EditConvergeAction :=
  match kinds with
  | [] => []
  | kind :: kinds =>
      let '(t, action) := observe_edit_call (Some p) false kind soft extra t in action :: failing_edits t kinds
  end.
Definition scheduled (n : N) : EditConvergeAction :=
  if bool_decide (n = N.max soft 1 + N.max extra 1)%N then EditHardStop
  else if bool_decide (n = N.max soft 1) then EditSoftNudge else EditNone.
Record streak_inv (n : N) (t : EditFailureTracker) : Prop := {
  inv_path : n = 0%N ∧ ef_path t ≠ Some p ∨ ef_path t = Some p ∧ ef_streak t = n ∧ (1 <= n)%N;
  inv_soft_sent : (1 <= n)%N → ef_soft_nudge_sent t = (N.max soft 1 <=? n)%N;
  inv_hard_sent : (1 <= n)%N → ef_hard_stop_sent t = (N.max soft 1 + N.max extra 1 <=? n)%N;
}.
Lemma failing_edit n kind t t' a :
  p ≠ [] → (N.max soft 1 + N.max extra 1 <= u64_max)%N → (n + 1 <= u64_max)%N → streak_inv n t →
  observe_edit_call (Some p) false kind soft extra t = (t', a) → a = scheduled (n + 1) ∧ streak_inv (n + 1) t'.
Proof.
  intros Hp Hs Hn [Hpath Hsoft Hhard]. unfold observe_edit_call, u64_sat_add. rewrite N.min_l by done.
  assert (Hsome : some_path (Some p) = Some p) by by destruct p. rewrite Hsome.
  set (t1 := if bool_decide (ef_path t = Some p) then _ else _).
  assert (H1 : ef_path t1 = Some p ∧ ef_streak t1 = (n + 1)%N ∧
    ef_soft_nudge_sent t1 = (N.max soft 1 <=? n)%N ∧ ef_hard_stop_sent t1 = (N.max soft 1 + N.max extra 1 <=? n)%N).
  { unfold t1. destruct Hpath as [[-> Hne]|(He&Hk&H1)].
    - rewrite bool_decide_eq_false_2 by done. cbn. split_and!; try done; symmetry; apply N.leb_gt; lia.
    - rewrite bool_decide_eq_true_2 by done. cbn. rewrite Hk, Hsoft, Hhard by done.
      unfold sat_succ, u64_sat_add. split_and!; [done|lia|done|done]. }
  clearbody t1. destruct H1 as (E1&E2&E3&E4). unfold action_for_streak, scheduled. rewrite E2, E3, E4.
  destruct (N.leb_spec (N.max soft 1 + N.max extra 1) (n + 1)), (N.leb_spec (N.max soft 1 + N.max extra 1) n),
    (N.leb_spec (N.max soft 1) (n + 1)), (N.leb_spec (N.max soft 1) n); try lia; cbn [andb negb];
    intros [= <- <-]; repeat case_bool_decide; try lia; (split; [done|]); constructor;
    cbn [ef_path ef_streak ef_soft_nudge_sent ef_hard_stop_sent]; rewrite ?E1, ?E2, ?E3, ?E4;
    try (right; split_and!; [done|done|lia]); intros _; symmetry; first [apply N.leb_le|apply N.leb_gt]; lia.
Qed.

(** Failing edits converge on schedule.  From the first failure of an edit of a
    file, the answers to its consecutive failures are a nudge exactly at the soft
    threshold and a hard stop exactly at the hard one, once each, whatever the kinds
    of failure; and a success starts over. *)
Theorem edit_converge_schedule t kinds :
  p ≠ [] → ef_path t ≠ Some p → (N.max soft 1 + N.max extra 1 <= u64_max)%N → (N.of_nat (length kinds) <= u64_max)%N →
  failing_edits t kinds = imap (λ i _, scheduled (N.of_nat i + 1)) kinds ∧
  ∀ t path kind, observe_edit_call path true kind soft extra t = (edit_default, EditNone).
Proof.
  intros Hp Hpath Hs Hlen. split; [|done].
  assert (Hgen : ∀ n t, streak_inv n t → (n + N.of_nat (length kinds) <= u64_max)%N →
    failing_edits t kinds = imap (λ i _, scheduled (n + N.of_nat i + 1)) kinds).
  { clear t Hpath Hlen. induction kinds as [|kind kinds IH]; intros n t Hinv Hlen; [done|]. cbn [failing_edits length] in *.
    destruct (observe_edit_call (Some p) false kind soft extra t) as [t' a] eqn:Ho.
    apply (failing_edit n) in Ho as [-> Hinv']; [|done|done|lia|done]. cbn [imap]. rewrite N.add_0_r. f_equal.
    rewrite (IH (n + 1)%N) by (done || lia). apply imap_ext. intros i x _. unfold compose. f_equal. lia. }
  rewrite (Hgen 0%N t).
  - apply imap_ext. intros i x _. done.
  - constructor; [by left|lia..].
  - lia.
Qed.
End edits.
Lemma edit_converge_schedule_witness :
  failing_edits 3 2 (as_bytes "a.rs") edit_default (replicate 6 None)
  = [EditNone; EditNone; EditSoftNudge; EditNone; EditHardStop; EditNone].
Proof.
  etrans; [refine (proj1 (edit_converge_schedule 3 2 (as_bytes "a.rs") edit_default (replicate 6 None) _ _ _ _)); done|].
  vm_compute. reflexivity.
Defined.

(** A text that is not in the file is not told apart from a missing file.  When
    the error of an Edit or Write says that the old text was not found, the failure
    is never classed as a stale anchor, although the classifier has that case: it is
    a schema error or a missing path, and the advice is then to check the path and
    not to repeat a Read. *)
Theorem edit_not_found_misclassified name error :
  one_of name ["Edit"; "Write"] = true → infer_edit_failure_kind error = OldStringNotFound →
  from_tool name error ≠ StaleAnchor ∧
  (looks_like_schema_error (str_lower error) = false →
   from_tool name error = NotFound ∧
   recommended_action (from_tool name error)
   = as_bytes "Check the path with Glob/Grep. Do not retry the identical Read.").
Proof.
  intros Hname Hinfer. assert (Hnf : contains_lit (str_lower error) "not found" = true).
  { revert Hinfer. unfold infer_edit_failure_kind. repeat case_match; try done; intros _.
    by repeat match goal with H : _ && _ = true |- _ => apply andb_true_iff in H as [? ?] end. }
  assert (Hclass : looks_like_not_found name (str_lower error) = true).
  { unfold looks_like_not_found, contains_any. cbn [existsb] in *. rewrite Hnf. cbn [orb]. rewrite andb_true_r.
    apply orb_true_iff. right. revert Hname. unfold one_of. cbn [existsb].
    destruct (is_lit name "Edit"), (is_lit name "Write"); rewrite ?orb_true_r; try done; simpl; by rewrite ?orb_true_r. }
  unfold from_tool. destruct (looks_like_schema_error (str_lower error)); [done|]. by rewrite Hclass.
Qed.
Lemma edit_not_found_misclassified_witness :
  from_tool (as_bytes "Edit")
    (as_bytes "old_string not found in file. Hint: re-Read the file and copy the exact text (including indentation).")
  = NotFound.
Proof.
  refine (proj1 (proj2 (edit_not_found_misclassified (as_bytes "Edit") (as_bytes _) _ _) _)); vm_compute; reflexivity.
Defined.
