(* ===== verification/HarnessTheorems.v ===== *)
(** Properties of the coding harness over a whole user request: system continuations
    are bounded, unverified changes do not end silently, and hard stops end the turn.
    A request is a list of the calls the agent loop makes, newest first, each with the
    decision it got. *)
From S2P Require Import Prelude Utf8 Bytes Text Json ReadPaths WorkingSet CodingText CodingGuards CodingHarness.

Section request.
Context {Num : Type} (from_str : bytes → option (Value Num)).

(** [Steer] is the user's message in the middle of a request. *)
Inductive call :=
| ToolsDone (now : N) (outcomes : list ToolCallOutcome)
| ProviderTurn (plan_mode_active : bool)
| Steer
| NaturalEnd
| BeginFinalize (reason : bytes)
| PlanSynced
| TakeFinalize.
Definition make_call (c : call) (h : CodingHarness) : CodingHarness * option FinishDecision :=
  match c with
  | ToolsDone now outcomes => ((after_tool_turn from_str now outcomes h).1, None)
  | ProviderTurn active => ((before_provider_turn active h).1, None)
  | Steer => (reset_progress h, None)
  | NaturalEnd => let '(h, d) := on_natural_end h in (h, Some d)
  | BeginFinalize reason => (begin_forced_finalize reason h, None)
  | PlanSynced => (advance_after_plan_sync h, None)
  | TakeFinalize => ((take_forced_finalize h).1, None)
  end.
Abbreviation trace := (list (call * option FinishDecision)).
Fixpoint request_run (h : CodingHarness) (calls : list call) : CodingHarness * trace :=
  match calls with
  | [] => (h, [])
  | c :: calls =>
      let '(h, t) := request_run h calls in
      let '(h, d) := make_call c h in (h, (c, d) :: t)
  end.
Definition continues (d : option FinishDecision) : bool := match d with Some (ContinueWithNudge _) => true | _ => false end.
Definition continued (t : trace) : nat := length (filter (λ cd, continues cd.2 = true) t).

(** ** What a tool turn leaves alone *)

Definition force (g : CodingProgressGuard) : CodingProgressGuard := set_force_allow_finish true g.
(** The loop over the outcomes changes neither the configuration nor the budget, and
    the progress guard only to force the finish, which a hard stop always does. *)
Record loop_frame (h : CodingHarness) (v m : bool) (b : Batch) : Prop := {
  loop_config : config (b_harness b) = config h;
  loop_continuations : continuations (b_harness b) = continuations h;
  loop_progress : progress (b_harness b) = progress h ∧ b_hard_stop b = None ∨ progress (b_harness b) = force (progress h);
  loop_forced : force_allow_finish (progress (b_harness b)) = true →
    force_allow_finish (progress h) = true ∨ is_Some (b_hard_stop b);
  loop_nudges : length (texts (b_nudges b)) = length (metas (b_nudges b));
  loop_verification : b_verification b = v;
  loop_mutation : b_file_mutation b = m;
}.
Lemma force_force g : force (force g) = force g.
Proof. done. Qed.
Lemma map_harness_frame h v m f b :
  (∀ h', config (f h') = config h' ∧ continuations (f h') = continuations h' ∧ progress (f h') = progress h') →
  loop_frame h v m b → loop_frame h v m (map_harness f b).
Proof.
  intros Hf [Hc Hk Hp Hfo Hn]. destruct (Hf (b_harness b)) as (E1&E2&E3). constructor; cbn; rewrite ?E1, ?E2, ?E3; done.
Qed.
Lemma add_nudge_frame h v m meta t b : loop_frame h v m b → loop_frame h v m (add_nudge meta t b).
Proof. intros [Hc Hk Hp Hfo Hn Hv Hm]. constructor; cbn; rewrite ?length_app; simpl; auto. Qed.
Lemma forced_stop_frame h v m t meta b : loop_frame h v m b → loop_frame h v m (map_harness force_finish (set_hard_stop t meta b)).
Proof.
  intros [Hc Hk Hp Hfo Hn Hv Hm]. constructor; cbn; try done; [|by right]. right. destruct Hp as [[-> _]| ->]; [done|apply force_force].
Qed.
Definition verifying (o : ToolCallOutcome) : bool := flag_verification (classify_tool_success (name o) (command o) (success o)).
Definition mutating_files (o : ToolCallOutcome) : bool := file_mutation (classify_tool_success (name o) (command o) (success o)).
Definition verifies (os : list ToolCallOutcome) : bool := existsb verifying os.
Definition mutates (os : list ToolCallOutcome) : bool := existsb mutating_files os.
Lemma note_flags_frame h v m o b :
  loop_frame h v m b → loop_frame h (v || verifying o) (m || mutating_files o) (note_flags o b).
Proof. intros [Hc Hk Hp Hfo Hn Hv Hm]. constructor; cbn; try done; by rewrite ?Hv, ?Hm. Qed.
Lemma note_plan_update_frame h v m o b : loop_frame h v m b → loop_frame h v m (note_plan_update from_str o b).
Proof.
  intros H. unfold note_plan_update. repeat case_match; try done.
  assert (Hm : ∀ b, loop_frame h v m b → loop_frame h v m (mark_plan_update b)) by by intros ? [].
  by apply Hm, map_harness_frame.
Qed.
Lemma note_plan_artifact_frame h v m o b : loop_frame h v m b → loop_frame h v m (note_plan_artifact o b).
Proof. intros H. unfold note_plan_artifact. repeat case_match; try done. by apply map_harness_frame. Qed.
Lemma note_failure_frame h v m o b : loop_frame h v m b → loop_frame h v m (note_failure o b).
Proof.
  intros H. unfold note_failure. destruct (success o); [done|].
  assert (H1 : loop_frame h v m (note_error o b)).
  { unfold note_error. repeat case_match; [by apply add_nudge_frame|by apply map_harness_frame|done]. }
  repeat case_match; [|by apply map_harness_frame|done]. by apply forced_stop_frame, map_harness_frame.
Qed.
Lemma note_read_frame h v m o b : loop_frame h v m b → loop_frame h v m (note_read o b).
Proof.
  intros H. unfold note_read. case_match; [|done].
  assert (H1 : loop_frame h v m (note_read_path o b)) by (unfold note_read_path; case_match; [by apply map_harness_frame|done]).
  destruct (observe_read_range _ _ _ _ _ _ _) as [reads action].
  assert (H2 : loop_frame h v m (map_harness (set_read_repeat reads) (note_read_path o b))) by by apply map_harness_frame.
  destruct action; [done|by apply add_nudge_frame|by apply forced_stop_frame, add_nudge_frame|by apply add_nudge_frame].
Qed.
Lemma note_edit_frame h v m now o b : loop_frame h v m b → loop_frame h v m (note_edit now o b).
Proof.
  intros H. unfold note_edit. case_match; [|done]. destruct (observe_edit_call _ _ _ _ _ _) as [tracker action].
  assert (H1 : loop_frame h v m (note_edit_action action (map_harness (set_edit_failures tracker) b))).
  { unfold note_edit_action. case_bool_decide; [by apply map_harness_frame|]. 
    assert (Ha : ∀ b, loop_frame h v m b → loop_frame h v m (set_edit_action action b)) by by intros ? [].
    by apply Ha, map_harness_frame. }
  destruct (success o); [|done]. apply map_harness_frame; [|done]. intros h'. by destruct (file_path o).
Qed.
Lemma note_outcome_frame h v m now o b :
  loop_frame h v m b → loop_frame h (v || verifying o) (m || mutating_files o) (note_outcome from_str now b o).
Proof.
  intros H. by apply note_edit_frame, note_read_frame, note_failure_frame, note_plan_artifact_frame,
    note_plan_update_frame, note_flags_frame.
Qed.
Lemma loop_spec now os h :
  loop_frame h (verifies os) (mutates os) (foldl (note_outcome from_str now) (batch_new h) os).
Proof.
  assert (Hgen : ∀ b v m, loop_frame h v m b →
    loop_frame h (v || verifies os) (m || mutates os) (foldl (note_outcome from_str now) b os)).
  { induction os as [|o os IH]; intros b v m H; cbn [foldl]; [by rewrite !orb_false_r|].
    cbn [verifies mutates existsb]. rewrite !orb_assoc. by apply IH, note_outcome_frame. }
  apply (Hgen _ false false). constructor; cbn; auto.
Qed.

(** ** A tool turn and the progress guard *)

Definition is_hard_stop (a : CodingProgressAction) : bool :=
  match a with HardStopExplore _ | HardStopPlanTimeout => true | _ => false end.
Lemma observe_recon_frame n params g g' a :
  observe_recon_only_turn n params g = (g', a) →
  mutated_files g' = mutated_files g ∧ verified_after_mutation g' = verified_after_mutation g ∧
  verification_nudge_sent g' = verification_nudge_sent g ∧
  (force_allow_finish g = true ∨ is_hard_stop a = true → force_allow_finish g' = true) ∧ a ≠ HardStopPlanTimeout.
Proof.
  unfold observe_recon_only_turn. destruct (n =? 1)%N; repeat case_match; intros; simplify_eq; split_and!; naive_solver.
Qed.
Lemma observe_tool_turn_frame t params g g' a :
  observe_tool_turn t params g = (g', a) →
  let cleared := had_successful_verification t || had_file_mutation t in
  mutated_files g' = mutated_files g || had_file_mutation t ∧
  verified_after_mutation g' =
    (if had_successful_verification t then true else if had_file_mutation t then false else verified_after_mutation g) ∧
  verification_nudge_sent g' = (if cleared then false else verification_nudge_sent g) ∧
  (cleared = false → force_allow_finish g = true ∨ is_hard_stop a = true → force_allow_finish g' = true) ∧
  a ≠ HardStopPlanTimeout.
Proof.
  unfold observe_tool_turn. set (g0 := if had_file_mutation t then _ else g).
  assert (H0 : mutated_files g0 = mutated_files g || had_file_mutation t ∧
    verified_after_mutation g0 = (if had_file_mutation t then false else verified_after_mutation g) ∧
    verification_nudge_sent g0 = (if had_file_mutation t then false else verification_nudge_sent g) ∧
    (had_file_mutation t = false → g0 = g)).
  { unfold g0. destruct (had_file_mutation t); cbn; rewrite ?orb_true_r, ?orb_false_r; done. }
  clearbody g0. destruct H0 as (E1&E2&E3&E4).
  destruct (had_successful_verification t); cbn [orb].
  { intros [= <- <-]. split_and!; done. }
  destruct (had_any_successful_result t); [destruct (_ && bool_decide (set_Forall _ _)); [|destruct (recon_only t)]|].
  - intros [= <- <-]. split_and!; try done. intros Hc [Hg|]; [|done]. by rewrite (E4 Hc).
  - intros (F1&F2&F3&F4&F5)%observe_recon_frame. split_and!; [by rewrite F1|by rewrite F2|by rewrite F3| |done].
    intros Hc [Hg|Ha]; apply F4; [left|by right]. cbn. by rewrite (E4 Hc).
  - intros [= <- <-]. split_and!; try done. intros Hc [Hg|]; [|done]. cbn. by rewrite (E4 Hc).
  - intros [= <- <-]. cbn. rewrite E1.
    destruct (_ <=? sat_succ _)%N; (split_and!; try done); intros Hc [Hg|]; try done; by rewrite (E4 Hc).
Qed.

(** The guard forces the finish only with a hard stop, and forgets it when files were
    changed or verified. *)
Lemma observe_tool_turn_forced t params g g' a :
  observe_tool_turn t params g = (g', a) → force_allow_finish g' = true →
  is_hard_stop a = true ∨ (had_successful_verification t || had_file_mutation t = false ∧ force_allow_finish g = true).
Proof.
  unfold observe_tool_turn, observe_recon_only_turn. destruct (had_successful_verification t), (had_file_mutation t);
    repeat (case_match; cbn); intros; simplify_eq; cbn in *; auto; try done.
Qed.

(** ** A whole tool turn *)

Lemma settle_frame os b :
  b_hard_stop (settle_batch os b) = b_hard_stop b ∧ b_nudges (settle_batch os b) = b_nudges b ∧
  b_edit_action (settle_batch os b) = b_edit_action b ∧ b_verification (settle_batch os b) = b_verification b ∧
  b_file_mutation (settle_batch os b) = b_file_mutation b ∧
  config (b_harness (settle_batch os b)) = config (b_harness b) ∧
  continuations (b_harness (settle_batch os b)) = continuations (b_harness b) ∧
  progress (b_harness (settle_batch os b)) = progress (b_harness b) ∧
  working_set (b_harness (settle_batch os b)) = working_set (b_harness b) ∧
  trivial_mutation_ext (b_harness (settle_batch os b)) = (if b_file_mutation b then trivial_mutation_ext_of os else None).
Proof. unfold settle_batch. destruct (recon_turn_facts os) as [r n]. cbn. by destruct (b_verification b), (b_file_mutation b). Qed.

(** What is left of a turn after the guard has observed it changes little more. *)
Record tail_frame (h : CodingHarness) (g : CodingProgressGuard) (ext : option bytes) (stop : bool) (b : Batch) : Prop := {
  tail_config : config (b_harness b) = config h;
  tail_continuations : continuations (b_harness b) = continuations h;
  tail_mutated : mutated_files (progress (b_harness b)) = mutated_files g;
  tail_verified : verified_after_mutation (progress (b_harness b)) = verified_after_mutation g;
  tail_sent : verification (config h) = HardGate →
    verification_nudge_sent (progress (b_harness b)) = verification_nudge_sent g;
  tail_ext : trivial_mutation_ext (b_harness b) = ext;
  tail_stop : stop = true → is_Some (b_hard_stop b) → force_allow_finish (progress (b_harness b)) = true;
  tail_nudges : length (texts (b_nudges b)) = length (metas (b_nudges b));
}.
Lemma progress_action_frame h g ext stop a b :
  (stop = true → is_hard_stop a = true → force_allow_finish (progress (b_harness b)) = true) →
  tail_frame h g ext stop b → tail_frame h g ext stop (apply_progress_action a b).
Proof.
  intros Hforce [E1 E2 E3 E4 E5 E6 E7 E8]. destruct a; cbn [apply_progress_action]; constructor; cbn; try done;
    rewrite ?length_app; simpl; eauto.
Qed.
Lemma edit_action_frame h g ext stop b : tail_frame h g ext stop b → tail_frame h g ext stop (apply_edit_action b).
Proof.
  intros [E1 E2 E3 E4 E5 E6 E7 E8]. unfold apply_edit_action. destruct (b_edit_action b); constructor; cbn; try done;
    rewrite ?length_app; simpl; eauto.
Qed.
Lemma verify_hint_frame h g ext stop b : tail_frame h g ext stop b → tail_frame h g ext stop (apply_verify_hint b).
Proof.
  intros [E1 E2 E3 E4 E5 E6 E7 E8]. unfold apply_verify_hint. case_match eqn:Hc; [|by constructor].
  repeat apply andb_true_iff in Hc as [Hc ?]. apply bool_decide_eq_true_1 in Hc.
  constructor; cbn; try done; [|rewrite ?length_app; simpl; eauto]. rewrite <-E1. by rewrite Hc.
Qed.
Lemma stale_plan_frame h g ext stop b : tail_frame h g ext stop b → tail_frame h g ext stop (apply_stale_plan b).
Proof.
  intros [E1 E2 E3 E4 E5 E6 E7 E8]. unfold apply_stale_plan. repeat case_match; constructor; cbn; try done;
    rewrite ?length_app; simpl; eauto.
Qed.
Lemma tail_forced b :
  let b' := apply_stale_plan (apply_verify_hint (apply_edit_action b)) in
  force_allow_finish (progress (b_harness b')) = true →
  is_Some (b_hard_stop b') ∨ (force_allow_finish (progress (b_harness b)) = true ∧ b_hard_stop b' = b_hard_stop b).
Proof.
  assert (H1 : ∀ b, let b' := apply_verify_hint b in b_hard_stop b' = b_hard_stop b ∧
    force_allow_finish (progress (b_harness b')) = force_allow_finish (progress (b_harness b)))
    by (intros x; unfold apply_verify_hint; by case_match).
  assert (H2 : ∀ b, let b' := apply_stale_plan b in b_hard_stop b' = b_hard_stop b ∧
    force_allow_finish (progress (b_harness b')) = force_allow_finish (progress (b_harness b)))
    by (intros x; unfold apply_stale_plan; by repeat case_match).
  cbn zeta in *. destruct (H2 (apply_verify_hint (apply_edit_action b))) as [-> ->].
  destruct (H1 (apply_edit_action b)) as [-> ->]. unfold apply_edit_action. destruct (b_edit_action b); cbn; eauto.
Qed.
Record turn_spec (os : list ToolCallOutcome) (h h' : CodingHarness) (n : ToolTurnNudge) : Prop := {
  spec_config : config h' = config h;
  spec_continuations : continuations h' = continuations h;
  spec_mutated : mutated_files (progress h') = mutated_files (progress h) || mutates os;
  spec_verified : verified_after_mutation (progress h') =
    (if verifies os then true else if mutates os then false else verified_after_mutation (progress h));
  spec_sent : verification (config h) = HardGate →
    verification_nudge_sent (progress h') = (if verifies os || mutates os then false else verification_nudge_sent (progress h));
  spec_ext : trivial_mutation_ext h' = (if mutates os then trivial_mutation_ext_of os else None);
  spec_stop : mutates os = false → verifies os = false → is_Some (hard_stop n) → force_allow_finish (progress h') = true;
  spec_forced : force_allow_finish (progress h') = true →
    is_Some (hard_stop n) ∨ (verifies os || mutates os = false ∧ force_allow_finish (progress h) = true);
  spec_nudges : length (nudge_texts n) = length (nudge_metas n);
}.
Lemma after_tool_turn_spec now os h h' n : after_tool_turn from_str now os h = (h', n) → turn_spec os h h' n.
Proof.
  unfold after_tool_turn. destruct (loop_spec now os h) as [L1 L2 L3 L0 L4 L5 L6].
  set (b0 := foldl (note_outcome from_str now) (batch_new h) os) in *.
  destruct (settle_frame os b0) as (S1&S2&S3&S4&S5&S6&S7&S8&S9&S10). set (b1 := settle_batch os b0) in *.
  destruct (observe_tool_turn (tool_turn os b1) (observe_params (config (b_harness b1))) (progress (b_harness b1))) as [g a] eqn:Ho.
  pose proof (observe_tool_turn_forced _ _ _ _ _ Ho) as F0.
  apply observe_tool_turn_frame in Ho as (F1&F2&F3&F4&F5). unfold tool_turn in *. cbn [had_successful_verification had_file_mutation] in *.
  rewrite S4, S5, L5, L6 in *. rewrite S8 in *.
  set (stop := negb (mutates os || verifies os)).
  assert (Hforce : stop = true → progress (b_harness b0) = force (progress h) ∨ is_hard_stop a = true → force_allow_finish g = true).
  { intros Hstop Hor. unfold stop in Hstop. apply negb_true_iff, orb_false_iff in Hstop as [Hm Hv]. apply F4; [by rewrite Hm, Hv|].
    destruct Hor as [->|]; [by left|by right]. }
  assert (Hfields : mutated_files (progress (b_harness b0)) = mutated_files (progress h) ∧
    verified_after_mutation (progress (b_harness b0)) = verified_after_mutation (progress h) ∧
    verification_nudge_sent (progress (b_harness b0)) = verification_nudge_sent (progress h))
    by (by destruct L3 as [[-> _]| ->]).
  destruct Hfields as (G1&G2&G3).
  assert (Htail : tail_frame h g (if mutates os then trivial_mutation_ext_of os else None) stop
    (map_harness (set_progress g) b1)).
  { constructor; cbn; try done; try congruence.
    intros Hstop Hs. rewrite S1 in Hs. apply Hforce; [done|]. destruct L3 as [[_ Hno]|]; [|by left]. rewrite Hno in Hs. by destruct Hs. }
  apply (progress_action_frame _ _ _ _ a) in Htail; [|intros; by apply Hforce; [|right]].
  assert (Hstops : is_hard_stop a = true ∨ is_Some (b_hard_stop b0) →
    is_Some (b_hard_stop (apply_progress_action a (map_harness (set_progress g) b1)))).
  { intros [Ha|Hb]; destruct a; cbn; try done; try (by rewrite S1); eauto. }
  assert (Hg1 : progress (b_harness (apply_progress_action a (map_harness (set_progress g) b1))) = g) by by destruct a.
  pose proof (tail_forced (apply_progress_action a (map_harness (set_progress g) b1))) as Hforced.
  cbn zeta in Hforced. rewrite Hg1 in Hforced.
  apply edit_action_frame, verify_hint_frame, stale_plan_frame in Htail as [E1 E2 E3 E4 E5 E6 E7 E8].
  intros [= <- <-]. constructor; cbn [hard_stop nudge_texts nudge_metas]; try done.
  - by rewrite E3, F1, G1.
  - by rewrite E4, F2, G2.
  - intros Hgate. by rewrite E5, F3, G3.
  - intros Hm Hv Hs. apply E7; [unfold stop; by rewrite Hm, Hv|]. by apply fmap_is_Some in Hs.
  - intros Hf. rewrite fmap_is_Some. destruct (Hforced Hf) as [?|[Hg ->]]; [by left|].
    destruct (F0 Hg) as [Ha|[Hc Hi]]; [left; apply Hstops; by left|]. destruct (L0 Hi) as [?|Hs]; [by right|].
    left. apply Hstops. by right.
Qed.

(** ** The natural end *)

Definition unverified_files (g : CodingProgressGuard) : bool := mutated_files g && negb (verified_after_mutation g).
Record end_spec (h h' : CodingHarness) (d : FinishDecision) : Prop := {
  end_config : config h' = config h;
  end_mutated : mutated_files (progress h') = mutated_files (progress h);
  end_verified : verified_after_mutation (progress h') = verified_after_mutation (progress h);
  end_sent : verification_nudge_sent (progress h') = true →
    verification_nudge_sent (progress h) = true ∨ d = ContinueWithNudge CODING_VERIFY_NUDGE;
  end_budget : (max (continuations h) <= u64_max)%N →
    match d with
    | Allow => continuations h' = continuations h
    | ContinueWithNudge _ =>
        (used (continuations h) < max (continuations h))%N ∧
        continuations h' = mkBudget (used (continuations h) + 1) (max (continuations h))
    end;
  end_allowed : d = Allow → verification (config h) = HardGate → unverified_files (progress h) = true →
    force_allow_finish (progress h) = true ∨ is_Some (trivial_mutation_ext h) ∨
    verification_nudge_sent (progress h) = true ∨ (max (continuations h) <= used (continuations h))%N;
  end_flags : force_allow_finish (progress h') = false ∧ trivial_mutation_ext h' = trivial_mutation_ext h;
  end_reason : ∃ f, last_finish_gate h' = Some f ∧
    (gate_reason f = as_bytes "clean" → unverified_files (progress h) = false);
}.
Lemma try_consume_spec b b' granted :
  try_consume b = (b', granted) → (max b <= u64_max)%N →
  if granted then (used b < max b)%N ∧ b' = mkBudget (used b + 1) (max b) else b' = b ∧ (max b <= used b)%N.
Proof.
  unfold try_consume, can_continue. destruct (N.ltb_spec (used b) (max b)); intros [= <- <-]; [|done].
  unfold sat_succ, u64_sat_add. intros. split; [done|]. f_equal. lia.
Qed.
Lemma try_consume_granted b b' : try_consume b = (b', false) → b' = b ∧ (max b <= used b)%N.
Proof. unfold try_consume, can_continue. destruct (N.ltb_spec (used b) (max b)); by intros [= <-]. Qed.
Lemma natural_end_spec h h' d : on_natural_end h = (h', d) → end_spec h h' d.
Proof.
  unfold on_natural_end, decide_natural_end. unfold needs_verification_before_finish.
  fold (unverified_files (progress h)).
  destruct (force_allow_finish (progress h)) eqn:Hforce.
  { intros [= <- <-]. constructor; cbn; auto. eexists; split; [reflexivity|by intros]. }
  destruct (bool_decide (is_Some (trivial_mutation_ext h)) && _) eqn:Htriv.
  { apply andb_true_iff in Htriv as [Ht%bool_decide_eq_true_1 _].
    intros [= <- <-]. constructor; cbn; auto. eexists; split; [reflexivity|by intros]. }
  destruct (bool_decide (verification (config h) = HardGate) && _) eqn:Hgate.
  { destruct (try_consume (continuations h)) as [b [|]] eqn:Hb; intros [= <- <-].
    - constructor; cbn; auto; try done; [|eexists; split; [reflexivity|by intros]]. intros Hmax. by apply try_consume_spec in Hb.
    - apply try_consume_granted in Hb as [-> Hle]. constructor; cbn; auto. eexists; split; [reflexivity|by intros]. }
  assert (Hno : verification (config h) = HardGate → unverified_files (progress h) = true →
    verification_nudge_sent (progress h) = true).
  { intros Hg Hu. apply andb_false_iff in Hgate as [Hf|Hf].
    - by apply bool_decide_eq_false_1 in Hf.
    - rewrite Hu in Hf. by apply negb_false_iff in Hf. }
  destruct (continuation_nudge (todo h)) as [t [nudge|]].
  - destruct (try_consume _) as [b [|]] eqn:Hb; intros [= <- <-].
    + constructor; cbn; auto; try done; [|eexists; split; [reflexivity|by intros]]. intros Hmax. by apply try_consume_spec in Hb.
    + apply try_consume_granted in Hb as [-> Hle]. constructor; cbn; auto. eexists; split; [reflexivity|by intros].
  - cbn. fold (unverified_files (progress h)). destruct (unverified_files (progress h)) eqn:Hu; intros [= <- <-].
    + constructor; cbn; auto 6. eexists; split; [reflexivity|by intros].
    + constructor; cbn; auto; [by intros; congruence|eexists; split; [reflexivity|by intros]].
Qed.

(** ** Runs of a request *)

(** The state of the gate as the calls of the request show it: files changed and not
    verified since, and whether the verify nudge was answered since. *)
Fixpoint unverified (t : trace) : bool :=
  match t with
  | [] => false
  | (ToolsDone _ os, _) :: t => if verifies os then false else mutates os || unverified t
  | (Steer, _) :: _ => false
  | _ :: t => unverified t
  end.
Fixpoint asked (t : trace) : bool :=
  match t with
  | [] => false
  | (ToolsDone _ os, _) :: t => if verifies os || mutates os then false else asked t
  | (Steer, _) :: _ => false
  | (NaturalEnd, Some (ContinueWithNudge nudge)) :: t => bool_decide (nudge = CODING_VERIFY_NUDGE) || asked t
  | _ :: t => asked t
  end.
Record run_inv (c : CodingConfig) (h : CodingHarness) (t : trace) : Prop := {
  run_config : config h = c;
  run_budget : continuations h = mkBudget (N.of_nat (continued t)) (N.max (max_system_continuations c) 1);
  run_bound : (N.of_nat (continued t) <= N.max (max_system_continuations c) 1)%N;
  run_unverified : unverified_files (progress h) = unverified t;
  run_asked : verification c = HardGate → verification_nudge_sent (progress h) = true → asked t = true;
}.
Lemma continued_cons c d (t : trace) : continued ((c, d) :: t) = (if continues d then 1 else 0) + continued t.
Proof. unfold continued. rewrite filter_cons. simpl. by destruct (continues d). Qed.
Lemma plan_mode_frame active soft hard g :
  let g' := (observe_plan_mode_turn active soft hard g).1 in
  mutated_files g' = mutated_files g ∧ verified_after_mutation g' = verified_after_mutation g ∧
  verification_nudge_sent g' = verification_nudge_sent g.
Proof. unfold observe_plan_mode_turn. repeat case_match; done. Qed.
Lemma plan_mode_forced active soft hard g g' a :
  observe_plan_mode_turn active soft hard g = (g', a) → force_allow_finish g' = true →
  a = HardStopPlanTimeout ∨ force_allow_finish g' = force_allow_finish g.
Proof. unfold observe_plan_mode_turn. repeat case_match; intros; simplify_eq; auto. Qed.
Lemma call_inv c h t call h' d :
  (N.max (max_system_continuations c) 1 <= u64_max)%N →
  run_inv c h t → make_call call h = (h', d) → run_inv c h' ((call, d) :: t).
Proof.
  intros Hmax [Rc Rb Rn Ru Ra]. destruct call; cbn [make_call].
  - destruct (after_tool_turn from_str now outcomes h) as [h1 n] eqn:Ht. intros [= <- <-].
    destruct (after_tool_turn_spec _ _ _ _ _ Ht) as [E1 E2 E3 E4 E5 _ _ _ _].
    constructor; [by rewrite E1|by rewrite E2, Rb, continued_cons|by rewrite continued_cons| |].
    + unfold unverified_files. rewrite E3, E4. cbn [unverified]. rewrite <-Ru. unfold unverified_files.
      destruct (verifies outcomes), (mutates outcomes); rewrite ?orb_true_r, ?orb_false_r, ?andb_false_r; done.
    + intros Hg. cbn [asked fst]. rewrite E5 by by rewrite Rc. destruct (verifies outcomes || mutates outcomes); [done|by apply Ra].
  - intros [= <- <-]. unfold before_provider_turn.
    pose proof (plan_mode_frame plan_mode_active (plan_mode_budget (config h)) (plan_mode_hard_stop (config h)) (progress h)) as Hf.
    destruct (observe_plan_mode_turn _ _ _ _) as [g a]. cbn in Hf. destruct Hf as (E1&E2&E3).
    constructor; cbn; rewrite ?continued_cons; try done; [by unfold unverified_files; rewrite E1, E2|by rewrite E3].
  - intros [= <- <-]. by constructor.
  - destruct (on_natural_end h) as [h1 dec] eqn:He. intros [= <- <-].
    destruct (natural_end_spec _ _ _ He) as [E1 E2 E3 E4 E5 _ _ _]. rewrite Rb in E5. cbn in E5. specialize (E5 Hmax).
    assert (Hu : unverified_files (progress h1) = unverified t) by (unfold unverified_files; by rewrite E2, E3).
    destruct dec as [|nudge]; (constructor; rewrite ?continued_cons; cbn [continues]; [congruence| | |done|]).
    + by rewrite E5.
    + done.
    + intros Hg Hs. apply E4 in Hs as [Hs|]; [|done]. by apply Ra.
    + destruct E5 as [_ ->]. f_equal. lia.
    + lia.
    + intros Hg Hs. cbn [asked]. apply E4 in Hs as [Hs|[= ->]]; [by rewrite (Ra Hg Hs), orb_true_r|by rewrite bool_decide_eq_true_2].
  - intros [= <- <-]. unfold begin_forced_finalize. case_match; by constructor.
  - intros [= <- <-]. unfold advance_after_plan_sync. by constructor.
  - intros [= <- <-]. unfold take_forced_finalize. repeat case_match; by constructor.
Qed.
Lemma request_inv now h0 calls :
  (N.max (max_system_continuations (config h0)) 1 <= u64_max)%N →
  let '(h, t) := request_run (reset_for_user_request now h0) calls in run_inv (config h0) h t.
Proof.
  intros Hmax. induction calls as [|c calls IH]; cbn [request_run]; [constructor; cbn; try done; lia|].
  destruct (request_run _ calls) as [h t]. destruct (make_call c h) as [h' d] eqn:Hc. by eapply call_inv.
Qed.

(** C17. A request cannot be kept alive by policy.  Whatever the loop calls during a
    user request, the harness continues at most as many natural ends as its budget
    allows (and at least one), and once the budget is spent every further natural end
    is allowed. *)
Theorem coding_continuations_bounded now h0 calls :
  (N.max (max_system_continuations (config h0)) 1 <= u64_max)%N →
  let '(h, t) := request_run (reset_for_user_request now h0) calls in
  let cap := N.max (max_system_continuations (config h0)) 1 in
  (N.of_nat (continued t) <= cap)%N ∧
  (N.of_nat (continued t) = cap → (on_natural_end h).2 = Allow).
Proof.
  intros Hmax. pose proof (request_inv now h0 calls Hmax) as Hinv. destruct (request_run _ calls) as [h t].
  destruct Hinv as [Rc Rb Rn _ _]. split; [done|]. intros Hcap. destruct (on_natural_end h) as [h' d] eqn:He.
  destruct (natural_end_spec _ _ _ He) as [_ _ _ _ E5 _ _ _]. rewrite Rb in E5. cbn in E5. specialize (E5 Hmax).
  destruct d as [|nudge]; [done|]. lia.
Qed.

(** *** Why the gate may be passed *)

(** The call answered a hard stop to the loop. *)
Definition stops (c : call) (h : CodingHarness) : bool :=
  match c with
  | ToolsDone now os => bool_decide (is_Some (hard_stop (after_tool_turn from_str now os h).2))
  | ProviderTurn active => bool_decide ((before_provider_turn active h).2 = Some CODING_PLAN_HARD_STOP)
  | _ => false
  end.
(** A hard stop was answered, and since then no turn changed or verified files, no natural
    end was reached and the user did not steer. *)
Fixpoint hard_stopped (h0 : CodingHarness) (calls : list call) : bool :=
  match calls with
  | [] => false
  | c :: calls =>
      stops c (request_run h0 calls).1 ||
      match c with
      | ToolsDone _ os => negb (verifies os || mutates os) && hard_stopped h0 calls
      | Steer | NaturalEnd => false
      | _ => hard_stopped h0 calls
      end
  end.
Fixpoint last_turn (calls : list call) : option (list ToolCallOutcome) :=
  match calls with
  | [] | Steer :: _ => None
  | ToolsDone _ os :: _ => Some os
  | _ :: calls => last_turn calls
  end.
(** The file that a successful call of [Edit] or [Write] names *)
Definition edited_path (o : ToolCallOutcome) : option bytes :=
  if success o && one_of (name o) ["Edit"; "Write"] then file_path o else None.
(** The turn applied no patch and edited one file, once, and this is a text, a
    configuration or a style file. *)
Definition one_text_file (os : list ToolCallOutcome) : Prop :=
  (∀ o, o ∈ os → success o && is_lit (name o) "ApplyPatch" = false) ∧
  ∃ p base ext, omap edited_path os = [p] ∧ str_lower p = base ++ [u8 46] ++ as_bytes ext ∧
    ext ∈ ["md"; "txt"; "json"; "toml"; "yml"; "yaml"; "lock"; "svg"; "css"; "html"; "xml"]%string.
Lemma edited_loop_spec acc os l :
  edited_loop acc os = Some l →
  l = acc ++ omap edited_path os ∧ ∀ o, o ∈ os → success o && is_lit (name o) "ApplyPatch" = false.
Proof.
  revert acc. induction os as [|o os IH]; intros acc; cbn [edited_loop].
  { intros [= <-]. split; [by rewrite app_nil_r|]. intros o Ho. by apply elem_of_nil in Ho. }
  destruct (success o && is_lit (name o) "ApplyPatch") eqn:Hp; [done|]. intros [-> Hos]%IH. split.
  - transitivity (acc ++ match edited_path o with Some p => p :: omap edited_path os | None => omap edited_path os end); [|done].
    unfold edited_path at 2. destruct (success o && _); [|done]. destruct (file_path o); [by rewrite <- app_assoc|done].
  - intros q [->|Hq]%elem_of_cons; [done|by apply Hos].
Qed.
Lemma position_split f l i : position f l = Some i → ∃ l1 b l2, l = l1 ++ b :: l2 ∧ length l1 = i ∧ f b = true.
Proof.
  revert i. induction l as [|b l IH]; intros i; cbn; [done|]. destruct (f b) eqn:Hb; [intros [= <-]; by exists [], b, l|].
  intros (j & Hj & ->)%fmap_Some. destruct (IH j Hj) as (l1 & b' & l2 & -> & <- & H). by exists (b :: l1), b', l2.
Qed.
Lemma rposition_split f l i : rposition f l = Some i → ∃ b, l = take i l ++ b :: drop (S i) l ∧ f b = true.
Proof.
  unfold rposition. intros (j & (l1 & b & l2 & Hl & <- & Hb)%position_split & ->)%fmap_Some. exists b.
  assert (Hr : l = rev l2 ++ b :: rev l1) by (rewrite <- (rev_involutive l), Hl, rev_app_distr; cbn; by rewrite <- app_assoc).
  assert (Hn : length l - 1 - length l1 = length (rev l2)) by (rewrite Hr, length_app, !length_rev; cbn; rewrite length_rev; lia).
  split; [|done]. rewrite Hn. clear Hn Hl. subst l. rewrite take_app_length. f_equal. f_equal.
  by rewrite (cons_middle b), app_assoc, drop_app_length' by (rewrite length_app; cbn; lia).
Qed.
Lemma trivial_one_text_file os ext : trivial_mutation_ext_of os = Some ext → one_text_file os.
Proof.
  unfold trivial_mutation_ext_of. intros (l & Hl & H)%bind_Some. apply edited_loop_spec in Hl as [-> Hos]. cbn [app] in H.
  split; [done|]. destruct (omap edited_path os) as [|p [|]]; [done| |done]. apply bind_Some in H as (i & Hi & H).
  destruct (one_of _ _) eqn:He; [|done]. unfold one_of in He. apply existsb_exists in He as (x & Hx & He%bool_decide_eq_true).
  apply rposition_split in Hi as (b & Hi & Hb). exists p, (take i (str_lower p)), x. split_and!; [done| |by apply list_elem_of_In].
  rewrite <- He. apply N.eqb_eq in Hb. rewrite <- (u8_byte b), Hb in Hi. exact Hi.
Qed.
Lemma request_flags h0 calls :
  force_allow_finish (progress h0) = false → trivial_mutation_ext h0 = None →
  let h := (request_run h0 calls).1 in
  (force_allow_finish (progress h) = true → hard_stopped h0 calls = true) ∧
  (is_Some (trivial_mutation_ext h) → ∃ os, last_turn calls = Some os ∧ mutates os = true ∧ one_text_file os).
Proof.
  intros Hf Hx. induction calls as [|c calls IH]; cbn [request_run]; [cbn; rewrite Hf, Hx; split; [done|by intros []]|].
  cbn [hard_stopped]. destruct (request_run h0 calls) as [h t]. destruct IH as [IH1 IH2]. cbn [fst] in *.
  destruct (make_call c h) as [h' d] eqn:Hc. cbn [fst]. destruct c; cbn [make_call] in Hc; cbn [stops last_turn orb].
  - destruct (after_tool_turn from_str now outcomes h) as [h1 n] eqn:Ht. injection Hc as <- <-. cbn [fst snd].
    destruct (after_tool_turn_spec _ _ _ _ _ Ht) as [_ _ _ _ _ E6 _ E8 _]. split.
    + intros [Hs|[Hn Hh]]%E8; [by rewrite bool_decide_true|]. rewrite Hn, (IH1 Hh). apply orb_true_r.
    + rewrite E6. destruct (mutates outcomes) eqn:Hm; [|by intros []]. intros [ext He]. exists outcomes.
      split_and!; [done|done|]. by eapply trivial_one_text_file.
  - injection Hc as <- <-. unfold before_provider_turn. destruct (observe_plan_mode_turn _ _ _ _) as [g a] eqn:Hg. cbn.
    split; [|done]. intros Hgf. apply plan_mode_forced in Hg as [->|Hh]; [by rewrite bool_decide_true| |done].
    rewrite IH1 by by rewrite <- Hh. apply orb_true_r.
  - injection Hc as <- <-. split; [done|by intros []].
  - destruct (on_natural_end h) as [h1 dec] eqn:He. injection Hc as <- <-.
    destruct (natural_end_spec _ _ _ He) as [_ _ _ _ _ _ [E1 E2] _]. rewrite E1, E2. by split.
  - injection Hc as <- <-. unfold begin_forced_finalize. by case_match.
  - injection Hc as <- <-. by split.
  - injection Hc as <- <-. unfold take_forced_finalize. by repeat case_match.
Qed.

(** C16. Unverified changes do not end silently.  With the evidence gate on, a natural
    end that is allowed while files changed since the last verification has a reason
    that the calls of the request show: a hard stop was answered since the last change
    and the last natural end, the last turn with tools edited one text or configuration
    file and nothing else, the verify nudge was already given since the last change, or
    the continuation budget is spent; and its recorded reason is never [clean]. *)
Theorem coding_no_silent_unverified_end now h0 calls :
  (N.max (max_system_continuations (config h0)) 1 <= u64_max)%N → verification (config h0) = HardGate →
  let start := reset_for_user_request now h0 in
  let '(h, t) := request_run start calls in
  let '(h', d) := on_natural_end h in
  unverified t = true →
  (d = Allow →
   hard_stopped start calls = true ∨
   (∃ os, last_turn calls = Some os ∧ mutates os = true ∧ one_text_file os) ∨ asked t = true ∨
   N.of_nat (continued t) = N.max (max_system_continuations (config h0)) 1) ∧
  ∃ f, last_finish_gate h' = Some f ∧ gate_reason f ≠ as_bytes "clean".
Proof.
  intros Hmax Hg start. pose proof (request_inv now h0 calls Hmax) as Hinv.
  pose proof (request_flags start calls eq_refl eq_refl) as [Hforce Htriv]. fold start in Hinv.
  destruct (request_run start calls) as [h t]. cbn [fst] in Hforce, Htriv.
  destruct Hinv as [Rc Rb Rn Ru Ra]. destruct (on_natural_end h) as [h' d] eqn:He. intros Hu.
  destruct (natural_end_spec _ _ _ He) as [_ _ _ _ _ E6 _ (f&Ef&Er)]. rewrite Ru in *. split.
  - intros Hd. assert (Hg' : verification (config h) = HardGate) by by rewrite Rc.
    destruct (E6 Hd Hg' Hu) as [?|[?|[Hs|Hb]]]; [left; by apply Hforce|right; left; by apply Htriv|right; right; left; by apply Ra|].
    rewrite Rb in Hb. cbn in Hb. right; right; right. lia.
  - exists f. split; [done|]. intros Hclean. by rewrite (Er Hclean) in Hu.
Qed.

(** A hard stop ends the turn.  When a tool turn answers a hard stop and did not
    itself change files or verify, the next natural end is allowed and releases the
    force flag; and every nudge comes with its classification. *)
Theorem coding_hard_stop_ends now os h :
  let '(h', n) := after_tool_turn from_str now os h in
  (is_Some (hard_stop n) → mutates os = false → verifies os = false →
   (on_natural_end h').2 = Allow ∧ force_allow_finish (progress (on_natural_end h').1) = false) ∧
  length (nudge_texts n) = length (nudge_metas n) ∧ (is_Some (hard_stop n) ↔ is_Some (hard_stop_meta n)).
Proof.
  destruct (after_tool_turn from_str now os h) as [h' n] eqn:Ht.
  pose proof (after_tool_turn_spec _ _ _ _ _ Ht) as [_ _ _ _ _ _ E7 _ E8]. split_and!; [|done|].
  - intros Hs Hm Hv. specialize (E7 Hm Hv Hs). unfold on_natural_end, decide_natural_end. by rewrite E7.
  - unfold after_tool_turn in Ht. destruct (observe_tool_turn _ _ _) as [g a]. injection Ht as _ <-. cbn.
    by rewrite !fmap_is_Some.
Qed.

(** Two ways around the evidence gate.  A turn that edits a single text file hides
    unverified changes made before it: the next natural end is allowed as a trivial
    mutation, whatever else was changed since the last verification.  And a steering
    message makes the harness forget every change. *)
Theorem coding_gate_gaps now os ext h :
  verification (config h) = HardGate → mutates os = true → verifies os = false →
  trivial_mutation_ext_of os = Some ext →
  let h' := (after_tool_turn from_str now os h).1 in
  force_allow_finish (progress h') = false →
  unverified_files (progress h') = true ∧ (on_natural_end h').2 = Allow ∧
  gate_reason <$> last_finish_gate (on_natural_end h').1 = Some (as_bytes "trivial_mutation") ∧
  unverified_files (progress (reset_progress h')) = false.
Proof.
  intros Hg Hm Hv Hext h'. destruct (after_tool_turn from_str now os h) as [h1 n] eqn:Ht. cbn in h'. subst h'. intros Hforce.
  pose proof (after_tool_turn_spec _ _ _ _ _ Ht) as [_ _ E3 E4 E5 E6 _ _ _].
  assert (Hu : unverified_files (progress h1) = true).
  { unfold unverified_files. by rewrite E3, E4, Hm, Hv, orb_true_r. }
  split; [done|].
  assert (Hneeds : needs_verification_before_finish (progress h1) = true).
  { unfold needs_verification_before_finish. fold (unverified_files (progress h1)). by rewrite Hu, E5, Hm, orb_true_r. }
  unfold on_natural_end, decide_natural_end. by rewrite Hforce, Hneeds, E6, Hm, Hext.
Qed.
End request.

(** ** Witnesses *)

Definition no_json (_ : bytes) : option (Value Z) := None.
Definition demo_harness : CodingHarness := harness_new 0 None config_default.
Definition wrote (path : string) : ToolCallOutcome :=
  mkOutcome (as_bytes "Write") true None (Some (as_bytes path)) None None None None.
Definition failed_test : ToolCallOutcome :=
  mkOutcome (as_bytes "Bash") false (Some (as_bytes "cargo test")) None (Some (as_bytes "failed")) None None None.
Definition demo_calls : list call := [NaturalEnd; ToolsDone 2 [wrote "a.rs"]; ProviderTurn false].
Lemma coding_continuations_bounded_witness :
  (N.of_nat (continued (request_run no_json (reset_for_user_request 1 demo_harness) demo_calls).2) <= 8)%N.
Proof.
  pose proof (coding_continuations_bounded no_json 1 demo_harness demo_calls ltac:(done)) as H.
  destruct (request_run no_json _ demo_calls) as [h t]. exact (proj1 H).
Defined.
(** After a patch the first natural end got the verify nudge, so the second is allowed. *)
Definition patched : ToolCallOutcome := mkOutcome (as_bytes "ApplyPatch") true None None None None None None.
Definition demo_patch : list call := [NaturalEnd; ToolsDone 2 [patched]; ProviderTurn false].
Definition demo_start : CodingHarness := reset_for_user_request 1 demo_harness.
Lemma coding_no_silent_unverified_end_witness :
  (on_natural_end (request_run no_json demo_start demo_patch).1).2 = Allow ∧
  asked (request_run no_json demo_start demo_patch).2 = true.
Proof.
  assert (Hu : unverified (request_run no_json demo_start demo_patch).2 = true) by (vm_compute; reflexivity).
  assert (Hd : (on_natural_end (request_run no_json demo_start demo_patch).1).2 = Allow) by (vm_compute; reflexivity).
  assert (Hs : hard_stopped no_json demo_start demo_patch = false) by (vm_compute; reflexivity).
  assert (Hc : continued (request_run no_json demo_start demo_patch).2 = 1) by (vm_compute; reflexivity).
  split; [exact Hd|].
  pose proof (coding_no_silent_unverified_end no_json 1 demo_harness demo_patch ltac:(done) ltac:(done)) as H.
  revert Hu Hd Hc H. fold demo_start. cbv zeta. destruct (request_run no_json demo_start demo_patch) as [h t].
  cbn [fst snd]. intros Hu Hd Hc H. destruct (on_natural_end h) as [h' d]. cbn [snd] in Hd.
  destruct (H Hu) as [Ha _]. destruct (Ha Hd) as [E|[E|[E|E]]]; [congruence| |exact E|].
  - destruct E as (os & [= <-] & _ & Ho & _). specialize (Ho _ (list_elem_of_here _ _)). discriminate Ho.
  - rewrite Hc in E. discriminate E.
Defined.
Lemma coding_hard_stop_ends_witness :
  (on_natural_end (after_tool_turn no_json 5 [failed_test; failed_test; failed_test] demo_harness).1).2 = Allow.
Proof.
  assert (Hs : bool_decide
    (is_Some (hard_stop (after_tool_turn no_json 5 [failed_test; failed_test; failed_test] demo_harness).2)) = true)
    by (vm_compute; reflexivity).
  assert (Hm : mutates [failed_test; failed_test; failed_test] = false) by (vm_compute; reflexivity).
  assert (Hv : verifies [failed_test; failed_test; failed_test] = false) by (vm_compute; reflexivity).
  pose proof (coding_hard_stop_ends no_json 5 [failed_test; failed_test; failed_test] demo_harness) as H.
  apply bool_decide_eq_true_1 in Hs. revert Hs H.
  destruct (after_tool_turn no_json 5 [failed_test; failed_test; failed_test] demo_harness) as [h n].
  cbn [fst snd]. intros Hs H. exact (proj1 (proj1 H Hs Hm Hv)).
Defined.
Definition demo_edited : CodingHarness := (after_tool_turn no_json 5 [wrote "a.rs"] demo_harness).1.
Lemma coding_gate_gaps_witness : (on_natural_end (after_tool_turn no_json 9 [wrote "README.md"] demo_edited).1).2 = Allow.
Proof.
  assert (Hg : verification (config demo_edited) = HardGate) by (vm_compute; reflexivity).
  assert (Hm : mutates [wrote "README.md"] = true) by (vm_compute; reflexivity).
  assert (Hv : verifies [wrote "README.md"] = false) by (vm_compute; reflexivity).
  assert (He : trivial_mutation_ext_of [wrote "README.md"] = Some (as_bytes "md")) by (vm_compute; reflexivity).
  assert (Hf : force_allow_finish (progress (after_tool_turn no_json 9 [wrote "README.md"] demo_edited).1) = false)
    by (vm_compute; reflexivity).
  exact (proj1 (proj2 (coding_gate_gaps no_json 9 [wrote "README.md"] (as_bytes "md") demo_edited Hg Hm Hv He Hf))).
Defined.
