(* ===== verification/Anchors.v ===== *)
(** Line anchors (agent/nomi-tools/src/anchors.rs): the hash of a line, parsing and
    validating [line:hash], rendering, and removing copied prefixes.  Machine
    arithmetic wraps, as in a release build. *)
From S2P Require Import Prelude Utf8 Bytes Text.

Definition ANCHOR_SEARCH_RADIUS : nat := 20.
(** The arrow U+2192 in UTF-8 *)
Definition ANCHOR_SEPARATOR : bytes := [u8 226; u8 134; u8 146].
Definition ANCHOR_HASH_WIDTH : nat := 4.

(** ** The hash *)

Definition fnv_step (hash : N) (b : Ascii.ascii) : N := ((N.lxor hash (byte b) * 16777619) mod 4294967296)%N.
Definition fnv1a (l : bytes) : N := foldl fnv_step 2166136261%N l.
Definition base36_char (d : N) : Ascii.ascii := if (d <? 10)%N then u8 (48 + d) else u8 (97 + (d - 10)).
(** The digit loop; a 32-bit number has at most seven digits. *)
Fixpoint base36_loop (fuel : nat) (n : N) (s : bytes) : bytes :=
  match fuel with
  | 0 => s
  | S fuel => if (0 <? n)%N then base36_loop fuel (n / 36) (base36_char (n mod 36) :: s) else s
  end.
Definition base36 (n : N) : bytes := if (n =? 0)%N then [u8 48] else base36_loop 7 n [].
Definition pad_hash (s : bytes) : bytes := replicate (ANCHOR_HASH_WIDTH - length s) (u8 48) ++ s.
Definition anchor_line_hash (line : bytes) : bytes :=
  let s := pad_hash (base36 (fnv1a (remove_whitespace line))) in
  drop (length s - ANCHOR_HASH_WIDTH) s.

(** ** Parsing *)

Record ParsedAnchor := mkAnchor { line : N; hash : bytes }.
Definition is_anchor_hash_token (hash : bytes) : bool :=
  bool_decide (2 ≤ length hash ≤ 8) && forallb is_ascii_alphanumeric hash.
Definition split_once (sep l : bytes) : option (bytes * bytes) := split_at_first sep l.
(** [raw.split(ANCHOR_SEPARATOR).next()] *)
Definition before_separator (raw : bytes) : bytes :=
  match split_once ANCHOR_SEPARATOR raw with Some (p, _) => p | None => raw end.
Definition parse_anchor (raw : bytes) : option ParsedAnchor :=
  let cleaned := bytes_trim (before_separator raw) in
  match split_once [u8 58] cleaned with
  | Some (line_s, hash) =>
      line ← str_parse_u64 line_s;
      if (line <? 1)%N then None else
      let hash := bytes_trim hash in
      if negb (is_anchor_hash_token hash) then None else Some (mkAnchor line (str_lower hash))
  | None =>
      if bool_decide (length cleaned = ANCHOR_HASH_WIDTH) && is_anchor_hash_token cleaned
      then Some (mkAnchor 0 (str_lower cleaned)) else None
  end.

(** ** Validation *)

Inductive AnchorValidation := AnchorOk (at_line : N) | Shifted (at_line : N) | Stale.
#[export] Instance AnchorValidation_eq_dec : EqDecision AnchorValidation.
Proof. solve_decision. Defined.

(** Whether line [c] exists and has the hash *)
Definition hash_at (lines : list bytes) (h : bytes) (c : nat) : bool :=
  match lines !! c with Some l => bool_decide (anchor_line_hash l = h) | None => false end.
Fixpoint unique_hash_loop (i : nat) (hit : option nat) (lines : list bytes) (h : bytes) : AnchorValidation :=
  match lines with
  | [] => match hit with Some i => AnchorOk (N.of_nat i + 1) | None => Stale end
  | l :: lines =>
      if bool_decide (anchor_line_hash l = h) then
        match hit with Some _ => Stale | None => unique_hash_loop (S i) (Some i) lines h end
      else unique_hash_loop (S i) hit lines h
  end.
Definition validate_unique_hash (lines : list bytes) (h : bytes) : AnchorValidation := unique_hash_loop 0 None lines h.
(** [as isize] and its arithmetic *)
Definition isize_wrap (z : Z) : Z := ((z + 9223372036854775808) mod 18446744073709551616 - 9223372036854775808)%Z.
(** The candidates [idx - d], [idx + d] for [d = 1, ..., radius], in this order *)
Definition candidates (idx : Z) (radius : nat) : list Z :=
  flat_map (λ d, [isize_wrap (idx - Z.of_nat d); isize_wrap (idx + Z.of_nat d)]) (seq 1 radius).
Fixpoint nearby_loop (first_hit : option nat) (lines : list bytes) (h : bytes) (cs : list Z) : AnchorValidation :=
  match cs with
  | [] => match first_hit with None => Stale | Some i => Shifted (N.of_nat i + 1) end
  | z :: cs =>
      if (0 <=? z)%Z && (z <? Z.of_nat (length lines))%Z && hash_at lines h (Z.to_nat z) then
        match first_hit with Some _ => Stale | None => nearby_loop (Some (Z.to_nat z)) lines h cs end
      else nearby_loop first_hit lines h cs
  end.
Definition validate_anchor (lines : list bytes) (anchor : ParsedAnchor) (radius : nat) : AnchorValidation :=
  if (line anchor =? 0)%N then validate_unique_hash lines (hash anchor) else
  let idx := isize_wrap (isize_wrap (Z.of_N (line anchor)) - 1) in
  if (0 <=? idx)%Z && (idx <? Z.of_nat (length lines))%Z && hash_at lines (hash anchor) (Z.to_nat idx)
  then AnchorOk (line anchor)
  else nearby_loop None lines (hash anchor) (candidates idx radius).
Definition validate_anchor_default (lines : list bytes) (anchor : ParsedAnchor) : AnchorValidation :=
  validate_anchor lines anchor ANCHOR_SEARCH_RADIUS.

(** ** Rendering *)

Definition render_line (n : N) (l : bytes) : bytes :=
  decimal n ++ [u8 58] ++ anchor_line_hash l ++ ANCHOR_SEPARATOR ++ l.
Fixpoint render_anchored_lines (lines : list bytes) (start_line : N) : list bytes :=
  match lines with
  | [] => []
  | l :: lines => render_line start_line l :: render_anchored_lines lines (start_line + 1)
  end.
Definition EMPTY_REGION : bytes := as_bytes "(file is empty)".
Definition render_anchor_region (lines : list bytes) (center_line context : N) : bytes :=
  match lines with
  | [] => EMPTY_REGION
  | _ =>
      let start := N.max (center_line - context) 1 in
      let end_ := N.min ((center_line + context) mod 18446744073709551616) (N.of_nat (length lines)) in
      if (end_ <? start)%N then EMPTY_REGION
      else bytes_join [u8 10]
             (render_anchored_lines (drop (N.to_nat (start - 1)) (take (N.to_nat end_) lines)) start)
  end.

(** ** Copied prefixes *)

Definition hash_prefix_before_separator (prefix : bytes) : bool := is_anchor_hash_token (bytes_trim prefix).
Definition is_copied_prefix (prefix : bytes) : bool :=
  bool_decide (is_Some (parse_anchor prefix)) || hash_prefix_before_separator prefix.
Definition line_has_copied_read_prefix (l : bytes) : bool :=
  match split_once ANCHOR_SEPARATOR l with None => false | Some (prefix, _) => is_copied_prefix prefix end.
Definition strip_copied_read_prefix_line (l : bytes) : bytes :=
  match split_once ANCHOR_SEPARATOR l with
  | None => l
  | Some (prefix, rest) => if is_copied_prefix prefix then rest else l
  end.
Definition strip_copied_read_prefixes (txt : bytes) : bytes :=
  let ls := lines txt in
  match ls with
  | [] => txt
  | _ =>
      let nonempty := filter (λ l, str_is_blank l = false) ls in
      let prefixed := filter (λ l, line_has_copied_read_prefix l = true) nonempty in
      if bool_decide (length nonempty = 0 ∨ length prefixed * 2 < length nonempty) then txt
      else bytes_join [u8 10] (strip_copied_read_prefix_line <$> ls)
           ++ (if str_ends_with [u8 10] txt then [u8 10] else [])
  end.

(** ** Structural closers *)

Definition BARE_CLOSERS : list string := ["}"; "};"; ")"; ");"; "]"; "];"; "},"; "),"; "],"; "/>"].
Definition structural_closer_ok (original_end_line new_text : bytes) : bool :=
  match new_text with
  | [] => true
  | _ =>
      let trimmed := bytes_trim original_end_line in
      if negb (one_of trimmed BARE_CLOSERS) then true
      else str_contains new_text (trim_matches (λ b, is_byte 44 b || is_byte 59 b) trimmed)
  end.

(** ** The form of a hash *)

Definition hash_char (b : Ascii.ascii) : bool := is_ascii_digit b || byte_in 97 122 b.
Lemma base36_char_ok d : (d < 36)%N → hash_char (base36_char d) = true.
Proof.
  intros Hd. unfold hash_char, base36_char, is_ascii_digit. rewrite orb_true_iff, andb_true_iff, !N.leb_le, byte_in_spec.
  destruct (N.ltb_spec d 10); rewrite byte_u8 by lia; lia.
Qed.
Lemma base36_loop_ok fuel n s :
  Forall (λ b, hash_char b = true) s → Forall (λ b, hash_char b = true) (base36_loop fuel n s).
Proof.
  revert n s. induction fuel as [|fuel IH]; intros n s Hs; cbn; [done|]. case_match; [|done].
  apply IH. constructor; [apply base36_char_ok, N.mod_lt|]; done.
Qed.
(** Seven digits are enough for 32 bits: the loop ends by itself. *)
Lemma base36_loop_enough fuel n s : (n < 36 ^ N.of_nat fuel)%N → base36_loop (S fuel) n s = base36_loop fuel n s.
Proof.
  revert n s. induction fuel as [|fuel IH]; intros n s Hn.
  - change (36 ^ N.of_nat 0)%N with 1%N in Hn. by replace n with 0%N by lia.
  - cbn [base36_loop] in *. case_match; [|done]. apply (IH (n / 36)%N).
    apply N.Div0.div_lt_upper_bound. rewrite <-N.pow_succ_r by lia. rewrite <-Nat2N.inj_succ. exact Hn.
Qed.
Lemma fnv1a_lt l : (fnv1a l < 36 ^ N.of_nat 7)%N.
Proof.
  apply N.lt_trans with 4294967296%N; [|by vm_compute]. unfold fnv1a.
  assert (H : ∀ h, (h < 4294967296)%N → (foldl fnv_step h l < 4294967296)%N); [|by apply H].
  induction l as [|b l IH]; intros h Hh; cbn; [done|]. apply IH. by apply N.mod_lt.
Qed.
Lemma hash_chars l : Forall (λ b, hash_char b = true) (anchor_line_hash l).
Proof.
  unfold anchor_line_hash. apply Forall_drop. unfold pad_hash. apply Forall_app. split; [by apply Forall_replicate|].
  unfold base36. case_match; [by repeat constructor|]. by apply base36_loop_ok.
Qed.
Lemma hash_length l : length (anchor_line_hash l) = ANCHOR_HASH_WIDTH.
Proof.
  unfold anchor_line_hash. rewrite length_drop. unfold pad_hash. rewrite length_app, length_replicate.
  unfold ANCHOR_HASH_WIDTH. lia.
Qed.
Lemma hash_char_spec b :
  hash_char b = true →
  is_ascii_alphanumeric b = true ∧ solid b = true ∧ to_ascii_lowercase_char b = b ∧ b ≠ u8 58 ∧ b ≠ u8 226.
Proof.
  unfold hash_char, is_ascii_alphanumeric, is_ascii_alphabetic, solid, to_ascii_lowercase_char, is_ascii_digit.
  rewrite !orb_true_iff, !andb_true_iff, !N.leb_le, !byte_in_spec. intros Hb. split; [lia|]. split; [lia|]. split_and!.
  - case_match eqn:E; [|done]. rewrite andb_true_iff, !N.leb_le in E. lia.
  - intros ->. by destruct Hb as [[H1 H2]|[H1 H2]]; vm_compute in H1, H2; try (by apply H1); apply H2.
  - intros ->. by destruct Hb as [[H1 H2]|[H1 H2]]; vm_compute in H1, H2; try (by apply H1); apply H2.
Qed.
Lemma hash_token l : is_anchor_hash_token (anchor_line_hash l) = true.
Proof.
  unfold is_anchor_hash_token. rewrite hash_length, andb_true_iff, forallb_forall. split; [done|].
  intros b Hb%list_elem_of_In. pose proof (hash_chars l) as H. rewrite Forall_forall in H.
  by destruct (hash_char_spec b (H b Hb)).
Qed.
Lemma hash_lower l : str_lower (anchor_line_hash l) = anchor_line_hash l.
Proof.
  unfold str_lower. rewrite <-(list_fmap_id (anchor_line_hash l)) at 2. apply list_fmap_ext.
  intros i b Hb. pose proof (hash_chars l) as H. rewrite Forall_lookup in H.
  by destruct (hash_char_spec b (H i b Hb)) as (_&_&E&_).
Qed.
Lemma hash_solid l : Forall (λ b, solid b = true) (anchor_line_hash l).
Proof. eapply Forall_impl; [apply hash_chars|]. intros b Hb. by apply hash_char_spec in Hb as (_&?&_). Qed.
Lemma hash_no l : (u8 58 ∉ anchor_line_hash l) ∧ u8 226 ∉ anchor_line_hash l.
Proof.
  pose proof (hash_chars l) as H. rewrite Forall_forall in H.
  split; intros Hin; apply H, hash_char_spec in Hin; naive_solver.
Qed.
Lemma decimal_no n : (u8 58 ∉ decimal n) ∧ u8 226 ∉ decimal n.
Proof. split; by apply digit_no_sep. Qed.

(** ** Rendered anchors parse back *)

Lemma prefix_no_sep n l : u8 226 ∉ decimal n ++ [u8 58] ++ anchor_line_hash l.
Proof.
  rewrite !not_elem_of_app, list_elem_of_singleton. split_and!; [apply decimal_no|done|apply hash_no].
Qed.
Lemma before_separator_none p : u8 226 ∉ p → before_separator p = p.
Proof. intros Hp. unfold before_separator, split_once. by rewrite (split_at_first_none ANCHOR_SEPARATOR _ _ _ eq_refl Hp). Qed.
Lemma before_separator_text n l :
  before_separator (decimal n ++ [u8 58] ++ anchor_line_hash l) = decimal n ++ [u8 58] ++ anchor_line_hash l.
Proof. apply before_separator_none, prefix_no_sep. Qed.
Lemma parse_anchor_text n l :
  (1 <= n)%N → is_u64 n →
  parse_anchor (decimal n ++ [u8 58] ++ anchor_line_hash l) = Some (mkAnchor n (anchor_line_hash l)).
Proof.
  intros H1 Hn. unfold parse_anchor. rewrite before_separator_text. unfold split_once.
  rewrite bytes_trim_solid by (rewrite !Forall_app, Forall_singleton; split_and!; [apply decimal_solid|done|apply hash_solid]).
  rewrite (split_at_first_head [u8 58] _ [] (decimal n) _ eq_refl (proj1 (decimal_no n))).
  rewrite str_parse_u64_decimal by done. cbn [mbind option_bind].
  replace (n <? 1)%N with false by (symmetry; apply N.ltb_ge; lia).
  rewrite bytes_trim_solid by apply hash_solid. by rewrite hash_token, hash_lower.
Qed.
Lemma split_rendered n l :
  split_once ANCHOR_SEPARATOR (render_line n l) = Some (decimal n ++ [u8 58] ++ anchor_line_hash l, l).
Proof.
  unfold render_line, split_once. rewrite !app_assoc, <-app_assoc.
  apply (split_at_first_head _ _ _ _ _ eq_refl). rewrite <-app_assoc. apply prefix_no_sep.
Qed.
Lemma parse_rendered n l :
  (1 <= n)%N → is_u64 n → parse_anchor (render_line n l) = Some (mkAnchor n (anchor_line_hash l)).
Proof.
  intros H1 Hn. rewrite <-(parse_anchor_text n l H1 Hn). unfold parse_anchor. rewrite before_separator_text.
  unfold before_separator. by rewrite split_rendered.
Qed.

(** ** What validation finds *)

Lemma hash_at_spec lines h c : hash_at lines h c = true ↔ ∃ l, lines !! c = Some l ∧ anchor_line_hash l = h.
Proof. unfold hash_at. case_match; [rewrite bool_decide_eq_true|]; naive_solver. Qed.
Lemma hash_at_range lines h c : hash_at lines h c = true → c < length lines.
Proof. intros (l&Hl&_)%hash_at_spec. by apply lookup_lt_Some in Hl. Qed.

(** The candidates that hit, in the order they are tried *)
Definition hit (lines : list bytes) (h : bytes) (z : Z) : bool :=
  (0 <=? z)%Z && (z <? Z.of_nat (length lines))%Z && hash_at lines h (Z.to_nat z).
Lemma nearby_loop_hits first_hit lines h cs :
  nearby_loop first_hit lines h cs =
  match option_list first_hit ++ (Z.to_nat <$> filter (λ z, hit lines h z = true) cs) with
  | [c] => Shifted (N.of_nat c + 1)
  | _ => Stale
  end.
Proof.
  revert first_hit. induction cs as [|z cs IH]; intros first_hit; cbn [nearby_loop].
  - cbn. by destruct first_hit.
  - rewrite filter_cons. fold (hit lines h z). destruct (hit lines h z).
    + rewrite decide_True by done. destruct first_hit as [i|]; cbn; [done|]. by rewrite IH.
    + rewrite decide_False by done. apply IH.
Qed.
Lemma isize_wrap_id z : (-9223372036854775808 <= z <= 9223372036854775807)%Z → isize_wrap z = z.
Proof. intros Hz. unfold isize_wrap. rewrite Z.mod_small by lia. lia. Qed.
Definition small (idx : Z) (radius : nat) : Prop :=
  (-9223372036854775808 <= idx - Z.of_nat radius)%Z ∧ (idx + Z.of_nat radius <= 9223372036854775807)%Z.
Lemma candidates_from idx s n :
  small idx (s + n) →
  let cs := flat_map (λ d, [isize_wrap (idx - Z.of_nat d); isize_wrap (idx + Z.of_nat d)]) (seq s n) in
  (∀ z, z ∈ cs ↔ (Z.of_nat s <= Z.abs (z - idx) < Z.of_nat (s + n))%Z) ∧ (0 < s → NoDup cs).
Proof.
  revert s. induction n as [|n IH]; intros s Hs; cbn [seq flat_map].
  - split; [|constructor]. intros z. rewrite elem_of_nil. lia.
  - destruct (IH (S s)) as [Hin Hnd]. { unfold small in *. lia. }
    unfold small in Hs. rewrite !isize_wrap_id by lia. split.
    + intros z. cbn [app]. rewrite !elem_of_cons, Hin. lia.
    + intros H0. cbn [app]. rewrite !NoDup_cons, !elem_of_cons, !Hin. split_and!; [lia|lia|apply Hnd; lia].
Qed.
(** The hits around a line *)
Definition near (n : N) (radius c : nat) : Prop :=
  (1 <= Z.abs (Z.of_nat c - (Z.of_N n - 1)) <= Z.of_nat radius)%Z.
Definition hits (lines : list bytes) (a : ParsedAnchor) (radius : nat) : list nat :=
  Z.to_nat <$> filter (λ z, hit lines (hash a) z = true) (candidates (Z.of_N (line a) - 1) radius).
Lemma hits_spec lines a radius :
  small (Z.of_N (line a) - 1) (S radius) →
  (∀ c, c ∈ hits lines a radius ↔ near (line a) radius c ∧ hash_at lines (hash a) c = true) ∧
  NoDup (hits lines a radius).
Proof.
  intros Hs. destruct (candidates_from (Z.of_N (line a) - 1) 1 radius Hs) as [Hin Hnd]. specialize (Hnd ltac:(lia)).
  unfold hits, candidates. split.
  - intros c. rewrite list_elem_of_fmap. split.
    + intros (z&->&Hz). rewrite list_elem_of_filter, Hin in Hz. destruct Hz as [Hh Hz]. unfold hit in Hh.
      apply andb_true_iff in Hh as [[Hz0 _]%andb_true_iff Hh]. apply Z.leb_le in Hz0. split; [|done].
      unfold near. rewrite Z2Nat.id by done. lia.
    + intros [Hn Hh]. exists (Z.of_nat c). rewrite Nat2Z.id. split; [done|]. rewrite list_elem_of_filter, Hin.
      unfold near in Hn. split; [|lia]. unfold hit. rewrite Nat2Z.id, Hh. pose proof (hash_at_range _ _ _ Hh).
      rewrite !andb_true_iff, Z.leb_le, Z.ltb_lt. lia.
  - apply NoDup_fmap_2_strong; [|by apply NoDup_filter]. intros x y Hx Hy Hxy. rewrite list_elem_of_filter in Hx, Hy.
    destruct Hx as [Hx _], Hy as [Hy _]. unfold hit in *. rewrite !andb_true_iff, !Z.leb_le in Hx, Hy. lia.
Qed.
Lemma validate_hits lines a radius :
  (1 <= line a)%N → small (Z.of_N (line a) - 1) (S radius) →
  validate_anchor lines a radius =
  if hash_at lines (hash a) (N.to_nat (line a) - 1) then AnchorOk (line a)
  else match hits lines a radius with [c] => Shifted (N.of_nat c + 1) | _ => Stale end.
Proof.
  intros H1 Hs. unfold validate_anchor. replace (line a =? 0)%N with false by (symmetry; apply N.eqb_neq; lia).
  unfold small in Hs. rewrite (isize_wrap_id (Z.of_N (line a))), isize_wrap_id by lia. fold (hit lines (hash a) (Z.of_N (line a) - 1)).
  assert (Hh : hit lines (hash a) (Z.of_N (line a) - 1) = hash_at lines (hash a) (N.to_nat (line a) - 1)).
  { unfold hit. replace (Z.to_nat (Z.of_N (line a) - 1)) with (N.to_nat (line a) - 1) by lia.
    destruct (hash_at _ _ _) eqn:E; [|by rewrite andb_false_r]. apply hash_at_range in E.
    rewrite !andb_true_iff, Z.leb_le, Z.ltb_lt. lia. }
  rewrite Hh. destruct (hash_at _ _ _); [done|]. by rewrite nearby_loop_hits.
Qed.
(** A search by hash alone *)
Definition positions (lines : list bytes) (h : bytes) : list nat :=
  filter (λ c, hash_at lines h c = true) (seq 0 (length lines)).
Lemma positions_cons l lines h :
  positions (l :: lines) h = (if decide (anchor_line_hash l = h) then [0] else []) ++ (S <$> positions lines h).
Proof.
  unfold positions. cbn [length seq]. rewrite filter_cons. unfold hash_at at 1. cbn [lookup list_lookup].
  assert (Hf : ∀ cs : list nat, filter (λ c, hash_at (l :: lines) h c = true) (S <$> cs)
    = S <$> filter (λ c, hash_at lines h c = true) cs).
  { induction cs as [|c cs IH]; [done|]. rewrite fmap_cons, !filter_cons, IH.
    change (hash_at (l :: lines) h (S c)) with (hash_at lines h c). by case_decide. }
  rewrite <-Hf, fmap_S_seq. repeat case_decide; try done; by rewrite bool_decide_eq_true in *.
Qed.
Lemma unique_hash_loop_positions i hit lines h :
  unique_hash_loop i hit lines h =
  match option_list hit ++ (Nat.add i <$> positions lines h) with
  | [c] => AnchorOk (N.of_nat c + 1)
  | _ => Stale
  end.
Proof.
  revert i hit. induction lines as [|l lines IH]; intros i hit; cbn [unique_hash_loop].
  - cbn. by destruct hit.
  - rewrite positions_cons. assert (Hs : Nat.add i <$> (S <$> positions lines h) = Nat.add (S i) <$> positions lines h).
    { rewrite <-list_fmap_compose. apply list_fmap_ext. intros; cbn; lia. }
    case_bool_decide as Hh; case_decide; try done; rewrite ?fmap_app; cbn [fmap list_fmap app].
    + destruct hit; cbn; [done|]. by rewrite IH, Hs, Nat.add_0_r.
    + by rewrite IH, Hs.
Qed.
Lemma positions_spec lines h : (∀ c, c ∈ positions lines h ↔ hash_at lines h c = true) ∧ NoDup (positions lines h).
Proof.
  unfold positions. split; [|apply NoDup_filter, NoDup_seq]. intros c. rewrite list_elem_of_filter, elem_of_seq.
  split; [naive_solver|]. intros H. pose proof (hash_at_range _ _ _ H). naive_solver lia.
Qed.
(** A list without duplicates has one element, or none that is alone. *)
Lemma single_or_not (l : list nat) (P : nat → Prop) :
  (∀ c, c ∈ l ↔ P c) → NoDup l →
  match l with [c] => ∀ c', P c' ↔ c' = c | _ => ∀ c, P c → ∃ c', c' ≠ c ∧ P c' end.
Proof.
  intros HP Hnd. destruct l as [|x [|y l]].
  - intros c Hc%HP. by apply elem_of_nil in Hc.
  - intros c. by rewrite <-HP, list_elem_of_singleton.
  - apply NoDup_cons in Hnd as [Hx _]. rewrite elem_of_cons in Hx. intros c _.
    assert (P x ∧ P y) as [Px Py] by (rewrite <-!HP, !elem_of_cons; naive_solver).
    destruct (decide (c = x)) as [->|]; [exists y|exists x]; naive_solver.
Qed.

(** ** Theorems *)

(** An anchor names one line or is refused.  [Ok] is the anchor's own line, or
    for a bare hash the only line of the file with it; [Shifted] is the only other
    line within the radius with the hash, and the own line has lost it; a stale
    anchor has no such line or several. *)
Theorem anchor_validate_exact lines a radius :
  small (Z.of_N (line a) - 1) (S radius) →
  let own := hash_at lines (hash a) (N.to_nat (line a) - 1) = true in
  let found c := hash_at lines (hash a) c = true ∧ (line a = 0%N ∨ near (line a) radius c) in
  match validate_anchor lines a radius with
  | AnchorOk n => (line a = 0%N ∧ ∀ c, found c ↔ n = (N.of_nat c + 1)%N) ∨ (1 <= line a)%N ∧ n = line a ∧ own
  | Shifted n => (1 <= line a)%N ∧ ¬ own ∧ ∀ c, found c ↔ n = (N.of_nat c + 1)%N
  | Stale => ((1 <= line a)%N → ¬ own) ∧ ∀ c, found c → ∃ c', c' ≠ c ∧ found c'
  end.
Proof.
  intros Hs own found. destruct (decide (line a = 0%N)) as [H0|H0].
  - unfold validate_anchor. rewrite H0. cbn [N.eqb]. unfold validate_unique_hash. rewrite unique_hash_loop_positions.
    destruct (positions_spec lines (hash a)) as [Hin Hnd].
    assert (Hin' : ∀ c, c ∈ positions lines (hash a) ↔ found c) by (intros c; rewrite Hin; unfold found; naive_solver).
    pose proof (single_or_not _ _ Hin' Hnd) as Hsn. cbn [option_list app].
    destruct (positions lines (hash a)) as [|x [|y l]]; cbn [fmap list_fmap]; cbn beta in Hsn; try (split; [lia|exact Hsn]).
    left. split; [done|]. intros c. rewrite Hsn. lia.
  - destruct (hits_spec lines a radius Hs) as [Hin Hnd]. rewrite validate_hits by (done || lia).
    destruct (hash_at lines (hash a) (N.to_nat (line a) - 1)) eqn:Ho; [right; split_and!; [lia|done|done]|].
    assert (Hin' : ∀ c, c ∈ hits lines a radius ↔ found c) by (intros c; rewrite Hin; unfold found; naive_solver).
    pose proof (single_or_not _ _ Hin' Hnd) as Hsn.
    destruct (hits lines a radius) as [|x [|y l]]; try (split; [done|exact Hsn]).
    split; [lia|]. split; [done|]. intros c. rewrite Hsn. lia.
Qed.

Lemma render_lookup ls n i l :
  ls !! i = Some l → render_anchored_lines ls n !! i = Some (render_line (n + N.of_nat i) l).
Proof.
  revert n i. induction ls as [|x ls IH]; intros n [|i] Hi; simplify_eq/=.
  - by rewrite N.add_0_r.
  - rewrite (IH _ _ Hi). do 2 f_equal. lia.
Qed.
(** Anchors round trip.  The anchor that Read prints before a line parses, and
    as long as the file is unchanged it is validated as exactly that line. *)
Theorem anchor_roundtrip ls i l :
  ls !! i = Some l → (N.of_nat i < 4611686018427387904)%N →
  ∃ r a, render_anchored_lines ls 1 !! i = Some r ∧ parse_anchor r = Some a ∧
    validate_anchor_default ls a = AnchorOk (N.of_nat i + 1).
Proof.
  intros Hi Hn. exists (render_line (1 + N.of_nat i) l), (mkAnchor (1 + N.of_nat i) (anchor_line_hash l)).
  split; [by apply render_lookup|]. split; [apply parse_rendered; unfold is_u64, u64_max; lia|].
  unfold validate_anchor_default. rewrite validate_hits by (unfold small, ANCHOR_SEARCH_RADIUS; cbn; lia).
  cbn [line hash]. replace (N.to_nat (1 + N.of_nat i) - 1) with i by lia.
  rewrite (proj2 (hash_at_spec ls (anchor_line_hash l) i)) by eauto. f_equal. lia.
Qed.

(** ** Copied prefixes *)

Lemma strip_line_rendered n l :
  (1 <= n)%N → is_u64 n →
  line_has_copied_read_prefix (render_line n l) = true ∧ strip_copied_read_prefix_line (render_line n l) = l.
Proof.
  intros H1 Hn. unfold line_has_copied_read_prefix, strip_copied_read_prefix_line. rewrite split_rendered.
  unfold is_copied_prefix. rewrite parse_anchor_text by done. done.
Qed.
Lemma render_not_blank n l : str_is_blank (render_line n l) = false.
Proof.
  unfold render_line. pose proof (decimal_solid n) as H. pose proof (decimal_nonempty n) as Hne.
  destruct (decimal n) as [|a d]; [done|]. apply solid_not_blank. by inversion H.
Qed.
Lemma render_last n l : last (render_line n l) = last (ANCHOR_SEPARATOR ++ l).
Proof.
  unfold render_line. rewrite (last_app_ne (decimal n)) by done.
  rewrite (last_app_ne [u8 58]) by (by destruct (anchor_line_hash l)). by apply last_app_ne.
Qed.
Lemma sep_no_lf : no_lf ANCHOR_SEPARATOR.
Proof. unfold no_lf. rewrite list_elem_of_In. vm_compute. intuition discriminate. Qed.
Lemma sep_last l : no_lf l → u8 13 ∉ l → last (ANCHOR_SEPARATOR ++ l) ≠ Some (u8 13) ∧ last (ANCHOR_SEPARATOR ++ l) ≠ Some (u8 10).
Proof.
  intros Hlf Hcr. rewrite last_app. destruct (last l) as [b|] eqn:E; [|by vm_compute].
  rewrite last_lookup in E. apply list_elem_of_lookup_2 in E. split; intros [= ->]; done.
Qed.
Lemma render_clean n l : no_lf l → u8 13 ∉ l → no_lf (render_line n l) ∧ last (render_line n l) ≠ Some (u8 13) ∧
  last (render_line n l) ≠ Some (u8 10).
Proof.
  intros Hlf Hcr. unfold no_lf in *. split.
  - unfold render_line. rewrite !not_elem_of_app. split_and!; [by apply digit_no_sep| | | |done].
    + by rewrite list_elem_of_singleton.
    + by apply solid_not_in, hash_solid.
    + apply sep_no_lf.
  - rewrite render_last. by apply sep_last.
Qed.
Lemma render_all_clean ls n :
  Forall (λ l, no_lf l ∧ u8 13 ∉ l) ls →
  Forall no_lf (render_anchored_lines ls n) ∧ Forall (λ r, last r ≠ Some (u8 13)) (render_anchored_lines ls n) ∧
  (∀ r, last (render_anchored_lines ls n) = Some r → r ≠ [] ∧ last r ≠ Some (u8 10)).
Proof.
  intros H. revert n. induction H as [|l ls [Hl Hc] H IH]; intros n; cbn [render_anchored_lines]; [done|].
  destruct (IH (n + 1)%N) as (I1&I2&I3). destruct (render_clean n l Hl Hc) as (R1&R2&R3).
  split_and!; [by constructor..|]. intros r. destruct (render_anchored_lines ls (n + 1)) as [|x rs]; [|apply I3].
  intros [= <-]. split; [|done]. intros E. pose proof (render_not_blank n l) as Hb. by rewrite E in Hb.
Qed.
Lemma render_all_prefixed ls n :
  (1 <= n)%N → is_u64 (n + N.of_nat (length ls)) →
  Forall (λ r, str_is_blank r = false ∧ line_has_copied_read_prefix r = true) (render_anchored_lines ls n) ∧
  strip_copied_read_prefix_line <$> render_anchored_lines ls n = ls.
Proof.
  revert n. induction ls as [|l ls IH]; intros n H1 Hn; cbn [render_anchored_lines length] in *; [done|].
  unfold is_u64 in *. destruct (IH (n + 1)%N) as [I1 I2]; [lia|lia|].
  destruct (strip_line_rendered n l) as [S1 S2]; [done|unfold is_u64; lia|].
  split; [constructor; [split; [apply render_not_blank|done]|done]|]. by rewrite fmap_cons, S2, I2.
Qed.
Lemma token_chars w : is_anchor_hash_token w = true → Forall (λ b, solid b = true) w ∧ (u8 226 ∉ w) ∧ w ≠ [].
Proof.
  unfold is_anchor_hash_token. rewrite andb_true_iff, bool_decide_eq_true, forallb_forall. intros [Hl H].
  assert (Ha : ∀ b, b ∈ w → solid b = true ∧ b ≠ u8 226).
  { intros b Hb%list_elem_of_In%H. unfold is_ascii_alphanumeric, is_ascii_digit, is_ascii_alphabetic in Hb.
    rewrite !orb_true_iff, !andb_true_iff, !N.leb_le in Hb. unfold solid. rewrite byte_in_spec. split; [lia|].
    intros ->. vm_compute in Hb. naive_solver. }
  split; [apply Forall_forall; naive_solver|]. split; [intros Hin; by apply Ha in Hin as [_ ?]|]. by intros ->; cbn in Hl; lia.
Qed.
(** Every line carries a prefix: all are removed. *)
Lemma strip_all txt ls :
  lines txt = ls → ls ≠ [] → Forall (λ r, str_is_blank r = false ∧ line_has_copied_read_prefix r = true) ls →
  last txt ≠ Some (u8 10) →
  strip_copied_read_prefixes txt = bytes_join [u8 10] (strip_copied_read_prefix_line <$> ls).
Proof.
  intros E Hne H Hl. unfold strip_copied_read_prefixes. rewrite E. destruct ls as [|x ls]; [done|].
  rewrite (filter_all (λ l, str_is_blank l = false)) by (eapply Forall_impl; [exact H|]; naive_solver).
  rewrite filter_all by (eapply Forall_impl; [exact H|]; naive_solver).
  rewrite bool_decide_eq_false_2 by (cbn [length]; lia). rewrite str_ends_with_last, bool_decide_eq_false_2 by done.
  apply app_nil_r.
Qed.
(** Prefixes copied from Read output are removed exactly: what Read prints for
    some lines is turned back into these lines.  The price is source text: a line
    that starts with one word of two to eight letters or digits and an arrow loses
    the word and the arrow. *)
Theorem copied_prefixes_stripped ls n word rest :
  (1 <= n)%N → is_u64 (n + N.of_nat (length ls)) → ls ≠ [] → Forall (λ l, no_lf l ∧ u8 13 ∉ l) ls →
  is_anchor_hash_token word = true → no_lf rest → u8 13 ∉ rest →
  strip_copied_read_prefixes (bytes_join [u8 10] (render_anchored_lines ls n)) = bytes_join [u8 10] ls ∧
  strip_copied_read_prefixes (word ++ [u8 32] ++ ANCHOR_SEPARATOR ++ rest) = rest.
Proof.
  intros H1 Hn Hne Hc Hw Hr Hcr. split.
  - destruct (render_all_clean ls n Hc) as (R1&R2&R3). destruct (render_all_prefixed ls n H1 Hn) as [P1 P2].
    rewrite (strip_all _ (render_anchored_lines ls n)); [by rewrite P2| |by destruct ls|done|].
    + apply lines_join; [done..|]. intros E. by destruct (R3 _ E).
    + destruct (last (render_anchored_lines ls n)) as [r|] eqn:E; [|apply last_None in E; by destruct ls].
      destruct (R3 _ eq_refl) as [Hr0 Hr1]. by rewrite (bytes_join_last _ _ _ E Hr0).
  - pose proof (token_chars _ Hw) as (Hws&Hw226&Hwne). set (t := word ++ _).
    assert (Hb : str_is_blank t = false).
    { subst t. destruct word as [|a w]; [done|]. apply solid_not_blank. by inversion Hws. }
    assert (Hlf : no_lf t).
    { subst t. unfold no_lf. rewrite !not_elem_of_app. split_and!; [by apply solid_not_in|by rewrite list_elem_of_singleton|apply sep_no_lf|done]. }
    assert (Hs : split_once ANCHOR_SEPARATOR t = Some (word ++ [u8 32], rest)).
    { subst t. rewrite app_assoc. apply (split_at_first_head _ _ _ _ _ eq_refl).
      rewrite not_elem_of_app, list_elem_of_singleton. done. }
    assert (Hp : is_copied_prefix (word ++ [u8 32]) = true).
    { unfold is_copied_prefix, hash_prefix_before_separator.
      rewrite (bytes_trim_space_end word Hwne (solid_tight _ Hws)), Hw. apply orb_true_r. }
    assert (Hlast : last t ≠ Some (u8 13) ∧ last t ≠ Some (u8 10)).
    { subst t. rewrite (last_app_ne word) by done. rewrite (last_app_ne [u8 32]) by done. by apply sep_last. }
    rewrite (strip_all t [t]); [|change t with (bytes_join [u8 10] [t]) at 1; apply lines_join|done| |apply Hlast].
    + cbn. unfold strip_copied_read_prefix_line. by rewrite Hs, Hp.
    + by constructor.
    + constructor; [apply Hlast|done].
    + intros [= E]. by rewrite E in Hb.
    + constructor; [|done]. split; [done|]. unfold line_has_copied_read_prefix. by rewrite Hs.
Qed.
Lemma copied_prefixes_stripped_witness :
  strip_copied_read_prefixes (as_bytes "key " ++ ANCHOR_SEPARATOR ++ as_bytes " value") = as_bytes " value".
Proof.
  apply (copied_prefixes_stripped [as_bytes "fn main"] 7 (as_bytes "key") (as_bytes " value"));
    [done|by vm_compute|done| |done|..].
  - constructor; [|done]. unfold no_lf. rewrite !list_elem_of_In. vm_compute. intuition discriminate.
  - unfold no_lf. rewrite list_elem_of_In. vm_compute. intuition discriminate.
  - rewrite list_elem_of_In. vm_compute. intuition discriminate.
Defined.
Lemma anchor_roundtrip_witness :
  ∃ r a, render_anchored_lines [as_bytes "a"; as_bytes "b"] 1 !! 1 = Some r ∧ parse_anchor r = Some a ∧
    validate_anchor_default [as_bytes "a"; as_bytes "b"] a = AnchorOk 2.
Proof. apply (anchor_roundtrip [as_bytes "a"; as_bytes "b"] 1 (as_bytes "b")); [done|lia]. Defined.
Definition moved_lines : list bytes := [as_bytes "new"; as_bytes "a"; as_bytes "b"].
Lemma anchor_validate_exact_witness :
  hash_at moved_lines (anchor_line_hash (as_bytes "b")) 2 = true ∧
  validate_anchor_default moved_lines (mkAnchor 2 (anchor_line_hash (as_bytes "b"))) = Shifted 3.
Proof.
  pose proof (anchor_validate_exact moved_lines (mkAnchor 2 (anchor_line_hash (as_bytes "b"))) ANCHOR_SEARCH_RADIUS) as H.
  assert (Hv : validate_anchor_default moved_lines (mkAnchor 2 (anchor_line_hash (as_bytes "b"))) = Shifted 3)
    by (vm_compute; reflexivity).
  unfold validate_anchor_default in *. rewrite Hv in *. split; [|done].
  destruct H as (_&_&H); [unfold small, ANCHOR_SEARCH_RADIUS; cbn; lia|]. by apply (proj2 (H 2)).
Defined.
