(* ===== verification/EditOps.v ===== *)
(** The two edit engines of the Edit tool (agent/nomi-tools/src/edit.rs): anchored
    line edits, and exact text replacement with its white-space tolerant fallback.
    [None] is a panic.  The [Debug] form of strings is an argument. *)
From S2P Require Import Prelude Utf8 Bytes Text CodingText Anchors.

Record EditOp := mkEditOp { old_string : bytes; new_string : bytes; replace_all : bool }.
Record AnchorEditOp := mkAnchorOp {
  op_anchor : bytes;
  end_anchor : option bytes;
  new_text : bytes;
  insert_after : bool;
}.

(** ** Anchored edits *)

(** Lines [r_start] to [r_end], counted from zero, both included *)
Record Resolved := mkResolved {
  r_index : nat;
  r_start : nat;
  r_end : nat;
  r_new_text : bytes;
  r_insert_after : bool;
}.
Definition nl : bytes := [u8 10].

Section anchored.
Context (debug_str : bytes → bytes).

Definition bad_anchor_message (i : nat) (anchor : bytes) : bytes :=
  as_bytes "edits[" ++ decimal (N.of_nat i) ++ as_bytes "].anchor " ++ debug_str anchor
  ++ text [" is not a valid line:hash anchor. Copy the WHOLE "] ++ DQUOTE ++ as_bytes "line:hash" ++ DQUOTE
  ++ as_bytes " prefix from Read/Grep output (e.g. " ++ DQUOTE ++ as_bytes "42:h7x2" ++ DQUOTE
  ++ as_bytes "), or the unique 4-char hash when the line is unambiguous.".
Definition bad_end_anchor_message (i : nat) (anchor : bytes) : bytes :=
  as_bytes "edits[" ++ decimal (N.of_nat i) ++ as_bytes "].end_anchor " ++ debug_str anchor
  ++ as_bytes " is not a valid line:hash anchor.".
Definition stale_message (lines : list bytes) (i : nat) (anchor : bytes) (line : N) : bytes :=
  as_bytes "edits[" ++ decimal (N.of_nat i) ++ as_bytes "] anchor " ++ DQUOTE ++ anchor ++ DQUOTE
  ++ as_bytes " is STALE (content changed). Fresh anchors near line " ++ decimal line ++ as_bytes ":" ++ nl
  ++ render_anchor_region lines line 3.
Definition stale_end_message (lines : list bytes) (i : nat) (anchor : bytes) (line : N) : bytes :=
  as_bytes "edits[" ++ decimal (N.of_nat i) ++ as_bytes "] end_anchor " ++ DQUOTE ++ anchor ++ DQUOTE
  ++ as_bytes " is STALE. Fresh anchors near line " ++ decimal line ++ as_bytes ":" ++ nl
  ++ render_anchor_region lines line 3.
Definition inverted_message (lines : list bytes) (i : nat) (start_line line : N) : bytes :=
  as_bytes "edits[" ++ decimal (N.of_nat i) ++ as_bytes "] range inverted (start " ++ decimal start_line
  ++ as_bytes " > end " ++ decimal line ++ as_bytes "). Fresh anchors:" ++ nl ++ render_anchor_region lines start_line 3.
Definition closer_message (lines : list bytes) (line : N) : bytes :=
  as_bytes "Anchor replacement rejected: end line " ++ decimal line
  ++ text [" is a structural closer, but new_text drops that closer. Include the closing line in new_text, or ";
           "use empty new_text to delete. Fresh anchors:"] ++ nl ++ render_anchor_region lines line 3.
Definition rejected_message (stale : list bytes) (ops : nat) : bytes :=
  text ["Anchor edit rejected — "] ++ decimal (N.of_nat (length stale)) ++ as_bytes " of " ++ decimal (N.of_nat ops)
  ++ as_bytes " anchor(s) failed; NO changes were made (edits are atomic)." ++ nl ++ nl ++ bytes_join (nl ++ nl) stale
  ++ nl ++ nl ++ as_bytes "Retry the FULL batch using the fresh anchors above. Never fabricate or reuse stale anchors.".
Definition overlap_message (lines : list bytes) (a b : Resolved) : bytes :=
  let n k := decimal (N.of_nat k) in
  text ["Anchor edit rejected — edits["] ++ n (r_index a) ++ as_bytes "] (lines " ++ n (r_start a + 1) ++ as_bytes "-"
  ++ n (r_end a + 1) ++ as_bytes ") and edits[" ++ n (r_index b) ++ as_bytes "] (lines " ++ n (r_start b + 1)
  ++ as_bytes "-" ++ n (r_end b + 1)
  ++ text [") overlap; NO changes were made. Merge them into one edit, or use non-overlapping lines. Fresh anchors:"]
  ++ nl ++ render_anchor_region lines (N.of_nat (r_start b) + 1) 3.

(** What one edit comes to: an error for the whole batch, a stale report, or a range *)
Inductive resolution := Refused (message : bytes) | StaleReport (report : bytes) | Range (r : Resolved).
(** The end line of an edit, given its start line *)
Definition resolve_end (lines : list bytes) (i : nat) (op : AnchorEditOp) (start_line : N) : resolution :=
  let range end_line :=
    Range (mkResolved i (N.to_nat start_line - 1) (N.to_nat end_line - 1) (new_text op) (insert_after op)) in
  match end_anchor op with
  | None => range start_line
  | Some end_raw =>
      match parse_anchor end_raw with
      | None => Refused (bad_end_anchor_message i end_raw)
      | Some a =>
          match validate_anchor_default lines a with
          | AnchorOk line | Shifted line =>
              if (line <? start_line)%N then StaleReport (inverted_message lines i start_line line)
              else if negb (structural_closer_ok (default [] (lines !! (N.to_nat line - 1))) (new_text op))
              then Refused (closer_message lines line)
              else range line
          | Stale => StaleReport (stale_end_message lines i end_raw (line a))
          end
      end
  end.
Definition resolve_op (lines : list bytes) (i : nat) (op : AnchorEditOp) : resolution :=
  match parse_anchor (op_anchor op) with
  | None => Refused (bad_anchor_message i (op_anchor op))
  | Some a =>
      if insert_after op && bool_decide (is_Some (end_anchor op)) then
        Refused (as_bytes "edits[" ++ decimal (N.of_nat i)
                 ++ as_bytes "]: insert_after cannot be combined with end_anchor.")
      else
        match validate_anchor_default lines a with
        | AnchorOk start_line | Shifted start_line => resolve_end lines i op start_line
        | Stale => StaleReport (stale_message lines i (op_anchor op) (line a))
        end
  end.
Fixpoint resolve_ops (lines : list bytes) (i : nat) (ops : list AnchorEditOp) (resolved : list Resolved)
    (stale : list bytes) : result (list Resolved * list bytes) bytes :=
  match ops with
  | [] => Ok (resolved, stale)
  | op :: ops =>
      match resolve_op lines i op with
      | Refused message => Err message
      | StaleReport report => resolve_ops lines (S i) ops resolved (stale ++ [report])
      | Range r => resolve_ops lines (S i) ops (resolved ++ [r]) stale
      end
  end.

(** [sort_by] is a stable sort; [le] says that its comparison is not [Greater]. *)
Fixpoint insert_by {A} (le : A → A → bool) (x : A) (l : list A) : list A :=
  match l with [] => [x] | y :: l' => if le x y then x :: l else y :: insert_by le x l' end.
Definition sort_by {A} (le : A → A → bool) (l : list A) : list A := foldr (insert_by le) [] l.
Definition position_le (a b : Resolved) : bool :=
  (r_start a <? r_start b) || (r_start a =? r_start b) && (r_end a <=? r_end b).
Fixpoint first_overlap (rs : list Resolved) : option (Resolved * Resolved) :=
  match rs with
  | a :: rs =>
      match rs with
      | b :: _ => if r_start b <=? r_end a then Some (a, b) else first_overlap rs
      | [] => None
      end
  | [] => None
  end.

(** One edit on the lines: [insert] line by line, or [splice] *)
Definition apply_resolved (out : list bytes) (r : Resolved) : list bytes :=
  let new_lines := lines (r_new_text r) in
  if r_insert_after r then take (S (r_start r)) out ++ new_lines ++ drop (S (r_start r)) out
  else take (r_start r) out ++ new_lines ++ drop (S (r_end r)) out.
(** [sort_unstable] and [dedup] of the centers; the starts are distinct by then *)
Definition receipt_centers (rs : list Resolved) : list nat :=
  remove_dups (sort_by Nat.leb ((λ r, S (r_start r)) <$> rs)).
Definition render_receipt (out : list bytes) (centers : list nat) : bytes :=
  bytes_join (nl ++ nl) ((λ c, render_anchor_region out (N.of_nat c) 3) <$> take 5 centers).
Definition close_text (content : bytes) (out : list bytes) : bytes :=
  let new_content := bytes_join nl out in
  if str_ends_with nl content && negb (str_ends_with nl new_content) then new_content ++ nl else new_content.
Definition apply_anchor_edits (content : bytes) (ops : list AnchorEditOp) : result (bytes * nat * bytes) bytes :=
  match ops with
  | [] => Err (text ["edits array is empty — provide at least one anchor edit."])
  | _ =>
      let ls := lines content in
      let? x := resolve_ops ls 0 ops [] [] in
      let '(resolved, stale) := x in
      match stale with
      | _ :: _ => Err (rejected_message stale (length ops))
      | [] =>
          match first_overlap (sort_by position_le resolved) with
          | Some (a, b) => Err (overlap_message ls a b)
          | None =>
              let resolved := sort_by (λ a b, position_le b a) resolved in
              let out := foldl apply_resolved ls resolved in
              Ok (close_text content out, length resolved, render_receipt out (receipt_centers resolved))
          end
      end
  end.
End anchored.

(** ** White-space tolerant matching *)

(** A character with the offset of its first byte *)
Abbreviation offset_char := (nat * bytes)%type.
Fixpoint with_offsets (at_ : nat) (cs : list bytes) : list offset_char :=
  match cs with [] => [] | c :: cs => (at_, c) :: with_offsets (at_ + length c) cs end.
Definition char_indices (s : bytes) : list offset_char := with_offsets 0 (chars s).
Definition is_char (n : N) (c : bytes) : bool := bool_decide (c = [u8 n]).
(** A line without its trailing spaces and tabs *)
Definition trim_blanks (line : list offset_char) : list offset_char :=
  drop_while_end (λ oc, is_char 32 oc.2 || is_char 9 oc.2) line.
Fixpoint normalize_loop (line cs : list offset_char) : list offset_char :=
  match cs with
  | [] => trim_blanks line
  | (o, c) :: cs =>
      if is_char 10 c then trim_blanks line ++ (o, nl) :: normalize_loop [] cs
      else if is_char 13 c then
        trim_blanks line ++ (o, nl) ::
          match cs with
          | (_, d) :: cs' => if is_char 10 d then normalize_loop [] cs' else normalize_loop [] cs
          | [] => []
          end
      else normalize_loop (line ++ [(o, c)]) cs
  end.
(** The normalized text, and the offset in [s] of each of its characters *)
Definition normalize_ws_mapped (s : bytes) : bytes * list nat :=
  let cs := normalize_loop [] (char_indices s) in (concat (snd <$> cs), fst <$> cs).
Definition try_whitespace_tolerant_replace (content old new : bytes) : option bytes :=
  let '(norm_content, map) := normalize_ws_mapped content in
  let '(norm_old, _) := normalize_ws_mapped old in
  match norm_old with
  | [] => None
  | _ =>
      match match_indices norm_old norm_content with
      | [start] =>
          let end_ := start + length norm_old in
          orig_start ← map !! start;
          let orig_end := default (length content) (map !! end_) in
          if bool_decide (orig_end < orig_start) || bool_decide (length content < orig_end) then None
          else Some (take orig_start content ++ new ++ drop orig_end content)
      | _ => None
      end
  end.

(** ** Exact text edits *)

Section exact.
Context (debug_str : bytes → bytes).

(** [is_char_boundary] *)
Definition is_char_boundary (s : bytes) (i : nat) : bool :=
  match s !! i with None => bool_decide (i ≤ length s) | Some b => negb (is_cont b) end.
(** The snippet behind the first 40 characters of the text, when they occur; slicing
    panics off a character boundary. *)
Definition similar_text (content old : bytes) : option (option bytes) :=
  let prefix := take_chars 40 old in
  match prefix, find_subsequence prefix content with
  | [], _ | _, None => Some None
  | _, Some pos =>
      let end_ := Nat.min (pos + length prefix + 40) (length content) in
      if is_char_boundary content end_ then
        let snippet := take (end_ - pos) (drop pos content) in
        let flat := (λ b, if is_byte 10 b || is_byte 13 b then u8 32 else b) <$> snippet in
        Some (Some (take_chars 80 flat))
      else None
  end.
Definition not_found_message (label content old : bytes) : option bytes :=
  similar ← similar_text content old;
  let msg := label ++ text ["old_string not found in file. Hint: re-Read the file and copy the exact text ";
                            "(including indentation)."] in
  Some (append_edit_recovery_hint
    (match similar with Some snippet => msg ++ as_bytes " Found similar text near: " ++ debug_str snippet | None => msg end)
    OldStringNotFound).
Definition classify_apply_err (msg : bytes) : EditFailureKind :=
  if contains_lit msg "not found" then OldStringNotFound
  else if contains_lit msg "Multiple matches" then MultipleMatches
  else OtherEditFailure.
Definition multiple_message (label : bytes) (count : nat) : bytes :=
  append_edit_recovery_hint
    (label ++ as_bytes "Multiple matches found (" ++ decimal (N.of_nat count)
     ++ as_bytes "). Use replace_all or provide more context.") MultipleMatches.
(** One edit: the new text and the number of replacements *)
Definition apply_edit (label current : bytes) (op : EditOp) : option (result (bytes * nat) bytes) :=
  let count := count_matches (old_string op) current in
  if bool_decide (count = 0) then
    match (if replace_all op then None else try_whitespace_tolerant_replace current (old_string op) (new_string op)) with
    | Some replaced => Some (Ok (replaced, 1))
    | None => msg ← not_found_message label current (old_string op); Some (Err msg)
    end
  else if bool_decide (1 < count) && negb (replace_all op) then Some (Err (multiple_message label count))
  else if replace_all op then Some (Ok (str_replace (old_string op) (new_string op) current, count))
  else Some (Ok (str_replace_first (old_string op) (new_string op) current, 1)).
Definition edit_label (multi : bool) (i : nat) : bytes :=
  if multi then as_bytes "edit #" ++ decimal (N.of_nat (S i)) ++ as_bytes ": " else [].
Fixpoint apply_edits_loop (multi : bool) (i : nat) (current : bytes) (total : nat) (ops : list EditOp) :
    option (result (bytes * nat) bytes) :=
  match ops with
  | [] => Some (Ok (current, total))
  | op :: ops =>
      r ← apply_edit (edit_label multi i) current op;
      match r with
      | Ok (current, n) => apply_edits_loop multi (S i) current (total + n) ops
      | Err msg => Some (Err msg)
      end
  end.
Definition apply_edits (content : bytes) (ops : list EditOp) : option (result (bytes * nat) bytes) :=
  apply_edits_loop (bool_decide (1 < length ops)) 0 content 0 ops.
End exact.
