(* ===== verification/EditTheorems.v ===== *)
(** The exact edits of [EditOps]: a reference semantics by occurrences that they follow,
    with the region that the tolerant fallback replaces, and what happens to an edit that
    fails. *)
From S2P Require Import Prelude Utf8 Bytes Text CodingText Anchors EditOps.

(** ** Occurrences *)

Definition occurs (needle l : bytes) (i : nat) : Prop := take (length needle) (drop i l) = needle.
Lemma occurs_bound needle l i : needle ≠ [] → occurs needle l i → i + length needle ≤ length l.
Proof.
  intros Hne H. apply (f_equal length) in H. rewrite length_take, length_drop in H.
  assert (length needle ≠ 0) by (by destruct needle). lia.
Qed.
Lemma find_subsequence_iff needle l i :
  find_subsequence needle l = Some i ↔ i ≤ length l ∧ occurs needle l i ∧ ∀ j, j < i → ¬ occurs needle l j.
Proof.
  unfold occurs. revert i. induction l as [|b l IH]; intros i; cbn [find_subsequence]; case_bool_decide as Hb.
  - split; [intros [= <-]; split_and!; [done|done|lia]|]. cbn. intros (?&_&_). f_equal. lia.
  - split; [done|]. intros (Hi&Ho&_). by replace i with 0 in Ho by (cbn in Hi; lia).
  - split; [intros [= <-]; split_and!; [lia|done|lia]|]. intros (_&_&Hm). destruct i as [|i]; [done|].
    destruct (Hm 0); [lia|done].
  - rewrite fmap_Some. setoid_rewrite IH. split.
    + intros (j&(Hj&Ho&Hm)&->). split_and!; [cbn; lia|done|]. intros [|k] Hk; [done|]. apply Hm. lia.
    + intros (Hi&Ho&Hm). destruct i as [|i]; [done|]. exists i. cbn [length] in Hi. split_and!; [lia|done| |done].
      intros j Hj. apply (Hm (S j)). lia.
Qed.
Lemma find_subsequence_none_iff needle l :
  find_subsequence needle l = None ↔ ∀ j, j ≤ length l → ¬ occurs needle l j.
Proof.
  split.
  - intros H j Hj Ho. unfold occurs in Ho. revert j Hj Ho. induction l as [|b l IH]; cbn [find_subsequence] in H;
      case_bool_decide as Hb; try done; intros [|j] Hj Ho; try done.
    destruct (find_subsequence needle l); [done|]. apply (IH eq_refl j); [cbn in Hj; lia|done].
  - intros H. destruct (find_subsequence needle l) as [i|] eqn:E; [|done]. apply find_subsequence_iff in E as (Hi&Ho&_).
    by destruct (H i Hi).
Qed.
Lemma occurs_split needle l i : occurs needle l i → l = take i l ++ needle ++ drop (i + length needle) l.
Proof.
  unfold occurs. intros Ho. rewrite <-(take_drop i l) at 1. f_equal. rewrite <-(take_drop (length needle) (drop i l)), Ho.
  f_equal. apply drop_drop.
Qed.
Lemma occurs_prefix needle l i j :
  occurs needle l i → j ≤ i → i + length needle ≤ length l → occurs needle (take i l ++ needle) j ↔ occurs needle l j.
Proof.
  intros Ho Hj Hl. replace (take i l ++ needle) with (take (i + length needle) l).
  - unfold occurs. by rewrite skipn_firstn_comm, take_take, Nat.min_l by lia.
  - rewrite <-take_take_drop. by rewrite Ho.
Qed.
Lemma find_subsequence_prefix needle l i :
  needle ≠ [] → find_subsequence needle l = Some i → find_subsequence needle (take i l ++ needle) = Some i.
Proof.
  intros Hne (Hi&Ho&Hm)%find_subsequence_iff. pose proof (occurs_bound _ _ _ Hne Ho) as Hb.
  apply find_subsequence_iff. rewrite length_app, length_take. split_and!; [lia|by apply occurs_prefix|].
  intros j Hj. rewrite occurs_prefix by (done || lia). by apply Hm.
Qed.

(** ** Splitting at an occurrence *)

Lemma split_scan_skip needle skip l : skip ≤ length l → split_scan needle skip l = split_scan needle 0 (drop skip l).
Proof. revert skip. induction l as [|b l IH]; intros [|skip] H; cbn in *; try done. apply IH. lia. Qed.
Lemma split_scan_find needle l :
  needle ≠ [] →
  split_scan needle 0 l =
  match find_subsequence needle l with
  | None => [l]
  | Some i => take i l :: split_scan needle 0 (drop (i + length needle) l)
  end.
Proof.
  intros Hne. induction l as [|b l IH]; cbn [split_scan find_subsequence].
  - case_bool_decide as H; [|done]. rewrite take_nil in H. done.
  - unfold str_starts_with. case_bool_decide as H.
    + destruct needle as [|a needle]; [done|]. cbn in H. injection H as -> H. cbn. rewrite Nat.sub_0_r. f_equal.
      apply split_scan_skip. apply (f_equal length) in H. rewrite length_take in H. lia.
    + rewrite IH. by destruct (find_subsequence needle l).
Qed.
(** Pieces between the leftmost occurrences *)
Fixpoint pieces_ok (needle : bytes) (ps : list bytes) : Prop :=
  match ps with
  | [] => False
  | p :: ps =>
      match ps with
      | [] => find_subsequence needle p = None
      | _ => find_subsequence needle (p ++ needle) = Some (length p) ∧ pieces_ok needle ps
      end
  end.
Lemma str_split_spec needle l :
  needle ≠ [] → bytes_join needle (str_split needle l) = l ∧ pieces_ok needle (str_split needle l).
Proof.
  intros Hne. replace (str_split needle l) with (split_scan needle 0 l) by (by destruct needle).
  remember (length l) as n eqn:En. revert l En. induction (lt_wf n) as [n _ IH]. intros l ->.
  rewrite split_scan_find by done. destruct (find_subsequence needle l) as [i|] eqn:E; [|done].
  pose proof E as (_&Ho&_)%find_subsequence_iff. pose proof (occurs_bound _ _ _ Hne Ho) as Hb.
  destruct (IH (length (drop (i + length needle) l))) with (l := drop (i + length needle) l) as [Hj Hp]; [|done|].
  { rewrite length_drop. destruct needle; [done|]. cbn in *. lia. }
  destruct (split_scan needle 0 (drop (i + length needle) l)) as [|p ps] eqn:Es; [done|]. split.
  - rewrite bytes_join_cons, Hj. symmetry. by apply occurs_split.
  - split; [|done]. rewrite length_take, Nat.min_l by lia. by apply find_subsequence_prefix.
Qed.
Lemma pieces_ok_unique needle ps : needle ≠ [] → pieces_ok needle ps → str_split needle (bytes_join needle ps) = ps.
Proof.
  intros Hne. replace (str_split needle (bytes_join needle ps)) with (split_scan needle 0 (bytes_join needle ps)) by (by destruct needle).
  induction ps as [|p [|q ps] IH]; [done|..]; intros Hp.
  - cbn [bytes_join]. rewrite split_scan_find by done. cbn in Hp. by rewrite Hp.
  - destruct Hp as [Hf Hp]. rewrite bytes_join_cons, split_scan_find by done.
    assert (E : find_subsequence needle (p ++ needle ++ bytes_join needle (q :: ps)) = Some (length p)).
    { apply find_subsequence_iff in Hf as (_&Ho&Hm). rewrite find_subsequence_iff, !length_app. split_and!; [lia| |].
      - unfold occurs. by rewrite drop_app_length, take_app_length.
      - intros j Hj Hoj. apply (Hm j Hj). revert Hoj. unfold occurs.
        rewrite !drop_app_le by lia. rewrite app_assoc, take_app_le; [done|]. rewrite length_app, length_drop. lia. }
    rewrite E, take_app_length. f_equal. etrans; [|apply (IH Hp)]. f_equal.
    rewrite app_assoc. apply drop_app_length'. by rewrite length_app.
Qed.

(** ** Reference semantics of exact edits *)

(** The region from [lo] to [hi] of the tolerant fallback: the normalized text of the edit
    is not empty and has one place in the normalized content.  The position of that place
    in bytes, and the position behind it, select entries of the map from normalized
    characters to offsets; no entry is the end of the content. *)
Definition tolerant_region (content old : bytes) (lo hi : nat) : Prop :=
  let '(norm_content, map) := normalize_ws_mapped content in
  let norm_old := (normalize_ws_mapped old).1 in
  norm_old ≠ [] ∧ lo ≤ hi ≤ length content ∧
  ∃ i, match_indices norm_old norm_content = [i] ∧ map !! i = Some lo ∧
    hi = default (length content) (map !! (i + length norm_old)).
Lemma tolerant_replace_spec content old new c' :
  try_whitespace_tolerant_replace content old new = Some c' ↔
  ∃ pre mid post, content = pre ++ mid ++ post ∧ c' = pre ++ new ++ post ∧
    tolerant_region content old (length pre) (length (pre ++ mid)).
Proof.
  unfold try_whitespace_tolerant_replace, tolerant_region. destruct (normalize_ws_mapped content) as [nc map].
  destruct (normalize_ws_mapped old) as [no mo]. cbn [fst]. destruct no as [|b no].
  { split; [done|]. intros (pre & mid & post & _ & _ & H & _). done. }
  destruct (match_indices (b :: no) nc) as [|start [|j l]]; try (split; [done|]; by intros (? & ? & ? & _ & _ & _ & _ & ? & [=] & _)).
  set (n := start + length (b :: no)). destruct (map !! start) as [lo|] eqn:Hlo; cbn [mbind option_bind].
  2: { split; [done|]. intros (? & ? & ? & _ & _ & _ & _ & ? & [= <-] & Hl & _). congruence. }
  set (hi := default (length content) (map !! n)). split.
  - destruct (_ || _) eqn:Hb; [done|]. apply orb_false_iff in Hb as [H1%bool_decide_eq_false H2%bool_decide_eq_false].
    intros [= <-]. exists (take lo content), (take (hi - lo) (drop lo content)), (drop hi content).
    assert (Ht : take lo content ++ take (hi - lo) (drop lo content) = take hi content).
    { rewrite take_take_drop. f_equal. lia. }
    rewrite Ht, !length_take, !Nat.min_l by lia. split_and!; [|done|done|lia|lia|by exists start].
    rewrite app_assoc, Ht. by rewrite take_drop.
  - intros (pre & mid & post & -> & -> & _ & Hle & i & [= <-] & Hl & Hh). rewrite Hlo in Hl. injection Hl as ->. fold n in Hh. fold hi in Hh.
    rewrite !bool_decide_eq_false_2 by (rewrite !length_app in *; lia). cbn [orb]. rewrite <- Hh. f_equal.
    rewrite take_app_length. do 2 f_equal. rewrite app_assoc. by apply drop_app_length'.
Qed.
(** One edit: the only occurrence (others overlap it), all occurrences, or the
    tolerant region when there is none. *)
Inductive edit_step (op : EditOp) : bytes → bytes → nat → Prop :=
| step_once pre post :
    replace_all op = false →
    find_subsequence (old_string op) (pre ++ old_string op) = Some (length pre) →
    find_subsequence (old_string op) post = None →
    edit_step op (pre ++ old_string op ++ post) (pre ++ new_string op ++ post) 1
| step_all ps :
    replace_all op = true → pieces_ok (old_string op) ps → 2 ≤ length ps →
    edit_step op (bytes_join (old_string op) ps) (bytes_join (new_string op) ps) (length ps - 1)
| step_tolerant pre mid post :
    replace_all op = false → find_subsequence (old_string op) (pre ++ mid ++ post) = None →
    tolerant_region (pre ++ mid ++ post) (old_string op) (length pre) (length (pre ++ mid)) →
    edit_step op (pre ++ mid ++ post) (pre ++ new_string op ++ post) 1.
(** A batch: each edit sees the text the earlier ones left. *)
Inductive edits_chain : list EditOp → bytes → bytes → nat → Prop :=
| chain_done c : edits_chain [] c c 0
| chain_step op ops c c1 c' n m :
    edit_step op c c1 n → edits_chain ops c1 c' m → edits_chain (op :: ops) c c' (n + m).

Lemma str_split_two needle pre post :
  needle ≠ [] → find_subsequence needle (pre ++ needle) = Some (length pre) → find_subsequence needle post = None →
  str_split needle (pre ++ needle ++ post) = [pre; post].
Proof. intros Hne Hf Hp. by apply (pieces_ok_unique needle [pre; post]). Qed.
Lemma replace_first_two needle new pre post :
  find_subsequence needle (pre ++ needle) = Some (length pre) →
  str_replace_first needle new (pre ++ needle ++ post) = pre ++ new ++ post.
Proof.
  intros (_&Ho&Hm)%find_subsequence_iff. unfold str_replace_first.
  assert (E : find_subsequence needle (pre ++ needle ++ post) = Some (length pre)).
  { rewrite find_subsequence_iff, !length_app. split_and!; [lia| |].
    - unfold occurs. by rewrite drop_app_length, take_app_length.
    - intros j Hj Hoj. apply (Hm j Hj). revert Hoj. unfold occurs.
      rewrite !drop_app_le by lia. rewrite app_assoc, take_app_le; [done|]. rewrite length_app, length_drop. lia. }
  rewrite E, take_app_length. do 2 f_equal. rewrite app_assoc. apply drop_app_length'. by rewrite length_app.
Qed.
Lemma apply_edit_step debug label c op c' n :
  old_string op ≠ [] → apply_edit debug label c op = Some (Ok (c', n)) ↔ edit_step op c c' n.
Proof.
  intros Hne. unfold apply_edit, count_matches. destruct (str_split_spec _ c Hne) as [Hj Hp]. split.
  - destruct (str_split (old_string op) c) as [|p [|q ps]] eqn:Es; [done|..]; cbn [length] in *.
    + cbn in Hj, Hp. subst p. rewrite bool_decide_eq_true_2 by lia.
      destruct (replace_all op) eqn:Ea; [by destruct (not_found_message _ _ _ _)|].
      destruct (try_whitespace_tolerant_replace _ _ _) eqn:Et; [|by destruct (not_found_message _ _ _ _)].
      intros [= <- <-]. apply tolerant_replace_spec in Et as (pre & mid & post & Hc & -> & Ht).
      rewrite Hc in Hp, Ht |- *. by apply step_tolerant.
    + rewrite bool_decide_eq_false_2 by lia. destruct (replace_all op) eqn:Ea; cbn [negb]; rewrite ?andb_false_r, ?andb_true_r.
      * intros [= <- <-]. unfold str_replace. rewrite <-Hj at 1. rewrite Es.
        apply (step_all op (p :: q :: ps)); [done|done|cbn; lia].
      * case_bool_decide; [done|]. destruct ps; [|cbn in *; lia]. destruct Hp as [Hf Hq]. rewrite <-Hj. cbn [bytes_join].
        rewrite replace_first_two by done. intros [= <- <-]. by apply step_once.
  - intros Hs. destruct Hs as [pre post Ea Hf Hq|ps Ea Hps Hl|pre mid post Ea Hf Ht]; rewrite Ea in *.
    + rewrite str_split_two by done. cbn. by rewrite replace_first_two.
    + unfold str_replace. rewrite pieces_ok_unique by done. rewrite bool_decide_eq_false_2 by lia. by rewrite andb_false_r.
    + rewrite (pieces_ok_unique _ [pre ++ mid ++ post]) by done. rewrite bool_decide_eq_true_2 by done.
      by rewrite (proj2 (tolerant_replace_spec (pre ++ mid ++ post) (old_string op) (new_string op) (pre ++ new_string op ++ post)))
        by (by exists pre, mid, post).
Qed.
Lemma apply_edits_loop_chain debug multi ops :
  Forall (λ op, old_string op ≠ []) ops → ∀ i c total c' n,
  apply_edits_loop debug multi i c total ops = Some (Ok (c', n)) ↔ ∃ m, edits_chain ops c c' m ∧ n = total + m.
Proof.
  induction 1 as [|op ops Hop _ IH]; intros i c total c' n; cbn [apply_edits_loop].
  - split; [intros [= <- <-]; exists 0; split; [constructor|lia]|]. intros (m&Hc&->). inversion Hc. by rewrite Nat.add_0_r.
  - split.
    + intros (r&Hr&Hc)%bind_Some. destruct r as [[c1 k]|]; [|done].
      rewrite (apply_edit_step debug) in Hr by done. apply IH in Hc as (m&Hm&->). exists (k + m). split; [by econstructor|lia].
    + intros (m&Hc&->). inversion Hc as [|? ? ? c1 ? k m' Hs Hm]; subst.
      rewrite <-(apply_edit_step debug (edit_label multi i)) in Hs by done. rewrite Hs. cbn. apply IH. exists m'. split; [done|lia].
Qed.

(** ** Failing edits *)

Lemma occurs_drop needle l n i : occurs needle (drop n l) i ↔ occurs needle l (n + i).
Proof. unfold occurs. by rewrite drop_drop. Qed.
Lemma two_occurrences needle l i j :
  needle ≠ [] → occurs needle l i → occurs needle l j → i + length needle ≤ j → 2 ≤ count_matches needle l.
Proof.
  intros Hne Hi Hj Hij. unfold count_matches.
  replace (str_split needle l) with (split_scan needle 0 l) by (by destruct needle).
  pose proof (occurs_bound _ _ _ Hne Hj) as Hb. rewrite split_scan_find by done.
  destruct (find_subsequence needle l) as [i0|] eqn:E.
  2: { rewrite find_subsequence_none_iff in E. destruct (E i); [lia|done]. }
  assert (Hle : i0 ≤ i). { apply find_subsequence_iff in E as (_&_&Hm). destruct (decide (i0 ≤ i)); [done|].
    by destruct (Hm i ltac:(lia)). }
  rewrite split_scan_find by done. set (rest := drop _ _).
  destruct (find_subsequence needle rest) as [k|] eqn:E'.
  2: { rewrite find_subsequence_none_iff in E'. destruct (E' (j - (i0 + length needle))).
       - subst rest. rewrite length_drop. lia.
       - subst rest. apply occurs_drop. by replace (i0 + length needle + (j - (i0 + length needle))) with j by lia. }
  rewrite split_scan_find by done. destruct (find_subsequence needle (drop _ rest)); cbn; lia.
Qed.
Lemma append_hint_prefix p x kind : str_starts_with p (append_edit_recovery_hint (p ++ x) kind) = true.
Proof. unfold append_edit_recovery_hint. case_match; [|rewrite <-app_assoc]; apply str_starts_with_app. Qed.
Definition NOT_FOUND : bytes := as_bytes "old_string not found in file".
(** A text of 42 letters followed by Chinese text, of which an edit knows 41 letters *)
Definition panic_text : bytes := as_bytes "let message = 'aaaaaaaaaaaaaaaaaaaaaaaaaa' 中文注释中文注释中文注释中文".
Definition panic_edit : EditOp := mkEditOp (as_bytes "let message = 'aaaaaaaaaaaaaaaaaaaaaaaaaa'x") [] false.
(** The first forty characters of the wanted text occur, and forty bytes behind their
    first occurrence the text goes on in the middle of a character. *)
Definition similar_cut (content old : bytes) : Prop :=
  ∃ pos b, let prefix := take_chars 40 old in
    prefix ≠ [] ∧ occurs prefix content pos ∧ (∀ j, j < pos → ¬ occurs prefix content j) ∧
    content !! (pos + length prefix + 40) = Some b ∧ is_cont b = true.
Lemma similar_text_cut content old : similar_text content old = None ↔ similar_cut content old.
Proof.
  unfold similar_text, similar_cut. cbv zeta. set (prefix := take_chars 40 old). clearbody prefix.
  destruct prefix as [|p prefix]; [split; [by destruct (find_subsequence [] content)|by intros (? & ? & ? & _)]|].
  set (needle := p :: prefix). destruct (find_subsequence needle content) as [pos|] eqn:E.
  2: { split; [done|]. intros (pos & b & _ & Ho & _). rewrite find_subsequence_none_iff in E. destruct (E pos); [|done].
       pose proof (occurs_bound needle content pos ltac:(done) Ho). lia. }
  apply find_subsequence_iff in E as (_ & Ho & Hm).
  assert (Hpos : ∀ pos', occurs needle content pos' → (∀ j, j < pos' → ¬ occurs needle content j) → pos' = pos).
  { intros pos' Ho' Hm'. destruct (Nat.lt_trichotomy pos' pos) as [Hlt|[?|Hlt]]; [by destruct (Hm pos')|done|by destruct (Hm' pos)]. }
  set (n := pos + length needle + 40). destruct (decide (n < length content)) as [Hn|Hn].
  - rewrite Nat.min_l by lia. unfold is_char_boundary. destruct (content !! n) as [b|] eqn:Hb;
      [|apply lookup_ge_None_1 in Hb; lia]. split.
    + destruct (is_cont b) eqn:Hc; [|done]. intros _. by exists pos, b.
    + intros (pos' & b' & _ & Ho' & Hm' & Hb' & Hc). rewrite (Hpos pos' Ho' Hm') in Hb'. fold n in Hb'. rewrite Hb in Hb'.
      injection Hb' as <-. by rewrite Hc.
  - rewrite Nat.min_r by lia. unfold is_char_boundary.
    destruct (content !! length content) as [b|] eqn:Hb; [apply lookup_lt_Some in Hb; lia|]. rewrite bool_decide_eq_true_2 by lia.
    split; [done|]. intros (pos' & b' & _ & Ho' & Hm' & Hb' & _). rewrite (Hpos pos' Ho' Hm') in Hb'. apply lookup_lt_Some in Hb'. lia.
Qed.
(** C40. Failing edits.  A text that occurs at two places which do not overlap is
    refused as ambiguous, unless all are to be replaced.  A text that does not occur,
    and has no tolerant region (none is tried when all are to be replaced), is reported
    as not found -- unless its first forty characters occur and the byte forty behind
    their first occurrence lies inside a character: exactly then the tool panics, as on
    the Chinese text of the example. *)
Theorem failed_edits debug content op :
  old_string op ≠ [] →
  (∀ i j, replace_all op = false →
    occurs (old_string op) content i → occurs (old_string op) content j → i + length (old_string op) ≤ j →
    ∃ k, 2 ≤ k ∧ apply_edits debug content [op] = Some (Err (multiple_message [] k))) ∧
  ((∀ i, i ≤ length content → ¬ occurs (old_string op) content i) →
   replace_all op = true ∨ (∀ lo hi, ¬ tolerant_region content (old_string op) lo hi) →
   (similar_cut content (old_string op) → apply_edits debug content [op] = None) ∧
   (¬ similar_cut content (old_string op) →
    ∃ msg, apply_edits debug content [op] = Some (Err msg) ∧ str_starts_with NOT_FOUND msg = true)) ∧
  similar_cut panic_text (old_string panic_edit) ∧ apply_edits debug panic_text [panic_edit] = None.
Proof.
  intros Hne. unfold apply_edits. cbn [length apply_edits_loop edit_label]. split_and!.
  - intros i j Ha Hi Hj Hij. pose proof (two_occurrences _ _ _ _ Hne Hi Hj Hij) as Hc. exists (count_matches (old_string op) content).
    split; [done|]. cbn. unfold apply_edit. rewrite Ha, bool_decide_eq_false_2 by lia. by rewrite bool_decide_eq_true_2 by lia.
  - intros Hno Ht. apply find_subsequence_none_iff in Hno. rewrite bool_decide_eq_false_2 by lia. unfold apply_edit.
    assert (Hs : str_split (old_string op) content = [content]) by by apply (pieces_ok_unique _ [content]).
    unfold count_matches. rewrite Hs, bool_decide_eq_true_2 by done.
    assert (Hn : (if replace_all op then None else try_whitespace_tolerant_replace content (old_string op) (new_string op)) = None).
    { destruct (replace_all op); [done|]. destruct Ht as [|Ht]; [done|].
      destruct (try_whitespace_tolerant_replace _ _ _) eqn:E; [|done]. apply tolerant_replace_spec in E as (? & ? & ? & _ & _ & E).
      by destruct (Ht _ _ E). }
    rewrite Hn, <- similar_text_cut. unfold not_found_message.
    destruct (similar_text content (old_string op)) as [s|]; (split; [done|]); [|done]. intros _. cbn [mbind option_bind].
    eexists. split; [done|].
    match goal with |- context [?a ++ text ?l] => set (m := a ++ text l) end.
    assert (Em : m = NOT_FOUND ++ drop (length NOT_FOUND) m) by (vm_compute; reflexivity). rewrite Em.
    destruct s; [rewrite <-app_assoc|]; apply append_hint_prefix.
  - apply similar_text_cut. by vm_compute.
  - by vm_compute.
Qed.

(** ** Witnesses *)

Lemma failed_edits_witness :
  ∃ k, 2 ≤ k ∧ apply_edits id (as_bytes "foo foo") [mkEditOp (as_bytes "foo") [] false] = Some (Err (multiple_message [] k)).
Proof.
  apply (proj1 (failed_edits id (as_bytes "foo foo") (mkEditOp (as_bytes "foo") [] false) ltac:(done)) 0 4);
    [reflexivity|by vm_compute|by vm_compute|cbn; lia].
Defined.
