(* ===== verification/TolerantEdit.v ===== *)
(** The white-space tolerant fallback of [EditOps]: on ASCII text it replaces one
    region that differs from the wanted text in line ends and trailing blanks only;
    behind a longer character it replaces another region.  With the exact edits this
    gives the specification of a whole batch. *)
From S2P Require Import Prelude Utf8 Bytes Text CodingText Anchors EditOps EditTheorems.

(** ** Normalization in two steps *)

Definition blank (t : offset_char) : bool := is_char 32 t.2 || is_char 9 t.2.
Definition is_nl (t : offset_char) : bool := is_char 10 t.2.
(** Line ends become line feeds. *)
Fixpoint tok (cs : list offset_char) : list offset_char :=
  match cs with
  | [] => []
  | (o, c) :: cs =>
      if is_char 13 c then
        (o, nl) :: match cs with (_, d) :: cs' => if is_char 10 d then tok cs' else tok cs | [] => [] end
      else (o, c) :: tok cs
  end.
(** Blanks go when the next thing kept is a line end, or the end ([k] says so). *)
Definition stops (k : bool) (r : list offset_char) : bool := match r with [] => k | u :: _ => is_nl u end.
Fixpoint cl (k : bool) (ts : list offset_char) : list offset_char :=
  match ts with
  | [] => []
  | t :: ts => if blank t && stops k (cl k ts) then cl k ts else t :: cl k ts
  end.

Lemma drop_while_snoc {A} (f : A → bool) l x :
  drop_while f (l ++ [x]) = match drop_while f l with [] => if f x then [] else [x] | r => r ++ [x] end.
Proof. induction l as [|y l IH]; cbn; [done|]. rewrite IH. by destruct (f y). Qed.
Lemma drop_while_incl {A} (f : A → bool) x l : x ∈ drop_while f l → x ∈ l.
Proof. induction l as [|y l IH]; cbn; [done|]. destruct (f y); [|done]. intros H. right. by apply IH. Qed.
Lemma trim_blanks_cons t l :
  trim_blanks (t :: l) = if blank t && bool_decide (trim_blanks l = []) then [] else t :: trim_blanks l.
Proof.
  unfold trim_blanks, drop_while_end. cbn [rev]. rewrite drop_while_snoc. fold (blank t).
  set (r := drop_while _ _). destruct r as [|x r]; cbn [rev]; [rewrite bool_decide_eq_true_2 by done|].
  - by destruct (blank t).
  - rewrite bool_decide_eq_false_2 by (by intros [_ ?]%app_eq_nil). rewrite andb_false_r. cbn. by rewrite rev_app_distr.
Qed.
Lemma cl_app k M Q : cl k (M ++ Q) = cl (stops k (cl k Q)) M ++ cl k Q.
Proof.
  induction M as [|t M IH]; [done|]. cbn [app cl]. rewrite IH.
  replace (stops k (cl (stops k (cl k Q)) M ++ cl k Q)) with (stops (stops k (cl k Q)) (cl (stops k (cl k Q)) M)).
  - by destruct (blank t && _).
  - by destruct (cl (stops k (cl k Q)) M).
Qed.
Lemma cl_line l : Forall (λ t, is_nl t = false) l → cl true l = trim_blanks l.
Proof.
  induction 1 as [|t l _ Hl IH]; [done|]. cbn [cl]. rewrite trim_blanks_cons, IH.
  assert (Hs : stops true (trim_blanks l) = bool_decide (trim_blanks l = [])).
  { destruct (trim_blanks l) as [|u r] eqn:E; [done|]. rewrite bool_decide_eq_false_2 by done. cbn [stops].
    rewrite Forall_forall in Hl. apply Hl. unfold trim_blanks, drop_while_end in E.
    assert (Hu : u ∈ u :: r) by left. rewrite <-E in Hu.
    rewrite list_elem_of_In, <-in_rev, <-list_elem_of_In in Hu. apply drop_while_incl in Hu.
    by rewrite list_elem_of_In, <-in_rev, <-list_elem_of_In in Hu. }
  rewrite Hs. case_bool_decide as E; [rewrite E|]; by rewrite ?andb_false_r.
Qed.
Lemma normalize_loop_cl n line cs :
  length cs ≤ n → Forall (λ t, is_nl t = false) line → normalize_loop line cs = cl true (line ++ tok cs).
Proof.
  revert line cs. induction n as [|n IH]; intros line [|[o c] cs] Hn Hl; cbn [length] in Hn; try lia;
    cbn [normalize_loop tok]; rewrite ?app_nil_r, ?cl_line by done; try done.
  assert (Hnl : ∀ r, cl true (line ++ (o, nl) :: r) = trim_blanks line ++ (o, nl) :: cl true r).
  { intros r. rewrite cl_app. cbn. by rewrite cl_line. }
  destruct (is_char 10 c) eqn:E10.
  - unfold is_char in E10. apply bool_decide_eq_true in E10 as ->.
    change (is_char 13 [u8 10]) with false. change [u8 10] with nl. cbn match. rewrite Hnl. do 2 f_equal. by apply IH; [lia|].
  - destruct (is_char 13 c).
    + rewrite Hnl. do 2 f_equal. destruct cs as [|[o' d] cs]; [done|]. cbn [length] in Hn.
      destruct (is_char 10 d); by apply IH; [cbn; lia|].
    + rewrite (IH (line ++ [(o, c)]) cs) by (try lia; apply Forall_app; by split; [|constructor]). by rewrite <-app_assoc.
Qed.

(** ** Cutting at a kept character *)

Lemma cl_cut k T p x r :
  cl k T = p ++ x :: r → ∃ P R, T = P ++ x :: R ∧ cl k (x :: R) = x :: r ∧ p = cl (is_nl x) P.
Proof.
  revert p. induction T as [|t T IH]; intros p H; [by destruct p|]. cbn [cl] in H.
  assert (Hdrop : ∀ p', cl k T = p' ++ x :: r → ∃ P R, t :: T = P ++ x :: R ∧ cl k (x :: R) = x :: r ∧
    P ≠ [] ∧ (if blank t && stops k (cl k T) then p' else t :: p') = cl (is_nl x) P).
  { intros p' Hp'. destruct (IH _ Hp') as (P&R&->&Hx&->). exists (t :: P), R. split_and!; [done|done|done|].
    cbn [cl]. rewrite Hp'. by destruct (cl (is_nl x) P). }
  destruct (blank t && stops k (cl k T)) eqn:E.
  - destruct (Hdrop p H) as (P&R&?&?&_&?). by exists P, R.
  - destruct p as [|u p]; injection H as -> H.
    + exists [], T. split_and!; [done| |done]. cbn [cl]. by rewrite E, H.
    + destruct (Hdrop p H) as (P&R&?&?&_&?). by exists P, R.
Qed.
Lemma cl_false_nil M : cl false M = [] → M = [].
Proof. induction M as [|t M IH]; [done|]. cbn [cl]. destruct (blank t && _) eqn:E; [|done]. intros H. by rewrite H, andb_false_r in E. Qed.
(** A part that does not end with a blank reads the same on its own. *)
Lemma cl_alone k M : (∀ u, last (cl k M) = Some u → blank u = false) → cl k M = cl true M.
Proof.
  destruct k; [done|]. induction M as [|t M IH]; [done|]. cbn [cl]. destruct (cl false M) as [|u r] eqn:E.
  - apply cl_false_nil in E as ->. cbn. rewrite andb_false_r. intros H. by rewrite (H t eq_refl).
  - intros H. rewrite <-IH; [done|]. intros v Hv. apply H. by destruct (blank t && _).
Qed.
Lemma cl_last M u : last (cl true M) = Some u → blank u = false.
Proof.
  induction M as [|t M IH]; [done|]. cbn [cl]. destruct (cl true M) as [|v r]; cbn [stops].
  - rewrite andb_true_r. destruct (blank t) eqn:E; [done|]. by intros [= <-].
  - destruct (blank t && _); apply IH.
Qed.

(** ** Normalization looks at the characters only *)

Lemma cl_snd k ts ts' : snd <$> ts = snd <$> ts' → snd <$> cl k ts = snd <$> cl k ts'.
Proof.
  revert ts'. induction ts as [|t ts IH]; intros [|t' ts'] H; try done. cbn in H. injection H as Ht H. cbn [cl].
  specialize (IH _ H). unfold blank. rewrite Ht.
  replace (stops k (cl k ts')) with (stops k (cl k ts)).
  - destruct (_ && stops k (cl k ts)); [done|]. rewrite !fmap_cons, Ht. by f_equal.
  - destruct (cl k ts), (cl k ts'); try done. cbn in IH. injection IH as E _. cbn. unfold is_nl. by rewrite E.
Qed.
Lemma tok_snd n cs cs' : length cs ≤ n → snd <$> cs = snd <$> cs' → snd <$> tok cs = snd <$> tok cs'.
Proof.
  revert cs cs'. induction n as [|n IH]; intros [|[o c] cs] [|[o' c'] cs'] Hn H; cbn [length] in Hn; try done; [lia|].
  injection H as <- H. cbn [tok]. destruct (is_char 13 c).
  - rewrite !fmap_cons. f_equal. destruct cs as [|[o1 d] cs], cs' as [|[o1' d'] cs']; try done. injection H as <- H.
    cbn [length] in Hn. destruct (is_char 10 d); apply IH; [lia|exact H|cbn; lia|]. rewrite !fmap_cons. f_equal. exact H.
  - rewrite !fmap_cons. f_equal. apply IH; [lia|done].
Qed.
Lemma with_offsets_snd o cs : snd <$> with_offsets o cs = cs.
Proof. revert o. induction cs as [|c cs IH]; intros o; [done|]. cbn. by rewrite IH. Qed.
Lemma normalize_at o s :
  snd <$> cl true (tok (with_offsets o (chars s))) = snd <$> normalize_loop [] (char_indices s).
Proof.
  rewrite (normalize_loop_cl (length (char_indices s)) []) by done. cbn [app]. apply cl_snd.
  eapply tok_snd; [done|]. unfold char_indices. by rewrite !with_offsets_snd.
Qed.

(** ** ASCII text *)

Definition ascii (s : bytes) : Prop := Forall (λ b, (byte b < 128)%N) s.
Definition singles (s : bytes) : list bytes := (λ b, [b]) <$> s.
Lemma singles_cons b s : singles (b :: s) = [b] :: singles s.
Proof. done. Qed.
Lemma chars_ascii s : ascii s → chars s = singles s.
Proof.
  unfold chars. induction 1 as [|b s Hb Hs IH]; [done|]. cbn [foldr]. rewrite IH.
  destruct Hs as [|c s Hc Hs]; [done|]. cbn. unfold is_cont.
  by replace (byte_in 128 191 c) with false by (symmetry; apply byte_in_false; lia).
Qed.
Definition toks (o : nat) (s : bytes) : list offset_char := tok (with_offsets o (singles s)).
Lemma toks_cons o b s :
  toks o (b :: s) =
  if is_char 13 [b] then
    (o, nl) :: match s with c :: s' => if is_char 10 [c] then toks (S (S o)) s' else toks (S o) s | [] => [] end
  else (o, [b]) :: toks (S o) s.
Proof.
  unfold toks, singles. cbn [fmap list_fmap with_offsets tok length].
  replace (o + 1) with (S o) by lia. destruct (is_char 13 [b]); [|done].
  destruct s as [|c s]; [done|]. cbn [fmap list_fmap with_offsets tok length]. by replace (S o + 1) with (S (S o)) by lia.
Qed.
(** Every token is one byte, inside the text. *)
Lemma toks_single n o s : length s ≤ n → ∃ t, snd <$> toks o s = singles t.
Proof.
  revert o s. induction n as [|n IH]; intros o [|b s] Hn; cbn [length] in Hn; [by exists []|lia|by exists []|].
  rewrite toks_cons. destruct (is_char 13 [b]).
  - destruct s as [|c s]; [by exists nl|]. cbn [length] in Hn.
    destruct (IH (S (S o)) s ltac:(lia)) as [t Ht], (IH (S o) (c :: s) ltac:(cbn; lia)) as [t' Ht'].
    destruct (is_char 10 [c]); [exists (u8 10 :: t)|exists (u8 10 :: t')]; by rewrite fmap_cons, singles_cons, ?Ht, ?Ht'.
  - destruct (IH (S o) s ltac:(lia)) as [t Ht]. exists (b :: t). by rewrite fmap_cons, singles_cons, Ht.
Qed.
Lemma cl_incl k T t : t ∈ cl k T → t ∈ T.
Proof.
  induction T as [|u T IH]; [done|]. cbn [cl]. destruct (blank u && _); rewrite ?elem_of_cons; naive_solver.
Qed.
Lemma cl_single k T t : snd <$> T = singles t → ∃ t', snd <$> cl k T = singles t'.
Proof.
  revert t. induction T as [|u T IH]; intros [|b t] H; try done; [by exists []|].
  injection H as Hu H. destruct (IH _ H) as [t' Ht']. cbn [cl].
  destruct (blank u && _); [by exists t'|]. exists (b :: t'). by rewrite fmap_cons, singles_cons, Hu, Ht'.
Qed.
(** A token starts where the text before it ends. *)
Lemma toks_cut n o s P x R :
  length s ≤ n → toks o s = P ++ x :: R →
  ∃ s1 s2, s = s1 ++ s2 ∧ x.1 = o + length s1 ∧ toks o s1 = P ∧ toks x.1 s2 = x :: R.
Proof.
  revert o s P. induction n as [|n IH]; intros o [|b s] P Hn H; cbn [length] in Hn; try lia; try by destruct P.
  destruct P as [|p P].
  { assert (Hx : x.1 = o).
    { rewrite toks_cons in H. destruct (is_char 13 [b]); by injection H as <- _. }
    exists [], (b :: s). cbn [length app]. rewrite Hx. split_and!; [done|lia|done|exact H]. }
  rewrite toks_cons in H. destruct (is_char 13 [b]) eqn:E13.
  - injection H as <- H. destruct s as [|c s]; [by destruct P|]. cbn [length] in Hn. destruct (is_char 10 [c]) eqn:E10.
    + destruct (IH (S (S o)) s P) as (s1&s2&->&Hx&Hp&Hr); [lia|done|]. exists (b :: c :: s1), s2.
      split_and!; [done|cbn; lia| |done]. rewrite toks_cons, E13, E10. by f_equal.
    + destruct (IH (S o) (c :: s) P) as (s1&s2&E&Hx&Hp&Hr); [cbn; lia|done|]. exists (b :: s1), s2.
      split_and!; [by rewrite E|cbn; lia| |done]. rewrite toks_cons, E13. f_equal.
      destruct s1 as [|c' s1]; [exact Hp|]. injection E as <- _. by rewrite E10.
  - injection H as <- H. destruct (IH (S o) s P) as (s1&s2&->&Hx&Hp&Hr); [lia|done|]. exists (b :: s1), s2.
    split_and!; [done|cbn; lia| |done]. rewrite toks_cons, E13. by f_equal.
Qed.
Lemma singles_concat t : concat (singles t) = t.
Proof. induction t as [|b t IH]; [done|]. rewrite singles_cons. cbn [concat app]. by rewrite IH. Qed.
Lemma singles_app a b : singles (a ++ b) = singles a ++ singles b.
Proof. apply fmap_app. Qed.
(** The normalized text of an ASCII text *)
Lemma normalize_ascii s :
  ascii s → normalize_ws_mapped s = (concat (snd <$> cl true (toks 0 s)), fst <$> cl true (toks 0 s)).
Proof.
  intros Ha. unfold normalize_ws_mapped, toks. rewrite (normalize_loop_cl (length (char_indices s)) []) by done.
  cbn [app]. unfold char_indices. by rewrite chars_ascii.
Qed.
Lemma normalize_shift o s : ascii s → concat (snd <$> cl true (toks o s)) = (normalize_ws_mapped s).1.
Proof.
  intros Ha. rewrite normalize_ascii by done. cbn [fst]. f_equal. apply cl_snd.
  eapply tok_snd; [done|]. by rewrite !with_offsets_snd.
Qed.

(** The bytes between two kept characters normalize to what was kept of them. *)
Lemma region_normalizes s p m q :
  ascii s → cl true (toks 0 s) = p ++ m ++ q → m ≠ [] → (∀ u, last m = Some u → blank u = false) →
  ∃ pre mid post, s = pre ++ mid ++ post ∧ (fst <$> head m) = Some (length pre) ∧
    default (length s) (fst <$> head q) = length (pre ++ mid) ∧ (normalize_ws_mapped mid).1 = concat (snd <$> m).
Proof.
  intros Ha H Hne Hlast. destruct m as [|x m]; [done|]. cbn [app] in H.
  destruct (cl_cut _ _ _ _ _ H) as (P&R&HT&Hx&->). destruct (toks_cut (length s) 0 s P x R) as (pre&s2&->&Ho&_&Hs2); [done..|].
  apply Forall_app in Ha as [_ Ha2]. cbn [fmap option_fmap option_map head] in *. cbn in Ho. rewrite Ho in *.
  destruct q as [|y q].
  - exists pre, s2, []. rewrite app_nil_r in *. split_and!; [done|done|done|].
    rewrite <-(normalize_shift (length pre)) by done. by rewrite Hs2, Hx.
  - change (x :: m ++ y :: q) with ((x :: m) ++ y :: q) in Hx. rewrite <-Hs2 in Hx.
    destruct (cl_cut _ _ _ _ _ Hx) as (M&R'&HM&Hy&Hm). 
    destruct (toks_cut (length s2) (length pre) s2 M y R') as (mid&post&->&Hyo&HMt&_); [done..|].
    exists pre, mid, post. apply Forall_app in Ha2 as [Hmid _]. split_and!; [done|done| |].
    + cbn. by rewrite Hyo, length_app.
    + rewrite <-(normalize_shift (length pre)) by done. rewrite HMt. rewrite <-(cl_alone (is_nl y)) by (rewrite <-Hm; done).
      by rewrite <-Hm.
Qed.
Lemma match_indices_one needle l i :
  needle ≠ [] → match_indices needle l = [i] →
  ∃ pre post, l = pre ++ needle ++ post ∧ length pre = i ∧
    find_subsequence needle (pre ++ needle) = Some (length pre) ∧ find_subsequence needle post = None.
Proof.
  intros Hne. unfold match_indices. destruct (str_split_spec _ l Hne) as [Hj Hp].
  destruct (str_split needle l) as [|p [|q [|r ps]]]; cbn [match_offsets]; try done. cbn in Hj, Hp.
  intros [= <-]. exists p, q. naive_solver.
Qed.

(** ** The normalized text, line by line *)

Definition is_blank (b : Ascii.ascii) : bool := is_byte 32 b || is_byte 9 b.
Definition without_blanks (line : bytes) : bytes := drop_while_end is_blank line.
(** The lines of a text, ended by a line feed, a carriage return or both; [cur] is the
    beginning of the first. *)
Fixpoint text_lines (cur s : bytes) : list bytes :=
  match s with
  | [] => [cur]
  | b :: s =>
      if is_byte 10 b then cur :: text_lines [] s
      else if is_byte 13 b then
        cur :: match s with d :: s' => if is_byte 10 d then text_lines [] s' else text_lines [] s | [] => [[]] end
      else text_lines (cur ++ [b]) s
  end.
(** The text with line feeds only, and without blanks at the ends of lines *)
Definition normal_text (s : bytes) : bytes := bytes_join nl (without_blanks <$> text_lines [] s).
Lemma is_char_one n b : (n < 256)%N → is_char n [b] = is_byte n b.
Proof.
  intros Hn. unfold is_char, is_byte. destruct (N.eqb_spec (byte b) n) as [E|E].
  - rewrite bool_decide_eq_true_2; [done|]. by rewrite <- (u8_byte b), E.
  - apply bool_decide_eq_false_2. intros [= ->]. by rewrite byte_u8 in E.
Qed.
Lemma drop_while_snd (f : offset_char → bool) (g : Ascii.ascii → bool) line l :
  (∀ o b, f (o, [b]) = g b) → snd <$> line = singles l → snd <$> drop_while f line = singles (drop_while g l).
Proof.
  intros Hf. revert l. induction line as [|[o c] line IH]; intros [|b l] H; try done. injection H as -> H. cbn [drop_while].
  rewrite Hf. destruct (g b); [by apply IH|]. rewrite fmap_cons, singles_cons. f_equal. exact H.
Qed.
Lemma fmap_rev {A B} (f : A → B) l : f <$> rev l = rev (f <$> l).
Proof. induction l as [|x l IH]; [done|]. cbn. by rewrite fmap_app, IH. Qed.
Lemma trim_blanks_snd line l : snd <$> line = singles l → snd <$> trim_blanks line = singles (without_blanks l).
Proof.
  intros H. unfold trim_blanks, without_blanks, drop_while_end, singles. rewrite !fmap_rev. f_equal.
  apply (drop_while_snd _ is_blank); [intros o b; unfold is_blank; cbn; by rewrite !is_char_one by done|].
  unfold singles. rewrite !fmap_rev. f_equal. exact H.
Qed.
Lemma text_lines_cons cur s : ∃ l ls, text_lines cur s = l :: ls.
Proof.
  revert cur. induction s as [|b s IH]; intros cur; cbn [text_lines]; [by eexists _, _|]. repeat case_match; eauto.
Qed.
Lemma join_lines_cons l cur s :
  bytes_join nl (without_blanks <$> l :: text_lines cur s) =
  without_blanks l ++ nl ++ bytes_join nl (without_blanks <$> text_lines cur s).
Proof. destruct (text_lines_cons cur s) as (x & xs & E). by rewrite E. Qed.
Lemma normalize_loop_text n line cs l s :
  length cs ≤ n → snd <$> line = singles l → snd <$> cs = singles s →
  concat (snd <$> normalize_loop line cs) = bytes_join nl (without_blanks <$> text_lines l s).
Proof.
  revert line cs l s. induction n as [|n IH]; intros line [|[o c] cs] l [|b s] Hn Hl H; cbn [length] in Hn; try done; try lia.
  - cbn. etrans; [exact (f_equal (@concat Ascii.ascii) (trim_blanks_snd _ _ Hl))|apply singles_concat].
  - cbn. etrans; [exact (f_equal (@concat Ascii.ascii) (trim_blanks_snd _ _ Hl))|apply singles_concat].
  - injection H as -> H. cbn [normalize_loop text_lines]. rewrite !is_char_one by done.
    assert (Hline : ∀ rest, concat (snd <$> trim_blanks line ++ (o, nl) :: rest) = without_blanks l ++ nl ++ concat (snd <$> rest)).
    { intros rest. rewrite fmap_app, fmap_cons, concat_app. f_equal.
      etrans; [exact (f_equal (@concat Ascii.ascii) (trim_blanks_snd _ _ Hl))|apply singles_concat]. }
    destruct (is_byte 10 b).
    { rewrite Hline, join_lines_cons. do 2 f_equal. apply (IH [] cs [] s); [lia|done|done]. }
    destruct (is_byte 13 b).
    2: { apply (IH _ cs); [lia| |done]. unfold singles in *. rewrite !fmap_app. f_equal. exact Hl. }
    rewrite Hline. destruct cs as [|[o' d] cs], s as [|b' s]; try done.
    cbn [length] in Hn. pose proof H as H'. injection H as -> H. rewrite is_char_one by done.
    destruct (is_byte 10 b'); rewrite join_lines_cons; do 2 f_equal; apply (IH [] _ []); try done; cbn [length]; lia.
Qed.
Lemma normal_text_spec s : ascii s → (normalize_ws_mapped s).1 = normal_text s.
Proof.
  intros Ha. unfold normalize_ws_mapped, normal_text. cbn [fst]. apply (normalize_loop_text (length (char_indices s))); [done|done|].
  unfold char_indices. by rewrite with_offsets_snd, chars_ascii.
Qed.
Lemma match_indices_count needle l i : needle ≠ [] → match_indices needle l = [i] → count_matches needle l = 1.
Proof.
  intros Hne (pre & post & -> & _ & Hf1 & Hf2)%match_indices_one; [|done]. unfold count_matches. by rewrite str_split_two.
Qed.
Lemma count_match_indices needle l : count_matches needle l = 1 → ∃ i, match_indices needle l = [i].
Proof.
  unfold count_matches, match_indices. destruct (str_split needle l) as [|p [|q [|r ps]]]; cbn; try done; try lia. by eexists.
Qed.
(** The only place of the normalized text is a region of the file. *)
Lemma tolerant_place content old :
  ascii content → ascii old → normal_text old ≠ [] → count_matches (normal_text old) (normal_text content) = 1 →
  ∃ pre mid post, content = pre ++ mid ++ post ∧ normal_text mid = normal_text old ∧
    tolerant_region content old (length pre) (length (pre ++ mid)).
Proof.
  intros Hc Ho. rewrite <- !normal_text_spec by done. intros Hne (start & Em)%count_match_indices. revert Hne Em.
  unfold tolerant_region. rewrite (normalize_ascii content), (normalize_ascii old) by done. cbn [fst].
  destruct (toks_single (length content) 0 content) as [tc Htc]; [done|].
  destruct (cl_single true _ _ Htc) as [nc Hnc].
  change (@fmap list _ _ (list Ascii.ascii) snd) with (@fmap list _ _ bytes (@snd nat bytes)). rewrite Hnc, singles_concat.
  destruct (toks_single (length old) 0 old) as [to Hto]; [done|].
  destruct (cl_single true _ _ Hto) as [no Hno]. rewrite Hno, singles_concat. intros Hne Em.
  destruct (match_indices_one _ _ _ Hne Em) as (np&nq&Enc&Hlen&Hf1&Hf2).
  set (K := cl true (toks 0 content)) in *.
  assert (HK : K = take start K ++ take (length no) (drop start K) ++ drop (start + length no) K)
    by (rewrite <-drop_drop, take_drop, take_drop; done).
  assert (Hm : snd <$> take (length no) (drop start K) = singles no).
  { rewrite fmap_take, fmap_drop, Hnc, Enc, !singles_app. rewrite drop_app_length' by (unfold singles; by rewrite length_fmap).
    apply take_app_length'. unfold singles. by rewrite length_fmap. }
  destruct (region_normalizes content _ _ _ Hc HK) as (pre&mid&post&E&Hs&He&Hmid).
  - intros E. rewrite E in Hm. by destruct no.
  - intros u Hu. apply (f_equal (fmap snd)) in Hu. rewrite <-fmap_last, Hm, <-Hno, fmap_last in Hu.
    destruct (last (cl true (toks 0 old))) as [v|] eqn:Ev; [|done]. cbn in Hu. injection Hu as Hu.
    apply cl_last in Ev. unfold blank in *. by rewrite <-Hu.
  - assert (Hn0 : 0 < length no) by (destruct no; [done|cbn; lia]).
    rewrite head_lookup, lookup_take_lt, lookup_drop, Nat.add_0_r in Hs by done.
    rewrite head_lookup, lookup_drop, Nat.add_0_r in He.
    assert (Ha : ascii mid) by (rewrite E in Hc; by apply Forall_app in Hc as [_ [? _]%Forall_app]).
    exists pre, mid, post. split_and!; [done| |done|rewrite length_app; lia|rewrite E, !length_app; lia|].
    + rewrite <- (normal_text_spec mid Ha), Hmid.
      etrans; [exact (f_equal (@concat Ascii.ascii) Hm)|apply singles_concat].
    + exists start. split_and!; [done|by rewrite list_lookup_fmap, Hs|]. by rewrite list_lookup_fmap, He.
Qed.
Lemma tolerant_region_unique content old lo hi lo' hi' :
  tolerant_region content old lo hi → tolerant_region content old lo' hi' → lo = lo' ∧ hi = hi'.
Proof.
  unfold tolerant_region. destruct (normalize_ws_mapped content) as [nc map].
  intros (_ & _ & i & Hi & Hl & ->) (_ & _ & j & Hj & Hl' & ->). rewrite Hi in Hj. injection Hj as <-. split; [congruence|done].
Qed.
(** On ASCII text the region of the fallback is the one place where the text stands up to
    line ends and trailing blanks. *)
Definition tolerant_on_ascii (content old : bytes) : Prop :=
  ascii content → ascii old →
  (∀ lo hi, tolerant_region content old lo hi →
    ∃ pre mid post, content = pre ++ mid ++ post ∧ lo = length pre ∧ hi = length (pre ++ mid) ∧
      normal_text mid = normal_text old) ∧
  ((∃ lo hi, tolerant_region content old lo hi) ↔
    normal_text old ≠ [] ∧ count_matches (normal_text old) (normal_text content) = 1).

(** C35. Exact edits mean what they say.  A batch of text edits, none for an empty text,
    succeeds exactly when each edit in turn finds one occurrence (any other overlapping
    it), replaces every occurrence because it was asked to, or -- when there is none and
    not all are to be replaced -- finds one tolerant region; and the result is the text
    with the occurrences or the region rewritten, and nothing else.  On ASCII text there
    is a tolerant region exactly when the wanted text, with line feeds for line ends and
    without trailing blanks, is not empty and stands once in the file seen the same way,
    and the region holds that text.  (Behind longer characters the region can be another
    one, as [tolerant_edit_wrong_region] shows.) *)
Theorem exact_edits_refine debug content ops c' n :
  Forall (λ op, old_string op ≠ []) ops →
  (apply_edits debug content ops = Some (Ok (c', n)) ↔ edits_chain ops content c' n) ∧
  ∀ text old, tolerant_on_ascii text old.
Proof.
  intros H. split.
  - unfold apply_edits. rewrite apply_edits_loop_chain by done. split; [by intros (m&Hm&->)|]. intros Hc. by exists n.
  - intros text old Ht Ho.
    assert (Hr : ∀ lo hi, tolerant_region text old lo hi →
      normal_text old ≠ [] ∧ count_matches (normal_text old) (normal_text text) = 1).
    { intros lo hi. unfold tolerant_region. pose proof (normal_text_spec text Ht) as Et. rewrite (normal_text_spec old Ho).
      destruct (normalize_ws_mapped text) as [nc map]. cbn in Et. subst nc. intros (Hne & _ & i & Hi & _).
      split; [done|]. by eapply match_indices_count. }
    split.
    + intros lo hi Hreg. destruct (Hr _ _ Hreg) as [Hne Hcount].
      destruct (tolerant_place text old Ht Ho Hne Hcount) as (pre & mid & post & E & Hn & Hreg').
      destruct (tolerant_region_unique _ _ _ _ _ _ Hreg Hreg') as [-> ->]. by exists pre, mid, post.
    + split; [intros (lo & hi & Hreg); by eapply Hr|]. intros [Hne Hcount].
      destruct (tolerant_place text old Ht Ho Hne Hcount) as (pre & mid & post & _ & _ & Hreg). by eexists _, _.
Qed.
(** A file with a line of Chinese text; the edit leaves out two trailing blanks. *)
Definition chinese_file : bytes := as_bytes "// 中文注释
foo  
bar
keep me
and me".
Definition chinese_edit : EditOp := mkEditOp (as_bytes "foo
bar") (as_bytes "X") false.
(** The tolerant fallback counts characters in one place and bytes in another:
    behind characters longer than a byte it replaces an unrelated region.  Here the
    text to replace stays, another line is lost, and the edit reports success. *)
Theorem tolerant_edit_wrong_region debug :
  apply_edits debug chinese_file [chinese_edit] = Some (Ok (as_bytes "// 中文注释
foo  
bar
X
and me", 1)).
Proof. vm_compute. reflexivity. Qed.

(** ** Witnesses *)

Definition dirty_file : bytes := as_bytes "a
foo  
bar
b".
Lemma ascii_check s : forallb (λ b, byte b <? 128)%N s = true → ascii s.
Proof. rewrite forallb_forall. intros H. apply Forall_forall. intros b Hb%list_elem_of_In%H. by apply N.ltb_lt. Qed.
Lemma exact_edits_refine_witness :
  edits_chain [mkEditOp (as_bytes "foo") (as_bytes "baz") false] (as_bytes "a foo b") (as_bytes "a baz b") 1 ∧
  ∃ lo hi, tolerant_region dirty_file (as_bytes "foo
bar") lo hi.
Proof.
  destruct (exact_edits_refine id (as_bytes "a foo b") [mkEditOp (as_bytes "foo") (as_bytes "baz") false] (as_bytes "a baz b") 1)
    as [He Ht]; [by repeat constructor|]. split; [apply He; by vm_compute|].
  apply (Ht dirty_file (as_bytes "foo
bar")); [by apply ascii_check; vm_compute|by apply ascii_check; vm_compute|]. split; [done|by vm_compute].
Defined.
