(* ===== verification/AnchorEdits.v ===== *)
(** Anchored batches: which line an anchor names and which lines an edit covers;
    applying the edits from the bottom equals one pass over the file from the top; what
    the closing of the text does to its ends. *)
From S2P Require Import Prelude Utf8 Bytes Text CodingText Anchors EditOps.

(** ** The sort *)

Section sort_by.
Context {A : Type} (le : A → A → bool).
Context (le_total : ∀ x y, le x y = false → le y x = true) (le_trans : ∀ x y z, le x y = true → le y z = true → le x z = true).
Lemma insert_by_perm x l : insert_by le x l ≡ₚ x :: l.
Proof. induction l as [|y l IH]; cbn; [done|]. destruct (le x y); [done|]. rewrite IH. apply Permutation_swap. Qed.
Lemma sort_by_perm l : sort_by le l ≡ₚ l.
Proof. induction l as [|x l IH]; cbn; [done|]. fold (sort_by le l). by rewrite insert_by_perm, IH. Qed.
Lemma sort_by_sorted l : StronglySorted (λ x y, le x y = true) (sort_by le l).
Proof.
  induction l as [|x l IH]; cbn; [constructor|]. fold (sort_by le l). induction IH as [|y l' Hl IHl Hy]; cbn.
  - repeat constructor.
  - destruct (le x y) eqn:E.
    + constructor; [by constructor|]. constructor; [done|]. eapply Forall_impl; [exact Hy|]. intros z Hz. by eapply le_trans.
    + constructor; [done|]. apply Forall_forall. intros z Hz. rewrite insert_by_perm, elem_of_cons in Hz.
      rewrite Forall_forall in Hy. destruct Hz as [->|Hz]; [by apply le_total|by apply Hy].
Qed.
End sort_by.

(** ** One pass from the top *)

(** The reference: keep the lines up to an edit, write its lines, skip its range. *)
Fixpoint rebuild (pos : nat) (ls : list bytes) (rs : list Resolved) : list bytes :=
  match rs with
  | [] => drop pos ls
  | r :: rs =>
      let kept := if r_insert_after r then S (r_start r) else r_start r in
      take (kept - pos) (drop pos ls) ++ lines (r_new_text r) ++ rebuild (S (r_end r)) ls rs
  end.
(** Ranges in order, apart from each other, and inside the file *)
Fixpoint disjoint_from (pos : nat) (len : nat) (rs : list Resolved) : Prop :=
  match rs with
  | [] => pos ≤ len
  | r :: rs => pos ≤ r_start r ≤ r_end r ∧ r_end r < len ∧ disjoint_from (S (r_end r)) len rs
  end.
(** An insertion is behind a single line. *)
Definition range_ok (len : nat) (r : Resolved) : Prop :=
  r_start r ≤ r_end r ∧ r_end r < len ∧ (r_insert_after r = true → r_end r = r_start r).

Lemma foldl_rev {A B} (f : A → B → A) a l : foldl f a (rev l) = foldr (λ x r, f r x) a l.
Proof. induction l as [|x l IH]; [done|]. cbn [rev foldr]. by rewrite foldl_app, IH. Qed.
Lemma bottom_up_rebuild pos ls rs :
  disjoint_from pos (length ls) rs → Forall (range_ok (length ls)) rs →
  foldr (λ r out, apply_resolved out r) ls rs = take pos ls ++ rebuild pos ls rs.
Proof.
  revert pos. induction rs as [|r rs IH]; intros pos Hd Hr; cbn [foldr rebuild disjoint_from] in *; [by rewrite take_drop|].
  apply Forall_cons in Hr as [(Hse&Hel&Hins) Hr]. destruct Hd as (Hps&_&Hd). rewrite (IH _ Hd Hr).
  assert (Ht : length (take (S (r_end r)) ls) = S (r_end r)) by (rewrite length_take; lia).
  unfold apply_resolved. destruct (r_insert_after r) eqn:Ei.
  - specialize (Hins eq_refl). rewrite Hins in *. rewrite !(app_assoc (take pos ls)), take_take_drop.
    replace (pos + (S (r_start r) - pos)) with (S (r_start r)) by lia.
    by rewrite take_app_length', drop_app_length' by done.
  - rewrite !(app_assoc (take pos ls)), take_take_drop. replace (pos + (r_start r - pos)) with (r_start r) by lia.
    rewrite take_app_le by lia. rewrite take_take, Nat.min_l by lia. by rewrite drop_app_length' by done.
Qed.

(** ** The two sorts agree on disjoint ranges *)

Lemma position_le_total x y : position_le x y = false → position_le y x = true.
Proof.
  unfold position_le. rewrite orb_false_iff, andb_false_iff, orb_true_iff, andb_true_iff, !Nat.ltb_lt, !Nat.ltb_ge,
    !Nat.leb_le, !Nat.eqb_eq, !Nat.eqb_neq, Nat.leb_gt. lia.
Qed.
Lemma position_le_spec x y :
  position_le x y = true ↔ r_start x < r_start y ∨ r_start x = r_start y ∧ r_end x ≤ r_end y.
Proof. unfold position_le. by rewrite orb_true_iff, andb_true_iff, Nat.ltb_lt, Nat.leb_le, Nat.eqb_eq. Qed.
Lemma position_le_trans x y z : position_le x y = true → position_le y z = true → position_le x z = true.
Proof. rewrite !position_le_spec. lia. Qed.
Lemma disjoint_from_starts pos len rs : disjoint_from pos len rs → Forall (λ r, pos ≤ r_start r) rs.
Proof.
  revert pos. induction rs as [|r rs IH]; intros pos Hd; [done|]. destruct Hd as (Hp&_&Hd).
  constructor; [lia|]. eapply Forall_impl; [exact (IH _ Hd)|]. cbn. intros; lia.
Qed.
Lemma disjoint_from_sorted pos len rs :
  disjoint_from pos len rs → StronglySorted (λ a b, r_start a < r_start b) rs.
Proof.
  revert pos. induction rs as [|r rs IH]; intros pos Hd; [constructor|]. destruct Hd as (Hp&_&Hd).
  constructor; [by eapply IH|]. eapply Forall_impl; [exact (disjoint_from_starts _ _ _ Hd)|]. cbn. intros; lia.
Qed.
Lemma first_overlap_disjoint len rs :
  Forall (range_ok len) rs →
  first_overlap rs = None ↔ match rs with [] => True | r :: _ => disjoint_from (r_start r) len rs end.
Proof.
  induction 1 as [|r rs (Hse&Hel&_) Hr IH]; [done|]. cbn [first_overlap]. destruct rs as [|r' rs].
  - cbn. split; [lia|done].
  - destruct (Nat.leb_spec (r_start r') (r_end r)).
    + split; [done|]. cbn. lia.
    + rewrite IH. cbn [disjoint_from]. split; [intros (?&?&?); split_and!; try lia; done|]. intros (_&_&?&?&?). split_and!; try lia; done.
Qed.
Lemma disjoint_from_zero len rs :
  match rs with [] => True | r :: _ => disjoint_from (r_start r) len rs end ↔ disjoint_from 0 len rs.
Proof. destruct rs as [|r rs]; cbn; [lia|]. split; intros (?&?&?); split_and!; try lia; done. Qed.
Lemma disjoint_sort len rs rs' :
  disjoint_from 0 len rs → rs ≡ₚ rs' → sort_by position_le rs' = rs ∧ sort_by (λ a b, position_le b a) rs' = rev rs.
Proof.
  intros Hd Hp. pose proof (disjoint_from_sorted _ _ _ Hd) as Hs.
  assert (Hdist : ∀ x y, x ∈ rs → y ∈ rs → r_start x = r_start y → x = y).
  { clear -Hs. induction Hs as [|r rs _ IH Hr]; intros x y; rewrite ?elem_of_nil, ?elem_of_cons; [done|].
    rewrite Forall_forall in Hr. intros [->|Hx] [->|Hy] E; [done| | |by apply IH].
    - specialize (Hr _ Hy). lia.
    - specialize (Hr _ Hx). lia. }
  assert (Hsle : StronglySorted (λ a b, r_start a ≤ r_start b) rs).
  { clear -Hs. induction Hs as [|r rs _ IH Hr]; [constructor|]. constructor; [done|]. eapply Forall_impl; [exact Hr|]. cbn. intros; lia. }
  assert (Huniq : ∀ l, l ≡ₚ rs → StronglySorted (λ a b, r_start a ≤ r_start b) l → l = rs).
  { intros l Hl Hsl. eapply StronglySorted_unique_strong; [|exact Hsl|exact Hsle|exact Hl].
    intros x y Hx Hy Hxy Hyx. rewrite Hl in Hx. cbn in Hxy, Hyx. apply Hdist; [done|done|lia]. }
  split.
  - apply Huniq; [by rewrite sort_by_perm|].
    pose proof (sort_by_sorted position_le position_le_total position_le_trans rs') as H.
    clear -H. induction H as [|x l _ IH Hx]; [constructor|]. constructor; [done|]. eapply Forall_impl; [exact Hx|].
    cbn. intros y Hy. apply position_le_spec in Hy. lia.
  - rewrite <-(Huniq (rev (sort_by (λ a b, position_le b a) rs'))); [by rewrite rev_involutive| |].
    + by rewrite <-Permutation_rev, sort_by_perm.
    + pose proof (sort_by_sorted (λ a b, position_le b a) (λ x y, position_le_total y x)
        (λ x y z Hxy Hyz, position_le_trans z y x Hyz Hxy) rs') as H.
      clear -H. induction H as [|x l _ IH Hx]; [constructor|]. cbn [rev]. apply StronglySorted_app_2; [|done|repeat constructor].
      intros a b Ha Hb. apply list_elem_of_singleton in Hb as ->. rewrite list_elem_of_In, <-in_rev, <-list_elem_of_In in Ha.
      rewrite Forall_forall in Hx. specialize (Hx _ Ha). cbn in Hx. apply position_le_spec in Hx. lia.
Qed.

(** ** Resolved ranges are inside the file *)

Lemma parse_u64_loop_bound v l n : is_u64 v → parse_u64_loop v l = Some n → is_u64 n.
Proof.
  revert v. induction l as [|b l IH]; intros v Hv; cbn [parse_u64_loop]; [by intros [= <-]|].
  case_match; [done|]. unfold u64_checked. case_match; [|done]. cbn [mbind option_bind]. case_match eqn:E; [|done]. cbn [mbind option_bind].
  apply IH. by apply N.leb_le in E.
Qed.
Lemma str_parse_u64_bound l n : str_parse_u64 l = Some n → is_u64 n.
Proof.
  assert (Hraw : ∀ l, parse_u64_raw l = Some n → is_u64 n).
  { intros l'. unfold parse_u64_raw. case_match; [done|]. by apply parse_u64_loop_bound. }
  unfold str_parse_u64. repeat case_match; apply Hraw.
Qed.
Lemma parse_anchor_bound raw a : parse_anchor raw = Some a → is_u64 (line a).
Proof.
  unfold parse_anchor. destruct (split_once _ _) as [[ls h]|].
  - intros (n&Hn&H)%bind_Some. apply str_parse_u64_bound in Hn. by repeat case_match; simplify_eq.
  - by repeat case_match; intros; simplify_eq.
Qed.
Lemma isize_wrap_high z : (9223372036854775808 <= z < 18446744073709551616)%Z → isize_wrap z = (z - 18446744073709551616)%Z.
Proof.
  intros Hz. unfold isize_wrap.
  rewrite <-(Z.mod_unique_pos (z + 9223372036854775808) 18446744073709551616 1 (z - 9223372036854775808)) by lia. lia.
Qed.
Lemma isize_wrap_far z :
  (9223372036854775708 <= Z.abs z <= 9223372036854775908)%Z →
  (9223372036854775708 <= Z.abs (isize_wrap z) <= 9223372036854775908)%Z.
Proof.
  intros Hz. destruct (Z.lt_ge_cases z 9223372036854775808) as [H1|H1]; [|rewrite isize_wrap_high; lia].
  destruct (Z.lt_ge_cases z (-9223372036854775808)) as [H2|H2]; [|rewrite isize_wrap_id; lia]. unfold isize_wrap.
  rewrite <-(Z.mod_unique_pos (z + 9223372036854775808) 18446744073709551616 (-1) (z + 27670116110564327424)) by lia. lia.
Qed.

(** *** The line an anchor names *)

Definition carries (ls : list bytes) (h : bytes) (i : nat) : Prop := ∃ l, ls !! i = Some l ∧ anchor_line_hash l = h.
(** Where the search begins; a number past the signed range counts down from zero. *)
Definition aimed (a : ParsedAnchor) : Z :=
  if (line a <? 9223372036854775808)%N then (Z.of_N (line a) - 1)%Z else (Z.of_N (line a) - 18446744073709551617)%Z.
Definition close_to (a : ParsedAnchor) (i : nat) : Prop := (Z.abs (Z.of_nat i - aimed a) <= 20)%Z.
(** The line of the anchor's number if it has the hash; else the only line with the
    hash, in the whole file for a bare hash and within twenty lines for the others *)
Definition named (ls : list bytes) (a : ParsedAnchor) (c : nat) : Prop :=
  carries ls (hash a) c ∧
  (line a = 0%N ∧ (∀ i, carries ls (hash a) i → i = c)
   ∨ line a = (N.of_nat c + 1)%N
   ∨ (1 <= line a)%N ∧ ¬ carries ls (hash a) (N.to_nat (line a) - 1) ∧ close_to a c ∧
     ∀ i, carries ls (hash a) i → close_to a i → i = c).
Definition names (ls : list bytes) (raw : bytes) (c : nat) : Prop := ∃ a, parse_anchor raw = Some a ∧ named ls a c.

Lemma carries_lt ls h i : carries ls h i → i < length ls.
Proof. intros (l&Hl&_). by apply lookup_lt_Some in Hl. Qed.
Lemma hit_range ls h z : hit ls h z = true → (0 <= z < Z.of_nat (length ls))%Z.
Proof. unfold hit. rewrite !andb_true_iff, Z.leb_le, Z.ltb_lt. lia. Qed.
Lemma hit_carries ls h i : hit ls h (Z.of_nat i) = true ↔ carries ls h i.
Proof.
  unfold hit. rewrite Nat2Z.id, !andb_true_iff, Z.leb_le, Z.ltb_lt, hash_at_spec. fold (carries ls h i).
  split; [tauto|]. intros H. pose proof (carries_lt _ _ _ H). split; [lia|done].
Qed.
Lemma aimed_cases a :
  ((Z.of_N (line a) < 9223372036854775808)%Z ∧ aimed a = (Z.of_N (line a) - 1)%Z) ∨
  ((9223372036854775808 <= Z.of_N (line a))%Z ∧ aimed a = (Z.of_N (line a) - 18446744073709551617)%Z).
Proof. unfold aimed. destruct (N.ltb_spec (line a) 9223372036854775808); [left|right]; lia. Qed.

Section found_near.
Context (ls : list bytes) (a : ParsedAnchor).
Context (Hls : (N.of_nat (length ls) <= 4611686018427387904)%N) (Ha : is_u64 (line a)) (H1 : (1 <= line a)%N).
Definition index_of_line : Z := isize_wrap (isize_wrap (Z.of_N (line a)) - 1).
Definition found_near : list Z := filter (λ z, hit ls (hash a) z = true) (candidates index_of_line 20).
Lemma found_near_aimed :
  small index_of_line 21 → index_of_line = aimed a →
  (∀ z, z ∈ found_near ↔ hit ls (hash a) z = true ∧ (1 <= Z.abs (z - aimed a) <= 20)%Z) ∧ NoDup found_near.
Proof.
  intros Hs He. unfold found_near. destruct (candidates_from index_of_line 1 20 Hs) as [Hin Hnd].
  unfold candidates. split; [|apply NoDup_filter, Hnd; lia].
  intros z. rewrite list_elem_of_filter, Hin, He. split; intros [? ?]; (split; [done|lia]).
Qed.
(** Around the limit of the signed range nothing of the file is near. *)
Lemma candidates_far z :
  (9223372036854775777 <= Z.of_N (line a) <= 9223372036854775840)%Z →
  z ∈ candidates index_of_line 20 → (4611686018427387904 <= Z.abs z)%Z.
Proof.
  intros Hr Hz. unfold candidates in Hz. apply list_elem_of_In, in_flat_map in Hz as (d&Hd&Hz). apply in_seq in Hd.
  assert (Hi : (9223372036854775770 <= Z.abs index_of_line <= 9223372036854775840)%Z).
  { unfold index_of_line. destruct (Z.lt_ge_cases (Z.of_N (line a)) 9223372036854775808).
    - rewrite (isize_wrap_id (Z.of_N (line a))), isize_wrap_id by lia. lia.
    - rewrite (isize_wrap_high (Z.of_N (line a))) by lia.
      destruct (Z.eq_dec (Z.of_N (line a)) 9223372036854775808) as [->|]; [by vm_compute|]. rewrite isize_wrap_id by lia. lia. }
  destruct Hz as [<-|[<-|[]]];
    [pose proof (isize_wrap_far (index_of_line - Z.of_nat d))|pose proof (isize_wrap_far (index_of_line + Z.of_nat d))]; lia.
Qed.
Lemma found_near_spec :
  (∀ z, z ∈ found_near ↔ hit ls (hash a) z = true ∧ (1 <= Z.abs (z - aimed a) <= 20)%Z) ∧ NoDup found_near.
Proof.
  unfold is_u64, u64_max in Ha. pose proof (aimed_cases a) as Hc.
  destruct (Z.lt_ge_cases (Z.of_N (line a)) 9223372036854775777) as [Hl|Hl];
    [|destruct (Z.lt_ge_cases 9223372036854775840 (Z.of_N (line a))) as [Hh|Hh]].
  1,2: assert (Hi : index_of_line = aimed a) by
    (unfold index_of_line; rewrite ?(isize_wrap_high (Z.of_N (line a))), ?(isize_wrap_id (Z.of_N (line a))), isize_wrap_id by lia; lia).
  1,2: apply found_near_aimed; [rewrite Hi; unfold small; lia|done].
  assert (Hn : ∀ z, z ∉ found_near).
  { intros z [Hz Hin]%list_elem_of_filter. apply hit_range in Hz. apply candidates_far in Hin; lia. }
  split; [|destruct found_near as [|z ?]; [constructor|by destruct (Hn z); left]].
  intros z. split; [by intros ?%Hn|]. intros [Hz%hit_range Hd]. lia.
Qed.
Lemma own_hit : hit ls (hash a) index_of_line = true ↔ carries ls (hash a) (N.to_nat (line a) - 1).
Proof.
  unfold is_u64, u64_max in Ha. destruct (Z.lt_ge_cases (Z.of_N (line a)) 9223372036854775808) as [Hlt|Hge].
  - rewrite <-hit_carries. unfold index_of_line. rewrite (isize_wrap_id (Z.of_N (line a))), isize_wrap_id by lia.
    by replace (Z.of_nat (N.to_nat (line a) - 1)) with (Z.of_N (line a) - 1)%Z by lia.
  - split; [|intros ?%carries_lt; lia]. intros Hh%hit_range. unfold index_of_line in Hh.
    rewrite (isize_wrap_high (Z.of_N (line a))) in Hh by lia.
    destruct (Z.eq_dec (Z.of_N (line a)) 9223372036854775808) as [E|]; [rewrite E in Hh; vm_compute (isize_wrap _) in Hh; lia|].
    rewrite isize_wrap_id in Hh by lia. lia.
Qed.
Lemma found_near_lines :
  ¬ carries ls (hash a) (N.to_nat (line a) - 1) →
  (∀ i, i ∈ Z.to_nat <$> found_near ↔ carries ls (hash a) i ∧ close_to a i) ∧ NoDup (Z.to_nat <$> found_near).
Proof.
  intros Hown. destruct found_near_spec as [Hin Hnd]. split.
  - intros i. rewrite list_elem_of_fmap. split.
    + intros (z&->&[Hz Hd]%Hin). pose proof (hit_range _ _ _ Hz). rewrite <-hit_carries. unfold close_to.
      rewrite Z2Nat.id by lia. split; [done|lia].
    + intros [Hc Hd]. exists (Z.of_nat i). rewrite Nat2Z.id. split; [done|]. apply Hin. rewrite hit_carries. split; [done|].
      unfold close_to in Hd. split; [|lia]. pose proof (carries_lt _ _ _ Hc).
      destruct (aimed_cases a) as [[? E]|[? E]]; rewrite E; [|unfold is_u64, u64_max in Ha; lia].
      destruct (decide (i = N.to_nat (line a) - 1)) as [->|]; [done|lia].
  - apply NoDup_fmap_2_strong; [|done]. intros x y [Hx%hit_range _]%Hin [Hy%hit_range _]%Hin Hxy. lia.
Qed.
End found_near.

(** Validation finds exactly the line that the anchor names. *)
Definition finds (ls : list bytes) (a : ParsedAnchor) (n : N) : Prop :=
  validate_anchor_default ls a = AnchorOk n ∨ validate_anchor_default ls a = Shifted n.
Lemma bare_named ls a c : line a = 0%N → named ls a c ↔ finds ls a (N.of_nat c + 1).
Proof.
  intros H0. unfold finds, validate_anchor_default, validate_anchor, named. rewrite H0. cbn [N.eqb].
  unfold validate_unique_hash. rewrite unique_hash_loop_positions. destruct (positions_spec ls (hash a)) as [Hin Hnd].
  assert (Hin' : ∀ i, i ∈ positions ls (hash a) ↔ carries ls (hash a) i) by (intros i; by rewrite Hin, hash_at_spec).
  pose proof (single_or_not _ _ Hin' Hnd) as Hs. cbn [option_list app].
  destruct (positions ls (hash a)) as [|x [|y l]]; cbn [fmap list_fmap]; cbn beta in Hs.
  1,3: split; [intros [Hc [[_ Hu]|[?|[? _]]]]; [|lia|lia]; destruct (Hs c Hc) as (i&Hne&Hi); destruct Hne; by apply Hu|by intros [?|?]].
  split.
  + intros [Hc _]. apply Hs in Hc as ->. left. f_equal; lia.
  + intros [[= Hx]|?]; [|done]. assert (c = x) as -> by lia. split; [by apply Hs|]. left. split; [done|]. intros i. by apply Hs.
Qed.
Lemma numbered_named ls a c :
  (N.of_nat (length ls) <= 4611686018427387904)%N → is_u64 (line a) → (1 <= line a)%N →
  named ls a c ↔ finds ls a (N.of_nat c + 1).
Proof.
  intros Hl Ha H1. unfold finds, validate_anchor_default, validate_anchor, named. destruct (N.eqb_spec (line a) 0) as [|_]; [lia|].
  fold (index_of_line a). fold (hit ls (hash a) (index_of_line a)). rewrite nearby_loop_hits. change (filter _ _) with (found_near ls a). cbn [option_list app].
  pose proof (own_hit ls a Hl Ha H1) as Hown. destruct (hit ls (hash a) (index_of_line a)) eqn:Eh.
  + pose proof (proj1 Hown eq_refl) as Ho. split.
    * intros [Hc [[? _]|[->|(_&Hno&_)]]]; [lia|by left|done].
    * intros [[= Hn]|?]; [|done]. replace c with (N.to_nat (line a) - 1) by lia. split; [done|]. right. left. lia.
  + assert (Hno : ¬ carries ls (hash a) (N.to_nat (line a) - 1)) by (intros ?%Hown; done).
    destruct (found_near_lines ls a Hl Ha H1 Hno) as [Hin Hnd]. pose proof (single_or_not _ _ Hin Hnd) as Hs.
    destruct (Z.to_nat <$> found_near ls a) as [|x [|y l]]; cbn beta in Hs.
    1,3: split; [|by intros [?|?]]; intros [Hc [[? _]|[E|(_&_&Hn&Hu)]]]; [lia| |];
      [by destruct Hno; replace (N.to_nat (line a) - 1) with c by lia|];
      destruct (Hs c (conj Hc Hn)) as (i&Hne&Hi&Hni); by destruct Hne; apply Hu.
    split.
    * intros [Hc [[? _]|[E|(_&_&Hn&_)]]]; [lia| |].
      -- destruct Hno. by replace (N.to_nat (line a) - 1) with c by lia.
      -- right. assert (c = x) as -> by (by apply Hs). f_equal; lia.
    * intros [?|[= Hx]]; [done|]. assert (c = x) as -> by lia. destruct (proj2 (Hs x) eq_refl) as [Hc Hn]. split; [done|].
      right. right. split_and!; [done|done|done|]. intros i Hi Hni. by apply Hs.
Qed.
Lemma validate_named ls a c :
  (N.of_nat (length ls) <= 4611686018427387904)%N → is_u64 (line a) → named ls a c ↔ finds ls a (N.of_nat c + 1).
Proof. intros Hl Ha. destruct (decide (line a = 0%N)); [by apply bare_named|apply numbered_named; [done|done|lia]]. Qed.
Lemma validate_positive ls a n : finds ls a n → (1 <= n)%N.
Proof.
  unfold finds, validate_anchor_default, validate_anchor, validate_unique_hash. rewrite unique_hash_loop_positions, nearby_loop_hits.
  destruct (N.eqb_spec (line a) 0); repeat case_match; intros [E|E]; simplify_eq; lia.
Qed.
(** What a client of the validation does *)
Lemma on_found {A} ls a (k : N → A) (x : A) :
  (N.of_nat (length ls) <= 4611686018427387904)%N → is_u64 (line a) →
  let out := match validate_anchor_default ls a with AnchorOk n | Shifted n => k n | Stale => x end in
  (∃ c, named ls a c ∧ (∀ c', named ls a c' → c' = c) ∧ out = k (N.of_nat c + 1)%N) ∨ (∀ c, ¬ named ls a c) ∧ out = x.
Proof.
  intros Hl Ha. assert (Hn : ∀ n, finds ls a n → ∃ c, named ls a c ∧ n = (N.of_nat c + 1)%N).
  { intros n Hn. pose proof (validate_positive _ _ _ Hn). exists (N.to_nat n - 1).
    assert (n = N.of_nat (N.to_nat n - 1) + 1)%N as E by lia. split; [|exact E]. apply validate_named; [done|done|by rewrite <-E]. }
  cbn zeta. destruct (validate_anchor_default ls a) as [n|n|] eqn:Ev.
  1,2: left; destruct (Hn n) as (c&Hc&->); [unfold finds; rewrite Ev; auto|]; exists c; split_and!; [done| |done];
    intros c' Hc'; apply (validate_named ls a c' Hl Ha) in Hc' as [E|E]; rewrite Ev in E; try done; injection E; lia.
  right. split; [|done]. intros c Hc. apply (validate_named ls a c Hl Ha) in Hc as [E|E]; by rewrite Ev in E.
Qed.

(** *** The lines an edit covers *)

(** An end line that is a bare closer is kept: the new text is empty or has it. *)
Definition keeps_closer (l txt : bytes) : Prop :=
  ∀ closer, closer ∈ BARE_CLOSERS → bytes_trim l = as_bytes closer → txt ≠ [] →
  str_contains txt (trim_matches (λ b, is_byte 44 b || is_byte 59 b) (as_bytes closer)) = true.
Definition covers (ls : list bytes) (op : AnchorEditOp) (first last : nat) : Prop :=
  names ls (op_anchor op) first ∧
  match end_anchor op with
  | None => last = first
  | Some raw =>
      insert_after op = false ∧ names ls raw last ∧ first ≤ last ∧ ∃ l, ls !! last = Some l ∧ keeps_closer l (new_text op)
  end.
Lemma structural_closer_keeps l txt : structural_closer_ok l txt = true ↔ keeps_closer l txt.
Proof.
  unfold structural_closer_ok, keeps_closer. destruct txt as [|b txt]; [by split|]. destruct (one_of _ _) eqn:Eo; cbn [negb].
  - apply existsb_exists in Eo as (c&Hc&Hl). unfold is_lit in Hl. apply bool_decide_eq_true_1 in Hl.
    rewrite <-list_elem_of_In in Hc. rewrite Hl. split; [|by intros H; apply H].
    intros H c' _ E _. by rewrite <-E.
  - split; [|done]. intros _ c Hc E _. assert (one_of (bytes_trim l) BARE_CLOSERS = true); [|congruence].
    apply existsb_exists. exists c. rewrite <-list_elem_of_In. split; [done|]. by apply bool_decide_eq_true_2.
Qed.
Lemma covers_range ls op s e : covers ls op s e → s ≤ e ∧ e < length ls ∧ (insert_after op = true → e = s).
Proof.
  intros [(a&_&Hs%proj1%carries_lt) He]. destruct (end_anchor op) as [raw|]; [|by subst].
  destruct He as (->&_&?&l&Hl&_). apply lookup_lt_Some in Hl. by split_and!.
Qed.
Lemma resolve_end_covers debug ls i op s r :
  (N.of_nat (length ls) <= 4611686018427387904)%N → names ls (op_anchor op) s →
  (insert_after op = true → end_anchor op = None) →
  resolve_end debug ls i op (N.of_nat s + 1) = Range r ↔
  ∃ e, covers ls op s e ∧ r = mkResolved i s e (new_text op) (insert_after op).
Proof.
  intros Hl Hs Hi. unfold resolve_end, covers. replace (N.to_nat (N.of_nat s + 1) - 1) with s by lia.
  destruct (end_anchor op) as [raw|]; [|naive_solver].
  assert (insert_after op = false) as -> by (destruct (insert_after op); [by discriminate Hi|done]).
  destruct (parse_anchor raw) as [b|] eqn:Eb; [|split; [done|by intros (e&(_&_&(b&?&_)&_)&_); congruence]].
  pose proof (parse_anchor_bound _ _ Eb) as Hb.
  destruct (on_found ls b (λ n, if (n <? N.of_nat s + 1)%N then StaleReport (inverted_message ls i (N.of_nat s + 1) n)
    else if negb (structural_closer_ok (default [] (ls !! (N.to_nat n - 1))) (new_text op)) then Refused (closer_message ls n)
    else Range (mkResolved i s (N.to_nat n - 1) (new_text op) false)) (StaleReport (stale_end_message ls i raw (line b))) Hl Hb)
    as [(c&Hc&Hu&E)|[Hno E]]; cbn zeta in E; rewrite E; cbn beta; clear E.
  2: { split; [done|]. intros (e&(_&_&(b'&Hb'&Hn)&_)&_). rewrite Eb in Hb'. injection Hb' as <-. by destruct (Hno e). }
  replace (N.to_nat (N.of_nat c + 1) - 1) with c by lia. destruct (lookup_lt_is_Some_2 ls c) as [l El]; [by apply carries_lt with (hash b), Hc|].
  assert (default [] (ls !! c) = l) as -> by exact (f_equal (default []) El). split.
  - destruct (N.ltb_spec (N.of_nat c + 1) (N.of_nat s + 1)); [done|]. destruct (structural_closer_ok _ _) eqn:Eo; [|done]. intros [= <-].
    exists c. split; [|done]. split_and!; [done|done|by exists b|lia|]. exists l. split; [done|by apply structural_closer_keeps].
  - intros (e&(_&_&(b'&Hb'&Hn)&Hse&l'&Hl'&Hk)&->). rewrite Eb in Hb'. injection Hb' as <-. apply Hu in Hn as ->.
    destruct (N.ltb_spec (N.of_nat c + 1) (N.of_nat s + 1)); [lia|]. rewrite El in Hl'. injection Hl' as <-.
    by rewrite (proj2 (structural_closer_keeps _ _) Hk).
Qed.
(** An edit resolves to a range exactly when it covers one. *)
Lemma resolve_op_covers debug ls i op r :
  (N.of_nat (length ls) <= 4611686018427387904)%N →
  resolve_op debug ls i op = Range r ↔
  ∃ s e, covers ls op s e ∧ r = mkResolved i s e (new_text op) (insert_after op).
Proof.
  intros Hl. unfold resolve_op. destruct (parse_anchor (op_anchor op)) as [a|] eqn:Ea;
    [|split; [done|by intros (s&e&[(a&?&_) _]&_); congruence]].
  pose proof (parse_anchor_bound _ _ Ea) as Ha. destruct (insert_after op && _) eqn:Ei.
  { apply andb_true_iff in Ei as [Hi He%bool_decide_eq_true_1]. split; [done|]. intros (s&e&[_ Hc]&_).
    destruct (end_anchor op); [destruct Hc; congruence|by destruct He]. }
  assert (Hi : insert_after op = true → end_anchor op = None).
  { intros Hi. rewrite Hi in Ei. apply bool_decide_eq_false_1 in Ei. destruct (end_anchor op); [by destruct Ei|done]. }
  destruct (on_found ls a (resolve_end debug ls i op) (StaleReport (stale_message ls i (op_anchor op) (line a))) Hl Ha)
    as [(c&Hc&Hu&E)|[Hno E]]; cbn zeta in E; rewrite E; clear E.
  - rewrite resolve_end_covers by (done || by exists a). split; [intros (e&?); by exists c, e|]. intros (s&e&Hcov&->). exists e.
    assert (s = c) as -> by (destruct Hcov as [(a'&Ha'&Hn) _]; rewrite Ea in Ha'; injection Ha' as <-; by apply Hu). done.
  - split; [done|]. intros (s&e&[(a'&Ha'&Hn) _]&_). rewrite Ea in Ha'. injection Ha' as <-. by destruct (Hno s).
Qed.
Lemma resolve_op_ok debug ls i op r :
  (N.of_nat (length ls) <= 4611686018427387904)%N → resolve_op debug ls i op = Range r →
  range_ok (length ls) r ∧ r_index r = i ∧ r_new_text r = new_text op ∧ r_insert_after r = insert_after op.
Proof. intros Hl (s&e&Hc%covers_range&->)%resolve_op_covers; [|done]. split; [exact Hc|done]. Qed.

(** ** Batches *)

Fixpoint resolutions (debug : bytes → bytes) (ls : list bytes) (i : nat) (ops : list AnchorEditOp) : list resolution :=
  match ops with [] => [] | op :: ops => resolve_op debug ls i op :: resolutions debug ls (S i) ops end.
Lemma resolve_ops_stale debug ls i ops acc st rs st' :
  resolve_ops debug ls i ops acc st = Ok (rs, st') → ∃ more, st' = st ++ more.
Proof.
  revert i acc st. induction ops as [|op ops IH]; intros i acc st; cbn [resolve_ops]; [intros [= _ <-]; exists []; by rewrite app_nil_r|].
  destruct (resolve_op debug ls i op); [done| |]; intros H; destruct (IH _ _ _ H) as [more ->]; [|by exists more].
  rewrite <-app_assoc. by eexists.
Qed.
Lemma resolve_ops_ok debug ls i ops acc rs :
  resolve_ops debug ls i ops acc [] = Ok (rs, []) ↔ ∃ more, rs = acc ++ more ∧ resolutions debug ls i ops = Range <$> more.
Proof.
  revert i acc. induction ops as [|op ops IH]; intros i acc; cbn [resolve_ops resolutions].
  - split; [intros [= <-]; exists []; by rewrite app_nil_r|]. intros ([|? ?]&->&?); [by rewrite app_nil_r|done].
  - destruct (resolve_op debug ls i op) as [m|m|r].
    + split; [done|]. by intros ([|? ?]&_&?).
    + split; [|by intros ([|? ?]&_&?)]. intros H. by apply resolve_ops_stale in H as [more ?].
    + rewrite IH. split.
      * intros (more&->&Hm). exists (r :: more). rewrite <-app_assoc, fmap_cons, Hm. done.
      * intros ([|r' more]&->&Hm); [done|]. injection Hm as <- Hm. exists more. by rewrite <-app_assoc.
Qed.
Lemma resolutions_ok debug ls i ops rs :
  (N.of_nat (length ls) <= 4611686018427387904)%N → resolutions debug ls i ops = Range <$> rs →
  Forall (range_ok (length ls)) rs ∧ length rs = length ops.
Proof.
  intros Hl. revert i rs. induction ops as [|op ops IH]; intros i [|r rs] H; try done.
  cbn [resolutions] in H. rewrite fmap_cons in H. injection H as Hr H. apply resolve_op_ok in Hr as [Hr _]; [|done].
  destruct (IH _ _ H) as [? ?]. split; [by constructor|cbn; lia].
Qed.

Lemma apply_anchor_edits_ok debug content ops c' n receipt :
  (N.of_nat (length (lines content)) <= 4611686018427387904)%N →
  apply_anchor_edits debug content ops = Ok (c', n, receipt) →
  ops ≠ [] ∧ ∃ resolved rs,
    resolutions debug (lines content) 0 ops = Range <$> resolved ∧ rs ≡ₚ resolved ∧
    disjoint_from 0 (length (lines content)) rs ∧
    c' = close_text content (rebuild 0 (lines content) rs) ∧ n = length ops.
Proof.
  intros Hlen. unfold apply_anchor_edits. destruct ops as [|op ops]; [done|].
  set (all := op :: ops). set (ls := lines content) in *.
  intros H. split; [done|]. apply result_bind_ok in H as ([resolved stale]&Hr&H). destruct stale; [|done].
  destruct (first_overlap (sort_by position_le resolved)) as [[? ?]|] eqn:Ho; [done|].
  apply resolve_ops_ok in Hr as (more&->&Hm). destruct (resolutions_ok _ _ _ _ _ Hlen Hm) as [Hok Hn].
  cbn [app] in *. rewrite (first_overlap_disjoint (length ls)), disjoint_from_zero in Ho by (by rewrite sort_by_perm).
  set (rs := sort_by position_le more) in *. exists more, rs.
  assert (Hp : rs ≡ₚ more) by apply sort_by_perm. destruct (disjoint_sort _ _ _ Ho Hp) as [_ Hd]. rewrite Hd in H.
  rewrite foldl_rev, (bottom_up_rebuild 0) in H by (done || by rewrite Hp).
  injection H as <- <- _. split_and!; [done|done|done|done|]. by rewrite length_rev, Hp.
Qed.

(** The resolutions of a batch are ranges exactly when every edit covers one. *)
Lemma resolutions_covers debug ls i ops rs :
  (N.of_nat (length ls) <= 4611686018427387904)%N →
  resolutions debug ls i ops = Range <$> rs ↔
  length rs = length ops ∧ ∀ k op, ops !! k = Some op →
    ∃ s e, covers ls op s e ∧ rs !! k = Some (mkResolved (i + k) s e (new_text op) (insert_after op)).
Proof.
  intros Hl. revert i rs. induction ops as [|op ops IH]; intros i [|r rs]; cbn [resolutions length].
  1: by split. 1,2: by split; [|intros [? _]].
  rewrite fmap_cons. split.
  - intros [= Hr Hrs]. apply resolve_op_covers in Hr as (s&e&Hc&->); [|done]. apply IH in Hrs as [Hn Hrs]. split; [by rewrite Hn|].
    intros [|k] o Ho; [injection Ho as <-; exists s, e; by rewrite Nat.add_0_r|]. rewrite <-Nat.add_succ_comm. by apply Hrs.
  - intros [[= Hn] Hk]. destruct (Hk 0 op eq_refl) as (s&e&Hc&[= ->]). rewrite Nat.add_0_r. f_equal.
    + apply resolve_op_covers; [done|]. by exists s, e.
    + apply IH. split; [done|]. intros k o Ho. rewrite Nat.add_succ_comm. by apply (Hk (S k)).
Qed.
Lemma close_text_ends content out :
  close_text content out =
  bytes_join nl out ++
  (if decide (last content = Some (u8 10) ∧ last (bytes_join nl out) ≠ Some (u8 10)) then nl else []).
Proof.
  unfold close_text, nl. rewrite !str_ends_with_last. case_decide as Hd; rewrite ?app_nil_r.
  - destruct Hd as [Hc Ho]. by rewrite bool_decide_eq_true_2, bool_decide_eq_false_2.
  - case_match eqn:E; [|done]. apply andb_true_iff in E as [Hc%bool_decide_eq_true_1 Ho%negb_true_iff%bool_decide_eq_false_1].
    by destruct Hd.
Qed.

(** C36. An anchored batch is atomic and equals one pass over the lines of the file.
    It succeeds exactly when it is not empty, every edit covers lines of the file and
    no two of these ranges overlap.  An edit covers the line its anchor names alone, or
    with an end anchor, which an insertion may not have, the lines up to the one
    this names: not before the first, and if it is a bare closer the new text is
    empty or has that closer.  An anchor names the line of its number if this has the
    hash, else the only line with the hash within twenty lines, and a bare hash
    the only line of the file.  The lines of the result are those outside the ranges,
    in their order, with the new lines in place of a range or behind it; they are
    joined by line feeds, and one more is added only where the file ended in one and
    the joined lines do not.  So carriage returns before line feeds are not kept, and
    of a blank last line only the line feed that this rule gives. *)
Theorem anchor_batch_exact debug content ops c' n :
  (N.of_nat (length (lines content)) <= 4611686018427387904)%N →
  (∃ receipt, apply_anchor_edits debug content ops = Ok (c', n, receipt)) ↔
  ops ≠ [] ∧ n = length ops ∧ ∃ resolved rs,
    length resolved = length ops ∧
    (∀ k op, ops !! k = Some op → ∃ s e, covers (lines content) op s e ∧
       resolved !! k = Some (mkResolved k s e (new_text op) (insert_after op))) ∧
    rs ≡ₚ resolved ∧ disjoint_from 0 (length (lines content)) rs ∧
    let joined := bytes_join nl (rebuild 0 (lines content) rs) in
    c' = joined ++ (if decide (last content = Some (u8 10) ∧ last joined ≠ Some (u8 10)) then nl else []).
Proof.
  intros Hlen. split.
  - intros [receipt H]. apply apply_anchor_edits_ok in H as (Hne&resolved&rs&[Hn Hk]%resolutions_covers&Hp&Hd&->&->); [|done..].
    split; [done|]. split; [done|]. exists resolved, rs. cbn zeta. by rewrite <-close_text_ends.
  - intros (Hne&->&resolved&rs&Hn&Hk&Hp&Hd&->). cbn zeta. rewrite <-close_text_ends.
    assert (Hm : resolutions debug (lines content) 0 ops = Range <$> resolved) by (by apply resolutions_covers).
    destruct (resolutions_ok _ _ _ _ _ Hlen Hm) as [Hok _].
    unfold apply_anchor_edits. destruct ops as [|op ops]; [done|]. set (ls := lines content) in *.
    rewrite (proj2 (resolve_ops_ok debug ls 0 (op :: ops) [] resolved)) by (by exists resolved). cbn [result_bind].
    destruct (disjoint_sort _ _ _ Hd Hp) as [Hs1 Hs2]. rewrite Hs1, Hs2.
    rewrite (proj2 (first_overlap_disjoint (length ls) rs ltac:(by rewrite Hp))) by (by apply disjoint_from_zero).
    rewrite foldl_rev, (bottom_up_rebuild 0) by (done || by rewrite Hp).
    eexists. by rewrite length_rev, (Permutation_length Hp), Hn.
Qed.

(** ** Line ends *)

Lemma elem_of_join b sep l : b ∈ bytes_join sep l → b ∈ sep ∨ ∃ x, x ∈ l ∧ b ∈ x.
Proof.
  induction l as [|x [|y l] IH]; [by intros ?%elem_of_nil|intros H; right; exists x; split; [left|done]|].
  rewrite bytes_join_cons, !elem_of_app. intros [H|[H|H]]; [right; exists x; split; [left|done]|by left|].
  destruct (IH H) as [?|(z&Hz&Hb)]; [by left|right; exists z; split; [by right|done]].
Qed.
Lemma elem_of_split_on f x b l : x ∈ split_on f l → b ∈ x → b ∈ l.
Proof.
  revert x. induction l as [|c l IH]; intros x; cbn [split_on].
  - rewrite list_elem_of_singleton. intros ->. done.
  - destruct (f c).
    + rewrite elem_of_cons. intros [->|Hx] Hb; [by apply elem_of_nil in Hb|]. right. by eapply IH.
    + destruct (split_on f l) as [|p ps]; rewrite elem_of_cons.
      * intros [->|Hx] Hb; [|by apply elem_of_nil in Hx]. by apply list_elem_of_singleton in Hb as ->; left.
      * intros [->|Hx] Hb; [|right; eapply IH; [by right|done]]. apply elem_of_cons in Hb as [->|Hb]; [left|].
        right. eapply IH; [left|done].
Qed.
Lemma removelast_incl {A} (x : A) l : x ∈ removelast l → x ∈ l.
Proof.
  induction l as [|y [|z l] IH]; [done|by intros ?%elem_of_nil|].
  change (removelast (y :: z :: l)) with (y :: removelast (z :: l)). rewrite elem_of_cons.
  intros [->|H]; [left|right; by apply IH].
Qed.
Lemma elem_of_lines x b l : x ∈ lines l → b ∈ x → b ∈ l.
Proof.
  intros Hx Hb. unfold lines in Hx. destruct (rev (split_on is_lf l)) as [|p ps] eqn:E; [by apply elem_of_nil in Hx|].
  assert (Hin : ∀ y, y ∈ p :: ps → y ∈ split_on is_lf l).
  { intros y Hy. rewrite <-E in Hy. by rewrite list_elem_of_In, <-in_rev, <-list_elem_of_In in Hy. }
  rewrite elem_of_app in Hx. destruct Hx as [Hx|Hx].
  - rewrite list_elem_of_In, <-in_rev, <-list_elem_of_In in Hx. apply list_elem_of_fmap in Hx as (y&->&Hy).
    eapply elem_of_split_on; [apply Hin; by right|]. unfold strip_cr in Hb. repeat case_match; try done. by apply removelast_incl.
  - eapply elem_of_split_on; [apply Hin; left|]. destruct p; [by apply elem_of_nil in Hx|].
    by apply list_elem_of_singleton in Hx as ->.
Qed.
Lemma take_incl {A} n (x : A) l : x ∈ take n l → x ∈ l.
Proof. intros H. rewrite <-(take_drop n l), elem_of_app. by left. Qed.
Lemma drop_incl {A} n (x : A) l : x ∈ drop n l → x ∈ l.
Proof. intros H. rewrite <-(take_drop n l), elem_of_app. by right. Qed.
Lemma rebuild_incl pos ls rs x : x ∈ rebuild pos ls rs → x ∈ ls ∨ ∃ r, r ∈ rs ∧ x ∈ lines (r_new_text r).
Proof.
  revert pos. induction rs as [|r rs IH]; intros pos; cbn [rebuild].
  - intros H. left. by apply drop_incl in H.
  - rewrite !elem_of_app. intros [H|[H|H]].
    + left. by apply take_incl, drop_incl in H.
    + right. exists r. split; [left|done].
    + destruct (IH _ H) as [?|(r'&?&?)]; [by left|right; exists r'; split; [by right|done]].
Qed.
Lemma resolutions_new_text debug ls i ops rs r :
  (N.of_nat (length ls) <= 4611686018427387904)%N →
  resolutions debug ls i ops = Range <$> rs → r ∈ rs → ∃ op, op ∈ ops ∧ r_new_text r = new_text op.
Proof.
  intros Hl. revert i rs. induction ops as [|op ops IH]; intros i [|r' rs] H Hr; try done; [by apply elem_of_nil in Hr|].
  cbn [resolutions] in H. rewrite fmap_cons in H. injection H as Hr' H. apply resolve_op_ok in Hr' as (_&_&Ht&_); [|done].
  apply elem_of_cons in Hr as [->|Hr]; [exists op; split; [left|done]|].
  destruct (IH _ _ H Hr) as (o&?&?). exists o. split; [by right|done].
Qed.
Definition blank_tail : bytes := as_bytes "a
b

".
(** Anchored edits do not keep line ends.  Every carriage return of the file goes,
    in untouched lines too, so one edit turns a file of DOS lines into Unix lines; and
    a blank line at the end of the file is lost by an edit elsewhere. *)
Theorem anchor_batch_line_ends debug content ops c' n receipt :
  (N.of_nat (length (lines content)) <= 4611686018427387904)%N →
  apply_anchor_edits debug content ops = Ok (c', n, receipt) →
  (Forall (λ l, u8 13 ∉ l) (lines content) → Forall (λ op, u8 13 ∉ new_text op) ops → u8 13 ∉ c') ∧
  ∃ receipt', apply_anchor_edits debug blank_tail
    [mkAnchorOp (as_bytes "1:" ++ anchor_line_hash (as_bytes "a")) None (as_bytes "c") false]
    = Ok (as_bytes "c
b
", 1, receipt').
Proof.
  intros Hlen H. split; [|by eexists; vm_compute].
  apply apply_anchor_edits_ok in H as (_&resolved&rs&Hm&Hp&_&->&_); [|done]. rewrite !Forall_forall. intros Hl Ho Hin.
  assert (Hj : u8 13 ∉ bytes_join nl (rebuild 0 (lines content) rs)).
  { intros [Hb|(x&Hx&Hb)]%elem_of_join; [by apply list_elem_of_singleton in Hb|].
    destruct (rebuild_incl _ _ _ _ Hx) as [Hx'|(r&Hr&Hx')]; [by apply (Hl x)|].
    rewrite Hp in Hr. destruct (resolutions_new_text _ _ _ _ _ _ Hlen Hm Hr) as (op&Hop&E).
    apply (Ho op Hop). rewrite <-E. by eapply elem_of_lines. }
  unfold close_text in Hin. case_match; [|done]. apply elem_of_app in Hin as [?|Hb]; [done|]. by apply list_elem_of_singleton in Hb.
Qed.

(** ** Witnesses *)

Definition dos_file : bytes := as_bytes "a" ++ [u8 13; u8 10] ++ as_bytes "b" ++ [u8 13; u8 10].
Definition dos_edit : AnchorEditOp := mkAnchorOp (as_bytes "2:" ++ anchor_line_hash (as_bytes "b")) None (as_bytes "c") false.
Lemma anchor_batch_line_ends_witness : u8 13 ∉ as_bytes "a
c
".
Proof.
  assert (Ec : match apply_anchor_edits id dos_file [dos_edit] with Ok (c, n, _) => c | _ => [] end = as_bytes "a
c
") by (vm_compute; reflexivity).
  assert (Hok : is_ok (apply_anchor_edits id dos_file [dos_edit]) = true) by (vm_compute; reflexivity). revert Ec Hok.
  destruct (apply_anchor_edits id dos_file [dos_edit]) as [[[c n] receipt]|] eqn:E; [|done]. intros <- _.
  refine (proj1 (anchor_batch_line_ends id dos_file [dos_edit] c n receipt _ E) _ _).
  - by vm_compute.
  - repeat constructor; rewrite list_elem_of_In; vm_compute; intuition discriminate.
  - repeat constructor; rewrite list_elem_of_In; vm_compute; intuition discriminate.
Defined.
Definition three_lines : bytes := as_bytes "a
b
d
".
Definition anchor_to (n : string) (l : string) : bytes := as_bytes n ++ as_bytes ":" ++ anchor_line_hash (as_bytes l).
Definition insertion : AnchorEditOp := mkAnchorOp (anchor_to "1" "a") None (as_bytes "x") true.
Definition span_edit : AnchorEditOp := mkAnchorOp (anchor_to "2" "b") (Some (anchor_to "3" "d")) (as_bytes "y") false.
Definition numbered_anchor (n : N) (l : string) : ParsedAnchor := mkAnchor n (anchor_line_hash (as_bytes l)).
Lemma anchor_batch_exact_witness :
  ∃ receipt, apply_anchor_edits id three_lines [span_edit; insertion] = Ok (as_bytes "a
x
y
", 2, receipt).
Proof.
  assert (Hn : ∀ raw n l c, parse_anchor raw = Some (numbered_anchor n l) → lines three_lines !! c = Some (as_bytes l) →
    n = (N.of_nat c + 1)%N → names (lines three_lines) raw c).
  { intros raw n l c Hp Hl E. exists (numbered_anchor n l). split; [done|]. split; [by exists (as_bytes l)|]. by right; left. }
  refine (proj2 (anchor_batch_exact id three_lines [span_edit; insertion] _ 2 ltac:(by vm_compute)) _).
  split; [done|]. split; [done|].
  set (r1 := mkResolved 0 1 2 (as_bytes "y") false). set (r2 := mkResolved 1 0 0 (as_bytes "x") true).
  exists [r1; r2], [r2; r1]. split_and!; [done| |apply Permutation_swap|vm_compute; lia|by vm_compute].
  intros [|[|k]] op [= <-]; [exists 1, 2|exists 0, 0]; (split; [|done]); split; cbn [end_anchor span_edit insertion].
  - by apply (Hn _ 2%N "b"); vm_compute.
  - split_and!; [done|by apply (Hn _ 3%N "d"); vm_compute|lia|]. exists (as_bytes "d"). split; [by vm_compute|].
    by apply structural_closer_keeps.
  - by apply (Hn _ 1%N "a"); vm_compute.
  - done.
Defined.
