(* ===== verification/UnixPath.v ===== *)
(** Paths of the standard library on Unix, as byte strings: components, parent, file
    name, joining. *)
From S2P Require Import Prelude Bytes Text.

Inductive Component := RootDir | CurDir | ParentDir | Normal (name : bytes).
#[export] Instance Component_eq_dec : EqDecision Component.
Proof. solve_decision. Defined.
Definition is_sep : Ascii.ascii → bool := is_byte 47.
Definition slash : Ascii.ascii := u8 47.
Definition dot : Ascii.ascii := u8 46.
Definition segment_component (first : bool) (s : bytes) : option Component :=
  match s with
  | [] => None
  | _ =>
      if is_lit s "." then if first then Some CurDir else None
      else if is_lit s ".." then Some ParentDir else Some (Normal s)
  end.
(** [Path::components] *)
Definition components (path : bytes) : list Component :=
  match split_on is_sep path with
  | s :: rest =>
      match path with
      | b :: _ => if is_sep b then [RootDir] else option_list (segment_component true s)
      | [] => []
      end ++ omap (segment_component false) rest
  | [] => []
  end.
Definition component_text (c : Component) : bytes :=
  match c with RootDir => [slash] | CurDir => as_bytes "." | ParentDir => as_bytes ".." | Normal name => name end.
(** [is_absolute], and [PathBuf::push] *)
Definition is_absolute (path : bytes) : bool := match path with b :: _ => is_sep b | [] => false end.
Definition path_join (base path : bytes) : bytes :=
  if is_absolute path then path
  else base ++ (match last base with Some b => if is_sep b then [] else [slash] | None => [] end) ++ path.
Definition path_push (path : bytes) (c : Component) : bytes := path_join path (component_text c).
(** A path without the separators and dots at its end that stand for no component,
    reversed *)
Fixpoint trim_back (r : bytes) : bytes :=
  match r with
  | b :: r' =>
      if is_sep b then match r' with [] => r | _ => trim_back r' end
      else if bool_decide (b = dot) then
        match r' with
        | c :: r'' => if is_sep c then match r'' with [] => r' | _ => trim_back r'' end else r
        | [] => r
        end
      else r
  | [] => []
  end.
(** [Path::parent] *)
Definition path_parent (path : bytes) : option bytes :=
  match trim_back (rev path) with
  | [] => None
  | b :: r =>
      if is_sep b then None
      else Some (rev (trim_back (drop_while (λ b, negb (is_sep b)) (b :: r))))
  end.
(** [Path::file_name] *)
Definition file_name (path : bytes) : option bytes :=
  match last (components path) with Some (Normal name) => Some name | _ => None end.
(** [Path::starts_with] *)
Definition path_starts_with (path base : bytes) : bool :=
  bool_decide (take (length (components base)) (components path) = components base).

Example parent_1 : path_parent (as_bytes "a//b/./c/.") = Some (as_bytes "a//b").
Proof. reflexivity. Qed.
Example parent_2 : path_parent (as_bytes "/a") = Some (as_bytes "/").
Proof. reflexivity. Qed.
Example parent_3 : path_parent (as_bytes "a") = Some [].
Proof. reflexivity. Qed.
Example parent_4 : path_parent (as_bytes "//") = None.
Proof. reflexivity. Qed.
Example parent_5 : path_parent (as_bytes "./a/") = Some (as_bytes ".").
Proof. reflexivity. Qed.

(** ** Components of a path and of its parent *)

Definition plain (s : bytes) : Prop := Forall (λ b, is_sep b = false) s.
Lemma sep_slash b : is_sep b = true → b = slash.
Proof. unfold is_sep, is_byte. rewrite N.eqb_eq. intros E. by rewrite <-(u8_byte b), E. Qed.
Lemma split_on_nonempty f l : split_on f l ≠ [].
Proof. destruct l as [|b l]; cbn; [done|]. destruct (f b); [done|]. by destruct (split_on f l). Qed.
Lemma split_on_snoc f l b s :
  f b = true → Forall (λ c, f c = false) s → split_on f (l ++ b :: s) = split_on f l ++ [s].
Proof.
  intros Hb Hs. induction l as [|a l IH]; cbn [app split_on].
  - by rewrite Hb, split_on_none.
  - rewrite IH. destruct (f a); [done|]. pose proof (split_on_pieces f l) as Hp.
    destruct (split_on f l) as [|p ps] eqn:E; [|done]. by apply split_on_nonempty in E.
Qed.
Lemma components_snoc l s :
  l ≠ [] → plain s → components (l ++ slash :: s) = components l ++ option_list (segment_component false s).
Proof.
  intros Hl Hs. unfold components. rewrite split_on_snoc by done.
  destruct (split_on is_sep l) as [|p ps] eqn:E; [by apply split_on_nonempty in E|]. destruct l as [|b l]; [done|].
  cbn [app]. rewrite omap_app, app_assoc. by destruct (segment_component false s) eqn:Es; cbn; rewrite Es.
Qed.
Lemma components_root s : plain s → components (slash :: s) = RootDir :: option_list (segment_component false s).
Proof.
  intros Hs. unfold components. change (slash :: s) with ([] ++ slash :: s). rewrite split_on_snoc by done. cbn.
  by destruct (segment_component false s).
Qed.
Lemma components_plain s : plain s → components s = option_list (segment_component true s).
Proof.
  intros Hs. unfold components. rewrite split_on_none by done. destruct s as [|b s]; [done|].
  apply Forall_cons in Hs as [-> _]. by rewrite app_nil_r.
Qed.
Lemma components_slash l : l ≠ [] → components (l ++ [slash]) = components l.
Proof. intros Hl. rewrite components_snoc by (done || constructor). apply app_nil_r. Qed.
Lemma trim_back_components n r : length r ≤ n → components (rev (trim_back r)) = components (rev r).
Proof.
  revert r. induction n as [|n IH]; intros [|b r] Hn; cbn [length] in Hn; try done; [lia|]. cbn [trim_back].
  destruct (is_sep b) eqn:Eb.
  { apply sep_slash in Eb as ->. destruct r as [|c r]; [done|]. rewrite IH by lia.
    change (rev (slash :: c :: r)) with (rev (c :: r) ++ [slash]). rewrite components_slash; [done|]. cbn. by destruct (rev r). }
  case_bool_decide as E; [|done]. subst b. destruct r as [|c r]; [done|]. destruct (is_sep c) eqn:Ec; [|done].
  apply sep_slash in Ec as ->. destruct r as [|d r]; [done|]. rewrite IH by (cbn in *; lia).
  change (rev (dot :: slash :: d :: r)) with ((rev (d :: r) ++ [slash]) ++ [dot]). rewrite <-app_assoc. cbn [app].
  rewrite components_snoc; [by rewrite app_nil_r|cbn; by destruct (rev r)|by repeat constructor].
Qed.
(** What [trim_back] leaves ends a segment that is not [.], or is the root. *)
Lemma trim_back_head n r b r' :
  length r ≤ n → trim_back r = b :: r' →
  (is_sep b = true ∧ r' = []) ∨ (is_sep b = false ∧ (b = dot → ∀ c r'', r' = c :: r'' → is_sep c = false)).
Proof.
  revert r. induction n as [|n IH]; intros [|a r] Hn; cbn [length] in Hn; try done; [lia|]. cbn [trim_back].
  destruct (is_sep a) eqn:Ea.
  { destruct r as [|c r]; [intros [= <- <-]; by left|]. apply IH. lia. }
  case_bool_decide as E; [|intros [= <- <-]; by right]. subst a.
  destruct r as [|c r]; [intros [= <- <-]; by right|]. destruct (is_sep c) eqn:Ec.
  - destruct r as [|d r]; [intros [= <- <-]; by left|]. apply IH. cbn in *. lia.
  - intros [= <- <-]. right. split; [done|]. intros _ c' r'' [= <- <-]. done.
Qed.
Lemma trim_back_length n r : length r ≤ n → length (trim_back r) ≤ length r.
Proof.
  revert r. induction n as [|n IH]; intros [|b r] Hn; cbn [length] in Hn; try done; [lia|]. cbn [trim_back].
  destruct (is_sep b). { destruct r; [done|]. etrans; [apply IH; lia|cbn; lia]. }
  case_bool_decide; [|done]. destruct r as [|c r]; [done|]. destruct (is_sep c); [|done].
  destruct r as [|d r]; [cbn; lia|]. etrans; [apply IH; cbn in *; lia|cbn; lia].
Qed.
Lemma drop_while_split {A} (f : A → bool) (l : list A) :
  ∃ t, l = t ++ drop_while f l ∧ Forall (λ a, f a = true) t.
Proof.
  induction l as [|a l (t&E&Ht)]; [by exists []|]. cbn [drop_while]. destruct (f a) eqn:Ea.
  - exists (a :: t). split; [cbn; by f_equal|by constructor].
  - by exists [].
Qed.
Lemma drop_while_head {A} (f : A → bool) (l : list A) a : head (drop_while f l) = Some a → f a = false.
Proof. induction l as [|b l IH]; [done|]. cbn [drop_while]. destruct (f b) eqn:Eb; [done|]. by intros [= <-]. Qed.
Lemma segment_component_some s : s ≠ [] → (s = as_bytes "." → False) → is_Some (segment_component false s).
Proof.
  intros Hs Hd. unfold segment_component, is_lit. destruct s as [|b s]; [done|]. rewrite (bool_decide_eq_false_2 _ Hd).
  by case_bool_decide.
Qed.
Lemma segment_component_not_root first s c : segment_component first s = Some c → c ≠ RootDir.
Proof. unfold segment_component. intros H ->. repeat case_match; done. Qed.
Lemma segment_component_first s : s ≠ [] → is_Some (segment_component true s).
Proof. intros Hs. unfold segment_component. destruct s; [done|]. case_match; [done|]. by case_match. Qed.
(** The parent lacks the last component, and is a shorter text. *)
Lemma path_parent_spec path q :
  path_parent path = Some q → length q < length path ∧ ∃ c, components path = components q ++ [c] ∧ c ≠ RootDir.
Proof.
  unfold path_parent. pose proof (trim_back_components _ (rev path) (le_n _)) as Hc. rewrite rev_involutive in Hc.
  pose proof (trim_back_length _ (rev path) (le_n _)) as Hlen. rewrite length_rev in Hlen.
  destruct (trim_back (rev path)) as [|b r] eqn:Et; [done|].
  destruct (trim_back_head _ _ _ _ (le_n _) Et) as [[Hb _]|[Hb Hd]]; [by rewrite Hb|]. rewrite Hb.
  intros <-%(inj Some).
  destruct (drop_while_split (λ b, negb (is_sep b)) (b :: r)) as (t&El&Ht).
  assert (Hhead : ∀ a, head (drop_while (λ b, negb (is_sep b)) (b :: r)) = Some a → is_sep a = true).
  { intros a Ha%drop_while_head. by destruct (is_sep a). }
  revert El Hhead. generalize (drop_while (λ b, negb (is_sep b)) (b :: r)). intros rest El Hhead.
  assert (Hpl : plain (rev t)).
  { apply Forall_rev. eapply Forall_impl; [exact Ht|]. intros a. by rewrite negb_true_iff. }
  assert (Hl0 : ∃ t', t = b :: t').
  { destruct t as [|a t]; [|injection El as <-; by eexists]. cbn in El. subst rest.
    specialize (Hhead b eq_refl). by rewrite Hb in Hhead. }
  destruct Hl0 as [t' ->]. split.
  { assert (length (trim_back rest) ≤ length rest) by by apply (trim_back_length (length rest)).
    pose proof (f_equal length El) as El'. rewrite length_app in El'. rewrite length_rev. cbn [length] in *. lia. }
  rewrite (trim_back_components (length rest)) by done. rewrite <-Hc, El, rev_app_distr.
  destruct rest as [|s r2].
  - cbn [rev app]. rewrite components_plain by done.
    destruct (segment_component_first (rev (b :: t'))) as [c Hc']; [intros E; cbn in E; by destruct (rev t')|].
    exists c. cbn [rev] in Hc'. rewrite Hc'. split; [done|by eapply segment_component_not_root].
  - specialize (Hhead s eq_refl). apply sep_slash in Hhead as ->. change (rev (slash :: r2)) with (rev r2 ++ [slash]).
    assert (Hseg : is_Some (segment_component false (rev (b :: t')))).
    { apply segment_component_some; [intros E; cbn in E; by destruct (rev t')|]. intros E. apply (f_equal (@rev _)) in E.
      rewrite rev_involutive in E. injection E as -> ->.
      assert (Hf : is_sep slash = false) by (eapply Hd; [done|]; by injection El). done. }
    destruct Hseg as [c Hseg]. exists c.
    assert (Hcr : c ≠ RootDir) by by eapply segment_component_not_root.
    split; [|done]. destruct (decide (rev r2 = [])) as [->|Hne].
    + cbn [app]. rewrite components_root, Hseg by done. done.
    + rewrite <-app_assoc. cbn [app]. by rewrite components_snoc, components_slash, Hseg by done.
Qed.
Lemma file_name_spec path name :
  file_name path = Some name → last (components path) = Some (Normal name).
Proof. unfold file_name. repeat case_match; naive_solver. Qed.
Lemma segment_normal first s name : segment_component first s = Some (Normal name) → s = name.
Proof. unfold segment_component. repeat case_match; naive_solver. Qed.
(** A normal component is a text without separators. *)
Definition is_name (name : bytes) : Prop := plain name ∧ segment_component false name = Some (Normal name).
Lemma segment_normal_false first s name : segment_component first s = Some (Normal name) → s = name ∧ segment_component false s = Some (Normal name).
Proof. intros H. split; [by eapply segment_normal|]. revert H. unfold segment_component. repeat case_match; naive_solver. Qed.
Lemma components_names path name : Normal name ∈ components path → is_name name.
Proof.
  unfold components. pose proof (split_on_pieces is_sep path) as Hp. destruct (split_on is_sep path) as [|s rest]; [by intros ?%elem_of_nil|].
  apply Forall_cons in Hp as [Hs Hrest]. intros [Hin|Hin]%elem_of_app.
  - destruct path as [|b l]; [by apply elem_of_nil in Hin|]. destruct (is_sep b).
    + by apply list_elem_of_singleton in Hin.
    + destruct (segment_component true s) as [c|] eqn:E; [|by apply elem_of_nil in Hin].
      apply list_elem_of_singleton in Hin as <-. by destruct (segment_normal_false _ _ _ E) as [-> ?].
  - apply list_elem_of_omap in Hin as (s'&Hs'&E). rewrite Forall_forall in Hrest. specialize (Hrest _ Hs').
    by destruct (segment_normal_false _ _ _ E) as [-> ?].
Qed.
Lemma components_join base name : base ≠ [] → is_name name → components (path_join base name) = components base ++ [Normal name].
Proof.
  intros Hb [Hp Hn]. unfold path_join. assert (Ha : is_absolute name = false).
  { destruct name as [|b name]; [done|]. by apply Forall_cons in Hp as [E _]. }
  rewrite Ha. destruct base as [|b l _] using rev_ind; [done|]. rewrite last_snoc.
  destruct (is_sep b) eqn:Eb.
  - apply sep_slash in Eb as ->. cbn [app]. rewrite <-app_assoc. cbn [app]. destruct l as [|a l].
    + cbn [app]. by rewrite components_root, Hn.
    + by rewrite components_snoc, components_slash, Hn.
  - cbn [app]. rewrite components_snoc by done. by rewrite Hn.
Qed.
Lemma path_join_ne base name : base ≠ [] → path_join base name ≠ [].
Proof. intros H. unfold path_join. destruct (is_absolute name) eqn:E; [by destruct name|]. by destruct base. Qed.
Lemma components_joins base names :
  base ≠ [] → Forall is_name names → components (foldl path_join base names) = components base ++ (Normal <$> names).
Proof.
  intros Hb Hn. revert base Hb. induction Hn as [|name names Hname Hn IH]; intros base Hb; [by rewrite app_nil_r|].
  cbn [foldl fmap list_fmap]. rewrite IH by by apply path_join_ne. rewrite components_join by done. by rewrite <-app_assoc.
Qed.
Lemma path_starts_with_spec path base : path_starts_with path base = true ↔ ∃ rest, components path = components base ++ rest.
Proof.
  unfold path_starts_with. rewrite bool_decide_eq_true. split.
  - intros E. exists (drop (length (components base)) (components path)). rewrite <-E at 1. symmetry. apply take_drop.
  - intros [rest ->]. apply take_app_length.
Qed.
