(* ===== verification/FileCache.v ===== *)
(** The cache of file states the model has seen (agent/nomi-tools/src/file_cache.rs),
    over an interface for the [lru] crate: recency order, capacity, and the byte
    budget the cache keeps itself.  Paths are Unix paths. *)
From S2P Require Import Prelude Bytes Text UnixPath.

(** ** Path keys *)

Definition normalize_step (cs : list Component) (c : Component) : list Component :=
  match c with
  | ParentDir =>
      match last cs with
      | Some (Normal _) => removelast cs
      | Some RootDir => cs
      | _ => cs ++ [c]
      end
  | CurDir => cs
  | _ => cs ++ [c]
  end.
Definition normalize_path (path : bytes) : bytes :=
  foldl path_push [] (foldl normalize_step [] (components path)).

(** ** The state *)

Record FileState := mkFileState {
  state_content : bytes;
  mtime_ms : N;
  state_offset : option N;
  state_limit : option N;
}.
#[export] Instance FileState_eq_dec : EqDecision FileState.
Proof. solve_decision. Defined.
Definition content_bytes (s : FileState) : N := N.of_nat (length (state_content s)).

(** The [lru] crate: entries from the most to the least recently used, and what its
    operations do to them as its documentation says. *)
Class Lru (C : Type) := {
  lru_new : N → C;
  lru_get : bytes → C → C * option FileState;
  lru_pop : bytes → C → C * option FileState;
  lru_pop_lru : C → C * option (bytes * FileState);
  lru_push : bytes → FileState → C → C * option (bytes * FileState);
  lru_clear : C → C;
  lru_entries : C → list (bytes * FileState);
  lru_cap : C → N;
}.
Definition without (k : bytes) (l : list (bytes * FileState)) : list (bytes * FileState) := filter (λ e, e.1 ≠ k) l.
Definition find_key (k : bytes) (l : list (bytes * FileState)) : option FileState := snd <$> head (filter (λ e, e.1 = k) l).
Class LruLaws (C : Type) `{Lru C} := {
  lru_new_spec n : lru_entries (lru_new n) = [] ∧ lru_cap (lru_new n) = n;
  lru_get_spec k c :
    let '(c', v) := lru_get k c in
    v = find_key k (lru_entries c) ∧ lru_cap c' = lru_cap c ∧
    lru_entries c' = match v with Some s => (k, s) :: without k (lru_entries c) | None => lru_entries c end;
  lru_pop_spec k c :
    let '(c', v) := lru_pop k c in
    v = find_key k (lru_entries c) ∧ lru_cap c' = lru_cap c ∧ lru_entries c' = without k (lru_entries c);
  lru_pop_lru_spec c :
    let '(c', v) := lru_pop_lru c in
    v = last (lru_entries c) ∧ lru_cap c' = lru_cap c ∧ lru_entries c' = removelast (lru_entries c);
  (** of a key that is not in the cache *)
  lru_push_spec k s c :
    find_key k (lru_entries c) = None →
    let '(c', v) := lru_push k s c in
    lru_cap c' = lru_cap c ∧
    if (lru_cap c <=? N.of_nat (length (lru_entries c)))%N
    then v = last (lru_entries c) ∧ lru_entries c' = (k, s) :: removelast (lru_entries c)
    else v = None ∧ lru_entries c' = (k, s) :: lru_entries c;
  lru_clear_spec c : lru_entries (lru_clear c) = [] ∧ lru_cap (lru_clear c) = lru_cap c;
}.

Record FileCacheConfig := mkCacheConfig { max_entries : N; max_size : N; enabled : bool }.
Record FileStateCache (C : Type) := mkCache { entries : C; max_size_bytes : N; current_size_bytes : N }.
Arguments mkCache {C}.
Arguments entries {C}.
Arguments max_size_bytes {C}.
Arguments current_size_bytes {C}.

Section cache.
Context {C : Type} `{Lru C}.

Definition cache_new (config : FileCacheConfig) : FileStateCache C :=
  mkCache (lru_new (if (max_entries config =? 0)%N then 100 else max_entries config)) (max_size config) 0.
Definition cache_get (path : bytes) (c : FileStateCache C) : FileStateCache C * option FileState :=
  let '(es, v) := lru_get (normalize_path path) (entries c) in
  (mkCache es (max_size_bytes c) (current_size_bytes c), v).
(** The eviction loop; each round removes an entry, so their number is fuel enough. *)
Fixpoint evict_loop (fuel : nat) (new_size : N) (c : FileStateCache C) : FileStateCache C :=
  match fuel with
  | 0 => c
  | S fuel =>
      if (max_size_bytes c <? current_size_bytes c + new_size)%N && negb (bool_decide (length (lru_entries (entries c)) = 0)) then
        let '(es, popped) := lru_pop_lru (entries c) in
        evict_loop fuel new_size
          (mkCache es (max_size_bytes c)
             (match popped with
              | Some (_, v) => current_size_bytes c - content_bytes v
              | None => current_size_bytes c
              end)%N)
      else c
  end.
(** Removing the entry of a key, with the size accounting of [insert] and [remove] *)
Definition cache_pop (k : bytes) (c : FileStateCache C) : FileStateCache C * option FileState :=
  let '(es, removed) := lru_pop k (entries c) in
  (mkCache es (max_size_bytes c)
     (match removed with Some v => current_size_bytes c - content_bytes v | None => current_size_bytes c end)%N, removed).
Definition cache_insert (path : bytes) (state : FileState) (c : FileStateCache C) : FileStateCache C :=
  let normalized := normalize_path path in
  let new_size := content_bytes state in
  let c := (cache_pop normalized c).1 in
  let c := evict_loop (length (lru_entries (entries c))) new_size c in
  let '(es, evicted) := lru_push normalized state (entries c) in
  let current := match evicted with Some (_, v) => current_size_bytes c - content_bytes v | None => current_size_bytes c end%N in
  mkCache es (max_size_bytes c) (current + new_size)%N.
Definition cache_remove (path : bytes) (c : FileStateCache C) : FileStateCache C * option FileState :=
  cache_pop (normalize_path path) c.
Definition cache_clear (c : FileStateCache C) : FileStateCache C := mkCache (lru_clear (entries c)) (max_size_bytes c) 0.
Definition cache_len (c : FileStateCache C) : nat := length (lru_entries (entries c)).
Definition cache_is_empty (c : FileStateCache C) : bool := bool_decide (cache_len c = 0).

(** [{:>6}] of a number *)
Definition pad_left6 (l : bytes) : bytes := replicate (6 - length l) (u8 32) ++ l.
Fixpoint numbered_lines (i : N) (ls : list bytes) : list bytes :=
  match ls with
  | [] => []
  | l :: ls => (pad_left6 (decimal i) ++ [u8 9] ++ l) :: numbered_lines (i + 1) ls
  end.
(** [disk_mtime] is [file_mtime_ms(path)] after the write. *)
Definition update_cache_after_write (disk_mtime : option N) (path content : bytes) (c : FileStateCache C) : FileStateCache C :=
  match disk_mtime with
  | None => c
  | Some new_mtime =>
      cache_insert path (mkFileState (bytes_join [u8 10] (numbered_lines 1 (lines content))) new_mtime None None) c
  end.
End cache.

(** ** Sizes and keys *)

Fixpoint sizes (l : list (bytes * FileState)) : N :=
  match l with [] => 0%N | e :: l => (content_bytes e.2 + sizes l)%N end.
Lemma sizes_app l l' : sizes (l ++ l') = (sizes l + sizes l')%N.
Proof. induction l as [|e l IH]; [done|]. cbn [app sizes]. rewrite IH. lia. Qed.
Lemma removelast_take {A} (l : list A) : removelast l = take (length l - 1) l.
Proof.
  destruct l as [|x l _] using rev_ind; [done|]. rewrite removelast_app by done. cbn [removelast]. rewrite app_nil_r, length_app.
  cbn. replace (length l + 1 - 1) with (length l) by lia. symmetry. by apply take_app_length.
Qed.
Lemma sizes_removelast l e : last l = Some e → sizes l = (sizes (removelast l) + content_bytes e.2)%N.
Proof.
  destruct l as [|x l _] using rev_ind; [done|]. rewrite last_snoc. intros [= ->].
  rewrite removelast_app by done. cbn [removelast]. rewrite app_nil_r, sizes_app. cbn. lia.
Qed.
Lemma find_key_without k l : find_key k (without k l) = None.
Proof.
  unfold find_key, without. rewrite list_filter_filter. rewrite fmap_None.
  destruct (filter _ l) as [|e l'] eqn:E; [done|]. exfalso.
  assert (He : e ∈ e :: l') by left. rewrite <-E, list_elem_of_filter in He. naive_solver.
Qed.
Lemma without_id k l : k ∉ l.*1 → without k l = l.
Proof.
  induction l as [|e l IH]; [done|]. rewrite fmap_cons, not_elem_of_cons. intros [Hk Hl].
  unfold without. rewrite filter_cons_True by done. f_equal. by apply IH.
Qed.
Lemma without_cons_eq k s l : without k ((k, s) :: l) = without k l.
Proof. unfold without. by rewrite filter_cons_False by (cbn; naive_solver). Qed.
Lemma without_cons_ne k e l : e.1 ≠ k → without k (e :: l) = e :: without k l.
Proof. intros H. unfold without. by rewrite filter_cons_True. Qed.
Lemma find_key_cons k e l : find_key k (e :: l) = if decide (e.1 = k) then Some e.2 else find_key k l.
Proof. unfold find_key. rewrite filter_cons. by case_decide. Qed.
Lemma sizes_without k l :
  NoDup l.*1 → sizes l = (sizes (without k l) + match find_key k l with Some s => content_bytes s | None => 0 end)%N.
Proof.
  induction l as [|[k' s] l IH]; [done|]. cbn [fmap list_fmap fst]. rewrite NoDup_cons. intros [Hk Hl].
  rewrite find_key_cons. cbn [fst snd]. case_decide as E.
  - subst k'. rewrite without_cons_eq, without_id by done. cbn. lia.
  - rewrite without_cons_ne by done. cbn [sizes snd]. rewrite IH by done. lia.
Qed.
Lemma keys_take n (l : list (bytes * FileState)) : NoDup l.*1 → NoDup (take n l).*1.
Proof. rewrite fmap_take. intros H. eapply sublist_NoDup; [exact H|]. apply sublist_take. Qed.
Lemma keys_without k l : NoDup l.*1 → NoDup (without k l).*1.
Proof.
  intros H. eapply sublist_NoDup; [exact H|]. apply fmap_sublist. unfold without. clear H.
  induction l as [|e l IH]; [done|]. rewrite filter_cons. case_decide; by constructor.
Qed.
Lemma without_no_key k l : k ∉ (without k l).*1.
Proof. rewrite list_elem_of_fmap. intros (e&->&He). unfold without in He. by apply list_elem_of_filter in He as [? _]. Qed.
Lemma find_key_none k l : k ∉ l.*1 → find_key k l = None.
Proof. intros H. rewrite <-(without_id k l H). apply find_key_without. Qed.

(** ** The invariant *)

Section cache_spec.
Context {C : Type} `{LruLaws C}.
Abbreviation es c := (lru_entries (entries c)).

(** The size is that of the contents, keys are distinct, and the number is bounded. *)
Record cache_ok (c : FileStateCache C) : Prop := {
  ok_size : current_size_bytes c = sizes (es c);
  ok_keys : NoDup (es c).*1;
  ok_cap : (N.of_nat (length (es c)) <= lru_cap (entries c))%N;
  ok_pos : (0 < lru_cap (entries c))%N;
  (** the byte budget is kept, but for a single entry larger than it *)
  ok_budget : (sizes (es c) <= max_size_bytes c)%N ∨ length (es c) ≤ 1;
}.
Lemma cache_new_ok config : cache_ok (cache_new config : FileStateCache C).
Proof.
  destruct (lru_new_spec (C:=C) (if (max_entries config =? 0)%N then 100 else max_entries config)%N) as [He Hc].
  constructor; cbn [cache_new entries current_size_bytes max_size_bytes]; rewrite ?He, ?Hc; cbn; [done|constructor|lia| |lia].
  destruct (N.eqb_spec (max_entries config) 0); lia.
Qed.
Lemma cache_pop_spec k c :
  cache_ok c →
  let '(c', v) := cache_pop k c in
  cache_ok c' ∧ v = find_key k (es c) ∧ es c' = without k (es c) ∧ max_size_bytes c' = max_size_bytes c ∧
  lru_cap (entries c') = lru_cap (entries c).
Proof.
  intros [Hs Hk Hc Hp Hb]. unfold cache_pop. pose proof (lru_pop_spec k (entries c)) as Hpop.
  destruct (lru_pop k (entries c)) as [l v]. destruct Hpop as (->&Hcap&He). pose proof (sizes_without k _ Hk) as Hsz.
  assert (Hlen : length (without k (es c)) ≤ length (es c)) by apply length_filter.
  split_and!; try done. constructor; cbn [entries current_size_bytes max_size_bytes]; rewrite ?He, ?Hcap.
  - rewrite Hs, Hsz. destruct (find_key k (es c)); lia.
  - by apply keys_without.
  - lia.
  - done.
  - destruct Hb as [Hb|Hb]; [left|right]; lia.
Qed.
Lemma evict_loop_spec new_size c fuel :
  cache_ok c → length (es c) ≤ fuel →
  let c' := evict_loop fuel new_size c in
  cache_ok c' ∧ max_size_bytes c' = max_size_bytes c ∧ lru_cap (entries c') = lru_cap (entries c) ∧
  ∃ j, es c' = take j (es c) ∧ j ≤ length (es c) ∧
    (j = 0 ∨ (sizes (take j (es c)) + new_size <= max_size_bytes c)%N) ∧
    (j = length (es c) ∨ (max_size_bytes c < sizes (take (S j) (es c)) + new_size)%N).
Proof.
  revert c. induction fuel as [|fuel IH]; intros c Hok Hf; cbn [evict_loop].
  - split_and!; try done. exists 0. rewrite take_0. split_and!; [apply nil_length_inv; lia|lia|by left|left; lia].
  - destruct (max_size_bytes c <? current_size_bytes c + new_size)%N eqn:E; cbn [andb].
    2: { split_and!; try done. exists (length (es c)). apply N.ltb_ge in E. rewrite firstn_all, <-(ok_size c Hok).
         split_and!; [done|done|by right|by left]. }
    case_bool_decide as E0; cbn [negb].
    { split_and!; try done. exists 0. rewrite take_0. split_and!; [by apply nil_length_inv|lia|by left|left; lia]. }
    apply N.ltb_lt in E. pose proof (lru_pop_lru_spec (entries c)) as Hpop. destruct (lru_pop_lru (entries c)) as [l v].
    destruct Hpop as (->&Hcap&He). destruct (last (es c)) as [[k s]|] eqn:Hl; [|apply last_None in Hl; by rewrite Hl in E0].
    pose proof (sizes_removelast _ _ Hl) as Hsz. cbn [snd] in Hsz.
    set (c1 := mkCache l (max_size_bytes c) (current_size_bytes c - content_bytes s)%N).
    assert (He1 : es c1 = take (length (es c) - 1) (es c)) by (cbn; by rewrite He, removelast_take).
    assert (Hlen1 : length (es c1) = length (es c) - 1) by (rewrite He1, length_take; lia).
    assert (Hok1 : cache_ok c1).
    { destruct Hok as [Hs Hk Hc Hp Hb]. constructor; rewrite ?Hlen1.
      - cbn. rewrite He, Hs. lia.
      - rewrite He1. by apply keys_take.
      - cbn. rewrite Hcap. lia.
      - cbn. by rewrite Hcap.
      - change (es c1) with (lru_entries l). rewrite He. cbn. destruct Hb as [Hb|Hb]; [left|right]; lia. }
    destruct (IH c1 Hok1) as (I1&I2&I3&j&I4&I5&I6&I7); [lia|]. split_and!; [done|done|by rewrite I3|].
    exists j. rewrite Hlen1 in I5, I7. rewrite He1 in *. change (max_size_bytes c1) with (max_size_bytes c) in *.
    rewrite take_take, Nat.min_l in I4, I6 by lia. split_and!; [done|lia|done|].
    right. destruct I7 as [->|I7].
    + replace (S (length (es c) - 1)) with (length (es c)) by lia. rewrite firstn_all, <-(ok_size c Hok). done.
    + destruct (decide (S j ≤ length (es c) - 1)); [by rewrite take_take, Nat.min_l in I7|].
      rewrite (take_ge (es c)) by lia. rewrite <-(ok_size c Hok). done.
Qed.
(** What [insert] does *)
Lemma cache_insert_spec c path st :
  cache_ok c →
  let c' := cache_insert path st c in
  let others := without (normalize_path path) (es c) in
  cache_ok c' ∧
  (∀ p, normalize_path p = normalize_path path → (cache_get p c').2 = Some st) ∧
  ∃ j, es c' = (normalize_path path, st) :: take j others ∧
    (N.of_nat (S j) <= lru_cap (entries c))%N ∧
    (j = 0 ∨ (sizes (take j others) + content_bytes st <= max_size_bytes c)%N) ∧
    (j = length others ∨ N.of_nat (S j) = lru_cap (entries c) ∨
     (max_size_bytes c < sizes (take (S j) others) + content_bytes st)%N).
Proof.
  intros Hok. unfold cache_insert. set (k := normalize_path path). pose proof (cache_pop_spec k c Hok) as Hpop.
  destruct (cache_pop k c) as [c1 v1]. destruct Hpop as (Hok1&_&He1&Hm1&Hcap1). cbn [fst].
  destruct (evict_loop_spec (content_bytes st) c1 (length (es c1)) Hok1 (le_n _)) as (Hok2&Hm2&Hcap2&j&He2&Hj&Hfit&Hneed).
  set (c2 := evict_loop _ _ c1) in *. rewrite He1 in *. rewrite Hm1, Hcap1 in *. set (others := without k (es c)) in *.
  assert (Hlen2 : length (es c2) = j) by (rewrite He2, length_take; lia).
  assert (Hk2 : k ∉ (es c2).*1).
  { rewrite He2. intros Hin. apply (without_no_key k (es c)). fold others. rewrite list_elem_of_fmap in *.
    destruct Hin as (e&->&Hin). exists e. split; [done|]. rewrite <-(take_drop j others), elem_of_app. by left. }
  pose proof (lru_push_spec k st (entries c2) (find_key_none _ _ Hk2)) as Hpush.
  destruct (lru_push k st (entries c2)) as [l ev]. destruct Hpush as [Hcapl Hpush].
  destruct Hok2 as [Hs2 Hn2 Hc2 Hp2 Hb2]. rewrite Hlen2, Hcap2 in *.
  set (c' := mkCache l _ _).
  assert (Hmain : ∃ j', es c' = (k, st) :: take j' others ∧ j' ≤ j ∧ (N.of_nat (S j') <= lru_cap (entries c))%N ∧
    current_size_bytes c' = (sizes (take j' others) + content_bytes st)%N ∧ (j' = j ∨ N.of_nat (S j') = lru_cap (entries c))).
  { destruct (lru_cap (entries c) <=? N.of_nat j)%N eqn:Ec; destruct Hpush as [-> Hl]; cbn [entries current_size_bytes c'].
    - apply N.leb_le in Ec. exists (j - 1).
      assert (Hrm : removelast (es c2) = take (j - 1) others).
      { rewrite removelast_take, Hlen2, He2, take_take. f_equal. lia. }
      rewrite Hl, Hrm. destruct (last (es c2)) as [[k' s']|] eqn:Hlast.
      + pose proof (sizes_removelast _ _ Hlast) as Hsz. rewrite Hrm in Hsz. cbn [snd] in Hsz. rewrite Hs2, Hsz. split_and!; [done|lia|lia|by rewrite N.add_sub|right; lia].
      + apply last_None in Hlast. rewrite Hlast in Hlen2. cbn in Hlen2. lia.
    - apply N.leb_gt in Ec. exists j. rewrite Hl, He2. split_and!; [done|done|lia|by rewrite Hs2, He2|by left]. }
  destruct Hmain as (j'&He'&Hj'&Hcap'&Hsz'&Hor). split_and!.
  - constructor.
    + rewrite Hsz', He'. cbn [sizes snd]. lia.
    + rewrite He'. cbn [fmap list_fmap fst]. apply NoDup_cons. split.
      * intros Hin. apply Hk2. rewrite He2. rewrite list_elem_of_fmap in *. destruct Hin as (e&->&Hin). exists e. split; [done|].
        rewrite <-(take_drop j' (take j others)), elem_of_app, take_take, Nat.min_l by lia. by left.
      * apply keys_take, keys_without. by destruct Hok.
    + rewrite He'. cbn [length entries c']. rewrite length_take, Hcapl. lia.
    + cbn [entries c']. by rewrite Hcapl.
    + rewrite He'. cbn [sizes snd length max_size_bytes c']. rewrite Hm2. destruct (decide (j' = 0)) as [->|Hj0]; [right; rewrite take_0; cbn; lia|left].
      destruct Hfit as [->|Hfit]; [lia|]. rewrite <-(take_drop j' (take j others)), sizes_app, take_take, Nat.min_l in Hfit by lia. lia.
  - intros p Hp. unfold cache_get. rewrite Hp. fold k. pose proof (lru_get_spec k (entries c')) as Hg.
    destruct (lru_get k (entries c')) as [l' v']. destruct Hg as (->&_&_). cbn [snd]. fold (es c'). rewrite He', find_key_cons.
    by rewrite decide_True.
  - exists j'. split_and!; [done|done| |].
    + destruct (decide (j' = 0)); [by left|right]. destruct Hfit as [->|Hfit]; [lia|].
      rewrite <-(take_drop j' (take j others)), sizes_app, take_take, Nat.min_l in Hfit by lia. lia.
    + destruct Hor as [->|Hor]; [|by right; left]. destruct Hneed as [->|Hneed]; [by left|by right; right].
Qed.
Lemma find_key_in k l s : find_key k l = Some s → k ∈ l.*1.
Proof.
  induction l as [|e l IH]; [done|]. rewrite find_key_cons, fmap_cons, elem_of_cons. case_decide; [by left|]. right. by apply IH.
Qed.
Lemma length_without k l : NoDup l.*1 → length l = length (without k l) + match find_key k l with Some _ => 1 | None => 0 end.
Proof.
  induction l as [|[k' s] l IH]; [done|]. cbn [fmap list_fmap fst]. rewrite NoDup_cons. intros [Hk Hl]. rewrite find_key_cons. cbn [fst snd].
  case_decide as E.
  - subst k'. rewrite without_cons_eq, without_id by done. cbn. lia.
  - rewrite without_cons_ne by done. cbn [length]. rewrite IH by done. lia.
Qed.
Lemma cache_get_ok k c : cache_ok c → cache_ok (cache_get k c).1.
Proof.
  intros [Hs Hk Hc Hp Hb]. unfold cache_get. pose proof (lru_get_spec (normalize_path k) (entries c)) as Hg.
  destruct (lru_get _ (entries c)) as [l v]. destruct Hg as (Hv&Hcap&He). cbn [fst].
  pose proof (sizes_without (normalize_path k) _ Hk) as Hsz. pose proof (length_without (normalize_path k) _ Hk) as Hlen.
  rewrite <-Hv in Hsz, Hlen. destruct v as [s|]; constructor; cbn [entries current_size_bytes max_size_bytes]; rewrite ?He, ?Hcap; try done.
  - cbn [sizes snd]. lia.
  - cbn [fmap list_fmap fst]. apply NoDup_cons. split; [apply without_no_key|by apply keys_without].
  - cbn [length]. lia.
  - cbn [sizes snd length]. destruct Hb as [Hb|Hb]; [left|right]; lia.
Qed.
Lemma cache_clear_ok c : cache_ok c → cache_ok (cache_clear c).
Proof.
  intros [_ _ _ Hp _]. destruct (lru_clear_spec (entries c)) as [He Hc].
  constructor; cbn [cache_clear entries current_size_bytes max_size_bytes]; rewrite ?He, ?Hc; cbn; [done|constructor|lia|done|lia].
Qed.
(** The states a cache goes through *)
Inductive cache_reach (config : FileCacheConfig) : FileStateCache C → Prop :=
| reach_new : cache_reach config (cache_new config)
| reach_get path c : cache_reach config c → cache_reach config (cache_get path c).1
| reach_insert path st c : cache_reach config c → cache_reach config (cache_insert path st c)
| reach_remove path c : cache_reach config c → cache_reach config (cache_remove path c).1
| reach_clear c : cache_reach config c → cache_reach config (cache_clear c)
| reach_update mtime path txt c : cache_reach config c → cache_reach config (update_cache_after_write mtime path txt c).
Lemma cache_reach_ok config c : cache_reach config c → cache_ok c.
Proof.
  induction 1 as [|path c _ IH|path st c _ IH|path c _ IH|c _ IH|[m|] path txt c _ IH]; [apply cache_new_ok|by apply cache_get_ok|..].
  - by apply (cache_insert_spec c path st).
  - pose proof (cache_pop_spec (normalize_path path) c IH) as Hp. unfold cache_remove. destruct (cache_pop _ c). by destruct Hp.
  - by apply cache_clear_ok.
  - by apply (cache_insert_spec c path).
  - done.
Qed.

(** The file cache keeps its accounts and evicts no more than it must.  Inserting
    puts the state first and keeps a longest prefix of the other entries, by recency:
    shorter only by the byte budget or the number of entries.  The size stays the sum of
    the contents, keys stay distinct, the budget holds but for one entry larger than
    it, and the path, however spelled, finds the state. *)
Theorem cache_insert_exact c path st :
  cache_ok c →
  let c' := cache_insert path st c in
  let others := without (normalize_path path) (es c) in
  cache_ok c' ∧
  (∀ p, normalize_path p = normalize_path path → (cache_get p c').2 = Some st) ∧
  ∃ j, es c' = (normalize_path path, st) :: take j others ∧
    (N.of_nat (S j) <= lru_cap (entries c))%N ∧
    (j = 0 ∨ (sizes (take j others) + content_bytes st <= max_size_bytes c)%N) ∧
    (j = length others ∨ N.of_nat (S j) = lru_cap (entries c) ∨
     (max_size_bytes c < sizes (take (S j) others) + content_bytes st)%N).
Proof. apply cache_insert_spec. Qed.
(** C34. The file cache is well formed in every state it goes through: its size is the
    sum of the contents, no path key occurs twice, the number of entries is within the
    capacity, and the byte budget holds unless a single entry exceeds it. *)
Theorem cache_well_formed config c :
  cache_reach config c →
  current_size_bytes c = sizes (lru_entries (entries c)) ∧ NoDup (lru_entries (entries c)).*1 ∧
  (N.of_nat (cache_len c) <= lru_cap (entries c))%N ∧
  ((current_size_bytes c <= max_size_bytes c)%N ∨ cache_len c ≤ 1).
Proof. intros [H1 H2 H3 _ H5]%cache_reach_ok. split_and!; [done|done|done|]. by rewrite H1. Qed.
End cache_spec.

(** ** An implementation of the interface *)

Record ListLru := mkListLru { list_entries : list (bytes * FileState); list_cap : N }.
#[export] Instance ListLru_ops : Lru ListLru := {
  lru_new n := mkListLru [] n;
  lru_get k c :=
    let v := find_key k (list_entries c) in
    (match v with Some s => mkListLru ((k, s) :: without k (list_entries c)) (list_cap c) | None => c end, v);
  lru_pop k c := (mkListLru (without k (list_entries c)) (list_cap c), find_key k (list_entries c));
  lru_pop_lru c := (mkListLru (removelast (list_entries c)) (list_cap c), last (list_entries c));
  lru_push k s c :=
    if (list_cap c <=? N.of_nat (length (list_entries c)))%N
    then (mkListLru ((k, s) :: removelast (list_entries c)) (list_cap c), last (list_entries c))
    else (mkListLru ((k, s) :: list_entries c) (list_cap c), None);
  lru_clear c := mkListLru [] (list_cap c);
  lru_entries := list_entries;
  lru_cap := list_cap;
}.
#[export] Instance ListLru_laws : LruLaws ListLru.
Proof.
  split; try done.
  - intros k c. cbn. by destruct (find_key k (list_entries c)).
  - intros k s c _. cbn. by destruct (list_cap c <=? _)%N.
Qed.
Definition small_cache : FileStateCache ListLru := cache_new (mkCacheConfig 2 10 true).
Lemma cache_insert_exact_witness :
  (cache_get (as_bytes "/a/../b") (cache_insert (as_bytes "/b") (mkFileState (as_bytes "hello") 7 None None) small_cache)).2
  = Some (mkFileState (as_bytes "hello") 7 None None).
Proof.
  apply (proj1 (proj2 (cache_insert_exact small_cache (as_bytes "/b") (mkFileState (as_bytes "hello") 7 None None) (cache_new_ok _)))).
  by vm_compute.
Defined.
Lemma cache_well_formed_witness :
  current_size_bytes (cache_insert (as_bytes "/b") (mkFileState (as_bytes "hello") 7 None None) small_cache) = 5%N.
Proof.
  destruct (cache_well_formed (mkCacheConfig 2 10 true) (cache_insert (as_bytes "/b") (mkFileState (as_bytes "hello") 7 None None) small_cache)) as [-> _].
  - apply reach_insert, reach_new.
  - by vm_compute.
Defined.
