(* ===== verification/PatchParse.v ===== *)
(** The parser of the freeform patch format (agent/nomi-coding/src/patch.rs).  The
    [Debug] form of strings is an argument. *)
From S2P Require Import Prelude Utf8 Bytes Text.

Definition BEGIN : bytes := as_bytes "*** Begin Patch".
Definition END : bytes := as_bytes "*** End Patch".
Definition ADD : bytes := as_bytes "*** Add File: ".
Definition DELETE : bytes := as_bytes "*** Delete File: ".
Definition UPDATE : bytes := as_bytes "*** Update File: ".
Definition MOVE_TO : bytes := as_bytes "*** Move to: ".
Definition EOF : bytes := as_bytes "*** End of File".

Record PatchHunk := mkHunk { old_text : bytes; new_text : bytes }.
Inductive PatchFileOp :=
| AddFile (path content : bytes)
| DeleteFile (path : bytes)
| UpdateFile (path : bytes) (move_to : option bytes) (hunks : list PatchHunk).
Record ParsedPatch := mkPatch { files : list PatchFileOp }.
Record PatchParseError := mkParseError { message : bytes; error_line : option nat }.
(** [Display] *)
Definition display_error (e : PatchParseError) : bytes :=
  match error_line e with
  | Some n => as_bytes "invalid patch at line " ++ decimal (N.of_nat n) ++ as_bytes ": " ++ message e
  | None => as_bytes "invalid patch: " ++ message e
  end.

Definition FENCE : bytes := as_bytes "```".
Definition strip_fences (s : bytes) : bytes :=
  let t := bytes_trim s in
  if str_starts_with FENCE t then
    let t :=
      match strip_prefix FENCE t with
      | Some rest => match find_subsequence [u8 10] rest with Some nl => drop (nl + 1) rest | None => rest end
      | None => t
      end in
    match rfind FENCE t with Some end_ => str_trim_end (take end_ t) | None => t end
  else t.

(** ** Sections

    A loop of the parser takes the position of its first line and the lines from it
    on, and returns the position and the lines where it stopped. *)
Fixpoint add_loop (i : nat) (ls : list bytes) (content : bytes) : bytes * nat * list bytes :=
  match ls with
  | [] => (content, i, [])
  | l :: ls' =>
      let t := bytes_trim l in
      if str_starts_with (as_bytes "*** ") t && negb (str_starts_with (as_bytes "+") t) then (content, i, ls)
      else
        match strip_prefix (as_bytes "+") l with
        | Some rest => add_loop (S i) ls' (content ++ rest ++ [u8 10])
        | None =>
            if str_starts_with (as_bytes "*** ") l then (content, i, ls)
            else add_loop (S i) ls' (content ++ l ++ [u8 10])
        end
  end.
(** The hunks of an update so far, and the lines of the current one *)
Record HunkState := mkHunkState { in_hunk : bool; old_lines : list bytes; new_lines : list bytes; hunks : list PatchHunk }.
Definition flush (s : HunkState) : HunkState :=
  match old_lines s, new_lines s with
  | [], [] => s
  | _, _ =>
      mkHunkState (in_hunk s) [] []
        (hunks s ++ [mkHunk (bytes_join [u8 10] (old_lines s)) (bytes_join [u8 10] (new_lines s))])
  end.
Definition push_lines (old new : list bytes) (s : HunkState) : HunkState :=
  mkHunkState true (old_lines s ++ old) (new_lines s ++ new) (hunks s).
(** Where an update ends *)
Definition ends_update (trimmed : bytes) : bool :=
  str_starts_with END trimmed || str_starts_with ADD trimmed || str_starts_with DELETE trimmed
  || str_starts_with UPDATE trimmed.
Definition hunk_mark (trimmed : bytes) : bool := is_lit trimmed "@@" || str_starts_with (as_bytes "@@ ") trimmed.
Definition open_hunk (s : HunkState) : HunkState :=
  let s := if in_hunk s then flush s else s in mkHunkState true (old_lines s) (new_lines s) (hunks s).

Section parse.
Context (debug_str : bytes → bytes).

Fixpoint update_loop (i : nat) (ls : list bytes) (s : HunkState) : result (HunkState * nat * list bytes) PatchParseError :=
  match ls with
  | [] => Ok (s, i, [])
  | l :: ls' =>
      let t := str_trim_end l in
      let trimmed := bytes_trim t in
      if ends_update trimmed then Ok (s, i, ls)
      else if bool_decide (trimmed = EOF) then update_loop (S i) ls' s
      else if hunk_mark trimmed then update_loop (S i) ls' (open_hunk s)
      else
        match strip_prefix (as_bytes "-") t with
        | Some rest => update_loop (S i) ls' (push_lines [rest] [] s)
        | None =>
            match strip_prefix (as_bytes "+") t with
            | Some rest => update_loop (S i) ls' (push_lines [] [rest] s)
            | None =>
                match strip_prefix (as_bytes " ") t with
                | Some rest => update_loop (S i) ls' (push_lines [rest] [rest] s)
                | None =>
                    if bool_decide (trimmed = []) then
                      update_loop (S i) ls' (if in_hunk s then push_lines [[]] [[]] s else s)
                    else Err (mkParseError (as_bytes "unexpected line in Update File hunk: " ++ debug_str trimmed) (Some (i + 1)))
                end
            end
        end
  end.
(** An update behind its header line *)
Definition parse_update (path : bytes) (i : nat) (ls : list bytes) :
    result (PatchFileOp * nat * list bytes) PatchParseError :=
  let '(move_to, i, ls) :=
    match ls with
    | l :: ls' =>
        match strip_prefix MOVE_TO (bytes_trim l) with
        | Some dest => (Some (bytes_trim dest), S i, ls')
        | None => (None, i, ls)
        end
    | [] => (None, i, ls)
    end in
  let? r := update_loop i ls (mkHunkState false [] [] []) in
  let '(s, i, ls) := r in
  let hs := hunks (flush s) in
  if bool_decide (hs = []) && bool_decide (move_to = None) then
    Err (mkParseError (as_bytes "Update File " ++ path ++ as_bytes " has no hunks") (Some (i - 1 + 1)))
  else Ok (UpdateFile (bytes_trim path) move_to hs, i, ls).
(** The main loop; each round takes a line at least.  [None] is lack of fuel. *)
Fixpoint sections_loop (fuel i : nat) (ls : list bytes) (acc : list PatchFileOp) :
    option (result (list PatchFileOp) PatchParseError) :=
  match fuel with
  | 0 => None
  | S fuel =>
      match ls with
      | [] => Some (Ok acc)
      | l :: ls' =>
          let line := bytes_trim (str_trim_end l) in
          if bool_decide (line = []) then sections_loop fuel (S i) ls' acc
          else if str_starts_with END line then Some (Ok acc)
          else
            match strip_prefix ADD line with
            | Some path =>
                let '(content, i, ls) := add_loop (S i) ls' [] in
                sections_loop fuel i ls (acc ++ [AddFile (bytes_trim path) content])
            | None =>
                match strip_prefix DELETE line with
                | Some path => sections_loop fuel (S i) ls' (acc ++ [DeleteFile (bytes_trim path)])
                | None =>
                    match strip_prefix UPDATE line with
                    | Some path =>
                        match parse_update path (S i) ls' with
                        | Ok (op, i, ls) => sections_loop fuel i ls (acc ++ [op])
                        | Err e => Some (Err e)
                        end
                    | None =>
                        Some (Err (mkParseError
                          (as_bytes "expected Add/Update/Delete File marker, got " ++ debug_str line) (Some (i + 1))))
                    end
                end
            end
      end
  end.
(** The optional lines before the first section *)
Definition skip_line (p : bytes → bool) (i : nat) (ls : list bytes) : nat * list bytes :=
  match ls with l :: ls' => if p (bytes_trim l) then (S i, ls') else (i, ls) | [] => (i, ls) end.
Definition parse_freeform_patch (input : bytes) : option (result ParsedPatch PatchParseError) :=
  let txt := strip_fences (bytes_trim input) in
  match lines txt with
  | [] => Some (Err (mkParseError (as_bytes "empty patch") None))
  | ls =>
      let '(i, ls) := skip_line (str_starts_with BEGIN) 0 ls in
      let '(i, ls) := skip_line (str_starts_with (as_bytes "*** Environment ID:")) i ls in
      r ← sections_loop (S (length ls)) i ls [];
      Some (let? fs := r in
            match fs with
            | [] => Err (mkParseError (as_bytes "patch contained no file hunks") None)
            | _ => Ok (mkPatch fs)
            end)
  end.
Definition looks_like_freeform_patch (input : bytes) : bool :=
  let t := bytes_trim input in
  str_contains t BEGIN || str_contains t UPDATE || str_contains t ADD || str_contains t DELETE.
End parse.
