(* ===== verification/PatchFormat.v ===== *)
(** The freeform patch format as models write it: parsing a written patch gives what
    it says, and every input is answered. *)
From S2P Require Import Prelude Utf8 Bytes Text PatchParse.

(** ** What a patch is written as *)

Inductive HunkLine := Context (l : bytes) | Removed (l : bytes) | Added (l : bytes).
Inductive PatchSection :=
| AddSection (path : bytes) (content : list bytes)
| DeleteSection (path : bytes)
| UpdateSection (path : bytes) (move_to : option bytes) (hs : list (list HunkLine)).
Definition render_hunk_line (h : HunkLine) : bytes :=
  match h with Context l => u8 32 :: l | Removed l => u8 45 :: l | Added l => u8 43 :: l end.
Definition render_hunk (h : list HunkLine) : list bytes := as_bytes "@@" :: (render_hunk_line <$> h).
Definition render_section (s : PatchSection) : list bytes :=
  match s with
  | AddSection path content => (ADD ++ path) :: (cons (u8 43) <$> content)
  | DeleteSection path => [DELETE ++ path]
  | UpdateSection path move_to hs =>
      (UPDATE ++ path) :: option_list ((λ dest : bytes, MOVE_TO ++ dest) <$> move_to) ++ concat (render_hunk <$> hs)
  end.
Definition render_lines (ss : list PatchSection) : list bytes := concat (render_section <$> ss) ++ [END].
Definition render_patch (ss : list PatchSection) : bytes := bytes_join [u8 10] (BEGIN :: render_lines ss) ++ [u8 10].
(** What the sections mean *)
Definition old_line (h : HunkLine) : list bytes := match h with Context l | Removed l => [l] | Added _ => [] end.
Definition new_line (h : HunkLine) : list bytes := match h with Context l | Added l => [l] | Removed _ => [] end.
Definition hunk_meaning (h : list HunkLine) : PatchHunk :=
  mkHunk (bytes_join [u8 10] (h ≫= old_line)) (bytes_join [u8 10] (h ≫= new_line)).
Definition section_meaning (s : PatchSection) : PatchFileOp :=
  match s with
  | AddSection path content => AddFile path (concat ((λ l, l ++ [u8 10]) <$> content))
  | DeleteSection path => DeleteFile path
  | UpdateSection path move_to hs => UpdateFile path move_to (hunk_meaning <$> hs)
  end.
(** A carriage return at the end of a content line is read as part of the line end. *)
Definition as_read (s : PatchSection) : PatchSection :=
  match s with AddSection path content => AddSection path (strip_cr <$> content) | _ => s end.

(** The lines the format can carry: a path starts and ends with a visible character; a
    hunk line has no white space at its end, and a context line is not a marker. *)
Definition path_ok (p : bytes) : Prop := p ≠ [] ∧ tight p ∧ no_lf p.
Definition plain_line (l : bytes) : Prop := no_lf l ∧ last l ≠ Some (u8 13).
Definition clean_line (l : bytes) : Prop := no_lf l ∧ str_trim_end l = l.
Definition marker (trimmed : bytes) : bool := ends_update trimmed || bool_decide (trimmed = EOF) || hunk_mark trimmed.
Definition hunk_line_ok (h : HunkLine) : Prop :=
  match h with
  | Context l => clean_line l ∧ marker (bytes_trim l) = false
  | Removed l | Added l => clean_line l
  end.
Definition section_ok (s : PatchSection) : Prop :=
  match s with
  | AddSection path content => path_ok path ∧ Forall no_lf content
  | DeleteSection path => path_ok path
  | UpdateSection path move_to hs =>
      path_ok path ∧ (∀ dest, move_to = Some dest → path_ok dest) ∧
      Forall (λ h, h ≠ [] ∧ Forall hunk_line_ok h) hs ∧ (hs ≠ [] ∨ move_to ≠ None)
  end.

(** ** Header lines *)

Lemma tight_header a h p : solid a = true → path_ok p → tight ((a :: h) ++ p).
Proof.
  intros Ha (Hne&[_ Hl]&_). split; [by intros b [= <-]|]. intros b. rewrite last_app_ne by done. apply Hl.
Qed.
Lemma trim_tight l : tight l → bytes_trim (str_trim_end l) = l.
Proof. intros H. by rewrite str_trim_end_tight, bytes_trim_tight. Qed.
Lemma str_starts_with_strip p l : str_starts_with p l = bool_decide (is_Some (strip_prefix p l)).
Proof.
  unfold str_starts_with, strip_prefix. case_bool_decide; symmetry; [by apply bool_decide_eq_true_2|].
  by apply bool_decide_eq_false_2; intros [? ?].
Qed.
(** A line that ends an update or the content of a new file *)
Definition stop_line (l : bytes) : Prop :=
  str_starts_with (as_bytes "*** ") (bytes_trim l) = true ∧ head (bytes_trim l) = Some (u8 42) ∧
  ends_update (bytes_trim (str_trim_end l)) = true.
Definition stops (ls : list bytes) : Prop := match ls with [] => True | l :: _ => stop_line l end.
Lemma stop_header h p :
  tight ((as_bytes "*** " ++ h) ++ p) → ends_update ((as_bytes "*** " ++ h) ++ p) = true →
  stop_line ((as_bytes "*** " ++ h) ++ p).
Proof.
  intros Ht He. unfold stop_line. rewrite trim_tight, bytes_trim_tight by done. split_and!; [|done|done].
  rewrite <-app_assoc. apply str_starts_with_app.
Qed.
Lemma stop_add p : path_ok p → stop_line (ADD ++ p).
Proof.
  intros H. apply (stop_header (as_bytes "Add File: ")); [by apply tight_header|].
  unfold ends_update. change (as_bytes "*** " ++ as_bytes "Add File: ") with ADD. rewrite str_starts_with_app. by rewrite orb_true_r.
Qed.
Lemma stop_delete p : path_ok p → stop_line (DELETE ++ p).
Proof.
  intros H. apply (stop_header (as_bytes "Delete File: ")); [by apply tight_header|].
  unfold ends_update. change (as_bytes "*** " ++ as_bytes "Delete File: ") with DELETE. rewrite str_starts_with_app.
  by rewrite orb_true_r.
Qed.
Lemma stop_update p : path_ok p → stop_line (UPDATE ++ p).
Proof.
  intros H. apply (stop_header (as_bytes "Update File: ")); [by apply tight_header|].
  unfold ends_update. change (as_bytes "*** " ++ as_bytes "Update File: ") with UPDATE. rewrite str_starts_with_app.
  by rewrite orb_true_r.
Qed.
Lemma render_lines_stops ss : Forall section_ok ss → stops (render_lines ss).
Proof.
  destruct ss as [|[path c|path|path m hs] ss]; intros H; [by vm_compute|..]; apply Forall_cons in H as [H _]; cbn.
  - by apply stop_add, H.
  - by apply stop_delete.
  - apply stop_update. by destruct H.
Qed.

(** ** The loops read back the lines *)

Lemma add_loop_stops i ls content : stops ls → add_loop i ls content = (content, i, ls).
Proof.
  destruct ls as [|l ls]; [done|]. intros (H1&H2&_). cbn [add_loop]. rewrite H1.
  rewrite head_lookup in H2. rewrite (str_starts_with_ne 0 (as_bytes "+")); [done|cbn; lia|]. intros E. by pose proof (eq_trans (eq_sym H2) E).
Qed.
Lemma add_loop_content ls rest i content :
  stops rest →
  add_loop i ((cons (u8 43) <$> ls) ++ rest) content
  = (content ++ concat ((λ l, l ++ [u8 10]) <$> ls), i + length ls, rest).
Proof.
  intros Hs. revert i content. induction ls as [|l ls IH]; intros i content.
  - cbn. rewrite add_loop_stops by done. by rewrite app_nil_r, Nat.add_0_r.
  - cbn [fmap list_fmap app add_loop]. rewrite bytes_trim_solid_cons by done.
    rewrite (str_starts_with_ne 0 (as_bytes "*** ")) by (cbn; done || lia). cbn [andb].
    change (u8 43 :: l) with (as_bytes "+" ++ l). rewrite strip_prefix_app, IH. cbn [concat length].
    rewrite <-!app_assoc. do 2 f_equal. lia.
Qed.
Lemma hunks_flush s :
  hunks (flush s) = hunks s ++ match old_lines s, new_lines s with [], [] => [] | o, n => [mkHunk (bytes_join [u8 10] o) (bytes_join [u8 10] n)] end.
Proof. unfold flush. destruct (old_lines s), (new_lines s); cbn; by rewrite ?app_nil_r. Qed.
Lemma strip_prefix_cons a b l : a ≠ b → strip_prefix [a] (b :: l) = None.
Proof. intros H. apply (strip_prefix_ne 0); [cbn; lia|]. cbn. congruence. Qed.
Lemma marker_ne l : marker l = false → ends_update l = false ∧ l ≠ EOF ∧ hunk_mark l = false.
Proof. unfold marker. rewrite !orb_false_iff, bool_decide_eq_false. tauto. Qed.
Lemma marker_head a l : a ≠ u8 42 → a ≠ u8 64 → marker (a :: l) = false.
Proof.
  intros H1 H2.
  assert (H : ∀ p, head p ≠ Some a → p ≠ [] → str_starts_with p (a :: l) = false).
  { intros [|b p] Hb Hp; [done|]. apply (str_starts_with_ne 0); [cbn; lia|]. cbn in *. congruence. }
  assert (E : ∀ p, head p ≠ Some a → bool_decide (a :: l = p) = false).
  { intros p Hp. apply bool_decide_eq_false_2. by intros <-. }
  assert (S : head EOF ≠ Some a) by (intros [= <-]; done). assert (A : head (as_bytes "@@") ≠ Some a) by (intros [= <-]; done).
  unfold marker, ends_update, hunk_mark, is_lit. by rewrite !H, !E.
Qed.
Section parsed.
Context (debug_str : bytes → bytes).
Abbreviation upd := (update_loop debug_str).

Lemma update_line i h ls s :
  hunk_line_ok h → in_hunk s = true →
  upd i (render_hunk_line h :: ls) s = upd (S i) ls (push_lines (old_line h) (new_line h) s).
Proof.
  intros Hh Hs. destruct h as [l|l|l]; cbn [render_hunk_line update_loop old_line new_line].
  - destruct Hh as [[_ Hl] Hm]. rewrite str_trim_end_cons, Hl by (cbn; lia). destruct (decide (l = [])) as [->|Hne].
    { rewrite bool_decide_eq_true_2 by done. cbn. by rewrite Hs. }
    rewrite bool_decide_eq_false_2 by done. change (bytes_trim (u8 32 :: l)) with (bytes_trim l).
    apply marker_ne in Hm as (->&Hm&->). rewrite bool_decide_eq_false_2 by done.
    change (as_bytes "-") with [u8 45]. change (as_bytes "+") with [u8 43]. rewrite !strip_prefix_cons by done.
    change (u8 32 :: l) with (as_bytes " " ++ l). by rewrite strip_prefix_app.
  - destruct Hh as [_ Hl]. rewrite str_trim_end_solid_cons, Hl by done. rewrite bytes_trim_solid_cons, Hl by done.
    destruct (marker_ne _ (marker_head (u8 45) l ltac:(done) ltac:(done))) as (->&Hm&->). rewrite bool_decide_eq_false_2 by done.
    change (u8 45 :: l) with (as_bytes "-" ++ l). by rewrite strip_prefix_app.
  - destruct Hh as [_ Hl]. rewrite str_trim_end_solid_cons, Hl by done. rewrite bytes_trim_solid_cons, Hl by done.
    destruct (marker_ne _ (marker_head (u8 43) l ltac:(done) ltac:(done))) as (->&Hm&->). rewrite bool_decide_eq_false_2 by done.
    change (as_bytes "-") with [u8 45]. rewrite strip_prefix_cons by done.
    change (u8 43 :: l) with (as_bytes "+" ++ l). by rewrite strip_prefix_app.
Qed.
Lemma push_push o1 n1 o2 n2 s : push_lines o2 n2 (push_lines o1 n1 s) = push_lines (o1 ++ o2) (n1 ++ n2) s.
Proof. unfold push_lines. cbn. by rewrite !app_assoc. Qed.
Lemma update_lines h i ls s :
  Forall hunk_line_ok h → in_hunk s = true →
  upd i ((render_hunk_line <$> h) ++ ls) s = upd (i + length h) ls (push_lines (h ≫= old_line) (h ≫= new_line) s).
Proof.
  intros Hh. revert i s. induction Hh as [|x h Hx Hh IH]; intros i s Hs.
  - cbn. rewrite Nat.add_0_r. f_equal. unfold push_lines. rewrite !app_nil_r. destruct s. cbn in Hs. by subst.
  - cbn [fmap list_fmap app]. rewrite update_line, IH by done. rewrite push_push. f_equal. cbn [length]. lia.
Qed.
Lemma update_stops i ls s : stops ls → upd i ls s = Ok (s, i, ls).
Proof. destruct ls as [|l ls]; [done|]. intros (_&_&H). cbn [update_loop]. by rewrite H. Qed.
Lemma update_open i ls s : upd i (as_bytes "@@" :: ls) s = upd (S i) ls (open_hunk s).
Proof. done. Qed.
(** Between hunks: lines are pending only inside a hunk. *)
Definition calm (s : HunkState) : Prop := in_hunk s = false → old_lines s = [] ∧ new_lines s = [].
Lemma open_hunk_spec s : calm s → open_hunk s = mkHunkState true [] [] (hunks (flush s)).
Proof.
  intros H. unfold open_hunk. destruct s as [b o n hs]. destruct b; cbn in *.
  - unfold flush. by destruct o, n.
  - destruct (H eq_refl) as [E1 E2]. cbn in E1, E2. by subst.
Qed.
Lemma update_hunks hs i ls s :
  Forall (λ h, h ≠ [] ∧ Forall hunk_line_ok h) hs → calm s → stops ls →
  ∃ s' i', upd i (concat (render_hunk <$> hs) ++ ls) s = Ok (s', i', ls) ∧
    hunks (flush s') = hunks (flush s) ++ (hunk_meaning <$> hs).
Proof.
  intros Hh. revert i s. induction Hh as [|h hs [Hne Hh] Hhs IH]; intros i s Hc Hls.
  - exists s, i. split; [by apply update_stops|]. by rewrite app_nil_r.
  - cbn [fmap list_fmap concat]. unfold render_hunk at 1. rewrite <-app_assoc, <-app_comm_cons.
    rewrite update_open, open_hunk_spec, update_lines by done.
    destruct (IH (S i + length h) (push_lines (h ≫= old_line) (h ≫= new_line) (mkHunkState true [] [] (hunks (flush s)))))
      as (s'&i'&H1&H2); [done|done|]. exists s', i'. split; [done|]. rewrite H2, hunks_flush. cbn.
    rewrite <-app_assoc. f_equal.
    unfold hunk_meaning. destruct h as [|[l|l|l] h]; [by destruct Hne|done|done|]. cbn. by destruct (h ≫= old_line).
Qed.
Lemma parse_update_reads path move_to hs i ls :
  path_ok path → (∀ dest, move_to = Some dest → path_ok dest) →
  Forall (λ h, h ≠ [] ∧ Forall hunk_line_ok h) hs → hs ≠ [] ∨ move_to ≠ None → stops ls →
  ∃ i', parse_update debug_str path i (option_list ((λ dest : bytes, MOVE_TO ++ dest) <$> move_to) ++ concat (render_hunk <$> hs) ++ ls)
    = Ok (UpdateFile path move_to (hunk_meaning <$> hs), i', ls).
Proof.
  intros (_&Hp&_) Hm Hh Hne Hls. set (ls0 := concat (render_hunk <$> hs) ++ ls).
  assert (Hmove : ∃ j, (match option_list ((λ dest : bytes, MOVE_TO ++ dest) <$> move_to) ++ ls0 with
    | l :: ls' => match strip_prefix MOVE_TO (bytes_trim l) with Some dest => (Some (bytes_trim dest), S i, ls') | None => (None, i, option_list ((λ dest : bytes, MOVE_TO ++ dest) <$> move_to) ++ ls0) end
    | [] => (None, i, option_list ((λ dest : bytes, MOVE_TO ++ dest) <$> move_to) ++ ls0) end) = (move_to, j, ls0)).
  { destruct move_to as [dest|]; cbn [fmap option_fmap option_map].
    - change (option_list (Some (MOVE_TO ++ dest))) with [MOVE_TO ++ dest]. cbn [app]. specialize (Hm dest eq_refl). rewrite bytes_trim_tight by (by apply tight_header). rewrite strip_prefix_app.
      exists (S i). destruct Hm as (_&Hm&_). by rewrite bytes_trim_tight.
    - exists i. change (option_list None) with (@nil bytes). cbn [app]. subst ls0. destruct Hne as [Hne|]; [|done]. destruct hs as [|h hs]; [done|]. done. }
  destruct Hmove as [j Hj]. unfold parse_update. rewrite Hj.
  destruct (update_hunks hs j ls (mkHunkState false [] [] [])) as (s'&i'&H1&H2); [done|done|done|].
  fold ls0 in H1. exists i'. rewrite H1. cbn [result_bind]. rewrite H2. cbn [flush old_lines new_lines hunks app].
  rewrite bytes_trim_tight by done. destruct Hne as [Hne|Hne].
  - rewrite (bool_decide_eq_false_2 (_ = [])); [done|]. by destruct hs.
  - rewrite (bool_decide_eq_false_2 (_ = None)) by done. by rewrite andb_false_r.
Qed.
Lemma header_line h p : path_ok p → head h = Some (u8 42) → bytes_trim (str_trim_end (h ++ p)) = h ++ p.
Proof. intros Hp Hh. destruct h as [|a h]; [done|]. injection Hh as ->. by apply trim_tight, tight_header. Qed.
Lemma header_ne h p : head h = Some (u8 42) → bool_decide (h ++ p = []) = false.
Proof. intros Hh. apply bool_decide_eq_false_2. by destruct h. Qed.
Lemma sections_reads ss fuel i acc :
  Forall section_ok ss → length (render_lines ss) ≤ fuel →
  sections_loop debug_str fuel i (render_lines ss) acc = Some (Ok (acc ++ (section_meaning <$> ss))).
Proof.
  intros H. revert fuel i acc. induction H as [|s ss Hs H IH]; intros fuel i acc Hf.
  { destruct fuel; [cbn in Hf; lia|]. rewrite app_nil_r. by vm_compute. }
  unfold render_lines in *. cbn [fmap list_fmap concat] in *. rewrite <-app_assoc in *. fold (render_lines ss) in *.
  pose proof (render_lines_stops ss H) as Hst. rewrite length_app in Hf.
  destruct s as [path content|path|path m hs]; cbn [render_section section_meaning app length] in *;
    (destruct fuel as [|fuel]; [lia|]); cbn [sections_loop].
  - destruct Hs as [Hp Hc]. rewrite header_line, header_ne by done. rewrite (str_starts_with_ne 4) by (cbn; done || lia).
    rewrite strip_prefix_app, add_loop_content by done. cbn [app]. destruct Hp as (_&Hp&_). rewrite bytes_trim_tight by done.
    rewrite IH by lia. by rewrite <-app_assoc.
  - pose proof Hs as (_&Hp&_). rewrite header_line, header_ne by done. rewrite !(str_starts_with_ne 4), (strip_prefix_ne 4 ADD) by (cbn; done || lia).
    rewrite strip_prefix_app, bytes_trim_tight by done. rewrite IH by lia. by rewrite <-app_assoc.
  - destruct Hs as (Hp&Hm&Hh&Hne). rewrite header_line, header_ne by done.
    rewrite !(str_starts_with_ne 4), (strip_prefix_ne 4 ADD), (strip_prefix_ne 4 DELETE) by (cbn; done || lia).
    rewrite strip_prefix_app. destruct (parse_update_reads path m hs (S i) (render_lines ss)) as [i' E]; try done.
    rewrite <-app_assoc. match type of E with ?x = _ => change (parse_update _ _ _ _) with x end.
    rewrite E, IH by (rewrite length_app in Hf; lia). by rewrite <-app_assoc.
Qed.
End parsed.

(** ** The whole patch *)

Lemma no_lf_app l l' : no_lf l → no_lf l' → no_lf (l ++ l').
Proof. unfold no_lf. rewrite elem_of_app. tauto. Qed.
Lemma patch_header_plain h p : no_lf h → path_ok p → plain_line (h ++ p).
Proof.
  intros Hh (Hne&[_ Hl]&Hp). split; [by apply no_lf_app|]. rewrite last_app_ne by done.
  intros E. by specialize (Hl _ E).
Qed.
Lemma clean_plain l : clean_line l → plain_line l.
Proof.
  intros [Hl Ht]. split; [done|]. intros E. destruct l as [|x l _] using rev_ind; [done|]. rewrite last_snoc in E. injection E as ->.
  rewrite str_trim_end_snoc in Ht by done.
  apply (f_equal length) in Ht. rewrite length_app in Ht. pose proof (str_trim_end_length l). cbn in Ht. lia.
Qed.
(** The line as it is read back: it has no line feed, is not empty, and comes back as
    [l'] without its carriage return. *)
Definition reads_as (l l' : bytes) : Prop := no_lf l ∧ l ≠ [] ∧ strip_cr l = l'.
Lemma plain_strip l : plain_line l → strip_cr l = l.
Proof.
  intros [_ Hl]. unfold strip_cr. destruct (last l) as [b|]; [|done]. case_match eqn:E; [|done].
  apply N.eqb_eq in E. destruct Hl. by rewrite <-(u8_byte b), E.
Qed.
Lemma plain_reads l : plain_line l → l ≠ [] → reads_as l l.
Proof. intros Hp Hne. split_and!; [apply Hp|done|by apply plain_strip]. Qed.
Lemma strip_cr_cons a l : a ≠ u8 13 → strip_cr (a :: l) = a :: strip_cr l.
Proof.
  intros Ha. destruct l as [|b l]; unfold strip_cr.
  - cbn. case_match eqn:E; [|done]. apply N.eqb_eq in E. destruct Ha. by rewrite <-(u8_byte a), E.
  - change (last (a :: b :: l)) with (last (b :: l)). destruct (last (b :: l)) as [c|]; [|done]. by destruct (is_byte 13 c).
Qed.
Lemma reads_forall ls ls' : Forall2 reads_as ls ls' →
  Forall no_lf ls ∧ strip_cr <$> ls = ls'.
Proof. induction 1 as [|l l' ls ls' (H1 & _ & H2) _ [IH1 IH2]]; [done|]. split; [by constructor|]. cbn. by rewrite H2, IH2. Qed.
(** The lines of joined lines lose their carriage returns, but the last. *)
Lemma lines_joined ls l : Forall no_lf ls → last ls = Some l → l ≠ [] → strip_cr l = l → lines (bytes_join [u8 10] ls) = strip_cr <$> ls.
Proof.
  intros H Hl Hne Hcr. unfold lines. rewrite split_on_join by (done || by intros ->).
  destruct ls as [|x ls _] using rev_ind; [done|]. rewrite last_snoc in Hl. injection Hl as ->.
  rewrite rev_app_distr, fmap_app. cbn [rev app fmap list_fmap]. rewrite Hcr. f_equal; [|by destruct l].
  rewrite <-(rev_involutive ls) at 2. generalize (rev ls). intros k. induction k as [|y k IH]; [done|].
  cbn. by rewrite fmap_app, IH.
Qed.
Lemma header_ok h p : no_lf h → h ≠ [] → path_ok p → reads_as (h ++ p) (h ++ p).
Proof. intros Hh Hn Hp. apply plain_reads; [by apply patch_header_plain|]. by destruct h. Qed.
Lemma no_lf_check h : forallb (λ b, negb (is_lf b)) h = true → no_lf h.
Proof. intros H Hin. rewrite forallb_forall in H. by specialize (H _ (proj1 (list_elem_of_In _ _) Hin)). Qed.
Lemma cons_plain a l : a ≠ u8 10 → a ≠ u8 13 → plain_line l → plain_line (a :: l).
Proof.
  intros H1 H2 [Hl Hc]. split; [unfold no_lf in *; rewrite elem_of_cons; naive_solver|]. by destruct l; [intros [= ?]|].
Qed.
Lemma hunk_line_plain h : hunk_line_ok h → reads_as (render_hunk_line h) (render_hunk_line h).
Proof.
  intros H. destruct h as [l|l|l]; (apply plain_reads; [|done]); apply cons_plain; try done; apply clean_plain; [by destruct H|done|done].
Qed.
Lemma section_lines_ok s : section_ok s → Forall2 reads_as (render_section s) (render_section (as_read s)).
Proof.
  destruct s as [path content|path|path m hs]; cbn [section_ok as_read render_section].
  - intros [Hp Hc]. constructor; [by apply header_ok; [apply no_lf_check|..]|]. rewrite <- list_fmap_compose.
    induction Hc as [|l content Hl Hc IH]; [constructor|]. constructor; [|done]. split_and!; [|done|by apply strip_cr_cons].
    unfold no_lf in *. rewrite elem_of_cons. naive_solver.
  - intros Hp. constructor; [by apply header_ok; [apply no_lf_check|..]|done].
  - intros (Hp&Hm&Hh&_). constructor; [by apply header_ok; [apply no_lf_check|..]|]. apply Forall2_app.
    + destruct m as [dest|]; [|constructor]. constructor; [|constructor]. by apply header_ok; [apply no_lf_check|..|apply Hm].
    + induction Hh as [|h hs [_ Hl] Hh IH]; [constructor|]. cbn. constructor; [by apply plain_reads; [split; [apply no_lf_check|]|]|].
      apply Forall2_app; [|done]. induction Hl as [|x h Hx Hl IHl]; constructor; [by apply hunk_line_plain|done].
Qed.
Lemma render_lines_ok ss : Forall section_ok ss → Forall2 reads_as (BEGIN :: render_lines ss) (BEGIN :: render_lines (as_read <$> ss)).
Proof.
  intros H. constructor; [by apply plain_reads; [split; [apply no_lf_check|]|]|]. apply Forall2_app.
  - induction H as [|s ss Hs H IH]; [constructor|]. cbn. apply Forall2_app; [by apply section_lines_ok|done].
  - constructor; [by apply plain_reads; [split; [apply no_lf_check|]|]|constructor].
Qed.
Lemma as_read_ok ss : Forall section_ok ss → Forall section_ok (as_read <$> ss).
Proof.
  intros H. apply Forall_fmap. eapply Forall_impl; [exact H|]. intros [path content| |]; try done. intros [Hp Hc]. split; [done|].
  apply Forall_fmap. eapply Forall_impl; [exact Hc|]. intros l Hl. cbn. unfold strip_cr. destruct (last l); [|done]. case_match; [|done].
  intros Hin. apply Hl. destruct l as [|x l _] using rev_ind; [done|]. rewrite removelast_last in Hin. rewrite elem_of_app. by left.
Qed.
Lemma skip_environment i ss :
  Forall section_ok ss → skip_line (str_starts_with (as_bytes "*** Environment ID:")) i (render_lines ss) = (i, render_lines ss).
Proof.
  destruct ss as [|s ss]; intros H; [done|]. apply Forall_cons in H as [H _]. unfold render_lines. cbn [fmap list_fmap concat].
  destruct s as [path c|path|path m hs]; cbn [render_section app skip_line].
  - rewrite bytes_trim_tight by (apply tight_header; [done|apply H]). by rewrite (str_starts_with_ne 4) by (cbn; done || lia).
  - rewrite bytes_trim_tight by (apply tight_header; [done|apply H]). by rewrite (str_starts_with_ne 4) by (cbn; done || lia).
  - destruct H as [H _]. rewrite bytes_trim_tight by by apply tight_header. by rewrite (str_starts_with_ne 4) by (cbn; done || lia).
Qed.
(** C33. A patch written in the freeform format is read back as what it says: files added
    with any lines of content (a carriage return at the end of a line is dropped, so
    CRLF content arrives with plain line feeds), deletions, and updates with optional
    renames whose hunks mix context, removed and added lines.  Paths are not empty and
    begin and end with a visible character; no line holds a line feed; a hunk is not
    empty, its lines end without white space, and no context line is itself a marker of
    the format; an update has a hunk or a rename. *)
Theorem patch_roundtrip debug ss :
  ss ≠ [] → Forall section_ok ss →
  parse_freeform_patch debug (render_patch ss) = Some (Ok (mkPatch (section_meaning <$> (as_read <$> ss)))).
Proof.
  intros Hne Hok. destruct (reads_forall _ _ (render_lines_ok ss Hok)) as [Hlf Hread].
  set (ls := BEGIN :: render_lines ss) in *. unfold parse_freeform_patch, render_patch. fold ls.
  assert (Hlast : last ls = Some END) by (unfold ls, render_lines; by rewrite app_comm_cons, last_snoc).
  destruct (bytes_join [u8 10] ls) as [|a j] eqn:Ej.
  { exfalso. by eapply bytes_join_ne; [exact Hlast|done|exact Ej]. }
  assert (Ea : a = u8 42).
  { revert Ej. unfold ls, render_lines. destruct (concat (render_section <$> ss) ++ [END]) as [|x l] eqn:E; [by destruct (concat (render_section <$> ss))|].
    rewrite bytes_join_cons. intros E'. by injection E' as <-. }
  assert (Ht : tight (a :: j)).
  { split; [by intros b [= <-]; rewrite Ea|]. intros b. rewrite <-Ej, (bytes_join_last _ _ _ Hlast) by done. by intros [= <-]. }
  cbn [app]. rewrite bytes_trim_snoc, bytes_trim_tight by (done || by rewrite Ea).
  assert (Hf : strip_fences (a :: j) = a :: j).
  { unfold strip_fences. rewrite bytes_trim_tight by done. rewrite (str_starts_with_ne 0); [done|cbn; lia|by rewrite Ea]. }
  rewrite Hf, <-Ej, (lines_joined ls END Hlf Hlast), Hread by done.
  change (skip_line (str_starts_with BEGIN) 0 (BEGIN :: render_lines (as_read <$> ss))) with (1, render_lines (as_read <$> ss)).
  cbv beta iota zeta. pose proof (as_read_ok ss Hok).
  rewrite skip_environment, sections_reads by (done || lia). cbn. by destruct ss.
Qed.

(** ** Every input is answered *)

(** Positions and remaining lines add up to the [n] lines of the input. *)
Lemma add_loop_position n i ls content :
  i + length ls = n → let '(_, i', ls') := add_loop i ls content in i' + length ls' = n ∧ length ls' ≤ length ls.
Proof.
  revert i content. induction ls as [|l ls IH]; intros i content Hn; cbn [add_loop length] in *; [done|].
  assert (HS : ∀ c, let '(_, i', ls') := add_loop (S i) ls c in i' + length ls' = n ∧ length ls' ≤ S (length ls)).
  { intros c. specialize (IH (S i) c ltac:(lia)). destruct (add_loop (S i) ls c) as [[c' i'] ls']. lia. }
  destruct (_ && _); [done|]. destruct (strip_prefix _ l); [apply HS|]. destruct (str_starts_with _ l); [done|apply HS].
Qed.
Lemma update_loop_position debug n i ls s :
  i + length ls = n →
  match update_loop debug i ls s with
  | Ok (_, i', ls') => i' + length ls' = n ∧ length ls' ≤ length ls
  | Err e => ∀ k, error_line e = Some k → i < k ≤ n
  end.
Proof.
  revert i s. induction ls as [|l ls IH]; intros i s Hn; cbn [update_loop length] in *; [done|].
  assert (HS : ∀ s, match update_loop debug (S i) ls s with
    | Ok (_, i', ls') => i' + length ls' = n ∧ length ls' ≤ S (length ls)
    | Err e => ∀ k, error_line e = Some k → i < k ≤ n end).
  { intros s'. specialize (IH (S i) s' ltac:(lia)). destruct (update_loop debug (S i) ls s') as [[[s1 i'] ls']|e]; [lia|].
    intros k Hk%IH. lia. }
  destruct (ends_update _); [done|]. destruct (bool_decide (_ = EOF)); [apply HS|]. destruct (hunk_mark _); [apply HS|].
  do 3 (destruct (strip_prefix _ _); [apply HS|]). destruct (bool_decide _); [apply HS|]. intros k [= <-]. lia.
Qed.
Definition op_complete (op : PatchFileOp) : Prop :=
  match op with UpdateFile _ move_to hs => hs ≠ [] ∨ move_to ≠ None | _ => True end.
Lemma parse_update_position debug path n i ls :
  0 < i → i + length ls = n →
  match parse_update debug path i ls with
  | Ok (op, i', ls') => op_complete op ∧ i' + length ls' = n ∧ length ls' ≤ length ls
  | Err e => ∀ k, error_line e = Some k → 0 < k ≤ n
  end.
Proof.
  intros Hi Hn. unfold parse_update.
  set (m := match ls with [] => _ | _ => _ end).
  assert (Hm : let '(_, j, ls') := m in i ≤ j ∧ j + length ls' = n ∧ length ls' ≤ length ls).
  { subst m. destruct ls as [|l ls]; [done|]. cbn [length] in *. destruct (strip_prefix _ _); cbn [length]; lia. }
  destruct m as [[move_to j] ls1]. pose proof (update_loop_position debug n j ls1 (mkHunkState false [] [] []) (proj1 (proj2 Hm))) as Hu.
  destruct (update_loop debug j ls1 _) as [[[s i'] ls']|e]; cbn [result_bind].
  2: { intros k Hk%Hu. lia. }
  destruct (bool_decide (_ = []) && _) eqn:E.
  - intros k [= <-]. lia.
  - split; [|lia]. apply andb_false_iff in E as [E|E]; apply bool_decide_eq_false in E; [by left|by right].
Qed.
Lemma sections_position debug fuel n i ls acc :
  length ls < fuel → i + length ls = n → Forall op_complete acc →
  ∃ r, sections_loop debug fuel i ls acc = Some r ∧
    match r with Ok fs => Forall op_complete fs | Err e => ∀ k, error_line e = Some k → 0 < k ≤ n end.
Proof.
  revert i ls acc. induction fuel as [|fuel IH]; intros i ls acc Hf Hn Ha; [lia|].
  destruct ls as [|l ls]; cbn [sections_loop length] in *; [by eexists|].
  destruct (bool_decide _); [apply IH; [lia|lia|done]|]. destruct (str_starts_with END _); [by eexists|]. destruct (strip_prefix ADD _).
  { pose proof (add_loop_position n (S i) ls [] ltac:(lia)) as Hp. destruct (add_loop (S i) ls []) as [[c j] ls'].
    apply IH; [lia|lia|]. apply Forall_app. by split; [|constructor]. }
  destruct (strip_prefix DELETE _). { apply IH; [lia|lia|]. apply Forall_app. by split; [|constructor]. }
  destruct (strip_prefix UPDATE _) as [b|]; [|eexists; split; [done|]; intros k [= <-]; lia].
  pose proof (parse_update_position debug b n (S i) ls ltac:(lia) ltac:(lia)) as Hp.
  destruct (parse_update debug b (S i) ls) as [[[op j] ls']|e]; [|by eexists]. destruct Hp as (?&?&?).
  apply IH; [lia|lia|]. apply Forall_app. by split; [|constructor].
Qed.
(** The parser answers every input: with one file at least, where every update has
    hunks or a new name, or with an error at a line the input has. *)
Theorem patch_parse_total debug input :
  ∃ r, parse_freeform_patch debug input = Some r ∧
    match r with
    | Ok p => files p ≠ [] ∧ Forall op_complete (files p)
    | Err e => ∀ k, error_line e = Some k → 0 < k ≤ length (lines (strip_fences (bytes_trim input)))
    end.
Proof.
  unfold parse_freeform_patch. set (ls := lines _). destruct ls as [|l ls'] eqn:E; [by eexists|]. rewrite <-E. clear E l ls'.
  assert (Hskip : ∀ p i ls0, let '(i', ls1) := skip_line p i ls0 in i' + length ls1 = i + length ls0).
  { intros p i [|l ls0]; cbn [skip_line]; [done|]. destruct (p _); cbn [length]; lia. }
  pose proof (Hskip (str_starts_with BEGIN) 0 ls) as H1. destruct (skip_line _ 0 ls) as [i1 ls1].
  pose proof (Hskip (str_starts_with (as_bytes "*** Environment ID:")) i1 ls1) as H2. destruct (skip_line _ i1 ls1) as [i2 ls2].
  cbv beta iota in H1, H2. clearbody ls.
  destruct (sections_position debug (S (length ls2)) (length ls) i2 ls2 []) as (r&->&Hr); [lia|lia|constructor|].
  cbn [mbind option_bind]. eexists. split; [done|]. destruct r as [[|f fs]|e]; cbn [result_bind]; [done| |done].
  by split.
Qed.

(** ** Witnesses *)

Definition sample_patch : list PatchSection :=
  [AddSection (as_bytes "new.txt") [as_bytes "hello"; []];
   UpdateSection (as_bytes "src/foo.rs") (Some (as_bytes "src/bar.rs"))
     [[Context (as_bytes "fn a() {"); Removed (as_bytes "    old();"); Added (as_bytes "    new();"); Context []]; [Added (as_bytes "x")]];
   DeleteSection (as_bytes "gone.txt")].
Lemma patch_roundtrip_witness : parse_freeform_patch id (as_bytes "*** Begin Patch
*** Add File: new.txt
+hello
+
*** Update File: src/foo.rs
*** Move to: src/bar.rs
@@
 fn a() {
-    old();
+    new();
 
@@
+x
*** Delete File: gone.txt
*** End Patch
") = Some (Ok (mkPatch (section_meaning <$> (as_read <$> sample_patch)))).
Proof.
  change (as_bytes _) with (render_patch sample_patch). apply (patch_roundtrip id sample_patch); [done|].
  assert (Hp : ∀ p, forallb solid p && negb (bool_decide (p = [])) = true → path_ok p).
  { intros p. rewrite andb_true_iff, negb_true_iff, bool_decide_eq_false, forallb_forall. intros [H Hne].
    assert (Hs : Forall (λ b, solid b = true) p) by (apply Forall_forall; intros b Hb; by apply H, list_elem_of_In).
    split_and!; [done|by apply solid_tight|]. intros Hin. rewrite Forall_forall in Hs. by specialize (Hs _ Hin). }
  assert (Hd : ∀ dest, Some (as_bytes "src/bar.rs") = Some dest → path_ok dest) by (intros dest [= <-]; by apply Hp).
  repeat first [apply Hp; reflexivity|exact Hd|apply no_lf_check; reflexivity|constructor|done].
Defined.
