(* ===== verification/PathGuard.v ===== *)
(** The write-root guard (agent/nomi-tools/src/path_guard.rs) over an interface for
    the file system: what the guard accepts lies inside the root. *)
From S2P Require Import Prelude Bytes Text UnixPath CodingText.

(** ** The file system

    [std::fs] on some state of the disk; a failure is the text of its error. *)
Class FileSystem (FS : Type) := {
  fs_exists : FS → bytes → bool;
  fs_is_dir : FS → bytes → bool;
  fs_canonicalize : FS → bytes → option bytes;
  fs_read_to_string : FS → bytes → result bytes bytes;
  (** [file_mtime_ms]: metadata, modification time, milliseconds since the epoch *)
  fs_mtime_ms : FS → bytes → option N;
  fs_write : FS → bytes → bytes → FS * result unit bytes;
  fs_rename : FS → bytes → bytes → FS * result unit bytes;
  fs_remove_file : FS → bytes → FS * result unit bytes;
  fs_create_dir_all : FS → bytes → FS * result unit bytes;
}.
(** [canonicalize] returns an absolute path. *)
Class CanonicalizeLaw (FS : Type) `{FileSystem FS} :=
  canonicalize_absolute fs path c : fs_canonicalize fs path = Some c → is_absolute c = true.

Section guard.
Context {FS : Type} `{FileSystem FS}.

(** ** Containment *)

(** Each round goes to a shorter path, so its length is fuel enough. *)
Fixpoint resolve_loop (fuel : nat) (fs : FS) (cur : bytes) (tail : list bytes) : option bytes :=
  match fuel with
  | 0 => None
  | S fuel =>
      parent ← path_parent cur;
      name ← file_name cur;
      match fs_canonicalize fs parent with
      | Some c => Some (foldl path_join c (name :: tail))
      | None => resolve_loop fuel fs parent (name :: tail)
      end
  end.
(** [tail] is kept in path order here; the code collects it in reverse. *)
Definition resolve_existing_prefix (fs : FS) (path : bytes) : option bytes :=
  match fs_canonicalize fs path with
  | Some c => Some c
  | None => resolve_loop (S (length path)) fs path []
  end.
Definition is_within_root (fs : FS) (path root : bytes) : bool :=
  match fs_canonicalize fs root with
  | None => false
  | Some root_c =>
      match resolve_existing_prefix fs path with
      | Some target_c => path_starts_with target_c root_c
      | None => false
      end
  end.
Definition resolve_against_cwd (file_path : bytes) (cwd : option bytes) : bytes :=
  match cwd with
  | Some cwd => if is_absolute file_path then file_path else path_join cwd file_path
  | None => file_path
  end.
(** [PathBuf::pop] and the lexical normal form *)
Definition path_pop (path : bytes) : bytes := default path (path_parent path).
Definition normalize_lexical (path : bytes) : bytes :=
  foldl (λ out c, match c with ParentDir => path_pop out | CurDir => out | _ => path_push out c end) [] (components path).
Definition lexical_is_within (path root : bytes) : bool :=
  path_starts_with (normalize_lexical path) (normalize_lexical root).
Definition explore_contained (fs : FS) (path root : bytes) : bool :=
  if is_within_root fs path root then true
  else if fs_exists fs root then false else lexical_is_within path root.
Definition explore_refusal (requested cwd : bytes) : bytes :=
  as_bytes "Explore path '" ++ requested
  ++ as_bytes "' is outside the session workspace and allowed skill trees. Stay under '" ++ cwd
  ++ as_bytes "' (workspace) or a builtin/user skill directory. Listing the application data root is not allowed.".
Definition resolve_explore_path (fs : FS) (requested cwd : bytes) (extra_roots : list bytes) : result bytes bytes :=
  let resolved := resolve_against_cwd requested (Some cwd) in
  if explore_contained fs resolved cwd then Ok resolved
  else if existsb (λ root, fs_is_dir fs root && is_within_root fs resolved root) extra_roots then Ok resolved
  else Err (explore_refusal resolved cwd).
Definition format_file_read_error (fs : FS) (file_path err : bytes) : bytes :=
  if fs_is_dir fs file_path then
    as_bytes "Failed to read file '" ++ file_path ++ as_bytes "': it is a directory, not a file"
  else as_bytes "Failed to read file '" ++ file_path ++ as_bytes "': " ++ err.
Definition ensure_within_root_ex (fs : FS) (file_path : bytes) (root : option bytes) (coding_boundary : bool) : option bytes :=
  root ← root;
  if is_within_root fs file_path root then None
  else if coding_boundary then Some (format_write_root_rejection file_path root)
  else Some (as_bytes "Write rejected: " ++ file_path ++ as_bytes " is outside the allowed write root " ++ root
             ++ text [". Recovery: use a path under that root (relative to the session working directory). ";
                      "Bash is not blocked by this guard — prefer Write/Edit/ApplyPatch for file changes. ";
                      "(Only disable tools.write_root if you intentionally need unrestricted writes.)"]).
Definition ensure_within_root (fs : FS) (file_path : bytes) (root : option bytes) : option bytes :=
  ensure_within_root_ex fs file_path root false.

(** ** Lemmas *)

(** The [k]th ancestor of a path *)
Fixpoint ancestor (k : nat) (path : bytes) : option bytes :=
  match k with 0 => Some path | S k => path_parent path ≫= ancestor k end.
(** [anc] is the nearest ancestor that the file system can resolve, to [c]; [names] are
    the plain names behind it. *)
Definition nearest (fs : FS) (path anc c : bytes) (names : list bytes) : Prop :=
  ancestor (length names) path = Some anc ∧ components path = components anc ++ (Normal <$> names) ∧
  fs_canonicalize fs anc = Some c ∧
  ∀ j a, j < length names → ancestor j path = Some a → fs_canonicalize fs a = None.
Lemma nearest_here fs path c : fs_canonicalize fs path = Some c → nearest fs path path c [].
Proof. intros Hc. split_and!; [done|by rewrite app_nil_r|done|]. cbn. lia. Qed.
Lemma nearest_none fs path anc c names name :
  nearest fs path anc c (names ++ [name]) → fs_canonicalize fs path = None.
Proof. intros (_ & _ & _ & Hn). apply (Hn 0 path); [rewrite length_app; cbn; lia|done]. Qed.
(** One step up *)
Lemma nearest_parent fs path parent anc c names name :
  fs_canonicalize fs path = None → path_parent path = Some parent →
  nearest fs path anc c (names ++ [name]) ↔ nearest fs parent anc c names ∧ file_name path = Some name.
Proof.
  intros Hcan Hp. pose proof (path_parent_spec _ _ Hp) as (_ & k & Hk & _). unfold nearest, file_name.
  rewrite length_app, Nat.add_comm. cbn [length plus ancestor]. rewrite Hp. cbn [mbind option_bind]. rewrite Hk, last_snoc, fmap_app, app_assoc.
  split.
  - intros (Ha & [Hc ->]%app_inj_tail & Hr & Hn). split_and!; [done|done|done| |done].
    intros j a Hj Hja. apply (Hn (S j) a); [lia|]. cbn. by rewrite Hp.
  - intros [(Ha & Hc & Hr & Hn) Hl]. destruct k; try done. injection Hl as ->. split_and!; [done|by rewrite Hc|done|].
    intros [|j] a Hj; cbn; [by intros [= <-]|]. rewrite Hp. apply Hn. lia.
Qed.
Lemma resolve_loop_spec fuel fs cur tail r :
  length cur < fuel → fs_canonicalize fs cur = None →
  resolve_loop fuel fs cur tail = Some r ↔ ∃ anc c names, nearest fs cur anc c names ∧ r = foldl path_join c (names ++ tail).
Proof.
  revert cur tail. induction fuel as [|fuel IH]; intros cur tail Hf Hcan; [lia|]. cbn [resolve_loop].
  assert (Hlast : ∀ anc c names, nearest fs cur anc c names → ∃ parent ns n, path_parent cur = Some parent ∧ names = ns ++ [n]).
  { intros anc c names (Ha & Hc & Hr & Hn). destruct names as [|n ns _] using rev_ind; [cbn in Ha; congruence|].
    rewrite length_app, Nat.add_comm in Ha. cbn in Ha. destruct (path_parent cur) as [parent|]; [|done]. by exists parent, ns, n. }
  destruct (path_parent cur) as [parent|] eqn:Hp; cbn [mbind option_bind].
  2: { split; [done|]. intros (anc & c & names & Hn & _). by destruct (Hlast _ _ _ Hn) as (? & ? & ? & ? & _). }
  destruct (path_parent_spec _ _ Hp) as [Hlen _].
  transitivity (∃ name anc c names, file_name cur = Some name ∧ nearest fs parent anc c names ∧ r = foldl path_join c (names ++ name :: tail)).
  - destruct (file_name cur) as [name|]; cbn [mbind option_bind].
    2: { split; [done|]. by intros (? & ? & ? & ? & ? & _). }
    destruct (fs_canonicalize fs parent) as [cp|] eqn:E.
    + split.
      * intros [= <-]. exists name, parent, cp, []. split_and!; [done|by apply nearest_here|done].
      * intros (n & anc & c & names & [= <-] & Hn & ->). destruct names as [|n' ns _] using rev_ind.
        -- destruct Hn as (Ha & _ & Hc & _). cbn in Ha. injection Ha as <-. rewrite E in Hc. by injection Hc as ->.
        -- apply nearest_none in Hn. congruence.
    + rewrite (IH parent (name :: tail)) by (done || lia). split.
      * intros (anc & c & names & Hn & ->). by exists name, anc, c, names.
      * intros (n & anc & c & names & [= <-] & Hn & ->). by exists anc, c, names.
  - split.
    + intros (name & anc & c & names & Hn & Hnear & ->). exists anc, c, (names ++ [name]).
      split; [by apply (nearest_parent fs cur parent)|by rewrite <- app_assoc].
    + intros (anc & c & names & Hn & ->). destruct (Hlast _ _ _ Hn) as (_ & ns & n & _ & ->).
      apply (nearest_parent fs cur parent) in Hn as [Hn Hl]; [|done|done]. exists n, anc, c, ns.
      split_and!; [done|done|by rewrite <- app_assoc].
Qed.
Lemma resolve_existing_prefix_spec fs path r :
  resolve_existing_prefix fs path = Some r ↔ ∃ anc c names, nearest fs path anc c names ∧ r = foldl path_join c names.
Proof.
  unfold resolve_existing_prefix. destruct (fs_canonicalize fs path) as [c|] eqn:E.
  - split; [intros [= <-]; exists path, c, []; split; [by apply nearest_here|done]|].
    intros (anc & c' & names & Hn & ->). destruct names as [|n ns _] using rev_ind; [|apply nearest_none in Hn; congruence].
    destruct Hn as (Ha & _ & Hc & _). cbn in Ha. injection Ha as <-. by rewrite E in Hc; injection Hc as ->.
  - rewrite resolve_loop_spec by (done || lia). by setoid_rewrite app_nil_r.
Qed.
Lemma nearest_names fs path anc c names : nearest fs path anc c names → Forall is_name names.
Proof.
  intros (_ & Hb & _). apply Forall_forall. intros name Hn. apply (components_names path). rewrite Hb, elem_of_app. right.
  by apply list_elem_of_fmap_2.
Qed.

(** C32. What the write-root guard accepts.  It accepts a path exactly if the root can be
    resolved, the path is its nearest ancestor that can be resolved -- the path itself if
    possible -- followed by plain names, never [..], and that ancestor's canonical form
    with these names extends the canonical root, whatever symbolic links, dots or doubled
    separators the path is spelled with.  (A symbolic link whose target does not exist
    cannot be resolved and counts as a plain name.) *)
Theorem write_root_containment `{!CanonicalizeLaw FS} fs path root coding :
  ensure_within_root_ex fs path (Some root) coding = None ↔
  ∃ root_c k anc c names rest,
    fs_canonicalize fs root = Some root_c ∧ k = length names ∧
    ancestor k path = Some anc ∧ fs_canonicalize fs anc = Some c ∧
    (∀ j a, j < k → ancestor j path = Some a → fs_canonicalize fs a = None) ∧
    components path = components anc ++ (Normal <$> names) ∧
    components c ++ (Normal <$> names) = components root_c ++ rest.
Proof.
  transitivity (is_within_root fs path root = true).
  { unfold ensure_within_root_ex. cbn [mbind option_bind]. destruct (is_within_root fs path root); [done|]. by destruct coding. }
  unfold is_within_root. destruct (fs_canonicalize fs root) as [root_c|].
  2: { split; [done|]. by intros (? & ? & ? & ? & ? & ? & ? & _). }
  transitivity (∃ anc c names, nearest fs path anc c names ∧ path_starts_with (foldl path_join c names) root_c = true).
  { pose proof (resolve_existing_prefix_spec fs path) as Hs. destruct (resolve_existing_prefix fs path) as [target|].
    - destruct (proj1 (Hs target) eq_refl) as (anc & c & names & Hn & ->). split; [by exists anc, c, names|].
      intros (anc' & c' & names' & Hn' & Hr). pose proof (proj2 (Hs _) (ex_intro _ anc' (ex_intro _ c' (ex_intro _ names' (conj Hn' eq_refl))))) as He.
      by injection He as ->.
    - split; [done|]. intros (anc & c & names & Hn & _). symmetry. exfalso.
      by pose proof (proj2 (Hs _) (ex_intro _ anc (ex_intro _ c (ex_intro _ names (conj Hn eq_refl))))). }
  assert (Hj : ∀ anc c names, nearest fs path anc c names →
    path_starts_with (foldl path_join c names) root_c = true ↔ ∃ rest, components c ++ (Normal <$> names) = components root_c ++ rest).
  { intros anc c names Hn. pose proof (nearest_names _ _ _ _ _ Hn) as Hnames. destruct Hn as (_ & _ & Hc & _).
    pose proof (canonicalize_absolute fs anc c Hc). rewrite path_starts_with_spec, components_joins; [done|by destruct c|done]. }
  unfold nearest in *. split.
  - intros (anc & c & names & Hn & Hr). apply (Hj _ _ _ Hn) in Hr as [rest Hr]. destruct Hn as (? & ? & ? & ?).
    by exists root_c, (length names), anc, c, names, rest.
  - intros (? & k & anc & c & names & rest & [= <-] & -> & Ha & Hc & Hn & Hb & Hr). exists anc, c, names.
    split; [done|]. apply (Hj anc); [done|by exists rest].
Qed.
End guard.

(** ** A disk in memory *)

Record MemDisk := mkDisk { mem_files : list (bytes * (bytes * N)); mem_clock : N }.
Definition mem_find (path : bytes) (d : MemDisk) : option (bytes * N) :=
  snd <$> head (filter (λ e, e.1 = path) (mem_files d)).
Definition mem_drop (path : bytes) (d : MemDisk) : list (bytes * (bytes * N)) := filter (λ e, e.1 ≠ path) (mem_files d).
Definition no_file : bytes := as_bytes "No such file or directory (os error 2)".
#[export] Instance MemDisk_ops : FileSystem MemDisk := {
  fs_exists d path := bool_decide (is_Some (mem_find path d));
  fs_is_dir _ _ := false;
  fs_canonicalize d path :=
    if is_absolute path && existsb (λ e, path_starts_with e.1 path) (mem_files d) then Some path else None;
  fs_read_to_string d path := match mem_find path d with Some (c, _) => Ok c | None => Err no_file end;
  fs_mtime_ms d path := snd <$> mem_find path d;
  fs_write d path c := (mkDisk ((path, (c, mem_clock d)) :: mem_drop path d) (mem_clock d + 1), Ok tt);
  fs_rename d from to :=
    match mem_find from d with
    | Some e => (mkDisk ((to, e) :: filter (λ e, e.1 ≠ to) (mem_drop from d)) (mem_clock d), Ok tt)
    | None => (d, Err no_file)
    end;
  fs_remove_file d path :=
    match mem_find path d with Some _ => (mkDisk (mem_drop path d) (mem_clock d), Ok tt) | None => (d, Err no_file) end;
  fs_create_dir_all d _ := (d, Ok tt);
}.
#[export] Instance MemDisk_law : CanonicalizeLaw MemDisk.
Proof. intros d path c. cbn. destruct (is_absolute path) eqn:E; cbn; [|done]. case_match; [by intros [= <-]|done]. Qed.

(** ** Witnesses *)

Definition one_file : MemDisk := mkDisk [(as_bytes "/ws/a.txt", (as_bytes "one
two
", 5%N))] 10.
Lemma write_root_containment_witness :
  ensure_within_root_ex one_file (as_bytes "/ws//new/./b.txt") (Some (as_bytes "/ws")) false = None ∧
  ensure_within_root_ex one_file (as_bytes "/ws/new/../../b.txt") (Some (as_bytes "/ws")) false ≠ None.
Proof.
  split; [|vm_compute; discriminate].
  apply (write_root_containment one_file (as_bytes "/ws//new/./b.txt") (as_bytes "/ws") false).
  exists (as_bytes "/ws"), 2, (as_bytes "/ws"), (as_bytes "/ws"), [as_bytes "new"; as_bytes "b.txt"], [Normal (as_bytes "new"); Normal (as_bytes "b.txt")].
  split; [vm_compute; reflexivity|]. split; [reflexivity|]. split; [vm_compute; reflexivity|]. split; [vm_compute; reflexivity|].
  split; [|split; vm_compute; reflexivity].
  intros [|[|j]] a Hj Ha; [..|lia]; vm_compute in Ha; injection Ha as <-; vm_compute; reflexivity.
Defined.
