(* ===== verification/FileTools.v ===== *)
(** The file editing tools of agent/nomi-tools: Write (write.rs), Edit (edit.rs) and
    ApplyPatch (apply_patch.rs), on the disk and the cache of file states.  [None] is
    a panic.  Their results carry no images. *)
From S2P Require Import Prelude Bytes Text Json CodingText Anchors EditOps UnixPath FileCache PatchParse PathGuard.

(** The file cache is missing, too, when its lock is poisoned: every tool treats the
    two alike. *)
Record World (FS C : Type) := mkWorld { disk : FS; cache : option (FileStateCache C); tmp_seq : N }.
Arguments mkWorld {FS C}.
Arguments disk {FS C}.
Arguments cache {FS C}.
Arguments tmp_seq {FS C}.
Record ToolConfig := mkTool { tool_write_root : option bytes; tool_cwd : option bytes; tool_coding_boundary : bool }.
Record ToolResult := mkResult { content : bytes; is_error : bool }.
Definition err (msg : bytes) : ToolResult := mkResult msg true.

Section tools.
Context {FS C Num : Type} `{FileSystem FS} `{Lru C}.
(** The [Debug] form of strings, and the process id *)
Context (debug_str : bytes → bytes) (pid : N).
Abbreviation World := (World FS C).

Definition set_disk (d : FS) (w : World) : World := mkWorld d (cache w) (tmp_seq w).
Definition set_cache (c : option (FileStateCache C)) (w : World) : World := mkWorld (disk w) c (tmp_seq w).
Definition on_cache (f : FileStateCache C → FileStateCache C) (w : World) : World := set_cache (f <$> cache w) w.

(** ** Writing *)

Definition atomic_write (file_path new_content : bytes) (w : World) : World * result unit bytes :=
  let tmp_path := file_path ++ as_bytes ".tmp." ++ decimal pid ++ as_bytes "." ++ decimal (tmp_seq w) in
  let w := mkWorld (disk w) (cache w) ((tmp_seq w + 1) mod 18446744073709551616) in
  match fs_write (disk w) tmp_path new_content with
  | (d, Err e) => (set_disk (fs_remove_file d tmp_path).1 w, Err e)
  | (d, Ok _) =>
      match fs_rename d tmp_path file_path with
      | (d, Ok _) => (set_disk d w, Ok tt)
      | (d, Err _) =>
          let '(d, r) := fs_write (fs_remove_file d tmp_path).1 file_path new_content in (set_disk d w, r)
      end
  end.
Definition refresh_cache (path new_content : bytes) (w : World) : World :=
  on_cache (update_cache_after_write (fs_mtime_ms (disk w) path) path new_content) w.
(** The must-read-first guard with its staleness check: the message, if any *)
Definition cache_check (must_read stale path : bytes) (w : World) : World * option bytes :=
  match cache w with
  | None => (w, None)
  | Some c =>
      let '(c, cached) := cache_get path c in
      (set_cache (Some c) w,
       match cached with
       | None => Some (append_edit_recovery_hint must_read MustReadFirst)
       | Some s =>
           match fs_mtime_ms (disk w) path with
           | Some d => if (mtime_ms s =? d)%N then None else Some (append_edit_recovery_hint stale StaleAfterRead)
           | None => None
           end
       end)
  end.

(** ** The Write tool *)

Definition missing (name : string) : bytes := as_bytes "Missing required parameter: " ++ as_bytes name.
Definition write_file (file_path new_content : bytes) (existed : bool) (w : World) : World * ToolResult :=
  let tmp_path := file_path ++ as_bytes ".tmp." ++ decimal pid in
  match fs_write (disk w) tmp_path new_content with
  | (d, Err e) => (set_disk d w, err (as_bytes "Failed to write file: " ++ e))
  | (d, Ok _) =>
      match fs_rename d tmp_path file_path with
      | (d, Err e) =>
          match fs_write (fs_remove_file d tmp_path).1 file_path new_content with
          | (d, Err e) => (set_disk d w, err (as_bytes "Failed to write file: " ++ e))
          | (d, Ok _) =>
              (refresh_cache file_path new_content (set_disk d w),
               mkResult (as_bytes "Updated " ++ file_path ++ as_bytes " (rename failed: " ++ e
                         ++ as_bytes ", used direct write)") false)
          end
      | (d, Ok _) =>
          (refresh_cache file_path new_content (set_disk d w),
           mkResult ((if existed then as_bytes "Updated" else as_bytes "Created") ++ as_bytes " " ++ file_path
                     ++ as_bytes " (" ++ decimal (N.of_nat (length (lines new_content))) ++ as_bytes " lines)") false)
      end
  end.
Definition create_parent (file_path : bytes) (w : World) : World * result unit bytes :=
  match path_parent file_path with
  | Some parent =>
      if fs_exists (disk w) parent then (w, Ok tt)
      else let '(d, r) := fs_create_dir_all (disk w) parent in (set_disk d w, r)
  | None => (w, Ok tt)
  end.
Definition write_execute (t : ToolConfig) (input : Value Num) (w : World) : World * ToolResult :=
  match get (as_bytes "file_path") input ≫= as_str with
  | None => (w, err (missing "file_path"))
  | Some file_path =>
      match get (as_bytes "content") input ≫= as_str with
      | None => (w, err (missing "content"))
      | Some new_content =>
          let new_content := strip_copied_read_prefixes new_content in
          let file_path := resolve_against_cwd file_path (tool_cwd t) in
          let existed := fs_exists (disk w) file_path in
          match ensure_within_root_ex (disk w) file_path (tool_write_root t) (tool_coding_boundary t) with
          | Some msg => (w, err msg)
          | None =>
              let '(w, unread) :=
                match existed, cache w with
                | true, Some c =>
                    let '(c, cached) := cache_get file_path c in (set_cache (Some c) w, negb (bool_decide (is_Some cached)))
                | _, _ => (w, false)
                end in
              if unread then
                (w, err (as_bytes "You must Read " ++ file_path
                         ++ text [" before overwriting it — it already exists. Use the Read tool first, or use Edit for a ";
                                  "targeted change."]))
              else
                match create_parent file_path w with
                | (w, Err e) => (w, err (as_bytes "Failed to create directories: " ++ e))
                | (w, Ok _) => write_file file_path new_content existed w
                end
          end
      end
  end.

(** ** The Edit tool *)

Inductive EditPayload := AnchorMode (ops : list AnchorEditOp) | ExactMode (ops : list EditOp).
Definition edit_number (i : nat) : bytes := as_bytes "edit #" ++ decimal (N.of_nat (S i)).
Definition edits_array_is_anchor_mode (arr : list (Value Num)) : bool :=
  existsb (λ e, bool_decide (is_Some (get (as_bytes "anchor") e))) arr.
Definition str_field (key : string) (e : Value Num) : option bytes := get (as_bytes key) e ≫= as_str.
Definition bool_field (key : string) (e : Value Num) : bool := default false (get (as_bytes key) e ≫= as_bool).
Definition anchor_op (i : nat) (e : Value Num) : result AnchorEditOp bytes :=
  match str_field "anchor" e with
  | None => Err (edit_number i ++ as_bytes ": missing anchor")
  | Some anchor =>
      match option_or (str_field "new_text" e) (str_field "new_string" e) with
      | None => Err (edit_number i ++ as_bytes ": missing new_text")
      | Some new_text =>
          Ok (mkAnchorOp anchor (str_field "end_anchor" e) (strip_copied_read_prefixes new_text) (bool_field "insert_after" e))
      end
  end.
Definition exact_op (i : nat) (e : Value Num) : result EditOp bytes :=
  match str_field "old_string" e, str_field "new_string" e with
  | Some o, Some n =>
      Ok (mkEditOp (strip_copied_read_prefixes o) (strip_copied_read_prefixes n) (bool_field "replace_all" e))
  | _, _ => Err (edit_number i ++ as_bytes ": missing old_string or new_string")
  end.
Fixpoint parse_ops {A} (f : nat → Value Num → result A bytes) (i : nat) (arr : list (Value Num)) : result (list A) bytes :=
  match arr with
  | [] => Ok []
  | e :: arr => let? op := f i e in let? ops := parse_ops f (S i) arr in Ok (op :: ops)
  end.
Definition edit_payload (input : Value Num) : result EditPayload bytes :=
  match get (as_bytes "edits") input ≫= as_array with
  | Some [] => Err (as_bytes "edits array must not be empty")
  | Some arr =>
      if edits_array_is_anchor_mode arr then let? ops := parse_ops anchor_op 0 arr in Ok (AnchorMode ops)
      else let? ops := parse_ops exact_op 0 arr in Ok (ExactMode ops)
  | None =>
      match str_field "old_string" input with
      | None => Err (text ["Missing edit payload: provide `edits` (anchor mode, preferred) or both old_string and ";
                           "new_string."])
      | Some old_string =>
          match str_field "new_string" input with
          | None => Err (missing "new_string")
          | Some new_string =>
              Ok (ExactMode [mkEditOp (strip_copied_read_prefixes old_string) (strip_copied_read_prefixes new_string)
                               (bool_field "replace_all" input)])
          end
      end
  end.
(** The new text and the summary, or the message of the failure *)
Definition edit_content (file_path old_content : bytes) (payload : EditPayload) : option (result (bytes * bytes) bytes) :=
  match payload with
  | AnchorMode ops =>
      Some (match apply_anchor_edits debug_str old_content ops with
            | Ok (new_content, count, receipt) =>
                Ok (new_content, as_bytes "Applied " ++ decimal (N.of_nat count) ++ as_bytes " anchor edit(s) to " ++ file_path
                      ++ as_bytes "." ++ nl ++ nl
                      ++ as_bytes "Fresh anchors around the changes (use these to continue editing):" ++ nl ++ receipt)
            | Err msg =>
                Err (append_edit_recovery_hint msg
                       (if contains_lit (str_lower msg) "stale" then StaleAfterRead else classify_apply_err msg))
            end)
  | ExactMode ops =>
      r ← apply_edits debug_str old_content ops;
      Some (match r with
            | Ok (new_content, total) =>
                Ok (new_content,
                    if bool_decide (1 < length ops) then
                      as_bytes "Edited " ++ file_path ++ as_bytes ": " ++ decimal (N.of_nat total)
                      ++ as_bytes " replacement(s) across " ++ decimal (N.of_nat (length ops)) ++ as_bytes " edits"
                    else as_bytes "Edited " ++ file_path ++ as_bytes ": replaced " ++ decimal (N.of_nat total)
                         ++ as_bytes " occurrence(s)")
            | Err msg => Err (append_edit_recovery_hint msg (classify_apply_err msg))
            end)
  end.
Definition edit_must_read (file_path : bytes) : bytes :=
  as_bytes "You must Read " ++ file_path
  ++ as_bytes " before editing. Use the Read tool first so the file content is loaded into context.".
Definition edit_stale (file_path : bytes) : bytes :=
  as_bytes "File " ++ file_path
  ++ text [" has been modified externally since last read. Read the file again to see the current content before ";
           "editing."].
(** Behind the checks of the input: the guard, the edit, the write *)
Definition edit_file (file_path : bytes) (payload : EditPayload) (w : World) : option (World * ToolResult) :=
  match cache_check (edit_must_read file_path) (edit_stale file_path) file_path w with
  | (w, Some msg) => Some (w, err msg)
  | (w, None) =>
      match fs_read_to_string (disk w) file_path with
      | Err e => Some (w, err (format_file_read_error (disk w) file_path e))
      | Ok old_content =>
          r ← edit_content file_path old_content payload;
          Some (match r with
                | Err msg => (w, err msg)
                | Ok (new_content, summary) =>
                    match atomic_write file_path new_content w with
                    | (w, Err e) => (w, err (as_bytes "Failed to write file: " ++ e))
                    | (w, Ok _) => (refresh_cache file_path new_content w, mkResult summary false)
                    end
                end)
      end
  end.
Definition edit_execute (t : ToolConfig) (input : Value Num) (w : World) : option (World * ToolResult) :=
  match str_field "file_path" input with
  | None => Some (w, err (missing "file_path"))
  | Some file_path =>
      let file_path := resolve_against_cwd file_path (tool_cwd t) in
      match ensure_within_root_ex (disk w) file_path (tool_write_root t) (tool_coding_boundary t) with
      | Some msg => Some (w, err msg)
      | None =>
          match edit_payload input with
          | Err msg => Some (w, err msg)
          | Ok payload => edit_file file_path payload w
          end
      end
  end.

(** ** The ApplyPatch tool *)

(** What the first phase plans: no write has happened yet. *)
Record Plan := mkPlan {
  planned : list (bytes * bytes);
  to_delete : list bytes;
  renames : list (bytes * bytes);
  total : nat;
  created : nat;
}.
(** A step of planning: it reads the disk and uses the cache, and may refuse. *)
Definition Planner (A : Type) : Type := World → option (World * result A bytes).
Definition p_ret {A} (a : A) : Planner A := λ w, Some (w, Ok a).
Definition p_fail {A} (msg : bytes) : Planner A := λ w, Some (w, Err msg).
Definition p_bind {A B} (m : Planner A) (f : A → Planner B) : Planner B := λ w,
  match m w with
  | Some (w, Ok a) => f a w
  | Some (w, Err msg) => Some (w, Err msg)
  | None => None
  end.
Notation "'let!' x ':=' m 'in' k" := (p_bind m (λ x, k)) (at level 10, x binder, m at level 100, k at level 200).
Definition p_disk {A} (f : FS → A) : Planner A := λ w, Some (w, Ok (f (disk w))).
(** A check that may give a message *)
Definition p_check (f : World → World * option bytes) : Planner unit := λ w,
  match f w with (w, Some msg) => Some (w, Err msg) | (w, None) => Some (w, Ok tt) end.
Definition p_when (b : bool) (m : Planner unit) : Planner unit := if b then m else p_ret tt.

Definition cache_guard (path : bytes) : Planner unit :=
  p_check (cache_check (as_bytes "You must Read " ++ path ++ as_bytes " before patching it.")
             (as_bytes "File " ++ path ++ as_bytes " changed on disk since last read; Read it again before patching.") path).
Definition root_guard (t : ToolConfig) (path : bytes) : Planner unit :=
  p_check (λ w, (w, ensure_within_root_ex (disk w) path (tool_write_root t) (tool_coding_boundary t))).
Definition plan_write (path new_content : bytes) (p : Plan) : Plan :=
  mkPlan (planned p ++ [(path, new_content)]) (to_delete p) (renames p) (total p) (created p).
Definition plan_created (n : nat) (p : Plan) : Plan :=
  mkPlan (planned p) (to_delete p) (renames p) (total p) (created p + n).
Definition plan_total (n : nat) (p : Plan) : Plan :=
  mkPlan (planned p) (to_delete p) (renames p) (total p + n) (created p).
Definition plan_delete (path : bytes) (p : Plan) : Plan :=
  mkPlan (planned p) (to_delete p ++ [path]) (renames p) (total p) (created p).
Definition plan_rename (from to : bytes) (p : Plan) : Plan :=
  mkPlan (planned p) (to_delete p) (renames p ++ [(from, to)]) (total p) (created p).

(** A file with a whole new content *)
Definition plan_content (path new_content : bytes) (p : Plan) : Planner Plan :=
  let! exists_ := p_disk (λ d, fs_exists d path) in
  let! _ := p_when exists_ (cache_guard path) in
  p_ret (plan_write path new_content (plan_created (if exists_ then 0 else 1) p)).
Definition plan_deletion (path : bytes) (p : Plan) : Planner Plan :=
  let! exists_ := p_disk (λ d, fs_exists d path) in
  let! _ := p_when (negb exists_) (p_fail (path ++ text [": cannot delete — file does not exist"])) in
  let! _ := cache_guard path in
  p_ret (plan_delete path p).
Definition plan_edits (path : bytes) (rename_only : bool) (ops : list EditOp) (p : Plan) : Planner Plan :=
  let! _ := cache_guard path in
  let! old := p_disk (λ d, fs_read_to_string d path) in
  match old with
  | Err e => p_fail (as_bytes "Failed to read " ++ path ++ as_bytes ": " ++ e)
  | Ok old_content =>
      if rename_only then p_ret (plan_write path old_content p)
      else
        match apply_edits debug_str old_content ops with
        | None => λ _, None
        | Some (Ok (new_content, n)) => p_ret (plan_write path new_content (plan_total n p))
        | Some (Err msg) =>
            p_fail (append_edit_recovery_hint (path ++ as_bytes ": " ++ msg) (classify_apply_err msg))
        end
  end.
Definition hunk_edit (h : PatchHunk) : EditOp := mkEditOp (old_text h) (PatchParse.new_text h) false.
Definition plan_op (t : ToolConfig) (op : PatchFileOp) (p : Plan) : Planner Plan :=
  match op with
  | AddFile path new_content =>
      let path := resolve_against_cwd path (tool_cwd t) in
      let! _ := root_guard t path in plan_content path new_content p
  | DeleteFile path =>
      let path := resolve_against_cwd path (tool_cwd t) in
      let! _ := root_guard t path in plan_deletion path p
  | UpdateFile path move_to hs =>
      let path := resolve_against_cwd path (tool_cwd t) in
      let! _ := root_guard t path in
      let! p :=
        match move_to with
        | None => p_ret p
        | Some dest =>
            let dest := resolve_against_cwd dest (tool_cwd t) in
            let! _ := root_guard t dest in p_ret (plan_rename path dest p)
        end in
      plan_edits path (bool_decide (hs = []) && bool_decide (is_Some move_to)) (hunk_edit <$> hs) p
  end.
Fixpoint plan_ops (t : ToolConfig) (ops : list PatchFileOp) (p : Plan) : Planner Plan :=
  match ops with [] => p_ret p | op :: ops => let! p := plan_op t op p in plan_ops t ops p end.

(** The second phase *)
Definition make_parent (path : bytes) (w : World) : World :=
  match path_parent path with
  | Some (b :: parent) => set_disk (fs_create_dir_all (disk w) (b :: parent)).1 w
  | _ => w
  end.
Fixpoint commit_writes (ws : list (bytes * bytes)) (w : World) : World * result unit bytes :=
  match ws with
  | [] => (w, Ok tt)
  | (path, new_content) :: ws =>
      match atomic_write path new_content (make_parent path w) with
      | (w, Err e) => (w, Err (as_bytes "Failed to write " ++ path ++ as_bytes ": " ++ e))
      | (w, Ok _) => commit_writes ws (refresh_cache path new_content w)
      end
  end.
Fixpoint commit_deletes (paths : list bytes) (w : World) : World * result unit bytes :=
  match paths with
  | [] => (w, Ok tt)
  | path :: paths =>
      match fs_remove_file (disk w) path with
      | (d, Err e) => (set_disk d w, Err (as_bytes "Failed to delete " ++ path ++ as_bytes ": " ++ e))
      | (d, Ok _) => commit_deletes paths (on_cache (λ c, (cache_remove path c).1) (set_disk d w))
      end
  end.
Definition applied_message (p : Plan) : bytes :=
  let n k := decimal (N.of_nat k) in
  as_bytes "Applied patch to " ++ n (length (planned p) + length (to_delete p)) ++ as_bytes " file(s) (" ++ n (created p)
  ++ as_bytes " created, " ++ n (length (to_delete p)) ++ as_bytes " deleted, " ++ n (total p)
  ++ as_bytes " total replacement(s))".
Definition commit_plan (p : Plan) (w : World) : World * ToolResult :=
  match commit_writes (planned p) w with
  | (w, Err msg) => (w, err msg)
  | (w, Ok _) =>
      match commit_deletes (to_delete p) w with
      | (w, Err msg) => (w, err msg)
      | (w, Ok _) => (w, mkResult (applied_message p) false)
      end
  end.
Definition move_cache (from to : bytes) (c : FileStateCache C) : FileStateCache C :=
  let '(c, removed) := cache_remove from c in
  match removed with Some state => cache_insert to state c | None => c end.
Fixpoint commit_renames (rs : list (bytes * bytes)) (w : World) : World * result unit bytes :=
  match rs with
  | [] => (w, Ok tt)
  | (from, to) :: rs =>
      if bool_decide (from = to) then commit_renames rs w
      else
        let w := make_parent to w in
        match fs_rename (disk w) from to with
        | (d, Err e) =>
            (set_disk d w, Err (as_bytes "Patched " ++ from ++ as_bytes " but failed to rename to " ++ to ++ as_bytes ": " ++ e))
        | (d, Ok _) => commit_renames rs (on_cache (move_cache from to) (set_disk d w))
        end
  end.
Definition empty_plan : Plan := mkPlan [] [] [] 0 0.
Definition syntax_message (e : PatchParseError) : bytes :=
  display_error e ++ nl
  ++ text ["Next: use Codex markers (`*** Begin Patch`, `*** Update File: path`, `@@` hunks with -/+/space lines, ";
           "`*** End Patch`), or pass structured `files`."].
(** [None] of the parser is lack of fuel, which does not happen. *)
Definition execute_freeform (t : ToolConfig) (patch : bytes) (w : World) : option (World * ToolResult) :=
  parsed ← parse_freeform_patch debug_str patch;
  match parsed with
  | Err e => Some (w, err (syntax_message e))
  | Ok parsed =>
      '(w, r) ← plan_ops t (files parsed) empty_plan w;
      Some (match r with
            | Err msg => (w, err msg)
            | Ok p =>
                let '(w, result) := commit_plan p w in
                if is_error result then (w, result)
                else match commit_renames (renames p) w with
                     | (w, Err msg) => (w, err msg)
                     | (w, Ok _) => (w, result)
                     end
            end)
  end.

(** The structured form of a patch *)
Definition patch_edit_op (path : bytes) (e : Value Num) : result EditOp bytes :=
  match str_field "old_string" e, str_field "new_string" e with
  | Some o, Some n => Ok (mkEditOp o n (bool_field "replace_all" e))
  | _, _ => Err (path ++ as_bytes ": each edit needs old_string and new_string")
  end.
Definition plan_file (t : ToolConfig) (i : nat) (f : Value Num) (p : Plan) : Planner Plan :=
  match str_field "file_path" f with
  | None => p_fail (as_bytes "file #" ++ decimal (N.of_nat (S i)) ++ as_bytes ": missing file_path")
  | Some path =>
      let path := resolve_against_cwd path (tool_cwd t) in
      let! _ := root_guard t path in
      let content_field := str_field "content" f in
      let edits_field := get (as_bytes "edits") f ≫= as_array in
      if bool_field "delete" f then
        if bool_decide (is_Some content_field) || bool_decide (is_Some edits_field) then
          p_fail (path ++ as_bytes ": `delete` cannot be combined with `content` or `edits`")
        else plan_deletion path p
      else
        match content_field, edits_field with
        | Some _, Some _ =>
            p_fail (path ++ text [": specify either `content` (create/replace whole file) or `edits` (patch existing), not ";
                                  "both"])
        | None, None => p_fail (path ++ as_bytes ": each file needs either `content` or `edits`")
        | Some new_content, None => plan_content path new_content p
        | None, Some [] => p_fail (path ++ as_bytes ": edits array must not be empty")
        | None, Some arr =>
            match parse_ops (λ _, patch_edit_op path) 0 arr with
            | Err msg => p_fail msg
            | Ok ops => plan_edits path false ops p
            end
        end
  end.
Fixpoint plan_files (t : ToolConfig) (i : nat) (fs : list (Value Num)) (p : Plan) : Planner Plan :=
  match fs with [] => p_ret p | f :: fs => let! p := plan_file t i f p in plan_files t (S i) fs p end.
Definition execute_files_array (t : ToolConfig) (fs : list (Value Num)) (w : World) : option (World * ToolResult) :=
  '(w, r) ← plan_files t 0 fs empty_plan w;
  Some (match r with Err msg => (w, err msg) | Ok p => commit_plan p w end).
(** The freeform text of the input, unless it is blank *)
Definition freeform_of (input : Value Num) : option bytes :=
  patch ← option_or (str_field "patch" input) (str_field "input" input);
  if str_is_blank patch then None else Some patch.
Definition patch_execute (t : ToolConfig) (input : Value Num) (w : World) : option (World * ToolResult) :=
  match freeform_of input with
  | Some patch => execute_freeform t patch w
  | None =>
      match get (as_bytes "files") input ≫= as_array with
      | None => Some (w, err (text ["Missing required parameter: provide Codex freeform `patch`/`input`, or structured ";
                                    "`files` array"]))
      | Some [] => Some (w, err (as_bytes "files array must not be empty"))
      | Some fs => execute_files_array t fs w
      end
  end.
(** The paths a patch names, for the host's restrictions *)
Definition op_paths (op : PatchFileOp) : list bytes :=
  match op with
  | AddFile path _ | DeleteFile path => [path]
  | UpdateFile path move_to _ => path :: option_list move_to
  end.
Definition affected_paths (input : Value Num) : option (result (list bytes) bytes) :=
  match freeform_of input with
  | Some patch =>
      parsed ← parse_freeform_patch debug_str patch;
      Some (match parsed with
            | Ok parsed => Ok (flat_map op_paths (files parsed))
            | Err e => Err (display_error e)
            end)
  | None =>
      Some (match get (as_bytes "files") input ≫= as_array with
            | None | Some [] => Err (as_bytes "patch_files_missing")
            | Some fs =>
                parse_ops (λ _ f, match str_field "file_path" f with Some path => Ok path | None => Err (as_bytes "patch_path_missing") end) 0 fs
            end)
  end.
End tools.
