(* ===== verification/FileSafety.v ===== *)
(** The file tools touch only what their guards allow, and a patch that is refused
    touches nothing. *)
From S2P Require Import Prelude Bytes Text Json CodingText Anchors EditOps UnixPath FileCache PatchParse PathGuard FileTools.

Section safety.
Context {FS C Num : Type} {HFS : FileSystem FS} {HLru : Lru C} {HLaws : LruLaws C}.
Context (debug_str : bytes → bytes) (pid : N).
Abbreviation World := (World FS C).
Abbreviation es c := (lru_entries (entries c)).

(** ** Changes of the disk

    One call of the operating system by a tool: it puts a content at a path, directly or
    through a temporary file beside it, removes a file, moves one, or creates the parent
    directories of a path it puts or moves something to. *)
Inductive disk_step (puts : bytes → bytes → Prop) (removes : bytes → Prop) (moves : bytes → bytes → Prop) : FS → FS → Prop :=
| step_dirs d path parent : (∃ c, puts path c) ∨ (∃ from, moves from path) → path_parent path = Some parent →
    disk_step puts removes moves d (fs_create_dir_all d parent).1
| step_write d path c : puts path c → disk_step puts removes moves d (fs_write d path c).1
| step_tmp_write d path s c : puts path c → disk_step puts removes moves d (fs_write d (path ++ as_bytes ".tmp." ++ s) c).1
| step_tmp_remove d path s c : puts path c → disk_step puts removes moves d (fs_remove_file d (path ++ as_bytes ".tmp." ++ s)).1
| step_tmp_rename d path s c : puts path c → disk_step puts removes moves d (fs_rename d (path ++ as_bytes ".tmp." ++ s) path).1
| step_remove d path : removes path → disk_step puts removes moves d (fs_remove_file d path).1
| step_move d from to : moves from to → disk_step puts removes moves d (fs_rename d from to).1.
Definition touched (puts : bytes → bytes → Prop) (removes : bytes → Prop) (moves : bytes → bytes → Prop) : FS → FS → Prop :=
  rtc (disk_step puts removes moves).

Lemma fst_eq {A B} (x : A * B) a b : x = (a, b) → a = x.1.
Proof. by intros ->. Qed.
Lemma set_disk_disk d (w : World) : disk (set_disk d w) = d.
Proof. done. Qed.
Lemma refresh_disk path c (w : World) : disk (refresh_cache path c w) = disk w.
Proof. done. Qed.
Section touches.
Context (puts : bytes → bytes → Prop) (removes : bytes → Prop) (moves : bytes → bytes → Prop).
Abbreviation touched := (touched puts removes moves).
Lemma atomic_write_touched path c (w : World) : puts path c → touched (disk w) (disk (atomic_write pid path c w).1).
Proof.
  intros Hm. unfold atomic_write. cbn [disk].
  set (s := decimal pid ++ as_bytes "." ++ decimal (tmp_seq w)).
  set (tmp := path ++ as_bytes ".tmp." ++ _). change tmp with (path ++ as_bytes ".tmp." ++ s). clear tmp.
  destruct (fs_write (disk w) _ c) as [d1 r1] eqn:E1. apply fst_eq in E1 as ->.
  eapply rtc_l; [by apply (step_tmp_write _ _ _ _ path s c)|]. destruct r1.
  - destruct (fs_rename _ _ path) as [d2 r2] eqn:E2. apply fst_eq in E2 as ->.
    eapply rtc_l; [by apply (step_tmp_rename _ _ _ _ path s c)|]. destruct r2; [apply rtc_refl|].
    eapply rtc_l; [by apply (step_tmp_remove _ _ _ _ path s c)|].
    destruct (fs_write _ path c) as [d3 r3] eqn:E3. apply fst_eq in E3 as ->. apply rtc_once. by apply step_write.
  - apply rtc_once. by apply (step_tmp_remove _ _ _ _ path s c).
Qed.
Lemma make_parent_touched path (w : World) :
  (∃ c, puts path c) ∨ (∃ from, moves from path) → touched (disk w) (disk (make_parent path w)).
Proof.
  intros Hm. unfold make_parent. destruct (path_parent path) as [[|b parent]|] eqn:E; try apply rtc_refl.
  apply rtc_once. by eapply step_dirs.
Qed.
Lemma commit_writes_touched ws (w : World) :
  Forall (λ e, puts e.1 e.2) ws → touched (disk w) (disk (commit_writes pid ws w).1).
Proof.
  intros Hw. revert w. induction Hw as [|[path c] ws Hp Hw IH]; intros w; [apply rtc_refl|]. cbn [commit_writes fst snd] in *.
  pose proof (make_parent_touched path w (or_introl (ex_intro _ c Hp))) as H1.
  pose proof (atomic_write_touched path c (make_parent path w) Hp) as H2.
  destruct (atomic_write pid path c (make_parent path w)) as [w2 [|]]; [|by etrans].
  etrans; [exact H1|]. etrans; [exact H2|]. exact (IH (refresh_cache path c w2)).
Qed.
Lemma commit_deletes_touched ps (w : World) :
  Forall removes ps → touched (disk w) (disk (commit_deletes ps w).1).
Proof.
  intros Hp. revert w. induction Hp as [|path ps Hp Hps IH]; intros w; [apply rtc_refl|]. cbn [commit_deletes].
  destruct (fs_remove_file (disk w) path) as [d r] eqn:E. apply fst_eq in E as ->.
  eapply rtc_l; [by apply (step_remove _ _ _ _ path)|]. destruct r; [|apply rtc_refl].
  exact (IH (on_cache (λ c, (cache_remove path c).1) (set_disk (fs_remove_file (disk w) path).1 w))).
Qed.
Lemma commit_renames_touched rs (w : World) :
  Forall (λ e, moves e.1 e.2) rs → touched (disk w) (disk (commit_renames rs w).1).
Proof.
  intros Hr. revert w. induction Hr as [|[from to] rs Hf Hrs IH]; intros w; [apply rtc_refl|]. cbn [commit_renames fst snd] in *.
  case_bool_decide; [apply IH|]. etrans; [apply make_parent_touched; right; by eexists|].
  destruct (fs_rename (disk (make_parent to w)) from to) as [d r] eqn:E. apply fst_eq in E as ->.
  eapply rtc_l; [by apply (step_move _ _ _ _ from to)|]. destruct r; [|apply rtc_refl].
  exact (IH (on_cache (move_cache from to) (set_disk (fs_rename (disk (make_parent to w)) from to).1 (make_parent to w)))).
Qed.
End touches.

(** ** What a guard establishes *)

(** The cache seen as a map from path keys to states *)
Definition known (w : World) (path : bytes) : option FileState :=
  c ← cache w; find_key (normalize_path path) (es c).
Definition same_view (w w' : World) : Prop :=
  disk w' = disk w ∧ (cache w = None ↔ cache w' = None) ∧ ∀ path, known w' path = known w path.
Lemma world_view_refl w : same_view w w.
Proof. done. Qed.
Lemma world_view_trans w1 w2 w3 : same_view w1 w2 → same_view w2 w3 → same_view w1 w3.
Proof. intros (A1&B1&C1) (A2&B2&C2). split_and!; [congruence|tauto|]. intros path. by rewrite C2. Qed.
(** The file was read, and its disk time is that of the read. *)
Definition fresh (w : World) (path : bytes) : Prop :=
  cache w = None ∨ ∃ s, known w path = Some s ∧ (fs_mtime_ms (disk w) path = None ∨ fs_mtime_ms (disk w) path = Some (mtime_ms s)).
Definition inside (t : ToolConfig) (w : World) (path : bytes) : Prop :=
  ∀ root, tool_write_root t = Some root → is_within_root (disk w) path root = true.
Lemma find_key_without_ne k k' l : k ≠ k' → find_key k' (without k l) = find_key k' l.
Proof.
  intros Hne. induction l as [|e l IH]; [done|]. destruct (decide (e.1 = k)) as [E|E].
  - destruct e as [k1 s]. cbn in E. subst k1. rewrite without_cons_eq, find_key_cons. by rewrite decide_False.
  - rewrite without_cons_ne by done. by rewrite !find_key_cons, IH.
Qed.
Lemma cache_get_view path (c : FileStateCache C) :
  let '(c', v) := cache_get path c in
  v = find_key (normalize_path path) (es c) ∧ ∀ k, find_key k (es c') = find_key k (es c).
Proof.
  unfold cache_get. pose proof (lru_get_spec (normalize_path path) (entries c)) as Hg.
  destruct (lru_get (normalize_path path) (entries c)) as [l v]. destruct Hg as (Hv&_&He). split; [done|].
  intros k. cbn [entries]. rewrite He. destruct v as [s|]; [|done]. rewrite find_key_cons. cbn [fst snd].
  case_decide as E; [by rewrite <-E, <-Hv|]. by apply find_key_without_ne.
Qed.
Lemma set_cache_view w c c' :
  cache w = Some c → (∀ k, find_key k (es c') = find_key k (es c)) → same_view w (set_cache (Some c') w).
Proof. intros Hc Hk. split_and!; [done|by rewrite Hc|]. intros path. unfold known. cbn. rewrite Hc. cbn. apply Hk. Qed.
Lemma cache_check_spec must stale path w :
  let '(w', msg) := cache_check must stale path w in same_view w w' ∧ (msg = None → fresh w path).
Proof.
  unfold cache_check. destruct (cache w) as [c|] eqn:Ec; [|split; [done|by left]].
  pose proof (cache_get_view path c) as Hg. destruct (cache_get path c) as [c' v]. destruct Hg as [Hv Hk].
  split; [by apply (set_cache_view w c c')|]. intros Hm. right.
  assert (Hkn : known w path = v) by (unfold known; by rewrite Ec).
  destruct v as [s|]; [|done]. exists s. split; [done|].
  destruct (fs_mtime_ms (disk w) path) as [d|]; [|by left]. destruct (N.eqb_spec (mtime_ms s) d) as [->|]; [by right|done].
Qed.
Lemma root_check_spec t w path :
  ensure_within_root_ex (disk w) path (tool_write_root t) (tool_coding_boundary t) = None → inside t w path.
Proof.
  intros Hg root Hr. rewrite Hr in Hg. unfold ensure_within_root_ex in Hg. cbn in Hg.
  destruct (is_within_root (disk w) path root); [done|]. by destruct (tool_coding_boundary t).
Qed.

(** ** Planning

    A planner started in a world that looks like [w0] leaves such a world, and what
    it returns satisfies [Q]. *)
Definition plans {A} (w0 : World) (m : Planner A) (Q : A → Prop) : Prop :=
  ∀ w w' r, same_view w0 w → m w = Some (w', r) → same_view w0 w' ∧ ∀ a, r = Ok a → Q a.
Lemma plans_ret {A} w0 (a : A) (Q : A → Prop) : Q a → plans w0 (p_ret a) Q.
Proof. intros Hq w w' r Hw [= <- <-]. split; [done|]. by intros a' [= <-]. Qed.
Lemma plans_fail {A} w0 msg (Q : A → Prop) : plans w0 (p_fail msg) Q.
Proof. intros w w' r Hw [= <- <-]. by split. Qed.
Lemma plans_bind {A B} w0 (m : Planner A) (f : A → Planner B) (Q : A → Prop) (R : B → Prop) :
  plans w0 m Q → (∀ a, Q a → plans w0 (f a) R) → plans w0 (p_bind m f) R.
Proof.
  intros Hm Hf w w' r Hw. unfold p_bind. destruct (m w) as [[w1 [a|msg]]|] eqn:E; [|intros [= <- <-]|done].
  - destruct (Hm _ _ _ Hw E) as [Hw1 Hq]. intros Hr. by apply (Hf a (Hq a eq_refl) w1).
  - destruct (Hm _ _ _ Hw E) as [Hw1 _]. by split.
Qed.
Lemma plans_disk {A} w0 (f : FS → A) : plans w0 (p_disk f) (λ a, a = f (disk w0)).
Proof. intros w w' r Hw [= <- <-]. split; [done|]. intros a [= <-]. by rewrite (proj1 Hw). Qed.
Lemma plans_when w0 b m (Q : Prop) : plans w0 m (λ _, Q) → plans w0 (p_when b m) (λ _, b = true → Q).
Proof.
  intros Hm. destruct b; cbn [p_when]; [|by apply plans_ret].
  intros w w' r Hw E. destruct (Hm _ _ _ Hw E) as [Hv Hq]. split; [done|]. intros a Ha _. by eapply Hq.
Qed.
Lemma fresh_view w w' path : same_view w w' → fresh w' path → fresh w path.
Proof. intros (Hd&Hc&Hk) [Hn|(s&Hs&Hm)]; [left; tauto|]. right. exists s. by rewrite <-Hk, <-Hd. Qed.
Lemma plans_cache_guard w0 path : plans w0 (cache_guard path) (λ _, fresh w0 path).
Proof.
  intros w w' r Hw. unfold cache_guard, p_check.
  match goal with |- context [cache_check ?a ?b path w] => pose proof (cache_check_spec a b path w) as Hc; destruct (cache_check a b path w) as [w1 msg] end.
  destruct Hc as [Hv Hf]. destruct msg; intros [= <- <-]; (split; [by eapply world_view_trans|]); [done|].
  intros _ _. eapply fresh_view; [exact Hw|by apply Hf].
Qed.
Lemma plans_root_guard w0 t path : plans w0 (root_guard t path) (λ _, inside t w0 path).
Proof.
  intros w w' r Hw. unfold root_guard, p_check. destruct (ensure_within_root_ex _ _ _ _) eqn:E; intros [= <- <-]; (split; [done|]); [done|].
  intros _ _. apply root_check_spec in E. intros root Hr. specialize (E root Hr). by rewrite (proj1 Hw) in E.
Qed.

(** ** What a patch asks for *)

Inductive Change :=
| Put (path content : bytes)                      (* a whole new content *)
| Remove (path : bytes)
| Revise (path : bytes) (edits : list EditOp)     (* the edits, in order, of the old content *)
| Keep (path : bytes)                             (* a move without edits *)
| Move (from to : bytes).
Abbreviation resolved t := (λ path, resolve_against_cwd path (tool_cwd t)).
(** A section of the freeform text *)
Definition op_changes (t : ToolConfig) (op : PatchFileOp) : list Change :=
  match op with
  | AddFile path c => [Put (resolved t path) c]
  | DeleteFile path => [Remove (resolved t path)]
  | UpdateFile path move_to hs =>
      match move_to with
      | Some dest =>
          [Move (resolved t path) (resolved t dest);
           if bool_decide (hs = []) then Keep (resolved t path) else Revise (resolved t path) (hunk_edit <$> hs)]
      | None => [Revise (resolved t path) (hunk_edit <$> hs)]
      end
  end.
(** An element of the structured form; [None] is one that is ill formed. *)
Definition file_changes (t : ToolConfig) (f : Value Num) : option (list Change) :=
  path ← str_field "file_path" f;
  let path := resolved t path in
  match bool_field "delete" f, str_field "content" f, get (as_bytes "edits") f ≫= as_array with
  | true, None, None => Some [Remove path]
  | false, Some c, None => Some [Put path c]
  | false, None, Some (e :: es) =>
      match parse_ops (λ _, patch_edit_op path) 0 (e :: es) with Ok ops => Some [Revise path ops] | Err _ => None end
  | _, _, _ => None
  end.
Definition requested (t : ToolConfig) (input : Value Num) : option (list Change) :=
  match freeform_of input with
  | Some patch =>
      match parse_freeform_patch debug_str patch with
      | Some (Ok parsed) => Some (concat (op_changes t <$> files parsed))
      | _ => None
      end
  | None =>
      fs ← get (as_bytes "files") input ≫= as_array;
      @concat Change <$> mapM (file_changes t) fs
  end.
(** The change can be made in [w]: it is inside the root, the file that it needs is there,
    what it overwrites or reads was read before, and its edits apply to what is on disk. *)
Definition valid (t : ToolConfig) (w : World) (ch : Change) : Prop :=
  match ch with
  | Put path _ => inside t w path ∧ (fs_exists (disk w) path = false ∨ fresh w path)
  | Remove path => inside t w path ∧ fs_exists (disk w) path = true ∧ fresh w path
  | Revise path edits => inside t w path ∧ fresh w path ∧
      ∃ old c n, fs_read_to_string (disk w) path = Ok old ∧ apply_edits debug_str old edits = Some (Ok (c, n))
  | Keep path => inside t w path ∧ fresh w path ∧ ∃ old, fs_read_to_string (disk w) path = Ok old
  | Move from to => inside t w from ∧ inside t w to
  end.
(** What the changes put, all edits computed from the contents before the patch *)
Definition put (w : World) (ch : Change) : option (bytes * bytes) :=
  match ch with
  | Put path c => Some (path, c)
  | Revise path edits =>
      match fs_read_to_string (disk w) path with
      | Ok old => match apply_edits debug_str old edits with Some (Ok (c, _)) => Some (path, c) | _ => None end
      | Err _ => None
      end
  | Keep path => match fs_read_to_string (disk w) path with Ok old => Some (path, old) | Err _ => None end
  | _ => None
  end.
Definition removed (ch : Change) : option bytes := match ch with Remove path => Some path | _ => None end.
Definition moved (ch : Change) : option (bytes * bytes) := match ch with Move a b => Some (a, b) | _ => None end.
Definition change_path (ch : Change) : list bytes :=
  match ch with Put path _ | Remove path | Revise path _ | Keep path => [path] | Move from to => [from; to] end.

(** ** The plan is the changes, once all of them are valid *)

(** [p'] is [p] with the changes. *)
Definition planned_more (w : World) (cs : list Change) (p p' : Plan) : Prop :=
  planned p' = planned p ++ omap (put w) cs ∧ to_delete p' = to_delete p ++ omap removed cs ∧
  renames p' = renames p ++ omap moved cs.
Definition planned_valid t (w : World) (cs : list Change) (p p' : Plan) : Prop :=
  Forall (valid t w) cs ∧ planned_more w cs p p'.
Lemma planned_more_app w cs cs' p p1 p2 :
  planned_more w cs p p1 → planned_more w cs' p1 p2 → planned_more w (cs ++ cs') p p2.
Proof.
  intros (A1&B1&C1) (A2&B2&C2). unfold planned_more. by rewrite A2, A1, B2, B1, C2, C1, !omap_app, !app_assoc.
Qed.
Lemma planned_more_one w ch p p' :
  planned p' = planned p ++ option_list (put w ch) → to_delete p' = to_delete p ++ option_list (removed ch) →
  renames p' = renames p ++ option_list (moved ch) → planned_more w [ch] p p'.
Proof.
  intros H1 H2 H3. split_and!; [rewrite H1|rewrite H2|rewrite H3]; f_equal; destruct ch; cbn; try done;
    repeat case_match; done.
Qed.
Lemma plans_content w0 t path c p :
  inside t w0 path → plans w0 (plan_content path c p) (planned_valid t w0 [Put path c] p).
Proof.
  intros Hi. eapply plans_bind; [apply plans_disk|]. intros e ->. eapply plans_bind; [apply plans_when, plans_cache_guard|].
  intros [] Hf. apply plans_ret. split; [|by apply planned_more_one; cbn; rewrite ?app_nil_r].
  apply Forall_singleton. split; [done|]. destruct (fs_exists (disk w0) path); [right; by apply Hf|by left].
Qed.
Lemma plans_deletion w0 t path p :
  inside t w0 path → plans w0 (plan_deletion path p) (planned_valid t w0 [Remove path] p).
Proof.
  intros Hi. eapply plans_bind; [apply plans_disk|]. intros e ->.
  eapply (plans_bind _ _ _ (λ _, negb (fs_exists (disk w0) path) = true → False)).
  - apply plans_when, plans_fail.
  - intros [] He. eapply plans_bind; [apply plans_cache_guard|]. intros [] Hf. apply plans_ret.
    split; [|by apply planned_more_one; cbn; rewrite ?app_nil_r]. apply Forall_singleton. split_and!; [done| |done].
    by destruct (fs_exists (disk w0) path).
Qed.
Lemma plans_edits w0 t path (keep : bool) ops p :
  inside t w0 path →
  plans w0 (plan_edits debug_str path keep ops p) (planned_valid t w0 [if keep then Keep path else Revise path ops] p).
Proof.
  intros Hi. eapply plans_bind; [apply plans_cache_guard|]. intros [] Hf. eapply plans_bind; [apply plans_disk|]. intros old ->.
  destruct (fs_read_to_string (disk w0) path) as [old|e] eqn:Hr; [|apply plans_fail]. destruct keep.
  { apply plans_ret. split; [apply Forall_singleton; split_and!; [done|done|by exists old]|].
    apply planned_more_one; cbn; rewrite ?Hr, ?app_nil_r; done. }
  destruct (apply_edits debug_str old ops) as [[[c n]|msg]|] eqn:E; [|apply plans_fail|done].
  apply plans_ret. split; [apply Forall_singleton; split_and!; [done|done|by exists old, c, n]|].
  apply planned_more_one; cbn; rewrite ?Hr, ?E, ?app_nil_r; done.
Qed.
Lemma plans_weaken {A} w0 (m : Planner A) (Q R : A → Prop) : plans w0 m Q → (∀ a, Q a → R a) → plans w0 m R.
Proof. intros Hm HR w w' r Hw E. destruct (Hm _ _ _ Hw E) as [? Hq]. split; [done|]. intros a Ha. by apply HR, Hq. Qed.
Lemma plans_op t w0 op p : plans w0 (plan_op debug_str t op p) (planned_valid t w0 (op_changes t op) p).
Proof.
  destruct op as [path c|path|path move_to hs]; cbn [plan_op op_changes].
  - eapply plans_bind; [apply plans_root_guard|]. intros [] Hi. by apply plans_content.
  - eapply plans_bind; [apply plans_root_guard|]. intros [] Hi. by apply plans_deletion.
  - eapply plans_bind; [apply plans_root_guard|]. intros [] Hi. destruct move_to as [dest|].
    + eapply (plans_bind _ _ _ (λ p', inside t w0 (resolved t dest) ∧ p' = plan_rename (resolved t path) (resolved t dest) p)).
      { eapply plans_bind; [apply plans_root_guard|]. intros [] Hd. by apply plans_ret. }
      intros p1 [Hd ->]. eapply plans_weaken; [by apply plans_edits|]. intros p2 [Hv Hm].
      rewrite (bool_decide_eq_true_2 (is_Some _)), andb_true_r in * by eauto.
      split; [by constructor|]. refine (planned_more_app _ [_] [_] _ _ _ _ Hm).
      apply planned_more_one; cbn; by rewrite ?app_nil_r.
    + eapply plans_bind; [by apply (plans_ret _ _ (eq p))|]. intros p1 <-. eapply plans_weaken; [by apply plans_edits|].
      by rewrite (bool_decide_eq_false_2 (is_Some _)), andb_false_r by (by intros [? [=]]).
Qed.
Lemma plans_ops t w0 ops p :
  plans w0 (plan_ops debug_str t ops p) (planned_valid t w0 (concat (op_changes t <$> ops)) p).
Proof.
  revert p. induction ops as [|op ops IH]; intros p; cbn.
  { apply plans_ret. split; [constructor|]. by split_and!; rewrite app_nil_r. }
  eapply plans_bind; [apply plans_op|]. intros p1 [Hv Hm]. eapply plans_weaken; [apply IH|]. intros p2 [Hv2 Hm2].
  split; [by apply Forall_app|by eapply planned_more_app].
Qed.
Lemma plans_file t w0 i (f : Value Num) p :
  plans w0 (plan_file debug_str t i f p) (λ p', ∃ cs, file_changes t f = Some cs ∧ planned_valid t w0 cs p p').
Proof.
  unfold plan_file, file_changes. destruct (str_field "file_path" f) as [path|]; [|apply plans_fail]. cbn [mbind option_bind].
  eapply plans_bind; [apply plans_root_guard|]. intros [] Hi. cbv zeta.
  destruct (bool_field "delete" f), (str_field "content" f) as [c|], (get _ f ≫= as_array) as [[|e arr]|]; cbn [is_Some];
    try rewrite bool_decide_true by eauto; cbn [orb]; rewrite ?orb_true_r; try apply plans_fail.
  - rewrite !bool_decide_false by (by intros [? [=]]). eapply plans_weaken; [by apply plans_deletion|]. eauto.
  - eapply plans_weaken; [by apply plans_content|]. eauto.
  - destruct (parse_ops _ _ _) as [ops|msg]; [|apply plans_fail]. eapply plans_weaken; [by apply plans_edits|]. eauto.
Qed.
Lemma plans_files t w0 i (fs : list (Value Num)) p :
  plans w0 (plan_files debug_str t i fs p) (λ p', ∃ css, mapM (file_changes t) fs = Some css ∧ planned_valid t w0 (concat css) p p').
Proof.
  revert i p. induction fs as [|f fs IH]; intros i p; cbn [plan_files].
  { apply plans_ret. exists []. split; [done|]. split; [constructor|]. by split_and!; rewrite app_nil_r. }
  eapply plans_bind; [apply plans_file|]. intros p1 (cs&Hcs&Hv&Hm). eapply plans_weaken; [apply IH|].
  intros p2 (css&Hcss&Hv2&Hm2). exists (cs :: css). split; [cbn; by rewrite Hcs, Hcss|].
  split; [by apply Forall_app|by eapply planned_more_app].
Qed.

(** ** The changes are confined to what the patch asks for *)

Section committed.
Context (t : ToolConfig) (w0 : World) (cs : list Change).
Definition confined : FS → FS → Prop :=
  touched (λ path c, (path, c) ∈ omap (put w0) cs) (λ path, Remove path ∈ cs) (λ from to, Move from to ∈ cs).
Lemma removed_in path : path ∈ omap removed cs → Remove path ∈ cs.
Proof. intros (ch & Hin & E)%list_elem_of_omap. destruct ch; try done. by injection E as ->. Qed.
Lemma moved_in e : e ∈ omap moved cs → Move e.1 e.2 ∈ cs.
Proof. intros (ch & Hin & E)%list_elem_of_omap. destruct ch; try done. by injection E as <-. Qed.
Lemma commit_plan_confined p w : planned_more w0 cs empty_plan p → confined (disk w) (disk (commit_plan pid p w).1).
Proof.
  intros (Hw & Hd & _). cbn in Hw, Hd. unfold commit_plan.
  pose proof (commit_writes_touched (λ path c, (path, c) ∈ omap (put w0) cs) (λ path, Remove path ∈ cs)
    (λ from to, Move from to ∈ cs) (planned p) w) as H1.
  destruct (commit_writes pid (planned p) w) as [w1 [|]]; specialize (H1 ltac:(rewrite Hw; apply Forall_forall; by intros [])); [|done].
  pose proof (commit_deletes_touched (λ path c, (path, c) ∈ omap (put w0) cs) (λ path, Remove path ∈ cs)
    (λ from to, Move from to ∈ cs) (to_delete p) w1) as H2.
  destruct (commit_deletes (to_delete p) w1) as [w2 [|]];
    specialize (H2 ltac:(rewrite Hd; apply Forall_forall; intros ?; apply removed_in)); by etrans.
Qed.
Lemma commit_renames_confined p w :
  planned_more w0 cs empty_plan p → confined (disk w) (disk (commit_renames (renames p) w).1).
Proof.
  intros (_ & _ & Hr). cbn in Hr. apply commit_renames_touched. rewrite Hr. apply Forall_forall. intros e. apply moved_in.
Qed.
End committed.
Lemma op_changes_paths t op ch path : ch ∈ op_changes t op → path ∈ change_path ch → path ∈ resolved t <$> op_paths op.
Proof.
  destruct op as [p c|p|p [dest|] hs]; cbn; intros Hch Hp.
  all: repeat (apply elem_of_cons in Hch as [->|Hch]); try (by apply elem_of_nil in Hch); try case_bool_decide; cbn in Hp.
  all: rewrite ?elem_of_cons in *; naive_solver.
Qed.
(** [affected_paths] of the structured form *)
Definition path_of_file (f : Value Num) : result bytes bytes :=
  match str_field "file_path" f with Some path => Ok path | None => Err (as_bytes "patch_path_missing") end.
Lemma file_changes_paths t i (fs : list (Value Num)) css :
  mapM (file_changes t) fs = Some css →
  ∃ ps, parse_ops (λ _, path_of_file) i fs = Ok ps ∧ ∀ ch path, ch ∈ concat css → path ∈ change_path ch → path ∈ resolved t <$> ps.
Proof.
  revert i css. induction fs as [|f fs IH]; intros i css; cbn [parse_ops].
  { intros [= <-]. exists []. split; [done|]. intros ch path Hch. by apply elem_of_nil in Hch. }
  cbn. intros (cs & Hcs & (css' & Hcss & [= <-])%bind_Some)%bind_Some. destruct (IH (S i) css' Hcss) as (ps & Hps & Hin).
  apply bind_Some in Hcs as (path & Hpath & Hcs). exists (path :: ps). unfold path_of_file at 1. rewrite Hpath, Hps.
  split; [done|]. intros ch q [Hch|Hch]%elem_of_app Hq; [|apply elem_of_cons; right; by eapply Hin]. apply elem_of_cons; left.
  cbv zeta in Hcs. repeat case_match; simplify_eq; apply list_elem_of_singleton in Hch as ->; by apply list_elem_of_singleton in Hq.
Qed.


(** ** Write and Edit *)

(** One path gets one content; temporary files and the parent directories aside, nothing
    else changes. *)
Definition writes_only (path c : bytes) : FS → FS → Prop :=
  touched (λ path' c', path' = path ∧ c' = c) (λ _, False) (λ _ _, False).
Lemma write_file_touched path c existed (w : World) : writes_only path c (disk w) (disk (write_file pid path c existed w).1).
Proof.
  unfold write_file. set (tmp := path ++ as_bytes ".tmp." ++ decimal pid).
  destruct (fs_write (disk w) tmp c) as [d1 r1] eqn:E1. apply fst_eq in E1 as ->.
  eapply rtc_l; [by apply (step_tmp_write _ _ _ _ path (decimal pid) c)|]. destruct r1; [|apply rtc_refl].
  destruct (fs_rename _ tmp path) as [d2 r2] eqn:E2. apply fst_eq in E2 as ->.
  eapply rtc_l; [by apply (step_tmp_rename _ _ _ _ path (decimal pid) c)|]. destruct r2; [apply rtc_refl|].
  eapply rtc_l; [by apply (step_tmp_remove _ _ _ _ path (decimal pid) c)|].
  destruct (fs_write _ path c) as [d3 r3] eqn:E3. apply fst_eq in E3 as ->.
  destruct r3; apply rtc_once; by apply step_write.
Qed.
Lemma create_parent_touched path c (w : World) : writes_only path c (disk w) (disk (create_parent path w).1).
Proof.
  unfold create_parent. destruct (path_parent path) as [parent|] eqn:E; [|apply rtc_refl].
  destruct (fs_exists (disk w) parent); [apply rtc_refl|]. destruct (fs_create_dir_all (disk w) parent) as [d r] eqn:E1.
  apply fst_eq in E1 as ->. apply rtc_once. eapply (step_dirs _ _ _ _ path); [left; by exists c|done].
Qed.
Lemma cache_check_seq must stale path (w : World) : tmp_seq (cache_check must stale path w).1 = tmp_seq w.
Proof. unfold cache_check. destruct (cache w) as [c|]; [|done]. by destruct (cache_get path c). Qed.
Lemma atomic_write_disk path c (w w1 : World) :
  disk w1 = disk w → tmp_seq w1 = tmp_seq w → disk (atomic_write pid path c w1).1 = disk (atomic_write pid path c w).1.
Proof.
  intros Hd Hs. unfold atomic_write. rewrite Hs. cbn [disk]. rewrite Hd. destruct (fs_write _ _ c) as [d [|]]; [|done].
  destruct (fs_rename d _ path) as [d2 [|]]; [done|]. by destruct (fs_write _ path c).
Qed.
End safety.

(** ** Witnesses *)

Definition tool : ToolConfig := mkTool (Some (as_bytes "/ws")) (Some (as_bytes "/ws")) true.
Definition read_world : World MemDisk ListLru :=
  mkWorld one_file (Some (cache_insert (as_bytes "/ws/a.txt") (mkFileState (as_bytes "1:x") 5 None None) (cache_new (mkCacheConfig 9 99 true)))) 0.
Definition patch_input : Value N := Object [(as_bytes "patch", Str (as_bytes "*** Begin Patch
*** Update File: a.txt
@@
-one
+1
@@
-two
+2
*** Add File: b.txt
+b
*** End Patch
"))].
Definition world_files (r : option (World MemDisk ListLru * ToolResult)) : list (bytes * bytes) :=
  match r with Some (w, _) => (λ e, (e.1, e.2.1)) <$> mem_files (disk w) | None => [] end.
Example patch_applied : world_files (patch_execute id 7 tool patch_input read_world)
  = [(as_bytes "/ws/b.txt", as_bytes "b
"); (as_bytes "/ws/a.txt", as_bytes "1
2
")].
Proof. vm_compute. reflexivity. Qed.
(** Two sections for one file: the second is computed from the old content, so the
    change of the first is lost although the patch reports success. *)
Definition twice_input : Value N := Object [(as_bytes "patch", Str (as_bytes "*** Begin Patch
*** Update File: a.txt
@@
-one
+1
*** Update File: a.txt
@@
-two
+2
*** End Patch
"))].
Example patch_lost_update : world_files (patch_execute id 7 tool twice_input read_world)
  = [(as_bytes "/ws/a.txt", as_bytes "one
2
")].
Proof. vm_compute. reflexivity. Qed.
Definition final_disk (r : option (World MemDisk ListLru * ToolResult)) : MemDisk :=
  match r with Some (w, _) => disk w | None => one_file end.
Definition went_well (r : option (World MemDisk ListLru * ToolResult)) : bool :=
  match r with Some (_, out) => negb (is_error out) | None => false end.
Lemma went_well_spec r : went_well r = true → ∃ w out, r = Some (w, out) ∧ is_error out = false ∧ final_disk r = disk w.
Proof. destruct r as [[w out]|]; [|done]. intros H%negb_true_iff. by exists w, out. Qed.
Definition in_ws (path : bytes) : bytes := resolve_against_cwd path (tool_cwd tool).
Definition edit_input : Value N := Object [(as_bytes "file_path", Str (as_bytes "a.txt"));
  (as_bytes "old_string", Str (as_bytes "one")); (as_bytes "new_string", Str (as_bytes "1"))].
Definition write_input : Value N := Object [(as_bytes "file_path", Str (as_bytes "c.txt")); (as_bytes "content", Str (as_bytes "c"))].
