(* ===== verification/Conversation.v ===== *)
(** Conversations as the agent loop and its compaction see them
    (agent/nomi-types/src/message.rs, tool.rs, compact.rs). *)
From S2P Require Import Prelude Bytes Text Json.

Record ToolImage := mkToolImage { image_media_type : bytes; image_data : bytes }.
Inductive ContentBlock (Num : Type) :=
| TextBlock (text : bytes)
| ToolUse (id name : bytes) (input : Value Num) (extra : option (Value Num))
| ToolResult (tool_use_id content : bytes) (is_error : bool) (images : list ToolImage)
| Thinking (thinking : bytes) (signature : option bytes)
| Image (media_type data : bytes).
Arguments TextBlock {Num} text.
Arguments ToolUse {Num} id name input extra.
Arguments ToolResult {Num} tool_use_id content is_error images.
Arguments Thinking {Num} thinking signature.
Arguments Image {Num} media_type data.
Inductive Role := User | Assistant | System | Tool.
#[export] Instance Role_eq_dec : EqDecision Role.
Proof. solve_decision. Defined.
(** Times are nanoseconds. *)
Record Message (Num : Type) := mkMessage {
  role : Role;
  content : list (ContentBlock Num);
  timestamp : option Z;
  provider_round_id : option bytes;
}.
Arguments mkMessage {Num}.
Arguments role {Num}.
Arguments content {Num}.
Arguments timestamp {Num}.
Arguments provider_round_id {Num}.
Inductive CompactTrigger := AutoTrigger | ManualTrigger | IdleTrigger.
#[export] Instance CompactTrigger_eq_dec : EqDecision CompactTrigger.
Proof. solve_decision. Defined.
Record CompactMetadata := mkMetadata { trigger : CompactTrigger; pre_compact_tokens : N; messages_summarized_meta : nat }.

Section messages.
Context {Num : Type}.
Abbreviation Message := (Message Num).
Abbreviation ContentBlock := (ContentBlock Num).

Definition TURN_TAIL_CONTEXT_PREFIX : bytes := as_bytes "[Context]" ++ [u8 10].
Definition message_new (r : Role) (c : list ContentBlock) : Message := mkMessage r c None None.
Definition message_now (now : Z) (r : Role) (c : list ContentBlock) : Message := mkMessage r c (Some now) None.
Definition is_tool_result (b : ContentBlock) : bool := match b with ToolResult _ _ _ _ => true | _ => false end.
Definition is_tool_use (b : ContentBlock) : bool := match b with ToolUse _ _ _ _ => true | _ => false end.
Definition is_text (b : ContentBlock) : bool := match b with TextBlock _ => true | _ => false end.
Definition starts_user_turn (m : Message) : bool :=
  bool_decide (role m = User) && negb (existsb is_tool_result (content m))
  && existsb (λ b, match b with
       | TextBlock text => negb (str_starts_with TURN_TAIL_CONTEXT_PREFIX text) && negb (str_is_blank text)
       | Image _ _ => true
       | _ => false
       end) (content m).
Definition clear_round_id (m : Message) : Message := mkMessage (role m) (content m) (timestamp m) None.
Definition clear_provider_round_ids (ms : list Message) : list Message * bool :=
  (clear_round_id <$> ms, existsb (λ m, bool_decide (is_Some (provider_round_id m))) ms).
End messages.
