(* ===== verification/SummaryPrompt.v ===== *)
(** The summarizer's prompt and the text around its answer
    (agent/nomi-agent/src/compact/prompt.rs). *)
From S2P Require Import Prelude Bytes Text.

(** ** Templates *)

Definition LF : bytes := [u8 10].
Definition COMPACT_SYSTEM_PROMPT : bytes :=
  text ["You are compacting the earlier part of a coding agent's conversation to save context. The agent ";
        "keeps your summary alongside the user's own turns (kept verbatim) and the recent tail; your job is ";
        "to fold the assistant/tool work into a briefing it can resume from. If the conversation already ";
        "contains a prior compact briefing, merge it into this one; treat that briefing as prior agent ";
        "state, not as a user request."].
Definition PREAMBLE : bytes :=
  as_bytes "CRITICAL: Respond with TEXT ONLY. Do NOT call any tools."
  ++ LF
  ++ as_bytes "- Do NOT use Read, Bash, Grep, Glob, Edit, Write, or ANY other tool."
  ++ LF
  ++ as_bytes "- You already have all the context you need in the conversation above."
  ++ LF
  ++ as_bytes "- Tool calls will be REJECTED and will waste your only turn — you will fail the task."
  ++ LF
  ++ as_bytes "- Your entire response must be plain text inside a <summary> block.".
Definition BODY : bytes :=
  text ["Your task is to write a next-turn briefing: keep only what the agent still needs to continue the ";
        "work. Do not try to capture everything. Drop resolved detours, duplicated file dumps, and details ";
        "the recent tail already shows. The user's own messages are kept verbatim alongside your summary, so ";
        "do NOT reproduce user messages."]
  ++ LF
  ++ LF
  ++ as_bytes "The conversation may already contain a prior compact briefing (a message that starts with "
  ++ DQUOTE
  ++ as_bytes "This session is being continued"
  ++ DQUOTE
  ++ text [" or similar). That briefing is prior agent state. Merge it into this one; do not ignore it as a ";
        "user message to avoid restating."]
  ++ LF
  ++ LF
  ++ as_bytes "Your summary should include the following sections:"
  ++ LF
  ++ LF
  ++ as_bytes "1. **Standing Facts & Constraints**: Names, paths, IDs, versions, preferences, and hard "
  ++ DQUOTE
  ++ as_bytes "never do X"
  ++ DQUOTE
  ++ as_bytes " rules that still govern the work."
  ++ LF
  ++ as_bytes "2. **Goal**: The user's request and intent."
  ++ LF
  ++ text ["3. **Decisions & Rationale**: Key choices made so far and why — so they are not re-litigated or ";
        "reversed."]
  ++ LF
  ++ text ["4. **Files & Code**: Files read or modified, with the specific facts that still matter: signatures, ";
        "line locations, data shapes, and exact edits applied."]
  ++ LF
  ++ text ["5. **Commands & Outcomes**: Commands run (builds, tests, git) and the results that still matter — ";
        "what passed, what failed, and the error text that is still relevant."]
  ++ LF
  ++ text ["6. **Errors & Fixes**: Problems hit and how they were resolved (or not), so the same dead ends are ";
        "not repeated."]
  ++ LF
  ++ text ["7. **Pending & Next Step**: What is still in progress or unstarted, and the single most concrete ";
        "next action to take. If progress is blocked on something only the user can resolve (an elevation or ";
        "consent prompt, credentials, an approval, a decision), start this section with `BLOCKED:` and state ";
        "what the user must do; the next step is then to report that, not to retry."].
Definition FORMAT_INSTRUCTIONS : bytes :=
  as_bytes "Format your response exactly as follows:"
  ++ LF
  ++ LF
  ++ as_bytes "<summary>"
  ++ LF
  ++ as_bytes "Your structured next-turn briefing following the 7 sections above"
  ++ LF
  ++ as_bytes "</summary>".
Definition REMINDER : bytes :=
  text ["REMINDER: Do NOT call any tools. Respond with plain text only — a <summary> block. If a prior ";
        "compact briefing is present, merge it. Tool calls will be rejected and you will fail the task."].
Definition PROJECT_HEADING : bytes :=
  as_bytes "Compact Instructions (from AGENTS.md — keep these facts in the briefing):"
  ++ LF.
Definition FOCUS_HEADING : bytes :=
  as_bytes "Compact Instructions (user-specified focus — prioritize these in the briefing):"
  ++ LF.
Definition SUMMARY_INTRO : bytes :=
  text ["This session is being continued from a previous conversation that ran out of context. The summary ";
        "below covers the earlier portion of the conversation."]
  ++ LF
  ++ LF.
Definition CONTINUE_INSTRUCTION : bytes :=
  LF
  ++ LF
  ++ text ["Continue the conversation from where it left off without asking the user any further questions. ";
        "Resume directly — do not acknowledge the summary, do not recap what was happening, do not preface ";
        "with "]
  ++ DQUOTE
  ++ as_bytes "I'll continue"
  ++ DQUOTE
  ++ as_bytes " or similar. Pick up the last task as if the break never happened."
  ++ LF
  ++ LF
  ++ text ["Exception: if the summary marks the work BLOCKED on something only the user can provide or approve, ";
        "do not retry or look for a workaround. Tell the user what is blocked, what was already tried, and ";
        "the exact action needed from them, then end the turn."].
(** ** Building the prompt *)

(** [opt.map(str::trim).filter(|s| !s.is_empty())] under a heading *)
Definition instruction_block (heading : bytes) (instructions : option bytes) : bytes :=
  match bytes_trim <$> instructions with
  | Some (b :: l) => heading ++ (b :: l) ++ LF ++ LF
  | _ => []
  end.
Definition build_compact_prompt (focus project_instructions : option bytes) : bytes :=
  instruction_block PROJECT_HEADING project_instructions ++ instruction_block FOCUS_HEADING focus
  ++ PREAMBLE ++ LF ++ LF ++ BODY ++ LF ++ LF ++ FORMAT_INSTRUCTIONS ++ LF ++ LF ++ REMINDER.

(** ** Reading the answer *)

Fixpoint collapse_loop (result : bytes) (prev_was_blank : bool) (ls : list bytes) : bytes :=
  match ls with
  | [] => result
  | line :: ls =>
      let is_blank := str_is_blank line in
      if is_blank && prev_was_blank then collapse_loop result prev_was_blank ls
      else
        let result := match result with [] => [] | _ => result ++ LF end in
        collapse_loop (result ++ line) is_blank ls
  end.
Definition collapse_blank_lines (l : bytes) : bytes := collapse_loop [] false (lines l).
Definition open_tag (tag : string) : bytes := as_bytes "<" ++ as_bytes tag ++ as_bytes ">".
Definition close_tag (tag : string) : bytes := as_bytes "</" ++ as_bytes tag ++ as_bytes ">".
Definition strip_tag (l : bytes) (tag : string) : bytes :=
  match find_subsequence (open_tag tag) l, find_subsequence (close_tag tag) l with
  | Some start, Some end_ =>
      if end_ <? start then l
      else collapse_blank_lines (take start l ++ drop (end_ + length (close_tag tag)) l)
  | _, _ => l
  end.
Definition extract_tag_content (l : bytes) (tag : string) : option bytes :=
  i ← find_subsequence (open_tag tag) l;
  let start := i + length (open_tag tag) in
  end_ ← find_subsequence (close_tag tag) l;
  if start <=? end_ then Some (take (end_ - start) (drop start l)) else None.
Definition format_compact_summary (raw : bytes) : bytes :=
  let without_analysis := strip_tag raw "analysis" in
  match extract_tag_content without_analysis "summary" with
  | Some summary_content =>
      match bytes_trim summary_content with
      | [] => bytes_trim (collapse_blank_lines without_analysis)
      | trimmed => as_bytes "Summary:" ++ LF ++ trimmed
      end
  | None => bytes_trim (collapse_blank_lines without_analysis)
  end.

(** ** The continuation message *)

Definition archive_notice (rel_path : bytes) : bytes :=
  as_bytes "Full prior transcript archived at `" ++ rel_path ++ as_bytes "`. Read or Grep that file if you need details.".
(** [opt.filter(|p| !p.is_empty())] *)
Definition non_empty (p : option bytes) : option bytes := match p with Some [] => None | _ => p end.
Definition build_summary_content (formatted_summary : bytes) (is_auto : bool) (archive_rel : option bytes) : bytes :=
  SUMMARY_INTRO
  ++ match non_empty archive_rel with Some path => archive_notice path ++ LF ++ LF | None => [] end
  ++ formatted_summary ++ (if is_auto then CONTINUE_INSTRUCTION else []).

Lemma summary_content_prefix f a r : take 31 (build_summary_content f a r) = as_bytes "This session is being continued".
Proof. reflexivity. Qed.
