(* ===== verification/LlmStream.v ===== *)
(** Answers of a model provider as the summarizer of a compaction reads them
    (agent/nomi-types/src/llm.rs, nomi-providers/src/lib.rs and the stream of
    nomi-agent/src/compact/auto.rs). *)
From S2P Require Import Prelude Bytes Text Json.

Inductive StopReason := EndTurn | StopToolUse | MaxTokens | MaxTurns | Refusal.
#[export] Instance StopReason_eq_dec : EqDecision StopReason.
Proof. solve_decision. Defined.
Record TokenUsage := mkUsage {
  input_tokens : N;
  output_tokens : N;
  reasoning_tokens : N;
  cache_creation_tokens : N;
  cache_read_tokens : N;
}.
Inductive LlmEvent (Num : Type) :=
| TextDelta (delta : bytes)
| ToolUseEvent (id name : bytes) (input : Value Num) (extra : option (Value Num))
| ToolUseMalformed (id name error : bytes) (extra : option (Value Num))
| ToolUseDelta (id name : bytes) (input : option (Value Num))
| ToolUseTruncated (id name : bytes) (argument_bytes : N)
| ThinkingDelta (delta : bytes)
| ThinkingSignature (signature : bytes)
| ProviderRoundId (id : bytes)
| Done (stop_reason : StopReason) (usage : TokenUsage)
| ErrorEvent (message : bytes).
Arguments TextDelta {Num} delta.
Arguments ToolUseEvent {Num} id name input extra.
Arguments ToolUseMalformed {Num} id name error extra.
Arguments ToolUseDelta {Num} id name input.
Arguments ToolUseTruncated {Num} id name argument_bytes.
Arguments ThinkingDelta {Num} delta.
Arguments ThinkingSignature {Num} signature.
Arguments ProviderRoundId {Num} id.
Arguments Done {Num} stop_reason usage.
Arguments ErrorEvent {Num} message.

(** ** Provider errors.  [Http] holds the display of the client library's error. *)

Inductive ProviderError :=
| ConfigError (message : bytes)
| Http (display : bytes)
| Api (status : N) (message : bytes)
| ParseError (message : bytes)
| RateLimited (retry_after_ms : N) (message : bytes)
| PromptTooLong (message : bytes)
| Connection (message : bytes)
| InitialRequestTimeout (message : bytes)
| StreamTruncated (message : bytes).
Definition provider_error_text (e : ProviderError) : bytes :=
  match e with
  | ConfigError m => as_bytes "Provider configuration error: " ++ m
  | Http m => as_bytes "HTTP error: " ++ m
  | Api status m => as_bytes "API error " ++ decimal status ++ as_bytes ": " ++ m
  | ParseError m => as_bytes "SSE parse error: " ++ m
  | RateLimited ms m => as_bytes "Rate limited, retry after " ++ decimal ms ++ as_bytes "ms: " ++ m
  | PromptTooLong m => as_bytes "Prompt too long: " ++ m
  | Connection m => as_bytes "Connection error: " ++ m
  | InitialRequestTimeout m => as_bytes "Initial request timeout: " ++ m
  | StreamTruncated m => as_bytes "Provider stream truncated: " ++ m
  end.
Definition is_context_overflow_text (message : bytes) : bool :=
  contains_any (str_lower message)
    ["prompt is too long"; "prompt_too_long"; "context_length_exceeded"; "context length exceeded";
     "maximum context length"; "max context length"; "please reduce the length of the messages";
     "input is too long"; "too many tokens"; "token count exceeds"; "exceeds the context window";
     "exceeded the context window"; "context window exceeded"; "request too large"]%string.
Definition is_context_overflow_status_body (status : N) (body : bytes) : bool :=
  ((status =? 400) || (status =? 413) || (status =? 422))%N && is_context_overflow_text body.
Definition is_context_overflow (e : ProviderError) : bool :=
  match e with
  | PromptTooLong _ => true
  | Api status m => is_context_overflow_status_body status m
  | ParseError m => is_context_overflow_text m
  | _ => false
  end.

(** ** Errors of a compaction and the text of a stream (compact/auto.rs) *)

Inductive CompactError :=
| Provider (e : ProviderError)
| PromptTooLongAfter (attempts : N)
| EmptyResponse
| StreamError (message : bytes)
| CircuitBroken (failures : N).
Definition compact_error_text (e : CompactError) : bytes :=
  match e with
  | Provider e => as_bytes "LLM provider error: " ++ provider_error_text e
  | PromptTooLongAfter n => as_bytes "Prompt too long after " ++ decimal n ++ as_bytes " retries"
  | EmptyResponse => as_bytes "Empty response from LLM"
  | StreamError m => as_bytes "Stream error: " ++ m
  | CircuitBroken n => as_bytes "Circuit breaker tripped after " ++ decimal n ++ as_bytes " consecutive failures"
  end.
Definition stop_reason_debug (r : StopReason) : bytes :=
  as_bytes match r with
           | EndTurn => "EndTurn" | StopToolUse => "ToolUse" | MaxTokens => "MaxTokens"
           | MaxTurns => "MaxTurns" | Refusal => "Refusal"
           end%string.
Definition stream_error (m : string) : CompactError := StreamError (as_bytes m).

Section stream.
Context {Num : Type}.
Abbreviation LlmEvent := (LlmEvent Num).
(** The text so far and the terminal event, at one event of the stream *)
Definition stream_step (txt : bytes) (event : LlmEvent) : CompactError + (bytes * option (StopReason * TokenUsage)) :=
  match event with
  | TextDelta delta => inr (txt ++ delta, None)
  | Done stop_reason usage => inr (txt, Some (stop_reason, usage))
  | ErrorEvent e =>
      inl (if is_context_overflow_text e then Provider (PromptTooLong e) else StreamError e)
  | ToolUseEvent _ _ _ _ | ToolUseDelta _ _ _ | ToolUseTruncated _ _ _ | ToolUseMalformed _ _ _ _ =>
      inl (stream_error "provider emitted a tool call for a tool-less autocompaction request")
  | ProviderRoundId _ =>
      inl (stream_error "provider emitted a retained round id for a non-retainable autocompaction request")
  | ThinkingDelta _ | ThinkingSignature _ => inr (txt, None)
  end.
Definition stream_end (txt : bytes) (terminal : option (StopReason * TokenUsage)) : CompactError + (bytes * TokenUsage) :=
  match terminal with
  | None => inl (stream_error "provider stream ended without terminal Done during autocompaction")
  | Some (stop_reason, usage) =>
      if bool_decide (stop_reason ≠ EndTurn) then
        inl (StreamError (as_bytes "provider stopped autocompaction with " ++ stop_reason_debug stop_reason))
      else if str_is_blank txt then inl EmptyResponse
      else inr (txt, usage)
  end.
Fixpoint collect_loop (txt : bytes) (terminal : option (StopReason * TokenUsage)) (events : list LlmEvent) :
    CompactError + (bytes * TokenUsage) :=
  match events with
  | [] => stream_end txt terminal
  | event :: events =>
      match terminal with
      | Some _ => inl (stream_error "provider emitted an event after terminal Done during autocompaction")
      | None =>
          match stream_step txt event with
          | inl e => inl e
          | inr (txt, terminal) => collect_loop txt terminal events
          end
      end
  end.
Definition collect_stream_text (events : list LlmEvent) : CompactError + (bytes * TokenUsage) := collect_loop [] None events.

(** ** Which streams are accepted *)

Definition delta_of (event : LlmEvent) : bytes := match event with TextDelta d => d | _ => [] end.
Definition is_content (event : LlmEvent) : bool :=
  match event with TextDelta _ | ThinkingDelta _ | ThinkingSignature _ => true | _ => false end.
Lemma collect_loop_spec txt events t u :
  collect_loop txt None events = inr (t, u) ↔
  ∃ body, events = body ++ [Done EndTurn u] ∧ forallb is_content body ∧
    t = txt ++ concat (delta_of <$> body) ∧ str_is_blank t = false.
Proof.
  revert txt. induction events as [|e events IH]; intros txt; simpl.
  { split; [done|]. intros ([|? ?] & He & _); done. }
  assert (Hskip : ∀ txt', is_content e = true → txt' = txt ++ delta_of e →
    collect_loop txt' None events = inr (t, u) ↔
    ∃ body, e :: events = body ++ [Done EndTurn u] ∧ forallb is_content body ∧
      t = txt ++ concat (delta_of <$> body) ∧ str_is_blank t = false).
  { intros txt' Hc ->. rewrite IH. split.
    - intros (body & -> & Hb & -> & Ht). exists (e :: body). simpl. rewrite Hc. by rewrite <- app_assoc in Ht |- *.
    - intros ([|e' body] & He & Hb & -> & Ht); simplify_eq/=. exists body.
      apply andb_prop_elim in Hb as [_ Hb]. by rewrite <- app_assoc. }
  assert (Hbad : ∀ err : CompactError, is_content e = false → (∀ r u', e ≠ Done r u') →
    @inl CompactError (bytes * TokenUsage) err = inr (t, u) ↔
    ∃ body, e :: events = body ++ [Done EndTurn u] ∧ forallb is_content body ∧
      t = txt ++ concat (delta_of <$> body) ∧ str_is_blank t = false).
  { intros err Hc Hd. split; [done|]. intros ([|e' body] & He & Hb & _); simplify_eq/=.
    - by destruct (Hd EndTurn u).
    - by rewrite Hc in Hb. }
  destruct e as [d| | | | |d|s| |r usage|]; simpl;
    try (apply Hbad; [done|by intros]; fail).
  - by apply Hskip.
  - by apply Hskip; simpl; rewrite ?app_nil_r.
  - by apply Hskip; simpl; rewrite ?app_nil_r.
  - destruct events as [|e' events]; simpl.
    + case_bool_decide as Hr; [|destruct (str_is_blank txt) eqn:Hb].
      * split; [done|]. intros ([|? [|? ?]] & He & _); simplify_eq/=.
      * split; [done|]. intros ([|? [|? ?]] & He & _ & Ht & Hbl); simplify_eq/=.
        rewrite app_nil_r in Hbl. congruence.
      * split.
        -- intros [= <- <-]. exists []. simpl. by rewrite Hr, app_nil_r.
        -- intros ([|? [|? ?]] & He & _ & Ht & _); [|discriminate He..].
           simplify_eq/=. by rewrite app_nil_r.
    + split; [done|]. intros ([|? body] & He & Hb & _); simplify_eq/=. done.
Qed.
End stream.
