(* ===== verification/Compaction.v ===== *)
(** Compaction of conversations (agent/nomi-agent/src/compact and the engine's
    compaction in engine/mod.rs): token estimates, the cheap layers, the plan of a
    fold, and the log that undoes in-place rewrites.  serde_json's lengths, the
    provider's answers, the archive and the content-reference store are arguments. *)
From S2P Require Import Prelude Bytes Text Json Float64 Conversation SummaryPrompt.

(** ** Configuration (nomi-config/src/compact.rs), the part compaction reads *)

Record CompactConfig := mkCompactConfig {
  context_window : N;
  output_reserve : N;
  autocompact_buffer : N;
  emergency_buffer : N;
  max_failures : N;
  micro_keep_recent : N;
  micro_gap_seconds : N;
  compactable_tools : list bytes;
  autocompact_threshold_pct : option N;
  autocompact_max_tokens : option N;
  idle_compact_seconds : N;
  idle_autocompact_pct : N;
  compact_enabled : bool;
}.
Definition U64 : N := 18446744073709551616.
(** [as i64] *)
Definition as_i64 (n : N) : Z := ((Z.of_N n + 9223372036854775808) mod 18446744073709551616 - 9223372036854775808)%Z.
(** [(window as f64 * num/den) as usize] *)
Definition window_part (config : CompactConfig) (num den : N) : N :=
  u64_of_f64 (f64_mul (f64_of_u64 (context_window config)) (f64_lit num den)).
(** [tokens as f64 >= window as f64 * num/den] *)
Definition at_window_part (tokens : N) (config : CompactConfig) (num den : N) : bool :=
  f64_le (f64_mul (f64_of_u64 (context_window config)) (f64_lit num den)) (f64_of_u64 tokens).

Section compaction.
Context {Num : Type}.
(** The length of a value's JSON text *)
Context (json_byte_len : Value Num → N).
Abbreviation Message := (Message Num).
Abbreviation ContentBlock := (ContentBlock Num).

(** ** estimate.rs *)

Definition CHARS_PER_TOKEN_TEXT : N := 4.
Definition CHARS_PER_TOKEN_JSON : N := 3.
Definition TOKENS_PER_IMAGE : N := 1600.
Definition blen (l : bytes) : N := N.of_nat (length l).
Definition estimate_tokens_from_text (text : bytes) : N := blen text / CHARS_PER_TOKEN_TEXT.
(** Text characters, JSON characters and image tokens of a block *)
Definition block_size (b : ContentBlock) : N * N * N :=
  match b with
  | TextBlock text => (blen text, 0, 0)
  | Thinking thinking _ => (blen thinking, 0, 0)
  | ToolUse _ name input _ => (0, blen name + json_byte_len input, 0)
  | ToolResult _ c _ images => (blen c, 0, N.of_nat (length images) * TOKENS_PER_IMAGE)
  | Image _ _ => (0, 0, TOKENS_PER_IMAGE)
  end%N.
Definition sum_sizes (bs : list ContentBlock) : N * N * N :=
  foldr (λ b '(t, j, i), let '(t1, j1, i1) := block_size b in (t1 + t, j1 + j, i1 + i))%N (0, 0, 0)%N bs.
Definition estimate_tokens_from_message (m : Message) : N :=
  let '(text, json, image) := sum_sizes (content m) in
  (text / CHARS_PER_TOKEN_TEXT + json / CHARS_PER_TOKEN_JSON + image)%N.
Definition estimate_tokens_from_messages (ms : list Message) : N :=
  foldr (λ m acc, estimate_tokens_from_message m + acc)%N 0%N ms.
Record ToolDef := mkToolDef { tool_name : bytes; description : bytes; input_schema : Value Num; deferred : bool }.
Definition estimate_tokens_from_tool_def (tool : ToolDef) : N :=
  let schema_tokens := if deferred tool then 0%N else (json_byte_len (input_schema tool) / CHARS_PER_TOKEN_JSON)%N in
  u64_sat_add (u64_sat_add (estimate_tokens_from_text (tool_name tool)) (estimate_tokens_from_text (description tool)))
    schema_tokens.
Definition estimate_tokens_from_request (system_prompt : bytes) (tools : list ToolDef) (ms : list Message)
    (turn_tail : option bytes) : N :=
  let total := foldl (λ total tool, u64_sat_add total (estimate_tokens_from_tool_def tool))
                 (estimate_tokens_from_text system_prompt) tools in
  let total := u64_sat_add total (estimate_tokens_from_messages ms) in
  match non_empty turn_tail with Some tail => u64_sat_add total (estimate_tokens_from_text tail) | None => total end.

(** ** emergency.rs and the triggers of auto.rs *)

Definition is_at_emergency_limit (last_input_tokens : N) (config : CompactConfig) : bool :=
  (context_window config - emergency_buffer config <=? last_input_tokens)%N.
Definition autocompact_threshold (config : CompactConfig) : N :=
  let relative :=
    match autocompact_threshold_pct config with
    | Some pct => (context_window config * pct) mod U64 / 100
    | None => context_window config - output_reserve config - autocompact_buffer config
    end%N in
  match autocompact_max_tokens config with
  | Some cap => if (0 <? cap)%N then N.min relative cap else relative
  | None => relative
  end.
Definition should_autocompact (last_input_tokens : N) (config : CompactConfig) : bool :=
  if negb (compact_enabled config) then false else (autocompact_threshold config <=? last_input_tokens)%N.
Definition should_compact_before_turn (last_input_tokens : N) (config : CompactConfig) : bool :=
  if negb (compact_enabled config) then false
  else should_autocompact last_input_tokens config || (context_window config <=? last_input_tokens)%N.
Definition should_idle_autocompact (last_input_tokens : N) (config : CompactConfig) : bool :=
  if negb (compact_enabled config) then false
  else if should_autocompact last_input_tokens config then true
  else if (idle_autocompact_pct config =? 0)%N then false
  else (N.min (context_window config * idle_autocompact_pct config) u64_max / 100 <=? last_input_tokens)%N.

(** ** Artifacts and small user turns *)

Definition BOUNDARY_PREFIX : bytes := as_bytes "[Conversation compacted]".
Definition SUMMARY_PREFIX : bytes := as_bytes "This session is being continued".
Definition has_text_prefix (p : bytes) (m : Message) : bool :=
  existsb (λ b, match b with TextBlock text => str_starts_with p text | _ => false end) (content m).
Definition is_compact_boundary (m : Message) : bool := has_text_prefix BOUNDARY_PREFIX m.
Definition is_compact_summary (m : Message) : bool := has_text_prefix SUMMARY_PREFIX m.
Definition is_compaction_artifact (m : Message) : bool := is_compact_boundary m || is_compact_summary m.
Definition is_tool_result_message (m : Message) : bool :=
  bool_decide (role m = User) && existsb is_tool_result (content m).
Definition MAX_PINNED_FIRST_USER_TOKENS : N := 1500.
Definition is_pinnable_user_turn (m : Message) (config : CompactConfig) : bool :=
  if bool_decide (role m ≠ User) then false
  else if negb (existsb is_text (content m)) || existsb is_tool_result (content m) then false
  else
    let budget := N.min MAX_PINNED_FIRST_USER_TOKENS (window_part config 15 100) in
    (estimate_tokens_from_messages [m] <=? budget)%N.

(** ** snip.rs *)

Definition DEFAULT_SNIP_KEEP_TAIL : nat := 24.
Fixpoint plain_text_loop (saw_text : bool) (bs : list ContentBlock) : bool :=
  match bs with
  | [] => saw_text
  | (ToolUse _ _ _ _ | ToolResult _ _ _ _) :: _ => false
  | (TextBlock _ | Thinking _ _) :: bs => plain_text_loop true bs
  | Image _ _ :: bs => plain_text_loop saw_text bs
  end.
Definition is_plain_text_turn (m : Message) : bool := plain_text_loop false (content m).
Definition snippable (config : CompactConfig) (m : Message) : bool :=
  negb (is_compaction_artifact m || is_pinnable_user_turn m config)
  && (bool_decide (role m = User) || bool_decide (role m = Assistant)) && is_plain_text_turn m.
Definition snip_indices (ms : list Message) (keep_tail : nat) (config : CompactConfig) : list nat :=
  if bool_decide (length ms ≤ keep_tail + 1) then []
  else
    let tail_start := length ms - Nat.max keep_tail 1 in
    filter (λ i, negb (i =? 0) && (i <? tail_start)
                 && match ms !! i with Some m => snippable config m | None => false end = true) (seq 0 (length ms)).
(** The indices are removed from the last to the first. *)
Definition remove_all (indices : list nat) (ms : list Message) : list Message := foldr (λ i l, delete i l) ms indices.
Definition snip_old_plain_turns (ms : list Message) (keep_tail : nat) (config : CompactConfig) : list Message * nat :=
  let drop_idx := snip_indices ms keep_tail config in (remove_all drop_idx ms, length drop_idx).
Definition collapse_notice (removed : nat) (archive_rel : option bytes) : bytes :=
  as_bytes "[Context collapse] Dropped " ++ decimal (N.of_nat removed)
  ++ text [" older plain turns. Keep Goal / Files / Decisions / Errors / Next from the remaining transcript and ";
           "WorkingSet. Do not restart a workspace tour."]
  ++ match non_empty archive_rel with Some path => as_bytes " " ++ archive_notice path | None => [] end.

(** ** micro.rs *)

Definition PRUNE_PROTECT_TOKENS : N := 40000.
Definition CLEARED_TOOL_RESULT : bytes := as_bytes "[Tool result cleared]".
Record ClearedToolBody := mkBody { message_index : nat; block_index : nat; body_content : bytes; body_images : list ToolImage }.
Record MicrocompactResult := mkMicro {
  cleared_count : nat;
  estimated_tokens_freed : N;
  cleared_read_paths : list bytes;
  cleared_bodies : list ClearedToolBody;
}.
Definition blocks (ms : list Message) : list ContentBlock := concat (content <$> ms).
Definition build_tool_name_map (ms : list Message) : gmap bytes bytes :=
  foldl (λ m b, match b with ToolUse id name _ _ => <[id := name]> m | _ => m end) ∅ (blocks ms).
Definition read_paths_of (input : Value Num) : list bytes :=
  option_list (get (as_bytes "file_path") input ≫= as_str)
  ++ omap as_str (default [] (get (as_bytes "file_paths") input ≫= as_array)).
Definition build_read_path_map (ms : list Message) : gmap bytes (list bytes) :=
  foldl (λ m b,
    match b with
    | ToolUse id name input _ =>
        if bool_decide (str_lower name = as_bytes "read") then
          match read_paths_of input with [] => m | paths => <[id := paths]> m end
        else m
    | _ => m
    end) ∅ (blocks ms).
Definition is_compactable_and_live (tool_names : gmap bytes bytes) (compactable : list bytes) (b : ContentBlock) : bool :=
  match b with
  | ToolResult tool_use_id c _ _ =>
      if str_starts_with CLEARED_TOOL_RESULT c then false
      else match tool_names !! tool_use_id with Some name => bool_decide (name ∈ compactable) | None => false end
  | _ => false
  end.
Definition time_trigger (now : Z) (ms : list Message) (config : CompactConfig) : bool :=
  match head (omap timestamp (filter (λ m, role m = Assistant) (rev ms))) with
  | None => false
  | Some ts => (as_i64 (micro_gap_seconds config) <=? Z.quot (now - ts) 1000000000)%Z
  end.
Definition count_trigger (ms : list Message) (config : CompactConfig) : bool :=
  let live := is_compactable_and_live (build_tool_name_map ms) (compactable_tools config) in
  ((micro_keep_recent config * 2) mod U64 <? N.of_nat (length (filter (λ b, live b = true) (blocks ms))))%N.
Definition should_microcompact (now : Z) (ms : list Message) (config : CompactConfig) : bool :=
  if negb (compact_enabled config) then false else time_trigger now ms config || count_trigger ms config.

(** Message and block index of every live result, in order *)
Definition block_locations (live : ContentBlock → bool) (mi : nat) (m : Message) : list (nat * nat) :=
  (λ bi, (mi, bi)) <$> filter (λ bi, match content m !! bi with Some b => live b | None => false end = true)
                              (seq 0 (length (content m))).
Definition locations (live : ContentBlock → bool) (ms : list Message) : list (nat * nat) :=
  concat (imap (block_locations live) ms).
Definition block_at (ms : list Message) (loc : nat * nat) : option ContentBlock :=
  m ← ms !! loc.1; content m !! loc.2.
Definition result_tokens (b : option ContentBlock) : N :=
  match b with Some (ToolResult _ c _ _) => blen c / 4 | _ => 0 end%N.
Fixpoint protect_loop (sizes : list N) (total keep : nat) (tokens : N) : nat :=
  match sizes with
  | [] => keep
  | n :: sizes =>
      let keep := S keep in
      let tokens := (tokens + n)%N in
      if (PRUNE_PROTECT_TOKENS <=? tokens)%N || (keep =? total) then keep else protect_loop sizes total keep tokens
  end.
Definition keep_recent_count (targets : list (nat * nat)) (ms : list Message) (min_keep : N) : nat :=
  match targets with
  | [] => 0
  | _ =>
      let min_keep := N.to_nat (N.min min_keep (N.of_nat (length targets))) in
      let sizes := (λ loc, result_tokens (block_at ms loc)) <$> targets in
      if (foldr N.add 0 sizes <=? PRUNE_PROTECT_TOKENS)%N then min_keep
      else Nat.max (protect_loop (rev sizes) (length targets) 0 0) min_keep
  end.
Definition map_block (f : ContentBlock → ContentBlock) (loc : nat * nat) (ms : list Message) : list Message :=
  alter (λ m, mkMessage (role m) (alter f loc.2 (content m)) (timestamp m) (provider_round_id m)) loc.1 ms.
Definition set_result (c : bytes) (images : list ToolImage) (b : ContentBlock) : ContentBlock :=
  match b with ToolResult id _ is_error _ => ToolResult id c is_error images | _ => b end.
Definition clear_step (read_paths : gmap bytes (list bytes)) (st : list Message * MicrocompactResult) (loc : nat * nat) :
    list Message * MicrocompactResult :=
  let '(ms, r) := st in
  match block_at ms loc with
  | Some (ToolResult id c _ images) =>
      (map_block (set_result CLEARED_TOOL_RESULT []) loc ms,
       mkMicro (S (cleared_count r)) (estimated_tokens_freed r + blen c / 4)%N
         (cleared_read_paths r ++ default [] (read_paths !! id))
         (cleared_bodies r ++ [mkBody loc.1 loc.2 c images]))
  | _ => (ms, r)
  end.
Definition nothing_cleared : MicrocompactResult := mkMicro 0 0 [] [].
Definition microcompact (ms : list Message) (config : CompactConfig) : list Message * MicrocompactResult :=
  let live := is_compactable_and_live (build_tool_name_map ms) (compactable_tools config) in
  let targets := locations live ms in
  let keep := keep_recent_count targets ms (N.max (micro_keep_recent config) 1) in
  if length targets <=? keep then (ms, nothing_cleared)
  else foldl (clear_step (build_read_path_map ms)) (ms, nothing_cleared) (take (length targets - keep) targets).
End compaction.
