(* ===== verification/AutoCompact.v ===== *)
(** The fold of a conversation (agent/nomi-agent/src/compact/auto.rs and state.rs):
    the state between compactions, the plan, the summarizer's retries, and the
    transcript that replaces the folded one. *)
From S2P Require Import Prelude Bytes Text Json Float64 Conversation SummaryPrompt LlmStream Compaction.

(** ** state.rs *)

Record CompactState := mkCompactState {
  consecutive_failures : N;
  last_input_tokens : N;
  last_provider_input_tokens : N;
  soft_compact_noticed : bool;
  imminent_compact_noticed : bool;
  consecutive_compacts : N;
  compact_stuck : bool;
  last_turn_ended_at : option Z;
}.
Definition new_state : CompactState := mkCompactState 0 0 0 false false 0 false None.
Definition wrap_u32 (n : N) : N := n mod 4294967296.
Definition set_failures (n : N) (s : CompactState) : CompactState :=
  mkCompactState n (last_input_tokens s) (last_provider_input_tokens s) (soft_compact_noticed s)
    (imminent_compact_noticed s) (consecutive_compacts s) (compact_stuck s) (last_turn_ended_at s).
Definition set_tokens (n : N) (s : CompactState) : CompactState :=
  mkCompactState (consecutive_failures s) n (last_provider_input_tokens s) (soft_compact_noticed s)
    (imminent_compact_noticed s) (consecutive_compacts s) (compact_stuck s) (last_turn_ended_at s).
Definition set_provider_tokens (n : N) (s : CompactState) : CompactState :=
  mkCompactState (consecutive_failures s) (last_input_tokens s) n (soft_compact_noticed s)
    (imminent_compact_noticed s) (consecutive_compacts s) (compact_stuck s) (last_turn_ended_at s).
Definition set_notices (soft imminent : bool) (s : CompactState) : CompactState :=
  mkCompactState (consecutive_failures s) (last_input_tokens s) (last_provider_input_tokens s) soft
    imminent (consecutive_compacts s) (compact_stuck s) (last_turn_ended_at s).
Definition set_stall (n : N) (stuck : bool) (s : CompactState) : CompactState :=
  mkCompactState (consecutive_failures s) (last_input_tokens s) (last_provider_input_tokens s)
    (soft_compact_noticed s) (imminent_compact_noticed s) n stuck (last_turn_ended_at s).
Definition is_circuit_broken (s : CompactState) (config : CompactConfig) : bool :=
  (max_failures config <=? consecutive_failures s)%N.
Definition record_success (s : CompactState) : CompactState := set_failures 0 s.
Definition record_failure (s : CompactState) : CompactState := set_failures (wrap_u32 (consecutive_failures s + 1)) s.
(** [SOFT_COMPACT_RATIO] is 1/2, [IMMINENT_COMPACT_RATIO] is 8/10. *)
Definition soft_threshold (config : CompactConfig) : N := window_part config 1 2.
Definition imminent_threshold (config : CompactConfig) : N := window_part config 8 10.
Definition check_soft_compact (s : CompactState) (config : CompactConfig) : CompactState * bool :=
  if (soft_threshold config <=? last_input_tokens s)%N && negb (soft_compact_noticed s) then
    (set_notices true (imminent_compact_noticed s) s, true)
  else (s, false).
Definition check_imminent_compact (s : CompactState) (config : CompactConfig) : CompactState * bool :=
  if (imminent_threshold config <=? last_input_tokens s)%N && negb (imminent_compact_noticed s) then
    (set_notices (soft_compact_noticed s) true s, true)
  else (s, false).
Definition SOFT_COMPACT_NOTICE : bytes :=
  text ["Context is about 50% full. Avoid re-reading files you already have, and prefer a short summary over ";
        "pasting large outputs."].
Definition IMMINENT_COMPACT_NOTICE : bytes :=
  text ["Context is about 80% full. Automatic compaction is imminent; finish the current step and avoid ";
        "opening new large files."].
Definition take_pressure_notices (s : CompactState) (config : CompactConfig) : CompactState * list bytes :=
  let '(s, soft) := check_soft_compact s config in
  let '(s, imminent) := check_imminent_compact s config in
  (s, (if soft then [SOFT_COMPACT_NOTICE] else []) ++ (if imminent then [IMMINENT_COMPACT_NOTICE] else [])).
Definition clear_compact_stall (s : CompactState) : CompactState := set_stall 0 false s.
Definition CONSECUTIVE_COMPACT_PAUSE : N := 2.
Definition record_consecutive_compact (s : CompactState) : CompactState * bool :=
  let n := wrap_u32 (consecutive_compacts s + 1) in
  if (CONSECUTIVE_COMPACT_PAUSE <=? n)%N && negb (compact_stuck s) then (set_stall n true s, true)
  else (set_stall n (compact_stuck s) s, false).
Definition maybe_reset_soft_notice (s : CompactState) (config : CompactConfig) : CompactState :=
  set_notices
    (if (last_input_tokens s <? soft_threshold config)%N then false else soft_compact_noticed s)
    (if (last_input_tokens s <? imminent_threshold config)%N then false else imminent_compact_noticed s) s.
Definition set_watermark (tokens : N) (config : CompactConfig) (s : CompactState) : CompactState :=
  maybe_reset_soft_notice (set_tokens tokens s) config.
Definition note_provider_input_tokens (tokens : N) (s : CompactState) : CompactState :=
  set_provider_tokens (N.max (last_provider_input_tokens s) tokens) s.
Definition reset_provider_input_tokens (s : CompactState) : CompactState := set_provider_tokens 0 s.
Definition note_compact_outcome (still_above_trigger : bool) (s : CompactState) : CompactState :=
  if still_above_trigger then (record_consecutive_compact s).1 else clear_compact_stall s.

(** ** The plan of a fold *)

Section autocompact.
Context {Num : Type}.
Context (json_byte_len : Value Num → N).
Abbreviation Message := (Message Num).
Abbreviation is_pinnable_user_turn := (is_pinnable_user_turn json_byte_len).
Abbreviation estimate := (estimate_tokens_from_messages json_byte_len).

Definition TAIL_TOKEN_BUDGET : N := 16384.
Definition MIN_RECENT_KEEP : nat := 4.
Definition MIN_COMPACT_MESSAGES : nat := 2.
Definition MIN_FOLD_TOKENS : N := 400.
Record CompactionPlan := mkPlan { head_len : nat; start : nat }.
Definition pinned_prefix_len (ms : list Message) (config : CompactConfig) : nat :=
  match ms with
  | m :: _ =>
      if bool_decide (role m = User) && negb (is_compaction_artifact m) && is_pinnable_user_turn m config then 1 else 0
  | [] => 0
  end.
(** The messages behind [head], newest first; [kept] of them are in the tail. *)
Fixpoint tail_loop (budget : N) (newest : list Message) (kept : nat) (acc : N) : nat :=
  match newest with
  | [] => kept
  | m :: newest =>
      let msg_tokens := estimate [m] in
      if (MIN_RECENT_KEEP <? S kept) && (budget <? acc + msg_tokens)%N then kept
      else tail_loop budget newest (S kept) (acc + msg_tokens)
  end.
(** [while start > head && start < len && p(messages[start]) { start -= 1 }] *)
Fixpoint step_back (p : Message → bool) (ms : list Message) (head start : nat) : nat :=
  match start with
  | 0 => 0
  | S start' =>
      if (head <? start) && match ms !! start with Some m => p m | None => false end then step_back p ms head start'
      else start
  end.
Definition align_tail_start (ms : list Message) (head start : nat) : nat :=
  let start := step_back is_tool_result_message ms head start in
  let start := step_back is_compact_summary ms head start in
  Nat.max start head.
Definition tail_start (ms : list Message) (head : nat) (config : CompactConfig) : nat :=
  let budget := N.min TAIL_TOKEN_BUDGET (window_part config 1 2) in
  align_tail_start ms head (length ms - tail_loop budget (rev (drop head ms)) 0 0).
(** [COMPACT_FORCE_RATIO] is 9/10. *)
Definition at_force_mark (tokens : N) (config : CompactConfig) : bool := at_window_part tokens config 9 10.
Definition plan_compaction (ms : list Message) (config : CompactConfig) (pre_compact_tokens : N) : option CompactionPlan :=
  if length ms <? MIN_COMPACT_MESSAGES then None
  else
    let head := pinned_prefix_len ms config in
    let start := tail_start ms head config in
    let force := at_force_mark pre_compact_tokens config || should_autocompact pre_compact_tokens config in
    let start :=
      if (start - head <? MIN_COMPACT_MESSAGES) && force then
        align_tail_start ms head (Nat.max (length ms - MIN_RECENT_KEEP) head)
      else start in
    if start - head <? MIN_COMPACT_MESSAGES then None else Some (mkPlan head start).
Definition kept_verbatim (config : CompactConfig) (m : Message) : bool :=
  if is_compaction_artifact m then false else bool_decide (role m = User) && is_pinnable_user_turn m config.
Definition partition_fold (region : list Message) (config : CompactConfig) : list Message * list Message :=
  (filter (λ m, kept_verbatim config m = true) region, filter (λ m, kept_verbatim config m = false) region).
Definition fold_economics (fold : list Message) : bool := (MIN_FOLD_TOKENS <=? estimate fold)%N.
Definition force_bypasses_economics (force_mechanical : bool) (pre_compact_tokens : N) (config : CompactConfig) : bool :=
  force_mechanical || at_force_mark pre_compact_tokens config.

(** ** The summarizer.  [provider] answers a request, knowing the requests before it. *)

Record SummaryRequest := mkRequest { model : bytes; system : bytes; request_messages : list Message; max_tokens : N }.
Inductive Response := Stream (events : list (LlmEvent Num)) | Failed (e : ProviderError) | TimedOut.
Context (provider : list SummaryRequest → SummaryRequest → Response).

Definition user_text (t : bytes) : Message := message_new User [TextBlock t].
Definition truncate_for_retry (ms : list Message) : option (list Message) :=
  if length ms <? 2 then None
  else
    let drop_count := Nat.max (length ms / 5) 1 in
    if length ms <=? drop_count then None
    else
      let remaining := drop drop_count ms in
      Some ((if bool_decide (role <$> head remaining = Some User) then []
             else [user_text (as_bytes "[earlier conversation truncated for compaction retry]")]) ++ remaining).
Definition window_output_unit (context_window : N) : N := N.min (N.min (N.max (context_window / 8) 1) 4294967295) 20000.
Definition response_text (r : Response) : CompactError + bytes :=
  match r with
  | TimedOut => inl (stream_error "summarize timed out after 90s")
  | Failed e => inl (Provider e)
  | Stream events => match collect_stream_text events with inl e => inl e | inr (t, _) => inr t end
  end.
Definition is_timeout (r : Response) : bool := match r with TimedOut => true | _ => false end.
Definition is_overflow_error (e : CompactError) : bool := match e with Provider e => is_context_overflow e | _ => false end.
Definition MAX_PTL_RETRIES : nat := 2.
Section retry.
Context (prompt model_name : bytes) (config : CompactConfig).
Definition summary_request (conversation : list Message) : SummaryRequest :=
  mkRequest model_name COMPACT_SYSTEM_PROMPT (conversation ++ [user_text prompt]) (window_output_unit (context_window config)).
(** [ptl_left] prompt-too-long retries and [transient_left] transient ones are
    left; [sent] are the requests so far. *)
Fixpoint summarize_loop (ptl_left : nat) : nat → list Message → list SummaryRequest → list SummaryRequest * (CompactError + bytes) :=
  fix retry (transient_left : nat) (conversation : list Message) (sent : list SummaryRequest) :=
    let request := summary_request conversation in
    let answer := provider sent request in
    let sent := sent ++ [request] in
    match response_text answer with
    | inr t => (sent, if str_is_blank t then inl EmptyResponse else inr t)
    | inl e =>
        if is_timeout answer then (sent, inl e)
        else if is_overflow_error e then
          match ptl_left with
          | S ptl_rest =>
              match truncate_for_retry conversation with
              | Some truncated => summarize_loop ptl_rest transient_left truncated sent
              | None => (sent, inl (PromptTooLongAfter (N.of_nat (MAX_PTL_RETRIES - ptl_rest))))
              end
          | 0 => (sent, inl (PromptTooLongAfter (N.of_nat MAX_PTL_RETRIES)))
          end
        else
          match transient_left with
          | S transient_rest => retry transient_rest conversation sent
          | 0 => (sent, inl e)
          end
    end.
End retry.
Definition summarized_conversation (fold : list Message) : list Message :=
  if bool_decide (role <$> head fold = Some Assistant) then
    user_text (as_bytes "[earlier conversation work being summarized]") :: fold
  else fold.
Definition summarize_with_retry (fold : list Message) (model_name : bytes) (config : CompactConfig)
    (focus project_instructions : option bytes) : list SummaryRequest * (CompactError + bytes) :=
  summarize_loop (build_compact_prompt focus project_instructions) model_name config MAX_PTL_RETRIES 1
    (summarized_conversation fold) [].
Definition mechanical_fold_digest (n : nat) : bytes :=
  decimal (N.of_nat n)
  ++ text [" earlier message(s) were folded here to free context, but the automatic summary was unavailable. ";
           "Ask the user if you need details from before this point."].

(** ** The fold *)

Record CompactResult := mkCompactResult {
  result_messages : list Message;
  messages_summarized : nat;
  result_pre_compact_tokens : N;
  mechanical_fold : bool;
  mechanical_reason : option bytes;
}.
Record AutocompactRequest := mkAutocompact {
  force_mechanical : bool;
  focus : option bytes;
  project_instructions : option bytes;
  request_trigger : option CompactTrigger;
}.
(** [archive] writes the folded messages and returns their path. *)
Context (archive : list Message → option bytes).
Definition is_auto_trigger (t : option CompactTrigger) : bool := bool_decide (default AutoTrigger t ≠ ManualTrigger).
Definition trigger_name (t : CompactTrigger) : bytes :=
  as_bytes match t with AutoTrigger => "auto" | ManualTrigger => "manual" | IdleTrigger => "idle" end%string.
Definition json_key (name : string) : bytes := DQUOTE ++ as_bytes name ++ DQUOTE ++ as_bytes ":".
Definition metadata_json (m : CompactMetadata) : bytes :=
  as_bytes "{" ++ json_key "trigger" ++ DQUOTE ++ trigger_name (trigger m) ++ DQUOTE
  ++ as_bytes "," ++ json_key "pre_compact_tokens" ++ decimal (pre_compact_tokens m)
  ++ as_bytes "," ++ json_key "messages_summarized" ++ decimal (N.of_nat (messages_summarized_meta m)) ++ as_bytes "}".
Definition untouched (ms : list Message) (pre_compact_tokens : N) : CompactResult :=
  mkCompactResult ms 0 pre_compact_tokens false None.
(** The summary's text, whether it stands in for one, and why; with the requests. *)
Definition fold_summary (fold : list Message) (model_name : bytes) (config : CompactConfig) (r : AutocompactRequest) :
    list SummaryRequest * (bytes * bool * option bytes) :=
  if force_mechanical r then
    ([], (mechanical_fold_digest (length fold), true, Some (as_bytes "the summarizer was skipped")))
  else
    let '(sent, answer) := summarize_with_retry fold model_name config (focus r) (project_instructions r) in
    match answer with
    | inr t => (sent, (t, false, None))
    | inl e => (sent, (mechanical_fold_digest (length fold), true, Some (compact_error_text e)))
    end.
Definition boundary_message (r : AutocompactRequest) (pre_compact_tokens : N) (n : nat) : Message :=
  user_text (BOUNDARY_PREFIX ++ LF
             ++ metadata_json (mkMetadata (default AutoTrigger (request_trigger r)) pre_compact_tokens n)).
Definition summary_message (r : AutocompactRequest) (t : bytes) (archive_rel : option bytes) : Message :=
  user_text (build_summary_content (format_compact_summary t) (is_auto_trigger (request_trigger r)) archive_rel).
Definition autocompact_with (ms : list Message) (model_name : bytes) (config : CompactConfig) (s : CompactState)
    (r : AutocompactRequest) : CompactState * list SummaryRequest * (CompactError + CompactResult) :=
  if negb (force_mechanical r) && is_circuit_broken s config then (s, [], inl (CircuitBroken (consecutive_failures s)))
  else
    let pre_tokens := last_input_tokens s in
    match plan_compaction ms config pre_tokens with
    | None => (record_success s, [], inr (untouched ms pre_tokens))
    | Some plan =>
        let region := take (start plan - head_len plan) (drop (head_len plan) ms) in
        let force := force_bypasses_economics (force_mechanical r) pre_tokens config in
        let '(kept, fold) := partition_fold region config in
        if bool_decide (fold = []) || (negb force && negb (fold_economics fold)) then
          (record_success s, [], inr (untouched ms pre_tokens))
        else
          let archive_rel := archive fold in
          let '(sent, (summary_text, mechanical, reason)) := fold_summary fold model_name config r in
          (record_success s, sent,
           inr (mkCompactResult
                  (take (head_len plan) ms ++ kept
                   ++ [boundary_message r pre_tokens (length fold); summary_message r summary_text archive_rel]
                   ++ drop (start plan) ms)
                  (length fold) pre_tokens mechanical reason))
    end.
Definition autocompact (ms : list Message) (model_name : bytes) (config : CompactConfig) (s : CompactState) :
    CompactState * list SummaryRequest * (CompactError + CompactResult) :=
  autocompact_with ms model_name config s (mkAutocompact false None None None).
End autocompact.
