(* ===== verification/CompactEngine.v ===== *)
(** The engine's use of compaction (agent/nomi-agent/src/engine/mod.rs): the cheap
    layers with the log that undoes them, the fold, and what happens to the
    transcript when a turn fails.  The calls into other components are recorded in
    order. *)
From S2P Require Import Prelude Bytes Text Json Float64 Conversation SummaryPrompt LlmStream Compaction AutoCompact.

Inductive Effect :=
| EmitInfo (message : bytes)
| EmitWarning (message : bytes)
| InvalidateFileCachePaths (paths : list bytes)
| ForgetReads (path : bytes)
| ResetWorkingSet
| ClearFileCache
| ClearEditableTurn
| NotifyCompaction.
Inductive CompactReason := TurnEnd | TurnStart | IdleCacheExpired | EmergencyRecovery.
Inductive AgentError := ContextTooLong (input_tokens limit : N).

(** What a pass of the engine reads and does not change.  [persist] is the store of
    content references; [archive] writes an archive under a label; [reinject] is the
    coding harness' message behind a fold. *)
Record Host (Num : Type) := mkHost {
  json_byte_len : Value Num → N;
  config : CompactConfig;
  system_prompt : bytes;
  advertised_tools : list (ToolDef (Num := Num));
  summary_model : bytes;
  instructions : option bytes;
  provider : list (SummaryRequest (Num := Num)) → SummaryRequest (Num := Num) → Response (Num := Num);
  persist : bytes → option bytes;
  archive : string → list (Message Num) → option bytes;
  reinject : option bytes;
}.
Arguments mkHost {Num}.
Arguments json_byte_len {Num}.
Arguments config {Num}.
Arguments system_prompt {Num}.
Arguments advertised_tools {Num}.
Arguments summary_model {Num}.
Arguments instructions {Num}.
Arguments provider {Num}.
Arguments persist {Num}.
Arguments archive {Num}.
Arguments reinject {Num}.
Record Engine (Num : Type) := mkEngine {
  messages : list (Message Num);
  prefix_rewrite_undo : list ClearedToolBody;
  compact_state : CompactState;
  sent_prefix_len : nat;
  effects : list Effect;
}.
Arguments mkEngine {Num}.
Arguments messages {Num}.
Arguments prefix_rewrite_undo {Num}.
Arguments compact_state {Num}.
Arguments sent_prefix_len {Num}.
Arguments effects {Num}.

Section engine.
Context {Num : Type} (host : Host Num).
Abbreviation Engine := (Engine Num).
Abbreviation Message := (Message Num).
Abbreviation cfg := (config host).

Definition set_messages (ms : list Message) (e : Engine) : Engine :=
  mkEngine ms (prefix_rewrite_undo e) (compact_state e) (sent_prefix_len e) (effects e).
Definition set_undo (u : list ClearedToolBody) (e : Engine) : Engine :=
  mkEngine (messages e) u (compact_state e) (sent_prefix_len e) (effects e).
Definition set_state (s : CompactState) (e : Engine) : Engine :=
  mkEngine (messages e) (prefix_rewrite_undo e) s (sent_prefix_len e) (effects e).
Definition mark_sent (e : Engine) : Engine :=
  mkEngine (messages e) (prefix_rewrite_undo e) (compact_state e) (length (messages e)) (effects e).
Definition emit (l : list Effect) (e : Engine) : Engine :=
  mkEngine (messages e) (prefix_rewrite_undo e) (compact_state e) (sent_prefix_len e) (effects e ++ l).
Definition push_message (m : Message) (e : Engine) : Engine := set_messages (messages e ++ [m]) e.
Definition drop_round_ids (e : Engine) : Engine := set_messages (clear_provider_round_ids (messages e)).1 e.

(** ** The watermark *)

Definition request_token_estimate (e : Engine) : N :=
  estimate_tokens_from_request (json_byte_len host) (system_prompt host) (advertised_tools host) (messages e) None.
Definition apply_compact_watermark (summarized : nat) (tokens_freed : N) (e : Engine) : Engine :=
  let estimate := request_token_estimate e in
  let measured :=
    if 0 <? summarized then estimate
    else N.max estimate (last_provider_input_tokens (compact_state e) - tokens_freed) in
  let still_above := should_autocompact measured cfg in
  let s := set_watermark measured cfg (compact_state e) in
  set_state
    (if 0 <? summarized then reset_provider_input_tokens (note_compact_outcome still_above s)
     else if negb still_above then clear_compact_stall s else s) e.

(** ** The undo log *)

Definition accept_prefix_rewrites (e : Engine) : Engine := set_undo [] e.
Definition restore_entry (len : nat) (entry : ClearedToolBody) (ms : list Message) : list Message :=
  if (len <=? message_index entry) || (length ms <=? message_index entry) then ms
  else map_block (set_result (body_content entry) (body_images entry)) (message_index entry, block_index entry) ms.
Definition rollback_transcript_to (len : nat) (e : Engine) : Engine :=
  set_undo [] (set_messages (take len (foldr (restore_entry len) (messages e) (prefix_rewrite_undo e))) e).
(** Returns the new checkpoint. *)
Definition commit_transcript_checkpoint (e : Engine) : Engine * nat := (accept_prefix_rewrites e, length (messages e)).
Definition shift_entry (removed : list nat) (entry : ClearedToolBody) : ClearedToolBody :=
  mkBody (message_index entry - length (filter (λ i, (i <? message_index entry) = true) removed)) (block_index entry)
    (body_content entry) (body_images entry).
Definition remap_prefix_rewrite_undo (removed : list nat) (e : Engine) : Engine :=
  if bool_decide (removed = []) || bool_decide (length (prefix_rewrite_undo e) = 0) then e
  else set_undo (shift_entry removed <$> filter (λ entry, message_index entry ∉ removed) (prefix_rewrite_undo e)) e.

(** ** Snip *)

(** Engine and tokens released; [now] is the clock. *)
Definition run_snip_layer (now : Z) (e : Engine) : Engine * N :=
  let drop_idx := snip_indices (json_byte_len host) (messages e) DEFAULT_SNIP_KEEP_TAIL cfg in
  if bool_decide (drop_idx = []) then (e, 0%N)
  else
    let dropped := omap (λ i, messages e !! i) drop_idx in
    let freed := estimate_tokens_from_messages (json_byte_len host) dropped in
    let archive_rel := archive host "snip"%string dropped in
    let e := remap_prefix_rewrite_undo drop_idx e in
    let '(ms, removed) := snip_old_plain_turns (json_byte_len host) (messages e) DEFAULT_SNIP_KEEP_TAIL cfg in
    let e := set_messages ms e in
    if removed =? 0 then (e, 0%N)
    else
      let e := push_message (message_now now User [TextBlock (collapse_notice removed archive_rel)]) e in
      let e := drop_round_ids (mark_sent e) in
      (emit [EmitInfo (as_bytes "Snip: dropped " ++ decimal (N.of_nat removed) ++ as_bytes " older plain turns")] e, freed).

(** ** Microcompact *)

(** A cleared result's placeholder points at the stored body. *)
Definition annotate (ms : list Message) (body : ClearedToolBody) : list Message :=
  match body_content body with
  | [] => ms
  | c =>
      match persist host c with
      | None => ms
      | Some locator =>
          map_block (λ b, match b with
                          | ToolResult id _ is_error images =>
                              ToolResult id (CLEARED_TOOL_RESULT ++ as_bytes " " ++ locator) is_error images
                          | _ => b
                          end) (message_index body, block_index body) ms
      end
  end.
Definition apply_microcompact (e : Engine) : Engine * N :=
  let '(ms, result) := microcompact (messages e) cfg in
  let ms := if 0 <? cleared_count result then foldl annotate ms (cleared_bodies result) else ms in
  let e := set_undo (prefix_rewrite_undo e ++ cleared_bodies result) (set_messages ms e) in
  let e :=
    if 0 <? cleared_count result then
      emit [EmitInfo (as_bytes "Microcompact: cleared " ++ decimal (N.of_nat (cleared_count result))
                      ++ as_bytes " tool results (~" ++ decimal (estimated_tokens_freed result)
                      ++ as_bytes " tokens freed)")] (drop_round_ids (mark_sent e))
    else e in
  let e :=
    match cleared_read_paths result with
    | [] => e
    | paths => emit (InvalidateFileCachePaths paths :: (ForgetReads <$> paths)) e
    end in
  (e, estimated_tokens_freed result).
Definition run_microcompact (now : Z) (e : Engine) : Engine * N :=
  if negb (should_microcompact now (messages e) cfg) then (e, 0%N) else apply_microcompact e.
Definition run_microcompact_forced (e : Engine) : Engine * N :=
  if negb (compact_enabled cfg) then (e, 0%N) else apply_microcompact e.

(** ** The fold *)

Definition wants_fold (force : bool) (t : CompactTrigger) (e : Engine) : bool :=
  let tokens := last_input_tokens (compact_state e) in
  force || match t with
           | IdleTrigger => should_idle_autocompact tokens cfg
           | AutoTrigger | ManualTrigger => should_autocompact tokens cfg
           end.
Definition say_threshold : list Effect :=
  if bool_decide (is_Some (autocompact_threshold_pct cfg)) || bool_decide (is_Some (autocompact_max_tokens cfg)) then
    [EmitInfo (as_bytes "Autocompact threshold: " ++ decimal (autocompact_threshold cfg) ++ as_bytes " tokens (context window "
               ++ decimal (context_window cfg) ++ as_bytes ")")]
  else [].
Definition no_fold (e : Engine) : Engine :=
  let tokens := last_input_tokens (compact_state e) in
  if negb (compact_enabled cfg) then
    if (autocompact_threshold cfg <=? tokens)%N then
      emit [EmitInfo (as_bytes "Autocompact: disabled (compact.enabled=false, last_input_tokens=" ++ decimal tokens
                      ++ as_bytes ", threshold=" ++ decimal (autocompact_threshold cfg) ++ as_bytes ")")] e
    else e
  else if negb (should_autocompact tokens cfg) then set_state (clear_compact_stall (compact_state e)) e
  else e.
Definition say_broken (e : Engine) : Engine :=
  emit [EmitInfo (as_bytes "Autocompact: skipped (circuit breaker tripped after "
                  ++ decimal (consecutive_failures (compact_state e))
                  ++ as_bytes " consecutive failures, last_input_tokens="
                  ++ decimal (last_input_tokens (compact_state e)) ++ as_bytes ")")] e.
Definition fold_effects (r : CompactResult (Num := Num)) : list Effect :=
  [EmitInfo (as_bytes "Autocompact: summarized " ++ decimal (N.of_nat (messages_summarized r)) ++ as_bytes " messages ("
             ++ decimal (result_pre_compact_tokens r) ++ as_bytes " tokens → compact)")]
  ++ (if mechanical_fold r then
        [EmitWarning (as_bytes "Autocompact: the summary is a placeholder ("
                      ++ default (as_bytes "no reason recorded") (mechanical_reason r) ++ as_bytes ")")]
      else [])
  ++ [ClearEditableTurn; ResetWorkingSet; ClearFileCache].
(** The result of a fold that summarized something *)
Definition adopt_fold (now : Z) (force : bool) (r : CompactResult (Num := Num)) (e : Engine) : Engine :=
  let replaced := set_messages (result_messages r) e in
  let new_estimate := request_token_estimate replaced in
  if negb force && (result_pre_compact_tokens r <=? new_estimate)%N then
    apply_compact_watermark 0 0
      (emit [EmitInfo (as_bytes "Autocompact: skipped apply (" ++ decimal (result_pre_compact_tokens r)
                       ++ as_bytes " tokens → " ++ decimal new_estimate ++ as_bytes ", not smaller)")] e)
  else
    let e := emit (fold_effects r) (accept_prefix_rewrites replaced) in
    let e := emit [NotifyCompaction] (mark_sent e) in
    let e := match reinject host with Some t => push_message (message_now now User [TextBlock t]) e | None => e end in
    apply_compact_watermark (messages_summarized r) 0 e.
Definition run_autocompact (now : Z) (force : bool) (t : CompactTrigger) (e : Engine) : Engine :=
  if negb (wants_fold force t e) then no_fold e
  else
    let e := emit say_threshold e in
    if negb force && is_circuit_broken (compact_state e) cfg then say_broken e
    else
      let '(s, _, answer) :=
        autocompact_with (json_byte_len host) (provider host) (archive host "autocompact"%string) (messages e)
          (summary_model host) cfg (compact_state e) (mkAutocompact force None (instructions host) (Some t)) in
      let e := set_state s e in
      match answer with
      | inr r =>
          if 0 <? messages_summarized r then adopt_fold now force r e
          else if negb (should_autocompact (last_input_tokens (compact_state e)) cfg) then
            set_state (clear_compact_stall (compact_state e)) e
          else e
      | inl (CircuitBroken _) => e
      | inl error => emit [EmitWarning (as_bytes "Autocompact failed: " ++ compact_error_text error)] e
      end.

(** ** The pipeline *)

Definition is_compact_stuck (e : Engine) : bool := compact_stuck (compact_state e).
Definition watermark (e : Engine) : N := last_input_tokens (compact_state e).
Definition cheap_layers (forced : bool) (now : Z) (e : Engine) : Engine * N :=
  let '(e, snipped) := run_snip_layer now e in
  let '(e, cleared) := if forced then run_microcompact_forced e else run_microcompact now e in
  (e, snipped + cleared)%N.
Definition run_compaction (now : Z) (reason : CompactReason) (e : Engine) : Engine * option AgentError :=
  match reason with
  | TurnEnd | TurnStart =>
      let e :=
        if should_autocompact (watermark e) cfg then
          let '(e, freed) := cheap_layers false now e in apply_compact_watermark 0 freed e
        else e in
      (if is_compact_stuck e then e else run_autocompact now false AutoTrigger e, None)
  | IdleCacheExpired =>
      if compact_enabled cfg then
        let '(e, freed) := cheap_layers true now e in
        let e := apply_compact_watermark 0 freed e in
        (if negb (is_compact_stuck e) && should_idle_autocompact (watermark e) cfg then
           run_autocompact now false IdleTrigger e
         else e, None)
      else (e, None)
  | EmergencyRecovery =>
      let e :=
        if compact_enabled cfg then
          let '(e, _) := cheap_layers false now e in
          let force := is_compact_stuck e || is_circuit_broken (compact_state e) cfg in
          run_autocompact now force AutoTrigger e
        else e in
      (e, if is_at_emergency_limit (watermark e) cfg then
            Some (ContextTooLong (watermark e) (context_window cfg - emergency_buffer cfg))
          else None)
  end.
(** [session_time] is the session's last known activity. *)
Definition should_idle_compact (now : Z) (session_time : option Z) (e : Engine) : bool :=
  if negb (compact_enabled cfg) then false
  else if (idle_compact_seconds cfg =? 0)%N || (length (messages e) <=? 2) then false
  else match option_or (last_turn_ended_at (compact_state e)) session_time with
       | None => false
       | Some ts => (as_i64 (idle_compact_seconds cfg) <=? Z.quot (now - ts) 1000000000)%Z
       end.
(** [reason] is the error's text, shortened and on one line. *)
Definition close_interrupted_turn (now : Z) (turn_start_len : nat) (reason : bytes) (e : Engine) : Engine :=
  if length (messages e) <=? turn_start_len then e
  else if negb match last (messages e) with Some m => is_tool_result_message m | None => false end then e
  else
    push_message
      (message_now now Assistant
         [TextBlock (as_bytes "[Turn interrupted before a final reply: " ++ reason
                     ++ text ["] The tool calls above did run and their results are authoritative. ";
                              "The user has not received a report for this turn."])]) e.
End engine.
