(* ===== verification/CompactUndo.v ===== *)
(** The undo log of the cheap layers: whatever they clear, move or delete during a
    turn, a roll-back yields the prefix of the transcript in which nothing was
    cleared. *)
From S2P Require Import Prelude Bytes Text Json Float64 Conversation SummaryPrompt LlmStream Compaction AutoCompact CompactEngine.

(** ** Blocks in place *)

Section blocks.
Context {Num : Type}.
Abbreviation Message := (Message Num).
Abbreviation ContentBlock := (ContentBlock Num).
Implicit Types (ms : list Message) (m : Message) (f g : ContentBlock → ContentBlock).

Definition map_content (f : ContentBlock → ContentBlock) (bi : nat) (m : Message) : Message :=
  mkMessage (role m) (alter f bi (content m)) (timestamp m) (provider_round_id m).
Lemma map_block_unfold f mi bi ms : map_block f (mi, bi) ms = alter (map_content f bi) mi ms.
Proof. done. Qed.
Lemma map_content_compose f g bi m : map_content f bi (map_content g bi m) = map_content (f ∘ g) bi m.
Proof. unfold map_content. simpl. by rewrite list_alter_alter_eq. Qed.
Lemma map_content_commute f g bi bj m :
  bi ≠ bj → map_content f bi (map_content g bj m) = map_content g bj (map_content f bi m).
Proof. intros Hne. unfold map_content. simpl. by rewrite list_alter_alter_ne. Qed.
Lemma map_content_id f bi m : (∀ b, content m !! bi = Some b → f b = b) → map_content f bi m = m.
Proof.
  intros Hf. destruct m as [r c t p]. unfold map_content. simpl in *. f_equal.
  apply list_eq. intros i. destruct (decide (i = bi)) as [->|Hne].
  - rewrite list_lookup_alter_eq. destruct (c !! bi) as [b|] eqn:Hb; [|done]. simpl. by rewrite Hf.
  - by rewrite list_lookup_alter_ne by done.
Qed.
Lemma alter_id_at {A} (h : A → A) i (l : list A) : (∀ x, l !! i = Some x → h x = x) → alter h i l = l.
Proof.
  intros Hh. apply list_eq. intros j. destruct (decide (j = i)) as [->|Hne].
  - rewrite list_lookup_alter_eq. destruct (l !! i) as [x|] eqn:Hx; [|done]. simpl. by rewrite Hh.
  - by rewrite list_lookup_alter_ne by done.
Qed.
Lemma map_block_compose f g loc ms : map_block f loc (map_block g loc ms) = map_block (f ∘ g) loc ms.
Proof.
  destruct loc as [mi bi]. rewrite !map_block_unfold, list_alter_alter_eq.
  apply list_alter_ext; [|done]. intros m _. apply map_content_compose.
Qed.
Lemma map_block_commute f g loc loc' ms :
  loc ≠ loc' → map_block f loc (map_block g loc' ms) = map_block g loc' (map_block f loc ms).
Proof.
  destruct loc as [mi bi], loc' as [mj bj]. intros Hne. rewrite !map_block_unfold.
  destruct (decide (mi = mj)) as [->|Hm]; [|by apply list_alter_alter_ne].
  rewrite !list_alter_alter_eq. apply list_alter_ext; [|done]. intros m _. simpl.
  apply map_content_commute. congruence.
Qed.
Lemma map_block_ext f g loc ms : (∀ b, f b = g b) → map_block f loc ms = map_block g loc ms.
Proof.
  intros Hfg. destruct loc as [mi bi]. rewrite !map_block_unfold. apply list_alter_ext; [|done].
  intros m _. unfold map_content. f_equal. apply list_alter_ext; [|done]. intros b _. apply Hfg.
Qed.
Lemma map_block_id f loc ms : (∀ b, block_at ms loc = Some b → f b = b) → map_block f loc ms = ms.
Proof.
  destruct loc as [mi bi]. intros Hf. rewrite map_block_unfold. apply alter_id_at. intros m Hm.
  apply map_content_id. intros b Hb. apply Hf. unfold block_at. simpl. by rewrite Hm.
Qed.
Lemma map_block_length f loc ms : length (map_block f loc ms) = length ms.
Proof. apply length_alter. Qed.
Lemma map_block_app f loc ms ms' : loc.1 < length ms → map_block f loc (ms ++ ms') = map_block f loc ms ++ ms'.
Proof. intros Hl. destruct loc as [mi bi]. rewrite !map_block_unfold. by apply alter_app_l. Qed.

(** Round identities are apart from the blocks. *)
Definition forget_rounds (ms : list Message) : list Message := clear_round_id <$> ms.
Lemma forget_map_block f loc ms : forget_rounds (map_block f loc ms) = map_block f loc (forget_rounds ms).
Proof.
  destruct loc as [mi bi]. rewrite !map_block_unfold. apply list_fmap_alter, Forall_forall. by intros m _.
Qed.

(** ** Restoring *)

Definition location (b : ClearedToolBody) : nat * nat := (message_index b, block_index b).
Definition restore (b : ClearedToolBody) (ms : list Message) : list Message :=
  map_block (set_result (body_content b) (body_images b)) (location b) ms.
Definition restore_all (ms : list Message) (log : list ClearedToolBody) : list Message := foldr restore ms log.
Lemma restore_all_length ms log : length (restore_all ms log) = length ms.
Proof. induction log as [|b log IH]; simpl; [done|]. unfold restore. by rewrite map_block_length. Qed.
Lemma restore_all_app ms log log' : restore_all ms (log ++ log') = restore_all (restore_all ms log') log.
Proof. apply foldr_app. Qed.
Lemma forget_restore_all ms log : forget_rounds (restore_all ms log) = restore_all (forget_rounds ms) log.
Proof. induction log as [|b log IH]; simpl; [done|]. unfold restore at 1. by rewrite forget_map_block, IH. Qed.
Lemma restore_all_append ms m log :
  Forall (λ b, message_index b < length ms) log → restore_all (ms ++ [m]) log = restore_all ms log ++ [m].
Proof.
  induction 1 as [|b log Hb _ IH]; simpl; [done|]. rewrite IH. unfold restore.
  apply map_block_app. by rewrite restore_all_length.
Qed.
Lemma restore_entry_eq len b ms : restore_entry len b ms = if len <=? message_index b then ms else restore b ms.
Proof.
  unfold restore_entry. destruct (len <=? message_index b); simpl; [done|].
  destruct (Nat.leb_spec (length ms) (message_index b)) as [Hl|]; [|done].
  symmetry. apply map_block_id. intros c. unfold block_at. simpl. by rewrite lookup_ge_None_2.
Qed.
Lemma take_restore len b ms ms' :
  take len ms = take len ms' → take len (restore_entry len b ms) = take len (restore b ms').
Proof.
  intros Hms. rewrite restore_entry_eq. unfold restore, location. rewrite !map_block_unfold.
  destruct (Nat.leb_spec len (message_index b)) as [Hl|Hl]; [by rewrite take_alter_ge|].
  by rewrite !take_alter_lt, Hms by done.
Qed.
Lemma rollback_take len ms log : take len (foldr (restore_entry len) ms log) = take len (restore_all ms log).
Proof. induction log as [|b log IH]; simpl; [done|]. by apply take_restore. Qed.

(** ** Microcompact is undone by its own entries *)

Lemma set_result_compose c i c' i' (b : ContentBlock) : set_result c i (set_result c' i' b) = set_result c i b.
Proof. by destruct b. Qed.
Lemma clear_step_restored paths st loc :
  ∃ new, cleared_bodies (clear_step paths st loc).2 = cleared_bodies st.2 ++ new ∧
    restore_all (clear_step paths st loc).1 new = st.1 ∧ length (clear_step paths st loc).1 = length st.1 ∧
    Forall (λ b, message_index b < length st.1) new.
Proof.
  destruct st as [ms r]. unfold clear_step.
  destruct (block_at ms loc) as [[| |id c err images| |]|] eqn:Hb; simpl;
    try (exists []; split_and!; simpl; rewrite ?app_nil_r; done).
  exists [mkBody loc.1 loc.2 c images]. split_and!; [done| |apply map_block_length|].
  - simpl. unfold restore, location. simpl. rewrite <- surjective_pairing, map_block_compose. apply map_block_id.
    intros b. rewrite Hb. by intros [= <-].
  - apply Forall_singleton. simpl. unfold block_at in Hb. destruct (ms !! loc.1) eqn:Hm; [|done].
    by eapply lookup_lt_Some.
Qed.
Lemma clear_steps_restored paths targets st :
  ∃ new, cleared_bodies (foldl (clear_step paths) st targets).2 = cleared_bodies st.2 ++ new ∧
    restore_all (foldl (clear_step paths) st targets).1 new = st.1 ∧
    length (foldl (clear_step paths) st targets).1 = length st.1 ∧ Forall (λ b, message_index b < length st.1) new.
Proof.
  revert st. induction targets as [|loc targets IH]; intros st; simpl.
  { exists []. rewrite app_nil_r. by split_and!. }
  destruct (clear_step_restored paths st loc) as (new1 & Hn1 & Hr1 & Hl1 & Hf1).
  destruct (IH (clear_step paths st loc)) as (new2 & Hn2 & Hr2 & Hl2 & Hf2).
  exists (new1 ++ new2). rewrite Hn2, Hn1, restore_all_app, Hr2, app_assoc. split_and!; [done..|congruence|].
  apply Forall_app. rewrite Hl1 in Hf2. done.
Qed.
Lemma microcompact_restored ms config :
  let r := microcompact ms config in
  restore_all r.1 (cleared_bodies r.2) = ms ∧ length r.1 = length ms ∧
  Forall (λ b, message_index b < length ms) (cleared_bodies r.2).
Proof.
  unfold microcompact. simpl. case_match; [done|].
  match goal with |- context [foldl ?f ?st ?t] => destruct (clear_steps_restored (build_read_path_map ms) t st) as (new & Hn & Hr & Hl & Hf) end.
  rewrite Hn. simpl in *. done.
Qed.
(** Writing over a result that the log restores changes nothing. *)
Definition keeps_result (f : ContentBlock → ContentBlock) : Prop := ∀ c i b, set_result c i (f b) = set_result c i b.
Lemma restore_all_absorbs f loc ms log :
  keeps_result f → loc ∈ location <$> log → restore_all (map_block f loc ms) log = restore_all ms log.
Proof.
  intros Hf. induction log as [|b log IH]; simpl; [by intros ?%elem_of_nil|]. intros Hin.
  destruct (decide (loc ∈ location <$> log)) as [Hl|Hl]; [by rewrite IH|].
  apply elem_of_cons in Hin as [->|]; [|done].
  assert (Hc : restore_all (map_block f (location b) ms) log = map_block f (location b) (restore_all ms log)).
  { clear IH. induction log as [|b' log IH]; simpl; [done|]. apply not_elem_of_cons in Hl as [Hne Hl].
    rewrite IH by done. unfold restore. by rewrite map_block_commute. }
  rewrite Hc. unfold restore. rewrite map_block_compose. apply map_block_ext. intros b'. apply Hf.
Qed.
End blocks.

(** ** Deleting messages under the log *)

Section deletion.
Context {A : Type}.
Implicit Types (l : list A) (ix : list nat).
Definition below (k : nat) (ix : list nat) : nat := length (filter (λ i, (i <? k) = true) ix).
Lemma below_cons k i ix : below k (i :: ix) = if i <? k then S (below k ix) else below k ix.
Proof. unfold below. rewrite filter_cons. by destruct (i <? k); case_decide. Qed.
(** Increasing indices from [from] on *)
Definition increasing (from : nat) (ix : list nat) : Prop := StronglySorted lt ix ∧ Forall (λ i, from ≤ i) ix.
Lemma increasing_inv from i ix : increasing from (i :: ix) → from ≤ i ∧ increasing (S i) ix.
Proof.
  intros [Hs Hf]. apply StronglySorted_inv in Hs as [Hs Hi]. inversion_clear Hf. split; [done|]. split; [done|].
  eapply Forall_impl; [exact Hi|]. simpl. lia.
Qed.
Lemma below_bound from k ix : increasing from ix → from ≤ k → below k ix ≤ k - from.
Proof.
  revert from. induction ix as [|i ix IH]; intros from Hi Hk; [unfold below; simpl; lia|].
  apply increasing_inv in Hi as [Hf Hi]. rewrite below_cons. destruct (Nat.ltb_spec i k) as [Hlt|Hge].
  - specialize (IH (S i) Hi). lia.
  - destruct Hi as [_ Hi]. assert (Hb : below k ix = 0); [|lia]. unfold below.
    rewrite filter_none; [done|]. intros x Hx Hlt%Nat.ltb_lt. rewrite Forall_forall in Hi. specialize (Hi x Hx). lia.
Qed.
Lemma below_lower from k ix : increasing from ix → k ≤ from → below k ix = 0.
Proof.
  intros [_ Hf] Hk. unfold below. rewrite filter_none; [done|]. intros x Hx Hlt%Nat.ltb_lt. rewrite Forall_forall in Hf. specialize (Hf x Hx). lia.
Qed.
Lemma delete_alter_eq f i l : delete i (alter f i l) = delete i l.
Proof. apply list_eq. intros j. rewrite !list_lookup_delete. by case_decide; rewrite list_lookup_alter_ne by lia. Qed.
Lemma delete_alter_lt f i k l : k < i → delete i (alter f k l) = alter f k (delete i l).
Proof.
  intros Hk. apply list_eq. intros j. rewrite list_lookup_alter, !list_lookup_delete, !list_lookup_alter.
  by repeat case_decide; try lia.
Qed.
Lemma delete_alter_gt f i k l : i < k → delete i (alter f k l) = alter f (k - 1) (delete i l).
Proof.
  intros Hk. apply list_eq. intros j. rewrite list_lookup_alter, !list_lookup_delete, !list_lookup_alter.
  repeat case_decide; try lia; try done. by replace (S (k - 1)) with k by lia.
Qed.
End deletion.

Section remove.
Context {Num : Type}.
Implicit Types (ms : list (Message Num)).
Lemma remove_all_lookup from ix i ms : increasing from ix → i < from → remove_all ix ms !! i = ms !! i.
Proof.
  revert from. induction ix as [|k ix IH]; intros from Hi Hlt; [done|]. apply increasing_inv in Hi as [Hk Hi]. simpl.
  rewrite list_lookup_delete_lt by lia. apply (IH (S k)); [done|lia].
Qed.
Lemma remove_all_map_block from ix f mi bi ms :
  increasing from ix →
  remove_all ix (map_block f (mi, bi) ms) =
    if decide (mi ∈ ix) then remove_all ix ms else map_block f (mi - below mi ix, bi) (remove_all ix ms).
Proof.
  revert from. induction ix as [|i ix IH]; intros from Hi.
  { rewrite decide_False by apply not_elem_of_nil. by rewrite Nat.sub_0_r. }
  apply increasing_inv in Hi as [_ Hi]. simpl. rewrite (IH (S i)) by done. clear IH. rewrite below_cons.
  destruct (decide (mi = i)) as [->|Hne].
  { rewrite (decide_True (P := i ∈ i :: ix)) by left.
    rewrite decide_False by (intros Hin; destruct Hi as [_ Hf]; rewrite Forall_forall in Hf; specialize (Hf i Hin); lia).
    rewrite (below_lower (S i)), Nat.sub_0_r by (done || lia). apply delete_alter_eq. }
  destruct (decide (mi ∈ ix)) as [Hin|Hnin].
  { by rewrite decide_True by by right. }
  rewrite decide_False by (intros [|]%elem_of_cons; done). rewrite !map_block_unfold.
  destruct (Nat.ltb_spec i mi) as [Hlt|Hge].
  - assert (below mi ix ≤ mi - S i) by (by apply below_bound; [|lia]).
    rewrite delete_alter_gt by lia. f_equal. lia.
  - rewrite (below_lower (S i)) by (done || lia). rewrite Nat.sub_0_r. apply delete_alter_lt. lia.
Qed.
Definition remap (ix : list nat) (log : list ClearedToolBody) : list ClearedToolBody :=
  shift_entry ix <$> filter (λ entry, message_index entry ∉ ix) log.
Lemma remove_all_restore ix ms log :
  increasing 0 ix → remove_all ix (restore_all ms log) = restore_all (remove_all ix ms) (remap ix log).
Proof.
  intros Hi. induction log as [|b log IH]; [done|]. unfold remap. simpl. unfold restore at 1, location.
  rewrite (remove_all_map_block 0) by done. rewrite filter_cons. destruct (decide (message_index b ∈ ix)) as [Hin|Hin].
  - by rewrite decide_False by (intros Hn; by apply Hn).
  - rewrite decide_True by done. by rewrite IH.
Qed.
Lemma remove_all_survivor from ix ms k :
  increasing from ix → k ∉ ix → remove_all ix ms !! (k - below k ix) = ms !! k.
Proof.
  revert from. induction ix as [|i ix IH]; intros from Hi Hk; [by rewrite Nat.sub_0_r|].
  apply not_elem_of_cons in Hk as [Hne Hk]. apply increasing_inv in Hi as [_ Hi]. simpl. rewrite below_cons.
  rewrite <- (IH (S i) Hi Hk). destruct (Nat.ltb_spec i k) as [Hlt|Hge].
  - assert (below k ix ≤ k - S i) by (by apply below_bound; [|lia]).
    rewrite list_lookup_delete_ge by lia. f_equal. lia.
  - rewrite (below_lower (S i)) by (done || lia). by rewrite list_lookup_delete_lt by lia.
Qed.
Lemma remap_in_range ix ms log :
  increasing 0 ix → Forall (λ b, message_index b < length ms) log →
  Forall (λ b, message_index b < length (remove_all ix ms)) (remap ix log).
Proof.
  intros Hi Hlog. apply Forall_fmap, Forall_forall. intros b. rewrite list_elem_of_filter. intros [Hb Hin].
  rewrite Forall_forall in Hlog. specialize (Hlog b Hin). apply lookup_lt_is_Some in Hlog as [m Hm].
  rewrite <- (remove_all_survivor 0 ix) in Hm by done. by eapply lookup_lt_Some.
Qed.
End remove.

(** ** Snip chooses the same messages whether results are cleared or not *)

Section choice.
Context {Num : Type} (json_byte_len : Value Num → N) (config : CompactConfig).
Implicit Types (ms : list (Message Num)) (m : Message Num).
Abbreviation snippable := (snippable json_byte_len config).
Lemma tool_result_not_plain m b : b ∈ content m → is_tool_result b = true → is_plain_text_turn m = false.
Proof.
  intros Hin Hb. unfold is_plain_text_turn. assert (H : ∀ saw, plain_text_loop saw (content m) = false); [|done].
  induction (content m) as [|b' bs IH]; intros saw; [by apply elem_of_nil in Hin|].
  apply elem_of_cons in Hin as [->|Hin]; destruct b'; simpl; auto; done.
Qed.
Lemma snippable_plain m b : snippable m = true → b ∈ content m → is_tool_result b = false.
Proof.
  unfold Compaction.snippable. rewrite !andb_true_iff. intros [_ Hp] Hin. destruct (is_tool_result b) eqn:Hb; [|done].
  by rewrite (tool_result_not_plain m b) in Hp.
Qed.
Lemma map_content_set_result c i bi m :
  map_content (set_result c i) bi m = m ∨ (snippable m = false ∧ snippable (map_content (set_result c i) bi m) = false).
Proof.
  destruct (content m !! bi) as [b|] eqn:Hb; [|left; apply map_content_id; by rewrite Hb].
  destruct (is_tool_result b) eqn:Hr; [right|left; apply map_content_id; rewrite Hb; intros ? [= <-]; by destruct b].
  assert (Hns : ∀ m' b', b' ∈ content m' → is_tool_result b' = true → snippable m' = false).
  { intros m' b' Hin Hb'. unfold Compaction.snippable. by rewrite (tool_result_not_plain m' b'), andb_false_r. }
  split; [by eapply Hns, Hr; eapply list_elem_of_lookup_2|].
  apply (Hns _ (set_result c i b)); [|by destruct b]. apply (list_elem_of_lookup_2 _ bi).
  unfold map_content. simpl. by rewrite list_lookup_alter_eq, Hb.
Qed.
Lemma restore_lookup b ms k :
  restore b ms !! k = ms !! k ∨
  (∃ m m', ms !! k = Some m ∧ restore b ms !! k = Some m' ∧ snippable m = false ∧ snippable m' = false).
Proof.
  unfold restore, location. rewrite map_block_unfold, list_lookup_alter. case_decide as Hk; [subst k|by left].
  destruct (ms !! message_index b) as [m|]; [simpl|by left].
  destruct (map_content_set_result (body_content b) (body_images b) (block_index b) m) as [->|[H1 H2]]; [by left|right].
  by exists m, (map_content (set_result (body_content b) (body_images b)) (block_index b) m).
Qed.
Lemma restore_all_lookup ms log k :
  restore_all ms log !! k = ms !! k ∨
  (∃ m m', ms !! k = Some m ∧ restore_all ms log !! k = Some m' ∧ snippable m = false ∧ snippable m' = false).
Proof.
  induction log as [|b log IH]; simpl; [by left|].
  destruct (restore_lookup b (restore_all ms log) k) as [->|(m1 & m2 & E1 & E2 & S1 & S2)]; [done|right].
  destruct IH as [E|(m & m' & E & E' & Sm & Sm')].
  - exists m1, m2. by rewrite <- E.
  - exists m, m2. by split_and!.
Qed.
Lemma snip_indices_restored ms log keep :
  snip_indices json_byte_len (restore_all ms log) keep config = snip_indices json_byte_len ms keep config.
Proof.
  unfold snip_indices. rewrite restore_all_length. case_bool_decide; [done|]. apply list_filter_iff. intros k.
  destruct (restore_all_lookup ms log k) as [->|(m & m' & -> & -> & -> & ->)]; [done|]. by rewrite !andb_false_r.
Qed.
Lemma snip_indices_spec ms keep k :
  k ∈ snip_indices json_byte_len ms keep config → ∃ m, ms !! k = Some m ∧ snippable m = true.
Proof.
  unfold snip_indices. case_bool_decide; [by intros ?%elem_of_nil|]. rewrite list_elem_of_filter, !andb_true_iff.
  intros [[_ Hk] _]. destruct (ms !! k) as [m|]; [|done]. by exists m.
Qed.
Lemma dropped_restored ms log keep :
  let ix := snip_indices json_byte_len ms keep config in
  omap (λ k, restore_all ms log !! k) ix = omap (λ k, ms !! k) ix.
Proof.
  intros ix. assert (Hix : Forall (λ k, restore_all ms log !! k = ms !! k) ix).
  { apply Forall_forall. intros k (m & Hm & Hs)%snip_indices_spec.
    destruct (restore_all_lookup ms log k) as [->|(m' & ? & E & _ & Hs' & _)]; [done|congruence]. }
  clearbody ix. induction Hix as [|k ix Hk _ IH]; [done|]. simpl. rewrite Hk.
  destruct (ms !! k); [f_equal|]; exact IH.
Qed.
Lemma increasing_seq n from : increasing from (seq from n).
Proof.
  revert from. induction n as [|n IH]; intros from; [by split; constructor|]. destruct (IH (S from)) as [Hs Hf].
  split; simpl; constructor; [done| |lia|]; eapply Forall_impl; try exact Hf; simpl; lia.
Qed.
Lemma increasing_filter (P : nat → Prop) `{!∀ k, Decision (P k)} from ix : increasing from ix → increasing from (filter P ix).
Proof.
  assert (Hfil : ∀ Q l, Forall Q l → Forall Q (filter P l)).
  { intros Q l. rewrite !Forall_forall. intros Hl k [_ Hk]%list_elem_of_filter. by apply Hl. }
  intros [Hs Hf]. split; [|by apply Hfil]. induction Hs as [|k ix Hs IH Hk]; [constructor|].
  inversion_clear Hf. rewrite filter_cons. case_decide; [|by apply IH]. constructor; [by apply IH|by apply Hfil].
Qed.
Lemma snip_indices_increasing ms keep : increasing 0 (snip_indices json_byte_len ms keep config).
Proof.
  unfold snip_indices. case_bool_decide; [by split; constructor|]. apply increasing_filter, increasing_seq.
Qed.
End choice.

(** ** The refinement *)

Section refinement.
Context {Num : Type} (host : Host Num).
Abbreviation Engine := (Engine Num).
Abbreviation Message := (Message Num).
Implicit Types (e : Engine) (T : list Message).

(** What happens to the transcript between two checkpoints of a turn *)
Inductive TurnEvent :=
| Append (m : Message)
| SnipPass (now : Z)
| MicroPass (now : Z)
| ForcedMicroPass.
Definition exec (ev : TurnEvent) (e : Engine) : Engine :=
  match ev with
  | Append m => push_message m e
  | SnipPass now => (run_snip_layer host now e).1
  | MicroPass now => (run_microcompact host now e).1
  | ForcedMicroPass => (run_microcompact_forced host e).1
  end.
Definition exec_all (evs : list TurnEvent) (e : Engine) : Engine := foldl (λ e ev, exec ev e) e evs.

(** The specification knows no clearing and no log: it keeps the transcript whole. *)
Definition spec_snip (now : Z) (T : list Message) : list Message :=
  let ix := snip_indices (json_byte_len host) T DEFAULT_SNIP_KEEP_TAIL (config host) in
  if bool_decide (ix = []) then T
  else
    let notice := collapse_notice (length ix) (archive host "snip"%string (omap (λ k, T !! k) ix)) in
    forget_rounds (remove_all ix T ++ [message_now now User [TextBlock notice]]).
Inductive spec_step : TurnEvent → list Message → list Message → Prop :=
| spec_append m T : spec_step (Append m) T (T ++ [m])
| spec_snip_pass now T : spec_step (SnipPass now) T (spec_snip now T)
| spec_micro now T : spec_step (MicroPass now) T T
| spec_micro_rounds now T : spec_step (MicroPass now) T (forget_rounds T)
| spec_forced T : spec_step ForcedMicroPass T T
| spec_forced_rounds T : spec_step ForcedMicroPass T (forget_rounds T).
Inductive spec_run : list TurnEvent → list Message → list Message → Prop :=
| spec_nil T : spec_run [] T T
| spec_cons ev evs T T' T'' : spec_step ev T T' → spec_run evs T' T'' → spec_run (ev :: evs) T T''.

(** The abstraction: the transcript with every cleared result written back *)
Definition uncleared (e : Engine) : list Message := restore_all (messages e) (prefix_rewrite_undo e).
Definition log_in_range (e : Engine) : Prop := Forall (λ b, message_index b < length (messages e)) (prefix_rewrite_undo e).

Lemma annotate_all_restored ms log log' :
  (∀ b, b ∈ log → b ∈ log') → restore_all (foldl (annotate host) ms log) log' = restore_all ms log'.
Proof.
  revert ms. induction log as [|b log IH]; intros ms Hsub; simpl; [done|].
  rewrite IH by (intros b' Hb; apply Hsub; by right). unfold annotate. destruct (body_content b); [done|].
  destruct (persist host _); [|done]. apply (restore_all_absorbs _ (location b)); [by intros c i []|].
  apply list_elem_of_fmap. exists b. split; [done|]. apply Hsub. by left.
Qed.
Lemma annotate_all_length ms log : length (foldl (annotate host) ms log) = length ms.
Proof.
  revert ms. induction log as [|b log IH]; intros ms; simpl; [done|]. rewrite IH. unfold annotate.
  repeat case_match; by rewrite ?map_block_length.
Qed.
Lemma apply_microcompact_refines e :
  log_in_range e →
  let e' := (apply_microcompact host e).1 in
  log_in_range e' ∧ (uncleared e' = uncleared e ∨ uncleared e' = forget_rounds (uncleared e)).
Proof.
  intros Hlog. unfold apply_microcompact. destruct (microcompact_restored (messages e) (config host)) as (Hr & Hl & Hf).
  destruct (microcompact (messages e) (config host)) as [ms r]. simpl in Hr, Hl, Hf.
  set (ms' := if 0 <? cleared_count r then foldl (annotate host) ms (cleared_bodies r) else ms).
  assert (L : length ms' = length (messages e)).
  { unfold ms'. case_match; by rewrite ?annotate_all_length. }
  assert (S : restore_all ms' (cleared_bodies r) = messages e).
  { unfold ms'. case_match; [|done]. by rewrite annotate_all_restored. }
  clearbody ms'. unfold log_in_range, uncleared.
  destruct (0 <? cleared_count r); destruct (cleared_read_paths r); simpl in *;
    rewrite ?length_fmap, ?L, restore_all_app; (split; [by apply Forall_app|]); first [left; by rewrite S|right].
  all: change (clear_round_id <$> ms') with (forget_rounds ms'); by rewrite <- !forget_restore_all, S.
Qed.
Lemma run_snip_refines now e :
  log_in_range e →
  let e' := (run_snip_layer host now e).1 in log_in_range e' ∧ uncleared e' = spec_snip now (uncleared e).
Proof.
  intros Hlog. unfold run_snip_layer, spec_snip, uncleared, snip_old_plain_turns.
  rewrite snip_indices_restored, dropped_restored.
  assert (Hinc : increasing 0 (snip_indices (json_byte_len host) (messages e) DEFAULT_SNIP_KEEP_TAIL (config host)))
    by apply snip_indices_increasing.
  set (ix := snip_indices _ _ _ _) in *. case_bool_decide as Hix; [done|].
  assert (Hundo : prefix_rewrite_undo (remap_prefix_rewrite_undo ix e) = remap ix (prefix_rewrite_undo e)).
  { unfold remap_prefix_rewrite_undo. rewrite bool_decide_eq_false_2 by done. simpl.
    case_bool_decide as Hlen; [|done]. by apply length_zero_iff_nil in Hlen as ->. }
  assert (Hms : messages (remap_prefix_rewrite_undo ix e) = messages e).
  { unfold remap_prefix_rewrite_undo. by case_match. }
  rewrite Hms. change (snip_indices (json_byte_len host) (messages e) DEFAULT_SNIP_KEEP_TAIL (config host)) with ix.
  destruct (length ix =? 0) eqn:Hn; [by apply Nat.eqb_eq, length_zero_iff_nil in Hn|].
  pose proof (remap_in_range ix (messages e) _ Hinc Hlog) as Hrange. unfold log_in_range. simpl. rewrite Hundo. split.
  - rewrite length_fmap, length_app. eapply Forall_impl; [exact Hrange|]. simpl. lia.
  - change (clear_round_id <$> ?l) with (forget_rounds l). rewrite <- forget_restore_all.
    by rewrite restore_all_append, remove_all_restore.
Qed.
Lemma exec_refines ev e :
  log_in_range e → log_in_range (exec ev e) ∧ spec_step ev (uncleared e) (uncleared (exec ev e)).
Proof.
  intros Hlog. destruct ev as [m|now|now|]; simpl.
  - split; [|unfold uncleared; simpl; rewrite restore_all_append by done; constructor].
    unfold log_in_range. simpl. rewrite length_app. eapply Forall_impl; [exact Hlog|]. simpl. lia.
  - destruct (run_snip_refines now e Hlog) as [Hl ->]. split; [done|constructor].
  - unfold run_microcompact. case_match; [split; [done|constructor]|].
    destruct (apply_microcompact_refines e Hlog) as [Hl [-> | ->]]; (split; [done|constructor]).
  - unfold run_microcompact_forced. case_match; [split; [done|constructor]|].
    destruct (apply_microcompact_refines e Hlog) as [Hl [-> | ->]]; (split; [done|constructor]).
Qed.
Lemma exec_all_refines evs e :
  log_in_range e → log_in_range (exec_all evs e) ∧ spec_run evs (uncleared e) (uncleared (exec_all evs e)).
Proof.
  revert e. induction evs as [|ev evs IH]; intros e Hlog; simpl; [split; [done|constructor]|].
  destruct (exec_refines ev e Hlog) as [Hl Hs]. destruct (IH _ Hl) as [Hl' Hr]. split; [done|]. by econstructor.
Qed.
Lemma spec_run_no_snip evs T T' :
  spec_run evs T T' → Forall (λ ev, ∀ now, ev ≠ SnipPass now) evs → ∃ added, forget_rounds T' = forget_rounds (T ++ added).
Proof.
  induction 1 as [T|ev evs T T' T'' Hs _ IH]; intros Hev; [by exists []; rewrite app_nil_r|].
  inversion_clear Hev as [|? ? Hno Hev']. destruct (IH Hev') as [added ->].
  assert (Hid : ∀ l : list Message, forget_rounds (forget_rounds l) = forget_rounds l).
  { intros l. unfold forget_rounds. rewrite <- list_fmap_compose. by apply list_fmap_ext. }
  inversion Hs; subst; try (by exists added); try (by destruct (Hno now));
    [exists (m :: added); by rewrite <- app_assoc|exists added..].
  all: unfold forget_rounds in *; by rewrite !fmap_app, Hid.
Qed.

(** C21. A failed turn is rolled back as if its passes had cleared nothing: whatever
    messages, snips and microcompactions a turn makes from a checkpoint on, the
    transcript after the roll-back to any length is a prefix of the transcript of a
    specification that has neither placeholders nor an undo log; without a snip,
    the roll-back to the checkpoint restores the messages of the checkpoint, up to
    the provider's round identities. *)
Theorem turn_rollback_refines evs e :
  prefix_rewrite_undo e = [] →
  ∃ T, spec_run evs (messages e) T ∧
    (∀ len, messages (rollback_transcript_to len (exec_all evs e)) = take len T) ∧
    (Forall (λ ev, ∀ now, ev ≠ SnipPass now) evs →
     forget_rounds (messages (rollback_transcript_to (length (messages e)) (exec_all evs e))) = forget_rounds (messages e)).
Proof.
  intros Hu. destruct (exec_all_refines evs e) as [_ Hr]; [unfold log_in_range; by rewrite Hu|].
  assert (H0 : uncleared e = messages e) by (unfold uncleared; by rewrite Hu). rewrite H0 in Hr.
  exists (uncleared (exec_all evs e)). split; [done|].
  assert (Hroll : ∀ len, messages (rollback_transcript_to len (exec_all evs e)) = take len (uncleared (exec_all evs e))).
  { intros len. apply rollback_take. }
  split; [done|]. intros Hno. rewrite Hroll. destruct (spec_run_no_snip _ _ _ Hr Hno) as [added Hadd].
  unfold forget_rounds in *. by rewrite fmap_take, Hadd, fmap_app, take_app_length' by by rewrite length_fmap.
Qed.
End refinement.

(** ** Concrete turns *)

Definition demo_config : CompactConfig :=
  mkCompactConfig 128000 20000 13000 3000 3 1 3600 [as_bytes "Bash"] (Some 60%N) None 300 30 true.
Definition demo_host : Host unit :=
  mkHost (λ _, 0%N) demo_config [] [] (as_bytes "m") None (λ _ _, TimedOut) (λ _, Some (as_bytes "ref:1")) (λ _ _, None) None.
Definition demo_call (id : string) : list (Message unit) :=
  [message_new Assistant [ToolUse (as_bytes id) (as_bytes "Bash") Null None];
   message_new User [ToolResult (as_bytes id) (as_bytes "output of " ++ as_bytes id) false []]].
Definition demo_engine (ms : list (Message unit)) : Engine unit := mkEngine ms [] new_state 0 [].
Definition demo_say (r : Role) (t : string) : Message unit := message_new r [TextBlock (as_bytes t)].
(** A turn asks again and two old results give way; the failed request restores them. *)
Definition demo_calls : Engine unit :=
  demo_engine (demo_say User "go" :: demo_call "a" ++ demo_call "b" ++ demo_call "c").
Example demo_cleared :
  (λ m, content m) <$> messages (exec_all demo_host [Append (demo_say User "more"); ForcedMicroPass] demo_calls) !! 2 =
  Some [ToolResult (as_bytes "a") (as_bytes "[Tool result cleared] ref:1") false []].
Proof. vm_compute. reflexivity. Qed.
Lemma turn_rollback_refines_witness :
  forget_rounds (messages (rollback_transcript_to 7
    (exec_all demo_host [Append (demo_say User "more"); ForcedMicroPass] demo_calls))) = forget_rounds (messages demo_calls).
Proof.
  assert (Hu : prefix_rewrite_undo demo_calls = []) by reflexivity.
  destruct (turn_rollback_refines demo_host [Append (demo_say User "more"); ForcedMicroPass] demo_calls Hu)
    as (T & _ & _ & Hr). apply Hr. repeat constructor; intros now; discriminate.
Defined.
(** The checkpoint is a length: a snip of two messages or more between it and the
    failure leaves the failed turn's message behind the roll-back. *)
Definition demo_talk : Engine unit :=
  demo_engine (concat (replicate 15 [demo_say User "question"; demo_say Assistant "answer"])).
Example snip_leaves_failed_turn :
  let e := rollback_transcript_to 30 (exec_all demo_host [Append (demo_say User "failed turn"); SnipPass 0] demo_talk) in
  length (messages demo_talk) = 30 ∧ length (messages e) = 29 ∧ messages e !! 27 = Some (demo_say User "failed turn").
Proof. vm_compute. done. Qed.
