(* ===== verification/CompactPairs.v ===== *)
(** Tool calls stay with their results: every pass of the compaction keeps a
    transcript in which each assistant message with calls is followed by the message
    with their results. *)
From S2P Require Import Prelude Bytes Text Json Float64 Conversation SummaryPrompt LlmStream Compaction AutoCompact CompactEngine CompactUndo.

Section pairs.
Context {Num : Type}.
Abbreviation Message := (Message Num).
Implicit Types (ms : list Message) (m p x : Message).

(** ** Transcripts *)

Definition use_id (b : ContentBlock Num) : option bytes := match b with ToolUse id _ _ _ => Some id | _ => None end.
Definition result_id (b : ContentBlock Num) : option bytes := match b with ToolResult id _ _ _ => Some id | _ => None end.
Definition uses m : list bytes := if bool_decide (role m = Assistant) then omap use_id (content m) else [].
Definition results m : list bytes := if bool_decide (role m = User) then omap result_id (content m) else [].
(** What the next message depends on: the open calls, and whether a summary may
    follow. *)
Record Before := mkBefore { open_calls : list bytes; boundary : bool }.
Definition at_start : Before := mkBefore [] false.
Definition after m : Before := mkBefore (uses m) (is_compact_boundary m && negb (is_tool_result_message m)).
Definition fits (s : Before) m : Prop :=
  results m ≡ₚ open_calls s ∧ (is_compact_summary m = true → boundary s = true).
Definition end_state (s : Before) ms : Before := match last ms with Some m => after m | None => s end.
Fixpoint all_fit (s : Before) ms : Prop :=
  match ms with [] => True | m :: ms => fits s m ∧ all_fit (after m) ms end.
(** Results answer the calls of the message before, a summary follows its
    boundary, and no call is open at the end. *)
Definition well_paired ms : Prop := all_fit at_start ms ∧ open_calls (end_state at_start ms) = [].

Lemma end_state_cons s m ms : end_state s (m :: ms) = end_state (after m) ms.
Proof. unfold end_state. destruct ms as [|m' ms]; [done|]. rewrite last_cons_cons. by destruct (last (m' :: ms)) eqn:E; [|apply last_None in E]. Qed.
Lemma all_fit_app s ms ms' : all_fit s (ms ++ ms') ↔ all_fit s ms ∧ all_fit (end_state s ms) ms'.
Proof.
  revert s. induction ms as [|m ms IH]; intros s; simpl; [unfold end_state; simpl; tauto|].
  rewrite IH, end_state_cons. tauto.
Qed.
Lemma end_state_app s ms ms' : end_state s (ms ++ ms') = end_state (end_state s ms) ms'.
Proof. revert s. induction ms as [|m ms IH]; intros s; simpl; [done|]. by rewrite !end_state_cons. Qed.

(** A message that neither opens nor answers calls and is no summary fits wherever
    no call is open, and leaves none open. *)
Definition neutral m : Prop := uses m = [] ∧ results m = [] ∧ is_compact_summary m = false.
Lemma neutral_fit s ms : open_calls s = [] → Forall neutral ms → all_fit s ms ∧ open_calls (end_state s ms) = [].
Proof.
  intros Hs Hn. revert s Hs. induction Hn as [|m ms (Hu & Hr & Hsum) _ IH]; intros s Hs; [done|]. rewrite end_state_cons.
  destruct (IH (after m)) as [Hf He]; [done|]. split; [|done]. split; [|done]. unfold fits. by rewrite Hr, Hs, Hsum.
Qed.
(** The state before a message that is neither a result nor a summary does not
    matter once no call is open. *)
Lemma fit_at_new_start s s' m ms :
  results m = [] → is_compact_summary m = false → all_fit s (m :: ms) → open_calls s' = [] → all_fit s' (m :: ms).
Proof. intros Hr Hsum [_ Hms] Hs'. split; [|done]. unfold fits. by rewrite Hr, Hs', Hsum. Qed.
Lemma all_fit_lookup s ms k m p :
  all_fit s ms → ms !! S k = Some m → ms !! k = Some p → fits (after p) m.
Proof.
  revert s k. induction ms as [|m' ms IH]; intros s k Hf Hm Hp; [done|]. destruct Hf as [_ Hf].
  destruct k as [|k]; simpl in *; [|by eapply IH]. simplify_eq. destruct ms; simplify_eq/=. by destruct Hf.
Qed.
(** Deleting a message without calls, results or artifacts *)
Definition loose m : Prop := neutral m ∧ is_compact_boundary m = false.
Lemma all_fit_delete s ms k x :
  all_fit s ms → ms !! k = Some x → loose x →
  all_fit s (delete k ms) ∧ open_calls (end_state s (delete k ms)) = open_calls (end_state s ms).
Proof.
  revert s k. induction ms as [|m ms IH]; intros s k Hf Hk Hx; [done|]. destruct k as [|k]; simpl in *.
  - simplify_eq. destruct Hf as [[Hr Hsum] Hf]. destruct Hx as [(Hu & Hres & Hs) Hb].
    rewrite Hres in Hr. apply Permutation_nil_l in Hr. rewrite end_state_cons.
    assert (Ha : after x = at_start) by (unfold after; by rewrite Hu, Hb). rewrite Ha in *.
    destruct ms as [|m' ms]; [done|]. rewrite !end_state_cons. split; [|done]. destruct Hf as [[Hr' Hs'] Hf].
    split; [|done]. split; [by rewrite Hr', <- Hr|]. intros Hsm. by specialize (Hs' Hsm).
  - destruct Hf as [Hm Hf]. destruct (IH (after m) k Hf Hk Hx) as [Hd He]. rewrite !end_state_cons. done.
Qed.
Lemma remove_all_fit from ix s ms :
  increasing from ix → (∀ k, k ∈ ix → ∃ x, ms !! k = Some x ∧ loose x) → all_fit s ms →
  all_fit s (remove_all ix ms) ∧ open_calls (end_state s (remove_all ix ms)) = open_calls (end_state s ms).
Proof.
  revert from. induction ix as [|k ix IH]; intros from Hi Hx Hf; [done|]. apply increasing_inv in Hi as [_ Hi]. simpl.
  destruct (IH (S k) Hi) as [Hf' <-]; [intros j Hj; apply Hx; by right|done|].
  destruct (Hx k) as (x & Hk & Hl); [by left|]. eapply all_fit_delete; [done| |done].
  by rewrite (remove_all_lookup (S k)) by (done || lia).
Qed.

(** Changes inside blocks that keep kinds and identities are not seen. *)
Definition same_view m m' : Prop :=
  uses m = uses m' ∧ results m = results m' ∧ is_compact_boundary m = is_compact_boundary m' ∧
  is_compact_summary m = is_compact_summary m' ∧ is_tool_result_message m = is_tool_result_message m'.
Lemma same_view_after m m' : same_view m m' → after m = after m'.
Proof. intros (Hu & _ & Hb & _ & Ht). unfold after. by rewrite Hu, Hb, Ht. Qed.
Lemma all_fit_same_view s ms ms' : Forall2 same_view ms ms' → all_fit s ms → all_fit s ms' ∧ end_state s ms = end_state s ms'.
Proof.
  intros Hv. revert s. induction Hv as [|m m' ms ms' Hm _ IH]; intros s; [done|]. intros [[Hr Hs] Hf].
  rewrite !end_state_cons. rewrite (same_view_after _ _ Hm) in *. destruct (IH _ Hf) as [Hf' He]. split; [|done].
  split; [|done]. destruct Hm as (_ & Hres & _ & Hsum & _). unfold fits. by rewrite <- Hres, <- Hsum.
Qed.
Lemma well_paired_same_view ms ms' : Forall2 same_view ms ms' → well_paired ms → well_paired ms'.
Proof. intros Hv [Hf He]. destruct (all_fit_same_view _ _ _ Hv Hf) as [Hf' He']. split; [done|congruence]. Qed.

(** ** Kinds of blocks *)

Lemma results_nil m : is_tool_result_message m = false → results m = [].
Proof.
  unfold is_tool_result_message, results. case_bool_decide; [|done]. simpl. induction (content m) as [|b c IH]; [done|].
  simpl. intros [Hb Hc]%orb_false_iff. destruct b; simpl in *; try done; by apply IH.
Qed.
Lemma neutral_user m : role m = User → is_tool_result_message m = false → is_compact_summary m = false → neutral m.
Proof. intros Hr Ht Hs. split_and!; [|by apply results_nil|done]. unfold uses. by rewrite Hr. Qed.
Lemma user_text_prefix (l t : bytes) : has_text_prefix l (user_text (Num := Num) t) = str_starts_with l t.
Proof. apply orb_false_r. Qed.
Lemma plain_turn_loose config json_byte_len m : snippable json_byte_len config m = true → loose m.
Proof.
  unfold snippable, is_compaction_artifact. rewrite !andb_true_iff, negb_true_iff, !orb_false_iff.
  intros [[[[Hb Hs] _] _] Hp]. split; [|done].
  assert (Hc : omap use_id (content m) = [] ∧ omap result_id (content m) = []).
  { unfold is_plain_text_turn in Hp. revert Hp. generalize false as saw.
    induction (content m) as [|b bs IH]; intros saw Hp; [done|]. destruct b; simpl in *; try done; by eapply IH. }
  destruct Hc as [Hu Hr]. unfold neutral, uses, results. rewrite Hu, Hr. by repeat case_match.
Qed.

(** ** Changes in place *)

Definition keeps_kind (f : ContentBlock Num → ContentBlock Num) : Prop :=
  ∀ b, use_id (f b) = use_id b ∧ result_id (f b) = result_id b ∧ (is_tool_result b = false → f b = b).
Lemma keeps_kind_set_result c i : keeps_kind (set_result c i).
Proof. by intros []. Qed.
Lemma alter_omap {A B} (h : A → option B) (f : A → A) i (c : list A) :
  (∀ b, h (f b) = h b) → omap h (alter f i c) = omap h c.
Proof.
  intros Hf. revert i. induction c as [|b c IH]; intros [|i]; simpl; rewrite ?Hf; try done.
  destruct (h b); [f_equal|]; apply IH.
Qed.
Lemma alter_existsb {A} (h : A → bool) (f : A → A) i (c : list A) :
  (∀ b, h (f b) = h b) → existsb h (alter f i c) = existsb h c.
Proof. intros Hf. revert i. induction c as [|b c IH]; intros [|i]; simpl; rewrite ?Hf; try done. f_equal. apply IH. Qed.
Lemma map_content_same_view f bi m : keeps_kind f → same_view m (map_content f bi m).
Proof.
  intros Hf. unfold same_view, uses, results, is_compact_boundary, is_compact_summary, has_text_prefix, is_tool_result_message.
  simpl. rewrite !alter_omap by (intros b; apply Hf). rewrite !alter_existsb; [done|..].
  all: intros b; destruct (Hf b) as (_ & Hr & Hid); destruct (is_tool_result b) eqn:Hb; [|by rewrite Hid].
  all: destruct b; try done; simpl in Hr; by destruct (f _).
Qed.
#[export] Instance same_view_refl : Reflexive same_view.
Proof. by intros m. Qed.
#[export] Instance same_view_trans : Transitive same_view.
Proof.
  intros m1 m2 m3 (A1 & B1 & C1 & D1 & E1) (A2 & B2 & C2 & D2 & E2). unfold same_view.
  by rewrite A1, B1, C1, D1, E1.
Qed.
Lemma map_block_same_view f loc ms : keeps_kind f → Forall2 same_view ms (map_block f loc ms).
Proof.
  intros Hf. destruct loc as [mi bi]. rewrite map_block_unfold. apply Forall2_same_length_lookup_2; [by rewrite length_alter|].
  intros k m m' Hm Hm'. rewrite list_lookup_alter in Hm'.
  case_decide; subst; rewrite Hm in Hm'; injection Hm' as <-; [by apply map_content_same_view|]. by split_and!.
Qed.
Lemma clear_steps_same_view paths targets st :
  Forall2 same_view st.1 (foldl (clear_step (Num := Num) paths) st targets).1.
Proof.
  revert st. induction targets as [|loc targets IH]; intros st; simpl; [done|]. etrans; [|apply IH].
  destruct st as [ms r]. unfold clear_step. repeat case_match; simpl; try done.
  apply map_block_same_view, keeps_kind_set_result.
Qed.
Lemma microcompact_same_view ms config : Forall2 same_view ms (microcompact ms config).1.
Proof. unfold microcompact. case_match; [done|]. apply (clear_steps_same_view _ _ (_, _)). Qed.

(** ** The fold *)

Context (json_byte_len : Value Num → N) (config : CompactConfig).
Lemma step_back_spec (P : Message → bool) ms head start :
  let k := step_back P ms head start in
  k ≤ start ∧ (head < k → ∀ m, ms !! k = Some m → P m = false) ∧ (k < start → ∃ m, ms !! S k = Some m ∧ P m = true).
Proof.
  induction start as [|start IH]; cbn [step_back]; [split_and!; lia|].
  destruct (head <? S start) eqn:Hh; simpl; [|apply Nat.ltb_ge in Hh; split_and!; lia].
  destruct (ms !! S start) as [m|] eqn:Hm; [|split_and!; [lia|by rewrite Hm|lia]].
  destruct (P m) eqn:HP; [|split_and!; [lia|intros _ ?; rewrite Hm; by intros [= <-]|lia]].
  destruct IH as (Hle & Hk & Hs). split_and!; [lia|done|]. intros Hlt.
  destruct (decide (step_back P ms head start < start)) as [|Hge]; [by apply Hs|].
  exists m. by replace (step_back P ms head start) with start by lia.
Qed.
Lemma align_tail_spec s ms head start m :
  all_fit s ms → head < align_tail_start ms head start → ms !! align_tail_start ms head start = Some m →
  is_tool_result_message m = false ∧ is_compact_summary m = false.
Proof.
  intros Hf. unfold align_tail_start.
  destruct (step_back_spec is_tool_result_message ms head start) as (_ & Hp1 & _).
  set (k1 := step_back is_tool_result_message ms head start) in *.
  destruct (step_back_spec is_compact_summary ms head k1) as (Hle & Hp2 & Hs2).
  set (k2 := step_back is_compact_summary ms head k1) in *.
  intros Hlt. rewrite Nat.max_l by lia. intros Hm. assert (head < k2) by lia. split; [|by apply Hp2].
  clearbody k1 k2. destruct (decide (k2 = k1)) as [->|Hne]; [by apply Hp1|].
  destruct Hs2 as (m' & Hm' & Hsum); [lia|]. destruct (all_fit_lookup _ _ _ _ _ Hf Hm' Hm) as [_ Hb].
  specialize (Hb Hsum). simpl in Hb. by apply andb_true_iff in Hb as [_ ?%negb_true_iff].
Qed.
Lemma plan_spec ms tokens plan :
  plan_compaction json_byte_len ms config tokens = Some plan →
  head_len plan = pinned_prefix_len json_byte_len ms config ∧ head_len plan + 2 ≤ start plan ∧
  ∃ k, start plan = align_tail_start ms (head_len plan) k.
Proof.
  unfold plan_compaction. case_match; [done|].
  match goal with |- context [if ?b && ?c then ?x else tail_start _ _ ?h _] => destruct (b && c) end;
    (case_match eqn:Hlt; [done|]); intros [= <-]; simpl; apply Nat.ltb_ge in Hlt; unfold MIN_COMPACT_MESSAGES in Hlt;
    (split_and!; [done|lia|by eexists]).
Qed.
Lemma pinnable_neutral m :
  role m = User → is_compaction_artifact m = false → is_pinnable_user_turn json_byte_len m config = true → neutral m.
Proof.
  intros Hr Ha Hp. unfold is_compaction_artifact in Ha. apply orb_false_iff in Ha as [_ Hs].
  apply neutral_user; [done| |done]. unfold is_pinnable_user_turn in Hp. unfold is_tool_result_message.
  rewrite Hr in *. simpl in *. destruct (existsb is_tool_result (content m)); [|done]. by rewrite orb_true_r in Hp.
Qed.
Lemma pinned_neutral ms : Forall neutral (take (pinned_prefix_len json_byte_len ms config) ms).
Proof.
  unfold pinned_prefix_len. destruct ms as [|m ms]; [constructor|]. case_match eqn:Hp; [|constructor].
  rewrite !andb_true_iff, bool_decide_eq_true, negb_true_iff in Hp. destruct Hp as [[Hr Ha] Hpin].
  simpl. rewrite take_0. by apply Forall_singleton, pinnable_neutral.
Qed.
Lemma kept_neutral ms : Forall neutral (partition_fold json_byte_len ms config).1.
Proof.
  apply Forall_forall. intros m [Hk _]%list_elem_of_filter. unfold kept_verbatim in Hk. case_match; [done|].
  apply andb_true_iff in Hk as [Hr Hp]. apply bool_decide_eq_true in Hr. by apply pinnable_neutral.
Qed.
Lemma boundary_fits r tokens n :
  neutral (boundary_message r tokens n) ∧ after (boundary_message (Num := Num) r tokens n) = mkBefore [] true.
Proof.
  by split; [apply neutral_user|].
Qed.
Lemma well_paired_push ms m : well_paired ms → neutral m → well_paired (ms ++ [m]).
Proof.
  intros [Hf He] Hm. unfold well_paired. rewrite all_fit_app, end_state_app.
  destruct (neutral_fit (end_state at_start ms) [m] He) as [H1 H2]; [by apply Forall_singleton|]. done.
Qed.
Lemma tail_fits ms tokens plan :
  well_paired ms → plan_compaction json_byte_len ms config tokens = Some plan →
  all_fit at_start (drop (start plan) ms) ∧ open_calls (end_state at_start (drop (start plan) ms)) = [].
Proof.
  intros [Hf He] Hplan. destruct (plan_spec _ _ _ Hplan) as (_ & Hlt & k & Hk).
  pose proof (align_tail_spec at_start ms (head_len plan) k) as Halign. rewrite <- Hk in Halign.
  rewrite <- (take_drop (start plan) ms), end_state_app in He. pose proof Hf as Hf'.
  rewrite <- (take_drop (start plan) ms), all_fit_app in Hf'. destruct Hf' as [_ Hf2].
  destruct (drop (start plan) ms) as [|m rest] eqn:Hd; [done|].
  assert (Hm : ms !! start plan = Some m) by (by rewrite <- (Nat.add_0_r (start plan)), <- lookup_drop, Hd).
  destruct (Halign m Hf) as [Ht Hs]; [lia|done|]. rewrite end_state_cons in *.
  split; [|done]. by eapply fit_at_new_start, eq_refl; [apply results_nil| |exact Hf2].
Qed.
Lemma fold_well_paired r tokens n t a ms plan kept :
  well_paired ms → plan_compaction json_byte_len ms config tokens = Some plan → Forall neutral kept →
  well_paired (take (head_len plan) ms ++ kept
    ++ [boundary_message r tokens n; summary_message r t a] ++ drop (start plan) ms).
Proof.
  intros Hw Hplan Hkept. destruct (tail_fits ms tokens plan Hw Hplan) as [Htf Hte].
  destruct (plan_spec _ _ _ Hplan) as (Hh & _ & _).
  rewrite app_assoc. set (front := take (head_len plan) ms ++ kept).
  assert (Hfront : Forall neutral front) by (apply Forall_app; split; [rewrite Hh; apply pinned_neutral|done]).
  destruct (neutral_fit at_start front eq_refl Hfront) as [Hff Hfe]. destruct (boundary_fits r tokens n) as [Hbn Hba].
  destruct (neutral_fit (end_state at_start front) [boundary_message r tokens n] Hfe) as [[Hb _] _];
    [by apply Forall_singleton|].
  unfold well_paired. rewrite all_fit_app, end_state_app. simpl. rewrite !end_state_cons, Hba. by split.
Qed.
Lemma autocompact_well_paired provider archive ms model_name s r s' sent res :
  well_paired ms → autocompact_with json_byte_len provider archive ms model_name config s r = (s', sent, inr res) →
  well_paired (result_messages res).
Proof.
  intros Hw. unfold autocompact_with. case_match; [done|].
  destruct (plan_compaction json_byte_len ms config (last_input_tokens s)) as [plan|] eqn:Hplan.
  - match goal with |- context [partition_fold ?j ?l ?c] => pose proof (kept_neutral l) as Hk; destruct (partition_fold j l c) as [kept fold] end.
    case_match; [by intros [= _ _ <-]|]. destruct (fold_summary _ _ _ _ _) as [sent' [[t mech] reason]].
    intros [= _ _ <-]. simpl. by apply fold_well_paired.
  - by intros [= _ _ <-].
Qed.
End pairs.

(** ** The engine's passes *)

Section engine_pairs.
Context {Num : Type} (host : Host Num).
Implicit Types (e : Engine Num).
Context (reinject_ok : ∀ t, reinject host = Some t → str_starts_with SUMMARY_PREFIX t = false).

Lemma forget_same_view (ms : list (Message Num)) : Forall2 same_view ms (forget_rounds ms).
Proof. apply Forall2_fmap_r. by apply Forall_Forall2_diag, Forall_forall. Qed.
Lemma annotate_same_view (ms : list (Message Num)) log : Forall2 same_view ms (foldl (annotate host) ms log).
Proof.
  revert ms. induction log as [|b log IH]; intros ms; simpl; [done|]. etrans; [|apply IH].
  unfold annotate. repeat case_match; try done. apply map_block_same_view. by intros [].
Qed.
Lemma apply_microcompact_paired e : well_paired (messages e) → well_paired (messages (apply_microcompact host e).1).
Proof.
  apply well_paired_same_view. unfold apply_microcompact. pose proof (microcompact_same_view (messages e) (config host)) as Hm.
  destruct (microcompact (messages e) (config host)) as [ms r]. simpl in Hm. destruct (0 <? cleared_count r).
  - assert (Forall2 same_view (messages e) (forget_rounds (foldl (annotate host) ms (cleared_bodies r)))); [|by case_match].
    etrans; [exact Hm|]. etrans; [apply annotate_same_view|apply forget_same_view].
  - by case_match.
Qed.
Lemma run_snip_paired now e : well_paired (messages e) → well_paired (messages (run_snip_layer host now e).1).
Proof.
  intros [Hf He]. unfold run_snip_layer, snip_old_plain_turns. case_bool_decide as Hix; [done|].
  assert (Hms : ∀ ix, messages (remap_prefix_rewrite_undo ix e) = messages e).
  { intros ix. unfold remap_prefix_rewrite_undo. by case_match. }
  rewrite Hms. set (ix := snip_indices _ _ _ _) in *. destruct (length ix =? 0) eqn:Hn.
  { by apply Nat.eqb_eq, length_zero_iff_nil in Hn. }
  simpl. eapply well_paired_same_view; [apply forget_same_view|]. apply well_paired_push.
  - destruct (remove_all_fit 0 ix at_start (messages e)) as [Hf' He']; [apply snip_indices_increasing| |done|].
    + intros k (m & Hm & Hs)%snip_indices_spec. exists m. split; [done|]. by eapply plain_turn_loose.
    + by split; [|rewrite He'].
  - by apply neutral_user.
Qed.
Lemma watermark_messages n freed e : messages (apply_compact_watermark host n freed e) = messages e.
Proof. done. Qed.
Lemma adopt_fold_paired now force r e :
  well_paired (messages e) → well_paired (result_messages r) → well_paired (messages (adopt_fold host now force r e)).
Proof.
  intros He Hr. unfold adopt_fold. case_match; [done|]. rewrite watermark_messages.
  destruct (reinject host) as [t|] eqn:Hre; [|done]. apply well_paired_push; [done|]. apply neutral_user; [done..|].
  etrans; [apply user_text_prefix|]. by apply reinject_ok.
Qed.
Lemma run_autocompact_paired now force t e :
  well_paired (messages e) → well_paired (messages (run_autocompact host now force t e)).
Proof.
  intros He. unfold run_autocompact. case_match; [by unfold no_fold; repeat case_match|]. case_match; [done|].
  destruct (autocompact_with _ _ _ _ _ _ _ _) as [[s sent] answer] eqn:Hauto.
  destruct answer as [error|r]; [by destruct error|]. apply autocompact_well_paired in Hauto; [|done].
  case_match; [by apply adopt_fold_paired|]. by case_match.
Qed.
Lemma cheap_layers_paired forced now e : well_paired (messages e) → well_paired (messages (cheap_layers host forced now e).1).
Proof.
  intros He. unfold cheap_layers. pose proof (run_snip_paired now e He) as Hs.
  destruct (run_snip_layer host now e) as [e' snipped]. simpl in Hs. pose proof (apply_microcompact_paired e' Hs) as Hm.
  assert (H : well_paired (messages (if forced then run_microcompact_forced host e' else run_microcompact host now e').1)).
  { unfold run_microcompact_forced, run_microcompact. by repeat case_match. }
  by destruct (if forced then run_microcompact_forced host e' else run_microcompact host now e').
Qed.

(** C22. No pass of the compaction separates a tool call from its result: when each
    message of the transcript fits the one before it (results answer exactly the
    calls of the message before, a summary follows its boundary marker) and no call
    is open at the end, the same holds after the pipeline has run for any reason,
    with any provider behind the summarizer. *)
Theorem compaction_keeps_pairs now reason e :
  well_paired (messages e) → well_paired (messages (run_compaction host now reason e).1).
Proof.
  intros He. assert (Hc : ∀ forced, well_paired (messages (cheap_layers host forced now e).1)) by (intros; by apply cheap_layers_paired).
  pose proof (Hc false) as Hcf. pose proof (Hc true) as Hct. unfold run_compaction. destruct reason.
  1, 2: simpl; destruct (cheap_layers host false now e) as [e' freed]; repeat case_match; simpl; try done;
    by apply run_autocompact_paired.
  - destruct (cheap_layers host true now e) as [e' freed]. repeat case_match; simpl; try done. by apply run_autocompact_paired.
  - destruct (cheap_layers host false now e) as [e' freed]. simpl. case_match; [by apply run_autocompact_paired|done].
Qed.
End engine_pairs.

(** ** A concrete fold *)

Definition folding_host : Host unit :=
  mkHost (λ _, 0%N) demo_config [] [] (as_bytes "m") None
    (λ _ _, Stream [TextDelta (as_bytes "<summary>done so far</summary>"); Done EndTurn (mkUsage 0 0 0 0 0)])
    (λ _, None) (λ _ _, None) (Some (as_bytes "Keep the plan.")).
Definition full_engine : Engine unit :=
  set_state (note_provider_input_tokens 120000 (set_tokens 120000 new_state))
    (demo_engine (demo_say User "go" :: demo_call "a" ++ demo_call "b" ++ demo_call "c" ++ [demo_say Assistant "all done"])).
(** The pinned request, the boundary, the summary, the tail from a call on, and the
    harness' message; the results in the tail are cleared but the newest. *)
Example fold_layout :
  let e := (run_compaction folding_host 0 TurnStart full_engine).1 in
  (λ m, (uses m, results m)) <$> messages e =
    [([], []); ([], []); ([], []); ([as_bytes "b"], []); ([], [as_bytes "b"]); ([as_bytes "c"], []);
     ([], [as_bytes "c"]); ([], []); ([], [])] ∧
  nth_error (effects e) 2 = Some (EmitInfo (as_bytes "Autocompact: summarized 2 messages (119996 tokens → compact)")).
Proof. vm_compute. done. Qed.
Lemma compaction_keeps_pairs_witness :
  well_paired (messages full_engine) ∧ well_paired (messages (run_compaction folding_host 0 TurnStart full_engine).1).
Proof.
  assert (Hw : well_paired (messages full_engine)).
  { unfold well_paired. simpl. unfold fits. simpl. split_and!; try done. }
  split; [exact Hw|]. apply (compaction_keeps_pairs folding_host); [|exact Hw]. intros t [= <-]. reflexivity.
Defined.
