(* ===== verification/CompactTheorems.v ===== *)
(** What a microcompaction clears: exactly the older live results of compactable tools.
    Folding a conversation: what the summarizer may be asked, what a fold keeps, and when
    the engine adopts it. *)
From S2P Require Import Prelude Bytes Text Json Float64 Conversation SummaryPrompt LlmStream Compaction AutoCompact CompactEngine CompactUndo CompactPairs.

Section micro.
Context {Num : Type}.
Abbreviation Message := (Message Num).
Abbreviation ContentBlock := (ContentBlock Num).
Implicit Types (ms : list Message) (m : Message) (live : ContentBlock → bool).

(** ** Locations *)

Definition place (mi : nat) m : list (nat * nat) := pair mi <$> seq 0 (length (content m)).
Definition places ms : list (nat * nat) := concat (imap place ms).
Definition live_at live ms (loc : nat * nat) : bool := match block_at ms loc with Some b => live b | None => false end.
Lemma filter_concat {A} (P : A → Prop) `{!∀ x, Decision (P x)} (ls : list (list A)) :
  filter P (concat ls) = concat (filter P <$> ls).
Proof. induction ls as [|l ls IH]; [done|]. simpl. by rewrite filter_app, IH. Qed.
Lemma filter_fmap {A B} (P : B → Prop) `{!∀ x, Decision (P x)} (f : A → B) (l : list A) :
  filter P (f <$> l) = f <$> filter (λ x, P (f x)) l.
Proof.
  induction l as [|x l IH]; [done|]. rewrite fmap_cons, !filter_cons. case_decide; [rewrite fmap_cons; f_equal|]; exact IH.
Qed.
Lemma locations_filter live ms : locations live ms = filter (λ loc, live_at live ms loc = true) (places ms).
Proof.
  unfold places, locations. rewrite filter_concat, fmap_imap. f_equal. apply imap_ext. intros mi m Hm.
  unfold place, block_locations, compose. rewrite filter_fmap. f_equal. apply list_filter_iff. intros bi.
  unfold live_at, block_at. simpl. by rewrite Hm.
Qed.
Lemma places_from k ms :
  NoDup (concat (imap (λ i, place (k + i)) ms)) ∧ Forall (λ loc, k ≤ loc.1) (concat (imap (λ i, place (k + i)) ms)).
Proof.
  revert k. induction ms as [|m ms IH]; intros k; [by split; constructor|]. rewrite imap_cons. simpl.
  rewrite (imap_ext _ (λ i, place (S k + i))) by (intros i x _; simpl; by rewrite Nat.add_succ_r). destruct (IH (S k)) as [Hn Hf].
  assert (Hp : Forall (λ loc : nat * nat, loc.1 = k) (place (k + 0) m)).
  { apply Forall_fmap, Forall_forall. intros bi _. simpl. lia. }
  split.
  - apply NoDup_app. split_and!; [apply NoDup_fmap_2; [by intros ?? [= ->]|apply NoDup_seq]| |done].
    intros loc Hl Hl'. rewrite Forall_forall in Hp, Hf. specialize (Hp _ Hl). specialize (Hf _ Hl'). simpl in Hf. lia.
  - apply Forall_app. split; eapply Forall_impl; [exact Hp| |exact Hf|]; simpl; lia.
Qed.
Lemma places_NoDup ms : NoDup (places ms).
Proof. destruct (places_from 0 ms) as [Hn _]. done. Qed.
Lemma locations_NoDup live ms : NoDup (locations live ms).
Proof. rewrite locations_filter. apply NoDup_filter, places_NoDup. Qed.
Lemma locations_live live ms loc : loc ∈ locations live ms → live_at live ms loc = true.
Proof. rewrite locations_filter, list_elem_of_filter. tauto. Qed.

Lemma block_at_map_block f loc loc' ms :
  block_at (map_block f loc ms) loc' = if decide (loc = loc') then f <$> block_at ms loc' else block_at ms loc'.
Proof.
  destruct loc as [mi bi], loc' as [mj bj]. unfold block_at. rewrite map_block_unfold. simpl. rewrite list_lookup_alter.
  destruct (decide (mi = mj)) as [->|Hne]; [|by rewrite decide_False by congruence].
  destruct (ms !! mj) as [m|]; simpl; [|by case_decide]. rewrite list_lookup_alter.
  destruct (decide (bi = bj)) as [->|Hne]; [by rewrite decide_True|by rewrite decide_False by congruence].
Qed.
Lemma places_map_block f loc ms : places (map_block f loc ms) = places ms.
Proof.
  destruct loc as [mi bi]. rewrite map_block_unfold. unfold places. f_equal. apply list_eq. intros k.
  rewrite !list_lookup_imap, list_lookup_alter. case_decide; [subst|done]. destruct (ms !! k) as [m|]; [|done].
  simpl. unfold place. simpl. by rewrite length_alter.
Qed.

(** ** Clearing *)

Definition is_result_at ms (loc : nat * nat) : Prop := ∃ b, block_at ms loc = Some b ∧ is_tool_result b = true.
Definition cleared (b : ContentBlock) : ContentBlock := set_result CLEARED_TOOL_RESULT [] b.
Lemma clear_steps_spec paths targets st :
  NoDup targets → Forall (is_result_at st.1) targets →
  let st' := foldl (clear_step paths) st targets in
  (∀ loc, block_at st'.1 loc = if decide (loc ∈ targets) then cleared <$> block_at st.1 loc else block_at st.1 loc) ∧
  places st'.1 = places st.1 ∧ cleared_count st'.2 = cleared_count st.2 + length targets.
Proof.
  revert st. induction targets as [|loc targets IH]; intros [ms r] Hnd Hres; cbn [foldl fst snd length].
  { split_and!; [|done|lia]. intros loc. rewrite decide_False; [done|apply not_elem_of_nil]. }
  apply NoDup_cons in Hnd as [Hnin Hnd]. apply Forall_cons in Hres as [(b & Hb & Hr) Hres]. simpl in Hb, Hres.
  unfold clear_step at 2 4 6. rewrite Hb. destruct b as [| |id c err images| |]; try done.
  match goal with |- context [foldl _ (?ms1, ?r1) _] => specialize (IH (ms1, r1) Hnd) end. simpl in IH.
  destruct IH as (IHb & IHp & IHc).
  { apply Forall_forall. intros loc' Hl'. rewrite Forall_forall in Hres. destruct (Hres _ Hl') as (b' & Hb' & Hr').
    exists b'. rewrite block_at_map_block, decide_False by congruence. done. }
  split_and!; [|by rewrite IHp, places_map_block|lia].
  intros loc'. rewrite IHb, block_at_map_block. destruct (decide (loc = loc')) as [<-|Hne].
  - rewrite decide_False by done. rewrite decide_True by left. by rewrite Hb.
  - destruct (decide (loc' ∈ targets)); [rewrite decide_True by by right|rewrite decide_False]; [done|done|].
    intros [|]%elem_of_cons; congruence.
Qed.
Lemma filter_not_taken {A} `{EqDecision A} (l : list A) n : NoDup l → filter (λ x, x ∉ take n l) l = drop n l.
Proof.
  intros Hn. assert (H : filter (λ x, x ∉ take n l) (take n l ++ drop n l) = drop n l); [|by rewrite take_drop in H].
  rewrite <- (take_drop n l) in Hn. apply NoDup_app in Hn as (_ & Hd & _). rewrite filter_app.
  rewrite filter_none by (intros x Hx Hnx; by apply Hnx).
  apply filter_all, Forall_forall. intros x Hx Ht. by eapply Hd.
Qed.

(** ** How many stay *)

Lemma protect_loop_spec sizes total keep tokens :
  (tokens < PRUNE_PROTECT_TOKENS)%N → keep + length sizes = total →
  let k := protect_loop sizes total keep tokens in
  keep ≤ k ≤ total ∧ (k = total ∨ PRUNE_PROTECT_TOKENS ≤ tokens + foldr N.add 0 (take (k - keep) sizes))%N.
Proof.
  revert keep tokens. induction sizes as [|n sizes IH]; intros keep tokens Ht Hlen; cbn [protect_loop length] in *; [lia|].
  destruct (N.leb_spec PRUNE_PROTECT_TOKENS (tokens + n)) as [Hp|Hp]; cbn [orb].
  - split; [lia|]. right. replace (S keep - keep) with 1 by lia. simpl. lia.
  - destruct (Nat.eqb_spec (S keep) total) as [He|He]; [split; [lia|by left]|]. destruct (IH (S keep) (tokens + n)%N) as [Hk Hs]; [done|lia|].
    split; [lia|]. destruct Hs as [Hs|Hs]; [by left|right].
    replace (protect_loop sizes total (S keep) (tokens + n) - keep)
      with (S (protect_loop sizes total (S keep) (tokens + n) - S keep)) by lia. simpl. lia.
Qed.
Definition tokens_at ms (locs : list (nat * nat)) : N := foldr N.add 0%N ((λ loc, result_tokens (block_at ms loc)) <$> locs).
Lemma foldr_add_app (l l' : list N) : foldr N.add 0%N (l ++ l') = (foldr N.add 0 l + foldr N.add 0 l')%N.
Proof. induction l as [|n l IH]; simpl; lia. Qed.
Lemma foldr_add_rev (l : list N) : foldr N.add 0%N (rev l) = foldr N.add 0%N l.
Proof. induction l as [|n l IH]; simpl; [done|]. rewrite foldr_add_app, IH. simpl. lia. Qed.
Lemma foldr_add_drop n (l : list N) : (foldr N.add 0 (drop n l) ≤ foldr N.add 0 l)%N.
Proof. pose proof (foldr_add_app (take n l) (drop n l)) as H. rewrite take_drop in H. lia. Qed.
Lemma foldr_add_drop_mono n k (l : list N) : k ≤ n → (foldr N.add 0 (drop n l) ≤ foldr N.add 0 (drop k l))%N.
Proof. intros Hk. replace n with (k + (n - k)) by lia. rewrite <- drop_drop. apply foldr_add_drop. Qed.
Lemma keep_recent_spec targets ms min_keep :
  let keep := keep_recent_count targets ms min_keep in
  let floor := N.to_nat (N.min min_keep (N.of_nat (length targets))) in
  floor ≤ keep ≤ length targets ∧
  ((tokens_at ms targets ≤ PRUNE_PROTECT_TOKENS)%N → keep = floor) ∧
  ((PRUNE_PROTECT_TOKENS < tokens_at ms targets)%N →
   (PRUNE_PROTECT_TOKENS ≤ tokens_at ms (drop (length targets - keep) targets))%N).
Proof.
  destruct (decide (targets = [])) as [->|Hne]; [split_and!; simpl; try lia; done|].
  set (floor := N.to_nat _). assert (Hfl : floor ≤ length targets) by lia.
  set (sizes := (λ loc, result_tokens (block_at ms loc)) <$> targets).
  assert (Hls : length sizes = length targets) by apply length_fmap.
  assert (Hkeep : keep_recent_count targets ms min_keep =
    if (tokens_at ms targets <=? PRUNE_PROTECT_TOKENS)%N then floor
    else Nat.max (protect_loop (rev sizes) (length targets) 0 0) floor) by by destruct targets.
  rewrite Hkeep. clearbody floor. destruct (N.leb_spec (tokens_at ms targets) PRUNE_PROTECT_TOKENS) as [Hp|Hp].
  { split_and!; [lia|lia|done|lia]. }
  destruct (protect_loop_spec (rev sizes) (length targets) 0 0) as [Hk Hs]; [done|by rewrite length_rev, Hls|].
  set (k := protect_loop _ _ _ _) in *. clearbody k. split_and!; [lia|lia|lia|]. intros _. rewrite Nat.sub_0_r in Hs.
  assert (Htail : (PRUNE_PROTECT_TOKENS ≤ foldr N.add 0%N (drop (length targets - k) sizes))%N).
  { destruct Hs as [-> | Hs]; [rewrite Nat.sub_diag; unfold tokens_at in Hp; fold sizes in Hp; rewrite drop_0; lia|].
    rewrite firstn_rev, foldr_add_rev, Hls in Hs. lia. }
  unfold tokens_at. rewrite fmap_drop. etrans; [exact Htail|]. apply foldr_add_drop_mono. lia.
Qed.

(** C24. A microcompaction clears exactly the older live results of compactable
    tools: with the targets in transcript order, all but the newest [keep] become
    placeholders, every other block stays as it is, the live results left are the
    newest [keep]; and [keep] is the configured number while all results together
    fit the protected 40,000 tokens, and otherwise large enough for the newest
    results to hold 40,000 tokens. *)
Theorem microcompact_exact ms config :
  let live := is_compactable_and_live (build_tool_name_map ms) (compactable_tools config) in
  let targets := locations live ms in
  let keep := keep_recent_count targets ms (N.max (micro_keep_recent config) 1) in
  let floor := N.to_nat (N.min (N.max (micro_keep_recent config) 1) (N.of_nat (length targets))) in
  let old := length targets - keep in
  let '(ms', r) := microcompact ms config in
  (∀ loc, block_at ms' loc = if decide (loc ∈ take old targets) then cleared <$> block_at ms loc else block_at ms loc) ∧
  locations live ms' = drop old targets ∧ cleared_count r = old ∧ floor ≤ keep ∧
  ((tokens_at ms targets ≤ PRUNE_PROTECT_TOKENS)%N → keep = floor) ∧
  ((PRUNE_PROTECT_TOKENS < tokens_at ms targets)%N → (PRUNE_PROTECT_TOKENS ≤ tokens_at ms (drop old targets))%N).
Proof.
  intros live targets keep floor old. unfold microcompact. fold live. fold targets. fold keep.
  destruct (keep_recent_spec targets ms (N.max (micro_keep_recent config) 1)) as (Hfl & Hsmall & Hbig).
  fold keep floor in Hfl, Hsmall, Hbig. fold old in Hbig.
  destruct (Nat.leb_spec (length targets) keep) as [Hle|Hgt].
  { assert (old = 0) as -> by lia. rewrite take_0, drop_0. split_and!; try done; try lia. }
  fold old. assert (Hnd : NoDup targets) by apply locations_NoDup.
  assert (Hlive : ∀ loc, loc ∈ targets → is_result_at ms loc).
  { intros loc Hl%locations_live. unfold live_at in Hl. destruct (block_at ms loc) as [b|] eqn:Hb; [|done].
    exists b. split; [done|]. by destruct b. }
  destruct (clear_steps_spec (build_read_path_map ms) (take old targets) (ms, nothing_cleared)) as (Hb & Hp & Hc).
  { rewrite <- (take_drop old targets) in Hnd. by apply NoDup_app in Hnd as (? & _). }
  { apply Forall_forall. intros loc Hl. apply Hlive. rewrite <- (take_drop old targets). apply elem_of_app. by left. }
  destruct (foldl _ _ _) as [ms' r]. simpl in Hb, Hp, Hc. split_and!; [done| | |lia|done|done].
  - rewrite <- (filter_not_taken targets old Hnd), locations_filter, Hp.
    transitivity (filter (λ loc, loc ∉ take old targets) (filter (λ loc, live_at live ms loc = true) (places ms)));
      [|f_equal; symmetry; apply locations_filter].
    rewrite list_filter_filter. apply list_filter_iff. intros loc. unfold live_at at 1. rewrite Hb. case_decide as Hin.
    + split; [|by intros [? _]]. destruct (block_at ms loc) as [[]|]; done.
    + unfold live_at. tauto.
  - rewrite Hc, length_take. lia.
Qed.
End micro.

Section summarizer.
Context {Num : Type} (provider : list (SummaryRequest (Num := Num)) → SummaryRequest (Num := Num) → Response (Num := Num)).
Abbreviation Message := (Message Num).
Abbreviation SummaryRequest := (SummaryRequest (Num := Num)).
Implicit Types (c : list Message) (sent : list SummaryRequest).

(** A conversation a provider takes: it does not begin with the assistant. *)
Definition opens_well c : Prop := ∃ m, head c = Some m ∧ role m ≠ Assistant.
Definition asks (prompt : bytes) (r : SummaryRequest) : Prop :=
  ∃ c, request_messages r = c ++ [user_text prompt] ∧ opens_well c.
(** The text of the last answer, from a stream that ended as it should *)
Definition answered sent (t : bytes) : Prop :=
  str_is_blank t = false ∧
  ∃ earlier request body u, sent = earlier ++ [request] ∧ provider earlier request = Stream (body ++ [Done EndTurn u]) ∧
    forallb is_content body ∧ t = concat (delta_of <$> body).
Lemma truncate_opens_well c c' : truncate_for_retry c = Some c' → opens_well c'.
Proof.
  unfold truncate_for_retry. case_match; [done|]. case_match eqn:Hd; [done|]. apply Nat.leb_gt in Hd. intros [= <-].
  set (n := Nat.max _ _) in *. destruct (drop n c) as [|m rest] eqn:Hdrop.
  { apply (f_equal length) in Hdrop. rewrite length_drop in Hdrop. simpl in Hdrop. lia. }
  case_bool_decide as Hr; simpl in *; [|by eexists]. exists m. split; [done|]. by injection Hr as ->.
Qed.
Lemma response_answered sent request t :
  response_text (provider sent request) = inr t → str_is_blank t = false → answered (sent ++ [request]) t.
Proof.
  intros Hr Hb. split; [done|]. unfold response_text in Hr. destruct (provider sent request) as [events| |] eqn:Hp; try done.
  destruct (collect_stream_text events) as [|[t' u]] eqn:Hc; [done|]. injection Hr as ->.
  apply collect_loop_spec in Hc as (body & -> & Hbody & -> & _). by exists sent, request, body, u.
Qed.
Section loop.
Context (prompt model_name : bytes) (config : CompactConfig).
Abbreviation loop := (summarize_loop provider prompt model_name config).
Definition loop_ok (budget : nat) sent (out : list SummaryRequest * (CompactError + bytes)) : Prop :=
  length sent < length out.1 ≤ length sent + budget + 1 ∧ Forall (asks prompt) out.1 ∧
  (∀ t, out.2 = inr t → answered out.1 t).
Lemma loop_ok_stop budget sent request e :
  Forall (asks prompt) sent → asks prompt request → loop_ok budget sent (sent ++ [request], inl e).
Proof. intros Hs Hr. split_and!; simpl; rewrite ?length_app; simpl; [lia..| |done]. apply Forall_app. by repeat constructor. Qed.
Lemma loop_ok_step budget sent request out :
  loop_ok budget (sent ++ [request]) out → loop_ok (S budget) sent out.
Proof. intros (Hl & Hf & Ha). rewrite length_app in Hl. simpl in Hl. split_and!; [lia..|done|done]. Qed.
Lemma summarize_loop_ok ptl transient c sent :
  opens_well c → Forall (asks prompt) sent → loop_ok (ptl + transient) sent (loop ptl transient c sent).
Proof.
  revert transient c sent. induction ptl as [|ptl IHp].
  all: induction transient as [|transient IHt]; intros c sent Hc Hsent; cbn [summarize_loop];
    set (request := summary_request prompt model_name config c);
    assert (Hreq : asks prompt request) by (by exists c).
  all: destruct (response_text (provider sent request)) as [e|t] eqn:Hr;
    [|destruct (str_is_blank t) eqn:Hb; [by apply loop_ok_stop|];
      split_and!; simpl; rewrite ?length_app; simpl; [lia..| |intros ? [= <-]; by apply response_answered];
      apply Forall_app; by repeat constructor].
  all: case_match; [by apply loop_ok_stop|].
  all: assert (Hsent' : Forall (asks prompt) (sent ++ [request])) by (apply Forall_app; by repeat constructor).
  all: case_match; [try by apply loop_ok_stop|].
  all: try (by apply loop_ok_stop).
  - rewrite Nat.add_succ_r. apply (loop_ok_step _ _ request). by apply IHt.
  - destruct (truncate_for_retry c) as [c'|] eqn:Ht; [|by apply loop_ok_stop].
    apply (loop_ok_step _ _ request). apply IHp; [by eapply truncate_opens_well|done].
  - destruct (truncate_for_retry c) as [c'|] eqn:Ht; [|by apply loop_ok_stop].
    apply (loop_ok_step _ _ request). apply IHp; [by eapply truncate_opens_well|done].
  - rewrite Nat.add_succ_r. apply (loop_ok_step _ _ request). by apply IHt.
Qed.
End loop.

(** C25. Summarizing a folded region ends after at most four requests to the
    provider, whatever it answers; each request is a conversation that does not
    begin with the assistant, followed by the prompt; and a summary is the text of
    the last request's stream, which ended with a clean end of turn, carried no tool
    call, and is not blank. *)
Theorem summarizer_bounded fold model_name config focus instructions :
  fold ≠ [] →
  let '(sent, answer) := summarize_with_retry provider fold model_name config focus instructions in
  1 ≤ length sent ≤ 4 ∧ Forall (asks (build_compact_prompt focus instructions)) sent ∧
  (∀ t, answer = inr t → answered sent t).
Proof.
  intros Hf. unfold summarize_with_retry. set (prompt := build_compact_prompt focus instructions).
  assert (Hc : opens_well (summarized_conversation fold)).
  { unfold summarized_conversation. case_bool_decide as Hr; [by eexists|]. destruct fold as [|m rest]; [done|].
    exists m. split; [done|]. intros Hm. apply Hr. simpl. by rewrite Hm. }
  pose proof (summarize_loop_ok prompt model_name config MAX_PTL_RETRIES 1 _ [] Hc (Forall_nil_2 _)) as (Hl & Ha & Ht).
  destruct (summarize_loop _ _ _ _ _ _ _ _) as [sent answer]. simpl in *. split; [lia|]. done.
Qed.
End summarizer.

(** ** Folding *)

Section folding.
Context {Num : Type} (host : Host Num).
Abbreviation Message := (Message Num).
Implicit Types (ms : list Message) (e : Engine Num).

(** A turn of the user that a fold keeps word for word: it is no marker and no summary of
    an earlier compaction, has text and no tool result, and is estimated at no more than
    1500 tokens or 15 percent of the window. *)
Definition small_user_turn (m : Message) : Prop :=
  role m = User ∧ is_compact_boundary m = false ∧ is_compact_summary m = false ∧
  (∃ t, TextBlock t ∈ content m) ∧ (∀ id c err images, ToolResult id c err images ∉ content m) ∧
  (estimate_tokens_from_messages (json_byte_len host) [m] ≤ N.min 1500 (window_part (config host) 15 100))%N.
(** Every message of the region stays or is folded, in order, by whether it is such a turn. *)
Inductive split_region : list Message → list Message → list Message → Prop :=
| split_end : split_region [] [] []
| split_kept m region kept folded :
    small_user_turn m → split_region region kept folded → split_region (m :: region) (m :: kept) folded
| split_folded m region kept folded :
    ¬ small_user_turn m → split_region region kept folded → split_region (m :: region) kept (m :: folded).
(** [ms'] is [ms] with a folded region: the messages in front and behind, at least the
    last four, stay, of the region the small user turns stay, and a boundary marker and a
    summary stand for the [folded] rest, earlier briefings included. *)
Definition folded_from ms ms' (folded : list Message) : Prop :=
  ∃ front region tail kept b s, ms = front ++ region ++ tail ∧ 4 ≤ length tail ∧
    is_compact_boundary b = true ∧ is_compact_summary s = true ∧
    split_region region kept folded ∧ folded ≠ [] ∧ ms' = front ++ kept ++ [b; s] ++ tail.
Lemma existsb_text (bs : list (ContentBlock Num)) : existsb is_text bs = true ↔ ∃ t, TextBlock t ∈ bs.
Proof.
  rewrite existsb_exists. setoid_rewrite <- list_elem_of_In. split.
  - intros (x & Hx & Ht). destruct x; try done. by eexists.
  - intros (t & Ht). by exists (TextBlock t).
Qed.
Lemma existsb_tool_result (bs : list (ContentBlock Num)) :
  existsb is_tool_result bs = false ↔ ∀ id c err images, ToolResult id c err images ∉ bs.
Proof.
  rewrite <- not_true_iff_false, existsb_exists. setoid_rewrite <- list_elem_of_In. split.
  - intros H id c err images Hin. apply H. by eexists.
  - intros H (x & Hx & Ht). destruct x; try done. by eapply H.
Qed.
Lemma kept_verbatim_small m : kept_verbatim (json_byte_len host) (config host) m = true ↔ small_user_turn m.
Proof.
  unfold kept_verbatim, is_compaction_artifact, is_pinnable_user_turn, small_user_turn.
  rewrite <- existsb_text, <- existsb_tool_result, <- N.leb_le.
  destruct (is_compact_boundary m), (is_compact_summary m), (role m), (existsb is_text (content m)),
    (existsb is_tool_result (content m)); cbn; naive_solver.
Qed.
Lemma partition_split region :
  split_region region (partition_fold (json_byte_len host) region (config host)).1
    (partition_fold (json_byte_len host) region (config host)).2.
Proof.
  induction region as [|m region IH]; [constructor|]. unfold partition_fold in *. cbn [fst snd] in *. rewrite !filter_cons.
  destruct (kept_verbatim (json_byte_len host) (config host) m) eqn:Hk; cbn.
  - constructor; [by apply kept_verbatim_small|done].
  - constructor; [|done]. intros Hs%kept_verbatim_small. congruence.
Qed.
(** The plan leaves the last four messages. *)
Lemma tail_loop_keeps budget (newest : list Message) kept acc :
  Nat.min 4 (kept + length newest) ≤ tail_loop (json_byte_len host) budget newest kept acc.
Proof.
  revert kept acc. induction newest as [|m newest IH]; intros kept acc; cbn [tail_loop length]; [lia|].
  destruct (_ && _) eqn:Hb; [apply andb_true_iff in Hb as [Hb%Nat.ltb_lt _]; unfold MIN_RECENT_KEEP in Hb; lia|].
  etrans; [|apply IH]. lia.
Qed.
Lemma align_tail_le ms head k : align_tail_start ms head k ≤ Nat.max k head.
Proof.
  unfold align_tail_start. pose proof (step_back_spec is_tool_result_message ms head k) as (H1 & _).
  pose proof (step_back_spec is_compact_summary ms head (step_back is_tool_result_message ms head k)) as (H2 & _). lia.
Qed.
Lemma plan_recent ms tokens plan :
  plan_compaction (json_byte_len host) ms (config host) tokens = Some plan → start plan + 4 ≤ length ms.
Proof.
  unfold plan_compaction, MIN_COMPACT_MESSAGES, MIN_RECENT_KEEP. case_match; [done|].
  set (head := pinned_prefix_len _ _ _).
  assert (Ht : head + 2 ≤ tail_start (json_byte_len host) ms head (config host) →
    tail_start (json_byte_len host) ms head (config host) + 4 ≤ length ms).
  { unfold tail_start. set (budget := N.min _ _). pose proof (tail_loop_keeps budget (rev (drop head ms)) 0 0) as Hk.
    rewrite length_rev, length_drop in Hk. set (k := tail_loop _ _ _ _ _) in *.
    pose proof (align_tail_le ms head (length ms - k)). lia. }
  pose proof (align_tail_le ms head (Nat.max (length ms - 4) head)) as Ha.
  destruct ((_ <? 2) && _); (case_match eqn:Hlt; [done|]); intros [= <-]; simpl; apply Nat.ltb_ge in Hlt; lia.
Qed.
Lemma summary_message_is_summary r t a : is_compact_summary (summary_message (Num := Num) r t a) = true.
Proof. done. Qed.
Lemma boundary_message_is_boundary r tokens n : is_compact_boundary (boundary_message (Num := Num) r tokens n) = true.
Proof. done. Qed.
Lemma autocompact_folds ms model_name s r s' sent res :
  autocompact_with (json_byte_len host) (provider host) (archive host "autocompact"%string) ms model_name (config host) s r
    = (s', sent, inr res) →
  result_pre_compact_tokens res = last_input_tokens s ∧
  (messages_summarized res = 0 ∨
   ∃ folded, folded_from ms (result_messages res) folded ∧ messages_summarized res = length folded).
Proof.
  unfold autocompact_with. case_match; [done|]. destruct (plan_compaction _ _ _ _) as [plan|] eqn:Hplan;
    [|intros [= _ _ <-]; by split; [|left]].
  assert (Hle : head_len plan ≤ start plan) by (apply plan_spec in Hplan as (_ & Hlt & _); lia).
  set (region := take _ _). pose proof (partition_split region) as Hsplit.
  destruct (partition_fold _ region _) as [kept folded] eqn:Hpart.
  case_match eqn:Hskip; [intros [= _ _ <-]; by split; [|left]|].
  destruct (fold_summary _ _ _ _ _) as [sent' [[t mech] reason]]. intros [= _ _ <-]. split; [done|]. right.
  exists folded. split; [|done]. apply orb_false_iff in Hskip as [Hne%bool_decide_eq_false _].
  apply plan_recent in Hplan. exists (take (head_len plan) ms), region, (drop (start plan) ms), kept. do 2 eexists.
  split; [|split; [rewrite length_drop; lia|split; [apply boundary_message_is_boundary|]];
    split; [apply summary_message_is_summary|by split_and!]].
  rewrite <- (take_drop (head_len plan) ms) at 1. f_equal.
  rewrite <- (take_drop (start plan - head_len plan) (drop (head_len plan) ms)) at 1. f_equal.
  rewrite drop_drop. f_equal. lia.
Qed.
Definition reinjected (now : Z) : list Message :=
  match reinject host with Some t => [message_now now User [TextBlock t]] | None => [] end.

(** C23. The engine loses only what it folds, and folds only to gain: after an
    automatic compaction the transcript and the undo log are the old ones, or a
    middle region of the transcript is folded (everything around it, at least the last
    four messages, and the small user turns in it stay in order; the rest of it,
    earlier briefings included, is a non-empty list of messages behind a boundary marker
    and a summary), the harness' message follows, the log that named the old messages is
    empty, and, unless the fold was forced, the request estimated for the folded
    transcript, without the harness' message, is below the watermark. *)
Theorem autocompact_adopts now force t e :
  let e' := run_autocompact host now force t e in
  (messages e' = messages e ∧ prefix_rewrite_undo e' = prefix_rewrite_undo e) ∨
  (∃ ms folded, folded_from (messages e) ms folded ∧ messages e' = ms ++ reinjected now ∧ prefix_rewrite_undo e' = [] ∧
     (force = false → (request_token_estimate host (set_messages ms e) < watermark e)%N)).
Proof.
  unfold run_autocompact. case_match; [left; unfold no_fold; by repeat case_match|]. case_match; [by left|].
  destruct (autocompact_with _ _ _ _ _ _ _ _) as [[s sent] answer] eqn:Hauto.
  destruct answer as [error|r]; [left; by destruct error|]. apply autocompact_folds in Hauto as (Hpre & Hfold).
  destruct (0 <? messages_summarized r) eqn:Hn; [|left; by case_match].
  apply Nat.ltb_lt in Hn. destruct Hfold as [|(folded & Hfold & _)]; [lia|].
  unfold adopt_fold. case_match eqn:Hskip; [by left|]. right. exists (result_messages r), folded.
  split; [done|]. rewrite Hpre in Hskip. unfold reinjected. destruct (reinject host) as [txt|]; simpl.
  all: split_and!; [by rewrite ?app_nil_r|done|]; intros ->; simpl in Hskip; by apply N.leb_gt in Hskip.
Qed.
End folding.

(** ** A concrete summary: too long, then a broken connection, then an answer *)

Definition fragile_provider (sent : list (SummaryRequest (Num := unit))) (_ : SummaryRequest (Num := unit)) : Response (Num := unit) :=
  match length sent with
  | 0 => Failed (PromptTooLong (as_bytes "8192"))
  | 1 => Failed (Connection (as_bytes "reset"))
  | _ => Stream [ThinkingDelta (as_bytes "hm"); TextDelta (as_bytes "all "); TextDelta (as_bytes "done"); Done EndTurn (mkUsage 1 2 0 0 0)]
  end.
Definition demo_fold : list (Message unit) := demo_call "a" ++ demo_call "b" ++ demo_call "c".
(** The retry drops only the message that was put in front of the region, and puts
    another in its place: the conversation is no shorter. *)
Example fragile_summary :
  let '(sent, answer) := summarize_with_retry fragile_provider demo_fold (as_bytes "m") demo_config None None in
  (λ r, length (request_messages r)) <$> sent = [8; 8; 8] ∧ answer = inr (as_bytes "all done") ∧
  ((λ r, role <$> request_messages r !! 1) <$> sent) = [Some Assistant; Some Assistant; Some Assistant].
Proof. vm_compute. done. Qed.
Lemma summarizer_bounded_witness :
  let '(sent, answer) := summarize_with_retry fragile_provider demo_fold (as_bytes "m") demo_config None None in
  1 ≤ length sent ≤ 4 ∧ Forall (asks (build_compact_prompt None None)) sent ∧
  (∀ t, answer = inr t → answered fragile_provider sent t).
Proof.
  assert (Hf : demo_fold ≠ []) by discriminate.
  exact (summarizer_bounded fragile_provider demo_fold (as_bytes "m") demo_config None None Hf).
Defined.
