(* ===== verification/GoalState.v ===== *)
(** The state of a standing goal (agent/nomi-agent/src/goal/state.rs) and the tool by
    which the model ends it (goal/tool.rs).  Times are epoch milliseconds. *)
From S2P Require Import Prelude Bytes Text Json.

Definition MAX_CONSECUTIVE_PARSE_FAILURES : N := 3.
Definition MAX_CONSECUTIVE_TRANSPORT_FAILURES : N := 5.
Inductive GoalStatus := Active | Complete | Blocked | Paused | Waiting | Cleared.
#[export] Instance GoalStatus_eq_dec : EqDecision GoalStatus.
Proof. solve_decision. Defined.
Inductive GoalVerdict := Done | Continue | Wait | Skipped.
#[export] Instance GoalVerdict_eq_dec : EqDecision GoalVerdict.
Proof. solve_decision. Defined.

(** ** The completion contract *)

Record GoalContract := mkContract {
  outcome : bytes;
  verification : bytes;
  constraints : bytes;
  boundaries : bytes;
  stop_when : bytes;
}.
#[export] Instance GoalContract_eq_dec : EqDecision GoalContract.
Proof. solve_decision. Defined.
Definition labelled_fields (c : GoalContract) : list (bytes * bytes) :=
  [(as_bytes "Outcome", outcome c); (as_bytes "Verification", verification c);
   (as_bytes "Constraints", constraints c); (as_bytes "Boundaries", boundaries c);
   (as_bytes "Stop when blocked", stop_when c)].
Definition contract_is_empty (c : GoalContract) : bool := forallb (λ f, str_is_blank f.2) (labelled_fields c).
Definition render_block (c : GoalContract) : bytes :=
  bytes_join [u8 10]
    ((λ f, as_bytes "- " ++ f.1 ++ as_bytes ": " ++ bytes_trim f.2)
       <$> filter (λ f, str_is_blank f.2 = false) (labelled_fields c)).
Definition render_subgoals_block (l : list bytes) : bytes :=
  bytes_join [u8 10]
    (imap (λ i t, as_bytes "- " ++ decimal (N.of_nat (i + 1)) ++ as_bytes ". " ++ t) l).
Definition render_contract_block (c : GoalContract) (l : list bytes) : bytes :=
  match l with
  | [] => render_block c
  | _ =>
      render_block c ++ [u8 10]
      ++ bytes_join [u8 10]
           (imap (λ i t, as_bytes "- Extra criterion " ++ decimal (N.of_nat (i + 1)) ++ as_bytes ": " ++ t) l)
  end.

(** ** The state *)

Record GoalState := mkGoal {
  objective : bytes;
  status : GoalStatus;
  max_auto_continuations : N;
  auto_continuations : N;
  blocked_threshold : N;
  turns_used : N;
  last_verdict : option GoalVerdict;
  last_reason : option bytes;
  paused_reason : option bytes;
  consecutive_parse_failures : N;
  consecutive_transport_failures : N;
  created_at : N;
  last_turn_at : option N;
  subgoals : list bytes;
  contract : option GoalContract;
  waiting_until : option N;
  waiting_on_pid : option N;
  waiting_on_session : option bytes;
  waiting_reason : option bytes;
  no_progress_streak : N;
  last_mutation : bool;
  last_verify_ok : bool;
  last_workspace_changed : bool;
  blocked_evidence_hash : option N;
  blocked_evidence_repeats : N;
}.

Definition goal_new (now : N) (objective : bytes) (max_auto_continuations : N) : GoalState :=
  mkGoal objective Active max_auto_continuations 0 3 0 None None None 0 0 now None [] None
    None None None None 0 false false false None 0.
Definition FREEFORM_AUTO_CONTINUE_CAP : N := 3.
Definition contract_has_verification (c : option GoalContract) : bool :=
  match c with Some c => negb (str_is_blank (verification c)) | None => false end.
Definition has_verification (g : GoalState) : bool := contract_has_verification (contract g).
Definition effective_cap (g : GoalState) : N :=
  if has_verification g then max_auto_continuations g
  else N.min (max_auto_continuations g) FREEFORM_AUTO_CONTINUE_CAP.
Definition should_continue (g : GoalState) : bool :=
  bool_decide (status g = Active) && (auto_continuations g <? effective_cap g)%N.
(** Mechanical evidence as the Horizon ledger saw it *)
Definition apply_progress (mutated : bool) (verify_ok : bool) (workspace_changed : bool)
    (streak : N) (g : GoalState) : GoalState :=
  mkGoal
    (objective g) (status g) (max_auto_continuations g) (auto_continuations g) (blocked_threshold g)
    (turns_used g) (last_verdict g) (last_reason g) (paused_reason g) (consecutive_parse_failures g)
    (consecutive_transport_failures g) (created_at g) (last_turn_at g) (subgoals g) (contract g)
    (waiting_until g) (waiting_on_pid g) (waiting_on_session g) (waiting_reason g) streak mutated verify_ok
    workspace_changed (blocked_evidence_hash g) (blocked_evidence_repeats g).
Definition satisfies_complete_gate (g : GoalState) : bool :=
  if negb (has_verification g) then last_mutation g || last_verify_ok g || last_workspace_changed g
  else last_verify_ok g || last_workspace_changed g.

(** ** Updates of single fields *)

Definition set_status (s : GoalStatus) (g : GoalState) : GoalState :=
  mkGoal
    (objective g) s (max_auto_continuations g) (auto_continuations g) (blocked_threshold g) (turns_used g)
    (last_verdict g) (last_reason g) (paused_reason g) (consecutive_parse_failures g)
    (consecutive_transport_failures g) (created_at g) (last_turn_at g) (subgoals g) (contract g)
    (waiting_until g) (waiting_on_pid g) (waiting_on_session g) (waiting_reason g) (no_progress_streak g)
    (last_mutation g) (last_verify_ok g) (last_workspace_changed g) (blocked_evidence_hash g)
    (blocked_evidence_repeats g).
Definition set_counts (auto : N) (turns : N) (g : GoalState) : GoalState :=
  mkGoal
    (objective g) (status g) (max_auto_continuations g) auto (blocked_threshold g) turns (last_verdict g)
    (last_reason g) (paused_reason g) (consecutive_parse_failures g) (consecutive_transport_failures g)
    (created_at g) (last_turn_at g) (subgoals g) (contract g) (waiting_until g) (waiting_on_pid g)
    (waiting_on_session g) (waiting_reason g) (no_progress_streak g) (last_mutation g) (last_verify_ok g)
    (last_workspace_changed g) (blocked_evidence_hash g) (blocked_evidence_repeats g).
Definition set_verdict (v : option GoalVerdict) (r : option bytes) (g : GoalState) : GoalState :=
  mkGoal
    (objective g) (status g) (max_auto_continuations g) (auto_continuations g) (blocked_threshold g)
    (turns_used g) v r (paused_reason g) (consecutive_parse_failures g) (consecutive_transport_failures g)
    (created_at g) (last_turn_at g) (subgoals g) (contract g) (waiting_until g) (waiting_on_pid g)
    (waiting_on_session g) (waiting_reason g) (no_progress_streak g) (last_mutation g) (last_verify_ok g)
    (last_workspace_changed g) (blocked_evidence_hash g) (blocked_evidence_repeats g).
Definition set_last_turn_at (t : option N) (g : GoalState) : GoalState :=
  mkGoal
    (objective g) (status g) (max_auto_continuations g) (auto_continuations g) (blocked_threshold g)
    (turns_used g) (last_verdict g) (last_reason g) (paused_reason g) (consecutive_parse_failures g)
    (consecutive_transport_failures g) (created_at g) t (subgoals g) (contract g) (waiting_until g)
    (waiting_on_pid g) (waiting_on_session g) (waiting_reason g) (no_progress_streak g) (last_mutation g)
    (last_verify_ok g) (last_workspace_changed g) (blocked_evidence_hash g) (blocked_evidence_repeats g).
Definition set_paused_reason (r : option bytes) (g : GoalState) : GoalState :=
  mkGoal
    (objective g) (status g) (max_auto_continuations g) (auto_continuations g) (blocked_threshold g)
    (turns_used g) (last_verdict g) (last_reason g) r (consecutive_parse_failures g)
    (consecutive_transport_failures g) (created_at g) (last_turn_at g) (subgoals g) (contract g)
    (waiting_until g) (waiting_on_pid g) (waiting_on_session g) (waiting_reason g) (no_progress_streak g)
    (last_mutation g) (last_verify_ok g) (last_workspace_changed g) (blocked_evidence_hash g)
    (blocked_evidence_repeats g).
Definition set_failures (parse : N) (transport : N) (g : GoalState) : GoalState :=
  mkGoal
    (objective g) (status g) (max_auto_continuations g) (auto_continuations g) (blocked_threshold g)
    (turns_used g) (last_verdict g) (last_reason g) (paused_reason g) parse transport (created_at g)
    (last_turn_at g) (subgoals g) (contract g) (waiting_until g) (waiting_on_pid g) (waiting_on_session g)
    (waiting_reason g) (no_progress_streak g) (last_mutation g) (last_verify_ok g) (last_workspace_changed g)
    (blocked_evidence_hash g) (blocked_evidence_repeats g).
Definition set_subgoals (l : list bytes) (g : GoalState) : GoalState :=
  mkGoal
    (objective g) (status g) (max_auto_continuations g) (auto_continuations g) (blocked_threshold g)
    (turns_used g) (last_verdict g) (last_reason g) (paused_reason g) (consecutive_parse_failures g)
    (consecutive_transport_failures g) (created_at g) (last_turn_at g) l (contract g) (waiting_until g)
    (waiting_on_pid g) (waiting_on_session g) (waiting_reason g) (no_progress_streak g) (last_mutation g)
    (last_verify_ok g) (last_workspace_changed g) (blocked_evidence_hash g) (blocked_evidence_repeats g).
Definition set_contract_field (c : option GoalContract) (g : GoalState) : GoalState :=
  mkGoal
    (objective g) (status g) (max_auto_continuations g) (auto_continuations g) (blocked_threshold g)
    (turns_used g) (last_verdict g) (last_reason g) (paused_reason g) (consecutive_parse_failures g)
    (consecutive_transport_failures g) (created_at g) (last_turn_at g) (subgoals g) c (waiting_until g)
    (waiting_on_pid g) (waiting_on_session g) (waiting_reason g) (no_progress_streak g) (last_mutation g)
    (last_verify_ok g) (last_workspace_changed g) (blocked_evidence_hash g) (blocked_evidence_repeats g).
Definition set_barrier (until : option N) (pid : option N) (session : option bytes)
    (reason : option bytes) (g : GoalState) : GoalState :=
  mkGoal
    (objective g) (status g) (max_auto_continuations g) (auto_continuations g) (blocked_threshold g)
    (turns_used g) (last_verdict g) (last_reason g) (paused_reason g) (consecutive_parse_failures g)
    (consecutive_transport_failures g) (created_at g) (last_turn_at g) (subgoals g) (contract g) until pid
    session reason (no_progress_streak g) (last_mutation g) (last_verify_ok g) (last_workspace_changed g)
    (blocked_evidence_hash g) (blocked_evidence_repeats g).
Definition set_evidence (hash : option N) (repeats : N) (g : GoalState) : GoalState :=
  mkGoal
    (objective g) (status g) (max_auto_continuations g) (auto_continuations g) (blocked_threshold g)
    (turns_used g) (last_verdict g) (last_reason g) (paused_reason g) (consecutive_parse_failures g)
    (consecutive_transport_failures g) (created_at g) (last_turn_at g) (subgoals g) (contract g)
    (waiting_until g) (waiting_on_pid g) (waiting_on_session g) (waiting_reason g) (no_progress_streak g)
    (last_mutation g) (last_verify_ok g) (last_workspace_changed g) hash repeats.
Definition clear_wait_barrier (g : GoalState) : GoalState := set_barrier None None None None g.

(** ** The tool [update_goal]

    The hash of the evidence is computed by the standard hasher. *)
Section tool.
Context {Num : Type} (finish : bytes → N).
(** The error text or the payload [(status, evidence)] of the result *)
Inductive GoalToolResult := GoalToolError (message : bytes) | GoalToolText (payload : Value Num).
Definition evidence_hash (txt : bytes) : N := finish (bytes_trim txt ++ [u8 255]).
Definition update_goal_payload (st : GoalStatus) (evidence : bytes) : Value Num :=
  Object [(as_bytes "kind", Str (as_bytes "goal_update"));
          (as_bytes "status", Str (as_bytes match st with Complete => "complete" | Blocked => "blocked" | _ => "active" end));
          (as_bytes "evidence", Str evidence)].
Definition claimed_status (input : Value Num) : option GoalStatus :=
  s ← get (as_bytes "status") input ≫= as_str;
  if is_lit s "complete" then Some Complete else if is_lit s "blocked" then Some Blocked else None.
Definition record_evidence (hash : N) (g : GoalState) : GoalState :=
  if bool_decide (blocked_evidence_hash g = Some hash) then
    set_evidence (Some hash) (u64_sat_add (blocked_evidence_repeats g) 1) g
  else set_evidence (Some hash) 1 g.
Definition complete_rejection : bytes :=
  text ["update_goal complete rejected: no mechanical evidence yet (need a successful verification command ";
        "or a workspace change). Keep working; do not mark complete from prose alone."].
Definition blocked_rejection (missing threshold : N) : bytes :=
  as_bytes "update_goal blocked not yet accepted: the same blocker must repeat " ++ decimal missing
  ++ as_bytes " more time(s) (threshold " ++ decimal threshold
  ++ as_bytes "). Keep working or collect stronger evidence.".
Definition update_goal_execute (input : Value Num) (g : GoalState) : GoalState * GoalToolResult :=
  match claimed_status input with
  | None => (g, GoalToolError (as_bytes "update_goal: status 只能是 complete 或 blocked"))
  | Some claimed =>
      let evidence := default [] (get (as_bytes "evidence") input ≫= as_str) in
      let accepted g := (g, GoalToolText (update_goal_payload claimed evidence)) in
      if negb (bool_decide (status g = Active)) then accepted g
      else if bool_decide (claimed = Complete) then
        if negb (satisfies_complete_gate g) then (g, GoalToolError complete_rejection)
        else accepted (set_status Complete g)
      else
        let g := record_evidence (evidence_hash evidence) g in
        if (blocked_evidence_repeats g <? blocked_threshold g)%N then
          (g, GoalToolError (blocked_rejection (blocked_threshold g - blocked_evidence_repeats g) (blocked_threshold g)))
        else accepted (set_status Blocked g)
  end.
End tool.
