(* ===== verification/GoalRuntime.v ===== *)
(** The runtime of a standing goal (agent/nomi-agent/src/goal/runtime.rs).  Each method
    that takes the lock of the shared state once is one function on it;
    [evaluate_and_continue_with] takes it before and after the judge is awaited, so it
    is two functions, between which other holders of the handle may act. *)
From S2P Require Import Prelude Bytes Text Json Conversation GoalState GoalPrompts.

Record GoalContinueGate := mkGate {
  allow_continue : bool;
  pause_on_veto : bool;
  veto_reason : option bytes;
  continuation_delta : option ContinuationDelta;
  observed : bool;
}.
Definition gate_default : GoalContinueGate := mkGate false false None None false.
Definition gate_allow : GoalContinueGate := mkGate true false None None false.
Record GoalSpec := mkSpec { spec_objective : bytes; spec_max_auto_continuations : N }.
(** The answers of the host's probe at one moment *)
Record GoalWaitProbe := mkProbe { is_pid_alive : N → bool; is_session_active : bytes → bool }.
Record BackgroundProcessInfo := mkProcess {
  pid : N;
  session_id : option bytes;
  command : bytes;
  uptime_seconds : option N;
  output_preview : option bytes;
  watch_patterns : list bytes;
  watch_hit : bool;
  notify_on_complete : bool;
  exited : bool;
}.
Inductive WaitDirective := Seconds (secs : N) | Pid (target : N) | Session (target : bytes).
Record JudgeOutcome := mkOutcome {
  verdict : GoalVerdict;
  reason : bytes;
  parse_failed : bool;
  transport_failed : bool;
  wait_directive : option WaitDirective;
}.

(** ** The runtime: the shared state, whether a probe is installed, the processes *)

Record GoalRuntime := mkRuntime {
  state : GoalState;
  probe : bool;
  background : list BackgroundProcessInfo;
}.
Definition runtime_new (now : N) (obj : bytes) (max : N) : GoalRuntime := mkRuntime (goal_new now obj max) false [].
Definition from_state (g : GoalState) : GoalRuntime := mkRuntime g false [].
Definition on_state (f : GoalState → GoalState) (rt : GoalRuntime) : GoalRuntime :=
  mkRuntime (f (state rt)) (probe rt) (background rt).
Definition restore (g : GoalState) : GoalRuntime → GoalRuntime := on_state (λ _, g).
Definition set_wait_probe (rt : GoalRuntime) : GoalRuntime := mkRuntime (state rt) true (background rt).
Definition set_background_processes (l : list BackgroundProcessInfo) (rt : GoalRuntime) : GoalRuntime :=
  mkRuntime (state rt) (probe rt) l.

(** ** Operations on the state *)

Section messages.
Context {Num : Type}.
Abbreviation Message := (Message Num).
Definition continuation_message (now : Z) (prompt : bytes) : Message := message_now now User [TextBlock prompt].
Definition goal_prompt (g : GoalState) : bytes :=
  render_continuation (objective g) (blocked_threshold g) (subgoals g) (contract g).
Definition maybe_continuation (now : Z) (g : GoalState) : GoalState * option Message :=
  if negb (should_continue g) then (g, None)
  else
    let g := set_counts (auto_continuations g + 1)%N (turns_used g) g in
    (g, Some (continuation_message now (goal_prompt g))).
Definition turn_context (g : GoalState) : option bytes :=
  match status g with
  | Active | Waiting => Some (render_goal_context (objective g) (subgoals g) (contract g))
  | _ => None
  end.
Definition wait_barrier_holds (now : N) (g : GoalState) (p : option GoalWaitProbe) : bool :=
  match waiting_on_session g with
  | Some target => match p with Some p => is_session_active p target | None => false end
  | None =>
      match waiting_on_pid g with
      | Some target => match p with Some p => is_pid_alive p target | None => false end
      | None => match waiting_until g with Some until => (now <? until)%N | None => false end
      end
  end.

(** *** One evaluation *)

(** What the judge is asked about *)
Record JudgeRequest := mkRequest {
  ask_objective : bytes;
  ask_subgoals : list bytes;
  ask_contract : option GoalContract;
}.
Definition release_barrier (g : GoalState) : GoalState := clear_wait_barrier (set_status Active g).
(** The first critical section; [now] is read only for a time barrier. *)
Definition evaluate_begin (now : N) (p : option GoalWaitProbe) (g : GoalState) : GoalState * option JudgeRequest :=
  let ask g :=
    if negb (should_continue g) then (g, None)
    else (g, Some (mkRequest (objective g) (subgoals g) (contract g))) in
  if bool_decide (status g = Waiting) then
    if wait_barrier_holds now g p then (g, None) else ask (release_barrier g)
  else ask g.
Definition count_failures (o : JudgeOutcome) (g : GoalState) : GoalState :=
  set_failures (if parse_failed o then consecutive_parse_failures g + 1 else 0)%N
    (if transport_failed o then consecutive_transport_failures g + 1 else 0)%N g.
Definition pause_with (why : bytes) (g : GoalState) : GoalState := set_paused_reason (Some why) (set_status Paused g).
Definition failure_text (o : JudgeOutcome) (g : GoalState) : bytes :=
  if transport_failed o then
    as_bytes "judge API unreachable (" ++ decimal (consecutive_transport_failures g)
    ++ as_bytes " consecutive transport failure(s))"
  else
    as_bytes "judge model returned unparseable output (" ++ decimal (consecutive_parse_failures g)
    ++ as_bytes " consecutive parse failure(s))".
Definition unproven_reason (why : bytes) : bytes :=
  as_bytes "judge claimed done without mechanical evidence (" ++ why ++ as_bytes ")".
(** [epoch_ms() + secs.saturating_mul(1000)]; the sum wraps in a release build. *)
Definition wait_deadline (now secs : N) : N := ((now + u64_sat_mul secs 1000) mod (u64_max + 1))%N.
Definition park (now : N) (d : WaitDirective) (why : bytes) (g : GoalState) : GoalState :=
  let g := clear_wait_barrier (set_status Waiting g) in
  match d with
  | Seconds secs => set_barrier (Some (wait_deadline now secs)) None None (Some why) g
  | Pid target => set_barrier None (Some target) None (Some why) g
  | Session target => set_barrier None None (Some target) (Some why) g
  end.
(** The clock readings of the second critical section *)
Record EvalClock := mkClock { turn_at : N; wait_at : N; message_at : Z }.
Definition next_prompt (gate : GoalContinueGate) (g : GoalState) : bytes :=
  match continuation_delta gate with Some d => render_continuation_delta d | None => goal_prompt g end.
Definition continue_goal (clock : EvalClock) (gate : GoalContinueGate) (g : GoalState) : GoalState * option Message :=
  if negb (allow_continue gate) then
    ((if pause_on_veto gate then set_paused_reason (veto_reason gate) (set_status Paused g) else g), None)
  else
    let g := set_counts (auto_continuations g + 1)%N (turns_used g + 1)%N g in
    (g, Some (continuation_message (message_at clock) (next_prompt gate g))).
(** From the circuit breakers on, with the verdict and the reason that still count *)
Definition evaluate_verdict (clock : EvalClock) (v : GoalVerdict) (why : bytes) (d : option WaitDirective)
    (gate : GoalContinueGate) (g : GoalState) : GoalState * option Message :=
  if (MAX_CONSECUTIVE_TRANSPORT_FAILURES <=? consecutive_transport_failures g)%N then
    (pause_with (as_bytes "judge API unreachable " ++ decimal (consecutive_transport_failures g)
                 ++ as_bytes " turns in a row") g, None)
  else if (MAX_CONSECUTIVE_PARSE_FAILURES <=? consecutive_parse_failures g)%N then
    (pause_with (as_bytes "judge model returned unparseable output " ++ decimal (consecutive_parse_failures g)
                 ++ as_bytes " turns in a row") g, None)
  else
    match v, d with
    | Wait, Some d => (park (wait_at clock) d why g, None)
    | _, _ => continue_goal clock gate g
    end.
(** The second critical section *)
Definition evaluate_finish (clock : EvalClock) (o : JudgeOutcome) (gate : GoalContinueGate) (g : GoalState) :
    GoalState * option Message :=
  if negb (should_continue g) then (g, None)
  else
    let g := set_last_turn_at (Some (turn_at clock)) (set_verdict (Some (verdict o)) (Some (reason o)) g) in
    let g := count_failures o g in
    if parse_failed o || transport_failed o then (pause_with (failure_text o g) g, None)
    else if bool_decide (verdict o = Done) then
      if observed gate && negb (satisfies_complete_gate g) then
        let why := unproven_reason (reason o) in
        evaluate_verdict clock Continue why (wait_directive o) gate (set_verdict (Some Continue) (Some why) g)
      else (set_status Complete g, None)
    else evaluate_verdict clock (verdict o) (reason o) (wait_directive o) gate g.
End messages.

(** *** What the user and the host do *)

Definition pause (why : bytes) (g : GoalState) : GoalState :=
  match status g with
  | Active | Waiting => clear_wait_barrier (pause_with why g)
  | _ => g
  end.
Definition resume (g : GoalState) : GoalState :=
  if negb (bool_decide (status g = Paused)) then g
  else clear_wait_barrier (set_counts 0 0 (set_failures 0 0 (set_paused_reason None (set_status Active g)))).
Definition clear (g : GoalState) : GoalState :=
  clear_wait_barrier (set_contract_field None (set_subgoals [] (set_status Cleared g))).
Definition add_subgoal (txt : bytes) (g : GoalState) : GoalState :=
  if str_is_blank txt then g else set_subgoals (subgoals g ++ [bytes_trim txt]) g.
Definition remove_subgoal (index_1based : nat) (g : GoalState) : GoalState * bool :=
  if (index_1based =? 0) || (length (subgoals g) <? index_1based) then (g, false)
  else (set_subgoals (delete (index_1based - 1) (subgoals g)) g, true).
Definition set_contract (c : GoalContract) (g : GoalState) : GoalState :=
  set_contract_field (if contract_is_empty c then None else Some c) g.
Definition wait_on_pid (target : N) (g : GoalState) : GoalState * bool :=
  if (target =? 0)%N then (g, false)
  else match status g with
       | Active | Waiting =>
           (set_barrier None (Some target) None (Some (as_bytes "user-requested wait on pid " ++ decimal target))
              (set_status Waiting (clear_wait_barrier g)), true)
       | _ => (g, false)
       end.
Definition unwait (g : GoalState) : GoalState * bool :=
  if negb (bool_decide (status g = Waiting)) then (g, false)
  else (clear_wait_barrier (set_status Active g), true).
