(* ===== verification/GoalJudge.v ===== *)
(** The judge of a standing goal (agent/nomi-agent/src/goal/judge.rs): its prompts, what
    is read from its reply, and the drafting of a completion contract.  serde_json is a
    parser [from_str] with its number accessor and its printer; a client maps a prompt
    to a reply or to the description of a failure. *)
From S2P Require Import Prelude Bytes Text Json LlmStream GoalState GoalRuntime.

Definition JUDGE_MAX_TOKENS : N := 4096.
Definition JUDGE_TIMEOUT_SECS : N := 30.
Definition JUDGE_GOAL_SNIPPET_CHARS : nat := 2000.
Definition JUDGE_CONTRACT_SNIPPET_CHARS : nat := 2500.
Definition JUDGE_RESPONSE_SNIPPET_CHARS : nat := 4000.
Definition DRAFT_OBJECTIVE_SNIPPET_CHARS : nat := 4000.
Definition prompt_text (ls : list bytes) : bytes := bytes_join [u8 10] ls.
Definition JUDGE_SYSTEM_PROMPT : bytes :=
  prompt_text
    [text ["You are a strict judge evaluating whether an autonomous agent has achieved a user's stated ";
           "goal. You receive the goal text, the agent's most recent response, and — when present — a ";
           "list of background processes the agent has running. Decide one of three verdicts."];
     [];
     as_bytes "DONE — the goal is fully satisfied:";
     text ["- The response explicitly confirms the goal was completed AND shows how that was verified, ";
           "OR"];
     text ["- The response clearly shows the final deliverable was produced AND contains concrete ";
           "evidence it is real and checked (a command result, file contents excerpt, test output — not ";
           "just a fluent description of it), OR"];
     text ["- The response explains the goal is unachievable / blocked / needs user input (treat this ";
           "as DONE with reason describing the block)."];
     text ["Do NOT pick DONE merely because the response reads like a complete, well-formed final ";
           "answer. A first-pass answer that has not verified its own claims against the real workspace ";
           "or system state is CONTINUE, not DONE. When the evidence is missing, weak, or indirect, ";
           "prefer CONTINUE."];
     [];
     text ["WAIT — the goal is NOT done, but the next step is to wait for async work to finish rather ";
           "than act again. Choose this ONLY when the agent's progress is genuinely gated on something ";
           "running on its own:"];
     text ["- A background process listed below is still running AND the response shows the agent is ";
           "waiting on its result (e.g. a CI poller, build, test run, deploy). If the process has a ";
           "session id, return it in ``wait_on_session`` — that releases when the process exits OR its ";
           "watch_patterns trigger fires (use this for a long-lived watcher that signals mid-run and ";
           "may never exit). Otherwise return its pid in ``wait_on_pid`` (releases on exit only)."];
     text ["- The agent says it is rate-limited / backing off / must wait a fixed period — return ";
           "seconds in ``wait_for_seconds``."];
     text ["Picking WAIT parks the loop without burning a turn; it resumes automatically when the pid ";
           "exits or the time elapses. Do NOT pick WAIT just because work remains — only when re-poking ";
           "now would be pure busy-work because the agent can't progress until the async thing finishes."];
     [];
     text ["CONTINUE — not done, and there is a concrete next step the agent can take right now. This ";
           "is the default when in doubt."];
     [];
     as_bytes "Reply ONLY with a single JSON object on one line. Shapes:";
     as_bytes "{" ++ DQUOTE ++ as_bytes "verdict" ++ DQUOTE ++ as_bytes ": " ++ DQUOTE ++ as_bytes "done"
     ++ DQUOTE ++ as_bytes ", " ++ DQUOTE ++ as_bytes "reason" ++ DQUOTE ++ as_bytes ": " ++ DQUOTE
     ++ as_bytes "<one sentence>" ++ DQUOTE ++ as_bytes "}";
     as_bytes "{" ++ DQUOTE ++ as_bytes "verdict" ++ DQUOTE ++ as_bytes ": " ++ DQUOTE
     ++ as_bytes "continue" ++ DQUOTE ++ as_bytes ", " ++ DQUOTE ++ as_bytes "reason" ++ DQUOTE
     ++ as_bytes ": " ++ DQUOTE ++ as_bytes "<one sentence>" ++ DQUOTE ++ as_bytes "}";
     as_bytes "{" ++ DQUOTE ++ as_bytes "verdict" ++ DQUOTE ++ as_bytes ": " ++ DQUOTE ++ as_bytes "wait"
     ++ DQUOTE ++ as_bytes ", " ++ DQUOTE ++ as_bytes "wait_on_session" ++ DQUOTE ++ as_bytes ": " ++ DQUOTE
     ++ as_bytes "<id>" ++ DQUOTE ++ as_bytes ", " ++ DQUOTE ++ as_bytes "reason" ++ DQUOTE ++ as_bytes ": "
     ++ DQUOTE ++ as_bytes "<one sentence>" ++ DQUOTE ++ as_bytes "}";
     as_bytes "{" ++ DQUOTE ++ as_bytes "verdict" ++ DQUOTE ++ as_bytes ": " ++ DQUOTE ++ as_bytes "wait"
     ++ DQUOTE ++ as_bytes ", " ++ DQUOTE ++ as_bytes "wait_on_pid" ++ DQUOTE ++ as_bytes ": <int>, "
     ++ DQUOTE ++ as_bytes "reason" ++ DQUOTE ++ as_bytes ": " ++ DQUOTE ++ as_bytes "<one sentence>"
     ++ DQUOTE ++ as_bytes "}";
     as_bytes "{" ++ DQUOTE ++ as_bytes "verdict" ++ DQUOTE ++ as_bytes ": " ++ DQUOTE ++ as_bytes "wait"
     ++ DQUOTE ++ as_bytes ", " ++ DQUOTE ++ as_bytes "wait_for_seconds" ++ DQUOTE ++ as_bytes ": <int>, "
     ++ DQUOTE ++ as_bytes "reason" ++ DQUOTE ++ as_bytes ": " ++ DQUOTE ++ as_bytes "<one sentence>"
     ++ DQUOTE ++ as_bytes "}";
     as_bytes "The legacy shape {" ++ DQUOTE ++ as_bytes "done" ++ DQUOTE ++ as_bytes ": <true|false>, "
     ++ DQUOTE ++ as_bytes "reason" ++ DQUOTE ++ as_bytes ": " ++ DQUOTE ++ as_bytes "..." ++ DQUOTE
     ++ as_bytes "} is still accepted (true=done, false=continue)."].
Definition DRAFT_CONTRACT_SYSTEM_PROMPT : bytes :=
  prompt_text
    [text ["You turn a user's plain-language objective into a structured completion contract for an ";
           "autonomous coding agent. The contract has five fields:"];
     as_bytes "- outcome: the single end state that must be true when done";
     text ["- verification: the specific test / command / artifact that PROVES the outcome (must be ";
           "concrete and checkable)"];
     as_bytes "- constraints: what must NOT change or regress";
     as_bytes "- boundaries: which files, dirs, tools, or systems are in scope";
     text ["- stop_when: the condition under which the agent should stop and ask for human input ";
           "instead of pushing on"];
     [];
     text ["Infer sensible, specific values from the objective and any project context implied by it. ";
           "Prefer concrete verification (a named test command, a build, a benchmark) over vague ";
           "phrases. Keep each field to one or two sentences. If a field genuinely cannot be inferred, ";
           "use an empty string for it."];
     [];
     as_bytes "Reply ONLY with a single JSON object on one line:";
     as_bytes "{" ++ DQUOTE ++ as_bytes "outcome" ++ DQUOTE ++ as_bytes ": " ++ DQUOTE ++ as_bytes "..."
     ++ DQUOTE ++ as_bytes ", " ++ DQUOTE ++ as_bytes "verification" ++ DQUOTE ++ as_bytes ": " ++ DQUOTE
     ++ as_bytes "..." ++ DQUOTE ++ as_bytes ", " ++ DQUOTE ++ as_bytes "constraints" ++ DQUOTE
     ++ as_bytes ": " ++ DQUOTE ++ as_bytes "..." ++ DQUOTE ++ as_bytes ", " ++ DQUOTE
     ++ as_bytes "boundaries" ++ DQUOTE ++ as_bytes ": " ++ DQUOTE ++ as_bytes "..." ++ DQUOTE
     ++ as_bytes ", " ++ DQUOTE ++ as_bytes "stop_when" ++ DQUOTE ++ as_bytes ": " ++ DQUOTE
     ++ as_bytes "..." ++ DQUOTE ++ as_bytes "}"].

(** ** The user prompt *)

Definition truncate_chars (s : bytes) (max_chars : nat) : bytes :=
  if length (chars s) <=? max_chars then s else concat (take max_chars (chars s)) ++ as_bytes "…".
Section prompt.
Context (debug_str : bytes → bytes).
Definition one_line (s : bytes) : bytes := bytes_trim (str_replace [u8 10] [u8 32] s).
Definition debug_list (l : list bytes) : bytes :=
  as_bytes "[" ++ bytes_join (as_bytes ", ") (debug_str <$> l) ++ as_bytes "]".
Definition process_line (p : BackgroundProcessInfo) : bytes :=
  let tail := truncate_chars (one_line (default [] (output_preview p))) 120 in
  as_bytes "- pid " ++ decimal (pid p)
  ++ match bytes_trim <$> session_id p with
     | Some (b :: l) => as_bytes " / session " ++ b :: l
     | _ => []
     end
  ++ as_bytes ": " ++ truncate_chars (one_line (command p)) 120
  ++ match uptime_seconds p with
     | Some uptime => as_bytes " (running " ++ decimal uptime ++ as_bytes "s)"
     | None => []
     end
  ++ match watch_patterns p with
     | [] => if notify_on_complete p then as_bytes " | notify_on_complete" else []
     | patterns =>
         as_bytes " | watch_patterns=" ++ debug_list patterns
         ++ (if watch_hit p then as_bytes " [already matched]" else [])
     end
  ++ match tail with [] => [] | _ => as_bytes " | recent output: " ++ tail end.
Definition waitable (p : BackgroundProcessInfo) : bool := negb (exited p || (pid p =? 0)%N).
Definition render_background_block (processes : list BackgroundProcessInfo) : bytes :=
  match process_line <$> filter (λ p, waitable p = true) processes with
  | [] => []
  | ls =>
      as_bytes "Background processes the agent currently has running (it may be waiting on one of these):" ++ [u8 10]
      ++ bytes_join [u8 10] ls ++ [u8 10; u8 10]
  end.
(** [now_text] is the local time. *)
Definition render_judge_user_prompt (now_text goal : bytes) (subs : list bytes) (c : option GoalContract)
    (processes : list BackgroundProcessInfo) (response : bytes) : bytes :=
  let goal := truncate_chars goal JUDGE_GOAL_SNIPPET_CHARS in
  let response := truncate_chars response JUDGE_RESPONSE_SNIPPET_CHARS in
  let background_block := render_background_block processes in
  match GoalPrompts.nonempty_contract c, subs with
  | Some c, _ =>
      let contract_block := truncate_chars (render_contract_block c subs) JUDGE_CONTRACT_SNIPPET_CHARS in
      prompt_text [as_bytes "Goal:"; []]
      ++ goal
      ++ prompt_text [[]; []; as_bytes "Completion contract (the authoritative definition of done):"; []]
      ++ contract_block
      ++ prompt_text [[]; []; as_bytes "Agent's most recent response:"; []]
      ++ response
      ++ prompt_text [[]; []; []]
      ++ background_block
      ++ prompt_text [as_bytes "Current time: "]
      ++ now_text
      ++ prompt_text [[];
         [];
         as_bytes "Decision rules:";
         text ["- The goal is DONE only when the Verification criterion is satisfied AND the response shows ";
               "concrete evidence of it (a command result, file contents excerpt, test/benchmark output) — ";
               "not a claim like 'done' or 'all tests pass' without evidence."];
         as_bytes "- If any stated Constraint was violated, the goal is NOT done — CONTINUE.";
         text ["- If the response shows the agent is waiting on a listed background process to satisfy the ";
               "Verification criterion (e.g. CI is the verification and it's still running), return WAIT on ";
               "that process instead of re-poking — re-poking now would be pure busy-work."];
         text ["- If the response explains the work is blocked / unachievable / needs user input (e.g. the ";
               "stated Stop condition was hit), treat it as DONE with the reason describing the block."];
         as_bytes "- Otherwise the goal is NOT done — CONTINUE.";
         [];
         as_bytes "Is the goal satisfied per its completion contract — done, continue, or wait?"]
  | None, [] =>
      prompt_text [as_bytes "Goal:"; []]
      ++ goal
      ++ prompt_text [[]; []; as_bytes "Agent's most recent response:"; []]
      ++ response
      ++ prompt_text [[]; []; []]
      ++ background_block
      ++ prompt_text [as_bytes "Current time: "]
      ++ now_text
      ++ prompt_text [[];
         [];
         as_bytes "Decision rules:";
         text ["- DONE requires concrete evidence in the response that the goal's end state is real and ";
               "verified (a command result, file contents excerpt, test or build output) — a fluent, ";
               "complete-looking answer alone is NOT enough."];
         text ["- If the response is a first attempt that has not verified its own claims, or any part of ";
               "the goal's scope is unaddressed, the goal is NOT done — CONTINUE."];
         [];
         as_bytes "Is the goal satisfied — done, continue, or wait?"]
  | None, _ =>
      prompt_text [as_bytes "Goal:"; []]
      ++ goal
      ++ prompt_text [[];
         [];
         text ["Additional criteria the user added mid-loop (all must also be satisfied for the goal to be ";
               "DONE):"];
         []]
      ++ render_subgoals_block subs
      ++ prompt_text [[]; []; as_bytes "Agent's most recent response:"; []]
      ++ response
      ++ prompt_text [[]; []; []]
      ++ background_block
      ++ prompt_text [as_bytes "Current time: "]
      ++ now_text
      ++ prompt_text [[];
         [];
         text ["Decision: For each numbered criterion above, find concrete evidence in the agent's response ";
               "that the criterion is satisfied. Do not accept generic phrases like 'all requirements met' ";
               "or 'implying it was done' — require specific evidence (a file contents excerpt, an output ";
               "line, a command result). If ANY criterion lacks specific evidence in the response, the goal ";
               "is NOT done — return CONTINUE (or WAIT if genuinely gated on async work)."];
         [];
         as_bytes "Is the goal AND every additional criterion satisfied?"]
  end.
End prompt.

(** ** Reading the reply *)

Definition is_object {Num} (v : Value Num) : bool := match v with Object _ => true | _ => false end.
Definition is_backtick : Ascii.ascii → bool := is_byte 96.
Definition strip_fences (raw : bytes) : bytes :=
  let trimmed := bytes_trim raw in
  if str_starts_with (as_bytes "```") trimmed then
    let inner := trim_matches is_backtick trimmed in
    match position is_lf inner with Some nl => drop (nl + 1) inner | None => inner end
  else trimmed.
Definition braced (txt : bytes) : option bytes :=
  start ← position (is_byte 123) txt;
  stop ← rposition (is_byte 125) txt;
  if stop <=? start then None else Some (take (stop + 1 - start) (drop start txt)).
Definition str_parse_i64 (l : bytes) : option Z :=
  let in_range z := if ((i64_min <=? z) && (z <=? i64_max))%Z then Some z else None in
  match l with
  | b :: (_ :: _) as digits =>
      if (byte b =? 45)%N then n ← parse_u64_raw digits; in_range (- Z.of_N n)%Z
      else if (byte b =? 43)%N then n ← parse_u64_raw digits; in_range (Z.of_N n)
      else n ← parse_u64_raw l; in_range (Z.of_N n)
  | _ => n ← parse_u64_raw l; in_range (Z.of_N n)
  end.

Section reply.
Context {Num : Type} (from_str : bytes → option (Value Num)) (as_i64 : Num → option Z).
Definition extract_json_object (raw : bytes) : option (Value Num) :=
  let txt := strip_fences raw in
  let data := option_or (from_str txt) (braced txt ≫= from_str) in
  v ← data; if is_object v then Some v else None.
Definition trimmed_str (v : option (Value Num)) : option bytes :=
  match bytes_trim <$> (v ≫= as_str) with
  | Some (b :: l) => Some (b :: l)
  | _ => None
  end.
Definition reply_reason (data : Value Num) : bytes :=
  default (as_bytes "no reason provided") (trimmed_str (get (as_bytes "reason") data)).
Definition legacy_done (v : option (Value Num)) : bool :=
  match v with
  | Some (Bool b) => b
  | Some (Str s) => one_of (str_lower (bytes_trim s)) ["true"; "yes"; "1"; "done"]%string
  | Some (Number n) => match as_i64 n with Some z => negb (z =? 0)%Z | None => false end
  | _ => false
  end.
Definition reply_verdict (data : Value Num) : GoalVerdict :=
  match get (as_bytes "verdict") data ≫= as_str with
  | Some v =>
      let v := str_lower (bytes_trim v) in
      if is_lit v "done" then Done else if is_lit v "wait" then Wait else Continue
  | None => if legacy_done (get (as_bytes "done") data) then Done else Continue
  end.
Fixpoint first_positive_int (data : Value Num) (keys : list string) : option N :=
  match keys with
  | [] => None
  | key :: keys =>
      let parsed :=
        match get (as_bytes key) data with
        | Some (Number n) => as_i64 n
        | Some (Str s) => str_parse_i64 (bytes_trim s)
        | _ => None
        end in
      match parsed with
      | Some n => if (0 <? n)%Z then Some (Z.to_N n) else first_positive_int data keys
      | None => first_positive_int data keys
      end
  end.
(** The first of the keys that holds a string counts, even when that string is blank. *)
Fixpoint first_str (data : Value Num) (keys : list string) : option (Value Num) :=
  match keys with
  | [] => None
  | key :: keys =>
      match get (as_bytes key) data ≫= as_str with
      | Some s => Some (Str s)
      | None => first_str data keys
      end
  end.
Definition reply_directive (data : Value Num) : option WaitDirective :=
  match trimmed_str (first_str data ["wait_on_session"; "session_id"; "wait_session"]%string) with
  | Some s => Some (Session s)
  | None =>
      match first_positive_int data ["wait_on_pid"; "pid"; "wait_pid"]%string with
      | Some target => Some (Pid (target mod 4294967296)%N)
      | None => Seconds <$> first_positive_int data ["wait_for_seconds"; "seconds"; "wait_seconds"]%string
      end
  end.
(** [(verdict, reason, parse_failed, wait_directive)] *)
Definition parse_judge_response (raw : bytes) : GoalVerdict * bytes * bool * option WaitDirective :=
  if str_is_blank raw then (Continue, as_bytes "judge returned empty response", true, None)
  else
    match extract_json_object raw with
    | None => (Continue, as_bytes "judge reply was not JSON: " ++ truncate_chars raw 200, true, None)
    | Some data =>
        let why := reply_reason data in
        let v := reply_verdict data in
        if negb (bool_decide (v = Wait)) then (v, why, false, None)
        else
          match reply_directive data with
          | Some d => (Wait, why, false, Some d)
          | None => (Continue, why ++ as_bytes " (wait verdict had no target — continuing)", false, None)
          end
    end.

(** ** One evaluation *)

Context (debug_str : bytes → bytes).
Definition outcome_ok (v : GoalVerdict) (why : bytes) : JudgeOutcome := mkOutcome v why false false None.
Definition judge_goal (now_text : bytes) (req : JudgeRequest) (processes : list BackgroundProcessInfo)
    (last_response : bytes) (complete : bytes → bytes → result bytes bytes) : JudgeOutcome :=
  if str_is_blank (ask_objective req) then outcome_ok Skipped (as_bytes "empty goal")
  else if str_is_blank last_response then outcome_ok Continue (as_bytes "empty response (nothing to evaluate)")
  else
    match complete JUDGE_SYSTEM_PROMPT
            (render_judge_user_prompt debug_str now_text (ask_objective req) (ask_subgoals req) (ask_contract req)
               processes last_response) with
    | Err e => mkOutcome Continue (as_bytes "judge error: " ++ e) false true None
    | Ok raw => let '(v, why, failed, d) := parse_judge_response raw in mkOutcome v why failed false d
    end.

(** ** Drafting a contract *)

Inductive ContractDraftError :=
| EmptyObjective | Transport (error : bytes) | Unparsable (raw : bytes) | EmptyContract.
Definition draft_error_text (e : ContractDraftError) : bytes :=
  match e with
  | EmptyObjective => as_bytes "cannot draft a contract from an empty objective"
  | Transport e => as_bytes "contract draft request failed: " ++ e
  | Unparsable raw => as_bytes "contract draft reply was not JSON: " ++ raw
  | EmptyContract => as_bytes "contract draft produced no usable fields"
  end.
Context (to_string : Value Num → bytes).
Definition draft_field (data : Value Num) (key : string) : bytes :=
  match get (as_bytes key) data with
  | Some (Str s) => bytes_trim s
  | Some Null | None => []
  | Some v => to_string v
  end.
Definition draft_contract (obj : bytes) (complete : bytes → bytes → result bytes bytes) :
    result GoalContract ContractDraftError :=
  let obj := bytes_trim obj in
  match obj with
  | [] => Err EmptyObjective
  | _ =>
      match complete DRAFT_CONTRACT_SYSTEM_PROMPT
              (as_bytes "Objective:" ++ [u8 10] ++ truncate_chars obj DRAFT_OBJECTIVE_SNIPPET_CHARS) with
      | Err e => Err (Transport e)
      | Ok raw =>
          match extract_json_object raw with
          | None => Err (Unparsable (truncate_chars raw 200))
          | Some data =>
              let field := draft_field data in
              let c := mkContract (field "outcome") (field "verification") (field "constraints") (field "boundaries")
                         (field "stop_when") in
              if contract_is_empty c then Err EmptyContract else Ok c
          end
      end
  end.

(** ** The client over a provider *)

(** How the request ended: it failed, its events arrived before the channel closed, or
    the time limit passed *)
Inductive JudgeStream :=
| OpenFailed (error : ProviderError)
| StreamEvents (events : list (LlmEvent Num))
| TimedOut.
Fixpoint collect_reply (txt : bytes) (events : list (LlmEvent Num)) : result bytes bytes :=
  match events with
  | [] => Err (as_bytes "judge stream closed without completion")
  | TextDelta delta :: events => collect_reply (txt ++ delta) events
  | LlmStream.Done _ _ :: _ => Ok txt
  | ErrorEvent e :: _ => Err (as_bytes "judge stream error: " ++ e)
  | _ :: events => collect_reply txt events
  end.
Definition provider_complete (stream : bytes → bytes → JudgeStream) (system user : bytes) : result bytes bytes :=
  match stream system user with
  | OpenFailed e => Err (as_bytes "judge request failed: " ++ provider_error_text e)
  | StreamEvents events => collect_reply [] events
  | TimedOut => Err (as_bytes "judge timed out after " ++ decimal JUDGE_TIMEOUT_SECS ++ as_bytes "s")
  end.
End reply.
