(* ===== verification/Horizon.v ===== *)
(** The Horizon controller (agent/nomi-agent/src/horizon): the ledger of mechanical
    progress, the budget of continuations and the decision whether a goal may continue.
    Instants are nanoseconds of a monotonic clock; the standard hasher is a function
    [finish] of the bytes written to it. *)
From S2P Require Import Prelude Bytes Text Json LoopGuard CodingText CodingGuards GoalState GoalPrompts.

Definition NO_PROGRESS_STOP_STREAK : N := 2.
Definition OFFICE_PLAN_SOFT : N := 8.
Definition OFFICE_PLAN_HARD : N := 12.
Definition DEFAULT_WALL_LIMIT_SECS : N := 7200.

(** ** The budget *)

Record HorizonBudget := mkBudget {
  started_at : N;
  continuations : N;
  max_continuations : N;
  wall_limit_secs : N;
  total_input_tokens : N;
  total_output_tokens : N;
}.
Definition budget_default (now : N) : HorizonBudget := mkBudget now 0 0 DEFAULT_WALL_LIMIT_SECS 0 0.
Definition configure (now max : N) (b : HorizonBudget) : HorizonBudget :=
  mkBudget (if (continuations b =? 0)%N then now else started_at b) (continuations b) max (wall_limit_secs b)
    (total_input_tokens b) (total_output_tokens b).
Definition budget_remaining (b : HorizonBudget) : N := (max_continuations b - continuations b)%N.
Definition budget_record_continuation (b : HorizonBudget) : HorizonBudget :=
  mkBudget (started_at b) (u64_sat_add (continuations b) 1) (max_continuations b) (wall_limit_secs b)
    (total_input_tokens b) (total_output_tokens b).
Definition budget_record_usage (inp out : N) (b : HorizonBudget) : HorizonBudget :=
  mkBudget (started_at b) (continuations b) (max_continuations b) (wall_limit_secs b)
    (u64_sat_add (total_input_tokens b) inp) (u64_sat_add (total_output_tokens b) out).
Definition elapsed_secs (now : N) (b : HorizonBudget) : N := ((now - started_at b) / 1000000000)%N.
Definition wall_exceeded (now : N) (b : HorizonBudget) : bool :=
  ((0 <? max_continuations b) && (wall_limit_secs b <=? elapsed_secs now b))%N.
Definition exhausted (b : HorizonBudget) : bool :=
  ((0 <? max_continuations b) && (max_continuations b <=? continuations b))%N.
Definition effective_auto_continue_cap (requested : N) (has_verification : bool) : N :=
  if has_verification then requested else N.min requested FREEFORM_AUTO_CONTINUE_CAP.

(** ** The ledger *)

Record ToolObservation := mkToolObservation { tool_name : bytes; tool_command : option bytes; success : bool }.
Record ProgressSnapshot := mkSnapshot {
  snap_mutated : bool;
  snap_verify_ok : bool;
  snap_workspace_changed : bool;
  snap_streak : N;
}.
Record ProgressLedger := mkLedger {
  mutated : bool;
  verify_ok : bool;
  recon_only_turns : N;
  last_workspace_fp : option N;
  last_text_sig : option N;
  last_pending_steps : N;
  ledger_streak : N;
  workspace_changed : bool;
  last_idle_reason : option bytes;
}.
Definition ledger_default : ProgressLedger := mkLedger false false 0 None None 0 0 false None.
Definition snapshot (l : ProgressLedger) : ProgressSnapshot :=
  mkSnapshot (mutated l) (verify_ok l) (workspace_changed l) (ledger_streak l).
Definition had_progress (l : ProgressLedger) : bool := mutated l || verify_ok l || workspace_changed l.
Definition ledger_on_user_request (l : ProgressLedger) : ProgressLedger :=
  mkLedger false false 0 (last_workspace_fp l) (last_text_sig l) 0 0 (workspace_changed l) None.
Definition consume_turn_scoped (l : ProgressLedger) : ProgressLedger :=
  mkLedger false false (recon_only_turns l) (last_workspace_fp l) (last_text_sig l) (last_pending_steps l)
    (ledger_streak l) (workspace_changed l) (last_idle_reason l).
Definition recon_observation (t : ToolObservation) : bool := is_recon_tool (tool_name t) (tool_command t).
Definition is_mutation (t : ToolObservation) : bool :=
  success t && is_side_effect_tool (tool_name t) && negb (recon_observation t).
Definition is_verification (t : ToolObservation) : bool :=
  success t && match tool_command t with Some c => looks_like_verification_command c | None => false end.
(** The loop's [any_progress] is that some tool mutated or verified. *)
Definition observe_tools (tools : list ToolObservation) (l : ProgressLedger) : ProgressLedger :=
  match tools with
  | [] => l
  | _ =>
      let any_progress := existsb (λ t, is_mutation t || is_verification t) tools in
      let recon_turns :=
        if forallb recon_observation tools then u64_sat_add (recon_only_turns l) 1
        else if any_progress then 0%N else recon_only_turns l in
      mkLedger (mutated l || existsb is_mutation tools) (verify_ok l || existsb is_verification tools) recon_turns
        (last_workspace_fp l) (last_text_sig l) (last_pending_steps l) (ledger_streak l) (workspace_changed l)
        (last_idle_reason l)
  end.
Definition idle_reason (text_dup empty : bool) : bytes :=
  as_bytes (if empty then "empty assistant reply"
            else if text_dup then "assistant reply nearly identical to the previous EndTurn"
            else "no mutation, verification, or workspace change").
Definition yes_no (b : bool) : bytes := as_bytes (if b then "yes" else "no").
Definition idle_brief (l : ProgressLedger) : bytes :=
  bytes_join [u8 10]
    ([as_bytes "- mutation this request: " ++ yes_no (mutated l);
      as_bytes "- verification command succeeded: " ++ yes_no (verify_ok l);
      as_bytes "- workspace fingerprint changed: " ++ yes_no (workspace_changed l);
      as_bytes "- consecutive EndTurns without progress: " ++ decimal (ledger_streak l)]
     ++ match last_idle_reason l with Some why => [as_bytes "- idle reason: " ++ why] | None => [] end).

(** *** Fingerprints *)

(** What the file system and git answer about the working directory; [git_status] is
    whether the command succeeded, with its output, or [None] when it did not start. *)
Record FileMeta := mkMeta { meta_len : N; modified_secs : option N }.
Record Workspace := mkWorkspace {
  exists_ : bool;
  has_dot_git : bool;
  git_status : option (bool * bytes);
  dir_meta : option FileMeta;
  dir_entries : list (bytes * option FileMeta);
}.
Section hashing.
Context (finish : bytes → N).
Definition text_signature (txt : bytes) : N :=
  match take_chars 4000 (remove_whitespace txt) with
  | [] => 0%N
  | normalized => finish (write_str normalized)
  end.
Definition hash_meta (m : option FileMeta) : bytes :=
  match m with
  | Some m => write_u64 (meta_len m) ++ match modified_secs m with Some secs => write_u64 secs | None => [] end
  | None => []
  end.
Definition dir_fingerprint (w : Workspace) : N :=
  finish (hash_meta (dir_meta w)
          ++ concat ((λ e, e.1 ++ hash_meta e.2) <$> sort_entries (take 64 (dir_entries w)))).
Definition git_fingerprint (w : Workspace) : option N :=
  if negb (has_dot_git w) then None
  else match git_status w with
       | Some (true, stdout) => Some (finish stdout)
       | _ => None
       end.
Definition workspace_fingerprint (cwd : option Workspace) : option N :=
  w ← cwd;
  if negb (exists_ w) then None
  else Some (default (dir_fingerprint w) (git_fingerprint w)).
Definition ledger_observe_end_turn (assistant_text : bytes) (cwd : option Workspace) (pending_steps : N)
    (l : ProgressLedger) : ProgressLedger * bool :=
  let fp := workspace_fingerprint cwd in
  let fp_changed :=
    match last_workspace_fp l, fp with
    | Some prev, Some now => negb (prev =? now)%N
    | _, _ => false
    end in
  let steps_changed := (last_pending_steps l <? pending_steps)%N in
  let sig := text_signature assistant_text in
  let text_dup := bool_decide (last_text_sig l = Some sig) && negb (sig =? 0)%N in
  let progress := mutated l || verify_ok l || fp_changed || steps_changed in
  (mkLedger (mutated l) (verify_ok l) (recon_only_turns l)
     (option_or fp (last_workspace_fp l))
     (if (sig =? 0)%N then last_text_sig l else Some sig)
     pending_steps
     (if progress then 0 else u64_sat_add (ledger_streak l) 1)%N
     (workspace_changed l || fp_changed)
     (if progress then None
      else Some (idle_reason text_dup (bool_decide (assistant_text = [])))),
   progress).
End hashing.

(** ** The controller *)

Inductive HorizonStopKind :=
| KeepGoing | IdleStreak | BudgetExhausted | WallClock | PlanActive | AwaitingPlanApproval.
#[export] Instance HorizonStopKind_eq_dec : EqDecision HorizonStopKind.
Proof. solve_decision. Defined.
Record HorizonDecision := mkDecision {
  kind : HorizonStopKind;
  may_continue : bool;
  pause_goal : bool;
  why : bytes;
  streak : N;
  left_over : N;
}.
Inductive OfficePlanAction := NoAction | PlanNudge | HardStop.
Definition OFFICE_PLAN_NUDGE : bytes :=
  text ["Plan mode has run long enough. Stop exploring. Call ExitPlanMode now with a complete plan that ";
        "includes a Verification command the user can run."].
Definition OFFICE_PLAN_HARD_STOP : bytes :=
  text ["Plan mode hard stop: do not read more files. Submit the plan via ExitPlanMode in this turn, ";
        "including Context, Files to modify, and a concrete Verification command. Implementation tools stay ";
        "locked until the user sends the next message."].
Definition office_plan_text (a : OfficePlanAction) : option bytes :=
  match a with
  | NoAction => None
  | PlanNudge => Some OFFICE_PLAN_NUDGE
  | HardStop => Some OFFICE_PLAN_HARD_STOP
  end.
Record HorizonController := mkController {
  ledger : ProgressLedger;
  budget : HorizonBudget;
  office_plan_turns : N;
  office_plan_nudge_sent : bool;
  office_plan_hard_sent : bool;
}.
Definition controller_default (now : N) : HorizonController :=
  mkController ledger_default (budget_default now) 0 false false.
Definition on_ledger (f : ProgressLedger → ProgressLedger) (h : HorizonController) : HorizonController :=
  mkController (f (ledger h)) (budget h) (office_plan_turns h) (office_plan_nudge_sent h) (office_plan_hard_sent h).
Definition on_budget (f : HorizonBudget → HorizonBudget) (h : HorizonController) : HorizonController :=
  mkController (ledger h) (f (budget h)) (office_plan_turns h) (office_plan_nudge_sent h) (office_plan_hard_sent h).
Definition controller_on_user_request (h : HorizonController) : HorizonController :=
  mkController (ledger_on_user_request (ledger h)) (budget h) 0 false false.
Definition configure_goal (now requested_cap : N) (c : option GoalContract) : HorizonController → HorizonController :=
  on_budget (configure now (effective_auto_continue_cap requested_cap (contract_has_verification c))).
Definition align_budget (now requested_cap : N) (c : option GoalContract) (auto : N) (h : HorizonController) :
    HorizonController :=
  configure_goal now requested_cap c
    (if ((auto =? 0) && (0 <? continuations (budget h)))%N then on_budget (λ _, budget_default now) h else h).
Definition observe_office_plan_turn (plan_active : bool) (h : HorizonController) : HorizonController * OfficePlanAction :=
  if negb plan_active then (mkController (ledger h) (budget h) 0 false false, NoAction)
  else
    let turns := u64_sat_add (office_plan_turns h) 1 in
    if (OFFICE_PLAN_HARD <=? turns)%N then
      (mkController (ledger h) (budget h) turns (office_plan_nudge_sent h) true, HardStop)
    else if (OFFICE_PLAN_SOFT <=? turns)%N && negb (office_plan_nudge_sent h) then
      (mkController (ledger h) (budget h) turns true (office_plan_hard_sent h), PlanNudge)
    else (mkController (ledger h) (budget h) turns (office_plan_nudge_sent h) (office_plan_hard_sent h), NoAction).
Definition decide_continue (now : N) (plan_active awaiting_plan_approval : bool) (h : HorizonController) :
    HorizonDecision :=
  let streak := ledger_streak (ledger h) in
  let left_over := budget_remaining (budget h) in
  let stop k pause why := mkDecision k false pause why streak left_over in
  if awaiting_plan_approval then
    stop AwaitingPlanApproval false (as_bytes "plan submitted; waiting for the user to continue")
  else if plan_active then
    stop PlanActive false (as_bytes "plan mode is active; Goal auto-continue is suspended")
  else if wall_exceeded now (budget h) then stop WallClock true (as_bytes "goal wall-clock budget exhausted")
  else if exhausted (budget h) then
    stop BudgetExhausted true (as_bytes "goal auto-continuation budget exhausted")
  else if (NO_PROGRESS_STOP_STREAK <=? streak)%N then
    stop IdleStreak true
      (as_bytes "no observable progress for " ++ decimal streak ++ as_bytes " consecutive goal turns")
  else
    mkDecision KeepGoing true false (default (as_bytes "continue toward the goal") (last_idle_reason (ledger h)))
      streak left_over.
Definition goal_delta (obj : bytes) (c : option GoalContract) (subgoal_block : bytes) (h : HorizonController) :
    ContinuationDelta :=
  let missing :=
    match c with
    | Some c' =>
        if contract_has_verification c && negb (verify_ok (ledger h)) then
          as_bytes "Missing verification: run `" ++ bytes_trim (verification c')
          ++ as_bytes "` (or the equivalent) and read the output before completing."
        else []
    | None => []
    end in
  let criteria :=
    match nonempty_contract c, subgoal_block with
    | Some c, _ => [u8 10] ++ as_bytes "完成合约：" ++ [u8 10] ++ render_block c ++ [u8 10]
    | None, [] => []
    | None, block => [u8 10] ++ as_bytes "附加准则：" ++ [u8 10] ++ block ++ [u8 10]
    end in
  mkDelta obj criteria (idle_brief (ledger h)) (budget_remaining (budget h)) missing.

Section payload.
Context {Num : Type} (num : N → Num).
Definition stop_kind_debug (k : HorizonStopKind) : bytes :=
  as_bytes match k with
           | KeepGoing => "Continue" | IdleStreak => "IdleStreak" | BudgetExhausted => "BudgetExhausted"
           | WallClock => "WallClock" | PlanActive => "PlanActive" | AwaitingPlanApproval => "AwaitingPlanApproval"
           end%string.
Definition observation_payload (d : HorizonDecision) (h : HorizonController) : Value Num :=
  let field key v := (as_bytes key, v) in
  let count n := Number (num n) in
  Object
    [field "kind" (Str (stop_kind_debug (kind d)));
     field "allow_continue" (Bool (may_continue d));
     field "pause_goal" (Bool (pause_goal d));
     field "reason" (Str (why d));
     field "no_progress_streak" (count (streak d));
     field "remaining" (count (left_over d));
     field "continuations" (count (continuations (budget h)));
     field "mutated" (Bool (mutated (ledger h)));
     field "verify_ok" (Bool (verify_ok (ledger h)));
     field "workspace_changed" (Bool (workspace_changed (ledger h)));
     field "input_tokens" (count (total_input_tokens (budget h)));
     field "output_tokens" (count (total_output_tokens (budget h)))]%string.
End payload.
