(* ===== verification/GoalEngine.v ===== *)
(** The engine's use of goals (agent/nomi-agent/src/engine/mod.rs): the observation of
    tools, the steps at the natural end of a turn, and the sessions in which they
    interleave with a host that holds a handle of the same goal. *)
From S2P Require Import Prelude Bytes Text Json LlmStream Conversation CodingText GoalState GoalPrompts GoalRuntime.
From S2P Require Import GoalJudge Horizon.

(** Where the engine is in the code of a natural end.  Between two phases the lock of
    the goal is free. *)
Inductive Phase :=
| Ready
| Observed (response : bytes)
| Gated (response : bytes) (gate : GoalContinueGate)
| Judging (response : bytes) (gate : GoalContinueGate) (req : JudgeRequest) (processes : list BackgroundProcessInfo).
Record GoalSession := mkSession {
  goal : option GoalRuntime;
  horizon : HorizonController;
  goal_wait_probe : bool;
  plan_is_active : bool;
  awaiting_approval : bool;
  disables_goal_auto_continue : bool;
  phase : Phase;
}.
Definition with_goal (g : option GoalRuntime) (s : GoalSession) : GoalSession :=
  mkSession g (horizon s) (goal_wait_probe s) (plan_is_active s) (awaiting_approval s) (disables_goal_auto_continue s)
    (phase s).
Definition with_horizon (h : HorizonController) (s : GoalSession) : GoalSession :=
  mkSession (goal s) h (goal_wait_probe s) (plan_is_active s) (awaiting_approval s) (disables_goal_auto_continue s)
    (phase s).
Definition with_phase (p : Phase) (s : GoalSession) : GoalSession :=
  mkSession (goal s) (horizon s) (goal_wait_probe s) (plan_is_active s) (awaiting_approval s)
    (disables_goal_auto_continue s) p.
Definition with_plan (active awaiting : bool) (s : GoalSession) : GoalSession :=
  mkSession (goal s) (horizon s) (goal_wait_probe s) active awaiting (disables_goal_auto_continue s) (phase s).
Definition on_goal (f : GoalState → GoalState) (s : GoalSession) : GoalSession :=
  with_goal (on_state f <$> goal s) s.
Definition session_new (now : N) (coding : bool) : GoalSession :=
  mkSession None (controller_default now) false false false coding Ready.

(** ** Configuration *)

Definition install_probe (installed : bool) (rt : GoalRuntime) : GoalRuntime :=
  if installed then set_wait_probe rt else rt.
(** [epoch] is the wall clock, [now] the monotonic one. *)
Definition set_goal (epoch now : N) (obj : bytes) (max : N) (s : GoalSession) : GoalSession :=
  with_horizon (configure_goal now max None (controller_default now))
    (with_goal (Some (install_probe (goal_wait_probe s) (runtime_new epoch obj max))) s).
Definition set_goal_state (now : N) (g : GoalState) (s : GoalSession) : GoalSession :=
  let s := with_horizon (configure_goal now (max_auto_continuations g) (contract g) (horizon s)) s in
  match goal s with
  | Some rt => with_goal (Some (restore g rt)) s
  | None => with_goal (Some (install_probe (goal_wait_probe s) (from_state g))) s
  end.
Definition set_goal_wait_probe (s : GoalSession) : GoalSession :=
  mkSession (set_wait_probe <$> goal s) (horizon s) true (plan_is_active s) (awaiting_approval s)
    (disables_goal_auto_continue s) (phase s).

Section engine.
Context {Num : Type} (finish : bytes → N) (from_str : bytes → option (Value Num)) (as_i64 : Num → option Z).
Context (debug_str : bytes → bytes).
Abbreviation Message := (Message Num).
Abbreviation ContentBlock := (ContentBlock Num).

(** ** Observing a turn *)

Definition result_ok (id : bytes) (b : ContentBlock) : bool :=
  match b with ToolResult tool_use_id _ is_error _ => bool_decide (tool_use_id = id) && negb is_error | _ => false end.
Definition tool_observations (tool_calls results : list ContentBlock) : list ToolObservation :=
  omap (λ c, match c with
        | ToolUse id name input _ =>
            Some (mkToolObservation name (shell_command_from_input input) (existsb (result_ok id) results))
        | _ => None
        end) tool_calls.
Definition sync_goal_progress (s : GoalSession) : GoalSession :=
  let snap := snapshot (ledger (horizon s)) in
  on_goal (apply_progress (snap_mutated snap) (snap_verify_ok snap) (snap_workspace_changed snap) (snap_streak snap)) s.
Definition horizon_observe_tools (tool_calls results : list ContentBlock) (s : GoalSession) : GoalSession :=
  sync_goal_progress
    (with_horizon (on_ledger (observe_tools (tool_observations tool_calls results)) (horizon s)) s).
Definition session_user_request (s : GoalSession) : GoalSession :=
  with_horizon (controller_on_user_request (horizon s)) s.

(** ** The natural end of a turn *)

Definition end_turn (usage : TokenUsage) (response : bytes) (cwd : option Workspace) (s : GoalSession) : GoalSession :=
  let h := on_budget (budget_record_usage (input_tokens usage) (output_tokens usage)) (horizon s) in
  let h := on_ledger (λ l, (ledger_observe_end_turn finish response cwd 0 l).1) h in
  let s := sync_goal_progress (with_horizon h s) in
  with_horizon (on_ledger consume_turn_scoped (horizon s)) s.
Definition end_gate (d : HorizonDecision) (delta : ContinuationDelta) : GoalContinueGate :=
  mkGate (may_continue d) (pause_goal d) (Some (why d)) (Some delta) true.
Definition gate_of (now : N) (snap : GoalState) (s : GoalSession) : HorizonController * GoalContinueGate :=
  let h := align_budget now (max_auto_continuations snap) (contract snap) (auto_continuations snap) (horizon s) in
  let d := decide_continue now (plan_is_active s) (awaiting_approval s) h in
  (h, end_gate d (goal_delta (objective snap) (contract snap) (render_subgoals_block (subgoals snap)) h)).
Definition end_decide (now : N) (response : bytes) (s : GoalSession) : GoalSession :=
  if disables_goal_auto_continue s then with_phase Ready s
  else
    match goal s with
    | None => with_phase Ready s
    | Some rt =>
        let '(h, gate) := gate_of now (state rt) s in
        with_phase (Gated response gate) (with_horizon h s)
    end.
Definition probe_answers (world : GoalWaitProbe) (rt : GoalRuntime) : option GoalWaitProbe :=
  if probe rt then Some world else None.
Definition end_begin (epoch : N) (world : GoalWaitProbe) (response : bytes) (gate : GoalContinueGate)
    (s : GoalSession) : GoalSession :=
  match goal s with
  | None => with_phase Ready s
  | Some rt =>
      let '(g, req) := evaluate_begin epoch (probe_answers world rt) (state rt) in
      let s := with_goal (Some (restore g rt)) s in
      match req with
      | None => with_phase Ready s
      | Some req => with_phase (Judging response gate req (background rt)) s
      end
  end.
Definition end_finish (clock : EvalClock) (o : JudgeOutcome) (gate : GoalContinueGate) (s : GoalSession) :
    GoalSession * option Message :=
  match goal s with
  | None => (with_phase Ready s, None)
  | Some rt =>
      let '(g, message) := evaluate_finish clock o gate (state rt) in
      let s := with_goal (Some (restore g rt)) s in
      match message with
      | None => (with_phase Ready s, None)
      | Some m => (with_phase Ready (with_horizon (on_budget budget_record_continuation (horizon s)) s), Some m)
      end
  end.
(** The natural end when nobody else holds the lock between its critical sections *)
Definition natural_end (now epoch : N) (world : GoalWaitProbe) (clock : EvalClock) (now_text : bytes)
    (complete : bytes → bytes → result bytes bytes) (response : bytes) (s : GoalSession) :
    GoalSession * option Message :=
  let s := end_decide now response s in
  match phase s with
  | Gated response gate =>
      let s := end_begin epoch world response gate s in
      match phase s with
      | Judging response gate req processes =>
          end_finish clock (judge_goal from_str as_i64 debug_str now_text req processes response complete) gate s
      | _ => (s, None)
      end
  | _ => (s, None)
  end.

(** ** Sessions

    A host event may come at any time; the others are the engine's and need it to be at
    the point in question.  [complete] is the judge's client. *)
Inductive GoalEvent :=
| HostPause (why : bytes)
| HostResume
| HostClear
| HostAddSubgoal (txt : bytes)
| HostRemoveSubgoal (index_1based : nat)
| HostSetContract (c : GoalContract)
| HostWaitOnPid (target : N)
| HostUnwait
| HostRestore (g : GoalState)
| HostBackground (processes : list BackgroundProcessInfo)
| InstallProbe
| InstallGoal (now : N) (g : GoalState)
| UserRequest
| PlanMode (active awaiting : bool)
| ToolTurn (tool_calls results : list ContentBlock)
| CallUpdateGoal (input : Value Num)
| NaturalEnd (usage : TokenUsage) (response : bytes) (cwd : option Workspace)
| Decide (now : N)
| Begin (epoch : N) (world : GoalWaitProbe)
| Finish (clock : EvalClock) (now_text : bytes) (complete : bytes → bytes → result bytes bytes).
Definition host_step (e : GoalEvent) (s : GoalSession) : option GoalSession :=
  match e with
  | HostPause why => Some (on_goal (pause why) s)
  | HostResume => Some (on_goal resume s)
  | HostClear => Some (on_goal clear s)
  | HostAddSubgoal txt => Some (on_goal (add_subgoal txt) s)
  | HostRemoveSubgoal i => Some (on_goal (λ g, (remove_subgoal i g).1) s)
  | HostSetContract c => Some (on_goal (set_contract c) s)
  | HostWaitOnPid target => Some (on_goal (λ g, (wait_on_pid target g).1) s)
  | HostUnwait => Some (on_goal (λ g, (unwait g).1) s)
  | HostRestore g => Some (on_goal (λ _, g) s)
  | HostBackground l => Some (with_goal (set_background_processes l <$> goal s) s)
  | _ => None
  end.
Definition engine_step (e : GoalEvent) (s : GoalSession) : option (GoalSession * option Message) :=
  match phase s, e with
  | Ready, InstallProbe => Some (set_goal_wait_probe s, None)
  | Ready, InstallGoal now g => Some (set_goal_state now g s, None)
  | Ready, UserRequest => Some (session_user_request s, None)
  | Ready, PlanMode active awaiting => Some (with_plan active awaiting s, None)
  | Ready, ToolTurn calls results => Some (horizon_observe_tools calls results s, None)
  | Ready, CallUpdateGoal input => Some (on_goal (λ g, (update_goal_execute finish input g).1) s, None)
  | Ready, NaturalEnd usage response cwd => Some (with_phase (Observed response) (end_turn usage response cwd s), None)
  | Observed response, Decide now => Some (end_decide now response s, None)
  | Gated response gate, Begin epoch world => Some (end_begin epoch world response gate s, None)
  | Judging response gate req processes, Finish clock now_text complete =>
      Some (end_finish clock (judge_goal from_str as_i64 debug_str now_text req processes response complete) gate s)
  | _, _ => None
  end.
Definition goal_step (e : GoalEvent) (s : GoalSession) : option (GoalSession * option Message) :=
  match host_step e s with
  | Some s => Some (s, None)
  | None => engine_step e s
  end.
(** The continuations in the order in which they are sent *)
Fixpoint goal_run (es : list GoalEvent) (s : GoalSession) : option (GoalSession * list Message) :=
  match es with
  | [] => Some (s, [])
  | e :: es =>
      '(s, m) ← goal_step e s;
      '(s, ms) ← goal_run es s;
      Some (s, option_list m ++ ms)
  end.
End engine.
