(* ===== verification/GoalSafety.v ===== *)
(** What one step does to a goal, and the safety of whole sessions: stopped goals stay
    stopped, continuations stay within the budget, and a goal is complete only behind
    mechanical evidence. *)
From S2P Require Import Prelude Bytes Text Json LlmStream Conversation CodingText GoalState GoalPrompts GoalRuntime.
From S2P Require Import GoalJudge Horizon GoalEngine.

(** ** One evaluation *)

(** What the judge and the host's barriers never touch *)
Definition same_goal (g g' : GoalState) : Prop :=
  objective g' = objective g ∧ max_auto_continuations g' = max_auto_continuations g ∧ contract g' = contract g ∧
  subgoals g' = subgoals g ∧ last_mutation g' = last_mutation g ∧ last_verify_ok g' = last_verify_ok g ∧
  last_workspace_changed g' = last_workspace_changed g.
#[export] Instance same_goal_refl : Reflexive same_goal.
Proof. done. Qed.
#[export] Instance same_goal_trans : Transitive same_goal.
Proof. unfold same_goal. intros g1 g2 g3 Hl Hr. destruct_and!. split_and!; congruence. Qed.
Lemma same_goal_gate g g' : same_goal g g' → satisfies_complete_gate g' = satisfies_complete_gate g.
Proof.
  intros (_ & _ & Hc & _ & Hm & Hv & Hw). unfold satisfies_complete_gate, has_verification. by rewrite Hc, Hm, Hv, Hw.
Qed.
Lemma should_continue_active g : should_continue g = true → status g = Active ∧ (auto_continuations g < effective_cap g)%N.
Proof. unfold should_continue. intros [?%bool_decide_eq_true ?%N.ltb_lt]%andb_true_iff. done. Qed.

Section evaluation.
Context {Num : Type}.
Abbreviation Message := (Message Num).
(** How an evaluation that found the goal running may leave it *)
Definition eval_effect (gate : GoalContinueGate) (g g' : GoalState) (m : option Message) : Prop :=
  same_goal g g' ∧
  match m with
  | Some _ =>
      allow_continue gate = true ∧ status g' = Active ∧ auto_continuations g' = (auto_continuations g + 1)%N
  | None =>
      auto_continuations g' = auto_continuations g ∧
      (status g' = Active ∨ status g' = Paused ∨ status g' = Waiting ∨
       status g' = Complete ∧ (observed gate = true → satisfies_complete_gate g = true))
  end.
Definition eval_ok (gate : GoalContinueGate) (g : GoalState) (r : GoalState * option Message) : Prop :=
  eval_effect gate g r.1 r.2.
Lemma eval_effect_frame gate g0 g g' (m : option Message) :
  same_goal g0 g → auto_continuations g = auto_continuations g0 → eval_effect gate g g' m → eval_effect gate g0 g' m.
Proof.
  intros Hs Ha [Hs' Hm]. pose proof (same_goal_gate _ _ Hs) as Hg.
  split; [by etrans|]. destruct m; rewrite Ha in Hm; rewrite ?Hg in Hm; done.
Qed.
Lemma continue_goal_effect clock gate g :
  status g = Active → eval_ok gate g (continue_goal clock gate g).
Proof.
  intros Hst. unfold continue_goal. destruct (allow_continue gate) eqn:?; cbn; [done|].
  destruct (pause_on_veto gate); cbn; (split; [done|]); split; auto.
Qed.
Lemma evaluate_verdict_effect clock v reply d gate g :
  status g = Active →
  eval_ok gate g (evaluate_verdict clock v reply d gate g).
Proof.
  intros Hst. unfold evaluate_verdict.
  destruct (_ <=? _)%N; [by cbn; repeat split; auto|]. destruct (_ <=? _)%N; [by cbn; repeat split; auto|].
  destruct v, d as [[]|]; try (by apply continue_goal_effect); cbn; repeat split; auto.
Qed.
Lemma evaluate_finish_effect clock o gate g :
  should_continue g = true →
  eval_ok gate g (evaluate_finish clock o gate g).
Proof.
  intros Hsc. pose proof (should_continue_active _ Hsc) as [Hst _].
  unfold evaluate_finish. rewrite Hsc. cbn [negb].
  destruct (_ || _); [by cbn; repeat split; auto|].
  destruct (bool_decide _).
  - destruct (observed gate && _) eqn:Hg.
    + eapply eval_effect_frame; [| |by apply evaluate_verdict_effect]; done.
    + cbn. repeat split. right; right; right. split; [done|]. intros Ho. rewrite Ho in Hg. cbn in Hg.
      change (negb (satisfies_complete_gate g) = false) in Hg. by apply negb_false_iff.
  - eapply eval_effect_frame; [| |by apply evaluate_verdict_effect]; done.
Qed.
Lemma evaluate_finish_stopped clock o gate g :
  should_continue g = false → evaluate_finish (Num := Num) clock o gate g = (g, None).
Proof. unfold evaluate_finish. by intros ->. Qed.
Lemma evaluate_begin_effect now p g :
  same_goal g (evaluate_begin now p g).1 ∧ auto_continuations (evaluate_begin now p g).1 = auto_continuations g ∧
  (status (evaluate_begin now p g).1 = status g ∨ status g = Waiting ∧ status (evaluate_begin now p g).1 = Active) ∧
  (is_Some (evaluate_begin now p g).2 → should_continue (evaluate_begin now p g).1 = true).
Proof.
  unfold evaluate_begin. destruct (bool_decide (status g = Waiting)) eqn:Hw.
  - apply bool_decide_eq_true in Hw. destruct (wait_barrier_holds now g p); [by cbn; repeat split; auto; intros []|].
    destruct (should_continue (release_barrier g)) eqn:E; cbn; repeat split; auto; by intros [].
  - destruct (should_continue g) eqn:E; cbn; repeat split; auto; by intros [].
Qed.
End evaluation.

(** ** One step of a session *)

(** Unfolds an operation of the host into its branches *)
Ltac host_op :=
  unfold pause, add_subgoal, remove_subgoal, wait_on_pid, unwait, resume, clear, set_contract;
  repeat case_match; simplify_eq;
  repeat match goal with
    | Hn : negb _ = false |- _ => apply negb_false_iff in Hn
    | Hb : bool_decide _ = true |- _ => apply bool_decide_eq_true in Hb
    end; cbn.
Section session.
Context {Num : Type} (finish : bytes → N) (from_str : bytes → option (Value Num)) (as_i64 : Num → option Z).
Context (debug_str : bytes → bytes).
Abbreviation Message := (Message Num).
Abbreviation GoalEvent := (GoalEvent (Num := Num)).
Abbreviation goal_step := (goal_step finish from_str as_i64 debug_str).
Abbreviation goal_run := (goal_run finish from_str as_i64 debug_str).

(** What an event does to the state of a goal that is there *)
Definition move (ph : Phase) (e : GoalEvent) (g g' : GoalState) (m : option Message) : Prop :=
  match e with
  | Finish clock _ _ =>
      ∃ response gate req processes o,
        ph = Judging response gate req processes ∧ evaluate_finish clock o gate g = (g', m)
  | _ =>
      m = None ∧
      match e with
      | HostPause reply => g' = pause reply g
      | HostResume => g' = resume g
      | HostClear => g' = clear g
      | HostAddSubgoal txt => g' = add_subgoal txt g
      | HostRemoveSubgoal i => g' = (remove_subgoal i g).1
      | HostSetContract c => g' = set_contract c g
      | HostWaitOnPid target => g' = (wait_on_pid target g).1
      | HostUnwait => g' = (unwait g).1
      | HostRestore g0 | InstallGoal _ g0 => g' = g0
      | CallUpdateGoal input => g' = (update_goal_execute finish input g).1
      | ToolTurn _ _ | NaturalEnd _ _ _ => ∃ mut ver chg streak, g' = apply_progress mut ver chg streak g
      | Begin epoch world => ∃ p, g' = (evaluate_begin epoch p g).1
      | _ => g' = g
      end
  end.
Lemma end_decide_goal now response s : goal (end_decide now response s) = goal s.
Proof. unfold end_decide. destruct (disables_goal_auto_continue s), (goal s) eqn:E; cbn; congruence. Qed.
Lemma end_begin_goal epoch world response gate s rt :
  goal s = Some rt →
  goal (end_begin epoch world response gate s)
    = Some (restore (evaluate_begin epoch (probe_answers world rt) (state rt)).1 rt).
Proof. intros E. unfold end_begin. rewrite E. by destruct (evaluate_begin _ _ _) as [g []]. Qed.
Lemma end_finish_goal clock o gate s rt :
  goal s = Some rt →
  goal (end_finish (Num := Num) clock o gate s).1 = Some (restore (evaluate_finish (Num := Num) clock o gate (state rt)).1 rt) ∧
  (end_finish clock o gate s).2 = (evaluate_finish (Num := Num) clock o gate (state rt)).2.
Proof. intros E. unfold end_finish. rewrite E. by destruct (evaluate_finish _ _ _ _) as [g []]. Qed.
Lemma goal_step_move e s s' m :
  goal_step e s = Some (s', m) →
  match goal s with
  | Some rt => ∃ rt', goal s' = Some rt' ∧ move (phase s) e (state rt) (state rt') m
  | None => m = None ∧ (goal s' = None ∨ ∃ now g rt', e = InstallGoal now g ∧ goal s' = Some rt' ∧ state rt' = g)
  end.
Proof.
  destruct (goal s) as [rt|] eqn:Hg.
  - destruct s as [g h pr pa aw co ph]. cbn in Hg. subst g.
    destruct e, ph; intros Hs; cbn -[end_decide end_begin end_finish] in Hs; try discriminate Hs;
      try (injection Hs as <- <-; cbn; eexists; (split; [reflexivity|]); cbn; eauto 10; fail).
    + injection Hs as <- <-. exists rt. rewrite end_decide_goal. done.
    + injection Hs as <- <-. eexists. rewrite (end_begin_goal _ _ _ _ _ rt) by done. cbn. eauto.
    + injection Hs as Hs.
      match type of Hs with end_finish _ ?o _ ?s = _ =>
        pose proof (end_finish_goal clock o gate s rt eq_refl) as [Hg Hm] end.
      rewrite Hs in Hg, Hm. cbn in Hg, Hm. eexists. split; [exact Hg|]. do 5 eexists. split; [reflexivity|].
      rewrite Hm. apply surjective_pairing.
  - destruct s as [g h pr pa aw co ph]. cbn in Hg. subst g.
    destruct e, ph; intros Hs; cbn -[end_decide end_begin end_finish] in Hs; try discriminate Hs; injection Hs as <- <-; try (by split; [|left]).
    all: try (split; [done|]; right; do 3 eexists; split_and!; [reflexivity..|]; by destruct pr).
    split; [done|]. left. apply end_decide_goal.
Qed.
Lemma goal_run_cons e es s s' ms :
  goal_run (e :: es) s = Some (s', ms) ↔
  ∃ s1 m ms', goal_step e s = Some (s1, m) ∧ goal_run es s1 = Some (s', ms') ∧ ms = option_list m ++ ms'.
Proof.
  cbn [GoalEngine.goal_run]. destruct (goal_step e s) as [[s1 m]|]; cbn; [|naive_solver].
  destruct (goal_run es s1) as [[s2 ms']|] eqn:E; cbn; [|naive_solver]. split; [|naive_solver].
  intros [= <- <-]. eauto 10.
Qed.
(** Rule induction: a relation kept by every step holds of every run *)
Lemma goal_run_ind (P : GoalSession → Prop) (ok : GoalEvent → Prop) es s s' ms :
  (∀ e s1 s2 m, ok e → P s1 → goal_step e s1 = Some (s2, m) → P s2) →
  Forall ok es → P s → goal_run es s = Some (s', ms) → P s'.
Proof.
  intros Hstep. revert s ms. induction es as [|e es IH]; intros s ms Hok Hs.
  - by intros [= <- <-].
  - rewrite goal_run_cons. intros (s1 & m & ms' & H1 & H2 & ->). apply Forall_cons in Hok as [??]. eauto.
Qed.

(** ** Stopped goals stay stopped *)

Definition is_terminal (st : GoalStatus) : bool :=
  match st with Complete | Blocked | Cleared => true | _ => false end.
(** Only the host brings a goal back: by a new goal, or a paused one by [resume]. *)
Definition reopens (st : GoalStatus) (e : GoalEvent) : bool :=
  match e with
  | HostRestore _ | InstallGoal _ _ => true
  | HostResume => negb (is_terminal st)
  | _ => false
  end.
Definition stopped (st : GoalStatus) : Prop := is_terminal st = true ∨ st = Paused.
Lemma stopped_not_running g : stopped (status g) → should_continue g = false.
Proof. unfold stopped, should_continue. by destruct (status g), (_ <? _)%N; intros []. Qed.
Lemma update_goal_stopped input g : stopped (status g) → (update_goal_execute (Num := Num) finish input g).1 = g.
Proof.
  intros Hs. unfold update_goal_execute. destruct (claimed_status input); [|done].
  rewrite bool_decide_false; [done|]. intros E. rewrite E in Hs. by destruct Hs.
Qed.
Lemma evaluate_begin_stopped now p g : stopped (status g) → (evaluate_begin now p g).1 = g.
Proof.
  intros Hs. unfold evaluate_begin. rewrite bool_decide_false; [by rewrite stopped_not_running|].
  intros E. rewrite E in Hs. by destruct Hs.
Qed.
Lemma move_stopped ph e g g' m :
  move ph e g g' m → stopped (status g) → reopens (status g) e = false →
  m = None ∧ (status g' = status g ∨ status g' = Cleared).
Proof.
  intros Hm Hs Hr. destruct e; cbn in Hm, Hr; try discriminate Hr;
    try (destruct Hm as [-> ->]; split; [done|]; auto; fail).
  - destruct Hm as [-> ->]. split; [done|]. left. unfold pause. by destruct (status g) eqn:E, Hs as [|]; cbn in *.
  - destruct Hm as [-> ->]. split; [done|]. left. unfold resume. by destruct (status g) eqn:E, Hs as [|]; cbn in *.
  - destruct Hm as [-> ->]. split; [done|]. left. unfold add_subgoal. by destruct (str_is_blank txt).
  - destruct Hm as [-> ->]. split; [done|]. left. unfold remove_subgoal. by destruct (_ || _).
  - destruct Hm as [-> ->]. split; [done|]. left. unfold wait_on_pid. destruct (_ =? _)%N; [done|].
    by destruct (status g) eqn:E, Hs as [|]; cbn in *.
  - destruct Hm as [-> ->]. split; [done|]. left. unfold unwait. by destruct (status g) eqn:E, Hs as [|]; cbn in *.
  - destruct Hm as [-> (? & ? & ? & ? & ->)]. auto.
  - destruct Hm as [-> ->]. by rewrite update_goal_stopped by done; auto.
  - destruct Hm as [-> (? & ? & ? & ? & ->)]. auto.
  - destruct Hm as [-> [p ->]]. by rewrite evaluate_begin_stopped by done; auto.
  - destruct Hm as (? & ? & ? & ? & ? & _ & Hm). rewrite evaluate_finish_stopped in Hm by by apply stopped_not_running.
    injection Hm as <- <-. auto.
Qed.
Lemma reopens_cleared st e : reopens st e = false → reopens Cleared e = false.
Proof. by destruct e. Qed.
(** ** The budget of continuations *)

Definition replaces_goal (e : GoalEvent) : bool :=
  match e with HostRestore _ | InstallGoal _ _ => true | _ => false end.
Definition is_resume (e : GoalEvent) : bool := match e with HostResume => true | _ => false end.
Definition gives_verification (e : GoalEvent) : bool :=
  match e with HostSetContract c => negb (str_is_blank (verification c)) | _ => false end.
Definition cap_of (verified : bool) (max : N) : N := if verified then max else N.min max FREEFORM_AUTO_CONTINUE_CAP.
Lemma update_goal_frame input g :
  let g' := (update_goal_execute (Num := Num) finish input g).1 in
  same_goal g g' ∧ auto_continuations g' = auto_continuations g ∧
  (status g' = status g ∨
   status g = Active ∧ (status g' = Blocked ∨ status g' = Complete ∧ satisfies_complete_gate g = true)).
Proof.
  cbn. unfold update_goal_execute, record_evidence. destruct (claimed_status input); [|by split; [|auto]].
  destruct (bool_decide (status g = Active)) eqn:Ha; [|by split; [|auto]]. apply bool_decide_eq_true in Ha. cbn [negb].
  destruct (bool_decide (_ = Complete)).
  - destruct (satisfies_complete_gate g) eqn:Hg; cbn; [|by split; [|auto]]. split; [done|]. auto 8.
  - destruct (bool_decide _), (_ <? _)%N; cbn; (split; [done|]); cbn; auto.
Qed.
Lemma has_verification_same g g' : contract g' = contract g → has_verification g' = has_verification g.
Proof. unfold has_verification. by intros ->. Qed.
Lemma move_cap ph e g g' m :
  move ph e g g' m → replaces_goal e = false →
  max_auto_continuations g' = max_auto_continuations g ∧
  (has_verification g' = true → has_verification g = true ∨ gives_verification e = true).
Proof.
  intros Hm Hr.
  assert (Hsame : max_auto_continuations g' = max_auto_continuations g ∧ contract g' = contract g →
    max_auto_continuations g' = max_auto_continuations g ∧
    (has_verification g' = true → has_verification g = true ∨ gives_verification e = true)).
  { intros [? ?%has_verification_same]. split; [done|]. left. congruence. }
  destruct e; cbn in Hm, Hr; try discriminate Hr; try (destruct Hm as [-> ->]; apply Hsame; by host_op).
  - destruct Hm as [-> ->]. split; [done|]. intros Hv. discriminate Hv.
  - destruct Hm as [-> ->]. split; [done|]. intros Hv. right. unfold has_verification, set_contract in Hv.
    destruct (contract_is_empty c); [discriminate Hv|exact Hv].
  - destruct Hm as [-> (? & ? & ? & ? & ->)]. by apply Hsame.
  - destruct Hm as [-> ->]. apply Hsame. by destruct (update_goal_frame input g) as [(? & ? & ? & _) _].
  - destruct Hm as [-> (? & ? & ? & ? & ->)]. by apply Hsame.
  - destruct Hm as [-> [p ->]]. apply Hsame. by destruct (evaluate_begin_effect epoch p g) as [(? & ? & ? & _) _].
  - destruct Hm as (? & gate & ? & ? & o & _ & Hm). apply Hsame. destruct (should_continue g) eqn:Hsc.
    + pose proof (evaluate_finish_effect (Num := Num) clock o gate g Hsc) as [(? & ? & ? & _) _]. by rewrite Hm in *.
    + rewrite evaluate_finish_stopped in Hm by done. by injection Hm as <- <-.
Qed.
Lemma move_counts ph e g g' m :
  move ph e g g' m → replaces_goal e = false →
  (auto_continuations g' = (auto_continuations g + N.of_nat (length (option_list m)))%N ∨
   is_resume e = true ∧ auto_continuations g' = 0%N ∧ m = None) ∧
  (is_Some m → (auto_continuations g < effective_cap g)%N).
Proof.
  intros Hm Hr.
  assert (Hsame : m = None ∧ auto_continuations g' = auto_continuations g →
    (auto_continuations g' = (auto_continuations g + N.of_nat (length (option_list m)))%N ∨
     is_resume e = true ∧ auto_continuations g' = 0%N ∧ m = None) ∧
    (is_Some m → (auto_continuations g < effective_cap g)%N)).
  { intros [-> ->]. cbn. rewrite N.add_0_r. split; [by left|by intros []]. }
  destruct e; cbn in Hm, Hr; try discriminate Hr; try (destruct Hm as [-> ->]; apply Hsame; by host_op).
  - destruct Hm as [-> ->]. split; [|by intros []]. cbn. rewrite N.add_0_r. unfold resume. case_match; cbn; auto.
  - destruct Hm as [-> (? & ? & ? & ? & ->)]. by apply Hsame.
  - destruct Hm as [-> ->]. apply Hsame. by destruct (update_goal_frame input g) as (_ & ? & _).
  - destruct Hm as [-> (? & ? & ? & ? & ->)]. by apply Hsame.
  - destruct Hm as [-> [p ->]]. apply Hsame. by destruct (evaluate_begin_effect epoch p g) as (_ & ? & _).
  - destruct Hm as (? & gate & ? & ? & o & _ & Hm). destruct (should_continue g) eqn:Hsc.
    + pose proof (evaluate_finish_effect (Num := Num) clock o gate g Hsc) as [_ He].
      apply should_continue_active in Hsc as [_ Hlt]. rewrite Hm in He. cbn in He.
      destruct m; cbn; [|by rewrite N.add_0_r; split; [left; apply He|intros []]]. split; [left; by apply He|done].
    + rewrite evaluate_finish_stopped in Hm by done. injection Hm as <- <-. by apply Hsame.
Qed.
(** The continuations sent so far, against the resets of the counter *)
Definition may_be_verified (es : list GoalEvent) (g : GoalState) : bool :=
  has_verification g || existsb gives_verification es.
Definition resumes (es : list GoalEvent) : N := N.of_nat (length (filter (λ e, is_resume e = true) es)).
Lemma effective_cap_le verified g : (has_verification g = true → verified = true) →
  (effective_cap g <= cap_of verified (max_auto_continuations g))%N.
Proof. unfold effective_cap, cap_of. destruct (has_verification g), verified; intros Hv; lia. Qed.
Lemma run_budget verified max es s s' ms rt :
  goal s = Some rt → max_auto_continuations (state rt) = max →
  (may_be_verified es (state rt) = true → verified = true) →
  (auto_continuations (state rt) <= cap_of verified max)%N →
  Forall (λ e, replaces_goal e = false) es → goal_run es s = Some (s', ms) →
  (auto_continuations (state rt) + N.of_nat (length ms) <= (1 + resumes es) * cap_of verified max)%N.
Proof.
  revert s ms rt. induction es as [|e es IH]; intros s ms rt Hg Hmax Hv Hle Hok.
  - intros [= <- <-]. cbn. lia.
  - rewrite goal_run_cons. intros (s1 & m & ms' & H1 & H2 & ->). apply Forall_cons in Hok as [He Hok].
    apply goal_step_move in H1. rewrite Hg in H1. destruct H1 as (rt1 & Hg1 & Hm).
    destruct (move_cap _ _ _ _ _ Hm He) as [Hmax1 Hv1]. destruct (move_counts _ _ _ _ _ Hm He) as [Hc Hlt].
    assert (Hcap : (effective_cap (state rt) <= cap_of verified max)%N).
    { rewrite <- Hmax. apply effective_cap_le. intros E. apply Hv. unfold may_be_verified. by rewrite E. }
    assert (Hstep : (auto_continuations (state rt1) <= cap_of verified max)%N).
    { destruct Hc as [Hc|(_ & Hc & _)]; rewrite Hc; [|lia]. destruct m; cbn; [|lia]. specialize (Hlt (mk_is_Some _ _ eq_refl)). lia. }
    specialize (IH s1 ms' rt1 Hg1). rewrite Hmax1 in IH. specialize (IH Hmax).
    assert (Hv' : may_be_verified es (state rt1) = true → verified = true).
    { intros E. apply Hv. unfold may_be_verified in *. cbn. apply orb_true_iff in E as [E|E]; [|rewrite E, !orb_true_r; done].
      destruct (Hv1 E) as [->| ->]; [done|]. by rewrite orb_true_r. }
    specialize (IH Hv' Hstep Hok H2). rewrite length_app, Nat2N.inj_add.
    unfold resumes in *. rewrite filter_cons. destruct Hc as [Hc|(Hr & Hc & ->)].
    + destruct (decide _); cbn [length]; lia.
    + rewrite decide_True by done. cbn [length]. rewrite Hc in IH.
      rewrite Nat2N.inj_succ, <- N.add_1_l, N.mul_add_distr_r, N.mul_1_l. change (length (option_list None)) with 0. lia.
Qed.
End session.
