(* ===== verification/GoalEvidence.v ===== *)
(** Sessions without mechanical evidence: a goal does not complete in them, and it
    continues at most once per request of the user.  The last part treats one judgement and one natural end. *)
From S2P Require Import Prelude Bytes Text Json CodingText Conversation LlmStream GoalState GoalPrompts GoalRuntime.
From S2P Require Import GoalJudge Horizon GoalEngine GoalSafety.

Section session.
Context {Num : Type} (finish : bytes → N) (from_str : bytes → option (Value Num)) (as_i64 : Num → option Z).
Context (debug_str : bytes → bytes).
Abbreviation GoalEvent := (GoalEvent (Num := Num)).
Abbreviation goal_step := (goal_step finish from_str as_i64 debug_str).
Abbreviation goal_run := (goal_run finish from_str as_i64 debug_str).
Abbreviation move := (move finish (Num := Num)).

(** ** Events without evidence

    A goal with no evidence of its own; when [strict], its contract names a
    verification, and then a mutation alone proves nothing. *)
Definition unproven (strict : bool) (g : GoalState) : Prop :=
  (strict = false → last_mutation g = false) ∧ last_verify_ok g = false ∧ last_workspace_changed g = false ∧
  status g ≠ Complete ∧ (strict = true → has_verification g = true ∨ status g = Cleared).
Definition no_evidence (strict : bool) (t : ToolObservation) : Prop :=
  is_verification t = false ∧ (strict = false → is_mutation t = false).
(** [F] is the fingerprint of the workspace, the same at every end of a turn. *)
Definition idle_event (strict : bool) (F : option N) (e : GoalEvent) : Prop :=
  match e with
  | ToolTurn calls results => Forall (no_evidence strict) (tool_observations calls results)
  | NaturalEnd _ _ cwd => workspace_fingerprint finish cwd = F
  | _ => True
  end.
Definition no_proof (strict : bool) (e : GoalEvent) : Prop :=
  match e with
  | HostRestore g | InstallGoal _ g => unproven strict g
  | HostSetContract c => strict = true → str_is_blank (verification c) = false
  | _ => True
  end.
Lemma unproven_gate strict g : unproven strict g → status g = Active → satisfies_complete_gate g = false.
Proof.
  intros (Hm & Hv & Hw & _ & Hs) Ha. unfold satisfies_complete_gate. rewrite Hv, Hw.
  destruct (has_verification g) eqn:E; [done|]. cbn. destruct strict.
  - destruct (Hs eq_refl); congruence.
  - by rewrite Hm.
Qed.
Lemma set_contract_verified c g : str_is_blank (verification c) = false → has_verification (set_contract c g) = true.
Proof.
  intros Hc. unfold has_verification, set_contract.
  replace (contract_is_empty c) with false; [cbn; by rewrite Hc|].
  symmetry. unfold contract_is_empty, labelled_fields. cbn. rewrite Hc. apply andb_false_r.
Qed.
Definition same_evidence (g g' : GoalState) : Prop :=
  contract g' = contract g ∧ last_mutation g' = last_mutation g ∧ last_verify_ok g' = last_verify_ok g ∧
  last_workspace_changed g' = last_workspace_changed g.
Lemma same_goal_evidence g g' : same_goal g g' → same_evidence g g'.
Proof. intros (_ & _ & ? & _ & ? & ? & ?). by split_and!. Qed.
(** An operation that keeps the evidence and the contract *)
Lemma unproven_frame strict g g' :
  unproven strict g → same_evidence g g' → status g' ≠ Complete → (status g = Cleared → status g' = Cleared) →
  unproven strict g'.
Proof.
  intros (Hm & Hv & Hw & _ & Hs) (Hc & Em & Ev & Ew) Hst Hcl. unfold unproven.
  rewrite Em, Ev, Ew, (has_verification_same g g' Hc). split_and!; try done. intros ->. naive_solver.
Qed.
Definition gate_observed (p : Phase) : Prop :=
  match p with Gated _ gate | Judging _ gate _ _ => observed gate = true | _ => True end.
Lemma update_goal_unproven strict input g :
  unproven strict g → unproven strict (update_goal_execute (Num := Num) finish input g).1.
Proof.
  intros Hg. destruct (update_goal_frame finish input g) as (Hsame & _ & Hst). eapply unproven_frame; [done|by apply same_goal_evidence|..].
  - destruct Hst as [->|[Ha [->|[-> Hs]]]]; [apply Hg|done|]. rewrite (unproven_gate _ _ Hg Ha) in Hs. done.
  - intros Hcl. destruct Hst as [->|[Ha _]]; congruence.
Qed.
Lemma move_unproven strict ph e g g' m :
  move ph e g g' m → no_proof strict e → gate_observed ph →
  match e with ToolTurn _ _ | NaturalEnd _ _ _ => False | _ => True end →
  unproven strict g → unproven strict g'.
Proof.
  intros Hm He Hp Hne Hg. pose proof Hg as (_ & _ & _ & Hst & _).
  destruct e; cbn in Hm, He, Hne; try done;
    try (destruct Hm as [-> ->]; first [done | eapply unproven_frame;
      [exact Hg|unfold same_evidence; host_op; by split_and!|host_op; congruence..]]; fail).
  - destruct Hm as [-> ->]. destruct Hg as (? & ? & ? & ? & ?). split_and!; [assumption..|done|]. intros _. by right.
  - destruct Hm as [-> ->]. destruct Hg as (? & ? & ? & ? & ?). split_and!; [assumption..|]. intros Hstr. left.
    by apply set_contract_verified, He.
  - destruct Hm as [-> ->]. by apply update_goal_unproven.
  - destruct Hm as [-> [p ->]]. destruct (evaluate_begin_effect epoch p g) as (Hs & _ & Hb & _).
    eapply unproven_frame; [exact Hg|by apply same_goal_evidence|..]; destruct Hb as [->|[? ->]]; congruence.
  - destruct Hm as (? & gate & ? & ? & o & -> & Hm). destruct (should_continue g) eqn:Hsc.
    + pose proof (evaluate_finish_effect (Num := Num) clock o gate g Hsc) as [Hs Heff].
      apply should_continue_active in Hsc as [Ha _]. rewrite Hm in Hs, Heff. cbn in Hs, Heff, Hp.
      eapply unproven_frame; [exact Hg|by apply same_goal_evidence|..|congruence].
      intros Hc. rewrite Hc in Heff. destruct m; [by destruct Heff as (_ & ? & _)|].
      destruct Heff as [_ [?|[?|[?|[_ Hgate]]]]]; try done. rewrite (unproven_gate _ _ Hg Ha) in Hgate. by specialize (Hgate Hp).
    + rewrite evaluate_finish_stopped in Hm by done. by injection Hm as <- <-.
Qed.

(** ** The ledger and the phase along a session *)

Definition ledger_after (e : GoalEvent) (l : ProgressLedger) : ProgressLedger :=
  match e with
  | UserRequest => ledger_on_user_request l
  | ToolTurn calls results => observe_tools (tool_observations calls results) l
  | NaturalEnd _ response cwd => consume_turn_scoped (ledger_observe_end_turn finish response cwd 0 l).1
  | _ => l
  end.
Lemma align_budget_ledger now max c auto h : ledger (align_budget now max c auto h) = ledger h.
Proof. unfold align_budget. by destruct (_ && _). Qed.
Lemma end_decide_ledger now response s : ledger (horizon (end_decide now response s)) = ledger (horizon s).
Proof.
  unfold end_decide. destruct (disables_goal_auto_continue s), (goal s) as [rt|]; try done.
  exact (align_budget_ledger now (max_auto_continuations (state rt)) (contract (state rt)) _ (horizon s)).
Qed.
Lemma end_begin_horizon epoch world response gate s : horizon (end_begin epoch world response gate s) = horizon s.
Proof. unfold end_begin. destruct (goal s); [|done]. by destruct (evaluate_begin _ _ _) as [? []]. Qed.
Lemma end_finish_ledger clock o gate s :
  ledger (horizon (end_finish (Num := Num) clock o gate s).1) = ledger (horizon s).
Proof. unfold end_finish. destruct (goal s); [|done]. by destruct (evaluate_finish _ _ _ _) as [? []]. Qed.
Lemma goal_step_ledger e s s' m :
  goal_step e s = Some (s', m) → ledger (horizon s') = ledger_after e (ledger (horizon s)).
Proof.
  destruct s as [g h pr pa aw co ph].
  destruct e, ph; intros Hs; cbn -[end_decide end_begin end_finish] in Hs; try discriminate Hs;
    injection Hs; try (intros <- <-); try (by destruct g).
  - apply end_decide_ledger.
  - by rewrite end_begin_horizon.
  - intros E. match type of E with end_finish ?k ?o ?gt ?s = _ => pose proof (end_finish_ledger k o gt s) as Hl end.
    by rewrite E in Hl.
Qed.
Lemma goal_step_gate e s s' m :
  goal_step e s = Some (s', m) → gate_observed (phase s) → gate_observed (phase s').
Proof.
  destruct s as [g h pr pa aw co ph].
  destruct e, ph; intros Hs Hp; cbn -[end_decide end_begin end_finish] in Hs; try discriminate Hs;
    injection Hs; try (intros <- <-); try (by destruct g).
  - unfold end_decide. destruct co, g; done.
  - unfold end_begin. destruct g as [rt|]; [|done]. cbn. by destruct (evaluate_begin _ _ _) as [? []].
  - unfold end_finish. destruct g as [rt|]; cbn; [|by intros [= <- _]].
    destruct (evaluate_finish _ _ _ _) as [? []]; by intros [= <- _].
Qed.

(** ** No completion without evidence *)

Definition unproven_ledger (strict : bool) (F : option N) (l : ProgressLedger) : Prop :=
  (strict = false → mutated l = false) ∧ verify_ok l = false ∧ workspace_changed l = false ∧
  (last_workspace_fp l = None ∨ last_workspace_fp l = F).
Lemma existsb_none {A} (f : A → bool) l : Forall (λ x, f x = false) l → existsb f l = false.
Proof. induction 1 as [|x l Hx _ IH]; [done|]. cbn. by rewrite Hx. Qed.
Lemma observe_tools_unproven strict F ts l :
  Forall (no_evidence strict) ts → unproven_ledger strict F l → unproven_ledger strict F (observe_tools ts l).
Proof.
  intros Ht (Hm & Hv & Hw & Hf). destruct ts as [|t ts]; [done|].
  set (ts' := t :: ts) in *. unfold observe_tools. subst ts'. cbn [mutated verify_ok workspace_changed last_workspace_fp].
  split_and!; cbn [mutated verify_ok workspace_changed last_workspace_fp]; try done.
  - intros Hs. rewrite Hm by done. apply existsb_none. eapply Forall_impl; [exact Ht|]. intros ? [_ Hno]. auto.
  - rewrite Hv. apply existsb_none. eapply Forall_impl; [exact Ht|]. by intros ? [? _].
Qed.
Lemma fp_unchanged F l cwd :
  last_workspace_fp l = None ∨ last_workspace_fp l = F → workspace_fingerprint finish cwd = F →
  (match last_workspace_fp l, workspace_fingerprint finish cwd with
   | Some prev, Some now => negb (prev =? now)%N
   | _, _ => false
   end) = false ∧
  (option_or (workspace_fingerprint finish cwd) (last_workspace_fp l) = None ∨
   option_or (workspace_fingerprint finish cwd) (last_workspace_fp l) = F).
Proof.
  intros Hl ->. destruct F as [f|], (last_workspace_fp l) as [p|]; cbn; try (by auto); destruct Hl as [Hl|Hl]; try discriminate Hl.
  injection Hl as ->. rewrite N.eqb_refl. auto.
Qed.
Lemma end_turn_unproven strict F response cwd l :
  workspace_fingerprint finish cwd = F → unproven_ledger strict F l →
  unproven_ledger strict F (ledger_observe_end_turn finish response cwd 0 l).1.
Proof.
  intros Hc (Hm & Hv & Hw & Hf). destruct (fp_unchanged F l cwd Hf Hc) as [Hno Hfp].
  unfold ledger_observe_end_turn. rewrite Hno. split_and!; cbn [fst mutated verify_ok workspace_changed last_workspace_fp]; try done.
  by rewrite Hw.
Qed.
Definition unproven_session (strict : bool) (F : option N) (s : GoalSession) : Prop :=
  unproven_ledger strict F (ledger (horizon s)) ∧ gate_observed (phase s) ∧
  ∀ rt, goal s = Some rt → unproven strict (state rt).
Lemma sync_unproven strict F s h :
  unproven_ledger strict F (ledger h) → (∀ rt, goal s = Some rt → unproven strict (state rt)) →
  ∀ rt, goal (sync_goal_progress (with_horizon h s)) = Some rt → unproven strict (state rt).
Proof.
  intros (Hm & Hv & Hw & _) Hg rt. unfold sync_goal_progress, on_goal. cbn. intros (rt0 & Hs & ->)%fmap_Some.
  destruct (Hg rt0 Hs) as (_ & _ & _ & Hst & Hstr). by split_and!.
Qed.
Lemma goal_step_unproven strict F e s s' m :
  idle_event strict F e → no_proof strict e → goal_step e s = Some (s', m) →
  unproven_session strict F s → unproven_session strict F s'.
Proof.
  intros Hi Hp Hstep (Hl & Hph & Hg). split_and!.
  - rewrite (goal_step_ledger _ _ _ _ Hstep). destruct e; try done.
    + destruct Hl as (? & ? & ? & ?). by split_and!.
    + by apply observe_tools_unproven.
    + pose proof (end_turn_unproven strict F response cwd _ Hi Hl) as (? & ? & ? & ?). by split_and!.
  - by eapply goal_step_gate.
  - intros rt' Hg'. destruct e eqn:He.
    all: try (pose proof (goal_step_move _ _ _ _ _ _ _ _ Hstep) as Hm; destruct (goal s) as [rt|] eqn:Hgs;
      [destruct Hm as (rt1 & E & Hm); rewrite E in Hg'; injection Hg' as <-;
       eapply move_unproven; [exact Hm|exact Hp|exact Hph|exact I|by apply Hg]
      |destruct Hm as [_ [E|(? & ? & ? & Ei & E & Es)]]; [congruence|]; rewrite E in Hg'; injection Hg' as <-;
       simplify_eq; first [exact Hp | discriminate Ei]]; fail).
    + subst e. destruct s as [g h pr pa aw co ph]. destruct ph; try discriminate Hstep.
      injection Hstep as <- <-. revert rt' Hg'. eapply (sync_unproven strict F); [|exact Hg].
      by apply observe_tools_unproven.
    + subst e. destruct s as [g h pr pa aw co ph]. destruct ph; try discriminate Hstep.
      injection Hstep as <- <-. revert rt' Hg'. eapply (sync_unproven strict F); [|exact Hg].
      by apply end_turn_unproven.
Qed.

(** ** One wasted round *)

(** The continuations an idle session may still send before the next request *)
Definition credit (s : GoalSession) : nat :=
  match phase s with
  | Ready => if (ledger_streak (ledger (horizon s)) =? 0)%N then 1 else 0
  | Observed _ => if (ledger_streak (ledger (horizon s)) <=? 1)%N then 1 else 0
  | Gated _ gate | Judging _ gate _ _ => if allow_continue gate then 1 else 0
  end.
Definition idle_session (F : option N) (s : GoalSession) : Prop :=
  unproven_ledger false F (ledger (horizon s)) ∧
  (phase s ≠ Ready → (1 <= ledger_streak (ledger (horizon s)))%N).
Lemma idle_end_streak F response cwd l :
  workspace_fingerprint finish cwd = F → unproven_ledger false F l →
  ledger_streak (ledger_observe_end_turn finish response cwd 0 l).1 = u64_sat_add (ledger_streak l) 1.
Proof.
  intros Hc (Hm & Hv & Hw & Hf). destruct (fp_unchanged F l cwd Hf Hc) as [Hno _].
  unfold ledger_observe_end_turn. rewrite Hno, Hm, Hv by done. replace (last_pending_steps l <? 0)%N with false; [done|].
  symmetry. apply N.ltb_ge. lia.
Qed.
Lemma decide_streak now pa aw h : may_continue (decide_continue now pa aw h) = true → (ledger_streak (ledger h) < 2)%N.
Proof.
  unfold decide_continue. repeat case_match; try done. cbn. intros _. by apply N.leb_gt.
Qed.
Lemma finish_message clock o gate s m :
  (end_finish (Num := Num) clock o gate s).2 = Some m → allow_continue gate = true.
Proof.
  unfold end_finish. destruct (goal s) as [rt|]; [|done]. destruct (should_continue (state rt)) eqn:Hsc.
  - pose proof (evaluate_finish_effect (Num := Num) clock o gate _ Hsc) as [_ He].
    destruct (evaluate_finish _ _ _ _) as [? [m'|]]; [|done]. by destruct He.
  - by rewrite evaluate_finish_stopped.
Qed.
Lemma observe_tools_streak ts l : ledger_streak (observe_tools ts l) = ledger_streak l.
Proof. by destruct ts. Qed.
Definition is_request (e : GoalEvent) : bool := match e with UserRequest => true | _ => false end.
Lemma goal_step_phase e s s' m :
  goal_step e s = Some (s', m) →
  match phase s with
  | Ready =>
      m = None ∧ match e with NaturalEnd _ response _ => phase s' = Observed response | _ => phase s' = Ready end
  | Observed response =>
      m = None ∧ (phase s' = Observed response ∨ phase s' = Ready ∨ ∃ gate, phase s' = Gated response gate ∧
        (allow_continue gate = true → (ledger_streak (ledger (horizon s)) < 2)%N))
  | Gated response gate =>
      m = None ∧ (phase s' = Gated response gate ∨ phase s' = Ready ∨ ∃ req l, phase s' = Judging response gate req l)
  | Judging response gate req l =>
      m = None ∧ phase s' = Judging response gate req l ∨
      phase s' = Ready ∧ (is_Some m → allow_continue gate = true)
  end.
Proof.
  destruct s as [g h pr pa aw co ph].
  destruct e, ph; intros Hs; cbn -[end_decide end_begin end_finish] in Hs; try discriminate Hs;
    injection Hs; try (intros <- <-); try solve [destruct g; cbn; auto]; cbn [phase horizon].
  - split; [done|]. unfold end_decide. cbn [disables_goal_auto_continue goal]. destruct co, g as [rt|]; cbn; auto.
    right; right. eexists. split; [reflexivity|]. cbn. intros Hd%decide_streak.
    by rewrite align_budget_ledger in Hd.
  - split; [done|]. unfold end_begin. destruct g as [rt|]; cbn; [|by auto].
    destruct (evaluate_begin _ _ _) as [? []]; cbn; eauto.
  - intros E. right. split.
    + revert E. unfold end_finish. destruct g as [rt|]; cbn; [|by intros [= <- _]].
      destruct (evaluate_finish _ _ _ _) as [? []]; by intros [= <- _].
    + intros [m' ->]. match type of E with end_finish ?k ?o ?gt ?s = _ => eapply (finish_message k o gt s m') end.
      by rewrite E.
Qed.
Lemma goal_step_idle F e s s' m :
  idle_event false F e → goal_step e s = Some (s', m) → idle_session F s →
  idle_session F s' ∧ credit s' + length (option_list m) ≤ credit s + (if is_request e then 1 else 0).
Proof.
  intros Hi Hstep [Hl Hph]. pose proof (goal_step_ledger _ _ _ _ Hstep) as Hls.
  pose proof (goal_step_phase _ _ _ _ Hstep) as Hp.
  assert (Hl' : unproven_ledger false F (ledger (horizon s'))).
  { rewrite Hls. destruct e; try done.
    - destruct Hl as (? & ? & ? & ?). by split_and!.
    - by apply observe_tools_unproven.
    - pose proof (end_turn_unproven false F response cwd _ Hi Hl) as (? & ? & ? & ?). by split_and!. }
  cut ((phase s' ≠ Ready → (1 <= ledger_streak (ledger (horizon s')))%N) ∧
       credit s' + length (option_list m) ≤ credit s + (if is_request e then 1 else 0)); [by intros []|].
  clear Hl'. unfold credit.
  assert (Hk : phase s ≠ Ready → ledger_streak (ledger (horizon s')) = ledger_streak (ledger (horizon s))).
  { intros Hnr. rewrite Hls. destruct s as [g h pr pa aw co ph]. by destruct e, ph. }
  destruct (phase s) as [|r|r gate|r gate req l] eqn:Eph.
  - destruct Hp as [-> Hp]. change (length (option_list None)) with 0. destruct e eqn:Ee; rewrite Hp, Hls; cbn [ledger_after is_request];
      try (split; [done|]; lia).
    + split; [done|]. cbn. destruct (_ =? _)%N; cbn; lia.
    + split; [done|]. rewrite observe_tools_streak. cbn. lia.
    + cbn [consume_turn_scoped ledger_streak]. rewrite (idle_end_streak F) by done. unfold u64_sat_add, u64_max.
      split; [lia|]. destruct (_ <=? 1)%N eqn:E1; [|lia]. apply N.leb_le in E1.
      replace (ledger_streak (ledger (horizon s)) =? 0)%N with true; [lia|]. symmetry. apply N.eqb_eq. lia.
  - specialize (Hk ltac:(done)). specialize (Hph ltac:(done)). destruct Hp as [-> Hp]. change (length (option_list None)) with 0.
    rewrite Hk. split; [done|]. destruct Hp as [->|[->|(gate & -> & Hgate)]].
    + lia.
    + destruct (_ =? 0)%N eqn:E0; [apply N.eqb_eq in E0; lia|lia].
    + destruct (allow_continue gate); [|lia]. specialize (Hgate eq_refl).
      replace (_ <=? 1)%N with true; [lia|]. symmetry. apply N.leb_le. lia.
  - specialize (Hk ltac:(done)). specialize (Hph ltac:(done)). destruct Hp as [-> Hp]. change (length (option_list None)) with 0.
    rewrite Hk. split; [done|]. destruct Hp as [->|[->|(req & l & ->)]]; [lia| |lia].
    destruct (_ =? 0)%N eqn:E0; [apply N.eqb_eq in E0; lia|lia].
  - specialize (Hk ltac:(done)). specialize (Hph ltac:(done)). rewrite Hk. split; [done|].
    destruct Hp as [[-> ->]|[-> Hp]]; [change (length (option_list None)) with 0; lia|].
    destruct (_ =? 0)%N eqn:E0; [apply N.eqb_eq in E0; lia|].
    destruct m as [m|]; [|change (length (option_list None)) with 0; lia].
    rewrite Hp by eauto. change (length (option_list (Some m))) with 1. lia.
Qed.
Definition requests (es : list GoalEvent) : nat := length (filter (λ e, is_request e = true) es).
Lemma idle_run F es s s' ms :
  Forall (idle_event false F) es → goal_run es s = Some (s', ms) → idle_session F s →
  credit s' + length ms ≤ credit s + requests es.
Proof.
  revert s ms. induction es as [|e es IH]; intros s ms Hok.
  - intros [= <- <-] _. cbn. lia.
  - rewrite goal_run_cons. intros (s1 & m & ms' & H1 & H2 & ->) Hs. apply Forall_cons in Hok as [He Hok].
    destruct (goal_step_idle F e s s1 m He H1 Hs) as [Hs1 Hc]. specialize (IH s1 ms' Hok H2 Hs1).
    rewrite length_app. unfold requests in *. rewrite filter_cons.
    destruct (is_request e); [rewrite decide_True by done|rewrite decide_False by done]; cbn [length]; lia.
Qed.
End session.

Section judge.
Context {Num : Type} (from_str : bytes → option (Value Num)) (as_i64 : Num → option Z) (debug_str : bytes → bytes).
Abbreviation judge_goal := (judge_goal from_str as_i64 debug_str).

(** ** The reply *)

Definition usable_directive (d : WaitDirective) : Prop :=
  match d with Seconds secs => (0 < secs)%N | Pid target => (target < 4294967296)%N | Session target => target ≠ [] end.
Lemma first_positive_int_pos (data : Value Num) keys n : first_positive_int as_i64 data keys = Some n → (0 < n)%N.
Proof.
  assert (Hz : ∀ z, (if (0 <? z)%Z then Some (Z.to_N z) else first_positive_int as_i64 data []) = Some n → (0 < n)%N).
  { intros z. destruct (0 <? z)%Z eqn:E; [|done]. intros [= <-]. apply Z.ltb_lt in E. lia. }
  induction keys as [|k keys IH]; [done|]. cbn. destruct (get (as_bytes k) data) as [[]|]; try exact IH.
  - destruct (as_i64 number) as [z|]; [|exact IH]. specialize (Hz z). by destruct (0 <? z)%Z; [|].
  - destruct (str_parse_i64 _) as [z|]; [|exact IH]. specialize (Hz z). by destruct (0 <? z)%Z; [|].
Qed.
Lemma reply_directive_usable (data : Value Num) d : reply_directive as_i64 data = Some d → usable_directive d.
Proof.
  unfold reply_directive, trimmed_str. destruct (bytes_trim <$> _) as [[|b l]|].
  2: by intros [= <-].
  all: destruct (first_positive_int as_i64 data _) as [n|] eqn:E;
    [intros [= <-]; cbn; apply N.mod_lt; done|
     intros (secs & Hs & ->)%fmap_Some; by eapply first_positive_int_pos].
Qed.
(** What a reply says when it is read *)
Definition says_done (raw : bytes) : Prop :=
  ∃ data, str_is_blank raw = false ∧ extract_json_object from_str raw = Some data ∧
          reply_verdict as_i64 data = Done.
Lemma parse_judge_response_cases raw v reply failed d :
  parse_judge_response from_str as_i64 raw = (v, reply, failed, d) →
  (v = Done ↔ says_done raw) ∧ (v = Wait ↔ is_Some d) ∧ (∀ w, d = Some w → usable_directive w) ∧
  v ≠ Skipped ∧ (failed = true → v = Continue).
Proof.
  unfold parse_judge_response, says_done. destruct (str_is_blank raw) eqn:Hb.
  { intros [= <- <- <- <-]. split_and!; naive_solver. }
  destruct (extract_json_object from_str raw) as [data|] eqn:Hx.
  2: { intros [= <- <- <- <-]. split_and!; naive_solver. }
  assert (Hns : reply_verdict as_i64 data ≠ Skipped).
  { unfold reply_verdict. by repeat case_match. }
  case_bool_decide as Hw; cbn [negb].
  - destruct (reply_directive as_i64 data) as [w|] eqn:Hd; intros [= <- <- <- <-].
    + apply reply_directive_usable in Hd. split_and!; [split; [done|intros (? & _ & [= <-] & ?); congruence]|naive_solver..].
    + split_and!; [split; [done|intros (? & _ & [= <-] & ?); congruence]|naive_solver..].
  - intros [= <- <- <- <-]. split_and!; naive_solver.
Qed.

(** ** One evaluation of the judge *)

Definition worth_asking (req : JudgeRequest) (last_response : bytes) : Prop :=
  str_is_blank (ask_objective req) = false ∧ str_is_blank last_response = false.
Lemma judge_goal_cases now_text req processes last_response complete :
  let o := judge_goal now_text req processes last_response complete in
  let answer := complete JUDGE_SYSTEM_PROMPT
    (render_judge_user_prompt debug_str now_text (ask_objective req) (ask_subgoals req) (ask_contract req) processes
       last_response) in
  (verdict o = Done ↔ worth_asking req last_response ∧ ∃ raw, answer = Ok raw ∧ says_done raw) ∧
  (verdict o = Wait ↔ is_Some (wait_directive o)) ∧ (∀ d, wait_directive o = Some d → usable_directive d) ∧
  (transport_failed o = true ↔ worth_asking req last_response ∧ is_ok answer = false) ∧
  (parse_failed o = true → verdict o = Continue) ∧ (transport_failed o = true → verdict o = Continue).
Proof.
  cbn zeta. unfold GoalJudge.judge_goal, worth_asking.
  destruct (str_is_blank (ask_objective req)); [cbn; split_and!; naive_solver|].
  destruct (str_is_blank last_response); [cbn; split_and!; naive_solver|].
  destruct (complete _ _) as [raw|e] eqn:Ec; [|cbn; split_and!; naive_solver].
  destruct (parse_judge_response from_str as_i64 raw) as [[[v reply] failed] d] eqn:Ep. cbn.
  destruct (parse_judge_response_cases _ _ _ _ _ Ep) as (Hd & Hw & Hu & Hs & Hf). split_and!; naive_solver.
Qed.
End judge.

(** ** When a goal continues *)

Section natural_end.
Context {Num : Type} (from_str : bytes → option (Value Num)) (as_i64 : Num → option Z) (debug_str : bytes → bytes).

(** The verdict still asks for more work, for a goal with or without evidence. *)
Definition wants_more (g : GoalState) (o : JudgeOutcome) : Prop :=
  parse_failed o = false ∧ transport_failed o = false ∧ verdict o ≠ Wait ∧
  (verdict o = Done → satisfies_complete_gate g = false).
(** A usable verdict resets both failure counters, so the breakers behind it stay open. *)
Lemma evaluate_verdict_live clock v reply d gate (g : GoalState) :
  consecutive_parse_failures g = 0%N → consecutive_transport_failures g = 0%N →
  evaluate_verdict (Num := Num) clock v reply d gate g =
    match v, d with
    | Wait, Some d => (park (wait_at clock) d reply g, None)
    | _, _ => continue_goal clock gate g
    end.
Proof. intros Hp Ht. unfold evaluate_verdict. by rewrite Hp, Ht. Qed.
Lemma continue_goal_some clock gate (g : GoalState) :
  is_Some (continue_goal (Num := Num) clock gate g).2 ↔ allow_continue gate = true.
Proof. unfold continue_goal. by destruct (allow_continue gate); cbn; split. Qed.
Lemma evaluate_finish_continues clock o gate g :
  observed gate = true → (verdict o = Wait ↔ is_Some (wait_directive o)) →
  is_Some (evaluate_finish (Num := Num) clock o gate g).2 ↔
  should_continue g = true ∧ allow_continue gate = true ∧ wants_more g o.
Proof.
  intros Ho Hd. unfold evaluate_finish, wants_more. destruct (should_continue g); cbn [negb]; [|split; [by intros []|naive_solver]].
  destruct (parse_failed o) eqn:Hp; [cbn; split; [by intros []|naive_solver]|].
  destruct (transport_failed o) eqn:Ht; [cbn; split; [by intros []|naive_solver]|]. cbn [orb].
  set (g1 := count_failures _ _). assert (Hz : consecutive_parse_failures g1 = 0%N ∧ consecutive_transport_failures g1 = 0%N).
  { subst g1. unfold count_failures. cbn. by rewrite Hp, Ht. }
  destruct Hz as [Hz1 Hz2]. change (satisfies_complete_gate g1) with (satisfies_complete_gate g). rewrite Ho. cbn [andb].
  case_bool_decide as Hv.
  - destruct (satisfies_complete_gate g); cbn [negb]; [cbn; split; [by intros []|naive_solver]|].
    rewrite evaluate_verdict_live by done. rewrite Hv. rewrite continue_goal_some. naive_solver.
  - rewrite evaluate_verdict_live by done. destruct (verdict o) eqn:Ev; try done.
    + rewrite continue_goal_some. naive_solver.
    + destruct (proj1 Hd eq_refl) as [d ->]. cbn. split; [by intros []|naive_solver].
    + rewrite continue_goal_some. naive_solver.
Qed.
(** The goal runs, or its wait barrier has fallen. *)
Definition may_run (epoch : N) (world : GoalWaitProbe) (rt : GoalRuntime) : Prop :=
  status (state rt) = Active ∨
  status (state rt) = Waiting ∧ wait_barrier_holds epoch (state rt) (probe_answers world rt) = false.
Lemma evaluate_begin_asks epoch world rt :
  match evaluate_begin epoch (probe_answers world rt) (state rt) with
  | (g, Some req) =>
      may_run epoch world rt ∧ (auto_continuations (state rt) < effective_cap (state rt))%N ∧
      should_continue g = true ∧ satisfies_complete_gate g = satisfies_complete_gate (state rt) ∧
      req = mkRequest (objective (state rt)) (subgoals (state rt)) (contract (state rt))
  | (g, None) => ¬ (may_run epoch world rt ∧ (auto_continuations (state rt) < effective_cap (state rt))%N)
  end.
Proof.
  unfold evaluate_begin, may_run. set (g := state rt). set (p := probe_answers world rt).
  assert (Hr : should_continue (release_barrier g) = (auto_continuations g <? effective_cap g)%N) by done.
  case_bool_decide as Hw.
  - destruct (wait_barrier_holds epoch g p) eqn:Hb; [intros [[Ha|[_ [=]]] _]; congruence|]. rewrite Hr.
    destruct (_ <? _)%N eqn:Hlt; cbn [negb].
    + apply N.ltb_lt in Hlt. split_and!; eauto.
    + apply N.ltb_ge in Hlt. intros [_ ?]. lia.
  - destruct (should_continue g) eqn:Hsc; cbn [negb].
    + pose proof (should_continue_active _ Hsc) as [? ?]. split_and!; eauto.
    + intros [[Ha|[Hb _]] Hlt]; [|done]. unfold should_continue in Hsc. rewrite bool_decide_true in Hsc by done.
      apply N.ltb_ge in Hsc. lia.
Qed.
(** What the controller must find after aligning its budget with the goal *)
Definition horizon_open (now : N) (rt : GoalRuntime) (s : GoalSession) : Prop :=
  let g := state rt in
  let h := align_budget now (max_auto_continuations g) (contract g) (auto_continuations g) (horizon s) in
  awaiting_approval s = false ∧ plan_is_active s = false ∧ wall_exceeded now (budget h) = false ∧
  exhausted (budget h) = false ∧ (ledger_streak (ledger (horizon s)) < NO_PROGRESS_STOP_STREAK)%N.
Lemma gate_of_open now rt s :
  allow_continue (gate_of now (state rt) s).2 = true ↔ horizon_open now rt s.
Proof.
  unfold gate_of, horizon_open. cbv zeta. set (h := align_budget _ _ _ _ _). cbn [snd end_gate allow_continue].
  assert (Hl : ledger h = ledger (horizon s)) by (subst h; unfold align_budget; by destruct (_ && _)).
  unfold decide_continue. rewrite Hl. destruct (awaiting_approval s); [by split; [|intros []]|]. destruct (plan_is_active s); [by split; [|intros (_ & [=] & _)]|].
  destruct (wall_exceeded now (budget h)); [split; [intros Hno; discriminate Hno|intros (_ & _ & Hno & _); discriminate Hno]|].
  destruct (exhausted (budget h)); [split; [intros Hno; discriminate Hno|intros (_ & _ & _ & Hno & _); discriminate Hno]|].
  destruct (NO_PROGRESS_STOP_STREAK <=? ledger_streak (ledger (horizon s)))%N eqn:E; [apply N.leb_le in E|apply N.leb_gt in E].
  - split; [intros Hno; discriminate Hno|]. intros (_ & _ & _ & _ & ?). lia.
  - split; [by intros _; split_and!|done].
Qed.
End natural_end.
