(* ===== verification/GoalTheorems.v ===== *)
(** The properties of standing goals: of whole sessions under every interleaving of the
    engine with the host, and of one natural end. *)
From S2P Require Import Prelude Bytes Text Json LlmStream Conversation CodingText GoalState GoalPrompts GoalRuntime.
From S2P Require Import GoalJudge Horizon GoalEngine GoalSafety GoalEvidence.

Section properties.
Context {Num : Type} (finish : bytes → N) (from_str : bytes → option (Value Num)) (as_i64 : Num → option Z).
Context (debug_str : bytes → bytes).
Abbreviation GoalEvent := (GoalEvent (Num := Num)).
Abbreviation goal_run := (goal_run finish from_str as_i64 debug_str).

(** C18. Completion needs evidence: in a session in which no tool succeeded that mutates
    something or verifies, the workspace looked the same at every end of a turn, and no
    goal that was installed or restored carried evidence of its own or was complete, no
    goal becomes complete, whatever the judge replies, the model claims through
    [update_goal], and the host does besides.  When every contract names a verification
    ([strict]), mutating tools do not help either, nor a mutation that an installed goal
    remembers.  (A goal rebuilt from its stored row carries no evidence; one that a
    session build takes from an explicit [resume_state] may.) *)
Theorem completion_needs_evidence strict F es now coding s' ms rt :
  Forall (idle_event finish strict F) es → Forall (no_proof strict) es →
  goal_run es (session_new now coding) = Some (s', ms) → goal s' = Some rt → status (state rt) ≠ Complete.
Proof.
  intros Hi Hn Hrun Hg.
  assert (Hs : unproven_session strict F s').
  { eapply (goal_run_ind finish from_str as_i64 debug_str (unproven_session strict F)
      (λ e, idle_event finish strict F e ∧ no_proof strict e)); [| |split_and!|exact Hrun].
    - intros e s1 s2 m [??] Hs1 Hstep. by eapply goal_step_unproven.
    - apply Forall_and. split; done.
    - split_and!; try done. by left.
    - done.
    - intros ? [=]. }
  destruct Hs as (_ & _ & Hg'). apply (Hg' rt Hg).
Qed.

(** C19. A stopped goal stays stopped: once a goal is complete, blocked, cleared or
    paused, no interleaving of the engine with the host continues it, not even the
    verdict of a judge that was already running; its status changes only to cleared,
    until the host resumes it or sets a goal. *)
Theorem stopped_goals_stay_stopped es s s' ms rt :
  goal s = Some rt → stopped (status (state rt)) → Forall (λ e, reopens (status (state rt)) e = false) es →
  goal_run es s = Some (s', ms) →
  ms = [] ∧ ∃ rt', goal s' = Some rt' ∧ (status (state rt') = status (state rt) ∨ status (state rt') = Cleared).
Proof.
  revert s ms rt. induction es as [|e es IH]; intros s ms rt Hg Hs Hok.
  - intros [= <- <-]. eauto.
  - rewrite goal_run_cons. intros (s1 & m & ms' & H1 & H2 & ->). apply Forall_cons in Hok as [He Hok].
    apply goal_step_move in H1. rewrite Hg in H1. destruct H1 as (rt1 & Hg1 & Hm).
    destruct (move_stopped _ _ _ _ _ _ Hm Hs He) as [-> Hst].
    destruct (IH s1 ms' rt1 Hg1) as [-> (rt' & Hg' & Hst')]; [| |done|].
    + destruct Hst as [->| ->]; [done|by left].
    + destruct Hst as [->| ->]; [done|]. eapply Forall_impl; [exact Hok|]. intros e'. apply reopens_cleared.
    + split; [done|]. exists rt'. split; [done|]. destruct Hst as [Hst|Hst]; rewrite Hst in Hst'; naive_solver.
Qed.

(** C20. Continuations stay within the budget: between two resets of the counter a goal
    is continued at most as often as its budget says, and at most three times when no
    contract ever names a verification, under every interleaving. *)
Theorem continuations_within_budget es s s' ms rt :
  goal s = Some rt →
  (auto_continuations (state rt)
     <= cap_of (may_be_verified es (state rt)) (max_auto_continuations (state rt)))%N →
  Forall (λ e, replaces_goal e = false) es → goal_run es s = Some (s', ms) →
  (N.of_nat (length ms)
     <= (1 + resumes es) * cap_of (may_be_verified es (state rt)) (max_auto_continuations (state rt)))%N.
Proof.
  intros Hg Hle He Hrun.
  pose proof (run_budget finish from_str as_i64 debug_str _ _ es s s' ms rt Hg eq_refl (λ E, E) Hle He Hrun). lia.
Qed.

(** C26. An idle goal wastes one round: without evidence, a session sends at most one
    continuation per request of the user, and one before the first request, whatever
    the judge replies, however often the goal is resumed or replaced. *)
Theorem idle_goal_continues_once F es now coding s' ms :
  Forall (idle_event finish false F) es → goal_run es (session_new now coding) = Some (s', ms) →
  length ms ≤ 1 + requests es.
Proof.
  intros Hi Hrun.
  assert (Hs : idle_session F (session_new now coding)).
  { split; [|done]. split_and!; try done. by left. }
  pose proof (idle_run finish from_str as_i64 debug_str F es _ s' ms Hi Hrun Hs) as Hc. cbn in Hc. lia.
Qed.

End properties.

Section natural_end.
Context {Num : Type} (from_str : bytes → option (Value Num)) (as_i64 : Num → option Z) (debug_str : bytes → bytes).
(** C27. When a goal continues: at an undisturbed natural end a continuation is sent
    exactly if the session may auto-continue, no plan is active or awaits approval, the
    wall clock and the budget are not exhausted, fewer than two ends of a turn in a row
    were idle, the goal runs (or its wait barrier fell) below its cap, and the judge was
    usable and asked for more: it said continue, or it said done without evidence, or a
    blank objective left nothing to judge. *)
Theorem natural_end_continues_iff now epoch world clock now_text complete response s rt :
  goal s = Some rt →
  let g := state rt in
  is_Some (natural_end from_str as_i64 debug_str now epoch world clock now_text complete response s).2 ↔
  disables_goal_auto_continue s = false ∧ horizon_open now rt s ∧ may_run epoch world rt ∧
  (auto_continuations g < effective_cap g)%N ∧
  wants_more g (judge_goal from_str as_i64 debug_str now_text (mkRequest (objective g) (subgoals g) (contract g))
                  (background rt) response complete).
Proof.
  intros Hg g. subst g. rewrite <- gate_of_open. unfold natural_end, end_decide. rewrite Hg.
  destruct (disables_goal_auto_continue s); [cbn; split; [by intros []|naive_solver]|].
  assert (Ho : observed (gate_of now (state rt) s).2 = true) by done.
  destruct (gate_of now (state rt) s) as [h gate]. cbn [phase with_phase fst snd] in *. unfold end_begin.
  cbn [goal with_phase with_horizon]. rewrite Hg.
  pose proof (evaluate_begin_asks epoch world rt) as Hb.
  destruct (evaluate_begin epoch (probe_answers world rt) (state rt)) as [g [req|]]; cbn.
  - destruct Hb as (Hm & Hlt & Hsc & Hgate & ->). unfold end_finish. cbn [goal].
    set (o := judge_goal _ _ _ _ _ _ _ _).
    assert (Hw : verdict o = Wait ↔ is_Some (wait_directive o)) by apply judge_goal_cases.
    pose proof (evaluate_finish_continues (Num := Num) clock o gate g Ho Hw) as Hf. unfold wants_more in *. rewrite Hgate in Hf. cbn.
    destruct (evaluate_finish clock o gate g) as [g' [m|]]; cbn in *; naive_solver.
  - split; [by intros []|]. intros (_ & _ & Hm & Hlt & _). by destruct Hb.
Qed.
End natural_end.

(** ** Witnesses

    A judge whose reply is taken as the verdict, over numbers [N]. *)
Definition demo_from_str (raw : bytes) : option (Value N) := Some (Object [(as_bytes "verdict", Str raw)]).
Definition demo_as_i64 (n : N) : option Z := Some (Z.of_N n).
Definition demo_finish (l : bytes) : N := N.of_nat (length l).
#[local] Abbreviation demo_run := (goal_run demo_finish demo_from_str demo_as_i64 (λ l, l)).
Definition says (reply : string) (_ _ : bytes) : result bytes bytes := Ok (as_bytes reply).
Definition dead : GoalWaitProbe := mkProbe (λ _, false) (λ _, false).
Definition demo_clock : EvalClock := mkClock 0 0 0.
Definition demo_goal : GoalState := goal_new 0 (as_bytes "ship") 8.
Definition end_events (reply : string) : list (GoalEvent (Num := N)) :=
  [NaturalEnd (mkUsage 1 1 0 0 0) (as_bytes "finished") None; Decide 0; Begin 0 dead;
   Finish demo_clock (as_bytes "now") (says reply)].
(** The length of what a run sends, with the final status *)
#[local] Abbreviation demo_summary es s :=
  (match demo_run es s with
   | Some (s', ms) => Some (length ms, (λ rt, status (state rt)) <$> goal s')
   | None => None
   end).
Definition idle_demo : list (GoalEvent (Num := N)) :=
  [InstallGoal 0 demo_goal; UserRequest] ++ end_events "done" ++ end_events "done".
Definition demo_session (es : list (GoalEvent (Num := N))) : GoalSession :=
  match demo_run es (session_new 0 false) with Some r => r.1 | None => session_new 0 false end.
Definition demo_runtime (s : GoalSession) : GoalRuntime := default (runtime_new 0 [] 0) (goal s).
(** A goal that the user paused while its judge was running *)
Definition paused_demo : GoalSession :=
  demo_session ([InstallGoal 0 demo_goal; UserRequest] ++ take 3 (end_events "done") ++ [HostPause (as_bytes "stop")]).
Definition running_demo : GoalSession := demo_session [InstallGoal 0 demo_goal; UserRequest].
Definition observed_demo : GoalSession :=
  demo_session ([InstallGoal 0 demo_goal; UserRequest] ++ take 1 (end_events "done")).
Definition judged_demo : list (GoalEvent (Num := N)) := drop 3 (end_events "continue") ++ take 3 (end_events "continue").
Definition resumed_demo : list (GoalEvent (Num := N)) := end_events "continue" ++ [HostResume] ++ take 3 (end_events "wait").
(** Names the outcome of the run whose summary is known *)
Ltac open_run Hs s' ms E :=
  lazymatch type of Hs with
  | match ?r with _ => _ end = _ => destruct r as [[s' ms]|] eqn:E; [|discriminate Hs]
  end.
Lemma completion_needs_evidence_witness :
  match demo_run idle_demo (session_new 0 false) with
  | Some (s', ms) => length ms = 1 ∧ ∀ rt, goal s' = Some rt → status (state rt) ≠ Complete
  | None => False
  end.
Proof.
  assert (Hs : demo_summary idle_demo (session_new 0 false) = Some (1, Some Paused)) by (vm_compute; reflexivity).
  open_run Hs s' ms E. split; [by injection Hs|]. intros rt.
  apply (completion_needs_evidence demo_finish demo_from_str demo_as_i64 (λ l, l) false None idle_demo 0 false s' ms rt);
    [by repeat constructor..|exact E].
Defined.
Lemma idle_goal_continues_once_witness :
  match demo_run idle_demo (session_new 0 false) with
  | Some (s', ms) => length ms = 1 ∧ length ms ≤ 1 + requests idle_demo
  | None => False
  end.
Proof.
  assert (Hs : demo_summary idle_demo (session_new 0 false) = Some (1, Some Paused)) by (vm_compute; reflexivity).
  open_run Hs s' ms E. split; [by injection Hs|].
  apply (idle_goal_continues_once demo_finish demo_from_str demo_as_i64 (λ l, l) None idle_demo 0 false s' ms);
    [by repeat constructor|exact E].
Defined.
Lemma stopped_goals_stay_stopped_witness :
  let rt := demo_runtime paused_demo in
  status (state rt) = Paused ∧
  match demo_run judged_demo paused_demo with
  | Some (s', ms) =>
      ms = [] ∧ ∃ rt', goal s' = Some rt' ∧ (status (state rt') = status (state rt) ∨ status (state rt') = Cleared)
  | None => False
  end.
Proof.
  cbv zeta. assert (Hst : status (state (demo_runtime paused_demo)) = Paused) by (vm_compute; reflexivity). split; [exact Hst|].
  assert (Hs : demo_summary judged_demo paused_demo = Some (0, Some Paused)) by (vm_compute; reflexivity).
  open_run Hs s' ms E.
  apply (stopped_goals_stay_stopped demo_finish demo_from_str demo_as_i64 (λ l, l) judged_demo paused_demo s' ms);
    [vm_compute; reflexivity|rewrite Hst; by right|rewrite Hst; vm_compute; by repeat constructor|exact E].
Defined.
Lemma continuations_within_budget_witness :
  let rt := demo_runtime running_demo in
  match demo_run resumed_demo running_demo with
  | Some (s', ms) => length ms = 1 ∧ (N.of_nat (length ms) <= 2 * 3)%N
  | None => False
  end.
Proof.
  cbv zeta.
  assert (Hs : demo_summary resumed_demo running_demo = Some (1, Some Active)) by (vm_compute; reflexivity).
  open_run Hs s' ms E. split; [by injection Hs|].
  assert (Hcap : ((1 + resumes resumed_demo) * cap_of (may_be_verified resumed_demo (state (demo_runtime running_demo)))
    (max_auto_continuations (state (demo_runtime running_demo))))%N = 6%N) by (vm_compute; reflexivity).
  change (2 * 3)%N with 6%N. rewrite <- Hcap.
  apply (continuations_within_budget demo_finish demo_from_str demo_as_i64 (λ l, l) resumed_demo running_demo s' ms);
    [vm_compute; reflexivity|vm_compute; discriminate|vm_compute; by repeat constructor|exact E].
Defined.
Lemma natural_end_continues_iff_witness :
  is_Some (natural_end demo_from_str demo_as_i64 (λ l, l) 0 0 dead demo_clock (as_bytes "now") (says "continue")
             (as_bytes "finished") observed_demo).2.
Proof.
  apply (natural_end_continues_iff demo_from_str demo_as_i64 (λ l, l) 0 0 dead demo_clock (as_bytes "now") (says "continue")
    (as_bytes "finished") observed_demo (demo_runtime observed_demo)); [vm_compute; reflexivity|].
  split_and!; [vm_compute; reflexivity|split_and!; vm_compute; reflexivity|left; vm_compute; reflexivity|vm_compute; reflexivity|].
  split_and!; vm_compute; try reflexivity; discriminate.
Defined.
