(* ===== verification/GoalEdges.v ===== *)
(** Edges of goal continuation at which the code does less than its comments say: each
    lemma states what happens. *)
From S2P Require Import Prelude Bytes Text Json LlmStream Conversation CodingText GoalState GoalPrompts GoalRuntime.
From S2P Require Import GoalJudge Horizon GoalEngine GoalSafety GoalEvidence GoalTheorems.

(** ** What a continuation reports *)

(** The delta is rendered after the round's evidence was consumed, so it reports no
    mutation and no verification whatever the round did ... *)
Lemma delta_reports_no_evidence finish usage response cwd now g s :
  let l := ledger (horizon (end_turn finish usage response cwd s)) in
  mutated l = false ∧ verify_ok l = false ∧
  option_map world_delta (continuation_delta (gate_of now g (end_turn finish usage response cwd s)).2) = Some (idle_brief l).
Proof.
  cbv zeta. split_and!; [done..|]. unfold gate_of, goal_delta. cbn [snd end_gate continuation_delta option_map world_delta].
  by rewrite align_budget_ledger.
Qed.
(** ... and asks for a verification that has just succeeded. *)
Lemma delta_asks_again finish usage response cwd now g s :
  has_verification g = true →
  option_map missing_verification (continuation_delta (gate_of now g (end_turn finish usage response cwd s)).2)
    = Some (as_bytes "Missing verification: run `"
            ++ bytes_trim (match contract g with Some c => verification c | None => [] end)
            ++ as_bytes "` (or the equivalent) and read the output before completing.").
Proof.
  intros Hv. unfold gate_of, goal_delta. cbn [snd end_gate continuation_delta option_map missing_verification].
  rewrite align_budget_ledger. unfold has_verification in Hv. destruct (contract g) as [c|]; [|done]. by rewrite Hv.
Qed.

(** ** Evidence that outlives its request *)

Section sticky.
Context {Num : Type} (finish : bytes → N) (from_str : bytes → option (Value Num)) (as_i64 : Num → option Z).
Context (debug_str : bytes → bytes).
(** Once the workspace has changed, it counts as changed for every later request and
    every later goal of the session. *)
Lemma workspace_change_is_sticky es s s' ms :
  goal_run finish from_str as_i64 debug_str es s = Some (s', ms) →
  workspace_changed (ledger (horizon s)) = true → workspace_changed (ledger (horizon s')) = true.
Proof.
  intros Hrun Hw. eapply (goal_run_ind finish from_str as_i64 debug_str
    (λ s, workspace_changed (ledger (horizon s)) = true) (λ _, True)); [|by apply Forall_true|exact Hw|exact Hrun].
  intros e s1 s2 m _ Hs1 Hstep. rewrite (goal_step_ledger _ _ _ _ _ _ _ _ Hstep). destruct e; try done.
  - cbn. unfold observe_tools. by destruct (tool_observations (Num := Num) tool_calls results).
  - cbn. by rewrite Hs1.
Qed.
Lemma sticky_gate_open a b n g : satisfies_complete_gate (apply_progress a b true n g) = true.
Proof. unfold satisfies_complete_gate. destruct (has_verification _); cbn; by rewrite !orb_true_r. Qed.
End sticky.

(** A failure of git between two ends of a turn is a change of the workspace: the
    fingerprint falls back to the listing of the directory. *)
Lemma git_failure_is_a_change finish w stdout now :
  exists_ w = true → has_dot_git w = true → git_status w = Some (true, stdout) →
  let w' := mkWorkspace true true None (dir_meta w) (dir_entries w) in
  finish stdout ≠ dir_fingerprint finish w →
  let l := (ledger_observe_end_turn finish now (Some w) 0 ledger_default).1 in
  (ledger_observe_end_turn finish now (Some w') 0 l).2 = true.
Proof.
  intros He Hg Hs w' Hne l. subst l. unfold ledger_observe_end_turn, workspace_fingerprint, git_fingerprint. cbn.
  rewrite He, Hg, Hs. cbn. replace (finish stdout =? _)%N with false; [done|]. symmetry. by apply N.eqb_neq.
Qed.

(** ** The circuit breakers *)

(** The first failure of the judge pauses the goal; the limits of three and five
    failures in a row are never consulted with a counter above zero. *)
Lemma first_failure_pauses {Num} clock o gate g :
  should_continue g = true → parse_failed o = true ∨ transport_failed o = true →
  let r := evaluate_finish (Num := Num) clock o gate g in status r.1 = Paused ∧ r.2 = None.
Proof.
  intros Hsc Hf. unfold evaluate_finish. rewrite Hsc. cbn [negb].
  replace (parse_failed o || transport_failed o) with true; [done|]. destruct Hf as [-> | ->]; [done|]. by rewrite orb_true_r.
Qed.
Lemma default_gate_vetoes {Num} clock g : continue_goal (Num := Num) clock gate_default g = (g, None).
Proof. done. Qed.

(** ** [update_goal] *)

(** On a goal that is not active the tool reports the status it was asked for, and the
    goal keeps its own: a paused goal is "complete" to the model. *)
Lemma stopped_goal_acknowledges {Num} finish input claimed g :
  claimed_status (Num := Num) input = Some claimed → status g ≠ Active →
  update_goal_execute finish input g
    = (g, GoalToolText (update_goal_payload claimed (default [] (get (as_bytes "evidence") input ≫= as_str)))).
Proof. intros Hc Ha. unfold update_goal_execute. rewrite Hc. by rewrite bool_decide_false. Qed.
(** Claims are counted, not rounds: a blocker asserted three times within one turn is
    accepted. *)
Definition blocked_input : Value N := Object [(as_bytes "status", Str (as_bytes "blocked"))].
Lemma blocked_claim finish g :
  status g = Active →
  (update_goal_execute finish blocked_input g).1 =
    let g := record_evidence (evidence_hash finish []) g in
    if (blocked_evidence_repeats g <? blocked_threshold g)%N then g else set_status Blocked g.
Proof.
  intros Ha. unfold update_goal_execute. change (claimed_status blocked_input) with (Some Blocked).
  rewrite bool_decide_true by done. cbn [negb]. rewrite bool_decide_false by done.
  change (default [] (get (as_bytes "evidence") blocked_input ≫= as_str)) with ([] : bytes). cbv zeta.
  by destruct (_ <? _)%N.
Qed.
Lemma record_evidence_again h n g :
  blocked_evidence_hash g = Some h → blocked_evidence_repeats g = n → (n < u64_max)%N →
  record_evidence h g = set_evidence (Some h) (n + 1) g.
Proof.
  intros Hh Hn Hlt. unfold record_evidence. rewrite bool_decide_true by done. by rewrite u64_sat_add_exact, Hn by (unfold is_u64; lia).
Qed.
Lemma blocked_within_one_turn finish :
  let claim g := (update_goal_execute finish blocked_input g).1 in
  let g := goal_new 0 (as_bytes "ship") 8 in
  status (claim (claim g)) = Active ∧ status (claim (claim (claim g))) = Blocked.
Proof.
  cbv zeta beta. set (h := evidence_hash finish []). set (g := goal_new 0 (as_bytes "ship") 8).
  assert (E1 : (update_goal_execute finish blocked_input g).1 = set_evidence (Some h) 1 g) by by rewrite blocked_claim.
  assert (E2 : (update_goal_execute finish blocked_input (set_evidence (Some h) 1 g)).1 = set_evidence (Some h) 2 g).
  { rewrite blocked_claim by done. by rewrite (record_evidence_again h 1) by done. }
  assert (E3 : (update_goal_execute finish blocked_input (set_evidence (Some h) 2 g)).1 = set_status Blocked (set_evidence (Some h) 3 g)).
  { rewrite blocked_claim by done. by rewrite (record_evidence_again h 2) by done. }
  by rewrite E1, E2, E3.
Qed.

(** ** A host that acts while the judge is running *)

#[local] Abbreviation demo_run := (goal_run demo_finish demo_from_str demo_as_i64 (λ l, l)).
Definition judging_demo : list (GoalEvent (Num := N)) :=
  [InstallGoal 0 demo_goal; UserRequest;
   ToolTurn [ToolUse (as_bytes "t") (as_bytes "Write") Null None] [ToolResult (as_bytes "t") [] false []]]
  ++ take 3 (end_events "done").
(** A criterion that the user adds meanwhile is not judged, and the goal completes. *)
Lemma criterion_never_judged :
  match demo_run (judging_demo ++ [HostAddSubgoal (as_bytes "and test it")] ++ drop 3 (end_events "done"))
          (session_new 0 false) with
  | Some (s, _) => ∃ rt, goal s = Some rt ∧ status (state rt) = Complete ∧ subgoals (state rt) = [as_bytes "and test it"]
  | None => False
  end.
Proof. vm_compute. eexists. split; [reflexivity|]. done. Qed.
(** A goal that the user sets meanwhile is continued with the prompt of the old one. *)
Definition new_goal : GoalState := goal_new 0 (as_bytes "document") 8.
Lemma continuation_for_the_old_goal :
  match demo_run (judging_demo ++ [HostRestore new_goal] ++ drop 3 (end_events "done")) (session_new 0 false) with
  | Some (s, [m]) =>
      (∃ rt, goal s = Some rt ∧ objective (state rt) = as_bytes "document") ∧
      match content m with
      | [TextBlock prompt] => str_contains prompt (as_bytes "ship") && negb (str_contains prompt (as_bytes "document"))
      | _ => false
      end = true
  | _ => False
  end.
Proof. vm_compute. split; [eexists; split; reflexivity|reflexivity]. Qed.

(** ** Directives of the judge *)

(** A deadline far away wraps around (and panics in a debug build): the barrier is down
    at once. *)
Lemma wait_deadline_wraps now g :
  (0 < now <= u64_max)%N →
  wait_barrier_holds now (park now (Seconds 9223372036854775807) [] g) None = false.
Proof.
  intros Hn. cbn. apply N.ltb_ge. unfold wait_deadline.
  replace (u64_sat_mul 9223372036854775807 1000) with u64_max by reflexivity.
  replace (now + u64_max)%N with (now - 1 + 1 * (u64_max + 1))%N by lia.
  rewrite N.Div0.mod_add, N.mod_small; unfold u64_max in *; lia.
Qed.
(** A process number of 2^32 waits for the process 0. *)
Lemma wait_on_pid_truncates :
  reply_directive demo_as_i64 (Object [(as_bytes "wait_on_pid", Number 4294967296%N)]) = Some (Pid 0).
Proof. reflexivity. Qed.

(** ** A spent budget *)

(** A goal whose budget is spent stays active and unjudged, and resuming it does
    nothing: the guide promises a fresh budget, but only a paused goal resumes. *)
Lemma spent_goal_ignores_resume now p g :
  status g = Active → (effective_cap g <= auto_continuations g)%N →
  evaluate_begin now p g = (g, None) ∧ resume g = g.
Proof.
  intros Ha Hc. split.
  - unfold evaluate_begin. rewrite bool_decide_false by congruence. unfold should_continue.
    apply N.ltb_ge in Hc. by rewrite Hc, andb_false_r.
  - unfold resume. by rewrite bool_decide_false by congruence.
Qed.
