(* ===== verification/GoalBridge.v ===== *)
(** Goals between the engine, the database and the wire (backend/nomifun-ai-agent/src/
    goal_bridge.rs and goal_probe.rs, the goal actions of manager/nomi/agent.rs and of
    nomifun-conversation/src/service_ops.rs, with their types in nomifun-db and
    nomifun-api-types).  The JSON columns and the database are interfaces. *)
From S2P Require Import Prelude Bytes Text Json LlmStream Compaction GoalState GoalPrompts GoalRuntime GoalJudge.

(** ** Rows, parameters and responses *)

Record UpsertGoalParams := mkParams {
  up_session_id : bytes;
  up_objective : bytes;
  up_status : bytes;
  up_turns_used : Z;
  up_max_turns : Z;
  up_created_at : Z;
  up_last_turn_at : option Z;
  up_last_verdict : option bytes;
  up_last_reason : option bytes;
  up_paused_reason : option bytes;
  up_consecutive_parse_failures : Z;
  up_consecutive_transport_failures : Z;
  up_subgoals_json : bytes;
  up_contract_json : option bytes;
  up_waiting_on_pid : option Z;
  up_waiting_on_session : option bytes;
  up_waiting_until : option Z;
  up_waiting_reason : option bytes;
  up_updated_at : Z;
}.
(** The snapshot columns of a row, with the columns that the database keeps itself *)
Record GoalRow := mkRow { row_id : Z; row_columns : UpsertGoalParams; row_version : Z }.
Record GoalContractDto := mkDto {
  dto_outcome : bytes;
  dto_verification : bytes;
  dto_constraints : bytes;
  dto_boundaries : bytes;
  dto_stop_when : bytes;
}.
Record GoalActionRequest := mkActionRequest {
  action : bytes;
  req_objective : option bytes;
  req_max_turns : option N;
  req_reason : option bytes;
  req_subgoal : option bytes;
  req_index_1based : option N;
  req_pid : option N;
  req_contract : option GoalContractDto;
}.
Record GoalStatusResponse := mkResponse {
  active : bool;
  resp_objective : option bytes;
  resp_status : option bytes;
  resp_turns_used : option N;
  resp_max_turns : option N;
  resp_last_verdict : option bytes;
  resp_last_reason : option bytes;
  resp_paused_reason : option bytes;
  resp_subgoals : list bytes;
  resp_created_at : option N;
  resp_last_turn_at : option N;
  resp_waiting_until : option N;
  resp_waiting_reason : option bytes;
  resp_waiting_on_pid : option N;
  resp_waiting_on_session : option bytes;
  resp_contract : option GoalContractDto;
  resp_no_progress_streak : option N;
}.
Definition response_default : GoalStatusResponse :=
  mkResponse false None None None None None None None [] None None None None None None None None.
Inductive AppError := BadRequest (message : bytes) | BadGateway (message : bytes) | Database (message : bytes).

(** ** Names *)

Definition goal_status_str (st : GoalStatus) : bytes :=
  as_bytes match st with
           | Active => "active" | Complete => "complete" | Blocked => "blocked"
           | Paused => "paused" | Waiting => "waiting" | Cleared => "cleared"
           end%string.
Definition goal_verdict_str (v : GoalVerdict) : bytes :=
  as_bytes match v with
           | GoalState.Done => "done" | Continue => "continue" | Wait => "wait" | Skipped => "skipped"
           end%string.
Definition parse_goal_status (s : bytes) : option GoalStatus :=
  if is_lit s "active" then Some Active else if is_lit s "complete" then Some Complete
  else if is_lit s "blocked" then Some Blocked else if is_lit s "paused" then Some Paused
  else if is_lit s "waiting" then Some Waiting else if is_lit s "cleared" then Some Cleared else None.
Definition parse_goal_verdict (s : bytes) : option GoalVerdict :=
  if is_lit s "done" then Some GoalState.Done else if is_lit s "continue" then Some Continue
  else if is_lit s "wait" then Some Wait else if is_lit s "skipped" then Some Skipped else None.
Definition goal_status_is_restorable (s : bytes) : bool := one_of s ["active"; "paused"; "waiting"]%string.

(** ** JSON columns

    serde_json on lists of strings and on contracts: printing does not fail, and parsing
    undoes it. *)
Class GoalJson := {
  subgoals_to_string : list bytes → option bytes;
  subgoals_from_str : bytes → option (list bytes);
  contract_to_string : GoalContract → option bytes;
  contract_from_str : bytes → option GoalContract;
}.
Class GoalJsonLaws (J : GoalJson) : Prop := {
  subgoals_roundtrip l : ∃ s, subgoals_to_string l = Some s ∧ subgoals_from_str s = Some l;
  contract_roundtrip c : ∃ s, contract_to_string c = Some s ∧ contract_from_str s = Some c;
}.

(** ** Conversions *)

Section bridge.
Context {J : GoalJson}.
(** [now] is the wall clock as an [i64]. *)
Definition goal_state_to_upsert (now : Z) (session : bytes) (g : GoalState) : UpsertGoalParams :=
  mkParams session (objective g) (goal_status_str (status g)) (as_i64 (turns_used g))
    (as_i64 (max_auto_continuations g)) (as_i64 (created_at g)) (as_i64 <$> last_turn_at g)
    (goal_verdict_str <$> last_verdict g) (last_reason g) (paused_reason g)
    (as_i64 (consecutive_parse_failures g)) (as_i64 (consecutive_transport_failures g))
    (default (as_bytes "[]") (subgoals_to_string (subgoals g)))
    (contract g ≫= contract_to_string) (as_i64 <$> waiting_on_pid g) (waiting_on_session g)
    (as_i64 <$> waiting_until g) (waiting_reason g) now.
(** [v.max(0) as usize] and [as u64]; [as u32] keeps the low bits. *)
Definition nonneg (z : Z) : N := Z.to_N (Z.max z 0).
Definition nonneg_u32 (z : Z) : N := (nonneg z mod 4294967296)%N.
Definition goal_row_to_state (row : GoalRow) : GoalState :=
  let p := row_columns row in
  mkGoal (up_objective p) (default Paused (parse_goal_status (up_status p))) (nonneg (up_max_turns p)) 0 3
    (nonneg (up_turns_used p)) (up_last_verdict p ≫= parse_goal_verdict) (up_last_reason p) (up_paused_reason p) 0 0
    (nonneg (up_created_at p)) (nonneg <$> up_last_turn_at p)
    (default [] (subgoals_from_str (up_subgoals_json p))) (up_contract_json p ≫= contract_from_str)
    (nonneg <$> up_waiting_until p) (nonneg_u32 <$> up_waiting_on_pid p) (up_waiting_on_session p)
    (up_waiting_reason p) 0 false false false None 0.
Definition engine_contract_to_dto (c : GoalContract) : GoalContractDto :=
  mkDto (outcome c) (verification c) (constraints c) (boundaries c) (stop_when c).
Definition dto_to_engine_contract (d : GoalContractDto) : GoalContract :=
  mkContract (dto_outcome d) (dto_verification d) (dto_constraints d) (dto_boundaries d) (dto_stop_when d).
Definition goal_state_to_response (g : GoalState) : GoalStatusResponse :=
  mkResponse true (Some (objective g)) (Some (goal_status_str (status g))) (Some (turns_used g))
    (Some (max_auto_continuations g)) (goal_verdict_str <$> last_verdict g) (last_reason g) (paused_reason g)
    (subgoals g) (Some (created_at g)) (last_turn_at g) (waiting_until g) (waiting_reason g) (waiting_on_pid g)
    (waiting_on_session g) (engine_contract_to_dto <$> contract g) (Some (no_progress_streak g)).
Definition goal_row_to_response (row : GoalRow) : GoalStatusResponse := goal_state_to_response (goal_row_to_state row).
Definition fresh_goal_upsert (epoch : N) (now : Z) (session obj : bytes) (max : N) : UpsertGoalParams :=
  goal_state_to_upsert now session (goal_new epoch obj max).

(** *** Actions on a row without a runtime *)

Definition row_state (row : GoalRow) : GoalState := state (from_state (goal_row_to_state row)).
Definition row_upsert (now : Z) (row : GoalRow) (g : GoalState) : UpsertGoalParams :=
  goal_state_to_upsert now (up_session_id (row_columns row)) g.
Definition pause_persisted_row (now : Z) (row : GoalRow) (why : bytes) : UpsertGoalParams :=
  row_upsert now row (pause why (row_state row)).
Definition resume_persisted_row (now : Z) (row : GoalRow) : UpsertGoalParams :=
  row_upsert now row (resume (row_state row)).
Definition add_subgoal_row (now : Z) (row : GoalRow) (txt : bytes) : UpsertGoalParams :=
  row_upsert now row (add_subgoal txt (row_state row)).
Definition remove_subgoal_row (now : Z) (row : GoalRow) (i : nat) : option UpsertGoalParams :=
  let '(g, removed) := remove_subgoal i (row_state row) in
  if removed then Some (row_upsert now row g) else None.
(** [while rt.remove_subgoal(1) {}] *)
Fixpoint remove_first_subgoals (fuel : nat) (g : GoalState) : GoalState :=
  match fuel with
  | 0 => g
  | S fuel => let '(g, removed) := remove_subgoal 1 g in if removed then remove_first_subgoals fuel g else g
  end.
Definition remove_all_subgoals (g : GoalState) : GoalState := remove_first_subgoals (S (length (subgoals g))) g.
Definition clear_subgoals_row (now : Z) (row : GoalRow) : UpsertGoalParams :=
  row_upsert now row (remove_all_subgoals (row_state row)).
Definition set_contract_row (now : Z) (row : GoalRow) (c : GoalContract) : UpsertGoalParams :=
  row_upsert now row (set_contract c (row_state row)).
Definition wait_on_pid_row (now : Z) (row : GoalRow) (target : N) : option UpsertGoalParams :=
  let '(g, applied) := wait_on_pid target (row_state row) in
  if applied then Some (row_upsert now row g) else None.
Definition unwait_row (now : Z) (row : GoalRow) : option UpsertGoalParams :=
  let '(g, applied) := unwait (row_state row) in
  if applied then Some (row_upsert now row g) else None.

(** ** Requests *)

Definition bad_request (m : string) : AppError := BadRequest (as_bytes m).
Definition ok_or {A} (o : option A) (e : AppError) : result A AppError :=
  match o with Some a => Ok a | None => Err e end.
(** [as_deref().map(str::trim).filter(|s| !s.is_empty())] *)
Definition trimmed (o : option bytes) : option bytes :=
  match bytes_trim <$> o with
  | Some (b :: l) => Some (b :: l)
  | _ => None
  end.
Definition requested_max (req : GoalActionRequest) : N := N_clamp (default 8%N (req_max_turns req)) 1 100.
Definition no_goal_error : AppError := bad_request "No goal is set for this conversation".
Definition range_error (i : N) : AppError :=
  BadRequest (as_bytes "Subgoal index " ++ decimal i ++ as_bytes " is out of range").
Definition pid_error (target : N) : AppError :=
  BadRequest (as_bytes "Cannot wait on pid " ++ decimal target
              ++ as_bytes ": pid must be non-zero and the goal must be active or waiting").
Definition unknown_action (a : bytes) : AppError :=
  BadRequest (as_bytes "Unknown goal action '" ++ a ++ as_bytes "'").
Definition is_action (req : GoalActionRequest) (a : string) : bool := is_lit (action req) a.
Definition is_status_action (req : GoalActionRequest) : bool :=
  one_of (action req) ["status"; "list_subgoals"; "show"]%string.

(** *** With a runtime (the handle of the live manager)

    What is persisted afterwards is the snapshot, or the row is deleted. *)
Inductive Persist := KeepRow | PersistState (g : GoalState) | DeleteRow.
Record LiveOutcome := mkLive { live_runtime : option GoalRuntime; live_persist : Persist; live_response : GoalStatusResponse }.
Definition acted (rt : GoalRuntime) : result LiveOutcome AppError :=
  Ok (mkLive (Some rt) (PersistState (state rt)) (goal_state_to_response (state rt))).
Definition require_goal_runtime (rt : option GoalRuntime) : result GoalRuntime AppError := ok_or rt no_goal_error.
Definition goal_status (rt : option GoalRuntime) : GoalStatusResponse :=
  match rt with Some rt => goal_state_to_response (state rt) | None => response_default end.
Definition install_goal (probe_installed : bool) (g : GoalState) (rt : option GoalRuntime) : GoalRuntime :=
  match rt with
  | Some rt => restore g rt
  | None => if probe_installed then set_wait_probe (from_state g) else from_state g
  end.
Definition draft_error (e : ContractDraftError) : AppError :=
  match e with
  | EmptyObjective => bad_request "objective must not be empty"
  | Transport _ => BadGateway (as_bytes "Contract draft failed due to a model transport error")
  | Unparsable _ | EmptyContract => BadGateway (as_bytes "Contract draft failed: model reply was unusable")
  end.
(** [draft] is [draft_contract] with the session's model. *)
Definition goal_action (epoch : N) (probe_installed : bool) (draft : bytes → result GoalContract ContractDraftError)
    (req : GoalActionRequest) (rt : option GoalRuntime) : result LiveOutcome AppError :=
  if is_action req "set" then
    let? obj := ok_or (trimmed (req_objective req)) (bad_request "objective must not be empty") in
    acted (install_goal probe_installed (goal_new epoch obj (requested_max req)) rt)
  else if is_action req "pause" then
    let? rt := require_goal_runtime rt in
    acted (on_state (pause (default (as_bytes "user-paused") (req_reason req))) rt)
  else if is_action req "resume" then
    let? rt := require_goal_runtime rt in acted (on_state resume rt)
  else if is_action req "clear" then
    let rt := on_state clear <$> rt in Ok (mkLive rt DeleteRow (goal_status rt))
  else if is_status_action req then Ok (mkLive rt KeepRow (goal_status rt))
  else if is_action req "add_subgoal" then
    let? txt := ok_or (trimmed (req_subgoal req)) (bad_request "subgoal must not be empty") in
    let? rt := require_goal_runtime rt in acted (on_state (add_subgoal txt) rt)
  else if is_action req "remove_subgoal" then
    let? i := ok_or (req_index_1based req) (bad_request "index_1based is required") in
    let? rt := require_goal_runtime rt in
    let '(g, removed) := remove_subgoal (N.to_nat i) (state rt) in
    if removed then acted (restore g rt) else Err (range_error i)
  else if is_action req "clear_subgoals" then
    let? rt := require_goal_runtime rt in acted (on_state remove_all_subgoals rt)
  else if is_action req "draft" then
    let? rt := require_goal_runtime rt in
    match draft (default (objective (state rt)) (trimmed (req_objective req))) with
    | Ok c => acted (on_state (set_contract c) rt)
    | Err e => Err (draft_error e)
    end
  else if is_action req "set_contract" then
    let? dto := ok_or (req_contract req) (bad_request "contract is required") in
    let? rt := require_goal_runtime rt in acted (on_state (set_contract (dto_to_engine_contract dto)) rt)
  else if is_action req "wait" then
    let? target := ok_or (req_pid req) (bad_request "pid is required") in
    let? rt := require_goal_runtime rt in
    let '(g, applied) := wait_on_pid target (state rt) in
    if applied then acted (restore g rt) else Err (pid_error target)
  else if is_action req "unwait" then
    let? rt := require_goal_runtime rt in
    let '(g, applied) := unwait (state rt) in
    if applied then acted (restore g rt) else Err (bad_request "The goal is not waiting")
  else Err (unknown_action (action req)).

(** *** The contract drafted in the background for a fresh goal *)

Definition wants_autodraft (g : GoalState) : bool :=
  negb (bool_decide (is_Some (contract g)) || (0 <? turns_used g)%N || negb (bool_decide (status g = Active))).
(** [obj] is the objective the draft was made for; the drafted contract is applied to
    the goal of the moment. *)
Definition apply_autodraft (obj : bytes) (c : GoalContract) (g : GoalState) : GoalState :=
  if bool_decide (is_Some (contract g)) || negb (bool_decide (objective g = obj)) || negb (bool_decide (status g = Active))
  then g else set_contract c g.

(** *** Without a runtime: on the persisted row

    The table of goals as the repository promises it, one row per session. *)
Context {W : Type}.
Record GoalRepository := mkRepo {
  upsert : UpsertGoalParams → W → result (W * GoalRow) AppError;
  load_by_session : bytes → W → result (option GoalRow) AppError;
  clear_row : bytes → W → result W AppError;
}.
Context (repo : GoalRepository).
Definition require_goal_row (session : bytes) (w : W) : result GoalRow AppError :=
  let? row := load_by_session repo session w in ok_or row no_goal_error.
Definition store (p : UpsertGoalParams) (w : W) : result (W * GoalStatusResponse) AppError :=
  let? r := upsert repo p w in Ok (r.1, goal_row_to_response r.2).
Definition row_status (session : bytes) (w : W) : result GoalStatusResponse AppError :=
  let? row := load_by_session repo session w in
  Ok match row with Some row => goal_row_to_response row | None => response_default end.
Definition goal_action_on_db (epoch : N) (now : Z) (session : bytes) (req : GoalActionRequest) (w : W) :
    result (W * GoalStatusResponse) AppError :=
  if is_action req "set" then
    let? obj := ok_or (trimmed (req_objective req)) (bad_request "objective must not be empty") in
    store (fresh_goal_upsert epoch now session obj (requested_max req)) w
  else if is_action req "pause" then
    let? row := require_goal_row session w in
    store (pause_persisted_row now row (default (as_bytes "user-paused") (req_reason req))) w
  else if is_action req "resume" then
    let? row := require_goal_row session w in store (resume_persisted_row now row) w
  else if is_action req "clear" then
    let? w := clear_row repo session w in Ok (w, response_default)
  else if is_status_action req then
    let? resp := row_status session w in Ok (w, resp)
  else if is_action req "add_subgoal" then
    let? txt := ok_or (trimmed (req_subgoal req)) (bad_request "subgoal must not be empty") in
    let? row := require_goal_row session w in store (add_subgoal_row now row txt) w
  else if is_action req "remove_subgoal" then
    let? i := ok_or (req_index_1based req) (bad_request "index_1based is required") in
    let? row := require_goal_row session w in
    let? p := ok_or (remove_subgoal_row now row (N.to_nat i)) (range_error i) in store p w
  else if is_action req "clear_subgoals" then
    let? row := require_goal_row session w in store (clear_subgoals_row now row) w
  else if is_action req "draft" then
    Err (bad_request "Contract drafting requires a running agent session")
  else if is_action req "set_contract" then
    let? dto := ok_or (req_contract req) (bad_request "contract is required") in
    let? row := require_goal_row session w in store (set_contract_row now row (dto_to_engine_contract dto)) w
  else if is_action req "wait" then
    let? target := ok_or (req_pid req) (bad_request "pid is required") in
    let? row := require_goal_row session w in
    let? p := ok_or (wait_on_pid_row now row target) (pid_error target) in store p w
  else if is_action req "unwait" then
    let? row := require_goal_row session w in
    let? p := ok_or (unwait_row now row) (bad_request "The goal is not waiting") in store p w
  else Err (unknown_action (action req)).
(** Reading the goal when a runtime may be there: its answer to a status request, or the
    row; no goal is not an error. *)
Definition get_goal_status (live : option (result GoalStatusResponse AppError)) (session : bytes) (has_repo : bool) (w : W) :
    result GoalStatusResponse AppError :=
  match live with
  | Some (Ok resp) => Ok resp
  | _ => if has_repo then row_status session w else Ok response_default
  end.
(** What a session build injects: the explicit [resume_state] of the build extra, if there
    is one, else the row of the conversation; nothing when the host policy has the goal
    domain off.  [from_value] is serde_json's reading of a goal, [loaded] the answer of
    the repository, if there is one. *)
Definition restored_goal {V E : Type} (from_value : V → option GoalState) (domain : bool) (resume_state : option V)
    (loaded : option (result (option GoalRow) E)) : option GoalState :=
  let goal_resume_state :=
    match resume_state with
    | Some raw => from_value raw
    | None =>
        match loaded with
        | Some (Ok (Some row)) =>
            if goal_status_is_restorable (up_status (row_columns row)) then Some (goal_row_to_state row) else None
        | _ => None
        end
    end in
  if domain then goal_resume_state else None.
End bridge.

(** ** The SQLite table

    [INSERT ... ON CONFLICT(session_id) DO UPDATE] keeps the row's identifier and bumps
    its version. *)
Record GoalTable := mkTable { rows : gmap bytes GoalRow; next_row_id : Z }.
Definition sqlite_upsert (p : UpsertGoalParams) (t : GoalTable) : result (GoalTable * GoalRow) AppError :=
  let key := up_session_id p in
  match rows t !! key with
  | Some old =>
      let row := mkRow (row_id old) p (row_version old + 1)%Z in
      Ok (mkTable (<[key := row]> (rows t)) (next_row_id t), row)
  | None =>
      let row := mkRow (next_row_id t) p 0 in
      Ok (mkTable (<[key := row]> (rows t)) (next_row_id t + 1)%Z, row)
  end.
Definition sqlite_load (session : bytes) (t : GoalTable) : result (option GoalRow) AppError := Ok (rows t !! session).
Definition sqlite_clear (session : bytes) (t : GoalTable) : result GoalTable AppError :=
  Ok (mkTable (delete session (rows t)) (next_row_id t)).
Definition sqlite_migrate (old new : bytes) (t : GoalTable) : GoalTable * bool :=
  if bool_decide (old = new) then (t, true)
  else
    let rows' := delete new (rows t) in
    match rows' !! old with
    | Some row =>
        let p := row_columns row in
        let p := mkParams new (up_objective p) (up_status p) (up_turns_used p) (up_max_turns p) (up_created_at p)
                   (up_last_turn_at p) (up_last_verdict p) (up_last_reason p) (up_paused_reason p)
                   (up_consecutive_parse_failures p) (up_consecutive_transport_failures p) (up_subgoals_json p)
                   (up_contract_json p) (up_waiting_on_pid p) (up_waiting_on_session p) (up_waiting_until p)
                   (up_waiting_reason p) (up_updated_at p) in
        (mkTable (<[new := mkRow (row_id row) p (row_version row)]> (delete old rows')) (next_row_id t), true)
    | None => (mkTable rows' (next_row_id t), false)
    end.
Definition sqlite_repo : GoalRepository (W := GoalTable) := mkRepo sqlite_upsert sqlite_load sqlite_clear.

(** ** The wait probe over the process registry (goal_probe.rs) *)

Record RegisteredAgentProcess := mkRegistered {
  reg_pid : N;
  reg_conversation_id : bytes;
  reg_agent_type : bytes;
  reg_command_preview : option bytes;
  reg_registered_at_ms : N;
}.
(** The registry file: unreadable, or its entries *)
Definition list_registered_processes (file : option (list RegisteredAgentProcess)) : list RegisteredAgentProcess :=
  default [] file.
Definition registry_probe (file : option (list RegisteredAgentProcess)) : GoalWaitProbe :=
  let l := list_registered_processes file in
  mkProbe (λ target, existsb (λ p, (reg_pid p =? target)%N) l)
    (λ target, existsb (λ p, bool_decide (reg_conversation_id p = target)) l).
Definition background_process (now_ms : N) (p : RegisteredAgentProcess) : BackgroundProcessInfo :=
  mkProcess (reg_pid p) (Some (reg_conversation_id p))
    (default (reg_agent_type p ++ as_bytes " agent process") (reg_command_preview p))
    (Some ((now_ms - reg_registered_at_ms p) / 1000)%N) None [] false false false.
Definition conversation_background_processes (now_ms : N) (file : option (list RegisteredAgentProcess))
    (conversation_id : bytes) : list BackgroundProcessInfo :=
  background_process now_ms
    <$> filter (λ p, reg_conversation_id p = conversation_id) (list_registered_processes file).
