(* ===== verification/GoalOffline.v ===== *)
(** Goals across the database: what a row keeps of a goal, that a row restores its goal,
    and that an action without a running agent does to the row what the running agent
    does to its goal. *)
From S2P Require Import Prelude Bytes Text Json LlmStream Compaction GoalState GoalPrompts GoalRuntime GoalJudge.
From S2P Require Import GoalSafety GoalBridge.

(** ** Numbers in columns *)

Lemma nonneg_as_i64 n : (Z.of_N n <= i64_max)%Z → nonneg (as_i64 n) = n.
Proof. unfold nonneg, as_i64, i64_max. intros Hn. rewrite Z.mod_small by lia. lia. Qed.
Lemma nonneg_u32_as_i64 n : (n < 4294967296)%N → nonneg_u32 (as_i64 n) = n.
Proof. intros Hn. unfold nonneg_u32. rewrite nonneg_as_i64 by (unfold i64_max; lia). by apply N.mod_small. Qed.
Lemma nonneg_le z : (z <= i64_max)%Z → (Z.of_N (nonneg z) <= i64_max)%Z.
Proof. unfold nonneg, i64_max. lia. Qed.
Lemma nonneg_u32_lt z : (nonneg_u32 z < 4294967296)%N.
Proof. by apply N.mod_lt. Qed.
Lemma parse_status_str st : parse_goal_status (goal_status_str st) = Some st.
Proof. by destruct st. Qed.
Lemma parse_verdict_str v : parse_goal_verdict (goal_verdict_str v) = Some v.
Proof. by destruct v. Qed.

(** ** What a row keeps *)

Definition persisted_view (g : GoalState) : GoalState :=
  mkGoal (objective g) (status g) (max_auto_continuations g) 0 3 (turns_used g) (last_verdict g) (last_reason g)
    (paused_reason g) 0 0 (created_at g) (last_turn_at g) (subgoals g) (contract g) (waiting_until g) (waiting_on_pid g)
    (waiting_on_session g) (waiting_reason g) 0 false false false None 0.
Definition fits (n : N) : Prop := (Z.of_N n <= i64_max)%Z.
Definition storable (g : GoalState) : Prop :=
  fits (max_auto_continuations g) ∧ fits (turns_used g) ∧ fits (created_at g) ∧ from_option fits True (last_turn_at g) ∧
  from_option fits True (waiting_until g) ∧ from_option (λ n, (n < 4294967296)%N) True (waiting_on_pid g).
Lemma fmap_nonneg o : from_option fits True o → nonneg <$> (as_i64 <$> o) = o.
Proof. destruct o; cbn; [|done]. intros. by rewrite nonneg_as_i64. Qed.

Section restore.
Context `{J : GoalJson} {HJ : GoalJsonLaws J}.
Lemma restore_upsert now session g id version :
  storable g → goal_row_to_state (mkRow id (goal_state_to_upsert now session g) version) = persisted_view g.
Proof.
  intros (Hm & Ht & Hc & Hl & Hu & Hp). unfold goal_row_to_state, persisted_view, goal_state_to_upsert. cbn.
  rewrite parse_status_str, !nonneg_as_i64, !fmap_nonneg by done. cbn.
  destruct (subgoals_roundtrip (subgoals g)) as (s & Es & Er). rewrite Es. cbn. rewrite Er. cbn.
  replace ((contract g ≫= contract_to_string) ≫= contract_from_str) with (contract g).
  2: { destruct (contract g) as [c|]; [|done]. destruct (contract_roundtrip c) as (s' & E & E'). cbn. rewrite E. by cbn. }
  replace (nonneg_u32 <$> (as_i64 <$> waiting_on_pid g)) with (waiting_on_pid g).
  2: { destruct (waiting_on_pid g); cbn; [|done]. by rewrite nonneg_u32_as_i64. }
  f_equal. destruct (last_verdict g); cbn; [|done]. by rewrite parse_verdict_str.
Qed.
(** A state that came from a row *)
Definition fresh_state (g : GoalState) : Prop := storable g ∧ no_progress_streak g = 0%N.
Lemma response_persisted g : no_progress_streak g = 0%N → goal_state_to_response (persisted_view g) = goal_state_to_response g.
Proof. intros E. unfold goal_state_to_response. cbn. by rewrite E. Qed.
(** Columns are [i64]. *)
Definition i64_columns (p : UpsertGoalParams) : Prop :=
  (up_max_turns p <= i64_max)%Z ∧ (up_turns_used p <= i64_max)%Z ∧ (up_created_at p <= i64_max)%Z ∧
  from_option (λ z, (z <= i64_max)%Z) True (up_last_turn_at p) ∧
  from_option (λ z, (z <= i64_max)%Z) True (up_waiting_until p).
Lemma row_fresh row : i64_columns (row_columns row) → fresh_state (goal_row_to_state row).
Proof.
  intros (Hm & Ht & Hc & Hl & Hu). split; [|done]. unfold storable, fits. cbn. split_and!; try by apply nonneg_le.
  - destruct (up_last_turn_at _); [by apply nonneg_le|done].
  - destruct (up_waiting_until _); [by apply nonneg_le|done].
  - destruct (up_waiting_on_pid _); [apply nonneg_u32_lt|done].
Qed.

(** ** Operations keep a state storable *)

Lemma fresh_pause why g : fresh_state g → fresh_state (pause why g).
Proof. unfold pause. destruct (status g); try done; intros [(?&?&?&?&?&?) ?]; by repeat split. Qed.
Lemma fresh_resume g : fresh_state g → fresh_state (resume g).
Proof. unfold resume. destruct (negb _); [done|]. intros [(?&?&?&?&?&?) ?]; by repeat split. Qed.
Lemma fresh_subgoals l g : fresh_state g → fresh_state (set_subgoals l g).
Proof. intros [(?&?&?&?&?&?) ?]; by repeat split. Qed.
Lemma fresh_add txt g : fresh_state g → fresh_state (add_subgoal txt g).
Proof. unfold add_subgoal. destruct (str_is_blank txt); [done|]. apply fresh_subgoals. Qed.
Lemma fresh_remove i g : fresh_state g → fresh_state (remove_subgoal i g).1.
Proof. unfold remove_subgoal. destruct (_ || _); [done|]. apply fresh_subgoals. Qed.
Lemma fresh_remove_all n g : fresh_state g → fresh_state (remove_first_subgoals n g).
Proof.
  revert g. induction n as [|n IH]; intros g Hg; [done|]. cbn [remove_first_subgoals].
  pose proof (fresh_remove 1 g Hg) as Hr. destruct (remove_subgoal 1 g) as [g' []]; auto.
Qed.
Lemma fresh_contract c g : fresh_state g → fresh_state (set_contract c g).
Proof. intros [(?&?&?&?&?&?) ?]; by repeat split. Qed.
Lemma fresh_wait target g : (target < 4294967296)%N → fresh_state g → fresh_state (wait_on_pid target g).1.
Proof. intros Ht [(?&?&?&?&?&?) ?]. unfold wait_on_pid. destruct (_ =? _)%N; [done|]. by destruct (status g). Qed.
Lemma fresh_unwait g : fresh_state g → fresh_state (unwait g).1.
Proof. unfold unwait. destruct (negb _); [done|]. intros [(?&?&?&?&?&?) ?]; by repeat split. Qed.
Lemma fresh_new epoch obj max : fits epoch → fits max → fresh_state (goal_new epoch obj max).
Proof. by repeat split. Qed.
(** Clearing the subgoals one by one ends with none. *)
Lemma remove_first_all n g : length (subgoals g) < n → subgoals (remove_first_subgoals n g) = [].
Proof.
  revert g. induction n as [|n IH]; intros g Hn; [lia|]. cbn [remove_first_subgoals]. unfold remove_subgoal.
  destruct (subgoals g) as [|x l] eqn:E; [done|]. cbn in *. apply IH. cbn. lia.
Qed.
End restore.

(** ** The repository *)

Class RepositoryLaws {W} (repo : GoalRepository (W := W)) : Prop := {
  upsert_stores p w : ∃ w' row, upsert repo p w = Ok (w', row) ∧ row_columns row = p ∧
    load_by_session repo (up_session_id p) w' = Ok (Some row);
  clear_removes session w : ∃ w', clear_row repo session w = Ok w' ∧ load_by_session repo session w' = Ok None;
}.
#[export] Instance sqlite_repo_laws : RepositoryLaws sqlite_repo.
Proof.
  split.
  - intros p t. cbn. unfold sqlite_upsert, sqlite_load. destruct (rows t !! up_session_id p);
      do 2 eexists; (split; [reflexivity|]); cbn; by rewrite lookup_insert_eq.
  - intros session t. eexists. split; [reflexivity|]. cbn. unfold sqlite_load. cbn. by rewrite lookup_delete_eq.
Qed.

Section refinement.
Context `{J : GoalJson} {HJ : GoalJsonLaws J} {W : Type} (repo : GoalRepository (W := W)) {HR : RepositoryLaws repo}.
(** What a live action promises, found in the database after the action on the row *)
Definition offline_matches (session : bytes) (w : W) (live : result LiveOutcome AppError)
    (off : result (W * GoalStatusResponse) AppError) : Prop :=
  match live with
  | Err e => off = Err e
  | Ok out =>
      ∃ w' resp, off = Ok (w', resp) ∧
      match live_persist out with
      | KeepRow => w' = w ∧ resp = live_response out
      | PersistState g =>
          resp = live_response out ∧
          ∃ row, load_by_session repo session w' = Ok (Some row) ∧ goal_row_to_state row = persisted_view g
      | DeleteRow => load_by_session repo session w' = Ok None
      end
  end.
Lemma store_matches session now w rt :
  fresh_state (state rt) →
  offline_matches session w (acted rt) (store repo (goal_state_to_upsert now session (state rt)) w).
Proof.
  intros [Hs Hn]. cbn. unfold store.
  destruct (upsert_stores (goal_state_to_upsert now session (state rt)) w) as (w' & row & -> & Hc & Hl). cbn.
  assert (Hrow : goal_row_to_state row = persisted_view (state rt)).
  { destruct row as [id p v]. cbn in Hc. subst p. by apply restore_upsert. }
  exists w', (goal_row_to_response row). split; [done|]. split; [|eauto].
  unfold goal_row_to_response. rewrite Hrow. by apply response_persisted.
Qed.
Definition live_runtime_of (row : option GoalRow) : option GoalRuntime := (λ r, from_state (goal_row_to_state r)) <$> row.
Lemma require_row session w row :
  load_by_session repo session w = Ok row →
  require_goal_row repo session w = ok_or row no_goal_error.
Proof. intros Hl. unfold require_goal_row. by rewrite Hl. Qed.
Lemma row_matches session now w r rt :
  up_session_id (row_columns r) = session → fresh_state (state rt) →
  offline_matches session w (acted rt) (store repo (row_upsert now r (state rt)) w).
Proof. intros <-. apply store_matches. Qed.
(** A row of the session, in the range of its columns *)
Definition row_of (session : bytes) (r : GoalRow) : Prop :=
  i64_columns (row_columns r) ∧ up_session_id (row_columns r) = session.
Lemma step_matches session now w r f :
  row_of session r → (∀ g, fresh_state g → fresh_state (f g)) →
  offline_matches session w (acted (on_state f (from_state (goal_row_to_state r))))
    (store repo (row_upsert now r (f (row_state r))) w).
Proof.
  intros [Hi Hsid] Hf. apply (row_matches session now w r (on_state f (from_state (goal_row_to_state r))) Hsid).
  by apply Hf, row_fresh.
Qed.
(** An action that may refuse *)
Lemma check_matches session now w r (op : GoalState → GoalState * bool) e :
  row_of session r → (∀ g, fresh_state g → fresh_state (op g).1) →
  offline_matches session w
    (let '(g, applied) := op (state (from_state (goal_row_to_state r))) in
     if applied then acted (restore g (from_state (goal_row_to_state r))) else Err e)
    (let? p := ok_or (let '(g, applied) := op (row_state r) in if applied then Some (row_upsert now r g) else None) e in
     store repo p w).
Proof.
  intros Hr Hf. pose proof (step_matches session now w r (λ g, (op g).1) Hr Hf) as Hstep.
  unfold row_state in *. cbn [state from_state] in *.
  destruct (op (goal_row_to_state r)) as [g [|]] eqn:E; [|done]. cbn [ok_or result_bind].
  unfold on_state in Hstep. cbn in Hstep. rewrite E in Hstep. exact Hstep.
Qed.
Lemma install_matches session now w epoch probe_installed obj max row :
  fits epoch → fits max →
  offline_matches session w (acted (install_goal probe_installed (goal_new epoch obj max) (live_runtime_of row)))
    (store repo (fresh_goal_upsert epoch now session obj max) w).
Proof.
  intros He Hm. set (g := goal_new epoch obj max). set (rt := install_goal _ _ _).
  assert (Hs : state rt = g) by (subst rt; by destruct row, probe_installed).
  pose proof (store_matches session now w rt) as Hst. rewrite Hs in Hst. by apply Hst, fresh_new.
Qed.
End refinement.

(** ** An instance of the JSON interface

    The bits of stdpp's encoding stand for the text. *)
Fixpoint pos_bits (p : positive) : bytes :=
  match p with xH => [] | xO p => u8 48 :: pos_bits p | xI p => u8 49 :: pos_bits p end.
Fixpoint bits_pos (l : bytes) : positive :=
  match l with [] => xH | b :: l => if (byte b =? 48)%N then xO (bits_pos l) else xI (bits_pos l) end.
Lemma bits_pos_bits p : bits_pos (pos_bits p) = p.
Proof. induction p as [p IH|p IH|]; cbn; by rewrite ?IH. Qed.
Definition contract_fields (c : GoalContract) : list bytes :=
  [outcome c; verification c; constraints c; boundaries c; stop_when c].
Definition contract_of (l : list bytes) : option GoalContract :=
  match l with [a; b; c; d; e] => Some (mkContract a b c d e) | _ => None end.
Definition bit_json : GoalJson :=
  Build_GoalJson (λ l, Some (pos_bits (encode l))) (λ s, decode (bits_pos s))
    (λ c, Some (pos_bits (encode (contract_fields c)))) (λ s, l ← decode (bits_pos s); contract_of l).
#[export] Instance bit_json_laws : GoalJsonLaws bit_json.
Proof.
  split; intros; eexists; (split; [reflexivity|]); cbn; rewrite bits_pos_bits, decode_encode; [done|].
  by destruct c.
Qed.

Section properties.
Context `{J : GoalJson} {HJ : GoalJsonLaws J}.


Context {W : Type} (repo : GoalRepository (W := W)) {HR : RepositoryLaws repo}.
(** C28. An action without a running agent refines the live one: for every request but a
    draft, the action on the persisted row fails with the same error as the action on
    the goal restored from that row, or leaves the row that the live agent would have
    persisted, with the same response; a cleared goal has no row either way. *)
Theorem offline_action_refines_live epoch now session probe_installed draft req row w :
  load_by_session repo session w = Ok row →
  from_option (row_of session) True row →
  fits epoch → from_option (λ n, (n < 4294967296)%N) True (req_pid req) → is_action req "draft" = false →
  offline_matches repo session w
    (goal_action epoch probe_installed draft req (live_runtime_of row))
    (goal_action_on_db repo epoch now session req w).
Proof.
  intros Hl Hrow He Hp Hd. unfold goal_action, goal_action_on_db. rewrite Hd.
  unfold require_goal_runtime. rewrite !(require_row repo session w row Hl).
  destruct (is_action req "set").
  { destruct (trimmed (req_objective req)) as [obj|]; [|done]. apply (install_matches repo); [exact He|].
    unfold fits, requested_max, N_clamp, i64_max. lia. }
  destruct (is_action req "pause").
  { destruct row as [r|]; [|done]. apply (step_matches repo session now w r (pause _) Hrow), fresh_pause. }
  destruct (is_action req "resume").
  { destruct row as [r|]; [|done]. apply (step_matches repo session now w r resume Hrow), fresh_resume. }
  destruct (is_action req "clear").
  { destruct (clear_removes session w) as (w' & -> & Hc). cbn. eauto. }
  destruct (is_status_action req).
  { unfold row_status. rewrite Hl. cbn. destruct row as [r|]; cbn; eauto. }
  destruct (is_action req "add_subgoal").
  { destruct (trimmed (req_subgoal req)) as [txt|]; [|done]. destruct row as [r|]; [|done].
    apply (step_matches repo session now w r (add_subgoal txt) Hrow), fresh_add. }
  destruct (is_action req "remove_subgoal").
  { destruct (req_index_1based req) as [i|]; [|done]. destruct row as [r|]; [|done].
    apply (check_matches repo session now w r (remove_subgoal (N.to_nat i)) (range_error i) Hrow), fresh_remove. }
  destruct (is_action req "clear_subgoals").
  { destruct row as [r|]; [|done]. apply (step_matches repo session now w r remove_all_subgoals Hrow). intros g. apply fresh_remove_all. }
  destruct (is_action req "set_contract").
  { destruct (req_contract req) as [dto|]; [|done]. destruct row as [r|]; [|done].
    apply (step_matches repo session now w r (set_contract _) Hrow), fresh_contract. }
  destruct (is_action req "wait").
  { destruct (req_pid req) as [target|]; [|done]. destruct row as [r|]; [|done].
    apply (check_matches repo session now w r (wait_on_pid target) (pid_error target) Hrow). intros g. by apply fresh_wait. }
  destruct (is_action req "unwait"); [|done].
  destruct row as [r|]; [|done]. apply (check_matches repo session now w r unwait (bad_request "The goal is not waiting") Hrow), fresh_unwait.
Qed.
End properties.

(** ** Witnesses *)

Definition stored_goal : GoalState :=
  mkGoal (as_bytes "ship") Waiting 8 2 3 2 (Some Continue) (Some (as_bytes "tests")) None 0 0 5 (Some 7%N) [as_bytes "docs"]
    (Some (mkContract [] (as_bytes "make test") [] [] [])) None (Some 42%N) None (Some (as_bytes "build")) 1 true false false None 0.
Definition demo_session_id : bytes := as_bytes "c1".
Definition demo_row : GoalRow := mkRow 1 (goal_state_to_upsert (J := bit_json) 9 demo_session_id stored_goal) 0.
Definition demo_table : GoalTable := mkTable {[demo_session_id := demo_row]} 2.
Definition unwait_request : GoalActionRequest := mkActionRequest (as_bytes "unwait") None None None None None None None.
Lemma offline_action_refines_live_witness :
  offline_matches (J := bit_json) sqlite_repo demo_session_id demo_table
    (goal_action 10 true (λ _, Err EmptyObjective) unwait_request (live_runtime_of (J := bit_json) (Some demo_row)))
    (goal_action_on_db (J := bit_json) sqlite_repo 10 11 demo_session_id unwait_request demo_table).
Proof.
  apply (offline_action_refines_live (J := bit_json) sqlite_repo 10 11 demo_session_id true (λ _, Err EmptyObjective)
    unwait_request (Some demo_row) demo_table).
  - reflexivity.
  - split; [|reflexivity]. unfold i64_columns, i64_max. cbn. split_and!; vm_compute; done.
  - unfold fits, i64_max. lia.
  - done.
  - reflexivity.
Defined.
