(* ===== verification/ToolGates.v ===== *)
(** What stands between a tool call of the model and the tool: the terminal confirmer
    (agent/nomi-agent/src/confirm.rs), the approvals of a host
    (agent/nomi-protocol/src/lib.rs), the part of the tool registry that execution uses
    (agent/nomi-tools/src/registry.rs), and the authority of one provider request with
    the invocation gate (agent/nomi-agent/src/tool_execution.rs). *)
From S2P Require Import Prelude Bytes Text Json Conversation.

(** ** The terminal confirmer *)

Inductive DenialReason := UserDenied | NoApprovalChannel.
Inductive ConfirmResult := Approved_ | Denied_ (why : DenialReason) | QuitTurn.
Definition denial_message (d : DenialReason) : bytes :=
  match d with
  | UserDenied => as_bytes "Tool execution denied by user"
  | NoApprovalChannel =>
      text ["Tool execution denied: no approval channel is available. Add this tool to [tools].allow_list, enable ";
            "auto-approve (YOLO), or run the write in a session with an approval channel (for delegated tasks, the ";
            "parent agent)."]
  end.
Record ToolConfirmer := mkConfirmer {
  auto_approve : bool;
  deny_unconfirmed : bool;
  denied_count : nat;
  allow_list : gset bytes;
}.
Definition confirmer_new (auto : bool) (allowed : list bytes) : ToolConfirmer :=
  mkConfirmer auto false 0 (list_to_set allowed).
Definition set_deny_unconfirmed (c : ToolConfirmer) : ToolConfirmer :=
  mkConfirmer (auto_approve c) true (denied_count c) (allow_list c).
Definition add_to_allow_list (name : bytes) (c : ToolConfirmer) : ToolConfirmer :=
  mkConfirmer (auto_approve c) (deny_unconfirmed c) (denied_count c) ({[name]} ∪ allow_list c).
Definition deny (d : DenialReason) (c : ToolConfirmer) : ToolConfirmer * ConfirmResult :=
  (mkConfirmer (auto_approve c) (deny_unconfirmed c) (S (denied_count c)) (allow_list c), Denied_ d).
Inductive LineDecision := LineApprove | LineAlways | LineQuit | LineDeny.
(** [to_lowercase] is that of Unicode: no other character becomes a letter of these words. *)
Definition classify_confirmation_line (line : bytes) : LineDecision :=
  let answer := str_lower (bytes_trim line) in
  if one_of answer ["y"; "yes"]%string then LineApprove
  else if one_of answer ["a"; "always"]%string then LineAlways
  else if one_of answer ["q"; "quit"]%string then LineQuit
  else LineDeny.
(** [line] is what standard input gives when it is read: nothing at its end or on an
    error. *)
Definition prompt_for_decision (line : option bytes) (name : bytes) (c : ToolConfirmer) : ToolConfirmer * ConfirmResult :=
  match line with
  | None => deny NoApprovalChannel c
  | Some line =>
      match classify_confirmation_line line with
      | LineApprove => (c, Approved_)
      | LineAlways => (add_to_allow_list name c, Approved_)
      | LineQuit => (c, QuitTurn)
      | LineDeny => deny UserDenied c
      end
  end.
(** Whether [check] asks at all *)
Definition asks_user (name : bytes) (c : ToolConfirmer) : bool :=
  negb (auto_approve c || bool_decide (name ∈ allow_list c) || deny_unconfirmed c).
Definition check (line : option bytes) (name : bytes) (c : ToolConfirmer) : ToolConfirmer * ConfirmResult :=
  if auto_approve c || bool_decide (name ∈ allow_list c) then (c, Approved_)
  else if deny_unconfirmed c then deny NoApprovalChannel c
  else prompt_for_decision line name c.

(** ** Approvals by a host

    A registration owns the sending half of a channel of its own.  An operation returns
    what it sends, by channel; a sender that goes without an answer is [Dropped]. *)

Inductive ToolCategory := Info | EditCategory | Exec | Mcp | Irreversible.
#[export] Instance ToolCategory_eq_dec : EqDecision ToolCategory.
Proof. solve_decision. Defined.
Definition category_str (c : ToolCategory) : bytes :=
  as_bytes match c with
           | Info => "info" | EditCategory => "edit" | Exec => "exec" | Mcp => "mcp" | Irreversible => "irreversible"
           end%string.
Inductive ToolApprovalResult := Approved | Denied (why : bytes).
Inductive SessionMode := DefaultMode | AutoEdit | Yolo.
Inductive ApprovalScope := Once | Always.
Inductive Signal := Sent (r : ToolApprovalResult) | Dropped.

Section approvals.
Context {Num : Type}.
Record ScopedToolApproval := mkScoped {
  approval_id : bytes;
  scope_msg_id : bytes;
  scope_call_id : bytes;
  scope_tool_name : bytes;
  scope_arguments : Value Num;
  expires_at_ms : Z;
}.
Record PendingApproval := mkPending {
  pending_category : bytes;
  pending_token : N;
  pending_channel : N;
  pending_scope : option ScopedToolApproval;
  pending_expires : option N;
}.
Record ToolApprovalManager := mkManager {
  pending : gmap bytes PendingApproval;
  auto_approved : gset bytes;
  session_mode : SessionMode;
  next_token : N;
  next_channel : N;
  scope_instance : bytes;
}.
Definition manager_new (instance : bytes) : ToolApprovalManager := mkManager ∅ ∅ DefaultMode 0 0 instance.
Definition set_pending (p : gmap bytes PendingApproval) (m : ToolApprovalManager) : ToolApprovalManager :=
  mkManager p (auto_approved m) (session_mode m) (next_token m) (next_channel m) (scope_instance m).
Definition with_approval_id (m : ToolApprovalManager) (token : N) (s : ScopedToolApproval) : ScopedToolApproval :=
  mkScoped (as_bytes "voice:" ++ scope_instance m ++ as_bytes ":" ++ decimal token ++ as_bytes ":" ++ scope_msg_id s)
    (scope_msg_id s) (scope_call_id s) (scope_tool_name s) (scope_arguments s) (expires_at_ms s).
Definition dropped (p : option PendingApproval) : list (N * Signal) :=
  match p with Some p => [(pending_channel p, Dropped)] | None => [] end.
(** The token counter wraps; a channel is never confused with another: its number says how
    many registrations came before. *)
Definition insert_approval (call_id : bytes) (c : ToolCategory) (scope : option ScopedToolApproval) (expires : option N)
    (m : ToolApprovalManager) : ToolApprovalManager * list (N * Signal) * (N * N) :=
  let token := ((next_token m + 1) mod (u64_max + 1))%N in
  let entry := mkPending (category_str c) token (next_channel m) (with_approval_id m token <$> scope) expires in
  (mkManager (<[call_id := entry]> (pending m)) (auto_approved m) (session_mode m) token (next_channel m + 1)%N
     (scope_instance m),
   dropped (pending m !! call_id), (token, next_channel m)).
Definition request_approval_with_token (call_id : bytes) (c : ToolCategory) (m : ToolApprovalManager) :=
  insert_approval call_id c None None m.
(** [instant] is the monotonic clock and [timeout] a duration, in nanoseconds; [wall_ms]
    is the wall clock. *)
Definition request_scoped_approval_with_token (instant wall_ms timeout : N) (call_id : bytes) (c : ToolCategory)
    (msg_id name : bytes) (arguments : Value Num) (m : ToolApprovalManager) :=
  let expires_ms := Z.min (Z.of_N (wall_ms + timeout / 1000000)) i64_max in
  insert_approval call_id c (Some (mkScoped [] msg_id call_id name arguments expires_ms)) (Some (instant + timeout)%N) m.
Definition is_scoped (call_id : bytes) (m : ToolApprovalManager) : bool :=
  match pending m !! call_id with Some p => bool_decide (is_Some (pending_scope p)) | None => false end.
Definition has_pending (call_id : bytes) (m : ToolApprovalManager) : bool :=
  bool_decide (is_Some (pending m !! call_id)).
Definition answer (approved : bool) : ToolApprovalResult := if approved then Approved else Denied (as_bytes "user_denied").
Definition resolve_scoped_once (now : N) (msg_id call_id id : bytes) (approved : bool) (m : ToolApprovalManager) :
    ToolApprovalManager * list (N * Signal) * bool :=
  match pending m !! call_id with
  | Some p =>
      match pending_scope p with
      | Some s =>
          if bool_decide (scope_msg_id s = msg_id) && bool_decide (approval_id s = id) then
            let m := set_pending (delete call_id (pending m)) m in
            if match pending_expires p with Some e => (e <=? now)%N | None => true end
            then (m, [(pending_channel p, Sent (Denied (as_bytes "approval_expired")))], false)
            else (m, [(pending_channel p, Sent (answer approved))], true)
          else (m, [], false)
      | None => (m, [], false)
      end
  | None => (m, [], false)
  end.
Definition add_auto_approve (c : bytes) (m : ToolApprovalManager) : ToolApprovalManager :=
  mkManager (pending m) ({[c]} ∪ auto_approved m) (session_mode m) (next_token m) (next_channel m) (scope_instance m).
Definition approve (call_id : bytes) (scope : ApprovalScope) (m : ToolApprovalManager) :
    ToolApprovalManager * list (N * Signal) :=
  match pending m !! call_id with
  | Some p =>
      if bool_decide (is_Some (pending_scope p)) then (m, [])
      else
        let m := set_pending (delete call_id (pending m)) m in
        let m := match scope with Always => add_auto_approve (pending_category p) m | Once => m end in
        (m, [(pending_channel p, Sent Approved)])
  | None => (m, [])
  end.
Definition resolve (call_id : bytes) (r : ToolApprovalResult) (m : ToolApprovalManager) :
    ToolApprovalManager * list (N * Signal) :=
  match pending m !! call_id with
  | Some p =>
      if match r with Approved => bool_decide (is_Some (pending_scope p)) | Denied _ => false end then (m, [])
      else (set_pending (delete call_id (pending m)) m, [(pending_channel p, Sent r)])
  | None => (m, [])
  end.
Definition mode_approves (mode : SessionMode) (c : bytes) : bool :=
  match mode with Yolo => true | AutoEdit => one_of c ["info"; "edit"]%string | DefaultMode => false end.
Definition is_auto_approved (c : bytes) (m : ToolApprovalManager) : bool :=
  mode_approves (session_mode m) c || bool_decide (c ∈ auto_approved m).
Definition set_mode (mode : SessionMode) (m : ToolApprovalManager) : ToolApprovalManager :=
  mkManager (pending m) (auto_approved m) mode (next_token m) (next_channel m) (scope_instance m).
Definition drop_pending (call_id : bytes) (m : ToolApprovalManager) : ToolApprovalManager * list (N * Signal) :=
  (set_pending (delete call_id (pending m)) m, dropped (pending m !! call_id)).
Definition drop_pending_if (call_id : bytes) (token : N) (m : ToolApprovalManager) : ToolApprovalManager * bool :=
  match pending m !! call_id with
  | Some p =>
      if (pending_token p =? token)%N then (set_pending (delete call_id (pending m)) m, true) else (m, false)
  | None => (m, false)
  end.

(** What the host does through its handle of the manager, at any time *)
Inductive HostAction :=
| HApprove (call_id : bytes) (scope : ApprovalScope)
| HResolve (call_id : bytes) (r : ToolApprovalResult)
| HResolveScoped (now : N) (msg_id call_id id : bytes) (approved : bool)
| HSetMode (mode : SessionMode)
| HAddAutoApprove (category : bytes)
| HDropPending (call_id : bytes)
| HRequest (call_id : bytes) (category : ToolCategory) (scope : option ScopedToolApproval) (expires : option N).
Definition host_action (a : HostAction) (m : ToolApprovalManager) : ToolApprovalManager * list (N * Signal) :=
  match a with
  | HApprove id scope => approve id scope m
  | HResolve id r => resolve id r m
  | HResolveScoped now msg_id call_id id approved => (resolve_scoped_once now msg_id call_id id approved m).1
  | HSetMode mode => (set_mode mode m, [])
  | HAddAutoApprove c => (add_auto_approve c m, [])
  | HDropPending id => drop_pending id m
  | HRequest id c scope expires => (insert_approval id c scope expires m).1
  end.
Fixpoint host_actions (l : list HostAction) (m : ToolApprovalManager) : ToolApprovalManager * list (N * Signal) :=
  match l with
  | [] => (m, [])
  | a :: l =>
      let '(m, now) := host_action a m in
      let '(m, later) := host_actions l m in
      (m, now ++ later)
  end.
(** The receiver of a channel sees the first signal on it. *)
Definition received (channel : N) (signals : list (N * Signal)) : option Signal :=
  snd <$> head (filter (λ s, s.1 = channel) signals).
End approvals.
Arguments ScopedToolApproval : clear implicits.
Arguments PendingApproval : clear implicits.
Arguments ToolApprovalManager : clear implicits.
Arguments HostAction : clear implicits.

(** ** The registry *)

Inductive InvocationDecision := Allow | RequireApproval (why : bytes) (limit : N) | Deny (why : bytes).
#[export] Instance InvocationDecision_eq_dec : EqDecision InvocationDecision.
Proof. solve_decision. Defined.
Record HookDef := mkHook {
  hook_name : bytes;
  tool_match : list bytes;
  file_match : list bytes;
  command : bytes;
  timeout_ms : N;
}.
Record HooksConfig := mkHooks { pre_tool_use : list HookDef; post_tool_use : list HookDef; stop : list HookDef }.
Definition merge_vec (existing incoming : list HookDef) : list HookDef :=
  foldl (λ l h, if existsb (λ h', bool_decide (hook_name h' = hook_name h)) l then l else l ++ [h]) existing incoming.
Definition merge_hooks (additional config : HooksConfig) : HooksConfig :=
  mkHooks (merge_vec (pre_tool_use config) (pre_tool_use additional))
    (merge_vec (post_tool_use config) (post_tool_use additional)) (merge_vec (stop config) (stop additional)).

Section registry.
Context {Num : Type}.
Abbreviation Value := (Value Num).
Abbreviation ContentBlock := (ContentBlock Num).
(** What the executor asks a tool (the trait [Tool]); durations are nanoseconds. *)
Record RegisteredTool := mkTool {
  tool_name : bytes;
  tool_is_deferred : bool;
  activation_identity : bytes;
  tool_category : ToolCategory;
  category_for : Value → ToolCategory;
  auto_approve_invocation : Value → ToolCategory → bool;
  is_concurrency_safe : Value → bool;
  describe : Value → bytes;
  execution_timeout : Value → N;
  max_result_size : N;
  skill_hooks_for : Value → option HooksConfig;
}.
(** The compiled schema of a tool: the error text of an input, the repair of an input
    after the schema, and the error text of a repaired input. *)
Record ToolInputContract := mkContractOf {
  schema_error : Value → option bytes;
  normalize_input : Value → Value;
  normalized_error : Value → bytes;
}.
Record ToolRegistry := mkRegistry {
  tools : list RegisteredTool;
  input_contracts : gmap bytes ToolInputContract;
  activated : gset bytes;
  invocation_policy : option (bytes → Value → InvocationDecision);
}.
Definition get_tool (reg : ToolRegistry) (name : bytes) : option RegisteredTool :=
  head (filter (λ t, tool_name t = name) (tools reg)).
Definition invocation_decision (reg : ToolRegistry) (name : bytes) (input : Value) : InvocationDecision :=
  match invocation_policy reg with Some policy => policy name input | None => Allow end.
Definition unauthorized_text (name : bytes) : bytes :=
  as_bytes "Unknown or unauthorized tool '" ++ name ++ as_bytes "'; the tool was not executed.".
(** [None] is a valid input. *)
Definition validate_input (reg : ToolRegistry) (name : bytes) (input : Value) : option bytes :=
  match input_contracts reg !! name with Some c => schema_error c input | None => Some (unauthorized_text name) end.
Context (value_eq : Value → Value → bool).
Definition prepare_input (reg : ToolRegistry) (name : bytes) (input : Value) : result Value bytes :=
  match input_contracts reg !! name with
  | None => Err (unauthorized_text name)
  | Some c =>
      match schema_error c input with
      | None => Ok input
      | Some original_error =>
          let repaired := normalize_input c input in
          if negb (value_eq repaired input) then
            match schema_error c repaired with None => Ok repaired | Some _ => Err (normalized_error c repaired) end
          else Err original_error
      end
  end.

(** ** The authority of one provider request *)

Record ToolDef := mkToolDef { def_name : bytes; def_deferred : bool }.
Record ProviderToolAuthority := mkAuthority {
  advertised : gset bytes;
  deferred : gset bytes;
  malformed_calls : gmap bytes bytes;
  plan_mode_read_only : bool;
}.
Definition from_request_tools (defs : list ToolDef) : ProviderToolAuthority :=
  mkAuthority (list_to_set (def_name <$> defs))
    (list_to_set (def_name <$> filter (λ d, def_deferred d = true) defs)) ∅ false.
Definition record_malformed_call (id error : bytes) (a : ProviderToolAuthority) : ProviderToolAuthority :=
  mkAuthority (advertised a) (deferred a) (<[id := error]> (malformed_calls a)) (plan_mode_read_only a).
Definition clear_malformed_calls (a : ProviderToolAuthority) : ProviderToolAuthority :=
  mkAuthority (advertised a) (deferred a) ∅ (plan_mode_read_only a).
Definition advertises (a : ProviderToolAuthority) (name : bytes) : bool := bool_decide (name ∈ advertised a).
Definition is_deferred (a : ProviderToolAuthority) (name : bytes) : bool := bool_decide (name ∈ deferred a).
Definition still_deferred (reg : ToolRegistry) (name : bytes) : bool :=
  match get_tool reg name with
  | Some t => tool_is_deferred t && negb (bool_decide (activation_identity t ∈ activated reg))
  | None => false
  end.
Definition overlay_live_activation (reg : ToolRegistry) (a : ProviderToolAuthority) : ProviderToolAuthority :=
  mkAuthority (advertised a) (filter (λ name, still_deferred reg name = true) (deferred a)) (malformed_calls a)
    (plan_mode_read_only a).

(** ** The invocation gate *)

Definition error_result (id content : bytes) : ContentBlock := ToolResult id content true [].
Definition value_is_object (v : Value) : bool := match v with Object _ => true | _ => false end.
Definition deferred_text (name : bytes) : bytes :=
  as_bytes "Tool '" ++ name
  ++ text ["' is deferred and its schema was not activated at the start of this model turn. Call ToolSearch for '"]
  ++ name ++ as_bytes "', then call the tool in a subsequent model turn. The tool was not executed.".
Definition malformed_text (name error : bytes) : bytes :=
  as_bytes "Invalid arguments for tool '" ++ name ++ as_bytes "': " ++ error
  ++ text [". The tool was not executed. Resend the call with its arguments as one valid JSON object."].
Definition unadvertised_text (reg : ToolRegistry) (name : bytes) : bytes :=
  match get_tool reg name with
  | None => as_bytes "Unknown tool: " ++ name ++ as_bytes ". The tool was not executed."
  | Some _ =>
      as_bytes "Tool '" ++ name
      ++ text ["' was not advertised in the provider request that produced this call. The tool was not executed."]
  end.
Definition read_only_text (name : bytes) : bytes :=
  as_bytes "Plan mode is read-only. Tool '" ++ name
  ++ text ["' was not executed. Use ExitPlanMode when the plan is ready."].
Definition not_object_text (name : bytes) : bytes :=
  as_bytes "Invalid arguments for tool '" ++ name
  ++ text ["': expected a JSON object. Correct the arguments and retry; the tool was not executed."].
Definition plan_category (reg : ToolRegistry) (name : bytes) (input : Value) : ToolCategory :=
  match get_tool reg name with
  | Some t => if value_is_object input then category_for t input else tool_category t
  | None => Info
  end.
(** The text of a refusal *)
Definition gate_error (reg : ToolRegistry) (a : ProviderToolAuthority) (id name : bytes) (input : Value) : option bytes :=
  match malformed_calls a !! id with
  | Some error => Some (malformed_text name error)
  | None =>
      if negb (advertises a name) then Some (unadvertised_text reg name)
      else if plan_mode_read_only a && negb (bool_decide (plan_category reg name input = Info)) then
        Some (read_only_text name)
      else if is_deferred a name then Some (deferred_text name)
      else if negb (value_is_object input) then Some (not_object_text name)
      else
        match validate_input reg name input with
        | Some error => Some error
        | None => match invocation_decision reg name input with Deny why => Some why | _ => None end
        end
  end.
Definition invocation_gate_result (reg : ToolRegistry) (a : ProviderToolAuthority) (call : ContentBlock) :
    option ContentBlock :=
  match call with ToolUse id name input _ => error_result id <$> gate_error reg a id name input | _ => None end.

(** ** Preparing the calls of a turn *)

Definition prepare_call_for_execution (reg : ToolRegistry) (a : ProviderToolAuthority) (call : ContentBlock) :
    ContentBlock :=
  match call with
  | ToolUse id name input extra =>
      if negb (advertises a name) || is_deferred a name || negb (value_is_object input) then call
      else
        match prepare_input reg name input with
        | Err _ => call
        | Ok prepared => if value_eq prepared input then call else ToolUse id name prepared extra
        end
  | _ => call
  end.
(** [at_] is the position of the call in the turn. *)
Record PreparedCall := mkPrepared { at_ : nat; call : ContentBlock; gate : option ContentBlock }.
Definition is_gated (p : PreparedCall) : bool := bool_decide (is_Some (gate p)).
Definition prepare_at (reg : ToolRegistry) (a : ProviderToolAuthority) (i : nat) (c : ContentBlock) : PreparedCall :=
  let c := prepare_call_for_execution reg a c in mkPrepared i c (invocation_gate_result reg a c).
Definition prepare_calls (reg : ToolRegistry) (a : ProviderToolAuthority) (calls : list ContentBlock) : list PreparedCall :=
  imap (prepare_at reg a) calls.

(** What the gate guarantees of a call it lets pass *)
Lemma gate_passed reg a id name input :
  gate_error reg a id name input = None ↔
  (malformed_calls a !! id = None) ∧ (name ∈ advertised a) ∧ (name ∉ deferred a) ∧
  (plan_mode_read_only a = true → plan_category reg name input = Info) ∧
  value_is_object input = true ∧ validate_input reg name input = None ∧
  (∀ why, invocation_decision reg name input ≠ Deny why).
Proof using Type.
  clear value_eq.
  unfold gate_error, advertises, is_deferred. destruct (malformed_calls a !! id); [naive_solver|].
  case_bool_decide as Ha; cbn; [|naive_solver].
  destruct (plan_mode_read_only a); cbn.
  - case_bool_decide as Hc; cbn; [|naive_solver]. case_bool_decide; [naive_solver|].
    destruct (value_is_object input); cbn; [|naive_solver]. destruct (validate_input reg name input); [naive_solver|].
    destruct (invocation_decision reg name input); naive_solver.
  - case_bool_decide; [naive_solver|].
    destruct (value_is_object input); cbn; [|naive_solver]. destruct (validate_input reg name input); [naive_solver|].
    destruct (invocation_decision reg name input); naive_solver.
Qed.
End registry.
Arguments RegisteredTool : clear implicits.
Arguments ToolInputContract : clear implicits.
Arguments ToolRegistry : clear implicits.
Arguments PreparedCall : clear implicits.
