(* ===== verification/ToolBatches.v ===== *)
(** Which tool calls of a turn may run side by side, and which are skipped after a
    failure (agent/nomi-agent/src/tool_execution.rs): path locks, occupancies, the
    batches of a turn, and the error cascade. *)
From S2P Require Import Prelude Bytes Text Json Conversation CodingText ToolGates.

(** ** Path locks *)

Inductive PathLock := NoLock | AllPaths | Paths (l : list bytes).
#[export] Instance PathLock_eq_dec : EqDecision PathLock.
Proof. solve_decision. Defined.
Record Occupancy := mkOccupancy { exclusive : bool; lock : PathLock }.
Definition normalize_lock_path (raw : bytes) : bytes :=
  str_lower (drop_while_end (is_byte 47) (str_replace [u8 92] [u8 47] raw)).
Definition is_workspace_wide_path (raw : bytes) : bool :=
  one_of (bytes_trim raw) [""; "."; "./"; "*"; "**"]%string.
Definition whole_workspace_tools : list string :=
  ["Bash"; "exec_command"; "write_stdin"; "Browser"; "Computer"; "LaunchApp"; "computer"; "browser"; "verify_change"]%string.
Definition is_exclusive_tool (name : bytes) : bool :=
  one_of name (["Edit"; "Write"; "ApplyPatch"]%string ++ whole_workspace_tools).
Definition path_within (p parent : bytes) : bool := str_starts_with (parent ++ [u8 47]) p.
Definition paths_touch (p q : bytes) : bool := bool_decide (p = q) || path_within p q || path_within q p.
Definition path_lock_overlaps (a b : PathLock) : bool :=
  match a, b with
  | NoLock, _ | _, NoLock => false
  | AllPaths, _ | _, AllPaths => true
  | Paths ps, Paths qs => existsb (λ p, existsb (paths_touch p) qs) ps
  end.
Definition occupancy_conflicts (a b : Occupancy) : bool :=
  if negb (exclusive a) && negb (exclusive b) then false
  else if bool_decide (lock a = NoLock) || bool_decide (lock b = NoLock) then true
  else path_lock_overlaps (lock a) (lock b).

Section locks.
Context {Num : Type}.
Abbreviation Value := (Value Num).
Abbreviation ContentBlock := (ContentBlock Num).
Definition is_nonempty (l : bytes) : bool := match l with [] => false | _ => true end.
Definition str_field (key : string) (input : Value) : option bytes := get (as_bytes key) input ≫= as_str.
Definition search_lock (p : bytes) : PathLock :=
  if is_workspace_wide_path p then AllPaths else Paths [normalize_lock_path p].
Definition read_lock (input : Value) : PathLock :=
  match get (as_bytes "file_paths") input ≫= as_array with
  | Some paths =>
      match normalize_lock_path <$> filter (λ p, is_nonempty p = true) (omap as_str paths) with
      | [] => AllPaths
      | l => Paths l
      end
  | None => match str_field "file_path" input with Some p => search_lock p | None => AllPaths end
  end.
(** [or_else] looks for a second key only where the first one is absent. *)
Definition write_lock (input : Value) : PathLock :=
  match option_or (get (as_bytes "file_path") input) (get (as_bytes "path") input) ≫= as_str with
  | Some p => if is_nonempty p then Paths [normalize_lock_path p] else AllPaths
  | None => AllPaths
  end.
Definition path_lock_for (name : bytes) (input : Value) : PathLock :=
  if is_lit name "Read" then read_lock input
  else if one_of name ["Edit"; "Write"; "ApplyPatch"]%string then write_lock input
  else if one_of name ["Grep"; "Glob"; "DirTree"; "dir_tree"]%string then
    match str_field "path" input with Some p => search_lock p | None => AllPaths end
  else if one_of name whole_workspace_tools then AllPaths
  else NoLock.
Definition tool_name_of_call (c : ContentBlock) : bytes := match c with ToolUse _ name _ _ => name | _ => [] end.
Definition occupancy_of_call (c : ContentBlock) : Occupancy :=
  match c with
  | ToolUse _ name input _ => mkOccupancy (is_exclusive_tool name) (path_lock_for name input)
  | _ => mkOccupancy true NoLock
  end.

(** ** The error cascade *)

Inductive ErrorCascadePolicy := HaltAllSubsequent | HaltAfterMutatingOrGate.
Record CascadeHalt := mkCascade { halt_all : bool; failed : list Occupancy }.
Definition cascade_default : CascadeHalt := mkCascade false [].
Definition should_halt_after (policy : ErrorCascadePolicy) (name : bytes) (is_gate_or_schema : bool) : bool :=
  match policy with
  | HaltAllSubsequent => true
  | HaltAfterMutatingOrGate => is_gate_or_schema || is_side_effect_tool name
  end.
Definition note (policy : ErrorCascadePolicy) (c : ContentBlock) (is_gate_or_schema : bool) (h : CascadeHalt) :
    CascadeHalt :=
  if negb (should_halt_after policy (tool_name_of_call c) is_gate_or_schema) then h
  else
    match policy with
    | HaltAllSubsequent => mkCascade true (failed h)
    | HaltAfterMutatingOrGate =>
        if is_gate_or_schema then mkCascade true (failed h)
        else mkCascade (halt_all h) (failed h ++ [occupancy_of_call c])
    end.
Definition should_skip (policy : ErrorCascadePolicy) (c : ContentBlock) (h : CascadeHalt) : bool :=
  if halt_all h then true
  else
    match policy with
    | HaltAllSubsequent => false
    | HaltAfterMutatingOrGate =>
        if negb (is_side_effect_tool (tool_name_of_call c)) then false
        else existsb (λ f, occupancy_conflicts f (occupancy_of_call c)) (failed h)
    end.

(** ** Batches *)

Record Batch := mkBatch { is_concurrent : bool; calls : list (PreparedCall Num); occupancy : list Occupancy }.
Definition is_safe (reg : ToolRegistry Num) (p : PreparedCall Num) (name : bytes) (input : Value) : bool :=
  negb (is_gated p) && match get_tool reg name with Some t => is_concurrency_safe t input | None => false end.
Definition call_occupancy (reg : ToolRegistry Num) (p : PreparedCall Num) (name : bytes) (input : Value) : Occupancy :=
  mkOccupancy (is_exclusive_tool name || negb (is_safe reg p name input)) (path_lock_for name input).
Definition can_join (occ : Occupancy) (b : Batch) : bool := forallb (λ o, negb (occupancy_conflicts o occ)) (occupancy b).
Definition join_batch (p : PreparedCall Num) (occ : Occupancy) (b : Batch) : Batch :=
  let occs := occupancy b ++ [occ] in
  let cs := calls b ++ [p] in
  mkBatch ((1 <? length cs) || forallb (λ o, negb (exclusive o)) occs) cs occs.
(** The batches so far, the last one first *)
Definition partition_step (reg : ToolRegistry Num) (batches : list Batch) (p : PreparedCall Num) : list Batch :=
  match call p with
  | ToolUse _ name input _ =>
      let occ := call_occupancy reg p name input in
      let single := mkBatch (is_safe reg p name input && negb (is_exclusive_tool name)) [p] [occ] in
      match batches with
      | b :: bs => if can_join occ b then join_batch p occ b :: bs else single :: b :: bs
      | [] => [single]
      end
  | _ => batches
  end.
Definition partition (reg : ToolRegistry Num) (l : list (PreparedCall Num)) : list Batch :=
  rev (foldl (partition_step reg) [] l).
End locks.
Arguments Batch : clear implicits.
