(* ===== verification/ToolExecution.v ===== *)
(** The execution of the tool calls of one turn (agent/nomi-agent/src/tool_execution.rs):
    one call, and the two executors, which confirm on a terminal or through the
    approvals of a host.  What tools, hooks, the user and the host answer is a [World]
    that fixes it by the position of a call in its turn; what the executor does to them
    is a trace of effects. *)
From S2P Require Import Prelude Utf8 Bytes Text Json Conversation CodingText Anchors EditOps ToolGates ToolBatches.

(** ** Bounding an output (nomi-tools/src/output_truncation.rs) *)

Definition MAX_PROVIDER_TOOL_OUTPUT_BYTES : N := 32768.
Definition NANOS_PER_MS : N := 1000000.
Definition NANOS_PER_SEC : N := 1000000000.
Definition DEFAULT_TOOL_EXECUTION_TIMEOUT : N := 600 * NANOS_PER_SEC.
Definition TOOL_APPROVAL_TIMEOUT : N := 120 * NANOS_PER_SEC.
Definition truncation_marker (removed : N) : bytes :=
  [u8 10] ++ as_bytes "…" ++ decimal removed ++ as_bytes " chars truncated…" ++ [u8 10].
Record SplitState := mkSplit { prefix_end : nat; suffix_start : option nat; removed_chars : nat }.
Definition split_step (beginning tail_start : nat) (s : SplitState) (oc : nat * bytes) : SplitState :=
  let '(at_, c) := oc in
  if at_ + length c <=? beginning then mkSplit (at_ + length c) (suffix_start s) (removed_chars s)
  else if tail_start <=? at_ then mkSplit (prefix_end s) (option_or (suffix_start s) (Some at_)) (removed_chars s)
  else mkSplit (prefix_end s) (suffix_start s) (S (removed_chars s)).
Definition split_string (s : bytes) (beginning end_ : nat) : nat * bytes * bytes :=
  let st := foldl (split_step beginning (length s - end_)) (mkSplit 0 None 0) (char_indices s) in
  let start := Nat.max (default (length s) (suffix_start st)) (prefix_end st) in
  (removed_chars st, take (prefix_end st) s, drop start s).
Definition truncate_middle (s : bytes) (max_bytes : nat) : bytes :=
  if bool_decide (s = []) then []
  else if max_bytes =? 0 then truncation_marker (N.of_nat (length (chars s)))
  else if length s <=? max_bytes then s
  else
    let '(removed, front, back) := split_string s (max_bytes / 2) (max_bytes - max_bytes / 2) in
    front ++ truncation_marker (N.of_nat removed) ++ back.
(** [locator] names the stored content when storing it succeeded. *)
Definition truncate_result (content : bytes) (max_bytes : nat) (locator : option bytes) : bytes :=
  if length content <=? max_bytes then content
  else
    match locator with
    | None => truncate_middle content max_bytes
    | Some l => l ++ [u8 10] ++ truncate_middle content (max_bytes - (length l + 16))
    end.

Section execution.
Context {Num Modifier Timing : Type} (value_eq : Value Num → Value Num → bool) (to_string : Value Num → bytes).
Context (redact compact_output : bytes → bytes).
Abbreviation Value := (Value Num).
Abbreviation ContentBlock := (ContentBlock Num).
Abbreviation ToolRegistry := (ToolRegistry Num).
Abbreviation PreparedCall := (PreparedCall Num).
Abbreviation ToolApprovalManager := (ToolApprovalManager Num).

(** ** What the outside answers *)

Inductive ToolReply :=
| Returned (content : bytes) (is_error : bool) (images : list ToolImage) (modifier : option Modifier)
| Panicked (message : bytes).
(** One invocation: whether a hook before it blocks, what the tool replies, the locator
    of a reply too long to send, and whether the deadline passed: [Some false] before
    the tool was called, [Some true] after. *)
Record ToolRun := mkRun {
  hook_error : option bytes;
  reply : ToolReply;
  locator : option bytes;
  deadline_passed : option bool;
}.
(** By the position of a call: the line typed when it is asked for, its run, its timing,
    and what the host does before it is looked at in its batch, before it is handled,
    and while its approval is awaited; the clocks when its approval is requested. *)
Record World := mkWorld {
  line_of : nat → option bytes;
  run_of : nat → option HooksConfig → ToolRun;
  timing_of : nat → Timing;
  host_checking : nat → list (HostAction Num);
  host_before : nat → list (HostAction Num);
  host_waiting : nat → list (HostAction Num);
  instant_of : nat → N;
  wall_ms_of : nat → N;
}.
Inductive ProtocolEvent :=
| ToolRequest (msg_id call_id name : bytes) (category : ToolCategory) (args : Value) (description : bytes)
| ToolRunning (msg_id call_id name : bytes)
| ToolResultEvent (msg_id call_id name : bytes) (success : bool) (output : bytes)
| ToolCancelled (msg_id call_id reason : bytes).
Inductive Effect :=
| Prompted (at_ : nat) (name display : bytes)
| Registered (at_ : nat) (number : N)    (* an approval, and how many the manager had registered before *)
| Emitted (e : ProtocolEvent)
| Dispatched (at_ : nat) (id name : bytes) (input : Value) (scope : bytes).

(** ** The state of a turn

    [gatekeeper] is the confirmer or the approval manager.  Each result is kept with the
    position of its call. *)
Record Turn (G : Type) := mkTurn {
  results : list (nat * ContentBlock);
  modifiers : list (option Modifier);
  timings : gmap bytes Timing;
  cascade : CascadeHalt;
  hooks : option HooksConfig;
  gatekeeper : G;
  trace : list Effect;
}.
Arguments mkTurn {G}.
Arguments results {G}.
Arguments modifiers {G}.
Arguments timings {G}.
Arguments cascade {G}.
Arguments hooks {G}.
Arguments gatekeeper {G}.
Arguments trace {G}.
Section turn.
Context {G : Type}.
Implicit Types (t : Turn G).
Definition turn_start (h : option HooksConfig) (g : G) : Turn G := mkTurn [] [] ∅ cascade_default h g [].
Definition push (i : nat) (b : ContentBlock) (m : option Modifier) t : Turn G :=
  mkTurn (results t ++ [(i, b)]) (modifiers t ++ [m]) (timings t) (cascade t) (hooks t) (gatekeeper t) (trace t).
Definition record_timing (c : ContentBlock) (w : Timing) t : Turn G :=
  mkTurn (results t) (modifiers t)
    (match c with ToolUse id _ _ _ => <[id := w]> (timings t) | _ => timings t end)
    (cascade t) (hooks t) (gatekeeper t) (trace t).
Definition on_cascade (f : CascadeHalt → CascadeHalt) t : Turn G :=
  mkTurn (results t) (modifiers t) (timings t) (f (cascade t)) (hooks t) (gatekeeper t) (trace t).
Definition set_hooks (h : option HooksConfig) t : Turn G :=
  mkTurn (results t) (modifiers t) (timings t) (cascade t) h (gatekeeper t) (trace t).
Definition set_gatekeeper (g : G) t : Turn G :=
  mkTurn (results t) (modifiers t) (timings t) (cascade t) (hooks t) g (trace t).
Definition log (es : list Effect) t : Turn G :=
  mkTurn (results t) (modifiers t) (timings t) (cascade t) (hooks t) (gatekeeper t) (trace t ++ es).
End turn.

(** ** One call *)

Definition call_id (c : ContentBlock) : bytes := match c with ToolUse id _ _ _ => id | _ => [] end.
Definition block_is_error (b : ContentBlock) : bool := match b with ToolResult _ _ e _ => e | _ => false end.
Definition SKIPPED_AFTER_PRIOR_ERROR : bytes :=
  text ["Skipped because a previous tool call in this assistant turn failed. Inspect the failed result first, then ";
        "decide whether to retry with a larger timeout, use exec_command/write_stdin for long-running commands, or ";
        "choose a different next step. Do not assume this step ran."].
Definition skipped_after_prior_error (c : ContentBlock) : ContentBlock :=
  error_result (call_id c) SKIPPED_AFTER_PRIOR_ERROR.
Definition host_policy_text : bytes :=
  text ["Host policy requires an explicit approval for this exact tool invocation. The tool was not executed."].
Definition needs_host_approval (reg : ToolRegistry) (name : bytes) (input : Value) : bool :=
  match invocation_decision reg name input with RequireApproval _ _ => true | _ => false end.
Definition deadline_of (reg : ToolRegistry) (name : bytes) (input : Value) : N :=
  let limit :=
    match get_tool reg name with Some t => execution_timeout t input | None => DEFAULT_TOOL_EXECUTION_TIMEOUT end in
  if (limit =? 0)%N then NANOS_PER_MS else limit.
Definition deadline_text (name : bytes) (limit : N) : bytes :=
  as_bytes "Tool '" ++ name ++ as_bytes "' timed out after " ++ decimal (limit / NANOS_PER_MS)
  ++ text [" ms. The invocation was cancelled before a result was available; do not assume its side effects ";
           "completed. Inspect the current state before retrying."].
Definition panic_text (name message : bytes) : bytes :=
  as_bytes "Tool '" ++ name ++ as_bytes "' panicked and was recovered (the agent stays alive): " ++ message.
(** The content sent back: secrets are removed before it may reach the store, and once
    more at the end. *)
Definition post_process (t : RegisteredTool Num) (r : ToolRun) (content : bytes) : bytes :=
  let max := N.to_nat (N.min (max_result_size t) MAX_PROVIDER_TOOL_OUTPUT_BYTES) in
  compact_output (truncate_result (redact content) max (locator r)).
Definition reply_block (t : RegisteredTool Num) (id name : bytes) (r : ToolRun) : ContentBlock * option Modifier :=
  match reply r with
  | Returned content is_error images m =>
      (ToolResult id (redact (post_process t r content)) is_error images, if is_error then None else m)
  | Panicked message => (error_result id (redact (post_process t r (panic_text name message))), None)
  end.
(** Within the deadline: the result, and whether the tool was called *)
Definition execute_single_without_deadline (reg : ToolRegistry) (h : option HooksConfig) (r : ToolRun)
    (id name : bytes) (input : Value) : bool * (ContentBlock * option Modifier) :=
  match h, hook_error r with
  | Some _, Some e => (false, (error_result id (as_bytes "Blocked by hook: " ++ e), None))
  | _, _ =>
      match get_tool reg name with
      | Some t => (true, reply_block t id name r)
      | None => (false, (error_result id (redact (as_bytes "Unknown tool: " ++ name)), None))
      end
  end.
Definition execute_single (reg : ToolRegistry) (a : ProviderToolAuthority) (scope : bytes) (w : World) (i : nat)
    (c : ContentBlock) (h : option HooksConfig) (approved : bool) : list Effect * (ContentBlock * option Modifier) :=
  match c with
  | ToolUse id name input _ =>
      match invocation_gate_result reg a c with
      | Some refused => ([], (refused, None))
      | None =>
          if negb approved && needs_host_approval reg name input then ([], (error_result id host_policy_text, None))
          else
            let r := run_of w i h in
            let '(called, outcome) := execute_single_without_deadline reg h r id name input in
            let late := (error_result id (deadline_text name (deadline_of reg name input)), None) in
            let effects (b : bool) := if b then [Dispatched i id name input scope] else [] in
            match deadline_passed r with
            | None => (effects called, outcome)
            | Some reached => (effects (called && reached), late)
            end
      end
  | _ => ([], (c, None))
  end.
Definition maybe_merge_skill_hooks (reg : ToolRegistry) (c : ContentBlock) (h : option HooksConfig) : option HooksConfig :=
  match h, c with
  | Some config, ToolUse _ name input _ =>
      if is_lit name "Skill" then
        match get_tool reg name ≫= (λ t, skill_hooks_for t input) with
        | Some additional => Some (merge_hooks additional config)
        | None => h
        end
      else h
  | _, _ => h
  end.

Context (reg : ToolRegistry) (a : ProviderToolAuthority) (scope : bytes) (policy : ErrorCascadePolicy) (w : World).
(** Executing a call that may run, and accounting for it; hooks are merged in sequence
    only. *)
Definition run {G} (p : PreparedCall) (approved : bool) (t : Turn G) : list Effect * (ContentBlock * option Modifier) :=
  execute_single reg a scope w (at_ p) (call p) (hooks t) approved.
Definition account {G} (p : PreparedCall) (merges : bool) (b : ContentBlock) (t : Turn G) : Turn G :=
  let t := record_timing (call p) (timing_of w (at_ p)) t in
  if block_is_error b then on_cascade (note policy (call p) false) t
  else if merges then set_hooks (maybe_merge_skill_hooks reg (call p) (hooks t)) t else t.
Definition run_call {G} (p : PreparedCall) (merges : bool) (t : Turn G) : Turn G :=
  let '(effects, (b, m)) := run p false t in push (at_ p) b m (account p merges b (log effects t)).
(** Refuses a call with an error result that halts the rest *)
Definition refuse {G} (p : PreparedCall) (b : ContentBlock) (t : Turn G) : Turn G :=
  push (at_ p) b None (on_cascade (note policy (call p) true) t).
Definition skips {G} (t : Turn G) (p : PreparedCall) : bool := should_skip policy (call p) (cascade t).

(** ** The executor on a terminal *)

Definition truncate_display (s : bytes) (max : nat) : bytes :=
  if length s <=? max then s else concat (take max (chars s)) ++ as_bytes "...".
Inductive Confirmation := Confirmed | Refused (b : ContentBlock) | Quitted.
Definition confirm_call (p : PreparedCall) (t : Turn ToolConfirmer) : Turn ToolConfirmer * Confirmation :=
  match call p with
  | ToolUse id name input _ =>
      let c := gatekeeper t in
      let shown := truncate_display (to_string input) 200 in
      let '(c', answer) := check (line_of w (at_ p)) name c in
      let t := set_gatekeeper c' (log (if asks_user name c then [Prompted (at_ p) name shown] else []) t) in
      (t, match answer with
          | Approved_ => Confirmed
          | Denied_ why => Refused (error_result id (denial_message why))
          | QuitTurn => Quitted
          end)
  | _ => (t, Confirmed)
  end.
Definition skip_call {G} (t : Turn G) (p : PreparedCall) : Turn G :=
  push (at_ p) (skipped_after_prior_error (call p)) None t.

(** A concurrent batch: refusals are noted, then every other call is confirmed, and
    what was confirmed runs. [None] is a quit. *)
Definition note_gated {G} (t : Turn G) (p : PreparedCall) : Turn G :=
  if is_gated p then on_cascade (note policy (call p) true) t else t.
Fixpoint confirm_all (l : list PreparedCall) (t : Turn ToolConfirmer) :
    Turn ToolConfirmer * option (list (option ContentBlock)) :=
  match l with
  | [] => (t, Some [])
  | p :: l =>
      match gate p with
      | Some refused =>
          let '(t, ds) := confirm_all l t in (t, cons (Some refused) <$> ds)
      | None =>
          let '(t, answer) := confirm_call p t in
          match answer with
          | Quitted => (t, None)
          | Refused b =>
              let '(t, ds) := confirm_all l (on_cascade (note policy (call p) true) t) in (t, cons (Some b) <$> ds)
          | Confirmed => let '(t, ds) := confirm_all l t in (t, cons None <$> ds)
          end
      end
  end.
Definition settle {G} (t : Turn G) (pd : PreparedCall * option ContentBlock) : Turn G :=
  let '(p, d) := pd in
  match d with Some b => push (at_ p) b None t | None => run_call p false t end.
Definition run_concurrent (l : list PreparedCall) (t : Turn ToolConfirmer) : Turn ToolConfirmer * bool :=
  let '(t, ds) := confirm_all l (foldl note_gated t l) in
  match ds with
  | None => (t, false)
  | Some ds => (foldl settle t (zip l ds), true)
  end.
(** In sequence; the flag is false when the user quits. *)
Fixpoint run_sequence (l : list PreparedCall) (t : Turn ToolConfirmer) : Turn ToolConfirmer * bool :=
  match l with
  | [] => (t, true)
  | p :: l =>
      if skips t p then run_sequence l (skip_call t p)
      else
        match gate p with
        | Some refused => run_sequence l (refuse p refused t)
        | None =>
            let '(t, answer) := confirm_call p t in
            match answer with
            | Quitted => (t, false)
            | Refused b => run_sequence l (refuse p b t)
            | Confirmed => run_sequence l (run_call p true t)
            end
        end
  end.
Definition run_batch (b : Batch Num) (t : Turn ToolConfirmer) : Turn ToolConfirmer * bool :=
  let pending := filter (λ p, skips t p = false) (calls b) in
  let t := foldl skip_call t (filter (λ p, skips t p = true) (calls b)) in
  if (1 <? length pending) && is_concurrent b then run_concurrent pending t else run_sequence pending t.
Fixpoint run_batches {G} (one : Batch Num → Turn G → Turn G * bool) (l : list (Batch Num)) (t : Turn G) :
    Turn G * bool :=
  match l with
  | [] => (t, true)
  | b :: l => let '(t, go_on) := one b t in if go_on then run_batches one l t else (t, false)
  end.
Definition execute_tool_calls_scoped (tool_calls : list ContentBlock) (h : option HooksConfig) (c : ToolConfirmer) :
    Turn ToolConfirmer * bool :=
  run_batches run_batch (partition reg (prepare_calls value_eq reg a tool_calls)) (turn_start h c).

(** ** The executor with a host

    [scope] is the identifier of the message. *)
Context (auto : bool) (allowed : list bytes).
Abbreviation HostTurn := (Turn ToolApprovalManager).
Definition call_needs_interactive_approval (c : ContentBlock) (m : ToolApprovalManager) : bool :=
  match c with
  | ToolUse _ name input _ =>
      if needs_host_approval reg name input then true
      else if auto then false
      else
        match get_tool reg name with
        | None => false
        | Some t =>
            let cat := category_for t input in
            negb (auto_approve_invocation t input cat) && negb (bool_decide (name ∈ allowed))
            && negb (is_auto_approved (category_str cat) m)
        end
  | _ => false
  end.
Definition emit (es : list ProtocolEvent) (t : HostTurn) : HostTurn := log (Emitted <$> es) t.
Definition result_event (c b : ContentBlock) (success : bool) : list ProtocolEvent :=
  match c, b with
  | ToolUse id name _ _, ToolResult _ content _ _ => [ToolResultEvent scope id name success content]
  | _, _ => []
  end.
Definition host_acts (l : list (HostAction Num)) (t : HostTurn) : HostTurn :=
  set_gatekeeper (host_actions l (gatekeeper t)).1 t.
Definition skip_call_emit (t : HostTurn) (p : PreparedCall) : HostTurn :=
  let b := skipped_after_prior_error (call p) in push (at_ p) b None (emit (result_event (call p) b false) t).
(** Whether the batch needs nobody's approval; the host may act between two checks. *)
Fixpoint unprompted (l : list PreparedCall) (t : HostTurn) : HostTurn * bool :=
  match l with
  | [] => (t, true)
  | p :: l =>
      let t := host_acts (host_checking w (at_ p)) t in
      if is_gated p || call_needs_interactive_approval (call p) (gatekeeper t) then (t, false) else unprompted l t
  end.
Definition running_event (p : PreparedCall) : list ProtocolEvent :=
  match call p with ToolUse id name _ _ => [ToolRunning scope id name] | _ => [] end.
Definition report (merges : bool) (t : HostTurn) (po : PreparedCall * (ContentBlock * option Modifier)) : HostTurn :=
  let '(p, (b, m)) := po in
  push (at_ p) b m (account p merges b (emit (result_event (call p) b (negb (block_is_error b))) t)).
Definition run_and_report (p : PreparedCall) (approved : bool) (t : HostTurn) : HostTurn :=
  let t := emit (running_event p) t in
  let '(effects, outcome) := run p approved t in report true (log effects t) (p, outcome).
(** A concurrent batch: all calls run before the first result is reported. *)
Definition run_together (l : list PreparedCall) (t : HostTurn) : HostTurn :=
  let t := emit (concat (running_event <$> l)) t in
  let outs := (λ p, run p false t) <$> l in
  foldl (report false) (log (concat (fst <$> outs)) t) (zip l (snd <$> outs)).
Definition request_approval (p : PreparedCall) (id name : bytes) (input : Value) (limit : N) (m : ToolApprovalManager) :
    ToolApprovalManager * (N * N) :=
  let cat := match get_tool reg name with Some t => category_for t input | None => Exec end in
  let '(m, _, ids) :=
    if needs_host_approval reg name input then
      request_scoped_approval_with_token (instant_of w (at_ p)) (wall_ms_of w (at_ p)) limit id cat scope name input m
    else request_approval_with_token id cat m in
  (m, ids).
Definition approval_limit (name : bytes) (input : Value) : N :=
  match invocation_decision reg name input with
  | RequireApproval _ limit => N.min TOOL_APPROVAL_TIMEOUT limit
  | _ => TOOL_APPROVAL_TIMEOUT
  end.
Inductive Awaited := ApprovedByHost | DeniedByHost (why : bytes) | Disconnected | TimedOutWaiting.
Definition wait_for_tool_approval (i : nat) (id : bytes) (token channel : N) (m : ToolApprovalManager) :
    ToolApprovalManager * Awaited :=
  let '(m, signals) := host_actions (host_waiting w i) m in
  match received channel signals with
  | Some (Sent Approved) => (m, ApprovedByHost)
  | Some (Sent (Denied why)) => (m, DeniedByHost why)
  | Some Dropped => (m, Disconnected)
  | None => ((drop_pending_if id token m).1, TimedOutWaiting)
  end.
Definition timeout_reason (limit : N) : bytes :=
  as_bytes "Tool approval timed out after " ++ decimal (limit / NANOS_PER_SEC)
  ++ text [" seconds; the tool was not executed"].
Definition timeout_text (limit : N) : bytes :=
  timeout_reason limit
  ++ text [". Do not assume any side effects completed; inspect the current state before retrying."].
(** Asks the host for one call *)
Definition ask_host (p : PreparedCall) (id name : bytes) (input : Value) (t : HostTurn) : HostTurn * Awaited :=
  let '(m, (token, channel)) := request_approval p id name input (approval_limit name input) (gatekeeper t) in
  let tool := get_tool reg name in
  let cat := match tool with Some t => category_for t input | None => Exec end in
  let shown := match tool with Some t => describe t input | None => [] end in
  let t := emit [ToolRequest scope id name cat input shown] (log [Registered (at_ p) channel] (set_gatekeeper m t)) in
  let '(m, answer) := wait_for_tool_approval (at_ p) id token channel (gatekeeper t) in
  (set_gatekeeper m t, answer).
Fixpoint run_host_sequence (l : list PreparedCall) (t : HostTurn) : HostTurn * bool :=
  match l with
  | [] => (t, true)
  | p :: l =>
      let t := host_acts (host_before w (at_ p)) t in
      if skips t p then run_host_sequence l (skip_call_emit t p)
      else
        match call p with
        | ToolUse id name input _ =>
            match gate p with
            | Some refused => run_host_sequence l (refuse p refused (emit (result_event (call p) refused false) t))
            | None =>
                if call_needs_interactive_approval (call p) (gatekeeper t) then
                  let limit := approval_limit name input in
                  let '(t, answer) := ask_host p id name input t in
                  match answer with
                  | ApprovedByHost => run_host_sequence l (run_and_report p true t)
                  | DeniedByHost why =>
                      let b := error_result id (as_bytes "Tool denied: " ++ why) in
                      run_host_sequence l (refuse p b (emit [ToolCancelled scope id why] t))
                  | Disconnected => (t, false)
                  | TimedOutWaiting =>
                      let b := error_result id (timeout_text limit) in
                      run_host_sequence l
                        (refuse p b (emit (ToolCancelled scope id (timeout_reason limit) :: result_event (call p) b false) t))
                  end
                else run_host_sequence l (run_and_report p false t)
            end
        | _ => run_host_sequence l t
        end
  end.
Definition run_host_batch (b : Batch Num) (t : HostTurn) : HostTurn * bool :=
  let pending := filter (λ p, skips t p = false) (calls b) in
  let t := foldl skip_call_emit t (filter (λ p, skips t p = true) (calls b)) in
  match pending with
  | [] => (t, true)
  | _ =>
      let '(t, free) := unprompted pending t in
      if (1 <? length pending) && is_concurrent b && free then
        (run_together pending t, true)
      else run_host_sequence pending t
  end.
Definition execute_tool_calls_with_approval (tool_calls : list ContentBlock) (h : option HooksConfig)
    (m : ToolApprovalManager) : HostTurn * bool :=
  run_batches run_host_batch (partition reg (prepare_calls value_eq reg a tool_calls)) (turn_start h m).
End execution.
Arguments Turn : clear implicits.
Arguments World : clear implicits.
Arguments Effect : clear implicits.
Arguments mkTurn {Num Modifier Timing G}.
Arguments results {Num Modifier Timing G}.
Arguments modifiers {Num Modifier Timing G}.
Arguments timings {Num Modifier Timing G}.
Arguments cascade {Num Modifier Timing G}.
Arguments hooks {Num Modifier Timing G}.
Arguments gatekeeper {Num Modifier Timing G}.
Arguments trace {Num Modifier Timing G}.
