(* ===== verification/ToolTheorems.v ===== *)
(** The properties of tool execution: what a batch may hold, that every call is answered
    once, that nothing runs without the gate and the consent of the user or the host,
    and that failures halt what depends on them. *)
From S2P Require Import Prelude Utf8 Bytes Text Json Conversation CodingText Anchors EditOps ToolGates ToolBatches.
From S2P Require Import ToolExecution.

(** ** Batches *)

(** Two calls that may overlap in time: neither excludes others, or both keep to known
    paths and none of one is, or lies within, one of the other. *)
Definition apart (o o' : Occupancy) : Prop :=
  (exclusive o = false ∧ exclusive o' = false) ∨
  ∃ ps qs, lock o = Paths ps ∧ lock o' = Paths qs ∧
    ∀ p q, p ∈ ps → q ∈ qs → p ≠ q ∧ path_within p q = false ∧ path_within q p = false.
Lemma existsb_false {A} (f : A → bool) l : existsb f l = false ↔ ∀ x, x ∈ l → f x = false.
Proof.
  induction l as [|x l IH]; cbn; [split; [intros _ x Hx; by apply elem_of_nil in Hx|done]|].
  rewrite orb_false_iff, IH. setoid_rewrite elem_of_cons. naive_solver.
Qed.
Lemma filter_bool_perm {A} (f : A → bool) l : filter (λ x, f x = true) l ++ filter (λ x, f x = false) l ≡ₚ l.
Proof.
  induction l as [|x l IH]; [done|]. destruct (f x) eqn:Hf.
  - rewrite filter_cons_True by done. rewrite filter_cons_False by congruence. cbn. by rewrite IH.
  - rewrite filter_cons_False by congruence. rewrite filter_cons_True by done. by rewrite <- Permutation_middle, IH.
Qed.
Lemma paths_touch_false p q : paths_touch p q = false ↔ p ≠ q ∧ path_within p q = false ∧ path_within q p = false.
Proof. unfold paths_touch. rewrite !orb_false_iff, bool_decide_eq_false. tauto. Qed.
Lemma conflict_free o o' : occupancy_conflicts o o' = false ↔ apart o o'.
Proof.
  unfold occupancy_conflicts, apart.
  assert (Hp : bool_decide (lock o = NoLock) || bool_decide (lock o' = NoLock) = false ∧
      path_lock_overlaps (lock o) (lock o') = false
    ↔ ∃ ps qs, lock o = Paths ps ∧ lock o' = Paths qs ∧
        ∀ p q, p ∈ ps → q ∈ qs → p ≠ q ∧ path_within p q = false ∧ path_within q p = false).
  { destruct (lock o) as [| |ps], (lock o') as [| |qs]; cbn;
      try (split; [intros [? ?]; discriminate|intros (? & ? & ? & ? & ?); discriminate]).
    rewrite existsb_false. setoid_rewrite existsb_false. setoid_rewrite paths_touch_false. split.
    - intros [_ H]. exists ps, qs. split_and!; [done|done|]. intros p q Hp Hq. by apply H.
    - intros (? & ? & [= <-] & [= <-] & H). split; [done|]. intros p Hp q Hq. by apply H. }
  destruct (exclusive o), (exclusive o'); cbn; [..|split; [by left|done]];
    (destruct (bool_decide (lock o = NoLock) || bool_decide (lock o' = NoLock));
     [split; [done|intros [[? ?]|H]; [done|]]; by apply Hp in H as [? _]
     |split; [intros H; right; by apply Hp|intros [[? ?]|H]; [done|]]; by apply Hp in H as [_ ?]]).
Qed.

Section partition.
Context {Num : Type} (reg : ToolRegistry Num).
Abbreviation PreparedCall := (PreparedCall Num).
Abbreviation Batch := (Batch Num).
Implicit Types (l : list PreparedCall) (p : PreparedCall) (b : Batch).
Definition is_use p : bool := is_tool_use (call p).
Definition occ_of p : Occupancy :=
  match call p with ToolUse _ name input _ => call_occupancy reg p name input | _ => mkOccupancy true NoLock end.
(** The calls of a batch keep apart, and all of them are tool uses. *)
Definition batch_ok b : Prop :=
  occupancy b = occ_of <$> calls b ∧ ForallOrdPairs apart (occ_of <$> calls b) ∧
  calls b ≠ [] ∧ Forall (λ p, is_use p = true) (calls b).
(** The first call of a later batch conflicts with a call of the batch before it. *)
Definition forced b b' : Prop := ∃ o p, o ∈ occ_of <$> calls b ∧ head (calls b') = Some p ∧ ¬ apart o (occ_of p).
Fixpoint chained (bs : list Batch) : Prop :=
  match bs with b' :: (b :: _) as rest => forced b b' ∧ chained rest | _ => True end.
Lemma can_join_apart p b : batch_ok b → can_join (occ_of p) b = true ↔ ∀ o, o ∈ occ_of <$> calls b → apart o (occ_of p).
Proof.
  intros (Ho & _). unfold can_join. rewrite Ho, forallb_forall. setoid_rewrite negb_true_iff.
  setoid_rewrite conflict_free. by setoid_rewrite list_elem_of_In.
Qed.
Lemma ordered_snoc {A} (R : A → A → Prop) xs x : ForallOrdPairs R xs → (∀ y, y ∈ xs → R y x) → ForallOrdPairs R (xs ++ [x]).
Proof.
  induction 1 as [|y xs Hy _ IH]; cbn; intros Hx; [by repeat constructor|]. constructor.
  - apply Forall_app. split; [done|]. constructor; [|done]. apply Hx. by left.
  - apply IH. intros z Hz. apply Hx. by right.
Qed.
Lemma partition_step_spec bs p :
  Forall batch_ok bs → chained bs →
  Forall batch_ok (partition_step reg bs p) ∧ chained (partition_step reg bs p) ∧
  concat (calls <$> rev (partition_step reg bs p)) = concat (calls <$> rev bs) ++ filter (λ p, is_use p = true) [p].
Proof.
  intros Hok Hch. unfold partition_step. destruct (call p) as [|id name input extra| | |] eqn:Hc.
  all: try (rewrite filter_cons_False, filter_nil, app_nil_r by (unfold is_use; rewrite Hc; done); done).
  rewrite filter_cons_True, filter_nil by (unfold is_use; rewrite Hc; done).
  assert (Hocc : call_occupancy reg p name input = occ_of p) by (unfold occ_of; by rewrite Hc). rewrite Hocc.
  set (single := mkBatch _ [p] [occ_of p]).
  assert (Hs : batch_ok single).
  { split_and!; [done|by repeat constructor|done|]. repeat constructor. unfold is_use. by rewrite Hc. }
  destruct bs as [|b bs]; [split_and!; [by constructor|done|done]|].
  apply Forall_cons in Hok as [Hb Hok].
  destruct (can_join (occ_of p) b) eqn:Hj.
  - pose proof (proj1 (can_join_apart p b Hb) Hj) as Ha. destruct Hb as (Ho & Hp & Hne & Hu). split_and!.
    + constructor; [|done]. split_and!; cbn.
      * by rewrite Ho, fmap_app.
      * rewrite fmap_app. by apply ordered_snoc.
      * by destruct (calls b).
      * apply Forall_app. split; [done|]. repeat constructor. unfold is_use. by rewrite Hc.
    + destruct bs as [|b' bs]; [done|]. destruct Hch as [(o & q & Hin & Hh & Hn) Hch]. split; [|done].
      exists o, q. split_and!; [done| |done]. cbn. by destruct (calls b).
    + cbn. rewrite ?fmap_app, ?concat_app. cbn. rewrite ?app_nil_r. by rewrite ?app_assoc.
  - split_and!; [by apply Forall_cons_2, Forall_cons_2| |].
    + split; [|done]. assert (Hn : ¬ ∀ o, o ∈ occ_of <$> calls b → apart o (occ_of p)).
      { intros H. apply (can_join_apart p b Hb) in H. congruence. }
      destruct (decide (Exists (λ o, occupancy_conflicts o (occ_of p) = true) (occ_of <$> calls b))) as [He|He].
      * apply Exists_exists in He as (o & Hin & Hcf). exists o, p. split_and!; [done|done|].
        intros Ha%conflict_free. congruence.
      * destruct Hn. intros o Hin. apply conflict_free. apply not_true_is_false. intros Hcf. apply He, Exists_exists. eauto.
    + cbn. rewrite ?fmap_app, ?concat_app. cbn. by rewrite ?app_nil_r.
Qed.
Lemma partition_spec l :
  Forall batch_ok (partition reg l) ∧ chained (rev (partition reg l)) ∧
  concat (calls <$> partition reg l) = filter (λ p, is_use p = true) l.
Proof.
  unfold partition. rewrite rev_involutive.
  assert (Hg : ∀ l bs, Forall batch_ok bs → chained bs →
    Forall batch_ok (foldl (partition_step reg) bs l) ∧ chained (foldl (partition_step reg) bs l) ∧
    concat (calls <$> rev (foldl (partition_step reg) bs l)) = concat (calls <$> rev bs) ++ filter (λ p, is_use p = true) l).
  { clear l. induction l as [|p l IH]; intros bs Hb Hc; cbn; [by rewrite app_nil_r|].
    destruct (partition_step_spec bs p Hb Hc) as (Hb' & Hc' & He). destruct (IH _ Hb' Hc') as (H1 & H2 & H3).
    split_and!; [done|done|]. rewrite H3, He, <- app_assoc. f_equal. by rewrite <- filter_app. }
  destruct (Hg l [] (Forall_nil_2 _) I) as (H1 & H2 & H3). split_and!; [|done|by rewrite H3].
  by apply Forall_rev.
Qed.
End partition.

(** ** What the executors do to a turn *)

Section cascade.
Context {Num : Type} (policy : ErrorCascadePolicy).
Abbreviation ContentBlock := (ContentBlock Num).
Implicit Types (c : ContentBlock) (h : CascadeHalt).
Definition cascade_le h h' : Prop := (halt_all h = true → halt_all h' = true) ∧ failed h ⊆ failed h'.
#[export] Instance cascade_le_preorder : PreOrder cascade_le.
Proof. split; [done|]. intros h1 h2 h3 [H1 H2] [H3 H4]. split; [tauto|by etrans]. Qed.
(** What a failed call leaves in the cascade *)
Definition covers h c : Prop :=
  match policy with
  | HaltAllSubsequent => halt_all h = true
  | HaltAfterMutatingOrGate =>
      is_side_effect_tool (tool_name_of_call c) = true → halt_all h = true ∨ occupancy_of_call c ∈ failed h
  end.
(** After a failure of [c], [c'] has to be skipped. *)
Definition waits_for c c' : Prop :=
  match policy with
  | HaltAllSubsequent => True
  | HaltAfterMutatingOrGate =>
      is_side_effect_tool (tool_name_of_call c) = true ∧ is_side_effect_tool (tool_name_of_call c') = true ∧
      occupancy_conflicts (occupancy_of_call c) (occupancy_of_call c') = true
  end.
Lemma note_le c k h : cascade_le h (note policy c k h).
Proof. unfold note, cascade_le. destruct (negb _), policy, k; cbn; set_solver. Qed.
Lemma note_refusal c h : halt_all (note policy c true h) = true.
Proof. by unfold note; destruct policy. Qed.
Lemma note_covers c h : covers (note policy c false h) c.
Proof.
  unfold note, covers, should_halt_after. destruct policy; [done|]. cbn.
  destruct (is_side_effect_tool _); cbn; [intros _; right; set_solver|done].
Qed.
Lemma halted_covers h c : halt_all h = true → covers h c.
Proof. unfold covers. destruct policy; naive_solver. Qed.
Lemma covers_le h h' c : cascade_le h h' → covers h c → covers h' c.
Proof. unfold covers. intros [H1 H2]. destruct policy; [done|]. intros Hc Hs. destruct (Hc Hs); [left; auto|right; auto]. Qed.
Lemma should_skip_le h h' c : cascade_le h h' → should_skip policy c h = true → should_skip policy c h' = true.
Proof.
  unfold should_skip. intros [H1 H2]. destruct (halt_all h); [by rewrite H1|]. destruct (halt_all h'); [done|].
  destruct policy; [done|]. destruct (is_side_effect_tool _); cbn; [|done]. rewrite !existsb_exists. intros (o & Ho & Hc).
  exists o. split; [|done]. apply list_elem_of_In, H2. by apply list_elem_of_In.
Qed.
Lemma halted_skips h c : halt_all h = true → should_skip policy c h = true.
Proof. unfold should_skip. by intros ->. Qed.
Lemma covered_skips h c c' : covers h c → waits_for c c' → should_skip policy c' h = true.
Proof.
  unfold covers, waits_for, should_skip. destruct policy; [by intros ->|]. intros Hc (Hs & Hs' & Hx).
  destruct (halt_all h) eqn:Hh; [done|]. rewrite Hs'. cbn. apply existsb_exists. exists (occupancy_of_call c).
  split; [|done]. apply list_elem_of_In. by destruct (Hc Hs).
Qed.
End cascade.

(** ** What the approvals of a host remember *)

Section manager.
Context {Num : Type} (m0 : ToolApprovalManager Num).
(** What the host has done so far, and the categories that calls were registered under *)
Context (acted : HostAction Num → Prop) (asked : bytes → bytes → Prop).
Implicit Types (m : ToolApprovalManager Num) (act : HostAction Num) (e : PendingApproval Num).
Definition origin (id category : bytes) : Prop :=
  (∃ e, pending m0 !! id = Some e ∧ pending_category e = category) ∨
  (∃ cat s x, acted (HRequest id cat s x) ∧ category_str cat = category) ∨ asked id category.
(** Where a grant of a whole category comes from *)
Definition granted (category : bytes) : Prop :=
  is_auto_approved category m0 = true ∨ (∃ mode, acted (HSetMode mode) ∧ mode_approves mode category = true) ∨
  acted (HAddAutoApprove category) ∨ ∃ id, acted (HApprove id Always) ∧ origin id category.
Record manager_inv m : Prop := mkManagerInv {
  inv_instance : scope_instance m = scope_instance m0;
  inv_tokens : next_token m = (next_channel m mod (u64_max + 1))%N;
  inv_pending : ∀ id e, pending m !! id = Some e →
    (pending_channel e < next_channel m)%N ∧ origin id (pending_category e);
  inv_mode : session_mode m = session_mode m0 ∨ acted (HSetMode (session_mode m));
  inv_grants : ∀ c, c ∈ auto_approved m → granted c;
}.
Lemma auto_approved_granted m c : manager_inv m → is_auto_approved c m = true → granted c.
Proof.
  intros [_ _ _ Hmode Hg]. unfold is_auto_approved. intros [Hm|Hc%bool_decide_eq_true]%orb_true_iff; [|by apply Hg].
  destruct Hmode as [Heq|Ha]; [|right; left; by exists (session_mode m)].
  left. unfold is_auto_approved. by rewrite <- Heq, Hm.
Qed.
Lemma set_pending_inv m (p : gmap bytes (PendingApproval Num)) : p ⊆ pending m → manager_inv m → manager_inv (set_pending p m).
Proof.
  intros Hp [H1 Ht H2 H3 H4]. split; [done|done| |done|done]. cbn. intros id e He. apply H2. by eapply lookup_weaken.
Qed.
Lemma token_next m :
  next_token m = (next_channel m mod (u64_max + 1))%N →
  ((next_token m + 1) mod (u64_max + 1) = (next_channel m + 1) mod (u64_max + 1))%N.
Proof. intros ->. by rewrite N.Div0.add_mod_idemp_l. Qed.
Lemma insert_approval_inv id cat s x m :
  origin id (category_str cat) → manager_inv m → manager_inv (insert_approval id cat s x m).1.1.
Proof.
  intros Ho [H1 Ht H2 H3 H4]. split; [done|by apply token_next| |done|done]. cbn. intros id' e [[<- <-]|[_ He]]%lookup_insert_Some.
  - split; [cbn; lia|done].
  - destruct (H2 id' e He). split; [lia|done].
Qed.
Lemma host_action_inv act m : acted act → manager_inv m → manager_inv (host_action act m).1.
Proof.
  intros Ha Hm. destruct act as [id sc|id r|now msg id aid ok|mode|c|id|id cat s x]; cbn.
  - unfold approve. destruct (pending m !! id) as [e|] eqn:He; [|done]. case_bool_decide; [done|].
    assert (Hd := set_pending_inv m (delete id (pending m)) (delete_subseteq _ _) Hm).
    destruct sc; [done|]. destruct Hd as [H1 Ht H2 H3 H4]. split; [done|done|done|done|]. cbn.
    intros c [->%elem_of_singleton|Hc]%elem_of_union; [|by apply H4]. do 3 right. exists id. split; [done|].
    by destruct (inv_pending m Hm id e He).
  - unfold resolve. destruct (pending m !! id) as [e|]; [|done]. destruct (match r with Approved => _ | _ => _ end); [done|].
    apply set_pending_inv; [apply delete_subseteq|done].
  - unfold resolve_scoped_once. destruct (pending m !! id) as [e|]; [|done]. destruct (pending_scope e); [|done].
    destruct (_ && _); [|done]. destruct (match pending_expires e with Some _ => _ | None => _ end);
      (apply set_pending_inv; [apply delete_subseteq|done]).
  - destruct Hm as [H1 Ht H2 H3 H4]. split; [done|done|done|by right|done].
  - destruct Hm as [H1 Ht H2 H3 H4]. split; [done|done|done|done|]. cbn.
    intros c' [->%elem_of_singleton|Hc]%elem_of_union; [|by apply H4]. right; right; by left.
  - apply set_pending_inv; [apply delete_subseteq|done].
  - apply insert_approval_inv; [|done]. right; left. by exists cat, s, x.
Qed.
Lemma host_actions_inv acts m : (∀ act, act ∈ acts → acted act) → manager_inv m → manager_inv (host_actions acts m).1.
Proof.
  revert m. induction acts as [|act acts IH]; intros m Ha Hm; cbn; [done|].
  assert (H1 := host_action_inv act m (Ha act (list_elem_of_here _ _)) Hm).
  destruct (host_action act m) as [m1 now]. assert (H2 := IH m1 (λ act' H, Ha act' (list_elem_of_further _ _ _ H)) H1).
  by destruct (host_actions acts m1) as [m2 later].
Qed.

(** *** The channel of one registration *)

(** Channel [ch] belongs to the registration [e] of [id], if it is still there. *)
Definition owns (ch : N) (id : bytes) e m : Prop :=
  (ch < next_channel m)%N ∧ ∀ id' e', pending m !! id' = Some e' → pending_channel e' = ch → id' = id ∧ e' = e.
(** What the host did to send an approval on it *)
Definition approves act (id : bytes) e : Prop :=
  match act with
  | HApprove id' _ | HResolve id' Approved => id' = id ∧ pending_scope e = None
  | HResolveScoped now msg id' aid true =>
      id' = id ∧ ∃ s, pending_scope e = Some s ∧ scope_msg_id s = msg ∧ approval_id s = aid ∧
        ∀ x, pending_expires e = Some x → (now < x)%N
  | _ => False
  end.
(** What the host did to close it without an answer *)
Definition withdraws act (id : bytes) : Prop :=
  match act with HDropPending id' | HRequest id' _ _ _ => id' = id | _ => False end.
Lemma owns_subset (ch : N) (id : bytes) e m (p : gmap bytes (PendingApproval Num)) :
  p ⊆ pending m → owns ch id e m → owns ch id e (set_pending p m).
Proof. intros Hp [H1 H2]. split; [done|]. cbn. intros id' e' He. apply H2. by eapply lookup_weaken. Qed.
Lemma dropped_in (ch : N) (o : option (PendingApproval Num)) g :
  (ch, g) ∈ dropped o → g = Dropped ∧ ∃ e, o = Some e ∧ pending_channel e = ch.
Proof. destruct o as [e|]; cbn; [|intros H; by apply elem_of_nil in H]. intros [= -> ->]%list_elem_of_singleton. eauto. Qed.
Lemma sent_one (ch ch' : N) (r : ToolApprovalResult) g : (ch, g) ∈ [(ch', Sent r)] → ch' = ch ∧ g = Sent r.
Proof. intros [= -> ->]%list_elem_of_singleton. done. Qed.
(** Why the channel carries a signal *)
Definition caused (g : Signal) act (id : bytes) e : Prop :=
  match g with Sent Approved => approves act id e | Sent (Denied _) => True | Dropped => withdraws act id end.
Lemma host_action_owns act m (ch : N) (id : bytes) e :
  owns ch id e m →
  owns ch id e (host_action act m).1 ∧ ∀ g, (ch, g) ∈ (host_action act m).2 → caused g act id e.
Proof.
  intros Ho. pose proof Ho as [Hch Hown].
  assert (Hdel : ∀ id', owns ch id e (set_pending (delete id' (pending m)) m)).
  { intros id'. apply owns_subset; [apply delete_subseteq|done]. }
  assert (Hnil : owns ch id e m ∧ ∀ g, (ch, g) ∈ ([] : list (N * Signal)) → caused g act id e).
  { split; [done|]. intros g H. by apply elem_of_nil in H. }
  assert (Hdrop : ∀ id', withdraws act id' → ∀ g, (ch, g) ∈ dropped (pending m !! id') → caused g act id e).
  { intros id' Hw g (-> & e' & He & Hc)%dropped_in. by destruct (Hown id' e' He Hc) as [-> _]. }
  destruct act as [id1 sc|id1 r|now msg id1 aid ok|mode|c|id1|id1 cat s x]; cbn.
  - unfold approve. destruct (pending m !! id1) as [e1|] eqn:He; [|done]. case_bool_decide as Hs; [done|].
    split; [destruct sc; apply Hdel|]. intros g [Hc ->]%sent_one. destruct (Hown id1 e1 He Hc) as [-> ->].
    split; [done|]. by apply eq_None_not_Some.
  - unfold resolve. destruct (pending m !! id1) as [e1|] eqn:He; [|done].
    destruct r; cbn.
    + case_bool_decide as Hs; [done|]. split; [apply Hdel|]. intros g [Hc ->]%sent_one.
      destruct (Hown id1 e1 He Hc) as [-> ->]. split; [done|]. by apply eq_None_not_Some.
    + split; [apply Hdel|]. by intros g [_ ->]%sent_one.
  - unfold resolve_scoped_once. destruct (pending m !! id1) as [e1|] eqn:He; [|done].
    destruct (pending_scope e1) as [s|] eqn:Hs; [|done].
    destruct (bool_decide (scope_msg_id s = msg) && bool_decide (approval_id s = aid)) eqn:Hb; [|done].
    apply andb_true_iff in Hb as [Hm%bool_decide_eq_true Ha%bool_decide_eq_true].
    destruct (match pending_expires e1 with Some _ => _ | None => _ end) eqn:Hx; cbn.
    { split; [apply Hdel|]. by intros g [_ ->]%sent_one. }
    split; [apply Hdel|]. intros g [Hc ->]%sent_one. destruct (Hown id1 e1 He Hc) as [-> ->].
    destruct ok; [|done]. split; [done|]. exists s. split_and!; [done|done|done|]. intros x Hex. rewrite Hex in Hx.
    by apply N.leb_gt in Hx.
  - done.
  - done.
  - split; [apply Hdel|]. by apply Hdrop.
  - split; [|by apply Hdrop]. split; cbn; [lia|].
    intros id' e' [[<- <-]|[_ He]]%lookup_insert_Some; cbn; [lia|by apply Hown].
Qed.
Lemma host_actions_owns acts m (ch : N) (id : bytes) e g :
  owns ch id e m → (ch, g) ∈ (host_actions acts m).2 → ∃ act, act ∈ acts ∧ caused g act id e.
Proof.
  revert m. induction acts as [|act acts IH]; intros m Ho; cbn; [intros H; by apply elem_of_nil in H|].
  destruct (host_action_owns act m ch id e Ho) as [Ho' Ha].
  destruct (host_action act m) as [m1 now]. specialize (IH m1 Ho').
  destruct (host_actions acts m1) as [m2 later]. cbn in *. intros [Hn|Hl]%elem_of_app.
  - exists act. split; [by left|by apply Ha].
  - destruct (IH Hl) as (act' & Hin & ?). exists act'. split; [by right|done].
Qed.
Lemma received_in (ch : N) (signals : list (N * Signal)) g : received ch signals = Some g → (ch, g) ∈ signals.
Proof.
  unfold received. induction signals as [|[ch' g'] l IH]; [done|]. rewrite filter_cons. case_decide as Hd; cbn in *.
  - intros [= <-]. subst. by left.
  - intros H. right. by apply IH.
Qed.
End manager.
Lemma manager_inv_refl {Num} (m : ToolApprovalManager Num) acted asked :
  next_token m = (next_channel m mod (u64_max + 1))%N →
  (∀ id e, pending m !! id = Some e → (pending_channel e < next_channel m)%N) → manager_inv m acted asked m.
Proof.
  intros Ht Hm. split; [done|done| |by left|].
  - intros id e He. split; [by apply (Hm id)|left; by exists e].
  - intros c Hc. left. unfold is_auto_approved. apply orb_true_iff. right. by apply bool_decide_eq_true.
Qed.
(** Numbers taken in order from [lo] on, when the next free one is [hi] afterwards *)
Fixpoint numbered (lo : N) (ks : list N) (hi : N) : Prop :=
  match ks with [] => (lo ≤ hi)%N | k :: ks => (lo ≤ k)%N ∧ numbered (k + 1) ks hi end.
Lemma numbered_from lo lo' ks hi : (lo ≤ lo')%N → numbered lo' ks hi → numbered lo ks hi.
Proof. destruct ks as [|k ks]; cbn; intros; intuition lia. Qed.
Lemma numbered_app lo ks mid ks' hi : numbered lo ks mid → numbered mid ks' hi → numbered lo (ks ++ ks') hi.
Proof.
  revert lo. induction ks as [|k ks IH]; intros lo; cbn; [apply numbered_from|]. intros [H1 H2] H3. split; [done|by apply IH].
Qed.
Lemma numbered_ge lo ks hi k : numbered lo ks hi → k ∈ ks → (lo ≤ k)%N.
Proof.
  revert lo. induction ks as [|k' ks IH]; intros lo Hn Hk; [by apply elem_of_nil in Hk|]. destruct Hn as [H1 H2].
  apply elem_of_cons in Hk as [->|Hk]; [done|]. specialize (IH _ H2 Hk). lia.
Qed.
Lemma numbered_sorted lo ks hi : numbered lo ks hi → StronglySorted N.lt ks.
Proof.
  revert lo. induction ks as [|k ks IH]; intros lo Hn; [constructor|]. destruct Hn as [_ Hn]. constructor; [by eapply IH|].
  apply Forall_forall. intros k' Hk'. assert (H := numbered_ge _ _ _ _ Hn Hk'). lia.
Qed.
Lemma host_action_channels {Num} (act : HostAction Num) m : (next_channel m ≤ next_channel (host_action act m).1)%N.
Proof.
  destruct act as [id sc|id r|now msg id aid ok|mode|c|id|id cat s x]; cbn; try lia;
    unfold approve, resolve, resolve_scoped_once; repeat (case_match; cbn); simplify_eq; cbn; lia.
Qed.
Lemma host_actions_channels {Num} (acts : list (HostAction Num)) m : (next_channel m ≤ next_channel (host_actions acts m).1)%N.
Proof.
  revert m. induction acts as [|act acts IH]; intros m; cbn; [lia|]. pose proof (host_action_channels act m) as H1.
  destruct (host_action act m) as [m1 now]. specialize (IH m1). destruct (host_actions acts m1) as [m2 later]. cbn in *. lia.
Qed.
(** The manager after anything that a host does *)
Abbreviation after_host acts instance := (host_actions acts (manager_new instance)).1.
Lemma reachable_manager_inv {Num} (acts : list (HostAction Num)) instance :
  manager_inv (manager_new instance) (λ _, True) (λ _ _, True) (after_host acts instance).
Proof. apply host_actions_inv; [done|]. by apply manager_inv_refl. Qed.
Lemma reachable_channels {Num} (acts : list (HostAction Num)) instance id e :
  pending (after_host acts instance) !! id = Some e → (pending_channel e < next_channel (after_host acts instance))%N.
Proof. intros He. by destruct (inv_pending _ _ _ _ (reachable_manager_inv acts instance) id e He). Qed.

Section executor.
Context {Num Modifier Timing : Type} (redact compact_output : bytes → bytes).
Context (reg : ToolRegistry Num) (a : ProviderToolAuthority) (scope : bytes) (policy : ErrorCascadePolicy).
Context (w : World Num Modifier Timing).
Abbreviation ContentBlock := (ContentBlock Num).
Abbreviation PreparedCall := (PreparedCall Num).
Abbreviation Effect := (Effect Num).
Abbreviation run := (run redact compact_output reg a scope w).
Abbreviation account := (account reg policy w).
Abbreviation run_call := (run_call redact compact_output reg a scope policy w).
Abbreviation skip p h := (should_skip policy (call p) h).
Implicit Types (p : PreparedCall) (l : list PreparedCall) (b c : ContentBlock) (h : CascadeHalt) (e : Effect).

(** [b] is the result of the call [c]. *)
Definition answers c b : Prop := ∃ content is_error images, b = ToolResult (call_id c) content is_error images.
Definition dispatched (es : list Effect) : list nat :=
  omap (λ e, match e with Dispatched i _ _ _ _ => Some i | _ => None end) es.
(** A prepared tool use *)
Definition ready p : Prop := is_use p = true ∧ gate p = invocation_gate_result reg a (call p).
(** What holds of the result [b] of [p] when the calls of its batch were sorted by the
    cascade [h0] and the cascade is [h] by now *)
Record result_ok h0 h p b : Prop := mkResultOk {
  ok_answers : answers (call p) b;
  ok_skipped : skip p h0 = true → b = skipped_after_prior_error (call p);
  ok_covered : block_is_error b = true → b = skipped_after_prior_error (call p) ∨ covers policy h (call p);
  ok_gated : ∀ g, gate p = Some g → b = skipped_after_prior_error (call p) ∨ (b = g ∧ halt_all h = true);
}.
(** What holds of an effect: a call that runs has passed the gate and the cascade and
    has its consent, for a reason within the effects [seen], and nobody is asked about a
    call that the gate refuses. *)
Definition effect_ok (L : list PreparedCall) (consent : list Effect → PreparedCall → Prop) h0 (seen : list Effect) e : Prop :=
  match e with
  | Dispatched i id name input sc =>
      ∃ p extra, p ∈ L ∧ at_ p = i ∧ call p = ToolUse id name input extra ∧ sc = scope ∧
        gate_error reg a id name input = None ∧ is_Some (get_tool reg name) ∧ skip p h0 = false ∧
        ∃ reasons, reasons ⊆ seen ∧ consent reasons p
  | Prompted i _ _ | Registered i _ => ∃ p, p ∈ L ∧ at_ p = i ∧ gate p = None
  | Emitted (ToolRequest _ id name _ args _) => ∃ p extra, p ∈ L ∧ call p = ToolUse id name args extra ∧ gate p = None
  | Emitted _ => True
  end.
Section handles.
Context {G : Type} (L : list PreparedCall) (consent : list Effect → PreparedCall → Prop) (stopped : Prop).
Abbreviation Turn := (Turn Num Modifier Timing G).
Implicit Types (t : Turn).
(** From [t] to [t'] exactly the calls [l] were answered. *)
Definition handles h0 t t' l : Prop :=
  ∃ rs ms es,
    results t' = results t ++ rs ∧ modifiers t' = modifiers t ++ ms ∧ trace t' = trace t ++ es ∧
    length ms = length rs ∧ fst <$> rs ≡ₚ at_ <$> l ∧ dispatched es ⊆+ at_ <$> l ∧
    cascade_le (cascade t) (cascade t') ∧
    (∀ i b, (i, b) ∈ rs → ∃ p, p ∈ l ∧ at_ p = i ∧ result_ok h0 (cascade t') p b) ∧
    (∀ e, e ∈ es → effect_ok L consent h0 (trace t') e).
Lemma effect_ok_seen h0 seen seen' e : seen ⊆ seen' → effect_ok L consent h0 seen e → effect_ok L consent h0 seen' e.
Proof.
  intros Hs. destruct e as [| | |]; [done|done|done|]. cbn.
  intros (p & extra & ? & ? & ? & ? & ? & ? & ? & l & Hl & ?). exists p, extra. split_and!; try done. exists l.
  split; [by etrans|done].
Qed.
Lemma result_ok_le h0 h h' p b : cascade_le h h' → result_ok h0 h p b → result_ok h0 h' p b.
Proof.
  intros Hle [H1 H2 H3 H4]. split; [done|done| |].
  - intros He. destruct (H3 He); [by left|right]. by eapply covers_le.
  - intros g Hg. destruct (H4 g Hg) as [?|[? ?]]; [by left|right]. split; [done|]. by apply Hle.
Qed.
Lemma handles_refl h0 t : handles h0 t t [].
Proof. exists [], [], []. rewrite !app_nil_r. split_and!; try done; intros; by apply elem_of_nil in H. Qed.
Lemma handles_trans h0 t t1 t2 l1 l2 : handles h0 t t1 l1 → handles h0 t1 t2 l2 → handles h0 t t2 (l1 ++ l2).
Proof.
  intros (rs & ms & es & Hr & Hm & He & Hl & Hp & Hd & Hc & Hok & Heo)
    (rs' & ms' & es' & Hr' & Hm' & He' & Hl' & Hp' & Hd' & Hc' & Hok' & Heo').
  exists (rs ++ rs'), (ms ++ ms'), (es ++ es'). rewrite Hr', Hr, Hm', Hm, He', He, !app_assoc, !length_app, !fmap_app.
  split_and!; try done.
  - lia.
  - by rewrite Hp, Hp'.
  - unfold dispatched. rewrite omap_app. by apply submseteq_app.
  - by etrans.
  - intros i b [Hi|Hi]%elem_of_app.
    + destruct (Hok i b Hi) as (p & Hin & Hat & Ho). exists p. split_and!; [apply elem_of_app; by left|done|]. by eapply result_ok_le.
    + destruct (Hok' i b Hi) as (p & Hin & Hat & Ho). exists p. split_and!; [apply elem_of_app; by right|done|done].
  - intros e [Hi|Hi]%elem_of_app.
    + eapply effect_ok_seen; [|by apply Heo]. rewrite He. intros x Hx. apply elem_of_app. by left.
    + eapply effect_ok_seen; [|by apply Heo']. by rewrite He', He.
Qed.
Lemma handles_weaken h0 h0' t t' l : cascade_le h0' h0 → handles h0 t t' l → handles h0' t t' l.
Proof.
  intros Hle (rs & ms & es & Hr & Hm & He & Hl & Hp & Hd & Hc & Hok & Heo).
  exists rs, ms, es. split_and!; try done.
  - intros i b Hi. destruct (Hok i b Hi) as (p & Hin & Hat & []). exists p. split_and!; [done|done|]. split; [done| |done|done].
    intros Hs. apply ok_skipped0. by eapply should_skip_le.
  - intros e Hi. specialize (Heo e Hi). destruct e as [| | |]; [done|done|done|]. cbn in *.
    destruct Heo as (p & extra & ? & ? & ? & ? & ? & ? & Hs & ?). exists p, extra. split_and!; try done.
    apply not_true_is_false. intros Hs'. eapply should_skip_le in Hs'; [|exact Hle]. congruence.
Qed.
(** One call answered with one result *)
Lemma handles_one h0 t t' p b m es :
  results t' = results t ++ [(at_ p, b)] → modifiers t' = modifiers t ++ [m] → trace t' = trace t ++ es →
  cascade_le (cascade t) (cascade t') → result_ok h0 (cascade t') p b → dispatched es ⊆+ [at_ p] →
  (∀ e, e ∈ es → effect_ok L consent h0 (trace t') e) → handles h0 t t' [p].
Proof.
  intros Hr Hm He Hc Hok Hd Heo. exists [(at_ p, b)], [m], es. split_and!; try done.
  intros i b' [= -> ->]%list_elem_of_singleton. exists p. split_and!; [by apply list_elem_of_singleton|done|done].
Qed.
(** No result, and effects that do not run anything *)
Lemma handles_none h0 t t' es :
  results t' = results t → modifiers t' = modifiers t → trace t' = trace t ++ es →
  cascade_le (cascade t) (cascade t') → dispatched es = [] → 
  (∀ e, e ∈ es → effect_ok L consent h0 (trace t') e) → handles h0 t t' [].
Proof.
  intros Hr Hm He Hc Hd Heo. exists [], [], es. rewrite Hr, Hm, Hd, !app_nil_r.
  split_and!; try done. intros i b Hi. by apply elem_of_nil in Hi.
Qed.

(** *** Single calls *)

Lemma answers_error c content : answers c (error_result (call_id c) content).
Proof. by exists content, true, []. Qed.
Lemma gate_answers c b : invocation_gate_result reg a c = Some b → answers c b.
Proof.
  unfold invocation_gate_result. destruct c as [|id name input extra| | |]; try done.
  destruct (gate_error reg a id name input) as [content|]; [|done]. intros [= <-]. by exists content, true, [].
Qed.
Lemma gate_none p id name input extra :
  ready p → gate p = None → call p = ToolUse id name input extra → gate_error reg a id name input = None.
Proof. intros [_ Hg] Hn Hc. rewrite Hn, Hc in Hg. cbn in Hg. by destruct (gate_error reg a id name input). Qed.
Lemma skipped_ok h0 h p : result_ok h0 h p (skipped_after_prior_error (call p)).
Proof. split; [apply answers_error|done|by left|by left]. Qed.
Definition silent (es : list Effect) : Prop :=
  ∀ e, e ∈ es → match e with Emitted (ToolRequest _ _ _ _ _ _) => False | Emitted _ => True | _ => False end.
Lemma silent_ok h0 seen es : silent es → dispatched es = [] ∧ ∀ e, e ∈ es → effect_ok L consent h0 seen e.
Proof.
  intros Hs. split.
  - induction es as [|e es IH]; [done|]. assert (He := Hs e (list_elem_of_here _ _)). destruct e; try done. cbn.
    apply IH. intros e' He'. apply Hs. by right.
  - intros e He. specialize (Hs e He). destruct e as [| |[]|]; done.
Qed.
Lemma log_nil t : log [] t = t.
Proof. destruct t. unfold log. cbn. by rewrite app_nil_r. Qed.
Lemma handles_skip h0 t t' p m es :
  results t' = results t ++ [(at_ p, skipped_after_prior_error (call p))] → modifiers t' = modifiers t ++ [m] →
  trace t' = trace t ++ es → cascade t' = cascade t → silent es → handles h0 t t' [p].
Proof.
  intros Hr Hm He Hc Hs. destruct (silent_ok h0 (trace t') es Hs) as [Hd Ho].
  eapply handles_one; [exact Hr|exact Hm|exact He|by rewrite Hc|apply skipped_ok|rewrite Hd; apply submseteq_nil_l|exact Ho].
Qed.
Lemma handles_refuse h0 t p b es :
  answers (call p) b → skip p h0 = false → (∀ g, gate p = Some g → b = g) → silent es →
  handles h0 t (refuse policy p b (log es t)) [p].
Proof.
  intros Ha Hs Hg He. destruct (silent_ok h0 (trace t ++ es) es He) as [Hd Ho]. assert (Hh := note_refusal policy (call p) (cascade t)).
  eapply handles_one; [done|done|done|apply note_le| |rewrite Hd; apply submseteq_nil_l|exact Ho].
  split; [done|by rewrite Hs|intros _; right; by apply halted_covers|]. intros g Hp. right. split; [by apply Hg|done].
Qed.
Lemma run_spec p approved t :
  ready p → gate p = None →
  answers (call p) (run p approved t).2.1 ∧ dispatched (run p approved t).1 ⊆+ [at_ p] ∧
  ∀ e, e ∈ (run p approved t).1 → ∃ id name input extra,
    e = Dispatched (at_ p) id name input scope ∧ call p = ToolUse id name input extra ∧
    gate_error reg a id name input = None ∧ is_Some (get_tool reg name) ∧
    (approved = true ∨ needs_host_approval reg name input = false).
Proof.
  intros Hr Hn. destruct (call p) as [|id name input extra| | |] eqn:Hc;
    try (destruct Hr as [Hu _]; unfold is_use in Hu; by rewrite Hc in Hu).
  pose proof (gate_none p id name input extra Hr Hn Hc) as Hg.
  unfold ToolExecution.run, execute_single. rewrite Hc. cbn [invocation_gate_result]. rewrite Hg. cbn [fmap option_fmap option_map].
  destruct (negb approved && needs_host_approval reg name input) eqn:Hpol.
  { cbn. split_and!; [by apply (answers_error (ToolUse id name input extra))|apply submseteq_nil_l|].
    intros e He. by apply elem_of_nil in He. }
  assert (Hok : approved = true ∨ needs_host_approval reg name input = false).
  { destruct approved; [by left|right]. cbn in Hpol. done. }
  set (r := run_of w (at_ p) (hooks t)).
  set (x := execute_single_without_deadline redact compact_output reg (hooks t) r id name input).
  assert (Hx : answers (ToolUse id name input extra) x.2.1 ∧ (x.1 = true → is_Some (get_tool reg name))).
  { subst x. unfold execute_single_without_deadline, reply_block, answers, error_result.
    repeat (case_match; cbn); subst; split; intros; try done; eauto. }
  clearbody x. destruct Hx as [Hx Ht]. destruct x as [called outcome]. cbn [fst snd] in Ht, Hx.
  assert (He : ∀ (f : bool) e, (f = true → called = true) → e ∈ (if f then [Dispatched (at_ p) id name input scope] else []) →
    ∃ id' name' input' extra',
      e = Dispatched (at_ p) id' name' input' scope ∧ ToolUse id name input extra = ToolUse id' name' input' extra' ∧
      gate_error reg a id' name' input' = None ∧ is_Some (get_tool reg name') ∧
      (approved = true ∨ needs_host_approval reg name' input' = false)).
  { intros [|] e Hf He; [|by apply elem_of_nil in He]. apply list_elem_of_singleton in He as ->.
    exists id, name, input, extra. split_and!; try done. by apply Ht, Hf. }
  assert (Hd : ∀ f : bool, dispatched (if f then [Dispatched (at_ p) id name input scope] else []) ⊆+ [at_ p]).
  { intros [|]; [done|apply submseteq_nil_l]. }
  destruct (deadline_passed r) as [reached|]; cbn; (split_and!; [|apply Hd|intros e; apply He; by destruct called]); [|exact Hx].
  by eexists _, true, [].
Qed.
Lemma account_fields p merges b t :
  results (account p merges b t) = results t ∧ modifiers (account p merges b t) = modifiers t ∧
  trace (account p merges b t) = trace t ∧ gatekeeper (account p merges b t) = gatekeeper t ∧
  cascade (account p merges b t) = (if block_is_error b then note policy (call p) false (cascade t) else cascade t).
Proof. unfold ToolExecution.account. destruct (block_is_error b), merges; done. Qed.
Lemma run_result h0 h p approved t :
  ready p → gate p = None → skip p h0 = false →
  result_ok h0 (if block_is_error (run p approved t).2.1 then note policy (call p) false h else h) p (run p approved t).2.1.
Proof.
  intros Hr Hn Hs. destruct (run_spec p approved t Hr Hn) as (Ha & _ & _).
  split; [done|by rewrite Hs| |intros g Hg; congruence]. intros ->. right. apply note_covers.
Qed.
(** What lets a call run: the host approved it, or it needs no approval of the host. *)
Definition may_run (reasons : list Effect) p (approved : bool) : Prop :=
  ∀ id name input extra, call p = ToolUse id name input extra →
    approved = true ∨ needs_host_approval reg name input = false → consent reasons p.
Lemma run_effects h0 reasons seen p approved t :
  p ∈ L → ready p → gate p = None → skip p h0 = false → may_run reasons p approved → reasons ⊆ seen →
  ∀ e, e ∈ (run p approved t).1 → effect_ok L consent h0 seen e.
Proof.
  intros Hin Hr Hn Hs Hc Hsub e He. destruct (run_spec p approved t Hr Hn) as (_ & _ & H).
  destruct (H e He) as (id & name & input & extra & -> & Hcall & Hg & Htool & Hp). cbn. exists p, extra.
  split_and!; try done. exists reasons. split; [done|by eapply Hc].
Qed.
(** A call that runs, with events around its effects *)
Lemma handles_run h0 t t' p approved (tr : Turn) es es' :
  p ∈ L → ready p → gate p = None → skip p h0 = false → may_run (trace t) p approved → silent es → silent es' →
  results t' = results t ++ [(at_ p, (run p approved tr).2.1)] →
  modifiers t' = modifiers t ++ [(run p approved tr).2.2] →
  trace t' = trace t ++ (es ++ (run p approved tr).1) ++ es' →
  cascade t' = (if block_is_error (run p approved tr).2.1 then note policy (call p) false (cascade t) else cascade t) →
  handles h0 t t' [p].
Proof.
  intros Hin Hr Hn Hs Hc Hes Hes' Hrs Hms Htr Hca. destruct (run_spec p approved tr Hr Hn) as (_ & Hd & _).
  destruct (silent_ok h0 (trace t') es Hes) as [Hd1 Ho1]. destruct (silent_ok h0 (trace t') es' Hes') as [Hd2 Ho2].
  apply (handles_one h0 t t' p _ _ _ Hrs Hms Htr).
  - rewrite Hca. destruct (block_is_error _); [apply note_le|done].
  - rewrite Hca. by apply run_result.
  - unfold dispatched in *. by rewrite !omap_app, Hd1, Hd2, app_nil_r.
  - intros e [[Hi|Hi]%elem_of_app|Hi]%elem_of_app; [by apply Ho1| |by apply Ho2].
    eapply run_effects; [done..|exact Hc| |exact Hi]. rewrite Htr. intros x Hx. apply elem_of_app. by left.
Qed.
Lemma handles_run_call h0 t p merges :
  p ∈ L → ready p → gate p = None → skip p h0 = false → may_run (trace t) p false →
  handles h0 t (run_call p merges t) [p].
Proof.
  intros Hin Hr Hn Hs Hc. unfold ToolExecution.run_call.
  destruct (run p false t) as [effects [b m]] eqn:Hrun.
  destruct (account_fields p merges b (log effects t)) as (H1 & H2 & H3 & _ & H5).
  apply (handles_run h0 t _ p false t [] []); rewrite ?Hrun; try done; cbn -[ToolExecution.account].
  - intros e He. by apply elem_of_nil in He.
  - intros e He. by apply elem_of_nil in He.
  - by rewrite H1.
  - by rewrite H2.
  - by rewrite H3, app_nil_r.
Qed.
Lemma silent_app es es' : silent es → silent es' → silent (es ++ es').
Proof. intros H H' e [He|He]%elem_of_app; [by apply H|by apply H']. Qed.
Lemma silent_nil : silent [].
Proof. intros e He. by apply elem_of_nil in He. Qed.

(** *** Several calls, perhaps stopped on the way *)

Definition progress h0 t t' (go_on : bool) l : Prop :=
  ∃ l', l' ⊆+ l ∧ (go_on = true → l' ≡ₚ l) ∧ (go_on = false → stopped) ∧ handles h0 t t' l'.
Lemma handles_perm h0 t t' l l' : l ≡ₚ l' → handles h0 t t' l → handles h0 t t' l'.
Proof.
  intros Hl (rs & ms & es & ? & ? & ? & ? & Hp & Hd & ? & Hok & ?). exists rs, ms, es.
  split_and!; try done; [by rewrite <- Hl|by rewrite <- Hl|]. intros i b Hi.
  destruct (Hok i b Hi) as (p & Hin & ?). exists p. by rewrite <- Hl.
Qed.
Lemma handles_le h0 t t' l : handles h0 t t' l → cascade_le (cascade t) (cascade t').
Proof. by intros (rs & ms & es & ? & ? & ? & ? & ? & ? & ? & ?). Qed.
Lemma progress_le h0 t t' go_on l : progress h0 t t' go_on l → cascade_le (cascade t) (cascade t').
Proof. intros (l' & _ & _ & _ & H). by eapply handles_le. Qed.
Lemma progress_done h0 t t' l : handles h0 t t' l → progress h0 t t' true l.
Proof. intros H. by exists l. Qed.
Lemma progress_stop h0 t t' l : stopped → handles h0 t t' [] → progress h0 t t' false l.
Proof. intros Hs H. exists []. split_and!; [apply submseteq_nil_l|done|done|done]. Qed.
Lemma progress_then h0 t t1 t2 go_on l1 l2 :
  handles h0 t t1 l1 → progress h0 t1 t2 go_on l2 → progress h0 t t2 go_on (l1 ++ l2).
Proof.
  intros H1 (l' & Hs & Hp & Hq & H2). exists (l1 ++ l'). split_and!; [by apply submseteq_skips_l| |done|by eapply handles_trans].
  intros Hg. by rewrite (Hp Hg).
Qed.
Lemma progress_perm h0 t t' go_on l l' : l ≡ₚ l' → progress h0 t t' go_on l → progress h0 t t' go_on l'.
Proof.
  intros Hl (k & Hs & Hp & Hq & H). exists k. split_and!; [by rewrite <- Hl|intros Hg; by rewrite <- Hl, (Hp Hg)|done|done].
Qed.
Lemma progress_weaken h0 h0' t t' go_on l : cascade_le h0' h0 → progress h0 t t' go_on l → progress h0' t t' go_on l.
Proof. intros Hle (k & ? & ? & ? & H). exists k. split_and!; [done|done|done|]. by eapply handles_weaken. Qed.
(** Calls handled one after another *)
Lemma handles_foldl {A} (step : Turn → A → Turn) (call_of : A → PreparedCall) (P : A → CascadeHalt → Prop) h0 (xs : list A) t :
  (∀ x h h', cascade_le h h' → P x h → P x h') →
  (∀ x t, x ∈ xs → P x (cascade t) → handles h0 t (step t x) [call_of x]) →
  (∀ x, x ∈ xs → P x (cascade t)) → handles h0 t (foldl step t xs) (call_of <$> xs).
Proof.
  intros Hmono. revert t. induction xs as [|x xs IH]; intros t Hstep HP; [apply handles_refl|].
  assert (H1 : handles h0 t (step t x) [call_of x]) by (apply Hstep; [by left|apply HP; by left]).
  cbn. apply (handles_trans h0 t (step t x) _ [call_of x]); [done|]. apply IH.
  - intros y t' Hy. apply Hstep. by right.
  - intros y Hy. eapply Hmono; [by eapply handles_le|]. apply HP. by right.
Qed.

(** *** Batches *)

Definition member p : Prop := p ∈ L ∧ ready p.
Context (Inv : G → Prop) (one : Batch Num → Turn → Turn * bool).
Definition batch_handled : Prop := ∀ (bt : Batch Num) t,
  (∀ p, p ∈ calls bt → member p) → Inv (gatekeeper t) →
  progress (cascade t) t (one bt t).1 (one bt t).2 (calls bt) ∧ Inv (gatekeeper (one bt t).1).
Lemma run_batches_handled bs t :
  batch_handled → (∀ p, p ∈ concat (calls <$> bs) → member p) → Inv (gatekeeper t) →
  progress (cascade t) t (run_batches one bs t).1 (run_batches one bs t).2 (concat (calls <$> bs)) ∧
  Inv (gatekeeper (run_batches one bs t).1).
Proof.
  intros Hone. revert t. induction bs as [|b bs IH]; intros t Hm Hi; cbn; [split; [apply progress_done, handles_refl|done]|].
  cbn in Hm. destruct (Hone b t) as [(l' & Hs & Hp & Hq & Hh) Hi']; [intros p Hp; apply Hm, elem_of_app; by left|done|].
  destruct (one b t) as [t1 [|]]; cbn in *.
  - destruct (IH t1) as [Hpr Hi2]; [intros p Hp'; apply Hm, elem_of_app; by right|done|]. split; [|done].
    apply (progress_then _ t t1); [by apply (handles_perm _ _ _ l'); [apply Hp|]|].
    eapply progress_weaken; [by eapply handles_le|done].
  - split; [|done]. exists l'. split_and!; [|done|done|done]. by apply submseteq_inserts_r.
Qed.
Lemma run_batches_app bs bs' t :
  run_batches one (bs ++ bs') t =
  if (run_batches one bs t).2 then run_batches one bs' (run_batches one bs t).1 else ((run_batches one bs t).1, false).
Proof.
  revert t. induction bs as [|b bs IH]; intros t; cbn; [done|]. destruct (one b t) as [t1 [|]]; [apply IH|done].
Qed.
End handles.

(** *** The executor on a terminal *)

Section terminal.
Context (to_string : Value Num → bytes) (L : list PreparedCall) (c0 : ToolConfirmer).
Abbreviation Turn := (Turn Num Modifier Timing ToolConfirmer).
Abbreviation confirm_call := (confirm_call to_string w).
Abbreviation confirm_all := (confirm_all to_string policy w).
Implicit Types (t : Turn).
(** The user typed this answer when asked about the call. *)
Definition typed p (d : LineDecision) : Prop :=
  ∃ line, line_of w (at_ p) = Some line ∧ classify_confirmation_line line = d.
(** The user granted every call of this tool for good. *)
Definition always_granted (name : bytes) : Prop :=
  deny_unconfirmed c0 = false ∧
  ∃ q, q ∈ L ∧ gate q = None ∧ tool_name_of_call (call q) = name ∧ typed q LineAlways.
Definition agreed p : Prop :=
  auto_approve c0 = true ∨ tool_name_of_call (call p) ∈ allow_list c0 ∨
  (deny_unconfirmed c0 = false ∧ typed p LineApprove) ∨ always_granted (tool_name_of_call (call p)).
Definition no_host_approval p : Prop :=
  ∀ id name input extra, call p = ToolUse id name input extra → needs_host_approval reg name input = false.
Definition terminal_consent (_ : list Effect) p : Prop := agreed p ∧ no_host_approval p.
Definition confirmer_inv (c : ToolConfirmer) : Prop :=
  auto_approve c = auto_approve c0 ∧ deny_unconfirmed c = deny_unconfirmed c0 ∧
  ∀ n, n ∈ allow_list c → n ∈ allow_list c0 ∨ always_granted n.
Abbreviation handles := (handles L terminal_consent).
Definition quit_typed : Prop := ∃ p, p ∈ L ∧ typed p LineQuit.
Abbreviation progress := (progress L terminal_consent quit_typed).
Abbreviation member := (member L).
Lemma agreed_may_run reasons p : agreed p → may_run terminal_consent reasons p false.
Proof.
  intros Ha id name input extra Hc [?|Hn]; [done|]. split; [done|]. intros id' name' input' extra' Hc'. congruence.
Qed.
(** What [check] answers, and what it keeps *)
Lemma check_spec p (c : ToolConfirmer) :
  p ∈ L → gate p = None → confirmer_inv c →
  let '(c', answer) := check (line_of w (at_ p)) (tool_name_of_call (call p)) c in
  confirmer_inv c' ∧ match answer with Approved_ => agreed p | Denied_ _ => True | QuitTurn => quit_typed end.
Proof.
  intros Hin Hg Hi. pose proof Hi as (Ha & Hd & Hl). unfold check. destruct (auto_approve c) eqn:Hauto; cbn.
  { split; [done|]. left. congruence. }
  case_bool_decide as Hallow.
  { split; [done|]. destruct (Hl _ Hallow); [right; by left|by do 3 right]. }
  destruct (deny_unconfirmed c) eqn:Hden; cbn; [by split_and!; cbn; try congruence|].
  unfold prompt_for_decision. destruct (line_of w (at_ p)) as [line|] eqn:Hline; cbn; [|by split_and!; cbn; try congruence].
  assert (Ht : ∀ d, classify_confirmation_line line = d → typed p d) by (intros d Hd'; by exists line).
  destruct (classify_confirmation_line line) eqn:Hcl; cbn.
  - split; [done|]. right; right; left. split; [congruence|by apply Ht].
  - assert (Hal : always_granted (tool_name_of_call (call p))).
    { split; [congruence|]. exists p. split_and!; [done|done|done|by apply Ht]. }
    split; [|by do 3 right]. split_and!; cbn; [congruence|congruence|].
    intros n [->%elem_of_singleton|Hn]%elem_of_union; [by right|by apply Hl].
  - split; [done|]. exists p. split; [done|by apply Ht].
  - by split_and!; cbn; try congruence.
Qed.
Lemma confirm_call_spec h0 p t :
  member p → gate p = None → confirmer_inv (gatekeeper t) →
  let '(t', answer) := confirm_call p t in
  handles h0 t t' [] ∧ confirmer_inv (gatekeeper t') ∧ cascade t' = cascade t ∧
  match answer with Confirmed => agreed p | Refused b => answers (call p) b | Quitted => quit_typed end.
Proof.
  intros [Hin [Hu Hr]] Hg Hi. unfold ToolExecution.confirm_call.
  destruct (call p) as [|id name input extra| | |] eqn:Hc; try (by unfold is_use in Hu; rewrite Hc in Hu).
  pose proof (check_spec p (gatekeeper t) Hin Hg Hi) as Hk. rewrite Hc in Hk. cbn in Hk.
  destruct (check (line_of w (at_ p)) name (gatekeeper t)) as [c' answer]. destruct Hk as [Hi' Ha].
  split_and!; [|done|done|].
  - eapply handles_none; [done|done|done|done|by destruct (asks_user _ _)|]. intros e He.
    destruct (asks_user _ _); [|by apply elem_of_nil in He]. apply list_elem_of_singleton in He as ->. by exists p.
  - destruct answer; [done|by apply (answers_error (ToolUse id name input extra))|done].
Qed.
Abbreviation settle := (settle redact compact_output reg a scope policy w).
Abbreviation run_concurrent := (run_concurrent to_string redact compact_output reg a scope policy w).
Abbreviation run_sequence := (run_sequence to_string redact compact_output reg a scope policy w).
Abbreviation run_batch := (run_batch to_string redact compact_output reg a scope policy w).
(** What a confirmed batch has decided about a call: a refusal of it, which halts what
    follows, or that it runs *)
Definition decided h (pd : PreparedCall * option ContentBlock) : Prop :=
  let '(p, d) := pd in
  match d with
  | Some b => answers (call p) b ∧ (∀ g, gate p = Some g → b = g) ∧ halt_all h = true
  | None => gate p = None ∧ agreed p
  end.
Lemma decided_le h h' pd : cascade_le h h' → decided h pd → decided h' pd.
Proof.
  intros [Hl _]. destruct pd as [p [b|]]; [|done]. intros (H1 & H2 & H3). split_and!; [done|done|by apply Hl].
Qed.
Lemma confirm_all_spec h0 l t :
  (∀ p, p ∈ l → member p) → confirmer_inv (gatekeeper t) →
  (∀ p, p ∈ l → is_gated p = true → halt_all (cascade t) = true) →
  let '(t', ds) := confirm_all l t in
  handles h0 t t' [] ∧ confirmer_inv (gatekeeper t') ∧
  match ds with
  | Some ds => length ds = length l ∧ ∀ pd, pd ∈ zip l ds → decided (cascade t') pd
  | None => quit_typed
  end.
Proof.
  revert t. induction l as [|p l IH]; intros t Hm Hi Hg; cbn.
  { split_and!; [apply handles_refl|done|done|]. intros pd Hpd. by apply elem_of_nil in Hpd. }
  assert (Hm' : ∀ q, q ∈ l → member q) by (intros q Hq; apply Hm; by right).
  assert (Hg' : ∀ q, q ∈ l → is_gated q = true → halt_all (cascade t) = true) by (intros q Hq; apply Hg; by right).
  assert (Hp : member p) by (apply Hm; by left).
  destruct (gate p) as [refused|] eqn:Hgate.
  - specialize (IH t Hm' Hi Hg'). destruct (confirm_all l t) as [t' ds]. destruct IH as (H1 & H2 & H3).
    split_and!; [done|done|]. destruct ds as [ds|]; [|done]. cbn. destruct H3 as [H3 H4]. split; [lia|].
    intros pd [->|Hpd]%elem_of_cons; [|by apply H4]. cbn. destruct Hp as [_ [_ Hr]]. rewrite Hgate in Hr. split_and!.
    + by apply gate_answers.
    + congruence.
    + apply (handles_le _ _ _ _ _ _ H1). apply (Hg p); [by left|]. unfold is_gated. by rewrite Hgate.
  - pose proof (confirm_call_spec h0 p t Hp Hgate Hi) as Hc.
    destruct (confirm_call p t) as [t1 answer]. destruct Hc as (Hh & Hi1 & Hca & Ha).
    destruct answer as [|b|]; [| |by split_and!].
    + specialize (IH t1 Hm' Hi1). rewrite Hca in IH. specialize (IH Hg').
      destruct (confirm_all l t1) as [t' ds]. destruct IH as (H1 & H2 & H3). split_and!; [|done|].
      * by apply (handles_trans _ _ _ _ t1 _ [] []).
      * destruct ds as [ds|]; [|done]. cbn. destruct H3 as [H3 H4]. split; [lia|].
        intros pd [->|Hpd]%elem_of_cons; [done|by apply H4].
    + set (t2 := on_cascade (note policy (call p) true) t1).
      assert (Hhalt : halt_all (cascade t2) = true) by apply note_refusal.
      specialize (IH t2 Hm' Hi1 (λ _ _ _, Hhalt)).
      destruct (confirm_all l t2) as [t' ds]. destruct IH as (H1 & H2 & H3).
      assert (H12 : handles h0 t1 t2 []).
      { eapply (handles_none _ _ _ _ _ []); try done; [by rewrite app_nil_r|apply note_le|].
        intros e He. by apply elem_of_nil in He. }
      split_and!; [|done|].
      * apply (handles_trans _ _ _ _ t1 _ [] []); [done|]. by apply (handles_trans _ _ _ _ t2 _ [] []).
      * destruct ds as [ds|]; [|done]. cbn. destruct H3 as [H3 H4]. split; [lia|].
        intros pd [->|Hpd]%elem_of_cons; [|by apply H4]. cbn. split_and!; [done|congruence|].
        by apply (handles_le _ _ _ _ _ _ H1).
Qed.
Lemma run_call_gatekeeper p merges t : gatekeeper (run_call p merges t) = gatekeeper t.
Proof.
  unfold ToolExecution.run_call. destruct (run p false t) as [effects [b m]]. cbn -[ToolExecution.account].
  by destruct (account_fields p merges b (log effects t)) as (_ & _ & _ & Hg & _).
Qed.
Lemma settle_handles h0 (pd : PreparedCall * option ContentBlock) t :
  member pd.1 → skip pd.1 h0 = false → decided (cascade t) pd → handles h0 t (settle t pd) [pd.1].
Proof.
  destruct pd as [p [b|]]; cbn -[ToolExecution.run_call]; intros [Hin Hr] Hs.
  - intros (Ha & Hg & Hh). eapply (handles_one _ _ h0 t _ p b None []); try done.
    + by rewrite app_nil_r.
    + split; [done|by rewrite Hs|intros _; right; by apply halted_covers|]. intros g Hgate. right. split; [by apply Hg|done].
    + apply submseteq_nil_l.
    + intros e He. by apply elem_of_nil in He.
  - intros [Hg Ha]. apply handles_run_call; try done. by apply agreed_may_run.
Qed.
Lemma settle_gatekeeper pds t : gatekeeper (foldl settle t pds) = gatekeeper t.
Proof.
  revert t. induction pds as [|[p [b|]] pds IH]; intros t; cbn -[ToolExecution.run_call]; [done|by rewrite IH|].
  by rewrite IH, run_call_gatekeeper.
Qed.
Lemma note_gated_spec l t :
  let t' := foldl (note_gated policy) t l in
  results t' = results t ∧ modifiers t' = modifiers t ∧ trace t' = trace t ∧ gatekeeper t' = gatekeeper t ∧
  cascade_le (cascade t) (cascade t') ∧ (∀ p, p ∈ l → is_gated p = true → halt_all (cascade t') = true).
Proof.
  revert t. induction l as [|p l IH]; intros t; cbn.
  { split_and!; try done. intros p Hp. by apply elem_of_nil in Hp. }
  destruct (IH (note_gated policy t p)) as (H1 & H2 & H3 & H4 & H5 & H6).
  assert (Hle : cascade_le (cascade t) (cascade (note_gated policy t p))).
  { unfold note_gated. destruct (is_gated p); [apply note_le|done]. }
  split_and!; [rewrite H1|rewrite H2|rewrite H3|rewrite H4|by etrans|]; try (unfold note_gated; by destruct (is_gated p)).
  intros q [->|Hq]%elem_of_cons Hgq; [|by apply (H6 q)]. apply H5. unfold note_gated. rewrite Hgq. apply note_refusal.
Qed.
Lemma run_concurrent_spec h0 l t :
  (∀ p, p ∈ l → member p ∧ skip p h0 = false) → confirmer_inv (gatekeeper t) →
  progress h0 t (run_concurrent l t).1 (run_concurrent l t).2 l ∧ confirmer_inv (gatekeeper (run_concurrent l t).1).
Proof.
  intros Hm Hi. unfold ToolExecution.run_concurrent.
  destruct (note_gated_spec l t) as (H1 & H2 & H3 & H4 & H5 & H6). set (t1 := foldl _ t l) in *.
  assert (Hn : handles h0 t t1 []).
  { eapply (handles_none _ _ _ _ _ []); try done; [by rewrite app_nil_r|]. intros e He. by apply elem_of_nil in He. }
  pose proof (confirm_all_spec h0 l t1) as Hc. rewrite H4 in Hc.
  specialize (Hc (λ p Hp, proj1 (Hm p Hp)) Hi H6).
  destruct (confirm_all l t1) as [t2 [ds|]]; destruct Hc as (Hh & Hi2 & Hd); cbn [fst snd].
  - destruct Hd as [Hlen Hd]. split; [|by rewrite settle_gatekeeper]. apply progress_done.
    apply (handles_perm _ _ _ _ _ (fst <$> zip l ds)); [by rewrite fst_zip by lia|].
    apply (handles_trans _ _ _ _ t1 _ [] _ Hn), (handles_trans _ _ _ _ t2 _ [] _ Hh).
    apply (handles_foldl _ _ _ fst (λ pd h, decided h pd)); [intros x h h'; apply decided_le| |done].
    intros [p d] t' Hpd. pose proof (elem_of_zip_l _ _ _ _ Hpd) as Hp.
    apply (settle_handles h0 (p, d) t'); by apply (Hm p Hp).
  - split; [|done]. apply progress_stop; [done|]. by apply (handles_trans _ _ _ _ t1 _ [] []).
Qed.
Lemma run_sequence_spec h0 l t :
  (∀ p, p ∈ l → member p) → confirmer_inv (gatekeeper t) → cascade_le h0 (cascade t) →
  progress h0 t (run_sequence l t).1 (run_sequence l t).2 l ∧ confirmer_inv (gatekeeper (run_sequence l t).1).
Proof.
  revert t. induction l as [|p l IH]; intros t Hm Hi Hle; cbn -[ToolExecution.run_call].
  { split; [|done]. apply progress_done, handles_refl. }
  assert (Hm' : ∀ q, q ∈ l → member q) by (intros q Hq; apply Hm; by right).
  assert (Hp : member p) by (apply Hm; by left).
  assert (Hgo : ∀ t1, handles h0 t t1 [p] → confirmer_inv (gatekeeper t1) →
    progress h0 t (run_sequence l t1).1 (run_sequence l t1).2 (p :: l) ∧ confirmer_inv (gatekeeper (run_sequence l t1).1)).
  { intros t1 Hh Hi1. destruct (IH t1 Hm' Hi1) as [Hpr Hi2]; [etrans; [done|by eapply handles_le]|].
    split; [|done]. by apply (progress_then _ _ _ h0 t t1 _ _ [p] l). }
  unfold skips. destruct (skip p (cascade t)) eqn:Hs.
  { apply Hgo; [|done]. eapply (handles_skip _ _ _ _ _ _ _ []); try done; [by rewrite app_nil_r|apply silent_nil]. }
  assert (Hs0 : skip p h0 = false).
  { apply not_true_is_false. intros Hk. eapply should_skip_le in Hk; [|exact Hle]. congruence. }
  destruct (gate p) as [refused|] eqn:Hgate.
  { apply Hgo; [|done]. destruct Hp as [_ [_ Hr]]. rewrite Hgate in Hr.
    rewrite <- (log_nil t) at 2. apply handles_refuse; [by apply gate_answers|done|congruence|apply silent_nil]. }
  pose proof (confirm_call_spec h0 p t Hp Hgate Hi) as Hc.
  destruct (confirm_call p t) as [t1 answer]. destruct Hc as (Hh & Hi1 & Hca & Ha).
  destruct answer as [|b|].
  - apply Hgo; [|by rewrite run_call_gatekeeper]. apply (handles_trans _ _ _ _ t1 _ [] [p] Hh).
    destruct Hp as [Hin Hr]. apply handles_run_call; try done. by apply agreed_may_run.
  - apply Hgo; [|done]. apply (handles_trans _ _ _ _ t1 _ [] [p] Hh).
    rewrite <- (log_nil t1) at 2. apply handles_refuse; [done|done|congruence|apply silent_nil].
  - split; [|done]. by apply progress_stop.
Qed.
Lemma skip_calls_handles h0 l t : handles h0 t (foldl skip_call t l) l ∧ gatekeeper (foldl skip_call t l) = gatekeeper t.
Proof.
  split.
  - rewrite <- (list_fmap_id l) at 2. apply (handles_foldl _ _ _ id (λ _ _, True)); [done| |done]. intros p t' _ _.
    eapply (handles_skip _ _ _ _ _ _ _ []); try done; [by rewrite app_nil_r|apply silent_nil].
  - revert t. induction l as [|p l IH]; intros t; cbn; [done|by rewrite IH].
Qed.
Lemma terminal_batch_handled : batch_handled L terminal_consent quit_typed confirmer_inv run_batch.
Proof.
  intros b t Hm Hi. unfold ToolExecution.run_batch, skips.
  set (now := filter (λ p, skip p (cascade t) = true) (calls b)).
  set (rest := filter (λ p, skip p (cascade t) = false) (calls b)).
  destruct (skip_calls_handles (cascade t) now t) as [Hs Hg]. set (t1 := foldl skip_call t now) in *.
  assert (Hrest : ∀ p, p ∈ rest → member p ∧ skip p (cascade t) = false).
  { intros p [Hk Hp]%list_elem_of_filter. split; [by apply Hm|done]. }
  assert (Hi1 : confirmer_inv (gatekeeper t1)) by by rewrite Hg.
  assert (Hperm : now ++ rest ≡ₚ calls b).
  { apply (filter_bool_perm (λ p, skip p (cascade t))). }
  assert (Hthen : ∀ t2 go_on, progress (cascade t) t1 t2 go_on rest → progress (cascade t) t t2 go_on (calls b)).
  { intros t2 go_on H. eapply progress_perm; [exact Hperm|]. by eapply progress_then. }
  destruct ((1 <? length rest) && is_concurrent b).
  - destruct (run_concurrent_spec (cascade t) rest t1 Hrest Hi1) as [H1 H2]. split; [by apply Hthen|done].
  - destruct (run_sequence_spec (cascade t) rest t1) as [H1 H2]; [intros p Hp; by apply Hrest|done|by eapply handles_le|].
    split; [by apply Hthen|done].
Qed.
End terminal.

(** *** The executor with a host *)

Section host.
Context (L : list PreparedCall) (m0 : ToolApprovalManager Num) (auto : bool) (allowed : list bytes).
Abbreviation Turn := (Turn Num Modifier Timing (ToolApprovalManager Num)).
Abbreviation needs_approval := (call_needs_interactive_approval reg auto allowed).
Abbreviation report := (report reg scope policy w false).
Abbreviation run_and_report := (run_and_report redact compact_output reg a scope policy w).
Abbreviation run_together := (run_together redact compact_output reg a scope policy w).
Abbreviation ask_host := (ask_host reg scope w).
Abbreviation unprompted := (unprompted reg w auto allowed).
Abbreviation run_host_sequence := (run_host_sequence redact compact_output reg a scope policy w auto allowed).
Abbreviation run_host_batch := (run_host_batch redact compact_output reg a scope policy w auto allowed).
Implicit Types (t : Turn) (m : ToolApprovalManager Num) (act : HostAction Num).
Definition acted act : Prop :=
  ∃ q, q ∈ L ∧ (act ∈ host_checking w (at_ q) ∨ act ∈ host_before w (at_ q) ∨ act ∈ host_waiting w (at_ q)).
Definition call_category (name : bytes) (input : Value Num) : ToolCategory :=
  match get_tool reg name with Some tool => category_for tool input | None => Exec end.
Definition asked (id category : bytes) : Prop :=
  ∃ q name input extra, q ∈ L ∧ call q = ToolUse id name input extra ∧ category_str (call_category name input) = category.
Abbreviation granted := (granted m0 acted asked).
Abbreviation manager_inv := (manager_inv m0 acted asked).
(** The identifier of the registration that [k] others came before *)
Definition registration_id (k : N) : bytes :=
  as_bytes "voice:" ++ scope_instance m0 ++ as_bytes ":" ++ decimal ((k + 1) mod (u64_max + 1)) ++ as_bytes ":" ++ scope.
(** The host confirmed exactly this invocation, in time and under the identifier of the
    registration that the turn made for it. *)
Definition confirmed_once (seen : list Effect) p (id name : bytes) (input : Value Num) : Prop :=
  ∃ now k, Registered (at_ p) k ∈ seen ∧
    HResolveScoped now scope id (registration_id k) true ∈ host_waiting w (at_ p) ∧
    (now < instant_of w (at_ p) + approval_limit reg name input)%N.
(** The host approved the call while it was waiting. *)
Definition approved_waiting p (id : bytes) : Prop :=
  ∃ act, act ∈ host_waiting w (at_ p) ∧
    match act with HApprove id' _ | HResolve id' Approved => id' = id | _ => False end.
(** No approval is needed: in automatic mode, or by the tool itself, the allow list or a
    grant of its category. *)
Definition approved_already (name : bytes) (input : Value Num) : Prop :=
  auto = true ∨ ∀ tool, get_tool reg name = Some tool →
    let category := category_for tool input in
    auto_approve_invocation tool input category = true ∨ name ∈ allowed ∨ granted (category_str category).
Definition host_consent (seen : list Effect) p : Prop :=
  ∀ id name input extra, call p = ToolUse id name input extra →
    if needs_host_approval reg name input then confirmed_once seen p id name input
    else approved_already name input ∨ approved_waiting p id.
Abbreviation handles := (handles L host_consent).
(** The host withdrew an approval that was awaited. *)
Definition withdrawn : Prop :=
  ∃ p act, p ∈ L ∧ act ∈ host_waiting w (at_ p) ∧ withdraws act (call_id (call p)).
Abbreviation progress := (progress L host_consent withdrawn).
Abbreviation member := (member L).
Lemma consent_may_run seen p approved : host_consent seen p → may_run host_consent seen p approved.
Proof. by intros H id name input extra _ _. Qed.
Lemma free_consent seen p m : manager_inv m → needs_approval (call p) m = false → host_consent seen p.
Proof.
  intros Hm Hn id name input extra Hc. rewrite Hc in Hn. cbn in Hn.
  destruct (needs_host_approval reg name input); [done|]. left. unfold approved_already.
  destruct auto; [by left|right]. intros tool Ht. rewrite Ht in Hn. cbn.
  apply andb_false_iff in Hn as [Hn|Hn%negb_false_iff].
  - apply andb_false_iff in Hn as [Hn%negb_false_iff|Hn%negb_false_iff%bool_decide_eq_true]; auto.
  - right; right. by eapply auto_approved_granted.
Qed.
Lemma insert_owns (id : bytes) cat s x m :
  manager_inv m → let '(m', _, (token, channel)) := insert_approval id cat s x m in
  owns channel id (mkPending (category_str cat) token channel (with_approval_id m token <$> s) x) m'.
Proof.
  intros Hm. split; cbn; [lia|]. intros id' e [[<- <-]|[_ He]]%lookup_insert_Some Hch; [done|].
  destruct (inv_pending _ _ _ _ Hm id' e He). lia.
Qed.
Lemma member_actions p : p ∈ L →
  (∀ act, act ∈ host_checking w (at_ p) → acted act) ∧ (∀ act, act ∈ host_before w (at_ p) → acted act) ∧
  (∀ act, act ∈ host_waiting w (at_ p) → acted act).
Proof. intros Hp. split_and!; intros act Ha; exists p; auto. Qed.
(** Waiting for the answer to a registration: an approval comes from an action of the
    host on this registration. *)
Lemma wait_spec p (id : bytes) (token channel : N) (e : PendingApproval Num) m :
  p ∈ L → manager_inv m → owns channel id e m →
  let '(m', answer) := wait_for_tool_approval w (at_ p) id token channel m in
  manager_inv m' ∧
  match answer with
  | ApprovedByHost => ∃ act, act ∈ host_waiting w (at_ p) ∧ approves act id e
  | Disconnected => ∃ act, act ∈ host_waiting w (at_ p) ∧ withdraws act id
  | _ => True
  end.
Proof.
  intros Hp Hm Ho. unfold wait_for_tool_approval.
  assert (Hi := host_actions_inv m0 acted asked (host_waiting w (at_ p)) m (proj2 (proj2 (member_actions p Hp))) Hm).
  pose proof (λ g, host_actions_owns (host_waiting w (at_ p)) m channel id e g Ho) as Ha.
  destruct (host_actions (host_waiting w (at_ p)) m) as [m' signals]. cbn [fst snd] in *.
  destruct (received channel signals) as [[[|why]|]|] eqn:Hr; try (split; [done|]).
  - by apply (Ha (Sent Approved)), received_in.
  - done.
  - by apply (Ha Dropped), received_in.
  - split; [|done]. unfold drop_pending_if. destruct (pending m' !! id) as [e'|]; [|done].
    destruct (pending_token e' =? token)%N; [|done]. apply set_pending_inv; [apply delete_subseteq|done].
Qed.
Lemma request_spec p id name input extra limit m :
  p ∈ L → call p = ToolUse id name input extra → manager_inv m →
  let '(m', (token, channel)) := request_approval reg scope w p id name input limit m in
  manager_inv m' ∧ channel = next_channel m ∧ next_channel m' = (channel + 1)%N ∧
  ∃ e : PendingApproval Num, owns channel id e m' ∧
    if needs_host_approval reg name input then
      ∃ s, pending_scope e = Some s ∧ scope_msg_id s = scope ∧
        pending_expires e = Some (instant_of w (at_ p) + limit)%N ∧
        approval_id s = registration_id channel
    else pending_scope e = None.
Proof.
  intros Hp Hc Hm. unfold request_approval, request_approval_with_token, request_scoped_approval_with_token.
  assert (Ho : origin m0 acted asked id (category_str (call_category name input))).
  { right; right. by exists p, name, input, extra. }
  fold (call_category name input).
  destruct (needs_host_approval reg name input).
  - set (s := mkScoped _ _ _ _ _ _). set (x := Some (instant_of w (at_ p) + limit)%N).
    assert (Hi := insert_approval_inv m0 acted asked id (call_category name input) (Some s) x m Ho Hm).
    pose proof (insert_owns id (call_category name input) (Some s) x m Hm) as Hw.
    split; [exact Hi|]. do 2 (split; [done|]). eexists. split; [exact Hw|]. eexists. split_and!; [done|done|done|].
    cbn. unfold registration_id. by rewrite (inv_instance _ _ _ _ Hm), (token_next m (inv_tokens _ _ _ _ Hm)).
  - assert (Hi := insert_approval_inv m0 acted asked id (call_category name input) None None m Ho Hm).
    pose proof (insert_owns id (call_category name input) None None m Hm) as Hw.
    split; [exact Hi|]. do 2 (split; [done|]). eexists. split; [exact Hw|done].
Qed.
Lemma ask_host_spec h0 p id name input extra t :
  member p → gate p = None → call p = ToolUse id name input extra → manager_inv (gatekeeper t) →
  let '(t', answer) := ask_host p id name input t in
  handles h0 t t' [] ∧ manager_inv (gatekeeper t') ∧ cascade t' = cascade t ∧
  match answer with ApprovedByHost => host_consent (trace t') p | Disconnected => withdrawn | _ => True end.
Proof.
  intros [Hin Hr] Hg Hc Hm. unfold ToolExecution.ask_host.
  pose proof (request_spec p id name input extra (approval_limit reg name input) (gatekeeper t) Hin Hc Hm) as Hq.
  destruct (request_approval _ _ _ _ _ _ _ _ _) as [m [token channel]]. destruct Hq as (Hm1 & _ & _ & e & Ho & He). cbn.
  pose proof (wait_spec p id token channel e m Hin Hm1 Ho) as Hw.
  destruct (wait_for_tool_approval w (at_ p) id token channel m) as [m' answer]. destruct Hw as [Hm2 Ha].
  split_and!; [|done|done|].
  - eapply (handles_none _ _ _ _ _ [Registered (at_ p) channel; Emitted _]); try done; cbn; [by rewrite <- app_assoc|].
    intros ev [->|Hev%list_elem_of_singleton]%elem_of_cons; [by exists p|]. subst ev. by exists p, extra.
  - destruct answer; [|done| |done].
    2: { destruct Ha as (act & Hact & Hw). exists p, act. split_and!; [done|done|by rewrite Hc]. }
    destruct Ha as (act & Hact & Hap). intros id' name' input' extra' Hc'. rewrite Hc' in Hc.
    injection Hc as -> -> -> ->. destruct (needs_host_approval reg name input).
    + destruct He as (s & Hs & Hms & Hx & Haid).
      destruct act as [id1 sc|id1 [|why]|now msg id1 aid [|]|mode|c|id1|id1 cat s1 x1]; try done;
        try (destruct Hap as [_ ?]; congruence).
      destruct Hap as (-> & s' & Hs' & <- & <- & Hexp). rewrite Hs in Hs'. injection Hs' as <-.
      exists now, channel. rewrite <- Haid. split_and!; [|by rewrite Hms in Hact|by apply Hexp].
      cbn. rewrite !elem_of_app, !elem_of_cons. auto.
    + right. exists act. split; [done|].
      destruct act as [id1 sc|id1 [|why]|now msg id1 aid [|]|mode|c|id1|id1 cat s1 x1]; try done.
      * by destruct Hap.
      * by destruct Hap.
      * destruct Hap as (_ & s' & ? & _). congruence.
Qed.
Lemma silent_result c b ok : silent (Emitted <$> result_event scope c b ok).
Proof.
  intros e He. unfold result_event in He. destruct c; try by apply elem_of_nil in He.
  destruct b; try by apply elem_of_nil in He. by apply list_elem_of_singleton in He as ->.
Qed.
Lemma silent_running p : silent (Emitted <$> running_event scope p).
Proof.
  intros e He. unfold running_event in He. destruct (call p); try by apply elem_of_nil in He.
  by apply list_elem_of_singleton in He as ->.
Qed.
Lemma run_and_report_spec h0 p approved t :
  member p → gate p = None → skip p h0 = false → host_consent (trace t) p →
  handles h0 t (run_and_report p approved t) [p] ∧ gatekeeper (run_and_report p approved t) = gatekeeper t.
Proof.
  intros [Hin Hr] Hg Hs Hc. unfold ToolExecution.run_and_report.
  set (t0 := emit (running_event scope p) t). destruct (run p approved t0) as [effects [b m]] eqn:Hrun.
  unfold ToolExecution.report. set (ev := result_event scope (call p) b (negb (block_is_error b))).
  destruct (account_fields p true b (emit ev (log effects t0))) as (H1 & H2 & H3 & H4 & H5).
  split; [|cbn -[ToolExecution.account]; by rewrite H4].
  apply (handles_run L host_consent h0 t _ p approved t0 (Emitted <$> running_event scope p) (Emitted <$> ev));
    rewrite ?Hrun; try done; cbn -[ToolExecution.account].
  - by apply consent_may_run.
  - apply silent_running.
  - apply silent_result.
  - by rewrite H1.
  - by rewrite H2.
  - rewrite H3. cbn. by rewrite <- !app_assoc.
Qed.
(** The results of a batch that has run *)
Lemma report_spec h0 (out : PreparedCall → ContentBlock * option Modifier) l t :
  (∀ p h, p ∈ l → result_ok h0 (if block_is_error (out p).1 then note policy (call p) false h else h) p (out p).1) →
  let t' := foldl report t (zip l (out <$> l)) in
  gatekeeper t' = gatekeeper t ∧
  ∃ es, silent es ∧ trace t' = trace t ++ es ∧ results t' = results t ++ ((λ p, (at_ p, (out p).1)) <$> l) ∧
    modifiers t' = modifiers t ++ ((λ p, (out p).2) <$> l) ∧ cascade_le (cascade t) (cascade t') ∧
    ∀ p, p ∈ l → result_ok h0 (cascade t') p (out p).1.
Proof.
  revert t. induction l as [|p l IH]; intros t Hout; cbn -[ToolExecution.report].
  { split; [done|]. exists []. rewrite !app_nil_r. split_and!; try done; [apply silent_nil|].
    intros p Hp. by apply elem_of_nil in Hp. }
  destruct (IH (report t (p, out p))) as (Hg & es & Hs & Ht & Hr & Hm & Hc & Hok); [intros q h Hq; apply Hout; by right|].
  destruct (out p) as [b m] eqn:Hb. set (ev := result_event scope (call p) b (negb (block_is_error b))).
  assert (Hp := Hout p (cascade t) (list_elem_of_here _ _)). rewrite Hb in Hp. cbn [fst] in Hp.
  destruct (account_fields p false b (emit ev t)) as (H1 & H2 & H3 & H4 & H5).
  cbn [ToolExecution.report] in *. fold ev in Hg, Ht, Hr, Hm, Hc, Hok |- *.
  set (t' := foldl report _ _) in *. cbn -[ToolExecution.account] in Hg, Ht, Hr, Hm, Hc.
  rewrite H4 in Hg. rewrite H3 in Ht. rewrite H1 in Hr. rewrite H2 in Hm. rewrite H5 in Hc. cbn in Ht, Hr, Hm, Hg, Hc.
  split; [done|]. exists ((Emitted <$> ev) ++ es). split_and!.
  - apply silent_app; [apply silent_result|done].
  - by rewrite Ht, <- app_assoc.
  - by rewrite Hr, <- app_assoc.
  - by rewrite Hm, <- app_assoc.
  - etrans; [|exact Hc]. destruct (block_is_error b); [apply note_le|done].
  - intros q [->|Hq]%elem_of_cons; [|by apply Hok]. rewrite Hb. by apply (result_ok_le h0 _ _ _ _ Hc).
Qed.
Lemma run_together_spec h0 l t :
  (∀ p, p ∈ l → member p ∧ gate p = None ∧ skip p h0 = false ∧ host_consent (trace t) p) →
  handles h0 t (run_together l t) l ∧ gatekeeper (run_together l t) = gatekeeper t.
Proof.
  intros Hl. unfold ToolExecution.run_together. set (t1 := emit _ t).
  set (outs := (λ p, run p false t1) <$> l).
  assert (Ho : snd <$> outs = (λ p, (run p false t1).2) <$> l) by (unfold outs; by rewrite <- list_fmap_compose).
  rewrite Ho.
  destruct (report_spec h0 (λ p, (run p false t1).2) l (log (concat (fst <$> outs)) t1)) as
    (Hg & es & Hs & Ht & Hr & Hm & Hc & Hok).
  { intros p h Hp. destruct (Hl p Hp) as ([Hin Hrd] & Hgate & Hsk & Hcons). by apply run_result. }
  set (t' := foldl report _ _) in *. split; [|by rewrite Hg]. cbn in Ht, Hr, Hm, Hc.
  assert (Hrun : silent (Emitted <$> concat (running_event scope <$> l))).
  { clear. induction l as [|p l IH]; cbn; [apply silent_nil|]. rewrite fmap_app. apply silent_app; [apply silent_running|done]. }
  destruct (silent_ok L host_consent h0 (trace t') _ Hrun) as [Hd1 Ho1]. destruct (silent_ok L host_consent h0 (trace t') es Hs) as [Hd2 Ho2].
  exists ((λ p, (at_ p, (run p false t1).2.1)) <$> l), ((λ p, (run p false t1).2.2) <$> l),
    (((Emitted <$> concat (running_event scope <$> l)) ++ concat (fst <$> outs)) ++ es).
  split_and!; [done|done|by rewrite Ht, <- !app_assoc|by rewrite !length_fmap| | |done| |].
  - by rewrite <- list_fmap_compose.
  - unfold dispatched in *. rewrite !omap_app, Hd1, Hd2, app_nil_r. cbn. unfold outs.
    assert (Hm' : ∀ p, p ∈ l → dispatched (run p false t1).1 ⊆+ [at_ p]).
    { intros p Hp. destruct (Hl p Hp) as ([Hin Hrd] & Hgate & _). by apply run_spec. }
    clear -Hm'. induction l as [|p l IH]; cbn; [done|]. rewrite omap_app.
    apply (submseteq_app _ [at_ p] _ (at_ <$> l)); [apply Hm'; by left|]. apply IH. intros q Hq. apply Hm'. by right.
  - intros i b (p & [= -> ->] & Hp)%list_elem_of_fmap. exists p. split_and!; [done|done|by apply Hok].
  - intros e [[Hi|Hi]%elem_of_app|Hi]%elem_of_app; [by apply Ho1| |by apply Ho2].
    apply list_elem_of_In, in_concat in Hi as (x & Hx%list_elem_of_In & Hi%list_elem_of_In).
    unfold outs in Hx. rewrite <- list_fmap_compose in Hx. apply list_elem_of_fmap in Hx as (p & -> & Hp). cbn in Hi.
    destruct (Hl p Hp) as ([Hin Hrd] & Hgate & Hsk & Hcons). eapply run_effects; [done|done|done|exact Hsk|by apply consent_may_run| |exact Hi].
    rewrite Ht. intros x Hx. rewrite !elem_of_app. auto.
Qed.
(** What the host does between two calls *)
Lemma host_acts_spec h0 acts t :
  (∀ act, act ∈ acts → acted act) → manager_inv (gatekeeper t) →
  handles h0 t (host_acts acts t) [] ∧ manager_inv (gatekeeper (host_acts acts t)) ∧ cascade (host_acts acts t) = cascade t.
Proof.
  intros Ha Hm. split_and!; [|by apply host_actions_inv|done].
  eapply (handles_none _ _ _ _ _ []); try done; [by rewrite app_nil_r|]. intros e He. by apply elem_of_nil in He.
Qed.
Lemma unprompted_spec h0 l t :
  (∀ p, p ∈ l → member p) → manager_inv (gatekeeper t) →
  let '(t', free) := unprompted l t in
  handles h0 t t' [] ∧ manager_inv (gatekeeper t') ∧ cascade t' = cascade t ∧
  (free = true → ∀ p, p ∈ l → gate p = None ∧ ∀ seen, host_consent seen p).
Proof.
  revert t. induction l as [|p l IH]; intros t Hl Hm; cbn [ToolExecution.unprompted].
  { split_and!; [apply handles_refl|done|done|]. intros _ p Hp. by apply elem_of_nil in Hp. }
  destruct (Hl p (list_elem_of_here _ _)) as [Hin _].
  destruct (host_acts_spec h0 (host_checking w (at_ p)) t (proj1 (member_actions p Hin)) Hm) as (Hh & Hm1 & Hc1).
  set (t1 := host_acts _ t) in *. destruct (is_gated p || needs_approval (call p) (gatekeeper t1)) eqn:Hn.
  { by split_and!. }
  apply orb_false_iff in Hn as [Hg Hn]. unfold is_gated in Hg. apply bool_decide_eq_false, eq_None_not_Some in Hg.
  specialize (IH t1 (λ q Hq, Hl q (list_elem_of_further _ _ _ Hq)) Hm1).
  destruct (unprompted l t1) as [t' free]. destruct IH as (H1 & H2 & H3 & H4). split_and!; [|done|congruence|].
  - by apply (handles_trans _ _ _ _ t1 _ [] []).
  - intros Hf q [->|Hq]%elem_of_cons; [|by apply H4]. split; [done|]. intros seen. by eapply free_consent.
Qed.
Lemma run_host_sequence_spec h0 l t :
  (∀ p, p ∈ l → member p) → manager_inv (gatekeeper t) → cascade_le h0 (cascade t) →
  progress h0 t (run_host_sequence l t).1 (run_host_sequence l t).2 l ∧ manager_inv (gatekeeper (run_host_sequence l t).1).
Proof.
  revert t. induction l as [|p l IH]; intros t Hl Hm Hle; cbn -[ToolExecution.run_and_report ToolExecution.ask_host host_acts].
  { split; [|done]. apply progress_done, handles_refl. }
  assert (Hp : member p) by (apply Hl; by left). pose proof Hp as [Hin [Hu Hr]].
  destruct (host_acts_spec h0 (host_before w (at_ p)) t (proj1 (proj2 (member_actions p Hin))) Hm) as (Hh & Hm1 & Hc1).
  set (t1 := host_acts _ t) in *.
  assert (Hgo : ∀ t2, handles h0 t1 t2 [p] → manager_inv (gatekeeper t2) →
    progress h0 t (run_host_sequence l t2).1 (run_host_sequence l t2).2 (p :: l) ∧
    manager_inv (gatekeeper (run_host_sequence l t2).1)).
  { intros t2 H2 Hm2. assert (Hx : handles h0 t t2 [p]) by by apply (handles_trans _ _ _ _ t1 _ [] [p]).
    destruct (IH t2) as [Hpr Hi2]; [intros q Hq; apply Hl; by right|done|etrans; [done|by eapply handles_le]|].
    split; [|done]. by apply (progress_then _ _ _ h0 t t2 _ _ [p] l). }
  unfold skips. destruct (skip p (cascade t1)) eqn:Hs.
  { apply Hgo; [|done]. eapply handles_skip; try done. apply silent_result. }
  assert (Hs0 : skip p h0 = false).
  { apply not_true_is_false. intros Hk. eapply should_skip_le in Hk; [|exact Hle]. congruence. }
  destruct (call p) as [|id name input extra| | |] eqn:Hc; try (by unfold is_use in Hu; rewrite Hc in Hu).
  rewrite <- Hc in *. clear Hle.
  destruct (gate p) as [refused|] eqn:Hgate.
  { apply Hgo; [|done]. apply handles_refuse; [by apply gate_answers|done|congruence|apply silent_result]. }
  destruct (needs_approval (call p) (gatekeeper t1)) eqn:Hn.
  - pose proof (ask_host_spec h0 p id name input extra t1 Hp Hgate Hc Hm1) as Ha.
    destruct (ask_host p id name input t1) as [t2 answer]. destruct Ha as (Hh2 & Hm2 & Hc2 & Ha).
    assert (Href : ∀ b es, answers (call p) b → silent (Emitted <$> es) →
      handles h0 t1 (refuse policy p b (emit es t2)) [p]).
    { intros b es Hb He. apply (handles_trans _ _ _ _ t2 _ [] [p] Hh2). apply handles_refuse; [done|done|congruence|done]. }
    destruct answer as [|why| |].
    + destruct (run_and_report_spec h0 p true t2 Hp Hgate Hs0 Ha) as [H1 H2].
      apply Hgo; [by apply (handles_trans _ _ _ _ t2 _ [] [p])|by rewrite H2].
    + apply Hgo; [apply Href|done].
      * rewrite Hc. apply (answers_error (ToolUse id name input extra)).
      * intros e He%list_elem_of_singleton. by subst.
    + split; [|done]. apply progress_stop; [done|]. by apply (handles_trans _ _ _ _ t1 _ [] []).
    + apply Hgo; [apply Href|done].
      * rewrite Hc. apply (answers_error (ToolUse id name input extra)).
      * cbn. intros e [->|He]%elem_of_cons; [done|]. by apply (silent_result _ _ _ _ He).
  - destruct (run_and_report_spec h0 p false t1 Hp Hgate Hs0 (free_consent _ p _ Hm1 Hn)) as [H1 H2].
    apply Hgo; [done|by rewrite H2].
Qed.
Lemma skip_calls_emit_handles h0 l t :
  handles h0 t (foldl (skip_call_emit scope) t l) l ∧ gatekeeper (foldl (skip_call_emit scope) t l) = gatekeeper t.
Proof.
  split.
  - rewrite <- (list_fmap_id l) at 2. apply (handles_foldl _ _ _ id (λ _ _, True)); [done| |done]. intros p t' _ _.
    eapply handles_skip; try done. apply silent_result.
  - revert t. induction l as [|p l IH]; intros t; cbn; [done|by rewrite IH].
Qed.
Lemma host_batch_handled : batch_handled L host_consent withdrawn manager_inv run_host_batch.
Proof.
  intros b t Hm Hi. unfold ToolExecution.run_host_batch, skips.
  set (now := filter (λ p, skip p (cascade t) = true) (calls b)).
  set (rest := filter (λ p, skip p (cascade t) = false) (calls b)).
  destruct (skip_calls_emit_handles (cascade t) now t) as [Hs Hg]. set (t1 := foldl (skip_call_emit scope) t now) in *.
  assert (Hrest : ∀ p, p ∈ rest → member p ∧ skip p (cascade t) = false).
  { intros p [Hk Hp]%list_elem_of_filter. split; [by apply Hm|done]. }
  assert (Hi1 : manager_inv (gatekeeper t1)) by by rewrite Hg.
  assert (Hperm : now ++ rest ≡ₚ calls b) by apply (filter_bool_perm (λ p, skip p (cascade t))).
  assert (Hthen : ∀ t2 go_on, progress (cascade t) t1 t2 go_on rest → progress (cascade t) t t2 go_on (calls b)).
  { intros t2 go_on H. eapply progress_perm; [exact Hperm|]. by eapply progress_then. }
  destruct rest as [|p rest'] eqn:Hr; [split; [|done]; by apply Hthen, progress_done, handles_refl|].
  rewrite <- Hr in *. clear Hr p rest'.
  pose proof (unprompted_spec (cascade t) rest t1 (λ p Hp, proj1 (Hrest p Hp)) Hi1) as Hun.
  destruct (unprompted rest t1) as [t2 free]. destruct Hun as (Hh & Hm2 & Hc2 & Hf).
  assert (Hthen2 : ∀ t3 go_on, progress (cascade t) t2 t3 go_on rest → progress (cascade t) t t3 go_on (calls b)).
  { intros t3 go_on H. apply Hthen. by apply (progress_then _ _ _ _ _ t2 _ _ [] rest). }
  destruct ((1 <? length rest) && is_concurrent b && free) eqn:Hx; cbn [fst snd].
  - apply andb_true_iff in Hx as [_ Hx].
    destruct (run_together_spec (cascade t) rest t2) as [H1 H2].
    { intros p Hp. destruct (Hrest p Hp), (Hf Hx p Hp). by split_and!. }
    split; [by apply Hthen2, progress_done|by rewrite H2].
  - destruct (run_host_sequence_spec (cascade t) rest t2) as [H1 H2]; [intros p Hp; by apply Hrest|done| |].
    { rewrite Hc2. by eapply handles_le. }
    split; [by apply Hthen2|done].
Qed.

(** *** The numbers of the registrations *)

Definition registrations (es : list Effect) : list N :=
  omap (λ e, match e with Registered _ k => Some k | _ => None end) es.
(** From [t] to [t'] the registrations have taken numbers that no earlier one had. *)
Definition counted t t' : Prop :=
  ∃ es, trace t' = trace t ++ es ∧ numbered (next_channel (gatekeeper t)) (registrations es) (next_channel (gatekeeper t')).
Lemma counted_trans t t1 t2 : counted t t1 → counted t1 t2 → counted t t2.
Proof.
  intros (es & He & H) (es' & He' & H'). exists (es ++ es'). rewrite He', He, app_assoc. split; [done|].
  unfold registrations. rewrite omap_app. by eapply numbered_app.
Qed.
Lemma counted_same t t' es :
  trace t' = trace t ++ es → registrations es = [] → (next_channel (gatekeeper t) ≤ next_channel (gatekeeper t'))%N → counted t t'.
Proof. intros He Hr Hc. exists es. by rewrite Hr. Qed.
Lemma counted_refl t : counted t t.
Proof. apply (counted_same t t []); [by rewrite app_nil_r|done|lia]. Qed.
Lemma counted_foldl {A} (step : Turn → A → Turn) xs t : (∀ x t, counted t (step t x)) → counted t (foldl step t xs).
Proof.
  intros Hs. revert t. induction xs as [|x xs IH]; intros t; cbn; [apply counted_refl|]. by eapply counted_trans.
Qed.
Lemma registrations_events evs : registrations (Emitted <$> evs) = [].
Proof. by induction evs. Qed.
Lemma registrations_run p approved t : registrations (run p approved t).1 = [].
Proof. unfold ToolExecution.run, execute_single. repeat (case_match; cbn); done. Qed.
Lemma counted_emit evs t : counted t (emit evs t).
Proof. eapply counted_same; [done|apply registrations_events|cbn; lia]. Qed.
Lemma counted_refuse p b t : counted t (refuse policy p b t).
Proof. apply (counted_same _ _ []); [by rewrite app_nil_r|done|cbn; lia]. Qed.
Lemma counted_acts acts t : counted t (host_acts acts t).
Proof. apply (counted_same _ _ []); [by rewrite app_nil_r|done|apply host_actions_channels]. Qed.
Lemma counted_skip t p : counted t (skip_call_emit scope t p).
Proof. eapply counted_same; [done|apply registrations_events|cbn; lia]. Qed.
Lemma counted_report t po : counted t (report t po).
Proof.
  destruct po as [p [b m]]. set (ev := result_event scope (call p) b (negb (block_is_error b))).
  destruct (account_fields p false b (emit ev t)) as (_ & _ & H3 & H4 & _).
  apply (counted_same _ _ (Emitted <$> ev)); [exact H3|apply registrations_events|].
  cbn -[ToolExecution.account]. fold ev. rewrite H4. cbn. lia.
Qed.
Lemma counted_run p approved t : counted t (run_and_report p approved t).
Proof.
  unfold ToolExecution.run_and_report. set (t0 := emit (running_event scope p) t).
  pose proof (registrations_run p approved t0) as Hrun. destruct (run p approved t0) as [effects [b m]].
  set (ev := result_event scope (call p) b (negb (block_is_error b))). cbn [fst] in Hrun.
  destruct (account_fields p true b (emit ev (log effects t0))) as (_ & _ & H3 & H4 & _).
  apply (counted_trans _ t0); [apply counted_emit|]. apply (counted_same _ _ (effects ++ (Emitted <$> ev))).
  - cbn -[ToolExecution.account]. fold ev. rewrite H3. cbn. by rewrite <- !app_assoc.
  - unfold registrations in *. rewrite omap_app, Hrun. apply registrations_events.
  - cbn -[ToolExecution.account]. fold ev. rewrite H4. cbn. lia.
Qed.
Lemma counted_together l t : counted t (run_together l t).
Proof.
  unfold ToolExecution.run_together. set (t1 := emit _ t). apply (counted_trans _ t1); [apply counted_emit|].
  apply (counted_trans _ (log (concat (fst <$> ((λ p, run p false t1) <$> l))) t1)); [|apply counted_foldl; intros; apply counted_report].
  eapply counted_same; [done| |cbn; lia]. clearbody t1. clear. induction l as [|p l IH]; cbn; [done|].
  unfold registrations in *. rewrite omap_app, IH, app_nil_r. apply registrations_run.
Qed.
Lemma wait_channels i id token channel m :
  (next_channel m ≤ next_channel (wait_for_tool_approval w i id token channel m).1)%N.
Proof.
  unfold wait_for_tool_approval. pose proof (host_actions_channels (host_waiting w i) m) as H.
  destruct (host_actions _ m) as [m' signals]. cbn in H. destruct (received channel signals) as [[[|]|]|]; cbn; try done.
  unfold drop_pending_if. by repeat case_match.
Qed.
Lemma counted_ask p id name input t : counted t (ask_host p id name input t).1.
Proof.
  unfold ToolExecution.ask_host, request_approval, request_approval_with_token, request_scoped_approval_with_token.
  destruct (needs_host_approval reg name input); cbn.
  all: match goal with |- context [wait_for_tool_approval ?w ?i ?id ?token ?channel ?m] =>
    pose proof (wait_channels i id token channel m) as Hc; destruct (wait_for_tool_approval w i id token channel m) end.
  all: cbn in *; eexists [_; _]; (split; [cbn; by rewrite <- app_assoc|]); cbn; split; [reflexivity|exact Hc].
Qed.
Lemma counted_unprompted l t : counted t (unprompted l t).1.
Proof.
  revert t. induction l as [|p l IH]; intros t; cbn [ToolExecution.unprompted]; [apply counted_refl|].
  destruct (_ || _); [apply counted_acts|]. eapply counted_trans; [apply counted_acts|apply IH].
Qed.
Lemma counted_sequence l t : counted t (run_host_sequence l t).1.
Proof.
  revert t. induction l as [|p l IH]; intros t; cbn -[ToolExecution.run_and_report ToolExecution.ask_host host_acts]; [apply counted_refl|].
  eapply counted_trans; [apply (counted_acts (host_before w (at_ p)))|]. set (t1 := host_acts _ t).
  destruct (skips policy t1 p); [eapply counted_trans; [apply counted_skip|apply IH]|].
  destruct (call p) as [|id name input extra| | |] eqn:Hc; try apply IH.
  destruct (gate p); [eapply counted_trans; [eapply counted_trans; [apply counted_emit|apply counted_refuse]|apply IH]|].
  destruct (call_needs_interactive_approval _ _ _ _ _); [|eapply counted_trans; [apply counted_run|apply IH]].
  pose proof (counted_ask p id name input t1) as Ha. destruct (ask_host p id name input t1) as [t2 [|why| |]].
  - eapply counted_trans; [exact Ha|]. eapply counted_trans; [apply counted_run|apply IH].
  - eapply counted_trans; [exact Ha|]. eapply counted_trans; [eapply counted_trans; [apply counted_emit|apply counted_refuse]|apply IH].
  - exact Ha.
  - eapply counted_trans; [exact Ha|]. eapply counted_trans; [eapply counted_trans; [apply counted_emit|apply counted_refuse]|apply IH].
Qed.
Lemma counted_batch (b : Batch Num) t : counted t (run_host_batch b t).1.
Proof.
  unfold ToolExecution.run_host_batch.
  eapply counted_trans; [apply (counted_foldl (skip_call_emit scope) (filter (λ p, skips policy t p = true) (calls b))); intros; apply counted_skip|].
  generalize (foldl (skip_call_emit scope) t (filter (λ p, skips policy t p = true) (calls b))). intros t1.
  generalize (filter (λ p, skips policy t p = false) (calls b)). intros [|p l]; [apply counted_refl|].
  pose proof (counted_unprompted (p :: l) t1) as Hu. destruct (unprompted (p :: l) t1) as [t2 free].
  eapply counted_trans; [exact Hu|]. destruct (_ && _ && _); [apply counted_together|apply counted_sequence].
Qed.
Lemma counted_batches bs t : counted t (run_batches run_host_batch bs t).1.
Proof.
  revert t. induction bs as [|b bs IH]; intros t; cbn; [apply counted_refl|]. pose proof (counted_batch b t) as Hb.
  destruct (run_host_batch b t) as [t1 [|]]; [|exact Hb]. eapply counted_trans; [exact Hb|apply IH].
Qed.
(** The identifier of a registration is none of the 2^64 - 1 identifiers before it. *)
Lemma registration_id_fresh j k : (j < k)%N → (k < j + 2 ^ 64)%N → registration_id j ≠ registration_id k.
Proof.
  intros H1 H2 He. unfold registration_id in He. apply app_inv_head, app_inv_head, app_inv_head in He.
  apply app_inv_tail, decimal_inj in He. revert He. change (u64_max + 1)%N with (2 ^ 64)%N.
  pose proof (N.Div0.div_mod (j + 1) (2 ^ 64)). pose proof (N.Div0.div_mod (k + 1) (2 ^ 64)).
  pose proof (N.mod_lt (j + 1) (2 ^ 64)). pose proof (N.mod_lt (k + 1) (2 ^ 64)). nia.
Qed.
End host.

(** ** Whole turns *)

Lemma nodup_submseteq {A} (xs ys : list A) : xs ⊆+ ys → NoDup ys → NoDup xs.
Proof. intros [zs ->]%submseteq_Permutation Hd. by apply NoDup_app in Hd as [? _]. Qed.
Section whole.
Context {G : Type} (L : list PreparedCall) (consent : list Effect → PreparedCall → Prop) (stopped : Prop).
Context (Inv : G → Prop) (one : Batch Num → Turn Num Modifier Timing G → Turn Num Modifier Timing G * bool).
Context (Hone : batch_handled L consent stopped Inv one) (Hat : NoDup (at_ <$> L)).
Abbreviation Turn := (Turn Num Modifier Timing G).
Abbreviation handles := (handles L consent).
Abbreviation progress := (progress L consent stopped).
Implicit Types (t : Turn).
Lemma same_call p q : p ∈ L → q ∈ L → at_ p = at_ q → p = q.
Proof.
  intros [i Hi]%list_elem_of_lookup [j Hj]%list_elem_of_lookup He. rewrite NoDup_alt in Hat.
  assert (i = j) as ->; [|congruence]. apply (Hat i j (at_ p)); rewrite list_lookup_fmap; [by rewrite Hi|by rewrite Hj, He].
Qed.
(** What a handled call has become, once a call of the part before it has failed *)
Lemma skipped_result h0 t t' l p :
  handles h0 t t' l → p ∈ l → (∀ q, q ∈ l → q ∈ L) → skip p h0 = true →
  ∃ es, trace t' = trace t ++ es ∧ (at_ p, skipped_after_prior_error (call p)) ∈ results t' ∧ at_ p ∉ dispatched es.
Proof.
  intros (rs & ms & es & Hr & _ & He & _ & Hp & _ & _ & Hok & Heo) Hin Hl Hs. exists es. split_and!; [done| |].
  - assert (Hi : at_ p ∈ fst <$> rs) by (rewrite Hp; by apply list_elem_of_fmap_2).
    apply list_elem_of_fmap in Hi as ([i b] & Heq & Hib). cbn in Heq. subst i.
    destruct (Hok _ _ Hib) as (q & Hq & Heq & Hq2). apply (same_call q p) in Heq as ->; [|by apply Hl|by apply Hl].
    rewrite Hr. apply elem_of_app. right. by rewrite <- (ok_skipped _ _ _ _ Hq2 Hs).
  - intros (e & Hie & Hd)%list_elem_of_omap. specialize (Heo e Hie). destruct e as [| | |i id name input sc]; try done.
    injection Hd as ->. destruct Heo as (q & extra & Hq & Heq & _ & _ & _ & _ & Hsk & _).
    apply (same_call q p) in Heq as ->; [congruence|done|by apply Hl].
Qed.
Lemma failed_result h0 t t' l p b :
  handles h0 t t' l → (∀ q, q ∈ l → q ∈ L) → p ∈ L → (at_ p, b) ∈ results t' → at_ p ∉ fst <$> results t →
  block_is_error b = true → b ≠ skipped_after_prior_error (call p) →
  covers policy (cascade t') (call p) ∧ (gate p ≠ None → halt_all (cascade t') = true).
Proof.
  intros (rs & ms & es & Hr & _ & _ & _ & _ & _ & _ & Hok & _) Hl Hp Hb Hn Herr Hne.
  rewrite Hr in Hb. apply elem_of_app in Hb as [Hb|Hb]; [destruct Hn; by apply (list_elem_of_fmap_2 fst _ _ Hb)|].
  destruct (Hok _ _ Hb) as (q & Hq & Heq & Hq2). apply (same_call q p) in Heq as ->; [|by apply Hl|done]. split.
  - by destruct (ok_covered _ _ _ _ Hq2 Herr).
  - intros Hg. destruct (gate p) as [g|] eqn:Hgate; [|done]. by destruct (ok_gated _ _ _ _ Hq2 g Hgate) as [?|[_ ?]].
Qed.
Lemma handled_positions h0 t t' l : handles h0 t t' l →
  ∃ rs es, results t' = results t ++ rs ∧ trace t' = trace t ++ es ∧ fst <$> rs ≡ₚ at_ <$> l ∧ dispatched es ⊆+ at_ <$> l.
Proof. intros (rs & ms & es & ? & _ & ? & _ & ? & ? & _). by exists rs, es. Qed.
(** A failure in a batch reaches the calls of the later batches that wait for it. *)
Lemma failures_reach (bs : list (Batch Num)) (b : Batch Num) bs' t t' p p' r :
  run_batches one (bs ++ b :: bs') t = (t', true) → results t = [] → dispatched (trace t) = [] → Inv (gatekeeper t) →
  NoDup (at_ <$> concat (calls <$> bs ++ b :: bs')) →
  (∀ q, q ∈ concat (calls <$> bs ++ b :: bs') → member L q) →
  p ∈ concat (calls <$> bs) → p' ∈ calls b → (at_ p, r) ∈ results t' → block_is_error r = true →
  r ≠ skipped_after_prior_error (call p) → waits_for policy (call p) (call p') ∨ gate p ≠ None →
  (at_ p', skipped_after_prior_error (call p')) ∈ results t' ∧ at_ p' ∉ dispatched (trace t').
Proof.
  intros Hrun Hr0 Hd0 Hi Hnd Hm Hp Hp' Hr Herr Hne Hw.
  rewrite fmap_app, concat_app in Hm, Hnd. cbn in Hm, Hnd. rewrite !fmap_app in Hnd.
  assert (Hm1 : ∀ q, q ∈ concat (calls <$> bs) → member L q) by (intros q Hq; apply Hm, elem_of_app; by left).
  assert (Hm2 : ∀ q, q ∈ calls b → member L q) by (intros q Hq; apply Hm; rewrite !elem_of_app; auto).
  assert (Hm3 : ∀ q, q ∈ concat (calls <$> bs') → member L q) by (intros q Hq; apply Hm; rewrite !elem_of_app; auto).
  apply NoDup_app in Hnd as (_ & Hnd1 & Hnd2). apply NoDup_app in Hnd2 as (_ & Hnd2 & _).
  rewrite run_batches_app in Hrun.
  destruct (run_batches_handled L consent stopped Inv one bs t Hone Hm1 Hi) as [(l1 & _ & Hp1 & _ & H1) Hi1].
  destruct (run_batches one bs t) as [t1 [|]]; [|done]. cbn in Hrun, H1, Hi1, Hp1. specialize (Hp1 eq_refl).
  destruct (Hone b t1 Hm2 Hi1) as [(l2 & _ & Hp2 & _ & H2) Hi2].
  destruct (one b t1) as [t2 [|]]; [|done]. cbn in H2, Hi2, Hp2. specialize (Hp2 eq_refl).
  destruct (run_batches_handled L consent stopped Inv one bs' t2 Hone Hm3 Hi2) as [(l3 & _ & Hp3 & _ & H3) _].
  rewrite Hrun in H3, Hp3. cbn in H3, Hp3. specialize (Hp3 eq_refl).
  apply (handles_perm _ _ _ _ _ _ _ Hp1) in H1. apply (handles_perm _ _ _ _ _ _ _ Hp2) in H2.
  apply (handles_perm _ _ _ _ _ _ _ Hp3) in H3.
  destruct (handled_positions _ _ _ _ H1) as (rs1 & es1 & Hr1 & He1 & Hq1 & Hd1).
  destruct (handled_positions _ _ _ _ H2) as (rs2 & es2 & Hr2 & He2 & Hq2 & Hd2).
  destruct (handled_positions _ _ _ _ H3) as (rs3 & es3 & Hr3 & He3 & Hq3 & Hd3).
  assert (Hin : at_ p ∈ at_ <$> concat (calls <$> bs)) by by apply list_elem_of_fmap_2.
  assert (Hin' : at_ p' ∈ at_ <$> calls b) by by apply list_elem_of_fmap_2.
  assert (Hrp : (at_ p, r) ∈ results t1).
  { rewrite Hr3, Hr2, <- app_assoc in Hr. apply elem_of_app in Hr as [Hr|Hr]; [done|]. destruct (Hnd1 _ Hin).
    apply (list_elem_of_fmap_2 fst) in Hr. rewrite fmap_app, Hq2, Hq3 in Hr. by rewrite <- fmap_app in Hr |- *. }
  destruct (failed_result _ _ _ _ p r H1) as [Hc Hh];
    [intros q Hq; by apply Hm1|by apply Hm1|done|by rewrite Hr0; apply not_elem_of_nil|done|done|].
  assert (Hs : skip p' (cascade t1) = true).
  { destruct Hw as [Hw|Hg]; [by eapply covered_skips|apply halted_skips; by apply Hh]. }
  destruct (skipped_result _ _ _ _ p' H2 Hp' (λ q Hq, proj1 (Hm2 q Hq)) Hs) as (es & He & Hres & Hno).
  split; [rewrite Hr3; apply elem_of_app; by left|].
  rewrite He3, He, He1. unfold dispatched in *. rewrite !omap_app, Hd0, !elem_of_app. intros [[[Hx|Hx]|Hx]|Hx].
  - by apply elem_of_nil in Hx.
  - apply (elem_of_submseteq _ _ _ Hx) in Hd1. apply (Hnd1 _ Hd1). apply elem_of_app. by left.
  - done.
  - apply (elem_of_submseteq _ _ _ Hx) in Hd3. by apply (Hnd2 _ Hin').
Qed.
End whole.

(** *** The two executors *)

Section turns.
Context (value_eq : Value Num → Value Num → bool) (to_string : Value Num → bytes).
Abbreviation prepared tool_calls := (prepare_calls value_eq reg a tool_calls).
Abbreviation terminal := (execute_tool_calls_scoped value_eq to_string redact compact_output reg a scope policy w).
Abbreviation hosted := (execute_tool_calls_with_approval value_eq redact compact_output reg a scope policy w).
Implicit Types (tool_calls : list ContentBlock).
Lemma prepare_keeps c :
  call_id (prepare_call_for_execution value_eq reg a c) = call_id c ∧
  is_tool_use (prepare_call_for_execution value_eq reg a c) = is_tool_use c ∧
  tool_name_of_call (prepare_call_for_execution value_eq reg a c) = tool_name_of_call c.
Proof.
  unfold prepare_call_for_execution. destruct c as [|id name input extra| | |]; try done.
  destruct (_ || _); [done|]. destruct (prepare_input value_eq reg name input); [|done]. by destruct (value_eq _ _).
Qed.
Lemma prepared_in tool_calls p : p ∈ prepared tool_calls →
  gate p = invocation_gate_result reg a (call p) ∧
  ∃ c, tool_calls !! at_ p = Some c ∧ call p = prepare_call_for_execution value_eq reg a c.
Proof.
  unfold prepare_calls. intros [i Hi]%list_elem_of_lookup. rewrite list_lookup_imap in Hi.
  apply fmap_Some in Hi as (c & Hc & ->). split; [done|]. by exists c.
Qed.
Lemma prepared_nodup tool_calls : NoDup (at_ <$> prepared tool_calls).
Proof.
  assert (H : ∀ i p, prepared tool_calls !! i = Some p → at_ p = i).
  { intros i p. unfold prepare_calls. rewrite list_lookup_imap. intros (c & _ & ->)%fmap_Some. done. }
  apply NoDup_alt. intros i j x. rewrite !list_lookup_fmap. intros (p & Hp & ->)%fmap_Some (q & Hq & Heq)%fmap_Some.
  apply H in Hp, Hq. congruence.
Qed.
Lemma partition_prepared tool_calls :
  concat (calls <$> partition reg (prepared tool_calls)) ⊆+ prepared tool_calls ∧
  ∀ p, p ∈ concat (calls <$> partition reg (prepared tool_calls)) → member (prepared tool_calls) p.
Proof.
  destruct (partition_spec reg (prepared tool_calls)) as (_ & _ & ->). split; [apply sublist_submseteq, sublist_filter|].
  intros p [Hu Hp]%list_elem_of_filter. destruct (prepared_in _ _ Hp) as [Hg _]. split; [done|by split].
Qed.
Lemma confirmer_inv_start L (c : ToolConfirmer) : confirmer_inv L c c.
Proof. split_and!; [done|done|by left]. Qed.
Lemma terminal_handled tool_calls (h : option HooksConfig) (c : ToolConfirmer) :
  let L := prepared tool_calls in
  progress L (terminal_consent L c) (quit_typed L) cascade_default (turn_start h c)
    (terminal tool_calls h c).1 (terminal tool_calls h c).2 (concat (calls <$> partition reg L)).
Proof.
  intros L. apply (run_batches_handled L _ _ (confirmer_inv L c)); [apply terminal_batch_handled| |apply confirmer_inv_start].
  apply partition_prepared.
Qed.
Lemma manager_start L (acts : list (HostAction Num)) instance :
  let m := after_host acts instance in manager_inv m (acted L) (asked L) m.
Proof. apply manager_inv_refl; [apply (reachable_manager_inv acts instance)|apply reachable_channels]. Qed.
Lemma hosted_handled auto allowed tool_calls (h : option HooksConfig) acts instance :
  let L := prepared tool_calls in
  let m := after_host acts instance in
  progress L (host_consent L m auto allowed) (withdrawn L) cascade_default (turn_start h m)
    (hosted auto allowed tool_calls h m).1 (hosted auto allowed tool_calls h m).2 (concat (calls <$> partition reg L)).
Proof.
  intros L m. apply (run_batches_handled L _ _ (manager_inv m (acted L) (asked L))); [apply host_batch_handled| |apply manager_start].
  apply partition_prepared.
Qed.

(** *** The properties *)

(** What the gate has checked of a call that runs *)
Definition passed_gate (id name : bytes) (input : Value Num) : Prop :=
  (malformed_calls a !! id = None) ∧ (name ∈ advertised a) ∧ (name ∉ deferred a) ∧ is_Some (get_tool reg name) ∧
  (plan_mode_read_only a = true → plan_category reg name input = Info) ∧
  value_is_object input = true ∧ validate_input reg name input = None ∧
  (∀ why, invocation_decision reg name input ≠ Deny why).
Lemma dispatch_ok L consent stopped {G} (t t' : Turn Num Modifier Timing G) go_on l i id name input sc :
  progress L consent stopped cascade_default t t' go_on l → trace t = [] → Dispatched i id name input sc ∈ trace t' →
  sc = scope ∧ passed_gate id name input ∧
  ∃ p extra, p ∈ L ∧ at_ p = i ∧ call p = ToolUse id name input extra ∧ ∃ seen, seen ⊆ trace t' ∧ consent seen p.
Proof.
  intros (l' & _ & _ & _ & rs & ms & es & _ & _ & He & _ & _ & _ & _ & _ & Heo) Ht Hd. rewrite He, Ht in Hd.
  destruct (Heo _ Hd) as (p & extra & Hp & Hat & Hc & Hs & Hg & Htool & _ & Hcons).
  apply gate_passed in Hg as (? & ? & ? & ? & ? & ? & ?). split_and!; try done. by exists p, extra.
Qed.
Lemma dispatch_once L consent stopped {G} (t t' : Turn Num Modifier Timing G) go_on l :
  progress L consent stopped cascade_default t t' go_on l → trace t = [] → l ⊆+ L → NoDup (at_ <$> L) →
  NoDup (dispatched (trace t')).
Proof.
  intros (l' & Hl' & _ & _ & rs & ms & es & _ & _ & He & _ & _ & Hd & _) Ht Hl Hnd. rewrite He, Ht. cbn.
  eapply nodup_submseteq; [|exact Hnd]. etrans; [exact Hd|]. apply fmap_submseteq. by etrans.
Qed.
(** C12. On a terminal, a tool runs at most once for a call, and only for a call of the
    turn whose name was advertised with its schema, that is not malformed, that plan mode
    allows, whose input is an object its schema accepts, and that the host policy lets
    pass without an approval; and only when the session approves everything, the tool is
    allow-listed, or the user, in a session that may ask, typed yes for this call or
    always for a call of this tool. *)
Theorem terminal_calls_authorized tool_calls (h : option HooksConfig) (c : ToolConfirmer) :
  let calls := prepared tool_calls in
  let t := (terminal tool_calls h c).1 in
  NoDup (dispatched (trace t)) ∧
  ∀ i id name input sc, Dispatched i id name input sc ∈ trace t →
    sc = scope ∧ passed_gate id name input ∧ needs_host_approval reg name input = false ∧
    ∃ p extra, p ∈ calls ∧ at_ p = i ∧ call p = ToolUse id name input extra ∧
      (auto_approve c = true ∨ name ∈ allow_list c ∨
       deny_unconfirmed c = false ∧
         (typed p LineApprove ∨
          ∃ q, q ∈ calls ∧ gate q = None ∧ tool_name_of_call (call q) = name ∧ typed q LineAlways)).
Proof.
  intros L t. pose proof (terminal_handled tool_calls h c) as Hp. split.
  - eapply dispatch_once; [exact Hp|done|apply partition_prepared|apply prepared_nodup].
  - intros i id name input sc Hd. destruct (dispatch_ok _ _ _ _ _ _ _ _ _ _ _ _ Hp eq_refl Hd)
      as (-> & Hg & p & extra & Hin & Hat & Hc & seen & _ & Ha & Hn).
    split; [done|]. split; [done|]. split; [by eapply Hn|]. exists p, extra. split_and!; [done|done|done|].
    unfold agreed, always_granted in Ha. rewrite Hc in Ha. cbn in Ha. naive_solver.
Qed.
(** C11. With a host, a tool runs at most once for a call and only behind the same gate.
    When the host policy asks for it, the turn has registered this call and the host has
    approved exactly this registration while it was awaited, under this message and call,
    with its identifier and before it expired; no two registrations of a turn have the
    same identifier, nor has one of the 2^64 - 1 before it, so an old approval does not
    count again.  Otherwise the session is automatic, the tool or the allow list exempts
    the call, its category was granted, or the host approved the call while it was
    awaited. *)
Theorem host_calls_authorized auto allowed tool_calls (h : option HooksConfig) (acts : list (HostAction Num)) instance :
  let calls := prepared tool_calls in
  let m := after_host acts instance in
  let t := (hosted auto allowed tool_calls h m).1 in
  NoDup (dispatched (trace t)) ∧
  (∀ i id name input sc, Dispatched i id name input sc ∈ trace t →
    sc = scope ∧ passed_gate id name input ∧
    ∃ p extra, p ∈ calls ∧ at_ p = i ∧ call p = ToolUse id name input extra ∧
      if needs_host_approval reg name input then
        ∃ now k, Registered i k ∈ trace t ∧
          HResolveScoped now scope id (registration_id m k) true ∈ host_waiting w i ∧
          (now < instant_of w i + approval_limit reg name input)%N
      else approved_already calls m auto allowed name input ∨ approved_waiting p id) ∧
  StronglySorted N.lt (registrations (trace t)) ∧
  ∀ i k, Registered i k ∈ trace t →
    (next_channel m ≤ k)%N ∧ ∀ j, (j < k < j + 2 ^ 64)%N → registration_id m j ≠ registration_id m k.
Proof.
  intros L m t. pose proof (hosted_handled auto allowed tool_calls h acts instance) as Hp.
  destruct (counted_batches auto allowed (partition reg L) (turn_start h m)) as (es & He & Hn).
  change (trace t = es) in He. rewrite <- He in Hn. change (next_channel (gatekeeper (turn_start h m))) with (next_channel m) in Hn.
  split_and!; [| |by eapply numbered_sorted|].
  - eapply dispatch_once; [exact Hp|done|apply partition_prepared|apply prepared_nodup].
  - intros i id name input sc Hd. destruct (dispatch_ok _ _ _ _ _ _ _ _ _ _ _ _ Hp eq_refl Hd)
      as (-> & Hg & p & extra & Hin & <- & Hc & seen & Hseen & Ha).
    split; [done|]. split; [done|]. exists p, extra. split_and!; [done|done|done|]. specialize (Ha _ _ _ _ Hc).
    destruct (needs_host_approval reg name input); [|done]. destruct Ha as (now & k & Hk & ?). exists now, k.
    split; [by apply Hseen|done].
  - intros i k Hk. split; [|intros j [? ?]; by apply registration_id_fresh].
    eapply numbered_ge; [exact Hn|]. apply list_elem_of_omap. by exists (Registered i k).
Qed.
(** The results of a turn: one per tool use, with its identifier *)
Definition answered {G} tool_calls (t : Turn Num Modifier Timing G) (go_on : bool) (stopped : Prop) : Prop :=
  NoDup (fst <$> results t) ∧ length (modifiers t) = length (results t) ∧
  (∀ i b, (i, b) ∈ results t → ∃ c content is_error images,
     tool_calls !! i = Some c ∧ is_tool_use c = true ∧ b = ToolResult (call_id c) content is_error images) ∧
  (go_on = true → ∀ i c, tool_calls !! i = Some c → is_tool_use c = true → i ∈ fst <$> results t) ∧
  (go_on = false → stopped).
Lemma progress_answered {G} consent stopped (h : option HooksConfig) (g : G) t go_on tool_calls :
  let L := prepared tool_calls in
  progress L consent stopped cascade_default (turn_start h g) t go_on (concat (calls <$> partition reg L)) →
  answered tool_calls t go_on stopped.
Proof.
  intros L (l & Hl & Hgo & Hstop & rs & ms & es & Hr & Hm & _ & Hlen & Hp & _ & _ & Hok & _). cbn in Hr, Hm.
  destruct (partition_prepared tool_calls) as [Hsub Hmem]. unfold answered. rewrite Hr, Hm. split_and!; try done.
  - rewrite Hp. eapply nodup_submseteq; [|apply (prepared_nodup tool_calls)]. apply fmap_submseteq. by etrans.
  - intros i b Hib. destruct (Hok i b Hib) as (p & Hin & Hat & [(content & is_error & images & Hb) _ _ _]).
    destruct (Hmem p) as [Hin' [Hu _]]; [by eapply elem_of_submseteq|].
    destruct (prepared_in _ _ Hin') as (_ & c & Hc & Hcall). destruct (prepare_keeps c) as (Hid & Huse & _).
    exists c, content, is_error, images. subst i. split_and!; [done| |]; [|by rewrite Hb, Hcall, Hid].
    unfold is_use in Hu. by rewrite Hcall, Huse in Hu.
  - intros Hg i c Hc Hu. rewrite Hp. set (p := prepare_at value_eq reg a i c).
    apply list_elem_of_fmap. exists p. split; [done|]. rewrite (Hgo Hg).
    destruct (partition_spec reg L) as (_ & _ & ->). apply list_elem_of_filter. split.
    + unfold is_use, p. cbn. destruct (prepare_keeps c) as (_ & Huse & _). by rewrite Huse.
    + apply list_elem_of_lookup. exists i. unfold L, prepare_calls. rewrite list_lookup_imap, Hc. done.
Qed.
(** C13. Both executors answer every tool use of the turn with exactly one result that
    carries its identifier, keep as many context modifiers as results, and answer nothing
    else; they stop early only when the user quits at a prompt, or the host withdraws an
    approval that is awaited. *)
Theorem every_call_answered auto allowed tool_calls (h : option HooksConfig) (c : ToolConfirmer)
    (acts : list (HostAction Num)) instance :
  let calls := prepared tool_calls in
  let m := after_host acts instance in
  let x := terminal tool_calls h c in
  let y := hosted auto allowed tool_calls h m in
  answered tool_calls x.1 x.2 (∃ p, p ∈ calls ∧ typed p LineQuit) ∧
  answered tool_calls y.1 y.2
    (∃ p act, p ∈ calls ∧ act ∈ host_waiting w (at_ p) ∧ withdraws act (call_id (call p))).
Proof.
  intros L m x y. split; eapply progress_answered; [exact (terminal_handled tool_calls h c)|].
  exact (hosted_handled auto allowed tool_calls h acts instance).
Qed.
(** A failed call halts the later calls that wait for it. *)
Definition halts {G} tool_calls (t : Turn Num Modifier Timing G) : Prop :=
  ∀ bs (b : Batch Num) bs' p p' r,
    partition reg (prepared tool_calls) = bs ++ b :: bs' → p ∈ concat (calls <$> bs) → p' ∈ calls b →
    (at_ p, r) ∈ results t → block_is_error r = true → r ≠ skipped_after_prior_error (call p) →
    waits_for policy (call p) (call p') ∨ gate p ≠ None →
    (at_ p', skipped_after_prior_error (call p')) ∈ results t ∧ at_ p' ∉ dispatched (trace t).
Lemma batches_halt {G} consent stopped (Inv : G → Prop) one (h : option HooksConfig) (g : G) tool_calls :
  let x := run_batches one (partition reg (prepared tool_calls)) (turn_start h g) in
  batch_handled (prepared tool_calls) consent stopped Inv one → Inv g → x.2 = true → halts tool_calls x.1.
Proof.
  intros x Hone Hi Hx bs b bs' p p' r Hpart. destruct (partition_prepared tool_calls) as [Hsub Hmem]. subst x.
  rewrite Hpart in Hx, Hsub, Hmem |- *. destruct (run_batches _ _ _) as [t go_on] eqn:Hrun. cbn in Hx |- *. subst go_on.
  eapply (failures_reach _ _ _ _ _ Hone (prepared_nodup _) bs b bs' (turn_start h g)); try done.
  eapply nodup_submseteq; [|apply (prepared_nodup tool_calls)]. by apply fmap_submseteq.
Qed.
(** C14. When a call fails (and was not itself skipped) in a turn that was not stopped
    early, no call of a later batch that waits for it runs: under the strict policy every later call, under the other one a
    call with side effects that conflicts with a failed call with side effects; a call
    that the gate refused halts every later batch.  What is halted is answered as
    skipped. *)
Theorem failures_halt_dependents auto allowed tool_calls (h : option HooksConfig) (c : ToolConfirmer)
    (acts : list (HostAction Num)) instance :
  let x := terminal tool_calls h c in
  let y := hosted auto allowed tool_calls h (after_host acts instance) in
  (x.2 = true → halts tool_calls x.1) ∧ (y.2 = true → halts tool_calls y.1).
Proof.
  intros x y. split; eapply batches_halt; [apply terminal_batch_handled|apply confirmer_inv_start|apply host_batch_handled|].
  apply manager_start.
Qed.
End turns.
End executor.

Lemma chained_forced {Num} (reg : ToolRegistry Num) bs bs' b b' : chained reg (bs ++ b' :: b :: bs') → forced reg b b'.
Proof. induction bs as [|x [|y bs] IH]; cbn; [tauto|tauto|]. intros [_ H]. by apply IH. Qed.
(** C15. The batches of a turn hold its tool uses in order; two calls of one batch never
    conflict (neither excludes others, or both lock paths of which none lies within one
    of the other); and a batch ends only where the next call conflicts with one in it. *)
Theorem batches_keep_apart {Num} (reg : ToolRegistry Num) (l : list (PreparedCall Num)) :
  concat (calls <$> partition reg l) = filter (λ p, is_use p = true) l ∧
  (∀ b, b ∈ partition reg l → calls b ≠ [] ∧ ForallOrdPairs apart (occ_of reg <$> calls b)) ∧
  (∀ bs b b' bs', partition reg l = bs ++ b :: b' :: bs' → forced reg b b').
Proof.
  destruct (partition_spec reg l) as (Hok & Hch & Hl). split_and!; [done| |].
  - intros b Hb. rewrite Forall_forall in Hok. destruct (Hok b Hb) as (_ & Ha & Hne & _). done.
  - intros bs b b' bs' He. rewrite He, rev_app_distr in Hch. cbn in Hch. rewrite <- !app_assoc in Hch.
    by apply chained_forced in Hch.
Qed.

(** ** The properties at concrete turns *)

Section demo.
Definition demo_tool (name : string) : RegisteredTool N :=
  mkTool (as_bytes name) false (as_bytes name) EditCategory (λ _, EditCategory) (λ _ _, false) (λ _, false) (λ _, [])
    (λ _, NANOS_PER_SEC) 1000 (λ _, None).
Definition demo_contract : ToolInputContract N := mkContractOf (λ _, None) (λ v, v) (λ _, []).
Definition demo_registry (policy : option (bytes → Value N → InvocationDecision)) : ToolRegistry N :=
  mkRegistry [demo_tool "Write"; demo_tool "Bash"]
    (<[as_bytes "Write" := demo_contract]> {[as_bytes "Bash" := demo_contract]}) ∅ policy.
Definition demo_authority : ProviderToolAuthority :=
  from_request_tools [mkToolDef (as_bytes "Write") false; mkToolDef (as_bytes "Bash") false].
(** The user types yes, the calls at [fails] return an error, and the host acts while it
    is waited for. *)
Definition demo_world (fails : nat → bool) (waiting : list (HostAction N)) : World N unit unit :=
  mkWorld (λ _, Some (as_bytes "yes")) (λ i _, mkRun None (Returned (as_bytes "done") (fails i) [] None) None None)
    (λ _, ()) (λ _, []) (λ _, []) (λ _, waiting) (λ _, 0%N) (λ _, 0%N).
Definition demo_write : ContentBlock N :=
  ToolUse (as_bytes "c1") (as_bytes "Write") (Object [(as_bytes "file_path", Str (as_bytes "a.txt"))]) None.
Definition demo_bash : ContentBlock N := ToolUse (as_bytes "c2") (as_bytes "Bash") (Object []) None.
Definition demo_turn (fails : nat → bool) : Turn N unit unit ToolConfirmer * bool :=
  execute_tool_calls_scoped (λ _ _, true) (λ _, []) id id (demo_registry None) demo_authority (as_bytes "m1")
    HaltAfterMutatingOrGate (demo_world fails []) [demo_write; demo_bash] None (confirmer_new false []).
Definition demo_yes : list (HostAction N) := [HResolveScoped 5 (as_bytes "m1") (as_bytes "c1") (as_bytes "voice:s:1:m1") true].
Definition demo_host_turn (waiting : list (HostAction N)) : Turn N unit unit (ToolApprovalManager N) * bool :=
  execute_tool_calls_with_approval (λ _ _, true) id id
    (demo_registry (Some (λ _ _, RequireApproval [] NANOS_PER_SEC))) demo_authority (as_bytes "m1") HaltAfterMutatingOrGate
    (demo_world (λ _, false) waiting) false [] [demo_write] None (after_host [] (as_bytes "s")).
Lemma terminal_calls_authorized_witness :
  dispatched (trace (demo_turn (λ _, false)).1) = [0; 1] ∧ NoDup (dispatched (trace (demo_turn (λ _, false)).1)) ∧
  passed_gate (demo_registry None) demo_authority (as_bytes "c2") (as_bytes "Bash") (Object []).
Proof.
  split; [vm_compute; reflexivity|].
  destruct (terminal_calls_authorized id id (demo_registry None) demo_authority (as_bytes "m1") HaltAfterMutatingOrGate
    (demo_world (λ _, false) []) (λ _ _, true) (λ _, []) [demo_write; demo_bash] None (confirmer_new false [])) as [Hn H].
  split; [exact Hn|]. refine (proj1 (proj2 (H 1 _ _ _ (as_bytes "m1") _))).
  apply (list_elem_of_lookup_2 _ 3). vm_compute. reflexivity.
Defined.
(** Without the answer of the host nothing runs; with it the call does. *)
Lemma host_calls_authorized_witness :
  dispatched (trace (demo_host_turn []).1) = [] ∧ dispatched (trace (demo_host_turn demo_yes).1) = [0] ∧
  passed_gate (demo_registry (Some (λ _ _, RequireApproval [] NANOS_PER_SEC))) demo_authority (as_bytes "c1")
    (as_bytes "Write") (Object [(as_bytes "file_path", Str (as_bytes "a.txt"))]).
Proof.
  split; [vm_compute; reflexivity|]. split; [vm_compute; reflexivity|].
  destruct (host_calls_authorized id id (demo_registry (Some (λ _ _, RequireApproval [] NANOS_PER_SEC))) demo_authority
    (as_bytes "m1") HaltAfterMutatingOrGate (demo_world (λ _, false) demo_yes) (λ _ _, true) false [] [demo_write] None
    [] (as_bytes "s")) as [_ [H _]].
  refine (proj1 (proj2 (H 0 _ _ _ (as_bytes "m1") _))). apply (list_elem_of_lookup_2 _ 3). vm_compute. reflexivity.
Defined.
Lemma every_call_answered_witness :
  (demo_turn (λ _, false)).2 = true ∧ fst <$> results (demo_turn (λ _, false)).1 = [0; 1] ∧
  1 ∈ fst <$> results (demo_turn (λ _, false)).1.
Proof.
  split; [vm_compute; reflexivity|]. split; [vm_compute; reflexivity|].
  destruct (every_call_answered id id (demo_registry None) demo_authority (as_bytes "m1") HaltAfterMutatingOrGate
    (demo_world (λ _, false) []) (λ _ _, true) (λ _, []) false [] [demo_write; demo_bash] None (confirmer_new false [])
    [] []) as [(_ & _ & _ & H & _) _].
  apply (H ltac:(vm_compute; reflexivity) 1 demo_bash); reflexivity.
Defined.
(** The write fails: the command after it does not run. *)
Lemma failures_halt_dependents_witness :
  dispatched (trace (demo_turn (λ i, i =? 0)).1) = [0] ∧
  (1, skipped_after_prior_error demo_bash) ∈ results (demo_turn (λ i, i =? 0)).1.
Proof.
  split; [vm_compute; reflexivity|].
  destruct (failures_halt_dependents id id (demo_registry None) demo_authority (as_bytes "m1") HaltAfterMutatingOrGate
    (demo_world (λ i, i =? 0) []) (λ _ _, true) (λ _, []) false [] [demo_write; demo_bash] None (confirmer_new false [])
    [] []) as [H _].
  set (l := prepare_calls (λ _ _, true) (demo_registry None) demo_authority [demo_write; demo_bash]).
  set (p := mkPrepared 0 demo_write None). set (p' := mkPrepared 1 demo_bash None).
  set (o := occ_of (demo_registry None)).
  refine (proj1 (H ltac:(vm_compute; reflexivity) [mkBatch false [p] [o p]] (mkBatch false [p'] [o p']) [] p p'
    (ToolResult (as_bytes "c1") (as_bytes "done") true []) _ _ _ _ _ _ _)).
  - vm_compute. reflexivity.
  - by left.
  - by left.
  - apply (list_elem_of_lookup_2 _ 0). vm_compute. reflexivity.
  - reflexivity.
  - discriminate.
  - left. vm_compute. done.
Defined.
(** Writes of two files share a batch, the command does not. *)
Definition demo_calls : list (PreparedCall N) :=
  [mkPrepared 0 demo_write None;
   mkPrepared 1 (ToolUse (as_bytes "c3") (as_bytes "Write")
     (Object [(as_bytes "file_path", Str (as_bytes "b.txt"))]) None) None;
   mkPrepared 2 demo_bash None].
Lemma batches_keep_apart_witness :
  length <$> (calls <$> partition (demo_registry None) demo_calls) = [2; 1] ∧
  concat (calls <$> partition (demo_registry None) demo_calls) = demo_calls.
Proof.
  split; [vm_compute; reflexivity|]. etransitivity; [apply (proj1 (batches_keep_apart _ _))|vm_compute; reflexivity].
Defined.
End demo.
